(* ===== verification/_CoqProject ===== *)
-Q . S2P
Prelude.v
RustStr.v
SeekSequence.v
PatchTypes.v
Replacements.v
PatchParser.v
PatchRoundTrip.v
FileSystem.v
ApplyPatch.v
PatchRun.v
TurnDiff.v
AbsolutePath.v
ExecPolicy.v
PolicyParser.v
PolicyAmend.v
HeadTailBuffer.v
Truncate.v
ResponseItems.v
ContextManager.v
StrSearch.v
Decimal.v
StreamText.v
InlineHiddenTag.v
Citation.v
TaggedLine.v
AssistantText.v
Utf8Stream.v
ShellParse.v
CommandSafety.v
Permissions.v
PermissionLaws.v
ExecApproval.v
ApprovalLaws.v
PatchVerify.v
StreamChunking.v
Orchestrator.v
OrchestratorLaws.v
ApprovalCache.v
NetworkApproval.v
NetworkApprovalLaws.v
AgentPath.v
AgentRegistry.v
AgentRegistryLaws.v
AgentResidency.v
Template.v
IpAddr.v
HostPolicy.v
MitmHooks.v
NetworkConfig.v
ProxyState.v
ProxyAddr.v
ProxyStateLaws.v
NetworkPolicy.v
NetworkPolicyLaws.v
ProxyApproval.v
ProxySpec.v
ShellEnv.v
RolloutTruncation.v
FuzzyMatch.v
PasteBurst.v
ComposerPaste.v
ComposerLaws.v
TextEdit.v
VimEdit.v
TextEditLaws.v
TextElements.v
TextKeysLaws.v
VimLaws.v
TextRefine.v
CoreItems.v
ThreadItems.v
ThreadHistory.v
ThreadHistoryLaws.v
ThreadHistorySteps.v
ThreadHistoryBatch.v
ThreadHistoryReplay.v
