(* ===== verification/Prelude.v ===== *)
(** * A verification of the core of the Codex agent

    Codex (src/openai-codex/codex-rs) is a coding agent: a model proposes shell commands and
    patches, the program decides which of them may run, runs them, and keeps the
    conversation that is sent back to the model.  This library models the parts of it that
    carry the program's own logic, and proves what makes them correct.  Paths below are
    relative to src/openai-codex/codex-rs.

    ** The parts and how they interact

    - {e Patches} (apply-patch/src).  The model writes a patch as text.  [parse_patch]
      (parser.rs) checks its boundary lines, also inside a shell heredoc, and runs the
      streaming parser (streaming_parser.rs), which the user interface feeds piece by piece
      while the text arrives.  [apply_patch] (lib.rs) applies the hunks one by one through
      the trait [ExecutorFileSystem] (file-system/src/lib.rs); an update hunk is located in
      the file by [seek_sequence] (seek_sequence.rs), turned into replacements of line
      ranges and spliced in.  What was committed is recorded in an [AppliedPatchDelta], also
      when the run stops half way.  Patches hidden in shell commands are recognised and
      verified in invocation.rs, and core/src/safety.rs decides whether a verified patch may
      be applied without asking.
    - {e The turn diff} (core/src/turn_diff_tracker.rs) consumes the deltas and shows one
      diff per turn, without reading the files again.
    - {e Commands} (shell-command/src): a shell invocation is split into plain commands from
      its syntax tree, and commands known to be safe or dangerous are recognised.
    - {e The exec policy} (execpolicy/src) decides whether a command may run: rules are read
      from policy files, evaluated on commands, merged, and appended to when the user keeps
      an approval.  Program paths go through utils/absolute-path.
    - {e Approval} (core/src/exec_policy.rs, core/src/tools/sandboxing.rs) combines the two
      with the approval settings: a command is run, put to the user or refused, and an
      amendment of the policy may be proposed and kept.
    - {e Running} (core/src/tools): the orchestrator asks hooks, the automatic reviewer or the
      user, chooses the sandbox, runs the tool, and after a denial may run it again without
      the sandbox; approvals for the session are remembered; and requests of a running
      command to reach a host are put to the same parties, many at a time.
    - {e The network} (network-proxy/src).  A sandboxed command reaches the network through a
      proxy.  Its policy is a configuration within managed constraints (config.rs, state.rs),
      compiled into lists of hosts (policy.rs) and hooks for intercepted requests
      (mitm_hook.rs), and changed while requests are answered (runtime.rs).  The handlers of
      HTTP, CONNECT, SOCKS and intercepted requests ask the policy and, for hosts that no rule
      mentions, the decider (network_policy.rs), which is the network approval above.
      core/src/config/network_proxy_spec.rs makes the policy of a session.
    - {e The environment} of commands (protocol/src/shell_environment.rs) is filtered.
    - {e Agents} (core/src/agent): an agent may spawn others, up to a limit; the registry counts
      them and finds them by path (protocol/src/agent_path.rs), and the residency decides
      which threads stay loaded.
    - {e Permissions} (protocol/src/permissions.rs, models.rs): which paths a sandboxed
      command may read and write, and the translation from and to the older policies.
    - {e Output} (core/src/unified_exec/head_tail_buffer.rs, utils/string/src/truncate.rs,
      utils/output-truncation): the output of a command is capped, keeping both ends.
    - {e Streams} (utils/stream-parser/src): the answer of the model arrives in pieces;
      citations and plan blocks are cut out of it on the fly.  The user interface queues its
      lines and shows them at an adaptive pace (tui/src/streaming).
    - {e History} (core/src/context_manager): the items of the conversation are recorded,
      truncated, normalised into a prompt, trimmed and rolled back; stored threads are cut at
      turns for forks (core/src/thread_rollout_truncation.rs).
    - {e The composer} (tui/src/bottom_pane): what the user types goes through the detector of
      pastes that arrive as fast keys (paste_burst.rs) into a text area (textarea.rs and
      textarea/vim.rs); long pastes are shown as placeholders and expanded when the text is
      submitted (chat_composer.rs).
    - {e Thread histories} (app-server-protocol/src/protocol): what happens in a thread is written to
      a rollout (rollout/src/policy.rs chooses what).  thread_history.rs rebuilds from it the turns
      and items that the clients show, and reports for each item, or for a batch of items, what it
      changed; thread_history_projection.rs reports changes from a line alone.  The items of the core
      (protocol/src/items.rs) are converted to those of the clients (v2/item.rs, item_builders.rs).
    - {e Utilities}: templates (utils/template) and fuzzy matching (utils/fuzzy-match).

    ** The files

    Of each file, the properties named C1, C2, ... in its comments; the other theorems are
    stated beside them.

    - [Prelude]: [result] for [Result]; the monad [M] for methods on [&mut self], which keeps
      the state assigned before an error; notations ([rust_scope]), tactics, hints.
    - [RustStr]: strings as lists of scalar values, with the functions of [str] the code uses.
    - [SeekSequence]: [seek_sequence].  The match found is genuine, strictest level first, first
      position at that level; when it fails; the end-of-file anchor.
    - [PatchTypes]: markers, hunks, chunks and errors of the patch format.
    - [Replacements]: [compute_replacements], [apply_replacements] and the text part of
      [derive_new_contents_from_chunks].  Soundness of the replacements; refinement of the
      in-place vector edits to one simultaneous substitution; no panic; an edit script is
      carried out, up to a final blank line; an overlap that loses a line.
    - [PatchParser]: the streaming parser as a state machine on characters, [finish], the
      strict and lenient batch parser.  Pieces do not matter; snapshots grow; finished
      hunks are complete, an invariant of the reachable states.
    - [PatchRoundTrip]: the grammar as an abstract syntax with a printer.  C9 (round trip);
      heredocs.
    - [FileSystem]: the classes [PathOps], [ExecutorFileSystem] and [FileSystemLaws], what
      implementations promise; the instance [MemFs] shows that the laws can hold.  Different paths
      are different files there: links, which the metadata follow, are only dangling ones.
    - [ApplyPatch]: the hunk loop with its delta, outputs and error paths.  C15 (an exact delta
      replays to the file system, under any faults, if no hunk moves a file onto itself and none
      meets a dangling link); confinement to the files named; the summary; a rename to itself and
      a dangling link, for which the delta is wrong.
    - [PatchRun]: parser, editing and hunk loop composed.  C10 (a printed edit script, applied,
      yields the intended file).
    - [TurnDiff]: the tracker with its cache of rendered diffs.  C16 (simulation: the tracker
      follows the file systems); the cache is unobservable; when the diff is empty;
      invalidation is final.
    - [AbsolutePath]: components, home expansion, [normalize_path], the constructors of
      [AbsolutePathBuf], and what an absolute path is.
    - [ExecPolicy]: decisions, rules, hosts, the policy and its evaluation.  C17 (the strictest
      rule decides); overlays, several commands, network domains, hosts.
    - [PolicyParser]: the builtins of policy files, the builder and example validation.
      Examples are tests of the built policy; what a rule covers.
    - [PolicyAmend]: appending a rule to a policy file under failing system calls.
    - [HeadTailBuffer]: the capped buffer.  C31 (it is a function of the whole output); what is
      shown.
    - [Truncate]: cutting a text in the middle.
    - [ResponseItems]: items of the conversation and the truncation of structured outputs.
    - [ContextManager]: normalisation and the history operations.  C18 (every call has its
      output), C38 (roll-back); dropping the oldest item, stability.
    - [StrSearch]: [str::find] and its first occurrence.
    - [StreamText]: the trait [StreamTextParser] as a class, and the class [StreamLaws] of
      parsers for which the pieces do not matter, which the clients' theorems are stated on.
    - [InlineHiddenTag]: the generic parser of hidden tags.  C40 (its loop ends).
    - [Citation]: its instance for citations computes a grammar, whatever the pieces.
    - [TaggedLine]: blocks between tags on lines of their own; the parser works line by line.
    - [AssistantText]: the plan parser and the composition with citations.  C35.
    - [Utf8Stream]: bytes in front of any such parser.  C36 (the cuts do not matter);
      round trip.
    - [ShellParse]: shells, words and commands from syntax trees.  C34 (all commands of a
      script, in source order); here-documents.
    - [CommandSafety]: safe and dangerous commands, never both; git; the argument of [sed].
    - [Permissions]: policies, access of paths, protected metadata, profiles; and
      [PermissionLaws]: C32 (metadata); whole-disk write access; the most specific entry
      decides; older policies survive the translation.
    - [ExecApproval]: the approval of commands; and [ApprovalLaws]: C2 (what each answer
      means), C3 (the untrusted mode), C23 (a kept approval takes effect).
    - [PatchVerify]: recognition and verification of patches, composed with [Permissions] and
      [ApplyPatch].  C1 (a patch approved automatically writes only writable paths, where links
      do not lead elsewhere).
    - [StreamChunking]: the pace of the user interface.  Every queued line is shown; no flicker
      between the modes.
    - [Orchestrator]: a tool call from approval to its last attempt, over the class [Session];
      and [OrchestratorLaws]: C4 (from the rules to the run of a command), C5 (what it takes to
      leave the sandbox), C25 (a refusal is final); from the assessment of a patch to its
      application; at most one retry.
    - [ApprovalCache]: approvals remembered for the session, and the canonical form of
      commands.  C24 (a remembered command was approved); what is remembered is what was
      approved.
    - [NetworkApproval]: access to hosts, with handlers that interleave; and
      [NetworkApprovalLaws]: C22 (every request is answered and no wake-up is lost, if no handler
      is dropped); one question per host; a host is reached only with consent; a denied call is
      told so.
    - [AgentPath]: paths of agents and references to them; they are the absolute paths of valid
      names, and names join and resolve as segments.
    - [AgentRegistry]: the registry cut at its locks and atomic operations, with spawns and
      releases that interleave; and [AgentRegistryLaws]: C19 (the counter is the number of
      agents and of slots held, and of threads that were committed again), C20 (the limit is kept); a reference finds its agent;
      nicknames are distinct.
    - [AgentResidency]: the threads that stay loaded.  C21 (by how much the capacity can be
      exceeded); one task alone; schedules in which the code does less than it means to.
    - [Template]: templates.  C39 (a parsed template is well formed and printed back); what is
      rendered; escaped text.
    - [IpAddr]: literals and classes of addresses; and [HostPolicy]: normalised hosts, patterns
      and compiled lists.  The comparison of patterns is the inclusion of what they match; what
      a compiled list matches.
    - [MitmHooks]: hooks of intercepted requests.  C27 (the compiled hooks say what the
      configured ones say); validation finds every error but those of secrets.
    - [NetworkConfig]: the configuration, its setters and the managed constraints; and
      [ProxyAddr]: the addresses the proxy listens on, loopback unless allowed otherwise.
    - [ProxyState]: the policy in force, cut at its locks; and [ProxyStateLaws]: C11 (it keeps
      the constraints, whatever is interleaved, if what is delivered was validated and built), C12 (each change applies to the policy of its
      moment), C13 (what [host_blocked] allows); an added rule takes effect.
    - [NetworkPolicy]: the handlers of requests, each read of the policy being of some state of
      that moment; and [NetworkPolicyLaws]: C7 (denied hosts), C8 (limited mode); hosts with
      hooks are intercepted; what is allowed is allowed by a rule or the decider; refusals are recorded.
    - [ProxyApproval]: [NetworkApproval] as the decider of [NetworkPolicy].  C6 (whatever is
      reached, a rule allows or consent was given for).
    - [ProxySpec]: the policy of a session.  C14 (only managed domains); the states a session
      builds are those that [ProxyState] expects.
    - [ShellEnv]: the environment of commands.  C33 (secrets are not inherited); what a command
      sees of each variable.
    - [RolloutTruncation]: cuts of stored threads.  One pass computes the effective history;
      what the last turns are.
    - [FuzzyMatch]: the match is a subsequence, and what is highlighted.
    - [Decimal]: decimal numbers as [str::parse] reads and [Display] writes them.
    - [PasteBurst]: the detector of pastes; [ComposerPaste]: the keys of the composer that change
      its text, on the pieces before and after the cursor; and [ComposerLaws]: C28 (what is typed
      is what is submitted, at any speed, but for an Enter while a first character is held back).
    - [TextEdit]: the text area on byte offsets; [VimEdit]: its modal keys.  [TextEditLaws] shows
      that it stands for a sequence of pieces and that edits keep it so, [TextElements] that
      operations on elements do, [TextKeysLaws] that the keys of the editor do, and [VimLaws] that
      modal keys do; and [TextRefine]: C29 (no operation panics, elements stay whole), C30 (it implements the pieces that [ComposerPaste] works on),
      C37 (killed text can be yanked back).
    - [CoreItems]: the items of a turn in the core; [ThreadItems]: those of the clients, their
      conversion and the builders of items from events, over the class [Wire].  [ThreadHistory]:
      the builder of turns with every handler, the change sets and their accumulator, the
      projection, the choice of what is persisted.  [ThreadHistoryLaws] has what a client does with
      a change set and the invariant on ids; [ThreadHistorySteps] shows for every handler that
      what it reports is what it changed; [ThreadHistoryBatch] that reporting is not observable and
      which changes commute; and [ThreadHistoryReplay]: C26 (applying the merged report of a batch to
      the turns of a thread gives the turns of the longer rollout); ids are unique; the projection
      agrees with the builder; a failed turn is read back as completed.

    ** How the code is read

    A [String] is the list of its scalar values; where the code counts or slices bytes, the
    UTF-8 width of each value is used and a slice off a boundary is a panic ([None]).  A [Vec]
    is a list; [Vec::insert] and [remove] out of range are panics.  Line and hunk counters are
    [nat]; byte counts in [HeadTailBuffer] and [Truncate] are [N] with the saturating
    arithmetic of the code at [usize_max]; durations are [N], in nanoseconds.  A [HashMap] or
    [BTreeMap] is a [gmap], or an association list where only its entries matter.  A loop is
    structural recursion on what it consumes (lines, characters, hunks, items).  The others
    have fuel that is shown to be enough: [trim_pre_turn_context_updates] counts down from its
    index to the first turn and needs exactly their difference; [push_loop] of the tag parser
    gets one more than the buffered length, as every round but the last consumes a delimiter
    (C40); the walks over syntax trees get the number of nodes; [detect_loop] gets one more
    than the length of the path, which shrinks at every call; [expand_loop] of the text
    area gets the start of the range and the length of the text, and every round but the last
    moves an end of the range ([expand_loop_spec]); [parse_loop] of templates gets one
    more than the length of the text; [try_increment_spawned] gets one
    more than the number of times the exchange fails spuriously.  Async code is sequential:
    the functions modelled await one operation at a time and hold [&mut] to their state, or
    a lock; where calls overlap, in [ApprovalCache], [NetworkApproval], [AgentRegistry],
    [AgentResidency] and [ProxyState], the sections that hold a lock and the atomic operations
    are the steps of a relation, taken in any order, as are the notifications of [tokio::sync::Notify]
    in [NetworkApproval], where a future of [notified] ends when [notify_waiters] was called after
    it was made; in [NetworkPolicy] every read of the policy
    gets a state of its own.  Log messages and metrics are
    left out.  Platform switches are read as on Linux; [get_platform_sandbox] is modelled for
    every platform.

    Parameters stand for code that is not in the repository: the line differ and the blob
    hash ([similar], [sha1]) and [Path::strip_prefix] in [TurnDiff]; the Starlark evaluator,
    [shlex] and the rendering of errors in [PolicyParser]; [serde_json] in [PolicyAmend], with
    the hypothesis that a JSON string has no raw line feed; the version-5 UUID in
    [ContextManager]; the tree-sitter parser in [ShellParse] and its queries in [PatchVerify];
    the quoting of [shlex] in [ExecApproval]; the process environment and the directory
    entries that path resolution asks for, the record [host] of [Permissions];
    and [serde_json] in [ApprovalCache], with
    the hypotheses that every key has a text and different keys have different texts; globs and URL parsing ([HostEnv]),
    header names, header values and form decoding ([HookEnv]), name resolution and the files
    and variables of the system ([Os]) of the proxy; [WildMatch] in [ShellEnv], with the law that a pattern
    of a word between stars matches the names that have the word in them; the text of
    thread ids and the order of a hash map ([RegistryEnv]); the lower case of characters in
    [FuzzyMatch]; words, graphemes, display widths and wrapped lines in [TextEdit], the record
    [Segmentation] with the laws of [SegmentationOk]; JSON values, the XML of hook prompts, the
    quoting of [shlex] and version-7 UUIDs in [ThreadItems], the class [Wire].  Other parameters stand for code
    that is in the repository and not modelled yet, and the theorems hold for whatever it
    does: in [ContextManager] the recognition of contextual user fragments and of inter-agent
    messages, and the floating point product of a truncation policy by 1.2; in
    [Orchestrator] the class [Session], that is the hooks, the reviewers and the run of the
    tools; in [AgentResidency] the class [Manager], what the thread manager says of a thread;
    in [ProxyState] the reloader; in [NetworkPolicy] the hosts of the credential broker; in
    [RolloutTruncation] the turns that the application server finds; in [ThreadItems] the guess
    at what a command does and path URIs, in the class [Wire]; in [ComposerPaste] what
    becomes of a pasted image path, and the key map, which is also an argument in [VimEdit].
    [PathOps] stands for utils/path-uri.  The
    file system itself is the interface [ExecutorFileSystem] with the laws of
    [FileSystemLaws]; each theorem that uses one of these has an instance with concrete
    functions.

    ** What is not modelled

    The rendering of the terminal user interface, its popups and pickers, the transport of the
    application server,
    authentication, the model client, MCP, the sandboxes and the transport of the network proxy
    are input and output around these parts, or operating-system calls.  Of the modelled crates: the Windows
    branches of path code, of the environment and of command safety, the search for shells on
    the host, the loading of policy files and the display of their errors, the lists of roots
    handed to the sandboxes (they follow symbolic links) and the matching of deny globs, the
    token estimates and the per-model settings of the history, rewriting of images for the
    prompt; of the proxy, certificates, the credential broker, requests to Unix sockets, the
    attribution of executions and the text of responses; of agents, the threads themselves. *)

From stdpp Require Import prelude strings gmap sorting.

(** ** Results and the state-and-error monad

    Rust's [Result<A, E>] is [result E A].  A method that takes [&mut self] and
    returns a [Result] is a value of [M S E A]: the receiver's state goes in and
    comes out, and it comes out {e also when the method returns an error}, as the
    fields assigned before a [?] stay assigned in Rust. *)

Inductive result (E A : Type) : Type :=
| Ok (a : A)
| Err (e : E).
Arguments Ok {E A} a.
Arguments Err {E A} e.

Definition is_ok {E A} (r : result E A) : bool :=
  match r with Ok _ => true | Err _ => false end.

Definition result_ok {E A} (r : result E A) : option A :=
  match r with Ok a => Some a | Err _ => None end.

Definition result_bind {E A B} (r : result E A) (k : A → result E B) : result E B :=
  match r with Ok a => k a | Err e => Err e end.

Definition map_err {E F A} (f : E → F) (r : result E A) : result F A :=
  match r with Ok a => Ok a | Err e => Err (f e) end.

Definition ok_or {E A} (e : E) (o : option A) : result E A :=
  match o with Some a => Ok a | None => Err e end.

Definition M (S E A : Type) : Type := S → S * result E A.

Definition st_ret {S E A} (a : A) : M S E A := λ s, (s, Ok a).
Definition st_throw {S E A} (e : E) : M S E A := λ s, (s, Err e).
Definition st_bind {S E A B} (m : M S E A) (k : A → M S E B) : M S E B :=
  λ s, match m s with
       | (s', Ok a) => k a s'
       | (s', Err e) => (s', Err e)
       end.
Definition st_get {S E} : M S E S := λ s, (s, Ok s).
Definition st_modify {S E} (f : S → S) : M S E unit := λ s, (f s, Ok tt).
Definition st_lift {S E A} (r : result E A) : M S E A := λ s, (s, r).

Declare Scope rust_scope.
Delimit Scope rust_scope with rust.
Notation "'let?' x := e 'in' k" := (result_bind e (λ x, k))
  (at level 10, x pattern, e at level 200, k at level 200,
   format "'[v' 'let?'  x  :=  e  'in' '/' k ']'") : rust_scope.
Notation "'let!' x := e 'in' k" := (st_bind e (λ x, k))
  (at level 10, x pattern, e at level 200, k at level 200,
   format "'[v' 'let!'  x  :=  e  'in' '/' k ']'") : rust_scope.
Notation "e1 ;;; e2" := (st_bind e1 (λ _, e2))
  (at level 199, right associativity, format "'[v' e1 ;;; '/' e2 ']'") : rust_scope.
Open Scope rust_scope.

(** ** Decidable equality of results *)

#[global] Instance result_eq_dec {E A} `{EqDecision E, EqDecision A} :
  EqDecision (result E A).
Proof. solve_decision. Defined.

(** ** Tactics and hints of the development *)

Create HintDb codex.

(** Turns boolean tests in the context into propositions. *)
Ltac bool_to_prop :=
  repeat match goal with
  | H : _ && _ = true |- _ => apply andb_true_iff in H; destruct H
  | H : _ || _ = false |- _ => apply orb_false_iff in H; destruct H
  | H : bool_decide _ = true |- _ => apply bool_decide_eq_true_1 in H
  | H : bool_decide _ = false |- _ => apply bool_decide_eq_false_1 in H
  | H : negb _ = true |- _ => apply negb_true_iff in H
  | H : negb _ = false |- _ => apply negb_false_iff in H
  end.

(** Unfolds the monad's operations in a hypothesis. *)
Ltac st_unfold H :=
  unfold st_bind, st_ret, st_modify, st_get, st_throw, st_lift in H; cbn beta iota in H.

(** ** Monad laws *)

Lemma st_bind_assoc {S E A B C} (m : M S E A) (f : A → M S E B) (g : B → M S E C) (s : S) :
  st_bind (st_bind m f) g s = st_bind m (λ a, st_bind (f a) g) s.
Proof. unfold st_bind. destruct (m s) as [s' [a|e]]; reflexivity. Qed.

Lemma st_bind_ok {S E A B} (m : M S E A) (k : A → M S E B) s s'' b :
  st_bind m k s = (s'', Ok b) →
  ∃ s' a, m s = (s', Ok a) ∧ k a s' = (s'', Ok b).
Proof. unfold st_bind. destruct (m s) as [s' [a|e]]; naive_solver. Qed.

Lemma result_bind_ok {E A B} (r : result E A) (k : A → result E B) b :
  result_bind r k = Ok b → ∃ a, r = Ok a ∧ k a = Ok b.
Proof. destruct r; naive_solver. Qed.

(** ** Generic list facts *)

Section lists.
Context {A : Type}.
Implicit Types (l : list A) (x : A).

Lemma last_Some_snoc l x : last l = Some x → ∃ l', l = l' ++ [x].
Proof. intros H. apply last_Some in H. naive_solver. Qed.

Lemma removelast_snoc l x : removelast (l ++ [x]) = l.
Proof. apply removelast_last. Qed.

Lemma concat_fmap_cons {B} (f : B → list A) b bs :
  concat (f <$> b :: bs) = f b ++ concat (f <$> bs).
Proof. done. Qed.

End lists.

(** ** Sorting

    [slice::sort_by_key], a stable sort, on a key that is a number. *)

Section sort_by_key.
Context {A : Type} (key : A → nat).

Fixpoint insert_by_key (x : A) (l : list A) : list A :=
  match l with
  | [] => [x]
  | y :: l' => if key x <=? key y then x :: l else y :: insert_by_key x l'
  end.
Definition sort_by_key (l : list A) : list A := foldr insert_by_key [] l.

Definition key_le (x y : A) : Prop := key x ≤ key y.

Lemma insert_by_key_perm x l : insert_by_key x l ≡ₚ x :: l.
Proof.
  induction l as [|y l IH]; simpl; [done|]. destruct (_ <=? _); [done|].
  rewrite IH. apply Permutation_swap.
Qed.
Lemma sort_by_key_perm l : sort_by_key l ≡ₚ l.
Proof. induction l as [|x l IH]; simpl; [done|]. by rewrite insert_by_key_perm, IH. Qed.

Lemma insert_by_key_sorted x l :
  StronglySorted key_le l → StronglySorted key_le (insert_by_key x l).
Proof.
  unfold key_le. induction 1 as [|y l Hl IH Hy]; simpl; [by repeat constructor|].
  destruct (Nat.leb_spec (key x) (key y)).
  - repeat constructor; try done. eapply Forall_impl; [exact Hy|]. simpl. lia.
  - constructor; [done|]. rewrite insert_by_key_perm. constructor; [lia|done].
Qed.
Lemma sort_by_key_sorted l : StronglySorted key_le (sort_by_key l).
Proof. induction l; simpl; [constructor|by apply insert_by_key_sorted]. Qed.

Lemma sort_by_key_id l : StronglySorted key_le l → sort_by_key l = l.
Proof.
  induction 1 as [|x l _ IH Hx]; simpl; [done|]. fold (sort_by_key l). rewrite IH.
  destruct l as [|y l]; simpl; [done|]. apply Forall_cons in Hx as [Hxy _].
  by rewrite (proj2 (Nat.leb_le _ _) Hxy).
Qed.
End sort_by_key.
