(* ===== verification/RustStr.v ===== *)
(** * Rust strings

    A Rust [str] is a sequence of Unicode scalar values; the code verified here
    works on it with [chars], [trim], [strip_prefix], [split], [lines] and [join].
    A string is the list of its scalar values, each an [N].  [lit] turns an ASCII
    literal into such a list.  The last section has the UTF-8 width of a scalar
    value, for the code that counts bytes. *)

From stdpp Require Import prelude strings.
From S2P Require Import Prelude.

Notation char := N (only parsing).
Notation str := (list N) (only parsing).

Definition lit (s : string) : str :=
  Ascii.N_of_ascii <$> String.list_ascii_of_string s.

Definition nl : char := 10%N.
Definition cr : char := 13%N.
Definition space : char := 32%N.
Definition dquote : char := 34%N.

(** [char::is_whitespace]: the Unicode [White_Space] property. *)
Definition is_whitespace (c : char) : bool :=
  ((9 <=? c) && (c <=? 13) || (c =? 32) || (c =? 133) || (c =? 160) || (c =? 5760) ||
   ((8192 <=? c) && (c <=? 8202)) || (c =? 8232) || (c =? 8233) || (c =? 8239) ||
   (c =? 8287) || (c =? 12288))%N.

(** [str::trim_start], [str::trim_end], [str::trim]. *)
Fixpoint trim_start (s : str) : str :=
  match s with
  | [] => []
  | c :: s' => if is_whitespace c then trim_start s' else s
  end.
Definition trim_end (s : str) : str := reverse (trim_start (reverse s)).
Definition trim (s : str) : str := trim_end (trim_start s).

(** [str::strip_prefix], [str::starts_with] and their mirror images. *)
Fixpoint strip_prefix (p s : str) : option str :=
  match p, s with
  | [], _ => Some s
  | a :: p', b :: s' => if decide (a = b) then strip_prefix p' s' else None
  | _ :: _, [] => None
  end.
Definition starts_with (p s : str) : bool := bool_decide (is_Some (strip_prefix p s)).
Definition strip_suffix (p s : str) : option str :=
  reverse <$> strip_prefix (reverse p) (reverse s).
Definition ends_with (p s : str) : bool := bool_decide (is_Some (strip_suffix p s)).

(** [str::split(char)]: never the empty list. *)
Fixpoint split_on (sep : char) (s : str) : list str :=
  match s with
  | [] => [[]]
  | c :: s' =>
      if decide (c = sep) then [] :: split_on sep s'
      else match split_on sep s' with
           | [] => [[c]]
           | w :: ws => (c :: w) :: ws
           end
  end.

(** [[T]::join] on strings. *)
Fixpoint join (sep : str) (l : list str) : str :=
  match l with
  | [] => []
  | [w] => w
  | w :: ws => w ++ sep ++ join sep ws
  end.

(** Drops one trailing carriage return. *)
Definition strip_cr (s : str) : str := default s (strip_suffix [cr] s).

(** [str::lines]: pieces between line feeds, a terminated piece without its
    carriage return, and no piece for the empty text after the last line feed. *)
Fixpoint lines_aux (ps : list str) : list str :=
  match ps with
  | [] => []
  | [w] => if decide (w = []) then [] else [w]
  | w :: ws => strip_cr w :: lines_aux ws
  end.
Definition lines (s : str) : list str := lines_aux (split_on nl s).

(** [char::to_ascii_lowercase] and [str::eq_ignore_ascii_case]. *)
Definition char_to_ascii_lowercase (c : char) : char :=
  if ((65 <=? c) && (c <=? 90))%N then (c + 32)%N else c.
Definition to_ascii_lowercase (s : str) : str := char_to_ascii_lowercase <$> s.
Definition eq_ignore_ascii_case (a b : str) : bool :=
  bool_decide (to_ascii_lowercase a = to_ascii_lowercase b).

(** [str::contains] of a character and of a string. *)
Definition contains_char (c : char) (s : str) : bool := bool_decide (c ∈ s).
Fixpoint contains_str (p s : str) : bool :=
  starts_with p s || match s with [] => false | _ :: s' => contains_str p s' end.

(** [str::split_once(char)] and [str::rsplit_once(char)]. *)
Fixpoint split_once (sep : char) (s : str) : option (list N * list N) :=
  match s with
  | [] => None
  | c :: s' => if decide (c = sep) then Some ([], s')
               else '(a, b) ← split_once sep s'; Some (c :: a, b)
  end.
Definition rsplit_once (sep : char) (s : str) : option (list N * list N) :=
  '(a, b) ← split_once sep (reverse s); Some (reverse b, reverse a).

(** [str::trim_start_matches(char)], [str::trim_end_matches(char)],
    [str::matches(char).count()], [char::is_ascii_digit]. *)
Fixpoint trim_start_matches (x : char) (s : str) : str :=
  match s with
  | c :: s' => if decide (c = x) then trim_start_matches x s' else s
  | [] => []
  end.
Definition trim_end_matches (x : char) (s : str) : str :=
  reverse (trim_start_matches x (reverse s)).
Definition count_char (x : char) (s : str) : nat := length (filter (λ c, c = x) s).
Definition is_ascii_digit (c : char) : bool := ((48 <=? c) && (c <=? 57))%N.

(** [char::len_utf8] and the byte length of a string. *)
Definition len_utf8 (c : char) : nat :=
  if (c <? 128)%N then 1 else if (c <? 2048)%N then 2 else if (c <? 65536)%N then 3 else 4.
Fixpoint byte_len (s : str) : nat :=
  match s with [] => 0 | c :: s' => len_utf8 c + byte_len s' end.

(** Strings are ordered by their bytes, which for UTF-8 is the order of the scalar values. *)
Fixpoint str_compare (a b : str) : comparison :=
  match a, b with
  | [], [] => Eq
  | [], _ :: _ => Lt
  | _ :: _, [] => Gt
  | x :: a, y :: b => match (x ?= y)%N with Eq => str_compare a b | c => c end
  end.

(** A string that starts, ends, with no white space. *)
Definition clean_start (s : str) : Prop := trim_start s = s.
Definition clean_end (s : str) : Prop := trim_end s = s.

Lemma lit_inj a b : lit a = lit b → a = b.
Proof.
  revert b. induction a as [|c a IH]; intros [|d b]; simpl; try done. unfold lit. simpl.
  intros [= Hc Hab]. f_equal; [|by apply IH].
  rewrite <- (Ascii.ascii_N_embedding c), <- (Ascii.ascii_N_embedding d). by f_equal.
Qed.

(** ** Trimming *)

Lemma trim_start_idemp s : trim_start (trim_start s) = trim_start s.
Proof.
  induction s as [|c s IH]; [done|]. simpl. destruct (is_whitespace c) eqn:E; [done|].
  simpl. by rewrite E.
Qed.

Lemma trim_end_idemp s : trim_end (trim_end s) = trim_end s.
Proof. unfold trim_end. by rewrite reverse_involutive, trim_start_idemp. Qed.

Lemma trim_start_suffix s : trim_start s `suffix_of` s.
Proof.
  induction s as [|c s IH]; simpl; [done|]. destruct (is_whitespace c); [|done].
  by apply suffix_cons_r.
Qed.

Lemma trim_end_length s : length (trim_end s) ≤ length s.
Proof.
  unfold trim_end. rewrite length_reverse, <-(length_reverse s).
  apply suffix_length, trim_start_suffix.
Qed.

Lemma trim_start_app_clean a b : clean_start a → a ≠ [] → trim_start (a ++ b) = a ++ b.
Proof.
  unfold clean_start. destruct a as [|c a]; [done|]. simpl. intros H _.
  destruct (is_whitespace c) eqn:E; [|done].
  exfalso. pose proof (suffix_length _ _ (trim_start_suffix a)) as Hl.
  rewrite H in Hl. simpl in Hl. lia.
Qed.

Lemma trim_end_app_clean a b : clean_end b → b ≠ [] → trim_end (a ++ b) = a ++ b.
Proof.
  unfold clean_end, trim_end. intros H Hb.
  rewrite reverse_app, trim_start_app_clean.
  - by rewrite reverse_app, !reverse_involutive.
  - unfold clean_start. by rewrite <-H at 2; rewrite reverse_involutive.
  - intros E. apply Hb. by rewrite <-(reverse_involutive b), E.
Qed.

Lemma trim_start_cons_ws c s : is_whitespace c = true → trim_start (c :: s) = trim_start s.
Proof. simpl. by intros ->. Qed.

Lemma trim_end_snoc_ws s c : is_whitespace c = true → trim_end (s ++ [c]) = trim_end s.
Proof. intros H. unfold trim_end. rewrite reverse_snoc. simpl. by rewrite H. Qed.

Lemma trim_end_snoc s c : is_whitespace c = false → trim_end (s ++ [c]) = s ++ [c].
Proof.
  intros H. apply trim_end_app_clean; [|done]. unfold clean_end, trim_end. simpl.
  by rewrite H.
Qed.

(** Trimming the end keeps a first character that is not white space. *)
Lemma trim_end_cons_non_ws c s :
  is_whitespace c = false → trim_end (c :: s) = c :: trim_end s.
Proof.
  intros H. induction s as [|d s IH] using rev_ind.
  - unfold trim_end. simpl. by rewrite H.
  - destruct (is_whitespace d) eqn:E.
    + by rewrite app_comm_cons, trim_end_snoc_ws, IH, trim_end_snoc_ws.
    + by rewrite app_comm_cons, !trim_end_snoc.
Qed.

Lemma trim_end_cons c s :
  trim_end (c :: s) = c :: trim_end s ∨
  (is_whitespace c = true ∧ trim_end s = [] ∧ trim_end (c :: s) = []).
Proof.
  destruct (is_whitespace c) eqn:E; [|left; by apply trim_end_cons_non_ws].
  induction s as [|d s IH] using rev_ind.
  - right. unfold trim_end. simpl. by rewrite E.
  - destruct (is_whitespace d) eqn:E'.
    + rewrite app_comm_cons, !(trim_end_snoc_ws _ d) by done. exact IH.
    + left. by rewrite app_comm_cons, !trim_end_snoc.
Qed.

Lemma trim_cons_non_ws c s : is_whitespace c = false → trim (c :: s) = c :: trim_end s.
Proof. intros H. unfold trim. simpl. rewrite H. by apply trim_end_cons_non_ws. Qed.

Lemma trim_clean s : clean_start s → clean_end s → trim s = s.
Proof. unfold trim, clean_start, clean_end. by intros -> ->. Qed.

(** ** Prefixes and suffixes *)

Lemma strip_prefix_Some p s r : strip_prefix p s = Some r ↔ s = p ++ r.
Proof.
  revert s. induction p as [|a p IH]; intros s; simpl; [naive_solver|].
  destruct s as [|b s]; [naive_solver|]. case_decide; subst; rewrite ?IH; naive_solver.
Qed.

Lemma strip_prefix_app p r : strip_prefix p (p ++ r) = Some r.
Proof. by apply strip_prefix_Some. Qed.

Lemma starts_with_true p s : starts_with p s = true ↔ ∃ r, s = p ++ r.
Proof.
  unfold starts_with. rewrite bool_decide_eq_true. unfold is_Some.
  by setoid_rewrite strip_prefix_Some.
Qed.

Lemma strip_suffix_Some p s r : strip_suffix p s = Some r ↔ s = r ++ p.
Proof.
  unfold strip_suffix. rewrite fmap_Some. setoid_rewrite strip_prefix_Some. split.
  - intros (x & H & ->). apply (f_equal reverse) in H.
    by rewrite reverse_involutive, reverse_app, reverse_involutive in H.
  - intros ->. exists (reverse r). by rewrite reverse_app, reverse_involutive.
Qed.

Lemma strip_cr_id s : last s ≠ Some cr → strip_cr s = s.
Proof.
  intros H. unfold strip_cr. destruct (strip_suffix [cr] s) as [r|] eqn:E; [|done].
  apply strip_suffix_Some in E as ->. by rewrite last_snoc in H.
Qed.

(** ** Splitting and joining *)

Lemma split_on_not_nil sep s : split_on sep s ≠ [].
Proof. destruct s; simpl; [done|]. case_decide; [done|]. by destruct (split_on sep s). Qed.

Lemma split_on_pieces sep s : Forall (λ w, sep ∉ w) (split_on sep s).
Proof.
  induction s as [|c s IH]; simpl.
  - repeat constructor. apply not_elem_of_nil.
  - case_decide as E; [constructor; [apply not_elem_of_nil|done]|].
    destruct (split_on sep s) as [|w ws]; [repeat constructor; set_solver|].
    inversion IH; subst. constructor; set_solver.
Qed.

Lemma split_on_app_sep sep a s :
  sep ∉ a → split_on sep (a ++ sep :: s) = a :: split_on sep s.
Proof.
  induction a as [|c a IH]; simpl; intros H.
  - by rewrite decide_True.
  - rewrite decide_False by set_solver. rewrite IH by set_solver. done.
Qed.

Lemma split_on_no_sep sep a : sep ∉ a → split_on sep a = [a].
Proof.
  induction a as [|c a IH]; simpl; intros H; [done|].
  rewrite decide_False by set_solver. by rewrite IH by set_solver.
Qed.

(** [split] undoes [join]. *)
Lemma split_on_join sep l :
  l ≠ [] → Forall (λ w, sep ∉ w) l → split_on sep (join [sep] l) = l.
Proof.
  intros Hne HF. induction HF as [|w ws Hw HF IH]; [done|].
  destruct ws as [|w' ws]; [by apply split_on_no_sep|].
  change (join [sep] (w :: w' :: ws)) with (w ++ sep :: join [sep] (w' :: ws)).
  by rewrite split_on_app_sep, IH.
Qed.

(** [join] undoes [split]. *)
Lemma join_split_on sep s : join [sep] (split_on sep s) = s.
Proof.
  induction s as [|c s IH]; simpl; [done|]. case_decide as E.
  - subst. destruct (split_on sep s) eqn:E; [by apply split_on_not_nil in E|].
    by rewrite <-IH.
  - destruct (split_on sep s) as [|w ws] eqn:E'; [by apply split_on_not_nil in E'|].
    destruct ws; simpl in *; by rewrite <-IH.
Qed.

(** A list of lines survives [join("\n")] followed by [lines] when no line has a
    line feed, no terminated line ends in a carriage return and the last is not empty. *)
Lemma lines_join l :
  Forall (λ w, nl ∉ w) l → Forall (λ w, last w ≠ Some cr) l →
  last l ≠ Some [] → lines (join [nl] l) = l.
Proof.
  intros Hnl Hcr Hlast. destruct l as [|w l]; [done|].
  unfold lines. rewrite split_on_join by done.
  clear Hnl. revert w Hcr Hlast. induction l as [|w' l IH]; intros w Hcr Hlast.
  - simpl. rewrite decide_False; [done|]. intros ->. by simpl in Hlast.
  - change (lines_aux (w :: w' :: l)) with (strip_cr w :: lines_aux (w' :: l)).
    inversion Hcr; subst. rewrite strip_cr_id by done. by rewrite IH.
Qed.

Lemma join_cons sep w w' ws : join sep (w :: w' :: ws) = w ++ sep ++ join sep (w' :: ws).
Proof. done. Qed.

Lemma join_snoc sep l w : l ≠ [] → join sep (l ++ [w]) = join sep l ++ sep ++ w.
Proof.
  induction l as [|a l IH]; [done|]. intros _. destruct l as [|b l]; [done|].
  simpl in *. rewrite IH by done. by rewrite <-!app_assoc.
Qed.

(** ** Splitting off lines *)

Lemma split_on_app sep a s : split_on sep (a ++ sep :: s) = split_on sep a ++ split_on sep s.
Proof.
  induction a as [|c a IH]; simpl; [by rewrite decide_True|]. rewrite IH. case_decide; [done|].
  destruct (split_on sep a) eqn:E; [by apply split_on_not_nil in E|done].
Qed.

Lemma lines_aux_app ps qs : qs ≠ [] → lines_aux (ps ++ qs) = (strip_cr <$> ps) ++ lines_aux qs.
Proof.
  intros Hq. induction ps as [|w ps IH]; [done|]. rewrite fmap_cons. simpl. rewrite <-IH.
  destruct (ps ++ qs) eqn:E; [by apply app_nil in E as [_ ->]|done].
Qed.

(** The lines before and after a line feed. *)
Lemma lines_app_nl a s : lines (a ++ nl :: s) = (strip_cr <$> split_on nl a) ++ lines s.
Proof. unfold lines. rewrite split_on_app, lines_aux_app; [done|apply split_on_not_nil]. Qed.

(** Appending a line to a text that is empty or ends with a line feed. *)
Lemma lines_snoc t line :
  (t = [] ∨ ∃ t', t = t' ++ [nl]) → nl ∉ line → last line ≠ Some cr →
  lines (t ++ line ++ [nl]) = lines t ++ [line].
Proof.
  intros Ht Hnl Hcr.
  assert (Hone : lines (line ++ [nl]) = [line]).
  { rewrite lines_app_nl, split_on_no_sep by done. simpl. by rewrite strip_cr_id. }
  destruct Ht as [->|[t' ->]]; [done|]. rewrite <-app_assoc. simpl.
  rewrite (lines_app_nl t' (line ++ [nl])), Hone, (lines_app_nl t' []).
  by rewrite app_nil_r.
Qed.

(** A missing final line feed makes no difference, unless it ends a carriage return. *)
Lemma lines_terminate t : t ≠ [] → last t ≠ Some nl → last t ≠ Some cr → lines (t ++ [nl]) = lines t.
Proof.
  intros Hne Hnl Hcr. rewrite lines_app_nl. unfold lines. simpl. rewrite app_nil_r.
  destruct (split_on nl t) as [|w ws _] eqn:E using rev_ind; [by apply split_on_not_nil in E|].
  rewrite lines_aux_app by done. rewrite fmap_app. f_equal. simpl.
  assert (Ht : t = (join [nl] (ws ++ [w]))) by by rewrite <-E, join_split_on.
  destruct w as [|c w _] using rev_ind.
  - exfalso. destruct ws as [|w' ws]; [by subst|].
    rewrite join_snoc in Ht by done. rewrite app_nil_r in Ht. subst. by rewrite last_snoc in Hnl.
  - rewrite decide_False by by destruct w. f_equal. apply strip_cr_id. rewrite last_snoc.
    intros [= ->]. apply Hcr. rewrite Ht.
    destruct ws as [|w' ws]; [exact (last_snoc cr w)|].
    by rewrite join_snoc, !app_assoc, last_snoc by done.
Qed.

(** ** Where the characters of a piece come from *)

Lemma elem_of_trim_start c s : c ∈ trim_start s → c ∈ s.
Proof. intros H. destruct (trim_start_suffix s) as [r ->]. set_solver. Qed.

Lemma elem_of_trim c s : c ∈ trim s → c ∈ s.
Proof.
  unfold trim, trim_end. rewrite elem_of_reverse. intros H%elem_of_trim_start.
  rewrite elem_of_reverse in H. by apply elem_of_trim_start.
Qed.

Lemma elem_of_trim_start_matches c x s : c ∈ trim_start_matches x s → c ∈ s.
Proof. induction s as [|y s IH]; simpl; [done|]. case_decide; rewrite ?elem_of_cons; auto. Qed.

Lemma elem_of_trim_end_matches c x s : c ∈ trim_end_matches x s → c ∈ s.
Proof.
  unfold trim_end_matches. rewrite elem_of_reverse. intros H%elem_of_trim_start_matches.
  by rewrite elem_of_reverse in H.
Qed.

Lemma split_once_Some sep s a b : split_once sep s = Some (a, b) → s = a ++ sep :: b.
Proof.
  revert a. induction s as [|c s IH]; intros a; simpl; [done|]. case_decide; [naive_solver|].
  destruct (split_once sep s) as [[a' b']|]; simpl; [|done]. intros [= <- <-]. simpl.
  by rewrite (IH a').
Qed.

Lemma rsplit_once_Some sep s a b : rsplit_once sep s = Some (a, b) → s = a ++ sep :: b.
Proof.
  unfold rsplit_once. destruct (split_once sep (reverse s)) as [[a' b']|] eqn:E; simpl; [|done].
  intros [= <- <-]. apply split_once_Some in E. apply (f_equal reverse) in E.
  rewrite reverse_involutive in E. rewrite E, reverse_app, reverse_cons, <-app_assoc. done.
Qed.

Lemma contains_str_elem p s c : contains_str p s = true → c ∈ p → c ∈ s.
Proof.
  induction s as [|y s IH]; simpl; rewrite orb_true_iff, starts_with_true.
  - intros [[r Hr]|?] Hc; [|done]. rewrite Hr. set_solver.
  - intros [[r Hr]|?] Hc; [rewrite Hr; set_solver|]. right. auto.
Qed.

Lemma trim_no_whitespace s : Forall (λ c, is_whitespace c = false) s → trim s = s.
Proof.
  intros HF. apply trim_clean; unfold clean_start, clean_end.
  - destruct HF as [|c s Hc]; [done|]. simpl. by rewrite Hc.
  - unfold trim_end. apply Forall_reverse in HF. rewrite <-(reverse_involutive s) at 2. f_equal.
    destruct HF as [|c r Hc]; [done|]. simpl. by rewrite Hc.
Qed.

Lemma trim_end_matches_id x s : last s ≠ Some x → trim_end_matches x s = s.
Proof.
  intros Hl. unfold trim_end_matches. destruct s as [|c s _] using rev_ind; [done|].
  rewrite last_snoc in Hl. rewrite reverse_snoc. simpl. rewrite decide_False by congruence.
  by rewrite reverse_cons, reverse_involutive.
Qed.

(** ** Byte lengths *)

Lemma byte_len_app a b : byte_len (a ++ b) = byte_len a + byte_len b.
Proof. induction a; simpl; lia. Qed.

Lemma len_utf8_pos c : 1 ≤ len_utf8 c ≤ 4.
Proof. unfold len_utf8. repeat case_match; lia. Qed.

#[export] Hint Resolve trim_start_idemp trim_end_idemp strip_prefix_app : codex.
