(* ===== verification/SeekSequence.v ===== *)
(** * Locating context lines (apply-patch/src/seek_sequence.rs)

    [seek_sequence] finds where a block of lines of a patch sits in a file, with
    four passes of decreasing strictness over the same range of positions. *)

From stdpp Require Import prelude strings.
From S2P Require Import Prelude RustStr.

Module SeekSequence.

(** The character table of the local function [normalise]. *)
Definition normalise_char (c : char) : char :=
  if bool_decide (c ∈ [8208; 8209; 8210; 8211; 8212; 8213; 8722]%N) then 45%N
  else if bool_decide (c ∈ [8216; 8217; 8218; 8219]%N) then 39%N
  else if bool_decide (c ∈ [8220; 8221; 8222; 8223]%N) then 34%N
  else if bool_decide (c ∈ [160; 8194; 8195; 8196; 8197; 8198; 8199; 8200; 8201; 8202;
                            8239; 8287; 12288]%N) then 32%N
  else c.

Definition normalise (s : str) : str := normalise_char <$> trim s.

(** The inner loop of a pass: every pattern line equals the line at its place
    after [norm].  An index out of range (a panic in the source) gives [false];
    [window_in_bounds] shows the passes never ask for one. *)
Fixpoint window (norm : str → str) (lines pattern : list str) (i : nat) : bool :=
  match pattern with
  | [] => true
  | pat :: pattern' =>
      match lines !! i with
      | Some line => if decide (norm line = norm pat) then window norm lines pattern' (S i)
                     else false
      | None => false
      end
  end.

(** The first pass compares slices. *)
Definition window_exact (lines pattern : list str) (i : nat) : bool :=
  bool_decide (take (length pattern) (drop i lines) = pattern).

(** [for i in lo..=hi { if test(i) { return Some(i) } }]. *)
Definition scan (test : nat → bool) (lo hi : nat) : option nat :=
  List.find test (seq lo (S hi - lo)).

Definition seek_sequence (lines pattern : list str) (start : nat) (eof : bool) : option nat :=
  if decide (pattern = []) then Some start
  else if decide (length lines < length pattern) then None
  else
    let search_start :=
      if eof && (length pattern <=? length lines) then length lines - length pattern
      else start in
    let hi := length lines - length pattern in
    match scan (window_exact lines pattern) search_start hi with
    | Some i => Some i
    | None =>
    match scan (window trim_end lines pattern) search_start hi with
    | Some i => Some i
    | None =>
    match scan (window trim lines pattern) search_start hi with
    | Some i => Some i
    | None => scan (window normalise lines pattern) search_start hi
    end end end.

(** The four comparison functions, from strictest to most lenient. *)
Definition norm_of (level : nat) : str → str :=
  match level with 0 => id | 1 => trim_end | 2 => trim | _ => normalise end.

(** ** Declarative reading: a match at [i] up to [norm] *)

Definition match_at (norm : str → str) (lines pattern : list str) (i : nat) : Prop :=
  norm <$> take (length pattern) (drop i lines) = norm <$> pattern.

(** The first position of the range tried by a search. *)
Definition search_from (lines pattern : list str) (start : nat) (eof : bool) : nat :=
  if eof then length lines - length pattern else start.

(** A match at [level] inside the searched range. *)
Definition match_in (lines pattern : list str) (start : nat) (eof : bool)
    (level i : nat) : Prop :=
  search_from lines pattern start eof ≤ i ≤ length lines - length pattern ∧
  match_at (norm_of level) lines pattern i.

(** ** The passes decide [match_at] *)

Lemma window_match_at norm lines pattern i :
  window norm lines pattern i = true ↔ match_at norm lines pattern i.
Proof.
  unfold match_at. revert i. induction pattern as [|p ps IH]; intros i; simpl; [done|].
  destruct (lines !! i) as [l|] eqn:E.
  - rewrite (drop_S _ _ _ E). csimpl. case_decide as D.
    + rewrite IH, D. split; [by intros ->|]. by intros [=].
    + split; [done|]. by intros [=].
  - apply lookup_ge_None in E. rewrite drop_ge by done. simpl. done.
Qed.

Lemma window_exact_match_at lines pattern i :
  window_exact lines pattern i = true ↔ match_at id lines pattern i.
Proof.
  unfold window_exact, match_at. rewrite bool_decide_eq_true, !list_fmap_id. done.
Qed.

(** A match never reaches past the end of the file: no pass indexes out of range. *)
Lemma match_at_bounds norm lines pattern i :
  pattern ≠ [] → match_at norm lines pattern i → i + length pattern ≤ length lines.
Proof.
  intros Hne H. apply (f_equal length) in H.
  rewrite !length_fmap, length_take, length_drop in H.
  destruct pattern; [done|]. cbn [length] in *. lia.
Qed.

Lemma window_in_bounds (lines pattern : list str) (i k : nat) :
  i ≤ length lines - length pattern → length pattern ≤ length lines →
  k < length pattern → is_Some (lines !! (i + k)).
Proof. intros. apply lookup_lt_is_Some. lia. Qed.

(** ** Each level accepts what the stricter ones accept *)

Lemma trim_start_trim_end s : trim_start (trim_end s) = trim_end (trim_start s).
Proof.
  induction s as [|c s IH]; [done|]. simpl. destruct (is_whitespace c) eqn:E.
  - destruct (trim_end_cons c s) as [->|(_ & Hn & ->)]; simpl.
    + by rewrite E.
    + by rewrite <-IH, Hn.
  - rewrite trim_end_cons_non_ws by done. simpl. by rewrite E.
Qed.

Lemma trim_trim_end s : trim (trim_end s) = trim s.
Proof. unfold trim. by rewrite trim_start_trim_end, trim_end_idemp. Qed.

Lemma norm_of_coarser k a b : norm_of k a = norm_of k b → norm_of (S k) a = norm_of (S k) b.
Proof.
  destruct k as [|[|[|k]]]; simpl; intros H.
  - by rewrite H.
  - rewrite <-(trim_trim_end a), H. apply trim_trim_end.
  - unfold normalise. by rewrite H.
  - done.
Qed.

Lemma norm_of_le j k a b : j ≤ k → norm_of j a = norm_of j b → norm_of k a = norm_of k b.
Proof. induction 1; auto using norm_of_coarser. Qed.

Lemma fmap_norm_le j k (l l' : list str) :
  j ≤ k → norm_of j <$> l = norm_of j <$> l' → norm_of k <$> l = norm_of k <$> l'.
Proof.
  intros Hjk. revert l'. induction l as [|a l IH]; intros [|b l']; csimpl; [done..|].
  intros [= H1 H2]. f_equal; [by eapply norm_of_le|auto].
Qed.

Lemma match_at_le j k lines pattern i :
  j ≤ k → match_at (norm_of j) lines pattern i → match_at (norm_of k) lines pattern i.
Proof. apply fmap_norm_le. Qed.

(** ** Scanning finds the least hit *)

Lemma find_seq_Some test n lo i :
  List.find test (seq lo n) = Some i ↔
  lo ≤ i < lo + n ∧ test i = true ∧ ∀ j, lo ≤ j < i → test j = false.
Proof.
  revert lo. induction n as [|n IH]; intros lo; simpl; [split; [done|lia]|].
  destruct (test lo) eqn:E.
  - split.
    + injection 1 as <-. repeat split; [lia..|done|lia].
    + intros (H1 & H2 & H3). destruct (decide (lo = i)); [congruence|].
      rewrite H3 in E by lia. done.
  - rewrite IH. split; intros (H1 & H2 & H3); (split; [|split; [done|]]).
    + lia.
    + intros j Hj. destruct (decide (j = lo)); [congruence|]. apply H3. lia.
    + destruct (decide (lo = i)); [congruence|lia].
    + intros j Hj. apply H3. lia.
Qed.

Lemma scan_Some test lo hi i :
  scan test lo hi = Some i ↔
  lo ≤ i ≤ hi ∧ test i = true ∧ ∀ j, lo ≤ j < i → test j = false.
Proof. unfold scan. rewrite find_seq_Some. split; intros; intuition lia. Qed.

Lemma scan_None test lo hi :
  scan test lo hi = None ↔ ∀ j, lo ≤ j ≤ hi → test j = false.
Proof.
  unfold scan. split.
  - intros H j Hj. eapply List.find_none in H; [done|]. apply in_seq. lia.
  - intros H. destruct (List.find _ _) as [i|] eqn:E; [|done].
    apply find_seq_Some in E as (H1 & H2 & _). rewrite H in H2 by lia. done.
Qed.

(** The test used at a level. *)
Definition test_of (level : nat) (lines pattern : list str) : nat → bool :=
  match level with
  | 0 => window_exact lines pattern
  | _ => window (norm_of level) lines pattern
  end.

Lemma test_of_match level lines pattern i :
  test_of level lines pattern i = true ↔ match_at (norm_of level) lines pattern i.
Proof. destruct level; [apply window_exact_match_at|apply window_match_at]. Qed.

Lemma scan_test_Some level lines pattern lo hi i :
  scan (test_of level lines pattern) lo hi = Some i ↔
  lo ≤ i ≤ hi ∧ match_at (norm_of level) lines pattern i ∧
  ∀ j, lo ≤ j < i → ¬ match_at (norm_of level) lines pattern j.
Proof.
  rewrite scan_Some, test_of_match. setoid_rewrite <-test_of_match.
  setoid_rewrite not_true_iff_false. done.
Qed.

Lemma scan_test_None level lines pattern lo hi :
  scan (test_of level lines pattern) lo hi = None ↔
  ∀ j, lo ≤ j ≤ hi → ¬ match_at (norm_of level) lines pattern j.
Proof.
  rewrite scan_None. setoid_rewrite <-test_of_match.
  by setoid_rewrite not_true_iff_false.
Qed.

(** [seek_sequence] as the first hit over the four levels. *)
Lemma seek_sequence_unfold lines pattern start eof :
  pattern ≠ [] → length pattern ≤ length lines →
  let lo := search_from lines pattern start eof in
  let hi := length lines - length pattern in
  let pass level := scan (test_of level lines pattern) lo hi in
  seek_sequence lines pattern start eof =
    match pass 0 with Some i => Some i | None =>
    match pass 1 with Some i => Some i | None =>
    match pass 2 with Some i => Some i | None => pass 3 end end end.
Proof.
  intros Hne Hlen. unfold seek_sequence.
  rewrite decide_False, decide_False by (done || lia).
  rewrite (proj2 (Nat.leb_le _ _) Hlen), andb_true_r. destruct eof; reflexivity.
Qed.

(** Splitting a search result by the level that produced it. *)
Lemma seek_sequence_level lines pattern start eof i :
  pattern ≠ [] → seek_sequence lines pattern start eof = Some i →
  ∃ level, level ≤ 3 ∧ match_in lines pattern start eof level i ∧
    (∀ j, j < i → ¬ match_in lines pattern start eof level j) ∧
    (∀ k j, k < level → ¬ match_in lines pattern start eof k j).
Proof.
  intros Hne H.
  assert (Hlen : length pattern ≤ length lines).
  { unfold seek_sequence in H. rewrite decide_False in H by done.
    case_decide; [done|lia]. }
  rewrite seek_sequence_unfold in H by done. cbv zeta in H.
  assert (Hlow : ∀ k, scan (test_of k lines pattern) (search_from lines pattern start eof)
      (length lines - length pattern) = None → ∀ j, ¬ match_in lines pattern start eof k j).
  { intros k Hk j [Hj Hm]. by eapply (proj1 (scan_test_None _ _ _ _ _)) in Hm. }
  assert (Hhit : ∀ k, scan (test_of k lines pattern) (search_from lines pattern start eof)
      (length lines - length pattern) = Some i →
      match_in lines pattern start eof k i ∧
      ∀ j, j < i → ¬ match_in lines pattern start eof k j).
  { intros k (Hi & Hm & Hmin)%scan_test_Some. split; [by split|].
    intros j Hj [? ?]. eapply Hmin; [|done]. lia. }
  destruct (scan (test_of 0 _ _) _ _) eqn:E0;
    [|destruct (scan (test_of 1 _ _) _ _) eqn:E1;
      [|destruct (scan (test_of 2 _ _) _ _) eqn:E2]]; simplify_eq;
    [exists 0|exists 1|exists 2|exists 3]; (split; [lia|]);
    edestruct Hhit as [? ?]; [done| |done| |done| |done|];
    (split; [done|split; [done|]]); intros k j Hk; apply Hlow;
    by repeat (destruct k as [|k]; [done|]); lia.
Qed.

(** ** Properties *)

(** [seek_sequence] on a non-empty pattern returns the position of a genuine
    match: the level at which it matched is the strictest one that matches anywhere
    in the searched range, the position is the first at that level, it lies in the
    range (at or after [start], or exactly at the tail of the file when [eof]), and
    it leaves room for the whole pattern. *)
Theorem seek_sequence_strictest_first (lines pattern : list str) (start : nat)
    (eof : bool) (i : nat) :
  pattern ≠ [] → seek_sequence lines pattern start eof = Some i →
  (∃ level, level ≤ 3 ∧ match_in lines pattern start eof level i ∧
     (∀ j, j < i → ¬ match_in lines pattern start eof level j) ∧
     (∀ k j, k < level → ¬ match_in lines pattern start eof k j)) ∧
  i + length pattern ≤ length lines ∧
  (eof = false → start ≤ i) ∧ (eof = true → i = length lines - length pattern).
Proof.
  intros Hne H. destruct (seek_sequence_level _ _ _ _ _ Hne H) as (k & Hk & Hm & ? & ?).
  pose proof Hm as [Hr Hat]. pose proof (match_at_bounds _ _ _ _ Hne Hat).
  unfold search_from in Hr. split; [by exists k|]. split; [done|].
  destruct eof; split; intros ?; done || lia.
Qed.

(** [seek_sequence] fails on a non-empty pattern exactly when no position of the
    searched range matches even at the most lenient level (punctuation-normalised,
    trimmed). *)
Theorem seek_sequence_none_iff (lines pattern : list str) (start : nat) (eof : bool) :
  seek_sequence lines pattern start eof = None ↔
  pattern ≠ [] ∧ ∀ i, i + length pattern ≤ length lines →
    search_from lines pattern start eof ≤ i → ¬ match_at normalise lines pattern i.
Proof.
  destruct (decide (pattern = [])) as [->|Hne]; [unfold seek_sequence; simpl; naive_solver|].
  destruct (decide (length lines < length pattern)) as [Hl|Hl].
  { unfold seek_sequence. rewrite decide_False, decide_True by done.
    split; [|done]. intros _. split; [done|]. intros; lia. }
  destruct (seek_sequence lines pattern start eof) as [i|] eqn:E.
  - split; [done|]. intros [_ H].
    destruct (seek_sequence_level _ _ _ _ _ Hne E) as (k & Hk & [Hr Hat] & _).
    exfalso. eapply (H i); [|by destruct Hr|by apply (match_at_le k 3)].
    by eapply match_at_bounds.
  - split; [|done]. intros _. split; [done|]. intros i Hi Hs Hm.
    rewrite seek_sequence_unfold in E by (done || lia). cbv zeta in E.
    repeat case_match; try done.
    eapply (proj1 (scan_test_None 3 _ _ _ _) E i); [lia|done].
Qed.

(** With [eof] set, the only position ever returned is the tail of the file,
    whatever [start] is: there is no second search from [start]. *)
Theorem seek_sequence_eof_ignores_start (lines pattern : list str) (start start' : nat) :
  pattern ≠ [] →
  seek_sequence lines pattern start true = seek_sequence lines pattern start' true.
Proof.
  intros Hne. unfold seek_sequence. destruct (decide (pattern = [])); [done|].
  destruct (decide _); [done|]. by rewrite (proj2 (Nat.leb_le _ _)) by lia.
Qed.

Definition ex_lines : list str := [lit "foo"; lit "  bar "; lit "baz"; lit "bar"].

Lemma seek_sequence_strictest_first_witness :
  seek_sequence ex_lines [lit "bar"] 0 false = Some 3 ∧
  3 + length [lit "bar"] ≤ length ex_lines.
Proof.
  split; [vm_compute; reflexivity|].
  eapply (seek_sequence_strictest_first ex_lines [lit "bar"] 0 false 3);
    [discriminate|vm_compute; reflexivity].
Defined.

Lemma seek_sequence_eof_ignores_start_witness :
  seek_sequence ex_lines [lit "foo"] 0 true = seek_sequence ex_lines [lit "foo"] 7 true ∧
  seek_sequence ex_lines [lit "foo"] 0 true = None ∧
  seek_sequence ex_lines [lit "foo"] 0 false = Some 0.
Proof.
  split; [|split; vm_compute; reflexivity].
  apply (seek_sequence_eof_ignores_start ex_lines [lit "foo"] 0 7). discriminate.
Defined.

End SeekSequence.
