(* ===== verification/PatchTypes.v ===== *)
(** * The data of the patch format (apply-patch/src/parser.rs, apply-patch/src/lib.rs)

    Hunks, update chunks, the markers of the text format and the error types that
    the parser and the patch application share. *)

From stdpp Require Import prelude strings.
From S2P Require Import Prelude RustStr.

Definition BEGIN_PATCH_MARKER : str := lit "*** Begin Patch".
Definition END_PATCH_MARKER : str := lit "*** End Patch".
Definition ADD_FILE_MARKER : str := lit "*** Add File: ".
Definition DELETE_FILE_MARKER : str := lit "*** Delete File: ".
Definition UPDATE_FILE_MARKER : str := lit "*** Update File: ".
Definition MOVE_TO_MARKER : str := lit "*** Move to: ".
Definition EOF_MARKER : str := lit "*** End of File".
Definition CHANGE_CONTEXT_MARKER : str := lit "@@ ".
Definition EMPTY_CHANGE_CONTEXT_MARKER : str := lit "@@".
Definition ENVIRONMENT_ID_MARKER : str := lit "*** Environment ID:".

(** [ParseError]. *)
Inductive ParseError : Type :=
| InvalidPatchError (message : str)
| InvalidHunkError (message : str) (line_number : nat).

(** [UpdateFileChunk]. *)
Record UpdateFileChunk : Type := mkChunk {
  change_context : option str;
  old_lines : list str;
  new_lines : list str;
  is_end_of_file : bool;
}.

(** [Hunk]; a [PathBuf] is the string it was built from. *)
Inductive Hunk : Type :=
| AddFile (path contents : str)
| DeleteFile (path : str)
| UpdateFile (path : str) (move_path : option str) (chunks : list UpdateFileChunk).

(** [Hunk::path]: the path a hunk affects, the destination for a rename. *)
Definition hunk_path (h : Hunk) : str :=
  match h with
  | AddFile path _ => path
  | DeleteFile path => path
  | UpdateFile _ (Some path) _ => path
  | UpdateFile path None _ => path
  end.

(** The path [Hunk::resolve_path] hands to [cwd.join]: the source for a rename. *)
Definition hunk_source_path (h : Hunk) : str :=
  match h with
  | UpdateFile path _ _ => path
  | AddFile _ _ | DeleteFile _ => hunk_path h
  end.

(** [std::io::ErrorKind], the kinds the code tells apart and one for the others. *)
Inductive ErrorKind : Type := NotFound | AlreadyExists | InvalidInput | InvalidData | OtherKind.

Record io_error : Type := mkIoError { io_kind : ErrorKind; io_message : str }.

(** [ApplyPatchError], with [IoError] as a context and a source. *)
Inductive ApplyPatchError : Type :=
| PatchParseFailed (e : ParseError)
| IoError (context : str) (source : io_error)
| ComputeReplacements (message : str)
| PathUriError (message : str)
| ImplicitInvocation.

(** [ApplyPatchArgs]. *)
Record ApplyPatchArgs : Type := mkArgs {
  args_patch : str;
  args_hunks : list Hunk;
  args_workdir : option str;
  args_environment_id : option str;
}.

#[global] Instance ParseError_eq_dec : EqDecision ParseError.
Proof. solve_decision. Defined.
#[global] Instance UpdateFileChunk_eq_dec : EqDecision UpdateFileChunk.
Proof. solve_decision. Defined.
#[global] Instance Hunk_eq_dec : EqDecision Hunk.
Proof. solve_decision. Defined.
#[global] Instance ErrorKind_eq_dec : EqDecision ErrorKind.
Proof. solve_decision. Defined.
#[global] Instance io_error_eq_dec : EqDecision io_error.
Proof. solve_decision. Defined.
#[global] Instance ApplyPatchError_eq_dec : EqDecision ApplyPatchError.
Proof. solve_decision. Defined.
