(* ===== verification/Replacements.v ===== *)
(** * Turning chunks into a new file (apply-patch/src/lib.rs)

    [compute_replacements] locates the chunks of an update hunk in the lines of a
    file; [apply_replacements] edits the line vector back to front; and
    [derive_new_contents] is the text-to-text part of
    [derive_new_contents_from_chunks]. *)

From stdpp Require Import prelude strings sorting.
From S2P Require Import Prelude RustStr PatchTypes SeekSequence.
Import SeekSequence.

Module Replacements.

(** [(start_index, old_len, new_lines)]. *)
Definition replacement : Type := nat * nat * list str.

(** [slice.last().is_some_and(String::is_empty)]. *)
Definition last_is_empty (l : list str) : bool := bool_decide (last l = Some []).

(** [&l[..l.len() - 1]]. *)
Definition but_last (l : list str) : list str := take (length l - 1) l.

(** The step of [compute_replacements] that advances over the context line. *)
Definition advance_context (original_lines : list str) (path : str)
    (chunk : UpdateFileChunk) (line_index : nat) : result ApplyPatchError nat :=
  match change_context chunk with
  | None => Ok line_index
  | Some ctx_line =>
      match seek_sequence original_lines [ctx_line] line_index false with
      | Some idx => Ok (S idx)
      | None => Err (ComputeReplacements
          (lit "Failed to find context '" ++ ctx_line ++ lit "' in " ++ path))
      end
  end.

(** The search for the old lines, with the retry that drops a trailing empty line. *)
Definition locate_chunk (original_lines : list str) (chunk : UpdateFileChunk)
    (line_index : nat) : option nat * list str * list str :=
  let pattern := old_lines chunk in
  let new_slice := new_lines chunk in
  match seek_sequence original_lines pattern line_index (is_end_of_file chunk) with
  | Some i => (Some i, pattern, new_slice)
  | None =>
      if last_is_empty pattern then
        let pattern := but_last pattern in
        let new_slice := if last_is_empty new_slice then but_last new_slice else new_slice in
        (seek_sequence original_lines pattern line_index (is_end_of_file chunk),
         pattern, new_slice)
      else (None, pattern, new_slice)
  end.

(** One iteration of the loop over the chunks: the replacement pushed and the new
    [line_index]. *)
Definition chunk_step (original_lines : list str) (path : str) (chunk : UpdateFileChunk)
    (line_index : nat) : result ApplyPatchError (replacement * nat) :=
  let? line_index := advance_context original_lines path chunk line_index in
  match old_lines chunk with
  | [] =>
      let insertion_idx :=
        if last_is_empty original_lines then length original_lines - 1
        else length original_lines in
      Ok ((insertion_idx, 0, new_lines chunk), line_index)
  | _ :: _ =>
      match locate_chunk original_lines chunk line_index with
      | (Some start_idx, pattern, new_slice) =>
          Ok ((start_idx, length pattern, new_slice), start_idx + length pattern)
      | (None, _, _) => Err (ComputeReplacements
          (lit "Failed to find expected lines in " ++ path ++ lit ":" ++ [nl] ++
           join [nl] (old_lines chunk)))
      end
  end.

(** The loop over the chunks, before the sort. *)
Fixpoint collect_replacements (original_lines : list str) (path : str)
    (chunks : list UpdateFileChunk) (line_index : nat) :
    result ApplyPatchError (list replacement) :=
  match chunks with
  | [] => Ok []
  | chunk :: chunks' =>
      let? (r, line_index) := chunk_step original_lines path chunk line_index in
      let? rs := collect_replacements original_lines path chunks' line_index in
      Ok (r :: rs)
  end.

(** [sort_by_key(|(index, _, _)| *index)], a stable sort. *)
Definition start_of (r : replacement) : nat := r.1.1.
Definition sort_by_start (rs : list replacement) : list replacement :=
  sort_by_key start_of rs.

Definition compute_replacements (original_lines : list str) (path : str)
    (chunks : list UpdateFileChunk) : result ApplyPatchError (list replacement) :=
  let? rs := collect_replacements original_lines path chunks 0 in
  Ok (sort_by_start rs).

(** [Vec::remove] under its guard, and [Vec::insert], which panics ([None]) past the end. *)
Definition guarded_remove (i : nat) (l : list str) : list str :=
  if i <? length l then delete i l else l.
Definition vec_insert (i : nat) (x : str) (l : list str) : option (list str) :=
  if i <=? length l then Some (take i l ++ x :: drop i l) else None.

Fixpoint insert_segment (start_idx : nat) (seg l : list str) : option (list str) :=
  match seg with
  | [] => Some l
  | x :: seg' => l' ← vec_insert start_idx x l; insert_segment (S start_idx) seg' l'
  end.

(** The body of the loop of [apply_replacements]. *)
Definition apply_one (r : replacement) (l : list str) : option (list str) :=
  let '(start_idx, old_len, new_segment) := r in
  insert_segment start_idx new_segment (Nat.iter old_len (guarded_remove start_idx) l).

(** [apply_replacements]: the replacements in reverse order; [None] is a panic. *)
Definition apply_replacements (l : list str) (rs : list replacement) : option (list str) :=
  foldr (λ r acc, l ← acc; apply_one r l) (Some l) rs.

(** The lines [derive_new_contents_from_chunks] works on. *)
Definition original_lines_of (original_contents : str) : list str :=
  let l := split_on nl original_contents in
  if last_is_empty l then but_last l else l.

(** The text written back: a final empty line makes the text end in a line feed. *)
Definition contents_of (l : list str) : str :=
  join [nl] (if last_is_empty l then l else l ++ [[]]).

(** [derive_new_contents_from_chunks] after the file was read; [Ok None] is a panic. *)
Definition derive_new_contents (original_contents path : str)
    (chunks : list UpdateFileChunk) : result ApplyPatchError (option str) :=
  let original_lines := original_lines_of original_contents in
  let? replacements := compute_replacements original_lines path chunks in
  Ok (contents_of <$> apply_replacements original_lines replacements).

(** ** Reference definitions *)

(** The replacements do not overlap, are in ascending order from [pos] and stay in
    a file of [n] lines. *)
Fixpoint disjoint_from (pos n : nat) (rs : list replacement) : Prop :=
  match rs with
  | [] => pos ≤ n
  | (s, len, _) :: rs' => pos ≤ s ∧ disjoint_from (s + len) n rs'
  end.

(** Simultaneous substitution, from the front. *)
Fixpoint splice (pos : nat) (l : list str) (rs : list replacement) : list str :=
  match rs with
  | [] => drop pos l
  | (s, len, seg) :: rs' => take (s - pos) (drop pos l) ++ seg ++ splice (s + len) l rs'
  end.

(** What a chunk may become: the chunk's lines, or both sides without the final
    empty line, at a place where they match. *)
Definition chunk_replaced (original_lines : list str) (c : UpdateFileChunk)
    (r : replacement) : Prop :=
  let '(s, len, seg) := r in
  (old_lines c = [] ∧ len = 0 ∧ seg = new_lines c ∧
   s = (if last_is_empty original_lines then length original_lines - 1
        else length original_lines)) ∨
  (old_lines c ≠ [] ∧ len = length (old_lines c) ∧ seg = new_lines c ∧
   match_at normalise original_lines (old_lines c) s) ∨
  (∃ p, old_lines c = p ++ [[]] ∧ len = length p ∧
   (new_lines c = seg ∧ last seg ≠ Some [] ∨ new_lines c = seg ++ [[]]) ∧
   match_at normalise original_lines p s).

(** ** The sort *)

Definition starts_sorted (rs : list replacement) : Prop :=
  StronglySorted (key_le start_of) rs.

(** ** One replacement *)

Lemma iter_guarded_remove i n (l : list str) :
  i ≤ length l → Nat.iter n (guarded_remove i) l = take i l ++ drop (i + n) l.
Proof.
  intros Hi. induction n as [|n IH]; simpl.
  - by rewrite Nat.add_0_r, take_drop.
  - rewrite IH. unfold guarded_remove. rewrite length_app, length_take, length_drop.
    destruct (Nat.ltb_spec i (i `min` length l + (length l - (i + n)))).
    + rewrite delete_take_drop, take_app_length' by (rewrite length_take; lia).
      f_equal. rewrite drop_app_ge by (rewrite length_take; lia).
      rewrite length_take, drop_drop. f_equal. lia.
    + rewrite !(drop_ge l) by lia. done.
Qed.

Lemma insert_segment_spec i seg (l : list str) :
  i ≤ length l → insert_segment i seg l = Some (take i l ++ seg ++ drop i l).
Proof.
  revert i l. induction seg as [|x seg IH]; intros i l Hi; simpl.
  - by rewrite take_drop.
  - unfold vec_insert. rewrite (proj2 (Nat.leb_le _ _) Hi). simpl.
    rewrite IH by (rewrite length_app, length_take; simpl; rewrite length_drop; lia).
    f_equal. rewrite (cons_middle x (take i l) (drop i l)), (app_assoc (take i l) [x]).
    rewrite take_app_length' by (rewrite length_app, length_take; simpl; lia).
    rewrite drop_app_length' by (rewrite length_app, length_take; simpl; lia).
    by rewrite <-app_assoc.
Qed.

Lemma apply_one_spec s n seg (l : list str) :
  s ≤ length l → apply_one (s, n, seg) l = Some (take s l ++ seg ++ drop (s + n) l).
Proof.
  intros Hs. unfold apply_one. rewrite iter_guarded_remove by done.
  rewrite insert_segment_spec by (rewrite length_app, length_take; lia).
  rewrite take_app_length' by (rewrite length_take; lia).
  by rewrite drop_app_length' by (rewrite length_take; lia).
Qed.

(** ** All replacements *)

Lemma disjoint_from_le pos n rs : disjoint_from pos n rs → pos ≤ n.
Proof.
  revert pos. induction rs as [|[[s len] seg] rs IH]; intros pos; simpl; [done|].
  intros [? ?%IH]. lia.
Qed.

Lemma apply_replacements_cons l r rs :
  apply_replacements l (r :: rs) = apply_replacements l rs ≫= apply_one r.
Proof. done. Qed.

Lemma apply_replacements_from pos (l : list str) rs :
  disjoint_from pos (length l) rs →
  apply_replacements l rs = Some (take pos l ++ splice pos l rs).
Proof.
  revert pos. induction rs as [|[[s n] seg] rs IH]; intros pos.
  - simpl. by rewrite take_drop.
  - intros [Hs Hd]. pose proof (disjoint_from_le _ _ _ Hd).
    rewrite apply_replacements_cons, (IH _ Hd). cbn [mbind option_bind splice].
    rewrite apply_one_spec by (rewrite length_app, length_take; lia).
    rewrite take_app_le by (rewrite length_take; lia).
    rewrite take_take, drop_app_length' by (rewrite length_take; lia).
    rewrite (app_assoc (take pos l)), take_take_drop. by repeat (f_equal; try lia).
Qed.

Lemma apply_replacements_total (l : list str) rs :
  starts_sorted rs → Forall (λ r : replacement, r.1.1 ≤ length l) rs →
  ∃ l', apply_replacements l rs = Some l' ∧
        ∀ s, s ≤ length l → Forall (λ r : replacement, s ≤ r.1.1) rs → s ≤ length l'.
Proof.
  intros Hs. induction Hs as [|[[s n] seg] rs Hs IH Hall]; intros Hb; [by eauto|].
  inversion Hb as [|? ? Hs0 Hb']; subst. destruct (IH Hb') as (l' & E & Hl').
  simpl in Hs0. assert (Hle : s ≤ length l') by by apply Hl'.
  rewrite apply_replacements_cons, E. cbn [mbind option_bind]. rewrite apply_one_spec by done. eexists; split; [done|].
  intros s0 _ HF. inversion HF; subst; simpl in *.
  rewrite !length_app, length_take. lia.
Qed.

(** ** What [compute_replacements] returns *)

Lemma seek_sequence_le (l p : list str) i eof j :
  i ≤ length l → seek_sequence l p i eof = Some j → j + length p ≤ length l.
Proof.
  intros Hi H. destruct (decide (p = [])) as [->|Hne].
  - unfold seek_sequence in H. simpl in *. simplify_eq. lia.
  - destruct (seek_sequence_level _ _ _ _ _ Hne H) as (k & _ & [_ Hm] & _).
    by eapply match_at_bounds.
Qed.

Lemma seek_sequence_ge (l p : list str) i j :
  seek_sequence l p i false = Some j → i ≤ j.
Proof.
  intros H. destruct (decide (p = [])) as [->|Hne].
  - unfold seek_sequence in H. simpl in *. by simplify_eq.
  - destruct (seek_sequence_level _ _ _ _ _ Hne H) as (k & _ & [[? _] _] & _). done.
Qed.

Lemma seek_sequence_match (l p : list str) i eof j :
  seek_sequence l p i eof = Some j → match_at normalise l p j.
Proof.
  intros H. destruct (decide (p = [])) as [->|Hne]; [done|].
  destruct (seek_sequence_level _ _ _ _ _ Hne H) as (k & Hk & [_ Hm] & _).
  by apply (match_at_le k 3).
Qed.

Lemma advance_context_bounds l path c i i' :
  i ≤ length l → advance_context l path c i = Ok i' → i ≤ i' ≤ length l.
Proof.
  unfold advance_context. intros Hi H. destruct (change_context c) as [ctx|]; [|naive_solver].
  destruct (seek_sequence _ _ _ _) eqn:E; [|done]. simplify_eq.
  pose proof (seek_sequence_le _ _ _ _ _ Hi E). pose proof (seek_sequence_ge _ _ _ _ E).
  simpl in *. lia.
Qed.

Lemma but_last_snoc (p : list str) x : but_last (p ++ [x]) = p.
Proof.
  unfold but_last. rewrite length_app. simpl. replace (_ + 1 - 1) with (length p) by lia.
  by rewrite take_app_length.
Qed.

Lemma last_is_empty_true l : last_is_empty l = true → ∃ p, l = p ++ [[]].
Proof. intros H%bool_decide_eq_true_1%last_Some_snoc. done. Qed.

Lemma locate_chunk_replaced l c i s p seg :
  old_lines c ≠ [] → locate_chunk l c i = (Some s, p, seg) →
  chunk_replaced l c (s, length p, seg) ∧
  ∃ j, seek_sequence l p i (is_end_of_file c) = Some s ∧ j = s.
Proof.
  intros Hne. unfold locate_chunk.
  destruct (seek_sequence l (old_lines c) i _) as [j|] eqn:E.
  - intros ?; simplify_eq. split; [|by eauto]. right; left.
    repeat split; [done..|]. by eapply seek_sequence_match.
  - destruct (last_is_empty (old_lines c)) eqn:Elast; [|done].
    intros ?; simplify_eq. split; [|by eauto]. right; right.
    apply last_is_empty_true in Elast as [q Hq]. exists q. rewrite Hq in *.
    rewrite but_last_snoc in *. split; [done|]. split; [done|]. split.
    + destruct (last_is_empty (new_lines c)) eqn:En.
      * right. apply last_is_empty_true in En as [r ->]. by rewrite but_last_snoc.
      * left. split; [done|]. by apply bool_decide_eq_false_1 in En.
    + by eapply seek_sequence_match.
Qed.

Lemma chunk_step_spec l path c i r i' :
  i ≤ length l → chunk_step l path c i = Ok (r, i') →
  chunk_replaced l c r ∧ r.1.1 ≤ length l ∧ i' ≤ length l ∧
  (is_end_of_file c = false → old_lines c ≠ [] → i ≤ r.1.1 ∧ i' = r.1.1 + r.1.2) ∧
  (old_lines c = [] → i ≤ i' ∧ r.1.2 = 0 ∧
     r.1.1 = (if last_is_empty l then length l - 1 else length l)).
Proof.
  intros Hi. unfold chunk_step. intros (i0 & Hadv & H)%result_bind_ok.
  apply advance_context_bounds in Hadv as [? ?]; [|done].
  destruct (old_lines c) as [|o os] eqn:Eo.
  - simplify_eq. split; [left; by rewrite Eo|]. simpl.
    split; [destruct (last_is_empty l); lia|]. naive_solver.
  - destruct (locate_chunk l c i0) as [[[s|] p] seg] eqn:El; [|done]. simplify_eq.
    destruct (locate_chunk_replaced l c i0 s p seg) as [Hr (? & Hseek & _)];
      [by rewrite Eo|done|].
    pose proof (seek_sequence_le l p i0 _ s ltac:(lia) Hseek). simpl.
    split; [done|]. split; [lia|]. split; [lia|]. split; [|done].
    intros He _. rewrite He in Hseek. apply seek_sequence_ge in Hseek. lia.
Qed.

Lemma collect_replaced l path cs i rs :
  i ≤ length l → collect_replacements l path cs i = Ok rs →
  Forall2 (chunk_replaced l) cs rs ∧ Forall (λ r : replacement, r.1.1 ≤ length l) rs.
Proof.
  revert i rs. induction cs as [|c cs IH]; intros i rs Hi; simpl.
  - intros ?; simplify_eq. by split.
  - intros ([r i'] & Hstep & (rs' & Hrec & ?)%result_bind_ok)%result_bind_ok. simplify_eq.
    apply chunk_step_spec in Hstep as (? & ? & ? & _); [|done].
    apply IH in Hrec as [? ?]; [|done]. by split; constructor.
Qed.

(** The replacements sort into disjoint ones when no chunk is anchored at the end of
    the file and additions do not go before a final empty line. *)
Definition plain_chunk (l : list str) (c : UpdateFileChunk) : Prop :=
  is_end_of_file c = false ∧ (old_lines c = [] → last l ≠ Some []).

Lemma insert_end_disjoint pos n seg rs :
  disjoint_from pos n rs → disjoint_from pos n (insert_by_key start_of (n, 0, seg) rs).
Proof.
  revert pos. induction rs as [|[[s len] seg'] rs IH]; intros pos; simpl; [intros; lia|].
  intros [? Hd]. pose proof (disjoint_from_le _ _ _ Hd).
  unfold start_of at 1 2. simpl. destruct (Nat.leb_spec n s); simpl.
  - split; [lia|]. split; [lia|]. done.
  - split; [done|]. by apply IH.
Qed.

Lemma insert_front_disjoint s len n seg rs :
  disjoint_from (s + len) n rs →
  insert_by_key start_of (s, len, seg) rs = (s, len, seg) :: rs.
Proof.
  destruct rs as [|[[s' len'] seg'] rs]; simpl; [done|]. intros [? _].
  by rewrite (proj2 (Nat.leb_le _ _)) by (unfold start_of; simpl; lia).
Qed.

Lemma disjoint_from_weaken pos pos' n rs :
  pos' ≤ pos → disjoint_from pos n rs → disjoint_from pos' n rs.
Proof. destruct rs as [|[[s len] seg] rs]; simpl; intros; intuition lia. Qed.

Lemma collect_disjoint l path cs i rs :
  Forall (plain_chunk l) cs → i ≤ length l → collect_replacements l path cs i = Ok rs →
  disjoint_from i (length l) (sort_by_start rs).
Proof.
  intros HF. revert i rs. induction HF as [|c cs [Heof Hadd] HF IH]; intros i rs Hi; simpl.
  - by intros [= <-].
  - intros ([r i'] & Hstep & (rs' & Hrec & ?)%result_bind_ok)%result_bind_ok. simplify_eq.
    apply chunk_step_spec in Hstep as (_ & _ & Hi' & Hold & Hnew); [|done].
    apply IH in Hrec; [|done]. destruct r as [[s len] seg]. simpl in *.
    destruct (decide (old_lines c = [])) as [E|E].
    + destruct (Hnew E) as (? & -> & ->). unfold last_is_empty.
      rewrite bool_decide_eq_false_2 by auto.
      apply insert_end_disjoint. by eapply disjoint_from_weaken.
    + destruct (Hold Heof E) as [? ->].
      by erewrite insert_front_disjoint.
Qed.

(** ** Edit scripts

    A script is what a diff means: unchanged gaps between replaced blocks. *)

Record edit : Type := mkEdit { gap : list str; before : list str; after : list str }.

Fixpoint old_file (es : list edit) (tail : list str) : list str :=
  match es with [] => tail | e :: es' => gap e ++ before e ++ old_file es' tail end.
Fixpoint new_file (es : list edit) (tail : list str) : list str :=
  match es with [] => tail | e :: es' => gap e ++ after e ++ new_file es' tail end.

(** The update chunks that describe the script. *)
Definition edit_chunk (e : edit) : UpdateFileChunk := mkChunk None (before e) (after e) false.

(** Each replaced block is not empty and does not also occur, verbatim, between the
    end of the previous block and its own place. *)
Fixpoint unambiguous (file : list str) (pos : nat) (es : list edit) : Prop :=
  match es with
  | [] => True
  | e :: es' =>
      before e ≠ [] ∧
      (∀ j, pos ≤ j < pos + length (gap e) → ¬ match_at id file (before e) j) ∧
      unambiguous file (pos + length (gap e) + length (before e)) es'
  end.

(** The replacements of a script. *)
Fixpoint script_replacements (pos : nat) (es : list edit) : list replacement :=
  match es with
  | [] => []
  | e :: es' =>
      (pos + length (gap e), length (before e), after e) ::
      script_replacements (pos + length (gap e) + length (before e)) es'
  end.

Lemma seek_exact_first (l p : list str) i k :
  p ≠ [] → i ≤ k → match_at id l p k → (∀ j, i ≤ j < k → ¬ match_at id l p j) →
  seek_sequence l p i false = Some k.
Proof.
  intros Hne Hik Hm Hmin. pose proof (match_at_bounds _ _ _ _ Hne Hm).
  rewrite seek_sequence_unfold by (done || lia). cbv zeta.
  replace (scan (test_of 0 l p) _ _) with (Some k); [done|].
  symmetry. apply scan_test_Some. split; [simpl; lia|]. by split.
Qed.

Lemma match_at_middle (pre p post : list str) :
  match_at id (pre ++ p ++ post) p (length pre).
Proof. unfold match_at. by rewrite drop_app_length, take_app_length. Qed.

Lemma script_collect pre es tail path :
  let file := pre ++ old_file es tail in
  unambiguous file (length pre) es →
  collect_replacements file path (edit_chunk <$> es) (length pre) =
    Ok (script_replacements (length pre) es).
Proof.
  revert pre. induction es as [|e es IH]; intros pre; [done|]. cbn zeta.
  cbn [unambiguous old_file]. intros (Hne & Hun & Hrest).
  cbn [fmap list_fmap collect_replacements script_replacements].
  set (file := pre ++ gap e ++ before e ++ old_file es tail) in *.
  assert (Hseek : seek_sequence file (before e) (length pre) false =
                  Some (length pre + length (gap e))).
  { apply seek_exact_first; [done|lia| |done].
    unfold file. rewrite <-length_app, app_assoc. apply match_at_middle. }
  assert (Hstep : chunk_step file path (edit_chunk e) (length pre) =
    Ok ((length pre + length (gap e), length (before e), after e),
        length pre + length (gap e) + length (before e))).
  { unfold chunk_step, advance_context, locate_chunk. cbn [change_context edit_chunk result_bind
      old_lines new_lines is_end_of_file]. rewrite Hseek.
    by destruct (before e). }
  change (list_fmap edit UpdateFileChunk edit_chunk es) with (edit_chunk <$> es).
  rewrite Hstep. cbn [result_bind].
  specialize (IH (pre ++ gap e ++ before e)). cbn zeta in IH.
  rewrite !length_app, !Nat.add_assoc, <-!app_assoc in IH.
  fold file in IH. by rewrite IH.
Qed.

Lemma script_disjoint pre es tail :
  disjoint_from (length pre) (length (pre ++ old_file es tail))
    (script_replacements (length pre) es).
Proof.
  revert pre. induction es as [|e es IH]; intros pre; simpl.
  - rewrite length_app. lia.
  - split; [lia|]. specialize (IH (pre ++ gap e ++ before e)).
    rewrite <-!app_assoc in IH.
    by replace (length (pre ++ gap e ++ before e))
      with (length pre + length (gap e) + length (before e)) in IH
      by (rewrite !length_app; lia).
Qed.

Lemma script_splice pre es tail :
  splice (length pre) (pre ++ old_file es tail) (script_replacements (length pre) es) =
    new_file es tail.
Proof.
  revert pre. induction es as [|e es IH]; intros pre; simpl; [by rewrite drop_app_length|].
  replace (length pre + length (gap e) - length pre) with (length (gap e)) by lia.
  rewrite drop_app_length, take_app_length. do 2 f_equal.
  specialize (IH (pre ++ gap e ++ before e)).
  by rewrite !length_app, !Nat.add_assoc, <-!app_assoc in IH.
Qed.

Lemma disjoint_sorted pos n rs : disjoint_from pos n rs → starts_sorted rs.
Proof.
  assert (Hge : ∀ rs pos, disjoint_from pos n rs →
    Forall (λ r : replacement, pos ≤ r.1.1) rs).
  { clear. intros rs. induction rs as [|[[s len] seg] rs IH]; intros pos; simpl; [constructor|].
    intros [? Hd%IH]. constructor; [done|]. eapply Forall_impl; [done|]. simpl. lia. }
  revert pos. induction rs as [|[[s len] seg] rs IH]; intros pos; simpl; [constructor|].
  intros [? Hd]. constructor; [by eapply IH|].
  eapply Forall_impl; [by apply Hge|]. unfold key_le, start_of. simpl. lia.
Qed.

Lemma derive_script (contents path : str) (es : list edit)
    (tail : list str) :
  original_lines_of contents = old_file es tail →
  unambiguous (old_file es tail) 0 es →
  derive_new_contents contents path (edit_chunk <$> es) =
    Ok (Some (contents_of (new_file es tail))).
Proof.
  intros Ho Hu. pose proof (script_disjoint [] es tail) as Hd.
  pose proof (script_collect [] es tail path Hu) as Hc. simpl in Hd, Hc.
  unfold derive_new_contents, compute_replacements. rewrite Ho, Hc. simpl.
  unfold sort_by_start. rewrite sort_by_key_id by by eapply disjoint_sorted.
  rewrite (apply_replacements_from 0) by done. simpl.
  pose proof (script_splice [] es tail) as Hs. simpl in Hs. by rewrite Hs.
Qed.

(** The text of a list of lines, each ended by a line feed; and what the editing makes of a
    file that ends in a blank line. *)
Definition terminated (ls : list str) : str := concat ((λ l, l ++ [nl]) <$> ls).
Definition without_blank_tail (ls : list str) : list str :=
  if last_is_empty ls then but_last ls else ls.

Lemma join_terminated ls : join [nl] (ls ++ [[]]) = terminated ls.
Proof.
  induction ls as [|l ls IH]; [done|]. unfold terminated. rewrite concat_fmap_cons.
  fold (terminated ls). rewrite <-IH, <-app_assoc. by destruct ls.
Qed.

Lemma contents_of_terminated ls : contents_of ls = terminated (without_blank_tail ls).
Proof.
  unfold contents_of, without_blank_tail. destruct (last_is_empty ls) eqn:E.
  - apply last_is_empty_true in E as [p ->]. rewrite but_last_snoc. apply join_terminated.
  - apply join_terminated.
Qed.

(** ** Properties *)

(** Whatever [compute_replacements] accepts is justified by the file: sorted by
    position, it is one replacement per chunk, and each replaces a block that matches
    the chunk's old lines (up to white space and typographic punctuation, or without
    the final empty line on both sides), or is an insertion at the end for a chunk
    with no old lines. *)
Theorem compute_replacements_sound (l : list str) (path : str)
    (chunks : list UpdateFileChunk) (rs : list replacement) :
  compute_replacements l path chunks = Ok rs →
  starts_sorted rs ∧ ∃ rs0, rs ≡ₚ rs0 ∧ Forall2 (chunk_replaced l) chunks rs0.
Proof.
  intros (rs0 & H & ?)%result_bind_ok. simplify_eq.
  split; [apply sort_by_key_sorted|]. exists rs0. split; [apply sort_by_key_perm|].
  apply collect_replaced in H as [? _]; [done|lia].
Qed.

(** Applying the computed replacements never panics on an out-of-range
    [Vec::insert], for any file and any chunks: the derivation of the new contents
    returns either an error of [compute_replacements] or a text. *)
Theorem derive_new_contents_no_panic (contents path : str) (chunks : list UpdateFileChunk) :
  derive_new_contents contents path chunks ≠ Ok None.
Proof.
  unfold derive_new_contents. intros (rs & H & E)%result_bind_ok.
  apply result_bind_ok in H as (rs0 & H & ?). simplify_eq.
  apply collect_replaced in H as [_ Hb]; [|lia].
  destruct (apply_replacements_total (original_lines_of contents) (sort_by_start rs0))
    as (l' & Hl' & _).
  - apply sort_by_key_sorted.
  - unfold sort_by_start. by rewrite sort_by_key_perm.
  - by rewrite Hl' in E.
Qed.

(** When no chunk is anchored at the end of the file and no insertion goes before
    a final empty line, editing the vector back to front is the simultaneous
    substitution of disjoint blocks: every line outside the matched blocks is kept in
    place and in order. *)
Theorem apply_replacements_is_splice (l : list str) (path : str)
    (chunks : list UpdateFileChunk) (rs : list replacement) :
  Forall (plain_chunk l) chunks → compute_replacements l path chunks = Ok rs →
  disjoint_from 0 (length l) rs ∧ apply_replacements l rs = Some (splice 0 l rs).
Proof.
  intros HF (rs0 & H & ?)%result_bind_ok. simplify_eq.
  apply collect_disjoint in H; [|done|lia]. split; [done|].
  by rewrite (apply_replacements_from 0).
Qed.

(** An unambiguous edit script applied to the file it was made from yields the
    intended lines, each ended by a line feed, also when the original text did not end in
    one; but if the last line of the new file is blank, as after any edit of a file that
    ends in a blank line, that line is dropped. *)
Theorem derive_new_contents_applies_script (contents path : str) (es : list edit)
    (tail : list str) :
  original_lines_of contents = old_file es tail →
  unambiguous (old_file es tail) 0 es →
  derive_new_contents contents path (edit_chunk <$> es) =
    Ok (Some (terminated (without_blank_tail (new_file es tail)))).
Proof. rewrite <-contents_of_terminated. apply derive_script. Qed.

(** The condition of [apply_replacements_is_splice] is needed: with a final empty line in the file, an addition
    scheduled before it and a replacement that covers it overlap, and the added line
    "x" is missing from the result although both chunks were accepted. *)
Theorem addition_before_blank_tail_lost :
  ∃ l chunks rs l',
    compute_replacements l [] chunks = Ok rs ∧ apply_replacements l rs = Some l' ∧
    mkChunk None [] [lit "x"] false ∈ chunks ∧ lit "x" ∉ l'.
Proof.
  exists [lit "a"; []].
  exists [mkChunk None [] [lit "x"] false; mkChunk None [lit "a"; []] [lit "b"; []] false].
  eexists; eexists. split; [vm_compute; reflexivity|].
  split; [vm_compute; reflexivity|]. split; [left|].
  rewrite <-(bool_decide_eq_false (lit "x" ∈ _)). vm_compute. reflexivity.
Qed.

Definition ex_contents : str := lit "one" ++ [nl] ++ lit "two" ++ [nl] ++ lit "three" ++ [nl].
Definition ex_script : list edit := [mkEdit [lit "one"] [lit "two"] [lit "2"; lit "2b"]].

Lemma compute_replacements_sound_witness :
  ∃ rs, compute_replacements (original_lines_of ex_contents) [] (edit_chunk <$> ex_script) = Ok rs
    ∧ starts_sorted rs.
Proof.
  eexists. split; [vm_compute; reflexivity|].
  eapply (compute_replacements_sound (original_lines_of ex_contents) []
    (edit_chunk <$> ex_script)). vm_compute. reflexivity.
Defined.

Lemma apply_replacements_is_splice_witness :
  ∃ rs, apply_replacements (original_lines_of ex_contents) rs =
    Some (splice 0 (original_lines_of ex_contents) rs) ∧ rs ≠ [].
Proof.
  exists [(1, 1, [lit "2"; lit "2b"])]. split; [|discriminate].
  apply (apply_replacements_is_splice (original_lines_of ex_contents) []
    (edit_chunk <$> ex_script)).
  - constructor; [|constructor]. split; [reflexivity|]. discriminate.
  - vm_compute. reflexivity.
Defined.

Lemma derive_new_contents_applies_script_witness :
  derive_new_contents ex_contents [] (edit_chunk <$> ex_script) =
    Ok (Some (lit "one" ++ [nl] ++ lit "2" ++ [nl] ++ lit "2b" ++ [nl] ++ lit "three" ++ [nl])).
Proof.
  apply (derive_new_contents_applies_script ex_contents [] ex_script [lit "three"]).
  - vm_compute. reflexivity.
  - simpl. split; [discriminate|]. split; [|exact I]. intros j Hj.
    assert (j = 0) as -> by lia. vm_compute. discriminate.
Defined.

(** The blank line at the end of the file is dropped, although the edit is elsewhere. *)
Example blank_tail_dropped :
  derive_new_contents (lit "x" ++ [nl] ++ lit "keep" ++ [nl; nl]) []
    [mkChunk None [lit "x"] [lit "y"] false] =
  Ok (Some (lit "y" ++ [nl] ++ lit "keep" ++ [nl])).
Proof. vm_compute. reflexivity. Qed.

End Replacements.
