(* ===== verification/PatchParser.v ===== *)
(** * The patch parser (apply-patch/src/streaming_parser.rs, apply-patch/src/parser.rs)

    The streaming parser is a state machine fed one character at a time; the batch
    parser [parse_patch] checks the boundary lines and runs the streaming parser on the
    whole text.  A method on [&mut self] is a computation in [M StreamingPatchParser
    ParseError]. *)

From stdpp Require Import prelude strings.
From S2P Require Import Prelude RustStr PatchTypes.

Module PatchParser.

(** [StreamingParserMode]. *)
Inductive StreamingParserMode : Type :=
| NotStarted
| StartedPatch
| InAddFile
| InDeleteFile
| InUpdateFile (hunk_line_number : nat)
| EndedPatch.

(** [StreamingPatchParser], with the three fields of its [state] inlined. *)
Record StreamingPatchParser : Type := mkParser {
  line_buffer : str;
  mode : StreamingParserMode;
  hunks : list Hunk;
  environment_id : option str;
  line_number : nat;
}.

Definition default_parser : StreamingPatchParser := mkParser [] NotStarted [] None 0.

Definition set_line_buffer (b : str) (p : StreamingPatchParser) : StreamingPatchParser :=
  mkParser b (mode p) (hunks p) (environment_id p) (line_number p).
Definition set_mode (m : StreamingParserMode) (p : StreamingPatchParser) : StreamingPatchParser :=
  mkParser (line_buffer p) m (hunks p) (environment_id p) (line_number p).
Definition set_hunks (hs : list Hunk) (p : StreamingPatchParser) : StreamingPatchParser :=
  mkParser (line_buffer p) (mode p) hs (environment_id p) (line_number p).
Definition set_environment_id (e : option str) (p : StreamingPatchParser) : StreamingPatchParser :=
  mkParser (line_buffer p) (mode p) (hunks p) e (line_number p).
Definition bump_line_number (p : StreamingPatchParser) : StreamingPatchParser :=
  mkParser (line_buffer p) (mode p) (hunks p) (environment_id p) (S (line_number p)).

(** Pushing a hunk together with the mode that collects its body. *)
Definition start_hunk (h : Hunk) (m : StreamingParserMode) (p : StreamingPatchParser) :
    StreamingPatchParser := set_mode m (set_hunks (hunks p ++ [h]) p).

(** [hunks.last_mut()] assigned through. *)
Definition set_last_hunk (h : Hunk) (p : StreamingPatchParser) : StreamingPatchParser :=
  set_hunks (removelast (hunks p) ++ [h]) p.

(** [chunk.old_lines.is_empty() && chunk.new_lines.is_empty()]. *)
Definition chunk_is_blank (c : UpdateFileChunk) : bool :=
  bool_decide (old_lines c = []) && bool_decide (new_lines c = []).

(** [chunks.last().is_some_and(f)]. *)
Definition last_is {A} (f : A → bool) (l : list A) : bool :=
  match last l with Some a => f a | None => false end.

(** Error messages. *)
Definition msg_first_line : str := lit "The first line of the patch must be '*** Begin Patch'".
Definition msg_last_line : str := lit "The last line of the patch must be '*** End Patch'".
Definition msg_no_lines : str := lit "Update hunk does not contain any lines".
Definition msg_env_twice : str :=
  lit "apply_patch environment_id cannot be specified more than once".
Definition msg_env_empty : str := lit "apply_patch environment_id cannot be empty".
Definition msg_empty_update (path : str) : str :=
  lit "Update file hunk for path '" ++ path ++ lit "' is empty".
Definition msg_unexpected (line : str) : str :=
  lit "Unexpected line found in update hunk: '" ++ line ++
  lit "'. Every line should start with ' ' (context line), '+' (added line), or '-' (removed line)".
Definition msg_bad_header (trimmed : str) : str :=
  lit "'" ++ trimmed ++
  lit "' is not a valid hunk header. Valid hunk headers: '*** Add File: {path}', '*** Delete File: {path}', '*** Update File: {path}'".
Definition msg_expected_context (line : str) : str :=
  lit "Expected update hunk to start with a @@ context marker, got: '" ++ line ++ lit "'".

(** [ensure_update_hunk_is_not_empty]. *)
Definition ensure_update_hunk_is_not_empty (line : str) :
    M StreamingPatchParser ParseError unit := λ p,
  match last (hunks p) with
  | Some (UpdateFile path _ chunks) =>
      match chunks, mode p with
      | [], InUpdateFile hunk_line_number =>
          (p, Err (InvalidHunkError (msg_empty_update path) hunk_line_number))
      | _, _ =>
          if last_is chunk_is_blank chunks then
            if decide (line = END_PATCH_MARKER)
            then (p, Err (InvalidHunkError msg_no_lines (line_number p)))
            else (p, Err (InvalidHunkError (msg_unexpected line) (line_number p)))
          else (p, Ok tt)
      end
  | _ => (p, Ok tt)
  end.

(** [handle_hunk_headers_and_end_patch]. *)
Definition handle_hunk_headers_and_end_patch (trimmed : str) :
    M StreamingPatchParser ParseError bool := λ p,
  let env := match mode p with
             | StartedPatch => strip_prefix ENVIRONMENT_ID_MARKER trimmed
             | _ => None
             end in
  match env with
  | Some env_id =>
      match environment_id p with
      | Some _ => (p, Err (InvalidPatchError msg_env_twice))
      | None =>
          if decide (trim env_id = []) then (p, Err (InvalidPatchError msg_env_empty))
          else (set_environment_id (Some (trim env_id)) p, Ok true)
      end
  | None =>
    if decide (trimmed = END_PATCH_MARKER) then
      (ensure_update_hunk_is_not_empty trimmed ;;;
       st_modify (set_mode EndedPatch) ;;; st_ret true) p
    else
    match strip_prefix ADD_FILE_MARKER trimmed with
    | Some path =>
        (ensure_update_hunk_is_not_empty trimmed ;;;
         st_modify (start_hunk (AddFile path []) InAddFile) ;;; st_ret true) p
    | None =>
    match strip_prefix DELETE_FILE_MARKER trimmed with
    | Some path =>
        (ensure_update_hunk_is_not_empty trimmed ;;;
         st_modify (start_hunk (DeleteFile path) InDeleteFile) ;;; st_ret true) p
    | None =>
    match strip_prefix UPDATE_FILE_MARKER trimmed with
    | Some path =>
        (ensure_update_hunk_is_not_empty trimmed ;;;
         st_modify (start_hunk (UpdateFile path None []) (InUpdateFile (line_number p))) ;;;
         st_ret true) p
    | None => (p, Ok false)
    end end end
  end.

Definition blank_chunk (ctx : option str) : UpdateFileChunk := mkChunk ctx [] [] false.

(** [if chunks.is_empty() { chunks.push(..) }] followed by an update of [chunks.last_mut()]. *)
Definition with_chunk (chunks : list UpdateFileChunk) : list UpdateFileChunk :=
  match chunks with [] => [blank_chunk None] | _ => chunks end.
Definition alter_last {A} (f : A → A) (l : list A) : list A :=
  match last l with Some a => removelast l ++ [f a] | None => l end.

Definition push_old (l : str) (c : UpdateFileChunk) : UpdateFileChunk :=
  mkChunk (change_context c) (old_lines c ++ [l]) (new_lines c) (is_end_of_file c).
Definition push_new (l : str) (c : UpdateFileChunk) : UpdateFileChunk :=
  mkChunk (change_context c) (old_lines c) (new_lines c ++ [l]) (is_end_of_file c).
Definition mark_end_of_file (c : UpdateFileChunk) : UpdateFileChunk :=
  mkChunk (change_context c) (old_lines c) (new_lines c) true.

(** The outcome of a body line of an update hunk on the [move_path] and the [chunks] of
    the last hunk: [inl] the new pair, [inr] the message of an [InvalidHunkError]. *)
Definition update_hunk_line (line update_line : str) (move_path : option str)
    (chunks : list UpdateFileChunk) : (option str * list UpdateFileChunk) + str :=
  let is_context := bool_decide (update_line = EMPTY_CHANGE_CONTEXT_MARKER) ||
                    starts_with CHANGE_CONTEXT_MARKER update_line in
  let after_eof := last_is is_end_of_file chunks in
  if after_eof && bool_decide (update_line = []) then inl (move_path, chunks)
  else if after_eof && negb is_context then inr (msg_expected_context line)
  else
  match (match chunks, move_path with
         | [], None => strip_prefix MOVE_TO_MARKER update_line
         | _, _ => None
         end) with
  | Some move_to_path => inl (Some move_to_path, chunks)
  | None =>
  if is_context && last_is chunk_is_blank chunks then inr (msg_unexpected line)
  else if decide (update_line = EMPTY_CHANGE_CONTEXT_MARKER)
  then inl (move_path, chunks ++ [blank_chunk None])
  else match strip_prefix CHANGE_CONTEXT_MARKER update_line with
  | Some ctx => inl (move_path, chunks ++ [blank_chunk (Some ctx)])
  | None =>
  if decide (update_line = EOF_MARKER) then
    if last_is chunk_is_blank chunks then inr msg_no_lines
    else inl (move_path, alter_last mark_end_of_file chunks)
  else match line with
  | [] => inl (move_path, alter_last (λ c, push_new [] (push_old [] c)) (with_chunk chunks))
  | c :: rest =>
    if decide (c = space) then
      inl (move_path, alter_last (λ k, push_new rest (push_old rest k)) (with_chunk chunks))
    else if decide (c = 43%N) then
      inl (move_path, alter_last (push_new rest) (with_chunk chunks))
    else if decide (c = 45%N) then
      inl (move_path, alter_last (push_old rest) (with_chunk chunks))
    else if last_is (λ k, negb (chunk_is_blank k)) chunks then inr (msg_expected_context line)
    else inr (msg_unexpected line)
  end end end.

(** [process_line]. *)
Definition process_line (line : str) : M StreamingPatchParser ParseError unit := λ p,
  let trimmed := trim line in
  let bad_header q : StreamingPatchParser * result ParseError unit :=
    (q, Err (InvalidHunkError (msg_bad_header trimmed) (line_number q))) in
  match mode p with
  | NotStarted =>
      if decide (trimmed = BEGIN_PATCH_MARKER) then (set_mode StartedPatch p, Ok tt)
      else (p, Err (InvalidPatchError msg_first_line))
  | StartedPatch =>
      (let! handled := handle_hunk_headers_and_end_patch trimmed in
       if (handled : bool) then st_ret tt else bad_header) p
  | InAddFile =>
      (let! handled := handle_hunk_headers_and_end_patch trimmed in
       if (handled : bool) then st_ret tt else λ q,
         match strip_prefix [43%N] line, last (hunks q) with
         | Some line_to_add, Some (AddFile path contents) =>
             (set_last_hunk (AddFile path (contents ++ line_to_add ++ [nl])) q, Ok tt)
         | _, _ => bad_header q
         end) p
  | InDeleteFile =>
      (let! handled := handle_hunk_headers_and_end_patch trimmed in
       if (handled : bool) then st_ret tt else bad_header) p
  | InUpdateFile hunk_line_number =>
      let update_line := trim_end line in
      (let! handled := handle_hunk_headers_and_end_patch update_line in
       if (handled : bool) then st_ret tt else λ q,
         match last (hunks q) with
         | Some (UpdateFile path move_path chunks) =>
             match update_hunk_line line update_line move_path chunks with
             | inl (move_path', chunks') =>
                 (set_mode (InUpdateFile hunk_line_number)
                    (set_last_hunk (UpdateFile path move_path' chunks') q), Ok tt)
             | inr message => (q, Err (InvalidHunkError message (line_number q)))
             end
         | _ => (q, Err (InvalidHunkError (msg_unexpected line) (line_number q)))
         end) p
  | EndedPatch =>
      if decide (trimmed = []) then (p, Ok tt)
      else (p, Err (InvalidPatchError msg_last_line))
  end.

(** The loop of [push_delta]. *)
Definition push_char (ch : char) : M StreamingPatchParser ParseError unit := λ p,
  if decide (ch = nl) then
    (st_modify (λ q, bump_line_number (set_line_buffer [] q)) ;;;
     process_line (strip_cr (line_buffer p))) p
  else (set_line_buffer (line_buffer p ++ [ch]) p, Ok tt).

Fixpoint push_chars (delta : str) : M StreamingPatchParser ParseError unit :=
  match delta with
  | [] => st_ret tt
  | ch :: delta' => push_char ch ;;; push_chars delta'
  end.

(** [push_delta] and [finish]. *)
Definition push_delta (delta : str) : M StreamingPatchParser ParseError (list Hunk) :=
  push_chars delta ;;; let! p := st_get in st_ret (hunks p).

Definition finish_line : M StreamingPatchParser ParseError unit := λ p,
  match line_buffer p with
  | [] => (p, Ok tt)
  | _ :: _ =>
      let line := line_buffer p in
      (st_modify (λ q, bump_line_number (set_line_buffer [] q)) ;;;
       if decide (trim line = END_PATCH_MARKER) then
         ensure_update_hunk_is_not_empty (trim line) ;;; st_modify (set_mode EndedPatch)
       else process_line line) p
  end.

Definition finish : M StreamingPatchParser ParseError (list Hunk) :=
  finish_line ;;;
  let! p := st_get in
  match mode p with
  | EndedPatch => st_ret (hunks p)
  | _ => st_throw (InvalidPatchError msg_last_line)
  end.

(** [ParseMode] and the boundary checks of parser.rs. *)
Inductive ParseMode : Type := Strict | Lenient.

Definition check_start_and_end_lines_strict (first_line last_line : option str) :
    result ParseError unit :=
  match trim <$> first_line, trim <$> last_line with
  | Some first, last =>
      if decide (first = BEGIN_PATCH_MARKER ∧ last = Some END_PATCH_MARKER) then Ok tt
      else if decide (first ≠ BEGIN_PATCH_MARKER) then Err (InvalidPatchError msg_first_line)
      else Err (InvalidPatchError msg_last_line)
  | None, _ => Err (InvalidPatchError msg_last_line)
  end.

Definition check_patch_boundaries_strict (ls : list str) : result ParseError (list str) :=
  let? _ := check_start_and_end_lines_strict (head ls) (last ls) in Ok ls.

Definition heredoc_starts : list str :=
  [lit "<<EOF"; lit "<<'EOF'"; lit "<<" ++ [dquote] ++ lit "EOF" ++ [dquote]].

Definition check_patch_boundaries_lenient (original_lines : list str) :
    result ParseError (list str) :=
  match check_patch_boundaries_strict original_lines with
  | Ok ls => Ok ls
  | Err original_parse_error =>
      match original_lines with
      | first :: _ :: _ =>
          if bool_decide (first ∈ heredoc_starts) &&
             ends_with (lit "EOF") (default [] (last original_lines)) &&
             (4 <=? length original_lines)
          then check_patch_boundaries_strict
                 (take (length original_lines - 2) (drop 1 original_lines))
          else Err original_parse_error
      | _ => Err original_parse_error
      end
  end.

Definition parse_patch_text (patch : str) (m : ParseMode) : result ParseError ApplyPatchArgs :=
  let ls := lines (trim patch) in
  let? patch_lines := match m with
                      | Strict => check_patch_boundaries_strict ls
                      | Lenient => check_patch_boundaries_lenient ls
                      end in
  let patch := join [nl] patch_lines in
  match (push_delta patch ;;; finish) default_parser with
  | (p, Ok hs) => Ok (mkArgs patch hs None (environment_id p))
  | (_, Err e) => Err e
  end.

Definition PARSE_IN_STRICT_MODE : bool := false.

Definition parse_patch (patch : str) : result ParseError ApplyPatchArgs :=
  parse_patch_text patch (if PARSE_IN_STRICT_MODE then Strict else Lenient).

(** ** Feeding a text in pieces *)

(** Successive calls of [push_delta], stopping at the first error. *)
Fixpoint push_all (deltas : list str) : M StreamingPatchParser ParseError (list Hunk) :=
  match deltas with
  | [] => push_delta []
  | d :: ds => push_delta d ;;; push_all ds
  end.

Lemma push_chars_app a b p : push_chars (a ++ b) p = (push_chars a ;;; push_chars b) p.
Proof.
  revert p. induction a as [|c a IH]; intros p; [done|]. cbn [push_chars app].
  rewrite st_bind_assoc. unfold st_bind.
  destruct (push_char c p) as [p' [[]|e]]; [|done]. by rewrite IH.
Qed.

(** ** The invariant of the state machine *)

Definition nonblank (c : UpdateFileChunk) : Prop := chunk_is_blank c = false.

(** A hunk that can be applied: an update has chunks and every chunk has lines. *)
Definition complete_hunk (h : Hunk) : Prop :=
  match h with
  | UpdateFile _ _ chunks => chunks ≠ [] ∧ Forall nonblank chunks
  | _ => True
  end.

(** Every hunk but the last is complete; the mode tells what the last one is, and in an
    update hunk every chunk but the last has lines. *)
Definition parser_inv (p : StreamingPatchParser) : Prop :=
  match mode p with
  | NotStarted | StartedPatch => hunks p = []
  | InAddFile => ∃ hs path contents,
      hunks p = hs ++ [AddFile path contents] ∧ Forall complete_hunk hs
  | InDeleteFile => ∃ hs path, hunks p = hs ++ [DeleteFile path] ∧ Forall complete_hunk hs
  | InUpdateFile _ => ∃ hs path mv chunks,
      hunks p = hs ++ [UpdateFile path mv chunks] ∧ Forall complete_hunk hs ∧
      Forall nonblank (removelast chunks)
  | EndedPatch => Forall complete_hunk (hunks p)
  end.

Lemma last_is_snoc {A} (f : A → bool) l a : last_is f (l ++ [a]) = f a.
Proof. unfold last_is. by rewrite last_snoc. Qed.

Lemma alter_last_snoc {A} (f : A → A) l a : alter_last f (l ++ [a]) = l ++ [f a].
Proof. unfold alter_last. by rewrite last_snoc, removelast_snoc. Qed.

Lemma nonblank_snoc cs c :
  Forall nonblank (removelast (cs ++ [c])) → last_is chunk_is_blank (cs ++ [c]) = false →
  Forall nonblank (cs ++ [c]).
Proof.
  rewrite removelast_snoc, last_is_snoc. intros. apply Forall_app. split; [done|].
  by constructor.
Qed.

Lemma ensure_state line p : (ensure_update_hunk_is_not_empty line p).1 = p.
Proof. unfold ensure_update_hunk_is_not_empty. by repeat case_match. Qed.

Lemma ensure_complete line p p' :
  parser_inv p → ensure_update_hunk_is_not_empty line p = (p', Ok tt) →
  p' = p ∧ Forall complete_hunk (hunks p).
Proof.
  intros Hinv H. pose proof (ensure_state line p) as Hst. rewrite H in Hst. simpl in Hst.
  split; [done|]. subst p'. unfold parser_inv in Hinv.
  unfold ensure_update_hunk_is_not_empty in H.
  destruct (mode p) eqn:Em; [by rewrite Hinv..| | | |done].
  - destruct Hinv as (hs & path & cont & -> & HF). apply Forall_app. by repeat constructor.
  - destruct Hinv as (hs & path & -> & HF). apply Forall_app. by repeat constructor.
  - destruct Hinv as (hs & path & mv & chunks & E & HF & Hnb). rewrite E, last_snoc in H.
    rewrite E. apply Forall_app. split; [done|]. constructor; [|done].
    destruct chunks as [|c chunks _] using rev_ind; [done|].
    split; [by destruct chunks|]. apply nonblank_snoc; [done|].
    destruct (last_is _ _); [|done]. destruct (chunks ++ [c]); [done|by case_decide].
Qed.

(** The four branches of the header handler that first check the open hunk. *)
Lemma ensure_then_inv line (f : StreamingPatchParser → StreamingPatchParser) p p' r :
  parser_inv p → mode p ≠ NotStarted →
  (Forall complete_hunk (hunks p) → parser_inv (f p)) →
  (ensure_update_hunk_is_not_empty line ;;; st_modify f ;;; st_ret true) p = (p', r) →
  parser_inv p' ∧ (r = Ok false → p' = p).
Proof.
  intros Hinv Hm Hf H. st_unfold H.
  destruct (ensure_update_hunk_is_not_empty line p) as [q [[]|e]] eqn:E.
  - apply ensure_complete in E as [-> HF]; [|done]. simpl in H. simplify_eq. split; [by apply Hf|done].
  - pose proof (ensure_state line p) as Hq. rewrite E in Hq. simpl in Hq. by simplify_eq.
Qed.

Lemma handle_headers_inv trimmed p p' r :
  parser_inv p → mode p ≠ NotStarted →
  handle_hunk_headers_and_end_patch trimmed p = (p', r) →
  parser_inv p' ∧ (r = Ok false → p' = p).
Proof.
  intros Hinv Hm H. unfold handle_hunk_headers_and_end_patch in H.
  destruct (match mode p with StartedPatch => _ | _ => _ end) as [env|] eqn:Eenv.
  - assert (mode p = StartedPatch) as Hs by by destruct (mode p).
    unfold parser_inv in Hinv. rewrite Hs in Hinv. clear Eenv.
    repeat case_match; simplify_eq; (split; [|done]); unfold parser_inv; simpl; by rewrite Hs.
  - clear Eenv. repeat case_match; simplify_eq; [..|done];
      (eapply ensure_then_inv; [done|done| |done]); intros HF; unfold parser_inv; simpl;
      [done|eauto..]. eexists _, _, _, []. by repeat split.
Qed.

Lemma removelast_with_chunk cs :
  Forall nonblank (removelast cs) → Forall nonblank (removelast (with_chunk cs)).
Proof. by destruct cs. Qed.

Lemma alter_last_removelast {A} (f : A → A) l : removelast (alter_last f l) = removelast l.
Proof.
  destruct l as [|a l _] using rev_ind; [done|]. by rewrite alter_last_snoc, !removelast_snoc.
Qed.

Lemma update_hunk_line_inv line ul mv cs mv' cs' :
  Forall nonblank (removelast cs) → update_hunk_line line ul mv cs = inl (mv', cs') →
  Forall nonblank (removelast cs').
Proof.
  intros Hnb H. unfold update_hunk_line in H.
  assert (Hpush : ∀ ctx, last_is chunk_is_blank cs = false →
    Forall nonblank (removelast (cs ++ [blank_chunk ctx]))).
  { intros ctx Hl. rewrite removelast_snoc.
    destruct cs as [|c cs0 _] using rev_ind; [done|]. by apply nonblank_snoc. }
  assert (Halt : ∀ f, Forall nonblank (removelast (alter_last f (with_chunk cs)))).
  { intros f. rewrite alter_last_removelast. by apply removelast_with_chunk. }
  assert (Halt' : ∀ f, Forall nonblank (removelast (alter_last f cs))).
  { intros f. by rewrite alter_last_removelast. }
  destruct (_ && bool_decide (ul = [])); [by simplify_eq|].
  destruct (_ && negb _); [done|].
  destruct (match cs with [] => _ | _ => _ end); [by simplify_eq|].
  destruct (bool_decide (ul = EMPTY_CHANGE_CONTEXT_MARKER) || _) eqn:Ectx.
  - destruct (last_is chunk_is_blank cs) eqn:Eb; [done|]. simpl in H.
    repeat case_match; simplify_eq; auto.
  - simpl in H. case_decide as D; [subst; by vm_compute in Ectx|].
    destruct (strip_prefix CHANGE_CONTEXT_MARKER ul) as [ctx|] eqn:Es.
    { apply strip_prefix_Some in Es. apply orb_false_iff in Ectx as [_ Ectx].
      exfalso. rewrite (proj2 (starts_with_true _ _)) in Ectx; [done|]. by eexists. }
    repeat case_match; simplify_eq; auto.
Qed.

Lemma process_line_inv line p p' r :
  parser_inv p → process_line line p = (p', r) → parser_inv p'.
Proof.
  intros Hinv H. unfold process_line in H.
  destruct (mode p) eqn:Em; [case_decide; simplify_eq; [|done]| | | | |].
  { unfold parser_inv in *. rewrite Em in Hinv. done. }
  5: { case_decide; by simplify_eq. }
  all: st_unfold H; destruct (handle_hunk_headers_and_end_patch _ p) as [q [b|e]] eqn:E;
    (apply handle_headers_inv in E as [Hq Hb]; [|done|by rewrite Em]); try by simplify_eq.
  all: destruct b; [by simplify_eq/=|]; rewrite (Hb eq_refl) in *; clear Hb Hq.
  - by simplify_eq.
  - unfold parser_inv in Hinv. rewrite Em in Hinv.
    destruct Hinv as (hs & path & cont & Eh & HF). rewrite Eh, last_snoc in H.
    destruct (strip_prefix [43%N] line); simplify_eq; unfold parser_inv; simpl; rewrite Em.
    + rewrite Eh, removelast_snoc. by eauto.
    + by eauto.
  - by simplify_eq.
  - unfold parser_inv in Hinv. rewrite Em in Hinv.
    destruct Hinv as (hs & path & mv & cs & Eh & HF & Hnb). rewrite Eh, last_snoc in H.
    destruct (update_hunk_line _ _ _ _) as [[mv' cs']|msg] eqn:Eu; simplify_eq;
      unfold parser_inv; simpl; rewrite ?Em.
    + rewrite Eh, removelast_snoc. eexists _, _, _, _. split_and!; [done..|].
      by eapply update_hunk_line_inv.
    + by eauto 10.
Qed.

Lemma push_chars_inv delta p p' r :
  parser_inv p → push_chars delta p = (p', r) → parser_inv p'.
Proof.
  revert p r. induction delta as [|c delta IH]; intros p r Hinv; simpl; [by intros [= <- <-]|].
  unfold st_bind. destruct (push_char c p) as [q [[]|e]] eqn:E; intros H; simplify_eq.
  - eapply IH; [|done]. clear H. unfold push_char in E. case_decide; [|by simplify_eq].
    st_unfold E. by eapply process_line_inv in E.
  - unfold push_char in E. case_decide; [|by simplify_eq].
    st_unfold E. by eapply process_line_inv in E.
Qed.

Lemma finish_line_inv p p' r : parser_inv p → finish_line p = (p', r) → parser_inv p'.
Proof.
  intros Hinv H. unfold finish_line in H. destruct (line_buffer p) as [|c b]; [by simplify_eq|].
  st_unfold H. case_decide; [|by eapply process_line_inv in H].
  set (q := bump_line_number (set_line_buffer [] p)) in *.
  assert (Hq : parser_inv q) by done.
  destruct (ensure_update_hunk_is_not_empty _ q) as [q' [[]|e]] eqn:E.
  - simpl in H. simplify_eq. unfold parser_inv. simpl.
    by apply ensure_complete in E as [-> HF].
  - pose proof (ensure_state (trim (c :: b)) q) as Hst. rewrite E in Hst. simpl in Hst.
    by simplify_eq.
Qed.

(** ** Reachable parser states *)

(** A client calls [push_delta] and [finish], whatever they return. *)
Inductive parser_step (p : StreamingPatchParser) : StreamingPatchParser → Prop :=
| step_push delta p' r : push_delta delta p = (p', r) → parser_step p p'
| step_finish p' r : finish p = (p', r) → parser_step p p'.

Lemma push_delta_inv delta p p' r :
  parser_inv p → push_delta delta p = (p', r) → parser_inv p'.
Proof.
  intros Hinv H. unfold push_delta in H. st_unfold H.
  destruct (push_chars delta p) as [q [[]|e]] eqn:E; simplify_eq/=; by eapply push_chars_inv.
Qed.

Lemma finish_inv p p' r : parser_inv p → finish p = (p', r) → parser_inv p'.
Proof.
  intros Hinv H. unfold finish in H. st_unfold H.
  destruct (finish_line p) as [q [[]|e]] eqn:E; apply finish_line_inv in E; try done.
  - simpl in H. destruct (mode q); by simplify_eq/=.
  - by simplify_eq.
Qed.

Lemma reachable_inv p : rtc parser_step default_parser p → parser_inv p.
Proof.
  intros H. remember default_parser as p0 eqn:E0.
  assert (H0 : parser_inv p0) by by subst.
  clear E0. induction H as [|p q r Hst _ IH]; [done|].
  apply IH. destruct Hst; [by eapply push_delta_inv|by eapply finish_inv].
Qed.

(** ** What a snapshot commits to *)

(** The hunks before the last one stay as they are, and hunks are never dropped. *)
Definition extends (hs hs' : list Hunk) : Prop :=
  removelast hs `prefix_of` hs' ∧ length hs ≤ length hs'.

Lemma length_removelast {A} (l : list A) : length (removelast l) = length l - 1.
Proof.
  destruct l as [|a l _] using rev_ind; [done|].
  rewrite removelast_snoc, length_app. simpl. lia.
Qed.

Lemma removelast_prefix {A} (l : list A) : removelast l `prefix_of` l.
Proof.
  destruct l as [|a l _] using rev_ind; [done|]. rewrite removelast_snoc. by eexists.
Qed.

Lemma extends_refl hs : extends hs hs.
Proof. split; [apply removelast_prefix|done]. Qed.

Lemma extends_trans hs1 hs2 hs3 : extends hs1 hs2 → extends hs2 hs3 → extends hs1 hs3.
Proof.
  intros [H1 L1] [H2 L2]. split; [|lia]. transitivity (removelast hs2); [|done].
  destruct (prefix_weak_total (removelast hs1) (removelast hs2) hs2) as [H|H];
    [done|apply removelast_prefix|done|].
  apply prefix_length_eq in H; [by rewrite H|].
  rewrite !length_removelast. lia.
Qed.

Lemma extends_push hs h : extends hs (hs ++ [h]).
Proof.
  split; [|rewrite length_app; simpl; lia].
  transitivity hs; [apply removelast_prefix|by eexists].
Qed.

Lemma extends_set_last hs h : hs ≠ [] → extends hs (removelast hs ++ [h]).
Proof.
  intros Hne. split; [by eexists|]. rewrite length_app, length_removelast. simpl. lia.
Qed.

Lemma ensure_then_extends {A} line (f : StreamingPatchParser → StreamingPatchParser) (a : A) p p' r :
  extends (hunks p) (hunks (f p)) →
  (ensure_update_hunk_is_not_empty line ;;; st_modify f ;;; st_ret a) p = (p', r) →
  extends (hunks p) (hunks p').
Proof.
  intros Hf H. st_unfold H. pose proof (ensure_state line p) as Hst.
  destruct (ensure_update_hunk_is_not_empty line p) as [q [[]|e]]; simpl in Hst; simplify_eq.
  - done.
  - apply extends_refl.
Qed.

Lemma handle_headers_extends trimmed p p' r :
  handle_hunk_headers_and_end_patch trimmed p = (p', r) →
  extends (hunks p) (hunks p').
Proof.
  unfold handle_hunk_headers_and_end_patch. intros H.
  repeat case_match; simplify_eq; try apply extends_refl;
    (eapply ensure_then_extends; [|done]); apply extends_refl || apply extends_push.
Qed.

Lemma process_line_extends line p p' r :
  process_line line p = (p', r) → extends (hunks p) (hunks p').
Proof.
  intros H. unfold process_line in H.
  destruct (mode p); [case_decide; simplify_eq; apply extends_refl| | | | |
    case_decide; simplify_eq; apply extends_refl].
  all: st_unfold H; destruct (handle_hunk_headers_and_end_patch _ p) as [q [b|e]] eqn:E;
    apply handle_headers_extends in E; [|by simplify_eq].
  all: destruct b; [by simplify_eq|]; eapply extends_trans; [exact E|].
  all: repeat case_match; simplify_eq; try apply extends_refl.
  all: apply extends_set_last; by destruct (hunks q).
Qed.

Lemma push_chars_extends delta p p' r :
  push_chars delta p = (p', r) → extends (hunks p) (hunks p').
Proof.
  revert p. induction delta as [|c delta IH]; intros p; simpl.
  { intros [= <- <-]. apply extends_refl. }
  unfold st_bind. destruct (push_char c p) as [q [[]|e]] eqn:E; intros H; simplify_eq.
  1: apply IH in H; eapply extends_trans; [|exact H]; clear H IH.
  all: unfold push_char in E; case_decide; [|simplify_eq; apply extends_refl].
  all: st_unfold E; by apply process_line_extends in E.
Qed.

(** ** Properties *)

(** Streaming is invisible: feeding a patch in any number of pieces, cut at any
    characters, ends in the same parser state and the same result (hunks so far or first
    error) as feeding it at once. *)
Theorem push_all_concat (deltas : list str) (p : StreamingPatchParser) :
  push_all deltas p = push_delta (concat deltas) p.
Proof.
  revert p. induction deltas as [|d ds IH]; intros p; [done|].
  cbn [push_all concat]. unfold push_delta. unfold st_bind at 1 2.
  unfold st_bind at 2. rewrite push_chars_app. unfold st_bind at 2.
  destruct (push_chars d p) as [q [[]|e]]; [|done]. apply IH.
Qed.

(** Whatever text was pushed in whatever pieces, and whatever was returned before,
    a successful [finish] yields only hunks that can be applied: every update hunk has a
    chunk and no chunk is without lines. *)
Theorem finish_hunks_complete (p p' : StreamingPatchParser) (hs : list Hunk) :
  rtc parser_step default_parser p → finish p = (p', Ok hs) → Forall complete_hunk hs.
Proof.
  intros Hr%reachable_inv H. unfold finish in H. st_unfold H.
  destruct (finish_line p) as [q [[]|e]] eqn:E; [|done].
  apply finish_line_inv in E; [|done]. unfold parser_inv in E.
  destruct (mode q); simplify_eq. done.
Qed.

(** Snapshots only grow: the hunks returned after more text keep every hunk of an
    earlier snapshot but its last one unchanged and drop none, also when the later push
    fails. *)
Theorem push_delta_extends (delta : str) (p p' : StreamingPatchParser)
    (r : result ParseError (list Hunk)) :
  push_delta delta p = (p', r) →
  removelast (hunks p) `prefix_of` hunks p' ∧ length (hunks p) ≤ length (hunks p').
Proof.
  intros H. unfold push_delta in H. st_unfold H.
  destruct (push_chars delta p) as [q [[]|e]] eqn:E; simplify_eq;
    by apply push_chars_extends in E.
Qed.

Definition ex_patch : str := join [nl]
  [lit "*** Begin Patch"; lit "*** Update File: a"; lit "@@"; lit "-x"; lit "+y";
   lit "*** End Patch"].

Lemma finish_hunks_complete_witness :
  Forall complete_hunk [UpdateFile (lit "a") None [mkChunk None [lit "x"] [lit "y"] false]].
Proof.
  eapply (finish_hunks_complete (push_delta ex_patch default_parser).1).
  - apply rtc_once. eapply (step_push _ ex_patch). apply surjective_pairing.
  - vm_compute. reflexivity.
Defined.

Lemma push_delta_extends_witness :
  removelast (hunks (push_delta ex_patch default_parser).1) `prefix_of`
  hunks (push_delta (lit "bad" ++ [nl]) (push_delta ex_patch default_parser).1).1.
Proof.
  apply (push_delta_extends (lit "bad" ++ [nl]) (push_delta ex_patch default_parser).1
    (push_delta (lit "bad" ++ [nl]) (push_delta ex_patch default_parser).1).1
    (push_delta (lit "bad" ++ [nl]) (push_delta ex_patch default_parser).1).2).
  apply surjective_pairing.
Defined.

End PatchParser.
