(* ===== verification/PatchRoundTrip.v ===== *)
(** * The patch grammar and the parser's round trip

    The grammar at the head of apply-patch/src/parser.rs as an abstract syntax with a
    printer.  The main theorem says that the parser reads back every printed patch;
    the second that wrapping a patch in a shell heredoc changes nothing. *)

From stdpp Require Import prelude strings.
From S2P Require Import Prelude RustStr PatchTypes PatchParser.
Import PatchParser.

Module PatchRoundTrip.

(** [change_line]: a context line, an added line, a removed line. *)
Inductive change_line : Type := Keep (l : str) | Plus (l : str) | Minus (l : str).

(** [change_context] with its lines and the optional [eof_line]. *)
Record change : Type := mkChange {
  ch_context : option str;
  ch_lines : list change_line;
  ch_eof : bool;
}.

(** [hunk]. *)
Inductive hunk_src : Type :=
| SrcAdd (path : str) (ls : list str)
| SrcDelete (path : str)
| SrcUpdate (path : str) (move_to : option str) (changes : list change).

(** ** Printing *)

Definition print_line (c : change_line) : str :=
  match c with Keep l => space :: l | Plus l => 43%N :: l | Minus l => 45%N :: l end.

Definition print_context (c : option str) : str :=
  match c with
  | None => EMPTY_CHANGE_CONTEXT_MARKER
  | Some ctx => CHANGE_CONTEXT_MARKER ++ ctx
  end.

Definition print_change (c : change) : list str :=
  print_context (ch_context c) :: (print_line <$> ch_lines c) ++
  (if ch_eof c then [EOF_MARKER] else []).

Definition print_hunk (h : hunk_src) : list str :=
  match h with
  | SrcAdd path ls => (ADD_FILE_MARKER ++ path) :: (cons 43%N <$> ls)
  | SrcDelete path => [DELETE_FILE_MARKER ++ path]
  | SrcUpdate path move_to changes =>
      (UPDATE_FILE_MARKER ++ path) ::
      (match move_to with None => [] | Some d => [MOVE_TO_MARKER ++ d] end) ++
      concat (print_change <$> changes)
  end.

Definition print_env (env : option str) : list str :=
  match env with None => [] | Some e => [ENVIRONMENT_ID_MARKER ++ space :: e] end.

Definition print_lines (env : option str) (hs : list hunk_src) : list str :=
  BEGIN_PATCH_MARKER :: print_env env ++ concat (print_hunk <$> hs) ++ [END_PATCH_MARKER].

Definition print_patch (env : option str) (hs : list hunk_src) : str :=
  join [nl] (print_lines env hs).

(** ** What the text means *)

Definition old_of (c : change_line) : list str :=
  match c with Keep l | Minus l => [l] | Plus _ => [] end.
Definition new_of (c : change_line) : list str :=
  match c with Keep l | Plus l => [l] | Minus _ => [] end.

Definition chunk_of (c : change) : UpdateFileChunk :=
  mkChunk (ch_context c) (ch_lines c ≫= old_of) (ch_lines c ≫= new_of) (ch_eof c).

Definition hunk_of (h : hunk_src) : Hunk :=
  match h with
  | SrcAdd path ls => AddFile path (concat ((λ l, l ++ [nl]) <$> ls))
  | SrcDelete path => DeleteFile path
  | SrcUpdate path move_to changes => UpdateFile path move_to (chunk_of <$> changes)
  end.

(** ** Well-formed sources *)

(** A file name, a context or an environment id: on one line, and not cut by trimming. *)
Definition ok_name (s : str) : Prop := s ≠ [] ∧ clean_end s ∧ nl ∉ s.
(** A body line: on one line and without a carriage return at its end. *)
Definition ok_line (s : str) : Prop := nl ∉ s ∧ last s ≠ Some cr.

Definition ok_change_line (c : change_line) : Prop :=
  match c with Keep l | Plus l | Minus l => ok_line l end.
Definition ok_change (c : change) : Prop :=
  (match ch_context c with None => True | Some ctx => ok_name ctx end) ∧
  ch_lines c ≠ [] ∧ Forall ok_change_line (ch_lines c).
Definition ok_hunk (h : hunk_src) : Prop :=
  match h with
  | SrcAdd path ls => ok_name path ∧ Forall ok_line ls
  | SrcDelete path => ok_name path
  | SrcUpdate path move_to changes =>
      ok_name path ∧ (match move_to with None => True | Some d => ok_name d end) ∧
      changes ≠ [] ∧ Forall ok_change changes
  end.
Definition ok_env (env : option str) : Prop :=
  match env with None => True | Some e => ok_name e ∧ clean_start e end.

(** ** Lines that survive printing *)

(** One line of a printed patch: no line feed, no final carriage return. *)
Definition one_line (s : str) : Prop := nl ∉ s ∧ last s ≠ Some cr.

Lemma clean_end_last s : clean_end s → last s ≠ Some cr.
Proof.
  intros H Hl. apply last_Some_snoc in Hl as [s' ->]. unfold clean_end in H.
  rewrite trim_end_snoc_ws in H by done.
  apply (f_equal length) in H. rewrite length_app in H. simpl in H.
  pose proof (trim_end_length s'). lia.
Qed.

Lemma last_app_ne {A} (a b : list A) : b ≠ [] → last (a ++ b) = last b.
Proof.
  intros Hb. destruct b as [|x b _] using rev_ind; [done|]. by rewrite app_assoc, !last_snoc.
Qed.

Lemma one_line_marked (m s : str) : nl ∉ m → ok_name s → one_line (m ++ s).
Proof.
  intros Hm (Hne & Hc & Hn). split; [set_solver|].
  rewrite last_app_ne by done. by apply clean_end_last.
Qed.

Lemma one_line_cons c s : c ≠ nl → c ≠ cr → ok_line s → one_line (c :: s).
Proof.
  intros H1 H2 [H3 H4]. split; [set_solver|].
  destruct s as [|d s]; [simpl; congruence|]. done.
Qed.

Ltac closed_marker := apply (bool_decide_eq_true_1 _); vm_compute; reflexivity.

Lemma print_change_lines c : ok_change c → Forall one_line (print_change c).
Proof.
  intros (Hctx & _ & Hl). unfold print_change. constructor.
  - destruct (ch_context c); cbn [print_context].
    + apply one_line_marked; [closed_marker|done].
    + split; [closed_marker|done].
  - apply Forall_app. split.
    + induction Hl as [|l ls Hl _ IH]; simpl; [constructor|]. constructor; [|done].
      destruct l; apply one_line_cons; done.
    + destruct (ch_eof c); [|constructor]. constructor; [|done]. split; [closed_marker|done].
Qed.

Lemma print_hunk_lines h : ok_hunk h → Forall one_line (print_hunk h).
Proof.
  destruct h as [path ls|path|path mv cs]; cbn [print_hunk ok_hunk].
  - intros [Hp Hl]. constructor; [apply one_line_marked; [closed_marker|done]|].
    induction Hl as [|l ls Hl _ IH]; simpl; [constructor|]. constructor; [|done].
    by apply one_line_cons.
  - intros Hp. constructor; [|done]. apply one_line_marked; [closed_marker|done].
  - intros (Hp & Hmv & _ & Hcs). constructor; [apply one_line_marked; [closed_marker|done]|].
    apply Forall_app. split.
    + destruct mv; [|constructor]. constructor; [|done].
      apply one_line_marked; [closed_marker|done].
    + induction Hcs as [|c cs Hc _ IH]; [constructor|]. rewrite concat_fmap_cons.
      apply Forall_app. split; [by apply print_change_lines|done].
Qed.

Lemma print_lines_one env hs :
  ok_env env → Forall ok_hunk hs → Forall one_line (print_lines env hs).
Proof.
  intros He Hh. unfold print_lines. constructor; [split; [closed_marker|done]|].
  apply Forall_app. split.
  - destruct env as [e|]; [|constructor]. constructor; [|done]. destruct He as [He _].
    apply (one_line_marked (ENVIRONMENT_ID_MARKER ++ [space]) e) in He; [|closed_marker].
    by rewrite <-app_assoc in He.
  - apply Forall_app. split.
    + induction Hh as [|h hs Hh _ IH]; [constructor|]. rewrite concat_fmap_cons.
      apply Forall_app. split; [by apply print_hunk_lines|done].
    + constructor; [|done]. split; [closed_marker|done].
Qed.

(** ** Feeding lines *)

Definition feed_line (line : str) : M StreamingPatchParser ParseError unit :=
  st_modify bump_line_number ;;; process_line line.

Fixpoint feed_lines (ls : list str) : M StreamingPatchParser ParseError unit :=
  match ls with
  | [] => st_ret tt
  | l :: ls' => feed_line l ;;; feed_lines ls'
  end.

Lemma feed_lines_app a b p : feed_lines (a ++ b) p = (feed_lines a ;;; feed_lines b) p.
Proof.
  revert p. induction a as [|c a IH]; intros p; [done|]. cbn [feed_lines app].
  rewrite st_bind_assoc. unfold st_bind.
  destruct (feed_line c p) as [p' [[]|e]]; [|done]. by rewrite IH.
Qed.

Lemma feed_lines_app_ok a b p p' :
  feed_lines a p = (p', Ok tt) → feed_lines (a ++ b) p = feed_lines b p'.
Proof. intros H. rewrite feed_lines_app. unfold st_bind. by rewrite H. Qed.

Lemma feed_lines_cons_ok l ls p p' :
  feed_line l p = (p', Ok tt) → feed_lines (l :: ls) p = feed_lines ls p'.
Proof. intros H. cbn [feed_lines]. unfold st_bind. by rewrite H. Qed.

(** Lines keep an empty buffer. *)
Lemma ensure_buffer line p p' r :
  ensure_update_hunk_is_not_empty line p = (p', r) → p' = p.
Proof. intros H. pose proof (ensure_state line p) as Hs. by rewrite H in Hs. Qed.

Lemma handle_headers_buffer t p p' r :
  handle_hunk_headers_and_end_patch t p = (p', r) → line_buffer p' = line_buffer p.
Proof.
  unfold handle_hunk_headers_and_end_patch. intros H. st_unfold H.
  repeat (case_match; simplify_eq); try done;
  match goal with H : ensure_update_hunk_is_not_empty _ _ = _ |- _ =>
    apply ensure_buffer in H; by subst end.
Qed.

Lemma process_line_buffer l p p' r :
  process_line l p = (p', r) → line_buffer p' = line_buffer p.
Proof.
  unfold process_line. intros H. st_unfold H.
  destruct (mode p); [by case_decide; simplify_eq| | | | |by case_decide; simplify_eq].
  all: destruct (handle_hunk_headers_and_end_patch _ p) as [q [b|e]] eqn:E;
    apply handle_headers_buffer in E; [|by simplify_eq]; rewrite <-E.
  all: by repeat (case_match; simplify_eq).
Qed.

Lemma push_chars_word w p :
  nl ∉ w → push_chars w p = (set_line_buffer (line_buffer p ++ w) p, Ok tt).
Proof.
  revert p. induction w as [|c w IH]; intros p Hn.
  - simpl. rewrite app_nil_r. by destruct p.
  - cbn [push_chars]. unfold st_bind, push_char. rewrite decide_False by set_solver.
    rewrite IH by set_solver. simpl. by rewrite <-app_assoc.
Qed.

Lemma push_chars_line w s p :
  one_line w → line_buffer p = [] →
  push_chars (w ++ nl :: s) p = (feed_line w ;;; push_chars s) p.
Proof.
  intros [Hn Hcr] Hb. rewrite push_chars_app. unfold st_bind at 1.
  rewrite push_chars_word by done. rewrite Hb. cbn [push_chars app].
  unfold feed_line, st_bind, push_char, st_modify. rewrite decide_True by done.
  cbn [line_buffer set_line_buffer app]. rewrite strip_cr_id by done.
  destruct p. cbn in Hb. subst. cbn -[process_line push_chars].
  destruct (process_line _ _) as [? [[]|]]; done.
Qed.

(** Pushing joined lines feeds all but the last and leaves the last in the buffer. *)
Lemma push_chars_lines ls w p p' :
  Forall one_line ls → nl ∉ w → line_buffer p = [] → feed_lines ls p = (p', Ok tt) →
  push_chars (join [nl] (ls ++ [w])) p = (set_line_buffer w p', Ok tt) ∧ line_buffer p' = [].
Proof.
  intros HF Hw. revert p. induction HF as [|l ls Hl HF IH]; intros p Hb Hfeed.
  - simpl in Hfeed. unfold st_ret in Hfeed. simplify_eq. split; [|done]. simpl.
    rewrite push_chars_word by done. by rewrite Hb.
  - assert (Hj : join [nl] ((l :: ls) ++ [w]) = l ++ nl :: join [nl] (ls ++ [w])).
    { simpl. by destruct ls. }
    rewrite Hj, push_chars_line by done. cbn [feed_lines] in Hfeed.
    unfold st_bind in *. destruct (feed_line l p) as [q [[]|e]] eqn:E; [|done].
    apply IH; [|done]. unfold feed_line in E. st_unfold E.
    apply process_line_buffer in E. by rewrite E.
Qed.

(** ** Headers *)

(** The observable part of a parser state between lines. *)
Definition at_state (p : StreamingPatchParser) (m : StreamingParserMode) (hs : list Hunk)
    (e : option str) : Prop :=
  mode p = m ∧ hunks p = hs ∧ environment_id p = e.

(** A state that accepts a new hunk header. *)
Definition open_ok (hs : list Hunk) : Prop :=
  match last hs with
  | Some (UpdateFile _ _ cs) => cs ≠ [] ∧ last_is chunk_is_blank cs = false
  | _ => True
  end.
Definition accepts_header (m : StreamingParserMode) : Prop :=
  match m with NotStarted | EndedPatch => False | _ => True end.

Lemma ensure_open_ok line p :
  open_ok (hunks p) → ensure_update_hunk_is_not_empty line p = (p, Ok tt).
Proof.
  unfold open_ok, ensure_update_hunk_is_not_empty. intros H.
  destruct (last (hunks p)) as [[]|]; try done. destruct H as [Hne Hb].
  rewrite Hb. by destruct chunks.
Qed.

Lemma process_header hd p p' :
  accepts_header (mode p) → trim hd = hd → trim_end hd = hd →
  handle_hunk_headers_and_end_patch hd p = (p', Ok true) →
  process_line hd p = (p', Ok tt).
Proof.
  intros Hm Ht Hte H. unfold process_line, st_bind.
  destruct (mode p); try done; rewrite ?Ht, ?Hte, H; done.
Qed.

Lemma marked_clean m s :
  head m = Some 42%N → ok_name s → trim (m ++ s) = m ++ s ∧ trim_end (m ++ s) = m ++ s.
Proof.
  intros Hh (Hne & Hc & _). pose proof (trim_end_app_clean m s Hc Hne) as He.
  split; [|done]. destruct m as [|c m]; [done|]. simpl in Hh. simplify_eq.
  apply trim_clean; [|done]. done.
Qed.

Ltac header_tac :=
  intros Hok; unfold handle_hunk_headers_and_end_patch;
  match goal with |- context [match mode ?p with StartedPatch => ?x | _ => _ end] =>
    replace (match mode p with StartedPatch => x | _ => None end) with (@None str)
      by (destruct (mode p); reflexivity) end;
  rewrite decide_False by (intros Habs; vm_compute in Habs; discriminate);
  unfold st_bind, st_modify, st_ret;
  rewrite ensure_open_ok by done; reflexivity.

Lemma handle_add path p : open_ok (hunks p) →
  handle_hunk_headers_and_end_patch (ADD_FILE_MARKER ++ path) p =
    (start_hunk (AddFile path []) InAddFile p, Ok true).
Proof. header_tac. Qed.

Lemma handle_delete path p : open_ok (hunks p) →
  handle_hunk_headers_and_end_patch (DELETE_FILE_MARKER ++ path) p =
    (start_hunk (DeleteFile path) InDeleteFile p, Ok true).
Proof. header_tac. Qed.

Lemma handle_update path p : open_ok (hunks p) →
  handle_hunk_headers_and_end_patch (UPDATE_FILE_MARKER ++ path) p =
    (start_hunk (UpdateFile path None []) (InUpdateFile (line_number p)) p, Ok true).
Proof. header_tac. Qed.

(** A line that does not start with a star is no header. *)
Lemma strip_prefix_head m t :
  head m = Some 42%N → head t ≠ Some 42%N → strip_prefix m t = None.
Proof.
  destruct m as [|c m], t as [|d t]; simpl; try done. intros [= ->] H.
  rewrite decide_False; [done|]. congruence.
Qed.

Lemma handle_body t p :
  head t ≠ Some 42%N → handle_hunk_headers_and_end_patch t p = (p, Ok false).
Proof.
  intros Ht. unfold handle_hunk_headers_and_end_patch.
  rewrite !(strip_prefix_head _ t) by done.
  rewrite decide_False; [by destruct (mode p)|]. intros ->. by apply Ht.
Qed.

Lemma head_trim_end c s : head (trim_end (c :: s)) = Some c ∨ trim_end (c :: s) = [].
Proof. destruct (trim_end_cons c s) as [->|(_ & _ & ->)]; auto. Qed.

(** ** Body lines *)

Lemma feed_header hd h m p :
  accepts_header (mode p) → trim hd = hd → trim_end hd = hd →
  (∀ q, mode q = mode p → hunks q = hunks p → ∃ m', m' = m q ∧
     handle_hunk_headers_and_end_patch hd q = (start_hunk h m' q, Ok true)) →
  ∃ p', feed_line hd p = (p', Ok tt) ∧
    at_state p' (m (bump_line_number p)) (hunks p ++ [h]) (environment_id p).
Proof.
  intros Hm Ht Hte Hh. destruct (Hh (bump_line_number p)) as (m' & -> & Hq); [done..|].
  eexists. unfold feed_line, st_bind, st_modify. split; [by apply process_header|done].
Qed.

Lemma feed_add_line l p hs path contents e :
  at_state p InAddFile (hs ++ [AddFile path contents]) e →
  ∃ p', feed_line (43%N :: l) p = (p', Ok tt) ∧
    at_state p' InAddFile (hs ++ [AddFile path (contents ++ l ++ [nl])]) e.
Proof.
  intros (Hm & Hh & He). unfold feed_line, st_bind, st_modify.
  eexists. unfold process_line. cbn [mode bump_line_number]. rewrite Hm.
  rewrite trim_cons_non_ws by done. unfold st_bind. rewrite handle_body by done.
  cbn [hunks bump_line_number strip_prefix]. rewrite decide_True by done.
  rewrite Hh, last_snoc. split; [done|].
  split; [done|]. split; [|done]. simpl. by rewrite Hh, removelast_snoc.
Qed.

Lemma feed_update_line line p n hs path mv cs mv' cs' e :
  at_state p (InUpdateFile n) (hs ++ [UpdateFile path mv cs]) e →
  (∀ q, handle_hunk_headers_and_end_patch (trim_end line) q = (q, Ok false)) →
  update_hunk_line line (trim_end line) mv cs = inl (mv', cs') →
  ∃ p', feed_line line p = (p', Ok tt) ∧
    at_state p' (InUpdateFile n) (hs ++ [UpdateFile path mv' cs']) e.
Proof.
  intros (Hm & Hh & He) Hq Hu. unfold feed_line, st_bind, st_modify.
  eexists. unfold process_line. cbn [mode bump_line_number]. rewrite Hm.
  unfold st_bind. rewrite Hq. cbn [hunks bump_line_number]. rewrite Hh, last_snoc, Hu.
  split; [done|]. split; [done|]. split; [|done]. simpl. by rewrite Hh, removelast_snoc.
Qed.

(** The chunk list before a change accepts a context line. *)
Definition settled (cs : list UpdateFileChunk) : Prop := last_is chunk_is_blank cs = false.

Lemma update_line_context ctx mv cs :
  match ctx with None => True | Some c => ok_name c end → settled cs →
  trim_end (print_context ctx) = print_context ctx ∧
  update_hunk_line (print_context ctx) (print_context ctx) mv cs =
    inl (mv, cs ++ [blank_chunk ctx]).
Proof.
  intros Hok Hs. unfold settled in Hs. destruct ctx as [c|]; cbn [print_context].
  - destruct Hok as (Hne & Hc & _). split; [by apply trim_end_app_clean|].
    unfold update_hunk_line. rewrite (proj2 (starts_with_true _ _)) by by eexists.
    rewrite orb_true_r, Hs. simpl negb.
    rewrite (bool_decide_eq_false_2 (_ = [])), !andb_false_r by done.
    replace (match cs with [] => _ | _ => _ end) with (@None str)
      by (destruct cs, mv; reflexivity).
    rewrite decide_False, strip_prefix_app; [done|].
    destruct c; [done|]. intros Habs. vm_compute in Habs. discriminate.
  - split; [reflexivity|]. unfold update_hunk_line.
    rewrite (bool_decide_eq_true_2 (EMPTY_CHANGE_CONTEXT_MARKER = EMPTY_CHANGE_CONTEXT_MARKER)) by done.
    rewrite Hs, orb_true_l. simpl negb.
    rewrite (bool_decide_eq_false_2 (_ = [])), !andb_false_r by done.
    replace (match cs with [] => _ | _ => _ end) with (@None str)
      by (destruct cs, mv; reflexivity).
    by rewrite decide_True.
Qed.

(** How a body line changes the open chunk. *)
Definition add_line (k : change_line) (c : UpdateFileChunk) : UpdateFileChunk :=
  mkChunk (change_context c) (old_lines c ++ old_of k) (new_lines c ++ new_of k)
    (is_end_of_file c).

Lemma plain_update_line line ul mv cs c :
  head ul ≠ Some 42%N → head ul ≠ Some 64%N → is_end_of_file c = false →
  update_hunk_line line ul mv (cs ++ [c]) =
    match line with
    | [] => inl (mv, cs ++ [push_new [] (push_old [] c)])
    | d :: rest =>
      if decide (d = space) then inl (mv, cs ++ [push_new rest (push_old rest c)])
      else if decide (d = 43%N) then inl (mv, cs ++ [push_new rest c])
      else if decide (d = 45%N) then inl (mv, cs ++ [push_old rest c])
      else if negb (chunk_is_blank c) then inr (msg_expected_context line)
      else inr (msg_unexpected line)
    end.
Proof.
  intros H1 H2 He. unfold update_hunk_line.
  assert (Hpre : ∀ m, head m = Some 64%N → strip_prefix m ul = None).
  { intros m Hm. destruct m as [|a m], ul as [|b ul]; simpl in *; try done.
    simplify_eq. rewrite decide_False; [done|congruence]. }
  rewrite !(last_is_snoc is_end_of_file), He. simpl andb.
  unfold starts_with. rewrite (Hpre CHANGE_CONTEXT_MARKER) by done.
  rewrite (bool_decide_eq_false_2 (ul = EMPTY_CHANGE_CONTEXT_MARKER)) by (intros ->; done).
  rewrite (bool_decide_eq_false_2 (is_Some None)) by (by intros [? ?]).
  replace (match cs ++ [c] with [] => _ | _ => _ end) with (@None str)
    by (destruct cs; reflexivity).
  simpl andb. cbn iota. rewrite decide_False by (intros ->; done).
  rewrite decide_False by (intros ->; done).
  assert (Hw : with_chunk (cs ++ [c]) = cs ++ [c]) by by destruct cs.
  rewrite Hw. destruct line as [|d rest]; by rewrite !alter_last_snoc, ?last_is_snoc.
Qed.

Lemma update_line_body k mv cs c :
  is_end_of_file c = false →
  (∀ q, handle_hunk_headers_and_end_patch (trim_end (print_line k)) q = (q, Ok false)) ∧
  update_hunk_line (print_line k) (trim_end (print_line k)) mv (cs ++ [c]) =
    inl (mv, cs ++ [add_line k c]).
Proof.
  intros He.
  assert (Hhd : head (trim_end (print_line k)) ≠ Some 42%N ∧
                head (trim_end (print_line k)) ≠ Some 64%N).
  { destruct k; cbn [print_line];
    (destruct (head_trim_end space l) as [->| ->] ||
     destruct (head_trim_end 43%N l) as [->| ->] ||
     destruct (head_trim_end 45%N l) as [->| ->]); done. }
  destruct Hhd as [H1 H2]. split; [intros q; by apply handle_body|].
  rewrite plain_update_line by done.
  destruct k; cbn [print_line]; unfold add_line, push_new, push_old; simpl;
    rewrite ?app_nil_r; reflexivity.
Qed.

Lemma update_line_eof mv cs c :
  chunk_is_blank c = false → is_end_of_file c = false →
  update_hunk_line EOF_MARKER EOF_MARKER mv (cs ++ [c]) =
    inl (mv, cs ++ [mark_end_of_file c]).
Proof.
  intros Hb He. unfold update_hunk_line. rewrite !last_is_snoc, He, Hb. simpl andb.
  replace (match cs ++ [c] with [] => _ | _ => _ end) with (@None str)
    by (destruct cs; reflexivity).
  rewrite alter_last_snoc. reflexivity.
Qed.

(** ** Changes and hunks *)

Lemma feed_body ks p n hs path mv cs c e :
  at_state p (InUpdateFile n) (hs ++ [UpdateFile path mv (cs ++ [c])]) e →
  is_end_of_file c = false →
  ∃ p', feed_lines (print_line <$> ks) p = (p', Ok tt) ∧
    at_state p' (InUpdateFile n) (hs ++ [UpdateFile path mv (cs ++
      [mkChunk (change_context c) (old_lines c ++ (ks ≫= old_of))
         (new_lines c ++ (ks ≫= new_of)) false])]) e.
Proof.
  revert p c. induction ks as [|k ks IH]; intros p c Hat He.
  - exists p. split; [done|]. simpl. rewrite !app_nil_r, <-He. by destruct c.
  - destruct (update_line_body k mv cs c He) as [Hq Hu].
    destruct (feed_update_line _ _ _ _ _ _ _ _ _ _ Hat Hq Hu) as (p1 & H1 & Hat1).
    destruct (IH p1 (add_line k c) Hat1 He) as (p2 & H2 & Hat2).
    exists p2. split; [by rewrite fmap_cons, (feed_lines_cons_ok _ _ _ _ H1)|].
    simpl in Hat2. by rewrite <-!app_assoc in Hat2.
Qed.

Lemma chunk_of_nonblank c : ch_lines c ≠ [] → chunk_is_blank (chunk_of c) = false.
Proof.
  unfold chunk_is_blank, chunk_of. simpl. destruct (ch_lines c) as [|[] ks]; [done|..];
    simpl; by rewrite ?andb_false_r.
Qed.

Lemma handle_eof q : handle_hunk_headers_and_end_patch (trim_end EOF_MARKER) q = (q, Ok false).
Proof. unfold handle_hunk_headers_and_end_patch. by destruct (mode q). Qed.

Lemma feed_change c p n hs path mv cs e :
  ok_change c → settled cs →
  at_state p (InUpdateFile n) (hs ++ [UpdateFile path mv cs]) e →
  ∃ p', feed_lines (print_change c) p = (p', Ok tt) ∧
    at_state p' (InUpdateFile n) (hs ++ [UpdateFile path mv (cs ++ [chunk_of c])]) e.
Proof.
  intros (Hctx & Hne & _) Hs Hat.
  destruct (update_line_context (ch_context c) mv cs Hctx Hs) as [Ht Hu].
  rewrite <-Ht in Hu at 2.
  assert (Hq : ∀ q, handle_hunk_headers_and_end_patch (trim_end (print_context (ch_context c))) q
                    = (q, Ok false)).
  { intros q. apply handle_body. rewrite Ht. by destruct (ch_context c). }
  destruct (feed_update_line _ _ _ _ _ _ _ _ _ _ Hat Hq Hu) as (p1 & H1 & Hat1).
  destruct (feed_body (ch_lines c) p1 n hs path mv cs _ e Hat1 eq_refl) as (p2 & H2 & Hat2).
  simpl in Hat2. unfold print_change.
  rewrite (feed_lines_cons_ok _ _ _ _ H1), (feed_lines_app_ok _ _ _ _ H2).
  destruct (ch_eof c) eqn:Eeof.
  - set (c0 := mkChunk _ _ _ _) in Hat2.
    assert (Hb : chunk_is_blank c0 = false).
    { rewrite <-(chunk_of_nonblank c Hne). done. }
    destruct (feed_update_line EOF_MARKER _ _ _ _ _ _ _ _ _ Hat2 handle_eof
      (update_line_eof mv cs c0 Hb eq_refl)) as (p3 & H3 & Hat3).
    exists p3. rewrite (feed_lines_cons_ok _ _ _ _ H3). split; [done|].
    unfold chunk_of. by rewrite Eeof.
  - exists p2. split; [done|]. unfold chunk_of. by rewrite Eeof.
Qed.

Lemma feed_changes chs p n hs path mv cs e :
  Forall ok_change chs → settled cs →
  at_state p (InUpdateFile n) (hs ++ [UpdateFile path mv cs]) e →
  ∃ p', feed_lines (concat (print_change <$> chs)) p = (p', Ok tt) ∧
    at_state p' (InUpdateFile n) (hs ++ [UpdateFile path mv (cs ++ (chunk_of <$> chs))]) e ∧
    settled (cs ++ (chunk_of <$> chs)).
Proof.
  intros HF. revert p cs. induction HF as [|c chs Hc HF IH]; intros p cs Hs Hat.
  - exists p. simpl. by rewrite app_nil_r.
  - destruct (feed_change c _ _ _ _ _ _ _ Hc Hs Hat) as (p1 & H1 & Hat1).
    assert (Hs1 : settled (cs ++ [chunk_of c])).
    { unfold settled. rewrite last_is_snoc. apply chunk_of_nonblank, Hc. }
    destruct (IH p1 _ Hs1 Hat1) as (p2 & H2 & Hat2 & Hs2).
    rewrite <-app_assoc in Hat2, Hs2. exists p2.
    rewrite concat_fmap_cons, (feed_lines_app_ok _ _ _ _ H1). by split.
Qed.

Lemma feed_add_lines ls p hs path contents e :
  at_state p InAddFile (hs ++ [AddFile path contents]) e →
  ∃ p', feed_lines (cons 43%N <$> ls) p = (p', Ok tt) ∧
    at_state p' InAddFile
      (hs ++ [AddFile path (contents ++ concat ((λ l, l ++ [nl]) <$> ls))]) e.
Proof.
  revert p contents. induction ls as [|l ls IH]; intros p contents Hat.
  - exists p. simpl. by rewrite app_nil_r.
  - destruct (feed_add_line l p _ _ _ _ Hat) as (p1 & H1 & Hat1).
    destruct (IH p1 _ Hat1) as (p2 & H2 & Hat2). exists p2.
    rewrite fmap_cons, (feed_lines_cons_ok _ _ _ _ H1). split; [done|].
    rewrite concat_fmap_cons. by rewrite <-(app_assoc contents) in Hat2.
Qed.

Lemma feed_move mvto p n hs path e :
  match mvto with None => True | Some d => ok_name d end →
  at_state p (InUpdateFile n) (hs ++ [UpdateFile path None []]) e →
  ∃ p', feed_lines (match mvto with None => [] | Some d => [MOVE_TO_MARKER ++ d] end) p
          = (p', Ok tt) ∧
    at_state p' (InUpdateFile n) (hs ++ [UpdateFile path mvto []]) e.
Proof.
  intros Hok Hat. destruct mvto as [d|]; [|by exists p].
  destruct (marked_clean MOVE_TO_MARKER d eq_refl Hok) as [_ Ht].
  destruct (feed_update_line (MOVE_TO_MARKER ++ d) p n hs path None [] (Some d) [] e)
    as (p1 & H1 & Hat1); [done| | |].
  - intros q. rewrite Ht. unfold handle_hunk_headers_and_end_patch.
    rewrite decide_False by (intros Habs; vm_compute in Habs; discriminate).
    by destruct (mode q).
  - rewrite Ht. reflexivity.
  - exists p1. by rewrite (feed_lines_cons_ok _ _ _ _ H1).
Qed.

(** The state after a hunk accepts the next header. *)
Definition between_hunks (p : StreamingPatchParser) (hs : list Hunk) (e : option str) : Prop :=
  accepts_header (mode p) ∧ hunks p = hs ∧ environment_id p = e ∧ open_ok hs.

Lemma feed_hunk h p hs e :
  ok_hunk h → between_hunks p hs e →
  ∃ p', feed_lines (print_hunk h) p = (p', Ok tt) ∧ between_hunks p' (hs ++ [hunk_of h]) e.
Proof.
  intros Hok (Hm & Hh & He & Ho).
  destruct h as [path ls|path|path mv chs]; cbn [ok_hunk print_hunk hunk_of] in *.
  - destruct Hok as [Hp _]. destruct (marked_clean ADD_FILE_MARKER path eq_refl Hp) as [Ht Hte].
    destruct (feed_header _ (AddFile path []) (λ _, InAddFile) p Hm Ht Hte) as (p1 & H1 & Hat1).
    { intros q _ Hq. eexists; split; [done|]. apply handle_add. by rewrite Hq, Hh. }
    rewrite Hh, He in Hat1. destruct (feed_add_lines ls p1 _ _ _ _ Hat1) as (p2 & H2 & Hat2).
    exists p2. rewrite (feed_lines_cons_ok _ _ _ _ H1). split; [done|].
    destruct Hat2 as (Hm2 & Hh2 & He2). unfold between_hunks, open_ok.
    by rewrite Hm2, last_snoc.
  - destruct (marked_clean DELETE_FILE_MARKER path eq_refl Hok) as [Ht Hte].
    destruct (feed_header _ (DeleteFile path) (λ _, InDeleteFile) p Hm Ht Hte)
      as (p1 & H1 & Hat1).
    { intros q _ Hq. eexists; split; [done|]. apply handle_delete. by rewrite Hq, Hh. }
    exists p1. rewrite (feed_lines_cons_ok _ _ _ _ H1). split; [done|].
    destruct Hat1 as (Hm1 & Hh1 & He1). unfold between_hunks, open_ok.
    by rewrite Hm1, Hh1, Hh, He1, last_snoc.
  - destruct Hok as (Hp & Hmv & Hne & Hcs).
    destruct (marked_clean UPDATE_FILE_MARKER path eq_refl Hp) as [Ht Hte].
    destruct (feed_header _ (UpdateFile path None []) (λ q, InUpdateFile (line_number q)) p
      Hm Ht Hte) as (p1 & H1 & Hat1).
    { intros q _ Hq. eexists; split; [done|]. apply handle_update. by rewrite Hq, Hh. }
    rewrite Hh, He in Hat1. destruct (feed_move mv p1 _ _ _ _ Hmv Hat1) as (p2 & H2 & Hat2).
    destruct (feed_changes chs p2 _ _ _ _ [] _ Hcs eq_refl Hat2) as (p3 & H3 & Hat3 & Hs3).
    exists p3. rewrite (feed_lines_cons_ok _ _ _ _ H1), (feed_lines_app_ok _ _ _ _ H2).
    split; [done|]. destruct Hat3 as (Hm3 & Hh3 & He3). unfold between_hunks, open_ok.
    rewrite Hm3, last_snoc. split_and!; [done..|by destruct chs|done].
Qed.

Lemma feed_hunks srcs p hs e :
  Forall ok_hunk srcs → between_hunks p hs e →
  ∃ p', feed_lines (concat (print_hunk <$> srcs)) p = (p', Ok tt) ∧
    between_hunks p' (hs ++ (hunk_of <$> srcs)) e.
Proof.
  intros HF. revert p hs. induction HF as [|h srcs Hh HF IH]; intros p hs Hb.
  - exists p. simpl. by rewrite app_nil_r.
  - destruct (feed_hunk h p hs e Hh Hb) as (p1 & H1 & Hb1).
    destruct (IH p1 _ Hb1) as (p2 & H2 & Hb2). rewrite <-app_assoc in Hb2.
    exists p2. by rewrite concat_fmap_cons, (feed_lines_app_ok _ _ _ _ H1).
Qed.

Lemma feed_preamble env :
  ok_env env →
  ∃ p, feed_lines (BEGIN_PATCH_MARKER :: print_env env) default_parser = (p, Ok tt) ∧
    between_hunks p [] env.
Proof.
  intros Hok. set (p1 := set_mode StartedPatch (bump_line_number default_parser)).
  assert (H1 : feed_line BEGIN_PATCH_MARKER default_parser = (p1, Ok tt)) by reflexivity.
  destruct env as [e|]; [|exists p1; by rewrite (feed_lines_cons_ok _ _ _ _ H1)].
  destruct Hok as [Hn Hcs]. pose proof Hn as (Hne & Hce & _).
  exists (set_environment_id (Some e) (bump_line_number p1)).
  rewrite (feed_lines_cons_ok _ _ _ _ H1). cbn [print_env].
  assert (H2 : feed_line (ENVIRONMENT_ID_MARKER ++ space :: e) p1 =
    (set_environment_id (Some e) (bump_line_number p1), Ok tt)).
  { unfold feed_line, st_bind, st_modify.
    destruct (marked_clean (ENVIRONMENT_ID_MARKER ++ [space]) e eq_refl Hn) as [Ht Hte].
    rewrite <-!app_assoc in Ht, Hte. apply process_header; [done..|].
    unfold handle_hunk_headers_and_end_patch.
    change (mode (bump_line_number p1)) with StartedPatch. cbn iota.
    change (environment_id (bump_line_number p1)) with (@None str). cbn iota.
    rewrite strip_prefix_app.
    assert (Hte' : trim (space :: e) = e).
    { unfold trim. rewrite trim_start_cons_ws by done. by rewrite Hcs. }
    by rewrite Hte', decide_False. }
  rewrite (feed_lines_cons_ok _ _ _ _ H2). done.
Qed.

(** ** The whole text *)

Lemma trim_print_patch env srcs : trim (print_patch env srcs) = print_patch env srcs.
Proof.
  unfold print_patch, print_lines. apply trim_clean.
  - unfold clean_start. destruct (print_env env ++ _); [done|]. rewrite join_cons. done.
  - unfold clean_end. rewrite !app_comm_cons, app_assoc, join_snoc by done.
    rewrite app_assoc. apply trim_end_app_clean; done.
Qed.

Lemma strict_print_lines env srcs :
  check_patch_boundaries_strict (print_lines env srcs) = Ok (print_lines env srcs).
Proof.
  unfold check_patch_boundaries_strict, print_lines. cbn [head].
  rewrite !app_comm_cons, app_assoc, last_snoc. reflexivity.
Qed.

(** [finish] on a buffer that holds the end marker. *)
Lemma finish_line_end p :
  open_ok (hunks p) →
  finish_line (set_line_buffer END_PATCH_MARKER p) =
    (set_mode EndedPatch (bump_line_number (set_line_buffer [] p)), Ok tt).
Proof.
  intros Ho. unfold finish_line. cbn [line_buffer set_line_buffer].
  unfold st_bind, st_modify.
  change (trim END_PATCH_MARKER) with END_PATCH_MARKER.
  destruct END_PATCH_MARKER eqn:E; [done|]. rewrite <-E. rewrite decide_True by done.
  by rewrite ensure_open_ok.
Qed.

(** ** Heredoc wrappers *)

Definition EOF_WORD : str := lit "EOF".

(** The text gpt-4.1 passes: the patch as the body of a heredoc. *)
Definition heredoc (start patch : str) : str :=
  start ++ nl :: patch ++ nl :: EOF_WORD ++ [nl].

Lemma lines_aux_cons w ws : ws ≠ [] → lines_aux (w :: ws) = strip_cr w :: lines_aux ws.
Proof. by destruct ws. Qed.

Lemma lines_aux_snoc ws c : c ≠ [] → lines_aux (ws ++ [c]) = (strip_cr <$> ws) ++ [c].
Proof.
  intros Hc. induction ws as [|w ws IH]; [simpl; by rewrite decide_False|].
  rewrite <-app_comm_cons, lines_aux_cons by by destruct ws. by rewrite IH.
Qed.

Lemma split_on_last sep a b ws w :
  split_on sep a = ws ++ [w] → sep ∉ b → split_on sep (a ++ sep :: b) = ws ++ [w; b].
Proof.
  intros Ha Hb. rewrite <-(join_split_on sep a), Ha.
  assert (HF : Forall (λ x, sep ∉ x) (ws ++ [w])) by (rewrite <-Ha; apply split_on_pieces).
  replace (join [sep] (ws ++ [w]) ++ sep :: b) with (join [sep] ((ws ++ [w]) ++ [b]))
    by by rewrite join_snoc by by destruct ws.
  rewrite split_on_join; [by rewrite <-app_assoc|by destruct ws|].
  apply Forall_app. split; [done|]. by constructor.
Qed.

(** Appending a final line to a trimmed text appends it to the lines. *)
Lemma lines_clean_snoc p c :
  p ≠ [] → clean_end p → c ≠ [] → nl ∉ c → lines (p ++ nl :: c) = lines p ++ [c].
Proof.
  intros Hp Hce Hc Hn. unfold lines.
  destruct (split_on nl p) as [|w ws _] eqn:E using rev_ind; [by apply split_on_not_nil in E|].
  rewrite (split_on_last nl p c ws w E Hn).
  assert (Hlast : w ≠ [] ∧ last w ≠ Some cr).
  { pose proof (join_split_on nl p) as Hj. rewrite E in Hj.
    pose proof (clean_end_last p Hce) as Hcr.
    destruct w as [|x w _] using rev_ind.
    - exfalso. destruct ws as [|v ws]; [simpl in Hj; by subst|].
      rewrite join_snoc in Hj by done. rewrite app_nil_r in Hj.
      unfold clean_end in Hce. rewrite <-Hj, trim_end_snoc_ws in Hce by done.
      apply (f_equal length) in Hce. rewrite length_app in Hce. cbn [length] in Hce.
      pose proof (trim_end_length (join [nl] (v :: ws))). lia.
    - split; [by destruct w|]. rewrite last_snoc. destruct ws as [|v ws].
      + simpl in Hj. subst. by rewrite last_snoc in Hcr.
      + rewrite join_snoc in Hj by done. subst.
        by rewrite !app_assoc, last_snoc in Hcr. }
  destruct Hlast as [Hw Hwcr]. change (ws ++ [w; c]) with (ws ++ [w] ++ [c]).
  rewrite app_assoc, !lines_aux_snoc by done. rewrite fmap_app. simpl.
  by rewrite strip_cr_id.
Qed.

Lemma lines_cons h b : nl ∉ h → last h ≠ Some cr → lines (h ++ nl :: b) = h :: lines b.
Proof.
  intros Hn Hcr. unfold lines. rewrite split_on_app_sep by done.
  rewrite lines_aux_cons by apply split_on_not_nil. by rewrite strip_cr_id.
Qed.

Lemma heredoc_start_facts h :
  h ∈ heredoc_starts →
  nl ∉ h ∧ last h ≠ Some cr ∧ clean_start h ∧ h ≠ [] ∧ trim h ≠ BEGIN_PATCH_MARKER.
Proof.
  unfold heredoc_starts. rewrite !elem_of_cons, elem_of_nil.
  unfold clean_start. intros [->|[->|[->|[]]]]; split_and!; closed_marker.
Qed.

Lemma trim_heredoc h p :
  h ∈ heredoc_starts → trim (heredoc h p) = h ++ nl :: p ++ nl :: EOF_WORD.
Proof.
  intros (_ & _ & Hs & Hne & _)%heredoc_start_facts. unfold heredoc, trim.
  rewrite trim_start_app_clean by done.
  set (X := h ++ nl :: p ++ [nl]).
  assert (E1 : h ++ nl :: p ++ nl :: EOF_WORD ++ [nl] = (X ++ EOF_WORD) ++ [nl]).
  { unfold X. by rewrite <-!app_assoc, <-app_comm_cons, <-!app_assoc. }
  assert (E2 : h ++ nl :: p ++ nl :: EOF_WORD = X ++ EOF_WORD).
  { unfold X. by rewrite <-app_assoc, <-app_comm_cons, <-app_assoc. }
  rewrite E1, E2, trim_end_snoc_ws by done. by apply trim_end_app_clean.
Qed.

Lemma strict_ok_two_lines ls :
  is_ok (check_patch_boundaries_strict ls) = true →
  check_patch_boundaries_strict ls = Ok ls ∧ 2 ≤ length ls.
Proof.
  unfold check_patch_boundaries_strict, check_start_and_end_lines_strict.
  destruct ls as [|a [|b ls]]; simpl; try done.
  - repeat case_decide; try done. destruct H as [H1 H2]. rewrite H1 in H2. by vm_compute in H2.
  - intros H. split; [|lia]. by repeat case_decide.
Qed.

Lemma parse_printed (env : option str) (srcs : list hunk_src) :
  ok_env env → Forall ok_hunk srcs →
  parse_patch (print_patch env srcs) =
    Ok (mkArgs (print_patch env srcs) (hunk_of <$> srcs) None env).
Proof.
  intros He Hh. destruct (feed_preamble env He) as (p1 & H1 & Hb1).
  destruct (feed_hunks srcs p1 _ _ Hh Hb1) as (p2 & H2 & Hm & Hhs & Henv & Ho).
  set (body := (BEGIN_PATCH_MARKER :: print_env env) ++ concat (print_hunk <$> srcs)).
  assert (Hpl : print_lines env srcs = body ++ [END_PATCH_MARKER]).
  { unfold body, print_lines. by rewrite <-app_assoc. }
  assert (Hfeed : feed_lines body default_parser = (p2, Ok tt)).
  { unfold body. by rewrite (feed_lines_app_ok _ _ _ _ H1). }
  pose proof (print_lines_one env srcs He Hh) as Hone. rewrite Hpl in Hone.
  assert (Hlines : lines (trim (print_patch env srcs)) = print_lines env srcs).
  { rewrite trim_print_patch. apply lines_join.
    - rewrite Hpl. eapply Forall_impl; [exact Hone|]. by intros ? [].
    - rewrite Hpl. eapply Forall_impl; [exact Hone|]. by intros ? [].
    - rewrite Hpl, last_snoc. done. }
  apply Forall_app in Hone as [Hone _].
  destruct (push_chars_lines body END_PATCH_MARKER default_parser p2 Hone) as [Hpush Hbuf];
    [closed_marker|done|done|].
  unfold parse_patch, parse_patch_text. cbn [PARSE_IN_STRICT_MODE]. rewrite Hlines.
  unfold check_patch_boundaries_lenient. rewrite strict_print_lines. cbn [result_bind].
  change (join [nl] (print_lines env srcs)) with (print_patch env srcs).
  unfold print_patch at 1. rewrite Hpl. unfold push_delta, finish, st_bind, st_get, st_ret.
  rewrite Hpush. rewrite finish_line_end by by rewrite Hhs.
  cbn [mode hunks environment_id set_mode bump_line_number set_line_buffer].
  by rewrite Hhs, Henv.
Qed.

(** ** Properties *)

(** C9. Every patch of the grammar is read back: parsing the printed text of any
    well-formed list of hunks, with or without an environment id, succeeds with exactly
    those hunks, that id and the text itself. *)
Theorem parse_print_roundtrip (env : option str) (srcs : list hunk_src) :
  ok_env env → Forall ok_hunk srcs →
  parse_patch (print_patch env srcs) =
    Ok (mkArgs (print_patch env srcs) (hunk_of <$> srcs) None env).
Proof. apply parse_printed. Qed.

(** The lenient mode accepts a heredoc transparently: a patch with correct boundary
    lines, wrapped in any of the three heredoc openers and a final [EOF] line, parses to
    exactly what the bare patch parses to, hunks, text and errors alike. *)
Theorem parse_heredoc_transparent (start patch : str) :
  start ∈ heredoc_starts → trim patch = patch →
  is_ok (check_patch_boundaries_strict (lines patch)) = true →
  parse_patch (heredoc start patch) = parse_patch patch.
Proof.
  intros Hst Htrim Hok. destruct (strict_ok_two_lines _ Hok) as [Hstrict Hlen].
  destruct (heredoc_start_facts _ Hst) as (Hn & Hcr & _ & _ & Hnb).
  assert (Hp : patch ≠ []) by (intros ->; simpl in Hlen; lia).
  assert (Hce : clean_end patch).
  { unfold clean_end. rewrite <-Htrim. unfold trim. auto with codex. }
  assert (Hlines : lines (trim (heredoc start patch)) = start :: lines patch ++ [EOF_WORD]).
  { rewrite trim_heredoc, lines_cons by done. f_equal. apply lines_clean_snoc; [done..|].
    closed_marker. }
  unfold parse_patch, parse_patch_text. cbn [PARSE_IN_STRICT_MODE].
  rewrite Hlines, Htrim. set (ls := lines patch) in *.
  assert (Hl : check_patch_boundaries_lenient (start :: ls ++ [EOF_WORD]) = Ok ls).
  { unfold check_patch_boundaries_lenient.
    replace (check_patch_boundaries_strict (start :: ls ++ [EOF_WORD]))
      with (@Err ParseError (list str) (InvalidPatchError msg_first_line)).
    2: { unfold check_patch_boundaries_strict, check_start_and_end_lines_strict. simpl.
         rewrite decide_False by naive_solver. by rewrite decide_True. }
    destruct (ls ++ [EOF_WORD]) as [|x xs] eqn:E; [by destruct ls|]. rewrite <-E.
    rewrite bool_decide_eq_true_2 by done.
    rewrite app_comm_cons, last_snoc, <-app_comm_cons. cbn [default].
    change (ends_with (lit "EOF") EOF_WORD) with true.
    cbn [length drop]. rewrite drop_0, length_app. cbn [length].
    rewrite (proj2 (Nat.leb_le 4 _)) by lia. cbn [andb].
    replace (S (length ls + 1) - 2) with (length ls) by lia. by rewrite take_app_length. }
  unfold check_patch_boundaries_lenient at 2. by rewrite Hl, Hstrict.
Qed.

Definition ex_srcs : list hunk_src :=
  [SrcAdd (lit "a.txt") [lit "hello"; []];
   SrcDelete (lit "b.txt");
   SrcUpdate (lit "c.txt") (Some (lit "d.txt"))
     [mkChange (Some (lit "fn main")) [Keep (lit "x"); Minus (lit "y"); Plus (lit "z")] false;
      mkChange None [Plus (lit "*** End Patch")] true]].

Lemma ex_srcs_ok : ok_env (Some (lit "remote")) ∧ Forall ok_hunk ex_srcs.
Proof. split; repeat (split || constructor || closed_marker || done). Qed.

Lemma parse_print_roundtrip_witness :
  parse_patch (print_patch (Some (lit "remote")) ex_srcs) =
    Ok (mkArgs (print_patch (Some (lit "remote")) ex_srcs) (hunk_of <$> ex_srcs) None
          (Some (lit "remote"))).
Proof. apply (parse_print_roundtrip (Some (lit "remote")) ex_srcs); apply ex_srcs_ok. Defined.

Lemma parse_heredoc_transparent_witness :
  parse_patch (heredoc (lit "<<'EOF'") ex_patch) = parse_patch ex_patch.
Proof.
  apply (parse_heredoc_transparent (lit "<<'EOF'") ex_patch);
    [right; left|vm_compute; reflexivity|vm_compute; reflexivity].
Defined.

End PatchRoundTrip.
