(* ===== verification/FileSystem.v ===== *)
(** * The file-system interface (file-system/src/lib.rs)

    [ExecutorFileSystem] is the trait the patch code runs against: local, sandboxed and
    remote file systems implement it.  Here it is a type class of operations on a state,
    with a second class for what the patch code relies on: reads do not write, a write or
    a removal that succeeds does what it says to that path only, and at [NotFound] there is
    nothing, or a symbolic link that leads nowhere.  Any operation may fail at any time with
    another error, and a failed write may leave anything in the file.  The laws take different
    paths for different files: they do not hold where a file has two names, by a hard link or
    below a linked directory.  The sandbox argument is fixed for a run and part of the
    instance.  [MemFs] is an in-memory instance that satisfies the laws. *)

From stdpp Require Import prelude strings gmap.
From S2P Require Import Prelude RustStr PatchTypes.

(** [FileMetadata], the fields the code reads. *)
Record FileMetadata : Type := mkMetadata {
  is_directory : bool;
  is_file : bool;
  is_symlink : bool;
}.

(** Path resolution ([PathUri]): joining, parents, and the native rendering. *)
Class PathOps (path : Type) : Type := {
  path_join : path → str → result str path;
  path_parent : path → option path;
  path_native : path → str;
}.

(** The operations of the trait that the patch code calls. *)
Class ExecutorFileSystem (FS path : Type) : Type := {
  read_file_text : path → M FS io_error str;
  write_file : path → str → M FS io_error unit;
  create_directory : path → M FS io_error unit;
  get_metadata : path → M FS io_error FileMetadata;
  remove : path → M FS io_error unit;
}.

(** What is stored at a path itself, symbolic links not followed. *)
Inductive node : Type :=
| Absent
| TextFile (contents : str)
| BinaryFile
| Directory
| Symlink.

#[global] Instance node_eq_dec : EqDecision node.
Proof. solve_decision. Defined.

Definition is_regular (n : node) : Prop :=
  match n with TextFile _ | BinaryFile => True | _ => False end.
Definition node_text (n : node) : option str :=
  match n with TextFile t => Some t | _ => None end.

(** What clients rely on. *)
Class FileSystemLaws (FS path : Type) `{ExecutorFileSystem FS path} : Type := {
  lookup_node : FS → path → node;
  (** Reading does not change anything. *)
  read_frame p s s' r q : read_file_text p s = (s', r) → lookup_node s' q = lookup_node s q;
  metadata_frame p s s' r q : get_metadata p s = (s', r) → lookup_node s' q = lookup_node s q;
  (** What a successful or [NotFound] answer says. *)
  read_ok p s s' t :
    read_file_text p s = (s', Ok t) → lookup_node s p = TextFile t ∨ lookup_node s p = Symlink;
  read_not_found p s s' e :
    read_file_text p s = (s', Err e) → io_kind e = NotFound →
    lookup_node s p = Absent ∨ lookup_node s p = Symlink;
  metadata_regular p s s' m :
    get_metadata p s = (s', Ok m) → is_file m = true → is_symlink m = false →
    is_regular (lookup_node s p);
  (** Metadata are looked up behind links, so a dangling link is not found either. *)
  metadata_not_found p s s' e :
    get_metadata p s = (s', Err e) → io_kind e = NotFound →
    lookup_node s p = Absent ∨ lookup_node s p = Symlink;
  (** A write that succeeds at a path that is no link stores the text there and only there;
      one that fails because a directory is missing changes nothing. *)
  write_ok p t s s' :
    write_file p t s = (s', Ok tt) → lookup_node s p ≠ Symlink →
    lookup_node s' p = TextFile t ∧ ∀ q, q ≠ p → lookup_node s' q = lookup_node s q;
  write_not_found p t s s' e :
    write_file p t s = (s', Err e) → io_kind e = NotFound →
    ∀ q, lookup_node s' q = lookup_node s q;
  write_failed p t s s' e :
    write_file p t s = (s', Err e) → ∀ q, q ≠ p → lookup_node s' q = lookup_node s q;
  (** Creating directories, also when it fails half way, fills absent paths with
      directories. *)
  create_directory_effect d s s' r :
    create_directory d s = (s', r) →
    ∀ q, lookup_node s' q = lookup_node s q ∨
         (lookup_node s q = Absent ∧ lookup_node s' q = Directory);
  (** A removal affects its path only; one that fails may still have removed it. *)
  remove_ok p s s' :
    remove p s = (s', Ok tt) →
    lookup_node s' p = Absent ∧ ∀ q, q ≠ p → lookup_node s' q = lookup_node s q;
  remove_failed p s s' e :
    remove p s = (s', Err e) →
    (lookup_node s' p = lookup_node s p ∨ lookup_node s' p = Absent) ∧
    ∀ q, q ≠ p → lookup_node s' q = lookup_node s q;
}.

(** The text stored at each path. *)
Definition text_at {FS path} `{FileSystemLaws FS path} (s : FS) (p : path) : option str :=
  node_text (lookup_node s p).

(** ** An in-memory file system *)

Module MemFs.

(** Paths are absolute native strings; a directory exists when a node says so.  A link points
    out of what is modelled, at nothing: it cannot be read, and a write goes to the place it
    points at. *)
Definition mem_fs : Type := gmap (list N) node.

Definition slash : char := 47%N.

Definition mem_parent (p : str) : option str :=
  match split_on slash p with
  | [] | [_] => None
  | ws => Some (join [slash] (removelast ws))
  end.

#[global] Instance mem_paths : PathOps (list N) := {
  path_join cwd p := Ok (match p with
                         | [] => cwd
                         | c :: _ => if decide (c = slash) then p else cwd ++ slash :: p
                         end);
  path_parent := mem_parent;
  path_native p := p;
}.

Definition mem_node (s : mem_fs) (p : str) : node := default Absent ((s : gmap (list N) node) !! p).

Definition io_err (k : ErrorKind) : io_error := mkIoError k [].

Definition mem_read (p : str) : M mem_fs io_error str := λ s,
  match mem_node s p with
  | TextFile t => (s, Ok t)
  | Absent | Symlink => (s, Err (io_err NotFound))
  | BinaryFile => (s, Err (io_err InvalidData))
  | Directory => (s, Err (io_err OtherKind))
  end.

Definition mem_metadata (p : str) : M mem_fs io_error FileMetadata := λ s,
  match mem_node s p with
  | TextFile _ | BinaryFile => (s, Ok (mkMetadata false true false))
  | Directory => (s, Ok (mkMetadata true false false))
  | Absent | Symlink => (s, Err (io_err NotFound))
  end.

(** A write needs the parent directory; the top level always exists. *)
Definition mem_write (p t : str) : M mem_fs io_error unit := λ s,
  match mem_node s p with
  | Directory => (s, Err (io_err OtherKind))
  | Symlink => (s, Ok tt)
  | _ =>
      match mem_parent p with
      | Some d => if decide (mem_node s d = Directory)
                  then (<[p := TextFile t]> (s : gmap (list N) node), Ok tt)
                  else (s, Err (io_err NotFound))
      | None => (<[p := TextFile t]> (s : gmap (list N) node), Ok tt)
      end
  end.

Definition mem_create_directory (d : str) : M mem_fs io_error unit := λ s,
  match mem_node s d with
  | Absent => (<[d := Directory]> (s : gmap (list N) node), Ok tt)
  | Directory => (s, Ok tt)
  | _ => (s, Err (io_err OtherKind))
  end.

Definition mem_remove (p : str) : M mem_fs io_error unit := λ s,
  match mem_node s p with
  | Absent => (s, Err (io_err NotFound))
  | Directory => (s, Err (io_err InvalidInput))
  | _ => (delete p (s : gmap (list N) node), Ok tt)
  end.

#[global] Instance mem_file_system : ExecutorFileSystem mem_fs (list N) := {
  read_file_text := mem_read;
  write_file := mem_write;
  create_directory := mem_create_directory;
  get_metadata := mem_metadata;
  remove := mem_remove;
}.

Lemma mem_node_insert (s : mem_fs) p n q :
  mem_node (<[p := n]> (s : gmap (list N) node)) q = if decide (p = q) then n else mem_node s q.
Proof. unfold mem_node. rewrite lookup_insert. by case_decide. Qed.

Lemma mem_node_delete (s : mem_fs) p q :
  mem_node (delete p (s : gmap (list N) node)) q = if decide (p = q) then Absent else mem_node s q.
Proof. unfold mem_node. rewrite lookup_delete. by case_decide. Qed.

(** Case analysis on the node an operation looks at. *)
Ltac mem_cases :=
  repeat (case_match || case_decide); simplify_eq/=;
  rewrite ?mem_node_insert, ?mem_node_delete; repeat case_decide; simplify_eq/=; eauto;
  try (split; [|intros]; rewrite ?mem_node_insert, ?mem_node_delete; repeat case_decide;
       simplify_eq/=; eauto; fail).

#[global] Instance mem_laws : FileSystemLaws mem_fs (list N).
Proof.
  refine {| lookup_node := mem_node |}; simpl;
    unfold mem_read, mem_write, mem_create_directory, mem_metadata, mem_remove; intros.
  all: mem_cases.
Defined.

End MemFs.
