(* ===== verification/ApplyPatch.v ===== *)
(** * Applying a patch to a file system (apply-patch/src/lib.rs)

    The loop over the hunks, with the record of what was committed
    ([AppliedPatchDelta]) that the turn diff is built from.  Everything runs against the
    interface [ExecutorFileSystem]; the theorems use its laws only. *)

From stdpp Require Import prelude strings gmap pretty.
From S2P Require Import Prelude RustStr PatchTypes Replacements PatchParser FileSystem.

Module ApplyPatch.

(** [AppliedPatchFileChange], [AppliedPatchChange], [AppliedPatchDelta]; a [PathBuf] is the
    native rendering of the path. *)
Inductive AppliedPatchFileChange : Type :=
| ChangeAdd (content : str) (overwritten_content : option str)
| ChangeDelete (content : str)
| ChangeUpdate (move_path : option str) (old_content : str)
    (overwritten_move_content : option str) (new_content : str).

Record AppliedPatchChange : Type := mkPatchChange {
  change_path : str;
  change_of : AppliedPatchFileChange;
}.

Record AppliedPatchDelta : Type := mkDelta {
  changes : list AppliedPatchChange;
  exact : bool;
}.

Definition empty_delta : AppliedPatchDelta := mkDelta [] true.

(** [AppliedPatchDelta::append]. *)
Definition append_delta (d other : AppliedPatchDelta) : AppliedPatchDelta :=
  mkDelta (changes d ++ changes other) (exact d && exact other).

(** [AffectedPaths]. *)
Record AffectedPaths : Type := mkAffected {
  added : list str;
  modified : list str;
  deleted : list str;
}.

(** [anyhow::Error]: the errors that reach it, with an optional context. [AnyPanic] stands
    for a panic of the line editing, which never happens ([derive_new_contents_no_panic]). *)
Inductive any_error : Type :=
| AnyIo (context : option str) (source : io_error)
| AnyPathUri (message : str)
| AnyApply (e : ApplyPatchError)
| AnyMsg (message : str)
| AnyPanic.

(** [Display] of the errors. *)
Definition show_nat (n : nat) : str := lit (pretty n).
Definition show_parse_error (e : ParseError) : str :=
  match e with
  | InvalidPatchError m => lit "invalid patch: " ++ m
  | InvalidHunkError m n => lit "invalid hunk at line " ++ show_nat n ++ lit ", " ++ m
  end.
Definition show_apply_error (e : ApplyPatchError) : str :=
  match e with
  | PatchParseFailed e => show_parse_error e
  | IoError context source => context ++ lit ": " ++ io_message source
  | ComputeReplacements m => m
  | PathUriError m => m
  | ImplicitInvocation =>
      lit "patch detected without explicit call to apply_patch. Rerun as [" ++ [dquote] ++
      lit "apply_patch" ++ [dquote] ++ lit ", " ++ [dquote] ++ lit "<patch>" ++ [dquote] ++
      lit "]"
  end.
Definition show_any_error (e : any_error) : str :=
  match e with
  | AnyIo (Some context) _ => context
  | AnyIo None source => io_message source
  | AnyPathUri m => m
  | AnyApply e => show_apply_error e
  | AnyMsg m => m
  | AnyPanic => []
  end.

Section apply.
Context {FS path : Type} {HPaths : PathOps path} {HFs : ExecutorFileSystem FS path}.

Definition St : Type := FS * AppliedPatchDelta.

(** Runs a file-system operation and hands its [Result] to the caller. *)
Definition on_fs {E A} (m : M FS E A) : M St any_error (result E A) := λ st,
  let '(fs', r) := m st.1 in ((fs', st.2), Ok r).

(** [m.with_context(..)?] *)
Definition with_context {A} (context : str) (m : M FS io_error A) : M FS any_error A := λ fs,
  let '(fs', r) := m fs in (fs', map_err (AnyIo (Some context)) r).

Definition lift_fs {A} (m : M FS any_error A) : M St any_error A :=
  let! r := on_fs m in st_lift r.

Definition and_exact (b : bool) : M St any_error unit :=
  st_modify (λ st, (st.1, mkDelta (changes st.2) (exact st.2 && b))).
Definition set_inexact : M St any_error unit :=
  st_modify (λ st, (st.1, mkDelta (changes st.2) false)).
Definition push_change (p : path) (c : AppliedPatchFileChange) : M St any_error unit :=
  st_modify (λ st, (st.1, mkDelta (changes st.2 ++ [mkPatchChange (path_native p) c])
                                  (exact st.2))).

Definition not_found (e : io_error) : bool := bool_decide (io_kind e = NotFound).

(** [note_existing_path_delta_support]. *)
Definition note_existing_path_delta_support (p : path) : M St any_error unit :=
  let! r := on_fs (get_metadata p) in
  match r with
  | Ok m => if is_file m && negb (is_symlink m) then st_ret tt else set_inexact
  | Err e => if not_found e then st_ret tt else set_inexact
  end.

(** [read_optional_file_text_for_delta]. *)
Definition read_optional_file_text_for_delta (p : path) : M St any_error (option str) :=
  note_existing_path_delta_support p ;;;
  let! r := on_fs (read_file_text p) in
  match r with
  | Ok content => st_ret (Some content)
  | Err e => if not_found e then st_ret None else set_inexact ;;; st_ret None
  end.

(** [ensure_not_directory]. *)
Definition ensure_not_directory (p : path) : M FS io_error unit :=
  let! m := get_metadata p in
  if is_directory m then st_throw (mkIoError InvalidInput (lit "path is a directory"))
  else st_ret tt.

(** [remove_failure_was_side_effect_free]. *)
Definition remove_failure_was_side_effect_free (p : path) (expected_content : option str) :
    M St any_error bool :=
  match expected_content with
  | Some expected =>
      let! r := on_fs (read_file_text p) in
      st_ret (match r with Ok content => bool_decide (content = expected) | Err _ => false end)
  | None => st_ret false
  end.

(** [write_file_with_missing_parent_retry]. *)
Definition write_file_with_missing_parent_retry (p : path) (contents : str) :
    M FS any_error unit := λ fs,
  let failed := lit "Failed to write file " ++ path_native p in
  match write_file p contents fs with
  | (fs', Ok _) => (fs', Ok tt)
  | (fs', Err e) =>
      if not_found e then
        (match path_parent p with
         | Some parent =>
             with_context (lit "Failed to create parent directories for " ++ path_native p)
               (create_directory parent)
         | None => st_ret tt
         end ;;;
         with_context failed (write_file p contents)) fs'
      else (fs', Err (AnyIo (Some failed) e))
  end.

(** The macro [try_write!]: a failed write makes the delta inexact. *)
Definition try_write (m : M FS any_error unit) : M St any_error unit :=
  let! r := on_fs m in
  match r with
  | Ok _ => st_ret tt
  | Err e => set_inexact ;;; st_throw e
  end.

(** [derive_new_contents_from_chunks]: the original and the new contents; [Ok None] is a
    panic. *)
Definition derive_new_contents_from_chunks (p : path) (chunks : list UpdateFileChunk) :
    M FS ApplyPatchError (option (str * str)) := λ fs,
  match read_file_text p fs with
  | (fs', Err e) =>
      (fs', Err (IoError (lit "Failed to read file to update " ++ path_native p) e))
  | (fs', Ok original) =>
      (fs', let? new := Replacements.derive_new_contents original (path_native p) chunks in
            Ok (pair original <$> new))
  end.

Definition derive_or_fail (p : path) (chunks : list UpdateFileChunk) :
    M St any_error (str * str) :=
  let! r := on_fs (derive_new_contents_from_chunks p chunks) in
  match r with
  | Ok (Some cs) => st_ret cs
  | Ok None => st_throw AnyPanic
  | Err e => st_throw (AnyApply e)
  end.

(** [fs.remove(..)] with its error path: on failure the delta stays exact only if the file
    is seen to be still there. *)
Definition remove_or_fail (context : str) (p : path) (expected : option str) :
    M St any_error unit :=
  lift_fs (with_context context (ensure_not_directory p)) ;;;
  let! r := on_fs (with_context context (remove p)) in
  match r with
  | Ok _ => st_ret tt
  | Err e =>
      let! free := remove_failure_was_side_effect_free p expected in
      and_exact free ;;; st_throw e
  end.

(** [cwd.join(..)?] *)
Definition join_path (cwd : path) (p : str) : M St any_error path :=
  st_lift (map_err AnyPathUri (path_join cwd p)).

(** The three arms of the loop body; each returns the updated summary. *)
Definition apply_add_hunk (p : path) (contents affected : str) (acc : AffectedPaths) :
    M St any_error AffectedPaths :=
  let! overwritten := read_optional_file_text_for_delta p in
  try_write (write_file_with_missing_parent_retry p contents) ;;;
  push_change p (ChangeAdd contents overwritten) ;;;
  st_ret (mkAffected (added acc ++ [affected]) (modified acc) (deleted acc)).

Definition apply_delete_hunk (p : path) (affected : str) (acc : AffectedPaths) :
    M St any_error AffectedPaths :=
  note_existing_path_delta_support p ;;;
  let! r := on_fs (read_file_text p) in
  let deleted_content := result_ok r in
  (if deleted_content is None then set_inexact else st_ret tt) ;;;
  remove_or_fail (lit "Failed to delete file " ++ path_native p) p deleted_content ;;;
  (match deleted_content with
   | Some content => push_change p (ChangeDelete content)
   | None => st_ret tt
   end) ;;;
  st_ret (mkAffected (added acc) (modified acc) (deleted acc ++ [affected])).

(** The two ends of the update arm: into the move destination, or in place. *)
Definition write_moved (cwd p : path) (dest original new : str) : M St any_error unit :=
  let! dest_path := join_path cwd dest in
  let! overwritten := read_optional_file_text_for_delta dest_path in
  try_write (write_file_with_missing_parent_retry dest_path new) ;;;
  let! st := st_get in
  let index := length (changes st.2) in
  push_change dest_path (ChangeAdd new overwritten) ;;;
  remove_or_fail (lit "Failed to remove original " ++ path_native p) p (Some original) ;;;
  st_modify (λ st, (st.1, mkDelta
    (<[index := mkPatchChange (path_native p)
        (ChangeUpdate (Some (path_native dest_path)) original overwritten new)]>
      (changes st.2)) (exact st.2))).

Definition write_in_place (p : path) (original new : str) : M St any_error unit :=
  try_write (with_context (lit "Failed to write file " ++ path_native p) (write_file p new)) ;;;
  push_change p (ChangeUpdate None original None new).

Definition apply_update_hunk (cwd p : path) (move_path : option str)
    (chunks : list UpdateFileChunk) (affected : str) (acc : AffectedPaths) :
    M St any_error AffectedPaths :=
  note_existing_path_delta_support p ;;;
  let! (original, new) := derive_or_fail p chunks in
  match move_path with
  | Some dest => write_moved cwd p dest original new
  | None => write_in_place p original new
  end ;;;
  st_ret (mkAffected (added acc) (modified acc ++ [affected]) (deleted acc)).

(** The loop body of [apply_hunks_to_files]. *)
Definition apply_hunk (cwd : path) (h : Hunk) (acc : AffectedPaths) :
    M St any_error AffectedPaths :=
  let affected := hunk_path h in
  let! p := join_path cwd (hunk_source_path h) in
  match h with
  | AddFile _ contents => apply_add_hunk p contents affected acc
  | DeleteFile _ => apply_delete_hunk p affected acc
  | UpdateFile _ move_path chunks => apply_update_hunk cwd p move_path chunks affected acc
  end.

Fixpoint apply_hunk_list (cwd : path) (hs : list Hunk) (acc : AffectedPaths) :
    M St any_error AffectedPaths :=
  match hs with
  | [] => st_ret acc
  | h :: hs' => let! acc := apply_hunk cwd h acc in apply_hunk_list cwd hs' acc
  end.

(** [apply_hunks_to_files]. *)
Definition apply_hunks_to_files (hs : list Hunk) (cwd : path) : M St any_error AffectedPaths :=
  match hs with
  | [] => st_throw (AnyMsg (lit "No files were modified."))
  | _ => apply_hunk_list cwd hs (mkAffected [] [] [])
  end.

(** Lines written to the two output streams, which are assumed to accept them. *)
Record outputs : Type := mkOutputs { stdout : list str; stderr : list str }.

(** [print_summary]. *)
Definition print_summary (a : AffectedPaths) : list str :=
  lit "Success. Updated the following files:" ::
  ((λ p, lit "A " ++ p) <$> added a) ++ ((λ p, lit "M " ++ p) <$> modified a) ++
  ((λ p, lit "D " ++ p) <$> deleted a).

(** The error [apply_hunks] reports: [downcast_ref] finds an [io::Error] below a context. *)
Definition report_error (e : any_error) : ApplyPatchError :=
  match e with
  | AnyIo _ source => IoError (lit "I/O error") source
  | _ => IoError (show_any_error e) (mkIoError OtherKind (show_any_error e))
  end.

(** [ApplyPatchFailure]. *)
Record ApplyPatchFailure : Type := mkFailure {
  failure_error : ApplyPatchError;
  failure_delta : AppliedPatchDelta;
}.

(** [apply_hunks]. *)
Definition apply_hunks (hs : list Hunk) (cwd : path) (fs : FS) :
    FS * outputs * result ApplyPatchFailure AppliedPatchDelta :=
  match apply_hunks_to_files hs cwd (fs, empty_delta) with
  | ((fs', delta), Ok affected) => (fs', mkOutputs (print_summary affected) [], Ok delta)
  | ((fs', delta), Err e) =>
      (fs', mkOutputs [] [show_any_error e], Err (mkFailure (report_error e) delta))
  end.

(** [apply_patch]. *)
Definition apply_patch (patch : str) (cwd : path) (fs : FS) :
    FS * outputs * result ApplyPatchFailure AppliedPatchDelta :=
  match PatchParser.parse_patch patch with
  | Ok args => apply_hunks (args_hunks args) cwd fs
  | Err e =>
      let message := match e with
        | InvalidPatchError m => lit "Invalid patch: " ++ m
        | InvalidHunkError m n =>
            lit "Invalid patch hunk on line " ++ show_nat n ++ lit ": " ++ m
        end in
      (fs, mkOutputs [] [message], Err (mkFailure (PatchParseFailed e) empty_delta))
  end.

End apply.

(** ** Replaying a delta *)

(** The text stored at each native path. *)
Definition view : Type := str → option str.

Definition upd (v : view) (p : str) (x : option str) : view :=
  λ q, if decide (q = p) then x else v q.

Definition replay_change (v : view) (c : AppliedPatchChange) : view :=
  match change_of c with
  | ChangeAdd content _ => upd v (change_path c) (Some content)
  | ChangeDelete _ => upd v (change_path c) None
  | ChangeUpdate None _ _ new => upd v (change_path c) (Some new)
  | ChangeUpdate (Some d) _ _ new => upd (upd v (change_path c) None) d (Some new)
  end.

Definition replay (v : view) (cs : list AppliedPatchChange) : view := foldl replay_change v cs.

(** The previous contents a change records are the ones of the view it is applied to. *)
Definition preimage_ok (v : view) (c : AppliedPatchChange) : Prop :=
  match change_of c with
  | ChangeAdd _ overwritten => v (change_path c) = overwritten
  | ChangeDelete content => v (change_path c) = Some content
  | ChangeUpdate None old _ _ => v (change_path c) = Some old
  | ChangeUpdate (Some d) old overwritten _ =>
      v (change_path c) = Some old ∧ d ≠ change_path c ∧ v d = overwritten
  end.

Fixpoint preimages_ok (v : view) (cs : list AppliedPatchChange) : Prop :=
  match cs with
  | [] => True
  | c :: cs' => preimage_ok v c ∧ preimages_ok (replay_change v c) cs'
  end.

Lemma replay_snoc v cs c : replay v (cs ++ [c]) = replay_change (replay v cs) c.
Proof. apply foldl_snoc. Qed.

Lemma preimages_snoc v cs c :
  preimages_ok v (cs ++ [c]) ↔ preimages_ok v cs ∧ preimage_ok (replay v cs) c.
Proof.
  revert v. induction cs as [|c' cs IH]; intros v; simpl; [naive_solver|].
  rewrite IH. naive_solver.
Qed.

Lemma upd_eq v p x : upd v p x p = x.
Proof. unfold upd. by rewrite decide_True. Qed.

Lemma upd_ne v p q x : q ≠ p → upd v p x q = v q.
Proof. intros. unfold upd. by rewrite decide_False. Qed.

(** ** Effects of the file-system steps *)

Section effects.
Context {FS path : Type} {HPaths : PathOps path} {HFs : ExecutorFileSystem FS path}
  {HLaws : FileSystemLaws FS path} {HDec : EqDecision path}.
Implicit Types (s : FS) (p q : path) (st : St (FS:=FS)).

Definition same_nodes s s' : Prop := ∀ q, lookup_node s' q = lookup_node s q.

Lemma same_nodes_refl s : same_nodes s s.
Proof. done. Qed.

Lemma same_nodes_trans s1 s2 s3 : same_nodes s1 s2 → same_nodes s2 s3 → same_nodes s1 s3.
Proof. intros H1 H2 q. by rewrite H2, H1. Qed.

#[local] Hint Resolve same_nodes_refl same_nodes_trans : codex.

Lemma same_nodes_text s s' q : same_nodes s s' → text_at s' q = text_at s q.
Proof. intros H'. unfold text_at. by rewrite H'. Qed.

Definition link_free (T : path → Prop) s : Prop := ∀ q, T q → lookup_node s q ≠ Symlink.

(** A link at [p], if there is one, is never dangling: its metadata are found. *)
Definition link_resolves p : Prop :=
  ∀ s s' e, get_metadata p s = (s', Err e) → io_kind e = NotFound → lookup_node s p ≠ Symlink.
(** [p] is among the paths known to be no links, or a link at [p] is seen as one. *)
Definition link_seen (D : path → Prop) p : Prop := D p ∨ link_resolves p.

Lemma note_existing_effect p st st' r :
  note_existing_path_delta_support p st = (st', r) →
  r = Ok tt ∧ same_nodes st.1 st'.1 ∧ changes st'.2 = changes st.2 ∧
  (exact st'.2 = true → exact st.2 = true ∧
     ∀ D, link_seen D p → link_free D st.1 → lookup_node st.1 p ≠ Symlink).
Proof.
  unfold note_existing_path_delta_support, on_fs. intros Hn. st_unfold Hn.
  destruct (get_metadata p st.1) as [fs' [m|e]] eqn:E; pose proof E as Hf;
    (assert (Hs : same_nodes st.1 fs') by (intros q; by eapply metadata_frame)).
  - destruct (is_file m) eqn:E1, (is_symlink m) eqn:E2; simpl in Hn; unfold set_inexact in Hn;
      st_unfold Hn; simplify_eq/=; split_and!; try done.
    intros He. split; [done|]. intros D _ _ Hl. eapply metadata_regular in E; [|done..].
    by rewrite Hl in E.
  - destruct (not_found e) eqn:E1; unfold set_inexact in Hn; st_unfold Hn; simplify_eq/=;
      split_and!; try done. intros He. split; [done|]. intros D [HD|Hl] Hfree; [by apply Hfree|].
    apply bool_decide_eq_true_1 in E1. by eapply Hl.
Qed.

Lemma read_optional_effect p st st' r :
  read_optional_file_text_for_delta p st = (st', r) →
  ∃ o, r = Ok o ∧ same_nodes st.1 st'.1 ∧ changes st'.2 = changes st.2 ∧
  (exact st'.2 = true → exact st.2 = true ∧
     ∀ D, link_seen D p → link_free D st.1 → lookup_node st.1 p ≠ Symlink ∧ o = text_at st.1 p).
Proof.
  unfold read_optional_file_text_for_delta. intros Hn. st_unfold Hn.
  destruct (note_existing_path_delta_support p st) as [st1 r1] eqn:E1.
  apply note_existing_effect in E1 as (-> & Hs1 & Hc1 & He1).
  unfold on_fs in Hn. destruct (read_file_text p st1.1) as [fs' [c|e]] eqn:E2.
  - assert (Hs2 : same_nodes st1.1 fs') by (intros q; by eapply read_frame).
    simplify_eq/=. exists (Some c). split_and!; [done|eauto with codex|done|].
    intros (? & Hr)%He1. split; [done|]. intros D HD Hf. specialize (Hr D HD Hf).
    apply read_ok in E2. rewrite Hs1 in E2. unfold text_at.
    destruct E2 as [E2|E2]; [by rewrite E2|done].
  - assert (Hs2 : same_nodes st1.1 fs') by (intros q; by eapply read_frame).
    exists None. destruct (not_found e) eqn:E3; unfold set_inexact in Hn; st_unfold Hn;
      simplify_eq/=; (split_and!; [done|eauto with codex|done|]); [|done].
    intros (? & Hr)%He1. split; [done|]. intros D HD Hf. specialize (Hr D HD Hf).
    apply bool_decide_eq_true_1 in E3. apply read_not_found in E2; [|done].
    rewrite Hs1 in E2. unfold text_at. destruct E2 as [E2|E2]; [by rewrite E2|done].
Qed.

Lemma ensure_not_directory_effect p s s' r :
  ensure_not_directory p s = (s', r) → same_nodes s s'.
Proof.
  unfold ensure_not_directory. intros Hn. st_unfold Hn.
  destruct (get_metadata p s) as [fs' [m|e]] eqn:E;
    (assert (Hs : same_nodes s fs') by (intros q; by eapply metadata_frame)).
  - destruct (is_directory m); st_unfold Hn; by simplify_eq.
  - by simplify_eq.
Qed.

Lemma create_directory_text d s s' r q :
  create_directory d s = (s', r) →
  text_at s' q = text_at s q ∧ (lookup_node s q ≠ Symlink → lookup_node s' q ≠ Symlink).
Proof.
  intros Hc. unfold text_at.
  destruct (create_directory_effect _ _ _ _ Hc q) as [->|[-> ->]]; done.
Qed.

(** A write through the retry helper: on success the text is at [p] and the other texts are
    unchanged; other paths are unchanged even on failure. *)
Lemma write_retry_effect p t s s' r :
  lookup_node s p ≠ Symlink → write_file_with_missing_parent_retry p t s = (s', r) →
  (r = Ok tt → lookup_node s' p = TextFile t) ∧
  (∀ q, q ≠ p → text_at s' q = text_at s q ∧
     (lookup_node s q ≠ Symlink → lookup_node s' q ≠ Symlink)).
Proof.
  intros Hp. unfold write_file_with_missing_parent_retry, with_context. intros Hn.
  assert (Hok : ∀ s1 s2, lookup_node s1 p ≠ Symlink → write_file p t s1 = (s2, Ok tt) →
    lookup_node s2 p = TextFile t ∧ ∀ q, q ≠ p → lookup_node s2 q = lookup_node s1 q).
  { intros s1 s2 Hs1 Hw. by eapply write_ok. }
  destruct (write_file p t s) as [s1 [[]|e]] eqn:E1.
  { destruct (Hok _ _ Hp E1) as [H1 H2]. simplify_eq. split; [done|].
    intros q Hq. unfold text_at. by rewrite H2. }
  destruct (not_found e) eqn:Enf.
  2: { simplify_eq. split; [done|]. intros q Hq. unfold text_at.
       by rewrite (write_failed _ _ _ _ _ E1 q Hq). }
  apply bool_decide_eq_true_1 in Enf.
  assert (Hs1 : same_nodes s s1) by (intros q; by eapply write_not_found).
  assert (Hlast : ∀ s2, (∀ q, text_at s2 q = text_at s q ∧
      (lookup_node s q ≠ Symlink → lookup_node s2 q ≠ Symlink)) →
    (let '(fs', r) := write_file p t s2 in
     (fs', map_err (AnyIo (Some (lit "Failed to write file " ++ path_native p))) r)) = (s', r) →
    (r = Ok tt → lookup_node s' p = TextFile t) ∧
    (∀ q, q ≠ p → text_at s' q = text_at s q ∧
       (lookup_node s q ≠ Symlink → lookup_node s' q ≠ Symlink))).
  { intros s2 Ht Hw. destruct (write_file p t s2) as [s3 [[]|e2]] eqn:E3; simplify_eq/=.
    - destruct (Hok s2 s') as [H1 H2]; [by apply Ht|done|]. split; [done|].
      intros q Hq. specialize (Ht q). unfold text_at in *. by rewrite (H2 q Hq).
    - split; [done|]. intros q Hq. specialize (Ht q). unfold text_at in *.
      by rewrite (write_failed _ _ _ _ _ E3 q Hq). }
  destruct (path_parent p) as [d|]; st_unfold Hn.
  - destruct (create_directory d s1) as [s2 [[]|e2]] eqn:E2; simplify_eq/=.
    + eapply Hlast; [|exact Hn]. intros q.
      destruct (create_directory_text _ _ _ _ q E2) as [-> Hl].
      rewrite (same_nodes_text _ _ q Hs1). split; [done|]. by rewrite <-Hs1.
    + split; [done|]. intros q Hq.
      destruct (create_directory_text _ _ _ _ q E2) as [-> Hl].
      rewrite (same_nodes_text _ _ q Hs1). split; [done|]. by rewrite <-Hs1.
  - eapply Hlast; [|exact Hn]. intros q. rewrite (same_nodes_text _ _ q Hs1).
    split; [done|]. by rewrite Hs1.
Qed.

Lemma try_write_effect m st st' r :
  try_write m st = (st', r) →
  changes st'.2 = changes st.2 ∧
  match r with
  | Ok _ => m st.1 = (st'.1, Ok tt) ∧ exact st'.2 = exact st.2
  | Err e => m st.1 = (st'.1, Err e) ∧ exact st'.2 = false
  end.
Proof.
  unfold try_write, on_fs, set_inexact. intros Hn. st_unfold Hn.
  destruct (m st.1) as [fs' [[]|e]]; by simplify_eq/=.
Qed.

Lemma derive_or_fail_effect p chunks st st' r :
  derive_or_fail p chunks st = (st', r) →
  same_nodes st.1 st'.1 ∧ st'.2 = st.2 ∧
  (∀ original new, r = Ok (original, new) →
     lookup_node st.1 p = TextFile original ∨ lookup_node st.1 p = Symlink).
Proof.
  unfold derive_or_fail, on_fs, derive_new_contents_from_chunks. intros Hn. st_unfold Hn.
  destruct (read_file_text p st.1) as [fs' [t|e]] eqn:E;
    (assert (Hs : same_nodes st.1 fs') by (intros q; by eapply read_frame)).
  - destruct (Replacements.derive_new_contents t _ chunks) as [[new|]|e']; simplify_eq/=;
      (split_and!; [done..|]); [|done..]. intros ? ? ?; simplify_eq. by eapply read_ok.
  - by simplify_eq/=.
Qed.

Lemma remove_or_fail_effect context p expected st st' r :
  remove_or_fail context p expected st = (st', r) →
  changes st'.2 = changes st.2 ∧
  (∀ q, q ≠ p → lookup_node st'.1 q = lookup_node st.1 q) ∧
  match r with
  | Ok _ => lookup_node st'.1 p = Absent ∧ exact st'.2 = exact st.2
  | Err _ => exact st'.2 = true → exact st.2 = true ∧
      (∀ t, expected = Some t → lookup_node st.1 p = TextFile t →
         lookup_node st'.1 p = TextFile t)
  end.
Proof.
  unfold remove_or_fail, lift_fs, on_fs, with_context. intros Hn. st_unfold Hn.
  destruct (ensure_not_directory p st.1) as [s1 [[]|e1]] eqn:E1;
    apply ensure_not_directory_effect in E1; simpl in Hn.
  2: { simplify_eq/=. split; [done|]. split; [intros; apply E1|]. intros He.
       split; [done|]. intros t _ Ht. by rewrite E1. }
  destruct (remove p s1) as [s2 [[]|e2]] eqn:E2; simpl in Hn.
  { simplify_eq/=. apply remove_ok in E2 as [H1 H2]. split; [done|].
    split; [|done]. intros q Hq. by rewrite H2, E1. }
  pose proof (remove_failed _ _ _ _ E2) as [Hp Hq].
  assert (Hq' : ∀ q, q ≠ p → lookup_node s2 q = lookup_node st.1 q).
  { intros q Hne. by rewrite Hq, E1. }
  unfold remove_failure_was_side_effect_free, and_exact, on_fs in Hn.
  destruct expected as [t|]; st_unfold Hn; cycle 1.
  { simplify_eq/=. split; [done|]. split; [done|]. by rewrite andb_false_r. }
  cbn [fst snd] in Hn.
  destruct (read_file_text p s2) as [s3 r3] eqn:E3. simpl in Hn. simplify_eq/=.
  assert (Hs3 : same_nodes s2 s3) by (intros q; by eapply read_frame).
  split; [done|]. split; [intros q Hne; by rewrite Hs3, Hq'|].
  intros [He Hr]%andb_true_iff. split; [done|]. intros ? [= <-] Ht.
  destruct r3 as [c|]; [|done]. apply bool_decide_eq_true_1 in Hr as ->.
  rewrite Hs3. apply read_ok in E3. rewrite E1, Ht in Hp.
  destruct E3 as [E3|E3]; rewrite E3 in *; destruct Hp; congruence.
Qed.

(** The paths a hunk names, resolved. *)
Definition hunk_target (cwd : path) (h : Hunk) (q : path) : Prop :=
  path_join cwd (hunk_source_path h) = Ok q ∨
  match h with UpdateFile _ (Some d) _ => path_join cwd d = Ok q | _ => False end.

(** ** An exact delta replays to the file system *)

Section replays.

Context {HInj : Inj (=) (=) (path_native (path:=path))}.

(** The paths known to be no links when the run starts. *)
Context (D : path → Prop).

(** While the delta claims to be exact, its recorded previous contents are right, replaying
    it on the initial texts gives the current ones, and [D] is free of links. *)
Definition consistent (v0 : view) st : Prop :=
  exact st.2 = true →
  preimages_ok v0 (changes st.2) ∧
  (∀ q, replay v0 (changes st.2) (path_native q) = text_at st.1 q) ∧ link_free D st.1.

(** A rename hunk whose two paths resolve to the same file. *)
Definition self_move (cwd : path) (h : Hunk) : Prop :=
  match h with
  | UpdateFile p (Some d) _ => ∃ x, path_join cwd p = Ok x ∧ path_join cwd d = Ok x
  | _ => False
  end.

Lemma consistent_inexact v0 st : exact st.2 = false → consistent v0 st.
Proof. intros Hx He. congruence. Qed.

Lemma consistent_links v0 st : consistent v0 st → exact st.2 = true → link_free D st.1.
Proof. intros Hc He. apply (Hc He). Qed.

Lemma link_free_same s s' : same_nodes s s' → link_free D s → link_free D s'.
Proof. intros Hs Hf q Hq. rewrite Hs. by apply Hf. Qed.

Lemma consistent_same v0 st st' :
  consistent v0 st → same_nodes st.1 st'.1 →
  changes st'.2 = changes st.2 → (exact st'.2 = true → exact st.2 = true) →
  consistent v0 st'.
Proof.
  intros Hc Hs Hch Hex He. destruct (Hc (Hex He)) as (H1 & H2 & H3). rewrite Hch.
  split_and!; [done| |by eapply link_free_same]. intros q. by rewrite H2, (same_nodes_text _ _ q Hs).
Qed.

Lemma native_ne (p q : path) : p ≠ q → path_native p ≠ path_native q.
Proof. intros Hne Heq. by apply HInj in Heq. Qed.

(** One more change on top of a consistent state. *)
Lemma consistent_push v0 st st' c :
  consistent v0 st → changes st'.2 = changes st.2 ++ [c] →
  (exact st'.2 = true → exact st.2 = true ∧ (link_free D st.1 → link_free D st'.1) ∧
     ∀ v, (∀ q, v (path_native q) = text_at st.1 q) →
       preimage_ok v c ∧ ∀ q, replay_change v c (path_native q) = text_at st'.1 q) →
  consistent v0 st'.
Proof.
  intros Hc Hch Hstep He. destruct (Hstep He) as (Hex & Hl & Hv). destruct (Hc Hex) as (H1 & H2 & H5).
  destruct (Hv _ H2) as [H3 H4]. rewrite Hch, preimages_snoc, replay_snoc. auto.
Qed.

Lemma link_free_at s s' p :
  lookup_node s' p ≠ Symlink → (∀ q, q ≠ p → lookup_node s q ≠ Symlink → lookup_node s' q ≠ Symlink) →
  link_free D s → link_free D s'.
Proof. intros Hp Hq Hf q HD. destruct (decide (q = p)) as [->|Hne]; [done|]. by apply Hq, Hf. Qed.

Lemma text_at_node s q t : lookup_node s q = TextFile t → text_at s q = Some t.
Proof. unfold text_at. by intros ->. Qed.

Lemma upd_text v p x s s' :
  (∀ q, v (path_native q) = text_at s q) → text_at s' p = x →
  (∀ q, q ≠ p → text_at s' q = text_at s q) →
  ∀ q, upd v (path_native p) x (path_native q) = text_at s' q.
Proof.
  intros Hv Hp Hq q. destruct (decide (q = p)) as [->|Hne]; [by rewrite upd_eq|].
  rewrite upd_ne by by apply native_ne. by rewrite Hv, Hq.
Qed.

(** A removal that failed keeps a consistent state consistent. *)
Lemma remove_failed_consistent v0 context p t st st' e :
  consistent v0 st → (exact st.2 = true → lookup_node st.1 p = TextFile t) →
  remove_or_fail context p (Some t) st = (st', Err e) → consistent v0 st'.
Proof.
  intros Hc Hp Hn He. apply remove_or_fail_effect in Hn as (Hch & Hq & Hr).
  destruct (Hr He) as [Hex Hkeep]. specialize (Hkeep t eq_refl (Hp Hex)).
  destruct (Hc Hex) as (H1 & H2 & H3). rewrite Hch. split_and!; [done| |].
  - intros q. rewrite H2. unfold text_at.
    destruct (decide (q = p)) as [->|Hne]; [by rewrite Hp, Hkeep|by rewrite Hq].
  - apply (link_free_at st.1 st'.1 p); [by rewrite Hkeep| |done]. intros q Hne. by rewrite Hq.
Qed.

Lemma apply_add_hunk_consistent v0 p contents affected acc st st' r :
  link_seen D p → consistent v0 st → apply_add_hunk p contents affected acc st = (st', r) →
  consistent v0 st'.
Proof.
  intros Hseen Hc Hn. unfold apply_add_hunk in Hn. st_unfold Hn.
  destruct (read_optional_file_text_for_delta p st) as [st1 r1] eqn:E1.
  apply read_optional_effect in E1 as (o & -> & Hs1 & Hch1 & Hx1).
  destruct (try_write _ st1) as [st2 [[]|e]] eqn:E2;
    apply try_write_effect in E2 as [Hch2 [Hw Hx2]]; [|simplify_eq; by apply consistent_inexact].
  unfold push_change in Hn. st_unfold Hn. simplify_eq/=.
  eapply (consistent_push v0 st); [done|by rewrite Hch2, Hch1|]. simpl. rewrite Hx2.
  intros (Hex & Ho)%Hx1. destruct (Ho D Hseen (consistent_links _ _ Hc Hex)) as [Hsym ->].
  apply write_retry_effect in Hw as [Hp Hq]; [|by rewrite Hs1]. split; [done|].
  split; [apply link_free_at with p; [by rewrite Hp|]; intros q Hne; rewrite <- Hs1; by apply Hq|].
  intros v Hv. split; [by apply Hv|].
  apply (upd_text v p (Some contents) st.1); [done|by apply text_at_node, Hp|].
  intros q Hne. rewrite (proj1 (Hq q Hne)). by apply same_nodes_text.
Qed.

Lemma apply_delete_hunk_consistent v0 p affected acc st st' r :
  link_seen D p → consistent v0 st → apply_delete_hunk p affected acc st = (st', r) →
  consistent v0 st'.
Proof.
  intros Hseen Hc Hn. unfold apply_delete_hunk in Hn. st_unfold Hn.
  destruct (note_existing_path_delta_support p st) as [st1 r1] eqn:E1.
  apply note_existing_effect in E1 as (-> & Hs1 & Hch1 & Hx1).
  unfold on_fs in Hn. destruct (read_file_text p st1.1) as [s2 r2] eqn:E2.
  assert (Hs2 : same_nodes st.1 s2).
  { eapply same_nodes_trans; [done|]. intros q. by eapply read_frame. }
  destruct r2 as [t|e]; cbn [result_ok] in Hn; unfold set_inexact in Hn; st_unfold Hn.
  - assert (Hp : exact st1.2 = true → lookup_node st.1 p = TextFile t).
    { intros (Hex & Hl)%Hx1. specialize (Hl D Hseen (consistent_links _ _ Hc Hex)).
      apply read_ok in E2. rewrite Hs1 in E2. by destruct E2. }
    assert (Hc2 : consistent v0 (s2, st1.2)) by (eapply consistent_same; [done..|by intros []%Hx1]).
    destruct (remove_or_fail _ p (Some t) _) as [st3 [[]|e]] eqn:E3.
    + apply remove_or_fail_effect in E3 as (Hch3 & Hq3 & Hp3 & Hx3); simpl in *.
      unfold push_change in Hn. st_unfold Hn. simplify_eq/=.
      eapply (consistent_push v0 (s2, st1.2)); [done|simpl; by rewrite Hch3|]. simpl.
      rewrite Hx3. intros Hex. split; [done|].
      split; [apply link_free_at with p; [by rewrite Hp3|]; intros q Hne; by rewrite Hq3|].
      intros v Hv. split; [unfold preimage_ok; simpl; rewrite Hv; apply text_at_node; rewrite Hs2; auto|].
      apply (upd_text v p None s2); [done|unfold text_at; by rewrite Hp3|].
      intros q Hne. unfold text_at. by rewrite Hq3.
    + simplify_eq. eapply remove_failed_consistent; [exact Hc2| |exact E3].
      simpl. intros Hex. rewrite Hs2. auto.
  - destruct (remove_or_fail _ p None _) as [st3 [[]|e3]] eqn:E3;
      apply remove_or_fail_effect in E3 as (Hch3 & Hq3 & Hr3); simplify_eq;
      apply consistent_inexact; simpl in *; [by destruct Hr3|].
    destruct (exact st'.2); [|done]. by destruct Hr3.
Qed.

(** Committing the new contents to the destination of a move. *)
Lemma write_dest_consistent v0 d new o st2 st3 st4 :
  link_seen D d → consistent v0 st2 → same_nodes st2.1 st3.1 → changes st3.2 = changes st2.2 →
  (exact st3.2 = true → exact st2.2 = true ∧
     ∀ D, link_seen D d → link_free D st2.1 → lookup_node st2.1 d ≠ Symlink ∧ o = text_at st2.1 d) →
  write_file_with_missing_parent_retry d new st3.1 = (st4.1, Ok tt) →
  changes st4.2 = changes st3.2 → exact st4.2 = exact st3.2 →
  let st5 := (st4.1, mkDelta (changes st4.2 ++
                [mkPatchChange (path_native d) (ChangeAdd new o)]) (exact st4.2)) in
  consistent v0 st5 ∧
  (exact st5.2 = true → exact st2.2 = true ∧ o = text_at st2.1 d ∧
     text_at st5.1 d = Some new ∧ (link_free D st2.1 → link_free D st5.1) ∧
     ∀ q, q ≠ d → text_at st5.1 q = text_at st2.1 q).
Proof.
  intros Hseen Hc2 Hs3 Hch3 Hx3 Hw Hch4 Hx4 st5.
  assert (Hnodes : exact st5.2 = true → exact st2.2 = true ∧ o = text_at st2.1 d ∧
     text_at st5.1 d = Some new ∧ (link_free D st2.1 → link_free D st5.1) ∧
     ∀ q, q ≠ d → text_at st5.1 q = text_at st2.1 q).
  { simpl. rewrite Hx4. intros (Hex & Ho)%Hx3.
    destruct (Ho D Hseen (consistent_links _ _ Hc2 Hex)) as [Hsym ->].
    apply write_retry_effect in Hw as [Hd Hq]; [|by rewrite Hs3].
    split_and!; [done..|by apply text_at_node, Hd| |].
    - apply link_free_at with d; [by rewrite Hd|]. intros q Hne. rewrite <- Hs3. by apply Hq.
    - intros q Hqd. rewrite (proj1 (Hq q Hqd)). by apply same_nodes_text. }
  split; [|done]. eapply (consistent_push v0 st2); [done|simpl; by rewrite Hch4, Hch3|].
  intros (Hex & -> & Hd & Hl & Hq)%Hnodes. split_and!; [done..|]. intros v Hv.
  split; [by apply Hv|]. by apply (upd_text v d (Some new) st2.1).
Qed.

Lemma write_moved_consistent v0 cwd p dest original new st2 st' r :
  path_join cwd dest ≠ Ok p → (∀ d, path_join cwd dest = Ok d → link_seen D d) → consistent v0 st2 →
  (exact st2.2 = true → lookup_node st2.1 p = TextFile original) →
  write_moved cwd p dest original new st2 = (st', r) → consistent v0 st'.
Proof.
  intros Hself Hseen Hc2 Hp2 Hn. unfold write_moved, join_path in Hn. st_unfold Hn.
  destruct (path_join cwd dest) as [d|] eqn:Ej; simpl in Hn; [|by simplify_eq].
  assert (Hne : d ≠ p) by congruence.
  destruct (read_optional_file_text_for_delta d st2) as [st3 r3] eqn:E3.
  apply read_optional_effect in E3 as (o & -> & Hs3 & Hch3 & Hx3).
  destruct (try_write _ st3) as [st4 [[]|e]] eqn:E4;
    apply try_write_effect in E4 as [Hch4 [Hw Hx4]]; [|simplify_eq; by apply consistent_inexact].
  unfold push_change in Hn. st_unfold Hn. set (st5 := (st4.1, _)) in Hn.
  destruct (write_dest_consistent v0 d new o st2 st3 st4) as [Hc5 Hnodes]; [by apply Hseen|done..|].
  assert (Hp5 : exact st5.2 = true → lookup_node st5.1 p = TextFile original).
  { intros (Hex & _ & _ & _ & Hq)%Hnodes. specialize (Hq p ltac:(done)).
    unfold text_at in Hq. rewrite (Hp2 Hex) in Hq. simpl in *.
    destruct (lookup_node st4.1 p); naive_solver. }
  destruct (remove_or_fail _ p (Some original) st5) as [st6 [[]|e]] eqn:E6.
  2: { simplify_eq. by eapply remove_failed_consistent. }
  apply remove_or_fail_effect in E6 as (Hch6 & Hq6 & Hp6 & Hx6). simplify_eq.
  eapply (consistent_push v0 st2); [done| |].
  { simpl. rewrite Hch6. simpl. rewrite <-(Nat.add_0_r (length _)), insert_app_r.
    by rewrite Hch4, Hch3. }
  simpl. rewrite Hx6. intros Hex5. destruct (Hnodes Hex5) as (Hex & -> & Hd & Hl & Hq).
  split; [done|]. split.
  { intros Hf%Hl. apply link_free_at with st5.1 p; [by rewrite Hp6| |done].
    intros q Hne'. by rewrite Hq6. }
  intros v Hv. split.
  - unfold preimage_ok. simpl. rewrite !Hv. split_and!; [|by apply native_ne|done].
    by apply text_at_node, Hp2.
  - unfold replay_change. simpl. intros q. unfold text_at in *. simpl in *.
    destruct (decide (q = d)) as [->|Hqd]; [by rewrite upd_eq, Hq6|].
    rewrite upd_ne by by apply native_ne.
    destruct (decide (q = p)) as [->|Hqp]; [by rewrite upd_eq, Hp6|].
    rewrite upd_ne by by apply native_ne. by rewrite Hv, Hq6, Hq.
Qed.

Lemma write_in_place_consistent v0 p original new st2 st' r :
  consistent v0 st2 → (exact st2.2 = true → lookup_node st2.1 p = TextFile original) →
  write_in_place p original new st2 = (st', r) → consistent v0 st'.
Proof.
  intros Hc2 Hp2 Hn. unfold write_in_place in Hn. st_unfold Hn.
  destruct (try_write _ st2) as [st3 [[]|e]] eqn:E3;
    apply try_write_effect in E3 as [Hch3 [Hw Hx3]]; [|simplify_eq; by apply consistent_inexact].
  unfold push_change in Hn. st_unfold Hn. simplify_eq/=.
  eapply (consistent_push v0 st2); [done|by rewrite Hch3|]. simpl. rewrite Hx3.
  intros Hex. split; [done|].
  unfold with_context in Hw. destruct (write_file p new st2.1) as [s4 [[]|e]] eqn:Ew;
    simplify_eq/=. apply write_ok in Ew as [Hp Hq]; [|by rewrite Hp2].
  split; [apply link_free_at with p; [by rewrite Hp|]; intros q Hne; by rewrite Hq|]. intros v Hv.
  split; [unfold preimage_ok; simpl; rewrite Hv; by apply text_at_node, Hp2|].
  apply (upd_text v p (Some new) st2.1); [done|by apply text_at_node|].
  intros q Hqp. unfold text_at. by rewrite Hq.
Qed.

Lemma apply_update_hunk_consistent v0 cwd p move_path chunks affected acc st st' r :
  (∀ d, move_path = Some d → path_join cwd d ≠ Ok p) →
  link_seen D p → (∀ d q, move_path = Some d → path_join cwd d = Ok q → link_seen D q) → consistent v0 st →
  apply_update_hunk cwd p move_path chunks affected acc st = (st', r) → consistent v0 st'.
Proof.
  intros Hself Hseen Hseen' Hc Hn. unfold apply_update_hunk in Hn. st_unfold Hn.
  destruct (note_existing_path_delta_support p st) as [st1 r1] eqn:E1.
  apply note_existing_effect in E1 as (-> & Hs1 & Hch1 & Hx1).
  destruct (derive_or_fail p chunks st1) as [st2 r2] eqn:E2.
  apply derive_or_fail_effect in E2 as (Hs2 & Hd2 & Hr2).
  assert (Hc2 : consistent v0 st2).
  { eapply consistent_same; [done|..]; rewrite ?Hd2; [eauto with codex|done|by intros []%Hx1]. }
  destruct r2 as [[original new]|e]; [|by simplify_eq].
  assert (Hp2 : exact st2.2 = true → lookup_node st2.1 p = TextFile original).
  { rewrite Hd2. intros (Hex & Hl)%Hx1. rewrite Hs2.
    specialize (Hl D Hseen (consistent_links _ _ Hc Hex)). rewrite <- Hs1 in Hl.
    by destruct (Hr2 _ _ eq_refl). }
  destruct move_path as [dest|].
  - destruct (write_moved cwd p dest original new st2) as [st3 [[]|e]] eqn:E3; simplify_eq;
      eapply write_moved_consistent; eauto.
  - destruct (write_in_place p original new st2) as [st3 [[]|e]] eqn:E3; simplify_eq;
      by eapply write_in_place_consistent.
Qed.

Lemma apply_hunk_list_consistent v0 cwd hs acc st st' r :
  Forall (λ h, ¬ self_move cwd h ∧ ∀ q, hunk_target cwd h q → link_seen D q) hs → consistent v0 st →
  apply_hunk_list cwd hs acc st = (st', r) → consistent v0 st'.
Proof.
  intros HF. revert acc st r. induction HF as [|h hs [Hh Hseen] HF IH]; intros acc st r Hc; simpl.
  { intros [= <- <-]. done. }
  unfold st_bind. destruct (apply_hunk cwd h acc st) as [st1 r1] eqn:E1. intros Hn.
  assert (Hc1 : consistent v0 st1).
  { unfold apply_hunk, join_path, st_bind, st_lift in E1.
    destruct (path_join cwd (hunk_source_path h)) as [p|] eqn:Ej; simpl in E1;
      [|by simplify_eq]. pose proof (Hseen p (or_introl Ej)). destruct h as [|? |path' mv chunks].
    - by eapply apply_add_hunk_consistent.
    - by eapply apply_delete_hunk_consistent.
    - eapply apply_update_hunk_consistent; [| |..|done|done]; [|done|].
      + intros d -> Hd. apply Hh. by exists p.
      + intros d q -> Hd. apply Hseen. by right. }
  destruct r1 as [acc1|e]; [by eapply IH|by simplify_eq].
Qed.

End replays.

(** ** A patch touches only the files it names

    [confined T m]: from a state in which no path of [T] is a symbolic link, [m] leaves
    every text outside [T] alone, also when it fails, and on success keeps [T] free of
    links. *)

Definition text_frame (T : path → Prop) s s' : Prop :=
  ∀ q, ¬ T q → text_at s' q = text_at s q.

Definition confined {A} (T : path → Prop) (m : M (St (FS:=FS)) any_error A) : Prop :=
  ∀ st st' r, link_free T st.1 → m st = (st', r) →
  text_frame T st.1 st'.1 ∧ (is_ok r = true → link_free T st'.1).

Lemma confined_bind {A B} T (m : M St any_error A) (k : A → M St any_error B) :
  confined T m → (∀ a, confined T (k a)) → confined T (st_bind m k).
Proof.
  intros Hm Hk st st' r Hl Hn. st_unfold Hn. destruct (m st) as [st1 [a|e]] eqn:E.
  - destruct (Hm _ _ _ Hl E) as [Hf Hl1]. destruct (Hk a _ _ _ (Hl1 eq_refl) Hn) as [Hf2 Hl2].
    split; [|done]. intros q Hq. by rewrite Hf2, Hf.
  - simplify_eq. destruct (Hm _ _ _ Hl E) as [Hf _]. by split.
Qed.

(** Steps that only read the file system, or only change the delta. *)
Lemma confined_same {A} T (m : M St any_error A) :
  (∀ st st' r, m st = (st', r) → same_nodes st.1 st'.1) → confined T m.
Proof.
  intros Hm st st' r Hl E. apply Hm in E. split; [|intros _ q Hq; rewrite E; by apply Hl].
  intros q _. by apply same_nodes_text.
Qed.

Lemma confined_pure {A} T (m : M St any_error A) :
  (∀ st, (m st).1.1 = st.1) → confined T m.
Proof.
  intros Hm. apply confined_same. intros st st' r E. specialize (Hm st). rewrite E in Hm.
  simpl in Hm. by rewrite Hm.
Qed.

Lemma confined_write T p t :
  T p → confined T (try_write (write_file_with_missing_parent_retry p t)).
Proof.
  intros Hp st st' r Hl E. apply try_write_effect in E as [_ E].
  assert (∃ r0, write_file_with_missing_parent_retry p t st.1 = (st'.1, r0) ∧
    (is_ok r = true → r0 = Ok tt)) as (r0 & Hw & Hr0).
  { destruct r; destruct E as [E _]; naive_solver. }
  apply write_retry_effect in Hw as [Hok Hq]; [|by apply Hl].
  split; [intros q Hnq; apply Hq; by intros ->|].
  intros Hr q HT. destruct (decide (q = p)) as [->|Hne]; [by rewrite Hok by auto|].
  apply Hq; [done|by apply Hl].
Qed.

Lemma confined_write_in_place T p original new :
  T p → confined T (write_in_place p original new).
Proof.
  intros Hp. apply confined_bind; [|intros _; by apply confined_pure].
  intros st st' r Hl E. apply try_write_effect in E as [_ E].
  assert (∃ r0, write_file p new st.1 = (st'.1, r0) ∧ (is_ok r = true → r0 = Ok tt))
    as (r0 & Hw & Hr0).
  { unfold with_context in E. destruct (write_file p new st.1) as [s [[]|]];
      destruct r as [|]; destruct E as [E _]; naive_solver. }
  destruct r0 as [[]|e].
  - apply write_ok in Hw as [H1 H2]; [|by apply Hl]. split.
    + intros q Hq. unfold text_at. rewrite H2; [done|]. by intros ->.
    + intros _ q HT. destruct (decide (q = p)) as [->|Hne]; [by rewrite H1|].
      rewrite H2 by done. by apply Hl.
  - split; [|intros Hr; by specialize (Hr0 Hr)]. intros q Hq. unfold text_at.
    rewrite (write_failed _ _ _ _ _ Hw); [done|]. by intros ->.
Qed.

Lemma confined_remove T context p expected :
  T p → confined T (remove_or_fail context p expected).
Proof.
  intros Hp st st' r Hl E. apply remove_or_fail_effect in E as (_ & Hq & Hr). split.
  - intros q Hnq. unfold text_at. rewrite Hq; [done|]. by intros ->.
  - intros Hok q HT. destruct r; [|done]. destruct (decide (q = p)) as [->|Hne].
    + destruct Hr as [Hr _]. by rewrite Hr.
    + rewrite Hq by done. by apply Hl.
Qed.

Lemma confined_note T p : confined T (note_existing_path_delta_support p).
Proof. apply confined_same. by intros st st' r (_ & ? & _)%note_existing_effect. Qed.

Lemma confined_read_optional T p : confined T (read_optional_file_text_for_delta p).
Proof. apply confined_same. by intros st st' r (o & _ & ? & _)%read_optional_effect. Qed.

Lemma confined_derive T p chunks : confined T (derive_or_fail p chunks).
Proof. apply confined_same. by intros st st' r [? _]%derive_or_fail_effect. Qed.

Lemma confined_read T p : confined T (on_fs (read_file_text p)).
Proof.
  apply confined_same. unfold on_fs. intros st st' r Hn.
  destruct (read_file_text p st.1) as [s' r'] eqn:E. simplify_eq/=. intros q.
  by eapply read_frame.
Qed.

Lemma confined_lift {A B} T (a : A) (k : A → M St any_error B) :
  confined T (k a) → confined T (st_bind (st_lift (Ok a)) k).
Proof. intros Hk. exact Hk. Qed.

Lemma confined_write_moved (T : path → Prop) cwd p dest original new :
  T p → (∀ q, path_join cwd dest = Ok q → T q) →
  confined T (write_moved cwd p dest original new).
Proof.
  intros Hp Hd. unfold write_moved, join_path.
  destruct (path_join cwd dest) as [d|e] eqn:Ed; cbn [map_err]; [|by apply confined_pure].
  apply confined_lift. specialize (Hd d eq_refl).
  apply confined_bind; [apply confined_read_optional|intros o].
  apply confined_bind; [by apply confined_write|intros _].
  apply confined_bind; [by apply confined_pure|intros st].
  apply confined_bind; [by apply confined_pure|intros _].
  apply confined_bind; [by apply confined_remove|intros _]. by apply confined_pure.
Qed.

Lemma confined_apply_hunk (T : path → Prop) cwd h acc :
  (∀ q, hunk_target cwd h q → T q) → confined T (apply_hunk cwd h acc).
Proof.
  intros HT. unfold apply_hunk, join_path.
  destruct (path_join cwd (hunk_source_path h)) as [p|e] eqn:Ej; cbn [map_err];
    [|by apply confined_pure].
  assert (Hp : T p) by (apply HT; by left). apply confined_lift.
  destruct h as [pa contents|pd|pu mv chunks].
  - apply confined_bind; [apply confined_read_optional|intros o].
    apply confined_bind; [by apply confined_write|intros _]. by apply confined_pure.
  - apply confined_bind; [apply confined_note|intros _].
    apply confined_bind; [apply confined_read|intros r].
    apply confined_bind; [by apply confined_pure; destruct r|intros _].
    apply confined_bind; [by apply confined_remove|intros _].
    by apply confined_pure; destruct r.
  - apply confined_bind; [apply confined_note|intros _].
    apply confined_bind; [apply confined_derive|intros [original new]].
    apply confined_bind; [|intros _; by apply confined_pure].
    destruct mv as [dest|]; [|by apply confined_write_in_place].
    apply confined_write_moved; [done|]. intros q Hq. apply HT. by right.
Qed.

Lemma confined_apply_hunk_list (T : path → Prop) cwd hs acc :
  (∀ h q, h ∈ hs → hunk_target cwd h q → T q) → confined T (apply_hunk_list cwd hs acc).
Proof.
  revert acc. induction hs as [|h hs IH]; intros acc HT; [by apply confined_pure|].
  apply confined_bind.
  - apply confined_apply_hunk. intros q. apply HT. left.
  - intros acc'. apply IH. intros h' q Hh'. apply HT. by right.
Qed.

(** ** What the summary lists *)

Definition note_affected (acc : AffectedPaths) (h : Hunk) : AffectedPaths :=
  match h with
  | AddFile _ _ => mkAffected (added acc ++ [hunk_path h]) (modified acc) (deleted acc)
  | DeleteFile _ => mkAffected (added acc) (modified acc) (deleted acc ++ [hunk_path h])
  | UpdateFile _ _ _ => mkAffected (added acc) (modified acc ++ [hunk_path h]) (deleted acc)
  end.

Lemma apply_hunk_affected cwd h acc st st' acc' :
  apply_hunk cwd h acc st = (st', Ok acc') → acc' = note_affected acc h.
Proof.
  unfold apply_hunk. intros (st1 & p & _ & Hn)%st_bind_ok.
  destruct h as [pa contents|pd|pu mv chunks]; simpl in *.
  - unfold apply_add_hunk in Hn. apply st_bind_ok in Hn as (? & ? & _ & Hn).
    apply st_bind_ok in Hn as (? & ? & _ & Hn). apply st_bind_ok in Hn as (? & ? & _ & Hn).
    st_unfold Hn. by simplify_eq.
  - unfold apply_delete_hunk in Hn. apply st_bind_ok in Hn as (? & ? & _ & Hn).
    apply st_bind_ok in Hn as (? & r & _ & Hn). apply st_bind_ok in Hn as (? & ? & _ & Hn).
    apply st_bind_ok in Hn as (? & ? & _ & Hn). apply st_bind_ok in Hn as (? & ? & _ & Hn).
    st_unfold Hn. by simplify_eq.
  - unfold apply_update_hunk in Hn. apply st_bind_ok in Hn as (? & ? & _ & Hn).
    apply st_bind_ok in Hn as (? & [original new] & _ & Hn).
    apply st_bind_ok in Hn as (? & ? & _ & Hn). st_unfold Hn. by simplify_eq.
Qed.

Lemma apply_hunk_list_affected cwd hs acc st st' acc' :
  apply_hunk_list cwd hs acc st = (st', Ok acc') → acc' = foldl note_affected acc hs.
Proof.
  revert acc st. induction hs as [|h hs IH]; intros acc st; [by intros [= _ <-]|].
  cbn [apply_hunk_list foldl]. intros (st1 & acc1 & H1 & H2)%st_bind_ok.
  apply apply_hunk_affected in H1 as ->. by apply IH in H2.
Qed.

(** The delta a run hands to its caller, on success or failure. *)
Definition delta_of (r : result ApplyPatchFailure AppliedPatchDelta) : AppliedPatchDelta :=
  match r with Ok d => d | Err f => failure_delta f end.

Lemma apply_hunks_run hs cwd (fs fs' : FS) out r :
  apply_hunks hs cwd fs = (fs', out, r) →
  ∃ r0, apply_hunks_to_files hs cwd (fs, empty_delta) = ((fs', delta_of r), r0) ∧
    is_ok r0 = is_ok r.
Proof.
  unfold apply_hunks. destruct (apply_hunks_to_files _ _ _) as [[fs1 d] [a|e]];
    intros [= <- <- <-]; simpl; eauto.
Qed.

(** ** Properties *)

(** No hunk renames a file to itself, and none names a dangling link: a path that it names is
    no link when the run starts, or a link there is never dangling. *)
Definition recordable (fs : FS) (cwd : path) (h : Hunk) : Prop :=
  ¬ self_move cwd h ∧
  ∀ q, hunk_target cwd h q → lookup_node fs q ≠ Symlink ∨ link_resolves q.

Lemma apply_hunks_consistent `{!Inj (=) (=) (path_native (path:=path))} v0 hs cwd (fs fs' : FS) out r :
  (∀ q, v0 (path_native q) = text_at fs q) → Forall (recordable fs cwd) hs →
  apply_hunks hs cwd fs = (fs', out, r) →
  consistent (λ q, lookup_node fs q ≠ Symlink) v0 (fs', delta_of r).
Proof.
  intros Hv HF (r0 & Hn & _)%apply_hunks_run.
  assert (Hc0 : consistent (λ q, lookup_node fs q ≠ Symlink) v0 (fs, empty_delta))
    by (intros _; split_and!; [done..|by intros q]).
  unfold apply_hunks_to_files in Hn. destruct hs as [|h hs].
  - st_unfold Hn. injection Hn as -> Hd _. by rewrite <-Hd.
  - by eapply apply_hunk_list_consistent.
Qed.

(** C15. The committed delta is trustworthy: when a run, successful or failed half way,
    reports an exact delta, every previous content the delta records is right and
    replaying its changes in order on the texts before the run gives exactly the texts
    after it, for every path.  Operations may fail at any point.  Conditions: no hunk renames
    a file to itself; no hunk names a dangling symbolic link, whose metadata are not found
    although it is there (other links are allowed, they make the delta inexact); different
    paths have different native texts; and the file system keeps the laws of its interface,
    by which different paths are different files, so that there are no hard links and no
    linked directories.  The first two are needed: see [self_rename_loses_file] and
    [dangling_link_delta_wrong]. *)
Theorem exact_delta_replays `{!Inj (=) (=) (path_native (path:=path))} (v0 : view) (fs fs' : FS) (hs : list Hunk) (cwd : path)
    (out : outputs) (r : result ApplyPatchFailure AppliedPatchDelta) :
  (∀ q, v0 (path_native q) = text_at fs q) →
  Forall (recordable fs cwd) hs →
  apply_hunks hs cwd fs = (fs', out, r) → exact (delta_of r) = true →
  preimages_ok v0 (changes (delta_of r)) ∧
  ∀ q, replay v0 (changes (delta_of r)) (path_native q) = text_at fs' q.
Proof. intros Hv HF Hn He. by destruct (apply_hunks_consistent v0 hs cwd fs fs' out r Hv HF Hn He) as (? & ? & _). Qed.

Lemma apply_hunks_frame (fs fs' : FS) (hs : list Hunk) (cwd : path) (out : outputs)
    (r : result ApplyPatchFailure AppliedPatchDelta) :
  (∀ h q, h ∈ hs → hunk_target cwd h q → lookup_node fs q ≠ Symlink) →
  apply_hunks hs cwd fs = (fs', out, r) →
  ∀ q, (∀ h, h ∈ hs → ¬ hunk_target cwd h q) → text_at fs' q = text_at fs q.
Proof.
  intros Hl (r0 & Hn & _)%apply_hunks_run q Hq.
  set (T q := ∃ h, h ∈ hs ∧ hunk_target cwd h q).
  assert (Hc : confined T (apply_hunks_to_files hs cwd)).
  { unfold apply_hunks_to_files. destruct hs as [|h hs]; [by apply confined_pure|].
    apply confined_apply_hunk_list. intros h' q' ? ?. by exists h'. }
  apply Hc in Hn as [Hf _]; [|intros q' (h & Hh & Ht); by apply (Hl h)].
  apply Hf. intros (h & Hh & Ht). by apply (Hq h).
Qed.

(** A patch is confined to the files it names: whatever the outcome, the text of every
    path that no hunk names, as source or move destination, is the same after the run, when
    the named paths are not symbolic links. *)
Theorem apply_hunks_confined (fs fs' : FS) (hs : list Hunk) (cwd : path) (out : outputs)
    (r : result ApplyPatchFailure AppliedPatchDelta) :
  (∀ h q, h ∈ hs → hunk_target cwd h q → lookup_node fs q ≠ Symlink) →
  apply_hunks hs cwd fs = (fs', out, r) →
  ∀ q, (∀ h, h ∈ hs → ¬ hunk_target cwd h q) → text_at fs' q = text_at fs q.
Proof. apply apply_hunks_frame. Qed.

(** On success there was at least one hunk and the printed summary lists, in the order of the
    patch, the path of every hunk: additions under A, updates under M (a rename by its
    destination), deletions under D. *)
Theorem apply_hunks_summary (fs fs' : FS) (hs : list Hunk) (cwd : path) (out : outputs)
    (d : AppliedPatchDelta) :
  apply_hunks hs cwd fs = (fs', out, Ok d) →
  hs ≠ [] ∧ out = mkOutputs (print_summary (foldl note_affected (mkAffected [] [] []) hs)) [].
Proof.
  unfold apply_hunks. destruct (apply_hunks_to_files _ _ _) as [[fs1 d1] [a|e]] eqn:E; [|done].
  intros [= <- <- <-]. unfold apply_hunks_to_files in E. destruct hs as [|h hs]; [done|].
  split; [done|]. by apply apply_hunk_list_affected in E as ->.
Qed.

End effects.

(** ** Runs on the in-memory file system *)

Import MemFs.

Definition ex_dir : str := lit "/w".
Definition ex_fs : mem_fs :=
  list_to_map [(lit "/w", Directory); (lit "/w/a", TextFile (lit "x" ++ [nl]));
               (lit "/w/b", TextFile (lit "keep" ++ [nl]))].
Definition ex_update (mv : option str) : Hunk :=
  UpdateFile (lit "a") mv [mkChunk None [lit "x"] [lit "y"] false].
Definition ex_run := apply_hunks [ex_update (Some (lit "c"))] ex_dir ex_fs.

(** The exclusion of self-renames in [exact_delta_replays] is needed: an update hunk that moves a file to
    itself succeeds with a delta marked exact that says the file now has the new text, but
    the file is gone. *)
Theorem self_rename_loses_file :
  ∃ fs' out d,
    apply_hunks [ex_update (Some (lit "a"))] ex_dir ex_fs = (fs', out, Ok d) ∧
    exact d = true ∧ text_at ex_fs (lit "/w/a") = Some (lit "x" ++ [nl]) ∧
    replay (text_at ex_fs) (changes d) (lit "/w/a") = Some (lit "y" ++ [nl]) ∧
    text_at fs' (lit "/w/a") = None.
Proof. eexists _, _, _. split; [vm_compute; reflexivity|]. vm_compute. auto. Qed.

(** So is that of dangling links: adding a file at such a link writes the place it points at, and
    the delta, marked exact, says that there was nothing and that the link is now a file. *)
Theorem dangling_link_delta_wrong :
  let fs : mem_fs := <[lit "/w/l" := Symlink]> (ex_fs : gmap (list N) node) in
  ∃ fs' out d,
    apply_hunks [AddFile (lit "l") (lit "z")] ex_dir fs = (fs', out, Ok d) ∧ exact d = true ∧
    changes d = [mkPatchChange (lit "/w/l") (ChangeAdd (lit "z") None)] ∧
    lookup_node fs' (lit "/w/l") = Symlink ∧ text_at fs' (lit "/w/l") = None.
Proof. eexists _, _, _. split; [vm_compute; reflexivity|]. vm_compute. auto. Qed.

Lemma ex_recordable : Forall (recordable ex_fs ex_dir) [ex_update (Some (lit "c"))].
Proof.
  constructor; [|constructor]. split; [intros (x & H1 & H2); vm_compute in H1, H2; congruence|].
  intros q [Hq|Hq]; vm_compute in Hq; simplify_eq; left; vm_compute; discriminate.
Qed.

Lemma exact_delta_replays_witness :
  exact (delta_of ex_run.2) = true ∧ text_at ex_run.1.1 (lit "/w/c") = Some (lit "y" ++ [nl]) ∧
  ∀ q, replay (text_at ex_fs) (changes (delta_of ex_run.2)) q = text_at ex_run.1.1 q.
Proof.
  split; [vm_compute; reflexivity|]. split; [vm_compute; reflexivity|].
  refine (proj2 (exact_delta_replays (text_at ex_fs) ex_fs ex_run.1.1
    [ex_update (Some (lit "c"))] ex_dir ex_run.1.2 ex_run.2 _ _ _ _)).
  - reflexivity.
  - apply ex_recordable.
  - unfold ex_run. by destruct (apply_hunks _ _ _) as [[? ?] ?].
  - vm_compute. reflexivity.
Defined.

Lemma apply_hunks_confined_witness :
  text_at ex_run.1.1 (lit "/w/b") = text_at ex_fs (lit "/w/b").
Proof.
  apply (apply_hunks_confined ex_fs ex_run.1.1 [ex_update (Some (lit "c"))] ex_dir
    ex_run.1.2 ex_run.2).
  - intros h q ->%list_elem_of_singleton [Hq|Hq]; vm_compute in Hq; simplify_eq;
      vm_compute; discriminate.
  - unfold ex_run. by destruct (apply_hunks _ _ _) as [[? ?] ?].
  - intros h ->%list_elem_of_singleton [Hq|Hq]; vm_compute in Hq; discriminate.
Defined.

Lemma apply_hunks_summary_witness :
  [ex_update (Some (lit "c"))] ≠ [] ∧
  ex_run.1.2 = mkOutputs [lit "Success. Updated the following files:"; lit "M c"] [].
Proof.
  apply (apply_hunks_summary ex_fs ex_run.1.1 [ex_update (Some (lit "c"))] ex_dir
    ex_run.1.2 (delta_of ex_run.2)). vm_compute. reflexivity.
Defined.

End ApplyPatch.
