(* ===== verification/PatchRun.v ===== *)
(** * Running a printed patch

    From the patch text to the file system: the parser, the line editing and the hunk loop
    of apply-patch/src composed, for a patch that describes an edit script. *)

From stdpp Require Import prelude strings gmap.
From S2P Require Import Prelude RustStr PatchTypes Replacements PatchParser PatchRoundTrip.
From S2P Require Import FileSystem ApplyPatch.
Import Replacements PatchRoundTrip ApplyPatch.

Module PatchRun.

(** The patch text of an edit script: one change per edit, removed lines then added lines. *)
Definition edit_change (e : edit) : change :=
  mkChange None ((Minus <$> before e) ++ (Plus <$> after e)) false.
Definition edit_patch (name : str) (es : list edit) : str :=
  print_patch None [SrcUpdate name None (edit_change <$> es)].

Definition ok_edit (e : edit) : Prop := Forall ok_line (before e) ∧ Forall ok_line (after e).

Lemma edit_change_chunk e : chunk_of (edit_change e) = edit_chunk e.
Proof.
  assert (Hold : ((Minus <$> before e) ++ (Plus <$> after e)) ≫= old_of = before e).
  { induction (before e) as [|l ls IH]; [by induction (after e)|]. exact (f_equal (cons l) IH). }
  assert (Hnew : ((Minus <$> before e) ++ (Plus <$> after e)) ≫= new_of = after e).
  { clear Hold. induction (before e) as [|l ls IH]; [|exact IH].
    induction (after e) as [|l ls IH]; [done|]. exact (f_equal (cons l) IH). }
  unfold chunk_of, edit_chunk, edit_change. simpl. by rewrite Hold, Hnew.
Qed.

Lemma edit_change_ok e : before e ≠ [] → ok_edit e → ok_change (edit_change e).
Proof.
  intros Hb [H1 H2]. unfold ok_change, edit_change. cbn [ch_context ch_lines].
  split_and!; [done| |].
  - by destruct (before e).
  - apply Forall_app. split; apply Forall_fmap; done.
Qed.

Lemma unambiguous_before file pos es :
  unambiguous file pos es → Forall (λ e, before e ≠ []) es.
Proof.
  revert pos. induction es as [|e es IH]; intros pos; [constructor|].
  intros (? & _ & ?). constructor; [done|]. by eapply IH.
Qed.

(** The patch of a well-formed script parses to one update hunk with the script's chunks. *)
Lemma parse_edit_patch name es file :
  ok_name name → es ≠ [] → Forall ok_edit es → unambiguous file 0 es →
  PatchParser.parse_patch (edit_patch name es) =
    Ok (mkArgs (edit_patch name es) [UpdateFile name None (edit_chunk <$> es)] None None).
Proof.
  intros Hn Hne Hok Hu. unfold edit_patch. rewrite parse_printed; [|done|].
  - do 3 f_equal. simpl. f_equal. rewrite <-list_fmap_compose.
    f_equal. apply list_fmap_ext. intros _ e _. apply edit_change_chunk.
  - constructor; [|constructor]. cbn. split_and!; [done|done| |].
    + by destruct es.
    + apply Forall_fmap. apply unambiguous_before in Hu.
      eapply Forall_impl; [exact (proj2 (Forall_and _ _) (conj Hu Hok))|].
      intros e [? ?]. by apply edit_change_ok.
Qed.

Section run.
Context {FS path : Type} {HPaths : PathOps path} {HFs : ExecutorFileSystem FS path}
  {HLaws : FileSystemLaws FS path}.
Implicit Types (fs : FS) (p q : path).

(** The text [t] at [p] can be read, and any other text written there: no permission, disk
    or connection error as long as nothing has been changed. *)
Definition accessible (fs0 : FS) (p : path) (t : str) : Prop :=
  ∀ fs, same_nodes fs0 fs →
    (∃ fs', read_file_text p fs = (fs', Ok t)) ∧
    ∀ t', ∃ fs', write_file p t' fs = (fs', Ok tt).

Lemma update_in_place_run cwd p chunks affected acc fs d old new :
  accessible fs p old → lookup_node fs p = TextFile old →
  derive_new_contents old (path_native p) chunks = Ok (Some new) →
  ∃ fs' d', apply_update_hunk cwd p None chunks affected acc (fs, d) =
      ((fs', d'), Ok (mkAffected (added acc) (modified acc ++ [affected]) (deleted acc))) ∧
    lookup_node fs' p = TextFile new ∧ (∀ q, q ≠ p → lookup_node fs' q = lookup_node fs q) ∧
    changes d' = changes d ++ [mkPatchChange (path_native p) (ChangeUpdate None old None new)].
Proof.
  intros Hacc Hold Hderive. unfold apply_update_hunk, st_bind at 1.
  destruct (note_existing_path_delta_support p (fs, d)) as [[fs1 d1] r1] eqn:E1.
  apply note_existing_effect in E1 as (-> & Hs1 & Hc1 & _). simpl in Hs1, Hc1.
  destruct (Hacc fs1 Hs1) as [[fs2 E2] _].
  assert (Hs2 : ∀ q, lookup_node fs2 q = lookup_node fs q).
  { intros q. rewrite <-(Hs1 q). by eapply read_frame. }
  destruct (proj2 (Hacc fs2 Hs2) new) as [fs3 E3].
  pose proof E3 as Hw. apply write_ok in Hw as [Hp Hq]; [|by rewrite Hs2, Hold].
  exists fs3, (mkDelta (changes d ++
    [mkPatchChange (path_native p) (ChangeUpdate None old None new)]) (exact d1)).
  split_and!; [|done|intros q ?; by rewrite Hq, Hs2|done].
  unfold derive_or_fail, derive_new_contents_from_chunks, write_in_place, try_write,
    with_context, push_change, on_fs, st_bind, st_ret, st_modify. simpl.
  rewrite E2, Hderive. simpl. by rewrite E3, <-Hc1.
Qed.

(** ** Properties *)

(** C10. From patch text to file: the printed patch of an unambiguous edit script, applied by
    [apply_patch] to a file system whose file at the patch's path holds the script's old text
    and can be read and written, succeeds; afterwards the file holds the script's new lines
    (less a final blank line, see [derive_new_contents_applies_script]), every other path is as before, the delta records
    exactly this update and the output lists the file as modified. *)
Theorem apply_patch_runs_script (name old : str) (es : list edit) (tail : list str)
    (cwd p : path) (fs : FS) :
  ok_name name → es ≠ [] → Forall ok_edit es →
  original_lines_of old = old_file es tail → unambiguous (old_file es tail) 0 es →
  path_join cwd name = Ok p → accessible fs p old → lookup_node fs p = TextFile old →
  let new := terminated (without_blank_tail (new_file es tail)) in
  ∃ fs' d,
    apply_patch (edit_patch name es) cwd fs =
      (fs', mkOutputs [lit "Success. Updated the following files:"; lit "M " ++ name] [], Ok d) ∧
    text_at fs' p = Some new ∧ (∀ q, q ≠ p → lookup_node fs' q = lookup_node fs q) ∧
    changes d = [mkPatchChange (path_native p) (ChangeUpdate None old None new)].
Proof.
  intros Hname Hne Hok Hold Hu Hj Hacc Hp new.
  pose proof (derive_script old (path_native p) es tail Hold Hu) as Hd.
  rewrite contents_of_terminated in Hd. fold new in Hd.
  destruct (update_in_place_run cwd p (edit_chunk <$> es) name (mkAffected [] [] []) fs
    empty_delta old new) as (fs' & d & Hrun & Hnew & Hq & Hc); [done..|].
  exists fs', d. split_and!; [|unfold text_at; by rewrite Hnew|done|done].
  unfold apply_patch. rewrite (parse_edit_patch name es _ Hname Hne Hok Hu).
  unfold apply_hunks, apply_hunks_to_files, apply_hunk_list, apply_hunk, join_path, st_lift.
  cbn [args_hunks hunk_source_path hunk_path]. unfold st_bind at 1 2. rewrite Hj. cbn [map_err].
  by rewrite Hrun.
Qed.

End run.

(** ** A run on the in-memory file system *)

Import MemFs.

Definition ex_tree : mem_fs :=
  list_to_map [(lit "/w", Directory); (lit "/w/a", TextFile ex_contents);
               (lit "/w/b", TextFile (lit "keep"))].

Lemma mem_accessible (fs0 : mem_fs) (p d t : str) :
  mem_node fs0 p = TextFile t → mem_parent p = Some d → mem_node fs0 d = Directory →
  accessible fs0 p t.
Proof.
  intros Hp Hd Hdir fs Hs. pose proof (Hs p) as Hsp. pose proof (Hs d) as Hsd. simpl in *.
  rewrite Hp in Hsp. rewrite Hdir in Hsd. split.
  - exists fs. unfold mem_read. by rewrite Hsp.
  - intros t'. unfold mem_write. rewrite Hsp, Hd, Hsd. case_decide; [by eexists|done].
Qed.

Lemma apply_patch_runs_script_witness :
  ∃ fs' d,
    apply_patch (edit_patch (lit "a") ex_script) (lit "/w") ex_tree =
      (fs', mkOutputs [lit "Success. Updated the following files:"; lit "M a"] [], Ok d) ∧
    text_at fs' (lit "/w/a") =
      Some (lit "one" ++ [nl] ++ lit "2" ++ [nl] ++ lit "2b" ++ [nl] ++ lit "three" ++ [nl]).
Proof.
  destruct (apply_patch_runs_script (lit "a") ex_contents ex_script [lit "three"] (lit "/w")
    (lit "/w/a") ex_tree) as (fs' & d & H1 & H2 & _).
  - apply (bool_decide_eq_true_1 _). vm_compute. reflexivity.
  - discriminate.
  - apply (bool_decide_eq_true_1 _). vm_compute. reflexivity.
  - vm_compute. reflexivity.
  - simpl. split; [discriminate|]. split; [|exact I]. intros j Hj.
    assert (j = 0) as -> by lia. vm_compute. discriminate.
  - vm_compute. reflexivity.
  - apply (mem_accessible ex_tree _ (lit "/w")); vm_compute; reflexivity.
  - vm_compute. reflexivity.
  - exists fs', d. split; [exact H1|]. rewrite H2. vm_compute. reflexivity.
Defined.

End PatchRun.
