(* ===== verification/TurnDiff.v ===== *)
(** * The turn diff tracker (core/src/turn_diff_tracker.rs)

    The tracker consumes the deltas of [ApplyPatch] and keeps, per path, the text at the
    start of the turn and the current text, from which it renders one aggregated diff,
    reusing the rendered diff of paths that did not change.

    The line differ ([similar]) and the blob hash ([sha1]) are third-party code and
    [Path::strip_prefix] works on path components: the three are parameters.  A [HashMap] is
    iterated in an unspecified order in Rust; the model iterates in the order of
    [map_to_list], and no theorem depends on which order that is. *)

From stdpp Require Import prelude strings gmap sorting.
From S2P Require Import Prelude RustStr PatchTypes FileSystem ApplyPatch.
Import ApplyPatch.

Module TurnDiff.

(** [TrackedPath]: the environment id and the path. *)
Notation TrackedPath := (list N * list N)%type.

(** [TrackedContent]. *)
Record TrackedContent : Type := mkTracked { content : str; revision : nat }.

(** [DiffCacheKey]. *)
Notation DiffCacheKey := (TrackedPath * option nat * (TrackedPath * option nat))%type.

(** [TurnDiffTracker]. *)
Record TurnDiffTracker : Type := mkTracker {
  valid : bool;
  display_roots_by_environment : gmap (list N) (list N);
  baseline_by_path : gmap TrackedPath TrackedContent;
  current_by_path : gmap TrackedPath TrackedContent;
  origin_by_current_path : gmap TrackedPath TrackedPath;
  next_revision : nat;
  rendered_diffs : gmap DiffCacheKey (option (list N));
  unified_diff : option str;
}.

(** [with_environment_display_roots]; [new] is the case of no roots. *)
Definition new_tracker (roots : gmap (list N) (list N)) : TurnDiffTracker :=
  mkTracker true roots ∅ ∅ ∅ 0 ∅ None.

(** Assignments to the fields that change. *)
Definition set_maps (b c : gmap TrackedPath TrackedContent) (o : gmap TrackedPath TrackedPath)
    (n : nat) (t : TurnDiffTracker) : TurnDiffTracker :=
  mkTracker (valid t) (display_roots_by_environment t) b c o n (rendered_diffs t)
    (unified_diff t).
Definition set_rendered (r : gmap DiffCacheKey (option (list N))) (u : option str)
    (t : TurnDiffTracker) : TurnDiffTracker :=
  mkTracker (valid t) (display_roots_by_environment t) (baseline_by_path t)
    (current_by_path t) (origin_by_current_path t) (next_revision t) r u.

(** [invalidate]. *)
Definition invalidate (t : TurnDiffTracker) : TurnDiffTracker :=
  mkTracker false (display_roots_by_environment t) (baseline_by_path t) (current_by_path t)
    (origin_by_current_path t) (next_revision t) ∅ None.

(** Inserting [tracked_content(text)] into the baseline, or into the current texts. *)
Definition insert_baseline (p : TrackedPath) (text : str) (t : TurnDiffTracker) : TurnDiffTracker :=
  set_maps (<[p := mkTracked text (next_revision t)]> (baseline_by_path t))
    (current_by_path t) (origin_by_current_path t) (S (next_revision t)) t.
Definition insert_current (p : TrackedPath) (text : str) (t : TurnDiffTracker) : TurnDiffTracker :=
  set_maps (baseline_by_path t)
    (<[p := mkTracked text (next_revision t)]> (current_by_path t))
    (origin_by_current_path t) (S (next_revision t)) t.
Definition remove_current (p : TrackedPath) (t : TurnDiffTracker) : TurnDiffTracker :=
  set_maps (baseline_by_path t) (delete p (current_by_path t)) (origin_by_current_path t)
    (next_revision t) t.
Definition set_origin (o : gmap TrackedPath TrackedPath) (t : TurnDiffTracker) : TurnDiffTracker :=
  set_maps (baseline_by_path t) (current_by_path t) o (next_revision t) t.

(** A path with neither a baseline nor a current text. *)
Definition untracked (p : TrackedPath) (t : TurnDiffTracker) : bool :=
  bool_decide (current_by_path t !! p = None) && bool_decide (baseline_by_path t !! p = None).

(** [apply_add]. *)
Definition apply_add (p : TrackedPath) (text : str) (overwritten : option str)
    (t : TurnDiffTracker) : TurnDiffTracker :=
  let t := set_origin (delete p (origin_by_current_path t)) t in
  let t := match overwritten with
           | Some o => if untracked p t then insert_baseline p o t else t
           | None => t
           end in
  insert_current p text t.

(** [apply_delete]. *)
Definition apply_delete (p : TrackedPath) (text : str) (t : TurnDiffTracker) : TurnDiffTracker :=
  let fresh := untracked p t in
  let t := remove_current p t in
  let t := if fresh then insert_baseline p text t else t in
  set_origin (delete p (origin_by_current_path t)) t.

(** [apply_update]. *)
Definition apply_update (source : TrackedPath) (move_path : option TrackedPath) (old : str)
    (overwritten : option str) (new : str) (t : TurnDiffTracker) : TurnDiffTracker :=
  let t := if untracked source t then insert_baseline source old t else t in
  match move_path with
  | Some dest =>
      let t := match overwritten with
               | Some o => if untracked dest t then insert_baseline dest o t else t
               | None => t
               end in
      let origin := default source (origin_by_current_path t !! source) in
      let t := set_origin (delete source (origin_by_current_path t)) t in
      let t := remove_current source t in
      let t := insert_current dest new t in
      let t := set_origin (delete dest (origin_by_current_path t)) t in
      if decide (dest = origin) then t
      else set_origin (<[dest := origin]> (origin_by_current_path t)) t
  | None => insert_current source new t
  end.

(** [apply_change]. *)
Definition apply_change (env : str) (t : TurnDiffTracker) (c : AppliedPatchChange) :
    TurnDiffTracker :=
  let source : TrackedPath := (env, change_path c) in
  match change_of c with
  | ChangeAdd text overwritten => apply_add source text overwritten t
  | ChangeDelete text => apply_delete source text t
  | ChangeUpdate mv old overwritten new =>
      apply_update source (pair env <$> mv) old overwritten new t
  end.

(** [rename_pairs]: origin to destination. *)
Definition rename_pairs (t : TurnDiffTracker) : gmap TrackedPath TrackedPath :=
  list_to_map (omap (λ '(dest, origin),
    if bool_decide (dest = origin) || bool_decide (is_Some (current_by_path t !! origin)) ||
       bool_decide (current_by_path t !! dest = None) ||
       bool_decide (baseline_by_path t !! origin = None) ||
       bool_decide (is_Some (baseline_by_path t !! dest))
    then None else Some (origin, dest)) (map_to_list (origin_by_current_path t))).

Section rendering.
Variable text_diff : str → str → str → str → str. (* header texts, left, right *)
Variable blob_oid : str → str.
Variable path_strip_prefix : str → str → option str. (* root, path *)

Definition ZERO_OID : str := lit "0000000000000000000000000000000000000000".
Definition DEV_NULL : str := lit "/dev/null".
Definition REGULAR_FILE_MODE : str := lit "100644".
Definition backslash_to_slash (s : str) : str :=
  (λ c, if decide (c = 92%N) then 47%N else c) <$> s.

(** [display_path]. *)
Definition display_path (t : TurnDiffTracker) (p : TrackedPath) : str :=
  let display := default p.2
    (root ← display_roots_by_environment t !! p.1; path_strip_prefix root p.2) in
  let display := backslash_to_slash display in
  if (1 <? size (display_roots_by_environment t)) && bool_decide (p.1 ≠ [])
  then p.1 ++ lit "/" ++ display else display.

(** [render_diff]. *)
Definition render_diff (t : TurnDiffTracker) (left_path : TrackedPath) (left : option str)
    (right_path : TrackedPath) (right : option str) : option str :=
  if decide (left = right) then None
  else
    let left_display := display_path t left_path in
    let right_display := display_path t right_path in
    let left_oid := from_option blob_oid ZERO_OID left in
    let right_oid := from_option blob_oid ZERO_OID right in
    let head := lit "diff --git a/" ++ left_display ++ lit " b/" ++ right_display ++ [nl] in
    match left, right with
    | None, None => None
    | _, _ =>
      let mode_line := match left, right with
        | None, Some _ => lit "new file mode " ++ REGULAR_FILE_MODE ++ [nl]
        | Some _, None => lit "deleted file mode " ++ REGULAR_FILE_MODE ++ [nl]
        | _, _ => []
        end in
      let old_header := if left is Some _ then lit "a/" ++ left_display else DEV_NULL in
      let new_header := if right is Some _ then lit "b/" ++ right_display else DEV_NULL in
      Some (head ++ mode_line ++ lit "index " ++ left_oid ++ lit ".." ++ right_oid ++ [nl] ++
            text_diff old_header new_header (default [] left) (default [] right))
    end.

(** The paths of a refresh: the keys of both maps, stably sorted by display path, without
    adjacent duplicates. *)
Fixpoint str_leb (a b : str) : bool :=
  match a, b with
  | [], _ => true
  | _ :: _, [] => false
  | x :: a', y :: b' => if (x <? y)%N then true else if (x =? y)%N then str_leb a' b' else false
  end.
Fixpoint insert_by_display (t : TurnDiffTracker) (p : TrackedPath) (ps : list TrackedPath) :
    list TrackedPath :=
  match ps with
  | [] => [p]
  | p' :: ps' => if str_leb (display_path t p) (display_path t p') then p :: ps
                 else p' :: insert_by_display t p ps'
  end.
Fixpoint dedup (ps : list TrackedPath) : list TrackedPath :=
  match ps with
  | [] => []
  | p :: ps' => match ps' with
                | p' :: _ => if decide (p = p') then dedup ps' else p :: dedup ps'
                | [] => [p]
                end
  end.
Definition refresh_paths (t : TurnDiffTracker) : list TrackedPath :=
  dedup (foldr (insert_by_display t) []
    ((map_to_list (baseline_by_path t)).*1 ++ (map_to_list (current_by_path t)).*1)).

(** The loop state of [refresh_unified_diff]. *)
Record refresh_state : Type := mkRefresh {
  handled : gset TrackedPath;
  previous : gmap DiffCacheKey (option (list N));
  rendered : gmap DiffCacheKey (option (list N));
  aggregated : str;
}.

Definition cache_key (t : TurnDiffTracker) (l r : TrackedPath) : DiffCacheKey :=
  (l, revision <$> (baseline_by_path t !! l), (r, revision <$> (current_by_path t !! r))).

(** The diff of a pair of paths, rendered now. *)
Definition fresh_diff (t : TurnDiffTracker) (l r : TrackedPath) : option str :=
  render_diff t l (content <$> (baseline_by_path t !! l)) r (content <$> (current_by_path t !! r)).

(** [aggregated.push_str(diff); if !aggregated.ends_with('\n') { aggregated.push('\n') }]. *)
Definition append_diff (agg : str) (d : option str) : str :=
  match d with
  | Some diff => let agg := agg ++ diff in if ends_with [nl] agg then agg else agg ++ [nl]
  | None => agg
  end.

(** The loop body. *)
Definition refresh_step (t : TurnDiffTracker) (pairs : gmap TrackedPath TrackedPath)
    (st : refresh_state) (p : TrackedPath) : refresh_state :=
  if decide (p ∈ handled st) then st
  else
    let hs := {[p]} ∪ handled st in
    if decide (p ∈ (map_to_list pairs).*2)
    then mkRefresh hs (previous st) (rendered st) (aggregated st)
    else
      let '(r, hs) := match pairs !! p with
                      | Some dest => (dest, {[dest]} ∪ hs)
                      | None => (p, hs)
                      end in
      let key := cache_key t p r in
      let diff := match previous st !! key with
                  | Some d => d
                  | None => fresh_diff t p r
                  end in
      mkRefresh hs (delete key (previous st)) (<[key := diff]> (rendered st))
        (append_diff (aggregated st) diff).

(** [refresh_unified_diff]. *)
Definition refresh_unified_diff (t : TurnDiffTracker) : TurnDiffTracker :=
  let st := foldl (refresh_step t (rename_pairs t)) (mkRefresh ∅ (rendered_diffs t) ∅ [])
              (refresh_paths t) in
  set_rendered (rendered st) (match aggregated st with [] => None | a => Some a end) t.

(** [track_delta]. *)
Definition track_delta (env : str) (d : AppliedPatchDelta) (t : TurnDiffTracker) :
    TurnDiffTracker :=
  if negb (valid t) then t
  else if negb (exact d) then invalidate t
  else refresh_unified_diff (foldl (apply_change env) t (changes d)).

End rendering.

(** ** The two texts of every path *)

(** The text at every path of every environment. *)
Definition tracked_view : Type := TrackedPath → option str.

(** One environment of a view, and a view with one environment replaced. *)
Definition in_env (v : tracked_view) (env : str) : view := λ q, v (env, q).
Definition with_env (v : tracked_view) (env : str) (w : view) : tracked_view :=
  λ p, if decide (p.1 = env) then w p.2 else v p.

(** The tracked paths have the text of the start of the turn and the current text; the
    others have not changed. *)
Definition tracks (v0 v : tracked_view) (t : TurnDiffTracker) : Prop :=
  ∀ p, if untracked p t then v0 p = v p
       else v0 p = content <$> (baseline_by_path t !! p) ∧
            v p = content <$> (current_by_path t !! p).

Lemma untracked_true p t :
  untracked p t = true ↔ current_by_path t !! p = None ∧ baseline_by_path t !! p = None.
Proof. unfold untracked. by rewrite andb_true_iff, !bool_decide_eq_true. Qed.

(** What the maps become, path by path: the current text is replaced and a baseline is
    recorded if there was none of either. *)
Definition put (p : TrackedPath) (old new : option str) (t t' : TurnDiffTracker) : Prop :=
  content <$> (current_by_path t' !! p) = new ∧
  (content <$> (baseline_by_path t' !! p)) =
    (if untracked p t then old else content <$> (baseline_by_path t !! p)) ∧
  ∀ q, q ≠ p → baseline_by_path t' !! q = baseline_by_path t !! q ∧
               current_by_path t' !! q = current_by_path t !! q.

Lemma untracked_put p old new t t' q :
  put p old new t t' → q ≠ p → untracked q t' = untracked q t.
Proof. intros (_ & _ & Hq) Hne. unfold untracked. by destruct (Hq q Hne) as [-> ->]. Qed.

Lemma tracks_put v0 v t t' p old new :
  tracks v0 v t → v p = old → put p old new t t' →
  tracks v0 (λ q, if decide (q = p) then new else v q) t'.
Proof.
  intros Ht Hold Hput q. pose proof Hput as (Hc & Hb & Hq). specialize (Ht q).
  destruct (decide (q = p)) as [->|Hne].
  - destruct (untracked p t) eqn:E.
    + destruct (untracked p t') eqn:E'; [|by rewrite Hb, Hc, Ht, Hold].
      apply untracked_true in E' as [E1 E2]. rewrite E1 in Hc. rewrite E2 in Hb.
      simpl in *. congruence.
    + destruct Ht as [H1 H2]. destruct (untracked p t') eqn:E'; [|by rewrite Hb, Hc, H1].
      apply untracked_true in E' as [E1 E2]. rewrite E1 in Hc. rewrite E2 in Hb.
      simpl in *. congruence.
  - erewrite untracked_put by done. by destruct (Hq q Hne) as [-> ->].
Qed.

Lemma put_add p text o t : put p o (Some text) t (apply_add p text o t).
Proof.
  unfold apply_add, put. set (t1 := set_origin _ t).
  change (untracked p t1) with (untracked p t).
  destruct o as [o|], (untracked p t) eqn:E; simpl; rewrite ?lookup_insert_eq;
    (split; [done|]); (split; [|intros q Hq; by rewrite ?lookup_insert_ne]); try done.
  by apply untracked_true in E as [_ ->].
Qed.

Lemma put_delete p text t : put p (Some text) None t (apply_delete p text t).
Proof.
  unfold apply_delete, put. destruct (untracked p t) eqn:E; simpl;
    rewrite lookup_delete_eq, ?lookup_insert_eq; (split; [done|]); (split; [done|]);
    intros q Hq; by rewrite ?lookup_insert_ne, lookup_delete_ne.
Qed.

Lemma put_update p old new t : put p (Some old) (Some new) t (apply_update p None old None new t).
Proof.
  unfold apply_update, put. destruct (untracked p t) eqn:E; simpl; rewrite !lookup_insert_eq;
    (split; [done|]); (split; [done|]); intros q Hq; by rewrite !lookup_insert_ne.
Qed.

(** A move is a deletion of the source and an addition of the destination. *)
Lemma put_move p d old o new t :
  d ≠ p →
  ∃ t1, put p (Some old) None t t1 ∧
        put d o (Some new) t1 (apply_update p (Some d) old o new t).
Proof.
  intros Hne. set (t1 := if untracked p t then insert_baseline p old t else t).
  exists (remove_current p t1). split.
  - unfold put, t1. destruct (untracked p t) eqn:E; simpl; rewrite lookup_delete_eq;
      rewrite ?lookup_insert_eq; (split; [done|]); (split; [done|]); intros q Hq;
      by rewrite lookup_delete_ne, ?lookup_insert_ne.
  - unfold apply_update. fold t1. unfold put.
    assert (Hu : untracked d (remove_current p t1) = untracked d t1).
    { unfold untracked. simpl. by rewrite lookup_delete_ne. }
    set (t2 := match o with Some _ => _ | None => _ end).
    assert (H2 : (content <$> (baseline_by_path t2 !! d)) =
        (if untracked d t1 then o else content <$> (baseline_by_path t1 !! d)) ∧
      current_by_path t2 = current_by_path t1 ∧
      ∀ q, q ≠ d → baseline_by_path t2 !! q = baseline_by_path t1 !! q).
    { unfold t2. destruct o as [o|]; [destruct (untracked d t1) eqn:E|]; simpl.
      - rewrite lookup_insert_eq. split; [done|]. split; [done|]. intros q Hq.
        by rewrite lookup_insert_ne.
      - done.
      - destruct (untracked d t1) eqn:E; [|done]. by apply untracked_true in E as [_ ->]. }
    destruct H2 as (Hb & Hcur & Hq2). rewrite Hu.
    case_decide; simpl; rewrite Hcur, lookup_insert_eq; (split; [done|]); (split; [done|]);
      intros q Hq; by rewrite Hq2, lookup_insert_ne.
Qed.

Lemma tracks_ext v0 v w t : tracks v0 v t → (∀ p, v p = w p) → tracks v0 w t.
Proof. intros Ht Hvw p. rewrite <-Hvw. apply Ht. Qed.

Lemma with_env_upd v env p x q :
  with_env v env (upd (in_env v env) p x) q = if decide (q = (env, p)) then x else v q.
Proof.
  unfold with_env, upd, in_env. destruct q as [e q]. simpl.
  repeat case_decide; simplify_eq; done.
Qed.

Lemma tracks_change v0 v env t c :
  tracks v0 v t → preimage_ok (in_env v env) c →
  tracks v0 (with_env v env (replay_change (in_env v env) c)) (apply_change env t c).
Proof.
  intros Ht Hpre. unfold preimage_ok in Hpre. unfold replay_change, apply_change.
  destruct (change_of c) as [text o|text|[d|] old o new]; simpl fmap.
  - eapply tracks_ext; [by eapply tracks_put; [| |apply put_add]|].
    intros q. by rewrite with_env_upd.
  - eapply tracks_ext; [by eapply tracks_put; [| |apply put_delete]|].
    intros q. by rewrite with_env_upd.
  - destruct Hpre as (Hold & Hd & Ho).
    destruct (put_move (env, change_path c) (env, d) old o new t) as (t1 & H1 & H2);
      [congruence|].
    eapply tracks_ext.
    + eapply tracks_put; [eapply tracks_put; [exact Ht|exact Hold|exact H1]| |exact H2]. simpl.
      rewrite decide_False by congruence. exact Ho.
    + intros [e q]. unfold with_env, upd, in_env. simpl.
      repeat case_decide; simplify_eq; done.
  - eapply tracks_ext; [by eapply tracks_put; [| |apply put_update]|].
    intros q. by rewrite with_env_upd.
Qed.

(** Views are compared path by path. *)
Notation view_eq := (pointwise_relation (list N) (@eq (option (list N)))).

#[global] Instance upd_proper : Proper (view_eq ==> eq ==> eq ==> view_eq) upd.
Proof. intros v w Hvw p ? <- x ? <- q. unfold upd. case_decide; [done|apply Hvw]. Qed.

#[global] Instance replay_change_proper : Proper (view_eq ==> eq ==> view_eq) replay_change.
Proof.
  intros v w Hvw c ? <-. unfold replay_change.
  destruct (change_of c) as [| |[]]; by rewrite Hvw.
Qed.

#[global] Instance preimage_ok_proper : Proper (view_eq ==> eq ==> iff) preimage_ok.
Proof.
  intros v w Hvw c ? <-. unfold preimage_ok.
  destruct (change_of c) as [| |[]]; by rewrite !Hvw.
Qed.

#[global] Instance preimages_ok_proper : Proper (view_eq ==> eq ==> iff) preimages_ok.
Proof.
  intros v w Hvw cs ? <-. revert v w Hvw. induction cs as [|c cs IH]; intros v w Hvw; [done|].
  simpl. rewrite (IH (replay_change v c) (replay_change w c)) by by rewrite Hvw.
  by rewrite Hvw.
Qed.

#[global] Instance replay_proper : Proper (view_eq ==> eq ==> view_eq) replay.
Proof.
  intros v w Hvw cs ? <-. revert v w Hvw. induction cs as [|c cs IH]; intros v w Hvw; [done|].
  simpl. apply IH. by rewrite Hvw.
Qed.

Lemma with_env_in v env w q : with_env v env w (env, q) = w q.
Proof. unfold with_env. by rewrite decide_True. Qed.

Lemma with_env_out v env e w q : e ≠ env → with_env v env w (e, q) = v (e, q).
Proof. intros. unfold with_env. by rewrite decide_False. Qed.

Lemma in_env_with_env v env w : view_eq (in_env (with_env v env w) env) w.
Proof. intros q. apply with_env_in. Qed.

Lemma tracks_changes v0 v env t cs :
  tracks v0 v t → preimages_ok (in_env v env) cs →
  tracks v0 (with_env v env (replay (in_env v env) cs)) (foldl (apply_change env) t cs).
Proof.
  revert v t. induction cs as [|c cs IH]; intros v t Ht Hpre.
  - eapply tracks_ext; [exact Ht|]. intros [e q]. unfold with_env, in_env. simpl.
    case_decide; by simplify_eq.
  - destruct Hpre as [Hc Hcs]. simpl. eapply tracks_ext.
    + apply IH; [by apply tracks_change|]. by rewrite in_env_with_env.
    + intros [e q]. destruct (decide (e = env)) as [->|Hne].
      * rewrite !with_env_in. apply replay_proper; [apply in_env_with_env|done].
      * by rewrite !with_env_out.
Qed.

(** ** The cache of rendered diffs *)

Section cache.
Variable text_diff : str → str → str → str → str.
Variable blob_oid : str → str.
Variable path_strip_prefix : str → str → option str.
Notation render_diff := (render_diff text_diff blob_oid path_strip_prefix).
Notation fresh_diff := (fresh_diff text_diff blob_oid path_strip_prefix).
Notation refresh_step := (refresh_step text_diff blob_oid path_strip_prefix).
Notation refresh_paths := (refresh_paths path_strip_prefix).
Notation refresh_unified_diff := (refresh_unified_diff text_diff blob_oid path_strip_prefix).
Notation track_delta := (track_delta text_diff blob_oid path_strip_prefix).

(** A revision number stands for one text: [hist] says which. *)
Definition revs_ok (hist : nat → str) (n : nat) (m : gmap TrackedPath TrackedContent) : Prop :=
  ∀ p c, m !! p = Some c → hist (revision c) = content c ∧ revision c < n.

Definition cached_ok (hist : nat → str) (t : TurnDiffTracker) : Prop :=
  ∀ l lr r rr d, rendered_diffs t !! (l, lr, (r, rr)) = Some d →
  (∀ n, lr = Some n ∨ rr = Some n → n < next_revision t) ∧
  d = render_diff t l (hist <$> lr) r (hist <$> rr).

Definition cache_sound (t : TurnDiffTracker) : Prop :=
  ∃ hist, revs_ok hist (next_revision t) (baseline_by_path t) ∧
          revs_ok hist (next_revision t) (current_by_path t) ∧ cached_ok hist t.

Definition note_rev (hist : nat → str) (n : nat) (text : str) : nat → str :=
  λ k, if decide (k = n) then text else hist k.

Lemma note_rev_fmap hist n text (o : option nat) :
  (∀ k, o = Some k → k < n) → note_rev hist n text <$> o = hist <$> o.
Proof.
  intros Ho. destruct o as [k|]; [|done]. simpl. unfold note_rev.
  rewrite decide_False; [done|]. specialize (Ho k eq_refl). lia.
Qed.

Lemma revs_ok_old hist n text m : revs_ok hist n m → revs_ok (note_rev hist n text) (S n) m.
Proof.
  intros Hm p c Hp. destruct (Hm p c Hp). unfold note_rev.
  rewrite decide_False by lia. split; [done|lia].
Qed.

Lemma revs_ok_insert hist n text m p :
  revs_ok hist n m → revs_ok (note_rev hist n text) (S n) (<[p := mkTracked text n]> m).
Proof.
  intros Hm q c Hq. destruct (decide (p = q)) as [->|Hne].
  - rewrite lookup_insert_eq in Hq. simplify_eq/=. unfold note_rev.
    rewrite decide_True by done. split; [done|lia].
  - rewrite lookup_insert_ne in Hq by done. by apply (revs_ok_old hist n text m Hm q).
Qed.

Lemma cached_ok_bump hist text t t' :
  cached_ok hist t → rendered_diffs t' = rendered_diffs t →
  display_roots_by_environment t' = display_roots_by_environment t →
  next_revision t' = S (next_revision t) →
  cached_ok (note_rev hist (next_revision t) text) t'.
Proof.
  intros Hc Hr Hd Hn l lr r rr d Hl. rewrite Hr in Hl. destruct (Hc _ _ _ _ _ Hl) as [Hb ->].
  split; [intros n Hn'; specialize (Hb n Hn'); lia|].
  rewrite !note_rev_fmap by eauto. unfold TurnDiff.render_diff, display_path. by rewrite Hd.
Qed.

Lemma cache_sound_insert_baseline p text t :
  cache_sound t → cache_sound (insert_baseline p text t).
Proof.
  intros (hist & Hb & Hc & Hr). exists (note_rev hist (next_revision t) text). simpl.
  split_and!; [by apply revs_ok_insert|by apply revs_ok_old|by eapply cached_ok_bump].
Qed.

Lemma cache_sound_insert_current p text t :
  cache_sound t → cache_sound (insert_current p text t).
Proof.
  intros (hist & Hb & Hc & Hr). exists (note_rev hist (next_revision t) text). simpl.
  split_and!; [by apply revs_ok_old|by apply revs_ok_insert|by eapply cached_ok_bump].
Qed.

Lemma cache_sound_remove_current p t : cache_sound t → cache_sound (remove_current p t).
Proof.
  intros (hist & Hb & Hc & Hr). exists hist. split_and!; [done| |done].
  intros q c. simpl. rewrite lookup_delete_Some. intros [_ Hq]. by apply (Hc q).
Qed.

Lemma cache_sound_set_origin o t : cache_sound t → cache_sound (set_origin o t).
Proof. done. Qed.

Create HintDb tracker.
Hint Resolve cache_sound_insert_baseline cache_sound_insert_current
  cache_sound_remove_current cache_sound_set_origin : tracker.

Lemma cache_sound_change env t c : cache_sound t → cache_sound (apply_change env t c).
Proof.
  intros Hs. unfold apply_change, apply_add, apply_delete, apply_update.
  destruct (change_of c) as [text o|text|mv old o new];
    repeat case_match; auto 10 with tracker.
Qed.

Lemma cache_sound_changes env t cs :
  cache_sound t → cache_sound (foldl (apply_change env) t cs).
Proof. revert t. induction cs; intros t Ht; simpl; [done|]. by apply IHcs, cache_sound_change. Qed.

Lemma hist_content hist n m p :
  revs_ok hist n m → hist <$> (revision <$> (m !! p)) = content <$> (m !! p).
Proof.
  intros Hm. destruct (m !! p) as [c|] eqn:E; [|done]. simpl. by destruct (Hm p c E) as [-> _].
Qed.

(** A cached diff is the diff that would be rendered now. *)
Lemma cache_hit t l r d :
  cache_sound t → rendered_diffs t !! cache_key t l r = Some d → d = fresh_diff t l r.
Proof.
  intros (hist & Hb & Hc & Hr) Hk. destruct (Hr _ _ _ _ _ Hk) as [_ ->].
  erewrite !hist_content by done. done.
Qed.

(** The loop of a refresh, with and without the cache. *)
Definition sound_prev (t : TurnDiffTracker) (st : refresh_state) : Prop :=
  ∀ l r d, previous st !! cache_key t l r = Some d → d = fresh_diff t l r.

Definition new_entries (t : TurnDiffTracker) (st : refresh_state) : Prop :=
  ∀ k d, rendered st !! k = Some d → ∃ l r, k = cache_key t l r ∧ d = fresh_diff t l r.

Lemma refresh_step_spec t pairs st p :
  sound_prev t st → new_entries t st →
  let st' := refresh_step t pairs st p in
  sound_prev t st' ∧ new_entries t st' ∧
  ((p ∈ handled st ∧ st' = st) ∨
   (p ∉ handled st ∧ p ∈ (map_to_list pairs).*2 ∧ handled st' = {[p]} ∪ handled st ∧
      rendered st' = rendered st ∧ aggregated st' = aggregated st) ∨
   (p ∉ handled st ∧ p ∉ (map_to_list pairs).*2 ∧
      let r := default p (pairs !! p) in
      handled st' = (match pairs !! p with Some d => {[d]} | None => ∅ end) ∪
                    ({[p]} ∪ handled st) ∧
      rendered st' = <[cache_key t p r := fresh_diff t p r]> (rendered st) ∧
      aggregated st' = append_diff (aggregated st) (fresh_diff t p r))).
Proof.
  intros Hsp Hne. unfold TurnDiff.refresh_step.
  destruct (decide (p ∈ handled st)); [by auto|].
  destruct (decide (p ∈ (map_to_list pairs).*2)); [by auto 10|].
  set (r := default p (pairs !! p)).
  assert (Hd : (match previous st !! cache_key t p r with
                | Some d => d | None => fresh_diff t p r end) = fresh_diff t p r).
  { destruct (previous st !! cache_key t p r) eqn:E; [by eapply Hsp|done]. }
  assert (Hsp' : ∀ hs agg,
    sound_prev t (mkRefresh hs (delete (cache_key t p r) (previous st))
      (<[cache_key t p r := fresh_diff t p r]> (rendered st)) agg)).
  { intros hs agg l r' d. simpl. rewrite lookup_delete_Some. intros [_ ?]. by eapply Hsp. }
  assert (Hne' : ∀ hs agg,
    new_entries t (mkRefresh hs (delete (cache_key t p r) (previous st))
      (<[cache_key t p r := fresh_diff t p r]> (rendered st)) agg)).
  { intros hs agg k d. simpl. rewrite lookup_insert_Some. intros [[<- <-]|[_ ?]]; eauto. }
  destruct (pairs !! p) as [dest|] eqn:Ep; simpl in r; subst r; rewrite Hd;
    (split; [done|]); (split; [done|]); right; right; (split; [done|]); (split; [done|]);
    cbn zeta; (split; [set_solver|done]).
Qed.

Lemma append_diff_nil agg d : append_diff agg d = [] ↔ agg = [] ∧ d = None.
Proof.
  destruct d as [d|]; simpl; [|naive_solver]. split; [|naive_solver]. intros H. exfalso.
  case_match eqn:E; [|by destruct (agg ++ d)]. rewrite H in E. by vm_compute in E.
Qed.

(** The fields a refresh is about. *)
Definition same_output (st st' : refresh_state) : Prop :=
  handled st = handled st' ∧ rendered st = rendered st' ∧ aggregated st = aggregated st'.

Lemma refresh_step_lockstep t pairs st st' p :
  sound_prev t st → new_entries t st → sound_prev t st' → new_entries t st' →
  same_output st st' → same_output (refresh_step t pairs st p) (refresh_step t pairs st' p).
Proof.
  intros Hs Hn Hs' Hn' (Hh & Hr & Ha).
  destruct (refresh_step_spec t pairs st p Hs Hn) as (_ & _ & H1).
  destruct (refresh_step_spec t pairs st' p Hs' Hn') as (_ & _ & H2).
  rewrite <-Hh in H2. unfold same_output. cbn zeta in *.
  destruct H1 as [[? ->]|[(? & ? & -> & -> & ->)|(? & ? & -> & -> & ->)]],
    H2 as [[? ->]|[(? & ? & -> & -> & ->)|(? & ? & -> & -> & ->)]]; try done;
    by rewrite ?Hr, ?Ha.
Qed.

Lemma refresh_loop t pairs ps st st' :
  sound_prev t st → new_entries t st → sound_prev t st' → new_entries t st' →
  same_output st st' →
  let run := foldl (refresh_step t pairs) in
  same_output (run st ps) (run st' ps) ∧ new_entries t (run st ps).
Proof.
  revert st st'. induction ps as [|p ps IH]; intros st st' Hs Hn Hs' Hn' Ho; [done|]. simpl.
  destruct (refresh_step_spec t pairs st p Hs Hn) as (? & ? & _).
  destruct (refresh_step_spec t pairs st' p Hs' Hn') as (? & ? & _).
  apply IH; [done..|]. by apply refresh_step_lockstep.
Qed.

Lemma sound_prev_init t :
  cache_sound t → sound_prev t (mkRefresh ∅ (rendered_diffs t) ∅ []).
Proof. intros Hc l r d. simpl. by apply cache_hit. Qed.

Lemma sound_prev_empty t hs rend agg : sound_prev t (mkRefresh hs ∅ rend agg).
Proof. intros l r d. simpl. by rewrite lookup_empty. Qed.

(** Forgetting the cache. *)
Definition clear_cache (t : TurnDiffTracker) : TurnDiffTracker :=
  set_rendered ∅ (unified_diff t) t.

Lemma new_entries_empty t hs prev agg : new_entries t (mkRefresh hs prev ∅ agg).
Proof. intros k d. simpl. by rewrite lookup_empty. Qed.

Lemma refresh_paths_clear t : refresh_paths (clear_cache t) = refresh_paths t.
Proof.
  unfold TurnDiff.refresh_paths. f_equal. simpl. apply foldr_ext; [|done..].
  intros p ps. induction ps as [|p' ps IH]; [done|]. simpl. by rewrite IH.
Qed.

Lemma refresh_cache_free t :
  cache_sound t →
  unified_diff (refresh_unified_diff t) = unified_diff (refresh_unified_diff (clear_cache t)).
Proof.
  intros Hc.
  destruct (refresh_loop t (rename_pairs t) (refresh_paths t)
    (mkRefresh ∅ (rendered_diffs t) ∅ []) (mkRefresh ∅ ∅ ∅ [])) as [(_ & _ & Ha) _];
    [by apply sound_prev_init|apply new_entries_empty|apply sound_prev_empty
    |apply new_entries_empty|done|].
  unfold TurnDiff.refresh_unified_diff. simpl. by rewrite Ha, refresh_paths_clear.
Qed.

Lemma cache_sound_refresh t : cache_sound t → cache_sound (refresh_unified_diff t).
Proof.
  intros Hc.
  destruct (refresh_loop t (rename_pairs t) (refresh_paths t)
    (mkRefresh ∅ (rendered_diffs t) ∅ []) (mkRefresh ∅ (rendered_diffs t) ∅ [])) as [_ Hn];
    [by apply sound_prev_init|apply new_entries_empty|by apply sound_prev_init
    |apply new_entries_empty|done|].
  destruct Hc as (hist & Hb & Hcu & _). exists hist. split_and!; [done..|].
  intros l lr r rr d (l' & r' & Hk & ->)%Hn. unfold cache_key in Hk. simplify_eq. split.
  - intros n [Hn'|Hn']; apply fmap_Some in Hn' as (c & E & ->); [by eapply Hb|by eapply Hcu].
  - by erewrite !hist_content.
Qed.

Lemma cache_sound_new roots : cache_sound (new_tracker roots).
Proof. exists (λ _, []). split_and!; repeat intro; by simplify_map_eq. Qed.

Lemma cache_sound_invalidate t : cache_sound t → cache_sound (invalidate t).
Proof.
  intros (hist & Hb & Hcu & _). exists hist. split_and!; [done..|]. repeat intro.
  by simplify_map_eq.
Qed.

Lemma cache_sound_track env d t : cache_sound t → cache_sound (track_delta env d t).
Proof.
  intros Hc. unfold TurnDiff.track_delta.
  repeat case_match; auto using cache_sound_invalidate, cache_sound_refresh, cache_sound_changes.
Qed.

(** What a tracker can become: any deltas, in any order, and explicit invalidations. *)
Inductive reachable : TurnDiffTracker → Prop :=
| reach_new roots : reachable (new_tracker roots)
| reach_track env d t : reachable t → reachable (track_delta env d t)
| reach_invalidate t : reachable t → reachable (invalidate t).

Lemma reachable_sound t :
  reachable t → cache_sound t ∧ (valid t = false → unified_diff t = None).
Proof.
  induction 1 as [|env d t _ [Hc Hv]|t _ [Hc Hv]].
  - split; [apply cache_sound_new|done].
  - split; [by apply cache_sound_track|]. unfold TurnDiff.track_delta.
    destruct (valid t) eqn:E; simpl; [|by rewrite E]. case_match; [done|]. simpl.
    assert (valid (foldl (apply_change env) t (changes d)) = true) as ->; [|done].
    clear -E. revert t E. induction (changes d) as [|c cs IH]; intros t E; [done|]. apply IH.
    unfold apply_change, apply_add, apply_delete, apply_update. by repeat case_match.
  - split; [by apply cache_sound_invalidate|done].
Qed.

Lemma insert_baseline_clear p o t :
  (if untracked p (clear_cache t) then insert_baseline p o (clear_cache t) else clear_cache t) =
  clear_cache (if untracked p t then insert_baseline p o t else t).
Proof. change (untracked p (clear_cache t)) with (untracked p t). by destruct (untracked p t). Qed.

Lemma apply_change_clear env t c :
  apply_change env (clear_cache t) c = clear_cache (apply_change env t c).
Proof.
  unfold apply_change, apply_add, apply_delete, apply_update.
  destruct (change_of c) as [text [o|]|text|[d|] old [o|] new]; simpl; try done.
  - change (set_origin ?o (clear_cache t)) with (clear_cache (set_origin o t)).
    by rewrite insert_baseline_clear.
  - change (untracked ?p (clear_cache t)) with (untracked p t). by destruct (untracked _ t).
  - rewrite !insert_baseline_clear. simpl. by case_decide.
  - rewrite !insert_baseline_clear. simpl. by case_decide.
  - by rewrite !insert_baseline_clear.
  - by rewrite !insert_baseline_clear.
Qed.

Lemma apply_changes_clear env t cs :
  foldl (apply_change env) (clear_cache t) cs = clear_cache (foldl (apply_change env) t cs).
Proof. revert t. induction cs as [|c cs IH]; intros t; [done|]. simpl. by rewrite apply_change_clear. Qed.

(** *** When the diff is empty *)

(** The path whose current text is compared with the baseline of [p]. *)
Definition compared_with (t : TurnDiffTracker) (p : TrackedPath) : TrackedPath :=
  default p (rename_pairs t !! p).
Definition rename_destination (t : TurnDiffTracker) (p : TrackedPath) : Prop :=
  p ∈ (map_to_list (rename_pairs t)).*2.
#[local] Instance rename_destination_dec t p : Decision (rename_destination t p).
Proof. unfold rename_destination. apply _. Defined.

Lemma refresh_loop_empty t ps st :
  sound_prev t st → new_entries t st →
  (∀ p, p ∈ handled st → rename_destination t p ∨
        (aggregated st = [] → fresh_diff t p (compared_with t p) = None)) →
  aggregated (foldl (refresh_step t (rename_pairs t)) st ps) = [] ↔
  aggregated st = [] ∧
  ∀ p, p ∈ ps → ¬ rename_destination t p → fresh_diff t p (compared_with t p) = None.
Proof.
  revert st. induction ps as [|p ps IH]; intros st Hs Hn Hh; simpl; [set_solver|].
  destruct (refresh_step_spec t (rename_pairs t) st p Hs Hn) as (Hs' & Hn' & Hcase).
  cbn zeta in Hcase. fold (compared_with t p) in Hcase.
  destruct Hcase as [[Hp Heq]|[(Hp & Hd & Hh' & _ & Ha)|(Hp & Hd & Hh' & _ & Ha)]];
    (rewrite IH; [|done..|]).
  - rewrite Heq. setoid_rewrite elem_of_cons. destruct (Hh p Hp); naive_solver.
  - by rewrite Heq.
  - rewrite Ha. setoid_rewrite elem_of_cons. naive_solver.
  - rewrite Hh', Ha. intros q [->%elem_of_singleton|?]%elem_of_union; [by left|by apply Hh].
  - rewrite Ha, append_diff_nil. setoid_rewrite elem_of_cons. naive_solver.
  - rewrite Hh', Ha. setoid_rewrite append_diff_nil. intros q Hq.
    assert (q ∈ handled st ∨ q = p ∨ rename_destination t q) as [?|[->|?]]; [|naive_solver..].
    destruct (rename_pairs t !! p) as [d|] eqn:E; [|set_solver].
    apply elem_of_union in Hq as [->%elem_of_singleton|Hq]; [|set_solver].
    right; right. apply list_elem_of_fmap. exists (p, d). split; [done|]. by apply elem_of_map_to_list.
Qed.

Lemma elem_of_keys (m : gmap TrackedPath TrackedContent) p :
  p ∈ (map_to_list m).*1 ↔ is_Some (m !! p).
Proof.
  rewrite list_elem_of_fmap. split.
  - intros ([q c] & -> & Hq%elem_of_map_to_list). by exists c.
  - intros [c Hc]. exists (p, c). split; [done|]. by apply elem_of_map_to_list.
Qed.

Lemma insert_by_display_perm t p ps :
  insert_by_display path_strip_prefix t p ps ≡ₚ p :: ps.
Proof.
  induction ps as [|p' ps IH]; [done|]. simpl. case_match; [done|].
  by rewrite IH, Permutation_swap.
Qed.

Lemma dedup_elem p ps : p ∈ dedup ps ↔ p ∈ ps.
Proof.
  induction ps as [|p' ps IH]; [done|]. simpl.
  destruct ps as [|p2 ps]; [done|]. case_decide; [subst; rewrite IH; set_solver|].
  rewrite elem_of_cons, IH. set_solver.
Qed.

Lemma refresh_paths_elem t p : p ∈ refresh_paths t ↔ untracked p t = false.
Proof.
  unfold TurnDiff.refresh_paths. rewrite dedup_elem.
  assert (∀ ps, foldr (insert_by_display path_strip_prefix t) [] ps ≡ₚ ps) as ->.
  { induction ps as [|q ps IH]; [done|]. simpl. by rewrite insert_by_display_perm, IH. }
  rewrite elem_of_app, !elem_of_keys, <-not_true_iff_false, untracked_true, !eq_None_not_Some.
  destruct (decide (is_Some (baseline_by_path t !! p))),
    (decide (is_Some (current_by_path t !! p))); tauto.
Qed.

Lemma fresh_diff_none t l r :
  fresh_diff t l r = None ↔
  content <$> (baseline_by_path t !! l) = content <$> (current_by_path t !! r).
Proof.
  unfold TurnDiff.fresh_diff, TurnDiff.render_diff. case_decide; [done|].
  destruct (baseline_by_path t !! l), (current_by_path t !! r); simpl in *; naive_solver.
Qed.

Lemma refresh_none_iff t :
  cache_sound t →
  unified_diff (refresh_unified_diff t) = None ↔
  ∀ p, untracked p t = false → ¬ rename_destination t p →
    content <$> (baseline_by_path t !! p) = content <$> (current_by_path t !! compared_with t p).
Proof.
  intros Hc. pose proof (refresh_loop_empty t (refresh_paths t) _ (sound_prev_init t Hc)
    (new_entries_empty _ _ _ _)) as Hst.
  unfold TurnDiff.refresh_unified_diff. simpl. simpl in Hst.
  setoid_rewrite refresh_paths_elem in Hst. setoid_rewrite fresh_diff_none in Hst.
  specialize (Hst ltac:(set_solver)). destruct (aggregated _); naive_solver.
Qed.

End cache.

(** ** Turns *)

Lemma rename_pairs_Some t o d :
  rename_pairs t !! o = Some d →
  is_Some (baseline_by_path t !! o) ∧ is_Some (current_by_path t !! d).
Proof.
  intros H%elem_of_list_to_map_2. apply list_elem_of_omap in H as ([d' o'] & _ & H).
  case_match eqn:E; simplify_eq. bool_to_prop.
  split; apply not_eq_None_Some; done.
Qed.

Lemma tracked_some t p :
  is_Some (baseline_by_path t !! p) ∨ is_Some (current_by_path t !! p) → untracked p t = false.
Proof.
  intros H. apply not_true_iff_false. rewrite untracked_true. intros [H1 H2].
  rewrite H1, H2 in H. destruct H as [[]|[]]; done.
Qed.

Lemma tracks_tracked v0 v t p :
  tracks v0 v t → untracked p t = false →
  v0 p = content <$> (baseline_by_path t !! p) ∧ v p = content <$> (current_by_path t !! p).
Proof. intros Ht Hp. specialize (Ht p). by rewrite Hp in Ht. Qed.

Section turns.
Variable text_diff : str → str → str → str → str.
Variable blob_oid : str → str.
Variable path_strip_prefix : str → str → option str.
Notation refresh_unified_diff := (refresh_unified_diff text_diff blob_oid path_strip_prefix).
Notation track_delta := (track_delta text_diff blob_oid path_strip_prefix).
Notation cache_sound := (cache_sound text_diff blob_oid path_strip_prefix).
Notation reachable := (reachable text_diff blob_oid path_strip_prefix).

(** A turn: every delta is exact and describes a change of the texts of its environment. *)
Inductive turn (v0 : tracked_view) : tracked_view → TurnDiffTracker → Prop :=
| turn_start roots : turn v0 v0 (new_tracker roots)
| turn_track v t env d :
    turn v0 v t → exact d = true → preimages_ok (in_env v env) (changes d) →
    turn v0 (with_env v env (replay (in_env v env) (changes d))) (track_delta env d t).

Lemma apply_changes_valid env t cs :
  valid (foldl (apply_change env) t cs) = valid t.
Proof.
  revert t. induction cs as [|c cs IH]; intros t; [done|]. simpl. rewrite IH.
  unfold apply_change, apply_add, apply_delete, apply_update.
  destruct (change_of c); by repeat case_match.
Qed.

Lemma track_exact env d t :
  valid t = true → exact d = true →
  track_delta env d t = refresh_unified_diff (foldl (apply_change env) t (changes d)).
Proof. intros Hv Hx. unfold TurnDiff.track_delta. by rewrite Hv, Hx. Qed.

Lemma turn_invariant v0 v t :
  turn v0 v t → tracks v0 v t ∧ valid t = true ∧ cache_sound t.
Proof.
  induction 1 as [roots|v t env d _ (Ht & Hv & Hc) Hx Hpre].
  - split_and!; [|done|apply cache_sound_new]. intros p. done.
  - split_and!; [| |by apply cache_sound_track].
    + rewrite track_exact by done. exact (tracks_changes v0 v env t (changes d) Ht Hpre).
    + rewrite track_exact by done. simpl. by rewrite apply_changes_valid.
Qed.

(** The comparison of the refresh loop, on the texts. *)
Lemma compared_texts v0 v t :
  tracks v0 v t →
  (∀ p, untracked p t = false → ¬ rename_destination t p →
     content <$> (baseline_by_path t !! p) = content <$> (current_by_path t !! compared_with t p)) ↔
  (∀ p, ¬ rename_destination t p → v (compared_with t p) = v0 p).
Proof.
  intros Ht.
  assert (Hcmp : ∀ p, untracked p t = false → untracked (compared_with t p) t = false).
  { intros p Hp. unfold compared_with. destruct (rename_pairs t !! p) as [d|] eqn:E; [|done].
    apply rename_pairs_Some in E as [_ ?]. apply tracked_some. by right. }
  assert (Heq : ∀ p, untracked p t = false →
    (content <$> (baseline_by_path t !! p) = content <$> (current_by_path t !! compared_with t p)
     ↔ v (compared_with t p) = v0 p)).
  { intros p Hp. destruct (tracks_tracked v0 v t p Ht Hp) as [-> _].
    destruct (tracks_tracked v0 v t _ Ht (Hcmp p Hp)) as [_ ->]. done. }
  split; intros H p; [|by intros Hp Hd; apply Heq, H].
  intros Hd. destruct (untracked p t) eqn:Hp; [|by apply Heq, H].
  unfold compared_with. destruct (rename_pairs t !! p) as [d|] eqn:E.
  - apply rename_pairs_Some in E as [? _]. rewrite tracked_some in Hp by auto. done.
  - specialize (Ht p). rewrite Hp in Ht. done.
Qed.

(** ** Properties *)

(** The cache of rendered diffs is unobservable: for a tracker reached by any deltas and
    invalidations, tracking one more delta gives the same unified diff as tracking it with
    an empty cache, which renders every path anew. *)
Theorem track_delta_cache_free (t : TurnDiffTracker) (env : str) (d : AppliedPatchDelta) :
  reachable t →
  unified_diff (track_delta env d t) = unified_diff (track_delta env d (clear_cache t)).
Proof.
  intros [Hc _]%reachable_sound. unfold TurnDiff.track_delta. simpl.
  destruct (valid t); [|done]. destruct (exact d); [|done]. simpl.
  rewrite apply_changes_clear. by apply refresh_cache_free, cache_sound_changes.
Qed.

(** An inexact delta invalidates the tracker for good: whatever is tracked afterwards,
    no diff is shown. *)
Theorem inexact_delta_final (t : TurnDiffTracker) (env : str) (d : AppliedPatchDelta)
    (later : list (str * AppliedPatchDelta)) :
  reachable t → exact d = false →
  unified_diff (foldl (λ t x, track_delta x.1 x.2 t) (track_delta env d t) later) = None.
Proof.
  intros [_ Hu]%reachable_sound Hx.
  assert (Hstay : ∀ t', valid t' = false →
    foldl (λ t x, track_delta x.1 x.2 t) t' later = t').
  { intros t' Hv. induction later as [|x later IH]; [done|]. simpl.
    unfold TurnDiff.track_delta at 2. by rewrite Hv. }
  unfold TurnDiff.track_delta at 2. destruct (valid t) eqn:Hv; simpl.
  - rewrite Hx. simpl. by rewrite Hstay.
  - rewrite Hstay; auto.
Qed.

(** The diff is empty exactly when there is nothing to show: every path that is not the
    destination of a rename now has, at the place it was moved to if it was, the text it had
    at the start of the turn. *)
Theorem unified_diff_none_iff (v0 v : tracked_view) (t : TurnDiffTracker) :
  turn v0 v t →
  unified_diff t = None ↔
  ∀ p, ¬ rename_destination t p → v (compared_with t p) = v0 p.
Proof.
  intros H. pose proof (turn_invariant _ _ _ H) as (Ht & _ & _).
  destruct H as [roots|v t env d H Hx Hpre].
  - split; [|done]. intros _ p _. unfold compared_with.
    assert (rename_pairs (new_tracker roots) = ∅) as -> by done. by rewrite lookup_empty.
  - apply turn_invariant in H as (_ & Hv & Hc). revert Ht.
    rewrite track_exact by done. intros Ht.
    rewrite refresh_none_iff by by apply cache_sound_changes.
    by apply compared_texts in Ht.
Qed.

(** Patches applied to the file systems of several environments, each tracked: as long as the
    deltas are exact and no patch renames a file to itself or names a dangling link. *)
Section sessions.
Context {FS path : Type} {HPaths : PathOps path} {HFs : ExecutorFileSystem FS path}
  {HLaws : FileSystemLaws FS path} {HEq : EqDecision path}
  {HInj : Inj (=) (=) (path_native (path:=path))}.
Implicit Types fss : list N → FS.

Inductive session fss0 : (list N → FS) → TurnDiffTracker → Prop :=
| session_start roots : session fss0 fss0 (new_tracker roots)
| session_patch fss t env hs cwd fs' out r :
    session fss0 fss t → Forall (recordable (fss env) cwd) hs →
    apply_hunks hs cwd (fss env) = (fs', out, r) → exact (delta_of r) = true →
    session fss0 (λ e, if decide (e = env) then fs' else fss e)
      (track_delta env (delta_of r) t).

Definition texts_of fss (v : tracked_view) : Prop :=
  ∀ env q, v (env, path_native q) = text_at (fss env) q.

Lemma session_turn v0 fss0 fss t :
  texts_of fss0 v0 → session fss0 fss t → ∃ v, texts_of fss v ∧ turn v0 v t.
Proof.
  intros Hv0. induction 1 as [roots|fss t env hs cwd fs' out r _ (v & Hv & Ht) HF Hrun Hx].
  - exists v0. split; [done|constructor].
  - destruct (apply_hunks_consistent (in_env v env) hs cwd _ _ _ _ (Hv env) HF Hrun Hx)
      as (Hpre & Hrep & _).
    eexists. split; [|by constructor]. intros e q. unfold with_env. simpl.
    case_decide; [subst; apply Hrep|apply Hv].
Qed.

(** C16. The tracker follows the file systems: after any sequence of patches, in any
    environments, whose deltas are exact, the tracker is valid, the baseline it holds of a
    tracked file is its text at the start of the turn and the current text is what is on
    disk, and a file it does not track has not changed.  This is without rereading a file.
    Conditions: no patch renames a file to itself (the file is then lost, see
    [self_rename_loses_file]) or names a dangling symbolic link; different paths have different
    native texts; nothing but the patches changes the files; and the file systems keep the laws
    of their interface, by which different paths are different files, so that there are no hard
    links and no linked directories. *)
Theorem tracker_follows_files (v0 : tracked_view) fss0 fss (t : TurnDiffTracker) :
  texts_of fss0 v0 → session fss0 fss t →
  valid t = true ∧
  ∀ env q, let p := (env, path_native q) in
    if untracked p t then text_at (fss env) q = text_at (fss0 env) q
    else content <$> (baseline_by_path t !! p) = text_at (fss0 env) q ∧
         content <$> (current_by_path t !! p) = text_at (fss env) q.
Proof.
  intros Hv0 Hs. destruct (session_turn v0 fss0 fss t Hv0 Hs) as (v & Hv & Hturn).
  apply turn_invariant in Hturn as (Ht & Hvalid & _). split; [done|]. intros env q p.
  subst p. specialize (Ht (env, path_native q)). unfold texts_of in *. rewrite <-Hv, <-Hv0.
  destruct (untracked _ _); [done|]. by destruct Ht as [-> ->].
Qed.

End sessions.

End turns.

(** ** Concrete turns *)

Import MemFs.

Definition ex_text_diff (old_header new_header left right : str) : str :=
  lit "--- " ++ old_header ++ [nl] ++ lit "+++ " ++ new_header ++ [nl] ++ left ++ right.
Definition ex_oid (s : str) : str := show_nat (length s).
Definition ex_strip (root p : str) : option str := strip_prefix (root ++ lit "/") p.
Definition ex_roots : gmap (list N) (list N) := {[ lit "local" := lit "/w" ]}.
Definition ex_tracker : TurnDiffTracker :=
  track_delta ex_text_diff ex_oid ex_strip (lit "local") (delta_of ex_run.2)
    (new_tracker ex_roots).

Lemma tracker_follows_files_witness :
  valid ex_tracker = true ∧
  content <$> (current_by_path ex_tracker !! (lit "local", lit "/w/c")) = Some (lit "y" ++ [nl]).
Proof.
  destruct (tracker_follows_files ex_text_diff ex_oid ex_strip (λ p, text_at ex_fs p.2)
    (λ _, ex_fs) (λ e, if decide (e = lit "local") then ex_run.1.1 else ex_fs) ex_tracker)
    as [Hv Ht].
  - intros env q. reflexivity.
  - unfold ex_tracker.
    apply (session_patch ex_text_diff ex_oid ex_strip (λ _, ex_fs) (λ _, ex_fs)
      (new_tracker ex_roots) (lit "local") [ex_update (Some (lit "c"))] ex_dir ex_run.1.1
      ex_run.1.2 ex_run.2).
    + constructor.
    + apply ex_recordable.
    + unfold ex_run. by destruct (apply_hunks _ _ _) as [[? ?] ?].
    + vm_compute. reflexivity.
  - split; [exact Hv|]. specialize (Ht (lit "local") (lit "/w/c")). cbv zeta in Ht.
    assert (Hu : untracked (lit "local", path_native (lit "/w/c")) ex_tracker = false)
      by (vm_compute; reflexivity).
    rewrite Hu in Ht. destruct Ht as [_ Ht]. refine (eq_trans Ht _). vm_compute. reflexivity.
Defined.

Definition ex_delta2 : AppliedPatchDelta :=
  mkDelta [mkPatchChange (lit "/w/b") (ChangeAdd (lit "z") None)] true.

Lemma track_delta_cache_free_witness :
  size (rendered_diffs ex_tracker) = 1 ∧
  unified_diff (track_delta ex_text_diff ex_oid ex_strip (lit "local") ex_delta2 ex_tracker) =
  unified_diff (track_delta ex_text_diff ex_oid ex_strip (lit "local") ex_delta2
    (clear_cache ex_tracker)).
Proof.
  split; [vm_compute; reflexivity|].
  apply (track_delta_cache_free ex_text_diff ex_oid ex_strip ex_tracker (lit "local") ex_delta2).
  unfold ex_tracker. apply reach_track, reach_new.
Defined.

Lemma inexact_delta_final_witness :
  unified_diff (track_delta ex_text_diff ex_oid ex_strip (lit "local") ex_delta2
    (track_delta ex_text_diff ex_oid ex_strip (lit "local") (mkDelta [] false) ex_tracker)) = None.
Proof.
  apply (inexact_delta_final ex_text_diff ex_oid ex_strip ex_tracker (lit "local")
    (mkDelta [] false) [(lit "local", ex_delta2)]); [|reflexivity].
  unfold ex_tracker. apply reach_track, reach_new.
Defined.

(** A file changed and changed back: the diff is empty. *)
Definition ex_there_and_back : AppliedPatchDelta :=
  mkDelta [mkPatchChange (lit "/w/b") (ChangeUpdate None (lit "x") None (lit "z"));
           mkPatchChange (lit "/w/b") (ChangeUpdate None (lit "z") None (lit "x"))] true.

Lemma unified_diff_none_iff_witness :
  unified_diff (track_delta ex_text_diff ex_oid ex_strip (lit "local") ex_there_and_back
    (new_tracker ex_roots)) = None.
Proof.
  set (v0 := (λ p, if decide (p = (lit "local", lit "/w/b")) then Some (lit "x") else None)
    : tracked_view).
  eapply (unified_diff_none_iff ex_text_diff ex_oid ex_strip v0).
  - apply turn_track; [apply turn_start|reflexivity|]. vm_compute. auto.
  - intros p Hp. assert (Hc : compared_with (track_delta ex_text_diff ex_oid ex_strip
      (lit "local") ex_there_and_back (new_tracker ex_roots)) p = p) by (vm_compute; by destruct p).
    rewrite Hc. destruct p as [e q]. unfold with_env, in_env. simpl. case_decide; [subst|done].
    unfold replay_change, upd, v0. simpl. repeat case_decide; simplify_eq/=; done.
Defined.

End TurnDiff.
