(* ===== verification/AbsolutePath.v ===== *)
(** * Absolute paths (utils/absolute-path)

    [AbsolutePathBuf] holds an absolute, lexically normalised path.  The file models the
    part of [std::path] for Unix that the crate uses ([Path::components], [join], [pop],
    [push], [file_name]), home expansion and [normalize_path].  Two [PathBuf]s are equal
    when their components are, so a stored path is its list of components.  The home and
    the current directory come from the process and are arguments. *)

From stdpp Require Import prelude strings.
From S2P Require Import Prelude RustStr.

Module AbsolutePath.

Definition slash : char := 47%N.
Definition tilde : char := 126%N.

(** [std::path::Component] (there are no prefixes on Unix). *)
Inductive Component : Type :=
| RootDir
| CurDir
| ParentDir
| Normal (name : list N).

#[global] Instance Component_eq_dec : EqDecision Component.
Proof. solve_decision. Defined.

Definition is_absolute (p : str) : bool := starts_with [slash] p.

(** A piece between separators that is not at the start of a relative path: empty pieces
    and [.] are skipped. *)
Definition piece_component (w : str) : option Component :=
  if decide (w = []) then None
  else if decide (w = lit ".") then None
  else if decide (w = lit "..") then Some ParentDir
  else Some (Normal w).

(** [Path::components]. *)
Definition components (p : str) : list Component :=
  match split_on slash p with
  | [] => []
  | w :: ws =>
      if is_absolute p then RootDir :: omap piece_component ws
      else (if decide (w = lit ".") then [CurDir] else omap piece_component [w]) ++
           omap piece_component ws
  end.

(** [Path::join] on strings. *)
Definition path_join (base p : str) : str :=
  if is_absolute p then p
  else if decide (base = []) then p
  else if ends_with [slash] base then base ++ p
  else base ++ slash :: p.

(** [PathBuf::push] of a component and [PathBuf::pop]. *)
Definition push (buf : list Component) (c : Component) : list Component :=
  match c with RootDir => [RootDir] | _ => buf ++ [c] end.
Definition pop (buf : list Component) : list Component :=
  match last buf with
  | None | Some RootDir => buf
  | Some _ => removelast buf
  end.

(** The loop body of [normalize_path]. *)
Definition normalize_step (buf : list Component) (c : Component) : list Component :=
  match c with
  | CurDir => buf
  | ParentDir => pop buf
  | RootDir | Normal _ => push buf c
  end.

(** [normalize_path]; the empty result is [.]. *)
Definition normalize_path (p : str) : list Component :=
  match foldl normalize_step [] (components p) with
  | [] => [CurDir]
  | buf => buf
  end.

(** [path_with_base], [absolutize_from], [absolutize]. *)
Definition path_with_base (p base : str) : str :=
  if is_absolute p then p else path_join base p.
Definition absolutize_from (p base : str) : list Component :=
  normalize_path (path_with_base p base).
Definition absolutize (cwd : result str (list N)) (p : str) : result str (list Component) :=
  if is_absolute p then Ok (normalize_path p)
  else let? cwd := cwd in Ok (absolutize_from p cwd).

(** [maybe_expand_home_directory]. *)
Definition maybe_expand_home_directory (home : option (list N)) (p : str) : str :=
  match home, strip_prefix [tilde] p with
  | Some h, Some [] => h
  | Some h, Some rest =>
      match strip_prefix [slash] rest with
      | Some rest => path_join h (trim_start_matches slash rest)
      | None => p
      end
  | _, _ => p
  end.

(** [from_absolute_path], [from_absolute_path_checked], [resolve_path_against_base]. *)
Definition from_absolute_path (home : option (list N)) (cwd : result str (list N)) (p : str) :
    result str (list Component) :=
  absolutize cwd (maybe_expand_home_directory home p).
Definition from_absolute_path_checked (home : option (list N)) (p : str) :
    result str (list Component) :=
  let expanded := maybe_expand_home_directory home p in
  if is_absolute expanded then Ok (absolutize_from expanded [slash])
  else Err (lit "path is not absolute: " ++ p).
Definition resolve_path_against_base (home : option (list N)) (p base : str) :
    list Component :=
  absolutize_from (maybe_expand_home_directory home p) base.

(** [Path::file_name]. *)
Definition file_name (cs : list Component) : option str :=
  match last cs with Some (Normal w) => Some w | _ => None end.

(** [as_path]: the stored string. *)
Definition component_str (c : Component) : str :=
  match c with
  | RootDir => []
  | CurDir => lit "."
  | ParentDir => lit ".."
  | Normal w => w
  end.
Definition path_string (cs : list Component) : str :=
  match cs with
  | [RootDir] => [slash]
  | _ => join [slash] (component_str <$> cs)
  end.

(** [AbsolutePathBuf::parent]. *)
Definition parent (cs : list Component) : option (list Component) :=
  match last cs with
  | None | Some RootDir => None
  | Some _ => Some (removelast cs)
  end.

(** ** Normal form *)

(** A name: not empty, not a dot, without separators. *)
Definition good_name (c : Component) : Prop :=
  ∃ w, c = Normal w ∧ slash ∉ w ∧ piece_component w = Some c.
Definition normal_form (cs : list Component) : Prop :=
  ∃ ns, cs = RootDir :: ns ∧ Forall good_name ns.

Lemma omap_pieces ws :
  Forall (λ w, slash ∉ w) ws →
  Forall (λ c, c = ParentDir ∨ good_name c) (omap piece_component ws).
Proof.
  induction 1 as [|w ws Hw _ IH]; [constructor|]. simpl.
  destruct (piece_component w) as [c|] eqn:E; [|done]. constructor; [|done].
  unfold piece_component in E. repeat case_decide; simplify_eq; [by left|]. right.
  exists w. unfold piece_component. by repeat case_decide.
Qed.

Lemma absolute_components p :
  is_absolute p = true →
  ∃ cs, components p = RootDir :: cs ∧ Forall (λ c, c = ParentDir ∨ good_name c) cs.
Proof.
  intros Hp. unfold components. pose proof (split_on_pieces slash p) as HF.
  destruct (split_on slash p) as [|w ws] eqn:E; [by apply split_on_not_nil in E|].
  rewrite Hp. eexists. split; [done|]. inversion HF; subst. by apply omap_pieces.
Qed.

Lemma normal_form_fold cs buf :
  normal_form buf → Forall (λ c, c = ParentDir ∨ good_name c) cs →
  normal_form (foldl normalize_step buf cs).
Proof.
  intros Hb HF. revert buf Hb. induction HF as [|c cs Hc _ IH]; intros buf Hb; [done|].
  simpl. apply IH. destruct Hb as (ns & -> & Hns). destruct Hc as [->|(w & -> & Hw & Hp)]; simpl.
  - unfold pop. destruct ns as [|n ns _] using rev_ind; [by exists []|].
    rewrite app_comm_cons, last_snoc, removelast_snoc.
    apply Forall_app in Hns as [Hns (Hn & _)%Forall_cons].
    destruct Hn as (w & -> & _). by exists ns.
  - exists (ns ++ [Normal w]). split; [done|]. apply Forall_app. split; [done|].
    constructor; [|done]. by exists w.
Qed.

Lemma normalize_absolute p : is_absolute p = true → normal_form (normalize_path p).
Proof.
  intros (cs & Hcs & HF)%absolute_components. unfold normalize_path. rewrite Hcs. simpl.
  assert (Hn : normal_form (foldl normalize_step [RootDir] cs)).
  { apply normal_form_fold; [|done]. by exists []. }
  destruct (foldl _ _ _) eqn:E; [|done]. destruct Hn as (? & ? & _). done.
Qed.

Lemma good_names_pieces ns :
  Forall good_name ns → omap piece_component (component_str <$> ns) = ns.
Proof.
  induction 1 as [|c ns (w & -> & _ & Hp) _ IH]; [done|]. simpl. rewrite Hp. f_equal. exact IH.
Qed.

Lemma normal_form_components cs : normal_form cs → components (path_string cs) = cs.
Proof.
  intros (ns & -> & Hns). destruct ns as [|n ns]; [done|].
  unfold path_string, components. rewrite split_on_join.
  - simpl. f_equal. by apply good_names_pieces in Hns.
  - done.
  - constructor; [set_solver|]. apply (proj2 (Forall_fmap component_str _ (n :: ns))). eapply Forall_impl; [exact Hns|].
    by intros c (w & -> & Hw & _).
Qed.

Lemma normal_form_fixed ns buf :
  Forall good_name ns → foldl normalize_step buf ns = buf ++ ns.
Proof.
  intros HF. revert buf. induction HF as [|c ns (w & -> & _) _ IH]; intros buf; simpl.
  - by rewrite app_nil_r.
  - by rewrite IH, <-app_assoc.
Qed.

Lemma is_absolute_join base p :
  is_absolute base = true → is_absolute (path_with_base p base) = true.
Proof.
  unfold path_with_base, path_join. intros Hb. destruct (is_absolute p) eqn:E; [done|].
  apply starts_with_true in Hb as [r ->]. simpl. case_match; by apply starts_with_true; eexists.
Qed.

Lemma absolutize_normal_form cwd p cs :
  (∀ d, cwd = Ok d → is_absolute d = true) → absolutize cwd p = Ok cs → normal_form cs.
Proof.
  unfold absolutize. intros Hd. case_match eqn:E; [intros; simplify_eq; by apply normalize_absolute|].
  destruct cwd as [d|e]; simpl; intros; simplify_eq.
  apply normalize_absolute, is_absolute_join; auto.
Qed.

(** ** Properties *)

(** A path built by [AbsolutePathBuf::from_absolute_path] is absolute and normalised, a
    root followed by names without dots, and rebuilding it from its own string, in any
    process, gives it back. *)
Theorem absolute_path_normalised (home home' : option (list N)) (cwd cwd' : result str (list N))
    (p : str) (cs : list Component) :
  (∀ d, cwd = Ok d → is_absolute d = true) →
  from_absolute_path home cwd p = Ok cs →
  normal_form cs ∧ from_absolute_path home' cwd' (path_string cs) = Ok cs.
Proof.
  intros Hd H. apply absolutize_normal_form in H; [|done]. split; [done|].
  assert (Habs : is_absolute (path_string cs) = true).
  { destruct H as (ns & -> & _). destruct ns; [done|]. by apply starts_with_true; eexists. }
  unfold from_absolute_path.
  assert (maybe_expand_home_directory home' (path_string cs) = path_string cs) as ->.
  { apply starts_with_true in Habs as [r ->]. by destruct home'. }
  unfold absolutize. rewrite Habs. f_equal. unfold normalize_path.
  rewrite normal_form_components by done. destruct H as (ns & -> & Hns). simpl.
  by rewrite normal_form_fixed.
Qed.

Lemma absolute_path_normalised_witness :
  normal_form [RootDir; Normal (lit "w"); Normal (lit "git")] ∧
  from_absolute_path None (Err []) (lit "/w/git") =
    Ok [RootDir; Normal (lit "w"); Normal (lit "git")].
Proof.
  apply (absolute_path_normalised (Some (lit "/h")) None (Ok (lit "/w/x")) (Err [])
    (lit "./..//bin/../git")); [|reflexivity].
  intros d [= <-]. reflexivity.
Defined.

End AbsolutePath.
