(* ===== verification/ExecPolicy.v ===== *)
(** * The exec policy engine (execpolicy/src)

    Rules decide whether a command may run.  [Decision] (decision.rs), the rules and the
    network host normalisation (rule.rs), executable names (executable_name.rs) and the
    policy with its evaluation (policy.rs).  [PrefixRule] is the only implementation of the
    [Rule] trait, so a [RuleRef] is a [PrefixRule].  The [MultiMap] of rules is a map to
    lists.  The process's home and current directory are an argument [env]. *)

From stdpp Require Import prelude strings gmap sorting.
From S2P Require Import Prelude RustStr AbsolutePath.
Import AbsolutePath.

Module ExecPolicy.

(** ** Decisions and errors *)

Inductive Decision : Type := Allow | Prompt | Forbidden.

#[global] Instance Decision_eq_dec : EqDecision Decision.
Proof. solve_decision. Defined.

(** [TextRange] and [ErrorLocation], as the place of a call. *)
Record ErrorLocation : Type := mkLocation {
  loc_path : str; start_line : nat; start_column : nat; end_line : nat; end_column : nat;
}.

(** [PatternToken], [PrefixPattern], [PrefixRule]. *)
Inductive PatternToken : Type :=
| Single (expected : list N)
| Alts (alternatives : list (list N)).
Record PrefixPattern : Type := mkPattern { first : str; rest : list PatternToken }.
Record PrefixRule : Type := mkRule {
  pattern : PrefixPattern; rule_decision : Decision; justification : option str;
}.

(** [RuleMatch]. *)
Inductive RuleMatch : Type :=
| PrefixRuleMatch (matched_prefix : list (list N)) (decision : Decision)
    (resolved_program : option (list Component)) (justification : option (list N))
| HeuristicsRuleMatch (command : list (list N)) (decision : Decision).

(** [Error]; the example errors hold the rules and matches that the messages render. *)
Inductive Error : Type :=
| InvalidDecision (raw : list N)
| InvalidPattern (msg : list N)
| InvalidExample (msg : list N)
| InvalidRule (msg : list N)
| ExampleDidNotMatch (rules : list PrefixRule) (examples : list (list (list N)))
    (location : option ErrorLocation)
| ExampleDidMatch (rule : RuleMatch) (example : list (list N)) (location : option ErrorLocation)
| Starlark (msg : list N).

(** [Error::with_location]. *)
Definition with_location (e : Error) (location : ErrorLocation) : Error :=
  match e with
  | ExampleDidNotMatch rules examples None => ExampleDidNotMatch rules examples (Some location)
  | ExampleDidMatch rule example None => ExampleDidMatch rule example (Some location)
  | other => other
  end.

(** [Decision::parse]. *)
Definition parse_decision (raw : str) : result Error Decision :=
  if decide (raw = lit "allow") then Ok Allow
  else if decide (raw = lit "prompt") then Ok Prompt
  else if decide (raw = lit "forbidden") then Ok Forbidden
  else Err (InvalidDecision raw).

(** The derived order: [Allow < Prompt < Forbidden]. *)
Definition severity (d : Decision) : nat :=
  match d with Allow => 0 | Prompt => 1 | Forbidden => 2 end.
Definition max_decision (a b : Decision) : Decision :=
  if (severity a <? severity b)%nat then b else a.

(** ** Rules *)

(** [PatternToken::matches] and [alternatives]. *)
Definition token_matches (t : PatternToken) (token : str) : bool :=
  match t with
  | Single expected => bool_decide (expected = token)
  | Alts alternatives => existsb (λ alt, bool_decide (alt = token)) alternatives
  end.
Definition token_alternatives (t : PatternToken) : list str :=
  match t with Single expected => [expected] | Alts alternatives => alternatives end.

(** [PrefixPattern::matches_prefix]. *)
Definition matches_prefix (p : PrefixPattern) (cmd : list str) : option (list (list N)) :=
  let pattern_length := length (rest p) + 1 in
  match cmd with
  | cmd0 :: cmd_rest =>
      if (length cmd <? pattern_length)%nat || negb (bool_decide (cmd0 = first p)) then None
      else if forallb (λ '(t, w), token_matches t w)
                (zip (rest p) (take (length (rest p)) cmd_rest))
      then Some (take pattern_length cmd) else None
  | [] => None
  end.

(** [Rule::program], [Rule::matches]. *)
Definition program (r : PrefixRule) : str := first (pattern r).
Definition rule_matches (r : PrefixRule) (cmd : list str) : option RuleMatch :=
  (λ p, PrefixRuleMatch p (rule_decision r) None (justification r)) <$>
    matches_prefix (pattern r) cmd.

(** [RuleMatch::decision], [with_resolved_program]. *)
Definition match_decision (m : RuleMatch) : Decision :=
  match m with PrefixRuleMatch _ d _ _ => d | HeuristicsRuleMatch _ d => d end.
Definition with_resolved_program (m : RuleMatch) (resolved : list Component) : RuleMatch :=
  match m with
  | PrefixRuleMatch p d _ j => PrefixRuleMatch p d (Some resolved) j
  | other => other
  end.

(** ** Network rules *)

Inductive NetworkRuleProtocol : Type := Http | Https | Socks5Tcp | Socks5Udp.

Definition protocol_parse (raw : str) : result Error NetworkRuleProtocol :=
  if decide (raw = lit "http") then Ok Http
  else if decide (raw = lit "https" ∨ raw = lit "https_connect" ∨ raw = lit "http-connect")
  then Ok Https
  else if decide (raw = lit "socks5_tcp") then Ok Socks5Tcp
  else if decide (raw = lit "socks5_udp") then Ok Socks5Udp
  else Err (InvalidRule (lit "network_rule protocol must be one of http, https, socks5_tcp, socks5_udp (got " ++ raw ++ lit ")")).

Definition as_policy_string (p : NetworkRuleProtocol) : str :=
  match p with
  | Http => lit "http" | Https => lit "https"
  | Socks5Tcp => lit "socks5_tcp" | Socks5Udp => lit "socks5_udp"
  end.

Record NetworkRule : Type := mkNetworkRule {
  host : str; protocol : NetworkRuleProtocol; net_decision : Decision;
  net_justification : option str;
}.

Definition colon : char := 58%N.
Definition dot : char := 46%N.
Definition question : char := 63%N.
Definition hash : char := 35%N.
Definition star : char := 42%N.
Definition lbracket : char := 91%N.
Definition rbracket : char := 93%N.

Definition all_digits (s : str) : bool := negb (bool_decide (s = [])) && forallb is_ascii_digit s.

(** The host without brackets and port. *)
Definition strip_port (raw h : str) : result Error str :=
  match strip_prefix [lbracket] h with
  | Some stripped =>
      match split_once rbracket stripped with
      | None => Err (InvalidRule (lit "network_rule host has an invalid bracketed IPv6 literal"))
      | Some (inside, rest) =>
          let port_ok := from_option all_digits false (strip_prefix [colon] rest) in
          if negb (bool_decide (rest = [])) && negb port_ok
          then Err (InvalidRule (lit "network_rule host contains an unsupported suffix: " ++ raw))
          else Ok inside
      end
  | None =>
      if (count_char colon h =? 1)%nat then
        match rsplit_once colon h with
        | Some (candidate, port) =>
            Ok (if negb (bool_decide (candidate = [])) && all_digits port then candidate else h)
        | None => Ok h
        end
      else Ok h
  end.

(** [normalize_network_rule_host]. *)
Definition normalize_network_rule_host (raw : str) : result Error str :=
  let h := trim raw in
  if decide (h = []) then Err (InvalidRule (lit "network_rule host cannot be empty"))
  else if contains_str (lit "://") h || contains_char slash h || contains_char question h ||
          contains_char hash h
  then Err (InvalidRule (lit "network_rule host must be a hostname or IP literal (without scheme or path)"))
  else
    let? h := strip_port raw h in
    let normalized := to_ascii_lowercase (trim (trim_end_matches dot h)) in
    if decide (normalized = []) then Err (InvalidRule (lit "network_rule host cannot be empty"))
    else if contains_char star normalized
    then Err (InvalidRule (lit "network_rule host must be a specific host; wildcards are not allowed"))
    else if existsb is_whitespace normalized
    then Err (InvalidRule (lit "network_rule host cannot contain whitespace"))
    else Ok normalized.

(** A justification of white space only is refused. *)
Definition blank (j : option (list N)) : bool :=
  match j with Some raw => bool_decide (trim raw = []) | None => false end.

(** ** The policy *)

(** [MultiMap]: insertion appends to the values of the key. *)
Notation multimap := (gmap (list N) (list PrefixRule)).
Definition mm_insert (k : str) (r : PrefixRule) (m : multimap) : multimap :=
  <[k := default [] (m !! k) ++ [r]]> m.
Definition get_vec (m : multimap) (k : str) : option (list PrefixRule) :=
  m !! k.

Record Policy : Type := mkPolicy {
  rules_by_program : multimap;
  network_rules : list NetworkRule;
  host_executables_by_name : gmap (list N) (list (list Component));
}.

Definition empty_policy : Policy := mkPolicy ∅ [] ∅.

(** The process environment of [AbsolutePathBuf::try_from]. *)
Record process_env : Type := mkEnv { home_dir : option str; current_dir : result str (list N) }.

(** [executable_lookup_key] and [executable_path_lookup_key] (not Windows). *)
Definition executable_lookup_key (raw : str) : str := raw.
Definition executable_path_lookup_key (p : list Component) : option str :=
  executable_lookup_key <$> file_name p.

(** [add_prefix_rule]. *)
Definition add_prefix_rule (prefix : list str) (d : Decision) (p : Policy) : result Error Policy :=
  match prefix with
  | [] => Err (InvalidPattern (lit "prefix cannot be empty"))
  | first_token :: rest =>
      let rule := mkRule (mkPattern first_token (Single <$> rest)) d None in
      Ok (mkPolicy (mm_insert first_token rule (rules_by_program p)) (network_rules p)
           (host_executables_by_name p))
  end.

(** [add_network_rule]. *)
Definition add_network_rule (h : str) (proto : NetworkRuleProtocol) (d : Decision)
    (j : option str) (p : Policy) : result Error Policy :=
  let? h := normalize_network_rule_host h in
  if blank j then Err (InvalidRule (lit "justification cannot be empty"))
  else Ok (mkPolicy (rules_by_program p) (network_rules p ++ [mkNetworkRule h proto d j])
            (host_executables_by_name p)).

(** [set_host_executable_paths]. *)
Definition set_host_executable_paths (name : str) (paths : list (list Component)) (p : Policy) :
    Policy :=
  mkPolicy (rules_by_program p) (network_rules p)
    (<[name := paths]> (host_executables_by_name p)).

(** [merge_overlay]. *)
Definition insert_all (m : multimap) (entry : list N * list PrefixRule) : multimap :=
  foldl (λ m r, mm_insert entry.1 r m) m entry.2.
Definition merge_overlay (base overlay : Policy) : Policy :=
  mkPolicy
    (foldl insert_all (rules_by_program base) (map_to_list (rules_by_program overlay)))
    (network_rules base ++ network_rules overlay)
    (foldl (λ m '(name, paths), <[name := paths]> m) (host_executables_by_name base)
       (map_to_list (host_executables_by_name overlay))).

(** [render_pattern_token], [get_allowed_prefixes]. *)
Definition render_pattern_token (t : PatternToken) : str :=
  match t with
  | Single value => value
  | Alts alternatives => lit "[" ++ join (lit "|") alternatives ++ lit "]"
  end.
Definition allowed_prefix (r : PrefixRule) : option (list (list N)) :=
  if decide (rule_decision r = Allow)
  then Some (first (pattern r) :: (render_pattern_token <$> rest (pattern r))) else None.

(** The derived order of strings and of lists of strings. *)
Fixpoint list_leb {A} (leb : A → A → bool) (a b : list A) : bool :=
  match a, b with
  | [], _ => true
  | _ :: _, [] => false
  | x :: a', y :: b' => if leb x y then if leb y x then list_leb leb a' b' else true else false
  end.
Definition prefix_leb : list (list N) → list (list N) → bool := list_leb (list_leb N.leb).
Fixpoint insert_prefix (p : list (list N)) (ps : list (list (list N))) : list (list (list N)) :=
  match ps with
  | [] => [p]
  | p' :: ps' => if prefix_leb p p' then p :: ps else p' :: insert_prefix p ps'
  end.
Fixpoint dedup_prefixes (ps : list (list (list N))) : list (list (list N)) :=
  match ps with
  | p :: (p' :: _) as ps' =>
      if decide (p = p') then dedup_prefixes ps' else p :: dedup_prefixes ps'
  | _ => ps
  end.
Definition get_allowed_prefixes (p : Policy) : list (list (list N)) :=
  dedup_prefixes (foldr insert_prefix []
    (concat ((λ e : list N * list PrefixRule, omap allowed_prefix e.2) <$>
       map_to_list (rules_by_program p)))).

(** [upsert_domain], [compiled_network_domains]. *)
Definition retain_ne (h : str) (entries : list str) : list (list N) := filter (λ e, e ≠ h) entries.
Definition upsert_domain (entries : list str) (h : str) : list (list N) :=
  retain_ne h entries ++ [h].
Definition domains_step (acc : list (list N) * list (list N)) (r : NetworkRule) :
    list (list N) * list (list N) :=
  let '(allowed, denied) := acc in
  match net_decision r with
  | Allow => (upsert_domain allowed (host r), retain_ne (host r) denied)
  | Forbidden => (retain_ne (host r) allowed, upsert_domain denied (host r))
  | Prompt => (allowed, denied)
  end.
Definition compiled_network_domains (p : Policy) : list (list N) * list (list N) :=
  foldl domains_step ([], []) (network_rules p).

(** ** Evaluation *)

Definition match_exact_rules (p : Policy) (cmd : list str) : option (list RuleMatch) :=
  match cmd with
  | [] => None
  | first :: _ =>
      Some (from_option (λ rules, omap (λ r, rule_matches r cmd) rules) []
              (get_vec (rules_by_program p) first))
  end.

Definition match_host_executable_rules (env : process_env) (p : Policy) (cmd : list str) :
    list RuleMatch :=
  match cmd with
  | [] => []
  | first :: args =>
      match from_absolute_path (home_dir env) (current_dir env) first with
      | Err _ => []
      | Ok program =>
          match executable_path_lookup_key program with
          | None => []
          | Some basename =>
              match get_vec (rules_by_program p) basename with
              | None => []
              | Some rules =>
                  if match host_executables_by_name p !! basename with
                     | Some paths => negb (existsb (λ q, bool_decide (q = program)) paths)
                     | None => false
                     end
                  then []
                  else (λ m, with_resolved_program m program) <$>
                         omap (λ r, rule_matches r (basename :: args)) rules
              end
          end
      end
  end.

(** [matches_for_command_with_options]; [resolve] is [MatchOptions]. *)
Definition non_empty (ms : list RuleMatch) : option (list RuleMatch) :=
  match ms with [] => None | _ => Some ms end.
Definition rule_matches_for (env : process_env) (p : Policy) (cmd : list str) (resolve : bool) :
    list RuleMatch :=
  match match_exact_rules p cmd ≫= non_empty with
  | Some ms => ms
  | None => if resolve then match_host_executable_rules env p cmd else []
  end.
Definition matches_for_command_with_options (env : process_env) (p : Policy) (cmd : list str)
    (heuristics_fallback : option (list (list N) → Decision)) (resolve : bool) : list RuleMatch :=
  let matched_rules := rule_matches_for env p cmd resolve in
  match matched_rules, heuristics_fallback with
  | [], Some f => [HeuristicsRuleMatch cmd (f cmd)]
  | _, _ => matched_rules
  end.

Record Evaluation : Type := mkEvaluation { decision : Decision; matched_rules : list RuleMatch }.

(** [Evaluation::is_match]. *)
Definition is_match (e : Evaluation) : bool :=
  existsb (λ m, match m with HeuristicsRuleMatch _ _ => false | _ => true end) (matched_rules e).

(** [Evaluation::from_matches]: [None] is the panic of [expect]. *)
Definition max_decisions (ds : list Decision) : option Decision :=
  match ds with [] => None | d :: ds' => Some (foldl max_decision d ds') end.
Definition from_matches (ms : list RuleMatch) : option Evaluation :=
  d ← max_decisions (match_decision <$> ms); Some (mkEvaluation d ms).

(** [check_with_options] ([check] is [resolve := false]) and [check_multiple_with_options]. *)
Definition check_with_options (env : process_env) (p : Policy) (cmd : list str)
    (f : list str → Decision) (resolve : bool) : option Evaluation :=
  from_matches (matches_for_command_with_options env p cmd (Some f) resolve).
Definition check_multiple_with_options (env : process_env) (p : Policy) (cmds : list (list (list N)))
    (f : list str → Decision) (resolve : bool) : option Evaluation :=
  from_matches (concat ((λ cmd, matches_for_command_with_options env p cmd (Some f) resolve) <$> cmds)).

(** [validate_match_examples], [validate_not_match_examples]. *)
Definition unmatched_examples (env : process_env) (p : Policy) (examples : list (list (list N))) :
    list (list (list N)) :=
  omap (λ example, match matches_for_command_with_options env p example None true with
                   | [] => Some example | _ => None end) examples.
Definition validate_match_examples (env : process_env) (p : Policy) (rules : list PrefixRule)
    (examples : list (list (list N))) : result Error unit :=
  match unmatched_examples env p examples with
  | [] => Ok tt
  | us => Err (ExampleDidNotMatch rules us None)
  end.
Fixpoint validate_not_match_examples (env : process_env) (p : Policy)
    (examples : list (list (list N))) : result Error unit :=
  match examples with
  | [] => Ok tt
  | example :: examples' =>
      match matches_for_command_with_options env p example None true with
      | m :: _ => Err (ExampleDidMatch m example None)
      | [] => validate_not_match_examples env p examples'
      end
  end.

(** ** What a policy promises *)

(** A rule covers a command that starts with one word per pattern token. *)
Definition covers (r : PrefixRule) (cmd : list str) : Prop :=
  ∃ ws tail, cmd = ws ++ tail ∧
    Forall2 (λ t w, w ∈ token_alternatives t) (Single (first (pattern r)) :: rest (pattern r)) ws.

(** The rules for the first word as written; the rules for the base name of the program it
    resolves to, when the policy does not restrict that name to other programs. *)
Definition exact_rule (p : Policy) (cmd : list str) (r : PrefixRule) : Prop :=
  ∃ c args, cmd = c :: args ∧ r ∈ default [] (get_vec (rules_by_program p) c) ∧ covers r cmd.
Definition host_rule (env : process_env) (p : Policy) (cmd : list str) (r : PrefixRule) : Prop :=
  ∃ c args prog base, cmd = c :: args ∧
    from_absolute_path (home_dir env) (current_dir env) c = Ok prog ∧
    executable_path_lookup_key prog = Some base ∧
    r ∈ default [] (get_vec (rules_by_program p) base) ∧ covers r (base :: args) ∧
    (∀ paths, host_executables_by_name p !! base = Some paths → prog ∈ paths).
Definition applies (env : process_env) (p : Policy) (cmd : list str) (resolve : bool)
    (r : PrefixRule) : Prop :=
  exact_rule p cmd r ∨
  (resolve = true ∧ (∀ r', ¬ exact_rule p cmd r') ∧ host_rule env p cmd r).

Lemma token_matches_spec t w : token_matches t w = true ↔ w ∈ token_alternatives t.
Proof.
  destruct t as [e|alts]; simpl; [rewrite bool_decide_eq_true; set_solver|].
  rewrite existsb_exists. setoid_rewrite bool_decide_eq_true. setoid_rewrite <-list_elem_of_In.
  naive_solver.
Qed.

Lemma forallb_zip_spec ts ws :
  length ts = length ws →
  forallb (λ '(t, w), token_matches t w) (zip ts ws) = true ↔
  Forall2 (λ t w, w ∈ token_alternatives t) ts ws.
Proof.
  revert ws. induction ts as [|t ts IH]; intros [|w ws] Hl; try done; simpl in *.
  rewrite andb_true_iff, token_matches_spec, IH by lia. by rewrite Forall2_cons.
Qed.

Lemma covers_spec r cmd : is_Some (matches_prefix (pattern r) cmd) ↔ covers r cmd.
Proof.
  unfold matches_prefix, covers.
  destruct cmd as [|c args].
  { split; [by intros []|]. intros (ws & tail & [-> ->]%symmetry%app_nil & HF).
    inversion HF. }
  destruct (_ || _) eqn:E.
  - split; [by intros []|]. intros (ws & tail & Heq & HF). exfalso.
    apply Forall2_length in HF as Hl. inversion HF as [|? w ? ws' Hw HF']; subst.
    simpl in Heq. simplify_eq/=. apply list_elem_of_singleton in Hw as ->.
    rewrite bool_decide_true, orb_false_r in E by done.
    apply Nat.ltb_lt in E. rewrite length_app in E.  lia.
  - bool_to_prop. apply Nat.ltb_ge in H. simpl in H. subst c.
    assert (Hlen : length (rest (pattern r)) = length (take (length (rest (pattern r))) args)) by (rewrite length_take; lia).
    destruct (forallb _ _) eqn:Ef.
    + apply forallb_zip_spec in Ef; [|done]. split; [|by eauto]. intros _.
      exists (first (pattern r) :: take (length (rest (pattern r))) args),
        (drop (length (rest (pattern r))) args). simpl. rewrite take_drop.
      split; [done|]. constructor; [set_solver|done].
    + split; [by intros []|]. intros (ws & tail & Heq & HF). exfalso.
      inversion HF as [|? w ? ws' Hw HF']; subst. simpl in Heq. simplify_eq/=.
      apply Forall2_length in HF' as Hl.  rewrite take_app_length' in Ef by done.
      by apply (forallb_zip_spec _ _ Hl) in HF'; rewrite HF' in Ef.
Qed.

Lemma rule_matches_decision r cmd m : rule_matches r cmd = Some m → match_decision m = rule_decision r.
Proof. intros (ws & _ & ->)%fmap_Some. done. Qed.

Definition prefix_match (m : RuleMatch) : bool :=
  match m with PrefixRuleMatch _ _ _ _ => true | _ => false end.

(** The matches of a list of rules, by rule. *)
Lemma omap_matches (rules : list PrefixRule) cmd m :
  m ∈ omap (λ r, rule_matches r cmd) rules →
  prefix_match m = true ∧ ∃ r, r ∈ rules ∧ covers r cmd ∧ match_decision m = rule_decision r.
Proof.
  intros (r & Hr & Hm)%list_elem_of_omap. split.
  - apply fmap_Some in Hm as (? & _ & ->). done.
  - exists r. split; [done|]. split; [|by eapply rule_matches_decision].
    apply covers_spec. by apply fmap_Some in Hm as (? & -> & _).
Qed.

Lemma omap_matches_2 (rules : list PrefixRule) cmd r :
  r ∈ rules → covers r cmd →
  ∃ m, m ∈ omap (λ r, rule_matches r cmd) rules ∧ match_decision m = rule_decision r.
Proof.
  intros Hr [ws Hws]%covers_spec. eexists. split.
  - apply list_elem_of_omap. exists r. split; [done|]. unfold rule_matches. by rewrite Hws.
  - done.
Qed.

(** [ms] are matches of exactly the rules [P]. *)
Definition matches_of (P : PrefixRule → Prop) (ms : list RuleMatch) : Prop :=
  (∀ m, m ∈ ms → prefix_match m = true ∧ ∃ r, P r ∧ match_decision m = rule_decision r) ∧
  (∀ r, P r → ∃ m, m ∈ ms ∧ match_decision m = rule_decision r).

Lemma exact_matches p cmd : matches_of (exact_rule p cmd) (default [] (match_exact_rules p cmd)).
Proof.
  destruct cmd as [|c args]; simpl.
  { split; [set_solver|]. intros r (? & ? & ? & _). done. }
  assert (from_option (λ rules, omap (λ r, rule_matches r (c :: args)) rules) []
    (get_vec (rules_by_program p) c) =
    omap (λ r, rule_matches r (c :: args)) (default [] (get_vec (rules_by_program p) c))) as ->
    by by destruct (get_vec _ _).
  split.
  - intros m (Hp & r & Hr & Hc & Hd)%omap_matches. split; [done|]. exists r.
    split; [|done]. by exists c, args.
  - intros r (c' & args' & ? & Hr & Hc). simplify_eq. by eapply omap_matches_2.
Qed.

Lemma existsb_elem (prog : list Component) paths :
  existsb (λ q, bool_decide (q = prog)) paths = true ↔ prog ∈ paths.
Proof.
  rewrite existsb_exists. setoid_rewrite bool_decide_eq_true. setoid_rewrite <-list_elem_of_In.
  naive_solver.
Qed.

Lemma resolved_decision m prog :
  match_decision (with_resolved_program m prog) = match_decision m ∧
  prefix_match (with_resolved_program m prog) = prefix_match m.
Proof. by destruct m. Qed.

Lemma host_matches env p cmd :
  matches_of (host_rule env p cmd) (match_host_executable_rules env p cmd).
Proof.
  assert (Hempty : (∀ r, ¬ host_rule env p cmd r) → matches_of (host_rule env p cmd) []).
  { intros Hno. split; [set_solver|]. by intros r ?%Hno. }
  unfold match_host_executable_rules. destruct cmd as [|c args].
  { apply Hempty. intros r (? & ? & ? & ? & ? & _). done. }
  destruct (from_absolute_path _ _ c) as [prog|e] eqn:E1.
  2: { apply Hempty. intros r (? & ? & ? & ? & ? & ? & _). congruence. }
  destruct (executable_path_lookup_key prog) as [base|] eqn:E2.
  2: { apply Hempty. intros r (? & ? & ? & ? & ? & ? & ? & _). congruence. }
  assert (Hinv : ∀ r, host_rule env p (c :: args) r ↔
    r ∈ default [] (get_vec (rules_by_program p) base) ∧ covers r (base :: args) ∧
    ∀ paths, host_executables_by_name p !! base = Some paths → prog ∈ paths).
  { intros r. split; [|by intros (? & ? & ?); exists c, args, prog, base].
    intros (c' & args' & prog' & base' & Hc & Hp & Hb & ?). injection Hc as <- <-.
    rewrite E1 in Hp. injection Hp as <-. rewrite E2 in Hb. by injection Hb as <-. }
  destruct (get_vec _ base) as [rules|].
  2: { apply Hempty. intros r (Hr & _)%Hinv. by apply not_elem_of_nil in Hr. }
  destruct (match host_executables_by_name p !! base with Some _ => _ | None => _ end) eqn:E4.
  { apply Hempty. intros r (_ & _ & Hp)%Hinv.
    destruct (host_executables_by_name p !! base) as [paths|]; [|done].
    specialize (Hp paths eq_refl). apply negb_true_iff in E4.
    apply existsb_elem in Hp. congruence. }
  assert (Hpaths : ∀ paths, host_executables_by_name p !! base = Some paths → prog ∈ paths).
  { intros paths Hp. rewrite Hp in E4. apply negb_false_iff in E4. by apply existsb_elem. }
  split.
  - intros m (m' & -> & Hm')%list_elem_of_fmap. destruct (resolved_decision m' prog) as [-> ->].
    apply omap_matches in Hm' as (Hp & r & Hr & Hc & Hd). split; [done|]. exists r.
    split; [|done]. by apply Hinv.
  - intros r (Hr & Hc & _)%Hinv.
    destruct (omap_matches_2 _ _ _ Hr Hc) as (m & Hm & Hd).
    exists (with_resolved_program m prog). destruct (resolved_decision m prog) as [-> _].
    split; [|done]. apply list_elem_of_fmap. by exists m.
Qed.

Lemma matches_of_nil P : matches_of P [] → ∀ r, ¬ P r.
Proof. intros [_ H] r Hr. destruct (H r Hr) as (m & Hm & _). set_solver. Qed.

Lemma matches_of_ext P Q ms : matches_of P ms → (∀ r, P r ↔ Q r) → matches_of Q ms.
Proof. unfold matches_of. intros [H1 H2] HPQ. split; [|naive_solver].
  intros m Hm. destruct (H1 m Hm) as (Hp & r & Hr & Hd). split; [done|]. exists r.
  split; [by apply HPQ|done].
Qed.

(** The two-stage lookup finds exactly the rules that apply. *)
Lemma rule_matches_for_spec env p cmd resolve :
  matches_of (applies env p cmd resolve) (rule_matches_for env p cmd resolve).
Proof.
  pose proof (exact_matches p cmd) as He. unfold rule_matches_for.
  destruct (default [] (match_exact_rules p cmd)) as [|m ms] eqn:E.
  - pose proof (matches_of_nil _ He) as Hno.
    assert (match_exact_rules p cmd ≫= non_empty = None) as ->.
    { destruct (match_exact_rules p cmd) as [l|]; [|done]. simpl in E. by subst. }
    destruct resolve.
    + eapply matches_of_ext; [apply host_matches|]. unfold applies. naive_solver.
    + split; [set_solver|]. unfold applies. naive_solver.
  - assert (match_exact_rules p cmd ≫= non_empty = Some (m :: ms)) as ->.
    { destruct (match_exact_rules p cmd) as [l|]; simpl in E; [|done]. by subst. }
    eapply matches_of_ext; [exact He|]. intros r. unfold applies. split; [by left|].
    intros [|(_ & Hno & _)]; [done|]. exfalso.
    destruct He as [H1 _]. destruct (H1 m) as (_ & r' & Hr' & _); [by left|]. by eapply Hno.
Qed.

(** The maximum of a list of decisions. *)
Lemma max_decision_spec a b :
  (max_decision a b = a ∨ max_decision a b = b) ∧
  severity a ≤ severity (max_decision a b) ∧ severity b ≤ severity (max_decision a b).
Proof. destruct a, b; simpl; auto. Qed.

Lemma max_decisions_spec ds d :
  max_decisions ds = Some d → d ∈ ds ∧ ∀ x, x ∈ ds → severity x ≤ severity d.
Proof.
  destruct ds as [|d0 ds]; [done|]. simpl. intros [= <-]. revert d0.
  induction ds as [|d1 ds IH]; intros d0; simpl.
  { split; [by left|]. by intros x ->%list_elem_of_singleton. }
  destruct (max_decision_spec d0 d1) as (Hm & H0 & H1). destruct (IH (max_decision d0 d1)) as [Hin Hle].
  split.
  { rewrite !elem_of_cons. apply elem_of_cons in Hin as [Heq|?]; [|by auto].
    rewrite Heq. destruct Hm; auto. }
  intros x [->|[->|Hx]%elem_of_cons]%elem_of_cons.
  - etrans; [exact H0|]. apply Hle. by left.
  - etrans; [exact H1|]. apply Hle. by left.
  - apply Hle. by right.
Qed.

Lemma from_matches_spec ms :
  ms ≠ [] → ∃ d, from_matches ms = Some (mkEvaluation d ms) ∧
    (∃ m, m ∈ ms ∧ match_decision m = d) ∧ ∀ m, m ∈ ms → severity (match_decision m) ≤ severity d.
Proof.
  intros Hne. unfold from_matches.
  destruct (max_decisions (match_decision <$> ms)) as [d|] eqn:E; [|by destruct ms].
  exists d. split; [done|]. apply max_decisions_spec in E as [Hin Hle]. split.
  - apply list_elem_of_fmap in Hin as (m & -> & Hm). by exists m.
  - intros m Hm. apply Hle. apply list_elem_of_fmap. by exists m.
Qed.

Lemma is_match_prefix d ms :
  ms ≠ [] → (∀ m, m ∈ ms → prefix_match m = true) → is_match (mkEvaluation d ms) = true.
Proof. destruct ms as [|m ms]; [done|]. intros _ H. specialize (H m). unfold is_match. simpl.
  destruct m; [done|]. discriminate H. by left. Qed.

(** What the evaluation of a command promises, by the rules that apply. *)
Definition decides (P : PrefixRule → Prop) (fallback : Decision) (e : Evaluation) : Prop :=
  (is_match e = true ∧ (∃ r, P r ∧ rule_decision r = decision e) ∧
     ∀ r, P r → severity (rule_decision r) ≤ severity (decision e)) ∨
  (is_match e = false ∧ (∀ r, ¬ P r) ∧ decision e = fallback).

Lemma check_decides env p cmd f resolve :
  ∃ e, check_with_options env p cmd f resolve = Some e ∧
       decides (applies env p cmd resolve) (f cmd) e.
Proof.
  pose proof (rule_matches_for_spec env p cmd resolve) as Hm.
  unfold check_with_options, matches_for_command_with_options.
  destruct (rule_matches_for env p cmd resolve) as [|m ms] eqn:E.
  - eexists. split; [done|]. right. split_and!; [done|by apply matches_of_nil|done].
  - destruct (from_matches_spec (m :: ms)) as (d & -> & (m' & Hm' & Hd) & Hle); [done|].
    eexists. split; [done|]. left. destruct Hm as [H1 H2]. split_and!.
    + apply is_match_prefix; [done|]. intros x Hx. by apply H1.
    + destruct (H1 m' Hm') as (_ & r & Hr & Hrd). exists r. split; [done|]. simpl. congruence.
    + intros r Hr. destruct (H2 r Hr) as (x & Hx & <-). by apply Hle.
Qed.

(** ** Several commands *)

Lemma matches_non_empty env p cmd f resolve :
  matches_for_command_with_options env p cmd (Some f) resolve ≠ [].
Proof. unfold matches_for_command_with_options. by destruct (rule_matches_for _ _ _ _). Qed.

(** ** Merging *)

Lemma mm_insert_lookup (k k' : list N) (r : PrefixRule) (m : multimap) :
  default [] (mm_insert k r m !! k') =
  default [] (m !! k') ++ (if decide (k = k') then [r] else []).
Proof.
  unfold mm_insert. rewrite lookup_insert. case_decide; [by subst|]. by rewrite app_nil_r.
Qed.

Lemma insert_all_lookup (m : multimap) (k : list N) (rs : list PrefixRule) (k' : list N) :
  default [] (insert_all m (k, rs) !! k') =
  default [] (m !! k') ++ (if decide (k = k') then rs else []).
Proof.
  unfold insert_all. simpl. revert m. induction rs as [|r rs IH]; intros m; simpl.
  - case_decide; by rewrite app_nil_r.
  - rewrite IH, mm_insert_lookup. case_decide; by rewrite <-app_assoc.
Qed.

Lemma foldl_insert_all_lookup (m : multimap) (es : list (list N * list PrefixRule)) (k : list N) :
  NoDup es.*1 →
  default [] (foldl insert_all m es !! k) =
  default [] (m !! k) ++ default [] ((list_to_map es : multimap) !! k).
Proof.
  revert m. induction es as [|[k' rs] es IH]; intros m Hnd; simpl.
  { by rewrite app_nil_r. }
  apply NoDup_cons in Hnd as [Hnot Hnd]. rewrite IH, insert_all_lookup by done.
  destruct (decide (k' = k)) as [->|Hne].
  - rewrite lookup_insert_eq. rewrite (not_elem_of_list_to_map_1 _ _ Hnot). by rewrite app_nil_r.
  - by rewrite lookup_insert_ne, app_nil_r.
Qed.

(** The rules of a merged policy: those of the base, then those of the overlay. *)
Lemma merge_rules base overlay k :
  default [] (get_vec (rules_by_program (merge_overlay base overlay)) k) =
  default [] (get_vec (rules_by_program base) k) ++ default [] (get_vec (rules_by_program overlay) k).
Proof.
  unfold get_vec, merge_overlay. simpl. rewrite foldl_insert_all_lookup.
  - by rewrite list_to_map_to_list.
  - apply NoDup_fst_map_to_list.
Qed.

Lemma merge_exact_rule base overlay cmd r :
  exact_rule (merge_overlay base overlay) cmd r ↔ exact_rule base cmd r ∨ exact_rule overlay cmd r.
Proof.
  unfold exact_rule. setoid_rewrite merge_rules. setoid_rewrite elem_of_app. naive_solver.
Qed.

(** ** Network domains *)

(** The last rule for a host that is not a prompt. *)
Definition decisive (h : str) (r : NetworkRule) : Prop := host r = h ∧ net_decision r ≠ Prompt.
#[local] Instance decisive_dec h r : base.Decision (decisive h r).
Proof. unfold decisive. apply _. Defined.
Definition last_decision (h : str) (rs : list NetworkRule) : option Decision :=
  net_decision <$> last (filter (decisive h) rs).

Lemma last_decision_snoc h rs r :
  last_decision h (rs ++ [r]) =
  if decide (decisive h r) then Some (net_decision r) else last_decision h rs.
Proof.
  unfold last_decision. rewrite filter_app, filter_cons, filter_nil. case_decide.
  - by rewrite last_snoc.
  - by rewrite app_nil_r.
Qed.

Lemma elem_of_retain h x entries : x ∈ retain_ne h entries ↔ x ≠ h ∧ x ∈ entries.
Proof. unfold retain_ne. by rewrite list_elem_of_filter. Qed.

Lemma elem_of_upsert h x entries : x ∈ upsert_domain entries h ↔ x = h ∨ x ∈ entries.
Proof.
  unfold upsert_domain. rewrite elem_of_app, elem_of_retain, list_elem_of_singleton.
  destruct (decide (x = h)); naive_solver.
Qed.

Lemma NoDup_retain h entries : NoDup entries → NoDup (retain_ne h entries).
Proof. apply NoDup_filter. Qed.

Lemma NoDup_upsert h entries : NoDup entries → NoDup (upsert_domain entries h).
Proof.
  intros Hnd. apply NoDup_app. split_and!; [by apply NoDup_filter| |apply NoDup_singleton].
  intros x [Hx _]%elem_of_retain. by rewrite list_elem_of_singleton.
Qed.

Lemma domains_invariant rs :
  let '(allowed, denied) := foldl domains_step ([], []) rs in
  NoDup allowed ∧ NoDup denied ∧
  (∀ h, h ∈ allowed ↔ last_decision h rs = Some Allow) ∧
  (∀ h, h ∈ denied ↔ last_decision h rs = Some Forbidden).
Proof.
  induction rs as [|r rs IH] using rev_ind; simpl.
  { split_and!; try apply NoDup_nil_2; intros h; split; try done; by intros ?%not_elem_of_nil. }
  rewrite foldl_app. destruct (foldl _ _ rs) as [allowed denied]. simpl.
  destruct IH as (Ha & Hd & Hina & Hind). unfold domains_step.
  destruct (net_decision r) eqn:E;
    (split_and!; [by auto using NoDup_upsert, NoDup_retain|by auto using NoDup_upsert, NoDup_retain
                 |intros h|intros h]);
    rewrite last_decision_snoc, ?elem_of_upsert, ?elem_of_retain, ?Hina, ?Hind, ?E;
    case_decide as Hdec; unfold decisive in Hdec; rewrite E in Hdec;
    destruct (decide (host r = h)) as [<-|]; naive_solver.
Qed.

(** ** Network hosts *)

Lemma strip_port_elem raw h h' c : strip_port raw h = Ok h' → c ∈ h' → c ∈ h.
Proof.
  unfold strip_port. destruct (strip_prefix [lbracket] h) as [s|] eqn:E.
  - apply strip_prefix_Some in E as ->. destruct (split_once rbracket s) as [[a b]|] eqn:E; [|done].
    apply split_once_Some in E as ->. case_match; [done|]. intros [= <-]. set_solver.
  - case_match; [|by intros [= <-]]. destruct (rsplit_once colon h) as [[a b]|] eqn:E';
      [|by intros [= <-]].
    apply rsplit_once_Some in E' as ->. intros [= <-]. case_match; set_solver.
Qed.

Lemma strip_port_id raw h :
  colon ∉ h → head h ≠ Some lbracket → strip_port raw h = Ok h.
Proof.
  intros Hc Hb. unfold strip_port. destruct (strip_prefix [lbracket] h) as [s|] eqn:E.
  { apply strip_prefix_Some in E as ->. done. }
  assert (count_char colon h = 0) as ->; [|done].
  unfold count_char. clear Hb E. induction h as [|x h IH]; [done|]. rewrite filter_cons.
  rewrite decide_False by set_solver. apply IH. set_solver.
Qed.

Lemma lowercase_idemp s : to_ascii_lowercase (to_ascii_lowercase s) = to_ascii_lowercase s.
Proof.
  unfold to_ascii_lowercase. rewrite <-list_fmap_compose. apply list_fmap_ext. intros _ c _.
  unfold char_to_ascii_lowercase. simpl.
  destruct ((65 <=? c) && (c <=? 90))%N eqn:E; [|by rewrite E].
  bool_to_prop. apply N.leb_le in H, H0.
  destruct ((c + 32 <=? 90)%N) eqn:E2; [apply N.leb_le in E2; lia|].
  by rewrite andb_false_r.
Qed.

(** Lower-casing makes no punctuation. *)
Lemma lowercase_elem c s : (c < 97)%N → c ∈ to_ascii_lowercase s → c ∈ s.
Proof.
  intros Hc (x & Hx & Hin)%list_elem_of_fmap. unfold char_to_ascii_lowercase in Hx.
  case_match eqn:E; [|by subst]. bool_to_prop. apply N.leb_le in H. lia.
Qed.

(** ** Properties *)

(** C17. Evaluating one command always gives an evaluation.  If a rule applies, the decision is
    the strictest of the rules that apply, and one of them has it; rules for the program as
    written take precedence over rules for the base name of the program it resolves to,
    which apply only with resolution enabled and for the programs the policy lists for the
    name, if it lists any.  If no rule applies, the heuristics decide. *)
Theorem check_strictest (env : process_env) (p : Policy) (cmd : list str)
    (f : list str → Decision) (resolve : bool) :
  ∃ e, check_with_options env p cmd f resolve = Some e ∧
       decides (applies env p cmd resolve) (f cmd) e.
Proof. apply check_decides. Qed.

(** Evaluating several commands panics exactly when there are none; otherwise the decision
    is the strictest of the decisions on the commands one by one, so that no command of a
    sequence makes another one look safer. *)
Theorem check_multiple_strictest (env : process_env) (p : Policy) (cmds : list (list (list N)))
    (f : list str → Decision) (resolve : bool) :
  match check_multiple_with_options env p cmds f resolve with
  | None => cmds = []
  | Some e =>
      (∃ cmd e', cmd ∈ cmds ∧ check_with_options env p cmd f resolve = Some e' ∧
                 decision e' = decision e) ∧
      (∀ cmd e', cmd ∈ cmds → check_with_options env p cmd f resolve = Some e' →
                 severity (decision e') ≤ severity (decision e))
  end.
Proof.
  unfold check_multiple_with_options, check_with_options. set (matches cmd :=
    matches_for_command_with_options env p cmd (Some f) resolve).
  destruct cmds as [|cmd0 cmds]; [done|]. set (all := concat (matches <$> cmd0 :: cmds)).
  assert (Hne : all ≠ []).
  { unfold all. simpl. intros [H _]%app_nil. by apply matches_non_empty in H. }
  assert (Hall : ∀ m, m ∈ all ↔ ∃ cmd, cmd ∈ cmd0 :: cmds ∧ m ∈ matches cmd).
  { intros m. unfold all. rewrite list_elem_of_In, in_concat. setoid_rewrite <-list_elem_of_In.
    setoid_rewrite list_elem_of_fmap. naive_solver. }
  destruct (from_matches_spec all Hne) as (d & -> & (m & Hm & Hd) & Hle). simpl.
  assert (Hone : ∀ cmd, ∃ d', from_matches (matches cmd) = Some (mkEvaluation d' (matches cmd)) ∧
    (∃ m, m ∈ matches cmd ∧ match_decision m = d') ∧
    ∀ m, m ∈ matches cmd → severity (match_decision m) ≤ severity d').
  { intros cmd. apply from_matches_spec, matches_non_empty. }
  split.
  - apply Hall in Hm as (cmd & Hc & Hm). destruct (Hone cmd) as (d' & He & (m' & Hm' & Hd') & Hle').
    exists cmd, (mkEvaluation d' (matches cmd)). split_and!; [done..|]. simpl.
    assert (Hsev : severity d' = severity d).
    { apply Nat.le_antisymm; [rewrite <-Hd'; apply Hle, Hall; eauto|rewrite <-Hd; auto]. }
    clear -Hsev. by destruct d', d.
  - intros cmd e' Hc He'. destruct (Hone cmd) as (d' & He & (m' & Hm' & Hd') & _).
    change (from_matches (matches cmd) = Some e') in He'. rewrite He in He'.
    injection He' as <-. simpl. rewrite <-Hd'. apply Hle, Hall. eauto.
Qed.

(** Merging an overlay never weakens a rule: for a command that a rule of the base or of the
    overlay covers as written, the decision under the merged policy is at least as strict
    as that rule. *)
Theorem merge_overlay_keeps_strictness (env : process_env) (base overlay : Policy)
    (cmd : list str) (f : list str → Decision) (resolve : bool) (r : PrefixRule) :
  exact_rule base cmd r ∨ exact_rule overlay cmd r →
  ∃ e, check_with_options env (merge_overlay base overlay) cmd f resolve = Some e ∧
       is_match e = true ∧ severity (rule_decision r) ≤ severity (decision e).
Proof.
  intros Hr%merge_exact_rule.
  destruct (check_decides env (merge_overlay base overlay) cmd f resolve) as (e & He & Hd).
  exists e. split; [done|]. destruct Hd as [(Hm & _ & Hle)|(_ & Hno & _)].
  - split; [done|]. apply Hle. by left.
  - exfalso. apply (Hno r). by left.
Qed.

(** The domain lists compiled for the network proxy follow the last word on each host: a
    host is allowed (denied) exactly when the last rule for it that is not a prompt allows
    (forbids) it; neither list has duplicates. *)
Theorem compiled_domains_last_word (p : Policy) :
  let '(allowed, denied) := compiled_network_domains p in
  NoDup allowed ∧ NoDup denied ∧
  (∀ h, h ∈ allowed ↔ last_decision h (network_rules p) = Some Allow) ∧
  (∀ h, h ∈ denied ↔ last_decision h (network_rules p) = Some Forbidden).
Proof. apply domains_invariant. Qed.

(** A normalised network host is a plain lower-case name: not empty, without white space,
    wildcard, or a character of a scheme, path, query or fragment.  Normalising it again
    gives it back, unless it still has a colon, an opening bracket or a final dot. *)
Theorem normalized_host_plain (raw h : str) :
  normalize_network_rule_host raw = Ok h →
  h ≠ [] ∧ to_ascii_lowercase h = h ∧ Forall (λ c, is_whitespace c = false) h ∧
  (∀ c, c ∈ h → c ∉ [star; slash; question; hash]) ∧
  (colon ∉ h → head h ≠ Some lbracket → last h ≠ Some dot →
   normalize_network_rule_host h = Ok h).
Proof.
  unfold normalize_network_rule_host at 1. destruct (decide (trim raw = [])) as [|Hraw]; [done|].
  destruct (_ || _) eqn:Ec; [done|]. destruct (strip_port raw (trim raw)) as [h1|] eqn:Es; [|done].
  simpl. set (n := to_ascii_lowercase _). destruct (decide (n = [])) as [|Hne]; [done|].
  destruct (contains_char star n) eqn:Estar; [done|].
  destruct (existsb is_whitespace n) eqn:Ews; [done|]. intros [= <-].
  assert (Hws : Forall (λ c, is_whitespace c = false) n).
  { apply Forall_forall. intros c Hc. apply not_true_is_false. intros Hw.
    rewrite (proj2 (existsb_exists _ _)) in Ews; [done|]. exists c. by rewrite <-list_elem_of_In. }
  assert (Hfrom : ∀ c, (c < 97)%N → c ∈ n → c ∈ trim raw).
  { intros c Hc Hin%lowercase_elem; [|done]. apply elem_of_trim, elem_of_trim_end_matches in Hin.
    by eapply strip_port_elem. }
  unfold contains_char in *. bool_to_prop.
  assert (Hpunct : ∀ c, c ∈ n → c ∉ [star; slash; question; hash]).
  { intros c Hc Hin. rewrite !elem_of_cons in Hin.
    destruct Hin as [->|[->|[->|[->|Hin]]]]; [done| | | |by apply not_elem_of_nil in Hin];
      by apply Hfrom in Hc. }
  split_and!; [done|apply lowercase_idemp|done|done|].
  intros Hcolon Hbr Hdot. unfold normalize_network_rule_host.
  rewrite trim_no_whitespace by done. rewrite decide_False by done.
  assert (Hno : ∀ c, c ∈ [star; slash; question; hash] → contains_char c n = false).
  { intros c Hc. apply bool_decide_eq_false. intros Hin. by eapply Hpunct. }
  rewrite !Hno by set_solver.
  destruct (contains_str (lit "://") n) eqn:Ecs.
  { exfalso. apply (Hpunct slash); [|set_solver].
    apply (contains_str_elem _ _ slash Ecs). apply list_elem_of_In. vm_compute. auto. }
  simpl. rewrite strip_port_id by done.
  simpl. rewrite trim_end_matches_id by done. rewrite trim_no_whitespace by done.
  assert (to_ascii_lowercase n = n) as -> by apply lowercase_idemp.
  rewrite decide_False, Ews, Hno by (done || set_solver). done.
Qed.

(** ** Concrete policies *)

Definition ex_env : process_env := mkEnv None (Ok (lit "/tmp/repo")).
Definition ex_rule (prefix : list str) (d : Decision) (p : Policy) : Policy :=
  match add_prefix_rule prefix d p with Ok p' => p' | Err _ => p end.
Definition ex_allow_git : Policy := ex_rule [lit "git"] Allow empty_policy.
Definition ex_forbid_push : Policy := ex_rule [lit "git"; lit "push"] Forbidden empty_policy.

Lemma merge_overlay_keeps_strictness_witness :
  ∃ e, check_with_options ex_env (merge_overlay ex_allow_git ex_forbid_push)
         [lit "git"; lit "push"; lit "-f"] (λ _, Allow) true = Some e ∧
       is_match e = true ∧ 2 ≤ severity (decision e).
Proof.
  set (r := mkRule (mkPattern (lit "git") [Single (lit "push")]) Forbidden None).
  apply (merge_overlay_keeps_strictness ex_env ex_allow_git ex_forbid_push
    [lit "git"; lit "push"; lit "-f"] (λ _, Allow) true r).
  right. exists (lit "git"), [lit "push"; lit "-f"]. split; [reflexivity|]. split.
  - apply list_elem_of_singleton. reflexivity.
  - exists [lit "git"; lit "push"], [lit "-f"]. split; [reflexivity|].
    repeat constructor.
Defined.

Lemma normalized_host_plain_witness :
  normalize_network_rule_host (lit " Example.COM.:443 ") = Ok (lit "example.com") ∧
  normalize_network_rule_host (lit "example.com") = Ok (lit "example.com").
Proof.
  assert (H : normalize_network_rule_host (lit " Example.COM.:443 ") = Ok (lit "example.com"))
    by (vm_compute; reflexivity).
  split; [exact H|].
  apply (normalized_host_plain (lit " Example.COM.:443 ") (lit "example.com") H).
  - apply (bool_decide_unpack _). vm_compute. exact I.
  - vm_compute. discriminate.
  - vm_compute. discriminate.
Defined.

(** Base-name fallback is not limited to absolute programs: a relative program is resolved
    against the working directory of the process, so that with resolution enabled and no
    programs listed for the name, a rule that allows [git] lets [./git push] of the current
    repository run although the heuristics would refuse it. *)
Theorem relative_program_falls_back :
  check_with_options ex_env ex_allow_git [lit "./git"; lit "push"] (λ _, Forbidden) true =
  Some (mkEvaluation Allow
    [PrefixRuleMatch [lit "git"] Allow
       (Some [RootDir; Normal (lit "tmp"); Normal (lit "repo"); Normal (lit "git")]) None]).
Proof. vm_compute. reflexivity. Qed.

End ExecPolicy.
