(* ===== verification/PolicyParser.v ===== *)
(** * Policy files (execpolicy/src/parser.rs)

    A policy file is a Starlark program whose calls to the builtins [prefix_rule],
    [network_rule] and [host_executable] fill a builder.  The Starlark evaluator is a
    third-party library: a parameter [eval_module] gives the calls it makes, in order, and
    whether the evaluation ended well (the builtins return nothing, so that the calls do
    not depend on them; an error of a builtin ends the evaluation).  [shlex] and the
    rendering of an error are parameters too. *)

From stdpp Require Import prelude strings gmap.
From S2P Require Import Prelude RustStr AbsolutePath ExecPolicy.
Import AbsolutePath ExecPolicy.

Module PolicyParser.

(** A Starlark value, as far as the builtins look at it. *)
Inductive Value : Type :=
| VStr (s : list N)
| VList (items : list Value)
| VOther (type_name : list N).

Definition unpack_str (v : Value) : option str := match v with VStr s => Some s | _ => None end.
Definition get_type (v : Value) : str :=
  match v with VStr _ => lit "string" | VList _ => lit "list" | VOther t => t end.

(** [Iterator::collect::<Result<Vec<_>>>]: the first error, or all values. *)
Fixpoint collect {E A B} (f : A → result E B) (l : list A) : result E (list B) :=
  match l with
  | [] => Ok []
  | a :: l' => let? b := f a in let? bs := collect f l' in Ok (b :: bs)
  end.

(** [parse_pattern_token], [parse_pattern]. *)
Definition pattern_alternative (v : Value) : result Error str :=
  ok_or (InvalidPattern (lit "pattern alternative must be a string (got " ++ get_type v ++ lit ")"))
    (unpack_str v).
Definition parse_pattern_token (v : Value) : result Error PatternToken :=
  match v with
  | VStr s => Ok (Single s)
  | VList items =>
      let? tokens := collect pattern_alternative items in
      match tokens with
      | [] => Err (InvalidPattern (lit "pattern alternatives cannot be empty"))
      | [single] => Ok (Single single)
      | _ => Ok (Alts tokens)
      end
  | VOther t => Err (InvalidPattern (lit "pattern element must be a string or list of strings (got " ++ t ++ lit ")"))
  end.
Definition parse_pattern (pattern : list Value) : result Error (list PatternToken) :=
  let? tokens := collect parse_pattern_token pattern in
  match tokens with
  | [] => Err (InvalidPattern (lit "pattern cannot be empty"))
  | _ => Ok tokens
  end.

(** [parse_literal_absolute_path], [validate_host_executable_name],
    [parse_network_rule_decision]. *)
Definition parse_literal_absolute_path (env : process_env) (raw : str) :
    result Error (list Component) :=
  if is_absolute raw then
    map_err (λ e, InvalidRule (lit "invalid absolute path `" ++ raw ++ lit "`: " ++ e))
      (from_absolute_path (home_dir env) (current_dir env) raw)
  else Err (InvalidRule (lit "host_executable paths must be absolute (got " ++ raw ++ lit ")")).
Definition validate_host_executable_name (name : str) : result Error unit :=
  if decide (name = []) then Err (InvalidRule (lit "host_executable name cannot be empty"))
  else if negb (length (components name) =? 1)%nat ||
          negb (bool_decide (file_name (components name) = Some name))
  then Err (InvalidRule (lit "host_executable name must be a bare executable name (got " ++ name ++ lit ")"))
  else Ok tt.
Definition parse_network_rule_decision (raw : str) : result Error Decision :=
  if decide (raw = lit "deny") then Ok Forbidden else parse_decision raw.

(** [PendingExampleValidation], [PolicyBuilder]. *)
Record PendingExampleValidation : Type := mkPending {
  pending_rules : list PrefixRule;
  pending_matches : list (list (list N));
  pending_not_matches : list (list (list N));
  pending_location : option ErrorLocation;
}.
Record PolicyBuilder : Type := mkBuilder {
  b_rules_by_program : gmap (list N) (list PrefixRule);
  b_network_rules : list NetworkRule;
  b_host_executables_by_name : gmap (list N) (list (list Component));
  pending_example_validations : list PendingExampleValidation;
}.

Definition new_builder : PolicyBuilder := mkBuilder ∅ [] ∅ [].
Definition add_rule (r : PrefixRule) (b : PolicyBuilder) : PolicyBuilder :=
  mkBuilder (mm_insert (program r) r (b_rules_by_program b)) (b_network_rules b)
    (b_host_executables_by_name b) (pending_example_validations b).
Definition builder_add_network_rule (r : NetworkRule) (b : PolicyBuilder) : PolicyBuilder :=
  mkBuilder (b_rules_by_program b) (b_network_rules b ++ [r]) (b_host_executables_by_name b)
    (pending_example_validations b).
Definition add_host_executable (name : str) (paths : list (list Component)) (b : PolicyBuilder) :
    PolicyBuilder :=
  mkBuilder (b_rules_by_program b) (b_network_rules b)
    (<[name := paths]> (b_host_executables_by_name b)) (pending_example_validations b).
Definition add_pending_example_validation (v : PendingExampleValidation) (b : PolicyBuilder) :
    PolicyBuilder :=
  mkBuilder (b_rules_by_program b) (b_network_rules b) (b_host_executables_by_name b)
    (pending_example_validations b ++ [v]).
Definition build (b : PolicyBuilder) : Policy :=
  mkPolicy (b_rules_by_program b) (b_network_rules b) (b_host_executables_by_name b).

(** [attach_validation_location]. *)
Definition attach_validation_location (e : Error) (location : option ErrorLocation) : Error :=
  match location with Some l => with_location e l | None => e end.

(** The policy of the rules of one call. *)
Definition rules_policy (b : PolicyBuilder) (rules : list PrefixRule) : Policy :=
  mkPolicy (foldl (λ m r, mm_insert (program r) r m) ∅ rules) [] (b_host_executables_by_name b).

(** The loop body of [validate_pending_examples_from], and the loop. *)
Definition validate_pending (env : process_env) (b : PolicyBuilder) (v : PendingExampleValidation) :
    result Error unit :=
  let policy := rules_policy b (pending_rules v) in
  let? _ := map_err (λ e, attach_validation_location e (pending_location v))
              (validate_not_match_examples env policy (pending_not_matches v)) in
  map_err (λ e, attach_validation_location e (pending_location v))
    (validate_match_examples env policy (pending_rules v) (pending_matches v)).
Fixpoint validate_all (env : process_env) (b : PolicyBuilder) (vs : list PendingExampleValidation) :
    result Error unit :=
  match vs with
  | [] => Ok tt
  | v :: vs' => let? _ := validate_pending env b v in validate_all env b vs'
  end.
Definition validate_pending_examples_from (env : process_env) (b : PolicyBuilder) (start : nat) :
    result Error unit :=
  validate_all env b (drop start (pending_example_validations b)).

(** A call of a builtin, with its arguments and the place it is made from. *)
Inductive call : Type :=
| CallPrefixRule (pattern : list Value) (decision : option (list N))
    (matches not_matches : option (list Value)) (justification : option (list N))
    (location : option ErrorLocation)
| CallNetworkRule (host protocol decision : list N) (justification : option (list N))
| CallHostExecutable (name : list N) (paths : list Value).

(** The rules of a [prefix_rule] call: one per alternative of the first token. *)
Definition rules_of (tokens : list PatternToken) (d : Decision) (j : option str) :
    list PrefixRule :=
  match tokens with
  | [] => []
  | first_token :: rest =>
      (λ head, mkRule (mkPattern head rest) d j) <$> token_alternatives first_token
  end.

(** ** Patterns *)

Lemma collect_ok {E A B} (f : A → result E B) l bs :
  collect f l = Ok bs ↔ Forall2 (λ a b, f a = Ok b) l bs.
Proof.
  revert bs. induction l as [|a l IH]; intros bs; simpl.
  - split; [intros [= <-]; constructor|by inversion 1].
  - split.
    + intros (b & Hb & (bs' & Hbs & [= <-])%result_bind_ok)%result_bind_ok.
      constructor; [done|]. by apply IH.
    + inversion 1 as [|? b ? bs' Hb HF]; subst. rewrite Hb. simpl. apply IH in HF. by rewrite HF.
Qed.

(** The words a pattern element of the file stands for. *)
Definition value_lists (v : Value) (w : str) : Prop :=
  v = VStr w ∨ ∃ items, v = VList items ∧ VStr w ∈ items.

Lemma alternatives_spec items tokens w :
  collect pattern_alternative items = Ok tokens → w ∈ tokens ↔ VStr w ∈ items.
Proof.
  intros HF%collect_ok. induction HF as [|v t items tokens Hv _ IH]; [split; by intros ?%not_elem_of_nil|].
  rewrite !elem_of_cons, IH. unfold pattern_alternative in Hv. destruct v; simplify_eq/=.
  naive_solver.
Qed.

Lemma pattern_token_spec v t w :
  parse_pattern_token v = Ok t → w ∈ token_alternatives t ↔ value_lists v w.
Proof.
  unfold value_lists. destruct v as [s|items|ty]; simpl; [|intros H|done].
  - intros [= <-]. simpl. rewrite list_elem_of_singleton. naive_solver.
  - apply result_bind_ok in H as (tokens & Ht & H).
    pose proof (alternatives_spec items tokens w Ht) as Hw.
    assert (token_alternatives t = tokens) as -> by (repeat case_match; by simplify_eq).
    rewrite Hw. naive_solver.
Qed.

Lemma rules_of_covers pattern tokens d j cmd :
  parse_pattern pattern = Ok tokens →
  (∃ r, r ∈ rules_of tokens d j ∧ covers r cmd) ↔
  ∃ ws tail, cmd = ws ++ tail ∧ Forall2 value_lists pattern ws.
Proof.
  intros (ts & Hts & Hne)%result_bind_ok.
  assert (tokens = ts) as -> by by destruct ts; simplify_eq. apply collect_ok in Hts.
  assert (Hspec : ∀ ws, Forall2 value_lists pattern ws ↔
    Forall2 (λ t w, w ∈ token_alternatives t) ts ws).
  { clear Hne. induction Hts as [|v t pattern ts Hv _ IH]; intros ws.
    - split; inversion 1; constructor.
    - destruct ws as [|w ws]; [split; inversion 1|].
      by rewrite !Forall2_cons, IH, (pattern_token_spec v t w Hv). }
  setoid_rewrite Hspec. destruct ts as [|t ts]; [done|]. unfold covers. simpl. split.
  - intros (r & (h & -> & Hh)%list_elem_of_fmap & ws & tail & -> & HF). simpl in HF.
    exists ws, tail. split; [done|]. inversion HF as [|? w ? ws' Hw HF']; subst.
    apply list_elem_of_singleton in Hw as ->. by constructor.
  - intros (ws & tail & -> & HF). inversion HF as [|? w ? ws' Hw HF']; subst.
    exists (mkRule (mkPattern w ts) d j). split; [apply list_elem_of_fmap; by exists w|].
    exists (w :: ws'), tail. split; [done|]. simpl. constructor; [set_solver|done].
Qed.

(** ** The parser *)

Section parser.
Variable env : process_env.
Variable shlex_split : str → option (list (list N)).
Variable render_error : Error → str.
Variable eval_module : str → str → list call * result str unit.

(** [parse_string_example], [parse_list_example], [parse_example], [parse_examples]. *)
Definition parse_string_example (raw : str) : result Error (list (list N)) :=
  let? tokens := ok_or (InvalidExample (lit "example string has invalid shell syntax"))
                   (shlex_split raw) in
  match tokens with
  | [] => Err (InvalidExample (lit "example cannot be an empty string"))
  | _ => Ok tokens
  end.
Definition example_token (v : Value) : result Error str :=
  ok_or (InvalidExample (lit "example tokens must be strings (got " ++ get_type v ++ lit ")"))
    (unpack_str v).
Definition parse_list_example (items : list Value) : result Error (list (list N)) :=
  let? tokens := collect example_token items in
  match tokens with
  | [] => Err (InvalidExample (lit "example cannot be an empty list"))
  | _ => Ok tokens
  end.
Definition parse_example (v : Value) : result Error (list (list N)) :=
  match v with
  | VStr raw => parse_string_example raw
  | VList items => parse_list_example items
  | VOther t => Err (InvalidExample (lit "example must be a string or list of strings (got " ++ t ++ lit ")"))
  end.
Definition parse_examples (examples : option (list Value)) : result Error (list (list (list N))) :=
  match examples with Some l => collect parse_example l | None => Ok [] end.

(** [prefix_rule]. *)
Definition prefix_rule (pattern : list Value) (decision : option (list N))
    (matches not_matches : option (list Value)) (justification : option (list N))
    (location : option ErrorLocation) : M PolicyBuilder Error unit :=
  let! decision := st_lift (match decision with
                            | Some raw => parse_decision raw | None => Ok Allow end) in
  if blank justification then st_throw (InvalidRule (lit "justification cannot be empty"))
  else
    let! tokens := st_lift (parse_pattern pattern) in
    let! matches := st_lift (parse_examples matches) in
    let! not_matches := st_lift (parse_examples not_matches) in
    let rules := rules_of tokens decision justification in
    st_modify (add_pending_example_validation (mkPending rules matches not_matches location)) ;;;
    st_modify (λ b, foldl (λ b r, add_rule r b) b rules).

(** [network_rule]. *)
Definition network_rule (h proto decision : str) (justification : option str) :
    M PolicyBuilder Error unit :=
  let! proto := st_lift (protocol_parse proto) in
  let! decision := st_lift (parse_network_rule_decision decision) in
  if blank justification then st_throw (InvalidRule (lit "justification cannot be empty"))
  else
    let! h := st_lift (normalize_network_rule_host h) in
    st_modify (builder_add_network_rule (mkNetworkRule h proto decision justification)).

(** [host_executable]: the loop over the paths, then the builtin. *)
Definition wrong_basename (raw name : str) : Error :=
  InvalidRule (lit "host_executable path `" ++ raw ++ lit "` must have basename `" ++ name ++ lit "`").
Definition host_path (name : str) (v : Value) : result Error (list Component) :=
  let? raw := ok_or (InvalidRule (lit "host_executable paths must be strings (got " ++ get_type v ++ lit ")"))
                (unpack_str v) in
  let? path := parse_literal_absolute_path env raw in
  match executable_path_lookup_key path with
  | None => Err (wrong_basename raw name)
  | Some path_name =>
      if decide (path_name = executable_lookup_key name) then Ok path
      else Err (wrong_basename raw name)
  end.
Fixpoint host_paths (name : str) (values : list Value) (parsed : list (list Component)) :
    result Error (list (list Component)) :=
  match values with
  | [] => Ok parsed
  | v :: values' =>
      let? path := host_path name v in
      host_paths name values' (if decide (path ∈ parsed) then parsed else parsed ++ [path])
  end.
Definition host_executable (name : str) (paths : list Value) : M PolicyBuilder Error unit :=
  let! _ := st_lift (validate_host_executable_name name) in
  let! parsed := st_lift (host_paths name paths []) in
  st_modify (add_host_executable (executable_lookup_key name) parsed).

Definition run_call (c : call) : M PolicyBuilder Error unit :=
  match c with
  | CallPrefixRule p d m n j l => prefix_rule p d m n j l
  | CallNetworkRule h p d j => network_rule h p d j
  | CallHostExecutable name paths => host_executable name paths
  end.
Fixpoint run_calls (cs : list call) : M PolicyBuilder Error unit :=
  match cs with
  | [] => st_ret tt
  | c :: cs' => run_call c ;;; run_calls cs'
  end.

(** [PolicyParser::parse]. *)
Definition parse (policy_identifier contents : str) : M PolicyBuilder Error unit := λ b,
  let start := length (pending_example_validations b) in
  let '(calls, ended) := eval_module policy_identifier contents in
  let '(b, r) := run_calls calls b in
  match r with
  | Err e => (b, Err (Starlark (render_error e)))
  | Ok _ =>
      match ended with
      | Err e => (b, Err (Starlark e))
      | Ok _ => (b, validate_pending_examples_from env b start)
      end
  end.

(** ** What the builder holds *)

Lemma add_rules_lookup rules b k :
  let b' := foldl (λ b r, add_rule r b) b rules in
  default [] (b_rules_by_program b' !! k) =
    default [] (b_rules_by_program b !! k) ++ filter (λ r, program r = k) rules ∧
  b_host_executables_by_name b' = b_host_executables_by_name b ∧
  pending_example_validations b' = pending_example_validations b.
Proof.
  revert b. induction rules as [|r rules IH]; intros b; simpl.
  { split; [by rewrite app_nil_r|done]. }
  destruct (IH (add_rule r b)) as (-> & -> & ->). split; [|done]. simpl.
  rewrite mm_insert_lookup, filter_cons. case_decide; by rewrite <-app_assoc.
Qed.

Lemma rules_policy_lookup b rules k :
  default [] (get_vec (rules_by_program (rules_policy b rules)) k) = filter (λ r, program r = k) rules.
Proof.
  unfold rules_policy, get_vec. simpl. change (filter _ rules) with
    (default [] ((∅ : gmap (list N) (list PrefixRule)) !! k) ++ filter (λ r, program r = k) rules).
  generalize (∅ : gmap (list N) (list PrefixRule)). induction rules as [|r rules IH]; intros m; simpl.
  { by rewrite app_nil_r. }
  rewrite IH, mm_insert_lookup, filter_cons. case_decide; by rewrite <-app_assoc.
Qed.

(** Every rule that awaits validation is in the builder. *)
Definition holds_pending (b : PolicyBuilder) : Prop :=
  ∀ v r, v ∈ pending_example_validations b → r ∈ pending_rules v →
    r ∈ default [] (b_rules_by_program b !! program r).

Lemma holds_pending_call c b b' r :
  holds_pending b → run_call c b = (b', r) →
  holds_pending b' ∧ pending_example_validations b `prefix_of` pending_example_validations b'.
Proof.
  intros Hb Hc.
  assert (Hsame : b' = b → holds_pending b' ∧ pending_example_validations b `prefix_of`
    pending_example_validations b') by by intros ->.
  destruct c as [p d m n j l|h p d j|name paths]; simpl in Hc.
  - unfold prefix_rule in Hc. st_unfold Hc. repeat (case_match; simplify_eq/=); auto.
    all: match goal with |- holds_pending (foldl _ ?b0 ?rules) ∧ _ =>
      pose proof (λ k, add_rules_lookup rules b0 k) as Hl; simpl in Hl end.
    all: split; [|destruct (Hl []) as (_ & _ & ->); by eexists].
    all: intros v r Hv Hr; destruct (Hl (program r)) as (-> & _ & Hp); rewrite Hp in Hv;
      apply elem_of_app; apply elem_of_app in Hv as [Hv| ->%list_elem_of_singleton];
      [left; by eapply Hb|right; by apply list_elem_of_filter].
  - unfold network_rule in Hc. st_unfold Hc. repeat (case_match; simplify_eq/=); auto.
  - unfold host_executable in Hc. st_unfold Hc. repeat (case_match; simplify_eq/=); auto.
Qed.

Lemma holds_pending_calls cs b b' r :
  holds_pending b → run_calls cs b = (b', r) →
  holds_pending b' ∧ pending_example_validations b `prefix_of` pending_example_validations b'.
Proof.
  revert b. induction cs as [|c cs IH]; intros b Hb Hr; simpl in Hr.
  { by injection Hr as <- <-. }
  unfold st_bind in Hr. destruct (run_call c b) as [b1 r1] eqn:E.
  apply holds_pending_call in E as [Hb1 Hp1]; [|done].
  destruct r1; [|by simplify_eq]. apply IH in Hr as [Hb' Hp']; [|done]. split; [done|by etrans].
Qed.

(** The builders a parser goes through: any files, whether they parse or not. *)
Inductive builder_reachable : PolicyBuilder → Prop :=
| builder_new : builder_reachable new_builder
| builder_parse id contents b b' r :
    builder_reachable b → parse id contents b = (b', r) → builder_reachable b'.

Lemma reachable_holds_pending b : builder_reachable b → holds_pending b.
Proof.
  induction 1 as [|id contents b b' r _ IH Hp]; [by intros v r ?%not_elem_of_nil|].
  unfold parse in Hp. destruct (eval_module id contents) as [calls ended].
  destruct (run_calls calls b) as [b1 r1] eqn:Er. apply holds_pending_calls in Er as [Hb1 _]; [|done].
  repeat case_match; by simplify_eq.
Qed.

(** ** Examples *)

Lemma validate_all_ok b vs v :
  validate_all env b vs = Ok tt → v ∈ vs → validate_pending env b v = Ok tt.
Proof.
  induction vs as [|v' vs IH]; simpl; [by intros _ ?%not_elem_of_nil|].
  intros ([] & Hv & Hvs)%result_bind_ok [->|Hin]%elem_of_cons; auto.
Qed.

Lemma map_err_ok {E F A} (f : E → F) (r : result E A) a : map_err f r = Ok a → r = Ok a.
Proof. destruct r; simpl; congruence. Qed.

Lemma no_fallback p ex : matches_for_command_with_options env p ex None true = rule_matches_for env p ex true.
Proof. unfold matches_for_command_with_options. by destruct (rule_matches_for _ _ _ _). Qed.

Lemma validate_match_ok p rules exs ex :
  validate_match_examples env p rules exs = Ok tt → ex ∈ exs → ∃ r, applies env p ex true r.
Proof.
  unfold validate_match_examples. destruct (unmatched_examples env p exs) eqn:E; [|done].
  intros _ Hex. pose proof (rule_matches_for_spec env p ex true) as [H _].
  destruct (rule_matches_for env p ex true) as [|m ms] eqn:Em.
  - assert (Hin : ex ∈ unmatched_examples env p exs).
    { apply list_elem_of_omap. exists ex. split; [done|]. by rewrite no_fallback, Em. }
    rewrite E in Hin. by apply not_elem_of_nil in Hin.
  - destruct (H m) as (_ & r & Hr & _); [by left|]. by exists r.
Qed.

Lemma validate_not_match_ok p exs ex :
  validate_not_match_examples env p exs = Ok tt → ex ∈ exs → ∀ r, ¬ applies env p ex true r.
Proof.
  induction exs as [|e exs IH]; simpl; [by intros _ ?%not_elem_of_nil|].
  destruct (matches_for_command_with_options env p e None true) eqn:E; [|done].
  intros H [->|Hin]%elem_of_cons; [|auto]. rewrite no_fallback in E.
  apply matches_of_nil. rewrite <-E. apply rule_matches_for_spec.
Qed.

(** A rule of a call that applies by itself still applies, or is overruled by an exact rule,
    in the policy that is built. *)
Lemma applies_in_build b v ex r :
  holds_pending b → v ∈ pending_example_validations b →
  applies env (rules_policy b (pending_rules v)) ex true r → ∃ r', applies env (build b) ex true r'.
Proof.
  intros Hb Hv Hr.
  assert (Hin : ∀ k r, r ∈ default [] (get_vec (rules_by_program (rules_policy b (pending_rules v))) k) →
    r ∈ default [] (get_vec (rules_by_program (build b)) k)).
  { intros k r'. rewrite rules_policy_lookup. intros [<- Hr']%list_elem_of_filter.
    by eapply Hb. }
  assert (Hexact : ∀ r, exact_rule (rules_policy b (pending_rules v)) ex r → exact_rule (build b) ex r).
  { intros r' (c & args & -> & Hr' & Hc). exists c, args. auto. }
  destruct Hr as [Hr|(_ & _ & Hr)]; [exists r; left; auto|].
  pose proof (exact_matches (build b) ex) as [He _].
  destruct (default [] (match_exact_rules (build b) ex)) as [|m ms] eqn:Em.
  - exists r. right. split; [done|]. split.
    + apply matches_of_nil. rewrite <-Em. apply exact_matches.
    + destruct Hr as (c & args & prog & base & ? & ? & ? & Hr & ? & ?).
      exists c, args, prog, base. split_and!; auto.
  - destruct (He m) as (_ & r' & Hr' & _); [by left|]. exists r'. by left.
Qed.

(** ** Properties *)

(** A [prefix_rule] call means what its pattern says: the rules it adds, one per
    alternative of the first element and stored under their programs after those that were
    there, together cover exactly the commands that start with a word of each element in
    turn. *)
Theorem prefix_rule_meaning (pattern : list Value) (d : option (list N))
    (matches not_matches : option (list Value)) (j : option (list N))
    (location : option ErrorLocation) (b b' : PolicyBuilder) :
  prefix_rule pattern d matches not_matches j location b = (b', Ok tt) →
  ∃ rules,
    (∀ k, default [] (b_rules_by_program b' !! k) =
          default [] (b_rules_by_program b !! k) ++ filter (λ r, program r = k) rules) ∧
    ∀ cmd, (∃ r, r ∈ rules ∧ covers r cmd) ↔
           ∃ ws tail, cmd = ws ++ tail ∧ Forall2 value_lists pattern ws.
Proof.
  intros H. unfold prefix_rule in H. st_unfold H.
  destruct (match d with Some raw => parse_decision raw | None => Ok Allow end) as [d'|]; [|done].
  destruct (blank j); [done|]. destruct (parse_pattern pattern) as [tokens|] eqn:Ep; [|done].
  destruct (parse_examples matches) as [ms|]; [|done].
  destruct (parse_examples not_matches) as [nms|]; [|done]. injection H as <-.
  exists (rules_of tokens d' j). split; [|intros cmd; by apply rules_of_covers].
  intros k. by destruct (add_rules_lookup (rules_of tokens d' j)
    (add_pending_example_validation (mkPending (rules_of tokens d' j) ms nms location) b) k) as [-> _].
Qed.

(** The examples of a policy are tests of the policy that is built: when [parse] succeeds,
    for every [prefix_rule] call of the file, some rule of the built policy applies to each
    of its positive examples, and no rule of the call covers a negative example. *)
Theorem parsed_examples_hold (id contents : str) (b b' : PolicyBuilder)
    (v : PendingExampleValidation) :
  builder_reachable b → parse id contents b = (b', Ok tt) →
  v ∈ drop (length (pending_example_validations b)) (pending_example_validations b') →
  (∀ ex, ex ∈ pending_matches v → ∃ r, applies env (build b') ex true r) ∧
  (∀ ex r, ex ∈ pending_not_matches v → r ∈ pending_rules v → ¬ covers r ex).
Proof.
  intros Hb%reachable_holds_pending Hp Hv. unfold parse in Hp. destruct (eval_module id contents) as [calls ended].
  destruct (run_calls calls b) as [b1 [[]|e]] eqn:Er; [|done]. destruct ended as [[]|]; [|done].
  injection Hp as -> Hval. apply holds_pending_calls in Er as [Hb' _]; [|done].
  assert (Hv' : v ∈ pending_example_validations b').
  { rewrite <-(take_drop (length (pending_example_validations b))
      (pending_example_validations b')). apply elem_of_app. by right. }
  apply (validate_all_ok b' _ v Hval) in Hv.
  apply result_bind_ok in Hv as ([] & Hnot%map_err_ok & Hmatch%map_err_ok). split.
  - intros ex Hex. destruct (validate_match_ok _ _ _ _ Hmatch Hex) as [r Hr].
    by eapply applies_in_build.
  - intros ex r Hex Hr Hc. apply (validate_not_match_ok _ _ _ Hnot Hex r). left.
    pose proof Hc as (ws & tail & -> & HF). inversion HF as [|? w ? ws' Hw HF']; subst.
    apply list_elem_of_singleton in Hw as ->. eexists _, _. split; [done|]. split; [|done].
    rewrite rules_policy_lookup. by apply list_elem_of_filter.
Qed.

End parser.

(** ** A concrete policy file *)

Definition ex_split (s : str) : option (list (list N)) := Some (split_on space s).
Definition ex_pattern : list Value :=
  [VList [VStr (lit "git"); VStr (lit "hg")]; VStr (lit "status")].
Definition ex_call : call :=
  CallPrefixRule ex_pattern None (Some [VStr (lit "hg status -v"); VList [VStr (lit "/bin/git"); VStr (lit "status")]])
    (Some [VStr (lit "git push")]) None None.
Definition ex_eval (id contents : str) : list call * result str unit :=
  ([ex_call; CallHostExecutable (lit "git") [VStr (lit "/bin/git")]], Ok tt).
Definition ex_parse := parse ex_env ex_split (λ _, []) ex_eval [] [] new_builder.

Lemma prefix_rule_meaning_witness :
  ∃ rules : list PrefixRule,
    (∀ k, default [] (b_rules_by_program
            (prefix_rule ex_split ex_pattern None None None None None new_builder).1 !! k) =
          filter (λ r, program r = k) rules) ∧
    ∃ r, r ∈ rules ∧ covers r [lit "hg"; lit "status"; lit "-v"].
Proof.
  destruct (prefix_rule_meaning ex_split ex_pattern None None None None None new_builder
    (prefix_rule ex_split ex_pattern None None None None None new_builder).1) as (rules & Hk & Hc);
    [reflexivity|].
  exists rules. split; [exact Hk|]. apply Hc. exists [lit "hg"; lit "status"], [lit "-v"].
  split; [reflexivity|]. constructor; [right; eexists; split; [reflexivity|right; left]|].
  constructor; [left; reflexivity|constructor].
Defined.

Lemma parsed_examples_hold_witness :
  ∃ r, applies ex_env (build ex_parse.1) [lit "/bin/git"; lit "status"] true r.
Proof.
  destruct (parsed_examples_hold ex_env ex_split (λ _, []) ex_eval [] [] new_builder ex_parse.1
    (mkPending (rules_of [Alts [lit "git"; lit "hg"]; Single (lit "status")] Allow None)
       [[lit "hg"; lit "status"; lit "-v"]; [lit "/bin/git"; lit "status"]]
       [[lit "git"; lit "push"]] None)) as [H _].
  - apply builder_new.
  - vm_compute. reflexivity.
  - vm_compute. left.
  - apply H. right. left.
Defined.

End PolicyParser.
