(* ===== verification/PolicyAmend.v ===== *)
(** * Amending a policy file (execpolicy/src/amend.rs)

    An approval the user wants to keep is appended to a policy file as one more line.  The
    file is its text, or missing.  Each system call may fail: [io_outcomes] says which ones
    do in a run, and how much of a failed write reached the file.  JSON encoding
    ([serde_json]) is a parameter. *)

From stdpp Require Import prelude strings.
From S2P Require Import Prelude RustStr AbsolutePath ExecPolicy PatchTypes.
Import AbsolutePath ExecPolicy.

Module PolicyAmend.

(** [AmendError]; the [source] of an I/O error is kept, the path is that of the call. *)
Inductive AmendError : Type :=
| EmptyPrefix
| InvalidNetworkRule (msg : list N)
| MissingParent
| CreatePolicyDir (source : io_error)
| SerializePrefix (source : list N)
| SerializeNetworkRule (source : list N)
| OpenPolicyFile (source : io_error)
| WritePolicyFile (source : io_error)
| LockPolicyFile (source : io_error)
| SeekPolicyFile (source : io_error)
| ReadPolicyFile (source : io_error).

(** The outcomes of the system calls of one run. *)
Record io_outcomes : Type := mkOutcomes {
  create_dir_result : result io_error unit;
  open_fault : option io_error;
  lock_fault : option io_error;
  seek_fault : option io_error;
  read_fault : option io_error;
  newline_fault : option (nat * io_error);
  line_fault : option (nat * io_error);
}.

(** The policy file: its text if it exists. *)
Notation policy_file := (option (list N)).

Definition fault {S E} (f : option io_error) (mk : io_error → E) : M S E unit :=
  match f with Some e => st_throw (mk e) | None => st_ret tt end.

(** [write_all] in append mode: on failure a part of the text is written. *)
Definition write_all (f : option (nat * io_error)) (text : str) : M policy_file AmendError unit :=
  λ file,
  let old := default [] file in
  match f with
  | Some (n, e) => (Some (old ++ take n text), Err (WritePolicyFile e))
  | None => (Some (old ++ text), Ok tt)
  end.

(** [append_locked_line]. *)
Definition append_locked_line (io : io_outcomes) (line : str) : M policy_file AmendError unit :=
  fault (open_fault io) OpenPolicyFile ;;;
  st_modify (λ file, Some (default [] file)) ;;;
  fault (lock_fault io) LockPolicyFile ;;;
  fault (seek_fault io) SeekPolicyFile ;;;
  fault (read_fault io) ReadPolicyFile ;;;
  let! file := st_get in
  let contents := default [] file in
  if existsb (λ existing, bool_decide (existing = line)) (lines contents) then st_ret tt
  else
    (if negb (bool_decide (contents = [])) && negb (ends_with [nl] contents)
     then write_all (newline_fault io) [nl] else st_ret tt) ;;;
    write_all (line_fault io) (line ++ [nl]).

(** [Path::parent] of the policy path exists. *)
Definition has_parent (policy_path : str) : bool :=
  match last (components policy_path) with None | Some RootDir => false | _ => true end.

(** [append_rule_line]. *)
Definition append_rule_line (io : io_outcomes) (policy_path rule : str) :
    M policy_file AmendError unit :=
  if has_parent policy_path then
    match create_dir_result io with
    | Ok _ => append_locked_line io rule
    | Err e => if decide (io_kind e = AlreadyExists) then append_locked_line io rule
               else st_throw (CreatePolicyDir e)
    end
  else st_throw MissingParent.

Section amend.
Variable to_json : str → result str (list N).

Fixpoint to_json_all (tokens : list str) : result str (list (list N)) :=
  match tokens with
  | [] => Ok []
  | t :: ts => let? j := to_json t in let? js := to_json_all ts in Ok (j :: js)
  end.

(** The text of an allow rule. *)
Definition allow_rule_line (tokens : list str) : str :=
  lit "prefix_rule(pattern=[" ++ join (lit ", ") tokens ++ lit "], decision=" ++ [dquote] ++
  lit "allow" ++ [dquote] ++ lit ")".

(** [blocking_append_allow_prefix_rule]. *)
Definition blocking_append_allow_prefix_rule (io : io_outcomes) (policy_path : str)
    (prefix : list str) : M policy_file AmendError unit :=
  match prefix with
  | [] => st_throw EmptyPrefix
  | _ =>
      let! tokens := st_lift (map_err SerializePrefix (to_json_all prefix)) in
      append_rule_line io policy_path (allow_rule_line tokens)
  end.

(** [Error::to_string] of the one error that host normalisation returns. *)
Definition invalid_rule_text (e : Error) : str :=
  match e with InvalidRule msg => lit "invalid rule: " ++ msg | _ => [] end.

(** [blocking_append_network_rule]. *)
Definition decision_word (d : Decision) : str :=
  match d with Allow => lit "allow" | Prompt => lit "prompt" | Forbidden => lit "deny" end.
Definition network_rule_line (args : list str) : str :=
  lit "network_rule(" ++ join (lit ", ") args ++ lit ")".
Definition json_field (name value : str) : result AmendError (list N) :=
  let? j := map_err SerializeNetworkRule (to_json value) in Ok (name ++ lit "=" ++ j).
Definition blocking_append_network_rule (io : io_outcomes) (policy_path h : str)
    (proto : NetworkRuleProtocol) (d : Decision) (j : option str) :
    M policy_file AmendError unit :=
  let! h := st_lift (map_err (λ e, InvalidNetworkRule (invalid_rule_text e))
                    (normalize_network_rule_host h)) in
  if blank j then st_throw (InvalidNetworkRule (lit "justification cannot be empty"))
  else
    let! h := st_lift (json_field (lit "host") h) in
    let! proto := st_lift (json_field (lit "protocol") (as_policy_string proto)) in
    let! d := st_lift (json_field (lit "decision") (decision_word d)) in
    let! j := st_lift (match j with
                       | Some j => let? j := json_field (lit "justification") j in Ok [j]
                       | None => Ok []
                       end) in
    append_rule_line io policy_path (network_rule_line ([h; proto; d] ++ j)).

(** ** Appending *)

(** What the text becomes, given what the run returns: nothing that was there is lost, and
    on success the line is one more line of the file, once. *)
Definition appended (line old : str) (file' : policy_file) (r : result AmendError unit) : Prop :=
  old `prefix_of` default [] file' ∧
  (r = Ok tt → lines (default [] file') =
     if bool_decide (line ∈ lines old) then lines old else lines old ++ [line]).

Lemma existsb_line (line : list N) (ls : list (list N)) :
  existsb (λ existing, bool_decide (existing = line)) ls = bool_decide (line ∈ ls).
Proof.
  apply eq_iff_eq_true. rewrite existsb_exists, bool_decide_eq_true.
  setoid_rewrite bool_decide_eq_true. setoid_rewrite <-list_elem_of_In. naive_solver.
Qed.

Lemma ends_with_nl t : ends_with [nl] t = true ↔ ∃ t', t = t' ++ [nl].
Proof.
  unfold ends_with. rewrite bool_decide_eq_true. split.
  - intros [r Hr%strip_suffix_Some]. by exists r.
  - intros [r ->]. exists r. by apply strip_suffix_Some.
Qed.

Lemma append_locked_line_appended io line file file' r :
  nl ∉ line → last line ≠ Some cr → last (default [] file) ≠ Some cr →
  append_locked_line io line file = (file', r) → appended line (default [] file) file' r.
Proof.
  intros Hnl Hcr Hold H. unfold append_locked_line, fault in H. st_unfold H.
  set (old := default [] file) in *.
  assert (Hkeep : ∀ e : AmendError, appended line old file (Err e) ∧ appended line old (Some old) (Err e)).
  { intros e. by split. }
  destruct (open_fault io); [injection H as <- <-; apply Hkeep|].
  destruct (lock_fault io); [injection H as <- <-; apply Hkeep|].
  destruct (seek_fault io); [injection H as <- <-; apply Hkeep|].
  destruct (read_fault io); [injection H as <- <-; apply Hkeep|].
  cbn [from_option id] in H. fold old in H. rewrite existsb_line in H. unfold appended.
  destruct (bool_decide (line ∈ lines old)); [by injection H as <- <-|].
  destruct (negb _ && negb _) eqn:Ec; unfold write_all in H;
    cbn [from_option id] in H.
  - bool_to_prop. destruct (newline_fault io) as [[n e]|].
    { injection H as <- <-. split; [by apply prefix_app_r|done]. }
    destruct (line_fault io) as [[n e]|]; injection H as <- <-; cbn [from_option id].
    { split; [do 2 apply prefix_app_r; done|done]. }
    split; [by do 2 apply prefix_app_r|]. intros _.
    rewrite lines_snoc; [|right; by eexists|done..].
    rewrite lines_terminate; [done..| |done].
    intros [t' Ht]%last_Some_snoc. rewrite (proj2 (ends_with_nl old)) in H1; [done|].
    by exists t'.
  - destruct (line_fault io) as [[n e]|]; injection H as <- <-; cbn [from_option id].
    { split; [by apply prefix_app_r|done]. }
    split; [by apply prefix_app_r|]. intros _. apply lines_snoc; [|done..].
    apply andb_false_iff in Ec as [Ec|Ec]; bool_to_prop; [by left|right]. by apply ends_with_nl.
Qed.

Lemma join_elem sep ws (c : char) : c ∈ join sep ws → c ∈ sep ∨ ∃ w, w ∈ ws ∧ c ∈ w.
Proof.
  induction ws as [|w ws IH]; [by intros ?%not_elem_of_nil|]. destruct ws as [|w' ws].
  - intros Hc. right. exists w. split; [by left|done].
  - rewrite join_cons, !elem_of_app. intros [Hc|[Hc|Hc]]; [|by left|].
    + right. exists w. split; [by left|done].
    + destruct (IH Hc) as [|(x & Hx & ?)]; [by left|]. right. exists x. split; [by right|done].
Qed.

(** JSON text has no line feed: control characters are escaped. *)
Hypothesis to_json_one_line : ∀ s j, to_json s = Ok j → nl ∉ j.

Lemma to_json_all_one_line ts js w : to_json_all ts = Ok js → w ∈ js → nl ∉ w.
Proof.
  revert js. induction ts as [|t ts IH]; intros js; simpl.
  - intros [= <-]. by intros ?%not_elem_of_nil.
  - intros (j & Hj & (js' & Hjs & [= <-])%result_bind_ok)%result_bind_ok [->|Hw]%elem_of_cons; eauto.
Qed.

Lemma allow_rule_line_ok ts js :
  to_json_all ts = Ok js → nl ∉ allow_rule_line js ∧ last (allow_rule_line js) ≠ Some cr.
Proof.
  intros Hjs. unfold allow_rule_line. split.
  - rewrite !not_elem_of_app. split_and!; try (apply (bool_decide_unpack _); vm_compute; exact I).
    intros [Hc|(w & Hw & Hc)]%join_elem; [revert Hc; apply (bool_decide_unpack _); vm_compute; exact I|].
    by eapply to_json_all_one_line.
  - rewrite !app_assoc. change (lit ")") with [41%N]. by rewrite last_snoc.
Qed.

(** ** Properties *)

(** Keeping an approval: whatever system call fails, nothing of the policy file is lost;
    on success the rule is exactly one more line at its end, or the file has the lines it
    had, if the rule was already there; an empty prefix is refused and changes nothing.  The
    file must not end in a bare carriage return. *)
Theorem append_allow_rule_appends (io : io_outcomes) (policy_path : str) (prefix : list str)
    (file file' : policy_file) (r : result AmendError unit) :
  last (default [] file) ≠ Some cr →
  blocking_append_allow_prefix_rule io policy_path prefix file = (file', r) →
  match prefix, to_json_all prefix with
  | [], _ => file' = file ∧ r = Err EmptyPrefix
  | _, Err e => file' = file ∧ r = Err (SerializePrefix e)
  | _, Ok tokens => appended (allow_rule_line tokens) (default [] file) file' r
  end.
Proof.
  intros Hold H. unfold blocking_append_allow_prefix_rule in H.
  destruct prefix as [|t ts]; [by injection H as <- <-|]. st_unfold H.
  destruct (to_json_all (t :: ts)) as [js|e] eqn:Ej; cbn [map_err] in H; [|by injection H as <- <-].
  destruct (allow_rule_line_ok _ _ Ej) as [Hnl Hcr].
  assert (Hkeep : ∀ e, appended (allow_rule_line js) (default [] file) file (Err e)) by by split.
  unfold append_rule_line in H. destruct (has_parent policy_path); [|by injection H as <- <-].
  destruct (create_dir_result io) as [|e]; [by eapply append_locked_line_appended|].
  case_decide; [by eapply append_locked_line_appended|by injection H as <- <-].
Qed.

End amend.

Definition ex_json (s : str) : result str (list N) :=
  Ok (dquote :: filter (λ c, c ≠ nl) s ++ [dquote]).
Definition ex_io : io_outcomes :=
  mkOutcomes (Err (mkIoError AlreadyExists [])) None None None None None None.

Lemma append_allow_rule_appends_witness :
  appended (allow_rule_line [dquote :: lit "git" ++ [dquote]]) (lit "# rules")
    (blocking_append_allow_prefix_rule ex_json ex_io (lit "/p/default.rules") [lit "git"]
       (Some (lit "# rules"))).1 (Ok tt).
Proof.
  apply (append_allow_rule_appends ex_json) with (io := ex_io) (policy_path := lit "/p/default.rules")
    (prefix := [lit "git"]) (file := Some (lit "# rules")).
  - intros s j [= <-]. rewrite elem_of_cons, elem_of_app, list_elem_of_filter, list_elem_of_singleton.
    intros [H|[[H _]|H]]; [discriminate H|by apply H|discriminate H].
  - vm_compute. discriminate.
  - vm_compute. reflexivity.
Defined.

End PolicyAmend.
