(* ===== verification/HeadTailBuffer.v ===== *)
(** * The capped output buffer of unified exec (core/src/unified_exec/head_tail_buffer.rs)

    The buffer keeps the first and the last bytes of a process's output and counts what it
    drops in between.  Bytes are [N]; the counter is a [usize] with saturating addition. *)

From stdpp Require Import prelude strings pretty.
From S2P Require Import Prelude RustStr.

Module HeadTailBuffer.

(** [usize] on a 64-bit target, and [usize::saturating_add]. *)
Definition usize_max : N := 18446744073709551615%N.
Definition sat_add (a b : N) : N := N.min usize_max (a + b).
Definition len {A} (l : list A) : N := N.of_nat (length l).

Record HeadTailBuffer : Type := mkBuffer {
  max_bytes : nat;
  head_budget : nat;
  tail_budget : nat;
  head : list N;
  tail : list N;
  omitted_bytes : N;
}.

(** [HeadTailBuffer::new]. *)
Definition new (max_bytes : nat) : HeadTailBuffer :=
  let head_budget := max_bytes / 2 in
  mkBuffer max_bytes head_budget (max_bytes - head_budget) [] [] 0.

(** [retained_bytes], [total_bytes]. *)
Definition retained_bytes (b : HeadTailBuffer) : N := sat_add (len (head b)) (len (tail b)).
Definition total_bytes (b : HeadTailBuffer) : N := sat_add (retained_bytes b) (omitted_bytes b).

Definition set_omitted (n : N) (b : HeadTailBuffer) : HeadTailBuffer :=
  mkBuffer (max_bytes b) (head_budget b) (tail_budget b) (head b) (tail b) n.
Definition set_head (h : list N) (b : HeadTailBuffer) : HeadTailBuffer :=
  mkBuffer (max_bytes b) (head_budget b) (tail_budget b) h (tail b) (omitted_bytes b).
Definition set_tail (t : list N) (b : HeadTailBuffer) : HeadTailBuffer :=
  mkBuffer (max_bytes b) (head_budget b) (tail_budget b) (head b) t (omitted_bytes b).

(** [trim_tail_to_budget]. *)
Definition trim_tail_to_budget (b : HeadTailBuffer) : HeadTailBuffer :=
  let excess := length (tail b) - tail_budget b in
  if 0 <? excess
  then set_omitted (sat_add (omitted_bytes b) (N.of_nat excess)) (set_tail (drop excess (tail b)) b)
  else b.

(** [push_to_tail]. *)
Definition push_to_tail (chunk : list N) (b : HeadTailBuffer) : HeadTailBuffer :=
  match chunk with
  | [] => b
  | _ =>
      if tail_budget b =? 0 then set_omitted (sat_add (omitted_bytes b) (len chunk)) b
      else if tail_budget b <=? length chunk then
        let start := length chunk - tail_budget b in
        let kept := drop start chunk in
        let dropped := length chunk - length kept in
        set_tail kept
          (set_omitted (sat_add (sat_add (omitted_bytes b) (len (tail b))) (N.of_nat dropped)) b)
      else trim_tail_to_budget (set_tail (tail b ++ chunk) b)
  end.

(** [push_chunk]. *)
Definition push_chunk (chunk : list N) (b : HeadTailBuffer) : HeadTailBuffer :=
  match chunk with
  | [] => b
  | _ =>
      if max_bytes b =? 0 then set_omitted (sat_add (omitted_bytes b) (len chunk)) b
      else
        let remaining_head := head_budget b - length (head b) in
        let head_len := min remaining_head (length chunk) in
        let b := if 0 <? head_len then set_head (head b ++ take head_len chunk) b else b in
        push_to_tail (drop head_len chunk) b
  end.

(** [snapshot_chunks], [to_bytes]. *)
Definition snapshot_chunks (b : HeadTailBuffer) : list (list N) :=
  (match head b with [] => [] | h => [h] end) ++ (match tail b with [] => [] | t => [t] end).
Definition to_bytes (b : HeadTailBuffer) : list N := head b ++ tail b.

(** [format_output_omission_marker], [to_bytes_with_omission_marker]. *)
Definition format_output_omission_marker (omitted : N) : list N :=
  lit "... " ++ lit (pretty omitted) ++ lit " bytes omitted ...".
Definition to_bytes_with_omission_marker (b : HeadTailBuffer) : list N :=
  if (omitted_bytes b =? 0)%N then to_bytes b
  else head b ++ [nl] ++ format_output_omission_marker (omitted_bytes b) ++ [nl] ++ tail b.

(** [drain]: the drained buffer, and what is left. *)
Definition drain (b : HeadTailBuffer) : HeadTailBuffer * HeadTailBuffer :=
  (b, mkBuffer (max_bytes b) (head_budget b) (tail_budget b) [] [] 0).

(** [push_buffer]. *)
Definition push_buffer (other b : HeadTailBuffer) : HeadTailBuffer :=
  let b := push_chunk (tail other) (push_chunk (head other) b) in
  set_omitted (sat_add (omitted_bytes b) (omitted_bytes other)) b.

(** ** The reference: one look at the whole output *)

(** The last [n] elements. *)
Definition last_n {A} (n : nat) (l : list A) : list A := drop (length l - n) l.

(** A buffer of capacity [m] that has seen the output [all]. *)
Definition holds (m : nat) (all : list N) (b : HeadTailBuffer) : Prop :=
  let h := m / 2 in
  b = mkBuffer m h (m - h) (take h all) (last_n (m - h) (drop h all))
        (N.min usize_max (N.of_nat (length all - m))).

Lemma last_n_app_long {A} n (l k : list A) : n ≤ length k → last_n n (l ++ k) = last_n n k.
Proof.
  intros Hn. unfold last_n. rewrite length_app, drop_app_ge by lia. f_equal. lia.
Qed.

Lemma last_n_app_short {A} n (l k : list A) :
  length k < n →
  last_n n (l ++ k) = drop (length (last_n n l ++ k) - n) (last_n n l ++ k).
Proof.
  intros Hn. unfold last_n. rewrite !length_app, length_drop.
  rewrite (drop_app_le l k) by lia. rewrite (drop_app_le (drop _ l) k) by (rewrite length_drop; lia).
  rewrite drop_drop. do 2 f_equal. lia.
Qed.

Lemma last_n_short {A} n (l : list A) : length l ≤ n → last_n n l = l.
Proof. intros Hn. unfold last_n. by replace (length l - n) with 0 by lia. Qed.

Lemma length_last_n {A} n (l : list A) : length (last_n n l) = min n (length l).
Proof. unfold last_n. rewrite length_drop. lia. Qed.

(** Pushing to the tail, for a tail that has seen [r]. *)
Lemma push_to_tail_spec m h t front r chunk om :
  push_to_tail chunk (mkBuffer m h t front (last_n t r) (N.min usize_max om)) =
  mkBuffer m h t front (last_n t (r ++ chunk))
    (N.min usize_max (om + N.of_nat (length (r ++ chunk) - t - (length r - t)))).
Proof.
  destruct chunk as [|c chunk]; [rewrite app_nil_r, Nat.sub_diag; simpl; by rewrite N.add_0_r|].
  set (k := c :: chunk). unfold push_to_tail. change (match k with [] => ?a | _ => ?b end) with b.
  unfold set_omitted, set_tail, sat_add, len, trim_tail_to_budget. cbn [tail_budget tail omitted_bytes
    max_bytes head_budget head]. unfold set_omitted, set_tail, sat_add.
  cbn [tail_budget tail omitted_bytes max_bytes head_budget head].
  pose proof (length_last_n t r) as Hl. rewrite length_app.
  destruct (t =? 0) eqn:E0; [apply Nat.eqb_eq in E0|apply Nat.eqb_neq in E0].
  { subst t. unfold last_n. rewrite !Nat.sub_0_r, !drop_all, ?length_app. f_equal. lia. }
  destruct (t <=? length k) eqn:E1; [apply Nat.leb_le in E1|apply Nat.leb_gt in E1].
  { rewrite last_n_app_long by done. f_equal. rewrite length_drop, Hl. rewrite ?length_app. lia. }
  rewrite last_n_app_short by lia. rewrite !length_app, Hl.
  destruct (0 <? _) eqn:E2; [apply Nat.ltb_lt in E2|apply Nat.ltb_ge in E2].
  - f_equal; lia.
  - replace (min t (length r) + length k - t) with 0 by lia. f_equal; lia.
Qed.

(** Pushing a chunk is looking at a longer output. *)
Lemma push_chunk_spec m all chunk b : holds m all b → holds m (all ++ chunk) (push_chunk chunk b).
Proof.
  unfold holds. intros ->. set (h := m / 2). assert (Hh : h ≤ m) by (apply Nat.Div0.div_le_upper_bound; lia).
  destruct chunk as [|c chunk]; [by rewrite app_nil_r|]. set (k := c :: chunk).
  unfold push_chunk. change (match k with [] => ?a | _ => ?b end) with b.
  cbn [max_bytes head_budget head tail omitted_bytes]. destruct (m =? 0) eqn:Em.
  { apply Nat.eqb_eq in Em. assert (h = 0) by lia. unfold set_omitted, sat_add, len.
    cbn [max_bytes head_budget head tail omitted_bytes tail_budget]. subst m.
    replace h with 0 by lia. unfold last_n. rewrite !Nat.sub_0_r, !drop_0, !drop_all, length_app.
    f_equal; lia. }
  set (hl := min _ _).
  assert (Hhl : hl = min (h - length all) (length k)) by (unfold hl; rewrite length_take; lia).
  clearbody hl.
  assert (Hhead : (if 0 <? hl then set_head (take h all ++ take hl k) (mkBuffer m h (m - h) (take h all)
      (last_n (m - h) (drop h all)) (N.min usize_max (N.of_nat (length all - m))))
    else mkBuffer m h (m - h) (take h all) (last_n (m - h) (drop h all))
      (N.min usize_max (N.of_nat (length all - m)))) =
    mkBuffer m h (m - h) (take h (all ++ k)) (last_n (m - h) (drop h all))
      (N.min usize_max (N.of_nat (length all - m)))).
  { rewrite take_app. destruct (0 <? hl) eqn:E; [apply Nat.ltb_lt in E|apply Nat.ltb_ge in E].
    - unfold set_head. simpl. do 2 f_equal. rewrite Hhl.
      destruct (decide (h - length all ≤ length k)); [by rewrite Nat.min_l|].
      rewrite Nat.min_r by lia. rewrite !take_ge by lia. done.
    - replace (h - length all) with 0 by (unfold k in *; simpl in *; lia).
      by rewrite take_0, app_nil_r. }
  rewrite Hhead, push_to_tail_spec.
  assert (Hdrop : drop h (all ++ k) = drop h all ++ drop hl k).
  { rewrite drop_app. f_equal. rewrite Hhl.
    destruct (decide (h - length all ≤ length k)); [by rewrite Nat.min_l|].
    rewrite Nat.min_r by lia. by rewrite !drop_ge by lia. }
  rewrite Hdrop. f_equal. rewrite !length_app, !length_drop, Hhl. lia.
Qed.

Definition push_all (chunks : list (list N)) (b : HeadTailBuffer) : HeadTailBuffer :=
  foldl (λ b c, push_chunk c b) b chunks.

Lemma push_all_spec m chunks : holds m (concat chunks) (push_all chunks (new m)).
Proof.
  unfold push_all. rewrite <-(app_nil_l (concat chunks)).
  assert (Hnew : holds m [] (new m)).
  { unfold holds, new, last_n. by rewrite take_nil, drop_nil. }
  revert Hnew. generalize (new m) ([] : list N). induction chunks as [|c chunks IH]; intros b all Hb; simpl.
  - by rewrite app_nil_r.
  - rewrite app_assoc. apply IH. by apply push_chunk_spec.
Qed.

Lemma total_holds m all b :
  holds m all b → (len all ≤ usize_max)%N → total_bytes b = len all.
Proof.
  unfold holds. intros -> Hlen. unfold total_bytes, retained_bytes, sat_add, len in *. cbn [head tail omitted_bytes].
  pose proof (length_last_n (m - m / 2) (drop (m / 2) all)) as Hl. rewrite Hl, length_take, length_drop.
  assert (m / 2 ≤ m) by (apply Nat.Div0.div_le_upper_bound; lia). lia.
Qed.

(** ** Properties *)

(** C31. However the output of a process is cut into the chunks that are pushed to a new buffer, the
    buffer holds the first [m / 2] bytes of the output, the last [m - m / 2] of what follows them
    and the number of bytes in between, which is exact up to the greatest usize of a 64-bit target
    and stays there beyond it.  So what is shown is a function of the whole output, and never
    longer than the cap [m]. *)
Theorem buffer_holds_head_and_tail (m : nat) (chunks : list (list N)) :
  let all := concat chunks in
  let b := push_all chunks (new m) in
  head b = take (m / 2) all ∧ tail b = last_n (m - m / 2) (drop (m / 2) all) ∧
  omitted_bytes b = N.min usize_max (N.of_nat (length all - m)) ∧
  length (to_bytes b) = min m (length all).
Proof.
  pose proof (push_all_spec m chunks) as ->. cbn [head tail omitted_bytes].
  split_and!; [done..|]. unfold to_bytes. cbn [head tail].
  rewrite length_app, length_last_n, length_take, length_drop.
  assert (m / 2 ≤ m) by (apply Nat.Div0.div_le_upper_bound; lia). lia.
Qed.

(** The bytes seen are counted exactly; output within the cap is never altered, and when
    it is exceeded the marker tells the exact number of bytes that are missing between the
    two parts shown. *)
Theorem buffer_rendering_exact (m : nat) (chunks : list (list N)) :
  (len (concat chunks) ≤ usize_max)%N →
  let all := concat chunks in
  let shown := to_bytes_with_omission_marker (push_all chunks (new m)) in
  total_bytes (push_all chunks (new m)) = len all ∧
  if length all <=? m then shown = all
  else ∃ first missing rest,
    all = first ++ missing ++ rest ∧
    shown = first ++ [nl] ++ format_output_omission_marker (len missing) ++ [nl] ++ rest.
Proof.
  intros Hlen. split; [eapply total_holds; [apply push_all_spec|done]|].
  pose proof (push_all_spec m chunks) as ->. cbv zeta.
  set (all := concat chunks) in *. unfold to_bytes_with_omission_marker, to_bytes, len in *.
  assert (Hh : m / 2 ≤ m) by (apply Nat.Div0.div_le_upper_bound; lia).
  cbn [head tail omitted_bytes]. destruct (length all <=? m) eqn:E;
    [apply Nat.leb_le in E|apply Nat.leb_gt in E].
  - replace (length all - m) with 0 by lia. rewrite (N.min_r _ (N.of_nat 0)) by done.
    cbn [N.of_nat N.eqb]. rewrite last_n_short by (rewrite length_drop; lia). apply take_drop.
  - assert (Hm : N.min usize_max (N.of_nat (length all - m)) = N.of_nat (length all - m)) by lia.
    rewrite Hm. destruct (N.of_nat (length all - m) =? 0)%N eqn:E2; [apply N.eqb_eq in E2; lia|].
    set (t := m - m / 2). set (r := drop (m / 2) all).
    exists (take (m / 2) all), (take (length r - t) r), (last_n t r). split.
    + unfold last_n. rewrite take_drop. unfold r. by rewrite take_drop.
    + rewrite length_take. unfold r, t. rewrite length_drop.
      replace (min (length all - m / 2 - (m - m / 2)) (length all - m / 2)) with (length all - m) by lia.
      done.
Qed.

Lemma buffer_rendering_exact_witness :
  to_bytes_with_omission_marker (push_all [lit "ab"; lit "cdefg"] (new 4)) =
    lit "ab" ++ [nl] ++ lit "... 3 bytes omitted ..." ++ [nl] ++ lit "fg" ∧
  ∃ first missing rest, lit "abcdefg" = first ++ missing ++ rest.
Proof.
  split; [vm_compute; reflexivity|].
  destruct (buffer_rendering_exact 4 [lit "ab"; lit "cdefg"]) as (_ & f & m & r & H & _).
  - vm_compute. discriminate.
  - exists f, m, r. exact H.
Defined.

End HeadTailBuffer.
