(* ===== verification/Truncate.v ===== *)
(** * Truncating output (utils/string/src/truncate.rs, utils/output-truncation)

    Long texts are cut in the middle: as much as fits of the beginning and of the end is
    kept, on character boundaries, with a marker in between that says how much is missing.
    Sizes are [usize]s ([N] with saturating arithmetic); slicing a string at a byte offset
    is [None], a panic, when the offset is not a character boundary. *)

From stdpp Require Import prelude strings pretty.
From S2P Require Import Prelude RustStr.

Module Truncate.

Definition usize_max : N := 18446744073709551615%N.
Definition sat_add (a b : N) : N := N.min usize_max (a + b).
Definition sat_mul (a b : N) : N := N.min usize_max (a * b).

(** [str::len] and [char::len_utf8]. *)
Definition blen (s : str) : N := N.of_nat (byte_len s).
Definition clen (c : char) : N := N.of_nat (len_utf8 c).

(** [&s[..n]] and [&s[n..]]. *)
Fixpoint slice_to (s : str) (n : N) : option str :=
  if (n =? 0)%N then Some []
  else match s with
       | [] => None
       | c :: s' => if (clen c <=? n)%N then cons c <$> slice_to s' (n - clen c) else None
       end.
Fixpoint slice_from (s : str) (n : N) : option str :=
  if (n =? 0)%N then Some s
  else match s with
       | [] => None
       | c :: s' => if (clen c <=? n)%N then slice_from s' (n - clen c) else None
       end.

Definition APPROX_BYTES_PER_TOKEN : N := 4.
Definition approx_tokens_from_byte_count (bytes : N) : N :=
  (sat_add bytes (APPROX_BYTES_PER_TOKEN - 1) / APPROX_BYTES_PER_TOKEN)%N.
Definition approx_token_count (text : str) : N :=
  (sat_add (blen text) (APPROX_BYTES_PER_TOKEN - 1) / APPROX_BYTES_PER_TOKEN)%N.
Definition approx_bytes_for_tokens (tokens : N) : N := sat_mul tokens APPROX_BYTES_PER_TOKEN.

(** The variables of the loop of [split_string]. *)
Record split_state : Type := mkSplit {
  prefix_end : N;
  suffix_start : N;
  removed_chars : N;
  suffix_started : bool;
}.

(** The loop of [split_string] over [char_indices]. *)
Fixpoint split_loop (beginning_bytes tail_start_target : N) (s : str) (idx : N) (st : split_state) :
    split_state :=
  match s with
  | [] => st
  | ch :: s' =>
      let char_end := (idx + clen ch)%N in
      let st :=
        if (char_end <=? beginning_bytes)%N
        then mkSplit char_end (suffix_start st) (removed_chars st) (suffix_started st)
        else if (tail_start_target <=? idx)%N
        then if suffix_started st then st
             else mkSplit (prefix_end st) idx (removed_chars st) true
        else mkSplit (prefix_end st) (suffix_start st) (sat_add (removed_chars st) 1)
               (suffix_started st) in
      split_loop beginning_bytes tail_start_target s' char_end st
  end.

(** [split_string]. *)
Definition split_string (s : str) (beginning_bytes end_bytes : N) :
    option (N * list N * list N) :=
  match s with
  | [] => Some (0%N, [], [])
  | _ =>
      let len := blen s in
      let st := split_loop beginning_bytes (len - end_bytes) s 0 (mkSplit 0 len 0 false) in
      let suffix_start :=
        if (suffix_start st <? prefix_end st)%N then prefix_end st else suffix_start st in
      before ← slice_to s (prefix_end st);
      after ← slice_from s suffix_start;
      Some (removed_chars st, before, after)
  end.

(** [split_budget], [format_truncation_marker], [removed_units],
    [assemble_truncated_output]. *)
Definition split_budget (budget : N) : N * N :=
  let left := (budget / 2)%N in (left, budget - left)%N.
Definition ellipsis : char := 8230%N.
Definition format_truncation_marker (use_tokens : bool) (removed_count : N) : str :=
  [ellipsis] ++ lit (pretty removed_count) ++
  (if use_tokens then lit " tokens truncated" else lit " chars truncated") ++ [ellipsis].
Definition removed_units (use_tokens : bool) (removed_bytes removed_chars : N) : N :=
  if use_tokens then approx_tokens_from_byte_count removed_bytes else removed_chars.
Definition assemble_truncated_output (prefix suffix marker : str) : str :=
  prefix ++ marker ++ suffix.

(** [truncate_with_byte_estimate]. *)
Definition truncate_with_byte_estimate (s : str) (max_bytes : N) (use_tokens : bool) : option str :=
  match s with
  | [] => Some []
  | _ =>
      if (max_bytes =? 0)%N then
        Some (format_truncation_marker use_tokens
                (removed_units use_tokens (blen s) (N.of_nat (length s))))
      else if (blen s <=? max_bytes)%N then Some s
      else
        let '(left_budget, right_budget) := split_budget max_bytes in
        '(removed, prefix, suffix) ← split_string s left_budget right_budget;
        Some (assemble_truncated_output prefix suffix
          (format_truncation_marker use_tokens
             (removed_units use_tokens (blen s - max_bytes) removed)))
  end.

(** [truncate_middle_chars], [truncate_middle_with_token_budget]. *)
Definition truncate_middle_chars (s : str) (max_bytes : N) : option str :=
  truncate_with_byte_estimate s max_bytes false.
Definition truncate_middle_with_token_budget (s : str) (max_tokens : N) :
    option (list N * option N) :=
  match s with
  | [] => Some ([], None)
  | _ =>
      if (0 <? max_tokens)%N && (blen s <=? approx_bytes_for_tokens max_tokens)%N
      then Some (s, None)
      else
        truncated ← truncate_with_byte_estimate s (approx_bytes_for_tokens max_tokens) true;
        Some (truncated, if decide (truncated = s) then None else Some (approx_token_count s))
  end.

(** [TruncationPolicy], [truncate_text]. *)
Inductive TruncationPolicy : Type := Bytes (bytes : N) | Tokens (tokens : N).
Definition token_budget (p : TruncationPolicy) : N :=
  match p with Bytes b => approx_tokens_from_byte_count b | Tokens t => t end.
Definition byte_budget (p : TruncationPolicy) : N :=
  match p with Bytes b => b | Tokens t => approx_bytes_for_tokens t end.
Definition truncate_text (content : str) (p : TruncationPolicy) : option str :=
  match p with
  | Bytes bytes => truncate_middle_chars content bytes
  | Tokens tokens => fst <$> truncate_middle_with_token_budget content tokens
  end.

(** ** Slices *)

Lemma clen_pos c : (1 ≤ clen c)%N.
Proof. unfold clen. pose proof (len_utf8_pos c). lia. Qed.

Lemma blen_app a b : blen (a ++ b) = (blen a + blen b)%N.
Proof. unfold blen. rewrite byte_len_app. lia. Qed.

Lemma blen_cons c s : blen (c :: s) = (clen c + blen s)%N.
Proof. unfold blen, clen. simpl. lia. Qed.

Lemma slice_to_app a b : slice_to (a ++ b) (blen a) = Some a.
Proof.
  induction a as [|c a IH]; simpl; [by destruct b|].
  rewrite blen_cons. pose proof (clen_pos c).
  destruct (clen c + blen a =? 0)%N eqn:E; [apply N.eqb_eq in E; lia|].
  destruct (clen c <=? clen c + blen a)%N eqn:E2; [|apply N.leb_gt in E2; lia].
  replace (clen c + blen a - clen c)%N with (blen a) by lia. by rewrite IH.
Qed.

Lemma slice_from_app a b : slice_from (a ++ b) (blen a) = Some b.
Proof.
  induction a as [|c a IH]; simpl; [by destruct b|].
  rewrite blen_cons. pose proof (clen_pos c).
  destruct (clen c + blen a =? 0)%N eqn:E; [apply N.eqb_eq in E; lia|].
  destruct (clen c <=? clen c + blen a)%N eqn:E2; [|apply N.leb_gt in E2; lia].
  replace (clen c + blen a - clen c)%N with (blen a) by lia. done.
Qed.

(** ** The loop *)

Section loop.
Variables b t : N.

(** After the first character of the suffix nothing changes. *)
Lemma split_loop_suffix s idx st :
  (b < idx + clen (default 0%N (head s)))%N → (t ≤ idx)%N → suffix_started st = true →
  split_loop b t s idx st = st.
Proof.
  revert idx. induction s as [|c s IH]; intros idx Hb Ht Hs; [done|]. simpl in *.
  destruct (_ <=? b)%N eqn:E; [apply N.leb_le in E; lia|].
  destruct (t <=? idx)%N eqn:E2; [|apply N.leb_gt in E2; lia]. rewrite Hs.
  pose proof (clen_pos c). destruct s as [|c' s]; [done|].
  apply IH; [simpl; pose proof (clen_pos c'); lia|lia|done].
Qed.

(** In the middle: characters are removed up to the suffix. *)
Lemma split_loop_middle s idx st :
  (s ≠ [] → b < idx + clen (default 0%N (head s)))%N → suffix_started st = false →
  suffix_start st = (idx + blen s)%N → (removed_chars st + blen s ≤ usize_max)%N →
  ∃ mid right, s = mid ++ right ∧
    (∀ c mid', mid = mid' ++ [c] → idx + blen mid' < t)%N ∧
    (right ≠ [] → t ≤ idx + blen mid)%N ∧
    prefix_end (split_loop b t s idx st) = prefix_end st ∧
    suffix_start (split_loop b t s idx st) = (idx + blen mid)%N ∧
    removed_chars (split_loop b t s idx st) = (removed_chars st + N.of_nat (length mid))%N.
Proof.
  revert idx st. induction s as [|c s IH]; intros idx st Hb Hs Hlen Hr.
  { exists [], []. simpl. split_and!; try done; try lia; by intros ? []. }
  specialize (Hb ltac:(done)). simpl in Hb. rewrite blen_cons in *. pose proof (clen_pos c).
  destruct (t <=? idx)%N eqn:Et; [apply N.leb_le in Et|apply N.leb_gt in Et].
  - exists [], (c :: s). split; [done|]. split; [by intros ? []|]. split; [simpl; unfold blen; simpl; lia|].
    assert (Hst : split_loop b t (c :: s) idx st = mkSplit (prefix_end st) idx (removed_chars st) true).
    { simpl. destruct (_ <=? b)%N eqn:E; [apply N.leb_le in E; lia|].
      rewrite (proj2 (N.leb_le t idx) Et), Hs. destruct s as [|c' s]; [done|].
      apply split_loop_suffix; [simpl; pose proof (clen_pos c'); lia|lia|done]. }
    rewrite Hst. simpl. unfold blen. simpl. split_and!; [done|lia|lia].
  - set (st1 := mkSplit (prefix_end st) (suffix_start st) (sat_add (removed_chars st) 1) (suffix_started st)).
    assert (Hst : split_loop b t (c :: s) idx st = split_loop b t s (idx + clen c) st1).
    { simpl. destruct (_ <=? b)%N eqn:E; [apply N.leb_le in E; lia|].
      by rewrite (proj2 (N.leb_gt t idx) Et). }
    assert (Hr1 : removed_chars st1 = (removed_chars st + 1)%N) by (simpl; unfold sat_add; lia).
    destruct (IH (idx + clen c)%N st1) as (mid & right & -> & Hmid & Hright & Hp & Hss & Hrem).
    { intros Hne. destruct s as [|c' s]; [done|]. simpl. pose proof (clen_pos c'). lia. }
    { done. } { simpl. rewrite Hlen. lia. } { rewrite Hr1. lia. }
    exists (c :: mid), right. rewrite Hst, Hp, Hss, Hrem, Hr1, blen_cons.
    split; [done|]. split; [|split_and!; try done; [intros; apply Hright in H0; lia|lia|simpl; lia]].
    intros x mid' Heq. destruct mid' as [|y mid']; simplify_eq/=; [unfold blen; simpl; lia|].
    rewrite blen_cons. specialize (Hmid x mid' eq_refl). lia.
Qed.

(** From the start: first the characters that fit. *)
Lemma split_loop_start s idx len :
  len = (idx + blen s)%N → (len ≤ usize_max)%N → (idx ≤ b)%N →
  ∃ left mid right, s = left ++ mid ++ right ∧ (idx + blen left ≤ b)%N ∧
    (∀ c rest, mid ++ right = c :: rest → b < idx + blen left + clen c)%N ∧
    (∀ c mid', mid = mid' ++ [c] → idx + blen left + blen mid' < t)%N ∧
    (right ≠ [] → t ≤ idx + blen left + blen mid)%N ∧
    prefix_end (split_loop b t s idx (mkSplit idx len 0 false)) = (idx + blen left)%N ∧
    suffix_start (split_loop b t s idx (mkSplit idx len 0 false)) = (idx + blen left + blen mid)%N ∧
    removed_chars (split_loop b t s idx (mkSplit idx len 0 false)) = N.of_nat (length mid).
Proof.
  revert idx. induction s as [|c s IH]; intros idx Hlen Hmax Hi.
  { exists [], [], []. unfold blen in *. simpl in *. split_and!; try done; try lia. by intros ? []. }
  rewrite blen_cons in Hlen. pose proof (clen_pos c).
  destruct (idx + clen c <=? b)%N eqn:E; [apply N.leb_le in E|apply N.leb_gt in E].
  - destruct (IH (idx + clen c)%N) as (left & mid & right & -> & H1 & H2 & H3 & H4 & H5 & H6 & H7);
      [lia..|].
    exists (c :: left), mid, right. simpl. rewrite (proj2 (N.leb_le _ _) E), blen_cons.
    rewrite !N.add_assoc. rewrite H5, H6, H7. split_and!; try done; auto.
  - destruct (split_loop_middle (c :: s) idx (mkSplit idx len 0 false))
      as (mid & right & Hs & Hmid & Hright & Hp & Hss & Hrem).
    { intros _. simpl. lia. } { done. } { simpl. rewrite blen_cons. lia. }
    { simpl. rewrite blen_cons. lia. }
    exists [], mid, right. rewrite Hp, Hss, Hrem. change (blen []) with 0%N.
    rewrite !N.add_0_r. split_and!; try done; try lia. intros x rest Heq. rewrite <-Hs in Heq. by simplify_eq.
Qed.

End loop.

(** Both ends of a text that is cut. *)
Lemma truncate_split (s : str) (max_bytes : N) (use_tokens : bool) :
  (blen s ≤ usize_max)%N → (0 < max_bytes < blen s)%N →
  ∃ left mid right, s = left ++ mid ++ right ∧ mid ≠ [] ∧
    truncate_with_byte_estimate s max_bytes use_tokens =
      Some (left ++ format_truncation_marker use_tokens
              (if use_tokens then approx_tokens_from_byte_count (blen s - max_bytes)
               else N.of_nat (length mid)) ++ right) ∧
    (blen left ≤ max_bytes / 2 ∧ blen right ≤ max_bytes - max_bytes / 2)%N ∧
    (∀ c mid', mid = c :: mid' → max_bytes / 2 < blen (left ++ [c]))%N ∧
    (∀ c mid', mid = mid' ++ [c] → max_bytes - max_bytes / 2 < blen (c :: right))%N.
Proof.
  intros Hmax [Hpos Hlong]. set (b := (max_bytes / 2)%N). set (e := (max_bytes - b)%N).
  assert (Hb : (b ≤ max_bytes)%N) by (apply N.Div0.div_le_upper_bound; lia).
  destruct (split_loop_start b (blen s - e) s 0 (blen s)) as
    (left & mid & right & Hs & Hleft & Hnext & Hmid & Hright & Hp & Hss & Hrem); [lia..|].
  rewrite N.add_0_l in Hleft, Hnext, Hmid, Hright, Hp, Hss.
  assert (Hlen : blen s = (blen left + blen mid + blen right)%N) by (rewrite Hs, !blen_app; lia).
  assert (Hne : mid ≠ []).
  { intros ->. destruct right as [|c right]; unfold blen in Hlen; simpl in Hlen; [unfold blen in *; lia|].
    specialize (Hright ltac:(done)). unfold blen in *. simpl in *. lia. }
  exists left, mid, right. split; [done|]. split; [done|].
  assert (Hr : (blen right ≤ e)%N).
  { destruct right as [|c right]; [unfold blen; simpl; lia|]. specialize (Hright ltac:(done)). lia. }
  assert (Hsplit : split_string s b e = Some (N.of_nat (length mid), left, right)).
  { unfold split_string. destruct s as [|c0 s0] eqn:Es; [unfold blen in Hlong; simpl in Hlong; lia|].
    rewrite <-Es in *. rewrite Hp, Hss, Hrem.
    destruct (_ <? _)%N eqn:Elt; [apply N.ltb_lt in Elt; lia|].
    rewrite Hs at 1. rewrite slice_to_app. simpl.
    rewrite Hs, app_assoc, <-blen_app, slice_from_app. done. }
  split_and!; try done.
  - unfold truncate_with_byte_estimate. destruct s as [|c0 s0] eqn:Es; [unfold blen in Hlong; simpl in Hlong; lia|].
    rewrite <-Es in *. destruct (max_bytes =? 0)%N eqn:E0; [apply N.eqb_eq in E0; lia|].
    destruct (blen s <=? max_bytes)%N eqn:E1; [apply N.leb_le in E1; lia|].
    unfold split_budget. fold b. fold e. rewrite Hsplit. simpl. unfold assemble_truncated_output.
    by destruct use_tokens.
  - intros c mid' ->. rewrite blen_app. specialize (Hnext c (mid' ++ right) eq_refl).
    unfold blen in *. simpl in *. unfold clen in *. lia.
  - intros c mid' ->. specialize (Hmid c mid' eq_refl). rewrite blen_cons, blen_app in *.
    unfold blen in *. simpl in *. unfold clen in *. lia.
Qed.

Lemma truncate_total s max_bytes use_tokens :
  (blen s ≤ usize_max)%N → is_Some (truncate_with_byte_estimate s max_bytes use_tokens).
Proof.
  intros Hs. destruct (decide (0 < max_bytes < blen s)%N) as [Hb|Hb].
  - destruct (truncate_split s max_bytes use_tokens Hs Hb) as (? & ? & ? & _ & _ & -> & _). done.
  - unfold truncate_with_byte_estimate. destruct s as [|c s0] eqn:Es; [done|]. rewrite <-Es in *.
    destruct (max_bytes =? 0)%N eqn:E0; [done|]. apply N.eqb_neq in E0.
    destruct (blen s <=? max_bytes)%N eqn:E1; [done|]. apply N.leb_gt in E1. lia.
Qed.

Lemma truncate_text_total s p : (blen s ≤ usize_max)%N → is_Some (truncate_text s p).
Proof.
  intros Hs. destruct p as [n|n]; [by apply truncate_total|]. simpl.
  unfold truncate_middle_with_token_budget. destruct s as [|c s0] eqn:Es; [done|]. rewrite <-Es in *.
  case_match; [done|]. destruct (truncate_total s (approx_bytes_for_tokens n) true Hs) as [t ->]. done.
Qed.

(** ** Properties *)

(** Cutting a text that is too long: it never panics on a character boundary; what is kept
    is a beginning and an end of the text within half the budget each, and each as long as
    possible; the marker between them counts exactly the characters that are missing (or
    estimates the tokens over budget). *)
Theorem truncate_keeps_both_ends (s : str) (max_bytes : N) (use_tokens : bool) :
  (blen s ≤ usize_max)%N → (0 < max_bytes < blen s)%N →
  ∃ left mid right, s = left ++ mid ++ right ∧ mid ≠ [] ∧
    truncate_with_byte_estimate s max_bytes use_tokens =
      Some (left ++ format_truncation_marker use_tokens
              (if use_tokens then approx_tokens_from_byte_count (blen s - max_bytes)
               else N.of_nat (length mid)) ++ right) ∧
    (blen left ≤ max_bytes / 2 ∧ blen right ≤ max_bytes - max_bytes / 2)%N ∧
    (∀ c mid', mid = c :: mid' → max_bytes / 2 < blen (left ++ [c]))%N ∧
    (∀ c mid', mid = mid' ++ [c] → max_bytes - max_bytes / 2 < blen (c :: right))%N.
Proof. apply truncate_split. Qed.

Definition ex_text : str := lit "0123456789" ++ [ellipsis; ellipsis] ++ lit "abcdefghij".

Lemma truncate_keeps_both_ends_witness :
  truncate_middle_chars ex_text 9 =
    Some (lit "0123" ++ [ellipsis] ++ lit "13 chars truncated" ++ [ellipsis] ++ lit "fghij") ∧
  ∃ left mid right, ex_text = left ++ mid ++ right ∧ mid ≠ [].
Proof.
  split; [vm_compute; reflexivity|].
  destruct (truncate_keeps_both_ends ex_text 9 false) as (l & m & r & H & Hne & _).
  - vm_compute. discriminate.
  - split; vm_compute; reflexivity.
  - exists l, m, r. split; [exact H|exact Hne].
Defined.

End Truncate.
