(* ===== verification/ResponseItems.v ===== *)
(** * Items of the conversation (protocol/src/models.rs) and the truncation of tool outputs

    [ResponseItem] with the constructors of the protocol.  The fields that the history code
    reads or writes are there; what it only passes on (JSON values, actions, metadata) is an
    opaque text.  The second part is the truncation of structured tool outputs
    (utils/output-truncation). *)

From stdpp Require Import prelude strings pretty.
From S2P Require Import Prelude RustStr Truncate.
Import Truncate.

Module ResponseItems.

(** A value that is only passed on. *)
Notation opaque := (list N) (only parsing).

Inductive ImageDetail : Type := DetailAuto | DetailLow | DetailHigh | DetailOriginal.

Inductive ContentItem : Type :=
| InputText (text : list N)
| InputImage (image_url : list N) (detail : option ImageDetail)
| OutputText (text : list N).

Inductive FunctionCallOutputContentItem : Type :=
| OutInputText (text : list N)
| OutInputImage (image_url : list N) (detail : option ImageDetail)
| EncryptedContent (encrypted_content : list N).

Inductive FunctionCallOutputBody : Type :=
| Text (content : list N)
| ContentItems (items : list FunctionCallOutputContentItem).

Record FunctionCallOutputPayload : Type := mkPayload {
  body : FunctionCallOutputBody;
  success : option bool;
}.

(** [FunctionCallOutputPayload::from_text]. *)
Definition from_text (content : str) : FunctionCallOutputPayload := mkPayload (Text content) None.

Inductive ResponseItem : Type :=
| AdditionalTools (id : option (list N)) (role : list N) (tools : list opaque)
| Message (id : option (list N)) (role : list N) (content : list ContentItem)
    (phase : option opaque) (metadata : option opaque)
| AgentMessage (id : option (list N)) (author recipient : list N) (content : list opaque)
    (metadata : option opaque)
| Reasoning (id : option (list N)) (summary : list opaque) (content : option (list opaque))
    (encrypted_content : option (list N)) (metadata : option opaque)
| LocalShellCall (id : option (list N)) (call_id : option (list N)) (status action : opaque)
    (metadata : option opaque)
| FunctionCall (id : option (list N)) (name : list N) (namespace : option (list N))
    (arguments : list N) (call_id : list N) (metadata : option opaque)
| ToolSearchCall (id : option (list N)) (call_id : option (list N)) (status : option (list N))
    (execution : list N) (arguments : opaque) (metadata : option opaque)
| FunctionCallOutput (id : option (list N)) (call_id : list N)
    (output : FunctionCallOutputPayload) (metadata : option opaque)
| CustomToolCall (id status : option (list N)) (call_id name : list N)
    (namespace : option (list N)) (input : list N) (metadata : option opaque)
| CustomToolCallOutput (id : option (list N)) (call_id : list N) (name : option (list N))
    (output : FunctionCallOutputPayload) (metadata : option opaque)
| ToolSearchOutput (id : option (list N)) (call_id : option (list N))
    (status execution : list N) (tools : list opaque) (metadata : option opaque)
| WebSearchCall (id : option (list N)) (status : option (list N)) (action : option opaque)
    (metadata : option opaque)
| ImageGenerationCall (id : option (list N)) (status : list N) (revised_prompt : option (list N))
    (image_result : list N) (metadata : option opaque)
| Compaction (id : option (list N)) (encrypted_content : list N) (metadata : option opaque)
| CompactionTrigger
| ContextCompaction (id : option (list N)) (encrypted_content : option (list N))
    (metadata : option opaque)
| Other.

(** ** Truncation of structured outputs *)

(** The loop variables of [truncate_function_output_items_with_policy]. *)
Record truncate_state : Type := mkTrunc {
  out : list FunctionCallOutputContentItem;
  remaining_budget : N;
  omitted_text_items : nat;
}.

Definition with_budget (p : TruncationPolicy) (n : N) : TruncationPolicy :=
  match p with Bytes _ => Bytes n | Tokens _ => Tokens n end.
Definition text_cost (p : TruncationPolicy) (text : str) : N :=
  match p with Bytes _ => blen text | Tokens _ => approx_token_count text end.

(** The loop body; [None] is a panic of the text truncation. *)
Definition truncate_item (p : TruncationPolicy) (st : truncate_state)
    (item : FunctionCallOutputContentItem) : option truncate_state :=
  match item with
  | OutInputText text =>
      if (remaining_budget st =? 0)%N
      then Some (mkTrunc (out st) (remaining_budget st) (S (omitted_text_items st)))
      else
        let cost := text_cost p text in
        if (cost <=? remaining_budget st)%N
        then Some (mkTrunc (out st ++ [OutInputText text]) (remaining_budget st - cost)
                     (omitted_text_items st))
        else
          snippet ← truncate_text text (with_budget p (remaining_budget st));
          Some (match snippet with
                | [] => mkTrunc (out st) 0 (S (omitted_text_items st))
                | _ => mkTrunc (out st ++ [OutInputText snippet]) 0 (omitted_text_items st)
                end)
  | other => Some (mkTrunc (out st ++ [other]) (remaining_budget st) (omitted_text_items st))
  end.
Fixpoint truncate_items (p : TruncationPolicy) (items : list FunctionCallOutputContentItem)
    (st : truncate_state) : option truncate_state :=
  match items with
  | [] => Some st
  | item :: items' => st' ← truncate_item p st item; truncate_items p items' st'
  end.

(** [truncate_function_output_items_with_policy]. *)
Definition truncate_function_output_items_with_policy
    (items : list FunctionCallOutputContentItem) (p : TruncationPolicy) :
    option (list FunctionCallOutputContentItem) :=
  let budget := match p with Bytes _ => byte_budget p | Tokens _ => token_budget p end in
  st ← truncate_items p items (mkTrunc [] budget 0);
  Some (if 0 <? omitted_text_items st
        then out st ++ [OutInputText (lit "[omitted " ++ lit (pretty (omitted_text_items st)) ++
                                      lit " text items ...]")]
        else out st).

(** [truncate_function_output_payload]. *)
Definition truncate_function_output_payload (output : FunctionCallOutputPayload)
    (p : TruncationPolicy) : option FunctionCallOutputPayload :=
  body ← match body output with
         | Text content => Text <$> truncate_text content p
         | ContentItems items =>
             ContentItems <$> truncate_function_output_items_with_policy items p
         end;
  Some (mkPayload body (success output)).

(** ** What survives *)

Definition non_text (c : FunctionCallOutputContentItem) : Prop :=
  match c with OutInputText _ => False | _ => True end.
#[global] Instance non_text_dec c : Decision (non_text c).
Proof. destruct c; simpl; apply _. Defined.

(** A text that fits in memory, and one that is not empty. *)
Definition fits (c : FunctionCallOutputContentItem) : Prop :=
  match c with OutInputText t => (blen t ≤ usize_max)%N | _ => True end.
Definition not_blank (c : FunctionCallOutputContentItem) : Prop :=
  match c with OutInputText t => t ≠ [] | _ => True end.

(** What the items cost under a policy. *)
Definition item_cost (p : TruncationPolicy) (c : FunctionCallOutputContentItem) : N :=
  match c with OutInputText t => text_cost p t | _ => 0 end.
Definition total_cost (p : TruncationPolicy) (cs : list FunctionCallOutputContentItem) : N :=
  foldr (λ c n, item_cost p c + n)%N 0%N cs.

Lemma text_cost_pos p t : t ≠ [] → (1 ≤ text_cost p t)%N.
Proof.
  intros Ht. assert (1 ≤ blen t)%N.
  { destruct t as [|c t]; [done|]. rewrite blen_cons. pose proof (clen_pos c). lia. }
  destruct p; simpl; [done|]. unfold approx_token_count, APPROX_BYTES_PER_TOKEN, sat_add.
  apply N.div_le_lower_bound; [done|]. unfold usize_max. lia.
Qed.

Lemma truncate_item_spec p st c :
  fits c →
  ∃ st', truncate_item p st c = Some st' ∧
    filter non_text (out st') = filter non_text (out st) ++ filter non_text [c] ∧
    (not_blank c → item_cost p c ≤ remaining_budget st →
     out st' = out st ++ [c] ∧ remaining_budget st' = remaining_budget st - item_cost p c ∧
     omitted_text_items st' = omitted_text_items st)%N.
Proof.
  intros Hf. destruct c as [t|url d|e]; simpl.
  2, 3: eexists; split; [done|]; simpl; rewrite filter_app, N.sub_0_r; done.
  destruct (remaining_budget st =? 0)%N eqn:E0; [apply N.eqb_eq in E0|].
  { eexists. split; [done|]. simpl. rewrite app_nil_r. split; [done|].
    intros Ht Hc. pose proof (text_cost_pos p t Ht). lia. }
  destruct (text_cost p t <=? remaining_budget st)%N eqn:E1; [apply N.leb_le in E1|apply N.leb_gt in E1].
  { eexists. split; [done|]. simpl. by rewrite filter_app. }
  destruct (truncate_text_total t (with_budget p (remaining_budget st)) Hf) as [snippet ->]. simpl.
  eexists. split; [done|].
  destruct snippet; simpl; rewrite ?filter_app, ?app_nil_r; (split; [done|]); intros; lia.
Qed.

Lemma truncate_items_spec p cs st :
  Forall fits cs →
  ∃ st', truncate_items p cs st = Some st' ∧
    filter non_text (out st') = filter non_text (out st) ++ filter non_text cs ∧
    (Forall not_blank cs → (total_cost p cs ≤ remaining_budget st)%N →
     out st' = out st ++ cs ∧ omitted_text_items st' = omitted_text_items st).
Proof.
  intros HF. revert st. induction HF as [|c cs Hc HF IH]; intros st; simpl.
  { exists st. rewrite !app_nil_r. done. }
  destruct (truncate_item_spec p st c Hc) as (st1 & -> & H1 & H1'). simpl.
  destruct (IH st1) as (st' & -> & H2 & H2'). exists st'. split; [done|]. split.
  - rewrite H2, H1, <-app_assoc. f_equal. by rewrite (filter_app _ [c] cs).
  - intros [Hb Hbs]%Forall_cons Hcost. destruct H1' as (Ho & Hr & Hom); [done|lia|].
    destruct H2' as [-> ->]; [done|rewrite Hr; lia|]. by rewrite Ho, Hom, <-app_assoc.
Qed.

(** ** Properties *)

(** Truncating a structured tool output never fails, keeps every image and every piece of
    encrypted content in order, and leaves an output whose texts are within the budget, none
    of them empty, exactly as it is. *)
Theorem truncate_output_items_keeps (cs : list FunctionCallOutputContentItem)
    (p : TruncationPolicy) :
  Forall fits cs →
  ∃ cs', truncate_function_output_items_with_policy cs p = Some cs' ∧
    filter non_text cs' = filter non_text cs ∧
    (Forall not_blank cs →
     (total_cost p cs ≤ match p with Bytes b => b | Tokens t => t end)%N → cs' = cs).
Proof.
  intros HF. unfold truncate_function_output_items_with_policy.
  destruct (truncate_items_spec p cs
    (mkTrunc [] (match p with Bytes _ => byte_budget p | Tokens _ => token_budget p end) 0) HF)
    as (st & Hst & H1 & H2). rewrite Hst. cbn [mbind option_bind]. clear Hst.
  cbn [out remaining_budget omitted_text_items app] in H1, H2. eexists. split; [done|]. split.
  - destruct (0 <? omitted_text_items st); [|exact H1]. rewrite filter_app, H1.
    rewrite filter_cons, decide_False by (intros []). by rewrite filter_nil, app_nil_r.
  - intros Hb Hc. destruct H2 as [-> ->]; [done|by destruct p|done].
Qed.

Lemma truncate_output_items_keeps_witness :
  truncate_function_output_items_with_policy
    [OutInputText (lit "abcdef"); OutInputImage (lit "u") None; OutInputText (lit "x")] (Bytes 4) =
  Some [OutInputText (lit "ab" ++ [ellipsis] ++ lit "2 chars truncated" ++ [ellipsis] ++ lit "ef");
        OutInputImage (lit "u") None; OutInputText (lit "[omitted 1 text items ...]")] ∧
  ∃ cs', filter non_text cs' = [OutInputImage (lit "u") None].
Proof.
  split; [vm_compute; reflexivity|].
  destruct (truncate_output_items_keeps
    [OutInputText (lit "abcdef"); OutInputImage (lit "u") None; OutInputText (lit "x")] (Bytes 4))
    as (cs' & _ & H & _).
  - repeat constructor; vm_compute; discriminate.
  - exists cs'. exact H.
Defined.

End ResponseItems.
