(* ===== verification/ContextManager.v ===== *)
(** * The conversation history (core/src/context_manager)

    Normalisation (normalize.rs) makes a history acceptable to the model: every call has an
    output and every output a call.  [ContextManager] (history.rs) records items, prepares a
    prompt, drops the oldest item, rolls back turns.  [error_or_panic] panics in debug builds
    and logs in release builds: [debug] says which, and [None] is a panic.  Parameters: the
    UUID of a synthetic id, the recognition of contextual user fragments and of
    inter-agent messages, and the float scaling of a truncation policy. *)

From stdpp Require Import prelude strings gmap.
From S2P Require Import Prelude RustStr Truncate ResponseItems.
Import Truncate ResponseItems.

Module ContextManager.

(** [error_or_panic] (core/src/util.rs), then the rest. *)
Definition error_or_panic {A} (debug : bool) (k : option A) : option A :=
  if debug then None else k.

Definition IMAGE_CONTENT_OMITTED_PLACEHOLDER : str :=
  lit "image content omitted because you do not support image input".

(** ** Ids of calls and outputs *)

Definition function_output_id (i : ResponseItem) : option str :=
  match i with FunctionCallOutput _ c _ _ => Some c | _ => None end.
Definition tool_search_output_id (i : ResponseItem) : option str :=
  match i with ToolSearchOutput _ c _ _ _ _ => c | _ => None end.
Definition custom_tool_output_id (i : ResponseItem) : option str :=
  match i with CustomToolCallOutput _ c _ _ _ => Some c | _ => None end.
Definition function_call_id (i : ResponseItem) : option str :=
  match i with FunctionCall _ _ _ _ c _ => Some c | _ => None end.
Definition tool_search_call_id (i : ResponseItem) : option str :=
  match i with ToolSearchCall _ c _ _ _ _ => c | _ => None end.
Definition local_shell_call_id (i : ResponseItem) : option str :=
  match i with LocalShellCall _ c _ _ _ => c | _ => None end.
Definition custom_tool_call_id (i : ResponseItem) : option str :=
  match i with CustomToolCall _ _ c _ _ _ _ => Some c | _ => None end.

(** The set of ids a [HashSet] collects. *)
Definition ids_of (f : ResponseItem → option (list N)) (items : list ResponseItem) :
    list (list N) := omap f items.
Definition has_id (c : str) (ids : list (list N)) : bool := bool_decide (c ∈ ids).

Section normalize.
Variable debug : bool.
Variable uuid_v5 : str → str. (* of the namespace of synthetic outputs *)

(** [synthetic_output_id]. *)
Definition synthetic_output_id (prefix : str) (item_id : option str) : option str :=
  match item_id with
  | None | Some [] => None
  | Some source_id => Some (prefix ++ lit "_" ++ uuid_v5 (prefix ++ lit ":" ++ source_id))
  end.

Definition aborted : FunctionCallOutputPayload := from_text (lit "aborted").

(** The output to insert after an item, given the ids of the outputs there are: [Some None]
    for none, [None] for a panic. *)
Definition missing_output (fo to co : list (list N)) (i : ResponseItem) :
    option (option ResponseItem) :=
  match i with
  | FunctionCall id _ _ _ c _ =>
      if has_id c fo then Some None
      else Some (Some (FunctionCallOutput (synthetic_output_id (lit "fco") id) c aborted None))
  | ToolSearchCall id (Some c) _ _ _ _ =>
      if has_id c to then Some None
      else Some (Some (ToolSearchOutput (synthetic_output_id (lit "tso") id) (Some c)
                         (lit "completed") (lit "client") [] None))
  | CustomToolCall id _ c _ _ _ _ =>
      if has_id c co then Some None
      else error_or_panic debug
        (Some (Some (CustomToolCallOutput (synthetic_output_id (lit "ctco") id) c None aborted None)))
  | LocalShellCall id (Some c) _ _ _ =>
      if has_id c fo then Some None
      else error_or_panic debug
        (Some (Some (FunctionCallOutput (synthetic_output_id (lit "fco") id) c aborted None)))
  | _ => Some None
  end.

(** The first loop: the outputs to insert with the positions of their calls. *)
Fixpoint missing_outputs (fo to co : list (list N)) (idx : nat) (items : list ResponseItem) :
    option (list (nat * ResponseItem)) :=
  match items with
  | [] => Some []
  | i :: items' =>
      m ← missing_output fo to co i;
      ms ← missing_outputs fo to co (S idx) items';
      Some (match m with Some o => (idx, o) :: ms | None => ms end)
  end.

(** [Vec::insert]; [None] out of range. *)
Definition vec_insert (i : nat) (x : ResponseItem) (l : list ResponseItem) :
    option (list ResponseItem) :=
  if i <=? length l then Some (take i l ++ x :: drop i l) else None.

(** The second loop, in reverse order. *)
Definition insert_outputs (ms : list (nat * ResponseItem)) (items : list ResponseItem) :
    option (list ResponseItem) :=
  foldr (λ '(idx, o) acc, items ← acc; vec_insert (idx + 1) o items) (Some items) ms.

(** [ensure_call_outputs_present]. *)
Definition ensure_call_outputs_present (items : list ResponseItem) : option (list ResponseItem) :=
  ms ← missing_outputs (ids_of function_output_id items) (ids_of tool_search_output_id items)
         (ids_of custom_tool_output_id items) 0 items;
  insert_outputs ms items.

(** [remove_orphan_outputs]: the predicate of [retain], and the loop. *)
Definition or_orphan (has_match : bool) : option bool :=
  if has_match then Some true else error_or_panic debug (Some false).
Definition retain_output (fc tc lc cc : list (list N)) (i : ResponseItem) : option bool :=
  match i with
  | FunctionCallOutput _ c _ _ => or_orphan (has_id c fc || has_id c lc)
  | CustomToolCallOutput _ c _ _ _ => or_orphan (has_id c cc)
  | ToolSearchOutput _ c _ execution _ _ =>
      if decide (execution = lit "server") then Some true
      else match c with Some c => or_orphan (has_id c tc) | None => Some true end
  | _ => Some true
  end.
Fixpoint retain (f : ResponseItem → option bool) (items : list ResponseItem) :
    option (list ResponseItem) :=
  match items with
  | [] => Some []
  | i :: items' => keep ← f i; rest ← retain f items'; Some (if keep : bool then i :: rest else rest)
  end.
Definition remove_orphan_outputs (items : list ResponseItem) : option (list ResponseItem) :=
  retain (retain_output (ids_of function_call_id items) (ids_of tool_search_call_id items)
            (ids_of local_shell_call_id items) (ids_of custom_tool_call_id items)) items.

End normalize.

(** [remove_first_matching]. *)
Fixpoint remove_first_matching (f : ResponseItem → bool) (items : list ResponseItem) :
    list ResponseItem :=
  match items with
  | [] => []
  | i :: items' => if f i then items' else i :: remove_first_matching f items'
  end.

Definition id_is (f : ResponseItem → option (list N)) (c : str) (i : ResponseItem) : bool :=
  bool_decide (f i = Some c).

(** [remove_corresponding_for]. *)
Definition remove_corresponding_for (item : ResponseItem) (items : list ResponseItem) :
    list ResponseItem :=
  match item with
  | FunctionCall _ _ _ _ c _ => remove_first_matching (id_is function_output_id c) items
  | FunctionCallOutput _ c _ _ =>
      if existsb (id_is function_call_id c) items
      then remove_first_matching (id_is function_call_id c) items
      else remove_first_matching (id_is local_shell_call_id c) items
  | ToolSearchCall _ (Some c) _ _ _ _ => remove_first_matching (id_is tool_search_output_id c) items
  | ToolSearchOutput _ (Some c) _ _ _ _ => remove_first_matching (id_is tool_search_call_id c) items
  | CustomToolCall _ _ c _ _ _ _ => remove_first_matching (id_is custom_tool_output_id c) items
  | CustomToolCallOutput _ c _ _ _ => remove_first_matching (id_is custom_tool_call_id c) items
  | LocalShellCall _ (Some c) _ _ _ => remove_first_matching (id_is function_output_id c) items
  | _ => items
  end.

(** [strip_images_when_unsupported]. *)
Definition strip_content (c : ContentItem) : ContentItem :=
  match c with InputImage _ _ => InputText IMAGE_CONTENT_OMITTED_PLACEHOLDER | c => c end.
Definition strip_output_content (c : FunctionCallOutputContentItem) :
    FunctionCallOutputContentItem :=
  match c with OutInputImage _ _ => OutInputText IMAGE_CONTENT_OMITTED_PLACEHOLDER | c => c end.
Definition strip_output (o : FunctionCallOutputPayload) : FunctionCallOutputPayload :=
  match body o with
  | Text _ => o
  | ContentItems items => mkPayload (ContentItems (strip_output_content <$> items)) (success o)
  end.
Definition strip_images (i : ResponseItem) : ResponseItem :=
  match i with
  | Message id role content phase m => Message id role (strip_content <$> content) phase m
  | FunctionCallOutput id c o m => FunctionCallOutput id c (strip_output o) m
  | CustomToolCallOutput id c n o m => CustomToolCallOutput id c n (strip_output o) m
  | ImageGenerationCall id s r _ m => ImageGenerationCall id s r [] m
  | i => i
  end.
Definition strip_images_when_unsupported (supports_images : bool) (items : list ResponseItem) :
    list ResponseItem := if supports_images then items else strip_images <$> items.

(** [normalize_history]. *)
Definition normalize_items (debug : bool) (uuid_v5 : str → str) (supports_images : bool)
    (items : list ResponseItem) : option (list ResponseItem) :=
  items ← ensure_call_outputs_present debug uuid_v5 items;
  items ← remove_orphan_outputs debug items;
  Some (strip_images_when_unsupported supports_images items).

(** ** Calls and their outputs *)

(** The key that pairs a call with its output: the kind of tool and the call id.  A local
    shell call is answered by a function output. *)
Inductive kind : Type := KFunction | KToolSearch | KCustom.
#[global] Instance kind_eq_dec : EqDecision kind.
Proof. solve_decision. Defined.

Notation key := (kind * list N)%type.

Definition call_key (i : ResponseItem) : option key :=
  match i with
  | FunctionCall _ _ _ _ c _ => Some (KFunction, c)
  | LocalShellCall _ c _ _ _ => pair KFunction <$> c
  | ToolSearchCall _ c _ _ _ _ => pair KToolSearch <$> c
  | CustomToolCall _ _ c _ _ _ _ => Some (KCustom, c)
  | _ => None
  end.
Definition output_key (i : ResponseItem) : option key :=
  match i with
  | FunctionCallOutput _ c _ _ => Some (KFunction, c)
  | ToolSearchOutput _ c _ _ _ _ => pair KToolSearch <$> c
  | CustomToolCallOutput _ c _ _ _ => Some (KCustom, c)
  | _ => None
  end.
(** A tool search the server runs has no call on the client. *)
Definition server_output (i : ResponseItem) : Prop :=
  match i with ToolSearchOutput _ _ _ execution _ _ => execution = lit "server" | _ => False end.
#[global] Instance server_output_dec i : Decision (server_output i).
Proof. destruct i; simpl; apply _. Defined.

Definition call_keys (items : list ResponseItem) : list key := omap call_key items.
Definition output_keys (items : list ResponseItem) : list key := omap output_key items.

(** The two invariants of a history.  A shell or tool-search call, and a tool-search output,
    may have no call id; it then has no key, is not paired, and is left alone (see
    [apart_from_outputs]). *)
Definition calls_answered (items : list ResponseItem) : Prop :=
  ∀ k, k ∈ call_keys items → k ∈ output_keys items.
Definition outputs_called (items : list ResponseItem) : Prop :=
  ∀ i k, i ∈ items → output_key i = Some k → ¬ server_output i → k ∈ call_keys items.

Lemma has_id_spec (f : ResponseItem → option (list N)) (g : ResponseItem → option key) k c items :
  (∀ i c, f i = Some c ↔ g i = Some (k, c)) →
  has_id c (ids_of f items) = bool_decide ((k, c) ∈ omap g items).
Proof.
  intros Hfg. unfold has_id, ids_of. apply bool_decide_ext. rewrite !list_elem_of_omap.
  by setoid_rewrite Hfg.
Qed.

Lemma function_outputs c items :
  has_id c (ids_of function_output_id items) = bool_decide ((KFunction, c) ∈ output_keys items).
Proof. apply has_id_spec. intros [] x; simpl; try destruct call_id; naive_solver. Qed.
Lemma tool_search_outputs c items :
  has_id c (ids_of tool_search_output_id items) = bool_decide ((KToolSearch, c) ∈ output_keys items).
Proof. apply has_id_spec. intros [] x; simpl; try destruct call_id; naive_solver. Qed.
Lemma custom_tool_outputs c items :
  has_id c (ids_of custom_tool_output_id items) = bool_decide ((KCustom, c) ∈ output_keys items).
Proof. apply has_id_spec. intros [] x; simpl; try destruct call_id; naive_solver. Qed.
Lemma tool_search_calls c items :
  has_id c (ids_of tool_search_call_id items) = bool_decide ((KToolSearch, c) ∈ call_keys items).
Proof. apply has_id_spec. intros [] x; simpl; try destruct call_id; naive_solver. Qed.
Lemma custom_tool_calls c items :
  has_id c (ids_of custom_tool_call_id items) = bool_decide ((KCustom, c) ∈ call_keys items).
Proof. apply has_id_spec. intros [] x; simpl; try destruct call_id; naive_solver. Qed.
Lemma function_calls c items :
  has_id c (ids_of function_call_id items) || has_id c (ids_of local_shell_call_id items) =
  bool_decide ((KFunction, c) ∈ call_keys items).
Proof.
  apply eq_iff_eq_true. unfold has_id, ids_of, call_keys.
  rewrite orb_true_iff, !bool_decide_eq_true, !list_elem_of_omap. split.
  - intros [(i & Hi & H)|(i & Hi & H)]; exists i; (split; [done|]); destruct i; simpl in *; naive_solver.
  - intros (i & Hi & H). destruct i; simpl in H; rewrite ?fmap_Some in H; naive_solver.
Qed.

(** An output stays when it has no id, comes from the server, or has a call. *)
Definition kept (items : list ResponseItem) (i : ResponseItem) : Prop :=
  match output_key i with
  | Some k => server_output i ∨ k ∈ call_keys items
  | None => True
  end.
#[global] Instance kept_dec items i : Decision (kept items i).
Proof. unfold kept. destruct (output_key i); apply _. Defined.

(** ** Normalisation *)

Section normalization.
Variable debug : bool.
Variable uuid_v5 : str → str.

Definition missing (items : list ResponseItem) : ResponseItem → option (option ResponseItem) :=
  missing_output debug uuid_v5 (ids_of function_output_id items)
    (ids_of tool_search_output_id items) (ids_of custom_tool_output_id items).

Lemma missing_spec items i m :
  missing items i = Some m →
  match call_key i with
  | None => m = None
  | Some k => if decide (k ∈ output_keys items) then m = None
              else ∃ o, m = Some o ∧ output_key o = Some k ∧ call_key o = None ∧ ¬ server_output o
  end.
Proof.
  unfold missing.
  destruct i as [| | | |? [c|]|? ? ? ? c|? [c|]| |? ? c| | | | | | | |]; simpl;
    try (by intros [= <-]); unfold error_or_panic;
    rewrite ?function_outputs, ?tool_search_outputs, ?custom_tool_outputs;
    case_decide; rewrite ?bool_decide_true, ?bool_decide_false by done; intros Hm;
    repeat case_match; simplify_eq; try done; eexists; split_and!; try done;
    by intros [].
Qed.

Lemma missing_answered items i k :
  call_key i = Some k → k ∈ output_keys items → missing items i = Some None.
Proof.
  unfold missing. intros Hk Hin.
  destruct i as [| | | |? [c|]|? ? ? ? c|? [c|]| |? ? c| | | | | | | |]; simplify_eq/=;
    rewrite ?function_outputs, ?tool_search_outputs, ?custom_tool_outputs;
    by rewrite bool_decide_true.
Qed.

Lemma missing_no_call items i : call_key i = None → missing items i = Some None.
Proof.
  unfold missing. by destruct i as [| | | |? [c|]|? ? ? ? c|? [c|]| |? ? c| | | | | | | |].
Qed.

(** The reference for the two loops: each item, followed by the output it lacks. *)
Definition answered (i : ResponseItem) (m : option ResponseItem) : list ResponseItem :=
  i :: match m with Some o => [o] | None => [] end.

Lemma insert_outputs_spec fo to co items pre ms ms' :
  Forall2 (λ i m, missing_output debug uuid_v5 fo to co i = Some m) items ms →
  missing_outputs debug uuid_v5 fo to co (length pre) items = Some ms' →
  insert_outputs ms' (pre ++ items) = Some (pre ++ concat (zip_with answered items ms)).
Proof.
  intros HF. revert pre ms'. induction HF as [|i m items ms Hm HF IH]; intros pre ms' Hms'; simpl in *.
  { by simplify_eq. }
  rewrite Hm in Hms'. simpl in Hms'.
  destruct (missing_outputs _ _ _ _ _ (S (length pre)) items) as [ms1|] eqn:E; [|done].
  simpl in Hms'. specialize (IH (pre ++ [i]) ms1).
  rewrite length_app, Nat.add_comm in IH. specialize (IH E).
  rewrite <-!app_assoc in IH. simpl in IH.
  destruct m as [o|]; simplify_eq/=; [|done]. rewrite IH. simpl. unfold vec_insert.
  rewrite length_app. simpl. destruct (_ <=? _) eqn:El; [|apply Nat.leb_gt in El; lia].
  set (w := concat _). replace (pre ++ i :: w) with ((pre ++ [i]) ++ w) by by rewrite <-app_assoc.
  rewrite take_app_length', drop_app_length' by (rewrite length_app; simpl; lia).
  by rewrite <-app_assoc.
Qed.

Lemma missing_outputs_Forall2 fo to co items idx ms' :
  missing_outputs debug uuid_v5 fo to co idx items = Some ms' →
  ∃ ms, Forall2 (λ i m, missing_output debug uuid_v5 fo to co i = Some m) items ms.
Proof.
  revert idx ms'. induction items as [|i items IH]; intros idx ms'; simpl; [by exists []|].
  destruct (missing_output _ _ _ _ _ i) as [m|] eqn:E; [|done]. simpl.
  destruct (missing_outputs _ _ _ _ _ (S idx) items) as [ms1|] eqn:E1; [|done]. intros _.
  destruct (IH _ _ E1) as [ms HF]. exists (m :: ms). by constructor.
Qed.

Lemma missing_outputs_total fo to co items ms idx :
  Forall2 (λ i m, missing_output debug uuid_v5 fo to co i = Some m) items ms →
  is_Some (missing_outputs debug uuid_v5 fo to co idx items).
Proof.
  intros HF. revert idx. induction HF as [|i m items ms Hm HF IH]; intros idx; simpl; [done|].
  rewrite Hm. simpl. destruct (IH (S idx)) as [x ->]. done.
Qed.

(** [ensure_call_outputs_present] puts the outputs right after their calls. *)
Lemma ensure_spec items items' :
  ensure_call_outputs_present debug uuid_v5 items = Some items' ↔
  ∃ ms, Forall2 (λ i m, missing items i = Some m) items ms ∧
        items' = concat (zip_with answered items ms).
Proof.
  unfold ensure_call_outputs_present. split.
  - destruct (missing_outputs _ _ _ _ _ 0 items) as [ms'|] eqn:E; [|done]. simpl.
    destruct (missing_outputs_Forall2 _ _ _ _ _ _ E) as [ms HF]. intros H.
    pose proof (insert_outputs_spec _ _ _ _ [] _ _ HF E) as H'. simpl in H'. exists ms.
    split; [done|]. congruence.
  - intros (ms & HF & ->). destruct (missing_outputs_total _ _ _ _ _ 0 HF) as [ms' E].
    rewrite E. simpl. exact (insert_outputs_spec _ _ _ _ [] _ _ HF E).
Qed.

Definition retained (items : list ResponseItem) : ResponseItem → option bool :=
  retain_output debug (ids_of function_call_id items) (ids_of tool_search_call_id items)
    (ids_of local_shell_call_id items) (ids_of custom_tool_call_id items).

Lemma retained_spec items i :
  retained items i = if decide (kept items i) then Some true else error_or_panic debug (Some false).
Proof.
  clear uuid_v5. unfold retained, kept.
  destruct i as [| | | | | | |? c| |? c|? [c|] ? execution| | | | | |]; simpl; try done;
    rewrite ?function_calls, ?tool_search_calls, ?custom_tool_calls; unfold or_orphan.
  - repeat case_decide; repeat case_bool_decide; naive_solver.
  - repeat case_decide; repeat case_bool_decide; naive_solver.
  - repeat case_decide; repeat case_bool_decide; naive_solver.
  - by case_decide.
Qed.

Lemma retain_filter (P : ResponseItem → Prop) `{∀ i, Decision (P i)} f items :
  (∀ i, i ∈ items → f i = if decide (P i) then Some true else error_or_panic debug (Some false)) →
  retain f items = if debug && negb (bool_decide (Forall P items)) then None else Some (filter P items).
Proof.
  intros Hf. induction items as [|i items IH]; simpl; [by rewrite andb_false_r|].
  rewrite Hf by (by left). rewrite IH by (intros; apply Hf; by right). clear IH Hf.
  rewrite filter_cons. unfold error_or_panic.
  destruct debug; simpl; repeat case_decide; repeat case_bool_decide; simpl; try done;
    repeat match goal with HF : Forall _ (_ :: _) |- _ => inversion HF; clear HF; subst end;
    try done; exfalso; eauto using Forall_cons_2.
Qed.

Lemma remove_orphans_spec items :
  remove_orphan_outputs debug items =
  if debug && negb (bool_decide (Forall (kept items) items)) then None
  else Some (filter (kept items) items).
Proof. apply retain_filter. intros i _. apply retained_spec. Qed.

Lemma output_keys_concat items ms k :
  Forall2 (λ i m, missing items i = Some m) items ms →
  k ∈ call_keys items → k ∈ output_keys (concat (zip_with answered items ms)).
Proof.
  intros HF Hk. unfold call_keys in Hk. apply list_elem_of_omap in Hk as (i & Hi & Hk).
  assert (Hin : ∀ x m, (x, m) ∈ zip items ms → ∀ y, y ∈ answered x m →
    y ∈ concat (zip_with answered items ms)).
  { clear. revert ms. induction items as [|j items IH]; intros [|m' ms] x m; simpl;
      try (by intros ?%not_elem_of_nil). intros [[= -> ->]|Hx]%elem_of_cons y Hy.
    - apply elem_of_cons in Hy as [->|Hy]; [by left|]. right. apply elem_of_app. by left.
    - right. apply elem_of_app. right. by eapply IH. }
  assert (∃ m, (i, m) ∈ zip items ms ∧ missing items i = Some m) as (m & Him & Hm).
  { apply list_elem_of_lookup in Hi as [n Hn]. destruct (Forall2_lookup_l _ _ _ _ _ HF Hn) as (m & Hmn & Hm).
    exists m. split; [|done]. apply list_elem_of_lookup. exists n. rewrite lookup_zip_with, Hn. simpl.
    by rewrite Hmn. }
  apply missing_spec in Hm. rewrite Hk in Hm. unfold output_keys. apply list_elem_of_omap.
  case_decide as Ho.
  - apply list_elem_of_omap in Ho as (o & Ho & Hok). exists o. split; [|done].
    apply list_elem_of_lookup in Ho as [n Hn].
    destruct (Forall2_lookup_l _ _ _ _ _ HF Hn) as (m' & Hmn & _).
    apply (Hin o m'); [|by left]. apply list_elem_of_lookup. exists n.
    rewrite lookup_zip_with, Hn. simpl. by rewrite Hmn.
  - destruct Hm as (o & -> & Hok & _). exists o. split; [|done]. apply (Hin i (Some o)); [done|].
    right. by left.
Qed.

Lemma call_keys_concat all items ms :
  Forall2 (λ i m, missing all i = Some m) items ms →
  call_keys (concat (zip_with answered items ms)) = call_keys items.
Proof.
  intros HF. induction HF as [|i m items ms Hm HF IH]; [done|].
  unfold call_keys in *. simpl. rewrite omap_app, IH. apply missing_spec in Hm.
  assert (omap call_key (match m with Some o => [o] | None => [] end) = []) as ->.
  { destruct (call_key i) as [k|]; [|by subst]. case_decide; [by subst|].
    destruct Hm as (o & -> & _ & Ho & _). simpl. by rewrite Ho. }
  done.
Qed.

End normalization.

Lemma call_is_no_output i k : call_key i = Some k → output_key i = None.
Proof. by destruct i. Qed.

Lemma call_kept items i k : call_key i = Some k → kept items i.
Proof. intros H%call_is_no_output. unfold kept. by rewrite H. Qed.

Lemma call_keys_filter items : call_keys (filter (kept items) items) = call_keys items.
Proof.
  assert (Hgen : ∀ l, call_keys (filter (kept items) l) = call_keys l); [|done].
  unfold call_keys. induction l as [|i l IH]; [done|]. rewrite filter_cons. case_decide as Hk; csimpl.
  - by rewrite IH.
  - rewrite IH. destruct (call_key i) eqn:E; [|done]. by apply (call_kept items) in E.
Qed.

Lemma output_keys_filter items k :
  k ∈ call_keys items → k ∈ output_keys items → k ∈ output_keys (filter (kept items) items).
Proof.
  unfold output_keys. rewrite !list_elem_of_omap. intros Hc (o & Ho & Hk). exists o. split; [|done].
  apply list_elem_of_filter. split; [|done]. unfold kept. rewrite Hk. by right.
Qed.

Lemma strip_images_keys i :
  call_key (strip_images i) = call_key i ∧ output_key (strip_images i) = output_key i ∧
  (server_output (strip_images i) ↔ server_output i).
Proof. by destruct i. Qed.

Lemma strip_keys b items :
  call_keys (strip_images_when_unsupported b items) = call_keys items ∧
  output_keys (strip_images_when_unsupported b items) = output_keys items.
Proof.
  destruct b; [done|]. simpl. unfold call_keys, output_keys.
  induction items as [|i items [IH1 IH2]]; [done|]. csimpl.
  destruct (strip_images_keys i) as (-> & -> & _).
  rewrite IH1, IH2. done.
Qed.

Lemma strip_well_paired b items :
  calls_answered items → outputs_called items →
  calls_answered (strip_images_when_unsupported b items) ∧
  outputs_called (strip_images_when_unsupported b items).
Proof.
  intros Ha Hc. unfold calls_answered, outputs_called. destruct (strip_keys b items) as [-> ->].
  split; [done|]. intros i k Hi. destruct b; [by apply Hc|].
  apply list_elem_of_fmap in Hi as (j & -> & Hj).
  destruct (strip_images_keys j) as (_ & -> & ->). by apply Hc.
Qed.

Lemma strip_content_idemp c : strip_content (strip_content c) = strip_content c.
Proof. by destruct c. Qed.
Lemma strip_output_content_idemp c :
  strip_output_content (strip_output_content c) = strip_output_content c.
Proof. by destruct c. Qed.
Lemma strip_output_idemp o : strip_output (strip_output o) = strip_output o.
Proof.
  unfold strip_output. destruct (body o) as [t|l] eqn:E; [by rewrite E|]. simpl.
  do 2 f_equal. rewrite <-list_fmap_compose. apply list_fmap_ext. intros _ c _.
  apply strip_output_content_idemp.
Qed.
Lemma strip_images_idemp i : strip_images (strip_images i) = strip_images i.
Proof.
  destruct i; simpl; try done; rewrite ?strip_output_idemp; try done. f_equal.
  rewrite <-list_fmap_compose. apply list_fmap_ext. intros _ c _. apply strip_content_idemp.
Qed.

Lemma strip_items_idemp b items :
  strip_images_when_unsupported b (strip_images_when_unsupported b items) =
  strip_images_when_unsupported b items.
Proof.
  destruct b; [done|]. simpl. rewrite <-list_fmap_compose. apply list_fmap_ext.
  intros _ i _. apply strip_images_idemp.
Qed.

Lemma filter_all {A} (P : A → Prop) `{∀ x, Decision (P x)} (l : list A) :
  Forall P l → filter P l = l.
Proof. induction 1 as [|x l Hx _ IH]; [done|]. rewrite filter_cons, decide_True by done. by f_equal. Qed.

(** In a release build nothing panics and the result is well paired. *)
Lemma normalize_release uuid_v5 b items :
  ∃ items', normalize_items false uuid_v5 b items = Some items' ∧
    calls_answered items' ∧ outputs_called items' ∧
    strip_images_when_unsupported b items' = items'.
Proof.
  assert (∃ ms, Forall2 (λ i m, missing false uuid_v5 items i = Some m) items ms) as [ms HF].
  { assert (Hone : ∀ i, ∃ m, missing false uuid_v5 items i = Some m).
    { intros i. unfold missing, missing_output, error_or_panic. repeat case_match; eauto. }
    clear -Hone. generalize items at 2 as l. induction l as [|i l [ms IH]]; [by exists []|].
    destruct (Hone i) as [m Hm]. exists (m :: ms). by constructor. }
  set (e := concat (zip_with answered items ms)).
  assert (He : ensure_call_outputs_present false uuid_v5 items = Some e).
  { apply ensure_spec. by exists ms. }
  unfold normalize_items. rewrite He. simpl. rewrite remove_orphans_spec. simpl.
  set (r := filter (kept e) e).
  assert (Ha : calls_answered r).
  { intros k Hk. unfold r in Hk. rewrite call_keys_filter in Hk. apply output_keys_filter; [done|].
    apply output_keys_concat with (debug := false) (uuid_v5 := uuid_v5); [done|].
    unfold e in Hk. by rewrite (call_keys_concat false uuid_v5 items) in Hk. }
  assert (Hc : outputs_called r).
  { intros i k [Hkept _]%list_elem_of_filter Hk Hs. unfold r. rewrite call_keys_filter.
    unfold kept in Hkept. rewrite Hk in Hkept. by destruct Hkept. }
  eexists. split; [done|]. destruct (strip_well_paired b r Ha Hc) as [Ha' Hc'].
  split; [done|]. split; [done|apply strip_items_idemp].
Qed.

(** What normalisation neither adds nor removes: all but the outputs that have an id. *)
Definition apart_from_outputs (items : list ResponseItem) : list ResponseItem :=
  filter (λ i, output_key i = None) items.

Lemma ensure_apart debug uuid_v5 all items ms :
  Forall2 (λ i m, missing debug uuid_v5 all i = Some m) items ms →
  apart_from_outputs (concat (zip_with answered items ms)) = apart_from_outputs items.
Proof.
  unfold apart_from_outputs. induction 1 as [|i m items ms Hm _ IH]; [done|]. simpl.
  rewrite !filter_cons, filter_app, IH. apply missing_spec in Hm.
  assert (filter (λ i, output_key i = None) (match m with Some o => [o] | None => [] end) = []) as ->; [|done].
  destruct (call_key i) as [k|]; [|by subst]. case_decide; [by subst|].
  destruct Hm as (o & -> & Ho & _). by rewrite filter_cons, Ho, decide_False.
Qed.

Lemma orphans_apart all items : apart_from_outputs (filter (kept all) items) = apart_from_outputs items.
Proof.
  unfold apart_from_outputs. induction items as [|i items IH]; [done|]. rewrite !filter_cons.
  destruct (decide (kept all i)) as [Hk|Hk]; [by rewrite filter_cons, IH|].
  rewrite IH, decide_False; [done|]. intros Ho. apply Hk. unfold kept. by rewrite Ho.
Qed.

Lemma strip_apart b items :
  apart_from_outputs (strip_images_when_unsupported b items) =
  strip_images_when_unsupported b (apart_from_outputs items).
Proof.
  destruct b; [done|]. simpl. unfold apart_from_outputs.
  induction items as [|i items IH]; [done|]. rewrite fmap_cons, !filter_cons.
  destruct (strip_images_keys i) as (_ & -> & _). rewrite IH. by case_decide.
Qed.

Lemma normalize_apart debug uuid_v5 b items items' :
  normalize_items debug uuid_v5 b items = Some items' →
  apart_from_outputs items' = strip_images_when_unsupported b (apart_from_outputs items).
Proof.
  unfold normalize_items. destruct (ensure_call_outputs_present debug uuid_v5 items) as [e|] eqn:He; [|done].
  apply ensure_spec in He as (ms & HF & ->). simpl. rewrite remove_orphans_spec.
  destruct (_ && _); [done|]. simpl. intros [= <-].
  by rewrite strip_apart, orphans_apart, (ensure_apart _ _ _ _ _ HF).
Qed.

(** A well-paired history is left alone, in either build. *)
Lemma normalize_fixed debug uuid_v5 b items :
  calls_answered items → outputs_called items → strip_images_when_unsupported b items = items →
  normalize_items debug uuid_v5 b items = Some items.
Proof.
  intros Ha Hc Hs. unfold normalize_items.
  assert (He : ensure_call_outputs_present debug uuid_v5 items = Some items).
  { apply ensure_spec. exists (replicate (length items) None).
    assert (HF : ∀ l, (∀ i, i ∈ l → missing debug uuid_v5 items i = Some None) →
      Forall2 (λ i m, missing debug uuid_v5 items i = Some m) l (replicate (length l) None) ∧
      concat (zip_with answered l (replicate (length l) None)) = l).
    { induction l as [|i l IH]; intros Hl; simpl; [by split|].
      destruct IH as [IH1 IH2]; [intros; apply Hl; by right|]. split.
      - constructor; [apply Hl; by left|done].
      - by rewrite IH2. }
    destruct (HF items) as [H1 H2]; [|by rewrite H2].
    intros i Hi. destruct (call_key i) as [k|] eqn:Ek; [|by apply missing_no_call].
    eapply missing_answered; [done|]. apply Ha. apply list_elem_of_omap. by exists i. }
  rewrite He. simpl. rewrite remove_orphans_spec.
  assert (HF : Forall (kept items) items).
  { apply Forall_forall. intros i Hi. unfold kept. destruct (output_key i) as [k|] eqn:Ek; [|done].
    destruct (decide (server_output i)); [by left|]. right. by eapply Hc. }
  rewrite bool_decide_true by done. rewrite andb_false_r. simpl. rewrite filter_all by done. by rewrite Hs.
Qed.

(** ** Dropping the oldest item *)

Lemma elem_remove_first f items i :
  i ∈ items → f i = false → i ∈ remove_first_matching f items.
Proof.
  induction items as [|j items IH]; [by intros ?%not_elem_of_nil|]. simpl.
  intros [->|Hi]%elem_of_cons Hf; [rewrite Hf; by left|].
  destruct (f j); [done|]. right. auto.
Qed.

Lemma remove_first_elem f items i : i ∈ remove_first_matching f items → i ∈ items.
Proof.
  induction items as [|j items IH]; simpl; [done|]. destruct (f j); [by right|].
  intros [->|Hi]%elem_of_cons; [by left|right; auto].
Qed.

(** With distinct keys, no item of the key is left. *)
Lemma remove_first_key (g : ResponseItem → option key) f k items i :
  (∀ j, f j = true → g j = Some k) → (∀ j, j ∈ items → g j = Some k → f j = true) →
  NoDup (omap g items) → i ∈ remove_first_matching f items → g i ≠ Some k.
Proof.
  intros Hf Hg. induction items as [|j items IH]; simpl; [by intros _ ?%not_elem_of_nil|].
  intros Hnd Hi Hk. destruct (f j) eqn:E.
  - rewrite (Hf j E) in Hnd. apply NoDup_cons in Hnd as [Hnot _]. apply Hnot.
    apply list_elem_of_omap. by exists i.
  - apply elem_of_cons in Hi as [->|Hi].
    + rewrite Hg in E; [done|by left|done].
    + apply IH; [intros; apply Hg; [by right|done]| |done|done].
      destruct (g j); [by apply NoDup_cons in Hnd as [_ ?]|done].
Qed.

(** What remains when an item and its counterpart go. *)
Definition counterpart_removed (item : ResponseItem) (items items' : list ResponseItem) : Prop :=
  (∀ i, i ∈ items' → i ∈ items) ∧
  (∀ i, i ∈ items →
     (∀ k, call_key item = Some k → output_key i ≠ Some k) →
     (∀ k, output_key item = Some k → call_key i ≠ Some k) → i ∈ items') ∧
  (∀ i k, i ∈ items' → call_key item = Some k → output_key i ≠ Some k) ∧
  (∀ i k, i ∈ items' → output_key item = Some k → call_key i ≠ Some k).

Lemma remove_output_spec item f k items :
  call_key item = Some k → (∀ j, f j = true ↔ output_key j = Some k) →
  NoDup (output_keys items) → counterpart_removed item items (remove_first_matching f items).
Proof.
  intros Hk Hf Hnd. pose proof (call_is_no_output item k Hk) as Ho. unfold counterpart_removed.
  rewrite Hk, Ho. split_and!.
  - intros i. apply remove_first_elem.
  - intros i Hi H1 _. apply elem_remove_first; [done|]. apply not_true_iff_false.
    rewrite Hf. by apply H1.
  - intros i k' Hi [= <-]. eapply (remove_first_key output_key); [..|done|done]; naive_solver.
  - done.
Qed.

Lemma remove_call_spec item f k items :
  output_key item = Some k → call_key item = None → (∀ j, f j = true → call_key j = Some k) →
  (∀ j, j ∈ items → call_key j = Some k → f j = true) →
  NoDup (call_keys items) → counterpart_removed item items (remove_first_matching f items).
Proof.
  intros Hk Hc Hf Hg Hnd. unfold counterpart_removed. rewrite Hk, Hc. split_and!.
  - intros i. apply remove_first_elem.
  - intros i Hi _ H1. apply elem_remove_first; [done|]. apply not_true_iff_false.
    intros Hfi%Hf. by apply (H1 k).
  - done.
  - intros i k' Hi [= <-]. by eapply (remove_first_key call_key).
Qed.

Lemma NoDup_key_unique (g : ResponseItem → option key) items i j k :
  NoDup (omap g items) → i ∈ items → j ∈ items → g i = Some k → g j = Some k → i = j.
Proof.
  intros Hnd Hi Hj Hgi Hgj. induction items as [|x items IH]; [by apply not_elem_of_nil in Hi|].
  simpl in Hnd. apply elem_of_cons in Hi as [->|Hi], Hj as [->|Hj]; [done| | |].
  - rewrite Hgi in Hnd. apply NoDup_cons in Hnd as [Hnot _]. destruct Hnot.
    apply list_elem_of_omap. by exists j.
  - rewrite Hgj in Hnd. apply NoDup_cons in Hnd as [Hnot _]. destruct Hnot.
    apply list_elem_of_omap. by exists i.
  - apply IH; [|done|done]. destruct (g x); [by apply NoDup_cons in Hnd as [_ ?]|done].
Qed.

Lemma id_is_key (f : ResponseItem → option (list N)) (g : ResponseItem → option key) kd c i :
  (∀ i c, f i = Some c ↔ g i = Some (kd, c)) → id_is f c i = true ↔ g i = Some (kd, c).
Proof. intros H. unfold id_is. rewrite bool_decide_eq_true. apply H. Qed.

Lemma function_call_split i c :
  call_key i = Some (KFunction, c) ↔ function_call_id i = Some c ∨ local_shell_call_id i = Some c.
Proof. destruct i; simpl; rewrite ?fmap_Some; naive_solver. Qed.

Lemma remove_corresponding_spec item items :
  NoDup (call_keys items) → NoDup (output_keys items) →
  counterpart_removed item items (remove_corresponding_for item items).
Proof.
  intros Hnc Hno.
  assert (Hnone : call_key item = None → output_key item = None →
    counterpart_removed item items items).
  { intros Hc Ho. unfold counterpart_removed. rewrite Hc, Ho. by split_and!. }
  destruct item as [| | | |? [c|]|? ? ? ? c|? [c|]|? c|? ? c|? c|? [c|]| | | | | |]; simpl;
    try (by apply Hnone).
  - eapply remove_output_spec; [done| |done]. intros j. apply id_is_key.
    intros [] x; simpl; rewrite ?fmap_Some; naive_solver.
  - eapply remove_output_spec; [done| |done]. intros j. apply id_is_key.
    intros [] x; simpl; rewrite ?fmap_Some; naive_solver.
  - eapply remove_output_spec; [done| |done]. intros j. apply id_is_key.
    intros [] x; simpl; rewrite ?fmap_Some; naive_solver.
  - destruct (existsb _ items) eqn:E.
    + apply existsb_exists in E as (x & Hx%list_elem_of_In & Hfx).
      unfold id_is in Hfx. rewrite bool_decide_eq_true in Hfx.
      eapply (remove_call_spec _ _ (KFunction, c)); [done|done| | |done].
      * intros j Hj. unfold id_is in Hj. rewrite bool_decide_eq_true in Hj.
        apply function_call_split. by left.
      * intros j Hj Hk. assert (x = j) as <-; [|unfold id_is; by apply bool_decide_eq_true].
        eapply (NoDup_key_unique call_key); [done..| |done]. apply function_call_split. by left.
    + eapply (remove_call_spec _ _ (KFunction, c)); [done|done| | |done].
      * intros j Hj. unfold id_is in Hj. rewrite bool_decide_eq_true in Hj.
        apply function_call_split. by right.
      * intros j Hj [Hk|Hk]%function_call_split; unfold id_is; apply bool_decide_eq_true; [|done].
        exfalso. rewrite (proj2 (existsb_exists _ _)) in E; [done|]. exists j.
        rewrite <-list_elem_of_In. split; [done|]. unfold id_is. by apply bool_decide_eq_true.
  - eapply remove_output_spec; [done| |done]. intros j. apply id_is_key.
    intros [] x; simpl; rewrite ?fmap_Some; naive_solver.
  - assert (Hf : ∀ j, id_is custom_tool_call_id c j = true ↔ call_key j = Some (KCustom, c)).
    { intros j. apply id_is_key. intros [] x; simpl; rewrite ?fmap_Some; naive_solver. }
    eapply (remove_call_spec _ _ (KCustom, c)); [done|done| | |done]; naive_solver.
  - assert (Hf : ∀ j, id_is tool_search_call_id c j = true ↔ call_key j = Some (KToolSearch, c)).
    { intros j. apply id_is_key. intros [] x; simpl; rewrite ?fmap_Some; naive_solver. }
    eapply (remove_call_spec _ _ (KToolSearch, c)); [done|done| | |done]; naive_solver.
Qed.

(** ** Contextual developer messages (event_mapping.rs) *)

Definition CONTEXTUAL_DEVELOPER_PREFIXES : list str :=
  lit <$> ["<permissions instructions>"; "<model_switch>"; "<apps_instructions>";
           "<collaboration_mode>"; "<multi_agent_mode>"; "<plugins_instructions>";
           "<realtime_conversation>"; "<skills_instructions>"; "<personality_spec>";
           "<token_budget>"; "<context_window>"; "<context_window_guidance>";
           "<rollout_budget>"]%string.

(** The prefixes are ASCII: a byte slice of a prefix's length equals it, up to ASCII case,
    exactly when the first characters do. *)
Definition is_contextual_dev_fragment (c : ContentItem) : bool :=
  match c with
  | InputText text =>
      let trimmed := trim_start text in
      existsb (λ prefix, eq_ignore_ascii_case (take (length prefix) trimmed) prefix)
        CONTEXTUAL_DEVELOPER_PREFIXES
  | _ => false
  end.

(** ** The manager *)

Section manager.
Context {turn_context world_state : Type}.

(** [ContextManager], without the token accounting. *)
Record ContextManager : Type := mkManager {
  items : list ResponseItem;
  history_version : N;
  reference_context_item : option turn_context;
  world_state_baseline : option world_state;
}.

Definition u64_max : N := 18446744073709551615%N.
Definition new : ContextManager := mkManager [] 0 None None.

Variable debug : bool.
Variable uuid_v5 : str → str.
Variable is_contextual_user_fragment : ContentItem → bool.
Variable is_inter_agent_instruction_content : list ContentItem → bool.
Variable serialization_budget : TruncationPolicy → TruncationPolicy. (* [policy * 1.2] *)

(** [is_api_message]. *)
Definition is_api_message (i : ResponseItem) : bool :=
  match i with
  | Message _ role _ _ _ => negb (bool_decide (role = lit "system"))
  | CompactionTrigger | Other => false
  | _ => true
  end.

(** [process_item]. *)
Definition process_item (i : ResponseItem) (p : TruncationPolicy) : option ResponseItem :=
  let p := serialization_budget p in
  match i with
  | FunctionCallOutput id c o m =>
      o ← truncate_function_output_payload o p; Some (FunctionCallOutput id c o m)
  | CustomToolCallOutput id c n o m =>
      o ← truncate_function_output_payload o p; Some (CustomToolCallOutput id c n o m)
  | i => Some i
  end.

(** [record_items]. *)
Definition set_items (l : list ResponseItem) (cm : ContextManager) : ContextManager :=
  mkManager l (history_version cm) (reference_context_item cm) (world_state_baseline cm).
Fixpoint record_items (new_items : list ResponseItem) (p : TruncationPolicy) (cm : ContextManager) :
    option ContextManager :=
  match new_items with
  | [] => Some cm
  | i :: rest =>
      if is_api_message i then
        processed ← process_item i p;
        record_items rest p (set_items (items cm ++ [processed]) cm)
      else record_items rest p cm
  end.

(** [for_prompt]. *)
Definition for_prompt (supports_images : bool) (cm : ContextManager) : option (list ResponseItem) :=
  normalize_items debug uuid_v5 supports_images (items cm).

(** [remove_first_item]. *)
Definition remove_first_item (cm : ContextManager) : ContextManager :=
  match items cm with
  | [] => cm
  | removed :: rest =>
      mkManager (remove_corresponding_for removed rest) (history_version cm)
        (reference_context_item cm) None
  end.

(** [replace]. *)
Definition replace (l : list ResponseItem) (cm : ContextManager) : ContextManager :=
  mkManager l (N.min u64_max (history_version cm + 1)) (reference_context_item cm) None.

(** [is_contextual_user_message_content] and the like (event_mapping.rs),
    [is_user_turn_boundary]. *)
Definition is_contextual_user_message_content (content : list ContentItem) : bool :=
  existsb is_contextual_user_fragment content.
Definition is_contextual_dev_message_content (content : list ContentItem) : bool :=
  existsb is_contextual_dev_fragment content.
Definition has_non_contextual_dev_message_content (content : list ContentItem) : bool :=
  existsb (λ c, negb (is_contextual_dev_fragment c)) content.
Definition is_user_turn_boundary (i : ResponseItem) : bool :=
  match i with
  | AgentMessage _ _ _ _ _ => true
  | Message _ role content _ _ =>
      (bool_decide (role = lit "user") && negb (is_contextual_user_message_content content)) ||
      (bool_decide (role = lit "assistant") && is_inter_agent_instruction_content content)
  | _ => false
  end.

(** [replace_last_turn_images]: the position [rposition] finds, then the replacement. *)
Definition last_turn_item (i : ResponseItem) : bool :=
  match i with FunctionCallOutput _ _ _ _ => true | i => is_user_turn_boundary i end.
Fixpoint rposition (f : ResponseItem → bool) (l : list ResponseItem) : option nat :=
  match l with
  | [] => None
  | i :: l' => match rposition f l' with
               | Some n => Some (S n)
               | None => if f i then Some 0 else None
               end
  end.
Definition replace_image (placeholder : str) (c : FunctionCallOutputContentItem) :
    FunctionCallOutputContentItem :=
  match c with OutInputImage _ _ => OutInputText placeholder | c => c end.
Definition is_image (c : FunctionCallOutputContentItem) : bool :=
  match c with OutInputImage _ _ => true | _ => false end.
Definition replace_last_turn_images (placeholder : str) (cm : ContextManager) :
    ContextManager * bool :=
  match rposition last_turn_item (items cm) with
  | None => (cm, false)
  | Some n =>
      match items cm !! n with
      | Some (FunctionCallOutput id c (mkPayload (ContentItems cs) ok) m) =>
          let replaced := existsb is_image cs in
          let item := FunctionCallOutput id c
            (mkPayload (ContentItems (replace_image placeholder <$> cs)) ok) m in
          (mkManager (<[n := item]> (items cm))
             (if replaced then N.min u64_max (history_version cm + 1) else history_version cm)
             (reference_context_item cm) (world_state_baseline cm), replaced)
      | _ => (cm, false)
      end
  end.

(** [user_message_positions]. *)
Fixpoint user_message_positions (idx : nat) (l : list ResponseItem) : list nat :=
  match l with
  | [] => []
  | i :: l' => (if is_user_turn_boundary i then [idx] else []) ++ user_message_positions (S idx) l'
  end.

(** [trim_pre_turn_context_updates]: whether the item above the cut goes, and whether it
    clears the reference; the loop, by the distance to the first turn. *)
Definition trimmable (i : ResponseItem) : option bool :=
  match i with
  | Message _ role content _ _ =>
      if bool_decide (role = lit "developer") && is_contextual_dev_message_content content
      then Some (has_non_contextual_dev_message_content content)
      else if bool_decide (role = lit "user") && is_contextual_user_message_content content
      then Some false
      else None
  | _ => None
  end.
Fixpoint trim_pre_turn_context_updates (snapshot : list ResponseItem) (fuel cut_idx : nat)
    (reference : option turn_context) : option turn_context * nat :=
  match fuel with
  | 0 => (reference, cut_idx)
  | S fuel' =>
      match snapshot !! (cut_idx - 1) ≫= trimmable with
      | Some clears =>
          trim_pre_turn_context_updates snapshot fuel' (cut_idx - 1)
            (if clears : bool then None else reference)
      | None => (reference, cut_idx)
      end
  end.

(** [drop_last_n_user_turns]. *)
Definition drop_last_n_user_turns (num_turns : nat) (cm : ContextManager) : ContextManager :=
  match num_turns with
  | 0 => cm
  | _ =>
      let snapshot := items cm in
      let user_positions := user_message_positions 0 snapshot in
      match user_positions with
      | [] => replace snapshot cm
      | first :: _ =>
          let cut_idx :=
            if length user_positions <=? num_turns then first
            else default first (user_positions !! (length user_positions - num_turns)) in
          let '(reference, cut_idx) :=
            trim_pre_turn_context_updates snapshot (cut_idx - first) cut_idx
              (reference_context_item cm) in
          replace (take cut_idx snapshot)
            (mkManager (items cm) (history_version cm) reference (world_state_baseline cm))
      end
  end.

(** ** Turns *)

Definition turns (l : list ResponseItem) : nat :=
  length (filter (λ i, is_user_turn_boundary i = true) l).

Lemma turns_app l k : turns (l ++ k) = turns l + turns k.
Proof. unfold turns. by rewrite filter_app, length_app. Qed.

Lemma turns_cons i l : turns (i :: l) = (if is_user_turn_boundary i then 1 else 0) + turns l.
Proof. unfold turns. rewrite filter_cons. destruct (is_user_turn_boundary i) eqn:E; by case_decide. Qed.

Lemma positions_length idx l : length (user_message_positions idx l) = turns l.
Proof.
  revert idx. induction l as [|i l IH]; intros idx; [done|]. simpl. rewrite length_app, IH, turns_cons.
  by destruct (is_user_turn_boundary i).
Qed.

(** The [k]-th position is that of a turn boundary with [k] boundaries before it. *)
Lemma positions_lookup idx l k p :
  user_message_positions idx l !! k = Some p →
  ∃ n i, p = idx + n ∧ l !! n = Some i ∧ is_user_turn_boundary i = true ∧ turns (take n l) = k.
Proof.
  revert idx k. induction l as [|i l IH]; intros idx k; [done|]. simpl.
  destruct (is_user_turn_boundary i) eqn:E; simpl.
  - destruct k as [|k]; simpl.
    + intros [= <-]. exists 0, i. split_and!; try done; lia.
    + intros (n & j & -> & Hn & Hj & Ht)%IH. exists (S n), j. simpl. rewrite turns_cons, E, Ht.
      split_and!; try done; lia.
  - intros (n & j & -> & Hn & Hj & Ht)%IH. exists (S n), j. simpl. rewrite turns_cons, E, Ht.
    split_and!; try done; lia.
Qed.

Lemma trimmable_no_boundary i : is_Some (trimmable i) → is_user_turn_boundary i = false.
Proof.
  destruct i as [|? role content| | | | | | | | | | | | | | |]; simpl; try by intros [].
  intros [x Hx]. destruct (bool_decide (role = lit "developer")) eqn:E1; simpl in Hx.
  { rewrite bool_decide_eq_true in E1. subst. done. }
  destruct (bool_decide (role = lit "user")) eqn:E2; simpl in *; [|done].
  rewrite bool_decide_eq_true in E2. subst. destruct (is_contextual_user_message_content content); done.
Qed.

Lemma trim_spec snapshot fuel cut r r' cut' :
  fuel ≤ cut → cut ≤ length snapshot →
  trim_pre_turn_context_updates snapshot fuel cut r = (r', cut') →
  cut - fuel ≤ cut' ≤ cut ∧
  Forall (λ i, is_Some (trimmable i)) (drop cut' (take cut snapshot)).
Proof.
  revert cut r. induction fuel as [|fuel IH]; intros cut r Hf Hc; simpl.
  { intros [= _ <-]. split; [lia|]. by rewrite drop_take_drop || rewrite drop_ge by (rewrite length_take; lia). }
  destruct (snapshot !! (cut - 1)) as [i|] eqn:E; simpl.
  2: { intros [= _ <-]. split; [lia|]. by rewrite drop_ge by (rewrite length_take; lia). }
  destruct (trimmable i) as [clears|] eqn:Et.
  2: { intros [= _ <-]. split; [lia|]. by rewrite drop_ge by (rewrite length_take; lia). }
  intros [Hcut HF]%IH; [|lia..]. split; [lia|].
  replace cut with (S (cut - 1)) by lia. rewrite (take_S_r _ _ _ E).
  rewrite drop_app_le by (rewrite length_take; lia). apply Forall_app. split; [done|].
  constructor; [by eexists|done].
Qed.

Lemma turns_trimmable l : Forall (λ i, is_Some (trimmable i)) l → turns l = 0.
Proof.
  induction 1 as [|i l Hi _ IH]; [done|]. by rewrite turns_cons, IH, trimmable_no_boundary.
Qed.

(** Where the first turn is, and where the roll-back cuts. *)
Lemma first_turn_position l first ps :
  user_message_positions 0 l = first :: ps →
  ∃ i, l !! first = Some i ∧ is_user_turn_boundary i = true ∧ turns (take first l) = 0.
Proof.
  intros Eps.
  destruct (positions_lookup 0 l 0 first) as (k & i & -> & ? & ? & ?); [by rewrite Eps|].
  by exists i.
Qed.

Lemma boundary_in_take l k i first :
  l !! k = Some i → is_user_turn_boundary i = true → turns (take first l) = 0 → first ≤ k.
Proof.
  intros Hk Hi Hf. destruct (decide (first ≤ k)); [done|]. exfalso.
  assert (turns (take first l) ≥ 1); [|lia].
  rewrite <-(take_drop k (take first l)), take_take, Nat.min_l, turns_app by lia.
  erewrite (drop_S (take first l) i k), turns_cons, Hi by by (rewrite lookup_take_lt by lia). lia.
Qed.

Lemma first_turn_unique before i rest first fi :
  is_user_turn_boundary i = true → turns before = 0 →
  (before ++ i :: rest) !! first = Some fi → is_user_turn_boundary fi = true →
  turns (take first (before ++ i :: rest)) = 0 → length before = first.
Proof.
  intros Hi Hb Hf Hfi Hft. apply Nat.le_antisymm.
  - eapply boundary_in_take; [done..|]. by rewrite take_app_length.
  - eapply (boundary_in_take _ _ i); [|done..]. by apply list_lookup_middle.
Qed.

Lemma cut_position n l first ps :
  user_message_positions 0 l = first :: ps → 0 < n →
  let cut := if length (first :: ps) <=? n then first
             else default first ((first :: ps) !! (length (first :: ps) - n)) in
  ∃ i, l !! cut = Some i ∧ is_user_turn_boundary i = true ∧
    turns (take cut l) = turns l - n ∧ first ≤ cut.
Proof.
  intros Eps Hn cut. pose proof (positions_length 0 l) as Hlen. rewrite Eps in Hlen.
  destruct (first_turn_position l first ps Eps) as (fi & Hfl & Hfb & Hft).
  unfold cut. destruct (_ <=? _) eqn:E; [apply Nat.leb_le in E|apply Nat.leb_gt in E].
  - exists fi. split_and!; try done. lia.
  - destruct (lookup_lt_is_Some_2 (first :: ps) (length (first :: ps) - n)) as [p Hp];
      [simpl in *; lia|].
    rewrite Hp. destruct (positions_lookup 0 l (length (first :: ps) - n) p) as
      (k & i & -> & Hk & Hi & Ht); [by rewrite Eps|]. exists i.
    split_and!; [done|done|simpl in *; lia|]. by eapply boundary_in_take.
Qed.

(** ** Properties *)

(** C18. In a release build the prompt is always well formed: normalisation never fails, and in
    its result every function and custom call, and every local shell and tool-search call that
    has a call id, has an output of its kind with this id; every output of a function or custom
    call, and every tool-search output that has a call id and does not come from the server, has
    such a call.  Shell and tool-search calls and tool-search outputs without a call id, like all
    else that is not an output with an id, are neither added nor removed and stay in order, but
    for images that the model does not support. *)
Theorem for_prompt_well_paired (supports_images : bool) (cm : ContextManager) :
  debug = false →
  ∃ prompt, for_prompt supports_images cm = Some prompt ∧
    calls_answered prompt ∧ outputs_called prompt ∧
    apart_from_outputs prompt =
      strip_images_when_unsupported supports_images (apart_from_outputs (items cm)).
Proof.
  intros Hd. destruct (normalize_release uuid_v5 supports_images (items cm)) as (l & Hl & Ha & Hc & _).
  exists l. unfold for_prompt. rewrite Hd. split_and!; [done..|]. by eapply normalize_apart.
Qed.

(** Normalisation is stable: normalising a prompt again, in either build, changes nothing
    (so that the ids of synthetic outputs and the prompt cache survive retries), and a
    history that is already well paired is sent as it is. *)
Theorem for_prompt_stable (supports_images : bool) (cm cm' : ContextManager)
    (prompt : list ResponseItem) :
  normalize_items false uuid_v5 supports_images (items cm) = Some prompt → items cm' = prompt →
  for_prompt supports_images cm' = Some prompt ∧
  (calls_answered (items cm) → outputs_called (items cm) → for_prompt true cm = Some (items cm)).
Proof.
  intros Hp Hcm. split; [|intros; by apply normalize_fixed].
  destruct (normalize_release uuid_v5 supports_images (items cm)) as (l & Hl & Ha & Hc & Hs).
  assert (l = prompt) as -> by congruence. unfold for_prompt. rewrite Hcm. by apply normalize_fixed.
Qed.

(** Dropping the oldest item keeps a well-paired history well paired, without a
    normalisation pass, when call ids are not reused: the counterpart of the dropped call or
    output goes with it and nothing else does. *)
Theorem remove_first_item_keeps_pairs (cm : ContextManager) :
  calls_answered (items cm) → outputs_called (items cm) →
  NoDup (call_keys (items cm)) → NoDup (output_keys (items cm)) →
  calls_answered (items (remove_first_item cm)) ∧ outputs_called (items (remove_first_item cm)).
Proof.
  unfold remove_first_item. destruct (items cm) as [|x l] eqn:E; [by rewrite E|]. simpl.
  intros Ha Hc Hnc Hno. unfold call_keys, output_keys in Hnc, Hno. simpl in Hnc, Hno.
  assert (Hnc' : NoDup (call_keys l)) by (destruct (call_key x); [by apply NoDup_cons in Hnc as [_ ?]|done]).
  assert (Hno' : NoDup (output_keys l)) by (destruct (output_key x); [by apply NoDup_cons in Hno as [_ ?]|done]).
  destruct (remove_corresponding_spec x l Hnc' Hno') as (Hsub & Hkeep & Hno_out & Hno_call).
  set (l' := remove_corresponding_for x l) in *.
  assert (Hcx : ∀ i k, i ∈ l → call_key x = Some k → call_key i ≠ Some k).
  { intros i k Hi Hx Hk. rewrite Hx in Hnc. apply NoDup_cons in Hnc as [Hnot _]. apply Hnot.
    apply list_elem_of_omap. by exists i. }
  assert (Hox : ∀ i k, i ∈ l → output_key x = Some k → output_key i ≠ Some k).
  { intros i k Hi Hx Hk. rewrite Hx in Hno. apply NoDup_cons in Hno as [Hnot _]. apply Hnot.
    apply list_elem_of_omap. by exists i. }
  split.
  - intros k (i & Hi & Hk)%list_elem_of_omap.
    assert (k ∈ output_keys (x :: l)) as (o & Ho & Hok)%list_elem_of_omap.
    { apply Ha, list_elem_of_omap. exists i. split; [right; by apply Hsub|done]. }
    apply list_elem_of_omap. exists o. split; [|done]. apply elem_of_cons in Ho as [->|Ho].
    { exfalso. by apply (Hno_call i k). }
    apply Hkeep; [done| |].
    + intros k' Hx Hk'. assert (k' = k) as -> by congruence. by apply (Hcx i k); auto.
    + intros k' _ Hk'. apply call_is_no_output in Hk'. congruence.
  - intros o k Ho Hk Hs.
    assert (k ∈ call_keys (x :: l)) as (i & Hi & Hik)%list_elem_of_omap.
    { eapply Hc; [right; by apply Hsub|done|done]. }
    apply list_elem_of_omap. exists i. split; [|done]. apply elem_of_cons in Hi as [->|Hi].
    { exfalso. by apply (Hno_out o k). }
    apply Hkeep; [done| |].
    + intros k' _ Hk'. apply call_is_no_output in Hik. congruence.
    + intros k' Hx Hk'. assert (k' = k) as -> by congruence. by apply (Hox o k); auto.
Qed.

(** C38. Rolling back [n] turns cuts the history at a turn boundary: what is dropped is exactly
    the last [n] turns (all of them, if there are fewer), and before them only the contextual
    messages that belong to the first of them; what precedes the first turn survives. *)
Theorem rollback_drops_last_turns (n : nat) (cm : ContextManager) :
  0 < n →
  ∃ context dropped,
    items cm = items (drop_last_n_user_turns n cm) ++ context ++ dropped ∧
    Forall (λ i, is_Some (trimmable i)) context ∧
    turns context = 0 ∧ turns dropped = min n (turns (items cm)) ∧
    (∀ i rest, dropped = i :: rest → is_user_turn_boundary i = true) ∧
    (∀ before i rest, items cm = before ++ i :: rest → is_user_turn_boundary i = true →
       turns before = 0 → before `prefix_of` items (drop_last_n_user_turns n cm)).
Proof.
  intros Hn. unfold drop_last_n_user_turns. destruct n as [|n]; [lia|].
  set (l := items cm). pose proof (positions_length 0 l) as Hlen.
  destruct (user_message_positions 0 l) as [|first ps] eqn:Eps.
  { exists [], []. simpl in *. rewrite !app_nil_r. split_and!; try done; try by rewrite <-Hlen.
    intros before i rest -> Hi. rewrite turns_app, turns_cons, Hi in Hlen. lia. }
  set (cut := if _ <=? _ then _ else _).
  destruct (first_turn_position l first ps Eps) as (fi & Hfl & Hfb & Hft).
  destruct (cut_position (S n) l first ps Eps) as (ci & Hcl & Hcb & Hct & Hfc); [lia|].
  fold cut in Hcl, Hct, Hfc.
  destruct (trim_pre_turn_context_updates _ _ _ _) as [r cut'] eqn:Etrim. simpl.
  apply lookup_lt_Some in Hcl as Hlt. apply trim_spec in Etrim as [Hc' HF]; [|lia..].
  exists (drop cut' (take cut l)), (drop cut l). split_and!.
  - rewrite app_assoc. rewrite <-(take_drop cut l) at 1. f_equal.
    rewrite <-(take_drop cut' (take cut l)) at 1. by rewrite take_take, Nat.min_l by lia.
  - done.
  - by apply turns_trimmable.
  - assert (turns l = turns (take cut l) + turns (drop cut l)) by by rewrite <-turns_app, take_drop.
    simpl in Hlen. destruct (turns l); lia.
  - intros i rest Hd. rewrite (drop_S _ _ _ Hcl) in Hd. by simplify_eq.
  - intros before i rest Hl Hi Ht. exists (drop (length before) (take cut' l)).
    assert (Hb : length before = first).
    { rewrite Hl in Hfl, Hft. by eapply first_turn_unique. }
    rewrite <-(take_drop (length before) (take cut' l)) at 1. f_equal.
    rewrite take_take, Nat.min_l, Hl by lia. by rewrite take_app_length.
Qed.

End manager.

(** ** A concrete history *)

Definition ex_call (c : str) : ResponseItem := FunctionCall (Some c) (lit "shell") None [] c None.
Definition ex_output (c : str) : ResponseItem := FunctionCallOutput None c (from_text (lit "ok")) None.
Definition ex_user (text : str) : ResponseItem := Message None (lit "user") [InputText text] None None.
Definition ex_history (l : list ResponseItem) : ContextManager (turn_context:=unit) (world_state:=unit) :=
  mkManager l 0 None None.
Definition ex_context (c : ContentItem) : bool :=
  match c with InputText t => starts_with (lit "<") t | _ => false end.

Lemma for_prompt_well_paired_witness :
  ∃ prompt,
    for_prompt false id true (ex_history [ex_call (lit "1"); ex_output (lit "2")]) = Some prompt ∧
    length prompt = 2 ∧ calls_answered prompt ∧ outputs_called prompt.
Proof.
  destruct (for_prompt_well_paired false id true
    (ex_history [ex_call (lit "1"); ex_output (lit "2")]) eq_refl) as (prompt & H & Ha & Hc & _).
  exists prompt. split; [exact H|]. split; [|split; assumption].
  vm_compute in H. injection H as <-. reflexivity.
Defined.

Lemma for_prompt_stable_witness :
  for_prompt true id false (ex_history
    [ex_call (lit "1");
     FunctionCallOutput (Some (lit "fco_fco:1")) (lit "1") (from_text (lit "aborted")) None]) =
  Some [ex_call (lit "1");
     FunctionCallOutput (Some (lit "fco_fco:1")) (lit "1") (from_text (lit "aborted")) None].
Proof.
  eapply (for_prompt_stable true id false (ex_history [ex_call (lit "1"); ex_output (lit "2")])).
  - vm_compute. reflexivity.
  - reflexivity.
Defined.

Lemma remove_first_item_keeps_pairs_witness :
  let cm := ex_history [ex_call (lit "1"); ex_user (lit "hi"); ex_output (lit "1")] in
  items (remove_first_item cm) = [ex_user (lit "hi")] ∧
  calls_answered (items (remove_first_item cm)).
Proof.
  split; [vm_compute; reflexivity|].
  refine (proj1 (remove_first_item_keeps_pairs
    (ex_history [ex_call (lit "1"); ex_user (lit "hi"); ex_output (lit "1")]) _ _ _ _)).
  - intros k Hk. exact Hk.
  - intros i k Hi Hk _. simpl in Hi. rewrite !elem_of_cons in Hi.
    destruct Hi as [->|[->|[->|Hi%not_elem_of_nil]]]; [discriminate Hk|discriminate Hk| |destruct Hi].
    injection Hk as <-. left.
  - apply NoDup_singleton.
  - apply NoDup_singleton.
Defined.

Lemma rollback_drops_last_turns_witness :
  let cm := ex_history [ex_user (lit "a"); ex_user (lit "<env>"); ex_user (lit "b")] in
  items (drop_last_n_user_turns ex_context (λ _, false) 1 cm) = [ex_user (lit "a")] ∧
  ∃ context dropped, items cm = [ex_user (lit "a")] ++ context ++ dropped.
Proof.
  split; [vm_compute; reflexivity|].
  destruct (rollback_drops_last_turns ex_context (λ _, false) 1
    (ex_history [ex_user (lit "a"); ex_user (lit "<env>"); ex_user (lit "b")])) as (c & d & H & _).
  - lia.
  - exists c, d. refine (eq_trans H _). reflexivity.
Defined.

End ContextManager.
