(* ===== verification/StrSearch.v ===== *)
(** * Searching strings

    [str::find] of a string, as used by the streaming parsers and the template parser, with
    positions counted in characters. *)

From stdpp Require Import prelude strings.
From S2P Require Import Prelude RustStr.

(** [str::find(&str)]. *)
Fixpoint find_str (needle s : str) : option nat :=
  if starts_with needle s then Some 0
  else match s with [] => None | _ :: s' => S <$> find_str needle s' end.

Lemma starts_with_prefix p s : starts_with p s = true ↔ p `prefix_of` s.
Proof.
  rewrite starts_with_true. split; intros [r ->]; by exists r.
Qed.

Lemma starts_with_not_prefix p s : starts_with p s = false ↔ ¬ p `prefix_of` s.
Proof. rewrite <-starts_with_prefix. by destruct (starts_with p s). Qed.

(** The first position. *)
Lemma find_str_Some n s i :
  find_str n s = Some i ↔
  i ≤ length s ∧ n `prefix_of` drop i s ∧ ∀ j, j < i → ¬ n `prefix_of` drop j s.
Proof.
  revert i. induction s as [|c s IH]; intros i; simpl.
  - destruct (starts_with n []) eqn:E.
    + apply starts_with_prefix in E. split; [intros [= <-]; split_and!; [lia|done|lia]|].
      intros (Hi & _). f_equal. lia.
    + apply starts_with_not_prefix in E. split; [done|]. intros (Hi & Hp & _).
      by replace i with 0 in Hp by lia.
  - destruct (starts_with n (c :: s)) eqn:E.
    + apply starts_with_prefix in E. split; [intros [= <-]; split_and!; [lia|done|lia]|].
      intros (Hi & _ & Hn). destruct i as [|i]; [done|]. exfalso. apply (Hn 0); [lia|done].
    + apply starts_with_not_prefix in E. split.
      * intros (j & Hj & ->)%fmap_Some. apply IH in Hj as (? & ? & Hn).
        split_and!; [lia|done|]. intros [|k] Hk; [done|]. apply Hn. lia.
      * intros (Hi & Hp & Hn). destruct i as [|i]; [done|]. simpl in *.
        apply fmap_Some. exists i. split; [|done]. apply IH. split_and!; [lia|done|].
        intros j Hj. apply (Hn (S j)). lia.
Qed.

Lemma find_str_None n s : find_str n s = None ↔ ∀ j, j ≤ length s → ¬ n `prefix_of` drop j s.
Proof.
  induction s as [|c s IH]; simpl.
  - destruct (starts_with n []) eqn:E.
    + apply starts_with_prefix in E. split; [done|]. intros Hn. by destruct (Hn 0).
    + apply starts_with_not_prefix in E. split; [|done]. intros _ j Hj. by replace j with 0 by lia.
  - destruct (starts_with n (c :: s)) eqn:E.
    + apply starts_with_prefix in E. split; [done|]. intros Hn. by destruct (Hn 0); [lia|].
    + apply starts_with_not_prefix in E. rewrite fmap_None, IH. split.
      * intros Hn [|j] Hj; [done|]. apply Hn. lia.
      * intros Hn j Hj. apply (Hn (S j)). lia.
Qed.

Lemma find_str_cons n c s : ¬ n `prefix_of` c :: s → find_str n (c :: s) = S <$> find_str n s.
Proof. intros H%starts_with_not_prefix. simpl. by rewrite H. Qed.

(** Text after a match does not move it. *)
Lemma find_str_app n s b i : find_str n s = Some i → i + length n ≤ length s → find_str n (s ++ b) = Some i.
Proof.
  intros (Hi & Hp & Hn)%find_str_Some Hl. apply find_str_Some. split_and!.
  - rewrite length_app. lia.
  - rewrite drop_app_le by lia. by apply prefix_app_r.
  - intros j Hj Hpj. apply (Hn j Hj). rewrite drop_app_le in Hpj by lia.
    destruct (prefix_weak_total n (drop j s) (drop j s ++ b)) as [|H]; [done|by exists b|done|].
    apply prefix_length in H. rewrite length_drop in H.
    destruct Hpj as [k Hk]. exists (drop (length n) (drop j s)).
    apply (f_equal (take (length n))) in Hk. rewrite take_app_length in Hk.
    rewrite take_app_le in Hk by (rewrite length_drop; lia).
    by rewrite <-Hk, take_drop at 1.
Qed.

Lemma find_str_bound n s i : find_str n s = Some i → i + length n ≤ length s.
Proof.
  intros (Hi & Hp & _)%find_str_Some. apply prefix_length in Hp. rewrite length_drop in Hp. lia.
Qed.

(** What surrounds a match. *)
Lemma find_str_split n s i :
  find_str n s = Some i → s = take i s ++ n ++ drop (i + length n) s.
Proof.
  intros (Hi & [r Hr] & _)%find_str_Some. rewrite <-drop_drop, Hr, drop_app_length.
  by rewrite <-Hr, take_drop.
Qed.

(** [str::contains]. *)
Lemma contains_str_app p a b : contains_str p (a ++ p ++ b) = true.
Proof.
  induction a as [|c a IH]; simpl.
  - destruct (p ++ b) eqn:E; simpl; rewrite <- E.
    all: apply orb_true_iff; left; apply starts_with_true; eauto.
  - apply orb_true_iff. by right.
Qed.

Lemma contains_str_true p s : contains_str p s = true ↔ ∃ a b, s = a ++ p ++ b.
Proof.
  split; [|intros (a & b & ->); apply contains_str_app].
  induction s as [|c s IH]; simpl; rewrite orb_true_iff.
  - intros [[r E]%starts_with_true|?]; [|done]. by exists [], r.
  - intros [[r E]%starts_with_true|(a & b & ->)%IH]; [by exists [], r|by exists (c :: a), b].
Qed.

(** What a part does not contain, the parts of it do not either. *)
Lemma contains_str_infix p a s b : contains_str p (a ++ s ++ b) = false → contains_str p s = false.
Proof.
  intros Hn. destruct (contains_str p s) eqn:E; [|done]. apply contains_str_true in E as (x & y & ->).
  rewrite <- Hn. symmetry. apply contains_str_true. exists (a ++ x), (y ++ b). by rewrite <- !app_assoc.
Qed.
