(* ===== verification/Decimal.v ===== *)
(** * Decimal numbers as text

    [str::parse] on the unsigned integer types, and [to_string] ([pretty]): a number that fits is
    read back from its text. *)

From stdpp Require Import prelude strings pretty.
From S2P Require Import Prelude RustStr.

(** An optional plus sign and decimal digits; [None] for a number above the bound of the type. *)
Fixpoint uint_digits (bound : N) (s : str) (acc : N) : option N :=
  match s with
  | [] => Some acc
  | d :: s =>
      if is_ascii_digit d then
        let acc := (acc * 10 + (d - 48))%N in
        if (bound <? acc)%N then None else uint_digits bound s acc
      else None
  end.
Definition parse_uint (bound : N) (s : str) : option N :=
  let digits := default s (strip_prefix (lit "+") s) in
  if bool_decide (digits = []) then None else uint_digits bound digits 0.

Lemma digit_char_value x : (x < 10)%N →
  is_ascii_digit (Ascii.N_of_ascii (pretty_N_char x)) = true ∧ (Ascii.N_of_ascii (pretty_N_char x) - 48 = x)%N.
Proof.
  intros Hx. assert (x = 0 ∨ x = 1 ∨ x = 2 ∨ x = 3 ∨ x = 4 ∨ x = 5 ∨ x = 6 ∨ x = 7 ∨ x = 8 ∨ x = 9)%N as H by lia.
  by repeat destruct H as [->|H]; try subst.
Qed.

Lemma uint_digits_go bound x s :
  (x <= bound)%N → uint_digits bound (lit (pretty_N_go x s)) 0 = uint_digits bound (lit s) x.
Proof.
  revert s. induction (N.lt_wf_0 x) as [x _ IH]. intros s Hx.
  destruct (decide (x = 0)%N) as [->|Hn]; [by rewrite pretty_N_go_0|].
  rewrite pretty_N_go_step by lia. assert (Hdm : (x = 10 * (x `div` 10) + x `mod` 10)%N) by (apply N.div_mod; lia).
  assert (Hm : (x `mod` 10 < 10)%N) by (apply N.mod_lt; lia).
  assert (Hq : (x `div` 10 < x)%N) by (apply N.div_lt; lia).
  rewrite IH; [|done|etrans; [by apply N.lt_le_incl|done]].
  destruct (digit_char_value (x `mod` 10)) as [Hd Hv]; [lia|].
  change (lit (String (pretty_N_char (x `mod` 10)) s)) with (Ascii.N_of_ascii (pretty_N_char (x `mod` 10)) :: lit s).
  cbn [uint_digits]. rewrite Hd, Hv.
  replace (x `div` 10 * 10 + x `mod` 10)%N with x by lia. by destruct (N.ltb_spec bound x); [lia|].
Qed.

Lemma pretty_is_digits x : Forall (λ c, is_ascii_digit c = true) (lit (pretty (A := N) x)) ∧ lit (pretty x) ≠ [].
Proof.
  assert (Hgo : ∀ y s, Forall (λ c, is_ascii_digit c = true) (lit s) →
            Forall (λ c, is_ascii_digit c = true) (lit (pretty_N_go y s)) ∧
            (y ≠ 0%N ∨ lit s ≠ [] → lit (pretty_N_go y s) ≠ [])).
  { intros y. induction (N.lt_wf_0 y) as [y _ IH]. intros s Hs.
    destruct (decide (y = 0)%N) as [->|Hn]; [rewrite pretty_N_go_0; naive_solver|].
    rewrite pretty_N_go_step by lia. assert (Hm : (y `mod` 10 < 10)%N) by (apply N.mod_lt; lia).
    assert (Hq : (y `div` 10 < y)%N) by (apply N.div_lt; lia).
    destruct (IH (y `div` 10)%N Hq (String (pretty_N_char (y `mod` 10)) s)) as [H1 H2].
    - constructor; [|done]. by apply digit_char_value.
    - split; [done|]. intros _. apply H2. by right. }
  unfold pretty, pretty_N. case_decide as E; [by repeat constructor|].
  destruct (Hgo x ""%string) as [H1 H2]; [constructor|]. auto.
Qed.

Lemma parse_uint_pretty bound p : (p <= bound)%N → parse_uint bound (lit (pretty p)) = Some p.
Proof.
  intros Hp. destruct (pretty_is_digits p) as [Hd Hne]. unfold parse_uint.
  assert (Hs : strip_prefix (lit "+") (lit (pretty p)) = None).
  { destruct (strip_prefix _ _) as [r|] eqn:E; [|done]. apply strip_prefix_Some in E. rewrite E in Hd.
    by inversion Hd. }
  rewrite Hs. simpl. rewrite bool_decide_false by done. unfold pretty, pretty_N. case_decide as E; [subst; simpl; by destruct bound|].
  by rewrite uint_digits_go.
Qed.

Lemma digits_not_in c x : is_ascii_digit c = false → c ∉ lit (pretty (A := N) x).
Proof.
  intros Hc Hin. destruct (pretty_is_digits x) as [Hd _]. rewrite Forall_forall in Hd. apply Hd in Hin. congruence.
Qed.
