(* ===== verification/StreamText.v ===== *)
(** * Streamed text parsers: the interface (utils/stream-parser/src/stream_text.rs)

    A parser consumes text piece by piece and returns, for each piece, the text that may be
    shown and the payloads it extracted.  [StreamTextParser] is the trait; [StreamLaws] says
    what its users rely on: how the text is cut into pieces makes no difference.  Payload
    lists are compared up to a relation of the parser's choice, as a parser may deliver one
    payload in several parts. *)

From stdpp Require Import prelude strings.
From S2P Require Import Prelude RustStr.

Module StreamText.

(** [StreamTextChunk]. *)
Record StreamTextChunk (T : Type) : Type := mkStreamChunk {
  visible_text : list N;
  extracted : list T;
}.
Arguments mkStreamChunk {T} _ _.
Arguments visible_text {T} _.
Arguments extracted {T} _.

Definition chunk_default {T} : StreamTextChunk T := mkStreamChunk [] [].
Definition chunk_is_empty {T} (c : StreamTextChunk T) : bool :=
  match visible_text c, extracted c with [], [] => true | _, _ => false end.

(** What a consumer that appends both fields has after two chunks. *)
Definition chunk_app {T} (c d : StreamTextChunk T) : StreamTextChunk T :=
  mkStreamChunk (visible_text c ++ visible_text d) (extracted c ++ extracted d).

Lemma chunk_app_default_l {T} (c : StreamTextChunk T) : chunk_app chunk_default c = c.
Proof. by destruct c. Qed.

Lemma chunk_app_default_r {T} (c : StreamTextChunk T) : chunk_app c chunk_default = c.
Proof. destruct c. unfold chunk_app. simpl. by rewrite !app_nil_r. Qed.

Lemma chunk_app_assoc {T} (c d e : StreamTextChunk T) :
  chunk_app c (chunk_app d e) = chunk_app (chunk_app c d) e.
Proof. unfold chunk_app. simpl. by rewrite !app_assoc. Qed.

(** The trait [StreamTextParser]. *)
Class StreamTextParser (P T : Type) : Type := {
  push_str : list N → P → P * StreamTextChunk T;
  finish : P → P * StreamTextChunk T;
}.

(** What clients rely on, for the states [stream_ok] that a parser can be in. *)
Class StreamLaws (P T : Type) `{StreamTextParser P T} : Type := {
  stream_ok : P → Prop;
  same_payloads : relation (list T);
  same_payloads_equiv :: Equivalence same_payloads;
  same_payloads_app :: Proper (same_payloads ==> same_payloads ==> same_payloads) app;
  push_ok s p : stream_ok p → stream_ok (push_str s p).1;
  push_nil p : stream_ok p → push_str [] p = (p, chunk_default);
  push_app a b p :
    stream_ok p →
    let '(p1, o1) := push_str a p in
    let '(p2, o2) := push_str b p1 in
    let '(p', o) := push_str (a ++ b) p in
    p' = p2 ∧ visible_text o = visible_text o1 ++ visible_text o2 ∧
    same_payloads (extracted o) (extracted o1 ++ extracted o2);
}.

Section clients.
Context {P T : Type} `{StreamTextParser P T}.

(** Pushes the pieces in order and collects what comes out. *)
Fixpoint push_pieces (pieces : list (list N)) (p : P) : P * StreamTextChunk T :=
  match pieces with
  | [] => (p, chunk_default)
  | s :: pieces' =>
      let '(p1, o1) := push_str s p in
      let '(p2, o2) := push_pieces pieces' p1 in
      (p2, chunk_app o1 o2)
  end.

(** A whole stream: the pieces, then the end. *)
Definition run_stream (pieces : list (list N)) (p : P) : StreamTextChunk T :=
  let '(p1, o1) := push_pieces pieces p in chunk_app o1 (finish p1).2.

(** Chunks that a consumer cannot tell apart. *)
Definition same_chunk `{!StreamLaws P T} (c d : StreamTextChunk T) : Prop :=
  visible_text c = visible_text d ∧ same_payloads (extracted c) (extracted d).

Context `{!StreamLaws P T}.

#[global] Instance same_chunk_equiv : Equivalence same_chunk.
Proof.
  split.
  - intros c. by split.
  - intros c d [H1 H2]. split; [done|]. by symmetry.
  - intros c d e [H1 H2] [H3 H4]. split; [congruence|]. by etrans.
Qed.

#[global] Instance chunk_app_proper : Proper (same_chunk ==> same_chunk ==> same_chunk) chunk_app.
Proof.
  intros c c' [H1 H2] d d' [H3 H4]. split; simpl; [congruence|]. by rewrite H2, H4.
Qed.

Lemma push_two a b p :
  stream_ok p →
  (push_str (a ++ b) p).1 = (push_str b (push_str a p).1).1 ∧
  same_chunk (push_str (a ++ b) p).2
    (chunk_app (push_str a p).2 (push_str b (push_str a p).1).2).
Proof.
  intros Hp. pose proof (push_app a b p Hp) as Ha.
  destruct (push_str a p) as [p1 o1] eqn:E1. simpl.
  destruct (push_str b p1) as [p2 o2], (push_str (a ++ b) p) as [p' o].
  destruct Ha as (-> & Hv & He). by split.
Qed.

(** How the text is cut makes no difference. *)
Lemma push_pieces_concat pieces p :
  stream_ok p →
  (push_pieces pieces p).1 = (push_str (concat pieces) p).1 ∧
  same_chunk (push_pieces pieces p).2 (push_str (concat pieces) p).2.
Proof.
  revert p. induction pieces as [|s pieces IH]; intros p Hp; simpl.
  { by rewrite push_nil. }
  destruct (push_two s (concat pieces) p Hp) as [H1 H2].
  pose proof (push_ok s p Hp) as Hs. destruct (push_str s p) as [p1 o1]. simpl in *.
  destruct (IH p1 Hs) as [IH1 IH2]. destruct (push_pieces pieces p1) as [p2 o2]. simpl in *.
  split; [congruence|]. by rewrite H2, IH2.
Qed.

Lemma push_pieces_ok pieces p : stream_ok p → stream_ok (push_pieces pieces p).1.
Proof. intros Hp. rewrite (proj1 (push_pieces_concat pieces p Hp)). by apply push_ok. Qed.

Lemma run_stream_concat pieces p :
  stream_ok p → same_chunk (run_stream pieces p) (run_stream [concat pieces] p).
Proof.
  intros Hp. destruct (push_pieces_concat pieces p Hp) as [H1 H2]. unfold run_stream. simpl.
  destruct (push_pieces pieces p) as [p1 o1], (push_str (concat pieces) p) as [p2 o2].
  simpl in *. subst. rewrite chunk_app_default_r. by rewrite H2.
Qed.

End clients.

End StreamText.
