(* ===== verification/InlineHiddenTag.v ===== *)
(** * Hidden inline tags (utils/stream-parser/src/inline_hidden_tag.rs, citation.rs)

    [InlineHiddenTagParser] removes tags such as [<oai-mem-citation>..</oai-mem-citation>]
    from streamed text and collects their contents.  Positions are counted in characters:
    the code's byte offsets are always at the boundaries of whole delimiters.  The loop of
    [push_str] runs on fuel, one more than the length of the buffered text, which suffices
    because every round but the last consumes a delimiter and delimiters are not empty. *)

From stdpp Require Import prelude strings.
From S2P Require Import Prelude RustStr StrSearch StreamText.
Import StreamText.

Module InlineHiddenTag.

Section parser.
Context {T : Type}.

Record ExtractedInlineTag : Type := mkExtracted { etag : T; econtent : list N }.

Record InlineTagSpec : Type := mkInlineSpec {
  spec_tag : T;
  spec_open : list N;
  spec_close : list N;
}.

Record ActiveTag : Type := mkActive {
  active_tag : T;
  active_close : list N;
  active_content : list N;
}.

Record InlineHiddenTagParser : Type := mkInline {
  specs : list InlineTagSpec;
  pending : list N;
  active : option ActiveTag;
}.

(** [new]: [None] is a failed assertion. *)
Definition new_inline (ss : list InlineTagSpec) : option InlineHiddenTagParser :=
  match ss with
  | [] => None
  | _ => if forallb (λ s, negb (bool_decide (spec_open s = [])) &&
                          negb (bool_decide (spec_close s = []))) ss
         then Some (mkInline ss [] None) else None
  end.

(** [longest_suffix_prefix_len]: the loop counts [k] down. *)
Fixpoint suffix_prefix_down (s needle : str) (k : nat) : nat :=
  match k with
  | 0 => 0
  | S k' => if ends_with (take k needle) s then k else suffix_prefix_down s needle k'
  end.
Definition longest_suffix_prefix_len (s needle : str) : nat :=
  suffix_prefix_down s needle (min (length s) (length needle - 1)).

(** [find_next_open]: position, length and index of the first match of each tag; the
    comparison of [min_by]. *)
Definition open_candidates (ss : list InlineTagSpec) (text : str) : list (nat * nat * nat) :=
  omap id (imap (λ idx s, (λ pos, (pos, length (spec_open s), idx)) <$> find_str (spec_open s) text) ss).
Definition before_open (a b : nat * nat * nat) : bool :=
  let '(pos_a, len_a, idx_a) := a in
  let '(pos_b, len_b, idx_b) := b in
  (pos_a <? pos_b) ||
  ((pos_a =? pos_b) && ((len_b <? len_a) || ((len_a =? len_b) && (idx_a <=? idx_b)))).
Definition min_open (cs : list (nat * nat * nat)) : option (nat * nat * nat) :=
  match cs with
  | [] => None
  | c :: cs' => Some (foldl (λ best x, if before_open best x then best else x) c cs')
  end.
Definition find_next_open (ss : list InlineTagSpec) (text : str) : option (nat * nat) :=
  (λ '(pos, _, idx), (pos, idx)) <$> min_open (open_candidates ss text).

(** [max_open_prefix_suffix_len]. *)
Definition max_open_prefix_suffix_len (ss : list InlineTagSpec) (text : str) : nat :=
  foldl max 0 ((λ s, longest_suffix_prefix_len text (spec_open s)) <$> ss).

(** One round of the loop of [push_str]: whether it goes on, the new active tag and
    buffered text, what comes out. *)
Definition push_round (ss : list InlineTagSpec) (act : option ActiveTag) (text : str) :
    bool * option ActiveTag * list N * StreamTextChunk ExtractedInlineTag :=
  match act with
  | Some a =>
      match find_str (active_close a) text with
      | Some close_idx =>
          (true, None, drop (close_idx + length (active_close a)) text,
           mkStreamChunk [] [mkExtracted (active_tag a) (active_content a ++ take close_idx text)])
      | None =>
          let keep := longest_suffix_prefix_len text (active_close a) in
          let n := length text - keep in
          (false, Some (mkActive (active_tag a) (active_close a) (active_content a ++ take n text)),
           drop n text, chunk_default)
      end
  | None =>
      match find_next_open ss text with
      | Some (open_idx, spec_idx) =>
          match ss !! spec_idx with
          | Some s =>
              (true, Some (mkActive (spec_tag s) (spec_close s) []),
               drop (open_idx + length (spec_open s)) text,
               mkStreamChunk (take open_idx text) [])
          | None => (false, None, text, chunk_default) (* no such index is returned *)
          end
      | None =>
          let keep := max_open_prefix_suffix_len ss text in
          let n := length text - keep in
          (false, None, drop n text, mkStreamChunk (take n text) [])
      end
  end.

Fixpoint push_loop (fuel : nat) (ss : list InlineTagSpec) (act : option ActiveTag) (text : str) :
    option (option ActiveTag * list N * StreamTextChunk ExtractedInlineTag) :=
  match fuel with
  | 0 => None
  | S fuel' =>
      let '(go_on, act', text', out) := push_round ss act text in
      if go_on : bool then
        '(act2, text2, out2) ← push_loop fuel' ss act' text';
        Some (act2, text2, chunk_app out out2)
      else Some (act', text', out)
  end.

(** [push_str] and [finish]. *)
Definition inline_push_str (chunk : str) (p : InlineHiddenTagParser) :
    InlineHiddenTagParser * StreamTextChunk ExtractedInlineTag :=
  let text := pending p ++ chunk in
  match push_loop (S (length text)) (specs p) (active p) text with
  | Some (act, text', out) => (mkInline (specs p) text' act, out)
  | None => (p, chunk_default)
  end.

Definition inline_finish (p : InlineHiddenTagParser) :
    InlineHiddenTagParser * StreamTextChunk ExtractedInlineTag :=
  match active p with
  | Some a => (mkInline (specs p) [] None,
               mkStreamChunk [] [mkExtracted (active_tag a) (active_content a ++ pending p)])
  | None => (mkInline (specs p) [] None, mkStreamChunk (pending p) [])
  end.

#[global] Instance inline_stream : StreamTextParser InlineHiddenTagParser ExtractedInlineTag := {
  push_str := inline_push_str;
  finish := inline_finish;
}.

(** ** Suffixes that may start a delimiter *)

(** A text and a needle that agree as far as both go. *)
Definition comparable (n t : str) : Prop := n `prefix_of` t ∨ t `prefix_of` n.

Lemma comparable_app n t b : comparable n (t ++ b) → comparable n t.
Proof.
  intros [H|H].
  - destruct (prefix_weak_total n t (t ++ b)) as [?|?]; [done|by exists b|by left|by right].
  - right. by eapply prefix_app_l.
Qed.

Lemma ends_with_suffix p s : ends_with p s = true ↔ p `suffix_of` s.
Proof.
  unfold ends_with. rewrite bool_decide_eq_true. unfold is_Some.
  setoid_rewrite strip_suffix_Some. done.
Qed.

Lemma suffix_prefix_down_spec s n k :
  let r := suffix_prefix_down s n k in
  r ≤ k ∧ take r n `suffix_of` s ∧ ∀ j, r < j ≤ k → ¬ take j n `suffix_of` s.
Proof.
  induction k as [|k IH]; cbn [suffix_prefix_down].
  - split_and!; [lia|rewrite take_0; apply suffix_nil|lia].
  - destruct (ends_with _ s) eqn:E.
    + apply ends_with_suffix in E. split_and!; [lia|done|lia].
    + destruct IH as (? & ? & Hn). split_and!; [lia|done|]. intros j Hj.
      destruct (decide (j = S k)) as [->|].
      * rewrite <-ends_with_suffix. by rewrite E.
      * apply Hn. lia.
Qed.

(** The longest suffix of [s] that starts, and is not all of, the needle. *)
Lemma longest_spec s n k :
  longest_suffix_prefix_len s n = k ↔
  k ≤ length s ∧ k ≤ length n - 1 ∧ drop (length s - k) s `prefix_of` n ∧
  ∀ j, k < j ≤ length s → j < length n → ¬ drop (length s - j) s `prefix_of` n.
Proof.
  assert (Hiff : ∀ j, j ≤ length s → j ≤ length n →
    take j n `suffix_of` s ↔ drop (length s - j) s `prefix_of` n).
  { intros j H1 H2. split.
    - intros [r Hr]. exists (drop j n). rewrite Hr at 2.
      assert (length r = length s - j) as <-.
      { apply (f_equal length) in Hr. rewrite length_app, length_take in Hr. lia. }
      by rewrite drop_app_length, take_drop.
    - intros [r Hr]. exists (take (length s - j) s). rewrite Hr.
      rewrite take_app_length'; [by rewrite take_drop|rewrite length_drop; lia]. }
  unfold longest_suffix_prefix_len.
  destruct (suffix_prefix_down_spec s n (min (length s) (length n - 1))) as (Hr & Hs & Hn).
  set (r := suffix_prefix_down _ _ _) in *. split.
  - intros <-. split_and!; [lia|lia|apply Hiff; [lia..|done]|].
    intros j Hj Hjn. rewrite <-Hiff by lia. apply Hn. lia.
  - intros (H1 & H2 & H3 & H4). destruct (lt_eq_lt_dec r k) as [[Hlt|]|Hgt]; [|done|].
    + exfalso. apply (Hn k); [lia|]. apply Hiff; [lia..|done].
    + exfalso. apply (H4 r); [lia|lia|]. apply Hiff; [lia..|done].
Qed.

Lemma longest_le s n : longest_suffix_prefix_len s n ≤ length s.
Proof. by apply (longest_spec s n). Qed.

(** Suffixes longer than the longest one, and their extensions, cannot become a match. *)
Lemma longest_beyond s n j :
  longest_suffix_prefix_len s n < j → j ≤ length s → find_str n s = None →
  ¬ comparable n (drop (length s - j) s).
Proof.
  intros Hj Hl Hf. destruct (proj1 (longest_spec s n _) eq_refl) as (_ & _ & _ & Hn).
  rewrite find_str_None in Hf. intros [H|H].
  - by apply (Hf (length s - j)); [lia|].
  - destruct (decide (j < length n)); [by apply (Hn j)|].
    apply (Hf (length s - j)); [lia|]. apply prefix_length in H as Hlen.
    rewrite length_drop in Hlen. rewrite (prefix_length_eq _ _ H); [done|rewrite length_drop; lia].
Qed.

Lemma longest_cons n c s :
  ¬ comparable n (c :: s) → longest_suffix_prefix_len (c :: s) n = longest_suffix_prefix_len s n.
Proof.
  intros Hc. apply longest_spec.
  destruct (proj1 (longest_spec s n _) eq_refl) as (H1 & H2 & H3 & H4).
  set (k := longest_suffix_prefix_len s n) in *. cbn [length]. split_and!; [lia|done| |].
  - by replace (S (length s) - k) with (S (length s - k)) by lia.
  - intros j Hj Hjn. destruct (decide (j = S (length s))) as [->|].
    + rewrite Nat.sub_diag. intros H. apply Hc. by right.
    + replace (S (length s) - j) with (S (length s - j)) by lia. apply H4; lia.
Qed.

(** ** The next opening delimiter *)

Lemma before_open_spec a b :
  before_open a b = true ↔
  a.1.1 < b.1.1 ∨ (a.1.1 = b.1.1 ∧ (b.1.2 < a.1.2 ∨ (a.1.2 = b.1.2 ∧ a.2 ≤ b.2))).
Proof.
  destruct a as [[pa la] ia], b as [[pb lb] ib]. simpl.
  rewrite orb_true_iff, andb_true_iff, orb_true_iff, andb_true_iff.
  by rewrite Nat.ltb_lt, Nat.eqb_eq, Nat.ltb_lt, Nat.eqb_eq, Nat.leb_le.
Qed.

Lemma before_open_antisym a b : before_open a b = true → before_open b a = true → a = b.
Proof.
  rewrite !before_open_spec. destruct a as [[pa la] ia], b as [[pb lb] ib]. simpl.
  intros ? ?. repeat f_equal; lia.
Qed.

Lemma min_open_Some cs c :
  min_open cs = Some c ↔ c ∈ cs ∧ ∀ x, x ∈ cs → before_open c x = true.
Proof.
  assert (Hfold : ∀ cs c, let r := foldl (λ b x, if before_open b x then b else x) c cs in
    r ∈ c :: cs ∧ ∀ x, x ∈ c :: cs → before_open r x = true).
  { clear. induction cs as [|y cs IH]; intros c; simpl.
    - split; [left|]. intros x ->%list_elem_of_singleton. rewrite before_open_spec. lia.
    - destruct (before_open c y) eqn:E.
      + destruct (IH c) as [H1 H2]. split; [set_solver|]. intros x Hx.
        rewrite !elem_of_cons in Hx. destruct Hx as [->|[->|Hx]]; [set_solver| |set_solver].
        pose proof (H2 c ltac:(left)) as H3. rewrite before_open_spec in *. lia.
      + destruct (IH y) as [H1 H2]. split; [set_solver|]. intros x Hx.
        rewrite !elem_of_cons in Hx. destruct Hx as [->|[->|Hx]]; [|set_solver..].
        pose proof (H2 y ltac:(left)) as H3. apply not_true_iff_false in E.
        rewrite before_open_spec in *. lia. }
  unfold min_open. destruct cs as [|d cs]; [set_solver|].
  destruct (Hfold cs d) as [H1 H2]. split.
  - intros [= <-]. done.
  - intros [H3 H4]. f_equal. apply before_open_antisym; [by apply H2|by apply H4].
Qed.

Lemma min_open_None cs : min_open cs = None ↔ cs = [].
Proof. by destruct cs. Qed.

Lemma elem_of_candidates ss t p l i :
  (p, l, i) ∈ open_candidates ss t ↔
  ∃ s, ss !! i = Some s ∧ l = length (spec_open s) ∧ find_str (spec_open s) t = Some p.
Proof.
  unfold open_candidates. rewrite list_elem_of_omap. split.
  - intros (o & (j & s & -> & Hs)%elem_of_lookup_imap_1 & Ho).
    apply fmap_Some in Ho as (q & Hq & [= -> -> ->]). by exists s.
  - intros (s & Hs & -> & Hf). exists (Some (p, length (spec_open s), i)). split; [|done].
    apply elem_of_lookup_imap. exists i, s. by rewrite Hf.
Qed.

(** [s] is the tag with index [i], and opens at [p]. *)
Definition opens_at (ss : list InlineTagSpec) (t : str) (p i : nat) (s : InlineTagSpec) : Prop :=
  ss !! i = Some s ∧ p ≤ length t ∧ spec_open s `prefix_of` drop p t.

Lemma find_next_open_Some ss t p i :
  find_next_open ss t = Some (p, i) ↔
  ∃ s, opens_at ss t p i s ∧ ∀ q j s', opens_at ss t q j s' →
    before_open (p, length (spec_open s), i) (q, length (spec_open s'), j) = true.
Proof.
  unfold find_next_open. rewrite fmap_Some. split.
  - intros ([[p' l] i'] & (Hc & Hmin)%min_open_Some & [= <- <-]).
    apply elem_of_candidates in Hc as (s & Hs & -> & Hf).
    pose proof Hf as (? & ? & _)%find_str_Some. exists s. split; [done|].
    intros q j s' (Hs' & Hq & Hp').
    destruct (find_str (spec_open s') t) as [q'|] eqn:E'.
    + specialize (Hmin (q', length (spec_open s'), j)). rewrite elem_of_candidates in Hmin.
      specialize (Hmin (ex_intro _ s' (conj Hs' (conj eq_refl E')))).
      apply find_str_Some in E' as (_ & _ & Hfirst).
      destruct (decide (q < q')) as [Hlt|]; [by destruct (Hfirst q Hlt)|].
      rewrite before_open_spec in *. simpl in *. lia.
    + rewrite find_str_None in E'. by destruct (E' q Hq).
  - intros (s & (Hs & Hp & Hpre) & Hmin). exists (p, length (spec_open s), i). split; [|done].
    apply min_open_Some. split.
    + apply elem_of_candidates. exists s. split_and!; [done..|]. apply find_str_Some.
      split_and!; [done..|]. intros j Hj Hpj. specialize (Hmin j i s).
      rewrite before_open_spec in Hmin. simpl in Hmin.
      destruct Hmin; [split_and!; [done|lia|done]|lia|lia].
    + intros [[q l] j] Hx. apply elem_of_candidates in Hx as (s' & Hs' & -> & Hf).
      apply find_str_Some in Hf as (? & ? & _). by apply Hmin.
Qed.

Lemma find_next_open_None ss t :
  find_next_open ss t = None ↔ ∀ s, s ∈ ss → find_str (spec_open s) t = None.
Proof.
  unfold find_next_open. rewrite fmap_None, min_open_None. split.
  - intros Hn s (i & Hs)%list_elem_of_lookup.
    destruct (find_str (spec_open s) t) as [p|] eqn:E; [|done]. exfalso.
    assert (H : (p, length (spec_open s), i) ∈ open_candidates ss t).
    { apply elem_of_candidates. by exists s. }
    rewrite Hn in H. by apply not_elem_of_nil in H.
  - intros Hn. destruct (open_candidates ss t) as [|[[p l] i] cs] eqn:E; [done|]. exfalso.
    assert (H : (p, l, i) ∈ open_candidates ss t) by (rewrite E; left).
    apply elem_of_candidates in H as (s & Hs & _ & Hf).
    by rewrite Hn in Hf by by eapply list_elem_of_lookup_2.
Qed.

(** [max] over the tags. *)
Lemma foldl_max_spec (l : list nat) m :
  m ≤ foldl max m l ∧ (∀ x, x ∈ l → x ≤ foldl max m l) ∧
  (foldl max m l = m ∨ foldl max m l ∈ l).
Proof.
  revert m. induction l as [|y l IH]; intros m; simpl; [set_solver|].
  destruct (IH (max m y)) as (H1 & H2 & H3). split_and!; [lia| |].
  - intros x [->|Hx]%elem_of_cons; [lia|by apply H2].
  - destruct H3 as [H3|H3]; [|right; by right].
    rewrite H3. destruct (Nat.max_spec m y) as [[_ ->]|[_ ->]]; [right; left|by left].
Qed.

Lemma max_open_ge ss t s :
  s ∈ ss → longest_suffix_prefix_len t (spec_open s) ≤ max_open_prefix_suffix_len ss t.
Proof.
  intros Hs. apply foldl_max_spec. by apply (list_elem_of_fmap_2 (λ s, longest_suffix_prefix_len t (spec_open s))).
Qed.

Lemma max_open_le ss t : max_open_prefix_suffix_len ss t ≤ length t.
Proof.
  unfold max_open_prefix_suffix_len.
  destruct (foldl_max_spec ((λ s, longest_suffix_prefix_len t (spec_open s)) <$> ss) 0)
    as (_ & _ & [->|(s & -> & _)%list_elem_of_fmap]); [lia|]. apply longest_le.
Qed.

(** ** Rounds *)

(** The delimiters [new] accepts. *)
Definition delimited (ss : list InlineTagSpec) : Prop :=
  ∀ s, s ∈ ss → spec_open s ≠ [] ∧ spec_close s ≠ [].

(** No opening delimiter is part of another one. *)
Definition separate (ss : list InlineTagSpec) : Prop :=
  ∀ s s' x y, s ∈ ss → s' ∈ ss → spec_open s' = x ++ spec_open s ++ y → x = [] ∧ y = [].

Lemma opens_at_app ss t b p i s : opens_at ss t p i s → opens_at ss (t ++ b) p i s.
Proof.
  intros (? & ? & ?). split_and!; [done|rewrite length_app; lia|].
  rewrite drop_app_le by done. by apply prefix_app_r.
Qed.

Lemma find_next_open_app ss t b r :
  separate ss → find_next_open ss t = Some r → find_next_open ss (t ++ b) = Some r.
Proof.
  intros Hsep. destruct r as [p i]. rewrite !find_next_open_Some.
  intros (s & Hs & Hmin). exists s. split; [by apply opens_at_app|].
  intros q j s' (Hs' & Hq & Hpre). destruct Hs as (Hsi & Hp & Hps).
  destruct (decide (p < q)) as [|Hqp]; [apply before_open_spec; simpl; lia|].
  assert (Hq' : q ≤ length t) by lia. rewrite drop_app_le in Hpre by done.
  destruct (decide (spec_open s' `prefix_of` drop q t)) as [|Hn]; [by apply Hmin|]. exfalso.
  assert (Hr : ∃ r, spec_open s' = drop q t ++ r ∧ r ≠ []).
  { destruct (prefix_weak_total (spec_open s') (drop q t) (drop q t ++ b)) as [|[r Hr]];
      [done|by exists b|done|]. exists r. split; [done|]. intros ->. apply Hn.
    by rewrite Hr, app_nil_r. }
  destruct Hr as (r & Hr & Hrne). destruct Hps as [y Hy].
  assert (Hsplit : drop q t = take (p - q) (drop q t) ++ spec_open s ++ y).
  { rewrite <-Hy. replace p with (q + (p - q)) at 2 by lia. by rewrite <-drop_drop, take_drop. }
  rewrite Hsplit, <-!app_assoc in Hr.
  apply Hsep in Hr as [_ [_ ->]%app_nil]; [done|by eapply list_elem_of_lookup_2..].
Qed.

Lemma find_next_open_cons ss c t :
  (∀ s, s ∈ ss → ¬ comparable (spec_open s) (c :: t)) →
  find_next_open ss (c :: t) = prod_map S id <$> find_next_open ss t.
Proof.
  intros Hc. destruct (find_next_open ss t) as [[p i]|] eqn:E; simpl.
  - apply find_next_open_Some in E as (s & (Hs & Hp & Hpre) & Hmin). apply find_next_open_Some.
    exists s. split; [split_and!; [done|simpl; lia|done]|].
    intros [|q] j s' (Hs' & Hq & Hpre').
    { destruct (Hc s'); [by eapply list_elem_of_lookup_2|by left]. }
    specialize (Hmin q j s'). rewrite before_open_spec in *. simpl in *.
    assert (opens_at ss t q j s') by (split_and!; [done|lia|done]). naive_solver lia.
  - rewrite find_next_open_None in *. intros s Hs. rewrite find_str_cons.
    + by rewrite (E s Hs).
    + intros ?. apply (Hc s Hs). by left.
Qed.

Lemma max_open_cons ss c t :
  (∀ s, s ∈ ss → ¬ comparable (spec_open s) (c :: t)) →
  max_open_prefix_suffix_len ss (c :: t) = max_open_prefix_suffix_len ss t.
Proof.
  intros Hc. unfold max_open_prefix_suffix_len. f_equal. apply list_fmap_ext.
  intros i s Hs. apply longest_cons, Hc. by eapply list_elem_of_lookup_2.
Qed.

Definition shown (s : str) : StreamTextChunk ExtractedInlineTag := mkStreamChunk s [].

(** What a round does to text that cannot start a delimiter. *)
Definition prefix_round (o : StreamTextChunk ExtractedInlineTag)
    (r : bool * option ActiveTag * list N * StreamTextChunk ExtractedInlineTag) :=
  let '(g, a, t, o') := r in (g, a, t, chunk_app o o').

Lemma prefix_round_nil r : prefix_round chunk_default r = r.
Proof. destruct r as [[[g a] t] o]. simpl. by rewrite chunk_app_default_l. Qed.

Lemma round_cons_outside ss c t :
  (∀ s, s ∈ ss → ¬ comparable (spec_open s) (c :: t)) →
  push_round ss None (c :: t) = prefix_round (shown [c]) (push_round ss None t).
Proof.
  intros Hc. unfold push_round. rewrite find_next_open_cons by done.
  destruct (find_next_open ss t) as [[p i]|] eqn:E; simpl.
  - apply find_next_open_Some in E as (s & (-> & _) & _). done.
  - rewrite max_open_cons by done. pose proof (max_open_le ss t).
    by rewrite Nat.sub_succ_l by lia.
Qed.

Lemma round_skip_outside ss u t :
  (∀ j s, j < length u → s ∈ ss → ¬ comparable (spec_open s) (drop j u ++ t)) →
  push_round ss None (u ++ t) = prefix_round (shown u) (push_round ss None t).
Proof.
  induction u as [|c u IH]; intros Hu.
  - symmetry. apply prefix_round_nil.
  - cbn [app]. rewrite round_cons_outside by (intros s; apply (Hu 0); simpl; lia).
    rewrite IH by (intros j s Hj; apply (Hu (S j)); simpl; lia).
    by destruct (push_round ss None t) as [[[? ?] ?] ?].
Qed.

Definition more_content (u : str) (a : ActiveTag) : ActiveTag :=
  mkActive (active_tag a) (active_close a) (active_content a ++ u).

Lemma more_content_app u v a : more_content v (more_content u a) = more_content (u ++ v) a.
Proof. unfold more_content. simpl. by rewrite app_assoc. Qed.

Lemma round_cons_inside ss a c t :
  ¬ comparable (active_close a) (c :: t) →
  push_round ss (Some a) (c :: t) = push_round ss (Some (more_content [c] a)) t.
Proof.
  intros Hc. unfold push_round. rewrite find_str_cons by (intros ?; apply Hc; by left).
  cbn [more_content active_close active_tag active_content].
  destruct (find_str (active_close a) t) as [i|] eqn:E; simpl.
  - by rewrite <-app_assoc.
  - rewrite longest_cons by done. pose proof (longest_le t (active_close a)).
    rewrite Nat.sub_succ_l by lia. simpl. by rewrite <-app_assoc.
Qed.

Lemma round_skip_inside ss a u t :
  (∀ j, j < length u → ¬ comparable (active_close a) (drop j u ++ t)) →
  push_round ss (Some a) (u ++ t) = push_round ss (Some (more_content u a)) t.
Proof.
  revert a. induction u as [|c u IH]; intros a Hu.
  - unfold more_content. rewrite app_nil_r. by destruct a.
  - cbn [app]. rewrite round_cons_inside by (apply (Hu 0); simpl; lia).
    rewrite IH by (intros j Hj; apply (Hu (S j)); simpl; lia). by rewrite more_content_app.
Qed.

Lemma drop_take_drop (j n : nat) (t : str) : j ≤ n → drop j (take n t) ++ drop n t = drop j t.
Proof.
  intros Hj. destruct (decide (n ≤ length t)).
  - rewrite <-drop_app_le by (rewrite length_take; lia). by rewrite take_drop.
  - by rewrite (take_ge t n), (drop_ge t n), app_nil_r by lia.
Qed.

(** A last round, continued with more text, is the round on the rest and that text. *)
Lemma round_stop_app ss act t act' t' o b :
  push_round ss act t = (false, act', t', o) →
  push_round ss act (t ++ b) = prefix_round o (push_round ss act' (t' ++ b)).
Proof.
  unfold push_round at 1. destruct act as [a|].
  - destruct (find_str (active_close a) t) as [i|] eqn:E; [done|].
    set (k := longest_suffix_prefix_len t (active_close a)). intros [= <- <- <-].
    pose proof (longest_le t (active_close a)) as Hk. fold k in Hk.
    rewrite <-(take_drop (length t - k) t) at 1. rewrite <-app_assoc, round_skip_inside.
    + fold (more_content (take (length t - k) t) a).
      symmetry. apply prefix_round_nil.
    + intros j Hj Hcmp. rewrite app_assoc in Hcmp. apply comparable_app in Hcmp.
      rewrite length_take in Hj.
      apply (longest_beyond t (active_close a) (length t - j)); [fold k; lia|lia|done|].
      replace (length t - (length t - j)) with j by lia.
      by rewrite drop_take_drop in Hcmp by lia.
  - destruct (find_next_open ss t) as [[p i]|] eqn:E.
    { apply find_next_open_Some in E as (s & (-> & _) & _). done. }
    set (k := max_open_prefix_suffix_len ss t). intros [= <- <- <-].
    pose proof (max_open_le ss t) as Hk. fold k in Hk.
    rewrite <-(take_drop (length t - k) t) at 1. rewrite <-app_assoc, round_skip_outside; [done|].
    intros j s Hj Hs Hcmp. rewrite app_assoc in Hcmp. apply comparable_app in Hcmp.
    rewrite length_take in Hj. rewrite find_next_open_None in E.
    pose proof (max_open_ge ss t s Hs) as Hge. fold k in Hge.
    apply (longest_beyond t (spec_open s) (length t - j)); [lia|lia|by apply E|].
    replace (length t - (length t - j)) with j by lia.
    by rewrite drop_take_drop in Hcmp by lia.
Qed.

Lemma round_go_app ss act t act' t' o b :
  separate ss → push_round ss act t = (true, act', t', o) →
  push_round ss act (t ++ b) = (true, act', t' ++ b, o).
Proof.
  intros Hsep. unfold push_round. destruct act as [a|].
  - destruct (find_str (active_close a) t) as [i|] eqn:E; [|done]. intros [= <- <- <-].
    pose proof (find_str_bound _ _ _ E). rewrite (find_str_app _ _ b _ E) by done.
    by rewrite drop_app_le, take_app_le by lia.
  - destruct (find_next_open ss t) as [[p i]|] eqn:E; [|done].
    pose proof E as (s & (Hs & Hp & Hpre) & _)%find_next_open_Some. rewrite Hs.
    intros [= <- <- <-]. rewrite (find_next_open_app ss t b _ Hsep E), Hs.
    apply prefix_length in Hpre. rewrite length_drop in Hpre.
    rewrite drop_app_le, take_app_le by lia. done.
Qed.

(** A round that goes on consumes a delimiter. *)
Lemma round_go_shorter ss act t act' t' o :
  delimited ss → (∀ a, act = Some a → active_close a ≠ []) →
  push_round ss act t = (true, act', t', o) →
  length t' < length t ∧ (∀ a, act' = Some a → active_close a ≠ []).
Proof.
  intros Hd Ha. unfold push_round. destruct act as [a|].
  - destruct (find_str (active_close a) t) as [i|] eqn:E; [|done]. intros [= <- <- <-].
    pose proof (find_str_bound _ _ _ E). specialize (Ha a eq_refl).
    rewrite length_drop. split; [|done]. destruct (active_close a); [done|]. simpl in *. lia.
  - destruct (find_next_open ss t) as [[p i]|] eqn:E; [|done].
    pose proof E as (s & (Hs & Hp & Hpre) & _)%find_next_open_Some. rewrite Hs.
    intros [= <- <- <-]. apply prefix_length in Hpre. rewrite length_drop in Hpre.
    destruct (Hd s) as [Ho Hc]; [by eapply list_elem_of_lookup_2|]. rewrite length_drop.
    split; [destruct (spec_open s); [done|]; simpl in *; lia|]. by intros ? [= <-].
Qed.

(** ** The loop *)

Lemma push_loop_mono ss n m act t r :
  push_loop n ss act t = Some r → n ≤ m → push_loop m ss act t = Some r.
Proof.
  revert m act t r. induction n as [|n IH]; intros m act t r Hn Hm; [done|].
  destruct m as [|m]; [lia|]. simpl in *.
  destruct (push_round ss act t) as [[[[] act'] t'] o]; [|done].
  apply bind_Some in Hn as (r1 & H1 & H2). rewrite (IH m _ _ _ H1) by lia. done.
Qed.

Definition close_ok (act : option ActiveTag) : Prop := ∀ a, act = Some a → active_close a ≠ [].

(** Enough fuel: one round more than there are characters. *)
Lemma push_loop_total ss n act t :
  delimited ss → close_ok act → length t < n → is_Some (push_loop n ss act t).
Proof.
  intros Hd. revert act t. induction n as [|n IH]; intros act t Ha Hn; [lia|]. simpl.
  destruct (push_round ss act t) as [[[[] act'] t'] o] eqn:E; [|done].
  destruct (round_go_shorter ss act t act' t' o Hd Ha E) as [Hlen Ha'].
  destruct (IH act' t' Ha') as [[[act2 t2] o2] ->]; [lia|done].
Qed.

(** A state in which nothing is left to do without more text. *)
Definition settled (ss : list InlineTagSpec) (act : option ActiveTag) (t : str) : Prop :=
  push_round ss act t = (false, act, t, chunk_default).

Lemma push_round_settled ss act t act' t' o :
  push_round ss act t = (false, act', t', o) → settled ss act' t'.
Proof.
  intros H. pose proof (round_stop_app ss act t act' t' o [] H) as Ha.
  rewrite !app_nil_r, H in Ha. unfold settled.
  destruct (push_round ss act' t') as [[[g a] t2] o'] eqn:E. simpl in Ha.
  injection Ha as <- <- <- Ho. repeat f_equal. destruct o as [v e], o' as [v' e'].
  injection Ho as Hv He.
  assert (length v' = 0) by (apply (f_equal length) in Hv; rewrite length_app in Hv; lia).
  assert (length e' = 0) by (apply (f_equal length) in He; rewrite length_app in He; lia).
  by destruct v', e'.
Qed.

Lemma push_loop_settled ss n act t act' t' o :
  delimited ss → close_ok act → push_loop n ss act t = Some (act', t', o) →
  settled ss act' t' ∧ close_ok act'.
Proof.
  intros Hd. revert act t o. induction n as [|n IH]; intros act t o Ha; [done|]. simpl.
  destruct (push_round ss act t) as [[[[] a1] t1] o1] eqn:E.
  - intros ([[a2 t2] o2] & H1 & [= -> -> _])%bind_Some.
    eapply IH; [|exact H1]. exact (proj2 (round_go_shorter ss act t _ _ _ Hd Ha E)).
  - intros [= -> -> ->]. split; [by eapply push_round_settled|].
    unfold push_round in E. destruct act as [a|].
    + destruct (find_str _ _); [done|]. injection E as <- _ _. intros ? [= <-]. simpl. by apply (Ha a).
    + destruct (find_next_open _ _) as [[? i]|]; [destruct (ss !! i)|]; simplify_eq; done.
Qed.

(** The loop on a text that is continued is the loop on the text, then on what is left of it
    and the continuation. *)
Lemma push_loop_app ss n m act t act1 t1 o1 b act2 t2 o2 :
  separate ss → push_loop n ss act t = Some (act1, t1, o1) →
  push_loop m ss act1 (t1 ++ b) = Some (act2, t2, o2) →
  push_loop (n + m) ss act (t ++ b) = Some (act2, t2, chunk_app o1 o2).
Proof.
  intros Hsep. revert act t o1. induction n as [|n IH]; intros act t o1; [done|].
  simpl. destruct (push_round ss act t) as [[[[] a'] t'] o] eqn:E.
  - intros ([[a3 t3] o3] & H1 & [= -> -> <-])%bind_Some Hm.
    rewrite (round_go_app ss act t _ _ _ b Hsep E), (IH _ _ _ H1 Hm). simpl.
    by rewrite chunk_app_assoc.
  - intros [= -> -> ->] Hm. rewrite (round_stop_app ss act t _ _ _ b E).
    destruct m as [|m]; [done|]. simpl in Hm.
    destruct (push_round ss act1 (t1 ++ b)) as [[[g a3] t3] o3]. simpl.
    destruct g; [|by injection Hm as -> -> ->].
    apply bind_Some in Hm as ([[a4 t4] o4] & H1 & [= -> -> <-]).
    rewrite (push_loop_mono ss m (n + S m) _ _ _ H1) by lia. simpl. by rewrite chunk_app_assoc.
Qed.

(** ** The interface *)

Definition inline_ok (p : InlineHiddenTagParser) : Prop :=
  delimited (specs p) ∧ separate (specs p) ∧ close_ok (active p) ∧
  settled (specs p) (active p) (pending p).

Lemma inline_push_run s p :
  inline_ok p → ∃ act t o,
    push_loop (S (length (pending p ++ s))) (specs p) (active p) (pending p ++ s) = Some (act, t, o) ∧
    inline_push_str s p = (mkInline (specs p) t act, o).
Proof.
  intros (Hd & _ & Ha & _). unfold inline_push_str.
  destruct (push_loop_total (specs p) (S (length (pending p ++ s))) (active p) (pending p ++ s))
    as [[[act t] o] E]; [done..|lia|]. exists act, t, o. by rewrite E.
Qed.

Lemma inline_push_ok s p : inline_ok p → inline_ok (inline_push_str s p).1.
Proof.
  intros Hp. destruct (inline_push_run s p Hp) as (act & t & o & Hl & ->).
  destruct Hp as (Hd & Hsep & Ha & _).
  destruct (push_loop_settled _ _ _ _ _ _ _ Hd Ha Hl). by split_and!.
Qed.

Lemma inline_push_nil p : inline_ok p → inline_push_str [] p = (p, chunk_default).
Proof.
  intros (_ & _ & _ & Hs). unfold inline_push_str. rewrite app_nil_r. cbn [push_loop].
  rewrite Hs. by destruct p.
Qed.

Lemma inline_push_app a b p :
  inline_ok p →
  let '(p1, o1) := inline_push_str a p in
  let '(p2, o2) := inline_push_str b p1 in
  inline_push_str (a ++ b) p = (p2, chunk_app o1 o2).
Proof.
  intros Hp. pose proof (inline_push_ok a p Hp) as Hp1.
  destruct (inline_push_run (a ++ b) p Hp) as (act3 & t3 & o3 & Hl3 & ->).
  destruct (inline_push_run a p Hp) as (act1 & t1 & o1 & Hl1 & E1). rewrite E1 in *. cbn [fst] in Hp1.
  destruct (inline_push_run b _ Hp1) as (act2 & t2 & o2 & Hl2 & ->).
  cbn [specs pending active] in *.
  destruct Hp as (_ & Hsep & _).
  pose proof (push_loop_app _ _ _ _ _ _ _ _ _ _ _ _ Hsep Hl1 Hl2) as Happ.
  rewrite <-app_assoc in Happ.
  pose proof (push_loop_mono _ _ (S (length (pending p ++ a ++ b)) +
    (S (length (pending p ++ a)) + S (length (t1 ++ b)))) _ _ _ Hl3 ltac:(lia)) as H3.
  pose proof (push_loop_mono _ _ (S (length (pending p ++ a ++ b)) +
    (S (length (pending p ++ a)) + S (length (t1 ++ b)))) _ _ _ Happ ltac:(lia)) as H4.
  rewrite H3 in H4. by injection H4 as -> -> ->.
Qed.

#[global] Instance inline_laws : StreamLaws InlineHiddenTagParser ExtractedInlineTag.
Proof.
  refine {| stream_ok := inline_ok; same_payloads := eq |}; simpl.
  - intros s p. apply inline_push_ok.
  - intros p. apply inline_push_nil.
  - intros a b p Hp. pose proof (inline_push_app a b p Hp) as Ha.
    destruct (inline_push_str a p) as [p1 o1], (inline_push_str b p1) as [p2 o2].
    by rewrite Ha.
Defined.

(** ** Properties *)

(** States reached from a new parser, whatever its delimiters. *)
Inductive inline_reachable (p0 : InlineHiddenTagParser) : InlineHiddenTagParser → Prop :=
| reach_new : inline_reachable p0 p0
| reach_push s p : inline_reachable p0 p → inline_reachable p0 (inline_push_str s p).1
| reach_finish p : inline_reachable p0 p → inline_reachable p0 (inline_finish p).1.

Lemma new_inline_delimited ss p :
  new_inline ss = Some p → specs p = ss ∧ delimited ss ∧ close_ok (active p).
Proof.
  unfold new_inline. destruct ss as [|s ss]; [done|].
  destruct (forallb _ _) eqn:E; [|done]. intros [= <-]. split_and!; [done| |done].
  intros x Hx. rewrite forallb_forall in E. specialize (E x).
  rewrite <-list_elem_of_In in E. specialize (E Hx).
  apply andb_true_iff in E as [?%negb_true_iff ?%negb_true_iff]. by bool_to_prop.
Qed.

(** A new parser is settled. *)
Lemma new_inline_ok ss p : new_inline ss = Some p → separate ss → inline_ok p.
Proof.
  intros Hnew Hsep. pose proof Hnew as (Hs & Hd & Hc)%new_inline_delimited.
  assert (Hp : pending p = [] ∧ active p = None).
  { unfold new_inline in Hnew. destruct ss; [done|]. destruct (forallb _ _); by simplify_eq/=. }
  destruct Hp as [Hpend Hact]. unfold inline_ok, settled. rewrite Hs, Hpend, Hact.
  split_and!; [done..|]. unfold push_round.
  destruct (find_next_open ss []) as [[q i]|] eqn:F; [|done]. exfalso.
  apply find_next_open_Some in F as (s' & (Hs' & _ & Hpre) & _).
  rewrite drop_nil in Hpre. apply prefix_nil_inv in Hpre.
  destruct (Hd s') as [? _]; [by eapply list_elem_of_lookup_2|done].
Qed.

Lemma inline_reachable_close ss p0 p :
  new_inline ss = Some p0 → inline_reachable p0 p → specs p = ss ∧ close_ok (active p).
Proof.
  intros Hnew%new_inline_delimited. destruct Hnew as (Hs & Hd & Hc).
  induction 1 as [|s p _ [IHs IHc]|p _ [IHs IHc]]; [done| |].
  - unfold inline_push_str.
    destruct (push_loop _ _ _ _) as [[[act t] o]|] eqn:E; [|done]. split; [done|]. simpl.
    rewrite IHs in E. by eapply push_loop_settled.
  - unfold inline_finish. by destruct (active p).
Qed.

(** C40. The loop of [push_str] always ends: for every parser that [new] accepts, in every
    state that pushes and flushes can lead to and for every piece of text, it is through
    after at most one round per buffered character and one more. *)
Theorem inline_push_terminates (ss : list InlineTagSpec) (p0 p : InlineHiddenTagParser) (s : str) :
  new_inline ss = Some p0 → inline_reachable p0 p →
  is_Some (push_loop (S (length (pending p ++ s))) (specs p) (active p) (pending p ++ s)).
Proof.
  intros Hnew Hr. destruct (inline_reachable_close ss p0 p Hnew Hr) as [-> Hc].
  apply new_inline_delimited in Hnew as (_ & Hd & _). apply push_loop_total; [done..|lia].
Qed.

End parser.
Arguments ExtractedInlineTag T : clear implicits.
Arguments InlineTagSpec T : clear implicits.
Arguments ActiveTag T : clear implicits.
Arguments InlineHiddenTagParser T : clear implicits.

(** A parser for two tags, inside an open one. *)
Definition ex_specs : list (InlineTagSpec bool) :=
  [mkInlineSpec true (lit "<a>") (lit "</a>"); mkInlineSpec false (lit "<b>") (lit "</b>")].
Definition ex_new : InlineHiddenTagParser bool := mkInline ex_specs [] None.

Lemma inline_push_terminates_witness :
  is_Some (push_loop 5 ex_specs (Some (mkActive true (lit "</a>") (lit "x"))) (lit "</a>")).
Proof.
  apply (inline_push_terminates ex_specs ex_new (inline_push_str (lit "1<a>x</") ex_new).1 (lit "a>")).
  - vm_compute. reflexivity.
  - apply reach_push, reach_new.
Defined.

(** Why [separate] is needed: with tags [<a] and [<ab], the same text gives another result
    when it is cut after [<a]. *)
Example overlapping_tags_depend_on_pieces :
  let p := mkInline [mkInlineSpec true (lit "<a") (lit ">"); mkInlineSpec false (lit "<ab") (lit ">")]
             [] None in
  run_stream [lit "<abc>"] p = mkStreamChunk [] [mkExtracted false (lit "c")] ∧
  run_stream [lit "<a"; lit "bc>"] p = mkStreamChunk [] [mkExtracted true (lit "bc")].
Proof. vm_compute. split; reflexivity. Qed.

End InlineHiddenTag.
