(* ===== verification/Citation.v ===== *)
(** * Citations in streamed text (utils/stream-parser/src/citation.rs)

    [CitationStreamParser] wraps the inline tag parser with one tag.  The grammar of marked
    up text is a relation between a text, what may be shown of it and its citations; the
    main theorem says that the parser computes it, however the text arrives. *)

From stdpp Require Import prelude strings.
From S2P Require Import Prelude RustStr StrSearch StreamText InlineHiddenTag.
Import StreamText InlineHiddenTag.

Module Citation.

Inductive CitationTag : Type := CitationT.

Definition CITATION_OPEN : str := lit "<oai-mem-citation>".
Definition CITATION_CLOSE : str := lit "</oai-mem-citation>".

Record CitationStreamParser : Type := mkCitation { inner : InlineHiddenTagParser CitationTag }.

Definition citation_spec : InlineTagSpec CitationTag :=
  mkInlineSpec CitationT CITATION_OPEN CITATION_CLOSE.

(** [CitationStreamParser::new]; the assertions of the inner parser hold. *)
Definition new_citation : CitationStreamParser :=
  mkCitation (default (mkInline [] [] None) (new_inline [citation_spec])).

Definition contents (c : StreamTextChunk (ExtractedInlineTag CitationTag)) :
    StreamTextChunk (list N) :=
  mkStreamChunk (visible_text c) (econtent <$> extracted c).

#[global] Instance citation_stream : StreamTextParser CitationStreamParser (list N) := {
  push_str s p := let '(i, o) := push_str s (inner p) in (mkCitation i, contents o);
  finish p := let '(i, o) := finish (inner p) in (mkCitation i, contents o);
}.

(** [strip_citations]. *)
Definition strip_citations (text : str) : list N * list (list N) :=
  let '(p, out) := push_str text new_citation in
  let '(_, tail) := finish p in
  (visible_text out ++ visible_text tail, extracted out ++ extracted tail).

#[global] Instance citation_laws : StreamLaws CitationStreamParser (list N).
Proof.
  refine {| stream_ok p := stream_ok (inner p); same_payloads := eq |}; simpl.
  - intros s p Hp. pose proof (inline_push_ok s (inner p) Hp) as H.
    by destruct (inline_push_str s (inner p)).
  - intros p Hp. rewrite inline_push_nil by done. by destruct p.
  - intros a b p Hp. pose proof (inline_push_app a b (inner p) Hp) as Ha.
    destruct (inline_push_str a (inner p)) as [p1 o1]. simpl.
    destruct (inline_push_str b p1) as [p2 o2]. rewrite Ha. simpl.
    by rewrite fmap_app.
Defined.

Lemma new_citation_ok : stream_ok new_citation.
Proof.
  apply (new_inline_ok [citation_spec]); [reflexivity|].
  intros s s' x y ->%list_elem_of_singleton ->%list_elem_of_singleton H.
  apply (f_equal length) in H. rewrite !length_app in H.
  destruct x, y; simpl in H; [done|lia..].
Qed.

(** ** Delimiters that do not overlap themselves *)

Definition border_free (n : str) : Prop := ∀ k, 0 < k < length n → ¬ drop k n `prefix_of` n.

Lemma border_free_check n :
  forallb (λ k, negb (starts_with (drop k n) n)) (seq 1 (length n - 1)) = true → border_free n.
Proof.
  rewrite forallb_forall. intros H k Hk. specialize (H k). rewrite in_seq in H.
  specialize (H ltac:(lia)). apply negb_true_iff in H. by apply starts_with_not_prefix.
Qed.

Lemma find_str_at n v r :
  border_free n → find_str n v = None → find_str n (v ++ n ++ r) = Some (length v).
Proof.
  intros Hb Hv. rewrite find_str_None in Hv. apply find_str_Some. split_and!.
  - rewrite length_app. lia.
  - rewrite drop_app_length. by exists r.
  - intros j Hj Hp. rewrite drop_app_le in Hp by lia.
    destruct (prefix_weak_total n (drop j v) (drop j v ++ n ++ r)) as [H|[m Hm]];
      [done|by eexists|by apply (Hv j); [lia|]|].
    apply (f_equal length) in Hm as Hlen. rewrite length_app, length_drop in Hlen.
    apply (Hb (length v - j)).
    { split; [lia|]. destruct m; [|simpl in Hlen; lia]. exfalso. apply (Hv j); [lia|].
      by rewrite Hm, app_nil_r. }
    rewrite Hm at 1. rewrite drop_app_length' by (rewrite length_drop; done).
    rewrite Hm in Hp at 1. apply prefix_app_inv in Hp.
    destruct (prefix_weak_total m n (n ++ r)) as [|H]; [done|by exists r|done|].
    apply prefix_length in H. assert (length v - j = 0); [lia|]. lia.
Qed.

(** ** The grammar *)

(** [marked_up t vis cs]: [t] shows [vis] and has the citations [cs]. *)
Inductive marked_up : list N → list N → list (list N) → Prop :=
| marked_plain v :
    find_str CITATION_OPEN v = None → marked_up v v []
| marked_open v c :
    find_str CITATION_OPEN v = None → find_str CITATION_CLOSE c = None →
    marked_up (v ++ CITATION_OPEN ++ c) v [c]
| marked_cited v c t vis cs :
    find_str CITATION_OPEN v = None → find_str CITATION_CLOSE c = None →
    marked_up t vis cs →
    marked_up (v ++ CITATION_OPEN ++ c ++ CITATION_CLOSE ++ t) (v ++ vis) (c :: cs).

Lemma open_border_free : border_free CITATION_OPEN.
Proof. apply border_free_check. vm_compute. reflexivity. Qed.
Lemma close_border_free : border_free CITATION_CLOSE.
Proof. apply border_free_check. vm_compute. reflexivity. Qed.

(** Before a match the needle does not occur. *)
Lemma find_str_before n s i : find_str n s = Some i → n ≠ [] → find_str n (take i s) = None.
Proof.
  intros (Hi & Hp & Hn)%find_str_Some Hne. apply find_str_None. intros j Hj Hpj.
  rewrite length_take in Hj. apply (Hn j).
  - destruct (decide (j = i)) as [->|]; [|lia]. exfalso. apply prefix_length in Hpj.
    rewrite length_drop, length_take in Hpj. destruct n; [done|]. simpl in Hpj. lia.
  - rewrite <-(take_drop i s), drop_app_le by (rewrite length_take; lia). by apply prefix_app_r.
Qed.

(** Every text is marked up in some way. *)
Lemma marked_up_total t : ∃ vis cs, marked_up t vis cs.
Proof.
  remember (length t) as n eqn:Hn. revert t Hn.
  induction n as [n IH] using lt_wf_ind. intros t ->.
  destruct (find_str CITATION_OPEN t) as [i|] eqn:Eo; [|eexists _, _; by apply marked_plain].
  pose proof (find_str_before _ _ _ Eo ltac:(done)) as Hv.
  pose proof (find_str_bound _ _ _ Eo) as Hlen.
  rewrite (find_str_split _ _ _ Eo). set (r := drop (i + length CITATION_OPEN) t).
  destruct (find_str CITATION_CLOSE r) as [k|] eqn:Ec; [|eexists _, _; by apply marked_open].
  rewrite (find_str_split _ _ _ Ec).
  destruct (IH (length (drop (k + length CITATION_CLOSE) r))) with
    (t := drop (k + length CITATION_CLOSE) r) as (vis & cs & H); [|done|].
  { unfold r. rewrite !length_drop. change (length CITATION_OPEN) with 18 in *. lia. }
  eexists _, _. apply marked_cited; [done| |exact H]. by apply (find_str_before _ _ _ Ec).
Qed.

Lemma find_next_open_single t :
  find_next_open [citation_spec] t = (λ p, (p, 0)) <$> find_str CITATION_OPEN t.
Proof.
  unfold find_next_open, open_candidates. cbn [imap omap list_omap spec_open citation_spec].
  by destruct (find_str CITATION_OPEN t).
Qed.

(** What is shown and collected by the loop and the end of the stream. *)
Definition total (r : option (ActiveTag CitationTag) * list N *
    StreamTextChunk (ExtractedInlineTag CitationTag)) : StreamTextChunk (list N) :=
  let '(act, t, o) := r in
  contents (chunk_app o (inline_finish (mkInline [citation_spec] t act)).2).

Lemma contents_app c d : contents (chunk_app c d) = chunk_app (contents c) (contents d).
Proof. unfold contents, chunk_app. simpl. by rewrite fmap_app. Qed.

Lemma total_app o act t o' :
  total (act, t, chunk_app o o') = chunk_app (contents o) (total (act, t, o')).
Proof. unfold total. by rewrite <-chunk_app_assoc, contents_app. Qed.

(** The loop inside a citation. *)
Lemma loop_open n c :
  find_str CITATION_CLOSE c = None →
  ∃ r, push_loop (S n) [citation_spec] (Some (mkActive CitationT CITATION_CLOSE [])) c = Some r ∧
       total r = mkStreamChunk [] [c].
Proof.
  intros Hc. eexists. split.
  { cbn [push_loop push_round active_close]. rewrite Hc. reflexivity. }
  unfold total, contents. simpl. by rewrite take_drop.
Qed.

Lemma round_open v r :
  find_str CITATION_OPEN v = None →
  push_round [citation_spec] None (v ++ CITATION_OPEN ++ r) =
    (true, Some (mkActive CitationT CITATION_CLOSE []), r, mkStreamChunk v []).
Proof.
  intros Hv. unfold push_round.
  rewrite find_next_open_single, find_str_at by (done || apply open_border_free).
  cbn [fmap option_fmap option_map]. change ([citation_spec] !! 0) with (Some citation_spec).
  cbv iota. change (spec_open citation_spec) with CITATION_OPEN.
  by rewrite take_app_length, <-drop_drop, !drop_app_length.
Qed.

Lemma round_close c t :
  find_str CITATION_CLOSE c = None →
  push_round [citation_spec] (Some (mkActive CitationT CITATION_CLOSE [])) (c ++ CITATION_CLOSE ++ t) =
    (true, None, t, mkStreamChunk [] [mkExtracted CitationT c]).
Proof.
  intros Hc. unfold push_round. cbn [active_close active_tag active_content].
  rewrite find_str_at by (done || apply close_border_free).
  by rewrite take_app_length, <-drop_drop, !drop_app_length.
Qed.

Lemma push_loop_go n act t act' t' o :
  push_round [citation_spec] act t = (true, act', t', o) →
  push_loop (S n) [citation_spec] act t =
    ('(act2, t2, o2) ← push_loop n [citation_spec] act' t'; Some (act2, t2, chunk_app o o2)).
Proof. intros H. cbn [push_loop]. by rewrite H. Qed.

Lemma marked_up_run t vis cs n :
  marked_up t vis cs → length t < n →
  ∃ r, push_loop n [citation_spec] None t = Some r ∧ total r = mkStreamChunk vis cs.
Proof.
  intros H. revert n. induction H as [v Hv|v c Hv Hc|v c t vis cs Hv Hc _ IH]; intros n Hn.
  - destruct n as [|n]; [lia|]. cbn [push_loop push_round].
    rewrite find_next_open_single, Hv. simpl. eexists. split; [done|].
    unfold total, contents. simpl. by rewrite take_drop.
  - rewrite !length_app in Hn. change (length CITATION_OPEN) with 18 in Hn.
    destruct n as [|[|n]]; [lia..|]. destruct (loop_open n c Hc) as ([[act t] o] & Hl & Ht).
    rewrite (push_loop_go _ _ _ _ _ _ (round_open v c Hv)), Hl. simpl.
    eexists. split; [done|]. rewrite total_app, Ht. unfold chunk_app. simpl. by rewrite app_nil_r.
  - rewrite !length_app in Hn.
    change (length CITATION_OPEN) with 18 in Hn. change (length CITATION_CLOSE) with 19 in Hn.
    destruct n as [|[|n]]; [lia..|]. destruct (IH n) as ([[act t'] o] & Hl & Ht); [lia|].
    rewrite (push_loop_go _ _ _ _ _ _ (round_open v _ Hv)).
    rewrite (push_loop_go _ _ _ _ _ _ (round_close c t Hc)), Hl. simpl.
    eexists. split; [done|]. by rewrite !total_app, Ht.
Qed.

Lemma marked_up_stream t vis cs :
  marked_up t vis cs → run_stream [t] new_citation = mkStreamChunk vis cs.
Proof.
  intros H. destruct (marked_up_run t vis cs (S (length t)) H) as ([[act t'] o] & Hl & <-); [lia|].
  change new_citation with (mkCitation (mkInline [citation_spec] [] None)).
  unfold run_stream, total. cbn -[push_loop inline_finish citation_spec contents chunk_app].
  unfold inline_push_str. cbn -[push_loop inline_finish citation_spec contents chunk_app].
  rewrite Hl. cbn -[push_loop inline_finish citation_spec contents chunk_app].
  rewrite chunk_app_default_r, contents_app. by destruct (inline_finish _).
Qed.

Lemma marked_up_fun t vis cs vis' cs' :
  marked_up t vis cs → marked_up t vis' cs' → vis = vis' ∧ cs = cs'.
Proof. intros H%marked_up_stream H'%marked_up_stream. rewrite H in H'. by injection H'. Qed.

Lemma citation_grammar pieces vis cs :
  run_stream pieces new_citation = mkStreamChunk vis cs ↔ marked_up (concat pieces) vis cs.
Proof.
  destruct (run_stream_concat pieces new_citation new_citation_ok) as [Hv He].
  destruct (marked_up_total (concat pieces)) as (vis' & cs' & Hm).
  pose proof (marked_up_stream _ _ _ Hm) as Hr. rewrite Hr in Hv, He. simpl in Hv, He.
  destruct (run_stream pieces new_citation) as [v c]. simpl in *. subst. split.
  - by intros [= <- <-].
  - intros H. by destruct (marked_up_fun _ _ _ _ _ Hm H) as [-> ->].
Qed.

(** ** Properties *)

(** The citation parser computes the grammar of marked up text, however the text is cut
    into pieces: a stream shows [vis] and yields the citations [cs] exactly when the whole
    text is marked up so, an unterminated citation at its end being closed there. *)
Theorem citation_stream_grammar (pieces : list (list N)) (vis : str) (cs : list (list N)) :
  run_stream pieces new_citation = mkStreamChunk vis cs ↔ marked_up (concat pieces) vis cs.
Proof. apply citation_grammar. Qed.

End Citation.
