(* ===== verification/TaggedLine.v ===== *)
(** * Tag blocks on lines of their own (utils/stream-parser/src/tagged_line_parser.rs)

    The parser buffers each line until it can disprove that the line is a tag.  It reads one
    character at a time; text that is certainly no tag is collected in a run, which is local
    to one call, and adjacent segments of the same kind are joined when they are pushed. *)

From stdpp Require Import prelude strings.
From S2P Require Import Prelude RustStr.

Module TaggedLine.

Section parser.
Context {T : Type} {HT : EqDecision T}.

Record TagSpec : Type := mkTagSpec { tag_open : list N; tag_close : list N; tag_of : T }.

Inductive TaggedLineSegment : Type :=
| NormalSeg (text : list N)
| TagStart (tag : T)
| TagDelta (tag : T) (text : list N)
| TagEnd (tag : T).

Record TaggedLineParser : Type := mkTagged {
  tspecs : list TagSpec;
  active_tag : option T;
  detect_tag : bool;
  line_buffer : list N;
}.

Definition new_tagged (ss : list TagSpec) : TaggedLineParser := mkTagged ss None true [].

(** [push_segment]: joins text to a last segment of the same kind. *)
Definition push_segment (segments : list TaggedLineSegment) (segment : TaggedLineSegment) :
    list TaggedLineSegment :=
  match segment with
  | NormalSeg [] | TagDelta _ [] => segments
  | NormalSeg delta =>
      match last segments with
      | Some (NormalSeg existing) => removelast segments ++ [NormalSeg (existing ++ delta)]
      | _ => segments ++ [NormalSeg delta]
      end
  | TagDelta tag delta =>
      match last segments with
      | Some (TagDelta existing_tag existing) =>
          if decide (existing_tag = tag)
          then removelast segments ++ [TagDelta existing_tag (existing ++ delta)]
          else segments ++ [TagDelta tag delta]
      | _ => segments ++ [TagDelta tag delta]
      end
  | TagStart tag => segments ++ [TagStart tag]
  | TagEnd tag => segments ++ [TagEnd tag]
  end.

(** [push_text]. *)
Definition push_text (p : TaggedLineParser) (text : str) (segments : list TaggedLineSegment) :
    list TaggedLineSegment :=
  push_segment segments
    (match active_tag p with Some tag => TagDelta tag text | None => NormalSeg text end).

(** [is_tag_prefix], [match_open], [match_close]. *)
Definition is_tag_prefix (p : TaggedLineParser) (slug : str) : bool :=
  let slug := trim_end slug in
  existsb (λ s, starts_with slug (tag_open s) || starts_with slug (tag_close s)) (tspecs p).
Definition match_open (p : TaggedLineParser) (slug : str) : option T :=
  tag_of <$> List.find (λ s, bool_decide (tag_open s = slug)) (tspecs p).
Definition match_close (p : TaggedLineParser) (slug : str) : option T :=
  tag_of <$> List.find (λ s, bool_decide (tag_close s = slug)) (tspecs p).

Definition set_tag (t : option T) (p : TaggedLineParser) : TaggedLineParser :=
  mkTagged (tspecs p) t (detect_tag p) (line_buffer p).
Definition set_detect (b : bool) (p : TaggedLineParser) : TaggedLineParser :=
  mkTagged (tspecs p) (active_tag p) b (line_buffer p).
Definition set_buffer (s : str) (p : TaggedLineParser) : TaggedLineParser :=
  mkTagged (tspecs p) (active_tag p) (detect_tag p) s.

(** What a complete line turns out to be. *)
Definition line_slug (line : str) : list N :=
  trim_end (trim_start (default line (strip_suffix [nl] line))).
Definition opens (p : TaggedLineParser) (slug : str) : option T :=
  match match_open p slug, active_tag p with Some t, None => Some t | _, _ => None end.
Definition closes (p : TaggedLineParser) (slug : str) : option T :=
  match match_close p slug, active_tag p with
  | Some t, Some a => if decide (a = t) then Some t else None
  | _, _ => None
  end.

(** The common part of [finish_line] and [finish]: a tag, or text. *)
Definition end_of_line (line : str) (p : TaggedLineParser) (segments : list TaggedLineSegment) :
    TaggedLineParser * list TaggedLineSegment :=
  match opens p (line_slug line) with
  | Some tag => (set_tag (Some tag) p, push_segment segments (TagStart tag))
  | None =>
      match closes p (line_slug line) with
      | Some tag => (set_tag None p, push_segment segments (TagEnd tag))
      | None => (p, push_text p line segments)
      end
  end.

(** [finish_line]. *)
Definition finish_line (p : TaggedLineParser) (segments : list TaggedLineSegment) :
    TaggedLineParser * list TaggedLineSegment :=
  let '(p', segments) := end_of_line (line_buffer p) (set_buffer [] p) segments in
  (set_detect true p', segments).

(** The body of the loop of [parse], on the parser, the run and the segments. *)
Definition parse_char (ch : char)
    (st : TaggedLineParser * list N * list TaggedLineSegment) :
    TaggedLineParser * list N * list TaggedLineSegment :=
  let '(p, run, segments) := st in
  if detect_tag p then
    let segments := match run with [] => segments | _ => push_text p run segments end in
    let p := set_buffer (line_buffer p ++ [ch]) p in
    if decide (ch = nl) then
      let '(p, segments) := finish_line p segments in (p, [], segments)
    else
      let slug := trim_start (line_buffer p) in
      if bool_decide (slug = []) || is_tag_prefix p slug then (p, [], segments)
      else
        let buffered := line_buffer p in
        let p := set_detect false (set_buffer [] p) in
        (p, [], push_text p buffered segments)
  else
    let run := run ++ [ch] in
    if decide (ch = nl) then (set_detect true p, [], push_text p run segments)
    else (p, run, segments).

(** [parse]. *)
Definition flush_run (st : TaggedLineParser * list N * list TaggedLineSegment) :
    TaggedLineParser * list TaggedLineSegment :=
  let '(p, run, segments) := st in
  (p, match run with [] => segments | _ => push_text p run segments end).
Definition parse (delta : str) (p : TaggedLineParser) :
    TaggedLineParser * list TaggedLineSegment :=
  flush_run (foldl (λ st ch, parse_char ch st) (p, [], []) delta).

(** [finish]. *)
Definition tagged_finish (p : TaggedLineParser) : TaggedLineParser * list TaggedLineSegment :=
  let '(p, segments) :=
    match line_buffer p with
    | [] => (p, [])
    | buffered => end_of_line buffered (set_buffer [] p) []
    end in
  let segments := match active_tag p with
                  | Some tag => push_segment segments (TagEnd tag)
                  | None => segments
                  end in
  (set_detect true (set_tag None p), segments).

(** ** Joining segments *)

Definition coalesce (segments : list TaggedLineSegment) : list TaggedLineSegment :=
  foldl push_segment [] segments.

Lemma last_push_snoc {A} (l : list A) x : last (l ++ [x]) = Some x.
Proof. apply last_snoc. Qed.

Lemma push_normal_app base a b :
  push_segment (push_segment base (NormalSeg a)) (NormalSeg b) = push_segment base (NormalSeg (a ++ b)).
Proof.
  destruct b as [|y b]; [by rewrite app_nil_r|]. destruct a as [|x a]; [done|]. simpl.
  destruct (last base) as [[]|]; by rewrite last_snoc, ?removelast_snoc, <-?app_assoc.
Qed.

Lemma push_delta_app base tag a b :
  push_segment (push_segment base (TagDelta tag a)) (TagDelta tag b) =
  push_segment base (TagDelta tag (a ++ b)).
Proof.
  destruct b as [|y b]; [by rewrite app_nil_r|]. destruct a as [|x a]; [done|]. simpl.
  destruct (last base) as [[| |tag' ex|]|]; try case_decide; subst;
    rewrite last_snoc, ?decide_True, ?removelast_snoc, <-?app_assoc by done; done.
Qed.

Lemma push_text_app p a b segments :
  push_text p b (push_text p a segments) = push_text p (a ++ b) segments.
Proof. unfold push_text. destruct (active_tag p); [apply push_delta_app|apply push_normal_app]. Qed.

Lemma push_text_nil p segments : push_text p [] segments = segments.
Proof. unfold push_text. by destruct (active_tag p). Qed.

(** Pushing onto a list, then onto what was there before, in one go. *)
Lemma push_segment_assoc base segments x :
  foldl push_segment base (push_segment segments x) = push_segment (foldl push_segment base segments) x.
Proof.
  destruct segments as [|y l _] using rev_ind.
  { destruct x as [[]| |? []|]; done. }
  rewrite foldl_snoc.
  destruct x as [[|c b]|tag|tag [|c b]|tag]; try (simpl; by rewrite ?foldl_snoc).
  - cbn [push_segment]. rewrite last_snoc. destruct y as [a|t|t a|t];
      rewrite ?removelast_snoc, !foldl_snoc; try done. by rewrite <-push_normal_app.
  - cbn [push_segment]. rewrite last_snoc. destruct y as [a|t|t a|t];
      rewrite ?foldl_snoc; try done.
    case_decide as Ht; [subst t|by rewrite !foldl_snoc].
    rewrite removelast_snoc, foldl_snoc. by rewrite <-push_delta_app.
Qed.

Lemma foldl_push_assoc base l k :
  foldl push_segment base (foldl push_segment l k) = foldl push_segment (foldl push_segment base l) k.
Proof.
  revert l. induction k as [|x k IH]; intros l; simpl; [done|].
  by rewrite IH, push_segment_assoc.
Qed.

Lemma coalesce_app a b : coalesce (a ++ b) = foldl push_segment (coalesce a) b.
Proof. unfold coalesce. by rewrite foldl_app. Qed.

Lemma coalesce_idemp a b : coalesce (coalesce a ++ b) = coalesce (a ++ b).
Proof.
  rewrite !coalesce_app. f_equal. unfold coalesce. by rewrite foldl_push_assoc.
Qed.

(** ** The run is unobservable *)

(** The loop body, with the run already pushed. *)
Definition view_char (st : TaggedLineParser * list TaggedLineSegment) (ch : char) :
    TaggedLineParser * list TaggedLineSegment :=
  let '(p, segments) := st in
  if detect_tag p then
    let p := set_buffer (line_buffer p ++ [ch]) p in
    if decide (ch = nl) then finish_line p segments
    else
      let slug := trim_start (line_buffer p) in
      if bool_decide (slug = []) || is_tag_prefix p slug then (p, segments)
      else (set_detect false (set_buffer [] p), push_text p (line_buffer p) segments)
  else ((if decide (ch = nl) then set_detect true p else p), push_text p [ch] segments).

Lemma flush_parse_char ch st : flush_run (parse_char ch st) = view_char (flush_run st) ch.
Proof.
  destruct st as [[p run] segments]. unfold parse_char, view_char, flush_run at 2.
  destruct (detect_tag p).
  - case_decide.
    + by destruct (finish_line _ _).
    + by destruct (_ || _).
  - assert (Hr : ∀ q, active_tag q = active_tag p →
      push_text q (run ++ [ch]) segments =
      push_text p [ch] (match run with [] => segments | _ => push_text p run segments end)).
    { intros q Hq. transitivity (push_text p (run ++ [ch]) segments).
      - unfold push_text. by rewrite Hq.
      - destruct run; [done|]. by rewrite push_text_app. }
    case_decide; simpl; [by rewrite Hr|]. destruct (run ++ [ch]) eqn:E.
    + by apply app_nil in E as [_ ?].
    + by rewrite (Hr p).
Qed.

Lemma parse_view delta p : parse delta p = foldl view_char (p, []) delta.
Proof.
  unfold parse. transitivity (foldl view_char (flush_run (p, [], [])) delta); [|done].
  generalize (p, [] : list N, [] : list TaggedLineSegment). intros st. revert st.
  induction delta as [|c delta IH]; intros st; simpl; [done|]. by rewrite IH, flush_parse_char.
Qed.

(** ** Earlier segments do not matter *)

Definition on_top (base : list TaggedLineSegment)
    (st : TaggedLineParser * list TaggedLineSegment) : TaggedLineParser * list TaggedLineSegment :=
  (st.1, foldl push_segment base st.2).

Lemma push_text_on_top base p text segments :
  push_text p text (foldl push_segment base segments) =
  foldl push_segment base (push_text p text segments).
Proof. unfold push_text. by rewrite push_segment_assoc. Qed.

Lemma end_of_line_on_top base line p segments :
  end_of_line line p (foldl push_segment base segments) = on_top base (end_of_line line p segments).
Proof.
  unfold end_of_line. destruct (opens p _) as [t|]; [|destruct (closes p _) as [t|]];
    unfold on_top; simpl; by rewrite ?foldl_snoc, ?push_text_on_top.
Qed.

Lemma finish_line_on_top base p segments :
  finish_line p (foldl push_segment base segments) = on_top base (finish_line p segments).
Proof.
  unfold finish_line. rewrite end_of_line_on_top. by destruct (end_of_line _ _ _).
Qed.

Lemma view_char_on_top base st ch : view_char (on_top base st) ch = on_top base (view_char st ch).
Proof.
  destruct st as [p segments]. unfold view_char, on_top at 1. cbn [fst snd].
  destruct (detect_tag p); [case_decide|].
  - apply finish_line_on_top.
  - destruct (_ || _); [done|]. by rewrite push_text_on_top.
  - by rewrite push_text_on_top.
Qed.

Lemma view_on_top base st text :
  foldl view_char (on_top base st) text = on_top base (foldl view_char st text).
Proof.
  revert st. induction text as [|c text IH]; intros st; cbn [foldl]; [done|].
  by rewrite view_char_on_top, IH.
Qed.

(** Parsing a text in two parts: the same state, and the segments joined. *)
Lemma parse_app a b p :
  let '(p1, o1) := parse a p in
  let '(p2, o2) := parse b p1 in
  parse (a ++ b) p = (p2, foldl push_segment o1 o2).
Proof.
  rewrite !parse_view, foldl_app. destruct (foldl view_char (p, []) a) as [p1 o1].
  rewrite parse_view. change (p1, o1) with (on_top o1 (p1, [])). rewrite view_on_top.
  by destruct (foldl view_char (p1, []) b).
Qed.

(** Segments come out joined. *)
Lemma parse_coalesced a p : coalesce (parse a p).2 = (parse a p).2.
Proof.
  rewrite parse_view. pose proof (view_on_top [] (p, []) a) as H.
  change (on_top [] (p, [])) with (p, [] : list TaggedLineSegment) in H.
  apply (f_equal snd) in H. symmetry. exact H.
Qed.

(** ** Line by line *)

(** [str::split_inclusive] at line feeds. *)
Fixpoint split_inclusive (s : str) : list (list N) :=
  match s with
  | [] => []
  | c :: s' =>
      if decide (c = nl) then [c] :: split_inclusive s'
      else match split_inclusive s' with
           | [] => [[c]]
           | w :: ws => (c :: w) :: ws
           end
  end.

Lemma split_inclusive_line l rest :
  nl ∉ l → split_inclusive (l ++ nl :: rest) = (l ++ [nl]) :: split_inclusive rest.
Proof.
  induction l as [|c l IH]; intros Hn; cbn [app split_inclusive].
  - by rewrite decide_True.
  - rewrite decide_False by set_solver. by rewrite IH by set_solver.
Qed.

Lemma split_inclusive_last l : nl ∉ l → l ≠ [] → split_inclusive l = [l].
Proof.
  induction l as [|c l IH]; intros Hn Hl; [done|]. cbn [split_inclusive].
  rewrite decide_False by set_solver. destruct l as [|d l]; [done|].
  by rewrite IH by set_solver.
Qed.

(** What the parser is meant to compute: each line is a tag or text. *)
Definition by_lines (p : TaggedLineParser) (text : str) :
    TaggedLineParser * list TaggedLineSegment :=
  foldl (λ st line, end_of_line line st.1 st.2) (p, []) (split_inclusive text).
Definition by_lines_closed (ss : list TagSpec) (text : str) : list TaggedLineSegment :=
  let '(p, segments) := by_lines (new_tagged ss) text in
  match active_tag p with Some tag => segments ++ [TagEnd tag] | None => segments end.

(** *** A line that is certainly no tag *)

Lemma trim_start_app u v : trim_start u ≠ [] → trim_start (u ++ v) = trim_start u ++ v.
Proof.
  induction u as [|c u IH]; simpl; [done|]. destruct (is_whitespace c); [done|]. done.
Qed.

Lemma trim_end_prefix w v : trim_end w `prefix_of` trim_end (w ++ v).
Proof.
  induction v as [|c v IH] using rev_ind; [by rewrite app_nil_r|].
  rewrite app_assoc. destruct (is_whitespace c) eqn:E.
  - by rewrite trim_end_snoc_ws.
  - rewrite trim_end_snoc by done. etrans; [exact IH|].
    etrans; [|by exists [c]]. apply prefix_suffix_reverse. unfold trim_end.
    rewrite reverse_involutive. apply trim_start_suffix.
Qed.

(** The lines that a beginning [u] can become. *)
Definition hopeless (p : TaggedLineParser) (u : str) : Prop :=
  ∀ v, opens p (line_slug (u ++ v)) = None ∧ closes p (line_slug (u ++ v)) = None.

Lemma hopeless_app p u v : hopeless p u → hopeless p (u ++ v).
Proof. intros H w. rewrite <-app_assoc. apply H. Qed.

Lemma line_slug_prefix u v :
  nl ∉ u → trim_start u ≠ [] → trim_end (trim_start u) `prefix_of` line_slug (u ++ v).
Proof.
  intros Hn Hu. unfold line_slug. destruct (strip_suffix [nl] (u ++ v)) as [x|] eqn:E; simpl.
  - apply strip_suffix_Some in E. destruct v as [|c v _] using rev_ind.
    + rewrite app_nil_r in E. subst. set_solver.
    + rewrite app_assoc in E. apply app_inj_2 in E as [<- _]; [|done].
      rewrite trim_start_app by done. apply trim_end_prefix.
  - rewrite trim_start_app by done. apply trim_end_prefix.
Qed.

Lemma not_tag_prefix_hopeless p u :
  nl ∉ u → trim_start u ≠ [] → is_tag_prefix p (trim_start u) = false → hopeless p u.
Proof.
  intros Hn Hu Ht v. pose proof (line_slug_prefix u v Hn Hu) as [k Hk].
  assert (Hnot : ∀ s, s ∈ tspecs p → tag_open s ≠ line_slug (u ++ v) ∧ tag_close s ≠ line_slug (u ++ v)).
  { intros s Hs. unfold is_tag_prefix in Ht.
    assert (Hs' : starts_with (trim_end (trim_start u)) (tag_open s)
               || starts_with (trim_end (trim_start u)) (tag_close s) = false).
    { apply not_true_iff_false. intros Hc. apply not_true_iff_false in Ht. apply Ht.
      apply existsb_exists. exists s. split; [by apply list_elem_of_In|done]. }
    apply orb_false_iff in Hs' as [H1 H2].
    split; intros Heq; [apply not_true_iff_false in H1; apply H1|apply not_true_iff_false in H2; apply H2];
      apply starts_with_true; exists k; congruence. }
  unfold opens, closes, match_open, match_close.
  assert (Hfind : ∀ f : TagSpec → list N, (∀ s, s ∈ tspecs p → f s ≠ line_slug (u ++ v)) →
    List.find (λ s, bool_decide (f s = line_slug (u ++ v))) (tspecs p) = None).
  { intros f Hf. destruct (List.find _ _) as [s|] eqn:E; [|done].
    apply List.find_some in E as [Hin Hs]. apply bool_decide_eq_true_1 in Hs.
    by destruct (Hf s); [apply list_elem_of_In|]. }
  by rewrite !Hfind by (intros s Hs; by apply Hnot).
Qed.

(** *** The characters of a line *)

Definition fresh (p : TaggedLineParser) : Prop := detect_tag p = true ∧ line_buffer p = [].

Lemma view_partial p segments l :
  fresh p → nl ∉ l →
  let r := foldl view_char (p, segments) l in
  r = (set_buffer l p, segments) ∨
  (r = (set_detect false p, push_text p l segments) ∧ l ≠ [] ∧ hopeless p l).
Proof.
  intros [Hd Hb]. induction l as [|c l IH] using rev_ind; intros Hn; simpl.
  { left. destruct p. simpl in *. by subst. }
  rewrite foldl_snoc. destruct (IH ltac:(set_solver)) as [->|(-> & Hl & Hh)].
  - unfold view_char. cbn [detect_tag set_buffer line_buffer tspecs active_tag]. rewrite Hd.
    rewrite decide_False by set_solver.
    destruct (bool_decide (trim_start (l ++ [c]) = [])) eqn:E1; [by left|].
    apply bool_decide_eq_false_1 in E1.
    destruct (is_tag_prefix _ _) eqn:E2; [by left|]. right. split_and!.
    + simpl. unfold set_detect. simpl. by rewrite Hb.
    + by destruct l.
    + by apply not_tag_prefix_hopeless.
  - right. unfold view_char. cbn [detect_tag set_detect]. rewrite decide_False by set_solver.
    split_and!; [|by destruct l|by apply hopeless_app].
    rewrite <-push_text_app. done.
Qed.

Lemma end_of_line_hopeless p u v segments :
  hopeless p u → end_of_line (u ++ v) p segments = (p, push_text p (u ++ v) segments).
Proof. intros H. unfold end_of_line. by destruct (H v) as [-> ->]. Qed.

Lemma end_of_line_fresh line p segments : fresh p → fresh (end_of_line line p segments).1.
Proof.
  intros [? ?]. unfold end_of_line. destruct (opens p _); [done|]. by destruct (closes p _).
Qed.

Lemma view_line p segments l :
  fresh p → nl ∉ l →
  foldl view_char (p, segments) (l ++ [nl]) = end_of_line (l ++ [nl]) p segments.
Proof.
  intros Hf Hn. pose proof Hf as [Hd Hb]. rewrite foldl_snoc.
  destruct (view_partial p segments l Hf Hn) as [->|(-> & Hl & Hh)].
  - unfold view_char. cbn [detect_tag set_buffer line_buffer tspecs active_tag]. rewrite Hd.
    rewrite decide_True by done. unfold finish_line. cbn [line_buffer].
    replace (set_buffer [] _) with p; [|destruct p; simpl in *; by subst].
    pose proof (end_of_line_fresh (l ++ [nl]) p segments Hf) as [Hd' _].
    destruct (end_of_line _ _ _) as [p' o]. simpl in *. f_equal. destruct p'. simpl in *. by subst.
  - rewrite end_of_line_hopeless by done. unfold view_char. cbn [detect_tag set_detect].
    rewrite decide_True by done. f_equal; [destruct p; simpl in *; by subst|].
    by rewrite <-push_text_app.
Qed.

(** *** A whole text *)

Lemma first_line s : nl ∉ s ∨ ∃ l rest, s = l ++ nl :: rest ∧ nl ∉ l.
Proof.
  destruct (decide (nl ∈ s)) as [H|]; [|by left]. right.
  apply list_elem_of_split_l in H as (l & rest & -> & Hn). by exists l, rest.
Qed.

(** The characters of a text, then the end, are its lines, then the end. *)
Lemma stream_by_lines p text segments :
  fresh p →
  let '(p1, o1) := foldl view_char (p, segments) text in
  let '(p2, o2) := tagged_finish p1 in
  let '(p3, o3) := foldl (λ st line, end_of_line line st.1 st.2) (p, segments) (split_inclusive text) in
  foldl push_segment o1 o2 =
    match active_tag p3 with Some tag => o3 ++ [TagEnd tag] | None => o3 end.
Proof.
  remember (length text) as n eqn:Hlen. revert p text segments Hlen.
  induction n as [n IH] using lt_wf_ind. intros p text segments Hlen Hf.
  destruct (first_line text) as [Hn|(l & rest & -> & Hn)].
  - destruct text as [|c text]; [|remember (c :: text) as l eqn:Hl].
    { simpl. destruct Hf as [? Hb]. unfold tagged_finish. rewrite Hb. by destruct (active_tag p). }
    rewrite (split_inclusive_last l) by (done || by subst). cbn [foldl fst snd].
    pose proof Hf as [Hd Hb].
    destruct (view_partial p segments l Hf Hn) as [->|(-> & Hl' & Hh)].
    + unfold tagged_finish. cbn [line_buffer set_buffer]. destruct l as [|d l]; [done|].
      replace (set_buffer [] _) with p; [|destruct p; simpl in *; by subst].
      pose proof (end_of_line_on_top segments (d :: l) p []) as He. cbn [foldl] in He. rewrite He.
      destruct (end_of_line (d :: l) p []) as [p' o]. unfold on_top. cbn [fst snd].
      destruct (active_tag p') as [tag|]; [by rewrite push_segment_assoc|done].
    + rewrite <-(app_nil_r l), end_of_line_hopeless, app_nil_r by done.
      unfold tagged_finish. cbn [line_buffer set_detect active_tag]. rewrite Hb.
      cbn [active_tag set_detect]. by destruct (active_tag p).
  - rewrite split_inclusive_line by done. cbn [foldl fst snd].
    replace (l ++ nl :: rest) with ((l ++ [nl]) ++ rest) by by rewrite <-app_assoc.
    rewrite foldl_app, view_line by done.
    pose proof (end_of_line_fresh (l ++ [nl]) p segments Hf) as Hf'.
    destruct (end_of_line (l ++ [nl]) p segments) as [p' o]. cbn [fst snd] in *.
    eapply (IH (length rest)); [|done|done]. rewrite length_app in Hlen. simpl in Hlen. lia.
Qed.

End parser.
Arguments TagSpec T : clear implicits.
Arguments TaggedLineSegment T : clear implicits.
Arguments TaggedLineParser T : clear implicits.

End TaggedLine.
