(* ===== verification/AssistantText.v ===== *)
(** * Assistant text (utils/stream-parser/src/proposed_plan.rs, assistant_text.rs)

    [ProposedPlanParser] is the tagged line parser with one tag; [AssistantTextStreamParser]
    sends streamed text through the citation parser and, in plan mode, what that shows
    through the plan parser. *)

From stdpp Require Import prelude strings.
From S2P Require Import Prelude RustStr StreamText InlineHiddenTag Citation TaggedLine.
Import StreamText Citation TaggedLine.

Module AssistantText.

(** ** Proposed plans *)

Definition OPEN_TAG : str := lit "<proposed_plan>".
Definition CLOSE_TAG : str := lit "</proposed_plan>".

Inductive PlanTag : Type := ProposedPlan.
#[global] Instance PlanTag_eq_dec : EqDecision PlanTag.
Proof. solve_decision. Defined.

Inductive ProposedPlanSegment : Type :=
| Normal (text : list N)
| ProposedPlanStart
| ProposedPlanDelta (text : list N)
| ProposedPlanEnd.

Record ProposedPlanParser : Type := mkPlan { plan_lines : TaggedLineParser PlanTag }.

Definition plan_specs : list (TagSpec PlanTag) := [mkTagSpec OPEN_TAG CLOSE_TAG ProposedPlan].
Definition new_plan : ProposedPlanParser := mkPlan (new_tagged plan_specs).

Definition map_segment (s : TaggedLineSegment PlanTag) : ProposedPlanSegment :=
  match s with
  | NormalSeg text => Normal text
  | TagStart ProposedPlan => ProposedPlanStart
  | TagDelta ProposedPlan text => ProposedPlanDelta text
  | TagEnd ProposedPlan => ProposedPlanEnd
  end.
Definition segment_text (s : ProposedPlanSegment) : list N :=
  match s with Normal text => text | _ => [] end.

(** [map_segments]. *)
Definition map_segments (segments : list (TaggedLineSegment PlanTag)) :
    StreamTextChunk ProposedPlanSegment :=
  foldl (λ out segment,
    let mapped := map_segment segment in
    mkStreamChunk (visible_text out ++ segment_text mapped) (extracted out ++ [mapped]))
    chunk_default segments.

#[global] Instance plan_stream : StreamTextParser ProposedPlanParser ProposedPlanSegment := {
  push_str s p := let '(q, segments) := parse s (plan_lines p) in (mkPlan q, map_segments segments);
  finish p := let '(q, segments) := tagged_finish (plan_lines p) in (mkPlan q, map_segments segments);
}.

(** [strip_proposed_plan_blocks] and [extract_proposed_plan_text]. *)
Definition strip_proposed_plan_blocks (text : str) : list N :=
  let '(p, out) := push_str text new_plan in visible_text out ++ visible_text (finish p).2.

Definition plan_step (st : list N * bool) (s : ProposedPlanSegment) : list N * bool :=
  match s with
  | ProposedPlanStart => ([], true)
  | ProposedPlanDelta delta => (st.1 ++ delta, st.2)
  | ProposedPlanEnd | Normal _ => st
  end.
Definition extract_proposed_plan_text (text : str) : option (list N) :=
  let '(p, out) := push_str text new_plan in
  let '(plan_text, saw_plan_block) :=
    foldl plan_step ([], false) (extracted out ++ extracted (finish p).2) in
  if saw_plan_block then Some plan_text else None.

(** ** Assistant text *)

Record AssistantTextChunk : Type := mkAssistantChunk {
  a_visible_text : list N;
  citations : list (list N);
  plan_segments : list ProposedPlanSegment;
}.

Record AssistantTextStreamParser : Type := mkAssistant {
  plan_mode : bool;
  a_citations : CitationStreamParser;
  a_plan : ProposedPlanParser;
}.

Definition new_assistant (plan_mode : bool) : AssistantTextStreamParser :=
  mkAssistant plan_mode new_citation new_plan.

(** [parse_visible_text]. *)
Definition parse_visible_text (visible : str) (p : AssistantTextStreamParser) :
    AssistantTextStreamParser * AssistantTextChunk :=
  if plan_mode p then
    let '(plan, chunk) := push_str visible (a_plan p) in
    (mkAssistant (plan_mode p) (a_citations p) plan,
     mkAssistantChunk (visible_text chunk) [] (extracted chunk))
  else (p, mkAssistantChunk visible [] []).

Definition set_citations (cs : list (list N)) (c : AssistantTextChunk) : AssistantTextChunk :=
  mkAssistantChunk (a_visible_text c) cs (plan_segments c).

(** [push_str]. *)
Definition assistant_push_str (chunk : str) (p : AssistantTextStreamParser) :
    AssistantTextStreamParser * AssistantTextChunk :=
  let '(cit, citation_chunk) := push_str chunk (a_citations p) in
  let '(p, out) := parse_visible_text (visible_text citation_chunk)
                     (mkAssistant (plan_mode p) cit (a_plan p)) in
  (p, set_citations (extracted citation_chunk) out).

(** [finish]. *)
Definition assistant_finish (p : AssistantTextStreamParser) :
    AssistantTextStreamParser * AssistantTextChunk :=
  let '(cit, citation_chunk) := finish (a_citations p) in
  let '(p, out) := parse_visible_text (visible_text citation_chunk)
                     (mkAssistant (plan_mode p) cit (a_plan p)) in
  let '(p, out) :=
    if plan_mode p then
      let '(plan, tail) := finish (a_plan p) in
      (mkAssistant (plan_mode p) (a_citations p) plan,
       if chunk_is_empty tail then out
       else mkAssistantChunk (a_visible_text out ++ visible_text tail) (citations out)
              (plan_segments out ++ extracted tail))
    else (p, out) in
  (p, set_citations (extracted citation_chunk) out).

(** A whole message. *)
Definition assistant_app (c d : AssistantTextChunk) : AssistantTextChunk :=
  mkAssistantChunk (a_visible_text c ++ a_visible_text d) (citations c ++ citations d)
    (plan_segments c ++ plan_segments d).
Fixpoint assistant_pieces (pieces : list (list N)) (p : AssistantTextStreamParser) :
    AssistantTextStreamParser * AssistantTextChunk :=
  match pieces with
  | [] => (p, mkAssistantChunk [] [] [])
  | s :: pieces' =>
      let '(p1, o1) := assistant_push_str s p in
      let '(p2, o2) := assistant_pieces pieces' p1 in
      (p2, assistant_app o1 o2)
  end.
Definition assistant_message (plan_mode : bool) (pieces : list (list N)) : AssistantTextChunk :=
  let '(p, o) := assistant_pieces pieces (new_assistant plan_mode) in
  assistant_app o (assistant_finish p).2.

(** ** The plan parser as a streaming parser *)

Definition normal_text (segments : list (TaggedLineSegment PlanTag)) : list N :=
  concat (segment_text ∘ map_segment <$> segments).

Lemma map_segments_eq segments :
  map_segments segments = mkStreamChunk (normal_text segments) (map_segment <$> segments).
Proof.
  unfold map_segments.
  assert (H : ∀ c, foldl (λ out segment,
      let mapped := map_segment segment in
      mkStreamChunk (visible_text out ++ segment_text mapped) (extracted out ++ [mapped])) c segments
    = mkStreamChunk (visible_text c ++ normal_text segments)
        (extracted c ++ (map_segment <$> segments))).
  { induction segments as [|s segments IH]; intros [v e]; simpl; [by rewrite !app_nil_r|].
    rewrite IH. simpl. by rewrite <-!app_assoc. }
  apply (H chunk_default).
Qed.

Lemma normal_text_app a b : normal_text (a ++ b) = normal_text a ++ normal_text b.
Proof. unfold normal_text. by rewrite fmap_app, concat_app. Qed.

Lemma normal_text_push l x : normal_text (push_segment l x) = normal_text l ++ normal_text [x].
Proof.
  destruct l as [|y l _] using rev_ind.
  { destruct x as [[]|[]|[] []|[]]; done. }
  destruct x as [[|c b]|[]|[] [|c b]|[]]; cbn [push_segment]; rewrite ?last_snoc;
    try (by rewrite ?normal_text_app, ?app_nil_r).
  - destruct y as [a|[]|[] a|[]]; try (by rewrite !normal_text_app).
    rewrite removelast_snoc, !normal_text_app, <-app_assoc. f_equal.
    unfold normal_text. simpl. by rewrite !app_nil_r.
  - destruct y as [a|[]|[] a|[]]; try (by rewrite !normal_text_app).
    rewrite decide_True, removelast_snoc, !normal_text_app by done.
    by rewrite <-app_assoc.
Qed.

Lemma normal_text_foldl l k : normal_text (foldl push_segment l k) = normal_text l ++ normal_text k.
Proof.
  revert l. induction k as [|x k IH]; intros l; cbn [foldl]; [by rewrite app_nil_r|].
  rewrite IH, normal_text_push, <-app_assoc, <-normal_text_app. done.
Qed.

(** Plan segments back to segments, to compare them up to joining. *)
Definition unmap_segment (s : ProposedPlanSegment) : TaggedLineSegment PlanTag :=
  match s with
  | Normal text => NormalSeg text
  | ProposedPlanStart => TagStart ProposedPlan
  | ProposedPlanDelta text => TagDelta ProposedPlan text
  | ProposedPlanEnd => TagEnd ProposedPlan
  end.
Definition joined (segments : list ProposedPlanSegment) : list (TaggedLineSegment PlanTag) :=
  coalesce (unmap_segment <$> segments).

Lemma unmap_map (segments : list (TaggedLineSegment PlanTag)) : unmap_segment <$> (map_segment <$> segments) = segments.
Proof.
  rewrite <-list_fmap_compose. rewrite <-(list_fmap_id segments) at 2. apply list_fmap_ext.
  intros _ [|[]|[]|[]] _; done.
Qed.

Lemma joined_app a b : joined (a ++ b) = foldl push_segment (joined a) (unmap_segment <$> b).
Proof. unfold joined. by rewrite fmap_app, coalesce_app. Qed.

Lemma joined_foldl l b : foldl push_segment l (joined b) = foldl push_segment l (unmap_segment <$> b).
Proof. unfold joined, coalesce. by rewrite foldl_push_assoc. Qed.

#[global] Instance plan_laws : StreamLaws ProposedPlanParser ProposedPlanSegment.
Proof.
  refine {| stream_ok _ := True; same_payloads a b := joined a = joined b |}; simpl.
  - split; [done|by intros ???|intros ???; congruence].
  - intros a a' Ha b b' Hb. rewrite !joined_app, Ha, <-!joined_foldl. by rewrite Hb.
  - done.
  - by intros [p] ?.
  - intros a b [p] _. pose proof (parse_app a b p) as H. simpl.
    destruct (parse a p) as [p1 o1]. simpl. destruct (parse b p1) as [p2 o2].
    rewrite H, !map_segments_eq. simpl.
    split_and!; [done|by rewrite normal_text_foldl|].
    rewrite joined_app. unfold joined. rewrite !unmap_map. unfold coalesce.
    by rewrite foldl_push_assoc.
Defined.

Lemma finish_joined p :
  joined (extracted (finish (mkPlan p)).2) = joined (map_segment <$> (tagged_finish p).2).
Proof. simpl. destruct (tagged_finish p) as [q o]. by rewrite map_segments_eq. Qed.

(** The plan parser on a whole text. *)
Lemma plan_whole text :
  let r := run_stream [text] new_plan in
  joined (extracted r) = by_lines_closed plan_specs text ∧
  visible_text r = normal_text (by_lines_closed plan_specs text).
Proof.
  unfold run_stream. simpl. pose proof (stream_by_lines (new_tagged plan_specs) text []) as H.
  rewrite <-parse_view in H. unfold by_lines_closed, by_lines.
  pose proof (parse_coalesced text (new_tagged plan_specs)) as Hc.
  destruct (parse text (new_tagged plan_specs)) as [p1 o1]. simpl in *.
  destruct (tagged_finish p1) as [p2 o2]. rewrite !map_segments_eq. unfold chunk_app. simpl.
  rewrite !app_nil_r.
  destruct (foldl _ _ (split_inclusive text)) as [p3 o3]. rewrite <-H by done. split.
  - rewrite joined_app. unfold joined. rewrite !unmap_map. by rewrite Hc.
  - by rewrite normal_text_foldl.
Qed.

(** ** The two parsers in sequence *)

(** The pieces that the citation parser shows. *)
Fixpoint shown_pieces (pieces : list (list N)) (c : CitationStreamParser) : list (list N) :=
  match pieces with
  | [] => []
  | s :: pieces' =>
      let '(c1, o1) := push_str s c in visible_text o1 :: shown_pieces pieces' c1
  end.

Lemma shown_pieces_concat pieces c :
  concat (shown_pieces pieces c) = visible_text (push_pieces pieces c).2.
Proof.
  revert c. induction pieces as [|s pieces IH]; intros c; [done|].
  cbn [shown_pieces push_pieces]. destruct (push_str s c) as [c1 o]. simpl. rewrite IH.
  by destruct (push_pieces pieces c1).
Qed.

Lemma assistant_pieces_eq mode pieces c p :
  assistant_pieces pieces (mkAssistant mode c p) =
    (mkAssistant mode (push_pieces pieces c).1
       (if mode then (push_pieces (shown_pieces pieces c) p).1 else p),
     mkAssistantChunk
       (if mode then visible_text (push_pieces (shown_pieces pieces c) p).2
        else visible_text (push_pieces pieces c).2)
       (extracted (push_pieces pieces c).2)
       (if mode then extracted (push_pieces (shown_pieces pieces c) p).2 else [])).
Proof.
  revert c p. induction pieces as [|s pieces IH]; intros c p; [by destruct mode|].
  cbn [assistant_pieces push_pieces shown_pieces]. unfold assistant_push_str.
  cbn [a_citations plan_mode a_plan]. destruct (push_str s c) as [c1 o1].
  unfold parse_visible_text. cbn [a_citations plan_mode a_plan].
  destruct mode; cbn [push_pieces].
  - destruct (push_str (visible_text o1) p) as [p1 q1]. rewrite IH.
    destruct (push_pieces pieces c1) as [c2 o2].
    by destruct (push_pieces (shown_pieces pieces c1) p1) as [p2 q2].
  - rewrite IH. by destruct (push_pieces pieces c1) as [c2 o2].
Qed.

Lemma push_pieces_snoc (pieces : list (list N)) s (p : ProposedPlanParser) :
  push_pieces (pieces ++ [s]) p =
    let '(p1, o1) := push_pieces pieces p in
    let '(p2, o2) := push_str s p1 in (p2, chunk_app o1 o2).
Proof.
  revert p. induction pieces as [|w pieces IH]; intros p; cbn [push_pieces app].
  - destruct (push_str s p) as [p1 o1]. by rewrite chunk_app_default_l, chunk_app_default_r.
  - destruct (push_str w p) as [p1 o1]. rewrite IH. destruct (push_pieces pieces p1) as [p2 o2].
    destruct (push_str s p2) as [p3 o3]. by rewrite chunk_app_assoc.
Qed.

(** A message in terms of the two streams. *)
Lemma assistant_message_eq mode pieces :
  let c := run_stream pieces new_citation in
  let last_shown := visible_text (finish (push_pieces pieces new_citation).1).2 in
  let plan := run_stream (shown_pieces pieces new_citation ++ [last_shown]) new_plan in
  assistant_message mode pieces =
    mkAssistantChunk (if mode then visible_text plan else visible_text c) (extracted c)
      (if mode then extracted plan else []).
Proof.
  unfold assistant_message, new_assistant. rewrite assistant_pieces_eq.
  unfold run_stream. rewrite push_pieces_snoc.
  destruct (push_pieces pieces new_citation) as [c o]. cbn [fst snd].
  unfold assistant_finish. cbn [a_citations plan_mode a_plan].
  destruct (finish c) as [c' oc]. cbn [fst snd].
  unfold parse_visible_text. cbn [a_citations plan_mode a_plan].
  destruct mode; cbn [plan_mode]; [|by unfold assistant_app, chunk_app].
  destruct (push_pieces (shown_pieces _ _) new_plan) as [p1 o1]. cbn [fst snd].
  destruct (push_str (visible_text oc) p1) as [p2 o2]. cbn [a_plan].
  destruct (finish p2) as [p3 o3]. cbn [fst snd].
  unfold assistant_app, set_citations, chunk_app. cbn.
  destruct o3 as [[|] [|]]; cbn; by rewrite ?app_nil_r, ?app_assoc.
Qed.

(** The plan text and the text without plans, from the lines. *)
Lemma plan_step_empty (st : list N * bool) : (st.1 ++ [], st.2) = st.
Proof. destruct st. by rewrite app_nil_r. Qed.

Lemma plan_step_push st l x :
  foldl plan_step st (map_segment <$> push_segment l x) =
  foldl plan_step st (map_segment <$> (l ++ [x])).
Proof.
  destruct l as [|y l _] using rev_ind.
  { destruct x as [[]|[]|[] []|[]]; simpl; by rewrite ?plan_step_empty. }
  destruct x as [[|c b]|[]|[] [|c b]|[]]; cbn [push_segment]; rewrite ?last_snoc;
    try (rewrite !fmap_app, !foldl_app; simpl; by rewrite ?plan_step_empty).
  - destruct y as [a|[]|[] a|[]]; try done.
    by rewrite removelast_snoc, !fmap_app, !foldl_app.
  - destruct y as [a|[]|[] a|[]]; try done.
    rewrite decide_True, removelast_snoc, !fmap_app, !foldl_app by done. simpl.
    by rewrite app_assoc.
Qed.

Lemma plan_step_foldl st l k :
  foldl plan_step st (map_segment <$> foldl push_segment l k) =
  foldl plan_step st (map_segment <$> (l ++ k)).
Proof.
  revert l. induction k as [|x k IH]; intros l; cbn [foldl]; [by rewrite app_nil_r|].
  rewrite IH, !fmap_app, !foldl_app, plan_step_push, fmap_app, foldl_app. done.
Qed.

Lemma plan_functions_by_lines text :
  let plan := by_lines_closed plan_specs text in
  strip_proposed_plan_blocks text = normal_text plan ∧
  extract_proposed_plan_text text =
    let '(plan_text, saw) := foldl plan_step ([], false) (map_segment <$> plan) in
    if saw : bool then Some plan_text else None.
Proof.
  unfold strip_proposed_plan_blocks, extract_proposed_plan_text.
  pose proof (stream_by_lines (new_tagged plan_specs) text []) as H.
  rewrite <-parse_view in H. unfold by_lines_closed, by_lines. simpl.
  destruct (parse text (new_tagged plan_specs)) as [p1 o1]. simpl.
  destruct (tagged_finish p1) as [p2 o2]. rewrite !map_segments_eq. simpl.
  destruct (foldl _ _ (split_inclusive text)) as [p3 o3]. rewrite <-H by done.
  by rewrite normal_text_foldl, plan_step_foldl, fmap_app.
Qed.

(** ** Properties *)

(** C35. Streaming a message is parsing it as a whole: however the text is cut, its citations
    are those of the grammar; outside plan mode the rest is shown; in plan mode the rest is
    read line by line, a line that is a plan tag opens or closes a plan and every other line
    is text of the plan or shown, and a plan that is still open is closed at the end. *)
Theorem assistant_message_meaning (mode : bool) (pieces : list (list N)) (vis : str)
    (cs : list (list N)) :
  marked_up (concat pieces) vis cs →
  let r := assistant_message mode pieces in
  let plan := by_lines_closed plan_specs vis in
  citations r = cs ∧
  if mode then joined (plan_segments r) = plan ∧ a_visible_text r = normal_text plan
  else a_visible_text r = vis ∧ plan_segments r = [].
Proof.
  intros Hm r. unfold r. rewrite assistant_message_eq.
  apply citation_grammar in Hm. rewrite Hm. cbn [citations a_visible_text plan_segments].
  split; [done|]. destruct mode; [|done].
  set (ps := shown_pieces _ _ ++ _).
  assert (Hps : concat ps = vis).
  { unfold ps. rewrite concat_app, shown_pieces_concat. unfold run_stream in Hm.
    destruct (push_pieces pieces new_citation) as [c o]. apply (f_equal visible_text) in Hm.
    simpl in *. by rewrite app_nil_r. }
  destruct (run_stream_concat ps new_plan) as [Hv He]; [exact I|]. rewrite Hps in Hv, He.
  destruct (plan_whole vis) as [Hj Hn]. split; [|by rewrite Hv].
  etrans; [exact He|done].
Qed.

(** A message in plan mode that arrives in three pieces. *)
Definition ex_pieces : list (list N) :=
  [lit "Intro" ++ [nl] ++ lit "<proposed";
   lit "_plan>" ++ [nl] ++ lit "- step <oai-mem-citation>doc</oai-mem-cita";
   lit "tion>" ++ [nl] ++ lit "</proposed_plan>" ++ [nl] ++ lit "Outro"].
Definition ex_before : str := lit "Intro" ++ [nl] ++ lit "<proposed_plan>" ++ [nl] ++ lit "- step ".
Definition ex_after : str := [nl] ++ lit "</proposed_plan>" ++ [nl] ++ lit "Outro".

Lemma assistant_message_meaning_witness :
  citations (assistant_message true ex_pieces) = [lit "doc"] ∧
  joined (plan_segments (assistant_message true ex_pieces)) =
    [NormalSeg (lit "Intro" ++ [nl]); TagStart ProposedPlan;
     TagDelta ProposedPlan (lit "- step " ++ [nl]); TagEnd ProposedPlan; NormalSeg (lit "Outro")].
Proof.
  destruct (assistant_message_meaning true ex_pieces (ex_before ++ ex_after) [lit "doc"])
    as (Hc & Hj & _).
  - replace (concat ex_pieces) with
      (ex_before ++ CITATION_OPEN ++ lit "doc" ++ CITATION_CLOSE ++ ex_after)
      by (vm_compute; reflexivity).
    apply marked_cited; [vm_compute; reflexivity..|]. apply marked_plain. vm_compute. reflexivity.
  - split; [exact Hc|]. rewrite Hj. vm_compute. reflexivity.
Defined.

End AssistantText.
