(* ===== verification/Utf8Stream.v ===== *)
(** * Streams of bytes (utils/stream-parser/src/utf8_stream.rs)

    [Utf8StreamParser] feeds a text parser from bytes that may be cut inside a character.
    The first part is [std::str::from_utf8] with its error positions and the encoding of
    characters; the second the parser, over any [StreamTextParser]. *)

From stdpp Require Import prelude strings.
From S2P Require Import Prelude RustStr StreamText InlineHiddenTag Citation.
Import StreamText Citation.

Module Utf8Stream.

(** ** UTF-8 *)

(** [Utf8Error]: how far the bytes are valid, and the length of the offending sequence, none
    when the bytes end too early. *)
Record Utf8Error : Type := mkUtf8Error { valid_up_to : nat; error_len : option nat }.

Definition in_range (lo hi b : N) : bool := ((lo <=? b) && (b <=? hi))%N.
Definition is_cont (b : N) : bool := in_range 128 191 b.

(** The second byte of a sequence of three, of four bytes. *)
Definition second_of_three (b0 b1 : N) : bool :=
  if (b0 =? 224)%N then in_range 160 191 b1
  else if (b0 =? 237)%N then in_range 128 159 b1
  else is_cont b1.
Definition second_of_four (b0 b1 : N) : bool :=
  if (b0 =? 240)%N then in_range 144 191 b1
  else if (b0 =? 244)%N then in_range 128 143 b1
  else is_cont b1.

(** Where the decoding of bytes stopped. *)
Inductive stop : Type := Done | Incomplete | Invalid (len : nat).

(** The characters decoded, the bytes left, and why. *)
Fixpoint scan (bs : list N) : list N * list N * stop :=
  let emit c r := (c :: r.1.1, r.1.2, r.2) in
  match bs with
  | [] => ([], [], Done)
  | b0 :: t0 =>
      if (b0 <? 128)%N then emit b0 (scan t0)
      else if in_range 194 223 b0 then
        match t0 with
        | [] => ([], bs, Incomplete)
        | b1 :: t1 =>
            if is_cont b1 then emit ((b0 - 192) * 64 + (b1 - 128))%N (scan t1)
            else ([], bs, Invalid 1)
        end
      else if in_range 224 239 b0 then
        match t0 with
        | [] => ([], bs, Incomplete)
        | b1 :: t1 =>
            if second_of_three b0 b1 then
              match t1 with
              | [] => ([], bs, Incomplete)
              | b2 :: t2 =>
                  if is_cont b2
                  then emit ((b0 - 224) * 4096 + (b1 - 128) * 64 + (b2 - 128))%N (scan t2)
                  else ([], bs, Invalid 2)
              end
            else ([], bs, Invalid 1)
        end
      else if in_range 240 244 b0 then
        match t0 with
        | [] => ([], bs, Incomplete)
        | b1 :: t1 =>
            if second_of_four b0 b1 then
              match t1 with
              | [] => ([], bs, Incomplete)
              | b2 :: t2 =>
                  if is_cont b2 then
                    match t2 with
                    | [] => ([], bs, Incomplete)
                    | b3 :: t3 =>
                        if is_cont b3
                        then emit ((b0 - 240) * 262144 + (b1 - 128) * 4096 + (b2 - 128) * 64 +
                                   (b3 - 128))%N (scan t3)
                        else ([], bs, Invalid 3)
                    end
                  else ([], bs, Invalid 2)
              end
            else ([], bs, Invalid 1)
        end
      else ([], bs, Invalid 1)
  end.

(** [std::str::from_utf8]. *)
Definition from_utf8 (bs : list N) : result Utf8Error (list N) :=
  match scan bs with
  | (text, _, Done) => Ok text
  | (_, rest, Incomplete) => Err (mkUtf8Error (length bs - length rest) None)
  | (_, rest, Invalid n) => Err (mkUtf8Error (length bs - length rest) (Some n))
  end.

(** The encoding of a character. *)
Definition encode_char (c : char) : list N :=
  (if c <? 128 then [c]
   else if c <? 2048 then [192 + c / 64; 128 + c mod 64]
   else if c <? 65536 then [224 + c / 4096; 128 + c / 64 mod 64; 128 + c mod 64]
   else [240 + c / 262144; 128 + c / 4096 mod 64; 128 + c / 64 mod 64; 128 + c mod 64])%N.
Definition encode (s : str) : list N := concat (encode_char <$> s).

(** Unicode scalar values. *)
Definition scalar (c : char) : Prop := (c < 55296 ∨ 57344 ≤ c < 1114112)%N.

(** *** Decoding in parts *)

(** Results of [scan], with a character put in front, and with bytes that follow. *)
Definition emit (c : char) (r : list N * list N * stop) : list N * list N * stop :=
  (c :: r.1.1, r.1.2, r.2).
Definition resume (r : list N * list N * stop) (cs : list N) : list N * list N * stop :=
  match r with
  | (text, rest, Invalid n) => (text, rest ++ cs, Invalid n)
  | (text, rest, _) =>
      (text ++ (scan (rest ++ cs)).1.1, (scan (rest ++ cs)).1.2, (scan (rest ++ cs)).2)
  end.

Lemma resume_emit c r cs : resume (emit c r) cs = emit c (resume r cs).
Proof. by destruct r as [[text rest] []]. Qed.

Lemma resume_incomplete bs cs : resume ([], bs, Incomplete) cs = scan (bs ++ cs).
Proof. simpl. by destruct (scan (bs ++ cs)) as [[? ?] ?]. Qed.

(** More bytes continue where the decoding stopped, unless it found an invalid sequence. *)
Lemma scan_app bs cs : scan (bs ++ cs) = resume (scan bs) cs.
Proof.
  remember (length bs) as n eqn:Hn. revert bs Hn. induction n as [n IH] using lt_wf_ind.
  intros bs ->. destruct bs as [|b0 t0].
  { simpl. by destruct (scan cs) as [[? ?] ?]. }
  assert (Hemit : ∀ c t, length t ≤ length t0 → emit c (scan (t ++ cs)) = resume (emit c (scan t)) cs).
  { intros c t Ht. rewrite resume_emit. f_equal. eapply IH; [|done]. simpl. lia. }
  assert (Hinc : scan (b0 :: t0) = ([], b0 :: t0, Incomplete) →
    scan ((b0 :: t0) ++ cs) = resume (scan (b0 :: t0)) cs).
  { intros ->. by rewrite resume_incomplete. }
  unfold emit in Hemit. cbn [scan app] in Hinc |- *.
  destruct (b0 <? 128)%N; [by apply Hemit|]. destruct (in_range 194 223 b0).
  { destruct t0 as [|b1 t1]; [by apply Hinc|]. cbn [app].
    destruct (is_cont b1); [|done]. apply Hemit. simpl. lia. }
  destruct (in_range 224 239 b0).
  { destruct t0 as [|b1 t1]; [by apply Hinc|]. cbn [app] in *. destruct (second_of_three b0 b1); [|done].
    destruct t1 as [|b2 t2]; [by apply Hinc|]. cbn [app].
    destruct (is_cont b2); [|done]. apply Hemit. simpl. lia. }
  destruct (in_range 240 244 b0); [|done].
  destruct t0 as [|b1 t1]; [by apply Hinc|]. cbn [app] in *. destruct (second_of_four b0 b1); [|done].
  destruct t1 as [|b2 t2]; [by apply Hinc|]. cbn [app] in *. destruct (is_cont b2); [|done].
  destruct t2 as [|b3 t3]; [by apply Hinc|]. cbn [app]. destruct (is_cont b3); [|done].
  apply Hemit. simpl. lia.
Qed.

(** The first character, or why there is none. *)
Ltac scan_tests :=
  cbn [app scan];
  repeat match goal with
  | H : _ = true |- _ => rewrite H
  | H : _ = false |- _ => rewrite H
  end; reflexivity.
Ltac scan_stop := left; eexists; split; [scan_tests|done].
Ltac scan_char seq t :=
  right; eexists _, seq, t; split_and!; [done..|]; intros; scan_tests.

Lemma scan_cases bs :
  (∃ st, scan bs = ([], bs, st) ∧ (st = Done → bs = [])) ∨
  (∃ c seq t, bs = seq ++ t ∧ seq ≠ [] ∧ ∀ cs, scan (seq ++ cs) = emit c (scan cs)).
Proof.
  destruct bs as [|b0 t0]; [left; by eexists|].
  destruct (b0 <? 128)%N eqn:E0; [scan_char [b0] t0|].
  destruct (in_range 194 223 b0) eqn:E1.
  { destruct t0 as [|b1 t1]; [scan_stop|]. destruct (is_cont b1) eqn:F1; [|scan_stop].
    scan_char [b0; b1] t1. }
  destruct (in_range 224 239 b0) eqn:E2.
  { destruct t0 as [|b1 t1]; [scan_stop|]. destruct (second_of_three b0 b1) eqn:F1; [|scan_stop].
    destruct t1 as [|b2 t2]; [scan_stop|]. destruct (is_cont b2) eqn:F2; [|scan_stop].
    scan_char [b0; b1; b2] t2. }
  destruct (in_range 240 244 b0) eqn:E3; [|scan_stop].
  destruct t0 as [|b1 t1]; [scan_stop|]. destruct (second_of_four b0 b1) eqn:F1; [|scan_stop].
  destruct t1 as [|b2 t2]; [scan_stop|]. destruct (is_cont b2) eqn:F2; [|scan_stop].
  destruct t2 as [|b3 t3]; [scan_stop|]. destruct (is_cont b3) eqn:F3; [|scan_stop].
  scan_char [b0; b1; b2; b3] t3.
Qed.

(** What was decoded, and what was not. *)
Lemma scan_split bs text rest st :
  scan bs = (text, rest, st) →
  (∃ pre, bs = pre ++ rest ∧ scan pre = (text, [], Done) ∧ (text = [] ↔ pre = [])) ∧
  scan rest = ([], rest, st) ∧ (st = Done → rest = []).
Proof.
  remember (length bs) as n eqn:Hn. revert bs text Hn. induction n as [n IH] using lt_wf_ind.
  intros bs text -> H. destruct (scan_cases bs) as [(st' & H' & Hd)|(c & seq & t & -> & Hne & Hs)].
  - rewrite H in H'. injection H' as -> -> ->. split; [|done]. by exists [].
  - rewrite Hs in H. destruct (scan t) as [[text' rest'] st'] eqn:Et.
    injection H as <- <- <-. destruct (IH (length t)) with (bs := t) (text := text') as ((pre & -> & Hp & _) & Hr);
      [|done|done|].
    { rewrite length_app. destruct seq; [done|]. simpl. lia. }
    split; [|done]. exists (seq ++ pre). rewrite <-app_assoc. split_and!; [done| |].
    + by rewrite Hs, Hp.
    + split; [done|]. intros [? _]%app_nil. done.
Qed.

(** *** Encoding and decoding *)

(** Quotient and remainder as variables with their equations. *)
Ltac div_mod a d :=
  let q := fresh "q" in let r := fresh "r" in
  pose proof (N.div_mod a d ltac:(done)); pose proof (N.mod_lt a d ltac:(done));
  generalize dependent (a / d)%N; intros q; intros;
  generalize dependent (a mod d)%N; intros r; intros.

Lemma in_range_true lo hi b : (lo ≤ b ≤ hi)%N → in_range lo hi b = true.
Proof. intros [? ?]. apply andb_true_iff. by rewrite !N.leb_le. Qed.

Lemma in_range_false lo hi b : (b < lo ∨ hi < b)%N → in_range lo hi b = false.
Proof. intros H. apply andb_false_iff. by rewrite !N.leb_gt. Qed.

Lemma not_ascii b : (128 ≤ b)%N → (b <? 128)%N = false.
Proof. by rewrite N.ltb_ge. Qed.

Lemma is_cont_add b : (b < 64)%N → is_cont (128 + b) = true.
Proof. intros. apply in_range_true. lia. Qed.

Lemma second_of_three_add a b :
  (b < 64)%N → (a = 0 → 32 ≤ b)%N → (a = 13 → b < 32)%N →
  second_of_three (224 + a) (128 + b) = true.
Proof.
  intros Hb H0 H13. unfold second_of_three. destruct (N.eqb_spec (224 + a) 224).
  { apply in_range_true. lia. }
  destruct (N.eqb_spec (224 + a) 237); [apply in_range_true; lia|by apply is_cont_add].
Qed.

Lemma second_of_four_add a b :
  (b < 64)%N → (a = 0 → 16 ≤ b)%N → (a = 4 → b < 16)%N →
  second_of_four (240 + a) (128 + b) = true.
Proof.
  intros Hb H0 H4. unfold second_of_four. destruct (N.eqb_spec (240 + a) 240).
  { apply in_range_true. lia. }
  destruct (N.eqb_spec (240 + a) 244); [apply in_range_true; lia|by apply is_cont_add].
Qed.

Lemma scan_two a b t :
  (2 ≤ a < 32)%N → (b < 64)%N → scan (192 + a :: 128 + b :: t)%N = emit (a * 64 + b) (scan t).
Proof.
  intros Ha Hb. cbn [scan]. rewrite not_ascii, in_range_true, is_cont_add by lia.
  unfold emit. do 3 f_equal. lia.
Qed.

Lemma scan_three a b c t :
  (a < 16)%N → (b < 64)%N → (c < 64)%N → (a = 0 → 32 ≤ b)%N → (a = 13 → b < 32)%N →
  scan (224 + a :: 128 + b :: 128 + c :: t)%N = emit (a * 4096 + b * 64 + c) (scan t).
Proof.
  intros Ha Hb Hc H0 H13. cbn [scan].
  rewrite not_ascii, in_range_false, in_range_true, second_of_three_add, is_cont_add by (done || lia).
  unfold emit. do 3 f_equal. lia.
Qed.

Lemma scan_four a b c d t :
  (a < 5)%N → (b < 64)%N → (c < 64)%N → (d < 64)%N → (a = 0 → 16 ≤ b)%N → (a = 4 → b < 16)%N →
  scan (240 + a :: 128 + b :: 128 + c :: 128 + d :: t)%N =
    emit (a * 262144 + b * 4096 + c * 64 + d) (scan t).
Proof.
  intros Ha Hb Hc Hd H0 H4. cbn [scan].
  rewrite not_ascii, 2!in_range_false, in_range_true, second_of_four_add by (done || lia).
  rewrite !is_cont_add by done. unfold emit. do 3 f_equal. lia.
Qed.

Lemma scan_encode_char c t : scalar c → scan (encode_char c ++ t) = emit c (scan t).
Proof.
  unfold scalar, encode_char. intros Hc.
  destruct (N.ltb_spec c 128); [|destruct (N.ltb_spec c 2048); [|destruct (N.ltb_spec c 65536)]].
  - cbn [app scan]. by rewrite (proj2 (N.ltb_lt c 128)).
  - cbn [app]. div_mod c 64%N. rewrite scan_two by lia. f_equal. lia.
  - cbn [app]. replace (c / 4096)%N with (c / 64 / 64)%N by by rewrite N.Div0.div_div.
    div_mod c 64%N. div_mod q 64%N. rewrite scan_three by lia. f_equal. lia.
  - cbn [app]. replace (c / 262144)%N with (c / 64 / 64 / 64)%N by by rewrite !N.Div0.div_div.
    replace (c / 4096)%N with (c / 64 / 64)%N by by rewrite N.Div0.div_div.
    div_mod c 64%N. div_mod q 64%N. div_mod q0 64%N. rewrite scan_four by lia. f_equal. lia.
Qed.

Lemma scan_encode s : Forall scalar s → scan (encode s) = (s, [], Done).
Proof.
  induction 1 as [|c s Hc _ IH]; [done|]. unfold encode. rewrite concat_fmap_cons.
  fold (encode s). by rewrite scan_encode_char, IH.
Qed.

(** ** The parser *)

Section parser.
Context {P T : Type} `{StreamTextParser P T}.

Inductive Utf8StreamParserError : Type :=
| InvalidUtf8 (valid_up_to error_len : nat)
| IncompleteUtf8AtEof.

Record Utf8StreamParser : Type := mkUtf8 { u_inner : P; pending_utf8 : list N }.

Definition new_utf8 (inner : P) : Utf8StreamParser := mkUtf8 inner [].

(** [push_bytes]. *)
Definition push_bytes (chunk : list N) (p : Utf8StreamParser) :
    Utf8StreamParser * result Utf8StreamParserError (StreamTextChunk T) :=
  let old_len := length (pending_utf8 p) in
  let pending := pending_utf8 p ++ chunk in
  match from_utf8 pending with
  | Ok text =>
      let '(i, out) := push_str text (u_inner p) in (mkUtf8 i [], Ok out)
  | Err err =>
      match error_len err with
      | Some n => (mkUtf8 (u_inner p) (take old_len pending), Err (InvalidUtf8 (valid_up_to err) n))
      | None =>
          if valid_up_to err =? 0 then (mkUtf8 (u_inner p) pending, Ok chunk_default)
          else
            match from_utf8 (take (valid_up_to err) pending) with
            | Ok text =>
                let '(i, out) := push_str text (u_inner p) in
                (mkUtf8 i (drop (valid_up_to err) pending), Ok out)
            | Err prefix_err =>
                (mkUtf8 (u_inner p) (take old_len pending),
                 Err (InvalidUtf8 (valid_up_to prefix_err) (default 0 (error_len prefix_err))))
            end
      end
  end.

(** [finish]. *)
Definition utf8_error (err : Utf8Error) : Utf8StreamParserError :=
  match error_len err with
  | Some n => InvalidUtf8 (valid_up_to err) n
  | None => IncompleteUtf8AtEof
  end.
Definition utf8_finish (p : Utf8StreamParser) :
    Utf8StreamParser * result Utf8StreamParserError (StreamTextChunk T) :=
  match pending_utf8 p with
  | [] => let '(i, tail) := finish (u_inner p) in (mkUtf8 i [], Ok (chunk_app chunk_default tail))
  | bs =>
      match from_utf8 bs with
      | Err err => (p, Err (utf8_error err))
      | Ok text =>
          let '(i, out) := push_str text (u_inner p) in
          let '(i, tail) := finish i in
          (mkUtf8 i [], Ok (chunk_app out tail))
      end
  end.

(** [into_inner]. *)
Definition into_inner (p : Utf8StreamParser) : result Utf8StreamParserError P :=
  match pending_utf8 p with
  | [] => Ok (u_inner p)
  | bs => match from_utf8 bs with Ok _ => Ok (u_inner p) | Err err => Err (utf8_error err) end
  end.

(** Pushes the pieces up to the first error, then ends the stream. *)
Fixpoint run_bytes (pieces : list (list N)) (p : Utf8StreamParser) :
    result Utf8StreamParserError (StreamTextChunk T) :=
  match pieces with
  | [] => (utf8_finish p).2
  | bs :: pieces' =>
      let '(p1, r) := push_bytes bs p in
      let? o1 := r in let? o2 := run_bytes pieces' p1 in Ok (chunk_app o1 o2)
  end.

Context `{!StreamLaws P T}.

(** The bytes kept are the beginning of a character. *)
Definition partial (bs : list N) : Prop := ∃ st, scan bs = ([], bs, st) ∧ ∀ n, st ≠ Invalid n.

Lemma push_bytes_spec chunk p :
  stream_ok (u_inner p) →
  match scan (pending_utf8 p ++ chunk) with
  | (_, _, Invalid n) => ∃ v, push_bytes chunk p = (p, Err (InvalidUtf8 v n))
  | (text, rest, _) =>
      push_bytes chunk p = (mkUtf8 (push_str text (u_inner p)).1 rest, Ok (push_str text (u_inner p)).2)
  end.
Proof.
  intros Hok. unfold push_bytes, from_utf8. set (bs := pending_utf8 p ++ chunk).
  destruct (scan bs) as [[text rest] st] eqn:E.
  destruct (scan_split _ _ _ _ E) as ((pre & Hbs & Hpre & Hnil) & Hrest & Hdone).
  destruct st as [| |n].
  - rewrite Hdone by done. by destruct (push_str text (u_inner p)).
  - cbn [error_len valid_up_to]. rewrite Hbs, length_app, Nat.add_sub.
    destruct (Nat.eqb_spec (length pre) 0) as [Hz|Hz].
    + destruct pre; [|done]. rewrite (proj2 Hnil), push_nil by done. done.
    + rewrite take_app_length, drop_app_length, Hpre. by destruct (push_str text (u_inner p)).
  - cbn [error_len]. unfold bs. rewrite take_app_length. destruct p. by eexists.
Qed.

Lemma partial_scan bs text rest st :
  scan bs = (text, rest, st) → (∀ n, st ≠ Invalid n) → partial rest.
Proof. intros (_ & ? & _)%scan_split ?. by exists st. Qed.

Lemma utf8_finish_spec p :
  partial (pending_utf8 p) →
  (utf8_finish p).2 = match pending_utf8 p with
                      | [] => Ok (finish (u_inner p)).2
                      | _ => Err IncompleteUtf8AtEof
                      end.
Proof.
  intros (st & Hs & Hst). unfold utf8_finish. destruct (pending_utf8 p) as [|b bs].
  { destruct (finish (u_inner p)) as [i tail]. simpl. by rewrite chunk_app_default_l. }
  unfold from_utf8. rewrite Hs. destruct (scan_split _ _ _ _ Hs) as (_ & _ & Hd).
  destruct st as [| |n]; [|done|by destruct (Hst n)]. by specialize (Hd eq_refl).
Qed.

(** One push, then the rest of the text. *)
Lemma run_stream_cons text text' (inner : P) :
  stream_ok inner →
  same_chunk (chunk_app (push_str text inner).2 (run_stream [text'] (push_str text inner).1))
    (run_stream [text ++ text'] inner).
Proof.
  intros Hok. pose proof (run_stream_concat [text; text'] inner Hok) as H'.
  simpl concat in H'. rewrite app_nil_r in H'. rewrite <-H'. unfold run_stream. cbn [push_pieces].
  destruct (push_str text inner) as [p1 o1]. cbn [fst snd].
  destruct (push_str text' p1) as [p2 o2]. rewrite chunk_app_default_r. by rewrite chunk_app_assoc.
Qed.

(** What the stream should give, from the result of decoding all bytes. *)
Definition outcome (inner : P) (decoded : list N * list N * stop)
    (r : result Utf8StreamParserError (StreamTextChunk T)) : Prop :=
  match decoded with
  | (text, _, Done) => ∃ c, r = Ok c ∧ same_chunk c (run_stream [text] inner)
  | (_, _, Incomplete) => r = Err IncompleteUtf8AtEof
  | (_, _, Invalid n) => ∃ v, r = Err (InvalidUtf8 v n)
  end.

Lemma outcome_push text inner d r :
  stream_ok inner → outcome (push_str text inner).1 d r →
  outcome inner (text ++ d.1.1, d.1.2, d.2)
    (let? o2 := r in Ok (chunk_app (push_str text inner).2 o2)).
Proof.
  intros Hok. destruct d as [[text2 rest] [| |n]]; cbn [outcome fst snd].
  - intros (c & -> & Hc). eexists. split; [done|]. rewrite Hc. by apply run_stream_cons.
  - by intros ->.
  - intros [v ->]. by eexists.
Qed.

Lemma run_bytes_scan pieces p :
  stream_ok (u_inner p) → partial (pending_utf8 p) →
  outcome (u_inner p) (scan (pending_utf8 p ++ concat pieces)) (run_bytes pieces p).
Proof.
  revert p. induction pieces as [|bs pieces IH]; intros p Hok Hpart; cbn [concat run_bytes].
  - rewrite app_nil_r, utf8_finish_spec by done. destruct Hpart as (st & Hs & Hst).
    destruct (scan_split _ _ _ _ Hs) as (_ & _ & Hd). rewrite Hs. destruct st as [| |n]; cbn [outcome].
    + rewrite Hd by done. eexists. split; [done|]. unfold run_stream. cbn [push_pieces].
      rewrite push_nil by done. by rewrite !chunk_app_default_l.
    + by destruct (pending_utf8 p).
    + by destruct (Hst n).
  - rewrite app_assoc, scan_app. pose proof (push_bytes_spec bs p Hok) as Hpush.
    destruct (scan (pending_utf8 p ++ bs)) as [[text rest] st] eqn:E.
    destruct st as [| |n]; [..|destruct Hpush as [v ->]; by eexists];
      rewrite Hpush; cbn [result_bind resume]; apply outcome_push; try done;
      apply (IH (mkUtf8 (push_str text (u_inner p)).1 rest));
      [by apply push_ok|by eapply partial_scan|by apply push_ok|by eapply partial_scan].
Qed.

(** ** Properties *)

(** C36. Cutting bytes makes no difference either: whatever the pieces, the stream of bytes
    behaves as the text parser on the decoded text when the bytes are UTF-8, reports a
    character that is cut off by the end of the stream as incomplete, and reports the
    length of the first invalid sequence otherwise. *)
Theorem utf8_stream_transparent (pieces : list (list N)) (inner : P) :
  stream_ok inner →
  match scan (concat pieces) with
  | (text, _, Done) =>
      ∃ c, run_bytes pieces (new_utf8 inner) = Ok c ∧ same_chunk c (run_stream [text] inner)
  | (_, _, Incomplete) => run_bytes pieces (new_utf8 inner) = Err IncompleteUtf8AtEof
  | (_, _, Invalid n) => ∃ v, run_bytes pieces (new_utf8 inner) = Err (InvalidUtf8 v n)
  end.
Proof. intros Hok. apply (run_bytes_scan pieces (new_utf8 inner)); [done|by exists Done]. Qed.

End parser.
Arguments Utf8StreamParser P : clear implicits.

(** Text survives the encoding: decoding the UTF-8 bytes of any text gives it back, and
    when these bytes are streamed in any pieces, no piece is refused and the result is that
    of the text. *)
Theorem utf8_text_roundtrip (text : str) (pieces : list (list N)) :
  Forall scalar text → concat pieces = encode text →
  from_utf8 (encode text) = Ok text ∧
  ∃ c, run_bytes pieces (new_utf8 new_citation) = Ok c ∧
       same_chunk c (run_stream [text] new_citation).
Proof.
  intros Hs Hp. unfold from_utf8. rewrite (scan_encode text Hs). split; [done|].
  pose proof (run_bytes_scan pieces (new_utf8 new_citation) new_citation_ok) as H.
  cbn [pending_utf8 new_utf8 app] in H. rewrite Hp, (scan_encode text Hs) in H.
  apply H. by exists Done.
Qed.

Lemma utf8_stream_transparent_witness :
  (∃ v, run_bytes [[65; 195]; [40]]%N (new_utf8 new_citation) = Err (InvalidUtf8 v 1)) ∧
  run_bytes [[65; 195]]%N (new_utf8 new_citation) = Err IncompleteUtf8AtEof ∧
  ∃ c, run_bytes [[65; 195]; [169]]%N (new_utf8 new_citation) = Ok c ∧ visible_text c = [65; 233]%N.
Proof.
  split; [exact (utf8_stream_transparent [[65; 195]; [40]]%N new_citation new_citation_ok)|].
  split; [exact (utf8_stream_transparent [[65; 195]]%N new_citation new_citation_ok)|].
  destruct (utf8_stream_transparent [[65; 195]; [169]]%N new_citation new_citation_ok)
    as (c & Hc & Hv & _).
  exists c. split; [exact Hc|]. rewrite Hv. vm_compute. reflexivity.
Defined.

Lemma utf8_text_roundtrip_witness :
  from_utf8 (encode [65; 233; 8364; 128512]%N) = Ok [65; 233; 8364; 128512]%N.
Proof.
  refine (proj1 (utf8_text_roundtrip [65; 233; 8364; 128512]%N
    [encode [65; 233; 8364; 128512]%N] _ _)).
  - unfold scalar. repeat (constructor; [lia|]). constructor.
  - vm_compute. reflexivity.
Defined.

End Utf8Stream.
