(* ===== verification/ShellParse.v ===== *)
(** * Reading shell invocations (shell-command/src/bash.rs, shell_detect.rs)

    Before a command is judged, [bash -lc "<script>"] is taken apart into the plain commands
    of its script.  The syntax tree comes from tree-sitter and its Bash grammar, which are
    not part of the repository: [try_parse_shell] is a parameter, and a [Node] is what the
    code asks of a tree-sitter node (kind, named or not, error flag, byte range, children).
    The walks over the tree keep an explicit stack; they are loops with fuel, and
    [tree_size] steps are enough ([visit_all] and the three lemmas after it). *)

From stdpp Require Import prelude strings list sorting.
From S2P Require Import Prelude RustStr AbsolutePath.

Module ShellParse.
Import AbsolutePath.

(** ** Which shell a path names *)

Inductive ShellType : Type := Zsh | Bash | PowerShell | Sh | Cmd.

#[global] Instance ShellType_eq_dec : EqDecision ShellType.
Proof. solve_decision. Defined.

Definition period : char := 46%N.

(** [Path::file_stem]: the file name up to its last dot, a leading dot apart. *)
Definition file_stem (p : str) : option str :=
  match file_name (components p) with
  | None => None
  | Some name =>
      match rsplit_once period name with
      | None => Some name
      | Some (before, _) => Some (if decide (before = []) then name else before)
      end
  end.

(** The names [detect_shell_type] knows. *)
Definition shell_of_name (p : str) : option ShellType :=
  if decide (p = lit "zsh") then Some Zsh
  else if decide (p = lit "sh") then Some Sh
  else if decide (p = lit "cmd") then Some Cmd
  else if decide (p = lit "bash") then Some Bash
  else if decide (p = lit "pwsh") then Some PowerShell
  else if decide (p = lit "powershell") then Some PowerShell
  else None.

(** [detect_shell_type] calls itself on the file stem while that is another path. *)
Fixpoint detect_loop (fuel : nat) (p : str) : option ShellType :=
  match fuel with
  | 0 => None
  | S fuel =>
      match shell_of_name p with
      | Some t => Some t
      | None =>
          match file_stem p with
          | Some name =>
              if decide (components name ≠ components p) then detect_loop fuel name else None
          | None => None
          end
      end
  end.
Definition detect_shell_type (p : str) : option ShellType := detect_loop (S (length p)) p.

(** ** Syntax trees *)

Inductive Node : Type :=
| mkNode (kind : list N) (named error : bool) (start_byte end_byte : nat) (children : list Node).

Definition kind (n : Node) : str := let 'mkNode k _ _ _ _ _ := n in k.
Definition is_named (n : Node) : bool := let 'mkNode _ b _ _ _ _ := n in b.
Definition has_error (n : Node) : bool := let 'mkNode _ _ e _ _ _ := n in e.
Definition start_byte (n : Node) : nat := let 'mkNode _ _ _ s _ _ := n in s.
Definition end_byte (n : Node) : nat := let 'mkNode _ _ _ _ e _ := n in e.
Definition children (n : Node) : list Node := let 'mkNode _ _ _ _ _ cs := n in cs.
Definition named_children (n : Node) : list Node := filter (λ c, is_named c = true) (children n).
Definition named_child (n : Node) (i : nat) : option Node := named_children n !! i.

Fixpoint tree_size (n : Node) : nat :=
  let 'mkNode _ _ _ _ _ cs := n in S (sum_list (tree_size <$> cs)).

(** A byte range of a string, when it falls on character boundaries. *)
Fixpoint drop_bytes (k : nat) (s : str) : option (list N) :=
  match k, s with
  | 0, _ => Some s
  | S _, [] => None
  | S _, c :: s => if len_utf8 c <=? k then drop_bytes (k - len_utf8 c) s else None
  end.
Fixpoint take_bytes (k : nat) (s : str) : option (list N) :=
  match k, s with
  | 0, _ => Some []
  | S _, [] => None
  | S _, c :: s =>
      if len_utf8 c <=? k then cons c <$> take_bytes (k - len_utf8 c) s else None
  end.

(** [Node::utf8_text(src.as_bytes()).ok()]: the source text the node spans. *)
Definition utf8_text (n : Node) (src : str) : option (list N) :=
  drop_bytes (start_byte n) src ≫= take_bytes (end_byte n - start_byte n).

(** ** Words of a command *)

Definition is_kind (k : string) (n : Node) : bool := bool_decide (kind n = lit k).
Definition kind_in (ks : list string) (n : Node) : bool := bool_decide (kind n ∈ lit <$> ks).

Definition strip_quotes (q : char) (raw : str) : option (list N) :=
  strip_prefix [q] raw ≫= strip_suffix [q].

Definition parse_double_quoted_string (n : Node) (src : str) : option (list N) :=
  if negb (is_kind "string" n) then None
  else if forallb (is_kind "string_content") (named_children n)
  then utf8_text n src ≫= strip_quotes dquote else None.

Definition squote : char := 39%N.
Definition parse_raw_string (n : Node) (src : str) : option (list N) :=
  if negb (is_kind "raw_string" n) then None else utf8_text n src ≫= strip_quotes squote.

(** One part of a concatenation such as [-g"*.py"]. *)
Definition concat_part (src : str) (part : Node) : option (list N) :=
  if kind_in ["word"; "number"] part then utf8_text part src
  else if is_kind "string" part then parse_double_quoted_string part src
  else if is_kind "raw_string" part then parse_raw_string part src
  else None.

(** One named child of a command. *)
Definition plain_word (src : str) (child : Node) : option (list N) :=
  if is_kind "command_name" child then
    match named_child child 0 with
    | Some w => if is_kind "word" w then utf8_text w src else None
    | None => None
    end
  else if kind_in ["word"; "number"] child then utf8_text child src
  else if is_kind "string" child then parse_double_quoted_string child src
  else if is_kind "raw_string" child then parse_raw_string child src
  else if is_kind "concatenation" child then
    parts ← mapM (concat_part src) (named_children child);
    (if decide (concat parts = []) then None else Some (concat parts))
  else None.

Definition parse_plain_command_from_node (cmd : Node) (src : str) : option (list (list N)) :=
  if negb (is_kind "command" cmd) then None else mapM (plain_word src) (named_children cmd).

(** ** Word-only command sequences *)

Definition ALLOWED_KINDS : list string :=
  ["program"; "list"; "pipeline"; "command"; "command_name"; "word"; "string";
   "string_content"; "raw_string"; "number"; "concatenation"].
Definition ALLOWED_PUNCT_TOKENS : list (list N) :=
  [lit "&&"; lit "||"; lit ";"; lit "|"; [dquote]; [squote]].

(** The guards of the walk on one node. *)
Definition allowed_node (n : Node) : bool :=
  if is_named n then kind_in ALLOWED_KINDS n
  else
    let allowed := bool_decide (kind n ∈ ALLOWED_PUNCT_TOKENS) in
    if existsb (λ c, bool_decide (c ∈ lit "&;|")) (kind n) && negb allowed then false
    else allowed || bool_decide (trim (kind n) = []).

Definition push_all_nodes (cs stack : list Node) : list Node :=
  foldl (λ st c, c :: st) stack cs.

(** The walk: pop a node, judge it, collect it, push its children. *)
Fixpoint collect_commands (fuel : nat) (stack command_nodes : list Node) : option (list Node) :=
  match stack with
  | [] => Some command_nodes
  | node :: stack =>
      match fuel with
      | 0 => None
      | S fuel =>
          if negb (allowed_node node) then None
          else
            let command_nodes :=
              if is_named node && is_kind "command" node then command_nodes ++ [node]
              else command_nodes in
            collect_commands fuel (push_all_nodes (children node) stack) command_nodes
      end
  end.

(** [sort_by_key(Node::start_byte)], a stable sort. *)
Definition sort_by_start (l : list Node) : list Node := sort_by_key start_byte l.

Definition try_parse_word_only_commands_sequence (root : Node) (src : str) :
    option (list (list (list N))) :=
  if has_error root then None
  else
    nodes ← collect_commands (tree_size root) [root] [];
    mapM (λ n, parse_plain_command_from_node n src) (sort_by_start nodes).

(** ** Here-documents *)

Definition is_literal_word_or_number (n : Node) : bool :=
  kind_in ["word"; "number"] n && bool_decide (named_children n = []).

Definition is_allowed_heredoc_attachment_kind (n : Node) : bool :=
  kind_in ["heredoc_body"; "simple_heredoc_body"; "heredoc_redirect"; "herestring_redirect";
           "redirected_statement"] n.

(** The loop body of [parse_heredoc_command_words]: [Some None] skips the child. *)
Definition heredoc_word (src : str) (child : Node) : option (option (list N)) :=
  if is_kind "command_name" child then
    match named_child child 0 with
    | Some w =>
        if negb (kind_in ["word"; "number"] w) || negb (is_literal_word_or_number w) then None
        else Some <$> utf8_text w src
    | None => None
    end
  else if kind_in ["word"; "number"] child then
    if negb (is_literal_word_or_number child) then None else Some <$> utf8_text child src
  else if is_kind "comment" child then Some None
  else if is_allowed_heredoc_attachment_kind child then Some None
  else None.

Definition parse_heredoc_command_words (cmd : Node) (src : str) : option (list (list N)) :=
  if negb (is_kind "command" cmd) then None
  else
    ws ← mapM (heredoc_word src) (named_children cmd);
    let words := omap id ws in
    if decide (words = []) then None else Some words.

Fixpoint single_command_loop (fuel : nat) (stack : list Node) (single : option Node) :
    option Node :=
  match stack with
  | [] => single
  | node :: stack =>
      match fuel with
      | 0 => None
      | S fuel =>
          let next := push_all_nodes (named_children node) stack in
          if is_kind "command" node then
            match single with
            | Some _ => None
            | None => single_command_loop fuel next (Some node)
            end
          else single_command_loop fuel next single
      end
  end.
Definition find_single_command_node (root : Node) : option Node :=
  single_command_loop (tree_size root) [root] None.

Fixpoint has_kind_loop (fuel : nat) (k : string) (stack : list Node) : bool :=
  match stack with
  | [] => false
  | node :: stack =>
      match fuel with
      | 0 => false
      | S fuel =>
          if is_kind k node then true
          else has_kind_loop fuel k (push_all_nodes (named_children node) stack)
      end
  end.
Definition has_named_descendant_kind (n : Node) (k : string) : bool :=
  has_kind_loop (tree_size n) k [n].

(** ** Shell invocations *)

Definition extract_bash_command (command : list str) : option (list N * list N) :=
  match command with
  | [shell; flag; script] =>
      if bool_decide (flag = lit "-lc" ∨ flag = lit "-c") &&
         match detect_shell_type shell with
         | Some Zsh | Some Bash | Some Sh => true
         | _ => false
         end
      then Some (shell, script) else None
  | _ => None
  end.

Section parser.
(** tree-sitter with the Bash grammar: the root node, when parsing succeeds. *)
Variable try_parse_shell : str → option Node.

Definition parse_shell_script_into_commands (script : str) : option (list (list (list N))) :=
  tree ← try_parse_shell script; try_parse_word_only_commands_sequence tree script.

Definition parse_shell_lc_plain_commands (command : list str) : option (list (list (list N))) :=
  '(_, script) ← extract_bash_command command; parse_shell_script_into_commands script.

Definition parse_shell_lc_single_command_prefix (command : list str) :
    option (list (list N)) :=
  '(_, script) ← extract_bash_command command;
  root ← try_parse_shell script;
  if has_error root then None
  else if negb (has_named_descendant_kind root "heredoc_redirect") then None
  else if has_named_descendant_kind root "file_redirect" then None
  else
    cmd ← find_single_command_node root;
    parse_heredoc_command_words cmd script.
End parser.

(** ** The nodes of a tree *)

(** Induction with the hypothesis for every child. *)
Lemma Node_rec_children (P : Node → Prop) :
  (∀ k nm e a b cs, Forall P cs → P (mkNode k nm e a b cs)) → ∀ n, P n.
Proof.
  intros H. fix IH 1. intros [k nm e a b cs]. apply H.
  induction cs as [|c cs IHcs]; constructor; auto.
Qed.

(** The nodes below [n] in the order of the source, entering the children [keep] selects,
    and the same nodes in the order in which a stack visits them. *)
Fixpoint nodes (keep : Node → bool) (n : Node) : list Node :=
  let 'mkNode _ _ _ _ _ cs := n in
  n :: concat ((λ c, if keep c then nodes keep c else []) <$> cs).
Fixpoint visits (keep : Node → bool) (n : Node) : list Node :=
  let 'mkNode _ _ _ _ _ cs := n in
  n :: concat (reverse ((λ c, if keep c then visits keep c else []) <$> cs)).

Definition every (n : Node) : bool := true.
Definition all_nodes (n : Node) : list Node := nodes every n.
Definition named_nodes (n : Node) : list Node := nodes is_named n.

Lemma concat_perm {A} (l1 l2 : list (list A)) : l1 ≡ₚ l2 → concat l1 ≡ₚ concat l2.
Proof.
  induction 1; simpl; [done|by f_equiv| |by etrans].
  by rewrite !(assoc_L (++)), (comm (++) x y).
Qed.

Lemma visits_perm keep n : visits keep n ≡ₚ nodes keep n.
Proof.
  induction n as [k nm e a b cs IH] using Node_rec_children. simpl. f_equiv.
  rewrite (concat_perm _ _ (reverse_Permutation _)).
  induction IH as [|c cs Hc _ IHcs]; csimpl; [done|].
  destruct (keep c); [by rewrite Hc, IHcs|exact IHcs].
Qed.

Definition stack_visits (keep : Node → bool) (stack : list Node) : list Node :=
  concat (visits keep <$> stack).
Definition stack_size (stack : list Node) : nat := sum_list (tree_size <$> stack).

Lemma push_all_nodes_reverse cs stack : push_all_nodes cs stack = reverse cs ++ stack.
Proof.
  unfold push_all_nodes. revert stack. induction cs as [|c cs IH]; intros stack; simpl; [done|].
  rewrite IH, reverse_cons. by rewrite <-(assoc_L (++)).
Qed.

(** Popping a node and pushing its kept children leaves the rest of the visit. *)
Lemma visit_pop keep n stack :
  stack_visits keep (n :: stack) =
  n :: stack_visits keep (push_all_nodes (filter (λ c, keep c = true) (children n)) stack).
Proof.
  rewrite push_all_nodes_reverse. unfold stack_visits. csimpl. rewrite fmap_app, concat_app.
  destruct n as [k nm e a b cs]. simpl. f_equal. f_equal.
  rewrite fmap_reverse. induction cs as [|c cs IH]; csimpl; [done|].
  rewrite reverse_cons, concat_app, IH, filter_cons.
  destruct (keep c); simpl; [|by rewrite app_nil_r].
  by rewrite reverse_cons, concat_app.
Qed.

Lemma stack_size_app l1 l2 : stack_size (l1 ++ l2) = stack_size l1 + stack_size l2.
Proof. unfold stack_size. induction l1; csimpl; lia. Qed.
Lemma stack_size_cons n l : stack_size (n :: l) = tree_size n + stack_size l.
Proof. done. Qed.
Lemma stack_size_reverse l : stack_size (reverse l) = stack_size l.
Proof.
  induction l as [|n l IH]; [done|].
  rewrite reverse_cons, stack_size_app, IH, !stack_size_cons. unfold stack_size at 2. simpl. lia.
Qed.
Lemma stack_size_filter (P : Node → Prop) `{!∀ x, Decision (P x)} l :
  stack_size (filter P l) ≤ stack_size l.
Proof.
  induction l as [|n l IH]; [done|]. rewrite filter_cons, stack_size_cons.
  destruct (decide _); rewrite ?stack_size_cons; lia.
Qed.

Lemma stack_size_push keep n stack :
  stack_size (push_all_nodes (filter (λ c, keep c = true) (children n)) stack) <
  stack_size (n :: stack).
Proof.
  rewrite push_all_nodes_reverse, stack_size_app, stack_size_reverse, stack_size_cons.
  pose proof (stack_size_filter (λ c, keep c = true) (children n)).
  destruct n as [k nm e a b cs]. change (tree_size _) with (S (stack_size cs)).
  simpl in *. lia.
Qed.

Lemma tree_size_pos n : 0 < tree_size n.
Proof. destruct n; simpl; lia. Qed.

Lemma filter_every (l : list Node) : filter (λ c, every c = true) l = l.
Proof. induction l as [|n l IH]; [done|]. rewrite filter_cons, decide_True by done. by rewrite IH. Qed.

Lemma visits_single keep n : stack_visits keep [n] = visits keep n.
Proof. unfold stack_visits. csimpl. apply app_nil_r. Qed.
Lemma stack_size_single n : stack_size [n] = tree_size n.
Proof. unfold stack_size. simpl. lia. Qed.

(** With the size of the tree as fuel each walk sees every node of it. *)
Definition command_node (n : Node) : Prop := is_named n = true ∧ is_kind "command" n = true.
#[global] Instance command_node_dec n : Decision (command_node n).
Proof. unfold command_node. apply _. Defined.

Lemma collect_commands_visits fuel stack acc :
  stack_size stack ≤ fuel →
  collect_commands fuel stack acc =
  if forallb allowed_node (stack_visits every stack)
  then Some (acc ++ filter command_node (stack_visits every stack)) else None.
Proof.
  revert stack acc. induction fuel as [|fuel IH]; intros [|n stack] acc Hf;
    try (by simpl; rewrite app_nil_r).
  { rewrite stack_size_cons in Hf. pose proof (tree_size_pos n). lia. }
  pose proof (stack_size_push every n stack) as Hlt. rewrite visit_pop.
  rewrite filter_every in *. cbn [collect_commands forallb].
  destruct (allowed_node n); simpl; [|done].
  rewrite IH by lia. destruct (forallb _ _); [|done]. f_equal. rewrite filter_cons.
  destruct (is_named n && is_kind "command" n) eqn:Hc.
  - apply andb_true_iff in Hc. rewrite decide_True by done. by rewrite <-(assoc_L (++)).
  - rewrite decide_False; [done|]. intros [H1 H2]. by rewrite H1, H2 in Hc.
Qed.

Lemma has_kind_loop_visits fuel k stack :
  stack_size stack ≤ fuel →
  has_kind_loop fuel k stack = existsb (is_kind k) (stack_visits is_named stack).
Proof.
  revert stack. induction fuel as [|fuel IH]; intros [|n stack] Hf; try done.
  { rewrite stack_size_cons in Hf. pose proof (tree_size_pos n). lia. }
  pose proof (stack_size_push is_named n stack). rewrite visit_pop. simpl.
  destruct (is_kind k n); [done|]. apply IH. unfold named_children in *. lia.
Qed.

Lemma single_command_loop_visits fuel stack single :
  stack_size stack ≤ fuel →
  single_command_loop fuel stack single =
  match option_list single ++
        filter (λ n, is_kind "command" n = true) (stack_visits is_named stack) with
  | [n] => Some n
  | _ => None
  end.
Proof.
  revert stack single. induction fuel as [|fuel IH]; intros [|n stack] single Hf;
    try (by destruct single).
  { rewrite stack_size_cons in Hf. pose proof (tree_size_pos n). lia. }
  pose proof (stack_size_push is_named n stack). rewrite visit_pop. simpl.
  rewrite filter_cons. destruct (is_kind "command" n) eqn:Hc.
  - rewrite decide_True by done. destruct single as [m|]; simpl; [done|].
    rewrite IH by (unfold named_children in *; lia). done.
  - rewrite decide_False by done. apply IH. unfold named_children in *; lia.
Qed.

(** ** Sorting by position *)

(** The command nodes of the tree start at increasing positions of the source. *)
Definition source_ordered (root : Node) : Prop :=
  StronglySorted (λ a b, start_byte a < start_byte b) (filter command_node (all_nodes root)).

Lemma strictly_sorted_starts l :
  StronglySorted (λ a b, start_byte a < start_byte b) l →
  StronglySorted (key_le start_byte) l ∧
  ∀ a b, a ∈ l → b ∈ l → key_le start_byte a b → key_le start_byte b a → a = b.
Proof.
  unfold key_le. induction 1 as [|n l Hl [IH1 IH2] Hn].
  { split; [constructor|]. intros a b Ha. by apply elem_of_nil in Ha. }
  rewrite Forall_forall in Hn. split.
  - constructor; [done|]. apply Forall_forall. intros x Hx. specialize (Hn x Hx). lia.
  - intros a b. rewrite !elem_of_cons. intros [->|Ha] [->|Hb] H1 H2; auto.
    + specialize (Hn b Hb). lia.
    + specialize (Hn a Ha). lia.
Qed.

(** Sorting undoes the order of the stack. *)
Lemma sort_visited_commands root :
  source_ordered root →
  sort_by_start (filter command_node (visits every root)) = filter command_node (all_nodes root).
Proof.
  intros Ho. destruct (strictly_sorted_starts _ Ho) as [Hs Hanti].
  assert (sort_by_start (filter command_node (visits every root))
          ≡ₚ filter command_node (all_nodes root)) as Hp.
  { unfold sort_by_start. rewrite sort_by_key_perm, visits_perm. done. }
  eapply (StronglySorted_unique_strong (key_le start_byte)); [|apply sort_by_key_sorted|done|done].
  intros a b Ha Hb. apply Hanti; [by rewrite <-Hp|done].
Qed.

Lemma forallb_perm {A} (f : A → bool) l1 l2 : l1 ≡ₚ l2 → forallb f l1 = forallb f l2.
Proof. induction 1; simpl; [done|congruence|by destruct (f x), (f y)|congruence]. Qed.
Lemma existsb_perm {A} (f : A → bool) l1 l2 : l1 ≡ₚ l2 → existsb f l1 = existsb f l2.
Proof. induction 1; simpl; [done|congruence|by destruct (f x), (f y)|congruence]. Qed.

(** C34. For any tree: a script is refused if the tree has an error, if any node of it, at any
    depth, is of a kind that is not allowed, or if some command node is not made of plain words
    only; else the result has the words of each command node of the tree, once each and no others,
    by increasing start position.  Where the command nodes start at different positions and the
    tree lists them in the order of the source (which is what the grammar's trees do), this is the
    order in which they stand in the tree, although the walk meets them in another one. *)
Theorem plain_commands_in_source_order root src :
  ∃ l, l ≡ₚ filter command_node (all_nodes root) ∧
  StronglySorted (λ a b, start_byte a ≤ start_byte b) l ∧
  (source_ordered root → l = filter command_node (all_nodes root)) ∧
  try_parse_word_only_commands_sequence root src =
    if has_error root || negb (forallb allowed_node (all_nodes root)) then None
    else mapM (λ n, parse_plain_command_from_node n src) l.
Proof.
  exists (sort_by_start (filter command_node (visits every root))). split_and!.
  - unfold sort_by_start. by rewrite sort_by_key_perm, visits_perm.
  - apply (sort_by_key_sorted start_byte).
  - apply sort_visited_commands.
  - unfold try_parse_word_only_commands_sequence. destruct (has_error root); [done|].
    rewrite collect_commands_visits by (by rewrite stack_size_single). simpl.
    rewrite visits_single, (forallb_perm _ _ _ (visits_perm every root)).
    fold (all_nodes root). by destruct (forallb _ _).
Qed.

(** ** Here-documents *)

Lemma has_named_descendant_kind_spec n k :
  has_named_descendant_kind n k = existsb (is_kind k) (named_nodes n).
Proof.
  unfold has_named_descendant_kind. rewrite has_kind_loop_visits by (by rewrite stack_size_single).
  rewrite visits_single. apply existsb_perm, visits_perm.
Qed.

Lemma find_single_command_node_spec root cmd :
  find_single_command_node root = Some cmd ↔
  filter (λ n, is_kind "command" n = true) (named_nodes root) = [cmd].
Proof.
  unfold find_single_command_node.
  rewrite single_command_loop_visits by (by rewrite stack_size_single). simpl.
  rewrite visits_single.
  assert (filter (λ n, is_kind "command" n = true) (visits is_named root)
          ≡ₚ filter (λ n, is_kind "command" n = true) (named_nodes root)) as Hp
    by (by rewrite visits_perm).
  revert Hp. generalize (filter (λ n, is_kind "command" n = true) (named_nodes root)).
  intros l. destruct (filter _ (visits _ _)) as [|n [|m l']]; intros Hp.
  - apply Permutation_nil_l in Hp as <-. by split.
  - apply Permutation_singleton_l in Hp as <-. naive_solver.
  - split; [done|]. intros ->. by apply Permutation_length in Hp.
Qed.

(** The fallback for here-documents gives words exactly when the script has one command
    node in all, some here-document and no other file redirection, and the words are then
    the literal words of that command. *)
Theorem heredoc_prefix_of_single_command try_parse_shell command words :
  parse_shell_lc_single_command_prefix try_parse_shell command = Some words ↔
  ∃ shell script root cmd,
    extract_bash_command command = Some (shell, script) ∧
    try_parse_shell script = Some root ∧
    has_error root = false ∧
    (∃ n, n ∈ named_nodes root ∧ kind n = lit "heredoc_redirect") ∧
    (∀ n, n ∈ named_nodes root → kind n ≠ lit "file_redirect") ∧
    filter (λ n, is_kind "command" n = true) (named_nodes root) = [cmd] ∧
    parse_heredoc_command_words cmd script = Some words.
Proof.
  unfold parse_shell_lc_single_command_prefix.
  setoid_rewrite <-find_single_command_node_spec.
  destruct (extract_bash_command command) as [[shell script]|]; simpl;
    [|split; [done|by intros (?&?&?&?&?&_)]].
  destruct (try_parse_shell script) as [root|] eqn:Hr; simpl;
    [|split; [done|intros (?&?&?&?&?&?&_); congruence]].
  rewrite !has_named_descendant_kind_spec.
  assert (∀ k, existsb (is_kind k) (named_nodes root) = true ↔
               ∃ n, n ∈ named_nodes root ∧ kind n = lit k) as Hex.
  { intros k. rewrite existsb_exists. unfold is_kind.
    setoid_rewrite bool_decide_eq_true. by setoid_rewrite <-list_elem_of_In. }
  destruct (has_error root) eqn:He;
    [split; [done|intros (?&?&?&?&?&?&?&_); congruence]|].
  destruct (existsb (is_kind "heredoc_redirect") _) eqn:Hh; simpl.
  2: { split; [done|]. intros (?&?&?&?&?&?&?&Hx&_). simplify_eq.
       apply Hex in Hx. congruence. }
  destruct (existsb (is_kind "file_redirect") _) eqn:Hf; simpl.
  { split; [done|]. intros (?&?&?&?&?&?&?&_&Hx&_). simplify_eq.
    apply Hex in Hf as (n&Hn&Hk). by destruct (Hx n Hn). }
  apply Hex in Hh.
  assert (∀ n, n ∈ named_nodes root → kind n ≠ lit "file_redirect") as Hno.
  { intros n Hn Hk. assert (existsb (is_kind "file_redirect") (named_nodes root) = true)
      by (apply Hex; eauto). congruence. }
  destruct (find_single_command_node root) as [cmd|] eqn:Hc; simpl; naive_solver.
Qed.

(** ** Shell names *)

Lemma split_on_shorter sep s w : w ∈ split_on sep s → w = s ∨ length w < length s.
Proof.
  revert w. induction s as [|c s IH]; intros w; simpl.
  { intros ->%list_elem_of_singleton. by left. }
  destruct (split_on sep s) as [|x xs] eqn:Hs; [by destruct (split_on_not_nil sep s)|].
  destruct (decide (c = sep)).
  - rewrite elem_of_cons. intros [->|Hw]; [right; simpl; lia|].
    destruct (IH w Hw) as [->|?]; right; lia.
  - rewrite elem_of_cons. intros [->|Hw].
    + destruct (IH x ltac:(by left)) as [->|?]; [by left|right; simpl; lia].
    + destruct (IH w ltac:(by right)) as [->|?]; right; lia.
Qed.

Lemma file_name_piece p w : file_name (components p) = Some w → w ∈ split_on slash p.
Proof.
  unfold file_name, components. intros H.
  destruct (last _) as [c|] eqn:Hl; [|done]. apply last_Some_elem_of in Hl.
  destruct c; simplify_eq.
  assert (∀ x (ws : list (list N)), Normal x ∈ omap piece_component ws → x ∈ ws) as Homap.
  { intros x ws. rewrite list_elem_of_omap. intros (y&Hy&Hp). unfold piece_component in Hp.
    by repeat case_decide; simplify_eq. }
  destruct (split_on slash p) as [|v vs]; [by apply elem_of_nil in Hl|].
  rewrite elem_of_cons. destruct (is_absolute p).
  - apply elem_of_cons in Hl as [?|Hl]; [done|]. right. by apply Homap.
  - apply elem_of_app in Hl as [Hl|Hl]; [|right; by apply Homap].
    destruct (decide (v = _)).
    + by apply list_elem_of_singleton in Hl.
    + apply Homap, list_elem_of_singleton in Hl. by left.
Qed.

Lemma file_stem_shorter p name :
  file_stem p = Some name → components name ≠ components p → length name < length p.
Proof.
  unfold file_stem. destruct (file_name (components p)) as [w|] eqn:Hw; [|done].
  apply file_name_piece, split_on_shorter in Hw. intros Hs Hne.
  assert (name = w ∨ length name < length w) as Hname.
  { destruct (rsplit_once period w) as [[b a]|] eqn:Hr; [|left; congruence].
    apply rsplit_once_Some in Hr as ->. case_decide; simplify_eq; [by left|right].
    rewrite length_app. simpl. lia. }
  destruct Hname as [->|?], Hw as [->|?]; try lia. done.
Qed.

Lemma detect_loop_fuel fuel p :
  length p < fuel → detect_loop fuel p = detect_shell_type p.
Proof.
  revert fuel. induction p as [p IH] using (well_founded_induction (well_founded_ltof _ length)).
  intros [|fuel] Hf; [lia|]. unfold detect_shell_type. simpl.
  destruct (shell_of_name p); [done|]. destruct (file_stem p) as [name|] eqn:Hs; [|done].
  case_decide as Hne; [|done]. pose proof (file_stem_shorter _ _ Hs Hne) as Hlt.
  rewrite (IH name), (IH name); [done|exact Hlt|lia|exact Hlt|lia].
Qed.

(** The recursion of the code, without fuel: it always returns. *)
Lemma detect_shell_type_unfold p :
  detect_shell_type p =
  match shell_of_name p with
  | Some t => Some t
  | None =>
      match file_stem p with
      | Some name => if decide (components name ≠ components p) then detect_shell_type name else None
      | None => None
      end
  end.
Proof.
  unfold detect_shell_type at 1. simpl. destruct (shell_of_name p); [done|].
  destruct (file_stem p) as [name|] eqn:Hs; [|done]. case_decide as Hne; [|done].
  apply detect_loop_fuel, file_stem_shorter; done.
Qed.

Example detect_shells :
  (detect_shell_type <$> [lit "zsh"; lit "/usr/bin/bash"; lit "powershell.exe"; lit "fish";
                          lit "/opt/bash.v5/sh.real"; lit "bash/"]) =
  [Some Zsh; Some Bash; Some PowerShell; None; Some Sh; None].
Proof. vm_compute. reflexivity. Qed.

(** The tree of [ls && pwd] as the grammar gives it. *)
Definition ex_word (a b : nat) : Node := mkNode (lit "word") true false a b [].
Definition ex_command (a b : nat) : Node :=
  mkNode (lit "command") true false a b
    [mkNode (lit "command_name") true false a b [ex_word a b]].
Definition ex_tree : Node :=
  mkNode (lit "program") true false 0 9
    [mkNode (lit "list") true false 0 9
       [ex_command 0 2; mkNode (lit "&&") false false 3 5 []; ex_command 6 9]].

Lemma plain_commands_in_source_order_witness :
  try_parse_word_only_commands_sequence ex_tree (lit "ls && pwd") =
  Some [[lit "ls"]; [lit "pwd"]].
Proof.
  destruct (plain_commands_in_source_order ex_tree (lit "ls && pwd")) as (l & _ & _ & Hl & ->).
  rewrite Hl; [vm_compute; reflexivity|].
  unfold source_ordered.
  replace (filter command_node (all_nodes ex_tree)) with [ex_command 0 2; ex_command 6 9]
    by (vm_compute; reflexivity).
  repeat constructor.
Defined.

End ShellParse.
