(* ===== verification/CommandSafety.v ===== *)
(** * Safe and dangerous commands (shell-command/src/command_safety)

    [is_known_safe_command] decides which commands run without asking when only trusted
    commands may, [command_might_be_dangerous] which ones need an approval in any case.  The
    model is that of the Linux build: the Windows branches are compiled out, and [numfmt] and
    [tac] are on the list.  The parser of shell scripts is the parameter of [ShellParse]. *)

From stdpp Require Import prelude strings list.
From S2P Require Import Prelude RustStr AbsolutePath ShellParse.

Module CommandSafety.
Import AbsolutePath ShellParse.

(** Membership of a word in a table of literals. *)
Definition word_in (ws : list string) (w : str) : bool := bool_decide (w ∈ lit <$> ws).
Definition has_prefix (p : string) (w : str) : bool := starts_with (lit p) w.

(** ** is_dangerous_command.rs *)

Definition executable_name_lookup_key (raw : str) : option str := file_name (components raw).

Definition is_git_global_option_with_value (arg : str) : bool :=
  word_in ["-C"; "-c"; "--config-env"; "--exec-path"; "--git-dir"; "--namespace";
           "--super-prefix"; "--work-tree"] arg.

Definition is_git_global_option_with_inline_value (arg : str) : bool :=
  (has_prefix "--config-env=" arg || has_prefix "--exec-path=" arg ||
   has_prefix "--git-dir=" arg || has_prefix "--namespace=" arg ||
   has_prefix "--super-prefix=" arg || has_prefix "--work-tree=" arg)
  || ((has_prefix "-C" arg || has_prefix "-c" arg) && (2 <? byte_len arg)).

(** The loop of [find_git_subcommand] over the words from index [idx] on. *)
Fixpoint git_scan (subcommands : list string) (idx : nat) (skip_next : bool) (args : list str) :
    option (nat * list N) :=
  match args with
  | [] => None
  | arg :: args =>
      if skip_next then git_scan subcommands (S idx) false args
      else if is_git_global_option_with_inline_value arg then
        git_scan subcommands (S idx) false args
      else if is_git_global_option_with_value arg then git_scan subcommands (S idx) true args
      else if bool_decide (arg = lit "--") || has_prefix "-" arg then
        git_scan subcommands (S idx) false args
      else if word_in subcommands arg then Some (idx, arg)
      else None
  end.

Definition find_git_subcommand (command : list str) (subcommands : list string) :
    option (nat * list N) :=
  match command with
  | [] => None
  | cmd0 :: args =>
      if decide (executable_name_lookup_key cmd0 = Some (lit "git"))
      then git_scan subcommands 1 false args else None
  end.

Fixpoint is_dangerous_to_call_with_exec (command : list str) : bool :=
  match command with
  | [] => false
  | cmd0 :: args =>
      if decide (cmd0 = lit "rm") then
        match args with arg :: _ => word_in ["-f"; "-rf"] arg | [] => false end
      else if decide (cmd0 = lit "sudo") then is_dangerous_to_call_with_exec args
      else false
  end.

(** ** is_safe_command.rs *)

Inductive GitOptionPattern : Type :=
| Exact (option : string)
| ShortWithInlineValue (option : string)
| Prefix (prefix : string).

Definition pattern_matches (p : GitOptionPattern) (arg : str) : bool :=
  match p with
  | Exact o => bool_decide (arg = lit o)
  | ShortWithInlineValue o => has_prefix o arg && (byte_len (lit o) <? byte_len arg)
  | Prefix p => has_prefix p arg
  end.

Definition UNSAFE_GIT_GLOBAL_OPTIONS : list GitOptionPattern :=
  [Exact "-C"; ShortWithInlineValue "-C"; Exact "-c"; ShortWithInlineValue "-c"; Exact "-p";
   Exact "--config-env"; Prefix "--config-env="; Exact "--exec-path"; Prefix "--exec-path=";
   Exact "--git-dir"; Prefix "--git-dir="; Exact "--namespace"; Prefix "--namespace=";
   Exact "--paginate"; Exact "--super-prefix"; Prefix "--super-prefix=";
   Exact "--work-tree"; Prefix "--work-tree="].
Definition UNSAFE_GIT_SUBCOMMAND_OPTIONS : list GitOptionPattern :=
  [Exact "--output"; Prefix "--output="; Exact "--ext-diff"; Exact "--textconv";
   Exact "--exec"; Prefix "--exec="].

Definition git_matches_option_pattern (arg : str) (patterns : list GitOptionPattern) : bool :=
  existsb (λ p, pattern_matches p arg) patterns.
Definition git_has_unsafe_global_option (args : list str) : bool :=
  existsb (λ a, git_matches_option_pattern a UNSAFE_GIT_GLOBAL_OPTIONS) args.
Definition git_subcommand_args_are_read_only (args : list str) : bool :=
  negb (existsb (λ a, git_matches_option_pattern a UNSAFE_GIT_SUBCOMMAND_OPTIONS) args).

(** The loop of [git_branch_is_read_only]. *)
Fixpoint branch_flags (saw_read_only_flag : bool) (args : list str) : bool :=
  match args with
  | [] => saw_read_only_flag
  | arg :: args =>
      if word_in ["--list"; "-l"; "--show-current"; "-a"; "--all"; "-r"; "--remotes"; "-v";
                  "-vv"; "--verbose"] arg then branch_flags true args
      else if has_prefix "--format=" arg then branch_flags true args
      else false
  end.
Definition git_branch_is_read_only (branch_args : list str) : bool :=
  if decide (branch_args = []) then true else branch_flags false branch_args.

Definition GIT_SUBCOMMANDS : list string := ["status"; "log"; "diff"; "show"; "branch"].

Definition is_safe_git_command (command : list str) : bool :=
  match find_git_subcommand command GIT_SUBCOMMANDS with
  | None => false
  | Some (idx, subcommand) =>
      let global_args := take (idx - 1) (drop 1 command) in
      if git_has_unsafe_global_option global_args then false
      else
        let args := drop (S idx) command in
        if word_in ["status"; "log"; "diff"; "show"] subcommand
        then git_subcommand_args_are_read_only args
        else if decide (subcommand = lit "branch")
        then git_subcommand_args_are_read_only args && git_branch_is_read_only args
        else false
  end.

(** [/^(\d+,)?\d+p$/] by hand. *)
Definition is_number (s : str) : bool := negb (bool_decide (s = [])) && forallb is_ascii_digit s.
Definition comma : char := 44%N.
Definition is_valid_sed_n_arg (arg : option (list N)) : bool :=
  match arg with
  | None => false
  | Some s =>
      match strip_suffix (lit "p") s with
      | None => false
      | Some core =>
          match split_on comma core with
          | [num] => is_number num
          | [a; b] => is_number a && is_number b
          | _ => false
          end
      end
  end.

Definition ALWAYS_SAFE : list string :=
  ["cat"; "cd"; "cut"; "echo"; "expr"; "false"; "grep"; "head"; "id"; "ls"; "nl"; "paste";
   "pwd"; "rev"; "seq"; "stat"; "tail"; "tr"; "true"; "uname"; "uniq"; "wc"; "which"; "whoami"].

Definition base64_arg_unsafe (arg : str) : bool :=
  word_in ["-o"; "--output"] arg || has_prefix "--output=" arg
  || (has_prefix "-o" arg && negb (bool_decide (arg = lit "-o"))).
Definition find_arg_unsafe (arg : str) : bool :=
  word_in ["-exec"; "-execdir"; "-ok"; "-okdir"; "-delete"; "-fls"; "-fprint"; "-fprint0";
           "-fprintf"] arg.
Definition rg_arg_unsafe (arg : str) : bool :=
  word_in ["--search-zip"; "-z"] arg
  || existsb (λ opt, bool_decide (arg = lit opt) || starts_with (lit opt ++ lit "=") arg)
       ["--pre"; "--hostname-bin"].

Definition is_safe_to_call_with_exec (command : list str) : bool :=
  match command with
  | [] => false
  | cmd0 :: args =>
      match executable_name_lookup_key cmd0 with
      | None => false
      | Some cmd =>
          if word_in ["numfmt"; "tac"] cmd then true
          else if word_in ALWAYS_SAFE cmd then true
          else if decide (cmd = lit "base64") then negb (existsb base64_arg_unsafe args)
          else if decide (cmd = lit "find") then negb (existsb find_arg_unsafe command)
          else if decide (cmd = lit "rg") then negb (existsb rg_arg_unsafe command)
          else if decide (cmd = lit "git") then is_safe_git_command command
          else if decide (cmd = lit "sed") then
            (length command <=? 4) && bool_decide (command !! 1 = Some (lit "-n"))
            && is_valid_sed_n_arg (command !! 2)
          else false
      end
  end.

Section commands.
Variable try_parse_shell : str → option Node.

Definition command_might_be_dangerous (command : list str) : bool :=
  if is_dangerous_to_call_with_exec command then true
  else match parse_shell_lc_plain_commands try_parse_shell command with
       | Some all_commands => existsb is_dangerous_to_call_with_exec all_commands
       | None => false
       end.

Definition zsh_as_bash (s : str) : str := if decide (s = lit "zsh") then lit "bash" else s.

Definition is_known_safe_command (command : list str) : bool :=
  let command := zsh_as_bash <$> command in
  if is_safe_to_call_with_exec command then true
  else match parse_shell_lc_plain_commands try_parse_shell command with
       | Some all_commands =>
           negb (bool_decide (all_commands = [])) && forallb is_safe_to_call_with_exec all_commands
       | None => false
       end.
End commands.

(** ** Git *)

(** The option [o], alone or with an inline value. *)
Definition long_option (o : string) (a : str) : Prop :=
  a = lit o ∨ has_prefix (o +:+ "=") a = true.

(** Flags before the subcommand that make git read another repository or configuration, or
    start a pager. *)
Definition redirects_git (a : str) : Prop :=
  has_prefix "-C" a = true ∨ has_prefix "-c" a = true ∨ a ∈ lit <$> ["-p"; "--paginate"] ∨
  Exists (λ o, long_option o a)
    ["--config-env"; "--exec-path"; "--git-dir"; "--namespace"; "--super-prefix"; "--work-tree"].

(** Arguments that write a file or run a program. *)
Definition writes_or_runs (a : str) : Prop :=
  a ∈ lit <$> ["--ext-diff"; "--textconv"] ∨ Exists (λ o, long_option o a) ["--output"; "--exec"].

(** Arguments with which [git branch] lists. *)
Definition lists_branches (a : str) : Prop :=
  a ∈ lit <$> ["--list"; "-l"; "--show-current"; "-a"; "--all"; "-r"; "--remotes"; "-v"; "-vv";
               "--verbose"] ∨ has_prefix "--format=" a = true.

(** A read-only git invocation: only harmless flags before the subcommand, which is one of
    the known ones, and no argument after it that writes or executes. *)
Definition read_only_git (command : list str) : Prop :=
  ∃ cmd0 globals sub args,
    command = cmd0 :: globals ++ sub :: args ∧
    executable_name_lookup_key cmd0 = Some (lit "git") ∧
    Forall (λ a, has_prefix "-" a = true ∧ ¬ redirects_git a) globals ∧
    sub ∈ lit <$> ["status"; "log"; "diff"; "show"; "branch"] ∧
    Forall (λ a, ¬ writes_or_runs a) args ∧
    (sub = lit "branch" → Forall lists_branches args).

(** The tables of patterns, in these terms. *)
Lemma prefix_or_inline o a :
  bool_decide (a = lit o) || (has_prefix o a && (byte_len (lit o) <? byte_len a)) = true ↔
  has_prefix o a = true.
Proof.
  rewrite orb_true_iff, andb_true_iff, bool_decide_eq_true, Nat.ltb_lt. unfold has_prefix.
  rewrite starts_with_true. split; [intros [->|[? _]]; [exists []; by rewrite app_nil_r|done]|].
  intros [r ->]. destruct r as [|c r]; [left; by rewrite app_nil_r|right].
  split; [by eexists|]. rewrite byte_len_app. simpl. unfold len_utf8. repeat case_match; lia.
Qed.

Lemma unsafe_global_iff a :
  git_matches_option_pattern a UNSAFE_GIT_GLOBAL_OPTIONS = true ↔ redirects_git a.
Proof.
  unfold redirects_git. rewrite <-(prefix_or_inline "-C"), <-(prefix_or_inline "-c").
  unfold git_matches_option_pattern, UNSAFE_GIT_GLOBAL_OPTIONS, long_option.
  rewrite !Exists_cons, Exists_nil. cbn [existsb pattern_matches fmap list_fmap].
  rewrite !elem_of_cons, elem_of_nil, orb_false_r, !orb_true_iff, !bool_decide_eq_true.
  simpl (_ +:+ _). tauto.
Qed.

Lemma unsafe_subcommand_iff a :
  git_matches_option_pattern a UNSAFE_GIT_SUBCOMMAND_OPTIONS = true ↔ writes_or_runs a.
Proof.
  unfold git_matches_option_pattern, UNSAFE_GIT_SUBCOMMAND_OPTIONS, writes_or_runs, long_option.
  rewrite !Exists_cons, Exists_nil. cbn [existsb pattern_matches fmap list_fmap].
  rewrite !elem_of_cons, elem_of_nil, orb_false_r, !orb_true_iff, !bool_decide_eq_true.
  simpl (_ +:+ _). tauto.
Qed.

Lemma branch_flags_iff saw args :
  branch_flags saw args = true ↔ (saw = true ∨ args ≠ []) ∧ Forall lists_branches args.
Proof.
  revert saw. induction args as [|a args IH]; intros saw; simpl; [rewrite Forall_nil; naive_solver|].
  rewrite Forall_cons. unfold lists_branches at 1, word_in.
  case_bool_decide; [rewrite IH; naive_solver|].
  destruct (has_prefix _ a); [rewrite IH; naive_solver|naive_solver].
Qed.

Lemma git_branch_iff args : git_branch_is_read_only args = true ↔ Forall lists_branches args.
Proof.
  unfold git_branch_is_read_only. case_decide; [subst; by rewrite Forall_nil|].
  rewrite branch_flags_iff. naive_solver.
Qed.

(** Every option the scan takes to carry a value is an unsafe one. *)
Lemma value_option_unsafe a :
  is_git_global_option_with_value a = true →
  git_matches_option_pattern a UNSAFE_GIT_GLOBAL_OPTIONS = true.
Proof.
  unfold is_git_global_option_with_value, word_in. rewrite bool_decide_eq_true.
  intros Ha. repeat (apply elem_of_cons in Ha as [->|Ha]; [by vm_compute|]).
  by apply elem_of_nil in Ha.
Qed.
Lemma inline_option_unsafe a :
  is_git_global_option_with_inline_value a = true →
  git_matches_option_pattern a UNSAFE_GIT_GLOBAL_OPTIONS = true.
Proof.
  unfold is_git_global_option_with_inline_value, git_matches_option_pattern,
    UNSAFE_GIT_GLOBAL_OPTIONS. cbn [existsb pattern_matches].
  change (byte_len (lit "-C")) with 2. change (byte_len (lit "-c")) with 2.
  repeat match goal with |- context [has_prefix ?p a] => destruct (has_prefix p a) end;
    destruct (2 <? byte_len a); simpl; rewrite ?orb_true_r; done.
Qed.

Definition harmless_global (a : str) : Prop :=
  has_prefix "-" a = true ∧ git_matches_option_pattern a UNSAFE_GIT_GLOBAL_OPTIONS = false.

Lemma harmless_global_iff a : harmless_global a ↔ has_prefix "-" a = true ∧ ¬ redirects_git a.
Proof. unfold harmless_global. by rewrite <-unsafe_global_iff, not_true_iff_false. Qed.

Lemma git_scan_index subs idx skip args i sub :
  git_scan subs idx skip args = Some (i, sub) → idx ≤ i.
Proof.
  revert idx skip. induction args as [|a args IH]; intros idx skip; simpl; [done|].
  repeat case_match; intros Hs; simplify_eq; try done; apply IH in Hs; lia.
Qed.

Lemma git_scan_sound idx args i sub :
  git_scan GIT_SUBCOMMANDS idx false args = Some (i, sub) →
  git_has_unsafe_global_option (take (i - idx) args) = false →
  ∃ globals rest, args = globals ++ sub :: rest ∧ i = idx + length globals ∧
    Forall harmless_global globals ∧ sub ∈ lit <$> GIT_SUBCOMMANDS.
Proof.
  revert idx. induction args as [|a args IH]; intros idx; simpl; [done|]. intros Hs Hsafe.
  destruct (decide (i = idx)) as [->|Hne].
  { repeat case_match; simplify_eq;
      try (by apply git_scan_index in Hs; lia).
    exists [], args. split_and!; [done|simpl; lia|done|].
    match goal with H : word_in _ _ = true |- _ => by apply bool_decide_eq_true in H end. }
  assert (git_matches_option_pattern a UNSAFE_GIT_GLOBAL_OPTIONS = false ∧
          git_has_unsafe_global_option (take (i - S idx) args) = false) as [Ha Hrest].
  { assert (idx ≤ i) by (repeat case_match; simplify_eq; try apply git_scan_index in Hs; lia).
    replace (i - idx) with (S (i - S idx)) in Hsafe by lia. simpl in Hsafe.
    by apply orb_false_iff in Hsafe. }
  destruct (is_git_global_option_with_inline_value a) eqn:Hi.
  { apply inline_option_unsafe in Hi. congruence. }
  destruct (is_git_global_option_with_value a) eqn:Hv.
  { apply value_option_unsafe in Hv. congruence. }
  destruct (bool_decide (a = lit "--") || has_prefix "-" a) eqn:Hd.
  2: { destruct (word_in GIT_SUBCOMMANDS a); simplify_eq. }
  destruct (IH _ Hs Hrest) as (g&r&->&->&Hg&Hsub).
  exists (a :: g), r. split_and!; [done|simpl; lia| |done]. constructor; [|done].
  split; [|done]. apply orb_true_iff in Hd as [Hd|?]; [|done].
  apply bool_decide_eq_true in Hd as ->. by vm_compute.
Qed.

Lemma git_subcommand_scanned idx sub rest :
  sub ∈ lit <$> GIT_SUBCOMMANDS →
  git_scan GIT_SUBCOMMANDS idx false (sub :: rest) = Some (idx, sub).
Proof.
  intros H. repeat (apply elem_of_cons in H as [->|H]; [reflexivity|]). by apply elem_of_nil in H.
Qed.

Lemma git_scan_complete idx globals sub rest :
  Forall harmless_global globals → sub ∈ lit <$> GIT_SUBCOMMANDS →
  git_scan GIT_SUBCOMMANDS idx false (globals ++ sub :: rest) = Some (idx + length globals, sub).
Proof.
  intros Hg Hsub. revert idx. induction Hg as [|a g [Hp Hu] _ IH]; intros idx.
  { simpl app. rewrite git_subcommand_scanned by done. do 2 f_equal. simpl. lia. }
  cbn [app git_scan].
  destruct (is_git_global_option_with_inline_value a) eqn:Hi.
  { apply inline_option_unsafe in Hi. congruence. }
  destruct (is_git_global_option_with_value a) eqn:Hv.
  { apply value_option_unsafe in Hv. congruence. }
  rewrite Hp, orb_true_r, IH. do 2 f_equal. simpl. lia.
Qed.

Lemma drop_after {A} (g : list A) x rest : drop (S (length g)) (g ++ x :: rest) = rest.
Proof. induction g; simpl; [by rewrite drop_0|done]. Qed.

Lemma existsb_false_Forall {A} (f : A → bool) l : existsb f l = false ↔ Forall (λ x, f x = false) l.
Proof. induction l; simpl; rewrite ?orb_false_iff, ?Forall_cons, ?Forall_nil; naive_solver. Qed.

Lemma git_args_iff args :
  git_subcommand_args_are_read_only args = true ↔ Forall (λ a, ¬ writes_or_runs a) args.
Proof.
  unfold git_subcommand_args_are_read_only. rewrite negb_true_iff, existsb_false_Forall, !Forall_forall.
  by setoid_rewrite <-unsafe_subcommand_iff; setoid_rewrite not_true_iff_false.
Qed.

(** A git command is taken to be safe exactly when it is [git], then flags none of which
    redirects git or takes a value, then one of the read-only subcommands as the first word
    that is no flag, then arguments none of which writes a file or runs a program; a
    [git branch] only lists. *)
Theorem safe_git_is_read_only command : is_safe_git_command command = true ↔ read_only_git command.
Proof.
  unfold is_safe_git_command, find_git_subcommand, read_only_git. split.
  - destruct command as [|cmd0 args]; [done|]. case_decide as Hgit; [|done].
    destruct (git_scan _ _ _ _) as [[i sub]|] eqn:Hs; [|done]. simpl.
    destruct (git_has_unsafe_global_option _) eqn:Hu; [done|].
    destruct (git_scan_sound _ _ _ _ Hs Hu) as (g&rest&->&->&Hg&Hsub).
    intros H. exists cmd0, g, sub, rest. cbn [drop Nat.add] in H. rewrite drop_after in H.
    split_and!; try done.
    + eapply Forall_impl; [exact Hg|]. intros a. by rewrite harmless_global_iff.
    + apply git_args_iff. by destruct (git_subcommand_args_are_read_only rest); repeat case_match.
    + intros ->. apply git_branch_iff. by apply andb_true_iff in H as [_ H].
  - intros (cmd0&g&sub&rest&->&Hgit&Hg&Hsub&Hrest%git_args_iff&Hb). rewrite decide_True by done.
    assert (Forall harmless_global g) as Hh.
    { eapply Forall_impl; [exact Hg|]. intros a. by rewrite harmless_global_iff. }
    rewrite git_scan_complete by done. cbn [drop Nat.add Nat.sub].
    rewrite Nat.sub_0_r, drop_0, take_app_length, !drop_after, Hrest.
    replace (git_has_unsafe_global_option g) with false.
    2: { symmetry. apply existsb_false_Forall. eapply Forall_impl; [exact Hh|]. by intros ? []. }
    rewrite <-git_branch_iff in Hb. repeat (apply elem_of_cons in Hsub as [->|Hsub]; [by auto|]).
    by apply elem_of_nil in Hsub.
Qed.

(** ** The sed argument *)

Definition number (s : str) : Prop := s ≠ [] ∧ Forall (λ c, is_ascii_digit c = true) s.

Lemma is_number_spec s : is_number s = true ↔ number s.
Proof.
  unfold is_number, number. rewrite andb_true_iff, negb_true_iff, bool_decide_eq_false.
  rewrite forallb_forall, Forall_forall. by setoid_rewrite list_elem_of_In.
Qed.

Lemma number_no_comma s : number s → comma ∉ s.
Proof. intros [_ Hs] Hc. rewrite Forall_forall in Hs. by specialize (Hs _ Hc). Qed.

(** The argument test of [sed -n] accepts the language of the regular expression
    [^(\d+,)?\d+p$]: a line number or a range of two, then [p], and nothing else. *)
Theorem sed_argument_language s :
  is_valid_sed_n_arg (Some s) = true ↔
  ∃ range, s = range ++ lit "p" ∧
    (number range ∨ ∃ a b, range = a ++ comma :: b ∧ number a ∧ number b).
Proof.
  unfold is_valid_sed_n_arg. split.
  - destruct (strip_suffix _ s) as [core|] eqn:Hc; [|done].
    apply strip_suffix_Some in Hc as ->. intros H. exists core. split; [done|].
    rewrite <-(join_split_on comma core). destruct (split_on comma core) as [|a [|b [|]]]; try done.
    + left. by apply is_number_spec.
    + right. apply andb_true_iff in H as [Ha Hb]. exists a, b.
      split; [done|]. split; by apply is_number_spec.
  - intros (r&->&Hr). rewrite (proj2 (strip_suffix_Some _ _ r)) by done.
    destruct Hr as [Hn|(a&b&->&Ha&Hb)].
    + rewrite split_on_no_sep by (by apply number_no_comma). by apply is_number_spec.
    + rewrite split_on_app, !split_on_no_sep by (by apply number_no_comma). simpl.
      apply andb_true_iff. split; by apply is_number_spec.
Qed.

(** ** Safe commands are not dangerous *)

(** The names a safe command can have. *)
Definition SAFE_NAMES : list string :=
  ["numfmt"; "tac"] ++ ALWAYS_SAFE ++ ["base64"; "find"; "rg"; "git"; "sed"].

Lemma safe_exec_name cmd0 args :
  is_safe_to_call_with_exec (cmd0 :: args) = true →
  ∃ name, executable_name_lookup_key cmd0 = Some name ∧ name ∈ lit <$> SAFE_NAMES.
Proof.
  unfold is_safe_to_call_with_exec. destruct (executable_name_lookup_key cmd0) as [cmd|]; [|done].
  intros H. exists cmd. split; [done|]. unfold SAFE_NAMES. rewrite !fmap_app, !elem_of_app.
  destruct (word_in ["numfmt"; "tac"] cmd) eqn:H1; [left; by apply bool_decide_eq_true in H1|].
  destruct (word_in ALWAYS_SAFE cmd) eqn:H2; [right; left; by apply bool_decide_eq_true in H2|].
  right; right. repeat (case_decide; [subst; set_solver|]). done.
Qed.

Lemma safe_exec_not_dangerous command :
  is_safe_to_call_with_exec command = true → is_dangerous_to_call_with_exec command = false.
Proof.
  destruct command as [|cmd0 args]; [done|]. intros (name&Hn&Hin)%safe_exec_name. simpl.
  repeat case_decide; subst; try done; exfalso; vm_compute in Hn; simplify_eq;
    by apply (bool_decide_eq_true_2 _) in Hin.
Qed.

(** A program with such a name is no shell. *)
Lemma safe_name_not_shell p name :
  executable_name_lookup_key p = Some name → name ∈ lit <$> SAFE_NAMES →
  detect_shell_type p = None.
Proof.
  intros Hn Hin. rewrite detect_shell_type_unfold.
  assert (shell_of_name p = None) as ->.
  { unfold shell_of_name. repeat case_decide; subst; try done; exfalso;
      vm_compute in Hn; simplify_eq; by apply (bool_decide_eq_true_2 _) in Hin. }
  assert (rsplit_once period name = None ∧ detect_shell_type name = None) as [Hr Hd].
  { clear Hn. repeat (apply elem_of_cons in Hin as [->|Hin]; [by vm_compute|]).
    by apply elem_of_nil in Hin. }
  unfold file_stem. unfold executable_name_lookup_key in Hn. rewrite Hn, Hr.
  by case_decide.
Qed.

Lemma zsh_as_bash_extract shell flag script :
  script ≠ lit "zsh" →
  snd <$> extract_bash_command [zsh_as_bash shell; zsh_as_bash flag; zsh_as_bash script] =
  snd <$> extract_bash_command [shell; flag; script].
Proof.
  intros Hs. unfold zsh_as_bash. rewrite (decide_False (P := script = _)) by done.
  destruct (decide (flag = lit "zsh")) as [->|]; [done|].
  destruct (decide (shell = lit "zsh")) as [->|]; [|done].
  unfold extract_bash_command.
  replace (detect_shell_type (lit "bash")) with (Some Bash) by reflexivity.
  replace (detect_shell_type (lit "zsh")) with (Some Zsh) by reflexivity.
  by destruct (bool_decide _).
Qed.

Lemma zsh_as_bash_parse try_parse_shell command :
  command !! 2 ≠ Some (lit "zsh") →
  parse_shell_lc_plain_commands try_parse_shell (zsh_as_bash <$> command) =
  parse_shell_lc_plain_commands try_parse_shell command.
Proof.
  intros H2. destruct command as [|a [|b [|c [|d l]]]]; try done.
  assert (c ≠ lit "zsh") as Hc by (intros ->; done).
  pose proof (zsh_as_bash_extract a b c Hc) as He.
  unfold parse_shell_lc_plain_commands. change (zsh_as_bash <$> [a; b; c])
    with [zsh_as_bash a; zsh_as_bash b; zsh_as_bash c].
  by destruct (extract_bash_command [a; b; c]) as [[]|],
    (extract_bash_command [zsh_as_bash a; _; _]) as [[]|]; simplify_eq/=.
Qed.

(** Whatever tree the parser returns, no command is at once known to be safe and
    possibly dangerous: not as it stands, not through [sudo], and not by any command of its
    script.  (A script that is only the word [zsh] is read as [bash] by one of the two
    functions, so it is left out.) *)
Theorem safe_is_never_dangerous try_parse_shell command :
  command !! 2 ≠ Some (lit "zsh") →
  is_known_safe_command try_parse_shell command = true →
  command_might_be_dangerous try_parse_shell command = false.
Proof.
  intros Hz. unfold is_known_safe_command, command_might_be_dangerous.
  rewrite zsh_as_bash_parse by done.
  destruct (is_safe_to_call_with_exec _) eqn:Hsafe.
  - intros _. destruct command as [|cmd0 args]; [done|].
    pose proof Hsafe as (name&Hn&Hin)%safe_exec_name.
    assert (cmd0 ≠ lit "zsh" ∧ zsh_as_bash cmd0 = cmd0) as [Hzsh Hcmd0].
    { unfold zsh_as_bash in *. case_decide; [|done]. exfalso. vm_compute in Hn. simplify_eq;
      by apply (bool_decide_eq_true_2 _) in Hin. }
    rewrite Hcmd0 in Hn.
    replace (is_dangerous_to_call_with_exec (cmd0 :: args)) with false.
    2: { simpl. repeat case_decide; subst; try done; exfalso; vm_compute in Hn; simplify_eq;
           by apply (bool_decide_eq_true_2 _) in Hin. }
    unfold parse_shell_lc_plain_commands, extract_bash_command.
    destruct args as [|flag [|script [|]]]; try done.
    rewrite (safe_name_not_shell cmd0 name), andb_false_r by done. done.
  - destruct (parse_shell_lc_plain_commands _ _) as [cmds|] eqn:Hp; [|done].
    intros [_ Hall]%andb_true_iff.
    replace (existsb is_dangerous_to_call_with_exec cmds) with false.
    2: { symmetry. apply existsb_false_Forall, Forall_forall. intros c Hc.
         rewrite forallb_forall in Hall. apply safe_exec_not_dangerous, Hall, list_elem_of_In, Hc. }
    destruct (is_dangerous_to_call_with_exec command) eqn:Hd; [|done]. exfalso.
    unfold parse_shell_lc_plain_commands, extract_bash_command in Hp.
    destruct command as [|cmd0 [|flag [|script [|]]]]; try done. simpl in Hd.
    by repeat case_decide; subst.
Qed.

Lemma safe_is_never_dangerous_witness :
  command_might_be_dangerous (λ _, Some ex_tree) [lit "bash"; lit "-lc"; lit "ls && pwd"] = false.
Proof.
  apply safe_is_never_dangerous; [by vm_compute|]. vm_compute. reflexivity.
Defined.

End CommandSafety.
