(* ===== verification/Permissions.v ===== *)
(** * Permission profiles (protocol/src/permissions.rs, protocol/src/models.rs)

    What a turn may read and write is a [FileSystemSandboxPolicy]: a list of entries that
    give an access mode to a path, a glob or a symbolic place ([:root], the workspace,
    [TMPDIR], [/tmp]).  The file models the policy, how symbolic entries resolve for a working
    directory, how the access of a path is decided, the protection of [.git], [.agents] and
    [.codex], the ways policies are built and widened, and the translations to and from the
    profiles and the legacy policy.  The state of the host the code looks at (environment
    variables and the file system) is the record [host].  A [PathBuf] is its list of
    components, so two of them are equal when Rust says so. *)

From stdpp Require Import prelude strings list.
From S2P Require Import Prelude RustStr AbsolutePath.

Module Permissions.
Import AbsolutePath.

(** ** Data *)

Record host : Type := mkHost {
  home_var : option str;
  process_cwd : result str (list N);
  tmpdir_var : option str;
  is_dir : list Component → bool;
  is_file : list Component → bool;
  path_exists : list Component → bool;
  read_to_string : list Component → option str }.

Inductive NetworkSandboxPolicy : Type := NetRestricted | NetEnabled.
Definition net_is_enabled (n : NetworkSandboxPolicy) : bool :=
  match n with NetEnabled => true | NetRestricted => false end.

(** In the order of the derived [Ord]: deny beats write, write beats read. *)
Inductive FileSystemAccessMode : Type := Read | Write | Deny.
Definition access_rank (a : FileSystemAccessMode) : nat :=
  match a with Read => 0 | Write => 1 | Deny => 2 end.
Definition can_read (a : FileSystemAccessMode) : bool :=
  match a with Deny => false | _ => true end.
Definition can_write (a : FileSystemAccessMode) : bool :=
  match a with Write => true | _ => false end.

Inductive FileSystemSpecialPath : Type :=
| Root
| Minimal
| ProjectRoots (subpath : option (list Component))
| Tmpdir
| SlashTmp
| Unknown (path : str) (subpath : option (list Component)).

Inductive FileSystemPath : Type :=
| AtPath (path : list Component)
| GlobPattern (pattern : str)
| Special (value : FileSystemSpecialPath).

Record FileSystemSandboxEntry : Type := mkEntry {
  entry_path : FileSystemPath; entry_access : FileSystemAccessMode }.

Inductive FileSystemSandboxKind : Type := Restricted | Unrestricted | ExternalSandbox.

Record FileSystemSandboxPolicy : Type := mkFsPolicy {
  fs_kind : FileSystemSandboxKind;
  glob_scan_max_depth : option nat;
  entries : list FileSystemSandboxEntry }.

Record ResolvedFileSystemEntry : Type := mkResolved {
  resolved_path : list Component; resolved_access : FileSystemAccessMode }.

#[global] Instance access_eq_dec : EqDecision FileSystemAccessMode.
Proof. solve_decision. Defined.
#[global] Instance fs_kind_eq_dec : EqDecision FileSystemSandboxKind.
Proof. solve_decision. Defined.
#[global] Instance net_eq_dec : EqDecision NetworkSandboxPolicy.
Proof. solve_decision. Defined.

Definition is_restricted (p : FileSystemSandboxPolicy) : bool :=
  bool_decide (fs_kind p = Restricted).
Definition denies (e : FileSystemSandboxEntry) : bool := bool_decide (entry_access e = Deny).
Definition set_entries (p : FileSystemSandboxPolicy) (es : list FileSystemSandboxEntry) :
    FileSystemSandboxPolicy := mkFsPolicy (fs_kind p) (glob_scan_max_depth p) es.
Definition push_entry (p : FileSystemSandboxPolicy) (path : FileSystemPath)
    (access : FileSystemAccessMode) : FileSystemSandboxPolicy :=
  set_entries p (entries p ++ [mkEntry path access]).

Definition special_eqb (a b : FileSystemSpecialPath) : bool :=
  match a, b with
  | Root, Root | Minimal, Minimal | Tmpdir, Tmpdir | SlashTmp, SlashTmp => true
  | ProjectRoots s, ProjectRoots t => bool_decide (s = t)
  | Unknown p s, Unknown q t => bool_decide (p = q) && bool_decide (s = t)
  | _, _ => false
  end.
Definition fs_path_eqb (a b : FileSystemPath) : bool :=
  match a, b with
  | AtPath p, AtPath q => bool_decide (p = q)
  | GlobPattern p, GlobPattern q => bool_decide (p = q)
  | Special v, Special w => special_eqb v w
  | _, _ => false
  end.
Definition entry_eqb (a b : FileSystemSandboxEntry) : bool :=
  fs_path_eqb (entry_path a) (entry_path b) && bool_decide (entry_access a = entry_access b).

(** ** Constructors of policies *)

Definition restricted (es : list FileSystemSandboxEntry) : FileSystemSandboxPolicy :=
  mkFsPolicy Restricted None es.
Definition unrestricted : FileSystemSandboxPolicy := mkFsPolicy Unrestricted None [].
Definition external_sandbox : FileSystemSandboxPolicy := mkFsPolicy ExternalSandbox None [].
Definition read_only_file_system_entries : list FileSystemSandboxEntry :=
  [mkEntry (Special Root) Read].
Definition read_only : FileSystemSandboxPolicy := restricted read_only_file_system_entries.

(** ** Targets of entries *)

Definition special_paths_share_target (left right : FileSystemSpecialPath) : bool :=
  match left, right with
  | Root, Root | Minimal, Minimal | Tmpdir, Tmpdir | SlashTmp, SlashTmp => true
  | ProjectRoots s, ProjectRoots t => bool_decide (s = t)
  | Unknown p s, Unknown q t => bool_decide (p = q) && bool_decide (s = t)
  | _, _ => false
  end.

Definition slash_tmp : list Component := [RootDir; Normal (lit "tmp")].

Definition special_path_matches_absolute_path (value : FileSystemSpecialPath)
    (path : list Component) : bool :=
  match value with
  | Root => bool_decide (parent path = None)
  | SlashTmp => bool_decide (path = slash_tmp)
  | _ => false
  end.

Definition file_system_paths_share_target (left right : FileSystemPath) : bool :=
  match left, right with
  | AtPath l, AtPath r => bool_decide (l = r)
  | Special l, Special r => special_paths_share_target l r
  | AtPath p, Special v | Special v, AtPath p => special_path_matches_absolute_path v p
  | GlobPattern l, GlobPattern r => bool_decide (l = r)
  | GlobPattern _, _ | _, GlobPattern _ => false
  end.

(** ** Whole-disk access *)

Definition has_root_access (p : FileSystemSandboxPolicy) (predicate : FileSystemAccessMode → bool) :
    bool :=
  is_restricted p &&
  existsb (λ e, match entry_path e with Special Root => predicate (entry_access e) | _ => false end)
    (entries p).

Definition has_denied_read_restrictions (p : FileSystemSandboxPolicy) : bool :=
  is_restricted p && existsb denies (entries p).

Definition has_same_target_write_override (p : FileSystemSandboxPolicy)
    (e : FileSystemSandboxEntry) : bool :=
  existsb (λ c, can_write (entry_access c)
                && (access_rank (entry_access e) <? access_rank (entry_access c))
                && file_system_paths_share_target (entry_path c) (entry_path e)) (entries p).

Definition narrows_write (p : FileSystemSandboxPolicy) (e : FileSystemSandboxEntry) : bool :=
  if can_write (entry_access e) then false
  else match entry_path e with
       | AtPath _ => negb (has_same_target_write_override p e)
       | GlobPattern _ => true
       | Special Root => bool_decide (entry_access e = Deny)
       | Special Minimal | Special (Unknown _ _) => false
       | Special _ => negb (has_same_target_write_override p e)
       end.
Definition has_write_narrowing_entries (p : FileSystemSandboxPolicy) : bool :=
  is_restricted p && existsb (narrows_write p) (entries p).

Definition has_full_disk_read_access (p : FileSystemSandboxPolicy) : bool :=
  match fs_kind p with
  | Unrestricted | ExternalSandbox => true
  | Restricted => has_root_access p can_read && negb (has_denied_read_restrictions p)
  end.
Definition has_full_disk_write_access (p : FileSystemSandboxPolicy) : bool :=
  match fs_kind p with
  | Unrestricted | ExternalSandbox => true
  | Restricted => has_root_access p can_write && negb (has_write_narrowing_entries p)
  end.
Definition include_platform_defaults (p : FileSystemSandboxPolicy) : bool :=
  negb (has_full_disk_read_access p) && is_restricted p &&
  existsb (λ e, match entry_path e with
                | Special Minimal => can_read (entry_access e)
                | _ => false
                end) (entries p).

Section host.
Variable h : host.

(** ** Resolving entries *)

Definition absolute (p : str) : option (list Component) :=
  result_ok (from_absolute_path (home_var h) (process_cwd h) p).
(** [AbsolutePathBuf::join]. *)
Definition abs_join (base : list Component) (p : str) : list Component :=
  resolve_path_against_base (home_var h) p (path_string base).

(** The last ancestor of an absolute path is its root. *)
Definition absolute_root_path_for_cwd (cwd : list Component) : list Component := take 1 cwd.

Definition resolve_file_system_special_path (value : FileSystemSpecialPath)
    (cwd : option (list Component)) : option (list Component) :=
  match value with
  | Root | Minimal | Unknown _ _ => None
  | ProjectRoots subpath =>
      cwd ← cwd;
      match subpath with
      | Some s => Some (abs_join cwd (path_string s))
      | None => Some cwd
      end
  | Tmpdir =>
      tmpdir ← tmpdir_var h;
      if decide (tmpdir = []) then None else absolute tmpdir
  | SlashTmp => if is_dir h slash_tmp then Some slash_tmp else None
  end.

Definition resolve_file_system_path (path : FileSystemPath) (cwd : option (list Component)) :
    option (list Component) :=
  match path with
  | AtPath p => Some p
  | GlobPattern _ => None
  | Special value => resolve_file_system_special_path value cwd
  end.
Definition resolve_entry_path (path : FileSystemPath) (cwd : option (list Component)) :
    option (list Component) :=
  match path with
  | Special Root => absolute_root_path_for_cwd <$> cwd
  | _ => resolve_file_system_path path cwd
  end.

Definition resolve_candidate_path (path cwd : str) : option (list Component) :=
  if is_absolute path then absolute path
  else cwd ← absolute cwd; Some (abs_join cwd path).

Definition resolved_entries_with_cwd (p : FileSystemSandboxPolicy) (cwd : str) :
    list ResolvedFileSystemEntry :=
  let cwd_absolute := absolute cwd in
  omap (λ e, (λ path, mkResolved path (entry_access e)) <$>
               resolve_entry_path (entry_path e) cwd_absolute) (entries p).

(** ** The access of a path *)

(** [Path::starts_with] on component lists. *)
Definition path_starts_with (path prefix : list Component) : bool :=
  bool_decide (prefix `prefix_of` path).

Definition resolved_entry_precedence (e : ResolvedFileSystemEntry) : nat * nat :=
  (length (resolved_path e), access_rank (resolved_access e)).
Definition precedence_leb (a b : nat * nat) : bool :=
  (a.1 <? b.1) || ((a.1 =? b.1) && (a.2 <=? b.2)).

(** [Iterator::max_by_key]: the last of the greatest elements. *)
Definition max_step (best : option ResolvedFileSystemEntry) (e : ResolvedFileSystemEntry) :
    option ResolvedFileSystemEntry :=
  match best with
  | None => Some e
  | Some b =>
      if precedence_leb (resolved_entry_precedence b) (resolved_entry_precedence e)
      then Some e else Some b
  end.
Definition max_by_precedence (es : list ResolvedFileSystemEntry) : option ResolvedFileSystemEntry :=
  foldl max_step None es.

Definition resolve_access_with_cwd (p : FileSystemSandboxPolicy) (path cwd : str) :
    FileSystemAccessMode :=
  match fs_kind p with
  | Unrestricted | ExternalSandbox => Write
  | Restricted =>
      match resolve_candidate_path path cwd with
      | None => Deny
      | Some path =>
          match max_by_precedence
                  (filter (λ e, path_starts_with path (resolved_path e) = true)
                     (resolved_entries_with_cwd p cwd)) with
          | Some e => resolved_access e
          | None => Deny
          end
      end
  end.

Definition can_read_path_with_cwd (p : FileSystemSandboxPolicy) (path cwd : str) : bool :=
  can_read (resolve_access_with_cwd p path cwd).

(** ** Protected metadata *)

Definition PROTECTED_METADATA_PATH_NAMES : list (list N) :=
  [lit ".git"; lit ".agents"; lit ".codex"].
Definition metadata_path_name (name : str) : option (list N) :=
  if decide (name ∈ PROTECTED_METADATA_PATH_NAMES) then Some name else None.

(** [target.strip_prefix(root)] and the first component of the rest. *)
Definition first_below (target root : list Component) : option Component :=
  if path_starts_with target root then head (drop (length root) target) else None.

Definition metadata_child (target : list Component) (e : ResolvedFileSystemEntry) :
    option (list Component * list N) :=
  if can_write (resolved_access e) then
    c ← first_below target (resolved_path e);
    name ← metadata_path_name (component_str c);
    Some (abs_join (resolved_path e) name, name)
  else None.
Definition metadata_child_of_writable_root (p : FileSystemSandboxPolicy)
    (target : list Component) (cwd : str) : option (list Component * list N) :=
  head (omap (metadata_child target) (resolved_entries_with_cwd p cwd)).

Definition has_explicit_write_entry_for_metadata_path (p : FileSystemSandboxPolicy)
    (protected target : list Component) (cwd : str) : bool :=
  existsb (λ e, can_write (resolved_access e) && path_starts_with target (resolved_path e)
                && path_starts_with (resolved_path e) protected)
    (resolved_entries_with_cwd p cwd).

Definition is_metadata_write_denied (p : FileSystemSandboxPolicy) (path cwd : str) : bool :=
  if negb (is_restricted p) then false
  else match resolve_candidate_path path cwd with
       | None => true
       | Some target =>
           match metadata_child_of_writable_root p target cwd with
           | None => false
           | Some (protected, _) =>
               negb (has_explicit_write_entry_for_metadata_path p protected target cwd)
           end
       end.

Definition can_write_path_with_cwd (p : FileSystemSandboxPolicy) (path cwd : str) : bool :=
  if negb (can_write (resolve_access_with_cwd p path cwd)) then false
  else if has_full_disk_write_access p then true
  else negb (is_metadata_write_denied p path cwd).

Definition forbidden_agent_metadata_write (path cwd : str) (p : FileSystemSandboxPolicy) :
    option (list N) :=
  if negb (is_restricted p) then None
  else
    target ← resolve_candidate_path path cwd;
    '(protected, name) ← metadata_child_of_writable_root p target cwd;
    if has_explicit_write_entry_for_metadata_path p protected target cwd then None
    else if negb (can_write_path_with_cwd p (path_string target) cwd) then Some name
    else None.

(** ** Building and widening policies *)

(** [dedup_absolute_paths] without the normalisation of symbolic links. *)
Definition dedup_step (acc : list (list Component)) (p : list Component) : list (list Component) :=
  if decide (p ∈ acc) then acc else acc ++ [p].
Definition dedup_absolute_paths (ps : list (list Component)) : list (list Component) :=
  foldl dedup_step [] ps.

Definition is_git_pointer_file (path : list Component) : bool :=
  is_file h path && bool_decide (file_name path = Some (lit ".git")).

Definition colon : char := 58%N.
Definition resolve_gitdir_from_file (dot_git : list Component) : option (list Component) :=
  contents ← read_to_string h dot_git;
  '(prefix, gitdir_raw) ← split_once colon (trim contents);
  if decide (trim prefix = lit "gitdir") then
    let gitdir_raw := trim gitdir_raw in
    if decide (gitdir_raw = []) then None
    else
      base ← parent dot_git;
      let gitdir_path := abs_join base gitdir_raw in
      if path_exists h gitdir_path then Some gitdir_path else None
  else None.

Definition default_read_only_subpaths_for_writable_root (writable_root : list Component)
    (protect_missing_dot_codex : bool) : list (list Component) :=
  let top_level_git := abs_join writable_root (lit ".git") in
  let git_paths :=
    if is_dir h top_level_git || is_file h top_level_git then
      (if is_file h top_level_git && is_git_pointer_file top_level_git
       then option_list (resolve_gitdir_from_file top_level_git) else []) ++ [top_level_git]
    else [] in
  let top_level_agents := abs_join writable_root (lit ".agents") in
  let agents_paths := if is_dir h top_level_agents then [top_level_agents] else [] in
  let top_level_codex := abs_join writable_root (lit ".codex") in
  let codex_paths :=
    if protect_missing_dot_codex || is_dir h top_level_codex then [top_level_codex] else [] in
  dedup_absolute_paths (git_paths ++ agents_paths ++ codex_paths).

Definition append_default_read_only_entry_if_no_explicit_rule
    (es : list FileSystemSandboxEntry) (path : FileSystemPath) : list FileSystemSandboxEntry :=
  if existsb (λ e, file_system_paths_share_target (entry_path e) path) es then es
  else es ++ [mkEntry path Read].
Definition append_default_read_only_path_if_no_explicit_rule
    (es : list FileSystemSandboxEntry) (path : list Component) : list FileSystemSandboxEntry :=
  append_default_read_only_entry_if_no_explicit_rule es (AtPath path).
Definition append_default_read_only_project_root_subpath_if_no_explicit_rule
    (es : list FileSystemSandboxEntry) (subpath : str) : list FileSystemSandboxEntry :=
  append_default_read_only_entry_if_no_explicit_rule es
    (Special (ProjectRoots (Some (components subpath)))).

(** The read-only carve-outs of one writable root. *)
Definition protect_root (protect_missing : bool) (es : list FileSystemSandboxEntry)
    (root : list Component) : list FileSystemSandboxEntry :=
  foldl append_default_read_only_path_if_no_explicit_rule es
    (default_read_only_subpaths_for_writable_root root protect_missing).

Definition workspace_write (writable_roots : list (list Component))
    (exclude_tmpdir_env_var exclude_slash_tmp : bool) : FileSystemSandboxPolicy :=
  let es := [mkEntry (Special Root) Read; mkEntry (Special (ProjectRoots None)) Write] in
  let es := if exclude_slash_tmp then es else es ++ [mkEntry (Special SlashTmp) Write] in
  let es := if exclude_tmpdir_env_var then es else es ++ [mkEntry (Special Tmpdir) Write] in
  let es := es ++ ((λ path, mkEntry (AtPath path) Write) <$> writable_roots) in
  let es := foldl append_default_read_only_project_root_subpath_if_no_explicit_rule es
              [lit ".git"; lit ".agents"; lit ".codex"] in
  restricted (foldl (protect_root false) es writable_roots).

Definition with_additional_readable_roots (cwd : str) (roots : list (list Component))
    (p : FileSystemSandboxPolicy) : FileSystemSandboxPolicy :=
  if has_full_disk_read_access p then p
  else foldl (λ p path,
         if can_read_path_with_cwd p (path_string path) cwd then p
         else push_entry p (AtPath path) Read) p roots.
Definition with_additional_writable_roots (cwd : str) (roots : list (list Component))
    (p : FileSystemSandboxPolicy) : FileSystemSandboxPolicy :=
  foldl (λ p path,
    if can_write_path_with_cwd p (path_string path) cwd then p
    else push_entry p (AtPath path) Write) p roots.

Definition writes_path (path : list Component) (e : FileSystemSandboxEntry) : bool :=
  can_write (entry_access e) &&
  match entry_path e with AtPath q => bool_decide (q = path) | _ => false end.
Definition with_additional_legacy_workspace_writable_roots (roots : list (list Component))
    (p : FileSystemSandboxPolicy) : FileSystemSandboxPolicy :=
  if negb (is_restricted p) then p
  else foldl (λ p path,
         let p := if existsb (writes_path path) (entries p) then p
                  else push_entry p (AtPath path) Write in
         set_entries p (protect_root false (entries p) path)) p roots.

(** Deny entries that are missing are appended. *)
Definition add_missing_entry (es : list FileSystemSandboxEntry) (e : FileSystemSandboxEntry) :
    list FileSystemSandboxEntry :=
  if existsb (λ x, entry_eqb x e) es then es else es ++ [e].
Definition preserve_deny_read_restrictions_from (existing p : FileSystemSandboxPolicy) :
    FileSystemSandboxPolicy :=
  let has_deny_read_entries := existsb denies (entries existing) in
  let p := if bool_decide (fs_kind p = Unrestricted) && has_deny_read_entries
           then restricted [mkEntry (Special Root) Write] else p in
  if negb (is_restricted p) then p
  else mkFsPolicy (fs_kind p)
         (match glob_scan_max_depth p with
          | None => glob_scan_max_depth existing
          | d => d
          end)
         (foldl add_missing_entry (entries p) (filter (λ e, denies e = true) (entries existing))).

(** ** Symbolic workspace roots *)

Definition PROJECT_ROOTS_GLOB_PATTERN_PREFIX : str := lit "codex-project-roots://".
Definition parse_project_roots_glob_pattern (pattern : str) : option (list N) :=
  strip_prefix PROJECT_ROOTS_GLOB_PATTERN_PREFIX pattern.
Definition resolve_project_roots_glob_pattern (subpath : str) (root : list Component) : str :=
  path_string (abs_join root subpath).

Definition materialize_entry_with_cwd (cwd : option (list Component)) (e : FileSystemSandboxEntry) :
    FileSystemSandboxEntry :=
  match entry_path e with
  | Special (ProjectRoots _) =>
      match resolve_file_system_path (entry_path e) cwd with
      | Some path => mkEntry (AtPath path) (entry_access e)
      | None => e
      end
  | GlobPattern pattern =>
      match cwd, parse_project_roots_glob_pattern pattern with
      | Some cwd, Some subpath =>
          mkEntry (GlobPattern (resolve_project_roots_glob_pattern subpath cwd)) (entry_access e)
      | _, _ => e
      end
  | _ => e
  end.
Definition materialize_project_roots_with_cwd (p : FileSystemSandboxPolicy) (cwd : str) :
    FileSystemSandboxPolicy :=
  set_entries p (materialize_entry_with_cwd (absolute cwd) <$> entries p).

Definition materialize_entry (workspace_roots : list (list Component)) (e : FileSystemSandboxEntry) :
    list FileSystemSandboxEntry :=
  match entry_path e with
  | Special (ProjectRoots subpath) =>
      (λ root, mkEntry (AtPath (match subpath with
                                | Some s => abs_join root (path_string s)
                                | None => root
                                end)) (entry_access e)) <$> workspace_roots
  | GlobPattern pattern =>
      match parse_project_roots_glob_pattern pattern with
      | Some subpath =>
          (λ root, mkEntry (GlobPattern (resolve_project_roots_glob_pattern subpath root))
                     (entry_access e)) <$> workspace_roots
      | None => [mkEntry (GlobPattern pattern) (entry_access e)]
      end
  | AtPath path => [mkEntry (AtPath path) (entry_access e)]
  | Special value => [mkEntry (Special value) (entry_access e)]
  end.
Definition materialize_project_roots_with_workspace_roots
    (workspace_roots : list (list Component)) (p : FileSystemSandboxPolicy) :
    FileSystemSandboxPolicy :=
  set_entries p (concat (materialize_entry workspace_roots <$> entries p)).
Definition with_materialized_project_roots_for_workspace_roots
    (workspace_roots : list (list Component)) (p : FileSystemSandboxPolicy) :
    FileSystemSandboxPolicy :=
  set_entries p
    (foldl add_missing_entry (entries p)
       (entries (materialize_project_roots_with_workspace_roots workspace_roots p))).
End host.

(** ** The legacy policy *)

Inductive NetworkAccess : Type := AccessRestricted | AccessEnabled.
Definition access_is_enabled (n : NetworkAccess) : bool :=
  match n with AccessEnabled => true | AccessRestricted => false end.

Inductive SandboxPolicy : Type :=
| DangerFullAccess
| ReadOnly (network_access : bool)
| ExternalSandboxPolicy (network_access : NetworkAccess)
| WorkspaceWrite (writable_roots : list (list Component))
    (network_access exclude_tmpdir_env_var exclude_slash_tmp : bool).

Definition has_full_network_access (sp : SandboxPolicy) : bool :=
  match sp with
  | DangerFullAccess => true
  | ExternalSandboxPolicy n => access_is_enabled n
  | ReadOnly n => n
  | WorkspaceWrite _ n _ _ => n
  end.

(** [From<&SandboxPolicy>] for the two halves. *)
Definition network_of_legacy (sp : SandboxPolicy) : NetworkSandboxPolicy :=
  if has_full_network_access sp then NetEnabled else NetRestricted.
Definition file_system_of_legacy (h : host) (sp : SandboxPolicy) : FileSystemSandboxPolicy :=
  match sp with
  | DangerFullAccess => unrestricted
  | ExternalSandboxPolicy _ => external_sandbox
  | ReadOnly _ => restricted [mkEntry (Special Root) Read]
  | WorkspaceWrite roots _ ex_tmpdir ex_slash_tmp => workspace_write h roots ex_tmpdir ex_slash_tmp
  end.

Definition from_legacy_sandbox_policy_for_cwd (h : host) (sp : SandboxPolicy) (cwd : str) :
    FileSystemSandboxPolicy :=
  let p := file_system_of_legacy h sp in
  match sp with
  | WorkspaceWrite roots _ _ _ =>
      let es := match absolute h cwd with
                | Some cwd_root => protect_root h true (entries p) cwd_root
                | None => entries p
                end in
      set_entries p (foldl (protect_root h false) es roots)
  | _ => p
  end.

Definition from_legacy_sandbox_policy_preserving_deny_entries (h : host) (sp : SandboxPolicy)
    (cwd : str) (existing : FileSystemSandboxPolicy) : FileSystemSandboxPolicy :=
  let rebuilt := from_legacy_sandbox_policy_for_cwd h sp cwd in
  if negb (is_restricted rebuilt) then rebuilt
  else mkFsPolicy (fs_kind rebuilt) (glob_scan_max_depth existing)
         (foldl add_missing_entry (entries rebuilt)
            (filter (λ e, denies e = true) (entries existing))).

(** The flags the loop of [to_legacy_sandbox_policy] collects. *)
Record bridge : Type := mkBridge {
  workspace_root_writable : bool;
  bridge_roots : list (list Component);
  tmpdir_writable : bool;
  slash_tmp_writable : bool;
  unbridgeable_root_write : bool }.

Definition bridge_step (h : host) (cwd : option (list Component)) (b : bridge)
    (e : FileSystemSandboxEntry) : bridge :=
  let 'mkBridge w rs t s u := b in
  match entry_path e with
  | GlobPattern _ => b
  | AtPath path =>
      if can_write (entry_access e) then
        if bool_decide (cwd = Some path) then mkBridge true rs t s u
        else mkBridge w (rs ++ [path]) t s u
      else b
  | Special Root =>
      match entry_access e with Write => mkBridge w rs t s true | _ => b end
  | Special Minimal => b
  | Special (ProjectRoots subpath as value) =>
      if bool_decide (subpath = None) && can_write (entry_access e) then mkBridge true rs t s u
      else match resolve_file_system_special_path h value cwd with
           | Some path =>
               if can_write (entry_access e) then mkBridge w (rs ++ [path]) t s u else b
           | None => b
           end
  | Special Tmpdir => if can_write (entry_access e) then mkBridge w rs true s u else b
  | Special SlashTmp => if can_write (entry_access e) then mkBridge w rs t true u else b
  | Special (Unknown _ _) => b
  end.

Definition UNSUPPORTED_WRITES : str :=
  lit "permissions profile requests filesystem writes outside the workspace root, which is not supported until the runtime enforces FileSystemSandboxPolicy directly".

Definition full_access_policy (network : NetworkSandboxPolicy) : SandboxPolicy :=
  if net_is_enabled network then DangerFullAccess else ExternalSandboxPolicy AccessRestricted.

Definition to_legacy_sandbox_policy (h : host) (p : FileSystemSandboxPolicy)
    (network : NetworkSandboxPolicy) (cwd : str) : result str SandboxPolicy :=
  match fs_kind p with
  | ExternalSandbox =>
      Ok (ExternalSandboxPolicy (if net_is_enabled network then AccessEnabled else AccessRestricted))
  | Unrestricted => Ok (full_access_policy network)
  | Restricted =>
      let b := foldl (bridge_step h (absolute h cwd)) (mkBridge false [] false false false)
                 (entries p) in
      if has_full_disk_write_access p then Ok (full_access_policy network)
      else if workspace_root_writable b then
        Ok (WorkspaceWrite (dedup_absolute_paths (bridge_roots b)) (net_is_enabled network)
              (negb (tmpdir_writable b)) (negb (slash_tmp_writable b)))
      else if unbridgeable_root_write b || negb (bool_decide (bridge_roots b = []))
              || tmpdir_writable b || slash_tmp_writable b
      then Err UNSUPPORTED_WRITES
      else Ok (ReadOnly (net_is_enabled network))
  end.

(** ** Profiles (models.rs) *)

Inductive ManagedFileSystemPermissions : Type :=
| ManagedRestricted (es : list FileSystemSandboxEntry) (glob_scan_max_depth : option positive)
| ManagedUnrestricted.

Inductive PermissionProfile : Type :=
| Managed (file_system : ManagedFileSystemPermissions) (network : NetworkSandboxPolicy)
| Disabled
| External (network : NetworkSandboxPolicy).

Inductive SandboxEnforcement : Type :=
| EnforceManaged
| EnforceDisabled
| EnforceExternal.

#[global] Instance enforcement_eq_dec : EqDecision SandboxEnforcement.
Proof. solve_decision. Defined.

Definition enforcement_of_legacy (sp : SandboxPolicy) : SandboxEnforcement :=
  match sp with
  | DangerFullAccess => EnforceDisabled
  | ExternalSandboxPolicy _ => EnforceExternal
  | ReadOnly _ | WorkspaceWrite _ _ _ _ => EnforceManaged
  end.

(** [NonZeroUsize::new]. *)
Definition non_zero (n : nat) : option positive :=
  match n with 0 => None | S _ => Some (Pos.of_nat n) end.

(** [None] is the [unreachable!] of the external kind. *)
Definition from_sandbox_policy (p : FileSystemSandboxPolicy) :
    option ManagedFileSystemPermissions :=
  match fs_kind p with
  | Restricted => Some (ManagedRestricted (entries p) (glob_scan_max_depth p ≫= non_zero))
  | Unrestricted => Some ManagedUnrestricted
  | ExternalSandbox => None
  end.
Definition to_sandbox_policy (m : ManagedFileSystemPermissions) : FileSystemSandboxPolicy :=
  match m with
  | ManagedRestricted es d => mkFsPolicy Restricted (Pos.to_nat <$> d) es
  | ManagedUnrestricted => unrestricted
  end.

Definition from_runtime_permissions_with_enforcement (enforcement : SandboxEnforcement)
    (p : FileSystemSandboxPolicy) (network : NetworkSandboxPolicy) : option PermissionProfile :=
  match fs_kind p with
  | ExternalSandbox => Some (External network)
  | Unrestricted =>
      if decide (enforcement = EnforceDisabled) then Some Disabled
      else (λ m, Managed m network) <$> from_sandbox_policy p
  | Restricted => (λ m, Managed m network) <$> from_sandbox_policy p
  end.
Definition from_runtime_permissions (p : FileSystemSandboxPolicy)
    (network : NetworkSandboxPolicy) : option PermissionProfile :=
  from_runtime_permissions_with_enforcement
    match fs_kind p with
    | Restricted | Unrestricted => EnforceManaged
    | ExternalSandbox => EnforceExternal
    end p network.

Definition profile_of_legacy (h : host) (sp : SandboxPolicy) : option PermissionProfile :=
  from_runtime_permissions_with_enforcement (enforcement_of_legacy sp)
    (file_system_of_legacy h sp) (network_of_legacy sp).

Definition enforcement (profile : PermissionProfile) : SandboxEnforcement :=
  match profile with
  | Managed _ _ => EnforceManaged
  | Disabled => EnforceDisabled
  | External _ => EnforceExternal
  end.
Definition file_system_sandbox_policy (profile : PermissionProfile) : FileSystemSandboxPolicy :=
  match profile with
  | Managed fs _ => to_sandbox_policy fs
  | Disabled => unrestricted
  | External _ => external_sandbox
  end.
Definition network_sandbox_policy (profile : PermissionProfile) : NetworkSandboxPolicy :=
  match profile with
  | Managed _ n | External n => n
  | Disabled => NetEnabled
  end.
Definition to_runtime_permissions (profile : PermissionProfile) :
    FileSystemSandboxPolicy * NetworkSandboxPolicy :=
  (file_system_sandbox_policy profile, network_sandbox_policy profile).
Definition profile_to_legacy (h : host) (profile : PermissionProfile) (cwd : str) :
    result str SandboxPolicy :=
  match profile with
  | Managed fs network => to_legacy_sandbox_policy h (to_sandbox_policy fs) network cwd
  | Disabled => Ok DangerFullAccess
  | External network =>
      Ok (ExternalSandboxPolicy (if net_is_enabled network then AccessEnabled else AccessRestricted))
  end.

End Permissions.
