(* ===== verification/PermissionLaws.v ===== *)
(** * Laws of permission profiles

    What the policies of [Permissions] promise: the access of a path is that of the most
    specific entry over it; a policy that claims whole-disk writes lets every path be written;
    protected metadata below a writable root stays read-only; profiles survive the trip
    through the runtime pair and through the legacy policy. *)

From stdpp Require Import prelude strings list.
From S2P Require Import Prelude RustStr AbsolutePath Permissions.

Module PermissionLaws.
Import AbsolutePath Permissions.

(** ** Paths *)

Lemma expand_absolute home p : is_absolute p = true → maybe_expand_home_directory home p = p.
Proof. intros Habs. apply starts_with_true in Habs as [r ->]. by destruct home. Qed.

Lemma absolute_total h p :
  is_absolute p = true → ∃ c, absolute h p = Some c ∧ normal_form c.
Proof.
  intros Hp. exists (normalize_path p). split; [|by apply normalize_absolute].
  unfold absolute, from_absolute_path. rewrite expand_absolute by done.
  unfold absolutize. by rewrite Hp.
Qed.

Lemma path_string_absolute cs : normal_form cs → is_absolute (path_string cs) = true.
Proof. intros (ns&->&_). destruct ns; [done|]. by apply starts_with_true; eexists. Qed.

Lemma absolute_path_string h cs : normal_form cs → absolute h (path_string cs) = Some cs.
Proof.
  intros Hn. pose proof (path_string_absolute _ Hn) as Habs.
  unfold absolute, from_absolute_path. rewrite expand_absolute by done.
  unfold absolutize. rewrite Habs. simpl. unfold normalize_path.
  rewrite normal_form_components by done. destruct Hn as (ns&->&Hns). simpl.
  by rewrite normal_form_fixed.
Qed.

Lemma abs_join_normal h base p : normal_form base → normal_form (abs_join h base p).
Proof. intros Hb. by apply normalize_absolute, is_absolute_join, path_string_absolute. Qed.

Lemma candidate_total h path cwd :
  is_absolute cwd = true → ∃ t, resolve_candidate_path h path cwd = Some t ∧ normal_form t.
Proof.
  intros Hc. unfold resolve_candidate_path. destruct (is_absolute path) eqn:Hp.
  - by apply absolute_total.
  - destruct (absolute_total h cwd Hc) as (c&->&Hn). eexists. split; [done|].
    by apply abs_join_normal.
Qed.

Lemma candidate_of_normal h t cwd :
  normal_form t → resolve_candidate_path h (path_string t) cwd = Some t.
Proof.
  intros Ht. unfold resolve_candidate_path.
  by rewrite path_string_absolute, absolute_path_string.
Qed.

Lemma components_app a s :
  is_absolute a = true →
  components (a ++ slash :: s) = components a ++ omap piece_component (split_on slash s).
Proof.
  intros Ha. assert (is_absolute (a ++ slash :: s) = true) as Has.
  { apply starts_with_true in Ha as [r ->]. apply starts_with_true. by eexists. }
  unfold components. rewrite split_on_app, Ha, Has.
  destruct (split_on slash a) as [|w ws] eqn:Hs; [by destruct (split_on_not_nil slash a)|].
  simpl. by rewrite omap_app.
Qed.
Lemma components_slash s : components (slash :: s) = RootDir :: omap piece_component (split_on slash s).
Proof. done. Qed.

Lemma components_join base p :
  is_absolute base = true → is_absolute p = false →
  components (path_join base p) = components base ++ omap piece_component (split_on slash p).
Proof.
  intros Hb Hp. unfold path_join. rewrite Hp.
  pose proof Hb as [r Hr]%starts_with_true. rewrite decide_False by (by subst). clear r Hr.
  destruct (ends_with [slash] base) eqn:He; [|by apply components_app].
  apply bool_decide_eq_true in He as [r' Hr']. apply strip_suffix_Some in Hr'. subst base.
  rewrite <-(assoc_L (++)). destruct r' as [|c r'].
  { cbn [app]. by rewrite !components_slash. }
  cbn [app].
  assert (is_absolute (c :: r') = true) as Hc.
  { apply starts_with_true. apply starts_with_true in Hb as [r Hr].
    injection Hr as -> ?. by eexists. }
  change (c :: r' ++ slash :: p) with ((c :: r') ++ slash :: p).
  change (c :: r' ++ [slash]) with ((c :: r') ++ slash :: []).
  rewrite !components_app by done. simpl. by rewrite app_nil_r.
Qed.

(** Joining a plain name appends it. *)
Lemma abs_join_name h base w :
  normal_form base → good_name (Normal w) → strip_prefix [tilde] w = None →
  abs_join h base w = base ++ [Normal w].
Proof.
  intros Hb (w'&[= <-]&Hslash&Hpc) Htilde. unfold abs_join, resolve_path_against_base.
  assert (maybe_expand_home_directory (home_var h) w = w) as ->.
  { unfold maybe_expand_home_directory. rewrite Htilde. by destruct (home_var h). }
  assert (is_absolute w = false) as Hrel.
  { apply not_true_is_false. intros [r ->]%starts_with_true. set_solver. }
  unfold absolutize_from, path_with_base, normalize_path. rewrite Hrel.
  rewrite components_join by (by try apply path_string_absolute).
  rewrite normal_form_components, split_on_no_sep by done. simpl. rewrite Hpc.
  destruct Hb as (ns&->&Hns). simpl. by rewrite foldl_app, (normal_form_fixed ns) by done.
Qed.

Lemma protected_join h base w :
  normal_form base → w ∈ PROTECTED_METADATA_PATH_NAMES → abs_join h base w = base ++ [Normal w].
Proof.
  intros Hb Hw. apply abs_join_name; [done| |].
  - exists w. split; [done|]. repeat (apply elem_of_cons in Hw as [->|Hw];
      [split; [apply (bool_decide_eq_true_1 _); by vm_compute|done]|]). by apply elem_of_nil in Hw.
  - repeat (apply elem_of_cons in Hw as [->|Hw]; [done|]). by apply elem_of_nil in Hw.
Qed.

(** ** The most specific entry *)

Definition precedence_le (a b : ResolvedFileSystemEntry) : Prop :=
  precedence_leb (resolved_entry_precedence a) (resolved_entry_precedence b) = true.

Lemma precedence_le_spec a b :
  precedence_le a b ↔
  length (resolved_path a) < length (resolved_path b) ∨
  length (resolved_path a) = length (resolved_path b) ∧
  access_rank (resolved_access a) ≤ access_rank (resolved_access b).
Proof.
  unfold precedence_le, precedence_leb. simpl.
  rewrite orb_true_iff, andb_true_iff, Nat.ltb_lt, Nat.eqb_eq, Nat.leb_le. done.
Qed.

Lemma max_fold_spec es b :
  ∃ m, foldl max_step (Some b) es = Some m ∧ m ∈ b :: es ∧
       Forall (λ e, precedence_le e m) (b :: es).
Proof.
  revert b. induction es as [|e es IH]; intros b; simpl.
  { exists b. split_and!; [done|set_solver|]. constructor; [|done].
    apply precedence_le_spec. lia. }
  destruct (precedence_leb _ _) eqn:Hle.
  - destruct (IH e) as (m&->&Hm&Hall). exists m. split_and!; [done|set_solver|].
    apply Forall_cons in Hall as [He Hes]. repeat constructor; try done.
    change (precedence_le b e) in Hle. rewrite precedence_le_spec in *. lia.
  - destruct (IH b) as (m&->&Hm&Hall). exists m. split_and!; [done|set_solver|].
    apply Forall_cons in Hall as [Hb Hes]. repeat constructor; try done.
    assert (¬ precedence_le b e) as Hn by (unfold precedence_le; congruence).
    rewrite precedence_le_spec in *. lia.
Qed.

Lemma max_by_precedence_spec es :
  match max_by_precedence es with
  | None => es = []
  | Some m => m ∈ es ∧ Forall (λ e, precedence_le e m) es
  end.
Proof.
  unfold max_by_precedence. destruct es as [|e es]; [done|]. simpl.
  by destruct (max_fold_spec es e) as (m&->&?&?).
Qed.

(** The entries over a path. *)
Definition covers (t : list Component) (e : ResolvedFileSystemEntry) : Prop :=
  resolved_path e `prefix_of` t.

(** [access] is what the entries [es] give to [t]: nothing covers it and it is denied, or the
    longest entry over it decides, deny before write before read where two name the same
    place. *)
Definition decides_access (es : list ResolvedFileSystemEntry) (t : list Component)
    (access : FileSystemAccessMode) : Prop :=
  (access = Deny ∧ ∀ e, e ∈ es → ¬ covers t e) ∨
  ∃ m, m ∈ es ∧ covers t m ∧ resolved_access m = access ∧
    ∀ e, e ∈ es → covers t e →
      length (resolved_path e) < length (resolved_path m) ∨
      resolved_path e = resolved_path m ∧ access_rank (resolved_access e) ≤ access_rank access.

Lemma prefix_same_length {A} (a b t : list A) :
  a `prefix_of` t → b `prefix_of` t → length a = length b → a = b.
Proof.
  intros [x ->] [y Hy] Hl. by apply app_inj_1 in Hy as [-> _].
Qed.

Lemma resolve_access_decides h p path cwd t :
  fs_kind p = Restricted → resolve_candidate_path h path cwd = Some t →
  decides_access (resolved_entries_with_cwd h p cwd) t (resolve_access_with_cwd h p path cwd).
Proof.
  intros Hk Ht. unfold resolve_access_with_cwd. rewrite Hk, Ht.
  set (es := resolved_entries_with_cwd h p cwd).
  pose proof (max_by_precedence_spec
    (filter (λ e, path_starts_with t (resolved_path e) = true) es)) as Hmax.
  assert (∀ e, path_starts_with t (resolved_path e) = true ↔ covers t e) as Hcov
    by (intros e; apply bool_decide_eq_true).
  destruct (max_by_precedence _) as [m|].
  - destruct Hmax as [Hm Hall]. apply list_elem_of_filter in Hm as [Hc Hm].
    right. exists m. split_and!; [done|by apply Hcov|done|]. intros e He Hce.
    rewrite Forall_forall in Hall.
    assert (precedence_le e m) as Hle.
    { apply Hall, list_elem_of_filter. split; [by apply Hcov|done]. }
    apply precedence_le_spec in Hle as [?|[? ?]]; [by left|right]. split; [|done].
    by eapply prefix_same_length; [| apply Hcov in Hc|]; try done.
  - left. split; [done|]. intros e He Hce%Hcov.
    assert (e ∈ filter (λ e, path_starts_with t (resolved_path e) = true) es) as Hin
      by (by apply list_elem_of_filter).
    rewrite Hmax in Hin. by apply elem_of_nil in Hin.
Qed.

Lemma decides_access_unique es t a b : decides_access es t a → decides_access es t b → a = b.
Proof.
  intros [[-> Hn]|(m&Hm&Hc&<-&Hall)] [[-> Hn']|(m'&Hm'&Hc'&<-&Hall')]; [done|naive_solver..|].
  destruct (Hall _ Hm' Hc') as [?|[? ?]], (Hall' _ Hm Hc) as [?|[? ?]]; try (exfalso; lia).
  - exfalso. by match goal with H : resolved_path _ = resolved_path _ |- _ => rewrite H in * end; lia.
  - exfalso. by match goal with H : resolved_path _ = resolved_path _ |- _ => rewrite H in * end; lia.
  - destruct (resolved_access m), (resolved_access m'); simpl in *; try done; lia.
Qed.

Lemma decides_access_perm es es' t a :
  es ≡ₚ es' → decides_access es t a → decides_access es' t a.
Proof. intros Hp. unfold decides_access. by setoid_rewrite Hp. Qed.

(** Under a restricted policy the access of a path is decided by the longest entry over
    it, with deny before write before read where several entries name one place, and a path
    that no entry covers is denied.  The order in which the entries are listed is
    irrelevant. *)
Theorem access_is_most_specific h p path cwd :
  fs_kind p = Restricted → is_absolute cwd = true →
  ∃ t, resolve_candidate_path h path cwd = Some t ∧
    decides_access (resolved_entries_with_cwd h p cwd) t (resolve_access_with_cwd h p path cwd) ∧
    ∀ es, entries p ≡ₚ es →
      resolve_access_with_cwd h (set_entries p es) path cwd = resolve_access_with_cwd h p path cwd.
Proof.
  intros Hk Hc. destruct (candidate_total h path cwd Hc) as (t&Ht&_).
  exists t. pose proof (resolve_access_decides h p path cwd t Hk Ht) as Hd.
  split_and!; [done..|]. intros es Hes.
  eapply decides_access_unique; [by apply (resolve_access_decides h (set_entries p es))|].
  eapply decides_access_perm; [|done]. unfold resolved_entries_with_cwd. simpl.
  by rewrite Hes.
Qed.

(** ** Whole-disk writes *)

Lemma resolved_entry_in h p cwd e :
  e ∈ resolved_entries_with_cwd h p cwd ↔
  ∃ x, x ∈ entries p ∧ resolve_entry_path h (entry_path x) (absolute h cwd) = Some (resolved_path e)
       ∧ entry_access x = resolved_access e.
Proof.
  unfold resolved_entries_with_cwd. rewrite list_elem_of_omap. split.
  - intros (x&Hx&He). destruct (resolve_entry_path _ _ _) eqn:Hr; simplify_eq/=. eauto.
  - intros (x&Hx&Hr&Ha). exists x. split; [done|]. rewrite Hr. simpl. rewrite Ha.
    by destruct e.
Qed.

(** Paths in entries are values of [AbsolutePathBuf]. *)
Definition well_formed (p : FileSystemSandboxPolicy) : Prop :=
  Forall (λ e, match entry_path e with AtPath q => normal_form q | _ => True end) (entries p).

Lemma parent_none q : normal_form q → parent q = None → q = [RootDir].
Proof.
  intros (ns&->&Hns). unfold parent. destruct ns as [|n ns _] using rev_ind; [done|].
  rewrite app_comm_cons, last_snoc. apply Forall_app in Hns as [_ (Hn&_)%Forall_cons].
  by destruct Hn as (w&->&_).
Qed.

Definition well_formed_path (a : FileSystemPath) : Prop :=
  match a with AtPath q => normal_form q | _ => True end.

(** Two entries with one target resolve to one path. *)
Lemma share_target_resolves h cwd a b q :
  normal_form cwd → is_dir h slash_tmp = true → well_formed_path a → well_formed_path b →
  file_system_paths_share_target a b = true →
  resolve_entry_path h b (Some cwd) = Some q → resolve_entry_path h a (Some cwd) = Some q.
Proof.
  intros (ns&->&_) Htmp Ha Hb Hs Hq.
  destruct a as [x|x|v], b as [y|y|w]; simpl in *; try done.
  - apply bool_decide_eq_true in Hs. by subst.
  - destruct w; simpl in *; try done; apply bool_decide_eq_true in Hs.
    + apply parent_none in Hs as ->; [|done]. done.
    + subst. by rewrite Htmp in Hq.
  - destruct v; simpl in *; try done; apply bool_decide_eq_true in Hs.
    + apply parent_none in Hs as ->; [|done]. done.
    + subst. by rewrite Htmp.
  - destruct v, w; simpl in *; try done; try (apply bool_decide_eq_true in Hs; by subst).
Qed.

Lemma full_disk_write_root p :
  fs_kind p = Restricted → has_full_disk_write_access p = true →
  (∃ x, x ∈ entries p ∧ entry_path x = Special Root ∧ entry_access x = Write) ∧
  ∀ x, x ∈ entries p → narrows_write p x = false.
Proof.
  unfold has_full_disk_write_access, has_root_access, has_write_narrowing_entries, is_restricted.
  intros ->. rewrite bool_decide_true by done. simpl.
  rewrite andb_true_iff, negb_true_iff, existsb_exists. intros [(x&Hx&Hw) Hn]. split.
  - exists x. rewrite list_elem_of_In. destruct (entry_path x) as [| |[]]; try done.
    split_and!; try done. by destruct (entry_access x).
  - intros y Hy. apply not_true_is_false. intros Hy'.
    assert (existsb (narrows_write p) (entries p) = true); [|congruence].
    apply existsb_exists. exists y. by rewrite <-list_elem_of_In.
Qed.

(** An entry that takes nothing away from whole-disk writes writes itself or shares its
    place with one that does. *)
Lemma not_narrowing h p cwd x q :
  normal_form cwd → is_dir h slash_tmp = true → well_formed p → x ∈ entries p →
  (∃ r, r ∈ entries p ∧ entry_path r = Special Root ∧ entry_access r = Write) →
  narrows_write p x = false →
  resolve_entry_path h (entry_path x) (Some cwd) = Some q →
  entry_access x = Write ∨
  entry_access x = Read ∧
    ∃ y, y ∈ entries p ∧ entry_access y = Write ∧
         resolve_entry_path h (entry_path y) (Some cwd) = Some q.
Proof.
  intros Hcwd Htmp Hwf Hx (r&Hr&Hrp&Hra) Hn Hq.
  assert (well_formed_path (entry_path x)) as Hwx by (by apply (proj1 (Forall_forall _ _) Hwf)).
  assert (has_same_target_write_override p x = true → entry_access x = Read ∧
    ∃ y, y ∈ entries p ∧ entry_access y = Write ∧
         resolve_entry_path h (entry_path y) (Some cwd) = Some q) as Hover.
  { intros (y&Hy&Hc)%existsb_exists. apply list_elem_of_In in Hy.
    apply andb_true_iff in Hc as [[Hw Hlt]%andb_true_iff Hs]. apply Nat.ltb_lt in Hlt.
    destruct (entry_access y) eqn:Hay; try done.
    split; [by destruct (entry_access x); simpl in *; try done; lia|].
    exists y. split_and!; [done..|].
    eapply share_target_resolves; try done. by apply (proj1 (Forall_forall _ _) Hwf). }
  unfold narrows_write in Hn. destruct (entry_access x) eqn:Hax; simpl in Hn; [|by left|];
    right; destruct (entry_path x) as [| |[]] eqn:Hpx; simpl in *; try done;
    try (by apply Hover, negb_false_iff).
  split; [done|]. exists r. rewrite Hrp. done.
Qed.

(** When a policy reports whole-disk write access, every path can be written, whatever
    the entries listed besides the write to [:root] are: those that would take something
    away are noticed, those shadowed by an equal write are rightly ignored. *)
Theorem full_disk_write_writes_everything h p path cwd :
  well_formed p → is_absolute cwd = true → is_dir h slash_tmp = true →
  has_full_disk_write_access p = true →
  can_write_path_with_cwd h p path cwd = true.
Proof.
  intros Hwf Hcwd Htmp Hfull. unfold can_write_path_with_cwd. rewrite Hfull.
  replace (resolve_access_with_cwd h p path cwd) with Write; [done|].
  destruct (fs_kind p) eqn:Hk; [|by unfold resolve_access_with_cwd; rewrite Hk..].
  destruct (candidate_total h path cwd Hcwd) as (t&Ht&nt&->&_).
  destruct (absolute_total h cwd Hcwd) as (c&Hc&Hnc).
  destruct (full_disk_write_root p Hk Hfull) as [Hroot Hnarrow].
  pose proof (resolve_access_decides h p path cwd _ Hk Ht) as
    [[_ Hnone]|(m&Hm&Hcov&<-&Hall)].
  - destruct Hroot as (r&Hr&Hrp&Hra). exfalso. apply (Hnone (mkResolved [RootDir] Write)).
    + apply resolved_entry_in. exists r. rewrite Hrp, Hc. destruct Hnc as (?&->&_). done.
    + by exists nt.
  - apply resolved_entry_in in Hm as (x&Hx&Hrx&Hax). rewrite Hc in Hrx.
    destruct (not_narrowing h p c x _ Hnc Htmp Hwf Hx Hroot (Hnarrow x Hx) Hrx)
      as [Hw|(Hread&y&Hy&Hyw&Hry)]; [congruence|].
    destruct (Hall (mkResolved (resolved_path m) Write)) as [Hlt|[_ Hle]].
    + apply resolved_entry_in. exists y. by rewrite Hc.
    + done.
    + simpl in Hlt. lia.
    + rewrite <-Hax, Hread in Hle. simpl in Hle. lia.
Qed.

(** ** Protected metadata *)

Definition protected_component (c : Component) : Prop :=
  component_str c ∈ PROTECTED_METADATA_PATH_NAMES.

(** No write entry lies at or below a protected name. *)
Definition no_explicit_metadata_writes h p cwd : Prop :=
  ∀ e, e ∈ resolved_entries_with_cwd h p cwd → resolved_access e = Write →
    normal_form (resolved_path e) ∧ Forall (λ c, ¬ protected_component c) (resolved_path e).

Lemma metadata_child_Some h t e protected name :
  metadata_child h t e = Some (protected, name) →
  resolved_access e = Write ∧ name ∈ PROTECTED_METADATA_PATH_NAMES ∧
  protected = abs_join h (resolved_path e) name.
Proof.
  unfold metadata_child. destruct (resolved_access e); simpl; try done.
  destruct (first_below _ _); simpl; [|done].
  unfold metadata_path_name. case_decide; simpl; intros; by simplify_eq.
Qed.

Lemma metadata_child_below h t e c rest :
  resolved_access e = Write → t = resolved_path e ++ c :: rest → protected_component c →
  is_Some (metadata_child h t e).
Proof.
  intros Ha -> Hc. unfold metadata_child, first_below, path_starts_with. rewrite Ha. simpl.
  rewrite bool_decide_true by (by eexists). rewrite drop_app_length. simpl.
  unfold metadata_path_name. rewrite decide_True by done. by eexists.
Qed.

(** C32. Below a writable root, [.git], [.agents] and [.codex] and everything in them cannot be
    written, unless the policy writes the whole disk or grants a write at such a place
    itself. *)
Theorem protected_metadata_not_writable h p cwd e name rest :
  fs_kind p = Restricted → has_full_disk_write_access p = false →
  no_explicit_metadata_writes h p cwd →
  e ∈ resolved_entries_with_cwd h p cwd → resolved_access e = Write →
  name ∈ PROTECTED_METADATA_PATH_NAMES →
  normal_form (resolved_path e ++ Normal name :: rest) →
  can_write_path_with_cwd h p (path_string (resolved_path e ++ Normal name :: rest)) cwd = false.
Proof.
  intros Hk Hfull Hno He Ha Hname Hnf. set (t := resolved_path e ++ Normal name :: rest) in *.
  unfold can_write_path_with_cwd. destruct (can_write _); simpl; [|done]. rewrite Hfull.
  apply negb_false_iff. unfold is_metadata_write_denied, is_restricted. rewrite Hk. simpl.
  rewrite candidate_of_normal by done. unfold metadata_child_of_writable_root.
  destruct (metadata_child_below h t e (Normal name) rest Ha eq_refl Hname) as [x Hx].
  assert (x ∈ omap (metadata_child h t) (resolved_entries_with_cwd h p cwd)) as Hin
    by (apply list_elem_of_omap; eauto).
  destruct (head _) as [[prot nm]|] eqn:Hh.
  2: { destruct (omap _ _); [by apply elem_of_nil in Hin|done]. }
  assert ((prot, nm) ∈ omap (metadata_child h t) (resolved_entries_with_cwd h p cwd)) as Hp.
  { destruct (omap _ _); simplify_eq/=. by left. }
  apply list_elem_of_omap in Hp as (e1&He1&(Ha1&Hnm&->)%metadata_child_Some).
  destruct (Hno e1 He1 Ha1) as [Hn1 _]. rewrite protected_join by done.
  apply negb_true_iff, not_true_is_false. intros (e2&He2&Hc)%existsb_exists.
  apply list_elem_of_In in He2. apply andb_true_iff in Hc as [[Hw _]%andb_true_iff Hpre].
  assert (resolved_access e2 = Write) as Ha2 by (by destruct (resolved_access e2)).
  destruct (Hno e2 He2 Ha2) as [_ Hfa]. apply bool_decide_eq_true in Hpre as [z Hz].
  rewrite Hz, Forall_app, Forall_app, Forall_cons in Hfa. destruct Hfa as [[_ [Hbad _]] _].
  by apply Hbad.
Qed.

(** ** Round trips *)

Lemma non_zero_pos d : non_zero (Pos.to_nat d) = Some d.
Proof.
  unfold non_zero. pose proof (Pos2Nat.is_pos d). destruct (Pos.to_nat d) eqn:Hd; [lia|].
  rewrite <-Hd. by rewrite Pos2Nat.id.
Qed.

(** The runtime form of a profile determines it: from its file-system policy, its network
    policy and its enforcement the same profile is rebuilt, without reaching the
    [unreachable!]. *)
Theorem profile_survives_runtime_form profile :
  from_runtime_permissions_with_enforcement (enforcement profile)
    (to_runtime_permissions profile).1 (to_runtime_permissions profile).2 = Some profile.
Proof.
  destruct profile as [[es [d|]|] n| |n]; try done.
  unfold from_runtime_permissions_with_enforcement. simpl. by rewrite non_zero_pos.
Qed.

(** The loop of the legacy translation on the entries of [workspace_write]. *)
Lemma bridge_reads h cwd es b :
  Forall (λ e, entry_access e = Read) es → foldl (bridge_step h cwd) b es = b.
Proof.
  intros HF. revert b. induction HF as [|e es He _ IH]; intros [w rs t s u]; [done|]. simpl.
  rewrite He. destruct (entry_path e) as [| |[]]; simpl; rewrite ?andb_false_r; try apply IH.
  destruct subpath; [|destruct cwd; apply IH]. destruct cwd; apply IH.
Qed.
Lemma bridge_roots_writes h cwd roots w rs t s u :
  Forall (λ r, cwd ≠ Some r) roots →
  foldl (bridge_step h cwd) (mkBridge w rs t s u) ((λ path, mkEntry (AtPath path) Write) <$> roots) =
  mkBridge w (rs ++ roots) t s u.
Proof.
  intros HF. revert rs. induction HF as [|r roots Hr _ IH]; intros rs; simpl.
  { by rewrite app_nil_r. }
  rewrite bool_decide_false by done. rewrite IH. by rewrite <-(assoc_L (++)).
Qed.

(** Protecting roots only appends entries that read. *)
Definition appends_reads (es es' : list FileSystemSandboxEntry) : Prop :=
  ∃ rs, es' = es ++ rs ∧ Forall (λ e, entry_access e = Read) rs.
Lemma appends_reads_refl es : appends_reads es es.
Proof. exists []. by rewrite app_nil_r. Qed.
Lemma appends_reads_trans a b c : appends_reads a b → appends_reads b c → appends_reads a c.
Proof.
  intros (r&->&Hr) (r'&->&Hr'). exists (r ++ r'). rewrite (assoc_L (++)). split; [done|].
  by apply Forall_app.
Qed.
Lemma appends_reads_fold {A} (f : list FileSystemSandboxEntry → A → list FileSystemSandboxEntry) l es :
  (∀ es a, appends_reads es (f es a)) → appends_reads es (foldl f es l).
Proof.
  intros Hf. revert es. induction l as [|a l IH]; intros es; simpl; [apply appends_reads_refl|].
  eapply appends_reads_trans; [apply Hf|apply IH].
Qed.
Lemma append_default_reads es path :
  appends_reads es (append_default_read_only_entry_if_no_explicit_rule es path).
Proof.
  unfold append_default_read_only_entry_if_no_explicit_rule.
  destruct (existsb _ _); [apply appends_reads_refl|]. exists [mkEntry path Read]. by repeat constructor.
Qed.
Lemma protect_root_reads h b es root : appends_reads es (protect_root h b es root).
Proof. apply appends_reads_fold. intros. apply append_default_reads. Qed.

Lemma has_root_access_app_reads es rs :
  Forall (λ e, entry_access e = Read) rs →
  has_root_access (restricted (es ++ rs)) can_write = has_root_access (restricted es) can_write.
Proof.
  intros Hrs. unfold has_root_access. simpl. rewrite existsb_app.
  replace (existsb _ rs) with false; [by rewrite orb_false_r|]. symmetry.
  induction Hrs as [|e rs He _ IH]; [done|]. simpl. rewrite He, IH.
  by destruct (entry_path e) as [| |[]].
Qed.

Lemma dedup_NoDup l acc :
  NoDup (acc ++ l) → foldl dedup_step acc l = acc ++ l.
Proof.
  revert acc. induction l as [|x l IH]; intros acc Hnd; simpl; [by rewrite app_nil_r|].
  unfold dedup_step at 2. rewrite decide_False.
  - rewrite IH; rewrite <-(assoc_L (++)); done.
  - apply NoDup_app in Hnd as (_&Hd&_). intros Hx. apply (Hd x Hx). by left.
Qed.

(** The entries of [workspace_write] before the read-only ones. *)
Definition workspace_base (ex_tmpdir ex_slash : bool) : list FileSystemSandboxEntry :=
  [mkEntry (Special Root) Read; mkEntry (Special (ProjectRoots None)) Write] ++
  (if ex_slash then [] else [mkEntry (Special SlashTmp) Write]) ++
  (if ex_tmpdir then [] else [mkEntry (Special Tmpdir) Write]).
Definition root_entries (roots : list (list Component)) : list FileSystemSandboxEntry :=
  (λ path, mkEntry (AtPath path) Write) <$> roots.

Lemma workspace_write_entries h roots ex_tmpdir ex_slash :
  ∃ rs, workspace_write h roots ex_tmpdir ex_slash =
        restricted (workspace_base ex_tmpdir ex_slash ++ root_entries roots ++ rs) ∧
        Forall (λ e, entry_access e = Read) rs.
Proof.
  assert (appends_reads (workspace_base ex_tmpdir ex_slash ++ root_entries roots)
            (entries (workspace_write h roots ex_tmpdir ex_slash))) as (rs&Hes&Hrs).
  { unfold workspace_write. simpl entries. eapply appends_reads_trans.
    2: { apply appends_reads_fold. intros. apply protect_root_reads. }
    assert (∀ es, appends_reads es
      (foldl append_default_read_only_project_root_subpath_if_no_explicit_rule es
         [lit ".git"; lit ".agents"; lit ".codex"])) as Hsub
      by (intros; apply appends_reads_fold; intros; apply append_default_reads).
    by destruct ex_tmpdir, ex_slash; apply Hsub. }
  exists rs. split; [|done]. rewrite (assoc_L (++)), <-Hes. done.
Qed.

Lemma workspace_write_not_full h roots ex_tmpdir ex_slash :
  has_full_disk_write_access (workspace_write h roots ex_tmpdir ex_slash) = false.
Proof.
  destruct (workspace_write_entries h roots ex_tmpdir ex_slash) as (rs&->&Hrs).
  unfold has_full_disk_write_access. cbn [fs_kind restricted].
  change (mkFsPolicy Restricted None ?es) with (restricted es).
  rewrite (assoc_L (++)), has_root_access_app_reads by done.
  apply andb_false_iff. left. unfold has_root_access, is_restricted. simpl.
  rewrite existsb_app. replace (existsb _ (root_entries roots)) with false.
  - by destruct ex_tmpdir, ex_slash.
  - symmetry. by induction roots.
Qed.

(** The writable roots of a legacy policy are listed once, and do not repeat the working
    directory. *)
Definition distinct_roots (h : host) (sp : SandboxPolicy) (cwd : str) : Prop :=
  match sp with
  | WorkspaceWrite roots _ _ _ => NoDup roots ∧ Forall (λ r, absolute h cwd ≠ Some r) roots
  | _ => True
  end.

(** Every legacy policy survives the translation to a profile and back, in any
    environment, if its writable roots are distinct and none of them is the working
    directory (which the profile already writes). *)
Theorem legacy_policy_roundtrip h sp cwd :
  distinct_roots h sp cwd →
  ∃ profile, profile_of_legacy h sp = Some profile ∧ profile_to_legacy h profile cwd = Ok sp.
Proof.
  destruct sp as [|n|n|roots n ex_tmpdir ex_slash]; intros Hsp;
    [by eexists|eexists; split; [done|by destruct n]..|].
  destruct Hsp as [Hnd Hcwd].
  exists (Managed (ManagedRestricted (entries (workspace_write h roots ex_tmpdir ex_slash)) None)
            (network_of_legacy (WorkspaceWrite roots n ex_tmpdir ex_slash))). split; [done|].
  change (to_legacy_sandbox_policy h (workspace_write h roots ex_tmpdir ex_slash)
            (network_of_legacy (WorkspaceWrite roots n ex_tmpdir ex_slash)) cwd =
          Ok (WorkspaceWrite roots n ex_tmpdir ex_slash)).
  pose proof (workspace_write_not_full h roots ex_tmpdir ex_slash) as Hfull.
  destruct (workspace_write_entries h roots ex_tmpdir ex_slash) as (rs&Hww&Hrs).
  unfold to_legacy_sandbox_policy. rewrite Hfull, Hww. cbn [fs_kind entries restricted].
  rewrite !foldl_app.
  replace (foldl (bridge_step h (absolute h cwd)) _ (workspace_base ex_tmpdir ex_slash))
    with (mkBridge true [] (negb ex_tmpdir) (negb ex_slash) false)
    by (by destruct ex_tmpdir, ex_slash).
  rewrite bridge_roots_writes, bridge_reads by done. simpl.
  unfold dedup_absolute_paths. rewrite (dedup_NoDup roots []) by done. simpl.
  by destruct n, ex_tmpdir, ex_slash.
Qed.

(** ** Examples *)

Definition ex_host (tmp_exists : bool) : host :=
  mkHost None (Ok (lit "/")) (Some (lit "/var/tmp")) (λ p, tmp_exists && bool_decide (p = slash_tmp))
    (λ _, false) (λ _, false) (λ _, None).
Definition ex_abs (p : string) : list Component := normalize_path (lit p).
Definition ex_policy : FileSystemSandboxPolicy :=
  restricted [mkEntry (Special Root) Read; mkEntry (AtPath (ex_abs "/w")) Write;
              mkEntry (AtPath (ex_abs "/w/docs")) Deny].
Definition ex_full : FileSystemSandboxPolicy :=
  restricted [mkEntry (Special Root) Write; mkEntry (AtPath slash_tmp) Read;
              mkEntry (Special SlashTmp) Write].

Lemma access_is_most_specific_witness :
  ∃ t, resolve_candidate_path (ex_host true) (lit "docs/a") (lit "/w") = Some t ∧
    decides_access (resolved_entries_with_cwd (ex_host true) ex_policy (lit "/w")) t
      (resolve_access_with_cwd (ex_host true) ex_policy (lit "docs/a") (lit "/w")) ∧
    ∀ es, entries ex_policy ≡ₚ es →
      resolve_access_with_cwd (ex_host true) (set_entries ex_policy es) (lit "docs/a") (lit "/w") =
      resolve_access_with_cwd (ex_host true) ex_policy (lit "docs/a") (lit "/w").
Proof. apply access_is_most_specific; reflexivity. Defined.

Lemma full_disk_write_writes_everything_witness :
  can_write_path_with_cwd (ex_host true) ex_full (lit "/tmp/x") (lit "/w") = true.
Proof.
  apply full_disk_write_writes_everything; try reflexivity.
  repeat constructor. exists [Normal (lit "tmp")]. split; [reflexivity|].
  repeat constructor. exists (lit "tmp"). split; [reflexivity|]. split; [|reflexivity].
  apply (bool_decide_eq_true_1 _). reflexivity.
Defined.

(** Where [/tmp] is missing, the symbolic entry shadows the literal one in the test for
    whole-disk writes but does not resolve when a path is looked up. *)
Example full_disk_write_without_tmp :
  has_full_disk_write_access ex_full = true ∧
  can_write_path_with_cwd (ex_host false) ex_full (lit "/tmp/x") (lit "/w") = false.
Proof. split; vm_compute; reflexivity. Qed.

(** Which writable root protects a path depends on the order of the entries: the first one with
    a metadata name below it is consulted and no other. *)
Definition ex_outer : FileSystemSandboxEntry := mkEntry (AtPath (ex_abs "/w")) Write.
Definition ex_inner : FileSystemSandboxEntry := mkEntry (AtPath (ex_abs "/w/.git/sub")) Write.
Example metadata_protection_depends_on_order :
  can_write_path_with_cwd (ex_host true) (restricted [ex_outer; ex_inner])
    (lit "/w/.git/sub/.codex/config") (lit "/w") = true ∧
  can_write_path_with_cwd (ex_host true) (restricted [ex_inner; ex_outer])
    (lit "/w/.git/sub/.codex/config") (lit "/w") = false.
Proof. split; vm_compute; reflexivity. Qed.

Lemma protected_metadata_not_writable_witness :
  can_write_path_with_cwd (ex_host true) ex_policy (lit "/w/.git/config") (lit "/w") = false.
Proof.
  assert (∀ w, bool_decide (slash ∉ lit w) = true →
    piece_component (lit w) = Some (Normal (lit w)) → good_name (Normal (lit w))) as Hgood.
  { intros w Hs Hp. exists (lit w). split; [reflexivity|]. split; [|exact Hp].
    apply (bool_decide_eq_true_1 _ Hs). }
  apply (protected_metadata_not_writable (ex_host true) ex_policy (lit "/w")
    (mkResolved (ex_abs "/w") Write) (lit ".git") [Normal (lit "config")]); try reflexivity.
  - intros e He Ha.
    change (resolved_entries_with_cwd (ex_host true) ex_policy (lit "/w")) with
      [mkResolved [RootDir] Read; mkResolved (ex_abs "/w") Write;
       mkResolved (ex_abs "/w/docs") Deny] in He.
    apply elem_of_cons in He as [->|He]; [discriminate|].
    apply elem_of_cons in He as [->|He].
    + split.
      * exists [Normal (lit "w")]. split; [reflexivity|]. repeat constructor. by apply Hgood.
      * repeat constructor; apply (bool_decide_eq_true_1 _); reflexivity.
    + apply list_elem_of_singleton in He as ->. discriminate.
  - apply list_elem_of_In. simpl. right; left. reflexivity.
  - by left.
  - exists [Normal (lit "w"); Normal (lit ".git"); Normal (lit "config")]. split; [reflexivity|].
    repeat constructor; by apply Hgood.
Defined.

Lemma legacy_policy_roundtrip_witness :
  ∃ profile,
    profile_of_legacy (ex_host true) (WorkspaceWrite [ex_abs "/data"] true false true) = Some profile ∧
    profile_to_legacy (ex_host true) profile (lit "/w") =
      Ok (WorkspaceWrite [ex_abs "/data"] true false true).
Proof.
  apply legacy_policy_roundtrip. split.
  - apply NoDup_singleton.
  - repeat constructor. discriminate.
Defined.

End PermissionLaws.
