(* ===== verification/ExecApproval.v ===== *)
(** * Approval of commands (core/src/exec_policy.rs, core/src/tools/sandboxing.rs)

    For each command the model proposes, [ExecPolicyManager] takes the command apart
    ([ShellParse]), evaluates the rules ([ExecPolicy]) with a heuristic for the parts no rule
    matches ([CommandSafety], [Permissions]) and answers with an [ExecApprovalRequirement]:
    run it, ask, or refuse.  When the user approves an amendment, the rule is appended to the
    policy file ([PolicyAmend]) and added to the policy in memory.  The model is that of the
    Linux build; tree-sitter, [shlex::try_join] and JSON are parameters. *)

From stdpp Require Import prelude strings list.
From S2P Require Import Prelude RustStr AbsolutePath PatchTypes ExecPolicy PolicyAmend.
From S2P Require Import ShellParse CommandSafety Permissions.

Module ExecApproval.
Import AbsolutePath ExecPolicy PolicyAmend ShellParse CommandSafety Permissions.

(** ** Approval settings (protocol.rs, models.rs) *)

Record GranularApprovalConfig : Type := mkGranular {
  sandbox_approval : bool;
  rules_approval : bool;
  skill_approval : bool;
  request_permissions : bool;
  mcp_elicitations : bool }.

Inductive AskForApproval : Type :=
| UnlessTrusted
| OnRequest
| Granular (config : GranularApprovalConfig)
| Never.

Inductive SandboxPermissions : Type := UseDefault | RequireEscalated | WithAdditionalPermissions.
Definition requires_escalated_permissions (s : SandboxPermissions) : bool :=
  match s with RequireEscalated => true | _ => false end.
Definition requests_sandbox_override (s : SandboxPermissions) : bool :=
  match s with UseDefault => false | _ => true end.

(** [ExecPolicyAmendment] is its command. *)
Notation amendment := (list (list N)) (only parsing).

Inductive ExecApprovalRequirement : Type :=
| Skip (bypass_sandbox : bool) (proposed : option (list (list N)))
| NeedsApproval (reason : option (list N)) (proposed : option (list (list N)))
| ForbiddenExec (reason : list N).

Definition proposed_execpolicy_amendment (r : ExecApprovalRequirement) : option (list (list N)) :=
  match r with
  | NeedsApproval _ (Some prefix) => Some prefix
  | Skip _ (Some prefix) => Some prefix
  | _ => None
  end.

(** ** Rejected prompts *)

Definition PROMPT_CONFLICT_REASON : str :=
  lit "approval required by policy, but AskForApproval is set to Never".
Definition REJECT_SANDBOX_APPROVAL_REASON : str :=
  lit "approval required by policy, but AskForApproval::Granular.sandbox_approval is false".
Definition REJECT_RULES_APPROVAL_REASON : str :=
  lit "approval required by policy rule, but AskForApproval::Granular.rules is false".

Definition prompt_is_rejected_by_policy (policy : AskForApproval) (prompt_is_rule : bool) :
    option (list N) :=
  match policy with
  | Never => Some PROMPT_CONFLICT_REASON
  | OnRequest | UnlessTrusted => None
  | Granular config =>
      if prompt_is_rule then
        if negb (rules_approval config) then Some REJECT_RULES_APPROVAL_REASON else None
      else if negb (sandbox_approval config) then Some REJECT_SANDBOX_APPROVAL_REASON
      else None
  end.

Definition is_policy_match (m : RuleMatch) : bool :=
  match m with PrefixRuleMatch _ _ _ _ => true | HeuristicsRuleMatch _ _ => false end.
Definition policy_match_with (d : Decision) (m : RuleMatch) : bool :=
  is_policy_match m && bool_decide (match_decision m = d).

(** ** Commands no rule matches *)

Record UnmatchedCommandContext : Type := mkContext {
  ctx_approval_policy : AskForApproval;
  ctx_permission_profile : PermissionProfile;
  ctx_sandbox_permissions : SandboxPermissions;
  ctx_used_complex_parsing : bool }.

Section approval.
Variable env : process_env.
Variable try_parse_shell : str → option Node.
Variable shlex_try_join : list (list N) → option (list N).

(** [render_decision_for_unmatched_command] where [cfg!(windows)] is false. *)
Definition render_decision_for_unmatched_command (ctx : UnmatchedCommandContext)
    (command : list (list N)) : Decision :=
  let kind := fs_kind (file_system_sandbox_policy (ctx_permission_profile ctx)) in
  let is_known_safe := is_known_safe_command try_parse_shell command in
  if is_known_safe && negb (ctx_used_complex_parsing ctx) &&
     match ctx_approval_policy ctx with UnlessTrusted => true | _ => false end
  then Allow
  else if command_might_be_dangerous try_parse_shell command then
    match ctx_approval_policy ctx with
    | Never =>
        match ctx_permission_profile ctx with
        | Disabled | External _ => Allow
        | Managed _ _ => Forbidden
        end
    | OnRequest | UnlessTrusted | Granular _ => Prompt
    end
  else
    match ctx_approval_policy ctx with
    | Never => Allow
    | UnlessTrusted => Prompt
    | OnRequest | Granular _ =>
        match kind with
        | Unrestricted | ExternalSandbox => Allow
        | Restricted =>
            if requests_sandbox_override (ctx_sandbox_permissions ctx) then Prompt else Allow
        end
    end.

Record ExecPolicyCommands : Type := mkCommands {
  commands : list (list (list N)); used_complex_parsing : bool }.

Definition commands_for_exec_policy (command : list (list N)) : ExecPolicyCommands :=
  let single :=
    match parse_shell_lc_single_command_prefix try_parse_shell command with
    | Some single_command => mkCommands [single_command] true
    | None => mkCommands [command] false
    end in
  match parse_shell_lc_plain_commands try_parse_shell command with
  | Some (c :: cs) => mkCommands (c :: cs) false
  | _ => single
  end.

(** ** Amendments *)

Definition try_derive_execpolicy_amendment_for_prompt_rules (matched_rules : list RuleMatch) :
    option (list (list N)) :=
  if existsb (policy_match_with Prompt) matched_rules then None
  else head (omap (λ m, match m with
                        | HeuristicsRuleMatch command Prompt => Some command
                        | _ => None
                        end) matched_rules).

Definition try_derive_execpolicy_amendment_for_allow_rules (matched_rules : list RuleMatch) :
    option (list (list N)) :=
  if existsb is_policy_match matched_rules then None
  else head (omap (λ m, match m with
                        | HeuristicsRuleMatch command Allow => Some command
                        | _ => None
                        end) matched_rules).

Definition BANNED_PREFIX_SUGGESTIONS : list (list string) :=
  [["python3"]; ["python3"; "-"]; ["python3"; "-c"]; ["python"]; ["python"; "-"];
   ["python"; "-c"]; ["py"]; ["py"; "-3"]; ["pythonw"]; ["pyw"]; ["pypy"]; ["pypy3"]; ["git"];
   ["bash"]; ["bash"; "-lc"]; ["sh"]; ["sh"; "-c"]; ["sh"; "-lc"]; ["zsh"]; ["zsh"; "-lc"];
   ["/bin/zsh"]; ["/bin/zsh"; "-lc"]; ["/bin/bash"]; ["/bin/bash"; "-lc"]; ["pwsh"];
   ["pwsh"; "-Command"]; ["pwsh"; "-c"]; ["powershell"]; ["powershell"; "-Command"];
   ["powershell"; "-c"]; ["powershell.exe"]; ["powershell.exe"; "-Command"];
   ["powershell.exe"; "-c"]; ["env"]; ["sudo"]; ["node"]; ["node"; "-e"]; ["perl"];
   ["perl"; "-e"]; ["ruby"]; ["ruby"; "-e"]; ["php"]; ["php"; "-r"]; ["lua"]; ["lua"; "-e"];
   ["osascript"]].

(** [prefix_rule_would_approve_all_commands]; a check always gives an evaluation. *)
Definition prefix_rule_would_approve_all_commands (policy : Policy) (prefix_rule : list (list N))
    (cmds : list (list (list N))) (fallback : list (list N) → Decision) : bool :=
  match add_prefix_rule prefix_rule Allow policy with
  | Err _ => false
  | Ok policy_with_prefix_rule =>
      forallb (λ cmd,
        match check_with_options env policy_with_prefix_rule cmd fallback true with
        | Some e => bool_decide (decision e = Allow)
        | None => false
        end) cmds
  end.

Definition derive_requested_execpolicy_amendment_from_prefix_rule
    (prefix_rule : option (list (list N))) (matched_rules : list RuleMatch) (policy : Policy)
    (cmds : list (list (list N))) (fallback : list (list N) → Decision) :
    option (list (list N)) :=
  prefix_rule ← prefix_rule;
  if decide (prefix_rule = []) then None
  else if existsb (λ banned, bool_decide (prefix_rule = lit <$> banned)) BANNED_PREFIX_SUGGESTIONS
  then None
  else if existsb is_policy_match matched_rules then None
  else if prefix_rule_would_approve_all_commands policy prefix_rule cmds fallback
  then Some prefix_rule else None.

(** ** Reasons *)

Definition backtick : str := [96%N].
Definition render_shlex_command (args : list (list N)) : str :=
  default (join (lit " ") args) (shlex_try_join args).

(** [max_by_key] on the lengths of matched prefixes: the last of the longest. *)
Definition longest_step (best : option (list (list N) * option (list N)))
    (m : list (list N) * option (list N)) : option (list (list N) * option (list N)) :=
  match best with
  | None => Some m
  | Some b => if length b.1 <=? length m.1 then Some m else Some b
  end.
Definition most_specific (d : Decision) (ms : list RuleMatch) :
    option (list (list N) * option (list N)) :=
  foldl longest_step None
    (omap (λ m, match m with
                | PrefixRuleMatch matched_prefix d' _ justification =>
                    if decide (d' = d) then Some (matched_prefix, justification) else None
                | HeuristicsRuleMatch _ _ => None
                end) ms).

Definition derive_prompt_reason (command_args : list (list N)) (evaluation : Evaluation) :
    option (list N) :=
  let command := render_shlex_command command_args in
  match most_specific Prompt (matched_rules evaluation) with
  | Some (_, Some justification) =>
      Some (backtick ++ command ++ backtick ++ lit " requires approval: " ++ justification)
  | Some (_, None) => Some (backtick ++ command ++ backtick ++ lit " requires approval by policy")
  | None => None
  end.

Definition derive_forbidden_reason (command_args : list (list N)) (evaluation : Evaluation) : str :=
  let command := render_shlex_command command_args in
  match most_specific Forbidden (matched_rules evaluation) with
  | Some (_, Some justification) =>
      backtick ++ command ++ backtick ++ lit " rejected: " ++ justification
  | Some (matched_prefix, None) =>
      backtick ++ command ++ backtick ++ lit " rejected: policy forbids commands starting with "
      ++ backtick ++ render_shlex_command matched_prefix ++ backtick
  | None => backtick ++ command ++ backtick ++ lit " rejected: blocked by policy"
  end.

(** ** The requirement for a command *)

Record ExecApprovalRequest : Type := mkRequest {
  req_command : list (list N);
  req_approval_policy : AskForApproval;
  req_permission_profile : PermissionProfile;
  req_sandbox_permissions : SandboxPermissions;
  req_prefix_rule : option (list (list N)) }.

(** The fallback closure of a request. *)
Definition request_fallback (req : ExecApprovalRequest) : list (list N) → Decision :=
  render_decision_for_unmatched_command
    (mkContext (req_approval_policy req) (req_permission_profile req) (req_sandbox_permissions req)
       (used_complex_parsing (commands_for_exec_policy (req_command req)))).

(** [None] is the panic of an evaluation without matches. *)
Definition create_exec_approval_requirement_for_command (policy : Policy)
    (req : ExecApprovalRequest) : option ExecApprovalRequirement :=
  let parsed := commands_for_exec_policy (req_command req) in
  let auto_amendment_allowed := negb (used_complex_parsing parsed) in
  let fallback := request_fallback req in
  evaluation ← check_multiple_with_options env policy (commands parsed) fallback true;
  let requested_amendment :=
    if auto_amendment_allowed then
      derive_requested_execpolicy_amendment_from_prefix_rule (req_prefix_rule req)
        (matched_rules evaluation) policy (commands parsed) fallback
    else None in
  Some
    match decision evaluation with
    | Forbidden => ForbiddenExec (derive_forbidden_reason (req_command req) evaluation)
    | Prompt =>
        let prompt_is_rule := existsb (policy_match_with Prompt) (matched_rules evaluation) in
        match prompt_is_rejected_by_policy (req_approval_policy req) prompt_is_rule with
        | Some reason => ForbiddenExec reason
        | None =>
            NeedsApproval (derive_prompt_reason (req_command req) evaluation)
              (match requested_amendment with
               | Some a => Some a
               | None =>
                   if auto_amendment_allowed
                   then try_derive_execpolicy_amendment_for_prompt_rules (matched_rules evaluation)
                   else None
               end)
        end
    | Allow =>
        Skip
          (forallb (λ cmd, existsb (policy_match_with Allow)
                     (matches_for_command_with_options env policy cmd None true))
             (commands parsed))
          (if auto_amendment_allowed
           then try_derive_execpolicy_amendment_for_allow_rules (matched_rules evaluation)
           else None)
    end.
End approval.

(** ** Updating the policy *)

(** The manager's state: the policy in memory and the default policy file. *)
Record ExecPolicyManager : Type := mkManager { policy : Policy; policy_text : option (list N) }.

Inductive ExecPolicyUpdateError : Type :=
| AppendRule (path : list N) (source : AmendError)
| JoinBlockingTask (source : list N)
| AddRule (source : Error).

Definition RULES_DIR_NAME : str := lit "rules".
Definition DEFAULT_POLICY_FILE : str := lit "default.rules".
Definition default_policy_path (codex_home : str) : str :=
  path_join (path_join codex_home RULES_DIR_NAME) DEFAULT_POLICY_FILE.

(** The blocking task on the file, or the error of joining it. *)
Definition run_blocking (join_error : option (list N)) (path : str)
    (task : M (option (list N)) AmendError unit) : M ExecPolicyManager ExecPolicyUpdateError unit :=
  λ st,
  match join_error with
  | Some e => (st, Err (JoinBlockingTask e))
  | None =>
      let '(file, r) := task (policy_text st) in
      (mkManager (policy st) file, map_err (AppendRule path) r)
  end.

Definition store_policy (p : Policy) : M ExecPolicyManager ExecPolicyUpdateError unit :=
  st_modify (λ st, mkManager p (policy_text st)).

Section update.
Variable env : process_env.
Variable to_json : str → result str (list N).

Definition already_allowed (policy : Policy) (command : list (list N)) : bool :=
  match check_multiple_with_options env policy [command] (λ _, Forbidden) true with
  | Some e => bool_decide (decision e = Allow) && existsb (policy_match_with Allow) (matched_rules e)
  | None => false
  end.

Definition append_amendment_and_update (join_error : option (list N)) (io : io_outcomes)
    (codex_home : str) (command : list (list N)) : M ExecPolicyManager ExecPolicyUpdateError unit :=
  let policy_path := default_policy_path codex_home in
  run_blocking join_error policy_path
    (blocking_append_allow_prefix_rule to_json io policy_path command) ;;;
  let! st := st_get in
  if already_allowed (policy st) command then st_ret tt
  else
    let! updated := st_lift (map_err AddRule (add_prefix_rule command Allow (policy st))) in
    store_policy updated.

Definition append_network_rule_and_update (join_error : option (list N)) (io : io_outcomes)
    (codex_home host : str) (protocol : NetworkRuleProtocol) (d : Decision)
    (justification : option (list N)) : M ExecPolicyManager ExecPolicyUpdateError unit :=
  let policy_path := default_policy_path codex_home in
  run_blocking join_error policy_path
    (blocking_append_network_rule to_json io policy_path host protocol d justification) ;;;
  let! st := st_get in
  let! updated := st_lift (map_err AddRule
                             (add_network_rule host protocol d justification (policy st))) in
  store_policy updated.
End update.

(** ** Sandbox of the first attempt (tools/sandboxing.rs) *)

Definition default_exec_approval_requirement (policy : AskForApproval)
    (p : FileSystemSandboxPolicy) : ExecApprovalRequirement :=
  let needs_approval :=
    match policy with
    | Never => false
    | OnRequest | Granular _ => is_restricted p
    | UnlessTrusted => true
    end in
  if needs_approval &&
     match policy with Granular config => negb (sandbox_approval config) | _ => false end
  then ForbiddenExec (lit "approval policy disallowed sandbox approval prompt")
  else if needs_approval then NeedsApproval None None
  else Skip false None.

Inductive SandboxOverride : Type := NoOverride | BypassSandboxFirstAttempt.

Definition unsandboxed_execution_allowed (p : FileSystemSandboxPolicy) : bool :=
  negb (has_denied_read_restrictions p).

Definition sandbox_override_for_first_attempt (s : SandboxPermissions)
    (r : ExecApprovalRequirement) (p : FileSystemSandboxPolicy) : SandboxOverride :=
  if negb (unsandboxed_execution_allowed p) then NoOverride
  else match r with
       | Skip true _ => BypassSandboxFirstAttempt
       | _ => if requires_escalated_permissions s then BypassSandboxFirstAttempt else NoOverride
       end.

Definition sandbox_permissions_preserving_denied_reads (s : SandboxPermissions)
    (p : FileSystemSandboxPolicy) : SandboxPermissions :=
  if requires_escalated_permissions s && negb (unsandboxed_execution_allowed p)
  then UseDefault else s.

Definition wants_no_sandbox_approval (policy : AskForApproval) : bool :=
  match policy with
  | UnlessTrusted => true
  | Never => false
  | OnRequest => false
  | Granular config => sandbox_approval config
  end.

End ExecApproval.
