(* ===== verification/ApprovalLaws.v ===== *)
(** * Laws of command approval

    What [ExecApproval] promises: the meaning of each answer in terms of the rules that apply
    and the heuristics, the guarantee of the untrusted mode, and that an approved amendment
    takes effect. *)

From stdpp Require Import prelude strings list.
From S2P Require Import Prelude RustStr AbsolutePath PatchTypes ExecPolicy PolicyAmend.
From S2P Require Import ShellParse CommandSafety Permissions PermissionLaws ExecApproval.

Module ApprovalLaws.
Import AbsolutePath ExecPolicy PolicyAmend ShellParse CommandSafety Permissions ExecApproval.

(** ** Evaluations *)

(** The decision on one command. *)
Definition verdict (env : process_env) (p : Policy) (f : list (list N) → Decision)
    (cmd : list (list N)) (d : Decision) : Prop :=
  ∃ e, check_with_options env p cmd f true = Some e ∧ decision e = d.

(** What a verdict means: the strictest rule that applies, or the heuristics. *)
Definition ruled (env : process_env) (p : Policy) (f : list (list N) → Decision)
    (cmd : list (list N)) (d : Decision) : Prop :=
  ((∃ r, applies env p cmd true r ∧ rule_decision r = d) ∧
   ∀ r, applies env p cmd true r → severity (rule_decision r) ≤ severity d) ∨
  (∀ r, ¬ applies env p cmd true r) ∧ f cmd = d.

(** Some rule that applies allows the command. *)
Definition allowed_by_rule (env : process_env) (p : Policy) (cmd : list (list N)) : Prop :=
  ∃ r, applies env p cmd true r ∧ rule_decision r = Allow.

Lemma severity_inj a b : severity a = severity b → a = b.
Proof. by destruct a, b. Qed.

Lemma verdict_ruled env p f cmd d : verdict env p f cmd d ↔ ruled env p f cmd d.
Proof.
  destruct (check_decides env p cmd f true) as (e&He&Hd). unfold verdict, ruled. rewrite He.
  split.
  - intros (?&[= <-]&<-). unfold decides in Hd. naive_solver.
  - intros H. exists e. split; [done|]. destruct Hd as [(_&(r&Hr&Hrd)&Hle)|(_&Hno&->)], H as
      [[(r'&Hr'&Hrd') Hle']|[Hno' <-]]; [|naive_solver..|done].
    apply severity_inj. specialize (Hle r' Hr'). specialize (Hle' r Hr).
    rewrite Hrd, Hrd' in *. lia.
Qed.

Lemma verdict_total env p f cmd : ∃ d, verdict env p f cmd d.
Proof. destruct (check_decides env p cmd f true) as (e&He&_). by exists (decision e), e. Qed.
Lemma verdict_unique env p f cmd d d' : verdict env p f cmd d → verdict env p f cmd d' → d = d'.
Proof. intros (e&He&<-) (e'&He'&<-). by simplify_eq. Qed.

(** Several commands: the strictest verdict, and the matches of each. *)
Lemma check_multiple_verdicts env p cmds f :
  cmds ≠ [] →
  ∃ e, check_multiple_with_options env p cmds f true = Some e ∧
    matched_rules e =
      concat ((λ c, matches_for_command_with_options env p c (Some f) true) <$> cmds) ∧
    (∃ c, c ∈ cmds ∧ verdict env p f c (decision e)) ∧
    ∀ c d, c ∈ cmds → verdict env p f c d → severity d ≤ severity (decision e).
Proof.
  intros Hne. pose proof (check_multiple_strictest env p cmds f true) as H.
  destruct (check_multiple_with_options env p cmds f true) as [e|] eqn:He; [|done].
  exists e. destruct H as [(c&e'&Hc&He'&Hd) Hle]. split_and!; [done| |by exists c; split; [|exists e']|].
  - unfold check_multiple_with_options, from_matches in He.
    destruct (max_decisions _); simplify_eq/=. done.
  - intros c' d Hc' (e''&He''&<-). by eapply Hle.
Qed.

Lemma allow_iff_all env p cmds f e :
  check_multiple_with_options env p cmds f true = Some e → cmds ≠ [] →
  decision e = Allow ↔ ∀ c, c ∈ cmds → verdict env p f c Allow.
Proof.
  intros He Hne. destruct (check_multiple_verdicts env p cmds f Hne) as (e'&He'&_&(c&Hc&Hv)&Hle).
  simplify_eq. split.
  - intros Ha c' Hc'. destruct (verdict_total env p f c') as [d Hd].
    specialize (Hle c' d Hc' Hd). rewrite Ha in Hle. by destruct d; simpl in Hle; try lia.
  - intros Hall. by eapply verdict_unique; [|apply Hall].
Qed.

(** Matches against rules. *)
Lemma policy_match_applies env p c d :
  existsb (policy_match_with d) (matches_for_command_with_options env p c None true) = true ↔
  ∃ r, applies env p c true r ∧ rule_decision r = d.
Proof.
  assert (matches_for_command_with_options env p c None true = rule_matches_for env p c true) as ->.
  { unfold matches_for_command_with_options. by destruct (rule_matches_for _ _ _ _). }
  destruct (rule_matches_for_spec env p c true) as [H1 H2].
  rewrite existsb_exists. setoid_rewrite <-list_elem_of_In. unfold policy_match_with. split.
  - intros (m&Hm&Hd). apply andb_true_iff in Hd as [_ Hd%bool_decide_eq_true].
    destruct (H1 m Hm) as (_&r&Hr&Hrd). exists r. split; [done|congruence].
  - intros (r&Hr&Hrd). destruct (H2 r Hr) as (m&Hm&Hmd). exists m. split; [done|].
    destruct (H1 m Hm) as [Hp _]. apply andb_true_iff. split; [by destruct m|].
    apply bool_decide_eq_true. congruence.
Qed.

Lemma no_policy_match_applies env p c f :
  existsb is_policy_match (matches_for_command_with_options env p c (Some f) true) = false ↔
  ∀ r, ¬ applies env p c true r.
Proof.
  destruct (rule_matches_for_spec env p c true) as [H1 H2].
  unfold matches_for_command_with_options.
  destruct (rule_matches_for env p c true) as [|m ms] eqn:Hms.
  - split; [|done]. intros _ r Hr. destruct (H2 r Hr) as (m&Hm&_). by apply elem_of_nil in Hm.
  - destruct (H1 m ltac:(by left)) as (Hp&r&Hr&_). split.
    + simpl. by destruct m.
    + intros Hno. by destruct (Hno r).
Qed.

(** ** The answers *)

Lemma commands_not_empty ts command : commands (commands_for_exec_policy ts command) ≠ [].
Proof. unfold commands_for_exec_policy. by repeat case_match. Qed.

Section answers.
Variable env : process_env.
Variable try_parse_shell : str → option Node.
Variable shlex_try_join : list (list N) → option (list N).

Notation create := (create_exec_approval_requirement_for_command env try_parse_shell shlex_try_join).
Notation cmds_of req := (commands (commands_for_exec_policy try_parse_shell (req_command req))).
Notation fallback_of req := (request_fallback try_parse_shell req).

(** The evaluation behind an answer. *)
Lemma create_evaluation p req :
  ∃ e, check_multiple_with_options env p (cmds_of req) (fallback_of req) true = Some e ∧
    matched_rules e = concat ((λ c, matches_for_command_with_options env p c
                                 (Some (fallback_of req)) true) <$> cmds_of req) ∧
    (∃ c, c ∈ cmds_of req ∧ verdict env p (fallback_of req) c (decision e)) ∧
    ∀ c d, c ∈ cmds_of req → verdict env p (fallback_of req) c d →
      severity d ≤ severity (decision e).
Proof. apply check_multiple_verdicts, commands_not_empty. Qed.

(** A rule that applies to some part of the command asks for a prompt. *)
Definition prompted_by_rule (p : Policy) (req : ExecApprovalRequest) : Prop :=
  ∃ c r, c ∈ cmds_of req ∧ applies env p c true r ∧ rule_decision r = Prompt.

(** The settings let the user be asked.  Granular settings tell prompts that a rule asks for from
    those of the heuristics. *)
Definition prompt_possible (policy : AskForApproval) (by_rule : Prop) : Prop :=
  match policy with
  | Never => False
  | OnRequest | UnlessTrusted => True
  | Granular g => by_rule ∧ rules_approval g = true ∨ ¬ by_rule ∧ sandbox_approval g = true
  end.

(** What an answer says of the parts of the command. *)
Definition answer_meaning (p : Policy) (req : ExecApprovalRequest)
    (answer : ExecApprovalRequirement) : Prop :=
  let decided c d := ruled env p (fallback_of req) c d in
  let forbidden := ∃ c, c ∈ cmds_of req ∧ decided c Forbidden in
  let prompted := ∃ c, c ∈ cmds_of req ∧ decided c Prompt in
  let possible := prompt_possible (req_approval_policy req) (prompted_by_rule p req) in
  match answer with
  | Skip bypass _ =>
      (∀ c, c ∈ cmds_of req → decided c Allow) ∧
      (bypass = true ↔ ∀ c, c ∈ cmds_of req → allowed_by_rule env p c)
  | NeedsApproval _ _ => ¬ forbidden ∧ prompted ∧ possible
  | ForbiddenExec _ => forbidden ∨ ¬ forbidden ∧ prompted ∧ ¬ possible
  end.

Lemma prompt_matches p req e :
  matched_rules e = concat ((λ c, matches_for_command_with_options env p c
                               (Some (fallback_of req)) true) <$> cmds_of req) →
  existsb (policy_match_with Prompt) (matched_rules e) = true ↔ prompted_by_rule p req.
Proof.
  intros ->. rewrite existsb_exists. unfold prompted_by_rule. setoid_rewrite in_concat.
  setoid_rewrite <- list_elem_of_In. setoid_rewrite list_elem_of_fmap. split.
  - intros (m & (ms & (c & -> & Hc) & Hm) & Hp). exists c.
    assert (existsb (policy_match_with Prompt) (matches_for_command_with_options env p c None true) = true)
      as (r & Hr & Hd)%policy_match_applies; [|by exists r].
    unfold matches_for_command_with_options in *. destruct (rule_matches_for env p c true) as [|m' ms'].
    + apply list_elem_of_singleton in Hm as ->. done.
    + apply existsb_exists. exists m. by rewrite <- list_elem_of_In.
  - intros (c & r & Hc & Hr & Hd).
    assert (existsb (policy_match_with Prompt) (matches_for_command_with_options env p c None true) = true)
      as Hx by (apply policy_match_applies; by exists r).
    apply existsb_exists in Hx as (m & Hm%list_elem_of_In & Hp). exists m. split; [|done].
    eexists. split; [by exists c|]. unfold matches_for_command_with_options in *.
    destruct (rule_matches_for env p c true); [by apply elem_of_nil in Hm|done].
Qed.

Lemma prompt_rejected policy by_rule (P : Prop) :
  (by_rule = true ↔ P) →
  match prompt_is_rejected_by_policy policy by_rule with
  | None => prompt_possible policy P
  | Some _ => ¬ prompt_possible policy P
  end.
Proof.
  intros HP. destruct policy as [| |g|]; simpl; [done..| |naive_solver].
  destruct by_rule, (rules_approval g), (sandbox_approval g); naive_solver.
Qed.

Lemma create_meaning p req :
  ∃ answer, create p req = Some answer ∧ answer_meaning p req answer.
Proof.
  destruct (create_evaluation p req) as (e&He&Hm&(c&Hc&Hv)&Hle).
  unfold create_exec_approval_requirement_for_command. rewrite He. simpl.
  eexists. split; [done|]. unfold answer_meaning. cbv zeta.
  destruct (decision e) eqn:Hd.
  - setoid_rewrite <-verdict_ruled. split; [by apply (allow_iff_all _ _ _ _ _ He (commands_not_empty _ _))|].
    rewrite forallb_forall. setoid_rewrite <-list_elem_of_In.
    by setoid_rewrite policy_match_applies.
  - assert (∀ c, c ∈ cmds_of req → ¬ verdict env p (fallback_of req) c Forbidden) as Hnof.
    { intros c' Hc' Hf. specialize (Hle c' _ Hc' Hf). simpl in Hle. lia. }
    pose proof (prompt_rejected (req_approval_policy req) _ _ (prompt_matches p req e Hm)) as Hr.
    destruct (prompt_is_rejected_by_policy _ _); [right|]; setoid_rewrite <-verdict_ruled;
      (split_and!; [naive_solver|by exists c|done]).
  - left. exists c. by rewrite <-verdict_ruled.
Qed.

(** C2. Every request gets an answer, and the answer is decided by what the rules and the
    heuristics say of the parts of the command (of a part, the strictest rule that applies, or
    the heuristics if none does): it runs without asking exactly when every part is allowed, and
    then outside the sandbox exactly when some rule allows each part; the user is asked exactly
    when nothing is forbidden, some part needs a prompt and a prompt is possible; it is refused
    exactly when some part is forbidden, or a needed prompt is not possible.  A prompt is not
    possible in the mode that never asks, and with granular settings if the switch for rules is
    off and a rule asks for the prompt, or the switch for the sandbox is off and no rule does. *)
Theorem approval_answer_meaning p req :
  ∃ answer, create p req = Some answer ∧ answer_meaning p req answer.
Proof. apply create_meaning. Qed.

(** C3. In the untrusted mode a command runs without asking only if each of its parts is allowed
    by a rule or is a known safe command. *)
Theorem untrusted_runs_only_known_safe p req bypass proposed :
  req_approval_policy req = UnlessTrusted →
  create p req = Some (Skip bypass proposed) →
  ∀ c, c ∈ cmds_of req →
    allowed_by_rule env p c ∨ is_known_safe_command try_parse_shell c = true.
Proof.
  intros Hu Hcreate c Hc. destruct (create_evaluation p req) as (e&He&_).
  unfold create_exec_approval_requirement_for_command in Hcreate. rewrite He in Hcreate.
  simpl in Hcreate.
  assert (decision e = Allow) as Ha
    by (by destruct (decision e); simplify_eq/=; repeat case_match; simplify_eq).
  pose proof (proj1 (allow_iff_all _ _ _ _ _ He (commands_not_empty _ _)) Ha c Hc) as Hv.
  apply verdict_ruled in Hv as [[Hr _]|[_ Hf]]; [by left|]. right.
  unfold request_fallback, render_decision_for_unmatched_command in Hf. simpl in Hf.
  rewrite Hu in Hf. destruct (is_known_safe_command _ c); [done|]. simpl in Hf.
  by destruct (command_might_be_dangerous _ _).
Qed.
End answers.

(** ** Amendments *)

Lemma covers_app r cmd tail : ExecPolicy.covers r cmd → ExecPolicy.covers r (cmd ++ tail).
Proof.
  intros (ws&t&->&HF). exists ws, (t ++ tail). by rewrite (assoc_L (++)).
Qed.

(** The rule an amendment adds. *)
Definition amendment_rule (a0 : list N) (rest : list (list N)) : PrefixRule :=
  mkRule (mkPattern a0 (Single <$> rest)) Allow None.

Lemma amendment_rule_covers a0 rest cmd :
  ExecPolicy.covers (amendment_rule a0 rest) cmd ↔ ∃ tail, cmd = (a0 :: rest) ++ tail.
Proof.
  split.
  - intros (ws&tail&->&HF). exists tail. f_equal. simpl in HF.
    inversion HF as [|? w ? ws' Hw HF']; subst. apply list_elem_of_singleton in Hw as ->.
    f_equal. clear HF. revert ws' HF'. induction rest as [|t rest IH]; intros ws' HF';
      inversion HF' as [|? w ? ws'' Hw HF'']; subst; [done|].
    apply list_elem_of_singleton in Hw as ->. f_equal. by apply IH.
  - intros [tail ->]. exists (a0 :: rest), tail. split; [done|]. simpl.
    constructor; [by apply list_elem_of_singleton|].
    induction rest; simpl; constructor; [by apply list_elem_of_singleton|done].
Qed.

Section amend.
Variable env : process_env.
Hypothesis current_dir_absolute : ∀ d, current_dir env = Ok d → is_absolute d = true.

Variable p p' : Policy.
Variable a0 : list N.
Variable arest : list (list N).
Hypothesis added : add_prefix_rule (a0 :: arest) Allow p = Ok p'.
Notation a := (a0 :: arest).
Notation ra := (amendment_rule a0 arest).

Lemma added_rules k r :
  r ∈ default [] (get_vec (rules_by_program p') k) ↔
  r ∈ default [] (get_vec (rules_by_program p) k) ∨ a0 = k ∧ r = ra.
Proof.
  simpl in added. injection added as <-. unfold get_vec. simpl. rewrite mm_insert_lookup, elem_of_app.
  case_decide; simpl; [rewrite list_elem_of_singleton; naive_solver|].
  rewrite elem_of_nil. naive_solver.
Qed.
Lemma added_host k : host_executables_by_name p' !! k = host_executables_by_name p !! k.
Proof. simpl in added. by injection added as <-. Qed.

Lemma added_exact c r :
  exact_rule p' c r ↔ exact_rule p c r ∨ r = ra ∧ ∃ tail, c = a ++ tail.
Proof.
  unfold exact_rule. setoid_rewrite added_rules. split.
  - intros (c0&args&->&[Hr|[-> ->]]&Hc); [by left; exists c0, args|right].
    split; [done|]. by apply amendment_rule_covers in Hc.
  - intros [(c0&args&->&Hr&Hc)|[-> [tail ->]]]; [by exists c0, args; auto|].
    exists a0, (arest ++ tail). split_and!; [done|by right|]. apply amendment_rule_covers. by exists tail.
Qed.

(** A rule that applies to the amendment applies to every command the amendment covers. *)
Lemma exact_extends c tail r : exact_rule p a r → c = a ++ tail → exact_rule p c r.
Proof.
  intros (c0&args&[= <- <-]&Hr&Hc) ->. exists a0, (arest ++ tail). split_and!; [done..|].
  by apply (covers_app r a tail).
Qed.
Lemma host_extends c tail r : host_rule env p a r → c = a ++ tail → host_rule env p c r.
Proof.
  intros (c0&args&prog&base&[= <- <-]&Hp&Hb&Hr&Hc&Hh) ->.
  exists a0, (arest ++ tail), prog, base. split_and!; try done.
  by apply (covers_app r (base :: arest) tail).
Qed.

(** A plain name resolves to a program of that name. *)
Lemma name_resolves w prog :
  good_name (Normal w) → strip_prefix [tilde] w = None →
  from_absolute_path (home_dir env) (current_dir env) w = Ok prog →
  executable_path_lookup_key prog = Some w.
Proof.
  intros (w'&[= <-]&Hslash&Hpc) Htilde. unfold from_absolute_path.
  assert (maybe_expand_home_directory (home_dir env) w = w) as ->.
  { unfold maybe_expand_home_directory. rewrite Htilde. by destruct (home_dir env). }
  assert (is_absolute w = false) as Hrel.
  { apply not_true_is_false. intros [r ->]%starts_with_true. set_solver. }
  unfold absolutize. rewrite Hrel. destruct (current_dir env) as [d|] eqn:Hd; [|done]. simpl.
  intros [= <-]. specialize (current_dir_absolute d eq_refl).
  unfold absolutize_from, path_with_base, normalize_path. rewrite Hrel.
  rewrite PermissionLaws.components_join, split_on_no_sep by done. simpl. rewrite Hpc.
  rewrite foldl_app. simpl. unfold executable_path_lookup_key, file_name.
  destruct (foldl _ _ (components d)); simpl; [done|].
  by rewrite app_comm_cons, last_snoc.
Qed.

Lemma amendment_applies_extends c r :
  strip_prefix [tilde] a0 = None →
  (∃ r0, applies env p a true r0) → applies env p' c true r → r = ra →
  ∃ r', applies env p c true r'.
Proof.
  intros Htilde [r0 Hr0] Hr ->.
  assert ((∃ r', exact_rule p c r') ∨ (∃ r', host_rule env p c r') →
          ∃ r', applies env p c true r') as Hcombine.
  { intros [[r' Hr']|[r' Hr']]; [exists r'; by left|].
    destruct (rule_matches_for_spec env p c true) as [H1 H2].
    destruct (match_exact_rules p c ≫= non_empty) as [ms|] eqn:Hms.
    - pose proof (exact_matches p c) as [He _].
      destruct (match_exact_rules p c) as [[|m ms']|]; simplify_eq/=.
      destruct (He m ltac:(by left)) as (_&r''&Hr''&_). exists r''. by left.
    - exists r'. right. split_and!; [done| |done]. intros r'' Hr''.
      pose proof (exact_matches p c) as [_ He]. destruct (He r'' Hr'') as (m&Hm&_).
      destruct (match_exact_rules p c) as [[|]|]; simplify_eq/=; by apply elem_of_nil in Hm. }
  apply Hcombine. destruct Hr as [Hex|(_&Hnoex&Hhost)].
  - apply added_exact in Hex as [Hex|[_ [tail Hc]]]; [by eauto|].
    destruct Hr0 as [H0|(_&_&H0)]; [left|right]; exists r0;
      [by eapply exact_extends|by eapply host_extends].
  - right. destruct Hhost as (c0&args&prog&base&->&Hp&Hb&Hr&Hc&Hh).
    apply amendment_rule_covers in Hc as [tail Hc]. injection Hc as -> Hargs.
    setoid_rewrite added_host in Hh. exists r0.
    assert (r0 ∈ default [] (get_vec (rules_by_program p) a0) ∧ ExecPolicy.covers r0 a) as [Hin Hcov].
    { destruct Hr0 as [(x&y&[= <- <-]&Hin&Hcov)|(_&_&(x&y&prog2&base2&[= <- <-]&Hp2&Hb2&Hin&Hcov&_))];
        [done|].
      assert (executable_path_lookup_key prog2 = Some a0) as Hname.
      { eapply name_resolves; [|done|done].
        assert (normal_form prog) as (ns&->&Hns) by (by eapply absolutize_normal_form).
        unfold executable_path_lookup_key, file_name in Hb.
        destruct ns as [|n ns _] using rev_ind; [done|].
        rewrite app_comm_cons, last_snoc in Hb. apply Forall_app in Hns as [_ (Hn&_)%Forall_cons].
        destruct n; simplify_eq/=. done. }
      rewrite Hname in Hb2. by injection Hb2 as <-. }
    exists c0, args, prog, a0. split_and!; try done.
    change (a0 :: args) with ([a0] ++ args). rewrite Hargs. by apply (covers_app r0 a tail).
Qed.
End amend.

(** What a successful update leaves in memory. *)
Lemma append_amendment_ok env to_json join_error io home a st st' :
  append_amendment_and_update env to_json join_error io home a st = (st', Ok tt) →
  a ≠ [] ∧
  (already_allowed env (policy st) a = true ∧ policy st' = policy st ∨
   add_prefix_rule a Allow (policy st) = Ok (policy st')).
Proof.
  unfold append_amendment_and_update. intros (st1&?&Hrun&Hrest)%st_bind_ok.
  assert (policy st1 = policy st ∧ a ≠ []) as [Hpol Hne].
  { unfold run_blocking in Hrun. destruct join_error; [done|].
    destruct (blocking_append_allow_prefix_rule _ _ _ _ _) as [file r] eqn:Hb. simplify_eq/=.
    split; [done|]. intros ->. unfold blocking_append_allow_prefix_rule in Hb. simpl in Hb.
    unfold st_throw in Hb. by simplify_eq/=. }
  split; [done|]. apply st_bind_ok in Hrest as (st2&?&Hget&Hrest). unfold st_get in Hget.
  simplify_eq. rewrite Hpol in *. destruct (already_allowed env (policy st) a).
  { left. unfold st_ret in Hrest. by simplify_eq. }
  right. apply st_bind_ok in Hrest as (st3&p'&Hadd&Hstore). unfold st_lift in Hadd.
  destruct (add_prefix_rule a Allow (policy st)); simplify_eq/=.
  unfold store_policy, st_modify in Hstore. by simplify_eq/=.
Qed.

Lemma already_allowed_applies env p a :
  already_allowed env p a = true → ∃ r, applies env p a true r.
Proof.
  unfold already_allowed. destruct (check_multiple_verdicts env p [a] (λ _, Forbidden))
    as (e&->&_&(c&->%list_elem_of_singleton&Hv)&_); [done|].
  intros [Ha%bool_decide_eq_true _]%andb_true_iff. rewrite Ha in Hv.
  apply verdict_ruled in Hv as [[(r&Hr&_) _]|[_ ?]]; [by eauto|done].
Qed.

Section effect.
Variable env : process_env.
Variable try_parse_shell : str → option Node.
Variable shlex_try_join : list (list N) → option (list N).
Hypothesis current_dir_absolute : ∀ d, current_dir env = Ok d → is_absolute d = true.

Notation create := (create_exec_approval_requirement_for_command env try_parse_shell shlex_try_join).
Notation cmds_of req := (commands (commands_for_exec_policy try_parse_shell (req_command req))).
Notation fallback_of req := (request_fallback try_parse_shell req).

Lemma all_allowed_skips p req :
  (∀ c, c ∈ cmds_of req → verdict env p (fallback_of req) c Allow) →
  ∃ bypass proposed, create p req = Some (Skip bypass proposed).
Proof.
  intros Hall. destruct (create_evaluation env try_parse_shell p req) as (e&He&_).
  assert (decision e = Allow) as Ha
    by (by apply (allow_iff_all _ _ _ _ _ He (commands_not_empty _ _))).
  unfold create_exec_approval_requirement_for_command. rewrite He. simpl. rewrite Ha. by eauto.
Qed.

(** The model's prefix rule was checked to allow everything, and nothing applied before. *)
Lemma requested_amendment_checked p req ms a :
  derive_requested_execpolicy_amendment_from_prefix_rule env (req_prefix_rule req) ms p
    (cmds_of req) (fallback_of req) = Some a →
  existsb is_policy_match ms = false ∧
  ∃ p', add_prefix_rule a Allow p = Ok p' ∧
        ∀ c, c ∈ cmds_of req → verdict env p' (fallback_of req) c Allow.
Proof.
  unfold derive_requested_execpolicy_amendment_from_prefix_rule.
  destruct (req_prefix_rule req) as [pr|]; cbn [mbind option_bind]; [|done].
  case_decide; [done|]. destruct (existsb _ BANNED_PREFIX_SUGGESTIONS); [done|].
  destruct (existsb is_policy_match ms); [done|].
  destruct (prefix_rule_would_approve_all_commands _ _ _ _ _) eqn:Hw; [|done].
  intros [= <-]. split; [done|]. unfold prefix_rule_would_approve_all_commands in Hw.
  destruct (add_prefix_rule pr Allow p) as [p'|]; [|done]. exists p'. split; [done|].
  intros c Hc. rewrite forallb_forall in Hw. specialize (Hw c (proj1 (list_elem_of_In _ _) Hc)).
  destruct (check_with_options _ _ _ _ _) as [e|] eqn:He; [|done].
  apply bool_decide_eq_true in Hw. by exists e.
Qed.

(** If the amended policy allows a command that no rule covered, and the policy did not need
    the amendment, the command was allowed already. *)
Lemma needless_amendment p p' f a c :
  (∀ r, ¬ applies env p c true r) → (∃ r, applies env p a true r) →
  strip_prefix [tilde] (default [] (head a)) = None →
  add_prefix_rule a Allow p = Ok p' → verdict env p' f c Allow → verdict env p f c Allow.
Proof.
  intros Hno Hra Htilde Hadd Hv. destruct a as [|a0 arest]; [done|]. simpl in Htilde.
  apply verdict_ruled. right. split; [done|].
  apply verdict_ruled in Hv as [[(r&Hr&_) _]|[_ Hf]]; [|done]. exfalso.
  assert (r = amendment_rule a0 arest) as Heq.
  { destruct Hr as [Hex|(_&Hnoex&(c0&args&prog&base&->&Hp&Hb&Hin&Hc&Hh))].
    - apply (added_exact p p' a0 arest Hadd) in Hex as [Hex|[? _]]; [|done].
      by destruct (Hno r); left.
    - apply (added_rules p p' a0 arest Hadd) in Hin as [Hin|[_ ?]]; [|done].
      destruct (Hno r). right. split_and!; [done| |].
      + intros r' Hr'. apply (Hnoex r'). apply (added_exact p p' a0 arest Hadd). by left.
      + exists c0, args, prog, base. split_and!; try done.
        intros paths Hpaths. apply Hh. by rewrite (added_host p p' a0 arest Hadd). }
  destruct (amendment_applies_extends env current_dir_absolute p p' a0 arest Hadd c r)
    as [r' Hr']; try done. by destruct (Hno r').
Qed.

(** A command that no rule covers, added as a rule, is allowed. *)
Lemma command_as_rule p p' f c :
  (∀ r, ¬ applies env p c true r) → add_prefix_rule c Allow p = Ok p' → verdict env p' f c Allow.
Proof.
  intros Hno Hadd. destruct c as [|c0 args]; [done|]. apply verdict_ruled. left.
  assert (exact_rule p' (c0 :: args) (amendment_rule c0 args)) as Hex.
  { apply (added_exact p p' c0 args Hadd). right. split; [done|]. exists []. by rewrite app_nil_r. }
  split; [exists (amendment_rule c0 args); by split; [left|]|].
  intros r [Hr|(_&Hnoex&_)]; [|by destruct (Hnoex _ Hex)].
  apply (added_exact p p' c0 args Hadd) in Hr as [Hr|[-> _]]; [|done].
  by destruct (Hno r); left.
Qed.

Lemma no_match_anywhere p cmds f ms :
  ms = concat ((λ c, matches_for_command_with_options env p c (Some f) true) <$> cmds) →
  existsb is_policy_match ms = false → ∀ c, c ∈ cmds → ∀ r, ¬ applies env p c true r.
Proof.
  intros -> Hno c Hc. apply (no_policy_match_applies env p c f).
  apply existsb_false_Forall, Forall_forall. intros m Hm.
  rewrite existsb_false_Forall, Forall_forall in Hno. apply Hno.
  rewrite list_elem_of_In, in_concat. eexists. rewrite <-!list_elem_of_In.
  split; [|exact Hm]. apply list_elem_of_fmap. by exists c.
Qed.

(** The amendment derived from the model's prefix rule for a request. *)
Definition requested_amendment (p : Policy) (req : ExecApprovalRequest) : option (list (list N)) :=
  e ← check_multiple_with_options env p (cmds_of req) (fallback_of req) true;
  derive_requested_execpolicy_amendment_from_prefix_rule env (req_prefix_rule req)
    (matched_rules e) p (cmds_of req) (fallback_of req).

(** For a command of one part, an amendment that is not the requested one is the command. *)
Lemma proposed_for_single_part p req reason a c :
  create p req = Some (NeedsApproval reason (Some a)) → cmds_of req = [c] →
  requested_amendment p req = Some a ∨ (∀ r, ¬ applies env p c true r) ∧ a = c.
Proof.
  unfold requested_amendment.
  destruct (create_evaluation env try_parse_shell p req) as (e&He&Hms&_).
  unfold create_exec_approval_requirement_for_command. rewrite He. simpl. intros Hcreate Hc.
  destruct (decision e); simplify_eq/=.
  destruct (prompt_is_rejected_by_policy _ _); simplify_eq/=.
  destruct (used_complex_parsing _); simplify_eq/=.
  destruct (derive_requested_execpolicy_amendment_from_prefix_rule _ _ _ _ _ _) as [a'|];
    [left; by simplify_eq|right].
  unfold try_derive_execpolicy_amendment_for_prompt_rules in *.
  destruct (existsb _ (matched_rules e)); [done|]. rewrite Hms, Hc in *. csimpl in *.
  rewrite app_nil_r in *. destruct (rule_matches_for_spec env p c true) as [H1 H2].
  unfold matches_for_command_with_options in *.
  destruct (rule_matches_for env p c true) as [|m ms].
  - split.
    + intros r Hr. destruct (H2 r Hr) as (m&Hm&_). by apply elem_of_nil in Hm.
    + simpl in *. by destruct (request_fallback _ _ _); simplify_eq/=.
  - exfalso. assert (omap (λ m, match m with HeuristicsRuleMatch c Prompt => Some c | _ => None end)
      (m :: ms) = []) as Hnil.
    { apply elem_of_nil_inv. intros x Hx. apply list_elem_of_omap in Hx as (y&Hy&Hxy).
      destruct (H1 y Hy) as [Hp _]. by destruct y. }
    by rewrite Hnil in *.
Qed.

(** C23. Approving a proposed amendment once is enough: if the amendment is the prefix rule the
    model asked for, or the command has a single part, then after the amendment has been
    recorded the same request runs without asking.  The first word of the amendment must not start
    with a tilde, which a rule expands to the home directory, and the current directory of the
    process, where it is known, must be an absolute path. *)
Theorem approved_amendment_takes_effect to_json join_error io home req reason a st st' :
  create (policy st) req = Some (NeedsApproval reason (Some a)) →
  requested_amendment (policy st) req = Some a ∨ length (cmds_of req) = 1 →
  strip_prefix [tilde] (default [] (head a)) = None →
  append_amendment_and_update env to_json join_error io home a st = (st', Ok tt) →
  ∃ bypass proposed, create (policy st') req = Some (Skip bypass proposed).
Proof.
  intros Hcreate Hwhich Htilde Happ. apply all_allowed_skips. intros c Hc.
  destruct (append_amendment_ok _ _ _ _ _ _ _ _ Happ) as [Hne Hst'].
  assert (requested_amendment (policy st) req = Some a ∨
          (∀ r, ¬ applies env (policy st) c true r) ∧ a = c) as [Hreq|[Hno ->]].
  { destruct Hwhich as [?|Hlen]; [by left|].
    destruct (cmds_of req) as [|c1 [|]] eqn:Hc1; try done.
    apply list_elem_of_singleton in Hc as ->. by eapply proposed_for_single_part. }
  - unfold requested_amendment in Hreq.
    destruct (create_evaluation env try_parse_shell (policy st) req) as (e&He&Hms&_).
    rewrite He in Hreq. simpl in Hreq.
    destruct (requested_amendment_checked _ _ _ _ Hreq) as (Hnom&p'&Hadd&Hall).
    pose proof (no_match_anywhere _ _ _ _ Hms Hnom c Hc) as Hno.
    destruct Hst' as [[Hal ->]|Hadd']; [|by rewrite Hadd in Hadd'; injection Hadd' as <-; auto].
    eapply needless_amendment; eauto using already_allowed_applies.
  - destruct Hst' as [[Hal ->]|Hadd']; [|by eapply command_as_rule].
    apply already_allowed_applies in Hal as [r Hr]. by destruct (Hno r).
Qed.
End effect.

(** ** Examples *)

Definition ex_request (command : list (list N)) (prefix_rule : option (list (list N))) :
    ExecApprovalRequest :=
  mkRequest command UnlessTrusted (Managed ManagedUnrestricted NetRestricted) UseDefault prefix_rule.
Definition ex_parser (script : str) : option Node :=
  if decide (script = lit "ls && pwd") then Some ex_tree else None.

Lemma untrusted_runs_only_known_safe_witness :
  allowed_by_rule ex_env empty_policy [lit "ls"] ∨ is_known_safe_command ex_parser [lit "ls"] = true.
Proof.
  apply (untrusted_runs_only_known_safe ex_env ex_parser (λ _, None) empty_policy
    (ex_request [lit "bash"; lit "-lc"; lit "ls && pwd"] None) false (Some [lit "ls"]) eq_refl).
  - vm_compute. reflexivity.
  - apply list_elem_of_In. left. reflexivity.
Defined.

Definition ex_manager : ExecPolicyManager := mkManager empty_policy None.
Lemma approved_amendment_takes_effect_witness :
  ∃ bypass proposed,
    create_exec_approval_requirement_for_command ex_env ex_parser (λ _, None)
      (policy (append_amendment_and_update ex_env ex_json None ex_io (lit "/h") [lit "make"]
                 ex_manager).1)
      (ex_request [lit "make"; lit "all"] (Some [lit "make"])) = Some (Skip bypass proposed).
Proof.
  assert (∀ d, current_dir ex_env = Ok d → is_absolute d = true) as Hcwd
    by (intros d [= <-]; reflexivity).
  apply (approved_amendment_takes_effect ex_env ex_parser (λ _, None) Hcwd ex_json None ex_io
    (lit "/h") (ex_request [lit "make"; lit "all"] (Some [lit "make"])) None [lit "make"] ex_manager).
  - vm_compute. reflexivity.
  - right. vm_compute. reflexivity.
  - reflexivity.
  - rewrite (surjective_pairing (append_amendment_and_update _ _ _ _ _ _ _)). by f_equal.
Defined.

End ApprovalLaws.
