(* ===== verification/PatchVerify.v ===== *)
(** * Recognising and judging patches (apply-patch/src/invocation.rs, core/src/safety.rs)

    An [apply_patch] call reaches the program as an argument vector.  [maybe_parse_apply_patch]
    recognises it, [try_verify_apply_patch_args] computes the changes it would make, and
    [assess_patch_safety] decides whether they may be made without asking.  Tree-sitter's
    query engine and the [similar] diff are not part of the repository: the matches of the
    query and the rendering of a diff are parameters.  [PathUri] is built on the [url] crate:
    its path convention and its conversion to a native path are parameters too, besides the
    operations of [PathOps].  The map of changes is an association list without
    duplicates. *)

From stdpp Require Import prelude strings list.
From S2P Require Import Prelude RustStr AbsolutePath PatchTypes PatchParser FileSystem ApplyPatch.
From S2P Require Import ShellParse Permissions PermissionLaws ExecApproval.

Module PatchVerify.
Import AbsolutePath PatchParser ShellParse Permissions.
Import ExecApproval(AskForApproval, UnlessTrusted, OnRequest, Granular, Never, sandbox_approval).

(** ** Shell invocations of apply_patch *)

Inductive PathConvention : Type := Posix | Windows.

Fixpoint split_where (f : char → bool) (s : str) : list (list N) :=
  match s with
  | [] => [[]]
  | c :: s =>
      if f c then [] :: split_where f s
      else match split_where f s with
           | [] => [[c]]
           | w :: ws => (c :: w) :: ws
           end
  end.
Definition backslash : char := 92%N.
Definition path_segments (convention : PathConvention) (path : str) : list (list N) :=
  split_where (λ c, match convention with
                    | Posix => bool_decide (c = slash)
                    | Windows => bool_decide (c = slash) || bool_decide (c = backslash)
                    end) path.

Inductive ApplyPatchShell : Type := UnixShell | PowerShellShell | CmdShell.

Inductive ExtractHeredocError : Type :=
| CommandDidNotStartWithApplyPatch
| FailedToLoadBashGrammar
| HeredocNotUtf8
| FailedToParsePatchIntoAst
| FailedToFindHeredocBody.

Inductive MaybeApplyPatch : Type :=
| MaybeBody (args : ApplyPatchArgs)
| MaybeShellParseError (e : ExtractHeredocError)
| MaybePatchParseError (e : ParseError)
| MaybeNotApplyPatch.

Definition APPLY_PATCH_COMMANDS : list (list N) := [lit "apply_patch"; lit "applypatch"].

Definition classify_shell_name (shell : str) (convention : PathConvention) : option (list N) :=
  basename ← last (path_segments convention shell);
  let stem := match rsplit_once period basename with
              | Some (stem, _) => if decide (stem = []) then basename else stem
              | None => basename
              end in
  Some (to_ascii_lowercase stem).

Definition classify_shell (shell flag : str) (convention : PathConvention) :
    option ApplyPatchShell :=
  name ← classify_shell_name shell convention;
  if bool_decide (name ∈ [lit "bash"; lit "zsh"; lit "sh"]) &&
     bool_decide (flag ∈ [lit "-lc"; lit "-c"]) then Some UnixShell
  else if bool_decide (name ∈ [lit "pwsh"; lit "powershell"]) &&
          eq_ignore_ascii_case flag (lit "-command") then Some PowerShellShell
  else if bool_decide (name = lit "cmd") && eq_ignore_ascii_case flag (lit "/c") then Some CmdShell
  else None.

Definition can_skip_flag (shell flag : str) (convention : PathConvention) : bool :=
  match classify_shell_name shell convention with
  | Some name =>
      bool_decide (name ∈ [lit "pwsh"; lit "powershell"]) &&
      eq_ignore_ascii_case flag (lit "-noprofile")
  | None => false
  end.

(** The captures of one query match: [heredoc_text] and [cd_path] after the loop. *)
Fixpoint read_captures (src : str) (captures : list (string * Node))
    (heredoc cd_path : option (list N)) :
    result ExtractHeredocError (option (list N) * option (list N)) :=
  match captures with
  | [] => Ok (heredoc, cd_path)
  | (name, node) :: captures =>
      if decide (name = "heredoc"%string) then
        let? text := ok_or HeredocNotUtf8 (utf8_text node src) in
        read_captures src captures (Some (trim_end_matches nl text)) cd_path
      else if decide (name = "cd_path"%string) then
        let? text := ok_or HeredocNotUtf8 (utf8_text node src) in
        read_captures src captures heredoc (Some text)
      else if decide (name = "cd_raw_string"%string) then
        let? raw := ok_or HeredocNotUtf8 (utf8_text node src) in
        read_captures src captures heredoc (Some (default raw (strip_quotes squote raw)))
      else read_captures src captures heredoc cd_path
  end.
Fixpoint first_heredoc (src : str) (matches : list (list (string * Node))) :
    result ExtractHeredocError (list N * option (list N)) :=
  match matches with
  | [] => Err CommandDidNotStartWithApplyPatch
  | captures :: matches =>
      let? found := read_captures src captures None None in
      match found with
      | (Some heredoc, cd_path) => Ok (heredoc, cd_path)
      | (None, _) => first_heredoc src matches
      end
  end.

(** ** Changes *)

Inductive ApplyPatchFileChange {path : Type} : Type :=
| ChangeAdd (content : list N)
| ChangeDelete (content : list N)
| ChangeUpdate (unified_diff : list N) (move_path : option path) (new_content : list N).
Arguments ApplyPatchFileChange : clear implicits.

Record ApplyPatchAction {path : Type} : Type := mkAction {
  changes : list (path * ApplyPatchFileChange path);
  action_patch : list N;
  action_cwd : path }.
Arguments ApplyPatchAction : clear implicits.
Arguments mkAction {path}.
Arguments changes {path}.
Arguments action_patch {path}.
Arguments action_cwd {path}.

Inductive MaybeApplyPatchVerified {path : Type} : Type :=
| VerifiedBody (action : ApplyPatchAction path)
| VerifiedShellParseError (e : ExtractHeredocError)
| VerifiedCorrectnessError (e : ApplyPatchError)
| VerifiedNotApplyPatch
| VerifiedPanic.
Arguments MaybeApplyPatchVerified : clear implicits.

Section verify.
Context {FS path : Type} `{EqDecision path} {HPaths : PathOps path}
  {HFs : ExecutorFileSystem FS path}.
Variable infer_path_convention : path → option PathConvention.
(** The matches of [APPLY_PATCH_QUERY] on a script; [None] when there is no tree. *)
Variable apply_patch_matches : str → option (list (list (string * Node))).
(** [TextDiff::from_lines(..).unified_diff().context_radius(n)]. *)
Variable unified_diff : str → str → nat → list N.

Definition parse_shell_script (argv : list (list N)) (cwd : path) :
    option (ApplyPatchShell * list N) :=
  convention ← infer_path_convention cwd;
  match argv with
  | [shell; flag; script] => (λ t, (t, script)) <$> classify_shell shell flag convention
  | [shell; skip_flag; flag; script] =>
      if negb (can_skip_flag shell skip_flag convention) then None
      else (λ t, (t, script)) <$> classify_shell shell flag convention
  | _ => None
  end.

Definition extract_apply_patch_from_bash (src : str) :
    result ExtractHeredocError (list N * option (list N)) :=
  let? matches := ok_or FailedToParsePatchIntoAst (apply_patch_matches src) in
  first_heredoc src matches.

Definition maybe_parse_apply_patch (argv : list (list N)) (cwd : path) : MaybeApplyPatch :=
  let shell_form :=
    match parse_shell_script argv cwd with
    | Some (_, script) =>
        match extract_apply_patch_from_bash script with
        | Ok (body, workdir) =>
            match parse_patch body with
            | Ok source =>
                MaybeBody (mkArgs (args_patch source) (args_hunks source) workdir
                             (args_environment_id source))
            | Err e => MaybePatchParseError e
            end
        | Err CommandDidNotStartWithApplyPatch => MaybeNotApplyPatch
        | Err e => MaybeShellParseError e
        end
    | None => MaybeNotApplyPatch
    end in
  match argv with
  | [cmd; body] =>
      if decide (cmd ∈ APPLY_PATCH_COMMANDS) then
        match parse_patch body with
        | Ok source => MaybeBody source
        | Err e => MaybePatchParseError e
        end
      else shell_form
  | _ => shell_form
  end.

(** [HashMap::insert]. *)
Fixpoint insert_change (p : path) (c : ApplyPatchFileChange path)
    (cs : list (path * ApplyPatchFileChange path)) : list (path * ApplyPatchFileChange path) :=
  match cs with
  | [] => [(p, c)]
  | (q, d) :: cs => if decide (q = p) then (p, c) :: cs else (q, d) :: insert_change p c cs
  end.

(** Errors of the verification; [None] is a panic. *)
Definition join_or_fail (cwd : path) (p : str) : M FS (option ApplyPatchError) path :=
  st_lift (map_err (λ e, Some (PathUriError e)) (FileSystem.path_join cwd p)).

Definition unified_diff_from_chunks (p : path) (chunks : list UpdateFileChunk) :
    M FS (option ApplyPatchError) (list N * list N) := λ fs,
  match ApplyPatch.derive_new_contents_from_chunks p chunks fs with
  | (fs, Ok (Some (original, new))) => (fs, Ok (unified_diff original new 1, new))
  | (fs, Ok None) => (fs, Err None)
  | (fs, Err e) => (fs, Err (Some e))
  end.

Definition verify_hunk (cwd : path) (h : Hunk) (cs : list (path * ApplyPatchFileChange path)) :
    M FS (option ApplyPatchError) (list (path * ApplyPatchFileChange path)) :=
  let! p := join_or_fail cwd (hunk_source_path h) in
  match h with
  | AddFile _ contents => st_ret (insert_change p (ChangeAdd contents) cs)
  | DeleteFile _ =>
      let! content := (λ fs,
        let '(fs, r) := read_file_text p fs in
        (fs, map_err (λ e, Some (IoError (lit "Failed to read " ++ path_native p) e)) r)) in
      st_ret (insert_change p (ChangeDelete content) cs)
  | UpdateFile _ move_path chunks =>
      let! diff := unified_diff_from_chunks p chunks in
      let! dest := match move_path with
                   | Some d => let! q := join_or_fail cwd d in st_ret (Some q)
                   | None => st_ret None
                   end in
      st_ret (insert_change p (ChangeUpdate diff.1 dest diff.2) cs)
  end.

Fixpoint verify_hunks (cwd : path) (hs : list Hunk) (cs : list (path * ApplyPatchFileChange path)) :
    M FS (option ApplyPatchError) (list (path * ApplyPatchFileChange path)) :=
  match hs with
  | [] => st_ret cs
  | h :: hs => let! cs := verify_hunk cwd h cs in verify_hunks cwd hs cs
  end.

Definition try_verify_apply_patch_args (args : ApplyPatchArgs) (cwd : path) :
    M FS (option ApplyPatchError) (ApplyPatchAction path) :=
  let! effective_cwd := match args_workdir args with
                        | Some dir => join_or_fail cwd dir
                        | None => st_ret cwd
                        end in
  let! cs := verify_hunks effective_cwd (args_hunks args) [] in
  st_ret (mkAction cs (args_patch args) effective_cwd).

Definition verify_apply_patch_args (args : ApplyPatchArgs) (cwd : path) (fs : FS) :
    FS * MaybeApplyPatchVerified path :=
  match try_verify_apply_patch_args args cwd fs with
  | (fs, Ok action) => (fs, VerifiedBody action)
  | (fs, Err (Some e)) => (fs, VerifiedCorrectnessError e)
  | (fs, Err None) => (fs, VerifiedPanic)
  end.

Definition maybe_parse_apply_patch_verified (argv : list (list N)) (cwd : path) (fs : FS) :
    FS * MaybeApplyPatchVerified path :=
  if match argv with [body] => is_ok (parse_patch body) | _ => false end
  then (fs, VerifiedCorrectnessError ImplicitInvocation)
  else if match parse_shell_script argv cwd with
          | Some (_, script) => is_ok (parse_patch script)
          | None => false
          end
  then (fs, VerifiedCorrectnessError ImplicitInvocation)
  else match maybe_parse_apply_patch argv cwd with
       | MaybeBody args => verify_apply_patch_args args cwd fs
       | MaybeShellParseError e => (fs, VerifiedShellParseError e)
       | MaybePatchParseError e => (fs, VerifiedCorrectnessError (PatchParseFailed e))
       | MaybeNotApplyPatch => (fs, VerifiedNotApplyPatch)
       end.
End verify.

(** ** Judging a patch (core/src/safety.rs, sandboxing/src/manager.rs) *)

Inductive target_os : Type := Macos | Linux | WindowsOs | OtherOs.
Inductive WindowsSandboxLevel : Type := LevelDisabled | LevelRestrictedToken | LevelElevated.
Inductive SandboxType : Type := NoSandbox | MacosSeatbelt | LinuxSeccomp | WindowsRestrictedToken.

Definition get_platform_sandbox (os : target_os) (windows_sandbox_enabled : bool) :
    option SandboxType :=
  match os with
  | Macos => Some MacosSeatbelt
  | Linux => Some LinuxSeccomp
  | WindowsOs => if windows_sandbox_enabled then Some WindowsRestrictedToken else None
  | OtherOs => None
  end.

Inductive SafetyCheck : Type :=
| AutoApprove (sandbox_type : SandboxType) (user_explicitly_approved : bool)
| AskUser
| Reject (reason : list N).

Definition PATCH_REJECTED_OUTSIDE_PROJECT_REASON : str :=
  lit "writing outside of the project; rejected by user approval settings".
Definition PATCH_REJECTED_READ_ONLY_REASON : str :=
  lit "writing is blocked by read-only sandbox; rejected by user approval settings".

(** The local [normalize] of the path check. *)
Definition safety_normalize (path : list Component) : list Component :=
  foldl normalize_step [] path.

Section safety.
Context {path : Type}.
Variable h : host.
Variable os : target_os.
(** [PathUri::to_abs_path]. *)
Variable to_abs_path : path → option (list Component).

Definition is_path_writable (p : FileSystemSandboxPolicy) (native_cwd : list Component) (u : path) :
    bool :=
  match to_abs_path u with
  | None => false
  | Some abs =>
      can_write_path_with_cwd h p (path_string (safety_normalize abs)) (path_string native_cwd)
  end.

Definition change_is_writable (p : FileSystemSandboxPolicy) (native_cwd : list Component)
    (entry : path * ApplyPatchFileChange path) : bool :=
  let '(u, change) := entry in
  match change with
  | ChangeAdd _ | ChangeDelete _ => is_path_writable p native_cwd u
  | ChangeUpdate _ move_path _ =>
      if negb (is_path_writable p native_cwd u) then false
      else match move_path with
           | Some dest => is_path_writable p native_cwd dest
           | None => true
           end
  end.

Definition is_write_patch_constrained_to_writable_paths (action : ApplyPatchAction path)
    (p : FileSystemSandboxPolicy) (cwd : path) : bool :=
  if has_full_disk_write_access p then true
  else match to_abs_path cwd with
       | None => false
       | Some native_cwd => forallb (change_is_writable p native_cwd) (changes action)
       end.

(** Whether [get_writable_roots_with_cwd] is empty: the roots are the write entries that can
    be written, without duplicates. *)
Definition no_writable_roots (p : FileSystemSandboxPolicy) (cwd : str) : bool :=
  if has_full_disk_write_access p then true
  else negb (existsb (λ e, can_write (resolved_access e)
                           && can_write_path_with_cwd h p (path_string (resolved_path e)) cwd)
               (resolved_entries_with_cwd h p cwd)).

Definition patch_rejection_reason (profile : PermissionProfile) (p : FileSystemSandboxPolicy)
    (cwd : path) : str :=
  let has_no_writable_roots :=
    match to_abs_path cwd with
    | Some cwd => no_writable_roots p (path_string cwd)
    | None => false
    end in
  match profile with
  | Managed _ _ =>
      if negb (has_full_disk_write_access p) && has_no_writable_roots
      then PATCH_REJECTED_READ_ONLY_REASON else PATCH_REJECTED_OUTSIDE_PROJECT_REASON
  | Disabled | External _ => PATCH_REJECTED_OUTSIDE_PROJECT_REASON
  end.

Definition assess_patch_safety (action : ApplyPatchAction path) (policy : AskForApproval)
    (profile : PermissionProfile) (p : FileSystemSandboxPolicy) (cwd : path)
    (level : WindowsSandboxLevel) : SafetyCheck :=
  if bool_decide (length (changes action) = 0) then Reject (lit "empty patch")
  else match policy with
  | UnlessTrusted => AskUser
  | Never | OnRequest | Granular _ =>
      let rejects_sandbox_approval :=
        match policy with
        | Never => true
        | Granular config => negb (sandbox_approval config)
        | _ => false
        end in
      let refuse :=
        if rejects_sandbox_approval then Reject (patch_rejection_reason profile p cwd)
        else AskUser in
      if is_write_patch_constrained_to_writable_paths action p cwd then
        match profile with
        | Disabled | External _ => AutoApprove NoSandbox false
        | Managed _ _ =>
            match get_platform_sandbox os
                    match level with LevelDisabled => false | _ => true end with
            | Some sandbox_type => AutoApprove sandbox_type false
            | None => refuse
            end
        end
      else refuse
  end.
End safety.

(** ** What verification records *)

Section verified.
Context {FS path : Type} `{EqDecision path} {HPaths : PathOps path}
  {HFs : ExecutorFileSystem FS path}.
Variable unified_diff : str → str → nat → list N.

(** The paths an entry of the action names. *)
Definition names (entry : path * ApplyPatchFileChange path) (q : path) : Prop :=
  entry.1 = q ∨ ∃ diff new, entry.2 = ChangeUpdate diff (Some q) new.

Lemma insert_change_in p c (cs : list (path * ApplyPatchFileChange path)) :
  (p, c) ∈ insert_change p c cs.
Proof. induction cs as [|[q d] cs IH]; simpl; [set_solver|]. case_decide; set_solver. Qed.
Lemma insert_change_other p c q d (cs : list (path * ApplyPatchFileChange path)) :
  q ≠ p → (q, d) ∈ cs → (q, d) ∈ insert_change p c cs.
Proof.
  intros Hne. induction cs as [|[q' d'] cs IH]; simpl; [set_solver|].
  rewrite elem_of_cons. case_decide; set_solver.
Qed.

Lemma join_or_fail_ok cwd p (fs fs' : FS) q :
  join_or_fail cwd p fs = (fs', Ok q) → FileSystem.path_join cwd p = Ok q.
Proof.
  unfold join_or_fail, st_lift. destruct (FileSystem.path_join cwd p); intros; by simplify_eq/=.
Qed.

(** One hunk adds one entry, for its source, which also names its destination. *)
Lemma verify_hunk_ok cwd hk cs (fs fs' : FS) cs' :
  verify_hunk unified_diff cwd hk cs fs = (fs', Ok cs') →
  ∃ p c, FileSystem.path_join cwd (hunk_source_path hk) = Ok p ∧ cs' = insert_change p c cs ∧
    ∀ q, ApplyPatch.hunk_target cwd hk q → names (p, c) q.
Proof.
  unfold verify_hunk. intros (fs1&p&Hp%join_or_fail_ok&Hrest)%st_bind_ok. exists p.
  assert (∀ c q, FileSystem.path_join cwd (hunk_source_path hk) = Ok q → names (p, c) q) as Hsrc.
  { intros c q Hq. left. simpl. congruence. }
  destruct hk as [pa contents|pd|pu mv chunks].
  - unfold st_ret in Hrest. simplify_eq/=. eexists. split_and!; [done..|].
    intros q [Hq|[]]. by apply Hsrc.
  - apply st_bind_ok in Hrest as (fs2&content&_&Hrest). unfold st_ret in Hrest. simplify_eq/=.
    eexists. split_and!; [done..|]. intros q [Hq|[]]. by apply Hsrc.
  - apply st_bind_ok in Hrest as (fs2&diff&_&Hrest).
    apply st_bind_ok in Hrest as (fs3&dest&Hdest&Hrest). unfold st_ret in Hrest. simplify_eq/=.
    eexists. split_and!; [done..|]. intros q [Hq|Hq]; [by apply Hsrc|].
    destruct mv as [d|]; [|done].
    apply st_bind_ok in Hdest as (fs4&q'&Hq'%join_or_fail_ok&Hret). unfold st_ret in Hret.
    simplify_eq/=. right. rewrite Hq in Hq'. simplify_eq. by eauto.
Qed.

Lemma verify_hunks_keep cwd hs cs (fs fs' : FS) cs' q d :
  verify_hunks unified_diff cwd hs cs fs = (fs', Ok cs') →
  (∀ hk, hk ∈ hs → FileSystem.path_join cwd (hunk_source_path hk) ≠ Ok q) →
  (q, d) ∈ cs → (q, d) ∈ cs'.
Proof.
  revert fs cs. induction hs as [|hk hs IH]; intros fs cs; simpl.
  { unfold st_ret. by intros; simplify_eq. }
  intros (fs1&cs1&(p&c&Hp&->&_)%verify_hunk_ok&Hrest)%st_bind_ok Hother Hin.
  eapply IH; [done|set_solver|]. apply insert_change_other; [|done]. intros ->.
  by apply (Hother hk); [left|].
Qed.

(** If no two hunks have the same source, every path the hunks name is in the action. *)
Lemma verify_hunks_names cwd hs cs (fs fs' : FS) cs' hk q :
  verify_hunks unified_diff cwd hs cs fs = (fs', Ok cs') →
  NoDup ((λ x, FileSystem.path_join cwd (hunk_source_path x)) <$> hs) →
  hk ∈ hs → ApplyPatch.hunk_target cwd hk q → ∃ entry, entry ∈ cs' ∧ names entry q.
Proof.
  revert fs cs. induction hs as [|hk' hs IH]; intros fs cs; csimpl.
  { intros _ _ Hin. by apply elem_of_nil in Hin. }
  intros (fs1&cs1&(p&c&Hp&->&Hnames)%verify_hunk_ok&Hrest)%st_bind_ok.
  intros [Hnot Hnd]%NoDup_cons [->|Hin]%elem_of_cons Ht; [|by eapply IH].
  exists (p, c). split; [|by apply Hnames]. eapply verify_hunks_keep; [done| |apply insert_change_in].
  intros x Hx Heq. apply Hnot. rewrite Hp, <-Heq. apply list_elem_of_fmap. by exists x.
Qed.
End verified.

(** ** Automatic approval *)

Lemma safety_normalize_id cs : normal_form cs → safety_normalize cs = cs.
Proof. intros (ns&->&Hns). unfold safety_normalize. simpl. by rewrite normal_form_fixed. Qed.

(** The policy lets [q] be written. *)
Definition permits {path} h (to_abs_path : path → option (list Component))
    (p : FileSystemSandboxPolicy) (cwd q : path) : Prop :=
  has_full_disk_write_access p = true ∨
  ∃ abs native_cwd, to_abs_path q = Some abs ∧ to_abs_path cwd = Some native_cwd ∧
    can_write_path_with_cwd h p (path_string abs) (path_string native_cwd) = true.

Lemma auto_approve_inv {path} h os to_abs_path (action : ApplyPatchAction path) policy profile p cwd
    level sandbox explicit :
  assess_patch_safety h os to_abs_path action policy profile p cwd level =
    AutoApprove sandbox explicit →
  is_write_patch_constrained_to_writable_paths h to_abs_path action p cwd = true ∧
  (sandbox = NoSandbox → enforcement profile ≠ EnforceManaged) ∧
  explicit = false ∧ policy ≠ UnlessTrusted ∧ changes action ≠ [].
Proof.
  unfold assess_patch_safety. case_bool_decide as Hne; [done|].
  assert (changes action ≠ []) by (by destruct (changes action)).
  destruct (is_write_patch_constrained_to_writable_paths _ _ _ _ _);
    destruct policy, profile, os, level; simpl; intros; repeat case_match; by simplify_eq.
Qed.

Lemma constrained_permits {path} h to_abs_path (action : ApplyPatchAction path) p cwd :
  (∀ u abs, to_abs_path u = Some abs → normal_form abs) →
  is_write_patch_constrained_to_writable_paths h to_abs_path action p cwd = true →
  ∀ entry q, entry ∈ changes action → names entry q → permits h to_abs_path p cwd q.
Proof.
  intros Hnf. unfold is_write_patch_constrained_to_writable_paths, permits.
  destruct (has_full_disk_write_access p); [by left|].
  destruct (to_abs_path cwd) as [native|]; [|done]. rewrite forallb_forall.
  intros Hall entry q He Hn. right.
  assert (is_path_writable h to_abs_path p native q = true) as Hw.
  { specialize (Hall entry (proj1 (list_elem_of_In _ _) He)). destruct entry as [u c].
    destruct Hn as [<-|(diff&new&Hc)]; simpl in *; [|subst c; simpl in Hall];
      [destruct c; try done; by destruct (is_path_writable _ _ _ _ u)|].
    by destruct (is_path_writable _ _ _ _ u). }
  unfold is_path_writable in Hw. destruct (to_abs_path q) as [abs|] eqn:Hq; [|done].
  rewrite safety_normalize_id in Hw by eauto. by exists abs, native.
Qed.

Section approved.
Context {FS path : Type} `{EqDecision path} {HPaths : PathOps path}
  {HFs : ExecutorFileSystem FS path} {HLaws : FileSystemLaws FS path}.
Variable unified_diff : str → str → nat → list N.
Variable h : host.
Variable os : target_os.
Variable to_abs_path : path → option (list Component).
(** [PathUri::to_abs_path] returns values of [AbsolutePathBuf]. *)
Hypothesis to_abs_path_normal : ∀ u abs, to_abs_path u = Some abs → normal_form abs.

(** C1. A patch that is approved automatically changes no text outside the paths the policy lets be
    written, even if applying it fails half-way, on these conditions: no two of its hunks name the
    same source file; no path that a hunk names is a symbolic link when the patch is applied; and
    the file system keeps the laws of [FileSystemLaws], so different paths are different files (no
    hard links, no linked directories).  The check compares paths as they are written and does not
    see links: a hard link or a symbolic link inside a writable root can lead outside, and the
    comment in core/src/safety.rs leaves that to the sandbox.  And the patch is approved without a
    sandbox only where the profile is not a managed one. *)
Theorem auto_approved_patch_stays_inside args cwd fs0 fs1 action policy profile p level sandbox
    explicit fs fs' out r :
  try_verify_apply_patch_args unified_diff args cwd fs0 = (fs1, Ok action) →
  NoDup ((λ hk, FileSystem.path_join (action_cwd action) (hunk_source_path hk)) <$> args_hunks args) →
  assess_patch_safety h os to_abs_path action policy profile p (action_cwd action) level =
    AutoApprove sandbox explicit →
  (∀ hk q, hk ∈ args_hunks args → ApplyPatch.hunk_target (action_cwd action) hk q →
     lookup_node fs q ≠ Symlink) →
  ApplyPatch.apply_hunks (args_hunks args) (action_cwd action) fs = (fs', out, r) →
  (∀ q, ¬ permits h to_abs_path p (action_cwd action) q → text_at fs' q = text_at fs q) ∧
  (sandbox = NoSandbox → enforcement profile ≠ EnforceManaged).
Proof.
  intros Hver Hnd (Hcon&Hsb&_)%auto_approve_inv Hlinks Happ. split; [|done]. intros q Hq.
  eapply ApplyPatch.apply_hunks_frame; [exact Hlinks|exact Happ|]. intros hk Hhk Ht. apply Hq.
  unfold try_verify_apply_patch_args in Hver.
  apply st_bind_ok in Hver as (fs2&ecwd&_&Hver).
  apply st_bind_ok in Hver as (fs3&cs&Hcs&Hver). unfold st_ret in Hver. simplify_eq/=.
  destruct (verify_hunks_names unified_diff ecwd (args_hunks args) [] fs2 fs1 cs hk q Hcs Hnd Hhk Ht)
    as (entry&He&Hn).
  by apply (constrained_permits h to_abs_path _ p ecwd to_abs_path_normal Hcon entry q He Hn).
Qed.
End approved.

(** ** Examples on the in-memory file system *)

Import MemFs.

(** Paths below [/] written without dots are their own URIs. *)
Definition ex_to_abs (u : str) : option (list Component) :=
  if is_absolute u then Some (normalize_path u) else None.
Definition ex_ws : FileSystemSandboxPolicy :=
  restricted [mkEntry (Special Root) Read; mkEntry (AtPath (PermissionLaws.ex_abs "/w")) Write].
Definition ex_action (hs : list Hunk) : option (ApplyPatchAction (list N)) :=
  result_ok (try_verify_apply_patch_args (FS := mem_fs) (λ _ _ _, []) (mkArgs [] hs None None)
    ApplyPatch.ex_dir ApplyPatch.ex_fs).2.
Definition ex_assess (hs : list Hunk) : option SafetyCheck :=
  (λ a, assess_patch_safety (PermissionLaws.ex_host true) Linux ex_to_abs a OnRequest
          (Managed (ManagedRestricted (entries ex_ws) None) NetRestricted) ex_ws ApplyPatch.ex_dir
          LevelDisabled) <$> ex_action hs.

(** A move out of the workspace is not approved.  Followed by an [Add File] for the same source
    it is: the second entry replaces the first in the map, while applying the patch still
    carries the move out. *)
Definition ex_move_out : Hunk := ApplyPatch.ex_update (Some (lit "/etc/x")).
Definition ex_cover_up : Hunk := AddFile (lit "a") (lit "new").
Example move_hidden_by_second_hunk :
  ex_assess [ex_move_out] = Some AskUser ∧
  ex_assess [ex_move_out; ex_cover_up] = Some (AutoApprove LinuxSeccomp false) ∧
  let '(fs', _, r) := ApplyPatch.apply_hunks [ex_move_out; ex_cover_up] ApplyPatch.ex_dir
                        ApplyPatch.ex_fs in
  is_ok r = true ∧ text_at ApplyPatch.ex_fs (lit "/etc/x") = None ∧
  is_Some (text_at fs' (lit "/etc/x")).
Proof. split_and!; [vm_compute; reflexivity..|]. vm_compute. split_and!; [done..|by eexists]. Qed.

Definition ex_inside : list Hunk := [ApplyPatch.ex_update (Some (lit "c"))].
Definition ex_inside_action : ApplyPatchAction (list N) :=
  default (mkAction [] [] []) (ex_action ex_inside).
Definition ex_inside_run := ApplyPatch.apply_hunks ex_inside ApplyPatch.ex_dir ApplyPatch.ex_fs.

Lemma auto_approved_patch_stays_inside_witness :
  text_at ex_inside_run.1.1 (lit "/etc/x") = text_at ApplyPatch.ex_fs (lit "/etc/x").
Proof.
  apply (auto_approved_patch_stays_inside (λ _ _ _, []) (PermissionLaws.ex_host true) Linux ex_to_abs)
    with (args := mkArgs [] ex_inside None None) (cwd := ApplyPatch.ex_dir)
      (fs0 := ApplyPatch.ex_fs) (fs1 := ApplyPatch.ex_fs) (action := ex_inside_action)
      (policy := OnRequest) (profile := Managed (ManagedRestricted (entries ex_ws) None) NetRestricted)
      (p := ex_ws) (level := LevelDisabled) (sandbox := LinuxSeccomp) (explicit := false)
      (out := ex_inside_run.1.2) (r := ex_inside_run.2).
  - unfold ex_to_abs. intros u abs Hu. destruct (is_absolute u) eqn:Ha; [|discriminate Hu].
    injection Hu as <-. by apply normalize_absolute.
  - vm_compute. reflexivity.
  - apply NoDup_singleton.
  - vm_compute. reflexivity.
  - intros hk q ->%list_elem_of_singleton [Hq|Hq]; vm_compute in Hq; simplify_eq;
      vm_compute; discriminate.
  - unfold ex_inside_run. by destruct (ApplyPatch.apply_hunks _ _ _) as [[? ?] ?].
  - intros [Hf|(abs&native&Ha&Hc&Hw)]; [discriminate Hf|]. vm_compute in Ha, Hc.
    injection Ha as <-. injection Hc as <-. discriminate Hw.
Defined.

End PatchVerify.
