(* ===== verification/StreamChunking.v ===== *)
(** * Showing a stream line by line (tui/src/streaming)

    Rendered lines of an answer wait in a queue; a timer drains it, one line per tick in
    smooth mode and everything at once in catch-up mode.  [decide] is the state machine that
    chooses the mode from the pressure on the queue, with hysteresis; [run_commit_tick] applies
    its decision to the two controllers (messages and plans).  Instants and durations are
    nanoseconds since an origin; subtraction on [N] saturates as [saturating_duration_since]
    does.  What a line is, and how a plan cell is decorated, does not matter here: [line] is a
    type parameter and a cell holds the drained lines. *)

From stdpp Require Import prelude list.
From S2P Require Import Prelude.

Module StreamChunking.

Local Open Scope N_scope.

(** ** chunking.rs *)

Definition from_millis (ms : N) : N := ms * 1000000.
Definition ENTER_QUEUE_DEPTH_LINES : N := 8.
Definition ENTER_OLDEST_AGE : N := from_millis 120.
Definition EXIT_QUEUE_DEPTH_LINES : N := 2.
Definition EXIT_OLDEST_AGE : N := from_millis 40.
Definition EXIT_HOLD : N := from_millis 250.
Definition REENTER_CATCH_UP_HOLD : N := from_millis 250.
Definition SEVERE_QUEUE_DEPTH_LINES : N := 64.
Definition SEVERE_OLDEST_AGE : N := from_millis 300.

Inductive ChunkingMode : Type := Smooth | CatchUp.
#[global] Instance ChunkingMode_eq_dec : EqDecision ChunkingMode.
Proof. solve_decision. Defined.

Record QueueSnapshot : Type := mkSnapshot { queued_lines : N; oldest_age : option N }.
Inductive DrainPlan : Type := Single | Batch (max_lines : N).
Record ChunkingDecision : Type := mkDecision {
  decision_mode : ChunkingMode; entered_catch_up : bool; drain_plan : DrainPlan }.
Record AdaptiveChunkingPolicy : Type := mkPolicy {
  mode : ChunkingMode;
  below_exit_threshold_since : option N;
  last_catch_up_exit_at : option N }.

Definition default_policy : AdaptiveChunkingPolicy := mkPolicy Smooth None None.
Definition reset (p : AdaptiveChunkingPolicy) : AdaptiveChunkingPolicy := default_policy.

Definition age_at_least (bound : N) (s : QueueSnapshot) : bool :=
  match oldest_age s with Some a => bound <=? a | None => false end.
Definition should_enter_catch_up (s : QueueSnapshot) : bool :=
  (ENTER_QUEUE_DEPTH_LINES <=? queued_lines s) || age_at_least ENTER_OLDEST_AGE s.
Definition should_exit_catch_up (s : QueueSnapshot) : bool :=
  (queued_lines s <=? EXIT_QUEUE_DEPTH_LINES)
  && match oldest_age s with Some a => a <=? EXIT_OLDEST_AGE | None => false end.
Definition is_severe_backlog (s : QueueSnapshot) : bool :=
  (SEVERE_QUEUE_DEPTH_LINES <=? queued_lines s) || age_at_least SEVERE_OLDEST_AGE s.

Definition reentry_hold_active (p : AdaptiveChunkingPolicy) (now : N) : bool :=
  match last_catch_up_exit_at p with
  | Some exit => now - exit <? REENTER_CATCH_UP_HOLD
  | None => false
  end.

Definition note_catch_up_exit (p : AdaptiveChunkingPolicy) (now : N) : AdaptiveChunkingPolicy :=
  match mode p with
  | CatchUp => mkPolicy (mode p) (below_exit_threshold_since p) (Some now)
  | Smooth => p
  end.

Definition maybe_enter_catch_up (p : AdaptiveChunkingPolicy) (s : QueueSnapshot) (now : N) :
    AdaptiveChunkingPolicy * bool :=
  if negb (should_enter_catch_up s) then (p, false)
  else if reentry_hold_active p now && negb (is_severe_backlog s) then (p, false)
  else (mkPolicy CatchUp None None, true).

Definition maybe_exit_catch_up (p : AdaptiveChunkingPolicy) (s : QueueSnapshot) (now : N) :
    AdaptiveChunkingPolicy :=
  if negb (should_exit_catch_up s) then mkPolicy (mode p) None (last_catch_up_exit_at p)
  else match below_exit_threshold_since p with
       | Some since =>
           if EXIT_HOLD <=? now - since then mkPolicy Smooth None (Some now) else p
       | None => mkPolicy (mode p) (Some now) (last_catch_up_exit_at p)
       end.

Definition decide_chunking (p : AdaptiveChunkingPolicy) (s : QueueSnapshot) (now : N) :
    AdaptiveChunkingPolicy * ChunkingDecision :=
  if queued_lines s =? 0 then
    let p := note_catch_up_exit p now in
    let p := mkPolicy Smooth None (last_catch_up_exit_at p) in
    (p, mkDecision (mode p) false Single)
  else
    let '(p, entered) :=
      match mode p with
      | Smooth => maybe_enter_catch_up p s now
      | CatchUp => (maybe_exit_catch_up p s now, false)
      end in
    let plan := match mode p with
                | Smooth => Single
                | CatchUp => Batch (N.max (queued_lines s) 1)
                end in
    (p, mkDecision (mode p) entered plan).

(** ** The queue (mod.rs) and its two controllers (controller.rs) *)

Section stream.
Context {line : Type}.

Record QueuedLine : Type := mkQueued { queued_line : line; enqueued_at : N }.
Definition queue : Type := list QueuedLine.

Definition step (q : queue) : queue * list line :=
  match q with [] => ([], []) | x :: q => (q, [queued_line x]) end.
Definition drain_n (max_lines : N) (q : queue) : queue * list line :=
  let stop := N.to_nat (N.min max_lines (N.of_nat (length q))) in
  (drop stop q, queued_line <$> take stop q).
Definition is_idle (q : queue) : bool := match q with [] => true | _ => false end.
Definition queued_len (q : queue) : N := N.of_nat (length q).
Definition oldest_queued_age (now : N) (q : queue) : option N :=
  (λ x, now - enqueued_at x) <$> head q.
Definition enqueue (now : N) (ls : list line) (q : queue) : queue :=
  q ++ ((λ l, mkQueued l now) <$> ls).

(** [StreamCore]: the queue and the count of emitted lines. *)
Record StreamCore : Type := mkCore { state : queue; emitted_stable_len : N }.
Definition tick (c : StreamCore) : StreamCore * list line :=
  let '(q, ls) := step (state c) in
  (mkCore q (emitted_stable_len c + N.of_nat (length ls)), ls).
Definition tick_batch (max_lines : N) (c : StreamCore) : StreamCore * list line :=
  if max_lines =? 0 then (c, [])
  else
    let '(q, ls) := drain_n max_lines (state c) in
    match ls with
    | [] => (mkCore q (emitted_stable_len c), [])
    | _ => (mkCore q (emitted_stable_len c + N.of_nat (length ls)), ls)
    end.

(** A controller; a cell is the drained lines and whether the header was already shown. *)
Record Controller : Type := mkController { core : StreamCore; header_emitted : bool }.
Record HistoryCell : Type := mkCell { cell_lines : list line; is_continuation : bool }.

Definition emit (c : Controller) (ls : list line) : Controller * option HistoryCell :=
  match ls with
  | [] => (c, None)
  | _ => (mkController (core c) true, Some (mkCell ls (header_emitted c)))
  end.
Definition on_commit_tick (c : Controller) : Controller * option HistoryCell * bool :=
  let '(k, ls) := tick (core c) in
  let '(c, cell) := emit (mkController k (header_emitted c)) ls in
  (c, cell, is_idle (state (core c))).
Definition on_commit_tick_batch (max_lines : N) (c : Controller) :
    Controller * option HistoryCell * bool :=
  let '(k, ls) := tick_batch max_lines (core c) in
  let '(c, cell) := emit (mkController k (header_emitted c)) ls in
  (c, cell, is_idle (state (core c))).

(** ** commit_tick.rs *)

Inductive CommitTickScope : Type := AnyMode | CatchUpOnly.
Record CommitTickOutput : Type := mkOutput {
  cells : list HistoryCell; has_controller : bool; all_idle : bool }.
Definition default_output : CommitTickOutput := mkOutput [] false true.

Definition max_duration (l r : option N) : option N :=
  match l, r with
  | Some l, Some r => Some (N.max l r)
  | Some l, None => Some l
  | None, Some r => Some r
  | None, None => None
  end.

Definition snapshot_controller (now : N) (c : option Controller) (s : QueueSnapshot) :
    QueueSnapshot :=
  match c with
  | Some c => mkSnapshot (queued_lines s + queued_len (state (core c)))
                (max_duration (oldest_age s) (oldest_queued_age now (state (core c))))
  | None => s
  end.
Definition stream_queue_snapshot (stream plan : option Controller) (now : N) : QueueSnapshot :=
  snapshot_controller now plan (snapshot_controller now stream (mkSnapshot 0 None)).

Definition drain_controller (plan : DrainPlan) (c : Controller) :
    Controller * option HistoryCell * bool :=
  match plan with
  | Single => on_commit_tick c
  | Batch max_lines => on_commit_tick_batch max_lines c
  end.
Definition drain_into (plan : DrainPlan) (c : option Controller) (out : CommitTickOutput) :
    option Controller * CommitTickOutput :=
  match c with
  | Some c =>
      let '(c, cell, idle) := drain_controller plan c in
      (Some c, mkOutput (cells out ++ option_list cell) true (all_idle out && idle))
  | None => (None, out)
  end.
Definition apply_commit_tick_plan (plan : DrainPlan) (stream plan_stream : option Controller) :
    option Controller * option Controller * CommitTickOutput :=
  let '(stream, out) := drain_into plan stream default_output in
  let '(plan_stream, out) := drain_into plan plan_stream out in
  (stream, plan_stream, out).

Definition run_commit_tick (policy : AdaptiveChunkingPolicy) (stream plan : option Controller)
    (scope : CommitTickScope) (now : N) :
    AdaptiveChunkingPolicy * option Controller * option Controller * CommitTickOutput :=
  let snapshot := stream_queue_snapshot stream plan now in
  let '(policy, decision) := decide_chunking policy snapshot now in
  match scope, decision_mode decision with
  | CatchUpOnly, Smooth => (policy, stream, plan, default_output)
  | _, _ =>
      let '(stream, plan, out) := apply_commit_tick_plan (drain_plan decision) stream plan in
      (policy, stream, plan, out)
  end.

(** ** Draining *)

(** Ticks in a row, with the lines each controller showed. *)
Definition shown (c : option HistoryCell) : list line :=
  match c with Some c => cell_lines c | None => [] end.
Fixpoint run_ticks (policy : AdaptiveChunkingPolicy) (stream plan : option Controller)
    (times : list N) : option Controller * option Controller * list HistoryCell :=
  match times with
  | [] => (stream, plan, [])
  | now :: times =>
      let '(policy, stream, plan, out) := run_commit_tick policy stream plan AnyMode now in
      let '(stream, plan, rest) := run_ticks policy stream plan times in
      (stream, plan, cells out ++ rest)
  end.

Definition pending (c : option Controller) : list line :=
  match c with Some c => queued_line <$> state (core c) | None => [] end.

(** ** Draining makes progress *)

Lemma decide_plan_positive p s now :
  match drain_plan (decide_chunking p s now).2 with Single => True | Batch m => 1 ≤ m end.
Proof.
  unfold decide_chunking. destruct (_ =? 0); simpl; [done|].
  destruct (mode p); [destruct (maybe_enter_catch_up p s now) as [p' b]|];
    simpl; destruct (mode _); lia.
Qed.

Definition drains (c c' : option Controller) (ls : list line) : Prop :=
  pending c = ls ++ pending c' ∧ (pending c ≠ [] → ls ≠ []).

Lemma drain_controller_drains plan c :
  match plan with Single => True | Batch m => 1 ≤ m end →
  let '(c', cell, idle) := drain_controller plan c in
  drains (Some c) (Some c') (shown cell).
Proof.
  intros Hp. unfold drain_controller, drains. destruct plan as [|m].
  - unfold on_commit_tick, tick, step. destruct (state (core c)) as [|x q] eqn:Hq; simpl; by rewrite Hq.
  - unfold on_commit_tick_batch, tick_batch, drain_n.
    destruct (m =? 0) eqn:Hm; [apply N.eqb_eq in Hm; lia|].
    set (n := N.to_nat _).
    assert (pending (Some c) = (queued_line <$> take n (state (core c)))
              ++ (queued_line <$> drop n (state (core c)))) as Hsplit.
    { simpl. by rewrite <-fmap_app, take_drop. }
    assert (pending (Some c) ≠ [] → (queued_line <$> take n (state (core c))) ≠ []) as Hne.
    { simpl. destruct (state (core c)) as [|x q] eqn:Hs; [done|]. intros _.
      destruct n as [|n'] eqn:Hn; [|done]. simpl in *. lia. }
    destruct (queued_line <$> take n (state (core c))) as [|l ls] eqn:Hls; simpl in *; done.
Qed.

Lemma drain_into_drains plan c out :
  match plan with Single => True | Batch m => 1 ≤ m end →
  let '(c', out') := drain_into plan c out in
  ∃ ls, drains c c' ls ∧ concat (cell_lines <$> cells out') = concat (cell_lines <$> cells out) ++ ls.
Proof.
  intros Hp. unfold drain_into. destruct c as [c|].
  - pose proof (drain_controller_drains plan c Hp) as Hd.
    destruct (drain_controller plan c) as [[c' cell] idle]. exists (shown cell). split; [done|].
    simpl. rewrite fmap_app, concat_app. f_equal.
    destruct cell; simpl; [by rewrite app_nil_r|done].
  - exists []. split; [by split|]. by rewrite app_nil_r.
Qed.

(** One tick: each controller shows the next lines of its queue, at least one if it has any. *)
Lemma run_commit_tick_drains p c1 c2 now :
  let '(p', c1', c2', out) := run_commit_tick p c1 c2 AnyMode now in
  ∃ l1 l2, drains c1 c1' l1 ∧ drains c2 c2' l2 ∧ concat (cell_lines <$> cells out) = l1 ++ l2.
Proof.
  unfold run_commit_tick. set (s := stream_queue_snapshot c1 c2 now).
  pose proof (decide_plan_positive p s now) as Hplan.
  destruct (decide_chunking p s now) as [p' d]. simpl in Hplan.
  unfold apply_commit_tick_plan. 
  pose proof (drain_into_drains (drain_plan d) c1 default_output Hplan) as H1.
  destruct (drain_into (drain_plan d) c1 default_output) as [c1' out1].
  destruct H1 as (l1&Hd1&Ho1). simpl in Ho1.
  pose proof (drain_into_drains (drain_plan d) c2 out1 Hplan) as H2.
  destruct (drain_into (drain_plan d) c2 out1) as [c2' out2]. destruct H2 as (l2&Hd2&Ho2).
  destruct (decision_mode d); exists l1, l2; by rewrite Ho2, Ho1.
Qed.

(** Every queued line is shown: as many ticks as the longer queue has lines, at whatever
    times they come and in whatever mode the policy starts, leave both queues empty; what was
    shown is exactly the queued lines, those of each queue in their order. *)
Theorem ticks_drain_the_queues p c1 c2 times :
  (length (pending c1) ≤ length times)%nat → (length (pending c2) ≤ length times)%nat →
  let '(c1', c2', shown_cells) := run_ticks p c1 c2 times in
  let shown_lines := concat (cell_lines <$> shown_cells) in
  pending c1' = [] ∧ pending c2' = [] ∧
  shown_lines ≡ₚ pending c1 ++ pending c2 ∧
  pending c1 `sublist_of` shown_lines ∧ pending c2 `sublist_of` shown_lines.
Proof.
  revert p c1 c2. induction times as [|now times IH]; intros p c1 c2 H1 H2; simpl in *.
  { apply Nat.le_0_r, nil_length_inv in H1. apply Nat.le_0_r, nil_length_inv in H2.
    by rewrite H1, H2. }
  pose proof (run_commit_tick_drains p c1 c2 now) as Ht.
  destruct (run_commit_tick p c1 c2 AnyMode now) as [[[p' c1'] c2'] out].
  destruct Ht as (l1&l2&[E1 N1]&[E2 N2]&Ho).
  assert (∀ c c' l, pending c = l ++ pending c' → (pending c ≠ [] → l ≠ []) →
    (length (pending c) ≤ S (length times))%nat → (length (pending c') ≤ length times)%nat) as Hlen.
  { intros c c' l E Hne Hl. destruct (pending c') as [|x q] eqn:Hc'; [simpl; lia|].
    rewrite E, length_app in Hl. destruct l; [|simpl in *; lia].
    destruct Hne; [by rewrite E|done]. }
  specialize (IH p' c1' c2' (Hlen _ _ _ E1 N1 H1) (Hlen _ _ _ E2 N2 H2)).
  destruct (run_ticks p' c1' c2' times) as [[c1'' c2''] rest].
  destruct IH as (I1&I2&Hp&Hs1&Hs2). rewrite fmap_app, concat_app, Ho, E1, E2.
  split_and!; [done|done| | |].
  - rewrite Hp. by solve_Permutation || (rewrite <-!(assoc_L (++)); f_equiv;
      rewrite !(assoc_L (++)); f_equiv; apply Permutation_app_comm).
  - rewrite <-(assoc_L (++)). apply sublist_app; [done|]. by apply sublist_inserts_l.
  - apply sublist_app; [by apply sublist_inserts_l|done].
Qed.
End stream.

(** ** Hysteresis *)

(** Decisions in a row. *)
Fixpoint decide_all (p : AdaptiveChunkingPolicy) (inputs : list (QueueSnapshot * N)) :
    list ChunkingDecision :=
  match inputs with
  | [] => []
  | (s, now) :: inputs =>
      let '(p, d) := decide_chunking p s now in d :: decide_all p inputs
  end.

Lemma smooth_hold p s now exit :
  mode p = Smooth → last_catch_up_exit_at p = Some exit →
  now - exit < REENTER_CATCH_UP_HOLD → is_severe_backlog s = false →
  let '(p', d) := decide_chunking p s now in
  mode p' = Smooth ∧ last_catch_up_exit_at p' = Some exit ∧ d = mkDecision Smooth false Single.
Proof.
  intros Hm He Hnow Hs. unfold decide_chunking, note_catch_up_exit. rewrite Hm.
  destruct (queued_lines s =? 0); [by rewrite He|].
  unfold maybe_enter_catch_up, reentry_hold_active. rewrite He, Hs.
  apply N.ltb_lt in Hnow. rewrite Hnow. simpl.
  destruct (negb (should_enter_catch_up s)); simpl; by rewrite Hm.
Qed.

Lemma leaving_catch_up p s now p' d :
  decide_chunking p s now = (p', d) → mode p = CatchUp → mode p' = Smooth →
  last_catch_up_exit_at p' = Some now.
Proof.
  unfold decide_chunking, note_catch_up_exit. intros H Hm Hm'. rewrite Hm in H.
  destruct (queued_lines s =? 0); [by simplify_eq/=|].
  unfold maybe_exit_catch_up in H. repeat case_match; simplify_eq/=; congruence.
Qed.

(** The display does not flicker between the modes: once a decision has left catch-up
    mode, every decision of the next 250 ms is to show one line per tick, unless the backlog
    becomes severe. *)
Theorem no_reentry_after_exit p s now p' d inputs :
  mode p = CatchUp → decide_chunking p s now = (p', d) → mode p' = Smooth →
  Forall (λ '(s', now'), now' - now < REENTER_CATCH_UP_HOLD ∧ is_severe_backlog s' = false) inputs →
  Forall (λ d', d' = mkDecision Smooth false Single) (decide_all p' inputs).
Proof.
  intros Hm Hd Hm' HF. pose proof (leaving_catch_up _ _ _ _ _ Hd Hm Hm') as Hexit. clear Hd.
  revert p' Hm' Hexit. induction HF as [|[s' now'] inputs [Hnow Hsev] _ IH]; intros p' Hm' Hexit;
    simpl; [constructor|].
  pose proof (smooth_hold p' s' now' now Hm' Hexit Hnow Hsev) as Hh.
  destruct (decide_chunking p' s' now') as [p'' d'']. destruct Hh as (Hm''&He''&->).
  constructor; [done|]. by apply IH.
Qed.

(** ** Examples *)

Definition ex_queue (n : nat) : queue (line := nat) := (λ i, mkQueued i 0) <$> seq 0 n.
Definition ex_controller (n : nat) : option (Controller (line := nat)) :=
  Some (mkController (mkCore (ex_queue n) 0) false).
Lemma ticks_drain_the_queues_witness :
  let '(c1', c2', shown_cells) :=
    run_ticks default_policy (ex_controller 3) (ex_controller 2) [1; 2; 3] in
  pending c1' = [] ∧ pending c2' = [] ∧
  concat (cell_lines <$> shown_cells) ≡ₚ pending (ex_controller 3) ++ pending (ex_controller 2) ∧
  pending (ex_controller 3) `sublist_of` concat (cell_lines <$> shown_cells) ∧
  pending (ex_controller 2) `sublist_of` concat (cell_lines <$> shown_cells).
Proof. apply (ticks_drain_the_queues default_policy (ex_controller 3) (ex_controller 2)); simpl; lia. Defined.

Lemma no_reentry_after_exit_witness :
  Forall (λ d', d' = mkDecision Smooth false Single)
    (decide_all (decide_chunking (mkPolicy CatchUp None None) (mkSnapshot 0 None) 0).1
       [(mkSnapshot 9 (Some (from_millis 10)), from_millis 100)]).
Proof.
  eapply (no_reentry_after_exit (mkPolicy CatchUp None None) (mkSnapshot 0 None) 0).
  - reflexivity.
  - reflexivity.
  - reflexivity.
  - repeat constructor.
Defined.

End StreamChunking.
