(* ===== verification/Orchestrator.v ===== *)
(** * Running a tool under approval and sandbox (core/src/tools/orchestrator.rs, approvals.rs)

    [ToolOrchestrator::run] drives every tool call: approval, choice of the sandbox, first
    attempt, and after a denial by the sandbox perhaps a second attempt without it.  The
    session is the interface [Session]: hooks, the automatic reviewer, the user, the network
    approvals and the tool itself answer from a state of their own, whatever it is.  The model
    records in a trace what was asked and what was run; the trace is not part of the code and
    nothing depends on it. *)

From stdpp Require Import prelude strings list gmap.
From S2P Require Import Prelude RustStr AbsolutePath ExecPolicy PolicyAmend ShellParse.
From S2P Require Import CommandSafety Permissions ExecApproval PatchVerify.

Module Orchestrator.
Import AbsolutePath ExecPolicy PolicyAmend ShellParse CommandSafety Permissions ExecApproval.

Notation SandboxType := PatchVerify.SandboxType.
Notation NoSandbox := PatchVerify.NoSandbox.

(** ** The choice of a sandbox (sandboxing/src/manager.rs, policy_transforms.rs) *)

Inductive SandboxablePreference : Type := PreferAuto | PreferRequire | PreferForbid.

Definition should_require_platform_sandbox (p : FileSystemSandboxPolicy)
    (network : NetworkSandboxPolicy) (has_managed_network_requirements : bool) : bool :=
  if has_managed_network_requirements then true
  else if negb (net_is_enabled network) then
    match fs_kind p with ExternalSandbox => false | _ => true end
  else match fs_kind p with
       | Restricted => negb (has_full_disk_write_access p)
       | Unrestricted | ExternalSandbox => false
       end.

Definition should_sandbox (p : FileSystemSandboxPolicy) (network : NetworkSandboxPolicy)
    (pref : SandboxablePreference) (managed : bool) : bool :=
  match pref with
  | PreferForbid => false
  | PreferRequire => true
  | PreferAuto => should_require_platform_sandbox p network managed
  end.

Definition select_initial (os : PatchVerify.target_os) (p : FileSystemSandboxPolicy)
    (network : NetworkSandboxPolicy) (pref : SandboxablePreference)
    (level : PatchVerify.WindowsSandboxLevel) (managed : bool) : SandboxType :=
  if should_sandbox p network pref managed then
    default NoSandbox
      (PatchVerify.get_platform_sandbox os
         match level with PatchVerify.LevelDisabled => false | _ => true end)
  else NoSandbox.

(** ** Decisions and errors *)

Inductive NetworkPolicyRuleAction : Type := RuleAllow | RuleDeny.
Record NetworkPolicyAmendment : Type := mkNetworkAmendment {
  amendment_host : list N; amendment_action : NetworkPolicyRuleAction }.

Inductive ReviewDecision : Type :=
| Approved
| ApprovedExecpolicyAmendment (proposed_execpolicy_amendment : list (list N))
| ApprovedForSession
| NetworkAmendment (network_policy_amendment : NetworkPolicyAmendment)
| Denied
| TimedOut
| Abort_.

Inductive PermissionRequestDecision : Type := HookAllow | HookDeny (message : list N).

Inductive NetworkApprovalProtocol : Type := ProtoHttp | ProtoHttps | ProtoSocks5Tcp | ProtoSocks5Udp.
Record NetworkApprovalContext : Type := mkNetworkContext {
  ctx_host : list N; ctx_protocol : NetworkApprovalProtocol }.

Inductive NetworkPolicyDecision : Type := PolicyDeny | PolicyAsk.
Inductive NetworkDecisionSource : Type := BaselinePolicy | ModeGuard | ProxyState | Decider.
Record NetworkPolicyDecisionPayload : Type := mkPayload {
  payload_decision : NetworkPolicyDecision;
  payload_source : NetworkDecisionSource;
  payload_protocol : option NetworkApprovalProtocol;
  payload_host : option (list N);
  payload_reason : option (list N);
  payload_port : option N }.

Definition is_ask_from_decider (payload : NetworkPolicyDecisionPayload) : bool :=
  match payload_decision payload, payload_source payload with
  | PolicyAsk, Decider => true
  | _, _ => false
  end.

Definition network_approval_context_from_payload (payload : NetworkPolicyDecisionPayload) :
    option NetworkApprovalContext :=
  if negb (is_ask_from_decider payload) then None
  else
    protocol ← payload_protocol payload;
    host ← payload_host payload;
    let host := trim host in
    if decide (host = []) then None else Some (mkNetworkContext host protocol).

(** Errors; the output of a command and the errors that are not about the sandbox are texts. *)
Inductive SandboxErr : Type :=
| SandboxDenied (output : list N) (network_policy_decision : option NetworkPolicyDecisionPayload)
| SeccompInstall
| SeccompBackend
| SandboxTimeout (output : list N)
| SandboxSignal (signal : Z)
| LandlockRestrict.
Inductive CodexErr : Type :=
| CodexSandbox (e : SandboxErr)
| CodexIo (message : list N)
| CodexOther (message : list N).
Inductive ToolError : Type := Rejected (message : list N) | Codex (e : CodexErr).

Inductive NetworkApprovalMode : Type := Immediate | Deferred.

(** ** The parties *)

(** [SandboxAttempt], without the fields that are the same for every attempt of a call. *)
Record SandboxAttempt : Type := mkAttempt {
  sandbox : SandboxType;
  sandbox_requested : bool;
  permissions : PermissionProfile;
  enforce_managed_network : bool;
  codex_linux_sandbox_exe : option (list N) }.

(** What a tool tells about a request: the methods of [Approvable], [Sandboxable] and
    [ToolRuntime] that do not run anything. *)
Record ToolRuntime : Type := mkTool {
  exec_approval_requirement : option ExecApprovalRequirement;
  tool_sandbox_permissions : SandboxPermissions;
  sandbox_preference : SandboxablePreference;
  escalate_on_failure : bool;
  tool_wants_no_sandbox_approval : AskForApproval → bool;
  tool_should_bypass_approval : AskForApproval → bool → bool;
  has_permission_request_payload : bool;
  guardian_request_ok : bool;
  has_network_approval_spec : bool }.

(** The default [should_bypass_approval] of the trait. *)
Definition should_bypass_approval (policy : AskForApproval) (already_approved : bool) : bool :=
  if already_approved then true else match policy with Never => true | _ => false end.

Inductive ApprovalsReviewer : Type := ReviewByUser | AutoReview.

Record TurnContext : Type := mkTurn {
  strict_auto_review : bool;
  permission_profile : PermissionProfile;
  windows_sandbox_level : PatchVerify.WindowsSandboxLevel;
  managed_network_active : bool;
  linux_sandbox_exe : option (list N);
  approvals_reviewer : ApprovalsReviewer;
  turn_approval_policy : AskForApproval;
  host_os : PatchVerify.target_os;
  call_id : list N }.

Class Session (W Out : Type) : Type := {
  run_permission_request_hooks : str → W → W * option PermissionRequestDecision;
  review_approval_request : option str → W → W * ReviewDecision;
  guardian_rejection_message : W → W * list N;
  start_approval_async : option str → option NetworkApprovalContext → W → W * ReviewDecision;
  begin_network_approval : SandboxType → bool → W → W * result str (option NetworkApprovalMode);
  finish_immediate_network_approval : W → W * result str unit;
  finish_deferred_network_approval : W → W * result str unit;
  run_tool : SandboxAttempt → option NetworkApprovalMode → W → W * result ToolError Out }.

(** ** What happened *)

Inductive ApprovalReviewer : Type := Guardian | User.

Inductive event : Type :=
| Hooked (run_id : list N) (d : option PermissionRequestDecision)
| Reviewed (reviewer : ApprovalReviewer) (reason : option (list N)) (d : ReviewDecision)
| Attempted (a : SandboxAttempt) (denied : bool).

Section run.
Context {W Out : Type} `{Session W Out}.

Record state : Type := mkState { world : W; trace : list event }.

Definition call {A} (op : W → W * A) (what : A → list event) : M state ToolError A :=
  λ s, let '(w, a) := op (world s) in (mkState w (trace s ++ what a), Ok a).

(** ** Approvals (approvals.rs) *)

Inductive ApprovalResolutionSource : Type := SourceHook | SourceGuardian | SourceUser.
Record ApprovalResolution : Type := mkResolution {
  resolution_decision : ReviewDecision;
  rejection : option (list N);
  source : ApprovalResolutionSource }.

Definition into_tool_result (r : ApprovalResolution) : result ToolError ReviewDecision :=
  match rejection r with
  | Some message => Err (Rejected message)
  | None => Ok (resolution_decision r)
  end.

Definition GUARDIAN_TIMEOUT_INSTRUCTIONS : str :=
  lit "The automatic permission approval review did not finish before its deadline. " ++
  lit "Do not assume the action is unsafe based on the timeout alone. " ++
  lit "You may retry once, or ask the user for guidance or explicit approval.".

Definition normalize_guardian (d : ReviewDecision) : M state ToolError ApprovalResolution :=
  let! rejection :=
    match d with
    | Approved | ApprovedForSession | ApprovedExecpolicyAmendment _ => st_ret None
    | TimedOut => st_ret (Some GUARDIAN_TIMEOUT_INSTRUCTIONS)
    | NetworkAmendment a =>
        match amendment_action a with
        | RuleAllow => st_ret None
        | RuleDeny => let! m := call guardian_rejection_message (λ _, []) in st_ret (Some m)
        end
    | Denied | Abort_ =>
        let! m := call guardian_rejection_message (λ _, []) in st_ret (Some m)
    end in
  st_ret (mkResolution d rejection SourceGuardian).

Definition normalize_user_rejection (r : ApprovalResolution) : ApprovalResolution :=
  match source r with
  | SourceUser =>
      mkResolution (resolution_decision r)
        match resolution_decision r with
        | Approved | ApprovedForSession | ApprovedExecpolicyAmendment _ => None
        | NetworkAmendment a =>
            match amendment_action a with
            | RuleAllow => None
            | RuleDeny => Some (lit "rejected by user")
            end
        | Denied | Abort_ => Some (lit "rejected by user")
        | TimedOut => Some (lit "approval request timed out")
        end (source r)
  | SourceHook | SourceGuardian => r
  end.

(** [resolve_tool_apporval] after the hooks. *)
Definition resolve_by_reviewer (tool : ToolRuntime) (reason : option str)
    (network : option NetworkApprovalContext) (reviewer : ApprovalReviewer) :
    M state ToolError ReviewDecision :=
  match reviewer with
  | Guardian =>
      if negb (guardian_request_ok tool) then
        st_lift (into_tool_result
          (mkResolution Abort_ (Some (lit "automatic approval review could not prepare the action"))
             SourceGuardian))
      else
        let! d := call (review_approval_request reason) (λ d, [Reviewed Guardian reason d]) in
        let! r := normalize_guardian d in
        st_lift (into_tool_result (normalize_user_rejection r))
  | User =>
      let! d := call (start_approval_async reason network) (λ d, [Reviewed User reason d]) in
      st_lift (into_tool_result (normalize_user_rejection (mkResolution d None SourceUser)))
  end.

Definition resolve_tool_approval (tool : ToolRuntime) (run_id : str) (reason : option str)
    (network : option NetworkApprovalContext) (reviewer : ApprovalReviewer) :
    M state ToolError ReviewDecision :=
  if has_permission_request_payload tool then
    let! d := call (run_permission_request_hooks run_id) (λ d, [Hooked run_id d]) in
    match d with
    | Some HookAllow => st_lift (into_tool_result (mkResolution Approved None SourceHook))
    | Some (HookDeny message) =>
        st_lift (into_tool_result (mkResolution Denied (Some message) SourceHook))
    | None => resolve_by_reviewer tool reason network reviewer
    end
  else resolve_by_reviewer tool reason network reviewer.

(** [routes_approval_to_guardian_with_reviewer] and [ApprovalReviewer::for_turn]. *)
Definition routes_approval_to_guardian_with_reviewer (turn : TurnContext)
    (reviewer : ApprovalsReviewer) : bool :=
  match turn_approval_policy turn with OnRequest | Granular _ => true | _ => false end &&
  match reviewer with AutoReview => true | ReviewByUser => false end.
Definition for_turn (turn : TurnContext) : ApprovalReviewer :=
  if routes_approval_to_guardian_with_reviewer turn (approvals_reviewer turn)
  then Guardian else User.

(** ** Attempts (orchestrator.rs) *)

Definition sandbox_denied {A} (r : result ToolError A) : bool :=
  match r with Err (Codex (CodexSandbox (SandboxDenied _ _))) => true | _ => false end.

(** [run_attempt]: the result, and whether a network approval stays open.  Beginning an
    approval fails with an error of input and output, finishing it with a rejection. *)
Definition run_attempt (tool : ToolRuntime) (attempt : SandboxAttempt) (managed : bool) :
    M state ToolError (result ToolError Out * bool) :=
  let! begun := call (begin_network_approval (sandbox attempt)
                        (managed && has_network_approval_spec tool)) (λ _, []) in
  match begun with
  | Err err => st_ret (Err (Codex (CodexIo err)), false)
  | Ok approval =>
      let! run_result := call (run_tool attempt approval)
                           (λ r, [Attempted attempt (sandbox_denied r)]) in
      match approval with
      | None => st_ret (run_result, false)
      | Some Immediate =>
          let! finalize := call finish_immediate_network_approval (λ _, []) in
          match finalize with
          | Err err => st_ret (Err (Rejected err), false)
          | Ok _ => st_ret (run_result, false)
          end
      | Some Deferred =>
          if negb (is_ok run_result) then
            let! finalize := call finish_deferred_network_approval (λ _, []) in
            match finalize with
            | Err err => st_ret (Err (Rejected err), false)
            | Ok _ => st_ret (run_result, false)
            end
          else st_ret (run_result, true)
      end
  end.

Section turn.
Variables (tool : ToolRuntime) (turn : TurnContext) (approval_policy : AskForApproval).

Let fs : FileSystemSandboxPolicy := file_system_sandbox_policy (permission_profile turn).
Let network : NetworkSandboxPolicy := network_sandbox_policy (permission_profile turn).
Let managed : bool := managed_network_active turn.

Definition requirement : ExecApprovalRequirement :=
  default (default_exec_approval_requirement approval_policy fs) (exec_approval_requirement tool).

(** What the sandbox manager asks for. *)
Definition wanted_sandbox : bool := should_sandbox fs network (sandbox_preference tool) managed.
Definition selected_sandbox : SandboxType :=
  select_initial (host_os turn) fs network (sandbox_preference tool) (windows_sandbox_level turn)
    managed.

Definition make_attempt (requested : bool) (exe : option (list N)) : SandboxAttempt :=
  mkAttempt (if requested then selected_sandbox else NoSandbox) requested (permission_profile turn)
    managed exe.

Definition initial_attempt : SandboxAttempt :=
  make_attempt
    match sandbox_override_for_first_attempt (tool_sandbox_permissions tool) requirement fs with
    | BypassSandboxFirstAttempt => false
    | NoOverride => wanted_sandbox
    end (linux_sandbox_exe turn).

Definition retry_attempt : SandboxAttempt :=
  let unsandboxed_allowed := unsandboxed_execution_allowed fs in
  make_attempt (negb unsandboxed_allowed && wanted_sandbox)
    (if unsandboxed_allowed then None else linux_sandbox_exe turn).

Definition reviewer_of_turn : ApprovalReviewer :=
  if strict_auto_review turn then Guardian else for_turn turn.

(** The first stage: whether the call is already approved. *)
Definition approve : M state ToolError bool :=
  match requirement with
  | Skip _ _ =>
      if strict_auto_review turn then
        resolve_tool_approval tool (call_id turn) None None Guardian ;;; st_ret true
      else st_ret false
  | ForbiddenExec reason => st_throw (Rejected reason)
  | NeedsApproval reason _ =>
      resolve_tool_approval tool (call_id turn) reason None reviewer_of_turn ;;; st_ret true
  end.

Definition allow_on_request_network_prompt (context : option NetworkApprovalContext) : bool :=
  match approval_policy with OnRequest => true | _ => false end
  && bool_decide (is_Some context)
  && match default_exec_approval_requirement approval_policy fs with
     | NeedsApproval _ _ => true
     | _ => false
     end.

Definition retry_reason (context : option NetworkApprovalContext) : str :=
  match context with
  | Some c => lit "Network access to " ++ [34%N] ++ ctx_host c ++ [34%N] ++ lit " is blocked by policy."
  | None => lit "command failed; retry without sandbox?"
  end.

(** The second stage, after a denial by the sandbox. *)
Definition retry (already_approved : bool) (output : list N)
    (decision : option NetworkPolicyDecisionPayload) : M state ToolError (Out * bool) :=
  let context := if managed then decision ≫= network_approval_context_from_payload else None in
  let denied := st_throw (Codex (CodexSandbox (SandboxDenied output decision))) in
  let unsandboxed_allowed := unsandboxed_execution_allowed fs in
  if bool_decide (is_Some decision) && bool_decide (context = None) then denied
  else if negb (escalate_on_failure tool) then denied
  else if negb (tool_wants_no_sandbox_approval tool approval_policy)
          && negb (allow_on_request_network_prompt context) then denied
  else if negb unsandboxed_allowed && bool_decide (context = None) then denied
  else
    let bypass_retry_approval :=
      negb (strict_auto_review turn)
      && tool_should_bypass_approval tool approval_policy already_approved
      && bool_decide (context = None) in
    (if bypass_retry_approval then st_ret tt
     else resolve_tool_approval tool (call_id turn ++ lit ":retry") (Some (retry_reason context))
            context reviewer_of_turn ;;; st_ret tt) ;;;
    let! (result, deferred) := run_attempt tool retry_attempt managed in
    match result with
    | Ok out => st_ret (out, deferred)
    | Err err => st_throw err
    end.

Definition run : M state ToolError (Out * bool) :=
  let! already_approved := approve in
  let! (result, deferred) := run_attempt tool initial_attempt managed in
  match result with
  | Ok out => st_ret (out, deferred)
  | Err (Codex (CodexSandbox (SandboxDenied output decision))) =>
      retry already_approved output decision
  | Err err => st_throw err
  end.
End turn.
End run.

(** ** The tools *)

(** [ShellRuntime] and [UnifiedExecRuntime] (runtimes/shell.rs, unified_exec.rs). *)
Definition exec_tool (answer : ExecApprovalRequirement) (perms : SandboxPermissions)
    (guardian_ok network_spec : bool) : ToolRuntime :=
  mkTool (Some answer) perms PreferAuto true wants_no_sandbox_approval should_bypass_approval
    true guardian_ok network_spec.

(** [ApplyPatchRuntime] (runtimes/apply_patch.rs). *)
Definition patch_wants_no_sandbox_approval (policy : AskForApproval) : bool :=
  match policy with
  | Never => false
  | Granular config => sandbox_approval config
  | OnRequest => true
  | UnlessTrusted => true
  end.
Definition apply_patch_tool (answer : ExecApprovalRequirement) (guardian_ok : bool) : ToolRuntime :=
  mkTool (Some answer) UseDefault PreferAuto true patch_wants_no_sandbox_approval
    should_bypass_approval true guardian_ok false.

(** [apply_patch] of core/src/apply_patch.rs: the answer for a patch and whether it is approved
    automatically, or the message of its rejection.  [file_system_sandbox_policy] is the
    policy with the permissions granted to the turn. *)
Definition apply_patch {path} (h : host) (to_abs_path : path → option (list Component))
    (turn : TurnContext) (file_system_sandbox_policy : FileSystemSandboxPolicy)
    (action : PatchVerify.ApplyPatchAction path) : result str (ExecApprovalRequirement * bool) :=
  match PatchVerify.assess_patch_safety h (host_os turn) to_abs_path action
          (turn_approval_policy turn) (permission_profile turn) file_system_sandbox_policy
          (PatchVerify.action_cwd action) (windows_sandbox_level turn) with
  | PatchVerify.AutoApprove _ user_explicitly_approved =>
      Ok (Skip false None, negb user_explicitly_approved)
  | PatchVerify.AskUser => Ok (NeedsApproval None None, false)
  | PatchVerify.Reject reason => Err (lit "patch rejected: " ++ reason)
  end.
End Orchestrator.
