(* ===== verification/OrchestratorLaws.v ===== *)
(** * Laws of tool orchestration

    What [Orchestrator] promises: every run follows a course of questions and attempts; the
    sandbox is left only by a rule, an escalation or with consent; a refusal is final; and,
    composed with the exec policy and the assessment of patches, a command or a patch runs only
    as they decided or with consent. *)

From stdpp Require Import prelude strings list gmap.
From S2P Require Import Prelude RustStr AbsolutePath ExecPolicy PolicyAmend ShellParse.
From S2P Require Import CommandSafety Permissions PermissionLaws ExecApproval ApprovalLaws.
From S2P Require Import ApplyPatch PatchVerify Orchestrator.

Module OrchestratorLaws.
Import AbsolutePath ExecPolicy PolicyAmend ShellParse CommandSafety Permissions ExecApproval.
Import ApprovalLaws Orchestrator.

Section run.
Context {W Out : Type} `{Session W Out}.
Notation state := (state (W := W)).

(** ** What a computation adds to the trace *)

Definition emits {A} (m : M state ToolError A) (P : list event → result ToolError A → Prop) : Prop :=
  ∀ s s' r, m s = (s', r) → ∃ tr, trace s' = trace s ++ tr ∧ P tr r.

Lemma emits_lift {A} (x : result ToolError A) (P : list event → result ToolError A → Prop) :
  P [] x → emits (st_lift x) P.
Proof. intros HP s s' r [= <- <-]. exists []. by rewrite app_nil_r. Qed.
Lemma emits_ret {A} (a : A) (P : list event → result ToolError A → Prop) :
  P [] (Ok a) → emits (st_ret a) P.
Proof. apply (emits_lift (Ok a)). Qed.
Lemma emits_throw {A} e (P : list event → result ToolError A → Prop) :
  P [] (Err e) → emits (st_throw e) P.
Proof. apply (emits_lift (Err e)). Qed.
Lemma emits_call {A} (op : W → W * A) what (P : list event → result ToolError A → Prop) :
  (∀ a, P (what a) (Ok a)) → emits (call op what) P.
Proof.
  intros HP s s' r. unfold call. destruct (op (world s)) as [w a]. intros [= <- <-]. by eexists.
Qed.
Lemma emits_mono {A} (m : M state ToolError A) (P Q : list event → result ToolError A → Prop) :
  emits m P → (∀ tr r, P tr r → Q tr r) → emits m Q.
Proof. intros Hm HPQ s s' r Hr. destruct (Hm _ _ _ Hr) as (tr&?&?). exists tr. auto. Qed.
Lemma emits_bind {A B} (m : M state ToolError A) (k : A → M state ToolError B) P Q :
  emits m P →
  (∀ tr e, P tr (Err e) → Q tr (Err e)) →
  (∀ tr a, P tr (Ok a) → emits (k a) (λ tr' r, Q (tr ++ tr') r)) →
  emits (st_bind m k) Q.
Proof.
  intros Hm Herr Hok s s' r. unfold st_bind. destruct (m s) as [s1 [a|e]] eqn:E;
    destruct (Hm _ _ _ E) as (tr&Htr&HP).
  - intros Hk. destruct (Hok _ _ HP _ _ _ Hk) as (tr'&Htr'&HQ).
    exists (tr ++ tr'). by rewrite Htr', Htr, app_assoc.
  - intros [= <- <-]. exists tr. auto.
Qed.

(** ** Consent and refusal *)

Definition granted (d : ReviewDecision) : bool :=
  match d with
  | Approved | ApprovedExecpolicyAmendment _ | ApprovedForSession => true
  | NetworkAmendment a => match amendment_action a with RuleAllow => true | RuleDeny => false end
  | Denied | TimedOut | Abort_ => false
  end.

Definition consents (ev : event) : Prop :=
  match ev with
  | Hooked _ (Some HookAllow) => True
  | Reviewed _ _ d => granted d = true
  | _ => False
  end.
Definition refuses (ev : event) : Prop :=
  match ev with
  | Hooked _ (Some (HookDeny _)) => True
  | Reviewed _ _ d => granted d = false
  | _ => False
  end.

(** A question and its outcome: silent hooks, then perhaps an answer. *)
Definition silent (ev : event) : Prop := ∃ id, ev = Hooked id None.
Definition error_of {A} (r : result ToolError A) : option ToolError :=
  match r with Ok _ => None | Err e => Some e end.
Inductive answered : list event → option ToolError → Prop :=
| answered_yes pre ev : Forall silent pre → consents ev → answered (pre ++ [ev]) None
| answered_no pre ev m : Forall silent pre → refuses ev → answered (pre ++ [ev]) (Some (Rejected m))
| answered_not pre m : Forall silent pre → answered pre (Some (Rejected m)).

Lemma answered_silent pre tr e : Forall silent pre → answered tr e → answered (pre ++ tr) e.
Proof.
  intros Hpre [pre' ev Hs ?|pre' ev m Hs ?|pre' m Hs]; rewrite ?app_assoc; constructor;
    try done; by apply Forall_app.
Qed.

Lemma review_answered d reviewer reason src message :
  (granted d = true → message = None) → (granted d = false → is_Some message) →
  answered [Reviewed reviewer reason d] (error_of (into_tool_result (mkResolution d message src))).
Proof.
  intros Hyes Hno. unfold into_tool_result. simpl. destruct (granted d) eqn:Hd.
  - rewrite Hyes by done. by apply (answered_yes []); [constructor|].
  - destruct Hno as [m ->]; [done|]. by apply (answered_no []); [constructor|].
Qed.

Lemma normalize_guardian_emits d :
  emits (normalize_guardian d) (λ tr r, tr = [] ∧ ∃ message, r = Ok (mkResolution d message SourceGuardian)
    ∧ (granted d = true → message = None) ∧ (granted d = false → is_Some message)).
Proof.
  unfold normalize_guardian.
  eapply (emits_bind _ _ (λ tr r, tr = [] ∧ ∃ message, r = Ok message
    ∧ (granted d = true → message = None) ∧ (granted d = false → is_Some message))).
  - assert (granted d = false →
      emits (let! m := call guardian_rejection_message (λ _, []) in st_ret (Some m))
        (λ tr r, tr = [] ∧ ∃ message, r = Ok message
          ∧ (granted d = true → message = None) ∧ (granted d = false → is_Some message))) as Hrej.
    { intros Hd. eapply (emits_bind _ _ (λ tr r, tr = [] ∧ ∃ m, r = Ok m)); [|naive_solver|].
      - apply emits_call. eauto.
      - intros tr m [-> _]. apply emits_ret. split; [done|]. exists (Some m).
        rewrite Hd. split_and!; [done|done|by eexists]. }
    destruct d as [| | |[? []]| | |]; try (by apply Hrej); apply emits_ret; (split; [done|]);
      eexists; split_and!; done.
  - naive_solver.
  - intros tr message (->&?&[= ->]&?&?). apply emits_ret. split; [done|]. by eexists.
Qed.

Lemma resolve_by_reviewer_emits tool reason context reviewer :
  emits (resolve_by_reviewer tool reason context reviewer) (λ tr r, answered tr (error_of r)).
Proof.
  unfold resolve_by_reviewer. destruct reviewer.
  - destruct (negb _).
    { apply emits_lift. by apply answered_not. }
    eapply (emits_bind _ _ (λ tr r, ∃ d, tr = [Reviewed Guardian reason d] ∧ r = Ok d));
      [apply emits_call; eauto|naive_solver|].
    intros tr d (?&->&[= <-]).
    eapply emits_bind; [apply normalize_guardian_emits|naive_solver|].
    intros tr r (->&message&[= ->]&Hyes&Hno). apply emits_lift. by apply review_answered.
  - eapply (emits_bind _ _ (λ tr r, ∃ d, tr = [Reviewed User reason d] ∧ r = Ok d));
      [apply emits_call; eauto|naive_solver|].
    intros tr d (?&->&[= <-]). apply emits_lift. unfold normalize_user_rejection. simpl.
    apply review_answered; destruct d as [| | |[? []]| | |]; by eauto.
Qed.

Lemma resolve_emits tool id reason context reviewer :
  emits (resolve_tool_approval tool id reason context reviewer) (λ tr r, answered tr (error_of r)).
Proof.
  unfold resolve_tool_approval. destruct (has_permission_request_payload tool);
    [|apply resolve_by_reviewer_emits].
  eapply (emits_bind _ _ (λ tr r, ∃ d, tr = [Hooked id d] ∧ r = Ok d));
    [apply emits_call; eauto|naive_solver|].
  intros tr d (?&->&[= <-]). destruct d as [[|m]|].
  - apply emits_lift. by apply (answered_yes []); [constructor|].
  - apply emits_lift. by apply (answered_no []); [constructor|].
  - eapply emits_mono; [apply resolve_by_reviewer_emits|]. intros tr r Htr.
    apply answered_silent; [|done]. by repeat econstructor.
Qed.

(** ** The course of a call *)

(** An attempt and its result: it fails before it starts, or it is made. *)
Inductive attempted (a : SandboxAttempt) : list event → result ToolError Out → Prop :=
| attempted_not m : attempted a [] (Err (Codex (CodexIo m)))
| attempted_end denied res :
    (sandbox_denied res = true → denied = true) → (is_ok res = true → denied = false) →
    attempted a [Attempted a denied] res.

Lemma run_attempt_emits tool a managed :
  emits (run_attempt tool a managed) (λ tr r, ∃ res b, r = Ok (res, b) ∧ attempted a tr res).
Proof.
  unfold run_attempt. eapply (emits_bind _ _ (λ tr r, tr = [] ∧ ∃ x, r = Ok x));
    [apply emits_call; eauto|naive_solver|].
  intros tr begun [-> _]. destruct begun as [approval|m].
  2: { apply emits_ret. do 2 eexists. split; [done|]. constructor. }
  eapply (emits_bind _ _ (λ tr r, ∃ res, tr = [Attempted a (sandbox_denied res)] ∧ r = Ok res));
    [apply emits_call; eauto|naive_solver|].
  intros tr res (?&->&[= <-]).
  assert (is_ok res = true → sandbox_denied res = false) as Hok by (by destruct res).
  assert (∀ b : bool, ∃ res' (b' : bool), Ok (res, b) = Ok (E := ToolError) (res', b') ∧
    attempted a [Attempted a (sandbox_denied res)] res') as Hres.
  { intros b. exists res, b. split; [done|]. by constructor. }
  assert (∀ m (b : bool), ∃ res' (b' : bool), Ok (Err (Rejected m), b) = Ok (E := ToolError) (res', b') ∧
    attempted a [Attempted a (sandbox_denied res)] res') as Hrej.
  { intros m b. eexists _, b. split; [done|]. by constructor. }
  destruct approval as [[]|]; [| |by apply emits_ret].
  - eapply (emits_bind _ _ (λ tr r, tr = [] ∧ ∃ x, r = Ok x));
      [apply emits_call; eauto|naive_solver|].
    intros tr [|] [-> _]; by apply emits_ret.
  - destruct (negb _); [|by apply emits_ret].
    eapply (emits_bind _ _ (λ tr r, tr = [] ∧ ∃ x, r = Ok x));
      [apply emits_call; eauto|naive_solver|].
    intros tr [|] [-> _]; by apply emits_ret.
Qed.

Section course.
Variables (tool : ToolRuntime) (turn : TurnContext) (policy : AskForApproval).
Let req : ExecApprovalRequirement := requirement tool turn policy.

(** How the first attempt was cleared. *)
Definition cleared (tr : list event) (already : bool) : Prop :=
  (already = false ∧ tr = [] ∧ (∃ b p, req = Skip b p) ∧ strict_auto_review turn = false) ∨
  (already = true ∧ answered tr None ∧ ∀ m, req ≠ ForbiddenExec m).

(** How the second attempt was cleared. *)
Definition recleared (tr : list event) (already : bool) : Prop :=
  answered tr None ∨
  (tr = [] ∧ tool_should_bypass_approval tool policy already = true ∧
   tool_wants_no_sandbox_approval tool policy = true).

Inductive course : list event → option ToolError → Prop :=
| course_refused tr e : answered tr (Some e) → course tr (Some e)
| course_first tr already tr1 res :
    cleared tr already → attempted (initial_attempt tool turn policy) tr1 res →
    course (tr ++ tr1) (error_of res)
| course_retry_refused tr already tr2 e :
    cleared tr already → answered tr2 (Some e) →
    course (tr ++ Attempted (initial_attempt tool turn policy) true :: tr2) (Some e)
| course_second tr already tr2 tr3 res :
    cleared tr already → recleared tr2 already →
    attempted (retry_attempt tool turn) tr3 res →
    course (tr ++ Attempted (initial_attempt tool turn policy) true :: tr2 ++ tr3) (error_of res).

Lemma approve_emits :
  emits (approve tool turn policy) (λ tr r,
    match r with Ok already => cleared tr already | Err e => answered tr (Some e) end).
Proof.
  unfold approve, cleared. fold req. destruct req as [b p|reason p|reason] eqn:Hreq.
  - destruct (strict_auto_review turn) eqn:Hs.
    + eapply emits_bind; [apply resolve_emits|done|]. intros tr d Htr. apply emits_ret.
      right. rewrite app_nil_r. done.
    + apply emits_ret. left. eauto 6.
  - eapply emits_bind; [apply resolve_emits|done|]. intros tr d Htr. apply emits_ret.
    right. rewrite app_nil_r. done.
  - apply emits_throw. by apply answered_not.
Qed.

Lemma retry_emits already output decision :
  emits (retry tool turn policy already output decision) (λ tr r,
    tr = [] ∧ error_of r = Some (Codex (CodexSandbox (SandboxDenied output decision))) ∨
    answered tr (error_of r) ∧ is_Some (error_of r) ∨
    ∃ tr2 tr3 res, tr = tr2 ++ tr3 ∧ recleared tr2 already ∧
      attempted (retry_attempt tool turn) tr3 res ∧ error_of r = error_of res).
Proof.
  unfold retry. cbv zeta. set (ctx := if managed_network_active turn then _ else _).
  destruct (bool_decide _ && bool_decide _) eqn:H1; [apply emits_throw; auto|].
  destruct (negb (escalate_on_failure tool)); [apply emits_throw; auto|].
  destruct (negb (tool_wants_no_sandbox_approval tool policy) && _) eqn:Hwants;
    [apply emits_throw; auto|].
  destruct (negb (unsandboxed_execution_allowed _) && _); [apply emits_throw; auto|].
  eapply (emits_bind _ _ (λ tr r, match r with
    | Ok _ => recleared tr already
    | Err e => answered tr (Some e)
    end)).
  - destruct (negb (strict_auto_review turn) && _ && _) eqn:Hb.
    + apply emits_ret. right. bool_to_prop. split_and!; [done|done|].
      apply not_false_is_true. intros Hw. rewrite Hw in Hwants. simpl in Hwants. bool_to_prop.
      unfold allow_on_request_network_prompt in Hwants.
      match goal with E : ctx = None |- _ => rewrite E in Hwants end.
      by rewrite andb_false_r in Hwants.
    + eapply emits_bind; [apply resolve_emits|done|]. intros tr d Htr. apply emits_ret.
      left. by rewrite app_nil_r.
  - intros tr e Htr. right; left. by eauto.
  - intros tr [] Htr. eapply emits_bind; [apply run_attempt_emits|naive_solver|].
    intros tr3 [res b] (?&?&[= <- <-]&Hatt).
    destruct res as [out|e]; [apply emits_ret|apply emits_throw];
      (right; right; rewrite app_nil_r; by eauto 8).
Qed.

Lemma run_course : emits (run tool turn policy) (λ tr r, course tr (error_of r)).
Proof.
  unfold run. eapply emits_bind; [apply approve_emits| |].
  { intros tr e Htr. by apply course_refused. }
  intros tr already Hc. cbn beta iota in Hc. eapply emits_bind; [apply run_attempt_emits|naive_solver|].
  intros tr1 [res b] (?&?&[= <- <-]&Hatt).
  assert (∀ r : result ToolError (Out * bool), error_of r = error_of res →
    course (tr ++ tr1 ++ []) (error_of r)) as Hend.
  { intros r ->. rewrite app_nil_r. by eapply course_first. }
  destruct res as [out|[m|[[output decision| | | | |]| |]]];
    try (by first [apply emits_ret|apply emits_throw]; apply Hend).
  inversion Hatt as [|d r' Hd _]; subst. rewrite Hd by done.
  eapply emits_mono; [apply retry_emits|].
  intros tr2 r [(->&->)|[[Htr2 [e He]]|(tr3&tr4&res&->&Hre&Hatt2&->)]].
  - eapply (course_first _ _ _ (Err (Codex (CodexSandbox (SandboxDenied output decision)))));
      [done|]. by constructor.
  - simpl. rewrite He in *. by eapply course_retry_refused.
  - simpl. by eapply course_second.
Qed.

(** *** Where the attempts are *)

Definition question (ev : event) : Prop := ∀ a d, ev ≠ Attempted a d.

Lemma silent_question pre : Forall silent pre → Forall question pre.
Proof. intros Hs. eapply Forall_impl; [exact Hs|]. by intros ? [? ->] ??. Qed.
Lemma consents_question ev : consents ev → question ev.
Proof. by intros Hev a d ->. Qed.
Lemma refuses_question ev : refuses ev → question ev.
Proof. by intros Hev a d ->. Qed.
Lemma answered_questions tr e : answered tr e → Forall question tr.
Proof.
  intros [pre ev Hs ?|pre ev m Hs ?|pre m Hs]; rewrite ?Forall_app, ?Forall_singleton;
    auto using silent_question, consents_question, refuses_question.
Qed.
Lemma cleared_questions tr already : cleared tr already → Forall question tr.
Proof. intros [(_&->&_)|(_&Ha&_)]; [constructor|by eapply answered_questions]. Qed.
Lemma recleared_questions tr already : recleared tr already → Forall question tr.
Proof. intros [Ha|(->&_)]; [by eapply answered_questions|constructor]. Qed.

Lemma no_attempt_in x pre a d post : Forall question x → x = pre ++ Attempted a d :: post → False.
Proof. intros Hx ->. apply Forall_app in Hx as [_ [Hev _]%Forall_cons]. by eapply Hev. Qed.

Lemma split_at_attempt x b d' y pre a d post :
  Forall question x → x ++ Attempted b d' :: y = pre ++ Attempted a d :: post →
  (pre = x ∧ a = b ∧ d = d' ∧ post = y) ∨
  ∃ z, pre = x ++ Attempted b d' :: z ∧ y = z ++ Attempted a d :: post.
Proof.
  intros Hx. revert pre. induction Hx as [|ev x Hev Hx IH]; intros [|ev' pre]; simpl; intros E;
    simplify_eq/=.
  - by left.
  - right. by exists pre.
  - by destruct (Hev a d).
  - destruct (IH pre) as [(->&->&->&->)|(z&->&->)]; [done|by left|right; by exists z].
Qed.

Lemma attempted_split b tr res pre a d post :
  attempted b tr res → tr = pre ++ Attempted a d :: post → pre = [] ∧ a = b ∧ post = [].
Proof.
  intros Hatt ->. inversion Hatt as [m E|d' r' _ _ E]; [by destruct pre|].
  destruct pre as [|? [|]]; simplify_eq/=; done.
Qed.

(** Every attempt is the first, cleared before, or the second, after a denial and cleared
    again. *)
Lemma course_attempt tr e pre a d post :
  course tr e → tr = pre ++ Attempted a d :: post →
  (a = initial_attempt tool turn policy ∧ ∃ already, cleared pre already) ∨
  (a = retry_attempt tool turn ∧ ∃ tr0 already tr2,
     pre = tr0 ++ Attempted (initial_attempt tool turn policy) true :: tr2 ∧
     cleared tr0 already ∧ recleared tr2 already).
Proof.
  intros [tr1 e' Ha|tr1 already tr2 res Hc Hatt|tr1 already tr2 e' Hc Ha
         |tr1 already tr2 tr3 res Hc Hre Hatt] E.
  - by destruct (no_attempt_in _ _ _ _ _ (answered_questions _ _ Ha) E).
  - destruct Hatt as [m|d' res' _ _].
    + rewrite app_nil_r in E.
      by destruct (no_attempt_in _ _ _ _ _ (cleared_questions _ _ Hc) E).
    + apply split_at_attempt in E as [(->&->&_)|(z&_&Ez)]; [|by destruct z|by eapply cleared_questions].
      left. eauto.
  - apply split_at_attempt in E as [(->&->&_)|(z&_&Ez)]; [left; eauto| |by eapply cleared_questions].
    by destruct (no_attempt_in _ _ _ _ _ (answered_questions _ _ Ha) Ez).
  - apply split_at_attempt in E as [(->&->&_)|(z&->&Ez)]; [left; eauto| |by eapply cleared_questions].
    right. destruct Hatt as [m|d' res' _ _].
    + rewrite app_nil_r in Ez.
      by destruct (no_attempt_in _ _ _ _ _ (recleared_questions _ _ Hre) Ez).
    + apply split_at_attempt in Ez as [(->&->&_)|(z'&_&Ez)];
        [|by destruct z'|by eapply recleared_questions].
      split; [done|]. by eauto 8.
Qed.
End course.

(** ** The tools *)

(** A tool that is never retried without asking in the mode that never asks. *)
Definition usual_tool (tool : ToolRuntime) : Prop :=
  tool_should_bypass_approval tool = should_bypass_approval ∧
  tool_wants_no_sandbox_approval tool Never = false.

Lemma exec_tool_usual answer perms guardian_ok network_spec :
  usual_tool (exec_tool answer perms guardian_ok network_spec).
Proof. done. Qed.
Lemma apply_patch_tool_usual answer guardian_ok : usual_tool (apply_patch_tool answer guardian_ok).
Proof. done. Qed.

(** ** Properties *)

(** An attempt in the sandbox that the policy selects. *)
Definition as_selected (tool : ToolRuntime) (turn : TurnContext) (a : SandboxAttempt) : Prop :=
  sandbox_requested a = wanted_sandbox tool turn ∧ sandbox a = selected_sandbox tool turn.

Lemma make_attempt_wanted tool turn exe :
  as_selected tool turn (make_attempt tool turn (wanted_sandbox tool turn) exe).
Proof.
  unfold as_selected, make_attempt. simpl. split; [done|]. unfold wanted_sandbox, selected_sandbox, select_initial.
  by destruct (should_sandbox _ _ _ _).
Qed.

Lemma answered_consents tr : answered tr None → Exists consents tr.
Proof. intros Ha. inversion Ha. apply Exists_app. right. by constructor. Qed.

Lemma attempt_sandboxed tool turn policy s s' r pre a d post :
  usual_tool tool → run tool turn policy s = (s', r) →
  trace s' = trace s ++ pre ++ Attempted a d :: post →
  as_selected tool turn a ∨
  (has_denied_read_restrictions (file_system_sandbox_policy (permission_profile turn)) = false ∧
   ((∃ p, requirement tool turn policy = Skip true p) ∨
    tool_sandbox_permissions tool = RequireEscalated ∨
    (Exists consents pre ∧ ∃ a', Attempted a' true ∈ pre))).
Proof.
  intros [Hbypass Hnever] Hrun Htr. destruct (run_course tool turn policy _ _ _ Hrun) as (tr&Htr'&Hc).
  rewrite Htr' in Htr. apply app_inv_head in Htr.
  destruct (course_attempt _ _ _ _ _ _ _ _ _ Hc Htr)
    as [(->&already&Hcl)|(->&tr0&already&tr2&->&Hcl&Hre)].
  - unfold initial_attempt, sandbox_override_for_first_attempt, unsandboxed_execution_allowed.
    destruct (has_denied_read_restrictions _) eqn:Hden; [left; apply make_attempt_wanted|]. simpl.
    destruct (requirement tool turn policy) as [[]| |] eqn:Hreq;
      [right; by eauto| | |];
      (destruct (tool_sandbox_permissions tool) eqn:Hperm; simpl;
        [left; apply make_attempt_wanted|right; by eauto|left; apply make_attempt_wanted]).
  - unfold retry_attempt, unsandboxed_execution_allowed.
    destruct (has_denied_read_restrictions _) eqn:Hden; [left; apply make_attempt_wanted|].
    right. split; [done|]. right; right. split; [|exists (initial_attempt tool turn policy)].
    2: { apply elem_of_app. right. by left. }
    destruct Hre as [Ha|(->&Hb&Hw)].
    { apply Exists_app. right. apply Exists_cons. right. by apply answered_consents. }
    apply Exists_app. left. destruct Hcl as [(->&->&_)|(->&Ha&_)]; [|by apply answered_consents].
    rewrite Hbypass in Hb. by destruct policy; simplify_eq/=; rewrite Hnever in Hw.
Qed.

(** Attempts of a trace. *)
Definition attempts (tr : list event) : list (SandboxAttempt * bool) :=
  omap (λ ev, match ev with Attempted a d => Some (a, d) | _ => None end) tr.

Lemma attempts_questions tr : Forall question tr → attempts tr = [].
Proof.
  induction 1 as [|ev tr Hev _ IH]; simpl; [done|]. destruct ev as [| |a d]; [done..|].
  by destruct (Hev a d).
Qed.
Lemma attempts_app tr tr' : attempts (tr ++ tr') = attempts tr ++ attempts tr'.
Proof. apply omap_app. Qed.
Lemma attempts_attempted a tr res :
  attempted a tr res →
  attempts tr = [] ∧ is_ok res = false ∨ ∃ d, attempts tr = [(a, d)] ∧ (is_ok res = true → d = false).
Proof. intros [m|d res' _ Hok]; [by left|right; eauto]. Qed.

(** A call makes at most two attempts: none, the first, or the first and, only if the
    sandbox denied it, the second.  It succeeds only if its last attempt was made and was not
    denied. *)
Theorem at_most_one_retry tool turn policy s s' r :
  run tool turn policy s = (s', r) →
  ∃ tr, trace s' = trace s ++ tr ∧
  let first := initial_attempt tool turn policy in
  (attempts tr = [] ∨ (∃ d, attempts tr = [(first, d)]) ∨
   ∃ d, attempts tr = [(first, true); (retry_attempt tool turn, d)]) ∧
  (is_ok r = true → ∃ l a, attempts tr = l ++ [(a, false)]).
Proof.
  intros Hrun. destruct (run_course tool turn policy _ _ _ Hrun) as (tr&Htr&Hc).
  exists tr. split; [done|]. intros first. assert (is_ok r = bool_decide (error_of r = None)) as ->.
  { by destruct r. }
  destruct Hc as [tr1 e Ha|tr1 already tr2 res Hcl Hatt|tr1 already tr2 e Hcl Ha
         |tr1 already tr2 tr3 res Hcl Hre Hatt].
  - rewrite (attempts_questions tr1) by (by eapply answered_questions). split; [by left|done].
  - rewrite attempts_app, (attempts_questions tr1) by (by eapply cleared_questions). simpl.
    destruct (attempts_attempted _ _ _ Hatt) as [[-> Hok]|(d&->&Hok)].
    + split; [by left|]. by destruct res.
    + split; [by eauto|]. destruct res; [|done]. rewrite Hok by done. intros _. by exists [], first.
  - rewrite attempts_app, (attempts_questions tr1) by (by eapply cleared_questions). simpl.
    rewrite (attempts_questions tr2) by (by eapply answered_questions). split; [by eauto|done].
  - rewrite attempts_app, (attempts_questions tr1) by (by eapply cleared_questions). simpl.
    rewrite attempts_app, (attempts_questions tr2) by (by eapply recleared_questions). simpl.
    destruct (attempts_attempted _ _ _ Hatt) as [[-> Hok]|(d&->&Hok)].
    + split; [by eauto|]. by destruct res.
    + split; [by eauto|]. destruct res; [|done]. rewrite Hok by done.
      intros _. by exists [(first, true)], (retry_attempt tool turn).
Qed.

(** Where a refusal is. *)
Definition kept (ev : event) : Prop := ¬ refuses ev.

Lemma silent_kept pre : Forall silent pre → Forall kept pre.
Proof. intros Hs. eapply Forall_impl; [exact Hs|]. by intros ? [? ->] ?. Qed.
Lemma consents_kept ev : consents ev → kept ev.
Proof. by destruct ev as [? [[]|]|? ? d|]; simpl; unfold kept; simpl; [..|destruct (granted d)|]; auto. Qed.
Lemma answered_yes_kept tr : answered tr None → Forall kept tr.
Proof.
  intros Ha. inversion Ha as [pre ev Hs Hev| |]; subst. apply Forall_app.
  auto using silent_kept, consents_kept.
Qed.
Lemma cleared_kept tool turn policy tr already : cleared tool turn policy tr already → Forall kept tr.
Proof. intros [(_&->&_)|(_&Ha&_)]; [constructor|by apply answered_yes_kept]. Qed.
Lemma recleared_kept tool policy tr already : recleared tool policy tr already → Forall kept tr.
Proof. intros [Ha|(->&_)]; [by apply answered_yes_kept|constructor]. Qed.
Lemma attempted_kept a tr res : attempted a tr res → Forall kept tr.
Proof. intros [m|d res' _ _]; repeat constructor. by intros ?. Qed.

Lemma no_refusal_in x pre ev post : Forall kept x → x = pre ++ ev :: post → refuses ev → False.
Proof. intros Hx -> Hev. by apply Forall_app in Hx as [_ [? _]%Forall_cons]. Qed.

Lemma refusal_after x y pre ev post :
  Forall kept x → x ++ y = pre ++ ev :: post → refuses ev → ∃ z, y = z ++ ev :: post.
Proof.
  intros Hx. revert pre. induction Hx as [|x0 x Hx0 Hx IH]; intros pre E Hev; simpl in E; [by exists pre|].
  destruct pre as [|p0 pre]; simplify_eq/=; [by destruct Hx0|]. by apply (IH pre).
Qed.

Lemma answered_refusal tr e pre ev post :
  answered tr e → tr = pre ++ ev :: post → refuses ev → post = [] ∧ ∃ m, e = Some (Rejected m).
Proof.
  intros [pre' ev' Hs Hev'|pre' ev' m Hs Hev'|pre' m Hs] E Hev.
  - exfalso. eapply no_refusal_in; [|exact E|done]. apply Forall_app.
    auto using silent_kept, consents_kept.
  - destruct (refusal_after _ _ _ _ _ (silent_kept _ Hs) E Hev) as [[|? [|]] Ez]; simplify_eq/=.
    by eauto.
  - exfalso. by eapply no_refusal_in; [apply silent_kept|exact E|].
Qed.

(** C25. A refusal is final: once a hook, the automatic reviewer or the user has refused,
    nothing more is asked or run and the call is rejected. *)
Theorem refusal_is_final tool turn policy s s' r pre ev post :
  run tool turn policy s = (s', r) → trace s' = trace s ++ pre ++ ev :: post → refuses ev →
  post = [] ∧ ∃ m, r = Err (Rejected m).
Proof.
  intros Hrun Htr Hev. destruct (run_course tool turn policy _ _ _ Hrun) as (tr&Htr'&Hc).
  rewrite Htr' in Htr. apply app_inv_head in Htr.
  assert (post = [] ∧ ∃ m, error_of r = Some (Rejected m)) as [-> [m Hm]].
  2: { split; [done|]. exists m. by destruct r; simplify_eq/=. }
  destruct Hc as [tr1 e Ha|tr1 already tr2 res Hcl Hatt|tr1 already tr2 e Hcl Ha
         |tr1 already tr2 tr3 res Hcl Hre Hatt].
  - by eapply answered_refusal.
  - exfalso. eapply no_refusal_in; [|exact Htr|done]. apply Forall_app.
    eauto using cleared_kept, attempted_kept.
  - apply refusal_after in Htr as [z Ez]; [|by eapply cleared_kept|done].
    destruct z; simplify_eq/=; [done|]. by eapply answered_refusal.
  - exfalso. eapply no_refusal_in; [|exact Htr|done].
    rewrite Forall_app, Forall_cons, Forall_app.
    split_and!; [by eapply cleared_kept|by intros ?|by eapply recleared_kept|by eapply attempted_kept].
Qed.

(** ** Composition with the decisions before the call *)

(** An attempt is made only on a requirement that does not forbid it, and without consent only
    on one that skips the question. *)
Lemma attempt_cleared tool turn policy s s' r pre a d post :
  run tool turn policy s = (s', r) → trace s' = trace s ++ pre ++ Attempted a d :: post →
  (∀ m, requirement tool turn policy ≠ ForbiddenExec m) ∧
  (Exists consents pre ∨ ∃ b p, requirement tool turn policy = Skip b p).
Proof.
  intros Hrun Htr. destruct (run_course tool turn policy _ _ _ Hrun) as (tr&Htr'&Hc).
  rewrite Htr' in Htr. apply app_inv_head in Htr.
  assert (∃ tr0 already, cleared tool turn policy tr0 already ∧ ∃ z, pre = tr0 ++ z)
    as (tr0&already&[(_&_&(b&p&Hreq)&_)|(_&Ha&Hreq)]&z&->).
  { destruct (course_attempt _ _ _ _ _ _ _ _ _ Hc Htr)
      as [(_&already&Hcl)|(_&tr0&already&tr2&->&Hcl&_)]; [|by eauto].
    exists pre, already. split; [done|]. exists []. by rewrite app_nil_r. }
  - rewrite Hreq. by eauto.
  - split; [done|]. left. apply Exists_app. left. by apply answered_consents.
Qed.

(** A call of one of the tools that are put before the orchestrator with the answer [answer]: a
    command, or a patch. *)
Definition tool_with (answer : ExecApprovalRequirement) (tool : ToolRuntime) : Prop :=
  (∃ perms guardian_ok network_spec, tool = exec_tool answer perms guardian_ok network_spec) ∨
  (∃ guardian_ok, tool = apply_patch_tool answer guardian_ok).

(** C5. When the sandbox is left.  Every attempt of a shell command or a patch runs in the
    sandbox that the policy selects for it, unless the policy denies no reads and one of three
    things holds: the answer with which the call was put before the orchestrator waives the
    sandbox (the exec policy gives it only where rules allow every part of the command, a patch
    never gets it); the call asked for escalated permissions, and a hook, the automatic reviewer
    or the user consented before the attempt, or the answer was that it runs without asking; or
    an earlier attempt was denied by the sandbox, and one of them consented before this attempt,
    to the call itself or, after the denial, to the retry. *)
Theorem sandbox_left_by_answer_or_consent answer tool turn policy s s' r pre a d post :
  tool_with answer tool → run tool turn policy s = (s', r) →
  trace s' = trace s ++ pre ++ Attempted a d :: post →
  as_selected tool turn a ∨
  (has_denied_read_restrictions (file_system_sandbox_policy (permission_profile turn)) = false ∧
   ((∃ p, answer = Skip true p) ∨
    (tool_sandbox_permissions tool = RequireEscalated ∧
     (Exists consents pre ∨ ∃ p, answer = Skip false p)) ∨
    (Exists consents pre ∧ ∃ a', Attempted a' true ∈ pre))).
Proof.
  intros Htool Hrun Htr.
  assert (usual_tool tool ∧ requirement tool turn policy = answer) as [Husual Hreq].
  { destruct Htool as [(?&?&?&->)|(?&->)]; by split. }
  destruct (attempt_sandboxed _ _ _ _ _ _ _ _ _ _ Husual Hrun Htr) as [?|[Hden Hout]]; [by left|].
  destruct (attempt_cleared _ _ _ _ _ _ _ _ _ _ Hrun Htr) as [_ Hcl]. rewrite Hreq in *.
  right. split; [done|]. destruct Hout as [?|[Hperm|?]]; [by left| |by auto].
  destruct Hcl as [?|([]&p&->)]; [by auto|by eauto|]. right; left. by eauto.
Qed.

(** What is left when the answer does not forbid the command. *)
Lemma meaning_not_forbidden env ts p req answer c :
  answer_meaning env ts p req answer → (∀ m, answer ≠ ForbiddenExec m) →
  c ∈ commands (commands_for_exec_policy ts (req_command req)) →
  ¬ ruled env p (request_fallback ts req) c Forbidden.
Proof.
  intros Hm Hnot Hc Hf. destruct answer as [b q|m q|m]; simpl in Hm; [|by destruct Hm as [Hno _]; apply Hno; exists c|by destruct (Hnot m)].
  destruct Hm as [Hall _]. specialize (Hall c Hc).
  apply verdict_ruled in Hf, Hall. by pose proof (verdict_unique _ _ _ _ _ _ Hf Hall).
Qed.

(** C4. From the rules to the run.  If a command with the answer of the exec policy is ever
    run, no part of it is forbidden by the rules and the heuristics, and either all parts are
    allowed by them or someone consented before; and if it is run in another sandbox than the
    policy selects, then the policy denies no reads, and rules allow every part, or escalated
    permissions were requested, or an earlier attempt was denied by the sandbox and someone
    consented, before or after that denial. *)
Theorem command_runs_by_rule_or_consent env ts join p req answer perms guardian_ok network_spec
    turn policy s s' r pre a d post :
  let tool := exec_tool answer perms guardian_ok network_spec in
  let cmds := commands (commands_for_exec_policy ts (req_command req)) in
  let decided := ruled env p (request_fallback ts req) in
  create_exec_approval_requirement_for_command env ts join p req = Some answer →
  run tool turn policy s = (s', r) → trace s' = trace s ++ pre ++ Attempted a d :: post →
  (∀ c, c ∈ cmds → ¬ decided c Forbidden) ∧
  (Exists consents pre ∨ ∀ c, c ∈ cmds → decided c Allow) ∧
  (as_selected tool turn a ∨
   (has_denied_read_restrictions (file_system_sandbox_policy (permission_profile turn)) = false ∧
    ((∀ c, c ∈ cmds → allowed_by_rule env p c) ∨ perms = RequireEscalated ∨
     Exists consents pre ∧ ∃ a', Attempted a' true ∈ pre))).
Proof.
  intros tool cmds decided Hcreate Hrun Htr.
  destruct (create_meaning env ts join p req) as (answer'&Hcreate'&Hm). simplify_eq.
  destruct (attempt_cleared _ _ _ _ _ _ _ _ _ _ Hrun Htr) as [Hnot Hcl].
  split_and!.
  - intros c Hc. exact (meaning_not_forbidden _ _ _ _ _ _ Hm Hnot Hc).
  - destruct Hcl as [?|(b&q&Hreq)]; [by left|right]. change (answer = Skip b q) in Hreq. rewrite Hreq in Hm. apply Hm.
  - destruct (attempt_sandboxed _ _ _ _ _ _ _ _ _ _ (exec_tool_usual _ _ _ _) Hrun Htr)
      as [?|[Hden [[q Hreq]|[?|?]]]]; [by auto| |by auto 6..].
    change (answer = Skip true q) in Hreq. rewrite Hreq in Hm. right. split; [done|]. left. by apply Hm.
Qed.

(** From the assessment of a patch to its application.  A patch is applied without
    consent only if all its changes lie within the writable paths, and then in the sandbox that
    the policy selects. *)
Theorem patch_runs_inside_or_with_consent {path} h (to_abs_path : path → option (list Component))
    turn fs action answer auto guardian_ok policy s s' r pre a d post :
  let tool := apply_patch_tool answer guardian_ok in
  apply_patch h to_abs_path turn fs action = Ok (answer, auto) →
  run tool turn policy s = (s', r) → trace s' = trace s ++ pre ++ Attempted a d :: post →
  Exists consents pre ∨
  PatchVerify.is_write_patch_constrained_to_writable_paths h to_abs_path action fs
    (PatchVerify.action_cwd action) = true ∧ as_selected tool turn a.
Proof.
  intros tool Happly Hrun Htr.
  destruct (attempt_cleared _ _ _ _ _ _ _ _ _ _ Hrun Htr) as [_ [?|(b&q&Hreq)]]; [by left|].
  change (answer = Skip b q) in Hreq.
  destruct (attempt_sandboxed _ _ _ _ _ _ _ _ _ _ (apply_patch_tool_usual _ _) Hrun Htr)
    as [Hsel|[_ Hout]].
  - right. split; [|done]. unfold apply_patch in Happly.
    destruct (PatchVerify.assess_patch_safety _ _ _ _ _ _ _ _ _) eqn:Hassess; simplify_eq/=.
    by apply PatchVerify.auto_approve_inv in Hassess as [? _].
  - left. destruct Hout as [[q' Hq]|[Hperm|[? _]]]; [|done|done].
    change (answer = Skip true q') in Hq. unfold apply_patch in Happly.
    by repeat case_match; simplify_eq.
Qed.
End run.

(** ** Examples *)

(** A session in which hooks are silent, everyone approves, and the sandbox denies. *)
#[local] Instance ex_session (answer : ReviewDecision) : Session unit unit := {
  run_permission_request_hooks _ w := (w, None);
  review_approval_request _ w := (w, answer);
  guardian_rejection_message w := (w, lit "no");
  start_approval_async _ _ w := (w, answer);
  begin_network_approval _ _ w := (w, Ok None);
  finish_immediate_network_approval w := (w, Ok tt);
  finish_deferred_network_approval w := (w, Ok tt);
  run_tool a _ w :=
    (w, if sandbox_requested a then Err (Codex (CodexSandbox (SandboxDenied [] None))) else Ok tt) }.

Definition ex_turn (policy : AskForApproval) (profile : PermissionProfile) : TurnContext :=
  mkTurn false profile PatchVerify.LevelDisabled false None ReviewByUser policy PatchVerify.Linux
    (lit "c1").
Definition ex_workspace : PermissionProfile :=
  Managed (ManagedRestricted (entries PatchVerify.ex_ws) None) NetRestricted.
Definition ex_run (answer : ReviewDecision) (tool : ToolRuntime) (policy : AskForApproval)
    (profile : PermissionProfile) : list event * result ToolError (unit * bool) :=
  let '(s, r) := run (Out := unit) (H := ex_session answer) tool (ex_turn policy profile) policy
                   (mkState tt []) in
  (trace s, r).

(** A command that asks for escalated permissions, in a profile that lets files be written
    everywhere but the network be used nowhere: the profile wants the sandbox, which cuts off
    the network, but no one is asked and the command runs without it. *)
Definition ex_offline : PermissionProfile := Managed ManagedUnrestricted NetRestricted.
Definition ex_escalated : ExecApprovalRequest :=
  mkRequest [lit "curl"; lit "x.org"] OnRequest ex_offline RequireEscalated None.
Example escalation_leaves_network_sandbox :
  let tool := exec_tool (Skip false (Some [lit "curl"; lit "x.org"])) RequireEscalated true false in
  create_exec_approval_requirement_for_command ex_env ex_parser (λ _, None) empty_policy ex_escalated
    = exec_approval_requirement tool ∧
  wanted_sandbox tool (ex_turn OnRequest ex_offline) = true ∧
  ∃ a, ex_run Denied tool OnRequest ex_offline = ([Attempted a false], Ok (tt, false)) ∧
       sandbox a = NoSandbox.
Proof. vm_compute. split_and!; [done|done|]. by eexists. Qed.

Definition ex_prompt : ToolRuntime := exec_tool (NeedsApproval None None) UseDefault true false.
Definition ex_first : SandboxAttempt :=
  initial_attempt ex_prompt (ex_turn UnlessTrusted ex_workspace) UnlessTrusted.
Definition ex_second : SandboxAttempt := retry_attempt ex_prompt (ex_turn UnlessTrusted ex_workspace).
Example ex_run_approved :
  ex_run Approved ex_prompt UnlessTrusted ex_workspace =
    ([Hooked (lit "c1") None; Reviewed User None Approved; Attempted ex_first true;
      Attempted ex_second false], Ok (tt, false)).
Proof. vm_compute. reflexivity. Qed.

Definition ex_state (answer : ReviewDecision) (tool : ToolRuntime) (policy : AskForApproval)
    (profile : PermissionProfile) : state (W := unit) :=
  (run (Out := unit) (H := ex_session answer) tool (ex_turn policy profile) policy
     (mkState tt [])).1.
Definition ex_asked (answer : ReviewDecision) : list event :=
  [Hooked (lit "c1") None; Reviewed User None answer].

Lemma sandbox_left_by_answer_or_consent_witness :
  as_selected ex_prompt (ex_turn UnlessTrusted ex_workspace) ex_second ∨
  (has_denied_read_restrictions (file_system_sandbox_policy ex_workspace) = false ∧
   ((∃ p, NeedsApproval None None = Skip true p) ∨
    (tool_sandbox_permissions ex_prompt = RequireEscalated ∧
     (Exists consents (ex_asked Approved ++ [Attempted ex_first true]) ∨
      ∃ p, NeedsApproval None None = Skip false p)) ∨
    (Exists consents (ex_asked Approved ++ [Attempted ex_first true]) ∧
     ∃ a', Attempted a' true ∈ ex_asked Approved ++ [Attempted ex_first true]))).
Proof.
  apply (sandbox_left_by_answer_or_consent (H := ex_session Approved) (NeedsApproval None None) ex_prompt
    (ex_turn UnlessTrusted ex_workspace) UnlessTrusted (mkState tt [])
    (ex_state Approved ex_prompt UnlessTrusted ex_workspace) (Ok (tt, false))
    (ex_asked Approved ++ [Attempted ex_first true]) ex_second false []).
  - left. by exists UseDefault, true, false.
  - vm_compute. reflexivity.
  - vm_compute. reflexivity.
Defined.

Lemma refusal_is_final_witness :
  ∃ m, ex_run Denied ex_prompt UnlessTrusted ex_workspace = (ex_asked Denied, Err (Rejected m)).
Proof.
  destruct (refusal_is_final (H := ex_session Denied) ex_prompt (ex_turn UnlessTrusted ex_workspace)
    UnlessTrusted (mkState tt []) (ex_state Denied ex_prompt UnlessTrusted ex_workspace)
    (Err (Rejected (lit "rejected by user"))) [Hooked (lit "c1") None] (Reviewed User None Denied) [])
    as [_ [m Hm]].
  - vm_compute. reflexivity.
  - vm_compute. reflexivity.
  - reflexivity.
  - exists m. rewrite <-Hm. vm_compute. reflexivity.
Defined.

Lemma at_most_one_retry_witness :
  ∃ tr, trace (ex_state Approved ex_prompt UnlessTrusted ex_workspace) = tr ∧
    ∃ l a, attempts tr = l ++ [(a, false)].
Proof.
  destruct (at_most_one_retry (H := ex_session Approved) ex_prompt (ex_turn UnlessTrusted ex_workspace)
    UnlessTrusted (mkState tt []) (ex_state Approved ex_prompt UnlessTrusted ex_workspace)
    (Ok (tt, false))) as (tr&Htr&_&Hlast).
  - vm_compute. reflexivity.
  - exists tr. split; [exact Htr|]. apply Hlast. reflexivity.
Defined.

Definition ex_untrusted (command : list (list N)) : ExecApprovalRequest :=
  mkRequest command UnlessTrusted ex_workspace UseDefault None.
Definition ex_make : ToolRuntime :=
  exec_tool (NeedsApproval None (Some [lit "make"])) UseDefault true false.
Lemma command_runs_by_rule_or_consent_witness :
  Exists consents (ex_asked Approved) ∨
  ∀ c, c ∈ [[lit "make"]] →
    ruled ex_env empty_policy (request_fallback ex_parser (ex_untrusted [lit "make"])) c Allow.
Proof.
  destruct (command_runs_by_rule_or_consent (H := ex_session Approved) ex_env ex_parser (λ _, None)
    empty_policy (ex_untrusted [lit "make"]) (NeedsApproval None (Some [lit "make"])) UseDefault true
    false (ex_turn UnlessTrusted ex_workspace) UnlessTrusted (mkState tt [])
    (ex_state Approved ex_make UnlessTrusted ex_workspace) (Ok (tt, false)) (ex_asked Approved)
    (initial_attempt ex_make (ex_turn UnlessTrusted ex_workspace) UnlessTrusted) true
    [Attempted (retry_attempt ex_make (ex_turn UnlessTrusted ex_workspace)) false])
    as (_&Hconsent&_).
  - vm_compute. reflexivity.
  - vm_compute. reflexivity.
  - vm_compute. reflexivity.
  - exact Hconsent.
Defined.

Definition ex_patch_tool : ToolRuntime := apply_patch_tool (Skip false None) true.
Lemma patch_runs_inside_or_with_consent_witness :
  Exists consents [] ∨
  PatchVerify.is_write_patch_constrained_to_writable_paths (PermissionLaws.ex_host true)
    PatchVerify.ex_to_abs PatchVerify.ex_inside_action PatchVerify.ex_ws ApplyPatch.ex_dir = true ∧
  as_selected ex_patch_tool (ex_turn OnRequest ex_workspace)
    (initial_attempt ex_patch_tool (ex_turn OnRequest ex_workspace) OnRequest).
Proof.
  apply (patch_runs_inside_or_with_consent (H := ex_session Denied) (PermissionLaws.ex_host true)
    PatchVerify.ex_to_abs (ex_turn OnRequest ex_workspace) PatchVerify.ex_ws
    PatchVerify.ex_inside_action (Skip false None) true true OnRequest (mkState tt [])
    (ex_state Denied ex_patch_tool OnRequest ex_workspace) (Err (Rejected (lit "rejected by user"))) []
    (initial_attempt ex_patch_tool (ex_turn OnRequest ex_workspace) OnRequest) true
    [Hooked (lit "c1:retry") None;
     Reviewed User (Some (lit "command failed; retry without sandbox?")) Denied]).
  - vm_compute. reflexivity.
  - vm_compute. reflexivity.
  - vm_compute. reflexivity.
Defined.
End OrchestratorLaws.
