(* ===== verification/ApprovalCache.v ===== *)
(** * Remembered approvals (core/src/tools/sandboxing.rs, core/src/command_canonicalization.rs)

    The user may approve a command or a patch for the rest of the session.  [ApprovalStore]
    remembers the keys of what was approved so; requests whose keys are all remembered are not
    put to the user.  Requests overlap: while one waits for the user, others are asked and
    answered.  The keys of commands name them in a canonical form, which makes the same command
    given to different shells the same key. *)

From stdpp Require Import prelude strings list gmap relations.
From S2P Require Import Prelude RustStr AbsolutePath ShellParse Permissions ExecApproval Orchestrator.

Module ApprovalCache.
Import AbsolutePath ShellParse Permissions ExecApproval Orchestrator.

(** ** PowerShell invocations (shell-command/src/powershell.rs) *)

Definition POWERSHELL_FLAGS : list (list N) :=
  [lit "-nologo"; lit "-noprofile"; lit "-command"; lit "-c"].
Definition UTF8_OUTPUT_PREFIX : str :=
  lit "try { [Console]::OutputEncoding=[System.Text.Encoding]::UTF8 } catch {}" ++ [10%N].

(** The loop over the flags: the argument after the first [-Command] or [-c]. *)
Fixpoint powershell_script (args : list (list N)) : option (list N) :=
  match args with
  | flag :: ((script :: _) as rest) =>
      if negb (bool_decide (to_ascii_lowercase flag ∈ POWERSHELL_FLAGS)) then None
      else if eq_ignore_ascii_case flag (lit "-Command") || eq_ignore_ascii_case flag (lit "-c")
      then Some script
      else powershell_script rest
  | _ => None
  end.

Definition extract_powershell_command (command : list (list N)) : option (list N * list N) :=
  if length command <? 3 then None
  else match command with
       | [] => None
       | shell :: args =>
           match detect_shell_type shell with
           | Some PowerShell => script ← powershell_script args; Some (shell, script)
           | _ => None
           end
       end.

Definition prefix_powershell_script_with_utf8 (command : list (list N)) : list (list N) :=
  match extract_powershell_command command with
  | None => command
  | Some (_, script) =>
      let script := if starts_with UTF8_OUTPUT_PREFIX (trim_start script) then script
                    else UTF8_OUTPUT_PREFIX ++ script in
      take (length command - 1) command ++ [script]
  end.

(** ** Canonical commands *)

Definition CANONICAL_BASH_SCRIPT_PREFIX : list N := lit "__codex_shell_script__".
Definition CANONICAL_POWERSHELL_SCRIPT_PREFIX : list N := lit "__codex_powershell_script__".

Section canonical.
Variable try_parse_shell : str → option Node.

Definition canonicalize_command_for_approval (command : list (list N)) : list (list N) :=
  match parse_shell_lc_plain_commands try_parse_shell command with
  | Some [single_command] => single_command
  | _ =>
      match extract_bash_command command with
      | Some (_, script) =>
          [CANONICAL_BASH_SCRIPT_PREFIX; default [] (command !! 1); script]
      | None =>
          match extract_powershell_command command with
          | Some (_, script) => [CANONICAL_POWERSHELL_SCRIPT_PREFIX; script]
          | None => command
          end
      end
  end.
End canonical.

(** ** The store *)

Notation ApprovalStore := (gmap (list N) ReviewDecision).

Section store.
Context {K : Type}.
(** [serde_json::to_string]. *)
Variable to_json : K → option (list N).

Definition get (store : ApprovalStore) (key : K) : option ReviewDecision :=
  s ← to_json key; store !! s.
Definition put (key : K) (value : ReviewDecision) (store : ApprovalStore) : ApprovalStore :=
  match to_json key with Some s => <[s := value]> store | None => store end.

Definition already_approved (keys : list K) (store : ApprovalStore) : bool :=
  forallb (λ key, match get store key with Some ApprovedForSession => true | _ => false end) keys.
Definition remember (keys : list K) (decision : ReviewDecision) (store : ApprovalStore) :
    ApprovalStore :=
  match decision with
  | ApprovedForSession => foldl (λ store key, put key ApprovedForSession store) store keys
  | _ => store
  end.

(** [fetch] waits for the user without holding the lock: it works on the store, which others
    may change meanwhile, and on the rest of the session. *)
Definition with_cached_approval {W : Type} (keys : list K)
    (fetch : ApprovalStore * W → (ApprovalStore * W) * ReviewDecision) (st : ApprovalStore * W) :
    (ApprovalStore * W) * ReviewDecision :=
  if decide (keys = []) then fetch st
  else if already_approved keys st.1 then (st, ApprovedForSession)
  else
    let '((store, w), decision) := fetch st in
    ((remember keys decision store, w), decision).
End store.

(** ** The keys of the tools (runtimes/shell.rs, unified_exec.rs, apply_patch.rs) *)

Section keys.
Context {path extra : Type}.
Variable try_parse_shell : str → option Node.

(** Of the requests, the fields that the keys are made of. *)
Record ShellRequest : Type := mkShellRequest {
  shell_environment : list N; shell_command : list (list N); shell_cwd : path;
  shell_sandbox_permissions : SandboxPermissions; shell_additional_permissions : option extra }.
Record ApprovalKey : Type := mkApprovalKey {
  key_environment : list N; key_command : list (list N); key_cwd : path;
  key_sandbox_permissions : SandboxPermissions; key_additional_permissions : option extra }.
Definition shell_approval_keys (req : ShellRequest) : list ApprovalKey :=
  [mkApprovalKey (shell_environment req)
     (canonicalize_command_for_approval try_parse_shell (shell_command req)) (shell_cwd req)
     (shell_sandbox_permissions req) (shell_additional_permissions req)].

Record UnifiedExecRequest : Type := mkUnifiedRequest {
  unified_shell : ShellRequest; unified_tty : bool }.
Definition unified_exec_approval_keys (req : UnifiedExecRequest) : list (ApprovalKey * bool) :=
  (λ key, (key, unified_tty req)) <$> shell_approval_keys (unified_shell req).

Record ApplyPatchRequest : Type := mkPatchRequest {
  patch_environment : list N; file_paths : list path }.
Definition apply_patch_approval_keys (req : ApplyPatchRequest) : list (list N * path) :=
  (λ p, (patch_environment req, p)) <$> file_paths req.

(** [start_approval_async] of the tools.  [prompt] asks the user, with a reason and perhaps a
    network context. *)
Section start.
Context {W : Type}.
Variable prompt :
  option str → option NetworkApprovalContext → ApprovalStore * W → (ApprovalStore * W) * ReviewDecision.

Definition or_else (a b : option str) : option str := match a with Some _ => a | None => b end.

Definition shell_start_approval (to_json : ApprovalKey → option (list N)) (req : ShellRequest)
    (justification retry_reason : option str) (network : option NetworkApprovalContext) :
    ApprovalStore * W → (ApprovalStore * W) * ReviewDecision :=
  with_cached_approval to_json (shell_approval_keys req)
    (prompt (or_else retry_reason justification) network).

Definition unified_exec_start_approval (to_json : ApprovalKey * bool → option (list N))
    (cwd_is_native : bool) (req : UnifiedExecRequest) (justification retry_reason : option str)
    (network : option NetworkApprovalContext) (st : ApprovalStore * W) :
    (ApprovalStore * W) * ReviewDecision :=
  if negb cwd_is_native then (st, Abort_)
  else with_cached_approval to_json (unified_exec_approval_keys req)
         (prompt (or_else retry_reason justification) network) st.

Definition apply_patch_start_approval (to_json : list N * path → option (list N))
    (permissions_preapproved : bool) (req : ApplyPatchRequest) (retry_reason : option str)
    (st : ApprovalStore * W) : (ApprovalStore * W) * ReviewDecision :=
  if permissions_preapproved && bool_decide (retry_reason = None) then (st, Approved)
  else match retry_reason with
       | Some reason => prompt (Some reason) None st
       | None => with_cached_approval to_json (apply_patch_approval_keys req) (prompt None None) st
       end.
End start.

(** The tools share one store. *)
Inductive tool_request : Type :=
| RequestShell (req : ShellRequest)
| RequestUnified (req : UnifiedExecRequest)
| RequestPatch (req : ApplyPatchRequest).
Inductive tool_key : Type :=
| KeyShell (key : ApprovalKey)
| KeyUnified (key : ApprovalKey * bool)
| KeyPatch (key : list N * path).
Definition tool_keys (req : tool_request) : list tool_key :=
  match req with
  | RequestShell req => KeyShell <$> shell_approval_keys req
  | RequestUnified req => KeyUnified <$> unified_exec_approval_keys req
  | RequestPatch req => KeyPatch <$> apply_patch_approval_keys req
  end.
End keys.

(** ** Overlapping requests *)

Section session.
Context {K Req : Type}.
Variable to_json : K → option (list N).
Variable approval_keys : Req → list K.

(** The store, the requests put to the user with their answers, and those still open. *)
Record session : Type := mkSession {
  store : ApprovalStore;
  answers : list (Req * ReviewDecision);
  opened : list Req }.
Definition initial : session := mkSession ∅ [] [].

(** Whether a request is put to the user, and what its answer does. *)
Definition must_ask (req : Req) (s : session) : bool :=
  bool_decide (length (approval_keys req) = 0) ||
  negb (already_approved to_json (approval_keys req) (store s)).
Definition ask (req : Req) (s : session) : session :=
  mkSession (store s) (answers s) (req :: opened s).
Definition answer (req : Req) (d : ReviewDecision) (rest : list Req) (s : session) : session :=
  mkSession (remember to_json (approval_keys req) d (store s)) (answers s ++ [(req, d)]) rest.

Inductive step : relation session :=
| step_ask req s : must_ask req s = true → step s (ask req s)
| step_answer req d l1 l2 s : opened s = l1 ++ req :: l2 → step s (answer req d (l1 ++ l2) s).

(** [with_cached_approval] takes these steps: none if the answer is remembered; otherwise
    others may take steps between the question and the answer. *)
Lemma with_cached_approval_steps (req : Req)
    (fetch : ApprovalStore * session → (ApprovalStore * session) * ReviewDecision)
    (s s' w' : session) (d : ReviewDecision) :
  (∀ st' d, fetch (store s, s) = (st', d) →
     rtc step (ask req s) st'.2 ∧ st'.1 = store st'.2 ∧ ∃ l, opened st'.2 = req :: l) →
  with_cached_approval to_json (approval_keys req) fetch (store s, s) = ((store s', w'), d) →
  (w' = s ∧ store s' = store s ∧ d = ApprovedForSession) ∨
  ∃ l, rtc step s (answer req d l w') ∧ store s' = store (answer req d l w').
Proof.
  intros Hfetch Hrun. unfold with_cached_approval in Hrun. simpl in Hrun.
  destruct (decide _) as [Hnil|Hne].
  - right. destruct (Hfetch _ _ Hrun) as (Hsteps&Hst&l&Hl). simpl in *. exists l. split.
    + eapply rtc_l; [apply (step_ask req); unfold must_ask; rewrite Hnil; done|].
      eapply rtc_r; [exact Hsteps|]. by apply (step_answer req d []).
    + simpl. rewrite Hnil, Hst. unfold remember. by destruct d.
  - destruct (already_approved _ _ _) eqn:Happ; [left; by simplify_eq|right].
    destruct (fetch (store s, s)) as [[st w] d'] eqn:Hf. simplify_eq/=.
    destruct (Hfetch _ _ eq_refl) as (Hsteps&Hst&l&Hl). simpl in *. exists l. split.
    + eapply rtc_l; [apply (step_ask req); unfold must_ask; by rewrite Happ, orb_true_r|].
      eapply rtc_r; [exact Hsteps|]. by apply (step_answer req d []).
    + simpl. congruence.
Qed.

(** What was approved for the session. *)
Definition approved_in (l : list (Req * ReviewDecision)) (text : list N) : Prop :=
  ∃ req key, (req, ApprovedForSession) ∈ l ∧ key ∈ approval_keys req ∧ to_json key = Some text.

(** A store that holds exactly some texts, all approved. *)
Definition holds (st : ApprovalStore) (P : list N → Prop) : Prop :=
  ∀ text x, st !! text = Some x ↔ x = ApprovedForSession ∧ P text.

Lemma put_holds (key : K) st P :
  holds st P → holds (put to_json key ApprovedForSession st) (λ text, P text ∨ to_json key = Some text).
Proof.
  intros Hst text x. specialize (Hst text x). unfold put.
  destruct (to_json key) as [j|]; [|naive_solver]. rewrite lookup_insert_Some, Hst. destruct (decide (j = text)); naive_solver.
Qed.
Lemma remember_holds keys st P :
  holds st P →
  holds (remember to_json keys ApprovedForSession st)
    (λ text, P text ∨ ∃ key, key ∈ keys ∧ to_json key = Some text).
Proof.
  unfold remember. revert st P. induction keys as [|key keys IH]; intros st P Hst text x; simpl.
  - rewrite (Hst text x). setoid_rewrite elem_of_nil. naive_solver.
  - rewrite (IH _ _ (put_holds key st P Hst) text x). setoid_rewrite elem_of_cons. naive_solver.
Qed.
Lemma holds_ext st P Q : (∀ text, P text ↔ Q text) → holds st P → holds st Q.
Proof. intros HPQ Hst text x. by rewrite (Hst text x), HPQ. Qed.

Lemma approved_in_snoc l req d text :
  approved_in (l ++ [(req, d)]) text ↔
  approved_in l text ∨ d = ApprovedForSession ∧ ∃ key, key ∈ approval_keys req ∧ to_json key = Some text.
Proof.
  unfold approved_in. setoid_rewrite elem_of_app. setoid_rewrite list_elem_of_singleton. naive_solver.
Qed.

(** The store holds the keys of the requests approved for the session, and no others. *)
Lemma reachable_holds s : rtc step initial s → holds (store s) (approved_in (answers s)).
Proof.
  apply (rtc_ind_r (λ s, holds (store s) (approved_in (answers s)))).
  - intros text x. unfold approved_in. simpl. rewrite lookup_empty. setoid_rewrite elem_of_nil.
    naive_solver.
  - intros s1 s2 _ Hstep IH. destruct Hstep as [req s0 _|req d l1 l2 s0 _]; [done|].
    eapply holds_ext; [intros text; symmetry; apply approved_in_snoc|].
    destruct d; try (eapply holds_ext; [|exact IH]; intros text; split; [by left|by intros [?|[? _]]]).
    eapply holds_ext; [|by apply remember_holds]. simpl. naive_solver.
Qed.

(** A request is remembered exactly if the store holds all its keys. *)
Lemma already_approved_spec s keys :
  rtc step initial s →
  already_approved to_json keys (store s) = true ↔
  ∀ key, key ∈ keys → ∃ text, to_json key = Some text ∧ approved_in (answers s) text.
Proof.
  intros Hs. apply reachable_holds in Hs. unfold already_approved. rewrite forallb_forall.
  setoid_rewrite <-list_elem_of_In. unfold get. split.
  - intros Hall key Hkey. specialize (Hall key Hkey). destruct (to_json key) as [text|]; [|done].
    simpl in Hall. exists text. split; [done|]. destruct (store s !! text) as [x|] eqn:Hx; [|done].
    by apply Hs in Hx as [_ ?].
  - intros Hall key Hkey. destruct (Hall key Hkey) as (text&->&Hin). simpl.
    by rewrite (proj2 (Hs text ApprovedForSession)).
Qed.

(** The texts of keys are the keys. *)
Hypothesis to_json_injective :
  ∀ k k' text, to_json k = Some text → to_json k' = Some text → k = k'.
Hypothesis to_json_total : ∀ k, is_Some (to_json k).

Lemma remembered s req :
  rtc step initial s → approval_keys req ≠ [] →
  must_ask req s = false ↔
  ∀ key, key ∈ approval_keys req →
    ∃ req', (req', ApprovedForSession) ∈ answers s ∧ key ∈ approval_keys req'.
Proof.
  intros Hs Hne. unfold must_ask. rewrite bool_decide_false by (by destruct (approval_keys req)).
  simpl. rewrite negb_false_iff, already_approved_spec by done. split.
  - intros Hall key Hkey. destruct (Hall key Hkey) as (text&Ht&req'&key'&?&?&?).
    exists req'. by rewrite (to_json_injective key key' text).
  - intros Hall key Hkey. destruct (Hall key Hkey) as (req'&?&?). destruct (to_json_total key) as [text Ht].
    exists text. split; [done|]. by exists req', key.
Qed.

(** What is remembered is what was approved.  However requests overlap, a request with
    keys is let through without asking exactly if each of its keys belongs to some request that
    the user approved for the session; so an approval for several files holds for any of
    them, and nothing else is let through. *)
Theorem remembered_iff_approved s req :
  rtc step initial s → approval_keys req ≠ [] →
  must_ask req s = false ↔
  ∀ key, key ∈ approval_keys req →
    ∃ req', (req', ApprovedForSession) ∈ answers s ∧ key ∈ approval_keys req'.
Proof. apply remembered. Qed.
End session.

(** ** What a canonical command stands for *)

Inductive command_form : Type :=
| Words (ws : list (list N))
| BashScript (mode script : list N)
| PowerShellScript (script : list N).

Section forms.
Variable try_parse_shell : str → option Node.

(** What a command is to the user who approves it: words, or a script for a shell. *)
Definition form (command : list (list N)) : command_form :=
  match parse_shell_lc_plain_commands try_parse_shell command with
  | Some [ws] => Words ws
  | _ =>
      match extract_bash_command command, extract_powershell_command command with
      | Some (_, script), _ => BashScript (default [] (command !! 1)) script
      | None, Some (_, script) => PowerShellScript script
      | None, None => Words command
      end
  end.
Definition reserved (ws : list (list N)) : Prop :=
  head ws = Some CANONICAL_BASH_SCRIPT_PREFIX ∨ head ws = Some CANONICAL_POWERSHELL_SCRIPT_PREFIX.

Lemma canonicalize_form a b :
  (∀ ws, form a = Words ws ∨ form b = Words ws → ¬ reserved ws) →
  canonicalize_command_for_approval try_parse_shell a =
    canonicalize_command_for_approval try_parse_shell b → form a = form b.
Proof.
  assert (∀ c, canonicalize_command_for_approval try_parse_shell c =
    match form c with
    | Words ws => ws
    | BashScript mode script => [CANONICAL_BASH_SCRIPT_PREFIX; mode; script]
    | PowerShellScript script => [CANONICAL_POWERSHELL_SCRIPT_PREFIX; script]
    end) as Hcan.
  { intros c. unfold canonicalize_command_for_approval, form. by repeat case_match. }
  intros Hres. rewrite !Hcan. unfold reserved in Hres.
  destruct (form a) as [ws|m sc|sc], (form b) as [ws'|m' sc'|sc']; intros E; try (by simplify_eq);
    exfalso; [subst ws|subst ws|subst ws'|subst ws'];
    (eapply Hres; [first [by left|by right]|]; simpl; auto).
Qed.

Context {path extra : Type}.
Variable to_json : tool_key (path := path) (extra := extra) → option (list N).
Hypothesis to_json_injective :
  ∀ k k' text, to_json k = Some text → to_json k' = Some text → k = k'.
Hypothesis to_json_total : ∀ k, is_Some (to_json k).

Notation request := (tool_request (path := path) (extra := extra)).
Notation keys := (tool_keys (path := path) (extra := extra) try_parse_shell).

End forms.

(** ** PowerShell scripts *)

(** The script does not depend on the last argument unless it is it. *)
Lemma powershell_script_snoc args x y script :
  powershell_script (args ++ [x]) = Some script →
  powershell_script (args ++ [y]) = Some script ∨
  script = x ∧ powershell_script (args ++ [y]) = Some y.
Proof.
  induction args as [|flag [|a rest] IH]; [done| |]; simpl.
  - destruct (negb _); [done|]. destruct (_ || _); [|done]. intros [= <-]. by right.
  - destruct (negb _); [done|]. destruct (_ || _); [by left|]. apply IH.
Qed.

Lemma extract_snoc shell args x script :
  extract_powershell_command (shell :: args ++ [x]) = Some (shell, script) ↔
  1 ≤ length args ∧ detect_shell_type shell = Some PowerShell ∧
  powershell_script (args ++ [x]) = Some script.
Proof.
  unfold extract_powershell_command. simpl. rewrite length_app. simpl.
  destruct (Nat.ltb_spec (S (length args + 1)) 3); [split; [done|lia]|].
  destruct (detect_shell_type shell) as [[]|]; try (split; [done|by intros (_&?&_)]).
  destruct (powershell_script _); simpl; naive_solver lia.
Qed.

Lemma extract_inv command shell script :
  extract_powershell_command command = Some (shell, script) →
  ∃ args x, command = shell :: args ++ [x].
Proof.
  unfold extract_powershell_command. destruct (Nat.ltb_spec (length command) 3) as [|Hlen]; [done|].
  destruct command as [|c cs]; [done|]. destruct (detect_shell_type c) as [[]|]; try done.
  destruct (powershell_script cs); simpl; [|done]. intros [= <- <-].
  destruct cs as [|x args _] using rev_ind; [simpl in Hlen; lia|]. by exists args, x.
Qed.

Definition with_utf8 (script : str) : list N :=
  if starts_with UTF8_OUTPUT_PREFIX (trim_start script) then script
  else UTF8_OUTPUT_PREFIX ++ script.
Lemma with_utf8_idemp script : with_utf8 (with_utf8 script) = with_utf8 script.
Proof.
  unfold with_utf8. destruct (starts_with _ (trim_start script)) eqn:E; [by rewrite E|].
  rewrite trim_start_app_clean by done. by rewrite (proj2 (starts_with_true _ _)) by (by eexists).
Qed.
Lemma prefix_snoc shell args x script :
  extract_powershell_command (shell :: args ++ [x]) = Some (shell, script) →
  prefix_powershell_script_with_utf8 (shell :: args ++ [x]) = shell :: args ++ [with_utf8 script].
Proof.
  intros H. unfold prefix_powershell_script_with_utf8. rewrite H.
  assert (length (shell :: args ++ [x]) - 1 = length (shell :: args)) as ->
    by (simpl; rewrite length_app; simpl; lia).
  change (shell :: args ++ [x]) with ((shell :: args) ++ [x]). by rewrite take_app_length.
Qed.

(** Asking for UTF-8 output twice is asking once. *)
Theorem utf8_prefix_idempotent command :
  prefix_powershell_script_with_utf8 (prefix_powershell_script_with_utf8 command) =
    prefix_powershell_script_with_utf8 command.
Proof.
  destruct (extract_powershell_command command) as [[shell script]|] eqn:He.
  2: { assert (prefix_powershell_script_with_utf8 command = command) as Hid; [|by rewrite !Hid].
       unfold prefix_powershell_script_with_utf8. by rewrite He. }
  destruct (extract_inv _ _ _ He) as (args&x&->). rewrite (prefix_snoc _ _ _ _ He).
  apply extract_snoc in He as (Hlen&Hsh&Hscript).
  destruct (powershell_script_snoc _ _ (with_utf8 script) _ Hscript) as [Hs|[-> Hs]].
  - by rewrite (prefix_snoc _ _ _ script) by (by apply extract_snoc).
  - rewrite (prefix_snoc _ _ _ (with_utf8 x)) by (by apply extract_snoc). by rewrite with_utf8_idemp.
Qed.

(** ** Examples *)

(** Arguments after a PowerShell script, which PowerShell appends to it, are not part of the
    key; and adding the UTF-8 prefix replaces the last of them by the script. *)
Definition ex_listing : list (list N) := [lit "pwsh"; lit "-Command"; lit "ls"].
Definition ex_removal : list (list N) := ex_listing ++ [lit "; rm -r x"].
Example powershell_key_ignores_arguments :
  canonicalize_command_for_approval (λ _, None) ex_removal =
    canonicalize_command_for_approval (λ _, None) ex_listing ∧
  prefix_powershell_script_with_utf8 ex_removal = ex_listing ++ [UTF8_OUTPUT_PREFIX ++ lit "ls"].
Proof. vm_compute. done. Qed.

(** A command approved for the session answers a later question whether it may reach a host,
    whatever the user would say to that; a patch is asked about again. *)
Definition ex_key1 (k : ApprovalKey (path := list N) (extra := unit)) : option (list N) :=
  Some (concat (key_command k)).
Definition ex_refuse (reason : option str) (network : option NetworkApprovalContext)
    (st : ApprovalStore * unit) : (ApprovalStore * unit) * ReviewDecision := (st, Denied).
Definition ex_approve (reason : option str) (network : option NetworkApprovalContext)
    (st : ApprovalStore * unit) : (ApprovalStore * unit) * ReviewDecision := (st, ApprovedForSession).
Definition ex_curl : ShellRequest (path := list N) (extra := unit) :=
  mkShellRequest (lit "local") [lit "curl"; lit "x.org"] (lit "/w") UseDefault None.
Example session_approval_answers_network_question :
  let '(st, _) := shell_start_approval (λ _, None) ex_approve ex_key1 ex_curl None None None (∅, tt) in
  (shell_start_approval (λ _, None) ex_refuse ex_key1 ex_curl None (Some (lit "blocked"))
     (Some (mkNetworkContext (lit "x.org") ProtoHttps)) st).2 = ApprovedForSession ∧
  (apply_patch_start_approval ex_refuse (λ k, Some (k.1 ++ k.2)) true
     (mkPatchRequest (lit "local") [lit "/w/a"]) (Some (lit "denied")) st).2 = Denied.
Proof. vm_compute. done. Qed.

(** An injective text for the keys. *)
Definition ex_perms (p : SandboxPermissions) : list N :=
  match p with UseDefault => [] | RequireEscalated => [0%N] | WithAdditionalPermissions => [1%N] end.
Definition ex_key_text (k : tool_key (path := list N) (extra := unit)) : option (list N) :=
  let shell k := (key_environment k, key_command k, key_cwd k, ex_perms (key_sandbox_permissions k),
                  key_additional_permissions k) in
  let code := match k with
              | KeyShell k => inl (shell k)
              | KeyUnified k => inr (inl (shell k.1, k.2))
              | KeyPatch k => inr (inr k)
              end in
  Some [N.pos (encode code)].
Lemma ex_key_text_injective k k' text :
  ex_key_text k = Some text → ex_key_text k' = Some text → k = k'.
Proof.
  intros <- [= E]. apply (inj encode) in E.
  destruct k as [[? ? ? [] ?]|[[? ? ? [] ?] ?]|], k' as [[? ? ? [] ?]|[[? ? ? [] ?] ?]|]; by simplify_eq/=.
Qed.

Definition ex_shell (command : list (list N)) : ShellRequest (path := list N) (extra := unit) :=
  mkShellRequest (lit "local") command (lit "/w") UseDefault None.
Definition ex_words : ShellRequest := ex_shell [lit "make"; lit "all"].
Definition ex_keys := tool_keys (path := list N) (extra := unit) (λ _, None).
Definition ex_answered : session :=
  answer ex_key_text ex_keys (RequestShell ex_words) ApprovedForSession []
    (ask (RequestShell ex_words) initial).
Lemma ex_answered_reachable : rtc (step ex_key_text ex_keys) initial ex_answered.
Proof.
  eapply rtc_l; [by apply (step_ask _ _ (RequestShell ex_words))|].
  eapply rtc_l; [|apply rtc_refl]. by apply (step_answer _ _ _ _ [] []).
Qed.

Lemma remembered_iff_approved_witness :
  must_ask ex_key_text ex_keys (RequestShell ex_words) ex_answered = false.
Proof.
  apply (remembered_iff_approved ex_key_text ex_keys ex_key_text_injective (λ _, ltac:(by eexists))).
  - apply ex_answered_reachable.
  - discriminate.
  - intros key Hkey. exists (RequestShell ex_words). split; [by left|exact Hkey].
Defined.

End ApprovalCache.
