(* ===== verification/NetworkApproval.v ===== *)
(** * Approval of network access (core/src/tools/network_approval.rs)

    [NetworkApprovalService] decides, for requests that the proxy does not allow by itself,
    whether a command may reach a host.  Many requests are handled at once: the first for a
    host asks, the others wait for its answer.  Each section of code that holds a lock is one
    step of a handler, as is each operation on the [Notify] of a pending approval; between steps
    other handlers run.  No step drops a handler before it ends. *)

From stdpp Require Import prelude strings list gmap relations pretty.
From S2P Require Import Prelude RustStr AbsolutePath Permissions ExecApproval PatchVerify Orchestrator.

Module NetworkApproval.
Import Permissions ExecApproval Orchestrator.

(** ** Data *)

Record HostApprovalKey : Type := mkHostKey {
  host_environment_id : list N; host_host : list N; host_protocol : list N; host_port : N }.
#[global] Instance host_key_eq_dec : EqDecision HostApprovalKey.
Proof. solve_decision. Defined.
#[global] Instance host_key_countable : Countable HostApprovalKey.
Proof.
  refine (inj_countable'
    (λ k, (host_environment_id k, host_host k, host_protocol k, host_port k))
    (λ '(e, h, p, n), mkHostKey e h p n) _).
  by intros [].
Defined.

Definition protocol_key_label (protocol : NetworkApprovalProtocol) : list N :=
  match protocol with
  | ProtoHttp => lit "http"
  | ProtoHttps => lit "https"
  | ProtoSocks5Tcp => lit "socks5-tcp"
  | ProtoSocks5Udp => lit "socks5-udp"
  end.

(** Of the proxy's requests and decisions, what the handler uses. *)
Record NetworkPolicyRequest : Type := mkNetRequest {
  request_protocol : NetworkApprovalProtocol;
  request_host : list N;
  request_port : N;
  request_environment_id : option (list N);
  request_execution_id : option (list N) }.

Definition from_request (request : NetworkPolicyRequest) (environment_id : list N) : HostApprovalKey :=
  mkHostKey environment_id (to_ascii_lowercase (request_host request))
    (protocol_key_label (request_protocol request)) (request_port request).

Inductive PendingApprovalDecision : Type := AllowOnce | AllowForSession | PendingDeny.
Inductive NetworkDecision : Type := NetAllow | NetDeny (reason : list N).
Definition REASON_NOT_ALLOWED : list N := lit "not_allowed".
Definition to_network_decision (d : PendingApprovalDecision) : NetworkDecision :=
  match d with AllowOnce | AllowForSession => NetAllow | PendingDeny => NetDeny (lit "not_allowed") end.

Inductive NetworkApprovalOutcome : Type :=
| DeniedByUser
| DeniedByPolicy (message : list N).
Definition network_approval_outcome_to_result (outcome : option NetworkApprovalOutcome) :
    result ToolError unit :=
  match outcome with
  | Some DeniedByUser => Err (Rejected (lit "rejected by user"))
  | Some (DeniedByPolicy message) => Err (Rejected message)
  | None => Ok tt
  end.

Definition allows_network_approval_flow (policy : AskForApproval) : bool :=
  match policy with Never => false | _ => true end.
Definition permission_profile_allows_network_approval_flow (profile : PermissionProfile) : bool :=
  match profile with Managed _ _ => true | _ => false end.

(** A registered call, without the fields that only the prompts show.  Its cancellation token is
    its own. *)
Record ActiveNetworkApprovalCall : Type := mkCall {
  registration_id : list N; call_environment_id : list N }.

(** ** The service *)

(** The cells of pending approvals are shared with the waiting handlers, also after they leave
    the map; they are numbered as they are made, and named with their key.  [notifications] says
    how often [notify_waiters] of a cell's [Notify] was called. *)
Record service : Type := mkService {
  active_calls : list (list N * ActiveNetworkApprovalCall);
  call_outcomes : gmap (list N) NetworkApprovalOutcome;
  cancelled : gset (list N);
  pending_host_approvals : gmap HostApprovalKey nat;
  cells : list (HostApprovalKey * option PendingApprovalDecision);
  notifications : nat → nat;
  session_approved_hosts : gset HostApprovalKey;
  session_denied_hosts : gset HostApprovalKey }.
Definition new_service : service := mkService [] ∅ ∅ ∅ [] (λ _, 0) ∅ ∅.

Notation calls := (list (list N * ActiveNetworkApprovalCall)).

(** [IndexMap]: [get], [insert] (a known key keeps its place) and [shift_remove]. *)
Fixpoint calls_get (id : list N) (cs : calls) : option ActiveNetworkApprovalCall :=
  match cs with
  | [] => None
  | (k, c) :: cs => if decide (k = id) then Some c else calls_get id cs
  end.
Fixpoint calls_insert (id : list N) (c : ActiveNetworkApprovalCall) (cs : calls) : calls :=
  match cs with
  | [] => [(id, c)]
  | (k, c') :: cs => if decide (k = id) then (k, c) :: cs else (k, c') :: calls_insert id c cs
  end.
Definition calls_remove (id : list N) (cs : calls) : calls := filter (λ e, e.1 ≠ id) cs.

Definition set_calls (cs : calls) (outcomes : gmap (list N) NetworkApprovalOutcome)
    (s : service) : service :=
  mkService cs outcomes (cancelled s) (pending_host_approvals s) (cells s)
    (notifications s) (session_approved_hosts s) (session_denied_hosts s).
Definition cancel (id : list N) (s : service) : service :=
  mkService (active_calls s) (call_outcomes s) ({[id]} ∪ cancelled s) (pending_host_approvals s)
    (cells s) (notifications s) (session_approved_hosts s) (session_denied_hosts s).
Definition set_pending (pending : gmap HostApprovalKey nat)
    (cs : list (HostApprovalKey * option PendingApprovalDecision)) (s : service) : service :=
  mkService (active_calls s) (call_outcomes s) (cancelled s) pending cs
    (notifications s) (session_approved_hosts s) (session_denied_hosts s).
Definition set_hosts (approved denied : gset HostApprovalKey) (s : service) : service :=
  mkService (active_calls s) (call_outcomes s) (cancelled s) (pending_host_approvals s) (cells s)
    (notifications s) approved denied.
Definition notify_waiters (cell : nat) (s : service) : service :=
  mkService (active_calls s) (call_outcomes s) (cancelled s) (pending_host_approvals s) (cells s)
    (λ c, if decide (c = cell) then S (notifications s c) else notifications s c)
    (session_approved_hosts s) (session_denied_hosts s).

Definition sync_session_approved_hosts_to (self other : service) : service :=
  set_hosts (session_approved_hosts self) (session_denied_hosts other) other.

Definition register_call (id environment_id : list N) (s : service) : service :=
  set_calls (calls_insert id (mkCall id environment_id) (active_calls s)) (call_outcomes s) s.
Definition remove_call (id : list N) (s : service) : service * option NetworkApprovalOutcome :=
  (set_calls (calls_remove id (active_calls s)) (delete id (call_outcomes s)) s, call_outcomes s !! id).
Definition finish_call (id : list N) (s : service) : service * result ToolError unit :=
  let '(s, outcome) := remove_call id s in (s, network_approval_outcome_to_result outcome).

Definition resolve_single_active_call (s : service) : option ActiveNetworkApprovalCall :=
  match active_calls s with [(_, call)] => Some call | _ => None end.

Inductive ActiveNetworkApprovalAttribution : Type :=
| AttributionNone
| AttributionSingle (call : ActiveNetworkApprovalCall)
| AttributionAmbiguous.
Definition resolve_active_call_attribution (s : service) : ActiveNetworkApprovalAttribution :=
  match active_calls s with
  | [] => AttributionNone
  | [(_, call)] => AttributionSingle call
  | _ => AttributionAmbiguous
  end.

(** The owner of a request and its environment; [None] refuses the request. *)
Definition resolve_request_attribution (request : NetworkPolicyRequest) (s : service) :
    option (option ActiveNetworkApprovalCall * option (list N)) :=
  match request_execution_id request with
  | Some execution_id =>
      call ← calls_get execution_id (active_calls s);
      let environment_id := default (call_environment_id call) (request_environment_id request) in
      if decide (call_environment_id call = environment_id)
      then Some (Some call, Some environment_id) else None
  | None =>
      match request_environment_id request with
      | Some environment_id =>
          Some (match resolve_active_call_attribution s with
                | AttributionSingle call =>
                    if decide (call_environment_id call = environment_id) then Some call else None
                | AttributionNone | AttributionAmbiguous => None
                end, Some environment_id)
      | None =>
          match resolve_active_call_attribution s with
          | AttributionNone => Some (None, None)
          | AttributionSingle call => Some (Some call, Some (call_environment_id call))
          | AttributionAmbiguous => None
          end
      end
  end.

Definition get_or_create_pending_approval (key : HostApprovalKey) (s : service) :
    service * nat * bool :=
  match pending_host_approvals s !! key with
  | Some existing => (s, existing, false)
  | None =>
      let created := length (cells s) in
      (set_pending (<[key := created]> (pending_host_approvals s)) (cells s ++ [(key, None)]) s,
       created, true)
  end.

Definition record_call_outcome (id : list N) (outcome : NetworkApprovalOutcome) (s : service) :
    service :=
  match calls_get id (active_calls s) with
  | None => s
  | Some _ =>
      match call_outcomes s !! id with
      | Some DeniedByUser => s
      | _ => cancel id (set_calls (active_calls s) (<[id := outcome]> (call_outcomes s)) s)
      end
  end.
Definition record_outcome_for_single_active_call (outcome : NetworkApprovalOutcome) (s : service) :
    service :=
  match resolve_single_active_call s with
  | None => s
  | Some call => record_call_outcome (registration_id call) outcome s
  end.

(** ** Requests the proxy has blocked (core/src/network_policy_decision.rs) *)

Record BlockedRequest : Type := mkBlocked {
  blocked_host : list N; blocked_reason : list N; blocked_decision : option (list N);
  blocked_execution_id : option (list N) }.

Definition parse_network_policy_decision (value : str) : option NetworkPolicyDecision :=
  if decide (value = lit "deny") then Some PolicyDeny
  else if decide (value = lit "ask") then Some PolicyAsk
  else None.

Definition blocked_detail (reason : str) : str :=
  if decide (reason = lit "denied") then
    lit "domain is explicitly denied by policy and cannot be approved from this prompt"
  else if decide (reason = lit "not_allowed") then
    lit "domain is not on the allowlist for the current sandbox mode"
  else if decide (reason = lit "not_allowed_local") then
    lit "local/private network addresses are blocked by the sandbox policy"
  else if decide (reason = lit "method_not_allowed") then
    lit "request method is blocked by the current network mode"
  else if decide (reason = lit "proxy_disabled") then lit "network proxy is disabled"
  else lit "request is blocked by network policy".

Definition quote : str := [34%N].
Definition denied_network_policy_message (blocked : BlockedRequest) : option (list N) :=
  match blocked_decision blocked ≫= parse_network_policy_decision with
  | Some PolicyDeny =>
      let host := trim (blocked_host blocked) in
      if decide (host = []) then Some (lit "Network access was blocked by policy.")
      else Some (lit "Network access to " ++ quote ++ host ++ quote ++ lit " was blocked: "
                 ++ blocked_detail (blocked_reason blocked) ++ lit ".")
  | _ => None
  end.

Definition record_blocked_request (blocked : BlockedRequest) (s : service) : service :=
  match denied_network_policy_message blocked with
  | None => s
  | Some message =>
      match blocked_execution_id blocked with
      | Some execution_id => record_call_outcome execution_id (DeniedByPolicy message) s
      | None => record_outcome_for_single_active_call (DeniedByPolicy message) s
      end
  end.

(** ** Calls of tools *)

Record NetworkApprovalSpec : Type := mkNetworkSpec {
  spec_network : bool; spec_mode : NetworkApprovalMode; spec_environment_id : list N }.

(** [id] is the fresh identifier and [proxy] the result of making a proxy for the execution,
    which is done in the Linux sandbox only. *)
Definition begin_network_approval (id : list N) (proxy : result str unit)
    (managed_network_active : bool) (selected_sandbox : SandboxType)
    (spec : option NetworkApprovalSpec) (s : service) :
    service * result ToolError (option (list N * NetworkApprovalMode)) :=
  match spec with
  | None => (s, Ok None)
  | Some spec =>
      if negb (spec_network spec) then (s, Ok None)
      else if negb managed_network_active then (s, Ok None)
      else
        let register := (register_call id (spec_environment_id spec) s, Ok (Some (id, spec_mode spec))) in
        match selected_sandbox, proxy with
        | PatchVerify.LinuxSeccomp, Err err =>
            (s, Err (Codex (CodexIo (lit "failed to create execution-scoped network proxy: " ++ err))))
        | _, _ => register
        end
  end.

(** [DeferredNetworkApproval::finish]: the first to finish fills the cell. *)
Definition finish_deferred (id : list N) (finish_outcome : option (option NetworkApprovalOutcome))
    (s : service) : service * option (option NetworkApprovalOutcome) * result ToolError unit :=
  match finish_outcome with
  | Some outcome => (s, finish_outcome, network_approval_outcome_to_result outcome)
  | None =>
      let '(s, outcome) := remove_call id s in
      (s, Some outcome, network_approval_outcome_to_result outcome)
  end.

(** ** Handling a request *)

(** What the handler knows of the active turn. *)
Record NetTurn : Type := mkNetTurn {
  primary_environment : option (list N); net_turn : TurnContext }.

Record asking : Type := mkAsking {
  ask_request : NetworkPolicyRequest;
  ask_key : HostApprovalKey;
  ask_owner : option (list N);
  ask_turn : option NetTurn }.

Definition format_network_target (protocol host : str) (port : N) : str :=
  protocol ++ lit "://" ++ host ++ lit ":" ++ lit (pretty port).
Definition policy_denial_message (r : asking) : list N :=
  lit "Network access to " ++ quote ++
  format_network_target (host_protocol (ask_key r)) (request_host (ask_request r))
    (host_port (ask_key r)) ++ quote ++ lit " was blocked by policy.".

(** The turn of a request that may be put to hooks and reviewers. *)
Definition reviewable (r : asking) : option TurnContext :=
  t ← ask_turn r;
  if negb (permission_profile_allows_network_approval_flow (permission_profile (net_turn t))) then None
  else if negb (allows_network_approval_flow (turn_approval_policy (net_turn t))) then None
  else Some (net_turn t).

(** What is left of the handler of the owner once the answer is known: sections that hold a
    lock, in order. *)
Inductive action : Type :=
| SetDecision (d : PendingApprovalDecision)
| NotifyWaiters
| RemovePending
| RecordOutcome (id : list N) (o : NetworkApprovalOutcome)
| RemoveDenied
| InsertApproved
| RemoveApproved
| InsertDenied.

(** [PendingHostApproval::set_decision]: the waiters are notified after the lock is released. *)
Definition set_decision (d : PendingApprovalDecision) : list action := [SetDecision d; NotifyWaiters].

Definition record_owner (r : asking) (o : NetworkApprovalOutcome) : list action :=
  match ask_owner r with Some id => [RecordOutcome id o] | None => [] end.

Definition refuse_plan (r : asking) : list action :=
  set_decision PendingDeny ++ [RemovePending] ++
  record_owner r (DeniedByPolicy (policy_denial_message r)).

Definition hook_plan (r : asking) (d : PermissionRequestDecision) : list action * NetworkDecision :=
  match d with
  | HookAllow => (set_decision AllowOnce ++ [RemovePending], NetAllow)
  | HookDeny message =>
      (record_owner r (DeniedByPolicy message) ++ set_decision PendingDeny ++ [RemovePending],
       NetDeny REASON_NOT_ALLOWED)
  end.

(** The meaning of the review: the decision, whether the host is denied for the session, and
    the outcome of the owner's call.  [guardian_message] is the rationale of the automatic
    reviewer. *)
Definition resolve_review (use_guardian : bool) (guardian_message : list N) (d : ReviewDecision) :
    PendingApprovalDecision * bool * option NetworkApprovalOutcome :=
  match d with
  | Approved | ApprovedExecpolicyAmendment _ => (AllowOnce, false, None)
  | ApprovedForSession => (AllowForSession, false, None)
  | NetworkAmendment a =>
      match amendment_action a with
      | RuleAllow => (AllowForSession, false, None)
      | RuleDeny => (PendingDeny, true, Some DeniedByUser)
      end
  | Denied | Abort_ =>
      (PendingDeny, false,
       Some (if use_guardian then DeniedByPolicy guardian_message else DeniedByUser))
  | TimedOut => (PendingDeny, false, Some (DeniedByPolicy GUARDIAN_TIMEOUT_INSTRUCTIONS))
  end.

Definition review_plan (r : asking) (use_guardian : bool) (guardian_message : list N)
    (d : ReviewDecision) : list action * NetworkDecision :=
  let '(resolved, cache_session_deny, outcome) := resolve_review use_guardian guardian_message d in
  (match outcome with Some o => record_owner r o | None => [] end ++
   match resolved with AllowForSession => [RemoveDenied; InsertApproved] | _ => [] end ++
   (if cache_session_deny then [RemoveApproved; InsertDenied] else []) ++
   set_decision resolved ++ [RemovePending],
   to_network_decision resolved).

Definition run_action (key : HostApprovalKey) (cell : nat) (a : action) (s : service) : service :=
  match a with
  | SetDecision d => set_pending (pending_host_approvals s) (<[cell := (key, Some d)]> (cells s)) s
  | NotifyWaiters => notify_waiters cell s
  | RemovePending => set_pending (delete key (pending_host_approvals s)) (cells s) s
  | RecordOutcome id o => record_call_outcome id o s
  | RemoveDenied => set_hosts (session_approved_hosts s) (session_denied_hosts s ∖ {[key]}) s
  | InsertApproved => set_hosts ({[key]} ∪ session_approved_hosts s) (session_denied_hosts s) s
  | RemoveApproved => set_hosts (session_approved_hosts s ∖ {[key]}) (session_denied_hosts s) s
  | InsertDenied => set_hosts (session_approved_hosts s) ({[key]} ∪ session_denied_hosts s) s
  end.

(** Where a handler is.  [PendingHostApproval::wait_for_decision] is a loop: at its head
    ([Waiting]) the future [notified] is made, which remembers how many notifications there were
    ([seen]); the decision is looked at ([Checking]); and the future is awaited ([Parked]), which
    ends when [notify_waiters] was called since it was made, and then the loop starts again. *)
Inductive pc : Type :=
| Requested (request : NetworkPolicyRequest)
| Keyed (r : asking)
| NotDenied (r : asking)
| NotApproved (r : asking)
| Waiting (key : HostApprovalKey) (cell : nat)
| Checking (key : HostApprovalKey) (cell : nat) (seen : nat)
| Parked (key : HostApprovalKey) (cell : nat) (seen : nat)
| Owning (r : asking) (cell : nat)
| Asked (r : asking) (cell : nat)
| Finishing (key : HostApprovalKey) (cell : nat) (acts : list action) (decision : NetworkDecision)
| Answered (key : option HostApprovalKey) (decision : NetworkDecision).

(** What a step learns from outside, and what is recorded of it. *)
Inductive input : Type :=
| Quiet
| TurnIs (turn : option NetTurn)
| HookSays (d : option PermissionRequestDecision)
| ReviewSays (d : ReviewDecision) (guardian_message : list N).
Inductive heard : Type :=
| HookAnswered (key : HostApprovalKey) (d : PermissionRequestDecision)
| ReviewAnswered (key : HostApprovalKey) (d : ReviewDecision).

(** One step of [handle_inline_policy_request]; [None] if it has to wait. *)
Definition advance (inp : input) (at_ : pc) (s : service) : option (service * pc * list heard) :=
  match at_, inp with
  | Requested request, TurnIs turn =>
      Some (s, match resolve_request_attribution request s with
               | None => Answered None (NetDeny REASON_NOT_ALLOWED)
               | Some (owner, environment) =>
                   match match environment with
                         | Some e => Some e
                         | None => turn ≫= primary_environment
                         end with
                   | None => Answered None (NetDeny REASON_NOT_ALLOWED)
                   | Some e => Keyed (mkAsking request (from_request request e)
                                        (registration_id <$> owner) turn)
                   end
               end, [])
  | Keyed r, Quiet =>
      Some (s, if decide (ask_key r ∈ session_denied_hosts s)
               then Answered (Some (ask_key r)) (NetDeny REASON_NOT_ALLOWED) else NotDenied r, [])
  | NotDenied r, Quiet =>
      Some (s, if decide (ask_key r ∈ session_approved_hosts s)
               then Answered (Some (ask_key r)) NetAllow else NotApproved r, [])
  | NotApproved r, Quiet =>
      let '(s, cell, is_owner) := get_or_create_pending_approval (ask_key r) s in
      Some (s, if is_owner then Owning r cell else Waiting (ask_key r) cell, [])
  | Waiting key cell, Quiet => Some (s, Checking key cell (notifications s cell), [])
  | Checking key cell seen, Quiet =>
      Some (s, match cells s !! cell with
               | Some (_, Some d) => Answered (Some key) (to_network_decision d)
               | _ => Parked key cell seen
               end, [])
  | Parked key cell seen, Quiet =>
      if decide (seen < notifications s cell) then Some (s, Waiting key cell, []) else None
  | Owning r cell, _ =>
      match reviewable r, inp with
      | None, Quiet =>
          Some (s, Finishing (ask_key r) cell (refuse_plan r) (NetDeny REASON_NOT_ALLOWED), [])
      | Some _, HookSays (Some d) =>
          let '(acts, decision) := hook_plan r d in
          Some (s, Finishing (ask_key r) cell acts decision, [HookAnswered (ask_key r) d])
      | Some _, HookSays None => Some (s, Asked r cell, [])
      | _, _ => None
      end
  | Asked r cell, ReviewSays d guardian_message =>
      turn ← reviewable r;
      let use_guardian :=
        routes_approval_to_guardian_with_reviewer turn (approvals_reviewer turn) in
      let '(acts, decision) := review_plan r use_guardian guardian_message d in
      Some (s, Finishing (ask_key r) cell acts decision, [ReviewAnswered (ask_key r) d])
  | Finishing key cell (a :: acts) decision, Quiet =>
      Some (run_action key cell a s, Finishing key cell acts decision, [])
  | Finishing key cell [] decision, Quiet => Some (s, Answered (Some key) decision, [])
  | _, _ => None
  end.

(** ** The session *)

(** The service, the requests so far with their handlers, and the answers heard. *)
Record session : Type := mkSession {
  svc : service; requests : list NetworkPolicyRequest; handlers : list pc; answers : list heard }.
Definition initial : session := mkSession new_service [] [] [].

Definition with_svc (svc' : service) (s : session) : session :=
  mkSession svc' (requests s) (handlers s) (answers s).
Definition with_handler (i : nat) (at' : pc) (svc' : service) (h : list heard) (s : session) : session :=
  mkSession svc' (requests s) (<[i := at']> (handlers s)) (answers s ++ h).
Definition with_request (request : NetworkPolicyRequest) (s : session) : session :=
  mkSession (svc s) (requests s ++ [request]) (handlers s ++ [Requested request]) (answers s).

(** The approved hosts of another session are copied into this one; the answers heard there now
    count here too. *)
Definition with_sync (other s : session) : session :=
  mkSession (sync_session_approved_hosts_to (svc other) (svc s)) (requests s) (handlers s)
    (answers s ++ answers other).

Inductive handler_step : relation session :=
| handler_steps i at_ inp s svc' at' h :
    handlers s !! i = Some at_ → advance inp at_ (svc s) = Some (svc', at', h) →
    handler_step s (with_handler i at' svc' h s).

(** Calls are registered and finished, the proxy reports blocked requests, and the hosts that
    another session approves are copied, at any time. *)
Inductive step : relation session :=
| step_handler s s' : handler_step s s' → step s s'
| step_request request s : step s (with_request request s)
| step_register id environment s : step s (with_svc (register_call id environment (svc s)) s)
| step_finish id s : step s (with_svc (remove_call id (svc s)).1 s)
| step_blocked id message s :
    step s (with_svc (record_call_outcome id (DeniedByPolicy message) (svc s)) s)
| step_sync other s : rtc step initial other → step s (with_sync other s).
End NetworkApproval.
