(* ===== verification/NetworkApprovalLaws.v ===== *)
(** * Laws of network approval

    Invariants of [NetworkApproval] over all interleavings of handlers: a host is reached only
    with consent for it; one handler asks for a host at a time; no wake-up is lost and no handler
    waits for ever; and the user's denial of a call is kept. *)

From stdpp Require Import prelude strings list gmap relations pretty.
From S2P Require Import Prelude RustStr AbsolutePath Permissions ExecApproval Orchestrator.
From S2P Require Import PatchVerify NetworkApproval.

Module NetworkApprovalLaws.
Import Permissions ExecApproval Orchestrator NetworkApproval.

(** ** Consent *)

Definition for_session (d : ReviewDecision) : bool :=
  match d with
  | ApprovedForSession => true
  | NetworkAmendment a => match amendment_action a with RuleAllow => true | RuleDeny => false end
  | _ => false
  end.
Definition granted (d : ReviewDecision) : bool :=
  match d with
  | Approved | ApprovedExecpolicyAmendment _ => true
  | d => for_session d
  end.

(** Someone consented to the host of a key; someone consented for the session. *)
Definition consented (hs : list heard) (k : HostApprovalKey) : Prop :=
  HookAnswered k HookAllow ∈ hs ∨ ∃ d, ReviewAnswered k d ∈ hs ∧ granted d = true.
Definition consented_for_session (hs : list heard) (k : HostApprovalKey) : Prop :=
  ∃ d, ReviewAnswered k d ∈ hs ∧ for_session d = true.

Lemma consented_app hs hs' k : consented hs k ∨ consented hs' k → consented (hs ++ hs') k.
Proof. unfold consented. setoid_rewrite elem_of_app. naive_solver. Qed.
Lemma consented_for_session_app hs hs' k :
  consented_for_session hs k ∨ consented_for_session hs' k → consented_for_session (hs ++ hs') k.
Proof. unfold consented_for_session. setoid_rewrite elem_of_app. naive_solver. Qed.
Lemma session_consented hs k : consented_for_session hs k → consented hs k.
Proof. intros (d&Hin&Hd). right. exists d. split; [done|]. by destruct d. Qed.

(** ** Plans *)

Definition removes (a : action) : bool := match a with RemovePending => true | _ => false end.
Definition decides (a : action) : bool := match a with SetDecision _ => true | _ => false end.
Definition notifies (a : action) : bool := match a with NotifyWaiters => true | _ => false end.
Definition will_remove (acts : list action) : bool := existsb removes acts.
Definition will_decide (acts : list action) : bool := existsb decides acts.
Definition will_notify (acts : list action) : bool := existsb notifies acts.

(** The decision is set before the waiters are notified and the pending entry is removed, and
    these happen once. *)
Fixpoint plan_ok (acts : list action) : bool :=
  match acts with
  | [] => true
  | a :: rest =>
      plan_ok rest &&
      match a with
      | SetDecision _ => will_remove rest && will_notify rest && negb (will_decide rest)
      | NotifyWaiters => negb (will_notify rest) && negb (will_decide rest)
      | RemovePending => negb (will_remove rest) && negb (will_decide rest)
      | _ => true
      end
  end.

(** What the actions of a plan need of the answers. *)
Definition plan_consents (hs : list heard) (k : HostApprovalKey) (acts : list action) : Prop :=
  (∀ d, SetDecision d ∈ acts → to_network_decision d = NetAllow → consented hs k) ∧
  (InsertApproved ∈ acts → consented_for_session hs k).

Record plan_for (hs : list heard) (k : HostApprovalKey) (acts : list action) (res : NetworkDecision) :
    Prop := {
  plan_is_ok : plan_ok acts = true;
  plan_removes : will_remove acts = true;
  plan_decides : will_decide acts = true;
  plan_consented : plan_consents hs k acts;
  plan_result : res = NetAllow → consented hs k }.

Ltac plan_cases :=
  simpl in *; repeat match goal with
  | H : _ ∈ [] |- _ => by apply elem_of_nil in H
  | H : _ ∈ _ :: _ |- _ => apply elem_of_cons in H as [H|H]
  end; simplify_eq/=; try done.

Lemma refuse_plan_for r :
  plan_for [] (ask_key r) (refuse_plan r) (NetDeny REASON_NOT_ALLOWED).
Proof.
  unfold refuse_plan, record_owner. destruct (ask_owner r); split; try done; split; intros; plan_cases.
Qed.
Lemma hook_plan_for r d :
  plan_for [HookAnswered (ask_key r) d] (ask_key r) (hook_plan r d).1 (hook_plan r d).2.
Proof.
  unfold hook_plan, record_owner. destruct d as [|m].
  - assert (consented [HookAnswered (ask_key r) HookAllow] (ask_key r)) by (left; by left).
    split; try done; split; intros; plan_cases.
  - destruct (ask_owner r); split; try done; split; intros; plan_cases.
Qed.
Lemma review_plan_for r g m d :
  plan_for [ReviewAnswered (ask_key r) d] (ask_key r) (review_plan r g m d).1 (review_plan r g m d).2.
Proof.
  assert (for_session d = true → consented_for_session [ReviewAnswered (ask_key r) d] (ask_key r)) as Hs
    by (intros ?; exists d; split; [by left|done]).
  assert (granted d = true → consented [ReviewAnswered (ask_key r) d] (ask_key r)) as Hg
    by (intros ?; right; exists d; split; [by left|done]).
  unfold review_plan, record_owner. destruct d as [| | |[? []]| | |]; simpl in *; destruct (ask_owner r);
    split; try done; try (by intros _; apply Hg); split; intros; plan_cases; auto.
Qed.

(** ** Moves of a handler *)

(** Handlers that neither wait for a cell nor own a pending entry. *)
Definition free (at_ : pc) : bool :=
  match at_ with
  | Requested _ | Keyed _ | NotDenied _ | NotApproved _ | Answered _ _ => true
  | _ => false
  end.

Definition decided (s : service) (c : nat) : bool :=
  match cells s !! c with Some (_, Some _) => true | _ => false end.

(** A bound on the steps a handler has left: a waiter goes round its loop once more after the
    decision. *)
Definition rank (s : service) (at_ : pc) : nat :=
  match at_ with
  | Requested _ => 13 | Keyed _ => 12 | NotDenied _ => 11 | NotApproved _ => 10
  | Owning _ _ => 9 | Asked _ _ => 8
  | Finishing _ _ acts _ => S (length acts)
  | Waiting _ c => if decided s c then 2 else 5
  | Checking _ c _ => if decided s c then 1 else 4
  | Parked _ _ _ => 3
  | Answered _ _ => 0
  end.

Inductive moved (s : service) : pc → service → pc → list heard → Prop :=
| moved_free at_ at' :
    free at_ = true → free at' = true →
    (∀ key, at' = Answered key NetAllow → ∃ k, key = Some k ∧ k ∈ session_approved_hosts s) →
    rank s at' < rank s at_ →
    moved s at_ s at' []
| moved_wait r c :
    pending_host_approvals s !! ask_key r = Some c →
    moved s (NotApproved r) s (Waiting (ask_key r) c) []
| moved_own r :
    pending_host_approvals s !! ask_key r = None →
    moved s (NotApproved r)
      (set_pending (<[ask_key r := length (cells s)]> (pending_host_approvals s))
         (cells s ++ [(ask_key r, None)]) s)
      (Owning r (length (cells s))) []
| moved_loop k c : moved s (Waiting k c) s (Checking k c (notifications s c)) []
| moved_told k c n k' d :
    cells s !! c = Some (k', Some d) →
    moved s (Checking k c n) s (Answered (Some k) (to_network_decision d)) []
| moved_park k c n : decided s c = false → moved s (Checking k c n) s (Parked k c n) []
| moved_wake k c n : n < notifications s c → moved s (Parked k c n) s (Waiting k c) []
| moved_ask r c : is_Some (reviewable r) → moved s (Owning r c) s (Asked r c) []
| moved_plan at_ r c acts res h :
    at_ = Owning r c ∨ at_ = Asked r c → plan_for h (ask_key r) acts res → length acts ≤ 6 →
    moved s at_ s (Finishing (ask_key r) c acts res) h
| moved_act k c a acts res :
    moved s (Finishing k c (a :: acts) res) (run_action k c a s) (Finishing k c acts res) []
| moved_end k c res : moved s (Finishing k c [] res) s (Answered (Some k) res) [].

Lemma refuse_plan_length r : length (refuse_plan r) ≤ 6.
Proof. unfold refuse_plan, record_owner. destruct (ask_owner r); simpl; lia. Qed.
Lemma hook_plan_length r d : length (hook_plan r d).1 ≤ 6.
Proof. unfold hook_plan, record_owner. destruct d, (ask_owner r); simpl; lia. Qed.
Lemma review_plan_length r g m d : length (review_plan r g m d).1 ≤ 6.
Proof.
  unfold review_plan, record_owner. destruct d as [| | |[? []]| | |]; simpl;
    destruct (ask_owner r); simpl; lia.
Qed.

Lemma advance_moved inp at_ s s' at' h :
  advance inp at_ s = Some (s', at', h) → moved s at_ s' at' h.
Proof.
  destruct at_ as [request|r|r|r|k c|k c n|k c n|r c|r c|k c [|a acts] res|]; simpl; destruct inp; try done.
  - intros [= <- <- <-]. apply moved_free; [done|by repeat case_match| |].
    + intros k. by repeat case_match.
    + repeat case_match; simpl; lia.
  - intros [= <- <- <-]. case_decide; apply moved_free; try done; simpl; lia.
  - intros [= <- <- <-]. case_decide; apply moved_free; try done; simpl; try lia.
    intros key [= <-]. by eauto.
  - unfold get_or_create_pending_approval.
    destruct (pending_host_approvals s !! ask_key r) as [c|] eqn:Hp; intros [= <- <- <-];
      by constructor.
  - intros [= <- <- <-]. apply moved_loop.
  - intros [= <- <- <-]. destruct (cells s !! c) as [[k' [d|]]|] eqn:Hc; [by econstructor|..];
      apply moved_park; unfold decided; by rewrite Hc.
  - case_decide; [|done]. intros [= <- <- <-]. by apply moved_wake.
  - destruct (reviewable r); [done|]. intros [= <- <- <-].
    eapply moved_plan; [by left|apply refuse_plan_for|apply refuse_plan_length].
  - by destruct (reviewable r).
  - destruct (reviewable r) as [t|] eqn:Hr; [|done]. destruct d as [d|].
    + pose proof (hook_plan_for r d) as Hplan. pose proof (hook_plan_length r d) as Hl.
      destruct (hook_plan r d) as [acts res]. intros [= <- <- <-].
      eapply moved_plan; [by left|done|done].
    + intros [= <- <- <-]. apply moved_ask. by eexists.
  - by destruct (reviewable r).
  - destruct (reviewable r) as [t|]; simpl; [|done].
    set (g := routes_approval_to_guardian_with_reviewer t _).
    pose proof (review_plan_for r g guardian_message d) as Hplan.
    pose proof (review_plan_length r g guardian_message d) as Hl.
    destruct (review_plan r g guardian_message d) as [acts res]. intros [= <- <- <-].
    eapply moved_plan; [by right|done|done].
  - intros [= <- <- <-]. apply moved_end.
  - intros [= <- <- <-]. apply moved_act.
Qed.

(** ** The invariant *)

(** The pending entry a handler will remove, and the cell it will decide. *)
Definition owned (at_ : pc) : option (HostApprovalKey * nat) :=
  match at_ with
  | Owning r c | Asked r c => Some (ask_key r, c)
  | Finishing k c acts _ => if will_remove acts then Some (k, c) else None
  | _ => None
  end.
Definition to_decide (at_ : pc) : option nat :=
  match at_ with
  | Owning _ c | Asked _ c => Some c
  | Finishing _ c acts _ => if will_decide acts then Some c else None
  | _ => None
  end.

Definition to_notify (at_ : pc) : option nat :=
  match at_ with
  | Owning _ c | Asked _ c => Some c
  | Finishing _ c acts _ => if will_notify acts then Some c else None
  | _ => None
  end.

Definition has_cell (s : service) (k : HostApprovalKey) (c : nat) : Prop :=
  ∃ d, cells s !! c = Some (k, d).

(** What holds of a handler where it is. *)
Definition pc_ok (s : service) (hs : list heard) (at_ : pc) : Prop :=
  match at_ with
  | Waiting k c => has_cell s k c
  | Checking k c n | Parked k c n => has_cell s k c ∧ n ≤ notifications s c
  | Owning r c => has_cell s (ask_key r) c
  | Asked r c => has_cell s (ask_key r) c ∧ is_Some (reviewable r)
  | Finishing k c acts res =>
      has_cell s k c ∧ plan_ok acts = true ∧ plan_consents hs k acts ∧
      (res = NetAllow → consented hs k) ∧ (will_decide acts = false → decided s c = true)
  | Answered (Some k) NetAllow => consented hs k
  | Answered None NetAllow => False
  | _ => True
  end.

Record inv (s : session) : Prop := {
  inv_pcs i at_ : handlers s !! i = Some at_ → pc_ok (svc s) (answers s) at_;
  inv_owned i at_ k c :
    handlers s !! i = Some at_ → owned at_ = Some (k, c) →
    pending_host_approvals (svc s) !! k = Some c;
  inv_unique i j at_ at' k c c' :
    handlers s !! i = Some at_ → handlers s !! j = Some at' →
    owned at_ = Some (k, c) → owned at' = Some (k, c') → i = j;
  inv_owner k c :
    pending_host_approvals (svc s) !! k = Some c →
    ∃ i at_, handlers s !! i = Some at_ ∧ owned at_ = Some (k, c);
  inv_undecided c k :
    cells (svc s) !! c = Some (k, None) →
    ∃ i at_, handlers s !! i = Some at_ ∧ to_decide at_ = Some c;
  inv_allowed c k d :
    cells (svc s) !! c = Some (k, Some d) → to_network_decision d = NetAllow →
    consented (answers s) k;
  inv_approved k :
    k ∈ session_approved_hosts (svc s) → consented_for_session (answers s) k;
  inv_notified c : 0 < notifications (svc s) c → decided (svc s) c = true;
  inv_parked i k c n :
    handlers s !! i = Some (Parked k c n) →
    n < notifications (svc s) c ∨ ∃ j b, handlers s !! j = Some b ∧ to_notify b = Some c }.

Lemma inv_initial : inv initial.
Proof. split; simpl; try done; intros *; try set_solver; try lia; by rewrite lookup_empty. Qed.

(** The calls and their outcomes do not matter. *)
Definition same_hosts (s s' : service) : Prop :=
  pending_host_approvals s' = pending_host_approvals s ∧ cells s' = cells s ∧
  notifications s' = notifications s ∧
  session_approved_hosts s' = session_approved_hosts s ∧
  session_denied_hosts s' = session_denied_hosts s.
Lemma record_same_hosts id o s : same_hosts s (record_call_outcome id o s).
Proof. unfold record_call_outcome, same_hosts. by repeat case_match. Qed.

Lemma plan_consents_mono hs hs' k acts :
  plan_consents hs k acts → plan_consents (hs ++ hs') k acts.
Proof.
  intros [H1 H2]; split; intros; [apply consented_app|apply consented_for_session_app]; left; eauto.
Qed.

(** Nor do the remembered hosts, but for the answers they come from. *)
Lemma inv_same_cells s svc' hs :
  pending_host_approvals svc' = pending_host_approvals (svc s) → cells svc' = cells (svc s) →
  notifications svc' = notifications (svc s) →
  (∀ k, k ∈ session_approved_hosts svc' → consented_for_session (answers s ++ hs) k) →
  inv s → inv (mkSession svc' (requests s) (handlers s) (answers s ++ hs)).
Proof.
  intros Hp Hc Hn Ha [H1 H2 H3 H4 H5 H6 H7 H8 H9]. unfold decided in *.
  split; simpl; unfold decided; rewrite ?Hp, ?Hc, ?Hn; try done.
  - intros i at_ Hi. specialize (H1 i at_ Hi). destruct at_ as [| | | | | | | | |k c acts res|[k|] []]; simpl in *;
      unfold has_cell, decided in *; rewrite ?Hc, ?Hn; try done; [|by apply consented_app; left].
    destruct H1 as (?&?&?&?&?). split_and!; try done; [by apply plan_consents_mono|].
    intros. apply consented_app. auto.
  - intros. apply consented_app. left. eauto.
Qed.
Lemma inv_same_hosts s svc' :
  same_hosts (svc s) svc' → inv s → inv (with_svc svc' s).
Proof.
  intros (Hp&Hc&Hn&Ha&Hd) Hinv. pose proof (inv_same_cells s svc' [] Hp Hc Hn) as H.
  rewrite app_nil_r in H. apply H; [|done]. rewrite Ha. apply Hinv.
Qed.
Lemma inv_sync s other : inv other → inv s → inv (with_sync other s).
Proof.
  intros Ho Hs. apply (inv_same_cells s); try done. intros k Hk. apply consented_for_session_app. right.
  by apply Ho.
Qed.

(** A new handler owns nothing. *)
Lemma inv_request s request :
  inv s → inv (with_request request s).
Proof.
  intros [H1 H2 H3 H4 H5 H6 H7 H8 H9]. split; simpl; try done.
  - intros i at_ [Hi|[_ Hi]]%lookup_app_Some; [by eauto|]. apply list_lookup_singleton_Some in Hi as [_ <-].
    done.
  - intros i at_ k c [Hi|[_ Hi]]%lookup_app_Some; [by eauto|].
    by apply list_lookup_singleton_Some in Hi as [_ <-].
  - intros i j at_ at' k c c' [Hi|[_ Hi]]%lookup_app_Some [Hj|[_ Hj]]%lookup_app_Some; [by eauto|..];
      try (apply list_lookup_singleton_Some in Hi as [_ <-]; done);
      apply list_lookup_singleton_Some in Hj as [_ <-]; done.
  - intros k c (i&at_&Hi&?)%H4. exists i, at_. split; [by apply lookup_app_l_Some|done].
  - intros c k (i&at_&Hi&?)%H5. exists i, at_. split; [by apply lookup_app_l_Some|done].
  - intros i k c n [Hi|[_ Hi]]%lookup_app_Some; [|by apply list_lookup_singleton_Some in Hi as [_ ?]].
    destruct (H9 _ _ _ _ Hi) as [?|(j&b&Hj&?)]; [by left|right]. exists j, b.
    split; [by apply lookup_app_l_Some|done].
Qed.

(** ** A handler's move keeps the invariant *)

Lemma decide_notifies acts : plan_ok acts = true → will_decide acts = true → will_notify acts = true.
Proof.
  induction acts as [|a acts IH]; [done|]. simpl. intros [Hok Ha]%andb_true_iff Hd.
  destruct a; simpl in *; bool_to_prop; auto.
Qed.
Lemma to_decide_notify s hs at_ c :
  pc_ok s hs at_ → to_decide at_ = Some c → to_notify at_ = Some c.
Proof.
  destruct at_ as [| | | | | | | | |k c' acts res|]; simpl; try done. intros (_&Hok&_) Hd.
  destruct (will_decide acts) eqn:E; [|done]. by rewrite decide_notifies.
Qed.

Section move.
Variables (s : session) (i : nat) (at_ at' : pc) (svc' : service) (h : list heard).
Hypothesis Hinv : inv s.
Hypothesis Hi : handlers s !! i = Some at_.
Hypothesis Hm : moved (svc s) at_ svc' at' h.

Let handlers' : list pc := <[i := at']> (handlers s).

Lemma handlers_other j b : j ≠ i → handlers' !! j = Some b ↔ handlers s !! j = Some b.
Proof. intros Hj. unfold handlers'. by rewrite list_lookup_insert_ne by done. Qed.
Lemma handlers_self : handlers' !! i = Some at'.
Proof. apply list_lookup_insert_eq. by eapply lookup_lt_Some. Qed.
Lemma handlers_inv j b :
  handlers' !! j = Some b → (j = i ∧ b = at') ∨ (j ≠ i ∧ handlers s !! j = Some b).
Proof.
  intros Hj. destruct (decide (j = i)) as [->|Hne]; [|right; by rewrite handlers_other in Hj].
  rewrite handlers_self in Hj. left. by simplify_eq.
Qed.
(** A handler other than the one that moved, or the one before it moved. *)
Lemma handlers_keep (P : pc → Prop) :
  (∃ j b, handlers s !! j = Some b ∧ P b) → (P at_ → P at') →
  ∃ j b, handlers' !! j = Some b ∧ P b.
Proof.
  intros (j&b&Hj&HP) Hkeep. destruct (decide (j = i)) as [->|Hne].
  - exists i, at'. rewrite handlers_self. simplify_eq. auto.
  - exists j, b. by rewrite handlers_other.
Qed.

(** What becomes of the pending entries. *)
Lemma moved_pending :
  (owned at' = owned at_ ∧ pending_host_approvals svc' = pending_host_approvals (svc s)) ∨
  (∃ k c, owned at_ = None ∧ owned at' = Some (k, c) ∧
     pending_host_approvals (svc s) !! k = None ∧
     pending_host_approvals svc' = <[k := c]> (pending_host_approvals (svc s))) ∨
  (∃ k c, owned at_ = Some (k, c) ∧ owned at' = None ∧
     pending_host_approvals svc' = delete k (pending_host_approvals (svc s))).
Proof.
  pose proof (inv_pcs _ Hinv _ _ Hi) as Hok.
  destruct Hm as [b b' Hb Hb' Hfree _|r c Hp|r Hp|k c|k c n k' d Hc|k c n Hd|k c n Hn|r c Hr|b r c acts res h' Hb Hplan _|k c a acts res|k c res].
  - left. by destruct b, b'.
  - by left.
  - right; left. eauto 10.
  - by left.
  - by left.
  - by left.
  - by left.
  - by left.
  - left. split; [|done]. simpl. rewrite (plan_removes _ _ _ _ Hplan). by destruct Hb as [->| ->].
  - destruct Hok as (_&Hplan&_). destruct a; try (by left).
    + right; right. exists k, c. simpl in *.
      destruct (will_remove acts); [by rewrite andb_false_r in Hplan|done].
    + left. split; [done|]. apply record_same_hosts.
  - by left.
Qed.

Lemma moved_inv_owned j b k c :
  handlers' !! j = Some b → owned b = Some (k, c) → pending_host_approvals svc' !! k = Some c.
Proof.
  intros Hj Hown. apply handlers_inv in Hj.
  destruct moved_pending as [[Ho ->]|[(k'&c'&Ho&Ho'&Hnone&->)|(k'&c'&Ho&Ho'&->)]];
    destruct Hj as [[-> ->]|[Hne Hj]].
  - rewrite Ho in Hown. by eapply inv_owned.
  - by eapply inv_owned.
  - rewrite Ho' in Hown. simplify_eq. by rewrite lookup_insert_eq.
  - pose proof (inv_owned _ Hinv _ _ _ _ Hj Hown). rewrite lookup_insert_ne; [done|congruence].
  - by rewrite Ho' in Hown.
  - rewrite lookup_delete_ne; [by eapply inv_owned|]. intros ->.
    by eapply Hne, inv_unique.
Qed.

Lemma moved_inv_unique j j' b b' k c c' :
  handlers' !! j = Some b → handlers' !! j' = Some b' → owned b = Some (k, c) →
  owned b' = Some (k, c') → j = j'.
Proof.
  intros Hj Hj' Hb Hb'.
  apply handlers_inv in Hj as [[-> ->]|[Hne Hj]], Hj' as [[-> ->]|[Hne' Hj']]; [done|..].
  - destruct moved_pending as [[Ho _]|[(k'&c0&Ho&Ho'&Hnone&_)|(k'&c0&Ho&Ho'&_)]].
    + rewrite Ho in Hb. by eapply inv_unique.
    + rewrite Ho' in Hb. simplify_eq. pose proof (inv_owned _ Hinv _ _ _ _ Hj' Hb'). congruence.
    + by rewrite Ho' in Hb.
  - destruct moved_pending as [[Ho _]|[(k'&c0&Ho&Ho'&Hnone&_)|(k'&c0&Ho&Ho'&_)]].
    + rewrite Ho in Hb'. by eapply inv_unique.
    + rewrite Ho' in Hb'. simplify_eq. pose proof (inv_owned _ Hinv _ _ _ _ Hj Hb). congruence.
    + by rewrite Ho' in Hb'.
  - by eapply inv_unique.
Qed.

Lemma moved_inv_owner k c :
  pending_host_approvals svc' !! k = Some c →
  ∃ j b, handlers' !! j = Some b ∧ owned b = Some (k, c).
Proof.
  destruct moved_pending as [[Ho ->]|[(k'&c'&Ho&Ho'&Hnone&->)|(k'&c'&Ho&Ho'&->)]].
  - intros Hp%(inv_owner _ Hinv). eapply handlers_keep; [exact Hp|]. simpl. by rewrite Ho.
  - intros [[<- <-]|[Hne Hp]]%lookup_insert_Some; [exists i, at'; by rewrite handlers_self|].
    apply (inv_owner _ Hinv) in Hp. eapply handlers_keep; [exact Hp|]. simpl. by rewrite Ho.
  - intros [Hne Hp]%lookup_delete_Some. apply (inv_owner _ Hinv) in Hp.
    eapply handlers_keep; [exact Hp|]. simpl. rewrite Ho. congruence.
Qed.

(** What becomes of the cells. *)
Lemma moved_cells :
  (to_decide at' = to_decide at_ ∧ cells svc' = cells (svc s)) ∨
  (∃ k, to_decide at_ = None ∧ to_decide at' = Some (length (cells (svc s))) ∧
     cells svc' = cells (svc s) ++ [(k, None)]) ∨
  (∃ k c d, to_decide at_ = Some c ∧ has_cell (svc s) k c ∧
     (to_network_decision d = NetAllow → consented (answers s) k) ∧
     cells svc' = <[c := (k, Some d)]> (cells (svc s))).
Proof.
  pose proof (inv_pcs _ Hinv _ _ Hi) as Hok.
  destruct Hm as [b b' Hb Hb' Hfree _|r c Hp|r Hp|k c|k c n k' d Hc|k c n Hd|k c n Hn|r c Hr|b r c acts res h' Hb Hplan _|k c a acts res|k c res].
  - left. by destruct b, b'.
  - by left.
  - right; left. eauto.
  - by left.
  - by left.
  - by left.
  - by left.
  - by left.
  - left. split; [|done]. simpl. rewrite (plan_decides _ _ _ _ Hplan). by destruct Hb as [->| ->].
  - destruct Hok as (Hcell&_&[Hset _]&_). destruct a; try (by left).
    + right; right. exists k, c, d. split_and!; [done|done| |done]. apply Hset. by left.
    + left. split; [done|]. apply record_same_hosts.
  - by left.
Qed.

Lemma moved_has_cell k c : has_cell (svc s) k c → has_cell svc' k c.
Proof.
  unfold has_cell. intros [d Hc].
  destruct moved_cells as [[_ ->]|[(k'&_&_&->)|(k'&c'&d'&_&[d0 Hc']&_&->)]].
  - by exists d.
  - exists d. by apply lookup_app_l_Some.
  - destruct (decide (c' = c)) as [->|Hne]; [|exists d; by rewrite list_lookup_insert_ne].
    simplify_eq. exists (Some d'). apply list_lookup_insert_eq. by eapply lookup_lt_Some.
Qed.

Lemma moved_inv_undecided c k :
  cells svc' !! c = Some (k, None) → ∃ j b, handlers' !! j = Some b ∧ to_decide b = Some c.
Proof.
  destruct moved_cells as [[Ho ->]|[(k'&Ho&Ho'&->)|(k'&c'&d'&Ho&_&_&->)]].
  - intros Hc%(inv_undecided _ Hinv). eapply handlers_keep; [exact Hc|]. simpl. by rewrite Ho.
  - intros [Hc|[Hlen Hc]]%lookup_app_Some.
    + apply (inv_undecided _ Hinv) in Hc. eapply handlers_keep; [exact Hc|]. simpl. by rewrite Ho.
    + apply list_lookup_singleton_Some in Hc as [Hz _]. exists i, at'. rewrite handlers_self, Ho'.
      split; [done|]. f_equal. lia.
  - intros [(_&[=]&_)|[Hne Hc]]%list_lookup_insert_Some.
    apply (inv_undecided _ Hinv) in Hc. eapply handlers_keep; [exact Hc|]. simpl. rewrite Ho. congruence.
Qed.

Lemma moved_inv_allowed c k d :
  cells svc' !! c = Some (k, Some d) → to_network_decision d = NetAllow →
  consented (answers s ++ h) k.
Proof.
  intros Hc Hd. apply consented_app. left.
  destruct moved_cells as [[_ E]|[(k'&_&_&E)|(k'&c'&d'&_&_&Hset&E)]]; rewrite E in Hc.
  - by eapply inv_allowed.
  - apply lookup_app_Some in Hc as [Hc|[_ Hc]]; [by eapply inv_allowed|].
    by apply list_lookup_singleton_Some in Hc as [_ ?].
  - apply list_lookup_insert_Some in Hc as [(_&?&_)|[_ Hc]]; [simplify_eq; auto|by eapply inv_allowed].
Qed.

(** Decisions stay, and notifications come after them. *)
Lemma moved_decided c : decided (svc s) c = true → decided svc' c = true.
Proof.
  unfold decided. intros Hd. destruct moved_cells as [[_ ->]|[(k'&_&_&->)|(k'&c'&d'&_&[d0 Hc']&_&->)]]; [done|..].
  - destruct (cells (svc s) !! c) eqn:E; [|done]. by rewrite (lookup_app_l_Some _ _ _ _ E).
  - destruct (decide (c' = c)) as [->|Hne]; [|by rewrite list_lookup_insert_ne].
    rewrite list_lookup_insert_eq; [done|by eapply lookup_lt_Some].
Qed.
Lemma moved_notify :
  (to_notify at_ = None ∨ to_notify at' = to_notify at_) ∧ notifications svc' = notifications (svc s) ∨
  ∃ c, to_notify at_ = Some c ∧ decided (svc s) c = true ∧
    notifications svc' = (λ c', if decide (c' = c) then S (notifications (svc s) c') else notifications (svc s) c').
Proof.
  pose proof (inv_pcs _ Hinv _ _ Hi) as Hok.
  destruct Hm as [b b' Hb Hb' Hfree _|r c Hp|r Hp|k c|k c n k' d Hc|k c n Hd|k c n Hn|r c Hr|b r c acts res h' Hb Hplan _|k c a acts res|k c res];
    try (left; split; [by auto|done]).
  - left. split; [left; by destruct b|done].
  - left. split; [|done]. right. simpl.
    rewrite (decide_notifies _ (plan_is_ok _ _ _ _ Hplan) (plan_decides _ _ _ _ Hplan)).
    by destruct Hb as [->| ->].
  - destruct Hok as (_&Hplan&_&_&Hdec).
    destruct a; try (left; split; [by right|done]); [|left; split; [by right|apply record_same_hosts]].
    right. exists c. split_and!; [done| |done]. apply Hdec. simpl in *. bool_to_prop. done.
Qed.
Lemma moved_notifications c : notifications (svc s) c ≤ notifications svc' c.
Proof. destruct moved_notify as [[_ ->]|(c'&_&_&->)]; [done|]. case_decide; lia. Qed.
Lemma moved_inv_notified c : 0 < notifications svc' c → decided svc' c = true.
Proof.
  destruct moved_notify as [[_ ->]|(c'&_&Hc'&->)]; [by intros Hn; apply moved_decided, Hinv|].
  intros Hn. apply moved_decided. case_decide; [by subst|by apply Hinv].
Qed.
Lemma moved_inv_parked j k c n :
  handlers' !! j = Some (Parked k c n) →
  n < notifications svc' c ∨ ∃ j b, handlers' !! j = Some b ∧ to_notify b = Some c.
Proof.
  intros Hj. pose proof (moved_notifications c) as Hmono.
  assert (n ≤ notifications (svc s) c →
          (∃ j b, handlers s !! j = Some b ∧ to_notify b = Some c) →
          n < notifications svc' c ∨ ∃ j b, handlers' !! j = Some b ∧ to_notify b = Some c) as Hgo.
  { intros Hn Hex. destruct moved_notify as [[Hto _]|(c'&Hto&_&E)].
    - right. eapply handlers_keep; [exact Hex|]. simpl. intros Hc. by destruct Hto as [Hto|Hto]; rewrite Hto in *.
    - destruct (decide (c' = c)) as [->|Hne]; [left; rewrite E; case_decide; [lia|done]|].
      right. eapply handlers_keep; [exact Hex|]. simpl. congruence. }
  apply handlers_inv in Hj as [[-> E]|[Hne Hj]].
  - pose proof (inv_pcs _ Hinv _ _ Hi) as Hok. clear Hmono.
    assert (at_ = Checking k c n ∧ decided (svc s) c = false) as [Eat Hd].
    { destruct Hm as [b b' Hb Hb'| | | | | | | | | |]; simplify_eq/=; try done. }
    rewrite Eat in Hok. destruct Hok as [[d Hc] Hn]. apply Hgo; [done|].
    unfold decided in Hd. rewrite Hc in Hd. destruct d; [done|].
    destruct (inv_undecided _ Hinv _ _ Hc) as (j&b&Hj&Hb). exists j, b. split; [done|].
    by eapply to_decide_notify; [by eapply inv_pcs|].
  - destruct (inv_pcs _ Hinv _ _ Hj) as [_ Hn]. destruct (inv_parked _ Hinv _ _ _ _ Hj) as [?|Hex]; [left; lia|].
    by apply Hgo.
Qed.

(** Hosts are remembered as approved only with consent. *)
Lemma moved_inv_approved k :
  k ∈ session_approved_hosts svc' → consented_for_session (answers s ++ h) k.
Proof.
  intros Hk. apply consented_for_session_app. left.
  assert (k ∈ session_approved_hosts (svc s) ∨ consented_for_session (answers s) k) as [?|?];
    [|by eapply inv_approved|done].
  pose proof (inv_pcs _ Hinv _ _ Hi) as Hok. destruct Hm as [| | | | | | | | |k' c a acts res|]; try (by auto).
  destruct Hok as (_&_&[_ Happ]&_).
  destruct a; simpl in *; try (by auto); try (left; set_solver).
  - destruct (record_same_hosts id o (svc s)) as (_&_&_&E&_). rewrite E in Hk. by auto.
  - apply elem_of_union in Hk as [->%elem_of_singleton|?]; [|by auto]. right. apply Happ. by left.
Qed.

Lemma plan_consents_app k acts :
  plan_consents (answers s) k acts ∨ plan_consents h k acts → plan_consents (answers s ++ h) k acts.
Proof.
  intros [[H1 H2]|[H1 H2]]; split; intros; (apply consented_app || apply consented_for_session_app);
    [left; by eapply H1|left; by apply H2|right; by eapply H1|right; by apply H2].
Qed.

Lemma moved_pcs_other j b :
  j ≠ i → handlers s !! j = Some b → pc_ok svc' (answers s ++ h) b.
Proof.
  intros Hne Hj. pose proof (inv_pcs _ Hinv _ _ Hj) as Hok.
  pose proof moved_has_cell as Hcell. pose proof moved_notifications as Hmono.
  destruct b as [| | | |k c|k c n|k c n|r c|r c|k c acts res|[k|] []]; simpl in *; try done;
    try (by apply Hcell); try (by split; [apply Hcell, Hok|]; specialize (Hmono c); destruct Hok; lia);
    [naive_solver| |by apply consented_app; left].
  destruct Hok as (Hc&Hplan&Hcons&Hres&Hdec).
  split_and!; [by apply Hcell|done|by apply plan_consents_app; left
              |by intros; apply consented_app; auto|]. intros. apply moved_decided. auto.
Qed.

Lemma pending_has_cell k c : pending_host_approvals (svc s) !! k = Some c → has_cell (svc s) k c.
Proof.
  intros (j&b&Hj&Ho)%(inv_owner _ Hinv). pose proof (inv_pcs _ Hinv _ _ Hj) as Hok.
  destruct b as [| | | | | | |r c'|r c'|k' c' acts res|]; simpl in *; try done; simplify_eq; [done|by destruct Hok|].
  destruct (will_remove acts); simplify_eq. by destruct Hok.
Qed.

Lemma moved_pc_self : pc_ok svc' (answers s ++ h) at'.
Proof.
  pose proof (inv_pcs _ Hinv _ _ Hi) as Hok. pose proof moved_has_cell as Hcell.
  pose proof plan_consents_app as Hpc. pose proof moved_decided as Hmd.
  destruct Hm as [b b' Hb Hb' Hfree _|r c Hp|r Hp|k c|k c n k' d Hc|k c n Hd|k c n Hn|r c Hr|b r c acts res h' Hb Hplan _|k c a acts res|k c res].
  - destruct b' as [| | | | | | | | | |key []]; try done.
    + destruct (Hfree _ eq_refl) as (k&->&Hk). simpl. apply consented_app. left.
      by eapply session_consented, inv_approved.
    + by destruct key.
  - by apply pending_has_cell.
  - exists None. simpl. by rewrite lookup_app_r, Nat.sub_diag by lia.
  - by split.
  - destruct Hok as [[d' Hc'] _]. simplify_eq. destruct (to_network_decision d) eqn:Hd; [|done].
    simpl. apply consented_app. left. by eapply inv_allowed.
  - done.
  - by destruct Hok.
  - by split.
  - assert (has_cell (svc s) (ask_key r) c) by (destruct Hb as [->| ->]; [done|by destruct Hok]).
    destruct Hplan as [H1 H2 H3 H4 H5]. simpl. split_and!; [done|done|by auto| |by rewrite H3].
    intros. apply consented_app. auto.
  - destruct Hok as (Hc&Hplan&[Hset Happ]&Hres&Hdec). simpl. rewrite app_nil_r in *. split_and!.
    + by apply Hcell.
    + simpl in Hplan. by apply andb_true_iff in Hplan as [? _].
    + split; intros; [eapply Hset; [by right|done]|apply Happ; by right].
    + done.
    + intros Hw. destruct a; try (apply Hmd, Hdec; simpl; done).
      unfold decided. simpl. destruct Hc as [d0 Hc]. rewrite list_lookup_insert_eq; [done|by eapply lookup_lt_Some].
  - destruct Hok as (_&_&_&Hres&_). destruct res; [|done]. simpl. apply consented_app. auto.
Qed.

Lemma handler_inv : inv (with_handler i at' svc' h s).
Proof.
  split; simpl.
  - intros j b [[-> ->]|[Hne Hj]]%handlers_inv; [apply moved_pc_self|by eapply moved_pcs_other].
  - apply moved_inv_owned.
  - apply moved_inv_unique.
  - apply moved_inv_owner.
  - apply moved_inv_undecided.
  - apply moved_inv_allowed.
  - apply moved_inv_approved.
  - apply moved_inv_notified.
  - apply moved_inv_parked.
Qed.

Lemma rank_other b : rank svc' b ≤ rank (svc s) b.
Proof.
  pose proof moved_decided as Hd. destruct b as [| | | |k c|k c n| | | | |]; simpl; try lia; specialize (Hd c);
    destruct (decided (svc s) c), (decided svc' c); try lia; by destruct Hd.
Qed.
Lemma rank_self : rank (svc s) at' < rank (svc s) at_.
Proof.
    destruct Hm as [b b' Hb Hb' _ ?|r c _|r _|k c|k c n k' d Hc|k c n Hd|k c n Hn|r c _|b r c acts res h' Hb _ ?|k c a acts res|k c res];
    simpl in *; try lia.
  - case_match; lia.
  - case_match; lia.
  - case_match; lia.
  - rewrite Hd. lia.
  - rewrite (inv_notified _ Hinv c) by lia. lia.
  - destruct Hb as [->| ->]; simpl; lia.
Qed.
End move.

(** Induction on what is reachable: the session whose hosts are copied is reachable too. *)
Lemma reachable_induction (P : session → Prop) :
  P initial →
  (∀ s s', P s → handler_step s s' → P s') →
  (∀ request s, P s → P (with_request request s)) →
  (∀ id e s, P s → P (with_svc (register_call id e (svc s)) s)) →
  (∀ id s, P s → P (with_svc (remove_call id (svc s)).1 s)) →
  (∀ id m s, P s → P (with_svc (record_call_outcome id (DeniedByPolicy m) (svc s)) s)) →
  (∀ other s, P other → P s → P (with_sync other s)) →
  ∀ s, rtc step initial s → P s.
Proof.
  intros H0 Hh Hq Hreg Hfin Hbl Hsync.
  assert (∀ s s', step s s' → P s → P s') as Hstep.
  { fix IH 3. intros s s' [s1 s2 Hs|request s1|id e s1|id s1|id m s1|other s1 Hr] HP; [by eauto..|].
    apply Hsync; [|done].
    exact ((fix go x y (l : rtc step x y) {struct l} : P x → P y :=
              match l with
              | rtc_refl _ _ => λ p, p
              | rtc_l _ x y z hd tl => λ p, go y z tl (IH x y hd p)
              end) _ _ Hr H0). }
  intros s. apply (rtc_ind_r P); eauto.
Qed.

Lemma inv_handler_step s s' : inv s → handler_step s s' → inv s'.
Proof.
  intros Hinv Hh. destruct Hh as [i at_ inp s0 svc' at' h Hi Ha]. eapply handler_inv; [done|done|]. by eapply advance_moved.
Qed.
Lemma reachable_ok s : rtc step initial s → inv s.
Proof.
  apply reachable_induction; eauto using inv_initial, inv_handler_step, inv_request, inv_sync.
  - intros. by apply inv_same_hosts.
  - intros. by apply inv_same_hosts.
  - intros. apply inv_same_hosts; [apply record_same_hosts|done].
Qed.

(** ** Termination *)

Definition answered (at_ : pc) : bool := match at_ with Answered _ _ => true | _ => false end.
Definition total (s : session) : nat := sum_list (rank (svc s) <$> handlers s).

Lemma sum_list_insert (l : list nat) i x y :
  l !! i = Some x → sum_list (<[i := y]> l) + x = sum_list l + y.
Proof.
  revert i. induction l as [|z l IH]; intros [|i]; simpl; intros Hi; [done|done| |].
  - simplify_eq. lia.
  - specialize (IH i Hi). lia.
Qed.
Lemma sum_list_le (f g : pc → nat) (l : list pc) :
  (∀ b, f b ≤ g b) → sum_list (f <$> l) ≤ sum_list (g <$> l).
Proof.
  intros Hfg. induction l as [|b l IH]; [done|]. rewrite !fmap_cons. specialize (Hfg b).
  change (f b + sum_list (f <$> l) ≤ g b + sum_list (g <$> l)). lia.
Qed.

Lemma handler_step_total s s' : inv s → handler_step s s' → total s' < total s.
Proof.
  intros Hinv Hh. destruct Hh as [i at_ inp s0 svc' at' h Hi Ha]. apply advance_moved in Ha. unfold total. simpl.
  pose proof (rank_self s0 i at_ at' svc' h Hinv Hi Ha) as Hself.
  eapply Nat.le_lt_trans; [apply sum_list_le, (rank_other s0 i at_ at' svc' h Hinv Hi Ha)|].
  rewrite list_fmap_insert.
  pose proof (sum_list_insert (rank (svc s0) <$> handlers s0) i (rank (svc s0) at_) (rank (svc s0) at')) as Hsum.
  rewrite list_lookup_fmap, Hi in Hsum. specialize (Hsum eq_refl). lia.
Qed.

(** Every handler that is not parked can go on. *)
Lemma can_advance s hs at_ :
  pc_ok s hs at_ → answered at_ = false → (∀ k c n, at_ ≠ Parked k c n) →
  ∃ inp s' at' h, advance inp at_ s = Some (s', at', h).
Proof.
  intros Hok Hans Hw. destruct at_ as [request|r|r|r|k c|k c n|k c n|r c|r c|k c [|a acts] res|]; try done.
  - by exists (TurnIs None); do 3 eexists.
  - by exists Quiet; do 3 eexists.
  - by exists Quiet; do 3 eexists.
  - exists Quiet. simpl. destruct (get_or_create_pending_approval _ _) as [[? ?] ?]. by do 3 eexists.
  - by exists Quiet; do 3 eexists.
  - by exists Quiet; do 3 eexists.
  - by destruct (Hw k c n).
  - simpl. destruct (reviewable r); [exists (HookSays None)|exists Quiet]; by do 3 eexists.
  - destruct Hok as [_ [t Ht]]. exists (ReviewSays Denied []). simpl. rewrite Ht. simpl. by do 3 eexists.
  - by exists Quiet; do 3 eexists.
  - by exists Quiet; do 3 eexists.
Qed.

Lemma progress s i at_ :
  inv s → handlers s !! i = Some at_ → answered at_ = false → ∃ s', handler_step s s'.
Proof.
  intros Hinv Hi Hans.
  assert (∀ j b, handlers s !! j = Some b → answered b = false → (∀ k c n, b ≠ Parked k c n) →
    ∃ s', handler_step s s') as Hgo.
  { intros j b Hj Hb Hw. destruct (can_advance _ _ _ (inv_pcs _ Hinv _ _ Hj) Hb Hw) as (inp&svc'&b'&h&Ha).
    eexists. by econstructor. }
  destruct at_ as [| | | | | |k c n| | | |]; try (by eapply Hgo).
  destruct (inv_parked _ Hinv _ _ _ _ Hi) as [Hn|(j&b&Hj&Hb)].
  - eexists. eapply (handler_steps i _ Quiet); [done|]. simpl. by rewrite decide_True.
  - eapply (Hgo j b); [done|by destruct b|]. by intros ? ? ? ->.
Qed.

Lemma progress_or_done s :
  inv s → Forall (λ at_, answered at_ = true) (handlers s) ∨ ∃ s', handler_step s s'.
Proof.
  intros Hinv.
  destruct (decide (Forall (λ at_, answered at_ = true) (handlers s))) as [?|Hnot]; [by left|right].
  apply not_Forall_Exists in Hnot; [|apply _]. apply Exists_exists in Hnot as (at_&Hin&Hans).
  apply list_elem_of_lookup in Hin as [i Hi].
  apply (progress s i at_ Hinv Hi). by apply not_true_is_false.
Qed.
Lemma inv_handler_steps s s' : inv s → rtc handler_step s s' → inv s'.
Proof. intros Hs Hsteps. induction Hsteps; eauto using inv_handler_step. Qed.

Lemma all_finish s :
  inv s → ∃ s', rtc handler_step s s' ∧ Forall (λ at_, answered at_ = true) (handlers s').
Proof.
  remember (total s) as n eqn:Hn. revert s Hn.
  induction (lt_wf n) as [n _ IH]; intros s -> Hinv.
  destruct (progress_or_done s Hinv) as [Hall|[s1 Hs1]]; [exists s; by split; [apply rtc_refl|]|].
  destruct (IH (total s1) (handler_step_total _ _ Hinv Hs1) s1 eq_refl) as (s'&Hs'&Hall);
    [by eapply inv_handler_step|].
  exists s'. split; [by eapply rtc_l|done].
Qed.

(** ** Requests and their keys *)

(** The key of a handler is that of its request in some environment. *)
Definition key_of (request : NetworkPolicyRequest) (k : HostApprovalKey) : Prop :=
  k = from_request request (host_environment_id k).
Definition handles (request : NetworkPolicyRequest) (at_ : pc) : Prop :=
  match at_ with
  | Requested request' => request' = request
  | Keyed r | NotDenied r | NotApproved r | Owning r _ | Asked r _ => key_of request (ask_key r)
  | Waiting k _ | Checking k _ _ | Parked k _ _ | Finishing k _ _ _ | Answered (Some k) _ => key_of request k
  | Answered None _ => True
  end.

Lemma advance_handles request inp at_ s s' at' h :
  handles request at_ → advance inp at_ s = Some (s', at', h) → handles request at'.
Proof.
  destruct at_ as [request'|r|r|r|k c|k c n|k c n|r c|r c|k c [|a acts] res|]; simpl; intros Hh; destruct inp; try done;
    try (intros; repeat case_match; by simplify_eq/=).
  destruct (reviewable r); simpl; [|done]. destruct (review_plan _ _ _ _). by intros [= <- <- <-].
Qed.

Lemma reachable_handles s :
  rtc step initial s → Forall2 handles (requests s) (handlers s).
Proof.
  apply (reachable_induction (λ s, Forall2 handles (requests s) (handlers s))); try done.
  - intros s1 s2 IH Hh. destruct Hh as [i at_ inp s0 svc' at' h Hi Ha]. simpl.
    destruct (Forall2_lookup_r _ _ _ _ _ IH Hi) as (request&Hreq&Hh).
    rewrite <-(list_insert_id _ _ _ Hreq). apply Forall2_insert; [done|]. by eapply advance_handles.
  - intros. simpl. apply Forall2_app; [done|]. by repeat constructor.
Qed.

(** ** Calls and their outcomes *)

Lemma calls_get_insert id c cs id' :
  calls_get id' (calls_insert id c cs) = if decide (id = id') then Some c else calls_get id' cs.
Proof.
  induction cs as [|[k c'] cs IH]; simpl; [done|].
  repeat (case_decide; simpl); simplify_eq; by rewrite ?decide_True, ?decide_False by done.
Qed.
Lemma calls_get_remove id cs id' : id' ≠ id → calls_get id' (calls_remove id cs) = calls_get id' cs.
Proof.
  intros Hne. unfold calls_remove. induction cs as [|[k c] cs IH]; [done|].
  rewrite filter_cons. simpl. repeat (case_decide; simpl); by simplify_eq.
Qed.

(** A recorded outcome is that of an active call, which has been cancelled. *)
Definition outcomes_ok (s : service) : Prop :=
  ∀ id, is_Some (call_outcomes s !! id) → is_Some (calls_get id (active_calls s)) ∧ id ∈ cancelled s.

Lemma register_outcomes_ok id e s : outcomes_ok s → outcomes_ok (register_call id e s).
Proof.
  intros Hs id' Ho. destruct (Hs id' Ho) as [Hc ?]. split; [|done]. simpl. rewrite calls_get_insert.
  by case_decide.
Qed.
Lemma remove_outcomes_ok id s : outcomes_ok s → outcomes_ok (remove_call id s).1.
Proof.
  intros Hs id' [o Ho]. simpl in Ho. apply lookup_delete_Some in Ho as [Hne Ho]. destruct (Hs id') as [? ?]; [by eauto|].
  split; [|done]. simpl. by rewrite calls_get_remove.
Qed.
Lemma record_outcomes_ok id o s : outcomes_ok s → outcomes_ok (record_call_outcome id o s).
Proof.
  intros Hs. unfold record_call_outcome. destruct (calls_get id _) as [c|] eqn:Hc; [|done].
  assert (outcomes_ok (cancel id (set_calls (active_calls s) (<[id := o]> (call_outcomes s)) s))) as H.
  { intros id' [o' Ho]. simpl in *. apply lookup_insert_Some in Ho as [[<- <-]|[Hne Ho]].
    - rewrite Hc. split; [by eexists|set_solver].
    - destruct (Hs id') as [? ?]; [by eauto|]. split; [done|set_solver]. }
  by repeat case_match.
Qed.

(** A report of the proxy records at most the denial of one call, so it is covered by
    [step_blocked] however it interleaves. *)
Lemma record_blocked_records b s :
  record_blocked_request b s = s ∨
  ∃ id m, record_blocked_request b s = record_call_outcome id (DeniedByPolicy m) s.
Proof.
  unfold record_blocked_request, record_outcome_for_single_active_call. repeat case_match; eauto.
Qed.

(** The user's denial is not replaced. *)
Lemma record_keeps id id' o s :
  call_outcomes s !! id = Some DeniedByUser →
  call_outcomes (record_call_outcome id' o s) !! id = Some DeniedByUser.
Proof.
  intros Hid. unfold record_call_outcome. destruct (calls_get id' _); [|done].
  destruct (decide (id' = id)) as [->|Hne]; [by rewrite Hid|].
  repeat case_match; simpl; by rewrite ?lookup_insert_ne by done.
Qed.

(** A handler changes the calls only by recording an outcome. *)
Lemma advance_calls inp at_ s s' at' h :
  advance inp at_ s = Some (s', at', h) →
  (active_calls s' = active_calls s ∧ call_outcomes s' = call_outcomes s ∧ cancelled s' = cancelled s) ∨
  ∃ id o, s' = record_call_outcome id o s.
Proof.
  intros [| | | | | | | | |k c a acts res|]%advance_moved; try (by left). destruct a; try (by left). right. eauto.
Qed.

Lemma reachable_outcomes s : rtc step initial s → outcomes_ok (svc s).
Proof.
  apply (reachable_induction (λ s, outcomes_ok (svc s)));
    [intros id [? [=]]| |done|by intros; apply register_outcomes_ok|by intros; apply remove_outcomes_ok
    |by intros; apply record_outcomes_ok|done].
  intros s1 s2 IH Hh. destruct Hh as [i at_ inp s0 svc' at' h Hi Ha]. simpl.
  destruct (advance_calls _ _ _ _ _ _ Ha) as [(Hc&Ho&Hx)|(id&o&->)]; [|by apply record_outcomes_ok].
  intros id. rewrite Hc, Ho, Hx. apply IH.
Qed.

(** ** Properties *)

Lemma answered_allow_consented s i key :
  rtc step initial s → handlers s !! i = Some (Answered key NetAllow) →
  ∃ request e, requests s !! i = Some request ∧ key = Some (from_request request e) ∧
    consented (answers s) (from_request request e).
Proof.
  intros Hs Hi. pose proof (inv_pcs _ (reachable_ok s Hs) _ _ Hi) as Hok. destruct key as [k|]; [|done].
  destruct (Forall2_lookup_r _ _ _ _ _ (reachable_handles s Hs) Hi) as (request&Hreq&Hk).
  exists request, (host_environment_id k). simpl in Hk. unfold key_of in Hk. by rewrite <-Hk.
Qed.

(** A host is reached only with consent.  Whatever requests overlap, for the host,
    protocol and port of a request that is let through, and for its environment, a hook, the
    automatic reviewer or the user has consented; and the hosts remembered as approved were
    approved for the session. *)
Theorem network_reached_only_with_consent s :
  rtc step initial s →
  (∀ i key, handlers s !! i = Some (Answered key NetAllow) →
     ∃ request e, requests s !! i = Some request ∧ key = Some (from_request request e) ∧
       consented (answers s) (from_request request e)) ∧
  (∀ k, k ∈ session_approved_hosts (svc s) → consented_for_session (answers s) k).
Proof.
  intros Hs. split; [|apply (inv_approved _ (reachable_ok s Hs))]. intros i key. by apply answered_allow_consented.
Qed.

(** The handler asks the reviewers about the host of a key. *)
Definition asks_about (s : session) (k : HostApprovalKey) (i : nat) : Prop :=
  ∃ r c, handlers s !! i = Some (Asked r c) ∧ ask_key r = k.

(** For each host at most one handler asks at a time. *)
Theorem one_question_per_host s :
  rtc step initial s → ∀ k i j, asks_about s k i → asks_about s k j → i = j.
Proof.
  intros Hs%reachable_ok k i j (r&c&Hi&<-) (r'&c'&Hj&Hk).
  eapply (inv_unique _ Hs _ _ _ _ (ask_key r)); [done|done|done|]. simpl. by rewrite Hk.
Qed.

(** C22. No handler waits for ever, and no wake-up is lost, as long as hooks and reviewers answer
    what they are asked and no handler is dropped before it ends.  From any reachable session the
    handlers can go on until all requests are answered: as long as one is not, some handler can
    take a step, and any sequence of their steps ends within a number of steps that the session
    gives.  A step is a section of code under a lock, a call of [notify_waiters], the making of the
    future that [notified] returns, or the end of its await.  A handler that waits goes on only
    when it was notified after it had made that future; the owner sets the decision before it
    notifies.  If an owner could be dropped, the handlers that wait for it would wait for ever
    ([dropped_owner_strands_waiters]). *)
Theorem all_requests_answered s :
  rtc step initial s →
  (∃ s', rtc handler_step s s' ∧ Forall (λ at_, answered at_ = true) (handlers s')) ∧
  (∀ s', rtc handler_step s s' →
     Forall (λ at_, answered at_ = true) (handlers s') ∨ ∃ s'', handler_step s' s'') ∧
  (∀ n s', nsteps handler_step n s s' → n ≤ total s).
Proof.
  intros Hs%reachable_ok. split_and!.
  - by apply all_finish.
  - intros s' Hs'. by eapply progress_or_done, inv_handler_steps.
  - intros n s' Hn. induction Hn as [|n s1 s2 s3 H12 _ IH]; [lia|].
    pose proof (handler_step_total _ _ Hs H12). pose proof (IH (inv_handler_step _ _ Hs H12)). lia.
Qed.

Definition rejects (r : result ToolError unit) : Prop := ∃ m, r = Err (Rejected m).

(** A call whose network access was denied is told so: its outcome stops the call, and is
    what finishing the call reports; and once the user has denied access, nothing replaces
    that until the call is finished. *)
Theorem denied_call_is_rejected s id o :
  rtc step initial s → call_outcomes (svc s) !! id = Some o →
  id ∈ cancelled (svc s) ∧
  rejects (finish_call id (svc s)).2 ∧
  (o = DeniedByUser → ∀ s', step s s' →
     call_outcomes (svc s') !! id = Some DeniedByUser ∨ s' = with_svc (remove_call id (svc s)).1 s).
Proof.
  intros Hs Ho. destruct (reachable_outcomes s Hs id) as [_ Hc]; [by eauto|]. split_and!.
  - done.
  - unfold finish_call. simpl. rewrite Ho. destruct o; by eexists.
  - intros -> s' Hstep. destruct Hstep as [s1 s2 Hh|request s1|id' e s1|id' s1|id' m s1|other s1 _]; simpl; try (by left).
    + left. destruct Hh as [i at_ inp s0 svc' at' h Hi Ha]. simpl.
      destruct (advance_calls _ _ _ _ _ _ Ha) as [(_&->&_)|(id'&o&->)]; [done|by apply record_keeps].
    + destruct (decide (id' = id)) as [->|Hne]; [by right|left]. by rewrite lookup_delete_ne.
    + left. by apply record_keeps.
Qed.

(** ** Examples *)

(** Handlers stepped in a given order. *)
Fixpoint run_schedule (l : list (nat * input)) (s : session) : option session :=
  match l with
  | [] => Some s
  | (i, inp) :: l =>
      at_ ← handlers s !! i;
      '(svc', at', h) ← advance inp at_ (svc s);
      run_schedule l (with_handler i at' svc' h s)
  end.
Lemma run_schedule_steps l s s' : run_schedule l s = Some s' → rtc handler_step s s'.
Proof.
  revert s. induction l as [|[i inp] l IH]; intros s; simpl; [intros [= <-]; apply rtc_refl|].
  destruct (handlers s !! i) as [at_|] eqn:Hi; simpl; [|done].
  destruct (advance inp at_ (svc s)) as [[[svc' at'] h]|] eqn:Ha; simpl; [|done].
  intros Hl. eapply rtc_l; [by eapply handler_steps|]. by apply IH.
Qed.
Lemma schedule_reachable l s s' :
  rtc step initial s → run_schedule l s = Some s' → rtc step initial s'.
Proof.
  intros Hs Hl%run_schedule_steps. etrans; [exact Hs|].
  eapply rtc_subrel; [|exact Hl]. by intros ???; apply step_handler.
Qed.

(** Two requests for a host of a registered call: the second waits for the first, and is woken
    after the decision. *)
Definition ex_net_request : NetworkPolicyRequest :=
  mkNetRequest ProtoHttps (lit "X.org") 443 None (Some (lit "c1")).
Definition ex_net_turn : NetTurn :=
  mkNetTurn None (mkTurn false (Managed ManagedUnrestricted NetRestricted) PatchVerify.LevelDisabled
    true None ReviewByUser OnRequest PatchVerify.Linux (lit "t")).
Definition ex_two : session :=
  with_request ex_net_request (with_request ex_net_request
    (with_svc (register_call (lit "c1") (lit "local") new_service) initial)).
Definition ex_ask : list (nat * input) :=
  [(0, TurnIs (Some ex_net_turn)); (1, TurnIs (Some ex_net_turn)); (0, Quiet); (1, Quiet);
   (0, Quiet); (1, Quiet); (0, Quiet); (1, Quiet); (1, Quiet); (1, Quiet); (0, HookSays None)].
Definition ex_schedule (d : ReviewDecision) : list (nat * input) :=
  ex_ask ++ [(0, ReviewSays d [])] ++ replicate (if granted d then 5 else 4) (0, Quiet).
Definition ex_after (d : ReviewDecision) : session :=
  default initial (run_schedule (ex_schedule d ++ replicate 3 (1, Quiet)) ex_two).

Lemma ex_two_reachable : rtc step initial ex_two.
Proof.
  eapply rtc_l; [apply (step_register (lit "c1") (lit "local"))|].
  eapply rtc_l; [apply (step_request ex_net_request)|].
  eapply rtc_l; [apply (step_request ex_net_request)|]. apply rtc_refl.
Qed.
Lemma ex_after_reachable d : d = ApprovedForSession ∨ d = Denied → rtc step initial (ex_after d).
Proof.
  intros Hd. apply (schedule_reachable (ex_schedule d ++ replicate 3 (1, Quiet)) ex_two); [apply ex_two_reachable|].
  destruct Hd as [->| ->]; vm_compute; reflexivity.
Qed.

Definition ex_host : HostApprovalKey := mkHostKey (lit "local") (lit "x.org") (lit "https") 443.
Lemma network_reached_only_with_consent_witness :
  handlers (ex_after ApprovedForSession) !! 1 = Some (Answered (Some ex_host) NetAllow) ∧
  consented_for_session (answers (ex_after ApprovedForSession)) ex_host.
Proof.
  split; [vm_compute; reflexivity|].
  apply (network_reached_only_with_consent (ex_after ApprovedForSession)).
  - apply ex_after_reachable. left. reflexivity.
  - vm_compute. reflexivity.
Defined.

Definition ex_parked : session := default initial (run_schedule ex_ask ex_two).
Lemma ex_parked_reachable : rtc step initial ex_parked.
Proof. apply (schedule_reachable ex_ask ex_two); [apply ex_two_reachable|]. vm_compute. reflexivity. Qed.

Lemma one_question_per_host_witness : asks_about ex_parked ex_host 0 ∧ ∀ j, asks_about ex_parked ex_host j → 0 = j.
Proof.
  assert (asks_about ex_parked ex_host 0) as H0 by (do 2 eexists; split; vm_compute; reflexivity).
  split; [exact H0|]. intros j Hj. exact (one_question_per_host ex_parked ex_parked_reachable ex_host 0 j H0 Hj).
Defined.

(** The handler and its request are gone. *)
Definition drop_handler (i : nat) (s : session) : session :=
  mkSession (svc s) (delete i (requests s)) (delete i (handlers s)) (answers s).

(** If the handler that asks were dropped, the one that waits for its answer could not go on. *)
Theorem dropped_owner_strands_waiters :
  rtc step initial ex_parked ∧
  handlers (drop_handler 0 ex_parked) = [Parked ex_host 0 0] ∧
  ∀ s', ¬ handler_step (drop_handler 0 ex_parked) s'.
Proof.
  assert (handlers (drop_handler 0 ex_parked) = [Parked ex_host 0 0]) as Hh by (vm_compute; reflexivity).
  assert (notifications (svc (drop_handler 0 ex_parked)) 0 = 0) as Hn by (vm_compute; reflexivity).
  split_and!; [apply ex_parked_reachable|exact Hh|].
  intros s' Hstep. remember (drop_handler 0 ex_parked) as s eqn:Es. destruct Hstep as [i at_ inp s svc' at' h Hi Ha].
  rewrite Hh in Hi. apply list_lookup_singleton_Some in Hi as [-> <-]. destruct inp; try done. simpl in Ha.
  rewrite Hn in Ha. by rewrite decide_False in Ha by lia.
Qed.

(** A session may remember a host as denied that is copied to it as approved: the denial is what
    a handler looks at first. *)
Theorem synced_host_approved_and_denied :
  let s := with_sync (ex_after ApprovedForSession)
             (with_svc (set_hosts ∅ {[ex_host]} new_service) initial) in
  ex_host ∈ session_approved_hosts (svc s) ∧ ex_host ∈ session_denied_hosts (svc s) ∧
  ∀ r, ask_key r = ex_host →
    advance Quiet (Keyed r) (svc s) = Some (svc s, Answered (Some ex_host) (NetDeny REASON_NOT_ALLOWED), []).
Proof.
  intros s.
  assert (ex_host ∈ session_denied_hosts (svc s)) as Hd by (subst s; simpl; set_solver).
  split_and!; [vm_compute; reflexivity|done|]. intros r E. simpl. by rewrite E, decide_True.
Qed.

Lemma all_requests_answered_witness :
  ∃ s', rtc handler_step ex_two s' ∧ Forall (λ at_, answered at_ = true) (handlers s').
Proof. apply (all_requests_answered ex_two). apply ex_two_reachable. Defined.

Lemma denied_call_is_rejected_witness :
  lit "c1" ∈ cancelled (svc (ex_after Denied)) ∧
  rejects (finish_call (lit "c1") (svc (ex_after Denied))).2.
Proof.
  destruct (denied_call_is_rejected (ex_after Denied) (lit "c1") DeniedByUser) as (Hc&Hf&_).
  - apply ex_after_reachable. right. reflexivity.
  - vm_compute. reflexivity.
  - split; [exact Hc|exact Hf].
Defined.
End NetworkApprovalLaws.
