(* ===== verification/AgentPath.v ===== *)
(** * Paths of agents (protocol/src/agent_path.rs)

    An agent is named by a path below the root agent, [/root/researcher/worker]; one further
    agent, [/morpheus], stands beside the root.  Paths enter the program through [from_string]
    (also when they are read from JSON), [agent_join] adds a child and [agent_resolve] reads
    a reference relative to a path.  The theorems give the grammar of valid paths, show that
    names survive [agent_join], and that a relative reference is a sequence of joins. *)

From stdpp Require Import prelude strings.
From S2P Require Import Prelude RustStr.

(** [AgentPath(String)]: a newtype, built by the functions below. *)
Record AgentPath := mk_agent_path { as_str : str }.

#[global] Instance agent_path_eq_dec : EqDecision AgentPath.
Proof. solve_decision. Defined.

Definition slash : char := 47%N.
Definition ROOT : str := lit "/root".
Definition MORPHEUS : str := lit "/morpheus".
Definition ROOT_SEGMENT : str := lit "root".

Definition agent_root : AgentPath := mk_agent_path ROOT.
Definition morpheus : AgentPath := mk_agent_path MORPHEUS.

Definition is_root (p : AgentPath) : bool := bool_decide (as_str p = ROOT).

(** [validate_agent_name]: the tests in the order of the code, each with its message. *)
Definition agent_name_char (c : char) : bool :=
  (((97 <=? c) && (c <=? 122)) || is_ascii_digit c || (c =? 95))%N.

Definition validate_agent_name (agent_name : str) : result str unit :=
  if bool_decide (agent_name = []) then Err (lit "agent_name must not be empty")
  else if bool_decide (agent_name = ROOT_SEGMENT) then Err (lit "agent_name `root` is reserved")
  else if bool_decide (agent_name = lit ".") || bool_decide (agent_name = lit "..") then
    Err (lit "agent_name `" ++ agent_name ++ lit "` is reserved")
  else if contains_char slash agent_name then Err (lit "agent_name must not contain `/`")
  else if negb (forallb agent_name_char agent_name) then
    Err (lit "agent_name must use only lowercase letters, digits, and underscores")
  else Ok tt.

(** The loops [for segment in segments { validate_agent_name(segment)?; }]. *)
Fixpoint validate_segments (segments : list str) : result str unit :=
  match segments with
  | [] => Ok tt
  | segment :: segments => let? _ := validate_agent_name segment in validate_segments segments
  end.

Definition must_start : str :=
  lit "absolute agent paths must start with `/root` or be `/morpheus`".

Definition validate_absolute_path (path : str) : result str unit :=
  if bool_decide (path = MORPHEUS) then Ok tt
  else match strip_prefix [slash] path with
       | None => Err must_start
       | Some stripped =>
           match split_on slash stripped with
           | [] => Err (lit "absolute agent path must not be empty")
           | root :: segments =>
               if negb (bool_decide (root = ROOT_SEGMENT)) then Err must_start
               else if ends_with [slash] stripped then
                 Err (lit "absolute agent path must not end with `/`")
               else validate_segments segments
           end
       end.

Definition validate_relative_reference (reference : str) : result str unit :=
  if ends_with [slash] reference then
    Err (lit "relative agent path must not end with `/`")
  else validate_segments (split_on slash reference).

Definition from_string (path : str) : result str AgentPath :=
  let? _ := validate_absolute_path path in Ok (mk_agent_path path).

(** [name]: [rsplit('/').next()] is the last piece. *)
Definition agent_name (p : AgentPath) : str :=
  if is_root p then ROOT_SEGMENT
  else match last (split_on slash (as_str p)) with
       | Some segment => if bool_decide (segment = []) then ROOT_SEGMENT else segment
       | None => ROOT_SEGMENT
       end.

Definition agent_join (p : AgentPath) (agent_name : str) : result str AgentPath :=
  let? _ := validate_agent_name agent_name in
  from_string (as_str p ++ [slash] ++ agent_name).

Definition agent_resolve (p : AgentPath) (reference : str) : result str AgentPath :=
  if bool_decide (reference = []) then Err (lit "agent path must not be empty")
  else if bool_decide (reference = ROOT) then Ok agent_root
  else if starts_with [slash] reference then from_string reference
  else
    let? _ := validate_relative_reference reference in
    from_string (as_str p ++ [slash] ++ reference).

(** ** The grammar *)

(** A valid name: not empty, not [root], made of lowercase letters, digits and [_]. *)
Definition valid_name (n : str) : Prop :=
  n ≠ [] ∧ n ≠ ROOT_SEGMENT ∧ Forall (λ c, agent_name_char c = true) n.

(** The path below the root with the given names. *)
Definition path_of (names : list str) : str := join [slash] ([] :: ROOT_SEGMENT :: names).

Definition valid_path (p : AgentPath) : Prop := validate_absolute_path (as_str p) = Ok tt.

Lemma agent_name_char_not_slash n :
  Forall (λ c, agent_name_char c = true) n → slash ∉ n.
Proof.
  intros Hn Hin. by pose proof (proj1 (Forall_forall _ _) Hn _ Hin).
Qed.

Lemma valid_name_no_slash n : valid_name n → slash ∉ n.
Proof. intros (_ & _ & Hn). by apply agent_name_char_not_slash. Qed.

Lemma forallb_Forall {A} (f : A → bool) l : forallb f l = true ↔ Forall (λ x, f x = true) l.
Proof. rewrite forallb_forall, Forall_forall. by setoid_rewrite <- list_elem_of_In. Qed.

Lemma validate_agent_name_ok n : validate_agent_name n = Ok tt ↔ valid_name n.
Proof.
  unfold validate_agent_name, valid_name. split.
  - repeat case_bool_decide; simpl; try done. destruct (contains_char slash n); [done|].
    destruct (forallb agent_name_char n) eqn:E; [|done]. intros _. split_and!; try done.
    by apply forallb_Forall.
  - intros (Hne & Hr & Hn). rewrite !bool_decide_false by (done || (intros ->; inversion Hn; done)).
    simpl. unfold contains_char. rewrite bool_decide_false by by apply agent_name_char_not_slash.
    by rewrite (proj2 (forallb_Forall _ _) Hn).
Qed.

Lemma validate_segments_ok l : validate_segments l = Ok tt ↔ Forall valid_name l.
Proof.
  induction l as [|n l IH]; simpl; [done|]. rewrite Forall_cons, <- IH, <- validate_agent_name_ok.
  destruct (validate_agent_name n) as [[]|]; simpl; naive_solver.
Qed.

Lemma last_split_on_ends s : ends_with [slash] s = true ↔ last (split_on slash s) = Some [] ∧ s ≠ [].
Proof.
  unfold ends_with. rewrite bool_decide_eq_true. split.
  - intros [r ->%strip_suffix_Some]. rewrite split_on_app. simpl. rewrite last_snoc. split; [done|]. by destruct r.
  - intros [Hl Hs]. apply last_Some_snoc in Hl as [l' Hl].
    exists (join [slash] l'). apply strip_suffix_Some. rewrite <- (join_split_on slash s) at 1.
    rewrite Hl. destruct l' as [|w l'].
    + exfalso. apply Hs. by rewrite <- (join_split_on slash s), Hl.
    + rewrite join_snoc by done. by rewrite app_nil_r.
Qed.

#[global] Arguments path_of : simpl never.

Lemma path_of_cons names : path_of names = slash :: join [slash] (ROOT_SEGMENT :: names).
Proof. done. Qed.

Lemma split_path_of names :
  Forall valid_name names → split_on slash (path_of names) = [] :: ROOT_SEGMENT :: names.
Proof.
  intros Hn. apply split_on_join; [done|]. repeat constructor; try by apply not_elem_of_nil.
  - by apply (bool_decide_eq_false (slash ∈ ROOT_SEGMENT)).
  - eapply Forall_impl; [exact Hn|]. apply valid_name_no_slash.
Qed.

Lemma path_of_inj l1 l2 :
  Forall valid_name l1 → Forall valid_name l2 → path_of l1 = path_of l2 → l1 = l2.
Proof.
  intros H1 H2 E. apply (f_equal (split_on slash)) in E. rewrite !split_path_of in E by done. congruence.
Qed.

Lemma path_of_not_morpheus names : path_of names ≠ MORPHEUS.
Proof. rewrite path_of_cons. destruct names; by vm_compute. Qed.

Lemma validate_absolute_path_ok s :
  validate_absolute_path s = Ok tt ↔ s = MORPHEUS ∨ ∃ names, Forall valid_name names ∧ s = path_of names.
Proof.
  unfold validate_absolute_path. case_bool_decide as Hm; [naive_solver|].
  split.
  - destruct (strip_prefix _ s) as [t|] eqn:Hs; [|done]. apply strip_prefix_Some in Hs as ->.
    destruct (split_on slash t) as [|r segs] eqn:Ht; [done|].
    case_bool_decide as Hr; simpl; [|done]. destruct (ends_with _ _); [done|].
    intros Hv%validate_segments_ok. right. exists segs. split; [done|]. subst r.
    rewrite path_of_cons, <- Ht, join_split_on. done.
  - intros [->|(names & Hv & ->)]; [done|]. rewrite path_of_cons. simpl.
    pose proof (split_path_of names Hv) as Hsp.
    rewrite path_of_cons in Hsp. simpl in Hsp. injection Hsp as Hsp. simpl. rewrite Hsp.
    rewrite bool_decide_true by done. simpl.
    destruct (ends_with _ _) eqn:He.
    + apply last_split_on_ends in He as [He _]. simpl in He, Hsp. rewrite Hsp in He.
      destruct names as [|n names] using rev_ind; [done|].
      change (last ((ROOT_SEGMENT :: names) ++ [n]) = Some []) in He. rewrite last_snoc in He.
      apply Forall_app in Hv as [_ Hv]. inversion Hv as [|? ? [??]]; naive_solver.
    + by apply validate_segments_ok.
Qed.

Lemma from_string_ok s p : from_string s = Ok p ↔ p = mk_agent_path s ∧ validate_absolute_path s = Ok tt.
Proof. unfold from_string. destruct (validate_absolute_path s) as [[]|]; simpl; naive_solver. Qed.

Lemma path_of_snoc names n : path_of (names ++ [n]) = path_of names ++ [slash] ++ n.
Proof.
  unfold path_of. rewrite <- join_snoc by done. by rewrite !app_comm_cons.
Qed.

Lemma path_of_app names names' :
  names' ≠ [] → path_of (names ++ names') = path_of names ++ [slash] ++ join [slash] names'.
Proof.
  revert names. induction names' as [|n l IH]; [done|]. intros names _.
  destruct l as [|n' l]; [by rewrite path_of_snoc|].
  rewrite cons_middle, app_assoc, IH by done. rewrite path_of_snoc, <- !app_assoc.
  by rewrite join_cons.
Qed.

Lemma valid_path_cases p :
  valid_path p ↔ p = morpheus ∨ ∃ names, Forall valid_name names ∧ p = mk_agent_path (path_of names).
Proof.
  unfold valid_path, morpheus. rewrite validate_absolute_path_ok. destruct p as [s]. simpl.
  split; (intros [?|(names & ? & ?)]; [left|right; exists names]); naive_solver.
Qed.

Lemma valid_path_slash p : valid_path p → ∃ s, as_str p = slash :: s.
Proof.
  intros [->|(names & _ & ->)]%valid_path_cases; [by eexists|]. simpl. rewrite path_of_cons. eauto.
Qed.

(** Nothing below [/morpheus] is a path. *)
Lemma morpheus_has_no_children s : ¬ validate_absolute_path (MORPHEUS ++ [slash] ++ s) = Ok tt.
Proof.
  unfold validate_absolute_path. by rewrite bool_decide_false.
Qed.

Lemma agent_join_ok p n q :
  valid_path p →
  agent_join p n = Ok q ↔
  valid_name n ∧ ∃ names, Forall valid_name names ∧ p = mk_agent_path (path_of names)
                          ∧ q = mk_agent_path (path_of (names ++ [n])).
Proof.
  intros Hp. unfold agent_join. split.
  - intros ([] & Hn%validate_agent_name_ok & [-> Hq]%from_string_ok)%result_bind_ok. split; [done|].
    apply valid_path_cases in Hp as [->|(names & Hv & ->)]; [by apply morpheus_has_no_children in Hq|].
    exists names. by rewrite path_of_snoc.
  - intros (Hn & names & Hv & -> & ->). rewrite (proj2 (validate_agent_name_ok n) Hn). simpl.
    rewrite path_of_snoc. apply from_string_ok. split; [done|]. apply validate_absolute_path_ok. right.
    exists (names ++ [n]). rewrite Forall_app, path_of_snoc. repeat split; auto.
Qed.

(** The joins a relative reference stands for. *)
Definition join_all (p : AgentPath) (names : list str) : option AgentPath :=
  foldl (λ acc n, q ← acc; result_ok (agent_join q n)) (Some p) names.

Lemma join_all_None names : foldl (λ acc n, q ← acc; result_ok (agent_join q n)) None names = None.
Proof. by induction names. Qed.

Lemma join_all_morpheus names : names ≠ [] → join_all morpheus names = None.
Proof.
  destruct names as [|n names]; [done|]. intros _. unfold join_all. simpl.
  destruct (agent_join morpheus n) as [q|] eqn:Ej; [|apply join_all_None].
  apply agent_join_ok in Ej as (_ & base & _ & Em & _); [|apply valid_path_cases; auto].
  apply (f_equal as_str) in Em. by destruct (path_of_not_morpheus base).
Qed.

Lemma join_all_below names base :
  Forall valid_name base →
  join_all (mk_agent_path (path_of base)) names =
  if decide (Forall (λ n, validate_agent_name n = Ok tt) names)
  then Some (mk_agent_path (path_of (base ++ names))) else None.
Proof.
  unfold join_all. revert base. induction names as [|n names IH]; intros base Hb; simpl.
  { by rewrite app_nil_r. }
  assert (Hp : valid_path (mk_agent_path (path_of base))) by (apply valid_path_cases; eauto).
  destruct (agent_join _ n) as [q|e] eqn:E; simpl.
  - apply agent_join_ok in E as (Hn & base' & Hb' & Heq & ->); [|done].
    apply (f_equal as_str), path_of_inj in Heq as <-; [|done|done].
    rewrite IH by (apply Forall_app; auto). rewrite <- app_assoc. simpl.
    apply validate_agent_name_ok in Hn.
    repeat case_decide; rewrite ?Forall_cons in *; naive_solver.
  - rewrite join_all_None, decide_False; [done|].
    intros [Hn%validate_agent_name_ok _]%Forall_cons.
    assert (agent_join (mk_agent_path (path_of base)) n = Ok (mk_agent_path (path_of (base ++ [n]))))
      by (apply agent_join_ok; eauto). congruence.
Qed.

Lemma validate_relative_reference_ok r :
  validate_relative_reference r = Ok tt ↔ Forall valid_name (split_on slash r).
Proof.
  unfold validate_relative_reference. destruct (ends_with _ r) eqn:E.
  - split; [done|]. intros Hv. apply last_split_on_ends in E as [E _].
    apply last_Some_snoc in E as [l E]. rewrite E in Hv.
    apply Forall_app in Hv as [_ Hv]. inversion Hv as [|? ? [??]]; naive_solver.
  - apply validate_segments_ok.
Qed.

(** A text is accepted as the path of an agent exactly when it is [/morpheus] or [/root]
    followed by valid names, and the names of a path below the root are determined by its
    text. *)
Theorem agent_path_grammar s :
  (∀ p, from_string s = Ok p ↔
        as_str p = s ∧ (s = MORPHEUS ∨ ∃ names, Forall valid_name names ∧ s = path_of names))
  ∧ (∀ l1 l2, Forall valid_name l1 → Forall valid_name l2 → s = path_of l1 → s = path_of l2 → l1 = l2).
Proof.
  split.
  - intros [t]. rewrite from_string_ok, validate_absolute_path_ok. simpl. naive_solver.
  - intros l1 l2 ? ? -> ?. by apply path_of_inj.
Qed.

(** Joining a name to a valid path succeeds exactly below the root and for valid names; the
    new path is valid, not the root, and has that name. *)
Theorem agent_join_names p n q :
  valid_path p → agent_join p n = Ok q →
  valid_path q ∧ is_root q = false ∧ agent_name q = n ∧ as_str q = as_str p ++ [slash] ++ n.
Proof.
  intros Hp (Hn & names & Hv & -> & ->)%agent_join_ok; [|done].
  assert (Hl : Forall valid_name (names ++ [n])) by (apply Forall_app; auto).
  assert (Hr : is_root (mk_agent_path (path_of (names ++ [n]))) = false).
  { apply bool_decide_eq_false. simpl. change ROOT with (path_of []).
    intros E%path_of_inj; [|done|constructor]. by destruct names. }
  split_and!; [apply valid_path_cases; eauto|done| |by simpl as_str; rewrite path_of_snoc].
  unfold agent_name. rewrite Hr. simpl as_str. rewrite split_path_of by done.
  rewrite !app_comm_cons, last_snoc. rewrite bool_decide_false; [done|]. by destruct Hn.
Qed.

(** A reference that is not absolute is resolved as the joins of its pieces, one by one, and
    fails when one of them fails. *)
Theorem agent_resolve_is_joins p r :
  valid_path p → r ≠ [] → starts_with [slash] r = false →
  result_ok (agent_resolve p r) = join_all p (split_on slash r).
Proof.
  intros Hp Hr Hs. unfold agent_resolve. rewrite (bool_decide_false (r = [])) by done.
  rewrite bool_decide_false by (intros ->; done). rewrite Hs.
  apply valid_path_cases in Hp as [->|(names & Hv & ->)].
  - rewrite join_all_morpheus by apply split_on_not_nil.
    destruct (validate_relative_reference r) as [[]|]; [cbn [result_bind]|done].
    destruct (from_string _) as [q|] eqn:Eq; [|done].
    apply from_string_ok in Eq as [_ Eq]. by apply morpheus_has_no_children in Eq.
  - rewrite join_all_below by done. simpl as_str.
    case_decide as Hd.
    + assert (Hn : Forall valid_name (split_on slash r))
        by (eapply Forall_impl; [exact Hd|]; intros ? ?%validate_agent_name_ok; done).
      rewrite (proj2 (validate_relative_reference_ok r) Hn). cbn [result_bind].
      assert (Hpath : path_of (names ++ split_on slash r) = path_of names ++ [slash] ++ r)
        by (rewrite path_of_app, join_split_on by apply split_on_not_nil; done).
      rewrite (proj2 (from_string_ok (path_of names ++ [slash] ++ r) (mk_agent_path (path_of names ++ [slash] ++ r)))); [by rewrite Hpath|].
      split; [done|]. apply validate_absolute_path_ok. right.
      exists (names ++ split_on slash r). rewrite Forall_app. auto.
    + destruct (validate_relative_reference r) as [[]|] eqn:E; [|done].
      destruct Hd. apply validate_relative_reference_ok in E.
      eapply Forall_impl; [exact E|]. intros ? ?%validate_agent_name_ok; done.
Qed.
