(* ===== verification/AgentRegistry.v ===== *)
(** * The registry of agents (core/src/agent/registry.rs, core/src/agent/control.rs)

    A session may spawn agents, each a thread of its own.  The registry counts them against a
    limit, keeps the tree of their paths and hands out nicknames.  A spawn first takes a slot
    ([reserve_spawn_slot], a compare-exchange loop on an atomic counter), then reserves a path
    and a nickname, creates the thread, and commits; a spawn that fails on the way drops its
    reservation.  Spawns of several agents overlap: every section that holds the lock, and
    every operation on the counter, is one step of the relation [step].

    The class [RegistryEnv] has what the program takes from elsewhere: the text of a thread id
    and the order in which a [HashMap] is traversed. *)

From stdpp Require Import prelude strings list gmap relations pretty.
From S2P Require Import Prelude RustStr AgentPath.

Notation ThreadId := N (only parsing).

(** ** Machine integers *)

Definition usize_bound : N := (2 ^ 64)%N.
(** [AtomicUsize::fetch_add] and [fetch_sub] wrap around; so does [+ 1] in a release build. *)
Definition fetch_add1 (n : N) : N := ((n + 1) mod usize_bound)%N.
Definition fetch_sub1 (n : N) : N := ((n + (usize_bound - 1)) mod usize_bound)%N.

(** ** The data *)

Record AgentMetadata := mkMetadata {
  agent_id : option ThreadId;
  agent_path : option AgentPath;
  agent_nickname : option (list N);
  agent_role : option (list N);
  last_task_message : option (list N) }.

Definition default_metadata : AgentMetadata := mkMetadata None None None None None.

Record ActiveAgents := mkActive {
  agent_tree : gmap (list N) AgentMetadata;
  used_agent_nicknames : gset (list N);
  nickname_reset_count : N }.

Record AgentRegistry := mkRegistry {
  active_agents : ActiveAgents;
  total_count : N }.

Definition default_registry : AgentRegistry := mkRegistry (mkActive ∅ ∅ 0) 0.

(** [CodexErr], as far as the registry makes it. *)
Inductive RegistryErr :=
| AgentLimitReached (max_threads : N)
| UnsupportedOperation (message : list N)
| SpawnFailed (message : list N).

Class RegistryEnv := {
  thread_text : ThreadId → list N;
  tree_iter : gmap (list N) AgentMetadata → list (list N * AgentMetadata) }.

(** Thread ids print as UUIDs, which tells them apart; a traversal of a [HashMap] visits every
    entry once. *)
Class RegistryEnvLaws `(RegistryEnv) : Prop := {
  thread_text_inj : Inj (=) (=) thread_text;
  tree_iter_perm m : tree_iter m ≡ₚ map_to_list m }.

(** The sections that hold the lock change [ActiveAgents] only. *)
Definition with_active (f : ActiveAgents → ActiveAgents) (r : AgentRegistry) : AgentRegistry :=
  mkRegistry (f (active_agents r)) (total_count r).
Definition with_tree (f : gmap (list N) AgentMetadata → gmap (list N) AgentMetadata)
    (a : ActiveAgents) : ActiveAgents :=
  mkActive (f (agent_tree a)) (used_agent_nicknames a) (nickname_reset_count a).
Definition set_count (n : N) (r : AgentRegistry) : AgentRegistry :=
  mkRegistry (active_agents r) n.

Definition tree (r : AgentRegistry) : gmap (list N) AgentMetadata := agent_tree (active_agents r).

(** [metadata.agent_path.as_ref().is_some_and(AgentPath::is_root)]. *)
Definition is_root_agent (m : AgentMetadata) : bool := from_option is_root false (agent_path m).

(** ** Nicknames and depths *)

Definition format_agent_nickname (name : list N) (nickname_reset_count : N) : list N :=
  if (nickname_reset_count =? 0)%N then name
  else
    let value := fetch_add1 nickname_reset_count in
    let suffix :=
      if ((11 <=? value mod 100) && (value mod 100 <=? 13))%N then lit "th"
      else if (value mod 10 =? 1)%N then lit "st"
      else if (value mod 10 =? 2)%N then lit "nd"
      else if (value mod 10 =? 3)%N then lit "rd"
      else lit "th" in
    name ++ lit " the " ++ lit (pretty value) ++ suffix.

Inductive SubAgentSource :=
| Review
| Compact
| ThreadSpawn (parent_thread_id : ThreadId) (depth : Z) (agent_path : option AgentPath)
    (agent_nickname agent_role : option (list N))
| MemoryConsolidation
| OtherSubAgent (name : list N).

Inductive SessionSource :=
| Cli | VSCode | SourceExec | Mcp
| Custom (name : list N)
| Internal
| SubAgent (source : SubAgentSource)
| UnknownSource.

Definition i32_max : Z := 2147483647%Z.

Definition session_depth (s : SessionSource) : Z :=
  match s with SubAgent (ThreadSpawn _ depth _ _ _) => depth | SubAgent _ => 0 | _ => 0 end%Z.

(** [saturating_add(1)] on [i32]. *)
Definition next_thread_spawn_depth (s : SessionSource) : Z :=
  Z.min i32_max (session_depth s + 1).

Definition exceeds_thread_spawn_depth_limit (depth max_depth : Z) : bool :=
  (max_depth <? depth)%Z.

(** [SessionSource::get_agent_path]. *)
Definition get_agent_path (s : SessionSource) : option AgentPath :=
  match s with SubAgent (ThreadSpawn _ _ path _ _) => path | _ => None end.

(** [IndexedRandom::choose]: an element at a random index, none of an empty slice. *)
Definition choose {A} (random : nat) (l : list A) : option A := l !! (random mod length l).

Section registry.
Context `{RegistryEnv}.

(** ** The operations of [AgentRegistry] *)

(** The entry a traversal meets first for a thread. *)
Definition find_thread (thread_id : ThreadId) (t : gmap (list N) AgentMetadata) :
    option (list N * AgentMetadata) :=
  snd <$> list_find (λ e, agent_id (snd e) = Some thread_id) (tree_iter t).

(** [total_count.fetch_sub(1)]. *)
Definition give_back_slot (r : AgentRegistry) : AgentRegistry :=
  set_count (fetch_sub1 (total_count r)) r.

(** The section of [release_spawned_thread] that holds the lock: is the removed agent one
    that is counted? *)
Definition release_section (thread_id : ThreadId) (r : AgentRegistry) : AgentRegistry * bool :=
  match find_thread thread_id (tree r) with
  | None => (r, false)
  | Some (key, _) =>
      (with_active (with_tree (delete key)) r,
       from_option (λ m, negb (is_root_agent m)) false (tree r !! key))
  end.

Definition release_spawned_thread (thread_id : ThreadId) (r : AgentRegistry) : AgentRegistry :=
  let '(r', removed_counted_agent) := release_section thread_id r in
  if removed_counted_agent then give_back_slot r' else r'.

Definition register_root_thread (thread_id : ThreadId) : AgentRegistry → AgentRegistry :=
  with_active (with_tree (λ t,
    match t !! ROOT with
    | Some _ => t
    | None => <[ROOT := mkMetadata (Some thread_id) (Some agent_root) None None None]> t
    end)).

Definition agent_id_for_path (r : AgentRegistry) (path : AgentPath) : option ThreadId :=
  m ← tree r !! as_str path; agent_id m.

Definition agent_metadata_for_thread (r : AgentRegistry) (thread_id : ThreadId) :
    option AgentMetadata :=
  snd <$> find_thread thread_id (tree r).

Definition counted (m : AgentMetadata) : bool :=
  bool_decide (is_Some (agent_id m)) && negb (is_root_agent m).

Definition live_agents (r : AgentRegistry) : list AgentMetadata :=
  filter (λ m, counted m = true) (snd <$> tree_iter (tree r)).

Definition set_last_task_message (message : option (list N)) (m : AgentMetadata) : AgentMetadata :=
  mkMetadata (agent_id m) (agent_path m) (agent_nickname m) (agent_role m) message.

Definition update_found (thread_id : ThreadId) (f : AgentMetadata → AgentMetadata)
    (t : gmap (list N) AgentMetadata) : gmap (list N) AgentMetadata :=
  match find_thread thread_id t with Some (key, m) => <[key := f m]> t | None => t end.

Definition update_last_task_message (thread_id : ThreadId) (message : list N) :
    AgentRegistry → AgentRegistry :=
  with_active (with_tree (update_found thread_id (set_last_task_message (Some message)))).

Definition clear_last_task_message (thread_id : ThreadId) : AgentRegistry → AgentRegistry :=
  with_active (with_tree (update_found thread_id (set_last_task_message None))).

(** The key of an entry: its path, or the text of its thread. *)
Definition thread_key (thread_id : ThreadId) : list N := lit "thread:" ++ thread_text thread_id.

Definition register_spawned_thread (m : AgentMetadata) (r : AgentRegistry) : AgentRegistry :=
  match agent_id m with
  | None => r
  | Some thread_id =>
      let key := from_option as_str (thread_key thread_id) (agent_path m) in
      with_active (λ a,
        mkActive (<[key := m]> (agent_tree a))
          (match agent_nickname m with
           | Some n => {[n]} ∪ used_agent_nicknames a
           | None => used_agent_nicknames a
           end)
          (nickname_reset_count a)) r
  end.

(** [reserve_agent_nickname], with the two random numbers it may draw. *)
Definition reserve_agent_nickname (random1 random2 : nat) (names : list (list N))
    (preferred : option (list N)) (a : ActiveAgents) : ActiveAgents * option (list N) :=
  let use (a : ActiveAgents) (n : list N) :=
    (mkActive (agent_tree a) ({[n]} ∪ used_agent_nicknames a) (nickname_reset_count a), Some n) in
  match preferred with
  | Some n => use a n
  | None =>
      if bool_decide (names = []) then (a, None)
      else
        let available_names :=
          filter (λ n, n ∉ used_agent_nicknames a)
            ((λ n, format_agent_nickname n (nickname_reset_count a)) <$> names) in
        match choose random1 available_names with
        | Some n => use a n
        | None =>
            let a' := mkActive (agent_tree a) ∅ (fetch_add1 (nickname_reset_count a)) in
            match choose random2 names with
            | Some n => use a' (format_agent_nickname n (nickname_reset_count a'))
            | None => (a', None)
            end
        end
  end.

Definition reserve_agent_path (path : AgentPath) (r : AgentRegistry) :
    AgentRegistry * result RegistryErr unit :=
  match tree r !! as_str path with
  | Some _ =>
      (r, Err (UnsupportedOperation (lit "agent path `" ++ as_str path ++ lit "` already exists")))
  | None =>
      (with_active (with_tree
         (insert (as_str path) (mkMetadata None (Some path) None None None))) r, Ok tt)
  end.

Definition release_reserved_agent_path (path : AgentPath) : AgentRegistry → AgentRegistry :=
  with_active (with_tree (λ t,
    if from_option (λ m, bool_decide (agent_id m = None)) false (t !! as_str path)
    then delete (as_str path) t else t)).

(** ** Reservations *)

(** [SpawnReservation]; [active] is true until [commit], which consumes the value. *)
Record SpawnReservation := mkReservation {
  reserved_agent_nickname : option (list N);
  reserved_agent_path : option AgentPath }.

(** [Drop] of a reservation that was not committed: the path is given back under the lock,
    then the slot. *)
Definition drop_path (v : SpawnReservation) (r : AgentRegistry) : AgentRegistry :=
  match reserved_agent_path v with
  | Some path => release_reserved_agent_path path r
  | None => r
  end.
Definition drop_reservation (v : SpawnReservation) (r : AgentRegistry) : AgentRegistry :=
  give_back_slot (drop_path v r).

Definition reserve_agent_nickname_with_preference (random1 random2 : nat) (names : list (list N))
    (preferred : option (list N)) (v : SpawnReservation) (r : AgentRegistry) :
    AgentRegistry * SpawnReservation * result RegistryErr (list N) :=
  let '(a, o) := reserve_agent_nickname random1 random2 names preferred (active_agents r) in
  let r' := mkRegistry a (total_count r) in
  match o with
  | Some n => (r', mkReservation (Some n) (reserved_agent_path v), Ok n)
  | None => (r', v, Err (UnsupportedOperation (lit "no available agent nicknames")))
  end.

Definition reservation_reserve_path (path : AgentPath) (v : SpawnReservation) (r : AgentRegistry) :
    AgentRegistry * SpawnReservation * result RegistryErr unit :=
  match reserve_agent_path path r with
  | (r', Ok _) => (r', mkReservation (reserved_agent_nickname v) (Some path), Ok tt)
  | (r', Err e) => (r', v, Err e)
  end.

(** [commit]: clears what was reserved, registers the agent, deactivates the reservation. *)
Definition commit (m : AgentMetadata) (v : SpawnReservation) (r : AgentRegistry) : AgentRegistry :=
  register_spawned_thread m r.

(** ** Looking agents up by reference *)

(** [resolve_agent_reference]. *)
Definition resolve_agent_reference (source : SessionSource) (reference : list N)
    (r : AgentRegistry) : result RegistryErr ThreadId :=
  let current_agent_path := default agent_root (get_agent_path source) in
  let? path := map_err UnsupportedOperation (agent_resolve current_agent_path reference) in
  match agent_id_for_path r path with
  | Some thread_id => Ok thread_id
  | None =>
      Err (UnsupportedOperation (lit "live agent path `" ++ as_str path ++ lit "` not found"))
  end.

(** ** Spawning an agent

    What [spawn_agent_internal] and [resume_single_agent_from_rollout] do with the registry,
    [prepare_thread_spawn] included, cut at every lock and every operation on the counter. *)

(** The fields of [SubAgentSource::ThreadSpawn] and the names [agent_nickname_candidates]
    proposes. *)
Record SpawnArgs := mkSpawnArgs {
  spawn_parent : ThreadId;
  spawn_depth : Z;
  spawn_path : option AgentPath;
  spawn_role : option (list N);
  spawn_preferred : option (list N);
  spawn_names : list (list N) }.

Inductive proc :=
(* a spawn: about to take a slot, in the compare-exchange loop, with a reservation *)
| Acquiring (max_threads : option N) (args : option SpawnArgs)
| Incrementing (max_threads current : N) (args : option SpawnArgs)
| Reserved (v : SpawnReservation) (args : option SpawnArgs)
| RootDone (v : SpawnReservation) (args : SpawnArgs)
| PathDone (v : SpawnReservation) (args : SpawnArgs)
| Creating (v : SpawnReservation) (m : AgentMetadata)
| Dropping (e : RegistryErr)
| Spawned (thread_id : ThreadId)
| Failed (e : RegistryErr)
(* a release of a thread *)
| Releasing (thread_id : ThreadId)
| ReleaseCounting
| Released.

(** What the outside decides at a step: a spurious failure of the weak compare-exchange, random
    numbers, and the outcome of creating the thread. *)
Record choice := mkChoice {
  spurious : bool;
  random1 : nat;
  random2 : nat;
  created : result (list N) ThreadId }.

Definition advance (c : choice) (r : AgentRegistry) (p : proc) : AgentRegistry * proc :=
  match p with
  | Acquiring None args =>
      (set_count (fetch_add1 (total_count r)) r, Reserved (mkReservation None None) args)
  | Acquiring (Some max_threads) args => (r, Incrementing max_threads (total_count r) args)
  | Incrementing max_threads current args =>
      if (max_threads <=? current)%N then (r, Failed (AgentLimitReached max_threads))
      else if negb (spurious c) && (total_count r =? current)%N then
        (set_count (current + 1)%N r, Reserved (mkReservation None None) args)
      else (r, Incrementing max_threads (total_count r) args)
  | Reserved v None => (r, Creating v default_metadata)
  | Reserved v (Some args) =>
      (if (spawn_depth args =? 1)%Z then register_root_thread (spawn_parent args) r else r,
       RootDone v args)
  | RootDone v args =>
      match spawn_path args with
      | None => (r, PathDone v args)
      | Some path =>
          match reservation_reserve_path path v r with
          | (r', v', Ok _) => (r', PathDone v' args)
          | (r', v', Err e) => (drop_path v' r', Dropping e)
          end
      end
  | PathDone v args =>
      match reserve_agent_nickname_with_preference (random1 c) (random2 c)
              (spawn_names args) (spawn_preferred args) v r with
      | (r', v', Ok n) =>
          (r', Creating v' (mkMetadata None (spawn_path args) (Some n) (spawn_role args) None))
      | (r', v', Err e) => (drop_path v' r', Dropping e)
      end
  | Creating v m =>
      match created c with
      | Ok thread_id =>
          (commit (mkMetadata (Some thread_id) (agent_path m) (agent_nickname m) (agent_role m)
                     (last_task_message m)) v r, Spawned thread_id)
      | Err e => (drop_path v r, Dropping (SpawnFailed e))
      end
  | Dropping e => (give_back_slot r, Failed e)
  | Releasing thread_id =>
      let '(r', removed_counted_agent) := release_section thread_id r in
      (r', if removed_counted_agent then ReleaseCounting else Released)
  | ReleaseCounting => (give_back_slot r, Released)
  | Spawned _ | Failed _ | Released => (r, p)
  end.

(** [try_increment_spawned] run by itself: [None] when the fuel runs out. *)
Fixpoint try_increment_spawned (fuel : nat) (failures : nat) (max_threads current : N)
    (r : AgentRegistry) : option (AgentRegistry * bool) :=
  match fuel with
  | O => None
  | S fuel =>
      if (max_threads <=? current)%N then Some (r, false)
      else
        match failures with
        | O => if (total_count r =? current)%N then Some (set_count (current + 1)%N r, true)
               else try_increment_spawned fuel O max_threads (total_count r) r
        | S failures => try_increment_spawned fuel failures max_threads (total_count r) r
        end
  end.

(** [again] counts, for the statements only, the commits that found an entry of the same thread. *)
Record sys := mkSys { registry : AgentRegistry; procs : list proc; again : nat }.

Definition initial : sys := mkSys default_registry [] 0.

(** Paths of agents are valid (they come from [from_string], [agent_join] or
    [agent_resolve]); an agent is not spawned at the root's own path. *)
Definition args_ok (a : SpawnArgs) : Prop :=
  match spawn_path a with Some p => valid_path p ∧ is_root p = false | None => True end.

(** A commit without a path for a thread that has an entry: the thread was unloaded without
    [release_spawned_thread] and is resumed.  The entry is replaced, with a second slot. *)
Definition recommits (c : choice) (r : AgentRegistry) (p : proc) : nat :=
  match p with
  | Creating _ m =>
      match created c, agent_path m with
      | Ok t, None => if tree r !! thread_key t then 1 else 0
      | _, _ => 0
      end
  | _ => 0
  end.

Inductive step : sys → sys → Prop :=
| step_spawn r ps n max_threads args :
    (∀ a, args = Some a → args_ok a) →
    (∀ n, max_threads = Some n → (n < usize_bound)%N) →
    step (mkSys r ps n) (mkSys r (ps ++ [Acquiring max_threads args]) n)
| step_release r ps n thread_id :
    step (mkSys r ps n) (mkSys r (ps ++ [Releasing thread_id]) n)
| step_advance c r r' ps1 p p' ps2 n :
    advance c r p = (r', p') →
    step (mkSys r (ps1 ++ p :: ps2) n) (mkSys r' (ps1 ++ p' :: ps2) (n + recommits c r p))
| step_root r ps n thread_id :
    step (mkSys r ps n) (mkSys (register_root_thread thread_id r) ps n)
| step_update_message r ps n thread_id message :
    step (mkSys r ps n) (mkSys (update_last_task_message thread_id message r) ps n)
| step_clear_message r ps n thread_id :
    step (mkSys r ps n) (mkSys (clear_last_task_message thread_id r) ps n).

Definition reachable (s : sys) : Prop := rtc step initial s.

End registry.
