(* ===== verification/AgentRegistryLaws.v ===== *)
(** * Laws of the registry of agents

    The invariant of all reachable states: the counter is the number of live agents and of
    spawns and releases in flight, and the reserved paths are exactly those of the spawns in
    flight.  From it follow the limit on agents and that failed spawns leave nothing behind.
    The last part is on nicknames. *)

From stdpp Require Import prelude strings list gmap relations pretty.
From S2P Require Import Prelude RustStr StrSearch AgentPath AgentRegistry.

(** ** The counter modulo the word size *)

Lemma fetch_add1_mod x : fetch_add1 (x mod usize_bound) = ((x + 1) mod usize_bound)%N.
Proof. unfold fetch_add1. by rewrite N.Div0.add_mod_idemp_l. Qed.

Lemma fetch_sub1_mod x : fetch_sub1 ((x + 1) mod usize_bound) = (x mod usize_bound)%N.
Proof.
  unfold fetch_sub1. rewrite N.Div0.add_mod_idemp_l.
  replace (x + 1 + (usize_bound - 1))%N with (x + 1 * usize_bound)%N by (unfold usize_bound; lia).
  apply N.Div0.mod_add.
Qed.

Lemma increment_mod x max_threads :
  (x mod usize_bound < max_threads)%N → (max_threads < usize_bound)%N →
  (x mod usize_bound + 1 = (x + 1) mod usize_bound)%N.
Proof.
  intros H1 H2. rewrite <- N.Div0.add_mod_idemp_l. symmetry. apply N.mod_small. lia.
Qed.

(** ** Slots and reserved paths *)

Definition slot (p : proc) : nat :=
  match p with
  | Reserved _ _ | RootDone _ _ | PathDone _ _ | Creating _ _ | Dropping _ | ReleaseCounting => 1
  | _ => 0
  end.

(** The spawns and releases that hold a slot. *)
Definition in_flight (ps : list proc) : nat := sum_list_with slot ps.

Definition reservation_of (p : proc) : option SpawnReservation :=
  match p with
  | Reserved v _ | RootDone v _ | PathDone v _ | Creating v _ => Some v
  | _ => None
  end.

Definition reserved_key (p : proc) : option (list N) :=
  v ← reservation_of p; as_str <$> reserved_agent_path v.

Definition reserved_keys (ps : list proc) : list (list N) := omap reserved_key ps.

#[global] Instance in_flight_perm : Proper ((≡ₚ) ==> (=)) in_flight.
Proof. intros ps ps' Hp. induction Hp; simpl; unfold in_flight in *; simpl; lia. Qed.

#[global] Instance reserved_keys_perm : Proper ((≡ₚ) ==> (≡ₚ)) reserved_keys.
Proof.
  intros ps ps' Hp. unfold reserved_keys. induction Hp; simpl; repeat case_match; eauto using Permutation.
Qed.

Lemma elem_of_reserved_keys_cons k q ps :
  k ∈ reserved_keys (q :: ps) ↔ reserved_key q = Some k ∨ k ∈ reserved_keys ps.
Proof.
  unfold reserved_keys. simpl. destruct (reserved_key q); rewrite ?elem_of_cons; naive_solver.
Qed.

Section laws.
Context `{!RegistryEnv}.

Definition live_count (t : gmap (list N) AgentMetadata) : nat :=
  length (filter (λ m, counted m = true) (snd <$> map_to_list t)).

Definition one_if (b : bool) : nat := if b then 1 else 0.

Lemma live_count_insert t k m :
  t !! k = None → live_count (<[k := m]> t) = one_if (counted m) + live_count t.
Proof.
  intros Hk. unfold live_count. rewrite map_to_list_insert by done. simpl.
  rewrite filter_cons. case_decide as Hc; destruct (counted m); done.
Qed.

Lemma live_count_delete t k m :
  t !! k = Some m → live_count t = one_if (counted m) + live_count (delete k t).
Proof.
  intros Hk. rewrite <- (insert_delete_id t k m Hk) at 1. apply live_count_insert. apply lookup_delete_eq.
Qed.

Lemma live_count_replace t k m m' :
  t !! k = Some m → one_if (counted m) + live_count (<[k := m']> t) = one_if (counted m') + live_count t.
Proof.
  intros Hk. rewrite <- insert_delete_eq, live_count_insert by apply lookup_delete_eq.
  rewrite (live_count_delete t k m) by done. lia.
Qed.

Lemma length_live_agents `{!RegistryEnvLaws _} r : length (live_agents r) = live_count (tree r).
Proof. unfold live_agents, live_count. by rewrite tree_iter_perm. Qed.

Lemma find_thread_Some `{!RegistryEnvLaws _} th t k m :
  find_thread th t = Some (k, m) → t !! k = Some m ∧ agent_id m = Some th.
Proof.
  unfold find_thread. intros ([i e] & Hf & He)%fmap_Some. simpl in He. subst e.
  apply list_find_Some in Hf as (Hi & Ha & _). split; [|done].
  apply elem_of_map_to_list. rewrite <- tree_iter_perm. by eapply list_elem_of_lookup_2.
Qed.

Lemma find_thread_None `{!RegistryEnvLaws _} th t k m :
  find_thread th t = None → t !! k = Some m → agent_id m ≠ Some th.
Proof.
  unfold find_thread. intros Hf%fmap_None Hk. apply list_find_None in Hf.
  rewrite Forall_forall in Hf. apply (Hf (k, m)). rewrite tree_iter_perm. by apply elem_of_map_to_list.
Qed.

(** ** The invariant *)

(** The limit all spawns are given, where there is one. *)
Variable lim : option N.
Hypothesis lim_usize : ∀ M, lim = Some M → (M < usize_bound)%N.

Definition within (max_threads : option N) : Prop :=
  ∀ M, lim = Some M → ∃ n, max_threads = Some n ∧ (n ≤ M)%N.

Definition key_ok (k : list N) (m : AgentMetadata) : Prop :=
  match agent_path m with
  | Some p => k = as_str p ∧ valid_path p
  | None => ∃ t, agent_id m = Some t ∧ k = thread_key t
  end.

Definition reserves (v : SpawnReservation) (path : option AgentPath) : Prop :=
  reserved_agent_path v = path.

Definition proc_ok (p : proc) : Prop :=
  match p with
  | Acquiring mx args =>
      (∀ a, args = Some a → args_ok a) ∧ (∀ n, mx = Some n → (n < usize_bound)%N) ∧ within mx
  | Incrementing mx _ args =>
      (∀ a, args = Some a → args_ok a) ∧ (mx < usize_bound)%N ∧ within (Some mx)
  | Reserved v args => (∀ a, args = Some a → args_ok a) ∧ reserves v None
  | RootDone v args => args_ok args ∧ reserves v None
  | PathDone v args => args_ok args ∧ reserves v (spawn_path args)
  | Creating v m =>
      reserves v (agent_path m) ∧ is_root_agent m = false ∧ agent_id m = None ∧
      (∀ p, agent_path m = Some p → valid_path p)
  | _ => True
  end.

Record Inv (r : AgentRegistry) (ps : list proc) : Prop := {
  inv_count : total_count r = (N.of_nat (in_flight ps + live_count (tree r)) mod usize_bound)%N;
  inv_bound M : lim = Some M → (N.of_nat (in_flight ps + live_count (tree r)) ≤ M)%N;
  inv_keys k m : tree r !! k = Some m → key_ok k m;
  inv_placeholder k m : tree r !! k = Some m → agent_id m = None → k ∈ reserved_keys ps;
  inv_reserved k : k ∈ reserved_keys ps → ∃ m, tree r !! k = Some m ∧ agent_id m = None;
  inv_distinct : NoDup (reserved_keys ps);
  inv_procs : Forall proc_ok ps }.

Lemma Inv_perm r ps ps' : ps ≡ₚ ps' → Inv r ps → Inv r ps'.
Proof.
  intros Hp [Hc Hb Hk Hpl Hr Hd Hps]. constructor.
  - by rewrite <- Hp.
  - by setoid_rewrite <- Hp.
  - done.
  - intros k m ? ?. rewrite <- Hp. by eapply Hpl.
  - intros k. rewrite <- Hp. apply Hr.
  - by rewrite <- Hp.
  - by rewrite <- Hp.
Qed.

Lemma Inv_initial : Inv default_registry [].
Proof.
  constructor; try done; [intros M _; change (N.of_nat 0 ≤ M)%N; lia|by intros k ?%elem_of_nil|constructor..].
Qed.

(** A step of one process that leaves the registry and its own reservation alone. *)
Lemma Inv_local r p p' ps :
  slot p' = slot p → reserved_key p' = reserved_key p → proc_ok p' →
  Inv r (p :: ps) → Inv r (p' :: ps).
Proof.
  intros Hs Hk Hok [Hc Hb Hky Hpl Hr Hd Hps].
  assert (E : reserved_keys (p' :: ps) = reserved_keys (p :: ps)) by (unfold reserved_keys; simpl; by rewrite Hk).
  constructor; rewrite ?E; try done.
  - rewrite Hc. unfold in_flight. simpl. by rewrite Hs.
  - intros M HM. unfold in_flight in *. simpl in *. rewrite Hs. by apply Hb.
  - inversion Hps; constructor; done.
Qed.

(** A change of the counter together with the slot of one process. *)
Lemma Inv_slot r n p p' ps :
  reserved_key p' = reserved_key p → proc_ok p' →
  n = (N.of_nat (in_flight (p' :: ps) + live_count (tree r)) mod usize_bound)%N →
  (∀ M, lim = Some M → (N.of_nat (in_flight (p' :: ps) + live_count (tree r)) ≤ M)%N) →
  Inv r (p :: ps) → Inv (set_count n r) (p' :: ps).
Proof.
  intros Hk Hok -> Hb' [Hc Hb Hky Hpl Hr Hd Hps].
  assert (E : reserved_keys (p' :: ps) = reserved_keys (p :: ps)) by (unfold reserved_keys; simpl; by rewrite Hk).
  constructor; rewrite ?E; try done. inversion Hps; constructor; done.
Qed.

Lemma Inv_give_back r p p' ps :
  reserved_key p' = reserved_key p → proc_ok p' → slot p = 1 → slot p' = 0 →
  Inv r (p :: ps) → Inv (give_back_slot r) (p' :: ps).
Proof.
  intros Hk Hok H1 H0 HI. apply (Inv_slot r _ p); try done.
  2:{ intros M HM. pose proof (inv_bound _ _ HI M HM) as Hb. unfold in_flight in *. simpl in *. lia. }
  rewrite (inv_count _ _ HI). unfold in_flight. simpl. rewrite H1, H0.
  replace (N.of_nat (1 + sum_list_with slot ps + live_count (tree r)))
    with (N.of_nat (0 + sum_list_with slot ps + live_count (tree r)) + 1)%N by lia.
  apply fetch_sub1_mod.
Qed.

(** A change of the tree at one key that no other process has reserved. *)
Lemma Inv_tree r r' κ p p' ps :
  total_count r' = total_count r →
  (∀ k, k ≠ κ → tree r' !! k = tree r !! k) →
  slot p' + live_count (tree r') = slot p + live_count (tree r) →
  κ ∉ reserved_keys ps →
  (reserved_key p = None ∨ reserved_key p = Some κ) →
  match tree r' !! κ with
  | Some m => key_ok κ m ∧ (agent_id m = None ∧ reserved_key p' = Some κ
                            ∨ is_Some (agent_id m) ∧ reserved_key p' = None)
  | None => reserved_key p' = None
  end →
  proc_ok p' → Inv r (p :: ps) → Inv r' (p' :: ps).
Proof.
  intros Ht Heq Hcnt Hκ Hp Hm Hok [Hc Hb Hky Hpl Hr Hd Hps].
  assert (Hps' : NoDup (reserved_keys ps)).
  { unfold reserved_keys in *. simpl in Hd. destruct (reserved_key p); [by inversion Hd|done]. }
  assert (Hp' : reserved_key p' = None ∨ reserved_key p' = Some κ) by (destruct (tree r' !! κ); naive_solver).
  pose proof (λ q k, elem_of_reserved_keys_cons k q ps) as Hin.
  constructor.
  - rewrite Ht, Hc. f_equal. unfold in_flight in *. simpl. lia.
  - intros M HM. specialize (Hb M HM). unfold in_flight in *. simpl in *. lia.
  - intros k m Hk. destruct (decide (k = κ)) as [->|Hne]; [by rewrite Hk in Hm; destruct Hm|].
    rewrite Heq in Hk by done. eauto.
  - intros k m Hk Hid. apply Hin. destruct (decide (k = κ)) as [->|Hne].
    + rewrite Hk in Hm. left. destruct Hm as [_ [[_ ?]|[[? ?] _]]]; congruence.
    + rewrite Heq in Hk by done. specialize (Hpl k m Hk Hid). apply Hin in Hpl. naive_solver.
  - intros k [Hk|Hk]%Hin.
    + assert (k = κ) as -> by naive_solver. destruct (tree r' !! κ) as [m|] eqn:E; [|congruence].
      exists m. split; [done|]. naive_solver.
    + assert (k ≠ κ) by (intros ->; done). rewrite Heq by done. apply Hr, Hin. by right.
  - unfold reserved_keys. simpl. destruct Hp' as [->| ->]; [done|]. by constructor.
  - inversion Hps. by constructor.
Qed.

Lemma Inv_idle r ps : Inv r (Released :: ps) ↔ Inv r ps.
Proof.
  split; intros [Hc Hb Hky Hpl Hr Hd Hps]; constructor; try done.
  - by inversion Hps.
  - by constructor.
Qed.

(** Only the tree and the counter matter. *)
Lemma Inv_ext r r' ps :
  tree r' = tree r → total_count r' = total_count r → Inv r ps → Inv r' ps.
Proof. intros Ht Hn [Hc Hb Hky Hpl Hr Hd Hps]. constructor; rewrite ?Ht, ?Hn; done. Qed.

Lemma Inv_key_ids r p ps k m :
  Inv r (p :: ps) → tree r !! k = Some m → is_Some (agent_id m) → k ∉ reserved_keys ps.
Proof.
  intros HI Hk [t Hid] Hin.
  destruct (inv_reserved _ _ HI k) as (m' & Hk' & Hid'); [|congruence].
  apply elem_of_reserved_keys_cons. by right.
Qed.

Lemma Inv_key_none r p ps k :
  Inv r (p :: ps) → tree r !! k = None → k ∉ reserved_keys ps.
Proof.
  intros HI Hk Hin. destruct (inv_reserved _ _ HI k) as (m' & Hk' & Hid'); [|congruence].
  apply elem_of_reserved_keys_cons. by right.
Qed.

Lemma Inv_key_own r p ps k :
  Inv r (p :: ps) → reserved_key p = Some k →
  k ∉ reserved_keys ps ∧ ∃ m, tree r !! k = Some m ∧ agent_id m = None.
Proof.
  intros HI Hk. pose proof (inv_distinct _ _ HI) as Hd. unfold reserved_keys in *. simpl in Hd.
  rewrite Hk in Hd. inversion Hd; subst. split; [done|]. apply (inv_reserved _ _ HI).
  apply elem_of_reserved_keys_cons. by left.
Qed.

Lemma counted_no_id m : agent_id m = None → counted m = false.
Proof. unfold counted. by intros ->. Qed.

(** ** Each operation *)

Lemma Inv_register_root th r ps : Inv r ps → Inv (register_root_thread th r) ps.
Proof.
  intros HI. unfold register_root_thread.
  destruct (tree r !! ROOT) as [m|] eqn:E.
  - eapply Inv_ext; [| |exact HI]; [|done]. unfold tree in *. simpl. by rewrite E.
  - apply Inv_idle in HI. apply Inv_idle.
    apply (Inv_tree r _ ROOT Released Released); try done; unfold tree in *; simpl; try rewrite E; try by left.
    + intros k Hk. by rewrite lookup_insert_ne.
    + by rewrite live_count_insert.
    + apply (Inv_key_none r Released); done.
    + rewrite lookup_insert_eq. unfold key_ok. simpl. split; [done|]. right. eauto.
Qed.

Lemma Inv_update_found `{!RegistryEnvLaws _} th msg r ps :
  Inv r ps → Inv (with_active (with_tree (update_found th (set_last_task_message msg))) r) ps.
Proof.
  intros HI. destruct (find_thread th (tree r)) as [[k m]|] eqn:E.
  - pose proof E as [Hk Hid]%find_thread_Some.
    apply Inv_idle in HI. apply Inv_idle.
    apply (Inv_tree r _ k Released Released); try done; unfold tree, update_found in *; simpl; try rewrite E;
      try by left.
    + intros k' ?. by rewrite lookup_insert_ne.
    + pose proof (live_count_replace _ k m (set_last_task_message msg m) Hk) as Hl.
      change (counted (set_last_task_message msg m)) with (counted m) in Hl. lia.
    + eapply (Inv_key_ids r Released); [done|exact Hk|]. by rewrite Hid.
    + rewrite lookup_insert_eq. split; [exact (inv_keys _ _ HI k m Hk)|]. right. simpl. by rewrite Hid.
  - eapply Inv_ext; [| |exact HI]; [|done]. unfold tree, update_found in *. simpl. by rewrite E.
Qed.

Lemma Inv_release `{!RegistryEnvLaws _} th r ps r' b :
  release_section th r = (r', b) → Inv r (Releasing th :: ps) →
  Inv r' ((if b then ReleaseCounting else Released) :: ps).
Proof.
  unfold release_section. intros Hrel HI.
  destruct (find_thread th (tree r)) as [[k m]|] eqn:E; simplify_eq; [|by eapply Inv_local; [..|exact HI]].
  pose proof E as [Hk Hid]%find_thread_Some. rewrite Hk. simpl.
  assert (Hc : counted m = negb (is_root_agent m)) by (unfold counted; by rewrite Hid).
  apply (Inv_tree r _ k (Releasing th)); try done; unfold tree in *; simpl.
  - intros k' ?. by rewrite lookup_delete_ne.
  - rewrite (live_count_delete _ k m Hk), Hc. by destruct (is_root_agent m).
  - eapply Inv_key_ids; [done|exact Hk|by rewrite Hid].
  - by left.
  - rewrite lookup_delete_eq. by destruct (is_root_agent m).
  - by destruct (is_root_agent m).
Qed.

Lemma Inv_reserve_path path args v r ps r' v' :
  spawn_path args = Some path →
  reservation_reserve_path path v r = (r', v', Ok tt) →
  Inv r (RootDone v args :: ps) → Inv r' (PathDone v' args :: ps).
Proof.
  intros Hsp Hres HI.
  assert (Hok : args_ok args ∧ reserves v None) by (pose proof (inv_procs _ _ HI) as Hf; by inversion Hf).
  destruct Hok as [Ha Hv]. unfold reservation_reserve_path, reserve_agent_path in Hres.
  destruct (tree r !! as_str path) as [m|] eqn:E; simplify_eq.
  assert (Hvp : valid_path path) by (unfold args_ok in Ha; rewrite Hsp in Ha; by destruct Ha).
  apply (Inv_tree r _ (as_str path) (RootDone v args)); try done; unfold tree in *; simpl.
  - intros k ?. by rewrite lookup_insert_ne.
  - by rewrite live_count_insert.
  - by eapply Inv_key_none.
  - left. unfold reserved_key. simpl. by rewrite Hv.
  - rewrite lookup_insert_eq. unfold key_ok. simpl. auto.
Qed.

Lemma Inv_drop_path p v r ps e :
  reservation_of p = Some v → slot p = 1 →
  Inv r (p :: ps) → Inv (drop_path v r) (Dropping e :: ps).
Proof.
  intros Hp Hs HI. unfold drop_path. destruct (reserved_agent_path v) as [path|] eqn:Ev.
  - assert (Hk : reserved_key p = Some (as_str path)) by (unfold reserved_key; by rewrite Hp; simpl; rewrite Ev).
    destruct (Inv_key_own _ _ _ _ HI Hk) as (Hnin & m & Hm & Hid).
    unfold release_reserved_agent_path.
    apply (Inv_tree r _ (as_str path) p); try done; unfold tree in *; simpl; try rewrite Hm; simpl;
      try rewrite (bool_decide_true _ Hid).
    + intros k ?. by rewrite lookup_delete_ne.
    + rewrite (live_count_delete _ _ _ Hm), counted_no_id by done. simpl. by rewrite Hs.
    + by right.
    + by rewrite lookup_delete_eq.
  - eapply Inv_local; [..|exact HI]; try done. unfold reserved_key. rewrite Hp. simpl. by rewrite Ev.
Qed.

Lemma Inv_start_first r p ps : slot p = 0 → reserved_key p = None → proc_ok p → Inv r ps → Inv r (p :: ps).
Proof. intros Hs Hk Hok HI. apply Inv_idle in HI. by eapply Inv_local; [..|exact HI]. Qed.

Lemma Inv_start r ps p : slot p = 0 → reserved_key p = None → proc_ok p → Inv r ps → Inv r (ps ++ [p]).
Proof.
  intros Hs Hk Hok HI. apply (Inv_perm _ (p :: ps)); [by rewrite Permutation_app_comm|].
  by apply Inv_start_first.
Qed.

(** The key of a thread leads to an entry of its own, which is counted. *)
Lemma thread_key_entry `{!RegistryEnvLaws _} r ps t m :
  Inv r ps → tree r !! thread_key t = Some m → agent_id m = Some t ∧ counted m = true.
Proof.
  intros HI E. pose proof (inv_keys _ _ HI _ _ E) as Hk. unfold key_ok in Hk.
  unfold counted, is_root_agent. destruct (agent_path m) as [q|].
  - destruct Hk as [Hk (s & Hs)%valid_path_slash]. rewrite Hs in Hk. done.
  - destruct Hk as (t' & Hid & Hk). unfold thread_key in Hk. apply app_inv_head in Hk.
    apply thread_text_inj in Hk as <-. by rewrite Hid.
Qed.

(** A commit; if it finds an entry of the same thread, a slot stays taken that no entry and no
    process holds, as if a release never came to its end. *)
Lemma Inv_commit `{!RegistryEnvLaws _} c t v m r ps :
  created c = Ok t → Inv r (Creating v m :: ps) →
  Inv (commit (mkMetadata (Some t) (agent_path m) (agent_nickname m) (agent_role m)
                 (last_task_message m)) v r)
    (Spawned t :: replicate (recommits c r (Creating v m)) ReleaseCounting ++ ps).
Proof.
  intros Hcr HI. unfold commit, register_spawned_thread, recommits. rewrite Hcr. simpl.
  assert (Hok : proc_ok (Creating v m)) by (pose proof (inv_procs _ _ HI) as Hfa; by inversion Hfa).
  destruct Hok as (Hv & Hroot & Hid & Hvalid).
  set (m' := mkMetadata _ _ _ _ _).
  assert (Hc : counted m' = true) by (unfold counted, is_root_agent in *; simpl; by rewrite Hroot).
  unfold reserves in Hv. destruct (agent_path m) as [q|] eqn:Ep; simpl.
  - (* the reserved entry is replaced *)
    assert (Hrk : reserved_key (Creating v m) = Some (as_str q)) by (unfold reserved_key; simpl; by rewrite Hv).
    destruct (Inv_key_own _ _ _ (as_str q) HI Hrk) as (Hn & m0 & Hm0 & Hid0).
    pose proof (live_count_replace _ _ _ m' Hm0) as Hl. rewrite counted_no_id, Hc in Hl by done.
    apply (Inv_tree r _ (as_str q) (Creating v m)); try done; unfold tree in *; simpl.
    + intros k ?. by rewrite lookup_insert_ne.
    + by right.
    + rewrite lookup_insert_eq. unfold key_ok. simpl. split; [auto|]. right. split; [by eexists|done].
  - assert (Hrk : reserved_key (Creating v m) = None) by (unfold reserved_key; simpl; by rewrite Hv).
    destruct (tree r !! thread_key t) as [m0|] eqn:E; simpl.
    + (* an entry of the same thread is replaced *)
      destruct (thread_key_entry _ _ _ _ HI E) as [Hid0 Hc0].
      pose proof (live_count_replace _ _ _ m' E) as Hl. rewrite Hc0, Hc in Hl.
      apply (Inv_start_first _ (Spawned t)); [done..|].
      apply (Inv_tree r _ (thread_key t) (Creating v m)); try done; unfold tree in *; simpl.
      * intros k ?. by rewrite lookup_insert_ne.
      * eapply Inv_key_ids; [done|exact E|by rewrite Hid0].
      * by left.
      * rewrite lookup_insert_eq. unfold key_ok. simpl. split; [by exists t|]. right. split; [by eexists|done].
    + apply (Inv_tree r _ (thread_key t) (Creating v m)); try done; unfold tree in *; simpl.
      * intros k ?. by rewrite lookup_insert_ne.
      * by rewrite live_count_insert, Hc.
      * by eapply Inv_key_none.
      * by left.
      * rewrite lookup_insert_eq. unfold key_ok. simpl. split; [by exists t|]. right. split; [by eexists|done].
Qed.

Lemma reserve_agent_nickname_tree r1 r2 names pref a :
  agent_tree (fst (reserve_agent_nickname r1 r2 names pref a)) = agent_tree a.
Proof. unfold reserve_agent_nickname. repeat case_match; done. Qed.

Lemma Inv_nickname c args v r ps r' v' o :
  reserve_agent_nickname_with_preference (random1 c) (random2 c) (spawn_names args)
    (spawn_preferred args) v r = (r', v', o) →
  Inv r (PathDone v args :: ps) →
  Inv r' (PathDone v' args :: ps) ∧ ∀ n, o = Ok n →
    Inv r' (Creating v' (mkMetadata None (spawn_path args) (Some n) (spawn_role args) None) :: ps).
Proof.
  unfold reserve_agent_nickname_with_preference. intros Hn HI.
  pose proof (reserve_agent_nickname_tree (random1 c) (random2 c) (spawn_names args) (spawn_preferred args)
                (active_agents r)) as Ht.
  destruct (reserve_agent_nickname _ _ _ _ _) as [a o'] eqn:E. simpl in Ht.
  assert (Hok : args_ok args ∧ reserves v (spawn_path args)) by (pose proof (inv_procs _ _ HI) as Hf; by inversion Hf).
  destruct Hok as [Ha Hv].
  assert (Hv' : reserved_agent_path v' = reserved_agent_path v ∧ r' = mkRegistry a (total_count r))
    by (destruct o'; simplify_eq; done).
  destruct Hv' as [Hv' ->].
  assert (HI' : Inv (mkRegistry a (total_count r)) (PathDone v args :: ps)) by (by eapply Inv_ext; [..|exact HI]).
  unfold reserves in Hv. split.
  - eapply Inv_local; [..|exact HI']; try done; unfold reserved_key; simpl; rewrite ?Hv'; try done.
    split; [done|]. unfold reserves. congruence.
  - intros n ->. eapply Inv_local; [..|exact HI']; try done; unfold reserved_key; simpl; rewrite ?Hv'; try done.
    unfold reserves, args_ok, is_root_agent in *. simpl. rewrite Hv', Hv.
    destruct (spawn_path args) as [q|]; naive_solver.
Qed.

Lemma Inv_advance `{!RegistryEnvLaws _} c r p ps r' p' :
  advance c r p = (r', p') → Inv r (p :: ps) →
  Inv r' (p' :: replicate (recommits c r p) ReleaseCounting ++ ps).
Proof.
  intros Hadv HI.
  assert (Hok : proc_ok p) by (pose proof (inv_procs _ _ HI) as Hfa; by inversion Hfa).
  destruct p as [[mx|] args|mx cur args|v [args|]|v args|v args|v m|e|t|e|t| |]; simpl in Hadv.
  - simplify_eq. destruct Hok as (? & ? & ?). eapply Inv_local; [..|exact HI]; try done. split_and!; eauto.
  - simplify_eq. destruct Hok as (Ha & _ & Hw). eapply Inv_slot; [..|exact HI]; try done.
    + rewrite (inv_count _ _ HI), fetch_add1_mod. f_equal. unfold in_flight. simpl. lia.
    + intros M HM. by destruct (Hw M HM) as (n & ? & ?).
  - destruct (N.leb_spec mx cur); simplify_eq; [by eapply Inv_local; [..|exact HI]|].
    destruct (_ && _) eqn:E; simplify_eq; [|by eapply Inv_local; [..|exact HI]].
    apply andb_true_iff in E as [_ <-%N.eqb_eq]. destruct Hok as (? & Hmx & Hw).
    eapply Inv_slot; [..|exact HI]; try done; rewrite (inv_count _ _ HI) in *.
    + rewrite (increment_mod _ mx) by done. f_equal. unfold in_flight. simpl. lia.
    + intros M HM. destruct (Hw M HM) as (n & [= <-] & Hn). pose proof (inv_bound _ _ HI M HM) as Hb.
      pose proof (lim_usize M HM). rewrite N.mod_small in * by lia. unfold in_flight in *. simpl in *. lia.
  - simplify_eq. destruct Hok as [Hok ?].
    eapply (Inv_local _ (Reserved v (Some args))); try done; [split; auto|].
    case_match; [by apply Inv_register_root|done].
  - simplify_eq. destruct Hok. by eapply Inv_local; [..|exact HI].
  - destruct (spawn_path args) as [path|] eqn:Ep; simplify_eq.
    + destruct (reservation_reserve_path path v r) as [[r1 v1] [[]|e]] eqn:Er; simplify_eq.
      * by eapply Inv_reserve_path.
      * unfold reservation_reserve_path, reserve_agent_path in Er. repeat case_match; simplify_eq.
        by eapply Inv_drop_path; [..|exact HI].
    + destruct Hok. eapply Inv_local; [..|exact HI]; try done. split; [done|]. by rewrite Ep.
  - destruct (reserve_agent_nickname_with_preference _ _ _ _ _ _) as [[r1 v1] o] eqn:Er.
    destruct (Inv_nickname _ _ _ _ _ _ _ _ Er HI) as [HI1 HI2]. destruct o as [n|e]; simplify_eq; [eauto|].
    by eapply Inv_drop_path; [..|exact HI1].
  - destruct (created c) as [t|e] eqn:Ec; simplify_eq.
    + by apply Inv_commit.
    + unfold recommits. rewrite Ec. simpl. by eapply Inv_drop_path; [..|exact HI].
  - simplify_eq. by eapply Inv_give_back; [..|exact HI].
  - by simplify_eq.
  - by simplify_eq.
  - destruct (release_section t r) as [r1 b] eqn:Er. simplify_eq. by eapply Inv_release.
  - simplify_eq. by eapply Inv_give_back; [..|exact HI].
  - by simplify_eq.
Qed.

Definition limit_ok (p : proc) : Prop :=
  match p with Acquiring mx _ => within mx | _ => True end.

(** The processes, and a slot for each commit that found an entry of its thread. *)
Definition holders (s : sys) : list proc := replicate (again s) ReleaseCounting ++ procs s.

Lemma Inv_step `{!RegistryEnvLaws _} s s' :
  step s s' → Forall limit_ok (procs s') →
  Inv (registry s) (holders s) → Inv (registry s') (holders s').
Proof.
  unfold holders.
  intros [r ps n mx args Ha Hm|r ps n t|c r r' ps1 p p' ps2 n Hadv|r ps n t|r ps n t msg|r ps n t] Hl HI; simpl in *.
  - rewrite app_assoc. apply Inv_start; try done. split_and!; try done. apply Forall_app in Hl as [_ Hl]. by inversion Hl.
  - rewrite app_assoc. by apply Inv_start.
  - apply (Inv_perm _ (p' :: replicate (recommits c r p) ReleaseCounting ++ replicate n ReleaseCounting ++ ps1 ++ ps2)).
    { rewrite Nat.add_comm, replicate_add, <- !app_assoc. solve_Permutation. }
    eapply Inv_advance; [done|]. eapply Inv_perm; [|exact HI]. solve_Permutation.
  - by apply Inv_register_root.
  - by apply Inv_update_found.
  - by apply Inv_update_found.
Qed.

End laws.

(** ** Reachable states *)

(** Runs in which every spawn is given a limit of at most [M]. *)
Definition limited_run `{RegistryEnv} (M : N) (s : sys) : Prop :=
  rtc (λ s s', step s s' ∧ Forall (limit_ok (Some M)) (procs s')) initial s.

Section reachable.
Context `{RegistryEnvLaws}.

Lemma in_flight_holders s : in_flight (holders s) = again s + in_flight (procs s).
Proof.
  unfold holders. induction (again s) as [|n IH]; [done|]. unfold in_flight in *. simpl. by rewrite IH.
Qed.
Lemma reserved_keys_holders s : reserved_keys (holders s) = reserved_keys (procs s).
Proof. unfold holders. by induction (again s). Qed.

Lemma Inv_reachable s : reachable s → Inv None (registry s) (holders s).
Proof.
  apply (rtc_ind_r (λ s, Inv None (registry s) (holders s))); [apply Inv_initial|].
  intros s1 s2 _ Hs HI. eapply Inv_step; [done|exact _|exact Hs| |exact HI].
  apply Forall_forall. by intros [] _.
Qed.

Lemma Inv_limited M s : (M < usize_bound)%N → limited_run M s → Inv (Some M) (registry s) (holders s).
Proof.
  intros HM. apply (rtc_ind_r (λ s, Inv (Some M) (registry s) (holders s))); [apply Inv_initial|].
  intros s1 s2 _ [Hs Hl] HI. eapply Inv_step; [congruence|exact _|exact Hs|exact Hl|exact HI].
Qed.

Lemma live_agent_path r ps k m p :
  Inv None r ps → valid_path p → tree r !! k = Some m →
  k = as_str p ↔ agent_path m = Some p.
Proof.
  intros HI Hp Hk. pose proof (inv_keys _ _ _ HI _ _ Hk) as Hko. unfold key_ok in Hko.
  destruct (agent_path m) as [[q]|].
  - destruct Hko as [-> ?]. destruct p as [q']. simpl. naive_solver.
  - destruct Hko as (t & _ & ->). apply valid_path_slash in Hp as [s' Hs]. rewrite Hs. split; done.
Qed.

(** C19. In every reachable state the counter is, modulo the word size, the number of live agents
    plus the number of spawns and releases that hold a slot, plus one for each time a thread
    without a path was committed while the registry still had an entry of it (a thread that is
    unloaded without being released and then resumed: the entry is replaced and its slot is never
    given back); without such commits it is exactly the agents and the slots in flight.  An entry
    of the tree without a thread belongs to exactly one spawn in flight, which reserved it.
    Condition: the paths given to spawns are valid and not the root's own. *)
Theorem registry_counts_agents s :
  reachable s →
  total_count (registry s) =
    (N.of_nat (in_flight (procs s) + length (live_agents (registry s)) + again s) mod usize_bound)%N
  ∧ NoDup (reserved_keys (procs s))
  ∧ ∀ k, k ∈ reserved_keys (procs s) ↔
         ∃ m, tree (registry s) !! k = Some m ∧ agent_id m = None.
Proof.
  intros HI%Inv_reachable. rewrite length_live_agents, <- reserved_keys_holders. split_and!.
  - rewrite (inv_count _ _ _ HI), in_flight_holders. do 2 f_equal. lia.
  - apply (inv_distinct _ _ _ HI).
  - intros k. split; [apply (inv_reserved _ _ _ HI)|].
    intros (m & Hk & Hid). by eapply (inv_placeholder _ _ _ HI).
Qed.

(** C20. When all spawns are given limits of at most [M], there are never more than [M] live agents
    and spawns in flight, however their steps interleave. *)
Theorem agent_limit_respected M s :
  (M < usize_bound)%N → limited_run M s →
  (N.of_nat (in_flight (procs s) + length (live_agents (registry s))) ≤ M)%N.
Proof.
  intros HM HI%Inv_limited; [|done]. rewrite length_live_agents.
  pose proof (inv_bound _ _ _ HI M eq_refl) as Hb. rewrite in_flight_holders in Hb. lia.
Qed.

(** When nothing is in flight and no thread was committed again, no path is reserved and the
    counter is exact: spawns that failed have left nothing behind. *)
Theorem idle_registry_is_exact s :
  reachable s → again s = 0 → in_flight (procs s) = 0 → reserved_keys (procs s) = [] →
  total_count (registry s) = (N.of_nat (length (live_agents (registry s))) mod usize_bound)%N
  ∧ ∀ k m, tree (registry s) !! k = Some m → is_Some (agent_id m).
Proof.
  intros HI%Inv_reachable Hag Hf Hk. rewrite length_live_agents. rewrite <- reserved_keys_holders in Hk. split.
  - by rewrite (inv_count _ _ _ HI), in_flight_holders, Hag, Hf.
  - intros k m Hm. destruct (agent_id m) eqn:E; [by eexists|].
    pose proof (inv_placeholder _ _ _ HI _ _ Hm E) as Hin. rewrite Hk in Hin. by apply elem_of_nil in Hin.
Qed.

(** A reference finds a thread exactly when it resolves, from the path of the session, to a
    path that an agent with that thread has; agents with the same path are the same entry. *)
Theorem reference_finds_agent s source reference t :
  reachable s → (∀ p, get_agent_path source = Some p → valid_path p) →
  resolve_agent_reference source reference (registry s) = Ok t ↔
  ∃ p, agent_resolve (default agent_root (get_agent_path source)) reference = Ok p ∧
       exists! m, (∃ k, tree (registry s) !! k = Some m) ∧ agent_path m = Some p ∧ agent_id m = Some t.
Proof.
  intros HI%Inv_reachable Hsrc. unfold resolve_agent_reference, agent_id_for_path.
  destruct (agent_resolve _ reference) as [p|e] eqn:Ep; simpl; [|naive_solver].
  assert (Hp : valid_path p).
  { revert Ep. unfold agent_resolve, from_string. repeat case_match; try done; intros; simplify_eq; try done.
    all: repeat match goal with H : result_bind _ _ = _ |- _ => apply result_bind_ok in H as ([] & ? & ?) end;
      by simplify_eq. }
  pose proof (λ k m, live_agent_path _ _ k m p HI Hp) as Hlive.
  destruct (tree (registry s) !! as_str p) as [m|] eqn:Em; simpl.
  - split.
    + destruct (agent_id m) as [t'|] eqn:Eid; [|done]. intros [= ->]. exists p. split; [done|].
      exists m. split; [split; [eauto|]; split; [by apply (Hlive _ _ Em)|done]|].
      intros m' ((k & Hk) & Hpath & _). apply (Hlive _ _ Hk) in Hpath as ->. congruence.
    + intros (p' & [= <-] & m' & ((k & Hk) & Hpath & Hid) & _).
      apply (Hlive _ _ Hk) in Hpath as ->. rewrite Em in Hk. injection Hk as ->. by rewrite Hid.
  - split; [done|]. intros (p' & [= <-] & m' & ((k & Hk) & Hpath & Hid) & _).
    apply (Hlive _ _ Hk) in Hpath as ->. congruence.
Qed.

(** The compare-exchange loop, run with any number of spurious failures and no interference,
    returns, and takes a slot exactly when there is one. *)
Theorem try_increment_spawned_total failures fuel max_threads r :
  failures < fuel →
  try_increment_spawned fuel failures max_threads (total_count r) r =
  Some (if (total_count r <? max_threads)%N
        then (set_count (total_count r + 1)%N r, true) else (r, false)).
Proof.
  revert failures. induction fuel as [|fuel IH]; intros failures Hf; [lia|]. simpl.
  destruct (N.leb_spec max_threads (total_count r)), (N.ltb_spec (total_count r) max_threads); try lia; [done|].
  destruct failures as [|failures]; [by rewrite N.eqb_refl|].
  rewrite IH by lia. destruct (N.ltb_spec (total_count r) max_threads); [done|lia].
Qed.
End reachable.

(** ** Nicknames *)

Definition digit (c : N) : Prop := is_ascii_digit c = true.

Lemma lit_app a b : lit (a +:+ b) = lit a ++ lit b.
Proof. unfold lit. induction a as [|c a IH]; simpl; [done|]. by f_equal. Qed.

Lemma pretty_digits (x : N) : Forall digit (lit (pretty x)).
Proof.
  unfold pretty, pretty_N. case_decide as H0; [by repeat constructor|].
  assert (Hgo : ∀ y s, Forall digit (lit s) → Forall digit (lit (pretty_N_go y s))).
  { intros y. induction y as [y IH] using (well_founded_ind N.lt_wf_0). intros s Hs.
    destruct (decide (0 < y)%N) as [Hy|Hy].
    - rewrite pretty_N_go_step by done. apply IH; [apply N.div_lt; lia|].
      simpl. constructor; [|done]. unfold digit.
      assert (Hm : (y mod 10 < 10)%N) by (apply N.mod_lt; done).
      unfold pretty_N_char. repeat case_match; done.
    - assert (y = 0%N) as -> by lia. by rewrite pretty_N_go_0. }
  apply Hgo. constructor.
Qed.

(** Digits in front of text that does not start with a digit are recovered. *)
Lemma digits_app_inj (a b s t : list N) :
  Forall digit a → Forall digit b →
  (∀ c s', s = c :: s' → ¬ digit c) → (∀ c t', t = c :: t' → ¬ digit c) →
  a ++ s = b ++ t → a = b.
Proof.
  intros Ha. revert b. induction Ha as [|x a Hx Ha IH]; intros b Hb Hs Ht E; inversion Hb as [|y b' Hy Hb']; subst.
  - done.
  - exfalso. simpl in E. by eapply Hs.
  - exfalso. simpl in E. by eapply Ht.
  - simplify_eq/=. f_equal. eauto.
Qed.

(** The last word of a nickname with an ordinal: the number and its ending. *)
Lemma last_word_inj (a b w w' : list N) :
  space ∉ w → space ∉ w' → a ++ space :: w = b ++ space :: w' → w = w'.
Proof.
  intros Hw Hw' E. apply (f_equal (split_on space)) in E. rewrite !split_on_app in E.
  rewrite (split_on_no_sep _ w), (split_on_no_sep _ w') in E by done.
  by apply app_inj_tail in E as [_ E].
Qed.

Definition ordinal (value : N) : list N :=
  lit (pretty value) ++
  (if ((11 <=? value mod 100) && (value mod 100 <=? 13))%N then lit "th"
   else if (value mod 10 =? 1)%N then lit "st"
   else if (value mod 10 =? 2)%N then lit "nd"
   else if (value mod 10 =? 3)%N then lit "rd" else lit "th").

Lemma format_agent_nickname_reset name k :
  (0 < k)%N → format_agent_nickname name k = (name ++ lit " the") ++ space :: ordinal (fetch_add1 k).
Proof.
  intros Hk. unfold format_agent_nickname. rewrite (proj2 (N.eqb_neq _ _)) by lia.
  rewrite <- app_assoc. done.
Qed.

Lemma ordinal_no_space v : space ∉ ordinal v.
Proof.
  unfold ordinal. intros [H|H]%elem_of_app.
  - by pose proof (proj1 (Forall_forall _ _) (pretty_digits v) _ H).
  - revert H. repeat case_match; apply (bool_decide_eq_false (space ∈ _)); by vm_compute.
Qed.

Lemma ordinal_inj v v' : ordinal v = ordinal v' → v = v'.
Proof.
  unfold ordinal. intros E. apply digits_app_inj in E; try apply pretty_digits.
  - by apply lit_inj, (inj pretty) in E.
  - intros c s' Hs Hd. repeat case_match; injection Hs as <- _; by vm_compute in Hd.
  - intros c s' Hs Hd. repeat case_match; injection Hs as <- _; by vm_compute in Hd.
Qed.

Lemma fetch_add1_small k : (k + 1 < usize_bound)%N → fetch_add1 k = (k + 1)%N.
Proof. apply N.mod_small. Qed.

(** Names a pool may hold: without an ordinal of their own. *)
Definition plain (name : list N) : Prop := contains_str (lit " the ") name = false.

Lemma format_agent_nickname_inj n n' k k' :
  plain n → plain n' → (k + 1 < usize_bound)%N → (k' + 1 < usize_bound)%N →
  format_agent_nickname n k = format_agent_nickname n' k' → k = k'.
Proof.
  assert (Hz : ∀ n n' k, plain n → (0 < k)%N → n ≠ format_agent_nickname n' k).
  { intros m m' j Hp Hj ->. rewrite format_agent_nickname_reset in Hp by done.
    revert Hp. unfold plain. rewrite <- app_assoc.
    change (lit " the" ++ space :: ordinal (fetch_add1 j)) with (lit " the " ++ ordinal (fetch_add1 j)).
    by rewrite contains_str_app. }
  intros Hp Hp' Hk Hk' E.
  destruct (N.eq_0_gt_0_cases k) as [->|H0], (N.eq_0_gt_0_cases k') as [->|H0']; [done| | |].
  - by apply Hz in E.
  - by symmetry in E; apply Hz in E.
  - rewrite !format_agent_nickname_reset in E by done.
    apply last_word_inj, ordinal_inj in E; [|apply ordinal_no_space..].
    rewrite !fetch_add1_small in E by done. lia.
Qed.

(** What may happen to the nicknames: a spawn asks for one, an agent is registered. *)
Inductive nick_event :=
| AskNickname (random1 random2 : nat) (names : list (list N)) (preferred : option (list N))
| UseNickname (n : list N).

Definition nick_step (a : ActiveAgents) (e : nick_event) : ActiveAgents * option (list N) :=
  match e with
  | AskNickname r1 r2 names None => reserve_agent_nickname r1 r2 names None a
  | AskNickname r1 r2 names (Some n) => (fst (reserve_agent_nickname r1 r2 names (Some n) a), None)
  | UseNickname n =>
      (mkActive (agent_tree a) ({[n]} ∪ used_agent_nicknames a) (nickname_reset_count a), None)
  end.

(** The nicknames drawn from the pools, in order. *)
Fixpoint drawn (a : ActiveAgents) (es : list nick_event) : list (list N) :=
  match es with
  | [] => []
  | e :: es => let '(a', o) := nick_step a e in option_list o ++ drawn a' es
  end.

Definition plain_event (e : nick_event) : Prop :=
  match e with AskNickname _ _ names _ => Forall plain names | UseNickname _ => True end.

(** Nickname [n] was drawn before: in an earlier round, or in this one and still marked. *)
Definition drawn_before (a : ActiveAgents) (n : list N) : Prop :=
  ∃ name k, plain name ∧ n = format_agent_nickname name k ∧
    (k < nickname_reset_count a ∨ k = nickname_reset_count a ∧ n ∈ used_agent_nicknames a)%N.

Lemma choose_elem {A} i (l : list A) x : choose i l = Some x → x ∈ l.
Proof. apply list_elem_of_lookup_2. Qed.

Lemma nick_step_fresh a e a' o :
  plain_event e → (nickname_reset_count a + 2 < usize_bound)%N →
  nick_step a e = (a', o) →
  (nickname_reset_count a' ≤ nickname_reset_count a + 1)%N ∧
  (∀ n, drawn_before a n → drawn_before a' n) ∧
  (∀ n, o = Some n → drawn_before a' n ∧ ¬ drawn_before a n).
Proof.
  intros Hp Hw Hs. unfold nick_step, reserve_agent_nickname in Hs.
  assert (Hmono : ∀ u n, used_agent_nicknames a ⊆ u → drawn_before a n →
            drawn_before (mkActive (agent_tree a) u (nickname_reset_count a)) n).
  { intros u n Hu (name & k & ? & ? & Hk). exists name, k. simpl. set_solver. }
  destruct e as [r1 r2 names [pref|]|n]; simplify_eq/=.
  { split_and!; [lia| |done]. intros n. apply Hmono. set_solver. }
  2:{ split_and!; [lia| |done]. intros n'. apply Hmono. set_solver. }
  case_bool_decide as Hn; simplify_eq/=; [split_and!; [lia|done..]|].
  destruct (choose r1 _) as [n|] eqn:E1; simplify_eq/=.
  - split_and!; [lia|intros n'; apply Hmono; set_solver|]. intros n' [= <-].
    apply choose_elem, list_elem_of_filter in E1 as [Hnu (name & -> & Hin)%list_elem_of_fmap].
    pose proof (proj1 (Forall_forall _ _) Hp _ Hin) as Hpl. split.
    + exists name, (nickname_reset_count a). simpl. set_solver.
    + intros (name' & k & Hpl' & E & [Hk|[-> Hk]]); [|done].
      apply format_agent_nickname_inj in E; try done; lia.
  - destruct (choose r2 names) as [name|] eqn:E2; simplify_eq/=.
    2:{ unfold choose in E2. apply lookup_ge_None in E2. destruct names; [done|].
        pose proof (Nat.mod_upper_bound r2 (length (l :: names))). simpl in *. lia. }
    pose proof (proj1 (Forall_forall _ _) Hp _ (choose_elem _ _ _ E2)) as Hpl.
    rewrite fetch_add1_small by lia. split_and!; [lia| |].
    + intros n (name' & k & ? & ? & Hk). exists name', k. simpl. split_and!; [done..|left; lia].
    + intros n [= <-]. split.
      * exists name, (nickname_reset_count a + 1)%N. simpl. set_solver.
      * intros (name' & k & Hpl' & E & Hk). apply format_agent_nickname_inj in E; try done; lia.
Qed.

Lemma drawn_fresh es a :
  Forall plain_event es → (nickname_reset_count a + N.of_nat (length es) + 1 < usize_bound)%N →
  NoDup (drawn a es) ∧ ∀ n, n ∈ drawn a es → ¬ drawn_before a n.
Proof.
  revert a. induction es as [|e es IH]; intros a Hp Hw; simpl.
  { split; [constructor|]. by intros n ?%elem_of_nil. }
  inversion Hp; subst. destruct (nick_step a e) as [a' o] eqn:Es. simpl in Hw.
  apply nick_step_fresh in Es as (Hc & Hkeep & Hnew); [|done|lia].
  destruct (IH a') as [Hnd Hf]; [done|lia|]. split.
  - apply NoDup_app. split_and!; [destruct o; simpl; repeat constructor; set_solver| |done].
    intros n Hn Hin. destruct o as [n'|]; simpl in Hn; [|by apply elem_of_nil in Hn].
    apply list_elem_of_singleton in Hn as ->. by destruct (Hf _ Hin), (Hnew _ eq_refl).
  - intros n [Hn|Hn]%elem_of_app Hb.
    + destruct o as [n'|]; simpl in Hn; [|by apply elem_of_nil in Hn].
      apply list_elem_of_singleton in Hn as ->. by destruct (Hnew _ eq_refl).
    + by apply (Hf _ Hn), Hkeep.
Qed.

(** The nicknames drawn from pools of plain names are pairwise different for the whole session,
    also after the pool was used up and the names are given out again with ordinals. *)
Theorem nicknames_distinct es :
  Forall plain_event es → (N.of_nat (length es) + 1 < usize_bound)%N →
  NoDup (drawn (active_agents default_registry) es).
Proof. intros Hp Hw. by apply drawn_fresh. Qed.

(** ** A concrete run *)

Module Demo.

#[local] Instance env : RegistryEnv := {| thread_text t := lit (pretty t); tree_iter := map_to_list |}.

#[local] Instance env_laws : RegistryEnvLaws env.
Proof.
  constructor.
  - intros t t' E. by apply lit_inj, (inj pretty) in E.
  - done.
Qed.

Definition worker : AgentPath := mk_agent_path (lit "/root/worker").
Definition args : SpawnArgs := mkSpawnArgs 7 1 (Some worker) None None [lit "Plato"].
Definition good : choice := mkChoice false 0 0 (Ok 8%N).

(** The spawn after [n] steps of its own. *)
Definition alone (n : nat) : AgentRegistry * proc :=
  Nat.iter n (λ '(r, p), advance good r p) (default_registry, Acquiring (Some 1%N) (Some args)).

Definition spawn_state (n : nat) : sys := mkSys (fst (alone n)) [snd (alone n)] 0.

(** The agent is live after six steps, the root beside it. *)
Definition done_state : sys := spawn_state 6.

Definition is_acquiring (p : proc) : bool := match p with Acquiring _ _ => true | _ => false end.

Lemma alone_limited n :
  is_acquiring (snd (alone (S n))) = false → recommits good (fst (alone n)) (snd (alone n)) = 0 →
  limited_run 1 (spawn_state n) → limited_run 1 (spawn_state (S n)).
Proof.
  intros Ha Hf Hr. eapply rtc_r; [exact Hr|]. split.
  - unfold spawn_state. replace 0 with (0 + recommits good (fst (alone n)) (snd (alone n))) at 2 by lia.
    apply (step_advance good _ _ [] _ _ []).
    unfold alone. simpl. destruct (Nat.iter n _ _) as [r p]. simpl. by destruct (advance good r p).
  - unfold spawn_state. cbn [procs]. constructor; [|done]. by destruct (snd (alone (S n))).
Qed.

Lemma done_limited : limited_run 1 done_state.
Proof.
  do 6 (apply alone_limited; [by vm_compute|by vm_compute|]).
  eapply rtc_l; [|apply rtc_refl]. split.
  - apply (step_spawn default_registry [] 0 (Some 1%N) (Some args)).
    + intros a [= <-]. split; by vm_compute.
    + intros n [= <-]. by vm_compute.
  - repeat constructor. intros M [= <-]. by exists 1%N.
Qed.

(** A thread without a path that is unloaded, not released, and resumed: one agent, two slots. *)
Definition resumed : sys :=
  let '(r, p) := Nat.iter 4 (λ '(r, p), advance good r p) (default_registry, Acquiring (Some 2%N) None) in
  let '(r', p') := Nat.iter 4 (λ '(r, p), advance good r p) (r, Acquiring (Some 2%N) None) in
  mkSys r' [p; p'] 1.
Example resumed_thread_counted_twice :
  procs resumed = [Spawned 8%N; Spawned 8%N] ∧ length (live_agents (registry resumed)) = 1 ∧
  total_count (registry resumed) = 2%N ∧
  snd (advance good (fst (advance good (registry resumed) (Acquiring (Some 2%N) None)))
         (Incrementing 2 (total_count (registry resumed)) None)) = Failed (AgentLimitReached 2).
Proof. by vm_compute. Qed.

Lemma limited_reachable M s : limited_run M s → reachable s.
Proof. apply rtc_subrel. by intros ? ? [? _]. Qed.

Lemma registry_counts_agents_witness :
  reachable done_state ∧ total_count (registry done_state) = 1%N ∧
  total_count (registry done_state) =
    (N.of_nat (in_flight (procs done_state) + length (live_agents (registry done_state)) + again done_state)
       mod usize_bound)%N.
Proof.
  split; [exact (limited_reachable 1 _ done_limited)|]. split; [by vm_compute|].
  apply (registry_counts_agents done_state (limited_reachable 1 _ done_limited)).
Defined.

Lemma agent_limit_respected_witness :
  limited_run 1 done_state ∧
  (N.of_nat (in_flight (procs done_state) + length (live_agents (registry done_state))) ≤ 1)%N.
Proof.
  split; [exact done_limited|]. apply (agent_limit_respected 1 done_state); [by vm_compute|exact done_limited].
Defined.

(** From the root, [worker] names the new agent. *)
Lemma reference_finds_agent_witness :
  ∃ p, agent_resolve agent_root (lit "worker") = Ok p ∧
       exists! m, (∃ k, tree (registry done_state) !! k = Some m) ∧
                  agent_path m = Some p ∧ agent_id m = Some 8%N.
Proof.
  apply (reference_finds_agent done_state Cli (lit "worker") 8%N (limited_reachable 1 _ done_limited)); [done|].
  by vm_compute.
Defined.

(** Two spawns with a pool of one name, and what they are called. *)
Lemma nicknames_distinct_witness :
  drawn (active_agents default_registry)
    [AskNickname 0 0 [lit "Plato"] None; AskNickname 3 5 [lit "Plato"] None]
  = [lit "Plato"; lit "Plato the 2nd"]
  ∧ NoDup (drawn (active_agents default_registry)
      [AskNickname 0 0 [lit "Plato"] None; AskNickname 3 5 [lit "Plato"] None]).
Proof.
  split; [by vm_compute|].
  apply (nicknames_distinct [AskNickname 0 0 [lit "Plato"] None; AskNickname 3 5 [lit "Plato"] None]).
  - repeat constructor.
  - by vm_compute.
Defined.

End Demo.
