(* ===== verification/AgentResidency.v ===== *)
(** * Resident agents (core/src/agent/control/residency.rs)

    Agents of the second protocol version stay registered when their thread is unloaded; at
    most a given number of threads is kept in memory.  A spawn or a reload reserves a slot; when
    none is free, the least recently used thread that is idle is unloaded.  The queue of
    residents is behind a lock, but the lock is not held while a thread is inspected and shut
    down: between the sections that hold it other reservations may run, so each section is a
    step of [slot_advance].  The class [Manager] is the thread manager: which threads are loaded and
    what state they are in. *)

From stdpp Require Import prelude list gmap relations.
From S2P Require Import Prelude AgentRegistry.

(** ** Threads, as the code inspects them *)

Inductive MultiAgentVersion := VersionDisabled | V1 | V2.
#[global] Instance version_eq_dec : EqDecision MultiAgentVersion.
Proof. solve_decision. Defined.

Inductive AgentStatus :=
| PendingInit
| Running
| StatusInterrupted
| Completed (last_agent_message : option (list N))
| Errored (message : list N)
| Shutdown
| NotFound.

Inductive TurnAbortReason := AbortInterrupted | Replaced | ReviewEnded | BudgetLimited.

(** The events that matter for the status of an agent. *)
Inductive EventMsg :=
| TurnStarted
| TurnComplete (last_agent_message : option (list N))
| TurnAborted (reason : TurnAbortReason) (shown : list N)
| ErrorEvent (message : list N)
| ShutdownComplete
| OtherEvent.

Definition agent_status_from_event (msg : EventMsg) : option AgentStatus :=
  match msg with
  | TurnStarted => Some Running
  | TurnComplete m => Some (Completed m)
  | TurnAborted (AbortInterrupted | BudgetLimited) _ => Some StatusInterrupted
  | TurnAborted _ shown => Some (Errored shown)
  | ErrorEvent m => Some (Errored m)
  | ShutdownComplete => Some Shutdown
  | OtherEvent => None
  end.

Definition is_final (s : AgentStatus) : bool :=
  match s with PendingInit | Running | StatusInterrupted => false | _ => true end.

Record Thread := mkThread {
  multi_agent_version : option MultiAgentVersion;
  session_source : SessionSource;
  agent_status : AgentStatus;
  active_turn : bool;
  pending_mailbox_items : bool }.

Definition is_v2_resident_session_source (s : SessionSource) : bool :=
  match s with SubAgent _ => true | _ => false end.

Definition is_resident_candidate (t : Thread) : bool :=
  bool_decide (multi_agent_version t = Some V2) && is_v2_resident_session_source (session_source t).

Definition is_unloadable (t : Thread) : bool :=
  match agent_status t with Completed _ | Errored _ | StatusInterrupted => true | _ => false end
  && negb (active_turn t) && negb (pending_mailbox_items t).

Class Manager := {
  get_thread : ThreadId → option Thread;
  shutdown_succeeds : ThreadId → bool }.

(** ** The queue *)

Record V2ResidencyState := mkResidency {
  residents : list ThreadId;
  pending_slots : N }.

Definition retain_others (th : ThreadId) (l : list ThreadId) : list ThreadId :=
  filter (λ x, x ≠ th) l.

Definition touch_resident (l : list ThreadId) (th : ThreadId) : list ThreadId :=
  retain_others th l ++ [th].

Definition touch (th : ThreadId) (s : V2ResidencyState) : V2ResidencyState :=
  mkResidency (touch_resident (residents s) th) (pending_slots s).

Definition remove_resident (th : ThreadId) (s : V2ResidencyState) : V2ResidencyState :=
  mkResidency (retain_others th (residents s)) (pending_slots s).

(** [saturating_sub(1)] is [N.pred]. *)
Definition commit_slot (th : ThreadId) (s : V2ResidencyState) : V2ResidencyState :=
  mkResidency (touch_resident (residents s) th) (N.pred (pending_slots s)).

Definition release_pending_slot (s : V2ResidencyState) : V2ResidencyState :=
  mkResidency (residents s) (N.pred (pending_slots s)).

(** [residents.len().saturating_add(pending_slots)]. *)
Definition occupied (s : V2ResidencyState) : N :=
  N.min (usize_bound - 1) (N.of_nat (length (residents s)) + pending_slots s).

Definition try_reserve_pending_slot (capacity : N) (s : V2ResidencyState) :
    V2ResidencyState * bool :=
  if (capacity <=? occupied s)%N then (s, false)
  else (mkResidency (residents s) (pending_slots s + 1), true).

Fixpoint pop_lru_loop (candidates_to_scan : nat) (protected : option ThreadId)
    (l : list ThreadId) : list ThreadId * option ThreadId :=
  match candidates_to_scan with
  | O => (l, None)
  | S n =>
      match l with
      | [] => ([], None)
      | c :: l => if bool_decide (Some c = protected) then pop_lru_loop n protected (l ++ [c])
                  else (l, Some c)
      end
  end.

Definition pop_lru_candidate (protected : option ThreadId) (s : V2ResidencyState) :
    V2ResidencyState * option ThreadId :=
  let '(l, o) := pop_lru_loop (length (residents s)) protected (residents s) in
  (mkResidency l (pending_slots s), o).

(** [touch_loaded_v2_residency]: whether the thread is in the queue does not matter. *)
Definition touch_loaded_v2_residency `{Manager} (th : ThreadId) (s : V2ResidencyState) : V2ResidencyState :=
  match get_thread th with
  | Some t => if is_resident_candidate t then touch th s else s
  | None => s
  end.

(** ** Reserving a slot *)

(** Where a call of [reserve_slot] is: at the head of its loop; about to count the residents;
    in the loop of [try_unload_one_resident] with [n] rounds to go; with a candidate out of the
    queue; returned. *)
Inductive pc :=
| AtHead
| AtCount
| Scanning (n : nat)
| Holding (candidate : ThreadId) (n : nat)
| GotSlot
| LimitReached.

#[global] Instance pc_eq_dec : EqDecision pc.
Proof. solve_decision. Defined.

(** What becomes of a candidate. *)
Inductive verdict := Stale | Keep | Unload.
#[global] Instance verdict_eq_dec : EqDecision verdict.
Proof. solve_decision. Defined.

Section reserve.
Context `{Manager} (capacity : N) (protected : option ThreadId).

Definition inspect (c : ThreadId) : verdict :=
  match get_thread c with
  | Some t =>
      if is_resident_candidate t then
        if negb (is_unloadable t) then Keep
        else if shutdown_succeeds c then Unload else Keep
      else Stale
  | None => Stale
  end.

Definition slot_advance (s : V2ResidencyState) (p : pc) : V2ResidencyState * pc :=
  match p with
  | AtHead =>
      let '(s', b) := try_reserve_pending_slot capacity s in
      (s', if b then GotSlot else AtCount)
  | AtCount => (s, Scanning (length (residents s)))
  | Scanning O => (s, LimitReached)
  | Scanning (S n) =>
      match pop_lru_candidate protected s with
      | (s', Some c) => (s', Holding c n)
      | (s', None) => (s', LimitReached)
      end
  | Holding c n =>
      match inspect c with
      | Stale => (s, Scanning n)
      | Keep => (touch c s, Scanning n)
      | Unload => (s, AtHead)
      end
  | GotSlot | LimitReached => (s, p)
  end.

(** The call by itself, for a number of steps. *)
Fixpoint slot_run (fuel : nat) (s : V2ResidencyState) (p : pc) : V2ResidencyState * pc :=
  match fuel with
  | O => (s, p)
  | S fuel => let '(s', p') := slot_advance s p in slot_run fuel s' p'
  end.

Definition returned (p : pc) : bool := match p with GotSlot | LimitReached => true | _ => false end.

End reserve.

(** ** The candidate that is taken out *)

Lemma pop_lru_loop_skip protected P c R Q n :
  Forall (λ x, Some x = protected) P → Some c ≠ protected → length P < n →
  pop_lru_loop n protected (P ++ c :: R ++ Q) = (R ++ Q ++ P, Some c).
Proof.
  revert Q n. induction P as [|x P IH]; intros Q n HP Hc Hn; (destruct n as [|n]; [simpl in Hn; lia|]); simpl.
  - rewrite bool_decide_false by done. by rewrite app_nil_r.
  - inversion HP; subst. rewrite bool_decide_true by done.
    replace ((P ++ c :: R ++ Q) ++ [x]) with (P ++ c :: R ++ (Q ++ [x]))
      by (rewrite <- !app_assoc; simpl; by rewrite <- !app_assoc).
    rewrite IH by (done || simpl in Hn; lia). by rewrite <- !app_assoc.
Qed.

Lemma pop_lru_loop_none protected l n :
  Forall (λ x, Some x = protected) l →
  ∃ l', pop_lru_loop n protected l = (l', None) ∧ l' ≡ₚ l.
Proof.
  revert l. induction n as [|n IH]; intros l Hl; simpl; [by exists l|].
  destruct l as [|x l]; [by exists []|]. inversion Hl; subst. rewrite bool_decide_true by done.
  destruct (IH (l ++ [x])) as (l' & E & Hp); [by apply Forall_app; auto|].
  exists l'. split; [done|]. rewrite Hp. by rewrite Permutation_app_comm.
Qed.

(** The candidate is the first resident that is not protected; the protected ones in front of
    it go to the back. *)
Lemma pop_lru_candidate_spec protected s :
  (∃ P c R, residents s = P ++ c :: R ∧ Forall (λ x, Some x = protected) P ∧ Some c ≠ protected ∧
            pop_lru_candidate protected s = (mkResidency (R ++ P) (pending_slots s), Some c))
  ∨ (Forall (λ x, Some x = protected) (residents s) ∧
     ∃ l, l ≡ₚ residents s ∧ pop_lru_candidate protected s = (mkResidency l (pending_slots s), None)).
Proof.
  unfold pop_lru_candidate.
  destruct (list_find (λ x, Some x ≠ protected) (residents s)) as [[i c]|] eqn:E; [left|right].
  - apply list_find_Some in E as (Hi & Hc & Hp).
    assert (HP : Forall (λ x, Some x = protected) (take i (residents s))).
    { apply Forall_lookup. intros j x [Hj Hlt]%lookup_take_Some. specialize (Hp j x Hj Hlt).
      destruct (decide (Some x = protected)); [done|contradiction]. }
    exists (take i (residents s)), c, (drop (S i) (residents s)).
    pose proof (take_drop_middle _ _ _ Hi) as Hmid. split_and!; [by rewrite Hmid|done|done|].
    rewrite <- Hmid at 2.
    pose proof (pop_lru_loop_skip protected (take i (residents s)) c (drop (S i) (residents s)) []
                  (length (residents s))) as Hsk.
    rewrite app_nil_r in Hsk. simpl in Hsk. rewrite Hsk; [done|done|done|].
    rewrite length_take. apply lookup_lt_Some in Hi. lia.
  - apply list_find_None in E.
    assert (HP : Forall (λ x, Some x = protected) (residents s)).
    { eapply Forall_impl; [exact E|]. intros x Hx. simpl in Hx.
      destruct (decide (Some x = protected)); [done|contradiction]. }
    split; [done|]. destruct (pop_lru_loop_none protected (residents s) (length (residents s)) HP) as (l & -> & Hl).
    eauto.
Qed.

(** ** A call that runs by itself *)

Section alone.
Context `{Manager} (capacity : N) (protected : option ThreadId).

(** [x] is a resident that the scan may unload. *)
Definition evictable (x : ThreadId) : Prop := Some x ≠ protected ∧ inspect x = Unload.

(** What a scan may have done to the queue: nothing is added, and what is missing is stale or
    was unloaded. *)
Definition scanned (l l' : list ThreadId) : Prop :=
  NoDup l' ∧ l' ⊆ l ∧ ∀ x, x ∈ l → x ∉ l' → Some x ≠ protected ∧ inspect x ≠ Keep.

Lemma scanned_refl l : NoDup l → scanned l l.
Proof. intros ?. split_and!; [done|done|by intros]. Qed.

Lemma scanned_trans l1 l2 l3 : scanned l1 l2 → scanned l2 l3 → scanned l1 l3.
Proof.
  intros (H1 & H2 & H3) (H4 & H5 & H6). split_and!; [done|set_solver|].
  intros x Hx Hn. destruct (decide (x ∈ l2)); auto.
Qed.

Lemma scanned_perm l l' : NoDup l → l' ≡ₚ l → scanned l l'.
Proof.
  intros Hn Hp. split_and!; [by rewrite Hp|by rewrite Hp|]. intros x Hx Hnx. by rewrite Hp in Hnx.
Qed.

Lemma touch_resident_new l c : c ∉ l → touch_resident l c = l ++ [c].
Proof.
  intros Hc. unfold touch_resident, retain_others. f_equal.
  induction l as [|x l IH]; [done|]. rewrite filter_cons, decide_True by set_solver.
  f_equal. apply IH. set_solver.
Qed.

Lemma slot_run_add n m s p :
  slot_run capacity protected (n + m) s p =
  let '(s', p') := slot_run capacity protected n s p in slot_run capacity protected m s' p'.
Proof.
  revert s p. induction n as [|n IH]; intros s p; simpl; [done|]. by destruct (slot_advance _ _ s p).
Qed.

Definition unprotected (l : list ThreadId) : nat := length (filter (λ x, Some x ≠ protected) l).

Lemma unprotected_zero l : unprotected l ≤ 0 → ∀ x, x ∈ l → ¬ evictable x.
Proof.
  unfold unprotected. intros Hl x Hx [Hp _].
  assert (Hin : x ∈ filter (λ x, Some x ≠ protected) l) by by apply list_elem_of_filter.
  destruct (filter _ l); [by apply elem_of_nil in Hin|simpl in Hl; lia].
Qed.

Lemma protected_not_evictable l : Forall (λ x, Some x = protected) l → ∀ x, x ∈ l → ¬ evictable x.
Proof. intros Hl x Hx [Hp _]. by pose proof (proj1 (Forall_forall _ _) Hl _ Hx). Qed.

(** After the candidate [c] was taken out of [A ++ B] and [T] was put at the back, the part
    that is still to be visited shrinks. *)
Lemma rotate_split A B P c R T n :
  A ++ B = P ++ c :: R → Forall (λ x, Some x = protected) P → Some c ≠ protected →
  unprotected A ≤ S n → (∀ x, x ∈ B → ¬ evictable x) → (∀ x, x ∈ T → ¬ evictable x) →
  ∃ A' B', R ++ T = A' ++ B' ∧ unprotected A' ≤ n ∧ (∀ x, x ∈ B' → ¬ evictable x).
Proof.
  intros E HP Hc Hn HB HT. apply app_eq_inv in E as [(K & -> & EK)|(K & -> & ->)].
  - destruct K as [|c' K]; simplify_eq/=.
    + exists [], (R ++ T). split_and!; [done|unfold unprotected; simpl; lia|].
      intros x [Hx|Hx]%elem_of_app; [|by apply HT]. apply HB. by right.
    + exists K, (B ++ T). split_and!; [by rewrite app_assoc| |].
      * unfold unprotected in *. rewrite filter_app, length_app, filter_cons, decide_True in Hn by done.
        simpl in Hn. lia.
      * intros x [Hx|Hx]%elem_of_app; auto.
  - exists [], (R ++ T). split_and!; [done|unfold unprotected; simpl; lia|].
    intros x [Hx|Hx]%elem_of_app; [|by apply HT]. apply HB. apply elem_of_app. right. by right.
Qed.

Lemma scan_alone n s A B :
  residents s = A ++ B → NoDup (residents s) → unprotected A ≤ n → (∀ x, x ∈ B → ¬ evictable x) →
  ∃ k s', k ≤ 2 * n + 2 ∧ pending_slots s' = pending_slots s ∧ scanned (residents s) (residents s') ∧
  (slot_run capacity protected k s (Scanning n) = (s', LimitReached)
     ∧ (∀ x, x ∈ residents s → ¬ evictable x)
   ∨ slot_run capacity protected k s (Scanning n) = (s', AtHead)
     ∧ length (residents s') < length (residents s) ∧ ∃ x, x ∈ residents s ∧ evictable x).
Proof.
  revert s A B. induction n as [|n IH]; intros s A B Hs Hnd Hn HB.
  { exists 1, s. split_and!; [lia|done|by apply scanned_refl|]. left. split; [done|].
    rewrite Hs. intros x [Hx|Hx]%elem_of_app; [by eapply unprotected_zero|by apply HB]. }
  destruct (pop_lru_candidate_spec protected s) as [(P & c & R & Hl & HP & Hc & Hpop)|(HP & l & Hl & Hpop)].
  2:{ exists 1, (mkResidency l (pending_slots s)). split_and!; [lia|done|by apply scanned_perm|].
      left. split; [simpl; by rewrite Hpop|]. by apply protected_not_evictable. }
  rewrite Hl in Hnd. apply NoDup_app in Hnd as (HnP & HdP & HnR). inversion HnR as [|? ? HcR HnR']; subst.
  assert (HcP : c ∉ P) by (intros HcP; eapply (HdP c HcP); by left).
  assert (HRP : NoDup (R ++ P)).
  { apply NoDup_app. split_and!; [done| |done]. intros x HxR HxP. apply (HdP x HxP). by right. }
  assert (Hsc : inspect c ≠ Keep → scanned (residents s) (R ++ P)).
  { intros Hk. rewrite Hl. split_and!; [done|set_solver|]. intros x Hx Hnx.
    assert (x = c) as -> by set_solver. done. }
  destruct (inspect c) eqn:Hv.
  - destruct (rotate_split A B P c R P n) as (A' & B' & E' & HA' & HB'); try done;
      [by rewrite <- Hs|by apply protected_not_evictable|].
    destruct (IH (mkResidency (R ++ P) (pending_slots s)) A' B') as (k & s' & Hk & Hp & Hscan & Hcase); try done.
    exists (S (S k)), s'. split_and!; [lia|done|eapply scanned_trans; [by apply Hsc|done]|].
    cbn [slot_run slot_advance]. rewrite Hpop. cbn [slot_run slot_advance]. rewrite Hv.
    rewrite Hl. destruct Hcase as [[-> Hno]|(-> & Hlen & x & Hx & Hev)]; [left|right]; (split; [done|]).
    + intros x Hx Hev. destruct (decide (x = c)) as [->|Hne]; [by destruct Hev as [_ Hev]; rewrite Hv in Hev|].
      apply (Hno x); [simpl; set_solver|done].
    + simpl in *. split; [rewrite length_app in *; simpl; lia|]. exists x. split; [set_solver|done].
  - destruct (rotate_split A B P c R (P ++ [c]) n) as (A' & B' & E' & HA' & HB'); try done.
    { by rewrite <- Hs. }
    { intros x [Hx|Hx]%elem_of_app; [by eapply protected_not_evictable|].
      apply list_elem_of_singleton in Hx as ->. intros [_ Hev]. by rewrite Hv in Hev. }
    assert (Ht : touch c (mkResidency (R ++ P) (pending_slots s)) = mkResidency (R ++ P ++ [c]) (pending_slots s)).
    { unfold touch. cbn [residents pending_slots]. rewrite touch_resident_new by set_solver. by rewrite <- app_assoc. }
    assert (Hperm : R ++ P ++ [c] ≡ₚ residents s).
    { rewrite Hl. rewrite app_assoc, (Permutation_app_comm R P), <- app_assoc, (Permutation_app_comm R [c]). done. }
    assert (HndL : NoDup (residents s)).
    { rewrite Hl. apply NoDup_app. split_and!; done. }
    destruct (IH (mkResidency (R ++ P ++ [c]) (pending_slots s)) A' B') as (k & s' & Hk & Hp & Hscan & Hcase);
      [done|by simpl; rewrite Hperm|done|done|].
    exists (S (S k)), s'. split_and!; [lia|done|eapply scanned_trans; [by apply scanned_perm|done]|].
    cbn [slot_run slot_advance]. rewrite Hpop. cbn [slot_run slot_advance]. rewrite Hv, Ht.
    simpl residents in Hcase. destruct Hcase as [[-> Hno]|(-> & Hlen & x & Hx & Hev)]; [left|right]; (split; [done|]).
    + intros x Hx. apply Hno. by rewrite Hperm.
    + split; [by rewrite Hperm in Hlen|]. exists x. split; [by rewrite <- Hperm|done].
  - exists 2, (mkResidency (R ++ P) (pending_slots s)). split_and!; [lia|done|by apply Hsc|].
    right. split; [cbn [slot_run slot_advance]; rewrite Hpop; cbn [slot_run slot_advance]; by rewrite Hv|].
    rewrite Hl. simpl. split; [rewrite !length_app; simpl; lia|]. exists c. split; [set_solver|done].
Qed.

Lemma occupied_exact s :
  (N.of_nat (length (residents s)) + pending_slots s < usize_bound)%N →
  occupied s = (N.of_nat (length (residents s)) + pending_slots s)%N.
Proof. unfold occupied. lia. Qed.

(** A call of [reserve_slot] that runs by itself returns, within a number of steps linear in
    the number of residents.  It gets a slot exactly when one is free or some resident that is
    not protected can be unloaded; the capacity is then still respected.  In both cases no
    resident is lost but stale ones and those it unloaded. *)
Theorem reserve_slot_alone s :
  (capacity < usize_bound)%N → NoDup (residents s) →
  (N.of_nat (length (residents s)) + pending_slots s ≤ capacity)%N →
  ∃ k s', k ≤ 2 * length (residents s) + 5 ∧ scanned (residents s) (residents s') ∧
  (slot_run capacity protected k s AtHead = (s', GotSlot)
     ∧ ((N.of_nat (length (residents s)) + pending_slots s < capacity)%N
        ∨ ∃ x, x ∈ residents s ∧ evictable x)
     ∧ pending_slots s' = (pending_slots s + 1)%N
     ∧ (N.of_nat (length (residents s')) + pending_slots s' ≤ capacity)%N
   ∨ slot_run capacity protected k s AtHead = (s', LimitReached)
     ∧ (N.of_nat (length (residents s)) + pending_slots s = capacity)%N
     ∧ (∀ x, x ∈ residents s → ¬ evictable x)
     ∧ pending_slots s' = pending_slots s).
Proof.
  intros Hcap Hnd Hocc.
  assert (Htry : ∀ s, (N.of_nat (length (residents s)) + pending_slots s < capacity)%N →
            slot_run capacity protected 1 s AtHead = (mkResidency (residents s) (pending_slots s + 1), GotSlot)).
  { intros s0 H0. simpl. unfold try_reserve_pending_slot. rewrite occupied_exact by lia.
    by rewrite (proj2 (N.leb_gt _ _)). }
  destruct (decide (N.of_nat (length (residents s)) + pending_slots s < capacity)%N) as [Hlt|Hge].
  { exists 1, (mkResidency (residents s) (pending_slots s + 1)). split_and!; [lia|by apply scanned_refl|].
    left. split_and!; [by apply Htry|by left|done|simpl; lia]. }
  destruct (scan_alone (length (residents s)) s (residents s) []) as (k & s' & Hk & Hp & Hsc & Hcase);
    [by rewrite app_nil_r|done|apply length_filter|by intros x ?%elem_of_nil|].
  assert (H2 : slot_run capacity protected 2 s AtHead = (s, Scanning (length (residents s)))).
  { simpl. unfold try_reserve_pending_slot. rewrite occupied_exact by lia. by rewrite (proj2 (N.leb_le _ _)) by lia. }
  destruct Hcase as [[Hrun Hno]|(Hrun & Hlen & Hev)].
  - exists (2 + k), s'. split_and!; [lia|done|]. right.
    split_and!; [by rewrite slot_run_add, H2|lia|done|done].
  - exists (2 + (k + 1)), (mkResidency (residents s') (pending_slots s' + 1)). split_and!; [lia|done|]. left.
    split_and!; [|by right|by simpl; rewrite Hp|simpl; lia].
    rewrite slot_run_add, H2, slot_run_add, Hrun. apply Htry. lia.
Qed.
End alone.

(** ** Calls that overlap *)

Definition candidate_of (p : pc) : option ThreadId :=
  match p with Holding c _ => Some c | _ => None end.
Definition held (ws : list pc) : list ThreadId := omap candidate_of ws.
Definition slots (ws : list pc) : nat := length (filter (λ p, p = GotSlot) ws).

(** The threads that have a place: residents and candidates that are being inspected. *)
Definition places (s : V2ResidencyState) (ws : list pc) : gset ThreadId :=
  list_to_set (residents s ++ held ws).

(** [workers] are the tasks that may call [reserve_slot], one call at a time each; [walked_in]
    are, for the statements only, the threads that were touched when they had no place. *)
Record rsys := mkRsys { queue : V2ResidencyState; workers : list pc; walked_in : gset ThreadId }.

Definition walk_in (s : V2ResidencyState) (ws : list pc) (th : ThreadId) (F : gset ThreadId) : gset ThreadId :=
  if bool_decide (th ∈ places s ws) then F else {[th]} ∪ F.

Inductive rstep (capacity : N) : rsys → rsys → Prop :=
| rstep_advance (m : Manager) protected s s' ws1 p p' ws2 F :
    slot_advance capacity protected s p = (s', p') →
    rstep capacity (mkRsys s (ws1 ++ p :: ws2) F) (mkRsys s' (ws1 ++ p' :: ws2) F)
| rstep_commit th s ws1 ws2 F :
    rstep capacity (mkRsys s (ws1 ++ GotSlot :: ws2) F) (mkRsys (commit_slot th s) (ws1 ++ AtHead :: ws2) F)
| rstep_drop s ws1 ws2 F :
    rstep capacity (mkRsys s (ws1 ++ GotSlot :: ws2) F)
      (mkRsys (release_pending_slot s) (ws1 ++ AtHead :: ws2) F)
| rstep_again s ws1 ws2 F :
    rstep capacity (mkRsys s (ws1 ++ LimitReached :: ws2) F) (mkRsys s (ws1 ++ AtHead :: ws2) F)
| rstep_touch (m : Manager) th s ws F :
    rstep capacity (mkRsys s ws F) (mkRsys (touch_loaded_v2_residency th s) ws (walk_in s ws th F))
| rstep_remove th s ws F : rstep capacity (mkRsys s ws F) (mkRsys (remove_resident th s) ws F).

Definition rinitial (k : nat) : rsys := mkRsys (mkResidency [] 0) (replicate k AtHead) ∅.

(** Without those that walked in, the places and the pending slots keep to the capacity, but for
    the candidates of the other tasks. *)
Record RInv (capacity : N) (k : nat) (x : rsys) : Prop := {
  rinv_workers : length (workers x) = k;
  rinv_nodup : NoDup (residents (queue x));
  rinv_pending : pending_slots (queue x) = N.of_nat (slots (workers x));
  rinv_places : (N.of_nat (size (places (queue x) (workers x) ∖ walked_in x)) + pending_slots (queue x) + 1
                 ≤ capacity + N.of_nat k)%N }.

Lemma held_app ws1 ws2 : held (ws1 ++ ws2) = held ws1 ++ held ws2.
Proof. apply omap_app. Qed.
Lemma held_cons p ws : held (p :: ws) = option_list (candidate_of p) ++ held ws.
Proof. unfold held. simpl. by destruct (candidate_of p). Qed.
Lemma slots_middle ws1 p ws2 : slots (ws1 ++ p :: ws2) = slots [p] + slots (ws1 ++ ws2).
Proof.
  unfold slots. rewrite !filter_app, !length_app, !filter_cons. rewrite filter_nil.
  destruct (decide (p = GotSlot)); cbn [length]; lia.
Qed.
Lemma held_length ws : length (held ws) ≤ length ws.
Proof.
  induction ws as [|p ws IH]; [done|]. rewrite held_cons, length_app.
  destruct (candidate_of p); simpl; lia.
Qed.

Lemma length_filter_split (F : gset ThreadId) (l : list ThreadId) :
  length (filter (λ x, x ∉ F) l) + length (filter (λ x, x ∈ F) l) = length l.
Proof.
  induction l as [|x l IH]; [done|]. rewrite !filter_cons.
  destruct (decide (x ∈ F)) as [Hx|Hx]; [rewrite decide_False by tauto|rewrite decide_True by done];
    simpl; lia.
Qed.

Lemma residents_le_places s ws (F : gset ThreadId) :
  NoDup (residents s) →
  length (residents s) ≤ size (places s ws ∖ F) + length (filter (λ x, x ∈ F) (residents s)).
Proof.
  intros Hn. pose proof (length_filter_split F (residents s)).
  assert (length (filter (λ x, x ∉ F) (residents s)) ≤ size (places s ws ∖ F)); [|lia].
  rewrite <- (size_list_to_set (C := gset ThreadId) (filter (λ x, x ∉ F) (residents s))) by by apply NoDup_filter.
  apply subseteq_size. unfold places. intros x. rewrite elem_of_list_to_set, list_elem_of_filter. set_solver.
Qed.

Lemma size_difference_le (X Y F : gset ThreadId) : X ⊆ Y → size (X ∖ F) ≤ size (Y ∖ F).
Proof. intros. apply subseteq_size. set_solver. Qed.
Lemma size_difference_any (X F : gset ThreadId) : size (X ∖ F) ≤ size X.
Proof. apply subseteq_size. set_solver. Qed.

Lemma places_le s ws : size (places s ws) ≤ length (residents s) + length (held ws).
Proof.
  unfold places. rewrite <- length_app. generalize (residents s ++ held ws) as l. intros l.
  induction l as [|x l IH]; simpl; [done|].
  pose proof (size_union_alt {[x]} (list_to_set l : gset ThreadId)) as Hu. rewrite Hu, size_singleton.
  assert (size (list_to_set l ∖ {[x]} : gset ThreadId) ≤ size (list_to_set l : gset ThreadId))
    by (apply subseteq_size; set_solver). lia.
Qed.

(** The invariant follows from what a step does to the queue, the places and the slots. *)
Lemma RInv_change capacity k s s' ws1 p p' ws2 F :
  NoDup (residents s') →
  places s' (ws1 ++ p' :: ws2) ⊆ places s (ws1 ++ p :: ws2) →
  pending_slots s' = pending_slots s → slots [p'] = slots [p] →
  RInv capacity k (mkRsys s (ws1 ++ p :: ws2) F) → RInv capacity k (mkRsys s' (ws1 ++ p' :: ws2) F).
Proof.
  intros Hn Hpl Hpe Hsl [Hw Hnd Hp Hb]. constructor; simpl in *.
  - rewrite length_app in *. simpl in *. lia.
  - done.
  - rewrite Hpe, Hp, !slots_middle. lia.
  - apply (size_difference_le _ _ F) in Hpl. lia.
Qed.

Lemma residents_NoDup_retain th l : NoDup l → NoDup (retain_others th l).
Proof. apply NoDup_filter. Qed.
Lemma NoDup_touch th l : NoDup l → NoDup (touch_resident l th).
Proof.
  intros Hn. apply NoDup_app. split_and!; [by apply residents_NoDup_retain| |repeat constructor; set_solver].
  intros x Hx ->%list_elem_of_singleton. by apply list_elem_of_filter in Hx as [? _].
Qed.
Lemma elem_of_touch x th l : x ∈ touch_resident l th ↔ x = th ∨ x ∈ l.
Proof.
  unfold touch_resident, retain_others. rewrite elem_of_app, list_elem_of_singleton, list_elem_of_filter.
  destruct (decide (x = th)); naive_solver.
Qed.
#[local] Hint Resolve residents_NoDup_retain NoDup_touch : codex.

Lemma elem_of_places x s ws1 p ws2 :
  x ∈ places s (ws1 ++ p :: ws2) ↔
  x ∈ residents s ∨ candidate_of p = Some x ∨ x ∈ held (ws1 ++ ws2).
Proof.
  unfold places. rewrite elem_of_list_to_set, !held_app, held_cons, !elem_of_app.
  destruct (candidate_of p); simpl; set_solver.
Qed.

Lemma RInv_advance capacity k (m : Manager) protected s s' ws1 p p' ws2 F :
  (capacity < usize_bound)%N → slot_advance capacity protected s p = (s', p') →
  RInv capacity k (mkRsys s (ws1 ++ p :: ws2) F) → RInv capacity k (mkRsys s' (ws1 ++ p' :: ws2) F).
Proof.
  intros Hcap Hadv HI. pose proof HI as [Hw Hnd Hp Hb]. simpl in *.
  assert (Hsame : ∀ p'', slots [p''] = slots [p] → candidate_of p'' = candidate_of p →
            RInv capacity k (mkRsys s (ws1 ++ p'' :: ws2) F)).
  { intros p'' Hs Hc. eapply RInv_change; [done| |done|exact Hs|exact HI].
    intros x. rewrite !elem_of_places, Hc. done. }
  destruct p as [| |[|n]|c n| |]; simpl in Hadv; simplify_eq; try done; try by apply Hsame.
  - unfold try_reserve_pending_slot in Hadv. destruct (N.leb_spec capacity (occupied s)) as [Hge|Hlt];
      simplify_eq; [by apply Hsame|].
    pose proof (places_le s (ws1 ++ AtHead :: ws2)) as Hpl. rewrite held_app, held_cons in Hpl. simpl in Hpl.
    pose proof (size_difference_any (places s (ws1 ++ AtHead :: ws2)) F).
    pose proof (held_length ws1). pose proof (held_length ws2). rewrite length_app in *. simpl in *.
    constructor; simpl; [rewrite length_app; simpl; lia|done| |].
    + rewrite Hp, !slots_middle. change (slots [GotSlot]) with 1. change (slots [AtHead]) with 0. lia.
    + assert (Hpl' : places (mkResidency (residents s) (pending_slots s + 1)) (ws1 ++ GotSlot :: ws2)
                     = places s (ws1 ++ AtHead :: ws2)).
      { apply set_eq. intros x. rewrite !elem_of_places. done. }
      rewrite Hpl'. unfold occupied in Hlt. lia.
  - destruct (pop_lru_candidate_spec protected s) as [(P & c & R & Hl & _ & _ & Hpop)|(_ & l & Hl & Hpop)];
      rewrite Hpop in Hadv; simplify_eq.
    + eapply RInv_change; [..|exact HI]; try done; simpl.
      * rewrite Hl in Hnd. rewrite (Permutation_app_comm R P).
        by rewrite <- Permutation_middle, NoDup_cons in Hnd; destruct Hnd.
      * intros x. rewrite !elem_of_places, Hl. simpl. set_solver.
    + eapply RInv_change; [..|exact HI]; try done; simpl; [by rewrite Hl|].
      intros x. rewrite !elem_of_places. simpl. by rewrite Hl.
  - destruct (inspect c); simplify_eq.
    + eapply RInv_change; [..|exact HI]; try done. intros x. rewrite !elem_of_places. simpl. set_solver.
    + eapply RInv_change; [..|exact HI]; try done; [by apply NoDup_touch|].
      intros x. rewrite !elem_of_places. simpl. rewrite elem_of_touch. naive_solver.
    + eapply RInv_change; [..|exact HI]; try done. intros x. rewrite !elem_of_places. simpl. set_solver.
Qed.

Lemma RInv_end_slot capacity k s s' ws1 ws2 F :
  NoDup (residents s') → pending_slots s' = N.pred (pending_slots s) →
  (size (places s' (ws1 ++ AtHead :: ws2) ∖ F) ≤ size (places s (ws1 ++ GotSlot :: ws2) ∖ F) + 1) →
  RInv capacity k (mkRsys s (ws1 ++ GotSlot :: ws2) F) → RInv capacity k (mkRsys s' (ws1 ++ AtHead :: ws2) F).
Proof.
  intros Hn Hpe Hpl [Hw Hnd Hp Hb]. simpl in *.
  assert (Hs : slots (ws1 ++ GotSlot :: ws2) = S (slots (ws1 ++ AtHead :: ws2))) by by rewrite !slots_middle.
  constructor; simpl; [rewrite length_app in *; simpl in *; lia|done|lia|lia].
Qed.

Lemma RInv_step capacity k x x' :
  (capacity < usize_bound)%N → rstep capacity x x' → RInv capacity k x → RInv capacity k x'.
Proof.
  intros Hcap [m prot s s' ws1 p p' ws2 F Hadv|th s ws1 ws2 F|s ws1 ws2 F|s ws1 ws2 F|m th s ws F|th s ws F] HI.
  - by eapply RInv_advance.
  - eapply RInv_end_slot; [..|exact HI]; [apply NoDup_touch, HI|done|].
    transitivity (size ({[th]} ∪ places s (ws1 ++ GotSlot :: ws2) ∖ F)).
    + apply subseteq_size. intros y. rewrite elem_of_union, !elem_of_difference, elem_of_singleton, !elem_of_places.
      simpl. rewrite elem_of_touch. naive_solver.
    + rewrite size_union_alt, size_singleton.
      assert (size ((places s (ws1 ++ GotSlot :: ws2) ∖ F) ∖ {[th]}) ≤ size (places s (ws1 ++ GotSlot :: ws2) ∖ F))
        by apply size_difference_any. lia.
  - eapply RInv_end_slot; [..|exact HI]; [apply HI|done|].
    etransitivity; [apply size_difference_le|apply Nat.le_add_r]. intros y. by rewrite !elem_of_places.
  - eapply RInv_change; [..|exact HI]; try done; [apply HI|]. intros y. by rewrite !elem_of_places.
  - destruct HI as [Hw Hnd Hp Hb]. simpl in *.
    assert (Hsub : places (touch_loaded_v2_residency th s) ws ∖ walk_in s ws th F ⊆ places s ws ∖ F).
    { unfold touch_loaded_v2_residency, walk_in, places. intros y.
      repeat case_match; simpl; case_bool_decide; rewrite ?elem_of_difference, ?elem_of_union, ?elem_of_singleton,
        !elem_of_list_to_set, !elem_of_app in *; rewrite ?elem_of_touch; naive_solver. }
    constructor; simpl; [done| | |apply subseteq_size in Hsub].
    + unfold touch_loaded_v2_residency. repeat case_match; try done. by apply NoDup_touch.
    + unfold touch_loaded_v2_residency. by repeat case_match.
    + unfold touch_loaded_v2_residency in *. repeat case_match; simpl in *; lia.
  - destruct HI as [Hw Hnd Hp Hb]. constructor; simpl in *; [done|by apply residents_NoDup_retain|done|].
    assert (places (remove_resident th s) ws ⊆ places s ws) as Hsub%(size_difference_le _ _ F); [|lia].
    intros y. unfold places. rewrite !elem_of_list_to_set. simpl. rewrite !elem_of_app. unfold retain_others.
    rewrite list_elem_of_filter. naive_solver.
Qed.


(** ** What the gaps between the locks allow *)

Definition running_thread : Thread := mkThread (Some V2) (SubAgent Review) Running true false.
Definition idle_thread : Thread := mkThread (Some V2) (SubAgent Review) (Completed None) false false.

Definition all_running : Manager := {| get_thread _ := Some running_thread; shutdown_succeeds _ := true |}.
Definition all_idle : Manager := {| get_thread _ := Some idle_thread; shutdown_succeeds _ := true |}.
Definition all_gone : Manager := {| get_thread _ := None; shutdown_succeeds _ := true |}.

Local Ltac advance_worker ws1 m := eapply rtc_l; [eapply (rstep_advance 1%N m None _ _ ws1); reflexivity|simpl].

(** The capacity is exceeded when a reservation falls between taking a busy resident out of the
    queue and putting it back: with two tasks and a capacity of one, a resident and a pending
    slot. *)
Theorem residency_overrun :
  rtc (rstep 1) (rinitial 2) (mkRsys (mkResidency [1%N] 1) [Scanning 0; GotSlot] ∅).
Proof.
  unfold rinitial. simpl.
  advance_worker ([] : list pc) all_running.
  eapply rtc_l; [apply (rstep_commit _ 1%N _ [])|simpl].
  do 3 advance_worker ([] : list pc) all_running.
  advance_worker [Holding 1%N 0] all_running.
  advance_worker ([] : list pc) all_running.
  apply rtc_refl.
Qed.

(** So it is when a loaded thread that has no place is touched, by one task alone. *)
Theorem residency_walk_in :
  rtc (rstep 1) (rinitial 1) (mkRsys (mkResidency [1%N; 2%N] 0) [AtHead] {[2%N]}).
Proof.
  unfold rinitial. simpl.
  advance_worker ([] : list pc) all_idle.
  eapply rtc_l; [apply (rstep_commit _ 1%N _ [])|simpl].
  eapply rtc_l; [apply (rstep_touch 1 all_idle 2%N)|].
  unfold walk_in. rewrite bool_decide_false by (vm_compute; done). rewrite union_empty_r_L. apply rtc_refl.
Qed.

(** A resident whose thread is gone is dropped from the queue by the scan, but the call is
    refused all the same, with every slot free. *)
Theorem stale_resident_refused :
  @slot_run all_gone 1 None 5 (mkResidency [1%N] 0) AtHead = (mkResidency [] 0, LimitReached).
Proof. reflexivity. Qed.

(** With an idle resident the call gets its slot. *)
Lemma reserve_slot_alone_witness :
  @slot_run all_idle 1 None 5 (mkResidency [1%N] 0) AtHead = (mkResidency [] 1, GotSlot) ∧
  ∃ k s', k ≤ 7 ∧ @scanned all_idle None [1%N] (residents s') ∧
  (@slot_run all_idle 1 None k (mkResidency [1%N] 0) AtHead = (s', GotSlot)
     ∧ ((N.of_nat 1 + 0 < 1)%N ∨ ∃ x, x ∈ [1%N] ∧ @evictable all_idle None x)
     ∧ pending_slots s' = 1%N ∧ (N.of_nat (length (residents s')) + pending_slots s' ≤ 1)%N
   ∨ @slot_run all_idle 1 None k (mkResidency [1%N] 0) AtHead = (s', LimitReached)
     ∧ (N.of_nat 1 + 0 = 1)%N ∧ (∀ x, x ∈ [1%N] → ¬ @evictable all_idle None x)
     ∧ pending_slots s' = 0%N).
Proof.
  split; [reflexivity|].
  apply (@reserve_slot_alone all_idle 1 None (mkResidency [1%N] 0)).
  - reflexivity.
  - repeat constructor. by intros ?%elem_of_nil.
  - reflexivity || (simpl; lia).
Defined.

Definition overrun : rsys := mkRsys (mkResidency [1%N] 1) [Scanning 0; GotSlot] ∅.

