(* ===== verification/Template.v ===== *)
(** * Templates (utils/template/src/lib.rs)

    Prompts are kept as templates with placeholders [{{ name }}], in which [{{{{] and [}}}}]
    stand for literal braces.  [parse] cuts a template into segments, [render_template] fills
    them in and insists that the values given are exactly the ones used.  The theorems: a
    printed template parses back, what [parse] returns is well formed and prints back, escaped
    text renders to itself, and what [render] does with any values, errors included. *)

From stdpp Require Import prelude strings list sorting.
From S2P Require Import Prelude RustStr StrSearch.

(** ** [BTreeSet<String>] and [BTreeMap<String, String>]

    Lists in the order of their keys. *)

Fixpoint bset_insert (x : str) (l : list str) : list str :=
  match l with
  | [] => [x]
  | y :: l' => match str_compare x y with
               | Lt => x :: l
               | Eq => l
               | Gt => y :: bset_insert x l'
               end
  end.

(** The map after the insertion, and the value that was there. *)
Fixpoint bmap_insert (k v : str) (m : list (list N * list N)) :
    list (list N * list N) * option str :=
  match m with
  | [] => ([(k, v)], None)
  | (k', v') :: m' =>
      match str_compare k k' with
      | Lt => ((k, v) :: m, None)
      | Eq => ((k', v) :: m', Some v')
      | Gt => let '(r, o) := bmap_insert k v m' in ((k', v') :: r, o)
      end
  end.

Fixpoint bmap_get (k : str) (m : list (list N * list N)) : option str :=
  match m with
  | [] => None
  | (k', v) :: m => if decide (k = k') then Some v else bmap_get k m
  end.

(** ** Parsing *)

Inductive TemplateParseError :=
| EmptyPlaceholder (start : nat)
| NestedPlaceholder (start : nat)
| UnmatchedClosingDelimiter (start : nat)
| UnterminatedPlaceholder (start : nat).

Inductive TemplateRenderError :=
| DuplicateValue (name : list N)
| ExtraValue (name : list N)
| MissingValue (name : list N).

Inductive TemplateError :=
| ParseError (e : TemplateParseError)
| RenderError (e : TemplateRenderError).

Inductive Segment :=
| Literal (text : list N)
| Placeholder (name : list N).

#[global] Instance segment_eq_dec : EqDecision Segment.
Proof. solve_decision. Defined.

Record Template := mkTemplate {
  placeholders : list (list N);
  segments : list Segment }.

Definition open2 : str := lit "{{".
Definition close2 : str := lit "}}".
Definition open4 : str := lit "{{{{".
Definition close4 : str := lit "}}}}".

Definition push_literal (segs : list Segment) (literal : str) : list Segment :=
  if bool_decide (literal = []) then segs
  else match last segs with
       | Some (Literal existing) => removelast segs ++ [Literal (existing ++ literal)]
       | _ => segs ++ [Literal literal]
       end.

(** [parse_placeholder] behind the opening braces: [acc] is the text since
    [placeholder_start], [cursor] the byte offset of [rest].  The rest of the source is
    returned with its offset. *)
Fixpoint parse_placeholder (start : nat) (acc : str) (cursor : nat) (rest : str) :
    result TemplateParseError (list N * nat * list N) :=
  match rest with
  | [] => Err (UnterminatedPlaceholder start)
  | ch :: rest' =>
      if starts_with open2 rest then Err (NestedPlaceholder start)
      else if starts_with close2 rest then
        let placeholder := trim acc in
        if bool_decide (placeholder = []) then Err (EmptyPlaceholder start)
        else Ok (placeholder, cursor + 2, drop 2 rest)
      else parse_placeholder start (acc ++ [ch]) (cursor + len_utf8 ch) rest'
  end.

(** The loop of [parse]: [pending] is the source from [literal_start] to [cursor], [rest] the
    source from [cursor] on. *)
Fixpoint parse_loop (fuel : nat) (phs : list str) (segs : list Segment) (pending : str)
    (cursor : nat) (rest : str) : option (result TemplateParseError Template) :=
  match fuel with
  | O => None
  | S fuel =>
      match rest with
      | [] => Some (Ok (mkTemplate phs (push_literal segs pending)))
      | ch :: rest' =>
          if starts_with open4 rest then
            parse_loop fuel phs (push_literal (push_literal segs pending) open2) [] (cursor + 4)
              (drop 4 rest)
          else if starts_with close4 rest then
            parse_loop fuel phs (push_literal (push_literal segs pending) close2) [] (cursor + 4)
              (drop 4 rest)
          else if starts_with open2 rest then
            match parse_placeholder cursor [] (cursor + 2) (drop 2 rest) with
            | Err e => Some (Err e)
            | Ok (placeholder, next_cursor, next) =>
                parse_loop fuel (bset_insert placeholder phs)
                  (push_literal segs pending ++ [Placeholder placeholder]) [] next_cursor next
            end
          else if starts_with close2 rest then Some (Err (UnmatchedClosingDelimiter cursor))
          else parse_loop fuel phs segs (pending ++ [ch]) (cursor + len_utf8 ch) rest'
      end
  end.

(** Every round consumes a character, so this is enough fuel ([parse_total] below). *)
Definition parse (source : str) : option (result TemplateParseError Template) :=
  parse_loop (S (length source)) [] [] [] 0 source.

(** ** Rendering *)

Fixpoint build_loop (variables : list (list N * list N)) (m : list (list N * list N)) :
    result TemplateRenderError (list (list N * list N)) :=
  match variables with
  | [] => Ok m
  | (name, value) :: variables =>
      match bmap_insert name value m with
      | (_, Some _) => Err (DuplicateValue name)
      | (m', None) => build_loop variables m'
      end
  end.

Definition build_variable_map (variables : list (list N * list N)) :
    result TemplateRenderError (list (list N * list N)) := build_loop variables [].

Fixpoint check_missing (phs : list str) (m : list (list N * list N)) :
    result TemplateRenderError unit :=
  match phs with
  | [] => Ok tt
  | p :: phs =>
      match bmap_get p m with None => Err (MissingValue p) | Some _ => check_missing phs m end
  end.

Fixpoint check_extra (phs : list str) (keys : list str) : result TemplateRenderError unit :=
  match keys with
  | [] => Ok tt
  | name :: keys =>
      if bool_decide (name ∈ phs) then check_extra phs keys else Err (ExtraValue name)
  end.

Fixpoint render_segments (segs : list Segment) (m : list (list N * list N)) (rendered : str) :
    result TemplateRenderError str :=
  match segs with
  | [] => Ok rendered
  | Literal literal :: segs => render_segments segs m (rendered ++ literal)
  | Placeholder name :: segs =>
      match bmap_get name m with
      | None => Err (MissingValue name)
      | Some value => render_segments segs m (rendered ++ value)
      end
  end.

Definition render_template (t : Template) (variables : list (list N * list N)) :
    result TemplateRenderError str :=
  let? m := build_variable_map variables in
  let? _ := check_missing (placeholders t) m in
  let? _ := check_extra (placeholders t) m.*1 in
  render_segments (segments t) m [].

(** [render]: parse and render at once. *)
Definition render (template : str) (variables : list (list N * list N)) :
    option (result TemplateError str) :=
  match parse template with
  | None => None
  | Some (Err e) => Some (Err (ParseError e))
  | Some (Ok t) => Some (map_err RenderError (render_template t variables))
  end.

(** ** The order on strings, sets and maps *)

Definition str_lt (a b : str) : Prop := str_compare a b = Lt.

Lemma str_compare_eq a b : str_compare a b = Eq ↔ a = b.
Proof.
  revert b. induction a as [|x a IH]; intros [|y b]; simpl; try done.
  destruct (N.compare_spec x y) as [->|H|H]; [|split; [done|intros [= -> _]; lia]..].
  rewrite IH. naive_solver.
Qed.

Lemma str_compare_antisym a b : str_compare b a = CompOpp (str_compare a b).
Proof.
  revert b. induction a as [|x a IH]; intros [|y b]; simpl; try done.
  rewrite (N.compare_antisym x y). destruct (x ?= y)%N; simpl; auto.
Qed.

Lemma str_lt_trans a b c : str_lt a b → str_lt b c → str_lt a c.
Proof.
  unfold str_lt. revert b c. induction a as [|x a IH]; intros [|y b] [|z c]; simpl; try done.
  destruct (N.compare_spec x y) as [->|H|H]; try done; destruct (N.compare_spec y z) as [->|H'|H']; try done.
  - eauto.
  - by rewrite (proj2 (N.compare_lt_iff x z)).
  - by rewrite (proj2 (N.compare_lt_iff x z)) by lia.
Qed.

Lemma str_lt_irrefl a : ¬ str_lt a a.
Proof. unfold str_lt. by rewrite (proj2 (str_compare_eq a a) eq_refl). Qed.

Notation ordered := (StronglySorted str_lt).

Lemma ordered_NoDup l : ordered l → NoDup l.
Proof.
  induction 1 as [|x l _ IH Hx]; constructor; [|done]. intros Hin.
  by eapply str_lt_irrefl, (proj1 (Forall_forall _ _) Hx).
Qed.

Lemma elem_of_bset_insert x y l : x ∈ bset_insert y l ↔ x = y ∨ x ∈ l.
Proof.
  induction l as [|z l IH]; simpl; [set_solver|].
  destruct (str_compare y z) eqn:E; [apply str_compare_eq in E as ->|..]; set_solver.
Qed.

Lemma bset_insert_ordered x l : ordered l → ordered (bset_insert x l).
Proof.
  induction 1 as [|y l Hl IH Hy]; simpl; [by repeat constructor|].
  destruct (str_compare x y) eqn:E; [by constructor|..].
  - repeat constructor; try done. eapply Forall_impl; [exact Hy|]. intros z. by apply str_lt_trans.
  - constructor; [done|]. apply Forall_forall. intros z [->|Hz]%elem_of_bset_insert.
    + unfold str_lt. by rewrite str_compare_antisym, E.
    + by apply (proj1 (Forall_forall _ _) Hy).
Qed.

Lemma bmap_get_None k m : bmap_get k m = None ↔ k ∉ m.*1.
Proof.
  induction m as [|[k' v] m IH]; simpl; [set_solver|]. case_decide; [set_solver|]. rewrite IH. set_solver.
Qed.

Lemma bmap_get_elem k v m : NoDup m.*1 → bmap_get k m = Some v ↔ (k, v) ∈ m.
Proof.
  induction m as [|[k' v'] m IH]; simpl; [set_solver|]. intros [Hk Hn]%NoDup_cons.
  rewrite elem_of_cons. case_decide as E; subst.
  - split; [intros [= ->]; by left|]. intros [[= ->]|Hin]; [done|]. destruct Hk.
    apply list_elem_of_fmap. by exists (k', v).
  - rewrite IH by done. naive_solver.
Qed.

Lemma bmap_insert_spec k v m m' o :
  ordered m.*1 → bmap_insert k v m = (m', o) →
  o = bmap_get k m ∧ ordered m'.*1 ∧ (∀ x, x ∈ m'.*1 ↔ x = k ∨ x ∈ m.*1)
  ∧ (o = None → m' ≡ₚ (k, v) :: m).
Proof.
  revert m' o. induction m as [|[k' v'] m IH]; intros m' o Hm Hi; simpl in *.
  { simplify_eq. split_and!; [done|by repeat constructor|set_solver|done]. }
  inversion Hm as [|? ? Hm' Hk]; subst.
  destruct (str_compare k k') eqn:E.
  - apply str_compare_eq in E as ->. simplify_eq. rewrite decide_True by done. split_and!; [done|done|set_solver|done].
  - simplify_eq. rewrite decide_False by (intros ->; by eapply str_lt_irrefl).
    split_and!; [|repeat constructor; try done|set_solver|done].
    + symmetry. apply bmap_get_None. intros Hin. eapply (str_lt_irrefl k), str_lt_trans; [exact E|].
      by apply (proj1 (Forall_forall _ _) Hk).
    + simpl. eapply Forall_impl; [exact Hk|]. intros z. by apply str_lt_trans.
  - destruct (bmap_insert k v m) as [r o'] eqn:Er. simplify_eq.
    destruct (IH _ _ Hm' eq_refl) as (-> & Hr & Hin & Hp).
    rewrite decide_False by (intros ->; by rewrite (proj2 (str_compare_eq k' k') eq_refl) in E).
    split_and!; [done| |intros x; simpl; rewrite !elem_of_cons, Hin; naive_solver|].
    + simpl. constructor; [done|]. apply Forall_forall. intros z [->|Hz]%Hin.
      * unfold str_lt. by rewrite str_compare_antisym, E.
      * by apply (proj1 (Forall_forall _ _) Hk).
    + intros Hnone. rewrite (Hp Hnone). apply Permutation_swap.
Qed.

(** ** The equations of the parsing loop *)

Lemma parse_placeholder_shorter start acc cur rest p c next :
  parse_placeholder start acc cur rest = Ok (p, c, next) → length next < length rest.
Proof.
  revert acc cur. induction rest as [|ch rest IH]; intros acc cur; cbn [parse_placeholder]; [done|].
  destruct (starts_with open2 _); [done|]. destruct (starts_with close2 _).
  - case_bool_decide; [done|]. intros [= _ _ <-]. rewrite length_drop. simpl. lia.
  - intros E%IH. simpl. lia.
Qed.

Lemma parse_loop_fuel f f' phs segs pend cur rest :
  length rest < f → length rest < f' →
  parse_loop f phs segs pend cur rest = parse_loop f' phs segs pend cur rest.
Proof.
  revert f' phs segs pend cur rest. induction f as [|f IH]; intros f' phs segs pend cur rest Hf Hf'; [lia|].
  destruct f' as [|f']; [lia|]. cbn [parse_loop]. destruct rest as [|ch rest]; [done|].
  assert (Hd : ∀ n, 0 < n → length (drop n (ch :: rest)) < f ∧ length (drop n (ch :: rest)) < f').
  { intros n Hn. rewrite length_drop. simpl in *. lia. }
  repeat case_match; try done; try (apply IH; apply Hd; lia); try (apply IH; simpl in *; lia).
  match goal with H : parse_placeholder _ _ _ _ = Ok _ |- _ => apply parse_placeholder_shorter in H end.
  pose proof (Hd 2 ltac:(lia)). apply IH; lia.
Qed.

(** The loop with as much fuel as it needs. *)
Definition ploop (phs : list str) (segs : list Segment) (pend : str) (cur : nat) (rest : str) :
    option (result TemplateParseError Template) :=
  parse_loop (S (length rest)) phs segs pend cur rest.

Lemma ploop_eq phs segs pend cur rest :
  ploop phs segs pend cur rest =
  match rest with
  | [] => Some (Ok (mkTemplate phs (push_literal segs pend)))
  | ch :: rest' =>
      if starts_with open4 rest then
        ploop phs (push_literal (push_literal segs pend) open2) [] (cur + 4) (drop 4 rest)
      else if starts_with close4 rest then
        ploop phs (push_literal (push_literal segs pend) close2) [] (cur + 4) (drop 4 rest)
      else if starts_with open2 rest then
        match parse_placeholder cur [] (cur + 2) (drop 2 rest) with
        | Err e => Some (Err e)
        | Ok (p, c, next) =>
            ploop (bset_insert p phs) (push_literal segs pend ++ [Placeholder p]) [] c next
        end
      else if starts_with close2 rest then Some (Err (UnmatchedClosingDelimiter cur))
      else ploop phs segs (pend ++ [ch]) (cur + len_utf8 ch) rest'
  end.
Proof.
  unfold ploop at 1. cbn [parse_loop]. destruct rest as [|ch rest]; [done|].
  assert (Hd : ∀ n, 0 < n → length (drop n (ch :: rest)) < S (length rest)).
  { intros n Hn. rewrite length_drop. simpl. lia. }
  repeat case_match; try done; try (apply parse_loop_fuel; [apply Hd; lia|lia]).
  match goal with H : parse_placeholder _ _ _ _ = Ok _ |- _ => apply parse_placeholder_shorter in H end.
  pose proof (Hd 2 ltac:(lia)). cbn [length]. apply parse_loop_fuel; lia.
Qed.

Lemma push_literal_app segs a b : push_literal (push_literal segs a) b = push_literal segs (a ++ b).
Proof.
  unfold push_literal. destruct a as [|x a]; [done|]. rewrite (bool_decide_false (x :: a = [])) by done.
  rewrite (bool_decide_false ((x :: a) ++ b = [])) by done. destruct b as [|y b]; [by rewrite app_nil_r|].
  rewrite bool_decide_false by done.
  destruct (last segs) as [[]|]; by rewrite last_snoc, removelast_snoc, <- ?app_assoc.
Qed.

Lemma push_literal_nil segs : push_literal segs [] = segs.
Proof. done. Qed.
#[local] Hint Rewrite push_literal_app push_literal_nil : template.

(** The pending text may be pushed at any time. *)
Lemma ploop_flush phs segs pend cur rest :
  ploop phs segs pend cur rest = ploop phs (push_literal segs pend) [] cur rest.
Proof.
  revert phs segs pend cur. induction rest as [|ch rest IH]; intros phs segs pend cur; rewrite !(ploop_eq _ _ _ _ (_ :: _)) || rewrite !(ploop_eq _ _ _ _ []).
  - by rewrite push_literal_app, app_nil_r.
  - rewrite !push_literal_nil. repeat case_match; try done.
    rewrite (IH _ segs (pend ++ [ch])), (IH _ (push_literal segs pend) ([] ++ [ch])).
    by rewrite push_literal_app.
Qed.

(** ** Printing templates *)

Definition lbrace : char := 123%N.
Definition rbrace : char := 125%N.
Definition brace (c : char) : bool := ((c =? lbrace) || (c =? rbrace))%N.

(** Two equal braces in a row are written twice. *)
Fixpoint escape (s : str) : str :=
  match s with
  | a :: ((b :: r) as t) =>
      if bool_decide (a = b) && brace a then a :: a :: a :: a :: escape r else a :: escape t
  | s => s
  end.

Definition print_segment (s : Segment) : str :=
  match s with
  | Literal l => escape l
  | Placeholder n => open2 ++ [space] ++ n ++ [space] ++ close2
  end.
Definition print (segs : list Segment) : str := concat (print_segment <$> segs).

(** The last character of a text when it is not the second of a pair of braces. *)
Definition dangling_step (o : option char) (c : char) : option char :=
  if bool_decide (o = Some c) && brace c then None else Some c.
Definition dangling (s : str) : option char := foldl dangling_step None s.

Definition name_ok (n : str) : Prop :=
  n ≠ [] ∧ clean_start n ∧ clean_end n ∧
  contains_str open2 n = false ∧ contains_str close2 n = false.

(** Well-formed segments: no empty literal, no two in a row, good names; a literal in front of
    a placeholder does not end in a single opening brace. *)
Fixpoint wf_segs (segs : list Segment) : Prop :=
  match segs with
  | [] => True
  | Literal l :: segs' =>
      l ≠ [] ∧ match segs' with
               | Literal _ :: _ => False
               | Placeholder _ :: _ => dangling l ≠ Some lbrace
               | [] => True
               end ∧ wf_segs segs'
  | Placeholder n :: segs' => name_ok n ∧ wf_segs segs'
  end.

(** The names used, as the parser collects them. *)
Definition names_of (segs : list Segment) : list (list N) :=
  omap (λ s, match s with Placeholder n => Some n | Literal _ => None end) segs.
Definition collect (segs : list Segment) (phs : list (list N)) : list (list N) :=
  foldl (λ acc n, bset_insert n acc) phs (names_of segs).

Lemma starts_with_pair a b s :
  starts_with [a; b] s = true ↔ ∃ r, s = a :: b :: r.
Proof. apply starts_with_true. Qed.

Lemma starts_with_pair_false a b x y r :
  (x = a → y ≠ b) → starts_with [a; b] (x :: y :: r) = false.
Proof.
  intros Hn. destruct (starts_with _ _) eqn:E; [|done]. apply starts_with_pair in E as [r' E]. naive_solver.
Qed.

Lemma starts_with_longer p q s : starts_with p s = false → starts_with (p ++ q) s = false.
Proof.
  intros Hp. destruct (starts_with (p ++ q) s) eqn:E; [|done].
  apply starts_with_true in E as [r ->]. rewrite <- Hp. symmetry. apply starts_with_true.
  exists (q ++ r). by rewrite app_assoc.
Qed.

(** A character in front of a text that does not repeat it as a brace. *)
Lemma ploop_char phs segs cur c K :
  (brace c = true → head K ≠ Some c) →
  ploop phs segs [] cur (c :: K) = ploop phs (push_literal segs [c]) [] (cur + len_utf8 c) K.
Proof.
  intros Hc. rewrite ploop_eq.
  assert (Hb : ∀ b, brace b = true → starts_with [b; b] (c :: K) = false).
  { intros b Hb. destruct (starts_with _ _) eqn:E; [|done]. apply starts_with_pair in E as [r E].
    simplify_eq. by destruct (Hc Hb). }
  change open4 with (open2 ++ open2). change close4 with (close2 ++ close2).
  pose proof (Hb lbrace eq_refl) as H1. pose proof (Hb rbrace eq_refl) as H2.
  rewrite (starts_with_longer open2 open2), (starts_with_longer close2 close2) by done.
  change open2 with [lbrace; lbrace]. change close2 with [rbrace; rbrace]. rewrite H1, H2.
  by rewrite ploop_flush.
Qed.

Lemma ploop_pair phs segs cur b K :
  brace b = true →
  ploop phs segs [] cur (b :: b :: b :: b :: K) = ploop phs (push_literal segs [b; b]) [] (cur + 4) K.
Proof.
  intros Hb. rewrite ploop_eq. apply orb_true_iff in Hb as [->%N.eqb_eq| ->%N.eqb_eq]; done.
Qed.

Lemma dangling_pair a b r : a = b → brace a = true → dangling (a :: b :: r) = dangling r.
Proof. intros <- Hb. unfold dangling. simpl. unfold dangling_step at 2 3. simpl. by rewrite bool_decide_true, Hb. Qed.

Lemma dangling_single a b r :
  bool_decide (a = b) && brace a = false → dangling (a :: b :: r) = dangling (b :: r).
Proof.
  intros Hn. unfold dangling. simpl. f_equal. unfold dangling_step. simpl.
  destruct (decide (a = b)) as [->|Hne].
  - rewrite bool_decide_true in Hn by done. simpl in Hn. by rewrite Hn, andb_false_r.
  - by rewrite bool_decide_false by naive_solver.
Qed.

Lemma escape_eq a b r :
  escape (a :: b :: r) =
  if bool_decide (a = b) && brace a then a :: a :: a :: a :: escape r else a :: escape (b :: r).
Proof. done. Qed.

(** An escaped text is read back as itself. *)
Lemma ploop_literal phs l segs cur K :
  (∀ c, dangling l = Some c → brace c = true → head K ≠ Some c) →
  ∃ cur', ploop phs segs [] cur (escape l ++ K) = ploop phs (push_literal segs l) [] cur' K.
Proof.
  remember (length l) as n eqn:Hn. revert l Hn segs cur.
  induction n as [n IH] using lt_wf_ind. intros l -> segs cur HK.
  destruct l as [|a [|b r]].
  - by exists cur.
  - exists (cur + len_utf8 a). simpl. apply ploop_char. by apply HK.
  - rewrite escape_eq. destruct (bool_decide (a = b) && brace a) eqn:E.
    + apply andb_true_iff in E as [->%bool_decide_eq_true Hb].
      rewrite dangling_pair in HK by done.
      destruct (IH (length r) ltac:(simpl; lia) r eq_refl (push_literal segs [b; b]) (cur + 4) HK) as [cur' Hr].
      exists cur'. rewrite <- !app_comm_cons, ploop_pair by done. rewrite Hr. by rewrite push_literal_app.
    + rewrite dangling_single in HK by done.
      assert (Hesc : ∃ e, escape (b :: r) = b :: e) by (simpl; repeat case_match; eauto).
      destruct (IH (length (b :: r)) ltac:(simpl; lia) (b :: r) eq_refl (push_literal segs [a])
                  (cur + len_utf8 a) HK) as [cur' Hr].
      exists cur'. rewrite push_literal_app in Hr.
      change (a :: b :: r) with ([a] ++ b :: r). rewrite <- Hr, <- app_comm_cons. apply ploop_char.
      intros Hb. destruct Hesc as [e ->]. simpl. intros [= ->].
      by rewrite bool_decide_true, Hb in E.
Qed.

Lemma contains_pair_cons a b c s :
  contains_str [a; b] (c :: s) = false ↔ ¬ (c = a ∧ head s = Some b) ∧ contains_str [a; b] s = false.
Proof.
  cbn [contains_str]. rewrite orb_false_iff. apply and_iff_compat_r.
  destruct (starts_with _ _) eqn:E.
  - apply starts_with_pair in E as [r [= -> ->]]. naive_solver.
  - split; [|done]. intros _ [-> Hs]. destruct s as [|y s]; simplify_eq/=.
    assert (starts_with [a; b] (a :: b :: s) = true) by (apply starts_with_pair; eauto). congruence.
Qed.

Lemma parse_placeholder_cons start acc cur ch rest :
  parse_placeholder start acc cur (ch :: rest) =
  if starts_with open2 (ch :: rest) then Err (NestedPlaceholder start)
  else if starts_with close2 (ch :: rest) then
    if bool_decide (trim acc = []) then Err (EmptyPlaceholder start)
    else Ok (trim acc, cur + 2, drop 2 (ch :: rest))
  else parse_placeholder start (acc ++ [ch]) (cur + len_utf8 ch) rest.
Proof. done. Qed.

(** The inside of a placeholder is scanned up to its closing braces. *)
Lemma parse_placeholder_scan start acc cur w K :
  contains_str open2 w = false → contains_str close2 w = false → last w = Some space →
  ∃ cur', parse_placeholder start acc cur (w ++ close2 ++ K) =
    let placeholder := trim (acc ++ w) in
    if bool_decide (placeholder = []) then Err (EmptyPlaceholder start)
    else Ok (placeholder, cur', K).
Proof.
  change open2 with [lbrace; lbrace]. change close2 with [rbrace; rbrace].
  revert acc cur. induction w as [|c w IH]; intros acc cur Ho Hc Hl; [done|].
  apply contains_pair_cons in Ho as [Ho Ho']. apply contains_pair_cons in Hc as [Hc Hc'].
  assert (Hs : ∀ b, brace b = true → (c = b → head w ≠ Some b) → starts_with [b; b] ((c :: w) ++ [rbrace; rbrace] ++ K) = false).
  { intros b Hb Hh. destruct (starts_with _ _) eqn:E; [|done]. apply starts_with_pair in E as [r E].
    destruct w as [|y w]; simplify_eq/=. by destruct Hh. }
  pose proof (Hs lbrace eq_refl ltac:(naive_solver)) as H1. pose proof (Hs rbrace eq_refl ltac:(naive_solver)) as H2.
  change ((c :: w) ++ ?X) with (c :: (w ++ X)) in *. rewrite parse_placeholder_cons.
  change open2 with [lbrace; lbrace]. change close2 with [rbrace; rbrace]. rewrite H1, H2.
  destruct w as [|y w].
  - exists (cur + len_utf8 c + 2). done.
  - destruct (IH (acc ++ [c]) (cur + len_utf8 c)) as [cur' E]; try done.
    exists cur'. rewrite E. by rewrite <- app_assoc.
Qed.

Lemma contains_pair_snoc b s :
  brace b = true → contains_str [b; b] (s ++ [space]) = contains_str [b; b] s.
Proof.
  intros Hb. assert (b ≠ space) by (intros ->; done).
  assert (Hiff : ∀ s, contains_str [b; b] (s ++ [space]) = false ↔ contains_str [b; b] s = false).
  { clear s. induction s as [|c s IH].
    - simpl. split; [done|]. intros _. apply contains_pair_cons. simpl. naive_solver.
    - rewrite <- app_comm_cons, !contains_pair_cons, IH. destruct s; simpl; naive_solver. }
  specialize (Hiff s). destruct (contains_str [b; b] s), (contains_str [b; b] (s ++ [space])); naive_solver.
Qed.

Lemma trim_spaced n : clean_start n → clean_end n → trim (space :: n ++ [space]) = n.
Proof.
  intros Hs He. unfold trim. rewrite trim_start_cons_ws by done.
  destruct n as [|c n].
  - done.
  - rewrite trim_start_app_clean by done. by rewrite trim_end_snoc_ws.
Qed.

Lemma ploop_placeholder phs segs cur n K :
  name_ok n →
  ∃ cur', ploop phs segs [] cur (print_segment (Placeholder n) ++ K) =
          ploop (bset_insert n phs) (segs ++ [Placeholder n]) [] cur' K.
Proof.
  intros (Hne & Hcs & Hce & Ho & Hc).
  destruct (parse_placeholder_scan cur [] (cur + 2) (space :: n ++ [space]) K) as [cur' E].
  - change open2 with [lbrace; lbrace]. apply contains_pair_cons. split; [naive_solver|].
    by rewrite contains_pair_snoc.
  - change close2 with [rbrace; rbrace]. apply contains_pair_cons. split; [naive_solver|].
    by rewrite contains_pair_snoc.
  - rewrite app_comm_cons. apply last_snoc.
  - exists cur'. simpl in E. rewrite trim_spaced, bool_decide_false in E by done.
    simpl. rewrite ploop_eq. simpl. rewrite <- !app_assoc in *. simpl in *. rewrite E. done.
Qed.

Definition ends_in_literal (segs : list Segment) : bool :=
  match last segs with Some (Literal _) => true | _ => false end.

Lemma push_literal_new segs l :
  l ≠ [] → ends_in_literal segs = false → push_literal segs l = segs ++ [Literal l].
Proof.
  intros Hl Hs. unfold push_literal, ends_in_literal in *. rewrite bool_decide_false by done.
  by destruct (last segs) as [[]|].
Qed.

Lemma print_cons s segs : print (s :: segs) = print_segment s ++ print segs.
Proof. done. Qed.

Lemma ploop_print segs segs0 phs cur :
  wf_segs segs → (∀ l segs', segs = Literal l :: segs' → ends_in_literal segs0 = false) →
  ploop phs segs0 [] cur (print segs) = Some (Ok (mkTemplate (collect segs phs) (segs0 ++ segs))).
Proof.
  revert segs0 phs cur. induction segs as [|[l|n] segs IH]; intros segs0 phs cur Hwf Hj.
  - rewrite ploop_eq. simpl. by rewrite app_nil_r.
  - destruct Hwf as (Hl & Hnext & Hwf). rewrite print_cons. change (print_segment (Literal l)) with (escape l).
    destruct (ploop_literal phs l segs0 cur (print segs)) as [cur' ->].
    { intros c Hd Hb. destruct segs as [|[l'|n] segs]; [done|done|]. simpl. intros [= <-]. by apply Hnext. }
    rewrite push_literal_new by eauto. rewrite IH; [by rewrite <- app_assoc|done|].
    intros l' segs' ->. done.
  - destruct Hwf as (Hn & Hwf). rewrite print_cons.
    destruct (ploop_placeholder phs segs0 cur n (print segs) Hn) as [cur' ->].
    rewrite IH; [by rewrite <- app_assoc|done|]. intros. unfold ends_in_literal. by rewrite last_snoc.
Qed.

Lemma parse_ploop s : parse s = ploop [] [] [] 0 s.
Proof. done. Qed.

(** ** What the parser returns *)

(** The text of the literal a segment list ends in. *)
Definition tail_text (segs : list Segment) : str :=
  match last segs with Some (Literal l) => l | _ => [] end.

(** Well-formed up to the last literal, which may still grow. *)
Definition wf_open (segs : list Segment) : Prop :=
  ∃ segs', wf_segs segs' ∧ ends_in_literal segs' = false ∧
           (segs = segs' ∨ ∃ l, l ≠ [] ∧ segs = segs' ++ [Literal l]).

(** The loop's invariant: the literal at the end and the rest of the source do not share a
    pair of braces. *)
Record parse_inv (phs : list str) (segs : list Segment) (rest : str) : Prop := {
  pinv_wf : wf_open segs;
  pinv_names : phs = collect segs [];
  pinv_brace c : dangling (tail_text segs) = Some c → brace c = true → head rest ≠ Some c }.

Lemma wf_segs_app segs1 segs2 :
  wf_segs (segs1 ++ segs2) ↔ wf_segs segs1 ∧ wf_segs segs2 ∧
  match last segs1, segs2 with
  | Some (Literal l), Literal _ :: _ => False
  | Some (Literal l), Placeholder _ :: _ => dangling l ≠ Some lbrace
  | _, _ => True
  end.
Proof.
  induction segs1 as [|[l|n] segs1 IH]; simpl.
  - naive_solver.
  - rewrite IH. destruct segs1 as [|[l'|n'] segs1]; simpl; [destruct segs2 as [|[]]; naive_solver|naive_solver|].
    simpl in *. tauto.
  - rewrite IH. destruct segs1; simpl; naive_solver.
Qed.

Lemma collect_snoc segs s phs :
  collect (segs ++ [s]) phs =
  match s with Placeholder n => bset_insert n (collect segs phs) | Literal _ => collect segs phs end.
Proof.
  unfold collect, names_of. rewrite omap_app, foldl_app. by destruct s.
Qed.

Lemma collect_push segs l phs : collect (push_literal segs l) phs = collect segs phs.
Proof.
  unfold push_literal. case_bool_decide; [done|].
  destruct (last segs) as [[e|n]|] eqn:E; rewrite collect_snoc; try done.
  apply last_Some_snoc in E as [segs' ->]. by rewrite removelast_snoc, collect_snoc.
Qed.

Lemma tail_text_push segs l : tail_text (push_literal segs l) = tail_text segs ++ l.
Proof.
  unfold tail_text, push_literal. case_bool_decide as Hl; [subst; by rewrite app_nil_r|].
  destruct (last segs) as [[e|n]|] eqn:E; by rewrite last_snoc.
Qed.

Lemma wf_open_push segs l : wf_open segs → wf_open (push_literal segs l).
Proof.
  intros (segs' & Hwf & He & Hs). destruct (decide (l = [])) as [->|Hl]; [by exists segs'|].
  exists segs'. split_and!; [done..|]. right. destruct Hs as [->|(e & He' & ->)].
  - exists l. by rewrite push_literal_new.
  - exists (e ++ l). unfold push_literal. rewrite bool_decide_false, last_snoc, removelast_snoc by done.
    split; [by destruct e|done].
Qed.

Lemma wf_open_closed segs : wf_open segs → wf_segs segs.
Proof.
  intros (segs' & Hwf & He & [->|(l & Hl & ->)]); [done|]. apply wf_segs_app. split_and!; [done|simpl; auto|].
  unfold ends_in_literal in He. by destruct (last segs') as [[]|].
Qed.

Lemma parse_placeholder_inv start acc cur rest p c next :
  parse_placeholder start acc cur rest = Ok (p, c, next) →
  ∃ w, rest = w ++ close2 ++ next ∧ p = trim (acc ++ w) ∧ p ≠ [] ∧
       contains_str open2 w = false ∧ contains_str close2 w = false.
Proof.
  revert acc cur. induction rest as [|ch rest IH]; intros acc cur; [done|]. rewrite parse_placeholder_cons.
  destruct (starts_with open2 _) eqn:Eo; [done|]. destruct (starts_with close2 _) eqn:Ec.
  - case_bool_decide; [done|]. intros [= <- _ <-]. exists []. rewrite app_nil_r. split_and!; try done.
    apply starts_with_true in Ec as [r E]. change close2 with [rbrace; rbrace] in E. by simplify_eq/=.
  - intros (w & -> & -> & Hp & Ho & Hc)%IH. exists (ch :: w). rewrite <- app_assoc in *. split_and!; try done.
    + change open2 with [lbrace; lbrace] in *. apply contains_pair_cons. split; [|done].
      intros [-> Hw]. by destruct w; simplify_eq/=.
    + change close2 with [rbrace; rbrace] in *. apply contains_pair_cons. split; [|done].
      intros [-> Hw]. by destruct w; simplify_eq/=.
Qed.

Lemma trim_infix s : ∃ a b, s = a ++ trim s ++ b.
Proof.
  destruct (trim_start_suffix s) as [a Ha]. destruct (trim_start_suffix (reverse (trim_start s))) as [b Hb].
  exists a, (reverse b). rewrite Ha at 1. f_equal. unfold trim, trim_end.
  rewrite <- reverse_app, <- Hb. by rewrite reverse_involutive.
Qed.

Lemma trim_cleans s : trim s ≠ [] → clean_start (trim s) ∧ clean_end (trim s).
Proof.
  intros Hne. split; [|apply trim_end_idemp]. unfold clean_start.
  destruct (trim_start_suffix (reverse (trim_start s))) as [b Hb].
  assert (E : trim_start s = trim s ++ reverse b).
  { unfold trim, trim_end. rewrite <- reverse_app, <- Hb. by rewrite reverse_involutive. }
  destruct (trim s) as [|c t]; [done|].
  pose proof (trim_start_idemp s) as Hi. rewrite E in Hi. simpl in Hi |- *.
  destruct (is_whitespace c) eqn:Ec; [|done].
  apply (f_equal length) in Hi. simpl in Hi.
  destruct (trim_start_suffix (t ++ reverse b)) as [z Hz]. apply (f_equal length) in Hz.
  rewrite (length_app z) in Hz. lia.
Qed.

Lemma dangling_snoc s c : dangling (s ++ [c]) = dangling_step (dangling s) c.
Proof. unfold dangling. by rewrite foldl_app. Qed.

Lemma dangling_pair_pushed s b :
  brace b = true → (dangling s = Some b → False) → dangling (s ++ [b; b]) = None.
Proof.
  intros Hb Hd. change [b; b] with ([b] ++ [b]). rewrite app_assoc, !dangling_snoc. unfold dangling_step at 2.
  rewrite bool_decide_false by done. simpl. unfold dangling_step. by rewrite bool_decide_true, Hb.
Qed.

Lemma parse_inv_pair phs segs b rest :
  brace b = true → parse_inv phs segs (b :: b :: b :: b :: rest) →
  parse_inv phs (push_literal segs [b; b]) rest.
Proof.
  intros Hb [Hwf Hn Hd]. constructor; [by apply wf_open_push|by rewrite collect_push|].
  intros c. rewrite tail_text_push, dangling_pair_pushed; [done|done|].
  intros Hc. by apply (Hd b Hc Hb).
Qed.

Lemma parse_inv_char phs segs c rest :
  parse_inv phs segs (c :: rest) → (brace c = true → head rest ≠ Some c) →
  parse_inv phs (push_literal segs [c]) rest.
Proof.
  intros [Hwf Hn Hd] Hc. constructor; [by apply wf_open_push|by rewrite collect_push|].
  intros d. rewrite tail_text_push, dangling_snoc. unfold dangling_step.
  destruct (brace c) eqn:Eb; [|rewrite andb_false_r; intros [= <-]; by rewrite Eb].
  rewrite bool_decide_false by (intros Hs; by apply (Hd c Hs Eb)). simpl. intros [= <-] _. by apply Hc.
Qed.

Lemma parse_inv_placeholder phs segs rest n rest' :
  parse_inv phs segs (lbrace :: rest) → name_ok n →
  parse_inv (bset_insert n phs) (segs ++ [Placeholder n]) rest'.
Proof.
  intros [Hwf Hn Hd] Hname. constructor.
  - exists (segs ++ [Placeholder n]). unfold ends_in_literal. rewrite last_snoc. split_and!; [|done|by left].
    apply wf_segs_app. split_and!; [by apply wf_open_closed|done|].
    unfold tail_text in Hd. destruct (last segs) as [[l|]|]; try done.
    intros Hl. by apply (Hd lbrace Hl).
  - rewrite collect_snoc. by subst.
  - unfold tail_text. by rewrite last_snoc.
Qed.

Lemma ploop_inv rest phs segs cur t :
  parse_inv phs segs rest → ploop phs segs [] cur rest = Some (Ok t) →
  wf_segs (segments t) ∧ placeholders t = collect (segments t) [].
Proof.
  remember (length rest) as n eqn:Hn. revert rest Hn phs segs cur.
  induction n as [n IH] using lt_wf_ind. intros rest -> phs segs cur HI. rewrite ploop_eq.
  destruct rest as [|ch rest].
  { intros [= <-]. simpl. rewrite push_literal_nil. split; [apply wf_open_closed, HI|apply HI]. }
  destruct (starts_with open4 _) eqn:E1.
  { apply starts_with_true in E1 as [r E1]. change open4 with [lbrace; lbrace; lbrace; lbrace] in E1.
    simplify_eq/=. rewrite drop_0. apply (IH (length r)); [simpl; lia|done|]. by apply parse_inv_pair. }
  destruct (starts_with close4 _) eqn:E2.
  { apply starts_with_true in E2 as [r E2]. change close4 with [rbrace; rbrace; rbrace; rbrace] in E2.
    simplify_eq/=. rewrite drop_0. apply (IH (length r)); [simpl; lia|done|]. by apply parse_inv_pair. }
  destruct (starts_with open2 _) eqn:E3.
  { destruct (parse_placeholder _ _ _ _) as [[[p c] next]|] eqn:Ep; [|done].
    pose proof (parse_placeholder_shorter _ _ _ _ _ _ _ Ep) as Hlen. rewrite length_drop in Hlen.
    apply parse_placeholder_inv in Ep as (w & _ & Hp & Hne & Ho & Hc). simpl in Hp.
    apply starts_with_true in E3 as [r E3]. change open2 with [lbrace; lbrace] in E3. simplify_eq/=.
    apply (IH (length next)); [simpl in *; lia|done|]. eapply parse_inv_placeholder; [exact HI|].
    destruct (trim_infix w) as (a & b & Hw). destruct (trim_cleans w Hne).
    split_and!; try done; eapply (contains_str_infix _ a _ b); by rewrite <- Hw. }
  destruct (starts_with close2 _) eqn:E4; [done|].
  rewrite ploop_flush. apply (IH (length rest)); [simpl; lia|done|]. apply parse_inv_char; [done|].
  intros Hb Hh. destruct rest as [|y rest]; [done|]. injection Hh as ->.
  by apply orb_true_iff in Hb as [->%N.eqb_eq| ->%N.eqb_eq].
Qed.

(** A well-formed template is read back from its printed form. *)
Theorem template_print_parse segs :
  wf_segs segs → parse (print segs) = Some (Ok (mkTemplate (collect segs []) segs)).
Proof. intros Hwf. rewrite parse_ploop. by apply ploop_print. Qed.

(** C39. Every template the parser returns is well formed, its placeholders are the names in it,
    and its printed form parses to the same template. *)
Theorem parsed_template_well_formed s t :
  parse s = Some (Ok t) →
  wf_segs (segments t) ∧ placeholders t = collect (segments t) []
  ∧ parse (print (segments t)) = Some (Ok t).
Proof.
  intros Hp. rewrite parse_ploop in Hp.
  apply ploop_inv in Hp as [Hwf Hn]; [|constructor; [exists []; split_and!; [done|done|by left]|done|done]].
  split_and!; [done|done|]. rewrite parse_ploop, ploop_print by done. f_equal. f_equal.
  destruct t. simpl in *. by subst.
Qed.

(** [parse] returns on every source. *)
Theorem parse_total s : is_Some (parse s).
Proof.
  rewrite parse_ploop. generalize (@nil (list N)) at 1 as phs. generalize (@nil Segment) as segs.
  generalize (@nil N) as pend. generalize 0 as cur.
  remember (length s) as n eqn:Hn. revert s Hn. induction n as [n IH] using lt_wf_ind.
  intros s -> cur pend segs phs. rewrite ploop_eq. destruct s as [|ch s]; [by eexists|].
  repeat case_match; try by eexists.
  all: try (eapply IH; [|reflexivity]; rewrite ?length_drop; simpl; lia).
  match goal with H : parse_placeholder _ _ _ _ = Ok _ |- _ => apply parse_placeholder_shorter in H end.
  rewrite length_drop in *. eapply IH; [|reflexivity]. simpl in *. lia.
Qed.

(** ** Rendering *)

(** The text with the values filled in; values are not read as templates again. *)
Definition substitute (variables : list (list N * list N)) (segs : list Segment) : str :=
  concat ((λ s, match s with
                | Literal l => l
                | Placeholder n => default [] (bmap_get n variables)
                end) <$> segs).

Lemma build_loop_spec vars m :
  ordered m.*1 →
  match build_loop vars m with
  | Ok m' => NoDup vars.*1 ∧ (∀ x, x ∈ vars.*1 → x ∉ m.*1) ∧ ordered m'.*1 ∧ m' ≡ₚ vars ++ m
  | Err e => ∃ n, e = DuplicateValue n ∧ n ∈ vars.*1 ∧ (n ∈ m.*1 ∨ ¬ NoDup vars.*1)
  end.
Proof.
  revert m. induction vars as [|[n v] vars IH]; intros m Hm; simpl.
  { split_and!; [constructor|set_solver|done|done]. }
  destruct (bmap_insert n v m) as [m' o] eqn:E.
  apply bmap_insert_spec in E as (-> & Hm' & Hin & Hp); [|done].
  destruct (bmap_get n m) eqn:Eg.
  { exists n. split_and!; [done|by left|left]. destruct (decide (n ∈ m.*1)) as [|Hn]; [done|].
    by apply bmap_get_None in Hn; rewrite Eg in Hn. }
  specialize (IH m' Hm'). apply bmap_get_None in Eg. specialize (Hp eq_refl).
  destruct (build_loop vars m') as [r|e].
  - destruct IH as (Hnd & Hdis & Hr & Hperm). split_and!; [| |done|].
    + apply NoDup_cons. split; [|done]. intros Hx. apply (Hdis n Hx), Hin. by left.
    + intros x [->|Hx]%elem_of_cons; [done|]. intros Hxm. apply (Hdis x Hx), Hin. by right.
    + rewrite Hperm, Hp. simpl. by rewrite Permutation_middle.
  - destruct IH as (x & -> & Hx & Hd). exists x. split_and!; [done|by right|].
    destruct Hd as [[->|Hd]%Hin|Hd]; [right|by left|right].
    + intros [Hn _]%NoDup_cons. done.
    + intros [_ Hn]%NoDup_cons. done.
Qed.

Lemma check_missing_spec phs m :
  match check_missing phs m with
  | Ok _ => ∀ p, p ∈ phs → p ∈ m.*1
  | Err e => ∃ p pre post, e = MissingValue p ∧ phs = pre ++ p :: post ∧ p ∉ m.*1 ∧ ∀ q, q ∈ pre → q ∈ m.*1
  end.
Proof.
  induction phs as [|p phs IH]; simpl; [set_solver|].
  destruct (bmap_get p m) eqn:E.
  - assert (Hp : p ∈ m.*1).
    { destruct (decide (p ∈ m.*1)) as [|Hn]; [done|]. apply bmap_get_None in Hn. congruence. }
    destruct (check_missing phs m) as [|e].
    + intros q [->|Hq]%elem_of_cons; auto.
    + destruct IH as (q & pre & post & -> & -> & Hq & Hpre). exists q, (p :: pre), post.
      split_and!; [done|done|done|]. intros r [->|Hr]%elem_of_cons; auto.
  - exists p, [], phs. apply bmap_get_None in E. split_and!; [done|done|done|]. by intros q ?%elem_of_nil.
Qed.

Lemma check_extra_spec phs keys :
  match check_extra phs keys with
  | Ok _ => ∀ k, k ∈ keys → k ∈ phs
  | Err e => ∃ k, e = ExtraValue k ∧ k ∈ keys ∧ k ∉ phs
  end.
Proof.
  induction keys as [|k keys IH]; simpl; [set_solver|]. case_bool_decide as Hk.
  - destruct (check_extra phs keys); [set_solver|]. destruct IH as (x & ? & ? & ?). exists x. set_solver.
  - exists k. set_solver.
Qed.

Lemma render_segments_spec segs m acc :
  (∀ n, Placeholder n ∈ segs → n ∈ m.*1) →
  render_segments segs m acc = Ok (acc ++ substitute m segs).
Proof.
  revert acc. induction segs as [|[l|n] segs IH]; intros acc Hall; simpl.
  - by rewrite app_nil_r.
  - rewrite IH by (intros n Hn; apply Hall; by right). by rewrite <- app_assoc.
  - destruct (bmap_get n m) as [v|] eqn:E.
    + rewrite IH by (intros n' Hn; apply Hall; by right). rewrite <- app_assoc.
      unfold substitute. simpl. by rewrite E.
    + apply bmap_get_None in E. destruct E. apply Hall. by left.
Qed.

Lemma substitute_perm m m' segs : NoDup m.*1 → m ≡ₚ m' → substitute m segs = substitute m' segs.
Proof.
  intros Hn Hp. unfold substitute. f_equal. apply list_fmap_ext. intros _ [l|n] _; [done|]. f_equal.
  assert (Hn' : NoDup m'.*1) by by rewrite <- Hp.
  apply option_eq. intros v. rewrite !bmap_get_elem by done. by rewrite Hp.
Qed.

Lemma elem_of_collect x segs phs : x ∈ collect segs phs ↔ x ∈ phs ∨ Placeholder x ∈ segs.
Proof.
  revert phs. induction segs as [|[l|n] segs IH]; intros phs; unfold collect, names_of in *; simpl.
  - set_solver.
  - rewrite IH. set_solver.
  - rewrite IH, elem_of_bset_insert. set_solver.
Qed.

Lemma collect_ordered segs phs : ordered phs → ordered (collect segs phs).
Proof.
  revert phs. induction segs as [|[l|n] segs IH]; intros phs Hp; unfold collect, names_of in *; simpl; auto.
  apply IH. by apply bset_insert_ordered.
Qed.

(** The three checks and the rendering in one statement: what [render_template] returns on
    any values. *)
Lemma render_template_spec t vars :
  placeholders t = collect (segments t) [] →
  match render_template t vars with
  | Ok out => NoDup vars.*1 ∧ (∀ n, n ∈ vars.*1 ↔ Placeholder n ∈ segments t)
              ∧ out = substitute vars (segments t)
  | Err (DuplicateValue n) => n ∈ vars.*1 ∧ ¬ NoDup vars.*1
  | Err (MissingValue n) =>
      NoDup vars.*1 ∧ Placeholder n ∈ segments t ∧ n ∉ vars.*1
      ∧ ∀ n', Placeholder n' ∈ segments t → n' ∉ vars.*1 → n' = n ∨ str_lt n n'
  | Err (ExtraValue n) =>
      NoDup vars.*1 ∧ n ∈ vars.*1 ∧ Placeholder n ∉ segments t
      ∧ ∀ n', Placeholder n' ∈ segments t → n' ∈ vars.*1
  end.
Proof.
  intros Hph. unfold render_template, build_variable_map.
  pose proof (build_loop_spec vars []) as Hb. specialize (Hb ltac:(constructor)).
  destruct (build_loop vars []) as [m|e]; simpl.
  2:{ destruct Hb as (n & -> & Hn & [?%elem_of_nil|?]); done. }
  destruct Hb as (Hnd & _ & Hm & Hperm). rewrite app_nil_r in Hperm.
  assert (Hk : ∀ x, x ∈ m.*1 ↔ x ∈ vars.*1) by (intros x; by rewrite Hperm).
  assert (Hc : ∀ x, x ∈ placeholders t ↔ Placeholder x ∈ segments t).
  { intros x. rewrite Hph, elem_of_collect. set_solver. }
  pose proof (check_missing_spec (placeholders t) m) as Hmiss.
  destruct (check_missing (placeholders t) m) as [[]|e]; simpl.
  2:{ destruct Hmiss as (p & pre & post & -> & Hsplit & Hp & Hpre). split_and!; [done| |by rewrite <- Hk|].
      - apply Hc. rewrite Hsplit. apply elem_of_app. right. by left.
      - intros n' Hn' Hv. apply Hc in Hn'. pose proof (collect_ordered (segments t) []) as Ho.
        specialize (Ho ltac:(constructor)). rewrite <- Hph in Ho. rewrite Hsplit in Hn', Ho.
        apply elem_of_app in Hn' as [Hin|[->|Hin]%elem_of_cons]; [|by left|].
        + destruct Hv. by apply Hk, Hpre.
        + right. apply StronglySorted_app_1_r in Ho. inversion Ho as [|? ? _ Hf]; subst.
          by apply (proj1 (Forall_forall _ _) Hf). }
  pose proof (check_extra_spec (placeholders t) m.*1) as Hex.
  destruct (check_extra (placeholders t) m.*1) as [[]|e]; simpl.
  2:{ destruct Hex as (k & -> & Hkm & Hkp). split_and!; [done|by apply Hk|by rewrite <- Hc|].
      intros n' Hn'. by apply Hk, Hmiss, Hc. }
  rewrite render_segments_spec by (intros n Hn; by apply Hmiss, Hc). simpl. split_and!; [done| |].
  - intros n. rewrite <- Hc, <- Hk. naive_solver.
  - apply substitute_perm; [by rewrite Hperm|done].
Qed.

(** What [render] does with any source and any values: it always returns; it succeeds with the
    values put in place exactly when each name is given once and the names given are the ones
    used; otherwise the error says what is wrong, the first missing name in order. *)
Theorem render_meaning s vars :
  match render s vars with
  | None => False
  | Some (Err (ParseError e)) => parse s = Some (Err e)
  | Some (Ok out) =>
      ∃ t, parse s = Some (Ok t) ∧ NoDup vars.*1
           ∧ (∀ n, n ∈ vars.*1 ↔ Placeholder n ∈ segments t) ∧ out = substitute vars (segments t)
  | Some (Err (RenderError e)) =>
      ∃ t, parse s = Some (Ok t) ∧
      match e with
      | DuplicateValue n => n ∈ vars.*1 ∧ ¬ NoDup vars.*1
      | MissingValue n =>
          NoDup vars.*1 ∧ Placeholder n ∈ segments t ∧ n ∉ vars.*1
          ∧ ∀ n', Placeholder n' ∈ segments t → n' ∉ vars.*1 → n' = n ∨ str_lt n n'
      | ExtraValue n =>
          NoDup vars.*1 ∧ n ∈ vars.*1 ∧ Placeholder n ∉ segments t
          ∧ ∀ n', Placeholder n' ∈ segments t → n' ∈ vars.*1
      end
  end.
Proof.
  unfold render. destruct (parse_total s) as [[t|e] Hp]; rewrite Hp; [|done].
  assert (Hn : placeholders t = collect (segments t) []).
  { rewrite parse_ploop in Hp.
    apply ploop_inv in Hp as [_ Hn]; [done|constructor; [exists []; split_and!; [done|done|by left]|done|done]]. }
  pose proof (render_template_spec t vars Hn) as Hr.
  destruct (render_template t vars) as [out|e]; simpl; exists t; [done|]. split; [done|]. by destruct e.
Qed.

(** Escaped text renders to itself. *)
Theorem escaped_text_renders s : render (escape s) [] = Some (Ok s).
Proof.
  unfold render. rewrite parse_ploop. destruct s as [|c s]; [done|].
  pose proof (ploop_print [Literal (c :: s)] [] [] 0) as Hp.
  unfold print in Hp. cbn [fmap list_fmap concat print_segment] in Hp. rewrite app_nil_r in Hp.
  rewrite Hp; [|done|done]. unfold render_template. simpl. by rewrite ?app_nil_r.
Qed.

Definition greeting : str := lit "Hello, {{ name }}: {{{{x}}}}.".

Lemma parsed_template_well_formed_witness :
  parse greeting =
    Some (Ok (mkTemplate [lit "name"] [Literal (lit "Hello, "); Placeholder (lit "name"); Literal (lit ": {{x}}.")]))
  ∧ parse (print [Literal (lit "Hello, "); Placeholder (lit "name"); Literal (lit ": {{x}}.")]) =
    Some (Ok (mkTemplate [lit "name"] [Literal (lit "Hello, "); Placeholder (lit "name"); Literal (lit ": {{x}}.")])).
Proof.
  split; [by vm_compute|].
  apply (parsed_template_well_formed greeting
           (mkTemplate [lit "name"] [Literal (lit "Hello, "); Placeholder (lit "name"); Literal (lit ": {{x}}.")])).
  by vm_compute.
Defined.

Example greeting_renders :
  render greeting [(lit "name", lit "{{x}}")] = Some (Ok (lit "Hello, {{x}}: {{x}}.")).
Proof. by vm_compute. Qed.
