(* ===== verification/IpAddr.v ===== *)
(** * IP addresses (network-proxy/src/policy.rs)

    The part of [std::net] the network proxy uses (the parser of address literals and the
    classification of addresses), and the proxy's own tests: [ipv4_in_cidr] on 32-bit words and
    [is_non_public_ip].  The theorems say which ranges of addresses these cover. *)

From stdpp Require Import prelude strings list.
From Stdlib Require Import ZArith.
From S2P Require Import Prelude RustStr.

(** ** Addresses *)

(** An IPv4 address as its 32-bit word, an IPv6 address as its eight 16-bit segments. *)
Record Ipv6 := mkIpv6 { s0 : Z; s1 : Z; s2 : Z; s3 : Z; s4 : Z; s5 : Z; s6 : Z; s7 : Z }.

Inductive IpAddr := V4 (w : Z) | V6 (a : Ipv6).

#[local] Open Scope Z_scope.

Definition u32_max : Z := 4294967295.

(** [Ipv4Addr::from([a, b, c, d])] and [u32::from]. *)
Definition octets (a b c d : Z) : Z := ((a * 256 + b) * 256 + c) * 256 + d.

(** [u32::MAX << n], cut to 32 bits. *)
Definition u32_shl (x n : Z) : Z := Z.land (Z.shiftl x n) u32_max.

Definition cidr_mask (prefix : Z) : Z := if prefix =? 0 then 0 else u32_shl u32_max (32 - prefix).

Definition ipv4_in_cidr (ip base prefix : Z) : bool :=
  Z.land ip (cidr_mask prefix) =? Z.land base (cidr_mask prefix).

(** ** The classification of [std::net] *)

Definition octet0 (ip : Z) : Z := Z.shiftr ip 24.
Definition octet1 (ip : Z) : Z := Z.land (Z.shiftr ip 16) 255.

Definition v4_is_loopback (ip : Z) : bool := octet0 ip =? 127.
Definition v4_is_private (ip : Z) : bool :=
  (octet0 ip =? 10)
  || ((octet0 ip =? 172) && (16 <=? octet1 ip) && (octet1 ip <=? 31))
  || ((octet0 ip =? 192) && (octet1 ip =? 168)).
Definition v4_is_link_local (ip : Z) : bool := (octet0 ip =? 169) && (octet1 ip =? 254).
Definition v4_is_unspecified (ip : Z) : bool := ip =? 0.
Definition v4_is_multicast (ip : Z) : bool := (224 <=? octet0 ip) && (octet0 ip <=? 239).
Definition v4_is_broadcast (ip : Z) : bool := ip =? u32_max.

(** [Ipv6Addr::to_ipv4]: the forms [::a.b.c.d] and [::ffff:a.b.c.d]. *)
Definition to_ipv4 (a : Ipv6) : option Z :=
  if (s0 a =? 0) && (s1 a =? 0) && (s2 a =? 0) && (s3 a =? 0) && (s4 a =? 0)
     && ((s5 a =? 0) || (s5 a =? 65535))
  then Some (s6 a * 65536 + s7 a) else None.

Definition zero_up_to_s6 (a : Ipv6) : bool :=
  (s0 a =? 0) && (s1 a =? 0) && (s2 a =? 0) && (s3 a =? 0) && (s4 a =? 0) && (s5 a =? 0) && (s6 a =? 0).
Definition v6_is_loopback (a : Ipv6) : bool := zero_up_to_s6 a && (s7 a =? 1).
Definition v6_is_unspecified (a : Ipv6) : bool := zero_up_to_s6 a && (s7 a =? 0).
Definition v6_is_multicast (a : Ipv6) : bool := Z.shiftr (s0 a) 8 =? 255.
Definition v6_is_unique_local (a : Ipv6) : bool := Z.land (s0 a) 65024 =? 64512.
Definition v6_is_unicast_link_local (a : Ipv6) : bool := Z.land (s0 a) 65472 =? 65152.

Definition is_loopback (ip : IpAddr) : bool :=
  match ip with V4 w => v4_is_loopback w | V6 a => v6_is_loopback a end.

(** ** The proxy's classification *)

Definition is_non_public_ipv4 (ip : Z) : bool :=
  v4_is_loopback ip
  || v4_is_private ip
  || v4_is_link_local ip
  || v4_is_unspecified ip
  || v4_is_multicast ip
  || v4_is_broadcast ip
  || ipv4_in_cidr ip (octets 0 0 0 0) 8
  || ipv4_in_cidr ip (octets 100 64 0 0) 10
  || ipv4_in_cidr ip (octets 192 0 0 0) 24
  || ipv4_in_cidr ip (octets 192 0 2 0) 24
  || ipv4_in_cidr ip (octets 198 18 0 0) 15
  || ipv4_in_cidr ip (octets 198 51 100 0) 24
  || ipv4_in_cidr ip (octets 203 0 113 0) 24
  || ipv4_in_cidr ip (octets 240 0 0 0) 4.

Definition is_non_public_ipv6 (a : Ipv6) : bool :=
  match to_ipv4 a with
  | Some v4 => is_non_public_ipv4 v4 || v6_is_loopback a
  | None =>
      v6_is_loopback a || v6_is_unspecified a || v6_is_multicast a || v6_is_unique_local a
      || v6_is_unicast_link_local a
  end.

Definition is_non_public_ip (ip : IpAddr) : bool :=
  match ip with V4 w => is_non_public_ipv4 w | V6 a => is_non_public_ipv6 a end.

(** ** The parser of address literals (the private [Parser] of [std::net])

    Each reader returns the value and the rest of the text. *)

Definition to_digit (radix : Z) (c : char) : option Z :=
  let c := Z.of_N c in
  let d := if (48 <=? c) && (c <=? 57) then Some (c - 48)
           else if (97 <=? c) && (c <=? 122) then Some (c - 97 + 10)
           else if (65 <=? c) && (c <=? 90) then Some (c - 65 + 10) else None in
  match d with Some d => if d <? radix then Some d else None | None => None end.

(** The digits at the front of a text, and their value. *)
Fixpoint read_digits (radix : Z) (s : str) (acc : Z) (count : nat) : Z * nat * list N :=
  match s with
  | [] => (acc, count, [])
  | c :: s' =>
      match to_digit radix c with
      | Some d => read_digits radix s' (acc * radix + d) (S count)
      | None => (acc, count, s)
      end
  end.

(** [read_number]: at least one and at most [max_digits] digits, a value of at most [limit]. *)
Definition read_number (radix : Z) (max_digits : nat) (allow_zero_prefix : bool) (limit : Z)
    (s : str) : option (Z * list N) :=
  let has_leading_zero := match s with 48%N :: _ => true | _ => false end in
  let '(v, count, rest) := read_digits radix s 0 0 in
  if (count =? 0)%nat then None
  else if (max_digits <? count)%nat then None
  else if limit <? v then None
  else if negb allow_zero_prefix && has_leading_zero && (1 <? count)%nat then None
  else Some (v, rest).

Definition read_given_char (c : char) (s : str) : option (list N) :=
  match s with x :: s' => if decide (x = c) then Some s' else None | [] => None end.

Definition dot : char := 46%N.
Definition colon : char := 58%N.

Definition read_octet (s : str) : option (Z * list N) := read_number 10 3 false 255 s.

(** [read_ipv4_addr]. *)
Definition read_ipv4_addr (s : str) : option (Z * list N) :=
  '(a, s) ← read_octet s; s ← read_given_char dot s;
  '(b, s) ← read_octet s; s ← read_given_char dot s;
  '(c, s) ← read_octet s; s ← read_given_char dot s;
  '(d, s) ← read_octet s; Some (octets a b c d, s).

(** [read_separator(':', index, inner)]. *)
Definition read_separator {A} (index : nat) (inner : str → option (A * list N)) (s : str) :
    option (A * list N) :=
  match index with O => inner s | S _ => s ← read_given_char colon s; inner s end.

(** [read_groups] from index [i] on, with [left] slots to fill: the segments read, whether
    they end in an IPv4 address, and the rest. *)
Fixpoint read_groups (i left : nat) (s : str) : list Z * bool * list N :=
  match left with
  | O => ([], false, s)
  | S left' =>
      let ipv4 := match left' with O => None | S _ => read_separator i read_ipv4_addr s end in
      match ipv4 with
      | Some (w, rest) => ([Z.shiftr w 16; Z.land w 65535], true, rest)
      | None =>
          match read_separator i (read_number 16 4 true 65535) s with
          | Some (g, rest) => let '(gs, b, r) := read_groups (S i) left' rest in (g :: gs, b, r)
          | None => ([], false, s)
          end
      end
  end.

Definition segments_to_ipv6 (l : list Z) : option Ipv6 :=
  match l with
  | [a; b; c; d; e; f; g; h] => Some (mkIpv6 a b c d e f g h)
  | _ => None
  end.

(** [read_ipv6_addr]. *)
Definition read_ipv6_addr (s : str) : option (Ipv6 * list N) :=
  let '(head, head_ipv4, rest) := read_groups 0 8 s in
  if (length head =? 8)%nat then a ← segments_to_ipv6 head; Some (a, rest)
  else if head_ipv4 then None
  else
    rest ← read_given_char colon rest; rest ← read_given_char colon rest;
    let '(tail, _, rest') := read_groups 0 (8 - (length head + 1)) rest in
    a ← segments_to_ipv6 (head ++ replicate (8 - length head - length tail) 0 ++ tail);
    Some (a, rest').

(** [str::parse::<IpAddr>]: IPv4, else IPv6, and nothing behind it. *)
Definition parse_ip (s : str) : option IpAddr :=
  match read_ipv4_addr s with
  | Some (w, rest) => if decide (rest = []) then Some (V4 w) else None
  | None =>
      match read_ipv6_addr s with
      | Some (a, rest) => if decide (rest = []) then Some (V6 a) else None
      | None => None
      end
  end.

(** ** Ranges *)

Example parse_loopback : parse_ip (lit "127.0.0.1") = Some (V4 (octets 127 0 0 1)).
Proof. by vm_compute. Qed.
Example parse_mapped :
  parse_ip (lit "::ffff:10.0.0.1") = Some (V6 (mkIpv6 0 0 0 0 0 65535 (10 * 256) 1)).
Proof. by vm_compute. Qed.
Example parse_rejects : parse_ip (lit "127.0.0.01") = None ∧ parse_ip (lit "1.2.3.4:80") = None
  ∧ parse_ip (lit "1:2:3:4:5:6:7::") = Some (V6 (mkIpv6 1 2 3 4 5 6 7 0)) ∧ parse_ip (lit ":::") = None
  ∧ parse_ip (lit "::1") = Some (V6 (mkIpv6 0 0 0 0 0 0 0 1))
  ∧ parse_ip (lit "fe80::1%lo0") = None.
Proof. by vm_compute. Qed.

Definition is_u32 (x : Z) : Prop := 0 <= x < 2 ^ 32.

Lemma land_high_bits w n x :
  0 <= x < 2 ^ w -> 0 <= n <= w ->
  Z.land x (Z.land (Z.shiftl (Z.ones w) n) (Z.ones w)) = x / 2 ^ n * 2 ^ n.
Proof.
  intros Hx Hn. rewrite <- Z.shiftr_div_pow2, <- Z.shiftl_mul_pow2 by lia.
  apply Z.bits_inj'. intros i Hi. rewrite !Z.land_spec.
  destruct (Z.lt_ge_cases i n) as [Hlt|Hge].
  { rewrite !Z.shiftl_spec_low by lia. by rewrite andb_false_r. }
  rewrite !Z.shiftl_spec, Z.shiftr_spec by lia. replace (i - n + n) with i by lia.
  destruct (Z.lt_ge_cases i w) as [Hlt'|Hge'].
  - rewrite !Z.ones_spec_low by lia. by rewrite !andb_true_r.
  - rewrite <- (Z.mod_small x (2 ^ w)) by lia. by rewrite Z.mod_pow2_bits_high by lia.
Qed.

Lemma cidr_mask_spec ip prefix :
  is_u32 ip -> 0 <= prefix <= 32 ->
  Z.land ip (cidr_mask prefix) = ip / 2 ^ (32 - prefix) * 2 ^ (32 - prefix).
Proof.
  intros Hip Hp. unfold cidr_mask. destruct (Z.eqb_spec prefix 0) as [->|Hne].
  - rewrite Z.land_0_r. unfold is_u32 in Hip. rewrite Z.div_small; [done|]. exact Hip.
  - unfold u32_shl. change u32_max with (Z.ones 32). apply land_high_bits; [exact Hip|lia].
Qed.

Lemma div_block m ip q : 0 < m -> ip / m = q <-> q * m <= ip < q * m + m.
Proof.
  intros Hm. split.
  - intros <-. pose proof (Z.div_mod ip m ltac:(lia)). pose proof (Z.mod_pos_bound ip m Hm). lia.
  - intros Hq. symmetry. apply (Z.div_unique_pos _ _ _ (ip - q * m)); lia.
Qed.

(** The test of a CIDR block is the test of an interval of addresses. *)
Theorem ipv4_in_cidr_range ip base prefix :
  is_u32 ip -> is_u32 base -> 0 <= prefix <= 32 ->
  ipv4_in_cidr ip base prefix = true <->
  base / 2 ^ (32 - prefix) * 2 ^ (32 - prefix) <= ip
    < base / 2 ^ (32 - prefix) * 2 ^ (32 - prefix) + 2 ^ (32 - prefix).
Proof.
  intros Hip Hb Hp. unfold ipv4_in_cidr. rewrite !cidr_mask_spec by done. rewrite Z.eqb_eq.
  assert (0 < 2 ^ (32 - prefix)) as Hpos by (apply Z.pow_pos_nonneg; lia).
  rewrite Z.mul_cancel_r by lia. by apply div_block.
Qed.

(** A block with a concrete base and prefix, by arithmetic. *)
Lemma ipv4_in_cidr_block ip base prefix :
  is_u32 ip -> is_u32 base -> 0 <= prefix <= 32 -> base mod 2 ^ (32 - prefix) = 0 ->
  ipv4_in_cidr ip base prefix = true <-> base <= ip < base + 2 ^ (32 - prefix).
Proof.
  intros Hip Hb Hp Hbase. unfold ipv4_in_cidr. rewrite !cidr_mask_spec by done. rewrite Z.eqb_eq.
  assert (0 < 2 ^ (32 - prefix)) as Hpos by (apply Z.pow_pos_nonneg; lia).
  rewrite Z.mul_cancel_r, div_block by lia.
  pose proof (Z.div_mod base (2 ^ (32 - prefix)) ltac:(lia)). lia.
Qed.

(** The ranges that are not on the public internet, first and last address. *)
Definition non_public_ranges : list (Z * Z) :=
  [ (octets 0 0 0 0, octets 0 255 255 255);
    (octets 10 0 0 0, octets 10 255 255 255);
    (octets 100 64 0 0, octets 100 127 255 255);
    (octets 127 0 0 0, octets 127 255 255 255);
    (octets 169 254 0 0, octets 169 254 255 255);
    (octets 172 16 0 0, octets 172 31 255 255);
    (octets 192 0 0 0, octets 192 0 0 255);
    (octets 192 0 2 0, octets 192 0 2 255);
    (octets 192 168 0 0, octets 192 168 255 255);
    (octets 198 18 0 0, octets 198 19 255 255);
    (octets 198 51 100 0, octets 198 51 100 255);
    (octets 203 0 113 0, octets 203 0 113 255);
    (octets 224 0 0 0, octets 255 255 255 255) ].

Definition in_ranges (ranges : list (Z * Z)) (ip : Z) : bool :=
  existsb (fun '(lo, hi) => (lo <=? ip) && (ip <=? hi)) ranges.

Lemma octet0_div ip : octet0 ip = ip / 16777216.
Proof. unfold octet0. by rewrite Z.shiftr_div_pow2. Qed.

Lemma octet1_div ip : octet1 ip = (ip / 65536) mod 256.
Proof.
  unfold octet1. rewrite Z.shiftr_div_pow2 by lia. change 255 with (Z.ones 8). by rewrite Z.land_ones.
Qed.

Lemma bool_iff (a b : bool) : (a = true <-> b = true) -> a = b.
Proof. destruct a, b; naive_solver. Qed.

Local Ltac block ip base prefix :=
  rewrite (bool_iff (ipv4_in_cidr ip base prefix) ((base <=? ip) && (ip <? base + 2 ^ (32 - prefix))))
    by (rewrite ipv4_in_cidr_block by (done || (unfold is_u32; by vm_compute)); lia).

(** [is_non_public_ipv4] is membership in [non_public_ranges]. *)
Theorem non_public_ipv4_ranges ip :
  is_u32 ip -> is_non_public_ipv4 ip = in_ranges non_public_ranges ip.
Proof.
  intros Hip. unfold is_non_public_ipv4.
  block ip (octets 0 0 0 0) 8. block ip (octets 100 64 0 0) 10. block ip (octets 192 0 0 0) 24.
  block ip (octets 192 0 2 0) 24. block ip (octets 198 18 0 0) 15. block ip (octets 198 51 100 0) 24.
  block ip (octets 203 0 113 0) 24. block ip (octets 240 0 0 0) 4.
  unfold v4_is_loopback, v4_is_private, v4_is_link_local, v4_is_unspecified, v4_is_multicast, v4_is_broadcast.
  rewrite octet0_div, octet1_div. unfold in_ranges, non_public_ranges. cbn [existsb].
  unfold octets, u32_max, is_u32 in *. apply bool_iff.
  rewrite !orb_true_iff, !andb_true_iff, !Z.eqb_eq, !Z.leb_le, !Z.ltb_lt.
  Z.div_mod_to_equations. lia.
Qed.

(** ** IPv6 *)

Definition is_u16 (x : Z) : Prop := 0 <= x < 2 ^ 16.

Definition is_ipv6 (a : Ipv6) : Prop :=
  is_u16 (s0 a) /\ is_u16 (s1 a) /\ is_u16 (s2 a) /\ is_u16 (s3 a) /\ is_u16 (s4 a) /\
  is_u16 (s5 a) /\ is_u16 (s6 a) /\ is_u16 (s7 a).

Lemma land_prefix16 x n :
  is_u16 x -> 0 <= n <= 16 ->
  Z.land x (Z.land (Z.shiftl (Z.ones 16) n) (Z.ones 16)) = x / 2 ^ n * 2 ^ n.
Proof. apply land_high_bits. Qed.

Lemma v6_unique_local_range a :
  is_u16 (s0 a) -> v6_is_unique_local a = ((64512 <=? s0 a) && (s0 a <=? 65023)).
Proof.
  intros H. unfold v6_is_unique_local. apply bool_iff.
  rewrite (land_prefix16 (s0 a) 9 H ltac:(lia) : Z.land (s0 a) 65024 = _).
  rewrite andb_true_iff, Z.eqb_eq, !Z.leb_le. change (2 ^ 9) with 512. Z.div_mod_to_equations. lia.
Qed.

Lemma v6_link_local_range a :
  is_u16 (s0 a) -> v6_is_unicast_link_local a = ((65152 <=? s0 a) && (s0 a <=? 65215)).
Proof.
  intros H. unfold v6_is_unicast_link_local. apply bool_iff.
  rewrite (land_prefix16 (s0 a) 6 H ltac:(lia) : Z.land (s0 a) 65472 = _).
  rewrite andb_true_iff, Z.eqb_eq, !Z.leb_le. change (2 ^ 6) with 64. Z.div_mod_to_equations. lia.
Qed.

Lemma v6_multicast_range a : is_u16 (s0 a) -> v6_is_multicast a = (65280 <=? s0 a).
Proof.
  intros H. unfold v6_is_multicast, is_u16 in *. apply bool_iff. rewrite Z.shiftr_div_pow2 by lia.
  rewrite Z.eqb_eq, Z.leb_le. change (2 ^ 8) with 256. Z.div_mod_to_equations. lia.
Qed.

Lemma to_ipv4_loopback a w : to_ipv4 a = Some w -> v6_is_loopback a = true -> is_non_public_ipv4 w = true.
Proof.
  unfold to_ipv4, v6_is_loopback, zero_up_to_s6. intros Hw Hl.
  repeat (apply andb_true_iff in Hl as [Hl ?]).
  assert (s6 a = 0) as E6 by lia. assert (s7 a = 1) as E7 by lia.
  case_match; simplify_eq. by rewrite E6, E7.
Qed.

(** An IPv6 address that embeds an IPv4 address is classified like it; of the others exactly
    fc00::/7, fe80::/10 and ff00::/8 are not public. *)
Theorem non_public_ipv6_ranges a :
  is_ipv6 a ->
  is_non_public_ipv6 a =
  match to_ipv4 a with
  | Some w => in_ranges non_public_ranges w
  | None => ((64512 <=? s0 a) && (s0 a <=? 65023)) || ((65152 <=? s0 a) && (s0 a <=? 65215))
            || (65280 <=? s0 a)
  end.
Proof.
  intros (H0 & _ & _ & _ & _ & _ & H6 & H7). unfold is_non_public_ipv6.
  destruct (to_ipv4 a) as [w|] eqn:E.
  - rewrite <- non_public_ipv4_ranges.
    + destruct (v6_is_loopback a) eqn:El; [|by rewrite orb_false_r].
      by rewrite (to_ipv4_loopback a w E El).
    + unfold to_ipv4 in E. case_match; simplify_eq. unfold is_u32, is_u16 in *. lia.
  - assert (Hz : zero_up_to_s6 a = false).
    { destruct (zero_up_to_s6 a) eqn:Ez; [|done]. unfold zero_up_to_s6, to_ipv4 in *.
      repeat (apply andb_true_iff in Ez as [Ez ?]).
      repeat match goal with H : (_ =? _) = true |- _ => rewrite H in E end. done. }
    unfold v6_is_loopback, v6_is_unspecified. rewrite Hz. simpl.
    rewrite v6_unique_local_range, v6_link_local_range, v6_multicast_range by done.
    by destruct (65280 <=? s0 a), (64512 <=? s0 a), (s0 a <=? 65023), (65152 <=? s0 a), (s0 a <=? 65215).
Qed.

(** Addresses that are not globally routable and count as public all the same: the documentation
    prefix, the deprecated site-local prefix, and a translated private IPv4 address. *)
Example unroutable_ipv6_counts_as_public :
  (is_non_public_ip <$> parse_ip (lit "2001:db8::1")) = Some false ∧
  (is_non_public_ip <$> parse_ip (lit "fec0::1")) = Some false ∧
  (is_non_public_ip <$> parse_ip (lit "64:ff9b:1::10.0.0.1")) = Some false.
Proof. vm_compute. by split_and!. Qed.
