(* ===== verification/HostPolicy.v ===== *)
(** * Hosts and domain patterns (network-proxy/src/policy.rs)

    A managed command reaches the network through a proxy that decides host by host.  Hosts are
    normalised; rules are exact hosts, [*.example.com] (subdomains) or [**.example.com] (the
    domain and its subdomains), and [*] where it is allowed.  Patterns are compiled to globs to
    match hosts, and compared with each other when a managed configuration bounds the user's.
    The class [HostEnv] has what comes from the crates [globset] and [url]; [HostEnvLaws] is
    the documented meaning of the globs the code makes. *)

From stdpp Require Import prelude strings list.
From S2P Require Import Prelude RustStr StrSearch IpAddr.

Class HostEnv := {
  (* [GlobBuilder::new(p).case_insensitive(true).build()] succeeds *)
  glob_ok : list N → bool;
  (* the glob matches the text *)
  glob_match : list N → list N → bool;
  (* [url::Host::parse(h)], printed *)
  url_host_parse : list N → option (list N) }.

Definition star : char := 42%N.
Definition question : char := 63%N.
Definition percent : char := 37%N.

(** [str::split_once] of a string. *)
Definition split_once_str (d s : str) : option (list N * list N) :=
  i ← find_str d s; Some (take i s, drop (i + length d) s).

(** ** Hosts *)

Definition unscoped_ip_literal (host : str) : option str :=
  '(ip, _) ← split_once percent host; _ ← parse_ip ip; Some ip.

Definition normalize_ip_literal (host : str) : option str :=
  if parse_ip host then Some host
  else
    let try_delimiter (d : str) :=
      '(ip, scope) ← split_once_str d host; _ ← parse_ip ip; Some (ip ++ [percent] ++ scope) in
    match try_delimiter (lit "%25") with
    | Some r => Some r
    | None => try_delimiter (lit "%")
    end.

Definition normalize_dns_host_or_ip_literal (host : str) : str :=
  let host := trim_end_matches dot (to_ascii_lowercase host) in
  default host (normalize_ip_literal host).

Definition normalize_host (host : str) : str :=
  let host := trim host in
  let unbracketed :=
    if count_char colon host =? 1 then
      normalize_dns_host_or_ip_literal (default [] (head (split_on colon host)))
    else normalize_dns_host_or_ip_literal host in
  if starts_with (lit "[") host then
    match find_str (lit "]") host with
    | Some end_ => normalize_dns_host_or_ip_literal (drop 1 (take end_ host))
    | None => unbracketed
    end
  else unbracketed.

(** [Host::parse]: the normalised host, not empty. *)
Definition host_parse (input : str) : option str :=
  let normalized := normalize_host input in
  if bool_decide (normalized = []) then None else Some normalized.

Definition is_loopback_host (host : str) : bool :=
  let host := default host (unscoped_ip_literal host) in
  if bool_decide (host = lit "localhost") then true
  else from_option is_loopback false (parse_ip host).

(** ** Patterns *)

Inductive DomainPattern :=
| ApexAndSubdomains (domain : list N)
| SubdomainsOnly (domain : list N)
| Exact (domain : list N).

#[global] Instance domain_pattern_eq_dec : EqDecision DomainPattern.
Proof. solve_decision. Defined.

Definition parse_domain (domain : str) (build : list N → DomainPattern) : DomainPattern :=
  let domain := trim domain in
  if bool_decide (domain = []) then Exact [] else build domain.

Definition pattern_parse (input : str) : DomainPattern :=
  let input := trim input in
  if bool_decide (input = []) then Exact []
  else match strip_prefix (lit "**.") input with
       | Some domain => parse_domain domain ApexAndSubdomains
       | None =>
           match strip_prefix (lit "*.") input with
           | Some domain => parse_domain domain SubdomainsOnly
           | None => Exact input
           end
       end.

Definition normalize_pattern (pattern : str) : str :=
  let pattern := trim pattern in
  if bool_decide (pattern = lit "*") then lit "*"
  else match strip_prefix (lit "**.") pattern with
       | Some domain => lit "**." ++ normalize_host domain
       | None =>
           match strip_prefix (lit "*.") pattern with
           | Some domain => lit "*." ++ normalize_host domain
           | None => normalize_host pattern
           end
       end.

Definition expand_domain_pattern (pattern : str) : list (list N) :=
  match pattern_parse pattern with
  | Exact domain => [domain]
  | SubdomainsOnly domain => [lit "?*." ++ domain]
  | ApexAndSubdomains domain => [domain; lit "?*." ++ domain]
  end.

Definition is_global_wildcard_domain_pattern (pattern : str) : bool :=
  existsb (λ candidate, bool_decide (candidate = lit "*"))
    (expand_domain_pattern (normalize_pattern pattern)).

Definition normalize_domain (domain : str) : str := to_ascii_lowercase (trim_end_matches dot domain).

Definition domain_eq (left right : str) : bool :=
  bool_decide (normalize_domain left = normalize_domain right).

Definition is_subdomain_or_equal (child parent : str) : bool :=
  let child := normalize_domain child in
  let parent := normalize_domain parent in
  if bool_decide (child = parent) then true else ends_with (dot :: parent) child.

Definition is_strict_subdomain (child parent : str) : bool :=
  let child := normalize_domain child in
  let parent := normalize_domain parent in
  negb (bool_decide (child = parent)) && ends_with (dot :: parent) child.

(** [DomainPattern::allows]. *)
Definition allows (managed candidate : DomainPattern) : bool :=
  match managed with
  | Exact domain =>
      match candidate with Exact candidate => domain_eq candidate domain | _ => false end
  | SubdomainsOnly domain =>
      match candidate with
      | Exact candidate => is_strict_subdomain candidate domain
      | SubdomainsOnly candidate => is_subdomain_or_equal candidate domain
      | ApexAndSubdomains candidate => is_strict_subdomain candidate domain
      end
  | ApexAndSubdomains domain =>
      match candidate with
      | Exact candidate => is_subdomain_or_equal candidate domain
      | SubdomainsOnly candidate => is_subdomain_or_equal candidate domain
      | ApexAndSubdomains candidate => is_subdomain_or_equal candidate domain
      end
  end.

Section env.
Context `{HostEnv}.

Definition parse_domain_for_constraints (domain : str) : str :=
  let domain := trim_end_matches dot (trim domain) in
  if bool_decide (domain = []) then []
  else
    let host := if starts_with (lit "[") domain && ends_with (lit "]") domain
                then drop 1 (take (length domain - 1) domain) else domain in
    if contains_char star host || contains_char question host || contains_char percent host
    then domain
    else default [] (url_host_parse host).

Definition parse_for_constraints (input : str) : DomainPattern :=
  let input := trim input in
  if bool_decide (input = []) then Exact []
  else match strip_prefix (lit "**.") input with
       | Some domain => ApexAndSubdomains (parse_domain_for_constraints domain)
       | None =>
           match strip_prefix (lit "*.") input with
           | Some domain => SubdomainsOnly (parse_domain_for_constraints domain)
           | None => Exact (parse_domain_for_constraints input)
           end
       end.

(** ** Sets of globs *)

Inductive GlobalWildcard := AllowWildcard | RejectWildcard.

Inductive CompileError :=
| UnsupportedGlobalWildcard
| InvalidGlob (candidate : list N).

(** A [GlobSet] is the list of its patterns. *)
Notation GlobSet := (list (list N)).

Definition is_match (set : GlobSet) (host : str) : bool := existsb (λ p, glob_match p host) set.

Fixpoint add_candidates (candidates : list (list N)) (builder seen : list (list N)) :
    result CompileError (GlobSet * list (list N)) :=
  match candidates with
  | [] => Ok (builder, seen)
  | candidate :: candidates =>
      if bool_decide (candidate ∈ seen) then add_candidates candidates builder seen
      else if glob_ok candidate
      then add_candidates candidates (builder ++ [candidate]) (candidate :: seen)
      else Err (InvalidGlob candidate)
  end.

Fixpoint compile_loop (global_wildcard : GlobalWildcard) (patterns : list (list N))
    (builder seen : list (list N)) : result CompileError GlobSet :=
  match patterns with
  | [] => Ok builder
  | pattern :: patterns =>
      match global_wildcard, is_global_wildcard_domain_pattern pattern with
      | RejectWildcard, true => Err UnsupportedGlobalWildcard
      | _, _ =>
          match add_candidates (expand_domain_pattern (normalize_pattern pattern)) builder seen with
          | Err e => Err e
          | Ok (builder', seen') => compile_loop global_wildcard patterns builder' seen'
          end
      end
  end.

Definition compile_globset_with_policy (patterns : list (list N)) (w : GlobalWildcard) :
    result CompileError GlobSet := compile_loop w patterns [] [].

Definition compile_allowlist_globset (patterns : list (list N)) : result CompileError GlobSet :=
  compile_globset_with_policy patterns AllowWildcard.
Definition compile_denylist_globset (patterns : list (list N)) : result CompileError GlobSet :=
  compile_globset_with_policy patterns RejectWildcard.

End env.

Example normalizes :
  normalize_host (lit " EXAMPLE.com.:80") = lit "example.com" ∧
  normalize_host (lit "[::1]:443") = lit "::1" ∧
  normalize_host (lit "[fd00::1%25eth0]") = lit "fd00::1%eth0" ∧
  is_loopback_host (lit "127.0.0.1") = true.
Proof. by vm_compute. Qed.

(** ** What patterns match *)

(** The hosts a pattern stands for. *)
Definition pattern_matches (p : DomainPattern) (h : str) : bool :=
  match p with
  | Exact d => domain_eq h d
  | SubdomainsOnly d => is_strict_subdomain h d
  | ApexAndSubdomains d => is_subdomain_or_equal h d
  end.

Definition pattern_domain (p : DomainPattern) : str :=
  match p with Exact d | SubdomainsOnly d | ApexAndSubdomains d => d end.

Lemma lower_dot c : char_to_ascii_lowercase c = dot ↔ c = dot.
Proof.
  unfold char_to_ascii_lowercase, dot. destruct (N.leb_spec 65 c), (N.leb_spec c 90); simpl; lia.
Qed.

Lemma lower_idem c : char_to_ascii_lowercase (char_to_ascii_lowercase c) = char_to_ascii_lowercase c.
Proof.
  unfold char_to_ascii_lowercase.
  destruct (N.leb_spec 65 c), (N.leb_spec c 90); cbn [andb];
    repeat match goal with |- context [N.leb ?a ?b] => destruct (N.leb_spec a b) end; cbn [andb]; lia.
Qed.

Lemma to_ascii_lowercase_idem s : to_ascii_lowercase (to_ascii_lowercase s) = to_ascii_lowercase s.
Proof. unfold to_ascii_lowercase. rewrite <- list_fmap_compose. apply list_fmap_ext. intros. apply lower_idem. Qed.

Lemma trim_end_matches_last x s : last (trim_end_matches x s) ≠ Some x.
Proof.
  unfold trim_end_matches. rewrite last_reverse.
  generalize (reverse s) as t. induction t as [|c t IH]; simpl; [done|]. case_decide; [done|]. simpl. congruence.
Qed.

Lemma normalized_last d : last (normalize_domain d) ≠ Some dot.
Proof.
  unfold normalize_domain, to_ascii_lowercase. rewrite fmap_last.
  intros (c & Hc & Hd)%fmap_Some. symmetry in Hd. apply lower_dot in Hd as ->. by apply trim_end_matches_last in Hc.
Qed.

Lemma normalize_domain_fixed s :
  last s ≠ Some dot → to_ascii_lowercase s = s → normalize_domain s = s.
Proof. intros Hl Hs. unfold normalize_domain. by rewrite trim_end_matches_id. Qed.

Lemma normalize_domain_lower d : to_ascii_lowercase (normalize_domain d) = normalize_domain d.
Proof. apply to_ascii_lowercase_idem. Qed.

Lemma normalize_domain_idem d : normalize_domain (normalize_domain d) = normalize_domain d.
Proof. apply normalize_domain_fixed; [apply normalized_last|apply normalize_domain_lower]. Qed.

(** Below a domain: one more label, in normal form. *)
Lemma normalize_domain_label l d :
  normalize_domain d ≠ [] → to_ascii_lowercase l = l →
  normalize_domain (l ++ dot :: normalize_domain d) = l ++ dot :: normalize_domain d.
Proof.
  intros Hd Hl. apply normalize_domain_fixed.
  - pose proof (normalized_last d) as Hn. destruct (normalize_domain d) as [|x d'] using rev_ind; [done|].
    rewrite app_comm_cons, app_assoc, last_snoc in *. done.
  - pose proof (normalize_domain_lower d) as Hlow. unfold to_ascii_lowercase in *.
    rewrite fmap_app, fmap_cons, Hl, Hlow. done.
Qed.

Lemma ends_with_dot p c : ends_with (dot :: p) c = true ↔ ∃ x, c = x ++ dot :: p.
Proof.
  unfold ends_with. rewrite bool_decide_eq_true. split.
  - intros [x Hx%strip_suffix_Some]. eauto.
  - intros [x ->]. exists x. by apply strip_suffix_Some.
Qed.

Lemma not_below_itself (x : str) p : p ≠ x ++ dot :: p.
Proof. intros E. apply (f_equal length) in E. rewrite length_app in E. simpl in E. lia. Qed.

Lemma is_strict_subdomain_true c p :
  is_strict_subdomain c p = true ↔ ∃ x, normalize_domain c = x ++ dot :: normalize_domain p.
Proof.
  unfold is_strict_subdomain. rewrite andb_true_iff, ends_with_dot. split; [naive_solver|].
  intros [x E]. split; [|eauto]. rewrite bool_decide_false; [done|]. rewrite E. intros E'.
  by apply (not_below_itself x (normalize_domain p)).
Qed.

Lemma is_subdomain_or_equal_true c p :
  is_subdomain_or_equal c p = true ↔
  normalize_domain c = normalize_domain p ∨ ∃ x, normalize_domain c = x ++ dot :: normalize_domain p.
Proof.
  unfold is_subdomain_or_equal. case_bool_decide as E; [naive_solver|]. rewrite ends_with_dot. naive_solver.
Qed.

Lemma domain_eq_true a b : domain_eq a b = true ↔ normalize_domain a = normalize_domain b.
Proof. apply bool_decide_eq_true. Qed.

#[local] Hint Rewrite is_strict_subdomain_true is_subdomain_or_equal_true domain_eq_true : hosts.

Lemma below_trans (x y a b c : str) : a = x ++ dot :: b → b = y ++ dot :: c → ∃ z, a = z ++ dot :: c.
Proof. intros -> ->. exists (x ++ dot :: y). by rewrite <- app_assoc. Qed.

(** A label in front of a domain: it lies below [m] only if the domain does. *)
Lemma label_below c (l : char) x m :
  l ≠ dot → l :: dot :: c = x ++ dot :: m → c = m ∨ ∃ y, c = y ++ dot :: m.
Proof.
  intros Hl E. destruct x as [|a [|b x]]; simplify_eq/=; [by left|]. right. eauto.
Qed.

Lemma label_host (l : char) c :
  normalize_domain c ≠ [] → to_ascii_lowercase [l] = [l] →
  normalize_domain (l :: dot :: normalize_domain c) = l :: dot :: normalize_domain c.
Proof. intros. by apply (normalize_domain_label [l]). Qed.

Definition label_a : char := 97%N.
Definition label_b : char := 98%N.

(** Soundness of the comparison. *)
Lemma allows_covers managed candidate h :
  allows managed candidate = true → pattern_matches candidate h = true → pattern_matches managed h = true.
Proof.
  intros Hall. destruct managed as [m|m|m], candidate as [c|c|c]; simpl in *; try done;
    autorewrite with hosts in *; intros Hh;
    repeat match goal with H : _ ∨ _ |- _ => destruct H | H : ∃ _, _ |- _ => destruct H end;
    try (left; congruence); try right;
    first [congruence | by eapply below_trans | match goal with x : str |- _ => exists x; congruence end].
Qed.

(** A managed pattern allows a candidate exactly when it matches every host the candidate
    matches: the comparison of patterns is sound, and as permissive as it can be. *)
Theorem allows_iff_covers managed candidate :
  normalize_domain (pattern_domain candidate) ≠ [] →
  allows managed candidate = true ↔
  ∀ h, pattern_matches candidate h = true → pattern_matches managed h = true.
Proof.
  intros Hne. split.
  - intros Hall h. by apply allows_covers.
  - intros Hsub.
    pose proof (Hsub (label_a :: dot :: normalize_domain (pattern_domain candidate))) as Ha.
    pose proof (Hsub (label_b :: dot :: normalize_domain (pattern_domain candidate))) as Hb.
    pose proof (Hsub (normalize_domain (pattern_domain candidate))) as Hc.
    destruct managed as [m|m|m], candidate as [c|c|c]; simpl in *; autorewrite with hosts in *;
      rewrite !label_host, ?normalize_domain_idem in * by done; try by apply Hc; auto.
    all: assert (Hla : ∃ x : str, label_a :: dot :: normalize_domain c = x ++ dot :: normalize_domain c) by (by exists [label_a]).
    all: assert (Hlb : ∃ x : str, label_b :: dot :: normalize_domain c = x ++ dot :: normalize_domain c) by (by exists [label_b]).
    + destruct (Ha Hla) as [Ea|[x Ea]]; [|by eapply label_below; [|exact Ea]].
      destruct (Hb Hlb) as [Eb|[x Eb]]; [by rewrite <- Ea in Eb|by eapply label_below; [|exact Eb]].
    + destruct (Ha Hla) as [x Ea]. by eapply label_below; [|exact Ea].
    + specialize (Ha (or_intror Hla)). specialize (Hb (or_intror Hlb)). by rewrite <- Ha in Hb.
    + specialize (Ha Hla). specialize (Hb Hlb). by rewrite <- Ha in Hb.
Qed.

(** [*.b.example] lies below [**.example], and is not the whole of it. *)
Lemma allows_iff_covers_witness :
  normalize_domain (lit "b.example") ≠ [] ∧
  (allows (ApexAndSubdomains (lit "Example.")) (SubdomainsOnly (lit "b.example")) = true ↔
   ∀ h, pattern_matches (SubdomainsOnly (lit "b.example")) h = true →
        pattern_matches (ApexAndSubdomains (lit "Example.")) h = true) ∧
  allows (SubdomainsOnly (lit "b.example")) (ApexAndSubdomains (lit "b.example")) = false.
Proof.
  split_and!; [by vm_compute| |by vm_compute].
  apply (allows_iff_covers (ApexAndSubdomains (lit "Example.")) (SubdomainsOnly (lit "b.example"))).
  by vm_compute.
Defined.

(** ** What compiled sets match *)

(** Characters that mean themselves in a glob. *)
Definition glob_plain_char (c : char) : bool :=
  (((97 <=? c) && (c <=? 122)) || ((65 <=? c) && (c <=? 90)) || is_ascii_digit c
   || (c =? 45) || (c =? 46) || (c =? 95) || (c =? 58) || (c =? 37))%N.
Definition plain_domain (d : str) : Prop := Forall (λ c, glob_plain_char c = true) d.

(** The globs the code makes of plain domains, as [globset] documents them: a plain text
    matches itself up to the case of letters, [?] one character, [*] any text. *)
Class HostEnvLaws `(HostEnv) : Prop := {
  glob_plain d : plain_domain d →
    glob_ok d = true ∧ ∀ h, glob_match d h = eq_ignore_ascii_case d h;
  glob_below d : plain_domain d →
    glob_ok (lit "?*." ++ d) = true ∧
    ∀ h, glob_match (lit "?*." ++ d) h = true ↔
         ∃ x, x ≠ [] ∧ to_ascii_lowercase h = to_ascii_lowercase (x ++ dot :: d);
  glob_star : glob_ok (lit "*") = true ∧ ∀ h, glob_match (lit "*") h = true }.

(** A pattern without glob characters of its own, other than the prefixes and [*]. *)
Definition simple_pattern (p : str) : Prop :=
  match pattern_parse (normalize_pattern p) with
  | Exact d => d = lit "*" ∨ plain_domain d ∧ last d ≠ Some dot
  | SubdomainsOnly d | ApexAndSubdomains d => plain_domain d ∧ last d ≠ Some dot
  end.

(** A host as [normalize_host] leaves it: lower case, no dot at either end. *)
Definition clean_host (h : str) : Prop :=
  to_ascii_lowercase h = h ∧ last h ≠ Some dot ∧ head h ≠ Some dot.

(** What a pattern of a list stands for. *)
Definition listed_matches (p h : str) : bool :=
  bool_decide (pattern_parse (normalize_pattern p) = Exact (lit "*"))
  || pattern_matches (pattern_parse (normalize_pattern p)) h.

Lemma exists_in_one {A} (P : A → Prop) a : (∃ c, c ∈ [a] ∧ P c) ↔ P a.
Proof. split; [intros (c & ->%list_elem_of_singleton & ?); done|]. intros. exists a. set_solver. Qed.

Lemma exists_in_cons {A} (P : A → Prop) a l : (∃ c, c ∈ a :: l ∧ P c) ↔ P a ∨ ∃ c, c ∈ l ∧ P c.
Proof. setoid_rewrite elem_of_cons. naive_solver. Qed.

(** The globs that a pattern stands for match the host.  This is what a pattern means in general,
    also with wildcards inside a label. *)
Definition covers `{HostEnv} (p h : str) : Prop :=
  ∃ c, c ∈ expand_domain_pattern (normalize_pattern p) ∧ glob_match c h = true.

Section globs.
Context `{HostEnv}.

Lemma is_match_elem set h : is_match set h = true ↔ ∃ p, p ∈ set ∧ glob_match p h = true.
Proof.
  unfold is_match. rewrite existsb_exists. setoid_rewrite <- list_elem_of_In. done.
Qed.

Lemma add_candidates_elem candidates builder seen b s :
  (∀ c, c ∈ seen ↔ c ∈ builder) → add_candidates candidates builder seen = Ok (b, s) →
  (∀ c, c ∈ s ↔ c ∈ b) ∧ ∀ c, c ∈ b ↔ c ∈ builder ∨ c ∈ candidates.
Proof.
  revert builder seen. induction candidates as [|x l IH]; intros builder seen Heq; simpl.
  { intros [= <- <-]. set_solver. }
  case_bool_decide as Hin.
  - intros [Hs Hb]%IH; [|done]. split; [done|]. intros c. rewrite Hb, elem_of_cons.
    apply Heq in Hin. naive_solver.
  - destruct (glob_ok x); [|done]. intros [Hs Hb]%IH.
    + split; [done|]. intros c. rewrite Hb, elem_of_app, list_elem_of_singleton, elem_of_cons. naive_solver.
    + intros c. rewrite elem_of_cons, elem_of_app, list_elem_of_singleton, Heq. naive_solver.
Qed.

Lemma compile_loop_elem w patterns builder seen set :
  (∀ c, c ∈ seen ↔ c ∈ builder) → compile_loop w patterns builder seen = Ok set →
  ∀ c, c ∈ set ↔ c ∈ builder ∨ ∃ p, p ∈ patterns ∧ c ∈ expand_domain_pattern (normalize_pattern p).
Proof.
  revert builder seen. induction patterns as [|p l IH]; intros builder seen Heq; simpl.
  { intros [= <-]. set_solver. }
  destruct (add_candidates _ builder seen) as [[b s]|e] eqn:E; [|by repeat case_match].
  apply add_candidates_elem in E as [Hs Hb]; [|done]. intros Hc.
  assert (compile_loop w l b s = Ok set) as Hl by (by repeat case_match). intros c.
  rewrite (IH _ _ Hs Hl), Hb, exists_in_cons. naive_solver.
Qed.

(** What a compiled list matches: what its patterns cover. *)
Lemma compiled_covers w patterns set h :
  compile_globset_with_policy patterns w = Ok set →
  is_match set h = true ↔ ∃ p, p ∈ patterns ∧ covers p h.
Proof.
  intros Hc. rewrite is_match_elem. unfold covers.
  setoid_rewrite (compile_loop_elem _ _ _ _ _ (λ c, iff_refl _) Hc). set_solver.
Qed.
End globs.

Section compiled.
Context `{HostEnvLaws}.

Lemma add_candidates_ok candidates builder seen :
  Forall (λ c, glob_ok c = true) candidates → (∀ c, c ∈ seen ↔ c ∈ builder) →
  ∃ b s, add_candidates candidates builder seen = Ok (b, s) ∧ (∀ c, c ∈ s ↔ c ∈ b) ∧
         ∀ c, c ∈ b ↔ c ∈ builder ∨ c ∈ candidates.
Proof.
  intros Hok. revert builder seen. induction Hok as [|c l Hc Hl IH]; intros builder seen Heq; simpl.
  { exists builder, seen. split_and!; [done|done|set_solver]. }
  case_bool_decide as Hin.
  - destruct (IH builder seen Heq) as (b & s & -> & Hs & Hb). exists b, s. split_and!; [done|done|].
    intros x. rewrite Hb, elem_of_cons. apply Heq in Hin. naive_solver.
  - rewrite Hc. destruct (IH (builder ++ [c]) (c :: seen)) as (b & s & -> & Hs & Hb).
    { intros x. rewrite elem_of_cons, elem_of_app, list_elem_of_singleton, Heq. naive_solver. }
    exists b, s. split_and!; [done|done|]. intros x.
    rewrite Hb, elem_of_app, list_elem_of_singleton, (elem_of_cons l). naive_solver.
Qed.

Lemma simple_candidates_ok p :
  simple_pattern p → Forall (λ c, glob_ok c = true) (expand_domain_pattern (normalize_pattern p)).
Proof.
  unfold simple_pattern, expand_domain_pattern. intros Hs.
  destruct (pattern_parse (normalize_pattern p)) as [d|d|d]; repeat constructor; simpl.
  - destruct Hs as [Hs _]. apply (proj1 (glob_plain d Hs)).
  - destruct Hs as [Hs _]. apply (proj1 (glob_below d Hs)).
  - destruct Hs as [Hs _]. apply (proj1 (glob_below d Hs)).
  - destruct Hs as [->|[Hs _]]; [apply glob_star|apply (proj1 (glob_plain d Hs))].
Qed.

(** The globs of one pattern match the hosts it stands for. *)
Lemma candidates_match p h :
  simple_pattern p → clean_host h → covers p h ↔ listed_matches p h = true.
Proof.
  unfold covers.
  intros Hs (Hlow & Hlast & Hhead). unfold listed_matches, simple_pattern, expand_domain_pattern in *.
  assert (Hnd : ∀ d, last d ≠ Some dot → normalize_domain d = to_ascii_lowercase d).
  { intros d Hd. unfold normalize_domain. by rewrite trim_end_matches_id. }
  assert (Hh : normalize_domain h = h) by by apply normalize_domain_fixed.
  assert (Hexact : ∀ d, plain_domain d → last d ≠ Some dot → glob_match d h = true ↔ normalize_domain h = normalize_domain d).
  { intros d Hd Hl. rewrite (proj2 (glob_plain d Hd)). unfold eq_ignore_ascii_case.
    rewrite bool_decide_eq_true, Hh, Hnd, Hlow by done. naive_solver. }
  assert (Hbelow : ∀ d, plain_domain d → last d ≠ Some dot →
            glob_match (lit "?*." ++ d) h = true ↔ ∃ x, normalize_domain h = x ++ dot :: normalize_domain d).
  { intros d Hd Hl. rewrite (proj2 (glob_below d Hd)), Hh, Hnd, Hlow by done. unfold to_ascii_lowercase. split.
    - intros (x & _ & E). rewrite fmap_app in E. simpl in E. eauto.
    - intros [x E]. exists x. split; [intros ->; rewrite E in Hhead; done|]. rewrite fmap_app. simpl.
      rewrite E at 1. f_equal. rewrite E in Hlow. unfold to_ascii_lowercase in Hlow. rewrite fmap_app in Hlow.
      apply app_inj_1 in Hlow as [-> _]; [done|by rewrite length_fmap]. }
  destruct (pattern_parse (normalize_pattern p)) as [d|d|d]; simpl in *.
  - destruct Hs as [Hp Hl]. rewrite is_subdomain_or_equal_true, exists_in_cons, exists_in_one.
    by rewrite (Hexact d), (Hbelow d).
  - destruct Hs as [Hp Hl]. rewrite is_strict_subdomain_true, exists_in_one. by rewrite (Hbelow d).
  - rewrite exists_in_one, orb_true_iff, bool_decide_eq_true, domain_eq_true.
    destruct Hs as [->|[Hp Hl]].
    + split; [by left|]. intros _. apply glob_star.
    + rewrite (Hexact d) by done. split; [by right|]. intros [[= ->]|Hm]; [|done].
      apply (Hexact (lit "*")); [done|done|]. apply glob_star.
Qed.

Lemma compile_loop_meaning patterns builder seen h :
  Forall simple_pattern patterns → clean_host h → (∀ c, c ∈ seen ↔ c ∈ builder) →
  ∃ set, compile_loop AllowWildcard patterns builder seen = Ok set ∧
         (is_match set h = true ↔ is_match builder h = true ∨ ∃ p, p ∈ patterns ∧ listed_matches p h = true).
Proof.
  intros Hsim Hh. revert builder seen. induction Hsim as [|p l Hp Hl IH]; intros builder seen Heq; simpl.
  { exists builder. set_solver. }
  destruct (add_candidates_ok _ builder seen (simple_candidates_ok p Hp) Heq) as (b & s & -> & Hs & Hb).
  destruct (IH b s Hs) as (set & -> & Hset). exists set. split; [done|]. rewrite Hset.
  rewrite exists_in_cons, <- (candidates_match p h Hp Hh), !is_match_elem. unfold covers.
  setoid_rewrite Hb. naive_solver.
Qed.

(** Compiling a denylist is compiling it as an allowlist, after a check. *)
Lemma compile_denylist_loop patterns builder seen :
  existsb is_global_wildcard_domain_pattern patterns = false →
  compile_loop RejectWildcard patterns builder seen = compile_loop AllowWildcard patterns builder seen.
Proof.
  revert builder seen. induction patterns as [|p l IH]; intros builder seen; simpl; [done|].
  rewrite orb_false_iff. intros [-> Hl]. destruct (add_candidates _ _ _) as [[b s]|]; auto.
Qed.

Lemma compile_denylist_wildcard patterns builder seen :
  Forall simple_pattern patterns → (∀ c, c ∈ seen ↔ c ∈ builder) →
  existsb is_global_wildcard_domain_pattern patterns = true →
  compile_loop RejectWildcard patterns builder seen = Err UnsupportedGlobalWildcard.
Proof.
  intros Hp. revert builder seen. induction Hp as [|p l Hp Hl IH]; intros builder seen Hs; simpl; [done|].
  destruct (is_global_wildcard_domain_pattern p); [done|]. simpl. intros Hex.
  destruct (add_candidates_ok _ builder seen (simple_candidates_ok p Hp) Hs) as (b & s & -> & Hs' & _). auto.
Qed.

(** Compiled lists match exactly the hosts their patterns stand for; a denylist is refused
    exactly when it holds a global wildcard. *)
Theorem compiled_lists_match patterns h :
  Forall simple_pattern patterns → clean_host h →
  (∃ set, compile_allowlist_globset patterns = Ok set ∧
          (is_match set h = true ↔ ∃ p, p ∈ patterns ∧ listed_matches p h = true))
  ∧ (existsb is_global_wildcard_domain_pattern patterns = false →
     compile_denylist_globset patterns = compile_allowlist_globset patterns)
  ∧ (existsb is_global_wildcard_domain_pattern patterns = true →
     compile_denylist_globset patterns = Err UnsupportedGlobalWildcard).
Proof.
  intros Hp Hh. split_and!.
  - destruct (compile_loop_meaning patterns [] [] h Hp Hh) as (set & E & Hset); [done|].
    exists set. split; [exact E|]. rewrite Hset. simpl. naive_solver.
  - apply compile_denylist_loop.
  - by apply compile_denylist_wildcard.
Qed.
End compiled.

(** ** What normalised hosts look like *)

Lemma lower_app a b : to_ascii_lowercase (a ++ b) = to_ascii_lowercase a ++ to_ascii_lowercase b.
Proof. apply fmap_app. Qed.

Lemma lower_parts a b : to_ascii_lowercase (a ++ b) = a ++ b → to_ascii_lowercase a = a ∧ to_ascii_lowercase b = b.
Proof.
  rewrite lower_app. intros E. apply app_inj_1 in E; [done|]. unfold to_ascii_lowercase. by rewrite length_fmap.
Qed.

Lemma trim_end_matches_prefix x s : ∃ t, s = trim_end_matches x s ++ t.
Proof.
  enough (Ht : ∀ t, ∃ u, reverse t = reverse (trim_start_matches x t) ++ u).
  { destruct (Ht (reverse s)) as [u Hu]. rewrite reverse_involutive in Hu. by exists u. }
  induction t as [|c t [u IH]]; simpl; [by exists []|]. case_decide as E; [|by exists []; rewrite app_nil_r].
  exists (u ++ [c]). rewrite reverse_cons, app_assoc. f_equal. exact IH.
Qed.

Lemma str_last_app (a b : str) : b ≠ [] → last (a ++ b) = last b.
Proof. destruct b as [|x b] using rev_ind; [done|]. intros _. by rewrite app_assoc, !last_snoc. Qed.

Definition lower_no_dot (s : str) : Prop := to_ascii_lowercase s = s ∧ last s ≠ Some dot.

Lemma scoped_lower_no_dot d ip scope :
  d ≠ [] → lower_no_dot (ip ++ d ++ scope) → lower_no_dot (ip ++ [percent] ++ scope).
Proof.
  intros Hd [[Hip [_ Hsc]%lower_parts]%lower_parts Hl]. split.
  - rewrite !lower_app, Hip, Hsc. done.
  - destruct scope as [|c scope]; [by rewrite app_nil_r, last_snoc|].
    rewrite app_assoc, str_last_app in Hl |- * by done. done.
Qed.

Lemma normalize_ip_literal_clean h r :
  lower_no_dot h → normalize_ip_literal h = Some r → lower_no_dot r.
Proof.
  intros Hh. unfold normalize_ip_literal. destruct (parse_ip h); [by intros [= <-]|].
  assert (Hd : ∀ d x, d ≠ [] →
    ('(ip, scope) ← split_once_str d h; _ ← parse_ip ip; Some (ip ++ [percent] ++ scope)) = Some x → lower_no_dot x).
  { intros d x Hd. unfold split_once_str. destruct (find_str d h) as [i|] eqn:Ei; [|done]. simpl.
    destruct (parse_ip (take i h)); [|done]. simpl. intros [= <-]. apply (scoped_lower_no_dot d); [done|].
    by rewrite <- (find_str_split d h i Ei). }
  destruct ('(_, _) ← split_once_str (lit "%25") h; _) as [x|] eqn:E1.
  - intros [= <-]. by eapply Hd; [|exact E1].
  - intros E2. by eapply Hd; [|exact E2].
Qed.

Lemma normalize_dns_clean h : lower_no_dot (normalize_dns_host_or_ip_literal h).
Proof.
  unfold normalize_dns_host_or_ip_literal.
  assert (Ht : lower_no_dot (trim_end_matches dot (to_ascii_lowercase h))).
  { split; [|apply trim_end_matches_last]. destruct (trim_end_matches_prefix dot (to_ascii_lowercase h)) as [t E].
    pose proof (to_ascii_lowercase_idem h) as Hi. rewrite E in Hi. by apply lower_parts in Hi as [? _]. }
  destruct (normalize_ip_literal _) as [r|] eqn:E; [|done]. by eapply normalize_ip_literal_clean.
Qed.

(** A normalised host is in lower case and does not end in a dot. *)
Theorem normalize_host_clean h : lower_no_dot (normalize_host h).
Proof.
  unfold normalize_host. destruct (starts_with _ _); [destruct (find_str _ _)|]; try destruct (_ =? 1);
    apply normalize_dns_clean.
Qed.

(** ** A concrete environment *)

Module DemoHosts.

Definition below (d h : str) : bool :=
  ends_with (to_ascii_lowercase (dot :: d)) (to_ascii_lowercase h) && (S (length d) <? length h).

#[export] Instance env : HostEnv := {|
  glob_ok _ := true;
  glob_match p h :=
    if bool_decide (p = lit "*") then true
    else match strip_prefix (lit "?*.") p with
         | Some d => below d h
         | None => eq_ignore_ascii_case p h
         end;
  url_host_parse h := Some (to_ascii_lowercase h) |}.

Lemma below_true d h :
  below d h = true ↔ ∃ x, x ≠ [] ∧ to_ascii_lowercase h = to_ascii_lowercase (x ++ dot :: d).
Proof.
  unfold below. rewrite andb_true_iff, Nat.ltb_lt. unfold ends_with. rewrite bool_decide_eq_true. split.
  - intros [[y Hy%strip_suffix_Some] Hlen]. exists y. pose proof (to_ascii_lowercase_idem h) as Hi.
    rewrite Hy in Hi. apply lower_parts in Hi as [Hi _]. split; [|by rewrite lower_app, Hi].
    intros ->. apply (f_equal length) in Hy. unfold to_ascii_lowercase in Hy. rewrite app_nil_l, !length_fmap in Hy.
    simpl in Hy. lia.
  - intros (x & Hx & E). rewrite lower_app in E. split.
    + exists (to_ascii_lowercase x). by apply strip_suffix_Some.
    + apply (f_equal length) in E. unfold to_ascii_lowercase in E. rewrite length_app, !length_fmap in E.
      destruct x; [done|]. simpl in E. lia.
Qed.

#[export] Instance env_laws : HostEnvLaws env.
Proof.
  constructor.
  - intros d Hd. split; [done|]. intros h. unfold glob_match, env.
    rewrite bool_decide_false by (intros ->; by inversion Hd).
    destruct (strip_prefix _ d) as [r|] eqn:E; [|done].
    apply strip_prefix_Some in E as ->. by inversion Hd.
  - intros d Hd. split; [done|]. intros h. rewrite <- below_true. unfold glob_match, env.
    rewrite bool_decide_false by done. by rewrite (strip_prefix_app (lit "?*.") d).
  - done.
Qed.

End DemoHosts.

(** Two patterns, a host that one of them names and a host that none does. *)
Lemma compiled_lists_match_witness :
  let patterns := [lit "Example.com."; lit "*.openai.com"] in
  (∃ set, @compile_allowlist_globset DemoHosts.env patterns = Ok set ∧
          (@is_match DemoHosts.env set (lit "api.openai.com") = true ↔
           ∃ p, p ∈ patterns ∧ listed_matches p (lit "api.openai.com") = true)) ∧
  listed_matches (lit "*.openai.com") (lit "api.openai.com") = true ∧
  listed_matches (lit "*.openai.com") (lit "openai.com") = false.
Proof.
  split_and!; [|by vm_compute..].
  apply (@compiled_lists_match DemoHosts.env DemoHosts.env_laws [lit "Example.com."; lit "*.openai.com"]
           (lit "api.openai.com")).
  - assert (Hs : ∀ p d, pattern_parse (normalize_pattern p) = Exact d ∨ pattern_parse (normalize_pattern p) = SubdomainsOnly d →
              forallb glob_plain_char d = true → last d ≠ Some dot → simple_pattern p).
    { intros p d Hp Hd Hl. unfold simple_pattern, plain_domain. rewrite forallb_forall in Hd.
      assert (Forall (λ c, glob_plain_char c = true) d) by (apply Forall_forall; intros x Hx; apply Hd; by apply list_elem_of_In).
      destruct Hp as [-> | ->]; [right|]; done. }
    constructor; [apply (Hs _ (lit "example.com")); [left|..]; by vm_compute|].
    constructor; [apply (Hs _ (lit "openai.com")); [right|..]; by vm_compute|constructor].
  - split_and!; by vm_compute.
Defined.
