(* ===== verification/MitmHooks.v ===== *)
(** * Hooks on intercepted requests (network-proxy/src/mitm_hook.rs)

    When the proxy intercepts HTTPS it can strip and add headers of requests that match a hook.
    Hooks are validated with the configuration, compiled once ([compile_mitm_hooks]) and looked
    up by host for each request ([evaluate_mitm_hooks]).  The class [HookEnv] has what comes from
    the crates [globset], [http] and [url]; environment variables and files are arguments, as in
    [compile_mitm_hooks_with_resolvers]. *)

From stdpp Require Import prelude strings list gmap.
From S2P Require Import Prelude RustStr AbsolutePath HostPolicy.
Import AbsolutePath.

Class HookEnv := {
  (* [GlobBuilder::new(p).backslash_escape(true).literal_separator(b)]: does it build, and match *)
  glob_builds : bool → list N → bool;
  glob_matches : bool → list N → list N → bool;
  (* [HeaderName::from_bytes] *)
  header_name_from : list N → option (list N);
  (* [HeaderValue::from_str] succeeds *)
  header_value_ok : list N → bool;
  (* [form_urlencoded::parse] *)
  form_urlencoded_parse : list N → list (list N * list N) }.

Definition char_to_ascii_uppercase (c : char) : char :=
  if ((97 <=? c) && (c <=? 122))%N then (c - 32)%N else c.
Definition to_ascii_uppercase (s : str) : str := char_to_ascii_uppercase <$> s.

(** ** Configured hooks *)

(** The entries of the two maps are listed in the order of their keys; of a [body] only the
    presence counts, it is kept as its JSON text. *)
Record MitmHookMatchConfig := mkMatchConfig {
  cfg_methods : list (list N);
  cfg_path_prefixes : list (list N);
  cfg_query : list (list N * list (list N));
  cfg_headers : list (list N * list (list N));
  cfg_body : option (list N) }.

Record InjectedHeaderConfig := mkInjected {
  inject_name : list N;
  secret_env_var : option (list N);
  secret_file : option (list N);
  inject_prefix : option (list N) }.

Record MitmHookActionsConfig := mkActionsConfig {
  cfg_strip_request_headers : list (list N);
  cfg_inject_request_headers : list InjectedHeaderConfig }.

Record MitmHookConfig := mkHookConfig {
  cfg_host : list N;
  cfg_matcher : MitmHookMatchConfig;
  cfg_actions : MitmHookActionsConfig }.

#[global] Instance match_config_eq_dec : EqDecision MitmHookMatchConfig.
Proof. solve_decision. Defined.
#[global] Instance injected_eq_dec : EqDecision InjectedHeaderConfig.
Proof. solve_decision. Defined.
#[global] Instance actions_config_eq_dec : EqDecision MitmHookActionsConfig.
Proof. solve_decision. Defined.
#[global] Instance hook_config_eq_dec : EqDecision MitmHookConfig.
Proof. solve_decision. Defined.

(** ** Compiled hooks *)

Inductive PathMatcher := Prefix (prefix : list N) | PathGlob (pattern : list N).
Inductive ValueMatcher := ExactValue (value : list N) | ValueGlob (pattern : list N).
Record QueryConstraint := mkQuery { query_name : list N; query_values : list ValueMatcher }.
Record HeaderConstraint := mkHeader { header_name : list N; header_values : list ValueMatcher }.
Inductive SecretSource := EnvVar (name : list N) | SecretFile (path : list Component).
Record ResolvedInjectedHeader := mkResolved {
  resolved_name : list N; resolved_value : list N; resolved_source : SecretSource }.
Record MitmHookActions := mkActions {
  strip_request_headers : list (list N);
  inject_request_headers : list ResolvedInjectedHeader }.
Record MitmHookMatcher := mkMatcher {
  methods : list (list N);
  path_prefixes : list PathMatcher;
  query : list QueryConstraint;
  headers : list HeaderConstraint }.
Record MitmHook := mkHook { hook_host : list N; matcher : MitmHookMatcher; actions : MitmHookActions }.

Notation MitmHooksByHost := (gmap (list N) (list MitmHook)).

Inductive HookEvaluation :=
| NoHooksForHost
| Matched (actions : MitmHookActions)
| HookedHostNoMatch.

(** A request: its method, the path and query of its URI, and its headers by (lower-case) name,
    [None] for a value that is not visible ASCII. *)
Record Request := mkRequest {
  method : list N;
  uri_path : list N;
  uri_query : option (list N);
  request_headers : list (list N * option (list N)) }.

Inductive HookError :=
| HooksNeedMitm | EmptyHost | WildcardHost | EmptyMethod | NoMethods | EmptyPathPrefix
| NoPathPrefixes | EmptyGlob | InvalidGlobPattern (pattern : list N) | BodyReserved
| EmptyQueryKey | NoQueryValues (name : list N) | InvalidHeaderName (name : list N)
| EmptySecretEnvVar | EmptySecretFile | RelativeSecretFile | NotOneSecret
| MissingEnvVar (name : list N) | UnreadableSecret | InvalidHeaderValue.

(** [iter().map(f).collect::<Result<Vec<_>>>()]. *)
Fixpoint try_map {E A B} (f : A → result E B) (l : list A) : result E (list B) :=
  match l with
  | [] => Ok []
  | x :: l => let? y := f x in let? ys := try_map f l in Ok (y :: ys)
  end.

(** [for x in l { f(x)?; }]. *)
Fixpoint try_each {E A} (f : A → result E unit) (l : list A) : result E unit :=
  match l with
  | [] => Ok tt
  | x :: l => let? _ := f x in try_each f l
  end.

Inductive MatcherPattern := Literal (text : list N) | Glob (pattern : list N).

Definition parse_matcher_pattern (pattern : str) : result HookError MatcherPattern :=
  match strip_prefix (lit "literal:") pattern with
  | Some literal => Ok (Literal literal)
  | None =>
      match strip_prefix (lit "pattern:") pattern with
      | None => Ok (Literal pattern)
      | Some [] => Err EmptyGlob
      | Some glob_pattern => Ok (Glob glob_pattern)
      end
  end.

Definition normalize_hook_host (host : str) : result HookError (list N) :=
  let normalized := normalize_host host in
  if bool_decide (normalized = []) then Err EmptyHost
  else if contains_char star normalized then Err WildcardHost
  else Ok normalized.

Definition normalize_methods (methods : list (list N)) : result HookError (list (list N)) :=
  try_map (λ m, let normalized := to_ascii_uppercase (trim m) in
                if bool_decide (normalized = []) then Err EmptyMethod else Ok normalized) methods.

Definition normalize_query_name (name : str) : result HookError (list N) :=
  if bool_decide (name = []) then Err EmptyQueryKey else Ok name.

(** The home and current directories play no part in an absolute path. *)
Definition parse_secret_file (path : str) : result HookError (list Component) :=
  if bool_decide (trim path = []) then Err EmptySecretFile
  else if negb (is_absolute path) then Err RelativeSecretFile
  else map_err (λ _, RelativeSecretFile) (from_absolute_path None (Err []) path).

Section env.
Context `{HookEnv}.

Definition compile_glob_matcher (pattern : str) (literal_separator : bool) : result HookError (list N) :=
  if glob_builds literal_separator pattern then Ok pattern else Err (InvalidGlobPattern pattern).

Definition compile_path_matchers (path_prefixes : list (list N)) : result HookError (list PathMatcher) :=
  try_map (λ prefix,
    let? p := parse_matcher_pattern prefix in
    match p with
    | Literal prefix => if bool_decide (prefix = []) then Err EmptyPathPrefix else Ok (Prefix prefix)
    | Glob g => let? m := compile_glob_matcher g true in Ok (PathGlob m)
    end) path_prefixes.

Definition compile_value_matchers (values : list (list N)) : result HookError (list ValueMatcher) :=
  try_map (λ value,
    let? p := parse_matcher_pattern value in
    match p with
    | Literal value => Ok (ExactValue value)
    | Glob g => let? m := compile_glob_matcher g false in Ok (ValueGlob m)
    end) values.

Definition parse_header_name (name : str) : result HookError (list N) :=
  ok_or (InvalidHeaderName name) (header_name_from name).

Definition validate_query_constraints (query : list (list N * list (list N))) : result HookError unit :=
  try_each (λ '(name, values),
    let? normalized := normalize_query_name name in
    if bool_decide (normalized = []) then Err EmptyQueryKey
    else if bool_decide (values = []) then Err (NoQueryValues name)
    else let? _ := compile_value_matchers values in Ok tt) query.

Definition validate_header_constraints (headers : list (list N * list (list N))) : result HookError unit :=
  try_each (λ '(name, values),
    let? _ := parse_header_name name in
    let? _ := compile_value_matchers values in Ok tt) headers.

Definition validate_strip_request_headers (names : list (list N)) : result HookError unit :=
  try_each (λ name, let? _ := parse_header_name name in Ok tt) names.

Definition validate_injected_headers (headers : list InjectedHeaderConfig) : result HookError unit :=
  try_each (λ header,
    let? _ := parse_header_name (inject_name header) in
    match secret_env_var header, secret_file header with
    | Some v, None => if bool_decide (trim v = []) then Err EmptySecretEnvVar else Ok tt
    | None, Some f => let? _ := parse_secret_file f in Ok tt
    | _, _ => Err NotOneSecret
    end) headers.

(** One turn of the loop of [validate_mitm_hook_config]. *)
Definition validate_hook (hook : MitmHookConfig) : result HookError unit :=
  let m := cfg_matcher hook in
  let? host := normalize_hook_host (cfg_host hook) in
  let? methods := normalize_methods (cfg_methods m) in
  if bool_decide (methods = []) then Err NoMethods
  else
    let? path_prefixes := compile_path_matchers (cfg_path_prefixes m) in
    match path_prefixes, cfg_body m with
    | [], _ => Err NoPathPrefixes
    | _, Some _ => Err BodyReserved
    | _, None =>
        let? _ := validate_query_constraints (cfg_query m) in
        let? _ := validate_header_constraints (cfg_headers m) in
        let? _ := validate_strip_request_headers (cfg_strip_request_headers (cfg_actions hook)) in
        let? _ := validate_injected_headers (cfg_inject_request_headers (cfg_actions hook)) in
        if bool_decide (host = []) then Err EmptyHost else Ok tt
    end.

(** Of the configuration, [validate_mitm_hook_config] reads the hooks and the switch. *)
Definition validate_mitm_hook_config (mitm : bool) (hooks : list MitmHookConfig) : result HookError unit :=
  match hooks with
  | [] => Ok tt
  | _ => if negb mitm then Err HooksNeedMitm else try_each validate_hook hooks
  end.

Definition compile_injected_header (resolve_env_var : list N → option (list N))
    (read_secret_file : list Component → option (list N)) (header : InjectedHeaderConfig) :
    result HookError ResolvedInjectedHeader :=
  let? name := parse_header_name (inject_name header) in
  let? p :=
    match secret_env_var header, secret_file header with
    | Some v, None => let? value := ok_or (MissingEnvVar v) (resolve_env_var v) in Ok (value, EnvVar v)
    | None, Some f =>
        let? path := parse_secret_file f in
        let? value := ok_or UnreadableSecret (read_secret_file path) in Ok (value, SecretFile path)
    | _, _ => Err NotOneSecret
    end in
  let value := default [] (inject_prefix header) ++ p.1 in
  if header_value_ok value then Ok (mkResolved name value p.2) else Err InvalidHeaderValue.

(** One turn of the loop of [compile_mitm_hooks_with_resolvers]. *)
Definition compile_hook (resolve_env_var : list N → option (list N))
    (read_secret_file : list Component → option (list N)) (hook : MitmHookConfig) :
    result HookError MitmHook :=
  let m := cfg_matcher hook in
  let? host := normalize_hook_host (cfg_host hook) in
  let? methods := normalize_methods (cfg_methods m) in
  let? path_prefixes := compile_path_matchers (cfg_path_prefixes m) in
  let? query := try_map (λ '(name, values),
                  let? n := normalize_query_name name in
                  let? v := compile_value_matchers values in Ok (mkQuery n v)) (cfg_query m) in
  let? headers := try_map (λ '(name, values),
                    let? n := parse_header_name name in
                    let? v := compile_value_matchers values in Ok (mkHeader n v)) (cfg_headers m) in
  let? strip := try_map parse_header_name (cfg_strip_request_headers (cfg_actions hook)) in
  let? inject := try_map (compile_injected_header resolve_env_var read_secret_file)
                   (cfg_inject_request_headers (cfg_actions hook)) in
  Ok (mkHook host (mkMatcher methods path_prefixes query headers) (mkActions strip inject)).

(** [entry(host).or_default().push(hook)]. *)
Definition push_hook (by_host : MitmHooksByHost) (hook : MitmHook) : MitmHooksByHost :=
  <[hook_host hook := default [] (by_host !! hook_host hook) ++ [hook]]> by_host.

Fixpoint compile_hooks_loop (resolve_env_var : list N → option (list N))
    (read_secret_file : list Component → option (list N)) (hooks : list MitmHookConfig)
    (by_host : MitmHooksByHost) : result HookError MitmHooksByHost :=
  match hooks with
  | [] => Ok by_host
  | hook :: hooks =>
      let? h := compile_hook resolve_env_var read_secret_file hook in
      compile_hooks_loop resolve_env_var read_secret_file hooks (push_hook by_host h)
  end.

Definition compile_mitm_hooks_with_resolvers (mitm : bool) (hooks : list MitmHookConfig)
    (resolve_env_var : list N → option (list N)) (read_secret_file : list Component → option (list N)) :
    result HookError MitmHooksByHost :=
  let? _ := validate_mitm_hook_config mitm hooks in
  compile_hooks_loop resolve_env_var read_secret_file hooks ∅.

(** [compile_mitm_hooks]: [env] and [files] are the environment and the readable files. *)
Definition compile_mitm_hooks (env : list N → option (list N)) (files : list Component → option (list N))
    (mitm : bool) (hooks : list MitmHookConfig) : result HookError MitmHooksByHost :=
  compile_mitm_hooks_with_resolvers mitm hooks env (λ path, trim <$> files path).

(** ** Requests *)

Definition path_matcher_matches (p : PathMatcher) (candidate : str) : bool :=
  match p with
  | Prefix prefix => starts_with prefix candidate
  | PathGlob g => glob_matches true g candidate
  end.
Definition value_matcher_matches (v : ValueMatcher) (candidate : str) : bool :=
  match v with
  | ExactValue value => bool_decide (value = candidate)
  | ValueGlob g => glob_matches false g candidate
  end.

Definition path_matches (path_prefixes : list PathMatcher) (path : str) : bool :=
  existsb (λ m, path_matcher_matches m path) path_prefixes.

(** [actual_values.get(name)]: the values given to a name in the query. *)
Definition actual_values (name actual_query : str) : list (list N) :=
  snd <$> filter (λ p, fst p = name) (form_urlencoded_parse actual_query).

Definition query_matches (constraints : list QueryConstraint) (req : Request) : bool :=
  match constraints with
  | [] => true
  | _ =>
      let actual_query := default [] (uri_query req) in
      forallb (λ c, existsb (λ candidate, existsb (λ allowed, value_matcher_matches allowed candidate)
                                             (query_values c))
                      (actual_values (query_name c) actual_query)) constraints
  end.

Definition get_all (name : str) (req : Request) : list (option (list N)) :=
  snd <$> filter (λ h, fst h = name) (request_headers req).

Definition headers_match (constraints : list HeaderConstraint) (req : Request) : bool :=
  forallb (λ c,
    let actual := get_all (header_name c) req in
    if bool_decide (actual = []) then false
    else match header_values c with
         | [] => true
         | allowed_values =>
             existsb (λ value, match value with
                               | Some candidate =>
                                   existsb (λ allowed, value_matcher_matches allowed candidate) allowed_values
                               | None => false
                               end) actual
         end) constraints.

Definition hook_matches (hook : MitmHook) (req : Request) : bool :=
  let m := matcher hook in
  if negb (existsb (λ allowed, bool_decide (allowed = to_ascii_uppercase (method req))) (methods m)) then false
  else if negb (path_matches (path_prefixes m) (uri_path req)) then false
  else if negb (query_matches (query m) req) then false
  else headers_match (headers m) req.

Fixpoint first_match (hooks : list MitmHook) (req : Request) : HookEvaluation :=
  match hooks with
  | [] => HookedHostNoMatch
  | hook :: hooks => if hook_matches hook req then Matched (actions hook) else first_match hooks req
  end.

Definition evaluate_mitm_hooks (by_host : MitmHooksByHost) (host : str) (req : Request) : HookEvaluation :=
  match by_host !! normalize_host host with
  | None => NoHooksForHost
  | Some hooks => first_match hooks req
  end.

End env.

(** ** Compiled hooks act in the order of the configuration *)

Lemma try_map_Forall2 {E A B} (f : A → result E B) l ys :
  try_map f l = Ok ys ↔ Forall2 (λ x y, f x = Ok y) l ys.
Proof.
  revert ys. induction l as [|x l IH]; intros ys; simpl.
  - split; [intros [= <-]; constructor|]. by intros ->%Forall2_nil_inv_l.
  - split.
    + intros (y & Hy & (ys' & Hys & [= <-])%result_bind_ok)%result_bind_ok. constructor; [done|]. by apply IH.
    + intros (y & ys' & Hy & Hys & ->)%Forall2_cons_inv_l. rewrite Hy. simpl. apply IH in Hys as ->. done.
Qed.

Lemma try_each_Forall {E A} (f : A → result E unit) l :
  try_each f l = Ok tt ↔ Forall (λ x, f x = Ok tt) l.
Proof.
  induction l as [|x l IH]; simpl; [done|]. rewrite Forall_cons, <- IH.
  destruct (f x) as [[]|]; simpl; naive_solver.
Qed.

Section evaluation.
Context `{HookEnv} (env : list N → option (list N)) (secrets : list Component → option (list N)).

Lemma compile_hook_host c h : compile_hook env secrets c = Ok h → hook_host h = normalize_host (cfg_host c).
Proof.
  unfold compile_hook. intros (host & Hh & Hr)%result_bind_ok. unfold normalize_hook_host in Hh.
  repeat case_match; simplify_eq.
  repeat (let E := fresh in apply result_bind_ok in Hr as (? & E & Hr); clear E). by simplify_eq.
Qed.

(** The hooks of a host are those of the list with that host, in order. *)
Lemma push_hook_lookup by_host h k :
  default [] (push_hook by_host h !! k) =
  default [] (by_host !! k) ++ if decide (hook_host h = k) then [h] else [].
Proof.
  unfold push_hook. destruct (decide (hook_host h = k)) as [->|Hne].
  - by rewrite lookup_insert_eq.
  - by rewrite lookup_insert_ne, app_nil_r.
Qed.

Definition nonempty_lists (m : gmap (list N) (list MitmHook)) : Prop := ∀ k l, m !! k = Some l → l ≠ [].

Lemma push_hook_nonempty by_host h : nonempty_lists by_host → nonempty_lists (push_hook by_host h).
Proof.
  intros Hn k l. unfold push_hook. rewrite lookup_insert_Some. intros [[_ <-]|[_ Hl]]; [by destruct (default _ _)|eauto].
Qed.

Lemma compile_hooks_loop_spec cfgs by_host m :
  nonempty_lists by_host → compile_hooks_loop env secrets cfgs by_host = Ok m →
  ∃ hooks, Forall2 (λ c h, compile_hook env secrets c = Ok h) cfgs hooks ∧ nonempty_lists m ∧
    ∀ k, default [] (m !! k) = default [] (by_host !! k) ++ filter (λ h, hook_host h = k) hooks.
Proof.
  revert by_host. induction cfgs as [|c cfgs IH]; intros by_host Hn; simpl.
  { intros [= <-]. exists []. split_and!; [constructor|done|]. intros. by rewrite app_nil_r. }
  intros (h & Hh & Hr)%result_bind_ok.
  destruct (IH _ (push_hook_nonempty _ h Hn) Hr) as (hooks & Hall & Hm & Hk).
  exists (h :: hooks). split_and!; [by constructor|done|]. intros k.
  rewrite Hk, push_hook_lookup, <- app_assoc, filter_cons. by case_decide.
Qed.

Lemma first_match_Matched hooks req a :
  first_match hooks req = Matched a →
  ∃ l1 h l2, hooks = l1 ++ h :: l2 ∧ hook_matches h req = true ∧ actions h = a ∧
             Forall (λ h', hook_matches h' req = false) l1.
Proof.
  induction hooks as [|h hooks IH]; simpl; [done|]. destruct (hook_matches h req) eqn:E.
  - intros [= <-]. by exists [], h, hooks.
  - intros (l1 & h' & l2 & -> & ? & ? & ?)%IH. exists (h :: l1), h', l2. split_and!; [done..|by constructor].
Qed.

Lemma first_match_none hooks req :
  first_match hooks req = HookedHostNoMatch ↔ Forall (λ h, hook_matches h req = false) hooks.
Proof.
  induction hooks as [|h hooks IH]; simpl; [done|]. rewrite Forall_cons, <- IH.
  destruct (hook_matches h req); naive_solver.
Qed.

Lemma first_match_some hooks req : first_match hooks req ≠ NoHooksForHost.
Proof. induction hooks as [|h hooks IH]; simpl; [done|]. by destruct (hook_matches h req). Qed.

(** Splitting a filtered list at one of its elements. *)
Lemma filter_split {A} (P : A → Prop) `{∀ x, Decision (P x)} (l : list A) l1 x l2 :
  filter P l = l1 ++ x :: l2 →
  ∃ m1 m2, l = m1 ++ x :: m2 ∧ filter P m1 = l1 ∧ P x.
Proof.
  revert l1. induction l as [|y l IH]; intros l1; [by destruct l1|]. rewrite filter_cons.
  case_decide as Hy.
  - destruct l1 as [|z l1]; intros [= -> Hf]; [by exists [], l|].
    destruct (IH _ Hf) as (m1 & m2 & -> & Hm & Hx). exists (z :: m1), m2. split_and!; [done| |done].
    rewrite filter_cons, decide_True by done. by rewrite Hm.
  - intros (m1 & m2 & -> & Hm & Hx)%IH. exists (y :: m1), m2. split_and!; [done| |done].
    by rewrite filter_cons, decide_False.
Qed.

(** C27. What the compiled hooks say of a request is what the configured ones say, taken in order:
    the first hook of the host that matches acts, a host with hooks of which none matches is
    reported as such, and a host without hooks too. *)
Theorem evaluate_compiled_hooks mitm cfgs m host req :
  compile_mitm_hooks_with_resolvers mitm cfgs env secrets = Ok m →
  ∃ hooks, Forall2 (λ c h, compile_hook env secrets c = Ok h) cfgs hooks ∧
    match evaluate_mitm_hooks m host req with
    | NoHooksForHost => ∀ c, c ∈ cfgs → normalize_host (cfg_host c) ≠ normalize_host host
    | HookedHostNoMatch =>
        (∃ c, c ∈ cfgs ∧ normalize_host (cfg_host c) = normalize_host host) ∧
        ∀ h, h ∈ hooks → hook_host h = normalize_host host → hook_matches h req = false
    | Matched a =>
        ∃ before h after, hooks = before ++ h :: after ∧ hook_host h = normalize_host host ∧
          hook_matches h req = true ∧ actions h = a ∧
          ∀ h', h' ∈ before → hook_host h' = normalize_host host → hook_matches h' req = false
    end.
Proof.
  intros (_ & _ & Hl)%result_bind_ok.
  destruct (compile_hooks_loop_spec cfgs ∅ m) as (hooks & Hall & Hn & Hk); [intros ??; by rewrite lookup_empty|done|].
  exists hooks. split; [done|]. specialize (Hk (normalize_host host)). rewrite lookup_empty in Hk. simpl in Hk.
  assert (Hin : ∀ k, (∃ c, c ∈ cfgs ∧ normalize_host (cfg_host c) = k) ↔ filter (λ h, hook_host h = k) hooks ≠ []).
  { intros k. clear -Hall. induction Hall as [|c h cfgs hooks Hc Hall IH]; [set_solver|].
    rewrite filter_cons, (compile_hook_host c h Hc). case_decide; [set_solver|]. rewrite <- IH. set_solver. }
  unfold evaluate_mitm_hooks. destruct (m !! normalize_host host) as [hs|] eqn:E; simpl in Hk; subst.
  - pose proof (Hn _ _ E) as Hne. destruct (first_match _ req) as [|a|] eqn:F; [by apply first_match_some in F| |].
    + apply first_match_Matched in F as (l1 & h & l2 & Hf & Hm & Ha & Hb).
      apply filter_split in Hf as (before & after & -> & <- & Hh). exists before, h, after. split_and!; try done.
      intros h' Hh' Hk'. rewrite Forall_forall in Hb. apply Hb, list_elem_of_filter. done.
    + rewrite first_match_none, Forall_forall in F. split; [by apply Hin|].
      intros h Hh Hk. apply F, list_elem_of_filter. done.
  - intros c Hc Hk'. apply (proj1 (Hin (normalize_host host))); [eauto|done].
Qed.

End evaluation.

(** ** What validation leaves to compilation *)

(** Errors that depend on the environment variables and files of the moment. *)
Definition secret_error (e : HookError) : bool :=
  match e with MissingEnvVar _ | UnreadableSecret | InvalidHeaderValue => true | _ => false end.

Definition only_secret_errors {A} (r : result HookError A) : Prop :=
  match r with Ok _ => True | Err e => secret_error e = true end.

Lemma only_bind {A B} (r : result HookError A) (k : A → result HookError B) :
  only_secret_errors r → (∀ a, r = Ok a → only_secret_errors (k a)) → only_secret_errors (result_bind r k).
Proof. destruct r; simpl; auto. Qed.

Lemma ok_only {A} (r : result HookError A) a : r = Ok a → only_secret_errors r.
Proof. by intros ->. Qed.

Lemma try_map_only {A B} (f : A → result HookError B) l :
  Forall (λ x, only_secret_errors (f x)) l → only_secret_errors (try_map f l).
Proof.
  induction 1 as [|x l Hx Hl IH]; simpl; [done|]. apply only_bind; [done|]. intros y _.
  apply only_bind; [done|]. by intros.
Qed.

Section validation.
Context `{HookEnv} (env : list N → option (list N)) (secrets : list Component → option (list N)).

Lemma injected_only header :
  validate_injected_headers [header] = Ok tt → only_secret_errors (compile_injected_header env secrets header).
Proof.
  unfold validate_injected_headers. rewrite try_each_Forall, Forall_singleton. cbv beta.
  intros (n & Hn & Hs)%result_bind_ok. unfold compile_injected_header.
  apply only_bind; [by eapply ok_only|]. intros name _. apply only_bind.
  - destruct (secret_env_var header) as [v|], (secret_file header) as [f|]; try done.
    + by destruct (env v).
    + apply result_bind_ok in Hs as (path & Hp & _). rewrite Hp. simpl. by destruct (secrets path).
  - intros p _. by destruct (header_value_ok _).
Qed.

Lemma validate_injected_cons header l :
  validate_injected_headers l = Ok tt → header ∈ l → validate_injected_headers [header] = Ok tt.
Proof.
  unfold validate_injected_headers. rewrite !try_each_Forall, Forall_singleton, Forall_forall. auto.
Qed.

Lemma validate_query_only l :
  validate_query_constraints l = Ok tt →
  only_secret_errors (try_map (λ '(name, values),
    let? n := normalize_query_name name in
    let? v := compile_value_matchers values in Ok (mkQuery n v)) l).
Proof.
  unfold validate_query_constraints. rewrite try_each_Forall. intros Hl. apply try_map_only.
  eapply Forall_impl; [exact Hl|]. intros [name values] (n & Hn & Hv)%result_bind_ok.
  apply only_bind; [by eapply ok_only|]. intros n' _.
  do 2 (destruct (bool_decide _); [done|]). apply result_bind_ok in Hv as (v & Hv & _).
  apply only_bind; [by eapply ok_only|]. done.
Qed.

Lemma validate_headers_only l :
  validate_header_constraints l = Ok tt →
  only_secret_errors (try_map (λ '(name, values),
    let? n := parse_header_name name in
    let? v := compile_value_matchers values in Ok (mkHeader n v)) l).
Proof.
  unfold validate_header_constraints. rewrite try_each_Forall. intros Hl. apply try_map_only.
  eapply Forall_impl; [exact Hl|].
  intros [name values] (n & Hn & (v & Hv & _)%result_bind_ok)%result_bind_ok.
  apply only_bind; [by eapply ok_only|]. intros n' _. apply only_bind; [by eapply ok_only|]. done.
Qed.

Lemma compile_hook_only c : validate_hook c = Ok tt → only_secret_errors (compile_hook env secrets c).
Proof.
  unfold validate_hook. intros (host & Hh & (ms & Hm & Hr)%result_bind_ok)%result_bind_ok.
  destruct (bool_decide (ms = [])); [done|]. apply result_bind_ok in Hr as (pp & Hp & Hr).
  destruct pp as [|p pp], (cfg_body (cfg_matcher c)); try done.
  apply result_bind_ok in Hr as ([] & Hq & ([] & Hhd & ([] & Hst & ([] & Hin & _)%result_bind_ok)%result_bind_ok)%result_bind_ok).
  unfold compile_hook.
  apply only_bind; [by eapply ok_only|]; intros ? _. apply only_bind; [by eapply ok_only|]; intros ? _.
  apply only_bind; [by eapply ok_only|]; intros ? _. apply only_bind; [by apply validate_query_only|]; intros ? _.
  apply only_bind; [by apply validate_headers_only|]; intros ? _. apply only_bind; [|intros ? _; apply only_bind; [|done]].
  - apply try_map_only. unfold validate_strip_request_headers in Hst. rewrite try_each_Forall in Hst.
    eapply Forall_impl; [exact Hst|]. intros name (n & Hn & _)%result_bind_ok. by eapply ok_only.
  - apply try_map_only, Forall_forall. intros header Hd. by eapply injected_only, validate_injected_cons.
Qed.

(** Validation finds every error of a hook but those of its secrets: hooks that pass it fail to
    compile only for an environment variable that is not set, a file that cannot be read, or
    a secret that cannot be the value of a header. *)
Theorem validated_hooks_compile mitm cfgs e :
  validate_mitm_hook_config mitm cfgs = Ok tt →
  compile_mitm_hooks_with_resolvers mitm cfgs env secrets = Err e → secret_error e = true.
Proof.
  intros Hv. unfold compile_mitm_hooks_with_resolvers. rewrite Hv. simpl.
  assert (Hall : Forall (λ c, validate_hook c = Ok tt) cfgs).
  { unfold validate_mitm_hook_config in Hv. destruct cfgs; [done|]. destruct (negb mitm); [done|].
    by apply try_each_Forall. }
  generalize (∅ : gmap (list N) (list MitmHook)) as m. clear Hv.
  induction Hall as [|c cfgs Hc Hall IH]; intros m; simpl; [done|].
  pose proof (compile_hook_only c Hc) as Ho. destruct (compile_hook env secrets c); simpl; [apply IH|].
  by intros [= <-].
Qed.

End validation.

(** ** Concrete hooks *)

Module DemoHooks.

#[export] Instance env : HookEnv := {|
  glob_builds _ _ := true;
  glob_matches _ p s := bool_decide (p = s);
  header_name_from n := if bool_decide (n = []) then None else Some (to_ascii_lowercase n);
  header_value_ok _ := true;
  form_urlencoded_parse q :=
    (λ p, default (p, []) (split_once 61%N p)) <$> split_on 38%N q |}.

Definition github_hook : MitmHookConfig :=
  mkHookConfig (lit "API.github.com")
    (mkMatchConfig [lit "post"; lit "PUT"] [lit "/repos/openai/"] [(lit "per_page", [lit "10"])] [] None)
    (mkActionsConfig [lit "authorization"]
       [mkInjected (lit "Authorization") (Some (lit "GITHUB_TOKEN")) None (Some (lit "Bearer "))]).

Definition token (name : list N) : option (list N) :=
  if bool_decide (name = lit "GITHUB_TOKEN") then Some (lit "secret") else None.

Definition post (path : list N) : Request := mkRequest (lit "POST") path (Some (lit "q=x&per_page=10")) [].

Definition github_actions : MitmHookActions :=
  mkActions [lit "authorization"]
    [mkResolved (lit "authorization") (lit "Bearer secret") (EnvVar (lit "GITHUB_TOKEN"))].

Definition compiled : MitmHooksByHost :=
  default ∅ (result_ok (compile_mitm_hooks_with_resolvers true [github_hook] token (λ _, None))).

Lemma evaluate_compiled_hooks_witness :
  evaluate_mitm_hooks compiled (lit "api.github.com.") (post (lit "/repos/openai/codex")) = Matched github_actions ∧
  evaluate_mitm_hooks compiled (lit "api.github.com") (post (lit "/user")) = HookedHostNoMatch ∧
  evaluate_mitm_hooks compiled (lit "github.com") (post (lit "/")) = NoHooksForHost ∧
  normalize_host (cfg_host github_hook) ≠ normalize_host (lit "github.com").
Proof.
  split_and!; [by vm_compute..|].
  assert (Hc : compile_mitm_hooks_with_resolvers true [github_hook] token (λ _, None) = Ok compiled) by by vm_compute.
  destruct (evaluate_compiled_hooks token (λ _, None) true [github_hook] compiled (lit "github.com")
              (post (lit "/")) Hc) as (hooks & _ & Hno).
  assert (E : evaluate_mitm_hooks compiled (lit "github.com") (post (lit "/")) = NoHooksForHost) by by vm_compute.
  rewrite E in Hno. apply Hno. set_solver.
Defined.

Lemma validated_hooks_compile_witness :
  validate_mitm_hook_config true [github_hook] = Ok tt ∧
  compile_mitm_hooks_with_resolvers true [github_hook] (λ _, None) (λ _, None)
  = Err (MissingEnvVar (lit "GITHUB_TOKEN")) ∧
  secret_error (MissingEnvVar (lit "GITHUB_TOKEN")) = true.
Proof.
  split_and!; [by vm_compute..|].
  apply (validated_hooks_compile (λ _, None) (λ _, None) true [github_hook]); by vm_compute.
Defined.

End DemoHooks.
