(* ===== verification/NetworkConfig.v ===== *)
(** * The network configuration (network-proxy/src/config.rs, network-proxy/src/state.rs)

    The domain rules of a configuration, how duplicate rules are combined, how a rule is put in
    ([upsert_domain_permission], [set_domain_entries]), and [validate_policy_against_constraints],
    which holds the user's configuration against the one an administrator manages.  Of the
    validation errors the name of the field is kept, not the text. *)

From stdpp Require Import prelude strings list gmap.
From S2P Require Import Prelude RustStr HostPolicy MitmHooks.

(** ** Domain permissions *)

Inductive NetworkDomainPermission := PermNone | PermAllow | PermDeny.

#[global] Instance domain_permission_eq_dec : EqDecision NetworkDomainPermission.
Proof. solve_decision. Defined.

(** The derived order: [None < Allow < Deny]. *)
Definition perm_rank (p : NetworkDomainPermission) : nat :=
  match p with PermNone => 0 | PermAllow => 1 | PermDeny => 2 end.

Record NetworkDomainPermissionEntry := mkEntry {
  entry_pattern : list N;
  entry_permission : NetworkDomainPermission }.

#[global] Instance entry_eq_dec : EqDecision NetworkDomainPermissionEntry.
Proof. solve_decision. Defined.

(** [effective_entries]: the patterns in the order they are met first, with the strictest
    permission given to each. *)
Fixpoint collect_effective (entries : list NetworkDomainPermissionEntry) (order : list (list N))
    (effective : gmap (list N) NetworkDomainPermission) :
    list (list N) * gmap (list N) NetworkDomainPermission :=
  match entries with
  | [] => (order, effective)
  | entry :: entries =>
      let order' := match effective !! entry_pattern entry with
                    | None => order ++ [entry_pattern entry]
                    | Some _ => order
                    end in
      let permission := default (entry_permission entry) (effective !! entry_pattern entry) in
      let permission' := if perm_rank permission <? perm_rank (entry_permission entry)
                         then entry_permission entry else permission in
      collect_effective entries order' (<[entry_pattern entry := permission']> effective)
  end.

Fixpoint drain_order (order : list (list N)) (effective : gmap (list N) NetworkDomainPermission) :
    list NetworkDomainPermissionEntry :=
  match order with
  | [] => []
  | pattern :: order =>
      match effective !! pattern with
      | Some permission => mkEntry pattern permission :: drain_order order (delete pattern effective)
      | None => drain_order order effective
      end
  end.

Definition effective_entries (entries : list NetworkDomainPermissionEntry) :
    list NetworkDomainPermissionEntry :=
  let '(order, effective) := collect_effective entries [] ∅ in drain_order order effective.

(** ** The configuration *)

Inductive NetworkMode := Limited | Full.
#[global] Instance network_mode_eq_dec : EqDecision NetworkMode.
Proof. solve_decision. Defined.

Definition allows_method (m : NetworkMode) (method : list N) : bool :=
  match m with
  | Full => true
  | Limited => bool_decide (method = lit "GET") || bool_decide (method = lit "HEAD")
               || bool_decide (method = lit "OPTIONS")
  end.

Inductive NetworkUnixSocketPermission := SocketAllow | SocketDeny.
#[global] Instance socket_permission_eq_dec : EqDecision NetworkUnixSocketPermission.
Proof. solve_decision. Defined.

Record NetworkProxyConfig := mkConfig {
  enabled : bool;
  proxy_url : list N;
  enable_socks5 : bool;
  socks_url : list N;
  enable_socks5_udp : bool;
  allow_upstream_proxy : bool;
  dangerously_allow_non_loopback_proxy : bool;
  dangerously_allow_all_unix_sockets : bool;
  mode : NetworkMode;
  domains : option (list NetworkDomainPermissionEntry);
  unix_sockets : option (list (list N * NetworkUnixSocketPermission));
  allow_local_binding : bool;
  mitm : bool;
  credential_broker : bool;
  dangerously_allow_plaintext_credential_injection : bool;
  mitm_hooks : list MitmHookConfig }.

#[global] Instance config_eq_dec : EqDecision NetworkProxyConfig.
Proof. solve_decision. Defined.

Definition default_config : NetworkProxyConfig := {|
  enabled := false; proxy_url := lit "http://127.0.0.1:3128"; enable_socks5 := true;
  socks_url := lit "http://127.0.0.1:8081"; enable_socks5_udp := true; allow_upstream_proxy := true;
  dangerously_allow_non_loopback_proxy := false; dangerously_allow_all_unix_sockets := false;
  mode := Full; domains := None; unix_sockets := None; allow_local_binding := false; mitm := false;
  credential_broker := false; dangerously_allow_plaintext_credential_injection := false;
  mitm_hooks := [] |}.

(** [..c] with other rules for domains and sockets, another mode, other switches. *)
Definition set_domains (d : option (list NetworkDomainPermissionEntry)) (c : NetworkProxyConfig) :
    NetworkProxyConfig :=
  mkConfig (enabled c) (proxy_url c) (enable_socks5 c) (socks_url c) (enable_socks5_udp c)
    (allow_upstream_proxy c) (dangerously_allow_non_loopback_proxy c)
    (dangerously_allow_all_unix_sockets c) (mode c) d (unix_sockets c) (allow_local_binding c)
    (mitm c) (credential_broker c) (dangerously_allow_plaintext_credential_injection c) (mitm_hooks c).

Definition set_unix_sockets (u : option (list (list N * NetworkUnixSocketPermission)))
    (c : NetworkProxyConfig) : NetworkProxyConfig :=
  mkConfig (enabled c) (proxy_url c) (enable_socks5 c) (socks_url c) (enable_socks5_udp c)
    (allow_upstream_proxy c) (dangerously_allow_non_loopback_proxy c)
    (dangerously_allow_all_unix_sockets c) (mode c) (domains c) u (allow_local_binding c)
    (mitm c) (credential_broker c) (dangerously_allow_plaintext_credential_injection c) (mitm_hooks c).

Definition set_mode (m : NetworkMode) (c : NetworkProxyConfig) : NetworkProxyConfig :=
  mkConfig (enabled c) (proxy_url c) (enable_socks5 c) (socks_url c) (enable_socks5_udp c)
    (allow_upstream_proxy c) (dangerously_allow_non_loopback_proxy c)
    (dangerously_allow_all_unix_sockets c) m (domains c) (unix_sockets c) (allow_local_binding c)
    (mitm c) (credential_broker c) (dangerously_allow_plaintext_credential_injection c) (mitm_hooks c).

Definition set_credential_broker_enabled (b : bool) (c : NetworkProxyConfig) : NetworkProxyConfig :=
  mkConfig (enabled c) (proxy_url c) (enable_socks5 c) (socks_url c) (enable_socks5_udp c)
    (allow_upstream_proxy c) (dangerously_allow_non_loopback_proxy c)
    (dangerously_allow_all_unix_sockets c) (mode c) (domains c) (unix_sockets c) (allow_local_binding c)
    (mitm c || b) b (dangerously_allow_plaintext_credential_injection c) (mitm_hooks c).

Definition domain_entries (permission : NetworkDomainPermission) (c : NetworkProxyConfig) :
    option (list (list N)) :=
  match domains c with
  | None => None
  | Some entries =>
      let patterns := entry_pattern <$>
        filter (λ e, entry_permission e = permission) (effective_entries entries) in
      if bool_decide (patterns = []) then None else Some patterns
  end.

Definition allowed_domains (c : NetworkProxyConfig) : option (list (list N)) :=
  domain_entries PermAllow c.
Definition denied_domains (c : NetworkProxyConfig) : option (list (list N)) :=
  domain_entries PermDeny c.

Definition allow_unix_sockets (c : NetworkProxyConfig) : list (list N) :=
  match unix_sockets c with
  | None => []
  | Some entries => fst <$> filter (λ e, snd e = SocketAllow) entries
  end.

(** [(!entries.is_empty()).then_some(entries)]. *)
Definition non_empty {A} (l : list A) : option (list A) :=
  match l with [] => None | _ => Some l end.

Definition upsert_domain_permission (host : list N) (permission : NetworkDomainPermission)
    (normalize : list N → list N) (c : NetworkProxyConfig) : NetworkProxyConfig :=
  let entries := default [] (domains c) in
  let normalized_host := normalize host in
  let kept := filter (λ e, normalize (entry_pattern e) ≠ normalized_host) entries in
  set_domains (non_empty (kept ++ [mkEntry host permission])) c.

Fixpoint push_missing (new : list (list N)) (permission : NetworkDomainPermission)
    (entries : list NetworkDomainPermissionEntry) : list NetworkDomainPermissionEntry :=
  match new with
  | [] => entries
  | pattern :: new =>
      push_missing new permission
        (if bool_decide (mkEntry pattern permission ∈ entries) then entries
         else entries ++ [mkEntry pattern permission])
  end.

Definition set_domain_entries (new : list (list N)) (permission : NetworkDomainPermission)
    (c : NetworkProxyConfig) : NetworkProxyConfig :=
  let kept := filter (λ e, entry_permission e ≠ permission) (default [] (domains c)) in
  set_domains (non_empty (push_missing new permission kept)) c.

Definition set_allowed_domains (new : list (list N)) : NetworkProxyConfig → NetworkProxyConfig :=
  set_domain_entries new PermAllow.
Definition set_denied_domains (new : list (list N)) : NetworkProxyConfig → NetworkProxyConfig :=
  set_domain_entries new PermDeny.

(** [BTreeMap::insert], on the list of the entries in the order of their keys. *)
Fixpoint sockets_insert (path : str) (permission : NetworkUnixSocketPermission)
    (entries : list (list N * NetworkUnixSocketPermission)) : list (list N * NetworkUnixSocketPermission) :=
  match entries with
  | [] => [(path, permission)]
  | (k, p) :: rest =>
      match str_compare path k with
      | Lt => (path, permission) :: entries
      | Eq => (k, permission) :: rest
      | Gt => (k, p) :: sockets_insert path permission rest
      end
  end.

Definition set_unix_socket_entries (new : list (list N)) (permission : NetworkUnixSocketPermission)
    (c : NetworkProxyConfig) : NetworkProxyConfig :=
  let kept := filter (λ e, snd e ≠ permission) (default [] (unix_sockets c)) in
  set_unix_sockets (non_empty (foldl (λ m path, sockets_insert path permission m) kept new)) c.
Definition set_allow_unix_sockets (new : list (list N)) : NetworkProxyConfig → NetworkProxyConfig :=
  set_unix_socket_entries new SocketAllow.

(** ** Constraints *)

Record NetworkProxyConstraints := mkConstraints {
  c_enabled : option bool;
  c_mode : option NetworkMode;
  c_allow_upstream_proxy : option bool;
  c_dangerously_allow_non_loopback_proxy : option bool;
  c_dangerously_allow_all_unix_sockets : option bool;
  c_allowed_domains : option (list (list N));
  c_allowlist_expansion_enabled : option bool;
  c_denied_domains : option (list (list N));
  c_denylist_expansion_enabled : option bool;
  c_allow_unix_sockets : option (list (list N));
  c_allow_local_binding : option bool }.

#[global] Instance constraints_eq_dec : EqDecision NetworkProxyConstraints.
Proof. solve_decision. Defined.

(** [NetworkProxyConstraintError::InvalidValue], by the name of its field. *)
Inductive ConstraintError := InvalidValue (field_name : list N).

Definition network_mode_rank (m : NetworkMode) : nat := match m with Limited => 0 | Full => 1 end.

Definition validate_non_global_wildcard_domain_patterns (field_name : list N)
    (patterns : list (list N)) : result ConstraintError unit :=
  if existsb is_global_wildcard_domain_pattern patterns then Err (InvalidValue field_name) else Ok tt.

(** [validate(candidate, |c| if bad { Err(..) } else { Ok(()) })]. *)
Definition reject_if (bad : bool) (field_name : list N) : result ConstraintError unit :=
  if bad then Err (InvalidValue field_name) else Ok tt.

Definition lower_set (l : list (list N)) : list (list N) := to_ascii_lowercase <$> l.
Definition same_set (a b : list (list N)) : bool :=
  forallb (λ x, bool_decide (x ∈ b)) a && forallb (λ x, bool_decide (x ∈ a)) b.

Section validate.
Context `{HostEnv} `{HookEnv}.

(** The check of the allowed domains against the managed ones. *)
Definition validate_allowed (managed : list (list N)) (expansion : option bool)
    (candidate denied : list (list N)) : result ConstraintError unit :=
  let field := lit "network.allowed_domains" in
  let? _ := validate_non_global_wildcard_domain_patterns field managed in
  let overrides := lower_set denied in
  let required := lower_set managed in
  match expansion with
  | Some true =>
      reject_if (existsb (λ e, negb (bool_decide (e ∈ lower_set candidate))
                               && negb (bool_decide (e ∈ overrides))) required) field
  | Some false =>
      reject_if (negb (same_set (lower_set candidate) (filter (λ e, e ∉ overrides) required))) field
  | None =>
      let managed_patterns := parse_for_constraints <$> managed in
      reject_if (existsb (λ e, negb (existsb (λ m, allows m (parse_for_constraints e)) managed_patterns))
                   candidate) field
  end.

Definition validate_denied (managed : list (list N)) (expansion : option bool)
    (candidate : list (list N)) : result ConstraintError unit :=
  let field := lit "network.denied_domains" in
  let? _ := validate_non_global_wildcard_domain_patterns field managed in
  let required := lower_set managed in
  match expansion with
  | Some false => reject_if (negb (same_set (lower_set candidate) required)) field
  | Some true | None =>
      reject_if (existsb (λ e, negb (bool_decide (e ∈ lower_set candidate))) required) field
  end.

Definition validate_policy_against_constraints (config : NetworkProxyConfig)
    (constraints : NetworkProxyConstraints) : result ConstraintError unit :=
  let config_allowed_domains := default [] (allowed_domains config) in
  let config_denied_domains := default [] (denied_domains config) in
  let? _ := map_err (λ _, InvalidValue (lit "network.mitm_hooks"))
              (validate_mitm_hook_config (mitm config) (mitm_hooks config)) in
  let? _ := validate_non_global_wildcard_domain_patterns (lit "network.denied_domains")
              config_denied_domains in
  let? _ := match c_enabled constraints with
            | Some max_enabled => reject_if (enabled config && negb max_enabled) (lit "network.enabled")
            | None => Ok tt
            end in
  let? _ := match c_mode constraints with
            | Some max_mode =>
                reject_if (network_mode_rank max_mode <? network_mode_rank (mode config)) (lit "network.mode")
            | None => Ok tt
            end in
  let? _ := match c_allow_upstream_proxy constraints with
            | Some true | None => Ok tt
            | Some false => reject_if (allow_upstream_proxy config) (lit "network.allow_upstream_proxy")
            end in
  let? _ := match c_dangerously_allow_non_loopback_proxy constraints with
            | Some true | None => Ok tt
            | Some false =>
                reject_if (dangerously_allow_non_loopback_proxy config)
                  (lit "network.dangerously_allow_non_loopback_proxy")
            end in
  let allow_all_unix_sockets :=
    default (match c_allow_unix_sockets constraints with None => true | Some _ => false end)
      (c_dangerously_allow_all_unix_sockets constraints) in
  let? _ := reject_if (dangerously_allow_all_unix_sockets config && negb allow_all_unix_sockets)
              (lit "network.dangerously_allow_all_unix_sockets") in
  let? _ := match c_allow_local_binding constraints with
            | Some b => reject_if (allow_local_binding config && negb b) (lit "network.allow_local_binding")
            | None => Ok tt
            end in
  let? _ := match c_allowed_domains constraints with
            | Some managed =>
                validate_allowed managed (c_allowlist_expansion_enabled constraints)
                  config_allowed_domains config_denied_domains
            | None => Ok tt
            end in
  let? _ := match c_denied_domains constraints with
            | Some managed =>
                validate_denied managed (c_denylist_expansion_enabled constraints) config_denied_domains
            | None => Ok tt
            end in
  match c_allow_unix_sockets constraints with
  | Some managed =>
      reject_if (existsb (λ e, negb (bool_decide (to_ascii_lowercase e ∈ lower_set managed)))
                   (allow_unix_sockets config)) (lit "network.allow_unix_sockets")
  | None => Ok tt
  end.

End validate.

(** ** Effective entries *)

(** [q] is the strictest permission given to [p]. *)
Definition strictest (entries : list NetworkDomainPermissionEntry) (p : list N)
    (q : NetworkDomainPermission) : Prop :=
  mkEntry p q ∈ entries ∧ ∀ q', mkEntry p q' ∈ entries → perm_rank q' ≤ perm_rank q.

Lemma perm_rank_inj q q' : perm_rank q = perm_rank q' → q = q'.
Proof. by destruct q, q'. Qed.

Record collected (done : list NetworkDomainPermissionEntry) (order : list (list N))
    (effective : gmap (list N) NetworkDomainPermission) : Prop := {
  col_strictest p q : effective !! p = Some q ↔ strictest done p q;
  col_nodup : NoDup order;
  col_order p : p ∈ order ↔ is_Some (effective !! p) }.

Lemma strictest_exists done p q : mkEntry p q ∈ done → ∃ q', strictest done p q'.
Proof.
  intros Hq. unfold strictest.
  destruct (decide (mkEntry p PermDeny ∈ done)) as [Hd|Hd]; [exists PermDeny; split; [done|]; intros []; simpl; lia|].
  destruct (decide (mkEntry p PermAllow ∈ done)) as [Ha|Ha].
  - exists PermAllow. split; [done|]. intros [] Hin; simpl; try lia. done.
  - destruct q; try done. exists PermNone. split; [done|]. intros [] Hin; simpl; try lia; done.
Qed.

Lemma strictest_unique done p q q' : strictest done p q → strictest done p q' → q = q'.
Proof. intros [H1 H2] [H3 H4]. apply perm_rank_inj. specialize (H2 _ H3). specialize (H4 _ H1). lia. Qed.

Lemma elem_of_snoc_entry done p q0 p' q :
  mkEntry p' q ∈ done ++ [mkEntry p q0] ↔ mkEntry p' q ∈ done ∨ p' = p ∧ q = q0.
Proof. rewrite elem_of_app, list_elem_of_singleton. naive_solver. Qed.

Lemma strictest_other done p q0 p' q :
  p' ≠ p → strictest (done ++ [mkEntry p q0]) p' q ↔ strictest done p' q.
Proof. intros Hne. unfold strictest. setoid_rewrite elem_of_snoc_entry. naive_solver. Qed.

Lemma collected_step done order eff p q0 :
  collected done order eff →
  collected (done ++ [mkEntry p q0])
    (match eff !! p with None => order ++ [p] | Some _ => order end)
    (<[p := if perm_rank (default q0 (eff !! p)) <? perm_rank q0 then q0 else default q0 (eff !! p)]> eff).
Proof.
  intros [Hs Hn Ho].
  assert (Hnew : strictest (done ++ [mkEntry p q0]) p
                   (if perm_rank (default q0 (eff !! p)) <? perm_rank q0 then q0 else default q0 (eff !! p))).
  { unfold strictest. setoid_rewrite elem_of_snoc_entry. destruct (eff !! p) as [q1|] eqn:E; simpl.
    - apply Hs in E as [E1 E2]. destruct (Nat.ltb_spec (perm_rank q1) (perm_rank q0)).
      + split; [by right|]. intros q' [Hq%E2|[_ ->]]; lia.
      + split; [by left|]. intros q' [Hq%E2|[_ ->]]; lia.
    - rewrite Nat.ltb_irrefl. split; [by right|]. intros q' [Hq|[_ ->]]; [|done].
      destruct (strictest_exists _ _ _ Hq) as [q2 Hq2%Hs]. congruence. }
  constructor.
  - intros p' q. destruct (decide (p' = p)) as [->|Hne].
    + rewrite lookup_insert_eq. split; [by intros [= <-]|]. intros Hq. f_equal. by eapply strictest_unique.
    + rewrite lookup_insert_ne, strictest_other by done. apply Hs.
  - destruct (eff !! p) eqn:E; [done|]. apply NoDup_app. split_and!; [done| |repeat constructor; set_solver].
    intros x Hx ->%list_elem_of_singleton. apply Ho in Hx as [? ?]. congruence.
  - intros p'. destruct (decide (p' = p)) as [->|Hne].
    + rewrite lookup_insert_eq. split; [by eexists|]. intros _.
      destruct (eff !! p) eqn:E; [apply Ho; by eexists|set_solver].
    + rewrite lookup_insert_ne by done. rewrite <- Ho. destruct (eff !! p); set_solver.
Qed.

Lemma collect_effective_spec entries done order eff :
  collected done order eff →
  let '(order', eff') := collect_effective entries order eff in collected (done ++ entries) order' eff'.
Proof.
  revert done order eff. induction entries as [|[p q] entries IH]; intros done order eff Hc; simpl.
  - by rewrite app_nil_r.
  - specialize (IH _ _ _ (collected_step _ _ _ p q Hc)). by rewrite <- app_assoc in IH.
Qed.

Lemma drain_order_spec order eff :
  NoDup order → (∀ p, p ∈ order → is_Some (eff !! p)) →
  entry_pattern <$> drain_order order eff = order ∧
  ∀ p q, mkEntry p q ∈ drain_order order eff ↔ p ∈ order ∧ eff !! p = Some q.
Proof.
  intros Hn. revert eff. induction Hn as [|p order Hp Hn IH]; intros eff Hall; simpl; [set_solver|].
  destruct (Hall p) as [q Hq]; [by left|]. rewrite Hq.
  destruct (IH (delete p eff)) as [E1 E2].
  { intros p' Hp'. rewrite lookup_delete_ne by (intros ->; done). apply Hall. by right. }
  split; [by rewrite fmap_cons, E1|]. intros p' q'. rewrite !elem_of_cons, E2. split.
  - intros [[= -> ->]|[Hin Hl]]; [by auto|]. rewrite lookup_delete_ne in Hl by (intros ->; done). auto.
  - intros [[->|Hin] Hl]; [left; congruence|]. right. split; [done|].
    by rewrite lookup_delete_ne by (intros ->; done).
Qed.

(** Each pattern appears once among the effective entries, with the strictest permission any
    entry gives it. *)
Lemma effective_entries_spec entries :
  NoDup (entry_pattern <$> effective_entries entries) ∧
  ∀ p q, mkEntry p q ∈ effective_entries entries ↔ strictest entries p q.
Proof.
  unfold effective_entries.
  pose proof (collect_effective_spec entries [] [] ∅) as Hc.
  destruct (collect_effective entries [] ∅) as [order eff].
  destruct Hc as [Hs Hn Ho].
  { constructor; [|apply NoDup_nil_2|intros p; rewrite lookup_empty, elem_of_nil; split; [done|by intros []]]. intros p q. rewrite lookup_empty. split; [done|].
    by intros [?%elem_of_nil _]. }
  destruct (drain_order_spec order eff Hn) as [E1 E2]; [intros p; apply Ho|].
  rewrite E1. split; [done|]. intros p q. rewrite E2, Hs. simpl. split; [naive_solver|].
  intros Hq. split; [|done]. apply Ho. exists q. by apply Hs.
Qed.

Lemma elem_of_domain_entries c permission p :
  p ∈ default [] (domain_entries permission c) ↔ strictest (default [] (domains c)) p permission.
Proof.
  unfold domain_entries. destruct (domains c) as [entries|]; simpl; [|unfold strictest; set_solver].
  destruct (effective_entries_spec entries) as [_ He].
  transitivity (p ∈ entry_pattern <$> filter (λ e, entry_permission e = permission) (effective_entries entries)).
  { case_bool_decide as E; [by rewrite E|done]. }
  rewrite list_elem_of_fmap. split.
  - intros ([p' q] & -> & [Hq Hin]%list_elem_of_filter). simpl in *. subst. by apply He.
  - intros Hs. exists (mkEntry p permission). split; [done|]. apply list_elem_of_filter. split; [done|]. by apply He.
Qed.

(** ** Putting a rule in *)

Lemma upsert_domains host permission normalize c :
  default [] (domains (upsert_domain_permission host permission normalize c)) =
  filter (λ e, normalize (entry_pattern e) ≠ normalize host) (default [] (domains c)) ++ [mkEntry host permission].
Proof. unfold upsert_domain_permission. simpl. by destruct (filter _ _). Qed.

(** After a rule was put in for a host, no other rule for the same normalised host is left, and
    the rules for other hosts are what they were. *)
Lemma upsert_strictest host permission c p q :
  strictest (default [] (domains (upsert_domain_permission host permission normalize_host c))) p q ↔
  if decide (normalize_host p = normalize_host host) then p = host ∧ q = permission
  else strictest (default [] (domains c)) p q.
Proof.
  rewrite upsert_domains. unfold strictest. setoid_rewrite elem_of_snoc_entry.
  setoid_rewrite list_elem_of_filter. simpl. case_decide as E.
  - split; [naive_solver|]. intros [-> ->]. naive_solver lia.
  - naive_solver.
Qed.

(** ** Configurations within their constraints *)

Lemma reject_if_ok b f : reject_if b f = Ok tt → b = false.
Proof. by destruct b. Qed.

Lemma existsb_false {A} (f : A → bool) l : existsb f l = false ↔ ∀ x, x ∈ l → f x = false.
Proof.
  induction l as [|y l IH]; simpl; [set_solver|]. rewrite orb_false_iff, IH. set_solver.
Qed.

Lemma same_set_spec a b : same_set a b = true ↔ ∀ x, x ∈ a ↔ x ∈ b.
Proof.
  unfold same_set. rewrite andb_true_iff, !forallb_forall. setoid_rewrite <- list_elem_of_In.
  setoid_rewrite bool_decide_eq_true. naive_solver.
Qed.

Lemma validate_denied_ok managed expansion candidate e :
  validate_denied managed expansion candidate = Ok tt → e ∈ managed → to_ascii_lowercase e ∈ lower_set candidate.
Proof.
  intros (? & _ & Hv)%result_bind_ok He.
  assert (Hl : to_ascii_lowercase e ∈ lower_set managed) by by apply list_elem_of_fmap_2.
  destruct expansion as [[]|]; apply reject_if_ok in Hv.
  - rewrite existsb_false in Hv. specialize (Hv _ Hl). by case_bool_decide.
  - apply negb_false_iff, same_set_spec with (x := to_ascii_lowercase e) in Hv. by apply Hv.
  - rewrite existsb_false in Hv. specialize (Hv _ Hl). by case_bool_decide.
Qed.

Lemma validate_allowed_subset `{HostEnv} managed candidate denied e :
  validate_allowed managed None candidate denied = Ok tt → e ∈ candidate →
  ∃ m, m ∈ managed ∧ allows (parse_for_constraints m) (parse_for_constraints e) = true.
Proof.
  intros (? & _ & Hv)%result_bind_ok He. apply reject_if_ok in Hv. rewrite existsb_false in Hv.
  specialize (Hv _ He). apply negb_false_iff, existsb_exists in Hv as (m' & Hm' & Ha).
  apply list_elem_of_In, list_elem_of_fmap in Hm' as (m & -> & Hm). eauto.
Qed.

Lemma validate_allowed_fixed `{HostEnv} managed candidate denied :
  validate_allowed managed (Some false) candidate denied = Ok tt →
  ∀ e, e ∈ lower_set candidate ↔ e ∈ lower_set managed ∧ e ∉ lower_set denied.
Proof.
  intros (? & _ & Hv)%result_bind_ok e. apply reject_if_ok, negb_false_iff in Hv.
  rewrite (proj1 (same_set_spec _ _) Hv), list_elem_of_filter. naive_solver.
Qed.

Lemma validate_allowed_expanded `{HostEnv} managed candidate denied e :
  validate_allowed managed (Some true) candidate denied = Ok tt → e ∈ lower_set managed →
  e ∈ lower_set candidate ∨ e ∈ lower_set denied.
Proof.
  intros (? & _ & Hv)%result_bind_ok He. apply reject_if_ok in Hv. rewrite existsb_false in Hv.
  specialize (Hv _ He).
  destruct (decide (e ∈ lower_set candidate)), (decide (e ∈ lower_set denied)); auto.
  by rewrite !bool_decide_false in Hv by done.
Qed.

(** A configuration that passes the validation stays within the managed constraints: switches
    that are managed off are off, the mode is at most the managed one, every managed denial is
    in place, and every host a domain rule of the configuration allows is allowed by a managed
    rule; with a fixed list, the rules are the managed ones less the denials. *)
Theorem validated_config_within_constraints `{HostEnv} `{HookEnv} c k :
  validate_policy_against_constraints c k = Ok tt →
  (c_enabled k = Some false → enabled c = false)
  ∧ (c_mode k = Some Limited → mode c = Limited)
  ∧ (c_allow_local_binding k = Some false → allow_local_binding c = false)
  ∧ (∀ managed e, c_denied_domains k = Some managed → e ∈ managed →
       to_ascii_lowercase e ∈ lower_set (default [] (denied_domains c)))
  ∧ (∀ managed e, c_allowed_domains k = Some managed → c_allowlist_expansion_enabled k = None →
       e ∈ default [] (allowed_domains c) →
       ∃ m, m ∈ managed ∧ ∀ h, pattern_matches (parse_for_constraints e) h = true →
                               pattern_matches (parse_for_constraints m) h = true)
  ∧ (∀ managed, c_allowed_domains k = Some managed → c_allowlist_expansion_enabled k = Some false →
       ∀ e, e ∈ lower_set (default [] (allowed_domains c)) ↔
            e ∈ lower_set managed ∧ e ∉ lower_set (default [] (denied_domains c))).
Proof.
  unfold validate_policy_against_constraints.
  intros (? & _ & (? & _ & (? & Hen & (? & Hmode & (? & _ & (? & _ & (? & _ & (? & Hlocal & (? & Hallow &
    (? & Hdeny & _)%result_bind_ok)%result_bind_ok)%result_bind_ok)%result_bind_ok)%result_bind_ok)%result_bind_ok
    )%result_bind_ok)%result_bind_ok)%result_bind_ok)%result_bind_ok.
  repeat match goal with u : unit |- _ => destruct u end.
  split_and!.
  - intros Ek. rewrite Ek in Hen. apply reject_if_ok in Hen. by destruct (enabled c).
  - intros Ek. rewrite Ek in Hmode. apply reject_if_ok in Hmode. by destruct (mode c).
  - intros Ek. rewrite Ek in Hlocal. apply reject_if_ok in Hlocal. by destruct (allow_local_binding c).
  - intros managed e Ek He. rewrite Ek in Hdeny. by eapply validate_denied_ok.
  - intros managed e Ek Ex He. rewrite Ek, Ex in Hallow.
    destruct (validate_allowed_subset _ _ _ _ Hallow He) as (m & Hm & Ha).
    exists m. split; [done|]. intros h. by apply allows_covers.
  - intros managed Ek Ex. rewrite Ek, Ex in Hallow. by apply validate_allowed_fixed.
Qed.

(** With a fixed list, each allowed pattern is a managed one. *)
Lemma validate_fixed_allowed `{HostEnv} `{HookEnv} c k managed e :
  validate_policy_against_constraints c k = Ok tt → c_allowed_domains k = Some managed →
  c_allowlist_expansion_enabled k = Some false → e ∈ default [] (allowed_domains c) →
  to_ascii_lowercase e ∈ lower_set managed.
Proof.
  unfold validate_policy_against_constraints. intros Hv Hk Hx He.
  repeat (let H := fresh "Hcheck" in apply result_bind_ok in Hv as ([] & H & Hv)).
  rewrite Hk, Hx in *. match goal with H : validate_allowed _ _ _ _ = _ |- _ => rename H into Ha end.
  apply (validate_allowed_fixed _ _ _ Ha). by apply list_elem_of_fmap_2.
Qed.

(** A managed [**.example.com] admits [api.example.com]; a user rule for another domain is
    refused. *)
Definition demo_constraints : NetworkProxyConstraints :=
  mkConstraints (Some true) (Some Limited) None None None (Some [lit "**.example.com"]) None
    (Some [lit "bad.example.com"]) None None (Some false).
Definition demo_config : NetworkProxyConfig :=
  set_mode Limited
    (set_domains (Some [mkEntry (lit "api.example.com") PermAllow; mkEntry (lit "bad.example.com") PermAllow;
                        mkEntry (lit "bad.example.com") PermDeny]) default_config).

Notation demo_validate := (@validate_policy_against_constraints DemoHosts.env DemoHooks.env).

Lemma validated_config_within_constraints_witness :
  demo_validate demo_config demo_constraints = Ok tt
  ∧ default [] (allowed_domains demo_config) = [lit "api.example.com"]
  ∧ mode demo_config = Limited.
Proof.
  assert (Hv : demo_validate demo_config demo_constraints = Ok tt) by by vm_compute.
  split_and!; [done|by vm_compute|].
  apply (@validated_config_within_constraints DemoHosts.env DemoHooks.env demo_config demo_constraints Hv). done.
Defined.

Example widening_refused :
  demo_validate (upsert_domain_permission (lit "evil.com") PermAllow normalize_host demo_config) demo_constraints
  = Err (InvalidValue (lit "network.allowed_domains")).
Proof. by vm_compute. Qed.
