(* ===== verification/ProxyState.v ===== *)
(** * The state of the network proxy (network-proxy/src/runtime.rs, state.rs)

    [NetworkProxyState] holds the compiled policy behind a lock.  Requests ask it about a host
    ([host_blocked]); approvals add rules to it while requests run ([update_domain_list]); a
    reloader replaces it when the configuration files change.  An operation is a sequence of
    sections that hold the lock, with other operations between them: [advance] is one section.

    What comes from outside a section is an input: the answer of the reloader, the addresses a
    name resolves to.  The secrets of hooks and the certificate authority of the interception
    are an [Os]. *)

From stdpp Require Import prelude strings list gmap.
From S2P Require Import Prelude RustStr IpAddr HostPolicy AbsolutePath MitmHooks NetworkConfig.
Import AbsolutePath.

(** ** Data *)

Definition MAX_BLOCKED_EVENTS : nat := 200.
Definition u64_max : N := 18446744073709551615.

Inductive HostBlockReason := Denied | NotAllowed | NotAllowedLocal.
#[global] Instance host_block_reason_eq_dec : EqDecision HostBlockReason.
Proof. solve_decision. Defined.

Definition reason_as_str (r : HostBlockReason) : list N :=
  match r with
  | Denied => lit "denied"
  | NotAllowed => lit "not_allowed"
  | NotAllowedLocal => lit "not_allowed_local"
  end.

Inductive HostBlockDecision := Allowed | Blocked (reason : HostBlockReason).
#[global] Instance host_block_decision_eq_dec : EqDecision HostBlockDecision.
Proof. solve_decision. Defined.

Record BlockedRequest := mkBlockedRequest {
  br_host : list N;
  br_reason : list N;
  br_client : option (list N);
  br_method : option (list N);
  br_mode : option NetworkMode;
  br_protocol : list N;
  br_execution_id : option (list N);
  br_decision : option (list N);
  br_source : option (list N);
  br_port : option N;
  br_timestamp : Z }.

(** [has_mitm] says that there is a [MitmState]. *)
Record ConfigState := mkState {
  config : NetworkProxyConfig;
  allow_set : list (list N);
  deny_set : list (list N);
  has_mitm : bool;
  hooks_by_host : gmap (list N) (list MitmHook);
  constraints : NetworkProxyConstraints;
  blocked : list BlockedRequest;
  blocked_total : N }.

Definition with_blocked (b : list BlockedRequest) (total : N) (s : ConfigState) : ConfigState :=
  mkState (config s) (allow_set s) (deny_set s) (has_mitm s) (hooks_by_host s) (constraints s) b total.
Definition with_config (c : NetworkProxyConfig) (s : ConfigState) : ConfigState :=
  mkState c (allow_set s) (deny_set s) (has_mitm s) (hooks_by_host s) (constraints s) (blocked s)
    (blocked_total s).

(** The environment, the files, and whether a certificate authority can be made. *)
Record Os := mkOs {
  os_env : list N → option (list N);
  os_files : list Component → option (list N);
  os_mitm : bool }.

Inductive BuildError :=
| InvalidSocketPath (index : nat)
| BrokerNeedsMitm
| DeniedWildcard (e : ConstraintError)
| BadPattern (e : CompileError)
| BadHook (e : HookError)
| NoMitm.

(** On Unix a path is absolute when it starts with a slash. *)
Inductive ValidatedUnixSocketPath :=
| Native (path : list Component)
| UnixStyleAbsolute (path : list N).

Definition validated_unix_socket_path (socket_path : str) : option ValidatedUnixSocketPath :=
  if is_absolute socket_path then
    match from_absolute_path None (Err []) socket_path with
    | Ok path => Some (Native path)
    | Err _ => None
    end
  else if starts_with [slash] socket_path then Some (UnixStyleAbsolute socket_path)
  else None.

Fixpoint validate_socket_paths (index : nat) (paths : list (list N)) : result BuildError unit :=
  match paths with
  | [] => Ok tt
  | p :: paths =>
      match validated_unix_socket_path p with
      | Some _ => validate_socket_paths (S index) paths
      | None => Err (InvalidSocketPath index)
      end
  end.
Definition validate_unix_socket_allowlist_paths (c : NetworkProxyConfig) : result BuildError unit :=
  validate_socket_paths 0 (allow_unix_sockets c).

Inductive DomainListKind := AllowList | DenyList.
Definition permission (k : DomainListKind) : NetworkDomainPermission :=
  match k with AllowList => PermAllow | DenyList => PermDeny end.
Definition entries (k : DomainListKind) (c : NetworkProxyConfig) : list (list N) :=
  default [] (match k with AllowList => allowed_domains c | DenyList => denied_domains c end).
Definition opposite_entries (k : DomainListKind) (c : NetworkProxyConfig) : list (list N) :=
  default [] (match k with AllowList => denied_domains c | DenyList => allowed_domains c end).
Definition constraint_field (k : DomainListKind) : list N :=
  match k with AllowList => lit "network.allowed_domains" | DenyList => lit "network.denied_domains" end.

Section env.
Context `{HostEnv} `{HookEnv}.

Definition build_config_state (os : Os) (c : NetworkProxyConfig) (k : NetworkProxyConstraints) :
    result BuildError ConfigState :=
  let? _ := validate_unix_socket_allowlist_paths c in
  if credential_broker c && negb (mitm c) then Err BrokerNeedsMitm
  else
    let allowed := default [] (allowed_domains c) in
    let denied := default [] (denied_domains c) in
    let? _ := map_err DeniedWildcard
                (validate_non_global_wildcard_domain_patterns (lit "network.denied_domains") denied) in
    let? deny_set := map_err BadPattern (compile_denylist_globset denied) in
    let? allow_set := map_err BadPattern (compile_allowlist_globset allowed) in
    let? hooks := map_err BadHook (compile_mitm_hooks (os_env os) (os_files os) (mitm c) (mitm_hooks c)) in
    if mitm c && negb (os_mitm os) then Err NoMitm
    else Ok (mkState c allow_set deny_set (mitm c) hooks k [] 0).

(** ** Hosts *)

Definition globset_matches_host_or_unscoped (set : list (list N)) (host : str) : bool :=
  is_match set host || from_option (is_match set) false (unscoped_ip_literal host).

Definition is_explicit_local_allowlisted (allowed_domains : list (list N)) (host : str) : bool :=
  let unscoped_host := unscoped_ip_literal host in
  existsb (λ pattern,
    let pattern := trim pattern in
    if bool_decide (pattern = lit "*") || starts_with (lit "*.") pattern || starts_with (lit "**.") pattern
    then false
    else if contains_char star pattern || contains_char question pattern then false
    else
      let normalized_pattern := normalize_host pattern in
      bool_decide (normalized_pattern = host)
      || from_option (λ ip, bool_decide (normalized_pattern = ip)) false unscoped_host) allowed_domains.

(** [lookup] gives the addresses of a name; [None] if the lookup fails or takes too long. *)
Definition host_resolves_to_non_public_ip (host : str) (port : N)
    (lookup : list N → N → option (list IpAddr)) : bool :=
  match parse_ip host with
  | Some ip => is_non_public_ip ip
  | None =>
      match lookup host port with
      | Some addrs => existsb is_non_public_ip addrs
      | None => true
      end
  end.

Definition local_literal (host : str) : bool :=
  let host_no_scope := default host (unscoped_ip_literal host) in
  if is_loopback_host host then true
  else from_option is_non_public_ip false (parse_ip host_no_scope).

(** [host_blocked] after the reload: the policy is read once. *)
Definition host_blocked (s : ConfigState) (host : str) (port : N)
    (lookup : list N → N → option (list IpAddr)) : HostBlockDecision :=
  match host_parse host with
  | None => Blocked NotAllowed
  | Some host =>
      let allowed := allowed_domains (config s) in
      let decide_listed :=
        if bool_decide (allowed = None) || negb (globset_matches_host_or_unscoped (allow_set s) host)
        then Blocked NotAllowed else Allowed in
      if globset_matches_host_or_unscoped (deny_set s) host then Blocked Denied
      else if negb (allow_local_binding (config s)) then
        if local_literal host then
          if negb (is_explicit_local_allowlisted (default [] allowed) host) then Blocked NotAllowedLocal
          else decide_listed
        else if host_resolves_to_non_public_ip host port lookup then Blocked NotAllowedLocal
        else decide_listed
      else decide_listed
  end.

(** [while blocked.len() > MAX_BLOCKED_EVENTS { blocked.pop_front(); }] *)
Fixpoint pop_excess (l : list BlockedRequest) : list BlockedRequest :=
  match l with
  | [] => []
  | _ :: l' => if MAX_BLOCKED_EVENTS <? length l then pop_excess l' else l
  end.

(** The section of [record_blocked]. *)
Definition record_section (entry : BlockedRequest) (s : ConfigState) : ConfigState :=
  with_blocked (pop_excess (blocked s ++ [entry])) (N.min (blocked_total s + 1) u64_max) s.

Definition set_execution_id (id : option (list N)) (e : BlockedRequest) : BlockedRequest :=
  mkBlockedRequest (br_host e) (br_reason e) (br_client e) (br_method e) (br_mode e) (br_protocol e) id
    (br_decision e) (br_source e) (br_port e) (br_timestamp e).

(** ** Operations and their sections *)

Inductive op :=
| OpRead                                                     (* the getters, [blocked_snapshot] *)
| OpHost (host : list N) (port : N)
| OpUpdate (host : list N) (target : DomainListKind)          (* the host is normalised *)
| OpMode (m : NetworkMode)
| OpReplace (new : ConfigState)
| OpRecord (entry : BlockedRequest) (execution_id : option (list N))
| OpDrain.

Inductive failure :=
| InvalidHost
| ReloadFailed
| BrokerChanged
| Constrained (e : ConstraintError)
| NotBuilt (e : BuildError).

Inductive outcome :=
| Done
| Failed (f : failure)
| Read (s : ConfigState)
| Decided (d : HostBlockDecision)
| Drained (l : list BlockedRequest).

Inductive pc :=
| Begin (o : op)                                             (* before [reload_if_needed] *)
| ReloadRead (o : op) (new : ConfigState)
| ReloadWrite (o : op) (new : ConfigState)
| Ready (o : op)                                             (* after [reload_if_needed] *)
| UpdateWrite (host : list N) (target : DomainListKind) (previous_cfg : NetworkProxyConfig)
    (read_constraints : NetworkProxyConstraints) (new : ConfigState)
| ModeWrite (m : NetworkMode) (read_constraints : NetworkProxyConstraints)
| ForceBegin
| ForceWrite (new : ConfigState)
| Finished (o : outcome).

Inductive input :=
| Quiet
| MaybeReload (answer : option (option ConfigState))         (* [None]: an error *)
| ReloadNow (answer : option ConfigState)
| Resolve (lookup : list N → N → option (list IpAddr)).

(** The entry points; [Host::parse] comes before the loop of [update_domain_list]. *)
Definition add_domain (host : str) (target : DomainListKind) : pc :=
  match host_parse host with
  | Some host => Begin (OpUpdate host target)
  | None => Finished (Failed InvalidHost)
  end.
Definition add_allowed_domain (host : str) : pc := add_domain host AllowList.
Definition add_denied_domain (host : str) : pc := add_domain host DenyList.

(** The first section of a turn of [update_domain_list]: all up to the write lock. *)
Definition update_read (os : Os) (host : str) (target : DomainListKind) (s : ConfigState) : pc :=
  let contains l := existsb (λ e, bool_decide (normalize_host e = host)) l in
  if contains (entries target (config s)) && negb (contains (opposite_entries target (config s)))
  then Finished Done
  else
    let candidate := upsert_domain_permission host (permission target) normalize_host (config s) in
    match validate_policy_against_constraints candidate (constraints s) with
    | Err e => Finished (Failed (Constrained e))
    | Ok _ =>
        match build_config_state os candidate (constraints s) with
        | Err e => Finished (Failed (NotBuilt e))
        | Ok new => UpdateWrite host target (config s) (constraints s)
                      (with_blocked (blocked s) (blocked_total s) new)
        end
    end.

(** One section; [None] if the input is not the one it waits for.  [broker] says whether the
    credential broker was enabled at the start. *)
Definition advance (os : Os) (broker : bool) (inp : input) (at_ : pc) (s : ConfigState) :
    option (pc * ConfigState) :=
  let broker_ok new := bool_decide (broker = credential_broker (config new)) in
  match at_, inp with
  | Begin o, MaybeReload answer =>
      Some (match answer with
            | None => Finished (Failed ReloadFailed)
            | Some None => Ready o
            | Some (Some new) => if broker_ok new then ReloadRead o new else Finished (Failed BrokerChanged)
            end, s)
  | ReloadRead o new, Quiet => Some (ReloadWrite o (with_blocked (blocked s) (blocked_total s) new), s)
  | ReloadWrite o new, Quiet => Some (Ready o, new)
  | Ready OpRead, Quiet => Some (Finished (Read s), s)
  | Ready (OpHost host port), Resolve lookup => Some (Finished (Decided (host_blocked s host port lookup)), s)
  | Ready (OpUpdate host target), Quiet => Some (update_read os host target s, s)
  | UpdateWrite host target previous_cfg read_constraints new, Quiet =>
      if bool_decide (constraints s = read_constraints) && bool_decide (config s = previous_cfg)
      then Some (Finished Done, new)
      else Some (Begin (OpUpdate host target), s)
  | Ready (OpMode m), Quiet =>
      match validate_policy_against_constraints (set_mode m (config s)) (constraints s) with
      | Err e => Some (Finished (Failed (Constrained e)), s)
      | Ok _ => Some (ModeWrite m (constraints s), s)
      end
  | ModeWrite m read_constraints, Quiet =>
      if bool_decide (constraints s = read_constraints)
      then Some (Finished Done, with_config (set_mode m (config s)) s)
      else Some (Begin (OpMode m), s)
  | Ready (OpReplace new), Quiet =>
      if broker_ok new then Some (Finished Done, with_blocked (blocked s) (blocked_total s) new)
      else Some (Finished (Failed BrokerChanged), s)
  | Ready (OpRecord entry execution_id), Quiet =>
      Some (Finished Done, record_section (set_execution_id execution_id entry) s)
  | Ready OpDrain, Quiet => Some (Finished (Drained (blocked s)), with_blocked [] (blocked_total s) s)
  | ForceBegin, ReloadNow answer =>
      Some (match answer with
            | None => Finished (Failed ReloadFailed)
            | Some new => if broker_ok new then ForceWrite new else Finished (Failed BrokerChanged)
            end, s)
  | ForceWrite new, Quiet => Some (Finished Done, with_blocked (blocked s) (blocked_total new) new)
  | _, _ => None
  end.

(** ** Many operations at once *)

(** What holds of the state in force: its configuration keeps the constraints, its sets are
    compiled from its lists, and its buffer is within bounds. *)
Record state_ok (s : ConfigState) : Prop := {
  ok_constraints : validate_policy_against_constraints (config s) (constraints s) = Ok tt;
  ok_deny : compile_denylist_globset (default [] (denied_domains (config s))) = Ok (deny_set s);
  ok_allow : compile_allowlist_globset (default [] (allowed_domains (config s))) = Ok (allow_set s);
  ok_blocked : length (blocked s) ≤ MAX_BLOCKED_EVENTS }.

(** The states that a reloader delivers, and that a caller of [replace_config_state] passes: a
    configuration is checked against its constraints and the state is built from the two
    ([build_config_state_from_layers] of network_proxy_loader.rs, and the specification of a
    session, see [session_states_are_delivered]). *)
Definition delivered (s : ConfigState) : Prop :=
  ∃ os c k, validate_policy_against_constraints c k = Ok tt ∧ build_config_state os c k = Ok s.

Definition input_ok (inp : input) : Prop :=
  match inp with
  | MaybeReload (Some (Some new)) | ReloadNow (Some new) => delivered new
  | _ => True
  end.

(** Where an operation starts. *)
Inductive starts : pc → Prop :=
| starts_op o : match o with OpReplace new => delivered new | _ => True end → starts (Begin o)
| starts_add host target : starts (add_domain host target)
| starts_force : starts ForceBegin.

Record sys := mkSys { guard : ConfigState; tasks : list pc }.

Inductive step (os : Os) (broker : bool) : sys → sys → Prop :=
| step_start g ts at_ : starts at_ → step os broker (mkSys g ts) (mkSys g (ts ++ [at_]))
| step_section g ts i at_ inp at' g' :
    ts !! i = Some at_ → input_ok inp → advance os broker inp at_ g = Some (at', g') →
    step os broker (mkSys g ts) (mkSys g' (<[i := at']> ts)).

End env.
