(* ===== verification/ProxyAddr.v ===== *)
(** * Where the proxy listens (network-proxy/src/config.rs)

    The addresses of the two listeners are read from URLs ([parse_host_port]) and clamped to the
    loopback interface unless the configuration says otherwise ([clamp_bind_addrs]).  [url_parse] is
    [Url::parse] of the crate [url]: the host, if any, and the explicit port. *)

From stdpp Require Import prelude strings list pretty.
From S2P Require Import Prelude RustStr Decimal StrSearch IpAddr HostPolicy MitmHooks NetworkConfig ProxyState.

Record SocketAddr := mkSocketAddr { addr_ip : IpAddr; addr_port : N }.
Definition localhost_v4 : IpAddr := V4 (octets 127 0 0 1).

Definition clamp_non_loopback (addr : SocketAddr) (allow_non_loopback : bool) : SocketAddr :=
  if is_loopback (addr_ip addr) then addr
  else if allow_non_loopback then addr
  else mkSocketAddr localhost_v4 (addr_port addr).

Definition clamp_bind_addrs (http_addr socks_addr : SocketAddr) (cfg : NetworkProxyConfig) :
    SocketAddr * SocketAddr :=
  let http_addr := clamp_non_loopback http_addr (dangerously_allow_non_loopback_proxy cfg) in
  let socks_addr := clamp_non_loopback socks_addr (dangerously_allow_non_loopback_proxy cfg) in
  if bool_decide (allow_unix_sockets cfg = []) && negb (dangerously_allow_all_unix_sockets cfg)
  then (http_addr, socks_addr)
  else (mkSocketAddr localhost_v4 (addr_port http_addr), mkSocketAddr localhost_v4 (addr_port socks_addr)).

(** ** Addresses as text *)

Record SocketAddressParts := mkParts { part_host : list N; part_port : N }.

Inductive AddrError := MissingHost | BadSocketPath (e : BuildError).

(** [str::parse::<u16>]. *)
Definition parse_u16 (s : str) : option N := parse_uint 65535 s.

Definition at_sign : char := 64%N.
Definition slash_char : char := 47%N.

(** [trim_matches(|c| c == '[' || c == ']')]. *)
Fixpoint trim_brackets_start (s : str) : str :=
  match s with
  | x :: s' => if bool_decide (x = 91%N) || bool_decide (x = 93%N) then trim_brackets_start s' else s
  | [] => []
  end.
Definition trim_brackets (s : str) : str :=
  reverse (trim_brackets_start (reverse (trim_brackets_start s))).

Definition parse_host_port_fallback (input : str) (default_port : N) : result AddrError SocketAddressParts :=
  let without_scheme := match split_once_str (lit "://") input with Some (_, rest) => rest | None => input end in
  let host_port := default without_scheme (head (split_on slash_char without_scheme)) in
  let host_port := match rsplit_once at_sign host_port with Some (_, rest) => rest | None => host_port end in
  let bracketed :=
    if starts_with (lit "[") host_port then
      (λ end_, (drop 1 (take end_ host_port), drop (S end_) host_port)) <$> find_str (lit "]") host_port
    else None in
  match bracketed with
  | Some (host, rest) =>
      let port := default default_port (strip_prefix (lit ":") rest ≫= parse_u16) in
      if bool_decide (host = []) then Err MissingHost else Ok (mkParts host port)
  | None =>
      match (if (count_char colon host_port =? 1)%nat then rsplit_once colon host_port else None) with
      | Some (host, port) =>
          if bool_decide (host = []) then Err MissingHost
          else Ok (mkParts host (default default_port (parse_u16 port)))
      | None =>
          if bool_decide (host_port = []) then Err MissingHost else Ok (mkParts host_port default_port)
      end
  end.

Definition format_host_and_port (host : str) (port : N) : str :=
  if contains_char colon host
  then lit "[" ++ host ++ lit "]:" ++ lit (pretty port)
  else host ++ lit ":" ++ lit (pretty port).

Section url.
Context (url_parse : list N → option (option (list N) * option N)).

Definition parse_host_port (url : str) (default_port : N) : result AddrError SocketAddressParts :=
  let trimmed := trim url in
  let unbracketed_v6 :=
    match parse_ip trimmed with Some (V6 _) => negb (starts_with (lit "[") trimmed) | _ => false end in
  if bool_decide (trimmed = []) then Err MissingHost
  else if unbracketed_v6 then Ok (mkParts trimmed default_port)
  else
    let candidate := if contains_str (lit "://") trimmed then trimmed else lit "http://" ++ trimmed in
    match url_parse candidate with
    | Some (Some host, port) =>
        let host := trim_brackets host in
        if bool_decide (host = []) then Err MissingHost else Ok (mkParts host (default default_port port))
    | _ => parse_host_port_fallback trimmed default_port
    end.

Definition resolve_addr (url : str) (default_port : N) : result AddrError SocketAddr :=
  let? addr_parts := parse_host_port url default_port in
  let host := if eq_ignore_ascii_case (part_host addr_parts) (lit "localhost")
              then lit "127.0.0.1" else part_host addr_parts in
  Ok (mkSocketAddr (default localhost_v4 (parse_ip host)) (part_port addr_parts)).

Definition resolve_runtime (cfg : NetworkProxyConfig) : result AddrError (SocketAddr * SocketAddr) :=
  let? _ := map_err BadSocketPath (validate_unix_socket_allowlist_paths cfg) in
  let? http_addr := resolve_addr (proxy_url cfg) 3128 in
  let? socks_addr := resolve_addr (socks_url cfg) 8081 in
  Ok (clamp_bind_addrs http_addr socks_addr cfg).

Definition host_and_port_from_network_addr (value : str) (default_port : N) : str :=
  let trimmed := trim value in
  if bool_decide (trimmed = []) then lit "<missing>"
  else match parse_host_port trimmed default_port with
       | Ok parts => format_host_and_port (part_host parts) (part_port parts)
       | Err _ => format_host_and_port trimmed default_port
       end.

(** Unless it is told otherwise the proxy can only be reached from its own machine; and when it
    gives access to Unix sockets, it cannot be told otherwise. *)
Theorem proxy_listens_on_loopback cfg http socks :
  resolve_runtime cfg = Ok (http, socks) →
  dangerously_allow_non_loopback_proxy cfg = false ∨
  dangerously_allow_all_unix_sockets cfg = true ∨ allow_unix_sockets cfg ≠ [] →
  is_loopback (addr_ip http) = true ∧ is_loopback (addr_ip socks) = true.
Proof.
  assert (Hc : ∀ a, is_loopback (addr_ip (clamp_non_loopback a false)) = true).
  { intros a. unfold clamp_non_loopback. by destruct (is_loopback (addr_ip a)) eqn:E. }
  unfold resolve_runtime. intros (_ & _ & (h & _ & (s & _ & [= E])%result_bind_ok)%result_bind_ok)%result_bind_ok.
  unfold clamp_bind_addrs in E. intros [Hd|Hu].
  - rewrite Hd in E. destruct (_ && _); simplify_eq/=; auto.
  - destruct (bool_decide _ && _) eqn:Eb; [|by simplify_eq/=].
    apply andb_true_iff in Eb as [E1 E2]. apply bool_decide_eq_true in E1. apply negb_true_iff in E2.
    destruct Hu; congruence.
Qed.

End url.

(** ** Printing an address and reading it back *)

Lemma parse_u16_pretty p : (p <= 65535)%N → parse_u16 (lit (pretty p)) = Some p.
Proof. apply parse_uint_pretty. Qed.

Lemma split_once_not_in sep s : sep ∉ s → split_once sep s = None.
Proof.
  induction s as [|c s IH]; simpl; [done|]. intros Hs. rewrite decide_False by set_solver. by rewrite IH by set_solver.
Qed.

Lemma split_once_first sep a b : sep ∉ a → split_once sep (a ++ sep :: b) = Some (a, b).
Proof.
  induction a as [|c a IH]; simpl; intros Ha; [by rewrite decide_True|].
  rewrite decide_False by set_solver. by rewrite IH by set_solver.
Qed.

Lemma rsplit_once_not_in sep s : sep ∉ s → rsplit_once sep s = None.
Proof. intros Hs. unfold rsplit_once. by rewrite split_once_not_in by by rewrite elem_of_reverse. Qed.

Lemma rsplit_once_last sep a b : sep ∉ b → rsplit_once sep (a ++ sep :: b) = Some (a, b).
Proof.
  intros Hb. unfold rsplit_once. rewrite reverse_app, reverse_cons, <- app_assoc. simpl.
  rewrite split_once_first by by rewrite elem_of_reverse. simpl. by rewrite !reverse_involutive.
Qed.

Lemma find_str_not_in c d s : c ∈ d → c ∉ s → find_str d s = None.
Proof.
  intros Hc Hs. apply find_str_None. intros j _ [r E]. apply Hs.
  rewrite <- (take_drop j s), E, !elem_of_app. auto.
Qed.

Lemma find_char_first c h r : c ∉ h → find_str [c] (h ++ c :: r) = Some (length h).
Proof.
  induction h as [|x h IH]; intros Hc; simpl.
  - by rewrite (proj2 (starts_with_prefix [c] _)) by by exists r.
  - rewrite (proj2 (starts_with_not_prefix [c] _)), IH; [done|set_solver|].
    intros [q E]. simplify_eq/=. set_solver.
Qed.

Lemma count_char_app x a b : count_char x (a ++ b) = (count_char x a + count_char x b)%nat.
Proof. unfold count_char. by rewrite filter_app, length_app. Qed.

Lemma count_char_not_in x s : x ∉ s → count_char x s = 0%nat.
Proof.
  unfold count_char. induction s as [|c s IH]; [done|]. intros Hs. rewrite filter_cons_False by set_solver.
  apply IH. set_solver.
Qed.

(** The characters that an address gives a meaning. *)
Definition plain_addr_host (h : str) : Prop :=
  h ≠ [] ∧ slash_char ∉ h ∧ at_sign ∉ h ∧ 91%N ∉ h ∧ 93%N ∉ h.

(** A printed address is read back: the host, bracketed when it has colons, and the port. *)
Theorem addr_print_parse h p d :
  plain_addr_host h → (p <= 65535)%N →
  parse_host_port_fallback (format_host_and_port h p) d = Ok (mkParts h p).
Proof.
  intros (Hne & Hsl & Hat & Hob & Hcb) Hp. set (t := format_host_and_port h p).
  assert (Hn : ∀ c, c ∉ h → is_ascii_digit c = false → c ∉ [58; 91; 93]%N → c ∉ t).
  { intros c Hc Hd Hx. pose proof (digits_not_in c p Hd). unfold t, format_host_and_port.
    destruct (contains_char _ _); simpl; set_solver. }
  assert (Hs : slash_char ∉ t) by (apply Hn; [done|done|set_solver]).
  assert (Ha : at_sign ∉ t) by (apply Hn; [done|done|set_solver]).
  unfold parse_host_port_fallback, split_once_str.
  assert (Hf : find_str (lit "://") t = None)
    by (apply (find_str_not_in slash_char); [by right; left|exact Hs]).
  rewrite Hf. cbn [mbind option_bind]. rewrite (split_on_no_sep _ t Hs). cbn [head default from_option id].
  rewrite (rsplit_once_not_in _ t Ha).
  unfold t, format_host_and_port, contains_char. case_bool_decide as Hc.
  - assert (Hst : starts_with (lit "[") (lit "[" ++ h ++ lit "]:" ++ lit (pretty p)) = true)
      by by apply starts_with_true; eexists.
    rewrite Hst.
    assert (Hb : find_str (lit "]") (lit "[" ++ h ++ lit "]:" ++ lit (pretty p)) = Some (S (length h))).
    { change (lit "[" ++ h ++ lit "]:" ++ lit (pretty p)) with (91%N :: (h ++ 93%N :: lit ":" ++ lit (pretty p))).
      rewrite find_str_cons; [|by intros [r [=]]]. by rewrite (find_char_first 93%N). }
    rewrite Hb. cbn [fmap option_fmap option_map]. cbv beta iota.
    assert (H1 : drop 1 (take (S (length h)) (lit "[" ++ h ++ lit "]:" ++ lit (pretty p))) = h).
    { simpl. by rewrite take_app_length. }
    assert (H2 : drop (S (S (length h))) (lit "[" ++ h ++ lit "]:" ++ lit (pretty p)) = lit ":" ++ lit (pretty p)).
    { simpl. rewrite drop_app_ge by lia. by replace (S (length h) - length h)%nat with 1%nat by lia. }
    rewrite H1, H2, (strip_prefix_app (lit ":")). cbn [mbind option_bind]. rewrite parse_u16_pretty by done.
    by rewrite bool_decide_false.
  - assert (Hst : starts_with (lit "[") (h ++ lit ":" ++ lit (pretty p)) = false).
    { apply starts_with_not_prefix. intros [r E]. apply Hob. destruct h as [|x h]; [done|].
      simplify_eq/=. left. }
    rewrite Hst, !count_char_app, (count_char_not_in colon h) by done.
    rewrite (count_char_not_in colon (lit (pretty p))) by by apply digits_not_in.
    change (0 + (count_char colon (lit ":") + 0) =? 1)%nat with true. cbv iota.
    change (lit ":" ++ lit (pretty p)) with (colon :: lit (pretty p)).
    rewrite (rsplit_once_last colon h) by by apply digits_not_in.
    rewrite bool_decide_false by done. by rewrite parse_u16_pretty.
Qed.

Lemma addr_print_parse_witness :
  format_host_and_port (lit "::1") 8080 = lit "[::1]:8080" ∧
  parse_host_port_fallback (lit "[::1]:8080") 3128 = Ok (mkParts (lit "::1") 8080).
Proof.
  split; [by vm_compute|].
  assert (E : lit "[::1]:8080" = format_host_and_port (lit "::1") 8080) by by vm_compute. rewrite E.
  apply (addr_print_parse (lit "::1") 8080 3128); [|lia].
  unfold plain_addr_host. split_and!; [done|..]; by apply (bool_decide_unpack (_ ∉ _)); vm_compute.
Defined.

(** A listener asked to accept connections from everywhere, with a Unix socket allowed. *)
Definition exposed_config : NetworkProxyConfig :=
  set_allow_unix_sockets [lit "/var/run/docker.sock"]
    (mkConfig true (lit "http://0.0.0.0:9000") true (lit "localhost:9001") true true true false Full
       None None false false false false []).

Lemma proxy_listens_on_loopback_witness :
  resolve_runtime (λ _, None) exposed_config
  = Ok (mkSocketAddr localhost_v4 9000, mkSocketAddr localhost_v4 9001) ∧
  is_loopback (addr_ip (mkSocketAddr localhost_v4 9000)) = true.
Proof.
  assert (Hr : resolve_runtime (λ _, None) exposed_config
               = Ok (mkSocketAddr localhost_v4 9000, mkSocketAddr localhost_v4 9001)) by by vm_compute.
  split; [exact Hr|].
  apply (proxy_listens_on_loopback (λ _, None) exposed_config _ _ Hr). right. right. by vm_compute.
Defined.
