(* ===== verification/ProxyStateLaws.v ===== *)
(** * Laws of the proxy's state

    What is allowed to be reached; the policy under concurrent operations: it always keeps its
    constraints and its compiled sets, every change is one of the abstract ones, and a host that
    was denied is denied. *)

From stdpp Require Import prelude strings list gmap relations.
From S2P Require Import Prelude RustStr StrSearch IpAddr HostPolicy MitmHooks NetworkConfig ProxyState.

(** ** Changing the mode *)

Ltac open_checks :=
  repeat match goal with
  | H : result_bind _ _ = Ok _ |- _ => apply result_bind_ok in H as (? & ? & H)
  | u : unit |- _ => destruct u
  end.

Lemma bind_tt {E} (r : result E unit) (k : unit → result E unit) :
  r = Ok tt → k tt = Ok tt → result_bind r k = Ok tt.
Proof. by intros ->. Qed.

Section laws.
Context `{HostEnv} `{HookEnv}.

(** The checks look at one field each: a mode that was fine in one configuration is fine in
    another with the same constraints. *)
Lemma validate_set_mode c c' m k :
  validate_policy_against_constraints c k = Ok tt →
  validate_policy_against_constraints (set_mode m c') k = Ok tt →
  validate_policy_against_constraints (set_mode m c) k = Ok tt.
Proof.
  unfold validate_policy_against_constraints. intros Hc Hm. open_checks.
  repeat (apply bind_tt; [assumption|]). assumption.
Qed.

(** ** The states of an operation *)

Lemma build_config_state_ok os c k s :
  build_config_state os c k = Ok s →
  config s = c ∧ constraints s = k ∧ blocked s = [] ∧
  compile_denylist_globset (default [] (denied_domains c)) = Ok (deny_set s) ∧
  compile_allowlist_globset (default [] (allowed_domains c)) = Ok (allow_set s).
Proof.
  unfold build_config_state. intros (_ & _ & Hs)%result_bind_ok. destruct (_ && _); [done|].
  apply result_bind_ok in Hs as (_ & _ & Hs).
  apply result_bind_ok in Hs as (d & Hd & Hs). apply result_bind_ok in Hs as (a & Ha & Hs).
  apply result_bind_ok in Hs as (h & _ & Hs).
  destruct (compile_denylist_globset _) as [d'|]; [|done]. destruct (compile_allowlist_globset _) as [a'|]; [|done].
  destruct (_ && _); [done|]. by simplify_eq/=.
Qed.

(** A state that is built from a checked configuration is fit to be in force. *)
Lemma delivered_ok s : delivered s → state_ok s.
Proof.
  intros (os & c & k & Hv & (Hc & Hk & Hbl & Hd & Ha)%build_config_state_ok).
  constructor; rewrite ?Hc, ?Hk; auto. rewrite Hbl. simpl. lia.
Qed.

Lemma state_ok_blocked s b n : state_ok s → length b ≤ MAX_BLOCKED_EVENTS → state_ok (with_blocked b n s).
Proof. by intros [] ?. Qed.

Lemma pop_excess_length l : length (pop_excess l) ≤ MAX_BLOCKED_EVENTS.
Proof.
  induction l as [|x l IH]; cbn [pop_excess]; [simpl; lia|].
  destruct (Nat.ltb_spec MAX_BLOCKED_EVENTS (length (x :: l))); [done|lia].
Qed.

(** What an operation holds between its sections. *)
Definition pc_ok (at_ : pc) : Prop :=
  match at_ with
  | ReloadRead o new | ReloadWrite o new =>
      state_ok new ∧ match o with OpReplace new => state_ok new | _ => True end
  | Begin (OpReplace new) | Ready (OpReplace new) | ForceWrite new => state_ok new
  | UpdateWrite host target previous k new =>
      state_ok new ∧ constraints new = k ∧
      config new = upsert_domain_permission host (permission target) normalize_host previous
  | ModeWrite m k => ∃ c, validate_policy_against_constraints (set_mode m c) k = Ok tt
  | _ => True
  end.

Lemma starts_ok at_ : starts at_ → pc_ok at_.
Proof.
  destruct 1 as [o Ho|host target|]; [destruct o; try done; by apply delivered_ok| |done]. unfold add_domain. by destruct (host_parse host).
Qed.

Lemma update_read_ok os host target s : state_ok s → pc_ok (update_read os host target s).
Proof.
  intros Hs. unfold update_read. destruct (_ && _); [done|].
  destruct (validate_policy_against_constraints _ _) as [[]|] eqn:Hv; [|done].
  destruct (build_config_state _ _ _) as [new|] eqn:Hb; [|done].
  apply build_config_state_ok in Hb as (Hc & Hk & Hbl & Hd & Ha). simpl. split_and!; [|done|done].
  constructor; simpl; rewrite ?Hc, ?Hk; auto. apply Hs.
Qed.

(** Each section keeps the policy within its constraints and its sets compiled. *)
Lemma advance_ok os broker inp at_ s at' s' :
  input_ok inp → pc_ok at_ → state_ok s → advance os broker inp at_ s = Some (at', s') →
  pc_ok at' ∧ state_ok s'.
Proof.
  intros Hi Hp Hs. destruct at_ as [o|o new|o new|o|h t c k new|m k| |new|out], inp as [|a|a|l]; simpl; try done.
  - (* Begin *) intros [= <- <-]. split; [|done]. destruct a as [[new|]|]; [|by destruct o|done].
    case_bool_decide; [|done]. split; [by apply delivered_ok|by destruct o].
  - (* ReloadRead *) intros [= <- <-]. destruct Hp as [Hn Ho]. split; [|done]. split; [|done].
    apply state_ok_blocked; [done|]. apply Hs.
  - (* ReloadWrite *) intros [= <- <-]. destruct Hp as [Hn Ho]. split; [by destruct o|done].
  - (* Ready *) destruct o; simpl; try (intros [= <- <-]).
    + done.
    + split; [by apply update_read_ok|done].
    + destruct (validate_policy_against_constraints _ _) as [[]|] eqn:Hv; intros [= <- <-]; (split; [|done]); simpl; eauto.
    + case_bool_decide; intros [= <- <-]; [|done]. split; [done|]. apply state_ok_blocked; [done|apply Hs].
    + split; [done|]. apply state_ok_blocked; [done|apply pop_excess_length].
    + split; [done|]. apply state_ok_blocked; [done|]. simpl. lia.
  - by destruct o.
  - by destruct o.
  - destruct o; try done. by intros [= <- <-].
  - (* UpdateWrite *) destruct (_ && _); intros [= <- <-]; [|done]. by destruct Hp.
  - (* ModeWrite *) case_bool_decide as Hk; intros [= <- <-]; [|done]. split; [done|].
    destruct Hp as [c Hc]. destruct Hs as [Hv Hd Ha Hb]. constructor; simpl; auto. rewrite <- Hk in Hc.
    by eapply validate_set_mode.
  - (* ForceBegin *) intros [= <- <-]. split; [|done]. destruct a; [|done].
    case_bool_decide; [by apply delivered_ok|done].
  - (* ForceWrite *) intros [= <- <-]. split; [done|]. apply state_ok_blocked; [done|apply Hs].
Qed.

(** ** Changes of the policy *)

(** The abstract policy: a configuration and its constraints. *)
Definition policy (s : ConfigState) : NetworkProxyConfig * NetworkProxyConstraints := (config s, constraints s).

Inductive change :=
| NoChange
| PutRule (host : list N) (target : DomainListKind)
| PutMode (m : NetworkMode)
| Install (new : NetworkProxyConfig * NetworkProxyConstraints).

Definition apply_change (ch : change) (p : NetworkProxyConfig * NetworkProxyConstraints) :
    NetworkProxyConfig * NetworkProxyConstraints :=
  match ch with
  | NoChange => p
  | PutRule host target => (upsert_domain_permission host (permission target) normalize_host p.1, p.2)
  | PutMode m => (set_mode m p.1, p.2)
  | Install new => new
  end.

(** The change that a section reports. *)
Definition change_of (at_ at' : pc) : change :=
  match at_, at' with
  | UpdateWrite host target _ _ _, Finished Done => PutRule host target
  | ModeWrite m _, Finished Done => PutMode m
  | Ready (OpReplace new), Finished Done | ReloadWrite _ new, _ | ForceWrite new, _ => Install (policy new)
  | _, _ => NoChange
  end.

Lemma advance_change os broker inp at_ s at' s' :
  pc_ok at_ → advance os broker inp at_ s = Some (at', s') →
  policy s' = apply_change (change_of at_ at') (policy s).
Proof.
  intros Hp. destruct at_ as [o|o new|o new|o|h t c k new|m k| |new|out], inp as [|a|a|l]; simpl; try done.
  - by intros [= <- <-].
  - by intros [= <- <-].
  - by intros [= <- <-].
  - destruct o; try done; simpl; try by intros [= <- <-].
    + destruct (validate_policy_against_constraints _ _); by intros [= <- <-].
    + case_bool_decide; by intros [= <- <-].
  - by destruct o.
  - by destruct o.
  - destruct o; try done. by intros [= <- <-].
  - destruct (bool_decide (constraints s = k)) eqn:Ek, (bool_decide (config s = c)) eqn:Ec; simpl;
      intros [= <- <-]; try done.
    apply bool_decide_eq_true in Ek, Ec. destruct Hp as (_ & Hk & Hc). unfold policy. simpl. congruence.
  - case_bool_decide; by intros [= <- <-].
  - by intros [= <- <-].
  - by intros [= <- <-].
Qed.

Lemma proxy_reachable_ok os broker g s :
  state_ok g → rtc (step os broker) (mkSys g []) s → state_ok (guard s) ∧ Forall pc_ok (tasks s).
Proof.
  intros Hg Hr. remember (mkSys g []) as s0 eqn:E0.
  assert (H0' : state_ok (guard s0) ∧ Forall pc_ok (tasks s0)) by (subst; split; [done|constructor]).
  clear E0 Hg. induction Hr as [s|s t u Hst Hr IH]; [done|]. apply IH. destruct H0' as [Hs Hp].
  inversion Hst as [g' ts at_ Ha|g' ts i at_ inp at' g'' Hi Hin Had]; subst; simpl in *.
  - split; [done|]. apply Forall_app. split; [done|]. by apply Forall_singleton, starts_ok.
  - destruct (advance_ok _ _ _ _ _ _ _ Hin (proj1 (Forall_lookup _ _) Hp _ _ Hi) Hs Had) as [H1 H2].
    split; [done|]. by apply Forall_insert.
Qed.

(** C11. Whatever operations run and however their sections fall, the policy in force keeps the
    managed constraints, its glob sets are the compiled lists of its configuration, and the buffer
    of blocked requests stays within its bound.  The first state, and those that a reloader or
    [replace_config_state] brings in later, are ones that were built from a configuration checked
    against its constraints, as both callers do; states made by added rules and changed modes are
    checked by the operations themselves. *)
Theorem policy_always_within_constraints os broker g s :
  delivered g → rtc (step os broker) (mkSys g []) s → state_ok (guard s).
Proof. intros Hg Hr. by apply (proxy_reachable_ok os broker g s (delivered_ok g Hg)) in Hr as [? _]. Qed.

(** C12. No operation works on a stale copy: in any interleaving, each section changes the policy by
    the abstract change it reports, applied to the policy of that moment: a rule is put into
    the current configuration, a mode is set in it, or a delivered state is installed. *)
Theorem changes_are_atomic os broker g s i at_ inp at' g' :
  state_ok g → rtc (step os broker) (mkSys g []) s → tasks s !! i = Some at_ →
  advance os broker inp at_ (guard s) = Some (at', g') →
  policy g' = apply_change (change_of at_ at') (policy (guard s)).
Proof.
  intros Hg Hr Hi. destruct (proxy_reachable_ok _ _ _ _ Hg Hr) as [_ Hp]. apply advance_change.
  by apply (proj1 (Forall_lookup _ _) Hp i).
Qed.

(** ** Rules that were added *)

Lemma compile_elem w patterns set p c :
  compile_globset_with_policy patterns w = Ok set → p ∈ patterns →
  c ∈ expand_domain_pattern (normalize_pattern p) → c ∈ set.
Proof. intros Hc Hp Hx. apply (compile_loop_elem _ _ _ _ _ (λ c, iff_refl _) Hc). eauto. Qed.

End laws.

(** Hosts that start with a star are not plain. *)
Lemma parse_ip_star s : parse_ip (star :: s) = None.
Proof. done. Qed.

Lemma take_star i s : parse_ip (take i (star :: s)) = None.
Proof. by destruct i. Qed.

Lemma trim_start_matches_snoc x c l :
  c ≠ x → ∃ u, trim_start_matches x (l ++ [c]) = u ++ [c].
Proof.
  intros Hc. induction l as [|y l IH]; simpl.
  - rewrite decide_False by done. by exists [].
  - case_decide; [done|]. by exists (y :: l).
Qed.

Lemma trim_end_matches_head x c s : c ≠ x → ∃ t, trim_end_matches x (c :: s) = c :: t.
Proof.
  intros Hc. unfold trim_end_matches. rewrite reverse_cons.
  destruct (trim_start_matches_snoc x c (reverse s) Hc) as [u ->]. rewrite reverse_snoc. eauto.
Qed.

Lemma normalize_dns_star s : ∃ t, normalize_dns_host_or_ip_literal (star :: s) = star :: t.
Proof.
  unfold normalize_dns_host_or_ip_literal, to_ascii_lowercase. rewrite fmap_cons.
  change (char_to_ascii_lowercase star) with star.
  destruct (trim_end_matches_head dot star (char_to_ascii_lowercase <$> s)) as [t ->]; [done|].
  exists t. unfold normalize_ip_literal, split_once_str. rewrite parse_ip_star.
  destruct (find_str (lit "%25") _) as [i|]; cbn [mbind option_bind]; rewrite ?take_star;
    (destruct (find_str (lit "%") _) as [j|]; cbn [mbind option_bind]; rewrite ?take_star; done).
Qed.

Lemma normalize_host_star e t : trim e = star :: t → ∃ u, normalize_host e = star :: u.
Proof.
  intros E. unfold normalize_host. rewrite E. rewrite (eq_refl : starts_with (lit "[") (star :: t) = false).
  destruct (count_char colon (star :: t) =? 1)%nat; [|apply normalize_dns_star].
  cbn [split_on]. rewrite decide_False by done. destruct (split_on colon t); apply normalize_dns_star.
Qed.

Lemma trim_idemp s : trim (trim s) = trim s.
Proof.
  unfold trim. destruct (trim_start s) as [|c t] eqn:E; [done|].
  assert (Hc : is_whitespace c = false).
  { pose proof (trim_start_idemp s) as Hi. rewrite E in Hi. simpl in Hi. destruct (is_whitespace c); [|done].
    apply (f_equal length) in Hi. simpl in Hi.
    pose proof (suffix_length _ _ (trim_start_suffix t)). lia. }
  rewrite (trim_end_cons_non_ws c t Hc). cbn [trim_start]. rewrite Hc.
  by rewrite (trim_end_cons_non_ws c _ Hc), trim_end_idemp.
Qed.

Lemma plain_not_whitespace c : glob_plain_char c = true → is_whitespace c = false.
Proof.
  unfold glob_plain_char, is_ascii_digit, is_whitespace. intros Hc. apply not_true_iff_false. intros Hw.
  rewrite !orb_true_iff, !andb_true_iff, !N.leb_le, !N.eqb_eq in *. lia.
Qed.

(** A rule whose normalised host is a plain one: its glob is the host. *)
Lemma rule_candidate e h :
  normalize_host e = h → plain_domain h → h ≠ [] → normalize_host h = h →
  h ∈ expand_domain_pattern (normalize_pattern e).
Proof.
  intros He Hp Hne Hh.
  assert (Hstar : head h ≠ Some star) by (destruct Hp as [|c h Hc]; [done|]; intros [= ->]; done).
  assert (Hpat : normalize_pattern e = h).
  { assert (Hns : ∀ t, trim e ≠ star :: t).
    { intros t Ht. destruct (normalize_host_star e t Ht) as [u Hu]. rewrite He in Hu. by rewrite Hu in Hstar. }
    assert (Hsp : ∀ p, strip_prefix (star :: p) (trim e) = None).
    { intros p. destruct (strip_prefix _ _) as [r|] eqn:E; [|done]. apply strip_prefix_Some in E. by apply Hns in E. }
    unfold normalize_pattern. rewrite bool_decide_false by apply Hns.
    rewrite (Hsp (lit "*.") : strip_prefix (lit "**.") _ = None), (Hsp (lit ".") : strip_prefix (lit "*.") _ = None).
    rewrite <- He. unfold normalize_host. by rewrite trim_idemp. }
  rewrite Hpat. unfold expand_domain_pattern, pattern_parse.
  assert (Ht : trim h = h).
  { apply trim_no_whitespace. eapply Forall_impl; [exact Hp|]. exact plain_not_whitespace. }
  rewrite Ht, bool_decide_false by done.
  assert (Hsp : ∀ p, strip_prefix (star :: p) h = None).
  { intros p. destruct (strip_prefix _ _) as [r|] eqn:E; [|done]. apply strip_prefix_Some in E. by rewrite E in Hstar. }
  rewrite (Hsp (lit "*.") : strip_prefix (lit "**.") h = None), (Hsp (lit ".") : strip_prefix (lit "*.") h = None).
  set_solver.
Qed.

Section added.
Context `{HostEnvLaws} `{HookEnv}.

(** An operation that adds a rule for [h], at one of the two sections that end it. *)
Definition adds (h : list N) (target : DomainListKind) (at_ : pc) : Prop :=
  match at_ with
  | Ready (OpUpdate h' t) | UpdateWrite h' t _ _ _ => h' = h ∧ t = target
  | _ => False
  end.

Lemma entries_spec target c e :
  e ∈ entries target c ↔ strictest (default [] (domains c)) e (permission target).
Proof. destruct target; apply elem_of_domain_entries. Qed.

Lemma added_listed os broker inp at_ s s' h target :
  adds h target at_ → pc_ok at_ → normalize_host h = h →
  advance os broker inp at_ s = Some (Finished Done, s') →
  ∃ e, e ∈ entries target (config s') ∧ normalize_host e = h.
Proof.
  intros Ha Hp Hh Hadv. pose proof (advance_change _ _ _ _ _ _ _ Hp Hadv) as Hch.
  destruct at_ as [| | |o|h' t c k new| | | |]; try done; [destruct o as [| |h' t| | | |]; try done|];
    destruct Ha as [-> ->]; destruct inp; simpl in *; try done.
  - injection Hadv as Hr <-. unfold update_read in Hr. destruct (_ && _) eqn:E; [|by repeat case_match].
    apply andb_true_iff in E as [E _]. apply existsb_exists in E as (e & He & Hn).
    exists e. split; [by apply list_elem_of_In|]. by apply bool_decide_eq_true in Hn.
  - exists h. split; [|done]. injection Hch as Hc _. apply entries_spec. rewrite Hc.
    apply upsert_strictest. by rewrite decide_True.
Qed.

(** Once a rule for a host has been added, it decides: a denied host is refused whatever else
    the lists say, and an allowed one is no longer refused for want of a rule. *)
Theorem added_rule_takes_effect os broker inp at_ s s' h target host port lookup :
  plain_domain h → h ≠ [] → normalize_host h = h → host_parse host = Some h →
  adds h target at_ → pc_ok at_ → input_ok inp → state_ok s →
  advance os broker inp at_ s = Some (Finished Done, s') →
  match target with
  | DenyList => host_blocked s' host port lookup = Blocked Denied
  | AllowList => host_blocked s' host port lookup ≠ Blocked NotAllowed
  end.
Proof.
  intros Hp Hne Hh Hhost Ha Hpc Hin Hs Hadv.
  destruct (advance_ok _ _ _ _ _ _ _ Hin Hpc Hs Hadv) as [_ [_ Hd Hal _]].
  destruct (added_listed _ _ _ _ _ _ _ _ Ha Hpc Hh Hadv) as (e & He & Hn).
  pose proof (rule_candidate e h Hn Hp Hne Hh) as Hc.
  assert (Hself : ∀ set, h ∈ set → globset_matches_host_or_unscoped set h = true).
  { intros set Hset. unfold globset_matches_host_or_unscoped. apply orb_true_iff. left. apply is_match_elem.
    exists h. split; [done|]. rewrite (proj2 (glob_plain h Hp)). unfold eq_ignore_ascii_case. by apply bool_decide_eq_true. }
  unfold host_blocked. rewrite Hhost. destruct target; unfold entries in He.
  - rewrite (Hself (allow_set s')) by (eapply compile_elem; eauto). simpl. rewrite orb_false_r.
    rewrite bool_decide_false by (intros E; rewrite E in He; set_solver).
    by repeat case_match.
  - by rewrite (Hself (deny_set s')) by (eapply compile_elem; eauto).
Qed.

End added.

(** ** Which hosts are reached *)

(** A host is on a list if one of its patterns covers it, or the address without its scope. *)
Definition listed `{HostEnv} (patterns : list (list N)) (h : str) : Prop :=
  ∃ p, p ∈ patterns ∧ (covers p h ∨ ∃ ip, unscoped_ip_literal h = Some ip ∧ covers p ip).

(** A rule that names a local host, without wildcards. *)
Definition names_explicitly (p h : str) : Prop :=
  star ∉ trim p ∧ question ∉ trim p ∧
  (normalize_host p = h ∨ unscoped_ip_literal h = Some (normalize_host p)).

(** All the addresses of a host are public, as far as is known. *)
Definition resolves_publicly (h : str) (port : N) (lookup : list N → N → option (list IpAddr)) : Prop :=
  match parse_ip h with
  | Some ip => is_non_public_ip ip = false
  | None => ∃ addrs, lookup h port = Some addrs ∧ ∀ a, a ∈ addrs → is_non_public_ip a = false
  end.

Lemma starts_with_star p s : star ∉ s → starts_with (star :: p) s = false.
Proof.
  intros Hs. unfold starts_with. apply bool_decide_eq_false. intros [r E%strip_prefix_Some]. subst. set_solver.
Qed.

Lemma normalize_host_trim p : normalize_host (trim p) = normalize_host p.
Proof. unfold normalize_host. by rewrite trim_idemp. Qed.

Lemma is_explicit_local_allowlisted_spec l h :
  is_explicit_local_allowlisted l h = true ↔ ∃ p, p ∈ l ∧ names_explicitly p h.
Proof.
  unfold is_explicit_local_allowlisted. rewrite existsb_exists. setoid_rewrite <- list_elem_of_In.
  f_equiv. intros p. apply and_iff_compat_l. unfold names_explicitly, contains_char.
  destruct (decide (star ∈ trim p)) as [Hs|Hs].
  { rewrite (bool_decide_true (star ∈ _)) by done. simpl. destruct (_ || _); naive_solver. }
  rewrite (bool_decide_false (star ∈ _)) by done.
  assert (Hstar : trim p ≠ lit "*") by (intros E; apply Hs; rewrite E; left).
  rewrite (bool_decide_false (trim p = _)) by done.
  rewrite (starts_with_star (lit ".") _ Hs : starts_with (lit "*.") _ = false).
  rewrite (starts_with_star (lit "*.") _ Hs : starts_with (lit "**.") _ = false). simpl.
  case_bool_decide as Hq; [naive_solver|]. rewrite orb_true_iff, bool_decide_eq_true, normalize_host_trim.
  destruct (unscoped_ip_literal h) as [ip|]; simpl; rewrite ?bool_decide_eq_true; naive_solver.
Qed.

Lemma resolves_spec h port lookup :
  host_resolves_to_non_public_ip h port lookup = false ↔ resolves_publicly h port lookup.
Proof.
  unfold host_resolves_to_non_public_ip, resolves_publicly. destruct (parse_ip h); [done|].
  destruct (lookup h port) as [addrs|]; [|naive_solver]. rewrite existsb_false. naive_solver.
Qed.

Section reach.
Context `{HostEnvLaws} `{HookEnv}.

Lemma compiled_match w patterns set h :
  compile_globset_with_policy patterns w = Ok set →
  globset_matches_host_or_unscoped set h = true ↔ listed patterns h.
Proof.
  intros Hc. unfold globset_matches_host_or_unscoped, listed.
  rewrite orb_true_iff, (compiled_covers _ _ _ h Hc).
  destruct (unscoped_ip_literal h) as [ip|] eqn:Eip; simpl; [rewrite (compiled_covers _ _ _ ip Hc)|]; naive_solver.
Qed.

Lemma host_blocked_spec s host port lookup h :
  state_ok s → host_parse host = Some h →
  (host_blocked s host port lookup = Blocked Denied ↔ listed (entries DenyList (config s)) h) ∧
  (host_blocked s host port lookup = Allowed ↔
     ¬ listed (entries DenyList (config s)) h ∧ listed (entries AllowList (config s)) h ∧
     (allow_local_binding (config s) = true ∨
      if local_literal h then ∃ p, p ∈ entries AllowList (config s) ∧ names_explicitly p h
      else resolves_publicly h port lookup)).
Proof.
  intros [_ Hd Ha _] Hhost. unfold host_blocked. rewrite Hhost.
  rewrite <- (compiled_match RejectWildcard _ _ h Hd), <- (compiled_match AllowWildcard _ _ h Ha).
  pose proof (is_explicit_local_allowlisted_spec (entries AllowList (config s)) h) as Hex.
  pose proof (resolves_spec h port lookup) as Hres. unfold entries in *.
  assert (Hnone : bool_decide (allowed_domains (config s) = None) = true →
                  globset_matches_host_or_unscoped (allow_set s) h = false).
  { rewrite bool_decide_eq_true. intros E. rewrite E in Ha. injection Ha as <-.
    unfold globset_matches_host_or_unscoped. by destruct (unscoped_ip_literal h). }
  destruct (globset_matches_host_or_unscoped (deny_set s) h); [naive_solver|].
  revert Hnone Hex Hres.
  generalize (globset_matches_host_or_unscoped (allow_set s) h) (host_resolves_to_non_public_ip h port lookup)
    (is_explicit_local_allowlisted (default [] (allowed_domains (config s))) h)
    (bool_decide (allowed_domains (config s) = None)) (allow_local_binding (config s)) (local_literal h).
  intros listed_ public explicit none local lit_ Hnone Hex Hres.
  destruct lit_, local, none, explicit, public, listed_; simpl in *; naive_solver.
Qed.

Lemma host_blocked_denied s host port lookup h :
  state_ok s → host_parse host = Some h →
  listed (entries DenyList (config s)) h → host_blocked s host port lookup = Blocked Denied.
Proof. intros. by apply (host_blocked_spec s host port lookup h). Qed.

(** C13. What [host_blocked] allows, in a policy whose compiled lists are those of its
    configuration (as every policy in force is, see [policy_always_within_constraints]): a host
    that no rule denies and some rule allows, and that is not local unless local hosts are allowed
    or a rule names this very host; a name counts as local if it does not resolve, or if one of its
    addresses is not public.  A rule applies to a host if the glob library matches one of the globs
    that its pattern is expanded to, whatever wildcards the pattern has; for a pattern with plain
    characters behind its prefix, and a lower-case host without a dot at either end, that is: the
    host is equal to the domain or below it, as the prefix says, or the pattern is a single star. *)
Theorem host_blocked_meaning s host port lookup h :
  state_ok s → host_parse host = Some h →
  (host_blocked s host port lookup = Blocked Denied ↔ listed (entries DenyList (config s)) h) ∧
  (host_blocked s host port lookup = Allowed ↔
     ¬ listed (entries DenyList (config s)) h ∧ listed (entries AllowList (config s)) h ∧
     (allow_local_binding (config s) = true ∨
      if local_literal h then ∃ p, p ∈ entries AllowList (config s) ∧ names_explicitly p h
      else resolves_publicly h port lookup)) ∧
  (∀ p, simple_pattern p → clean_host h → covers p h ↔ listed_matches p h = true).
Proof.
  intros Hok Hh. destruct (host_blocked_spec s host port lookup h Hok Hh).
  split_and!; [done..|]. intros p Hp Hc. by apply candidates_match.
Qed.

End reach.

(** ** Concrete runs *)

Section schedule.
Context `{HostEnv} `{HookEnv}.

Fixpoint run_schedule (os : Os) (broker : bool) (l : list (nat * input)) (s : sys) : option sys :=
  match l with
  | [] => Some s
  | (i, inp) :: l =>
      at_ ← tasks s !! i; '(at', g') ← advance os broker inp at_ (guard s);
      run_schedule os broker l (mkSys g' (<[i := at']> (tasks s)))
  end.

Lemma proxy_schedule_steps os broker l s s' :
  Forall (λ p, input_ok (snd p)) l → run_schedule os broker l s = Some s' → rtc (step os broker) s s'.
Proof.
  intros Hl. revert s. induction Hl as [|[i inp] l Hi Hl IH]; intros [g ts]; simpl; [by intros [= <-]|].
  destruct (ts !! i) as [at_|] eqn:Ei; [|done]. simpl.
  destruct (advance os broker inp at_ g) as [[at' g']|] eqn:Ea; [|done]. simpl.
  intros Hr%IH. eapply rtc_l; [|exact Hr]. by eapply step_section.
Qed.

End schedule.

Module DemoProxy.
Import DemoHosts DemoHooks.

Definition os : Os := mkOs (λ _, None) (λ _, None) true.
Definition open_constraints : NetworkProxyConstraints :=
  mkConstraints None (Some Full) None None None None None None None None None.
Definition start_config : NetworkProxyConfig :=
  mkConfig true (lit "http://127.0.0.1:3128") true (lit "http://127.0.0.1:8081") true true false false Full
    (Some [mkEntry (lit "**.example.com") PermAllow]) None false false false false [].
Definition empty_state : ConfigState := mkState default_config [] [] false ∅ open_constraints [] 0.
Definition start : ConfigState :=
  default empty_state (result_ok (build_config_state os start_config open_constraints)).

Lemma start_delivered : delivered start.
Proof. exists os, start_config, open_constraints. split; vm_compute; reflexivity. Qed.
Lemma start_ok : state_ok start.
Proof. apply delivered_ok, start_delivered. Qed.

Definition evil : list N := lit "evil.example.com".
Definition no_reload : input := MaybeReload (Some None).

(** A host is denied while the mode is being changed: both take effect. *)
Definition two_tasks : sys := mkSys start [add_denied_domain evil; Begin (OpMode Limited)].
Definition before_write : list (nat * input) :=
  [(0, no_reload); (1, no_reload); (1, Quiet); (1, Quiet); (0, Quiet)].
Definition midway : sys := default two_tasks (run_schedule os false before_write two_tasks).

Lemma midway_reachable : rtc (step os false) (mkSys start []) midway.
Proof.
  eapply rtc_l; [apply step_start, (starts_add evil DenyList)|].
  eapply rtc_l; [apply step_start, (starts_op (OpMode Limited)); done|].
  apply (proxy_schedule_steps _ _ before_write); [by repeat constructor|]. vm_compute. reflexivity.
Qed.

Definition last_task : pc := default (Finished Done) (tasks midway !! 0%nat).
Definition after : ConfigState := default start (snd <$> advance os false Quiet last_task (guard midway)).

Lemma last_advance : advance os false Quiet last_task (guard midway) = Some (Finished Done, after).
Proof. vm_compute. reflexivity. Qed.

Lemma changes_are_atomic_witness :
  policy after = apply_change (PutRule evil DenyList) (policy (guard midway)) ∧
  mode (config after) = Limited ∧ denied_domains (config after) = Some [evil].
Proof.
  split_and!; [|by vm_compute..].
  apply (changes_are_atomic os false start midway 0 last_task Quiet (Finished Done) after
           start_ok midway_reachable); [by vm_compute|exact last_advance].
Defined.

Lemma policy_always_within_constraints_witness :
  state_ok (guard midway) ∧ mode (config (guard midway)) = Limited.
Proof.
  split; [|by vm_compute].
  exact (policy_always_within_constraints os false start midway start_delivered midway_reachable).
Defined.

Lemma evil_plain : plain_domain evil.
Proof. apply Forall_forall. intros x Hx. apply (proj1 (forallb_forall _ evil)); [by vm_compute|by apply list_elem_of_In]. Qed.

Lemma midway_ok : state_ok (guard midway) ∧ Forall pc_ok (tasks midway).
Proof. apply (proxy_reachable_ok os false start); [apply start_ok|apply midway_reachable]. Qed.

Lemma added_rule_takes_effect_witness :
  host_blocked (guard midway) (lit "evil.example.com:443") 443 (λ _ _, Some [V4 (octets 93 184 215 14)]) = Allowed ∧
  host_blocked after (lit "evil.example.com:443") 443 (λ _ _, Some [V4 (octets 93 184 215 14)]) = Blocked Denied.
Proof.
  split; [by vm_compute|].
  apply (added_rule_takes_effect os false Quiet last_task (guard midway) after evil DenyList
           (lit "evil.example.com:443") 443 (λ _ _, Some [V4 (octets 93 184 215 14)]));
    [exact evil_plain|done|by vm_compute|by vm_compute|by vm_compute| |done|apply midway_ok|exact last_advance].
  destruct midway_ok as [_ Hp]. rewrite Forall_lookup in Hp. apply (Hp 0%nat). by vm_compute.
Defined.

Lemma after_ok : state_ok after.
Proof.
  apply (advance_ok os false Quiet last_task (guard midway) (Finished Done) after); [done| |apply midway_ok|exact last_advance].
  destruct midway_ok as [_ Hp]. rewrite Forall_lookup in Hp. apply (Hp 0%nat). by vm_compute.
Qed.

Lemma host_blocked_meaning_witness :
  host_blocked after evil 443 (λ _ _, None) = Blocked Denied ∧ listed (entries DenyList (config after)) evil.
Proof.
  split; [by vm_compute|].
  assert (Hp : host_parse evil = Some evil) by by vm_compute.
  apply (host_blocked_meaning after evil 443 (λ _ _, None) evil after_ok Hp). by vm_compute.
Defined.

(** ** Records that are lost *)

Definition entry : BlockedRequest :=
  mkBlockedRequest evil (lit "not_allowed") None None None (lit "http") None None None (Some 80%N) 0.

(** A request that is recorded as blocked between the two sections of [update_domain_list] is
    gone when the update is written. *)
Example blocked_entry_lost :
  let s := run_schedule os false
             [(0, no_reload); (0, Quiet); (1, no_reload); (1, Quiet); (0, Quiet)]
             (mkSys start [add_denied_domain evil; Begin (OpRecord entry None)]) in
  (tasks <$> s) = Some [Finished Done; Finished Done] ∧
  (blocked ∘ guard <$> s) = Some [] ∧ (blocked_total ∘ guard <$> s) = Some 0%N.
Proof. split_and!; vm_compute; reflexivity. Qed.

(** [force_reload] keeps the buffered requests and forgets how many there were. *)
Example force_reload_resets_total :
  let s := run_schedule os false
             [(0, no_reload); (0, Quiet); (1, ReloadNow (Some start)); (1, Quiet)]
             (mkSys start [Begin (OpRecord entry None); ForceBegin]) in
  (tasks <$> s) = Some [Finished Done; Finished Done] ∧
  (length ∘ blocked ∘ guard <$> s) = Some 1 ∧ (blocked_total ∘ guard <$> s) = Some 0%N.
Proof. split_and!; vm_compute; reflexivity. Qed.

End DemoProxy.
