(* ===== verification/NetworkPolicy.v ===== *)
(** * Policy decisions of the proxy (network-proxy/src/network_policy.rs and its callers)

    [evaluate_host_policy] asks the compiled policy about a host, and the decider about hosts no
    rule mentions.  The handlers of the four protocols ([http_connect_accept],
    [http_plain_proxy], [handle_socks5_tcp], [inspect_socks5_udp]) and of requests inside an
    intercepted tunnel ([evaluate_mitm_policy]) combine it with the switch of the proxy, the mode
    and the hooks.

    A handler reads the state several times, and the state may change in between: [reads i] is
    what its [i]-th call sees, [None] if reloading fails there.  Log lines and the texts of
    responses are left out; the requests recorded as blocked are kept. *)

From stdpp Require Import prelude strings list gmap.
From S2P Require Import Prelude RustStr IpAddr HostPolicy MitmHooks NetworkConfig ProxyState.

(** ** Requests and decisions *)

Inductive NetworkProtocol := Http | HttpsConnect | Socks5Tcp | Socks5Udp.
#[global] Instance network_protocol_eq_dec : EqDecision NetworkProtocol.
Proof. solve_decision. Defined.

Definition as_policy_protocol (p : NetworkProtocol) : list N :=
  match p with
  | Http => lit "http" | HttpsConnect => lit "https_connect"
  | Socks5Tcp => lit "socks5_tcp" | Socks5Udp => lit "socks5_udp"
  end.

Inductive NetworkPolicyDecision := PolicyDeny | PolicyAsk.
Definition policy_decision_as_str (d : NetworkPolicyDecision) : list N :=
  match d with PolicyDeny => lit "deny" | PolicyAsk => lit "ask" end.

Inductive NetworkDecisionSource := BaselinePolicy | ModeGuard | FromProxyState | FromDecider.
Definition source_as_str (s : NetworkDecisionSource) : list N :=
  match s with
  | BaselinePolicy => lit "baseline_policy" | ModeGuard => lit "mode_guard"
  | FromProxyState => lit "proxy_state" | FromDecider => lit "decider"
  end.

Record NetworkPolicyRequest := mkPolicyRequest {
  req_protocol : NetworkProtocol;
  req_host : list N;
  req_port : N;
  req_environment_id : option (list N);
  req_client_addr : option (list N);
  req_method : option (list N);
  req_command : option (list N);
  req_exec_policy_hint : option (list N);
  req_execution_id : option (list N) }.

Inductive NetworkDecision :=
| Allow
| Deny (reason : list N) (source : NetworkDecisionSource) (decision : NetworkPolicyDecision).

Definition REASON_POLICY_DENIED : list N := lit "policy_denied".
Definition REASON_METHOD_NOT_ALLOWED : list N := lit "method_not_allowed".
Definition REASON_MITM_HOOK_DENIED : list N := lit "mitm_hook_denied".
Definition REASON_MITM_REQUIRED : list N := lit "mitm_required".
Definition REASON_PROXY_DISABLED : list N := lit "proxy_disabled".

Definition or_policy_denied (reason : list N) : list N :=
  if bool_decide (reason = []) then REASON_POLICY_DENIED else reason.
Definition deny_with_source (reason : list N) (source : NetworkDecisionSource) : NetworkDecision :=
  Deny (or_policy_denied reason) source PolicyDeny.
Definition ask_with_source (reason : list N) (source : NetworkDecisionSource) : NetworkDecision :=
  Deny (or_policy_denied reason) source PolicyAsk.
Definition deny (reason : list N) : NetworkDecision := deny_with_source reason FromDecider.
Definition ask (reason : list N) : NetworkDecision := ask_with_source reason FromDecider.

Definition map_decider_decision (d : NetworkDecision) : NetworkDecision :=
  match d with
  | Allow => Allow
  | Deny reason _ decision => Deny reason FromDecider decision
  end.

(** The fields of the audit event that depend on the decision. *)
Record PolicyAudit := mkAudit {
  audit_decision : list N;
  audit_source : NetworkDecisionSource;
  audit_reason : list N;
  audit_override : bool }.

(** The execution a state handle is bound to. *)
Record Attribution := mkAttribution { attr_environment_id : option (list N); attr_execution_id : option (list N) }.

Definition for_decider (a : Attribution) (request : NetworkPolicyRequest) : NetworkPolicyRequest :=
  mkPolicyRequest (req_protocol request) (req_host request) (req_port request)
    (match req_environment_id request with Some e => Some e | None => attr_environment_id a end)
    (req_client_addr request) (req_method request) (req_command request)
    (req_exec_policy_hint request) (attr_execution_id a).

Section env.
Context `{HostEnv}.

Notation Lookup := (list N → N → option (list IpAddr)).
Notation Decider := (NetworkPolicyRequest → NetworkDecision).

Definition evaluate_host_policy (a : Attribution) (lookup : Lookup) (decider : option Decider)
    (s : ConfigState) (request : NetworkPolicyRequest) : NetworkDecision * PolicyAudit :=
  let '(decision, policy_override) :=
    match host_blocked s (req_host request) (req_port request) lookup with
    | Allowed => (Allow, false)
    | Blocked NotAllowed =>
        match decider with
        | Some decide_ =>
            let d := map_decider_decision (decide_ (for_decider a request)) in
            (d, match d with Allow => true | Deny _ _ _ => false end)
        | None => (deny_with_source (reason_as_str NotAllowed) BaselinePolicy, false)
        end
    | Blocked reason => (deny_with_source (reason_as_str reason) BaselinePolicy, false)
    end in
  (decision,
   match decision with
   | Allow => mkAudit (lit "allow") (if policy_override then FromDecider else BaselinePolicy)
                (if policy_override then reason_as_str NotAllowed else lit "allow") policy_override
   | Deny reason source d => mkAudit (policy_decision_as_str d) source reason policy_override
   end).

(** ** What a handler answers *)

Inductive answer (A : Type) :=
| Granted (a : A)
| Refused (reason : list N)                     (* a blocked response, with the reason *)
| Invalid                                       (* a request that is not well formed *)
| Broken.                                       (* an internal error *)
Arguments Granted {A}. Arguments Refused {A}. Arguments Invalid {A}. Arguments Broken {A}.

(** The caller's address, its environment, the handle's execution and the time. *)
Record Caller := mkCaller {
  client : option (list N);
  environment_id : option (list N);
  attribution : Attribution;
  now : Z }.

Definition blocked_entry (c : Caller) (host reason : list N) (method : option (list N))
    (m : option NetworkMode) (protocol : list N)
    (details : option (NetworkPolicyDecision * NetworkDecisionSource)) (port : N) : BlockedRequest :=
  mkBlockedRequest host reason (client c) method m protocol None
    (policy_decision_as_str ∘ fst <$> details) (source_as_str ∘ snd <$> details) (Some port) (now c).

Definition policy_request (c : Caller) (p : NetworkProtocol) (host : list N) (port : N)
    (method : option (list N)) : NetworkPolicyRequest :=
  mkPolicyRequest p host port (environment_id c) (client c) method None None None.

Inductive HostMitmRequirement := NoMitmNeeded | Tls | Always.

(** [broker] tells the hosts for which the credential broker has a credential. *)
Definition host_mitm_requirement (broker : list N → bool) (s : ConfigState) (host : str) :
    HostMitmRequirement :=
  let normalized_host := normalize_host host in
  if bool_decide (is_Some (hooks_by_host s !! normalized_host)) then Always
  else if broker normalized_host then Tls else NoMitmNeeded.

Inductive MitmMode := MitmDisabled | MitmEnabled | DetectTls.
Definition mitm_mode_for (m : NetworkMode) (r : HostMitmRequirement) : MitmMode :=
  match m with
  | Limited => MitmEnabled
  | Full => match r with NoMitmNeeded => MitmDisabled | Tls => DetectTls | Always => MitmEnabled end
  end.

(** A tunnel that was granted: how it is run, and the mode its inner requests are held to. *)
Record Tunnel := mkTunnel {
  tunnel_host : list N; tunnel_port : N; tunnel_mitm : MitmMode; tunnel_mode : NetworkMode }.

(** How a tunnel is run ([http_connect_proxy], [proxy_socks5_tcp]): [has_state] says whether it carries
    a [MitmState], [is_tls] whether the stream begins with a TLS hello. *)
Inductive Route := RawRoute | InnerRequests.
Definition tunnel_route (t : Tunnel) (has_state is_tls : bool) : option Route :=
  let intercepted := if has_state then Some InnerRequests else None in
  match tunnel_mitm t with
  | MitmDisabled => Some RawRoute
  | MitmEnabled => intercepted
  | DetectTls => if is_tls then intercepted else Some RawRoute
  end.

(** [TargetCheckedStreamConnector::connect] before it connects: whether the address is let through,
    [None] if the state cannot be read. *)
Inductive TargetPolicy := PolicyConfig (allow_local : bool) | PolicyState (read : option ConfigState).
Definition policy_allow_local_binding (p : TargetPolicy) : option bool :=
  match p with
  | PolicyConfig b => Some b
  | PolicyState read => allow_local_binding ∘ config <$> read
  end.
Definition target_connect_allowed (p : TargetPolicy) (addr : IpAddr) : option bool :=
  (λ allow_local, negb (negb allow_local && is_non_public_ip addr)) <$> policy_allow_local_binding p.

Context (broker : list N → bool) (lookup : Lookup) (decider : option Decider) (c : Caller)
  (reads : nat → option ConfigState).

(** [http_connect_accept]; [authority] is the host and port of the request. *)
Definition http_connect_accept (authority : option (list N * N)) : list BlockedRequest * answer Tunnel :=
  match authority with
  | None => ([], Invalid)
  | Some (authority_host, port) =>
      let host := normalize_host authority_host in
      let connect := Some (lit "CONNECT") in
      if bool_decide (host = []) then ([], Invalid)
      else match reads 0 with
      | None => ([], Broken)
      | Some s =>
          if negb (enabled (config s)) then
            ([blocked_entry c host REASON_PROXY_DISABLED connect None (as_policy_protocol HttpsConnect)
                (Some (PolicyDeny, FromProxyState)) port], Refused REASON_PROXY_DISABLED)
          else match reads 1 with
          | None => ([], Broken)
          | Some s =>
              match fst (evaluate_host_policy (attribution c) lookup decider s
                           (policy_request c HttpsConnect host port connect)) with
              | Deny reason source decision =>
                  ([blocked_entry c host reason connect None (lit "http-connect")
                      (Some (decision, source)) port], Refused reason)
              | Allow =>
                  match reads 2, reads 3, reads 4 with
                  | Some s_mode, Some s_mitm, Some s_req =>
                      let m := mode (config s_mode) in
                      let mitm_mode := mitm_mode_for m (host_mitm_requirement broker s_req host) in
                      match mitm_mode, has_mitm s_mitm with
                      | MitmEnabled, false =>
                          ([blocked_entry c host REASON_MITM_REQUIRED connect (Some m) (lit "http-connect")
                              (Some (PolicyDeny, ModeGuard)) port], Refused REASON_MITM_REQUIRED)
                      | _, _ => ([], Granted (mkTunnel host port mitm_mode m))
                      end
                  | _, _, _ => ([], Broken)
                  end
              end
          end
      end
  end.

(** The path of [http_plain_proxy] for requests to hosts (without [x-unix-socket]); [host_header_ok]
    is [validate_absolute_form_host_header].  A granted request is forwarded. *)
Definition http_plain_proxy (method : list N) (authority : option (list N * N)) (host_header_ok : bool) :
    list BlockedRequest * answer (list N * N) :=
  match reads 0 with
  | None => ([], Broken)
  | Some s_method =>
      let method_allowed := allows_method (mode (config s_method)) method in
      match authority with
      | None => ([], Invalid)
      | Some (authority_host, port) =>
          let host := normalize_host authority_host in
          if negb host_header_ok then ([], Invalid)
          else match reads 1 with
          | None => ([], Broken)
          | Some s =>
              if negb (enabled (config s)) then
                ([blocked_entry c host REASON_PROXY_DISABLED (Some method) None (as_policy_protocol Http)
                    (Some (PolicyDeny, FromProxyState)) port], Refused REASON_PROXY_DISABLED)
              else match reads 2 with
              | None => ([], Broken)
              | Some s =>
                  match fst (evaluate_host_policy (attribution c) lookup decider s
                               (policy_request c Http host port (Some method))) with
                  | Deny reason source decision =>
                      ([blocked_entry c host reason (Some method) None (lit "http")
                          (Some (decision, source)) port], Refused reason)
                  | Allow =>
                      if negb method_allowed then
                        ([blocked_entry c host REASON_METHOD_NOT_ALLOWED (Some method) (Some Limited)
                            (lit "http") (Some (PolicyDeny, ModeGuard)) port],
                         Refused REASON_METHOD_NOT_ALLOWED)
                      else match reads 3, reads 4 with
                           | Some _, Some _ => ([], Granted (host, port))
                           | _, _ => ([], Broken)
                           end
                  end
              end
          end
      end
  end.

Definition handle_socks5_tcp (authority_host : list N) (port : N) : list BlockedRequest * answer Tunnel :=
  let host := normalize_host authority_host in
  let block reason m details := ([blocked_entry c host reason None m (lit "socks5") (Some details) port],
                                 Refused reason) in
  if bool_decide (host = []) then ([], Invalid)
  else match reads 0 with
  | None => ([], Broken)
  | Some s =>
      if negb (enabled (config s)) then block REASON_PROXY_DISABLED None (PolicyDeny, FromProxyState)
      else match reads 1 with
      | None => ([], Broken)
      | Some s_mode =>
          let m := mode (config s_mode) in
          let target_is_https := (port =? 443)%N in
          if bool_decide (m = Limited) && negb target_is_https
          then block REASON_METHOD_NOT_ALLOWED (Some Limited) (PolicyDeny, ModeGuard)
          else match reads 2 with
          | None => ([], Broken)
          | Some s =>
              match fst (evaluate_host_policy (attribution c) lookup decider s
                           (policy_request c Socks5Tcp host port None)) with
              | Deny reason source decision => block reason None (decision, source)
              | Allow =>
                  match reads 3, reads 4 with
                  | Some s_req, Some s_mitm =>
                      let requirement := host_mitm_requirement broker s_req host in
                      let mitm_mode := mitm_mode_for m requirement in
                      let unsupported_hook_protocol :=
                        match requirement with Always => negb target_is_https | _ => false end in
                      let needs_state := match mitm_mode with MitmDisabled => false | _ => true end in
                      if unsupported_hook_protocol || (needs_state && negb (has_mitm s_mitm))
                      then block REASON_MITM_REQUIRED (Some m) (PolicyDeny, ModeGuard)
                      else ([], Granted (mkTunnel host port mitm_mode m))
                  | _, _ => ([], Broken)
                  end
              end
          end
      end
  end.

Definition inspect_socks5_udp (server_ip : list N) (port : N) : list BlockedRequest * answer (list N * N) :=
  let host := normalize_host server_ip in
  let block reason m details := ([blocked_entry c host reason None m (lit "socks5-udp") (Some details) port],
                                 Refused reason) in
  if bool_decide (host = []) then ([], Invalid)
  else match reads 0 with
  | None => ([], Broken)
  | Some s =>
      if negb (enabled (config s)) then block REASON_PROXY_DISABLED None (PolicyDeny, FromProxyState)
      else match reads 1 with
      | None => ([], Broken)
      | Some s_mode =>
          match mode (config s_mode) with
          | Limited => block REASON_METHOD_NOT_ALLOWED (Some Limited) (PolicyDeny, ModeGuard)
          | Full =>
              match reads 2 with
              | None => ([], Broken)
              | Some s =>
                  match fst (evaluate_host_policy (attribution c) lookup decider s
                               (policy_request c Socks5Udp host port None)) with
                  | Deny reason source decision => block reason None (decision, source)
                  | Allow => ([], Granted (host, port))
                  end
              end
          end
      end
  end.

(** [evaluate_mitm_policy], for a request inside the tunnel [t]; [request_host] is its [Host] header
    or authority.  A granted request carries the actions of its hook. *)
Definition evaluate_mitm_policy `{HookEnv} (t : Tunnel) (req : Request) (request_host : option (list N)) :
    list BlockedRequest * answer (option MitmHookActions) :=
  let block reason := ([blocked_entry c (tunnel_host t) reason (Some (method req)) (Some (tunnel_mode t))
                          (lit "https") None (tunnel_port t)], Refused reason) in
  if bool_decide (method req = lit "CONNECT") then ([], Invalid)
  else if match request_host with
          | Some h => negb (bool_decide (normalize_host h = []))
                      && negb (bool_decide (normalize_host h = tunnel_host t))
          | None => false
          end then ([], Invalid)
  else match reads 0 with
  | None => ([], Broken)
  | Some s =>
      match host_blocked s (tunnel_host t) (tunnel_port t) lookup with
      | Blocked NotAllowedLocal => block (reason_as_str NotAllowedLocal)
      | _ =>
          match reads 1 with
          | None => ([], Broken)
          | Some s =>
              let by_method hook_actions :=
                if negb (allows_method (tunnel_mode t) (method req)) then block REASON_METHOD_NOT_ALLOWED
                else ([], Granted hook_actions) in
              match evaluate_mitm_hooks (hooks_by_host s) (tunnel_host t) req with
              | Matched actions => by_method (Some actions)
              | HookedHostNoMatch => block REASON_MITM_HOOK_DENIED
              | NoHooksForHost => by_method None
              end
          end
      end
  end.

End env.

Arguments Granted {A}. Arguments Refused {A}. Arguments Invalid {A}. Arguments Broken {A}.
