(* ===== verification/NetworkPolicyLaws.v ===== *)
(** * Laws of the proxy's decisions

    What passes the proxy: only hosts a rule or the decider allows; in limited mode only requests
    that read; hosts with hooks only through them; and with the approval service as the decider,
    only hosts that a rule allows or that were consented to. *)

From stdpp Require Import prelude strings list gmap relations.
From S2P Require Import Prelude RustStr IpAddr HostPolicy MitmHooks NetworkConfig ProxyState ProxyStateLaws.
From S2P Require Import NetworkPolicy.

Section laws.
Context `{HostEnv}.

Lemma evaluate_allow a lookup decider s request :
  fst (evaluate_host_policy a lookup decider s request) = Allow ↔
  host_blocked s (req_host request) (req_port request) lookup = Allowed ∨
  host_blocked s (req_host request) (req_port request) lookup = Blocked NotAllowed ∧
  ∃ d, decider = Some d ∧ d (for_decider a request) = Allow.
Proof.
  unfold evaluate_host_policy.
  destruct (host_blocked s _ _ lookup) as [|[]] eqn:E; simpl; try naive_solver.
  destruct decider as [d|]; simpl; [|naive_solver].
  destruct (d (for_decider a request)) eqn:Ed; simpl; split; try done; [intros _; right; eauto|].
  intros [?|[_ (d' & [= <-] & Hd)]]; congruence.
Qed.

Lemma decision_str_not_allow d : policy_decision_as_str d ≠ lit "allow".
Proof. by destruct d. Qed.

(** A request is allowed exactly when the policy allows its host, or when no rule mentions the
    host and the decider allows it; the audit event says which. *)
Theorem allowed_by_rule_or_decider a lookup decider s request :
  let '(decision, audit) := evaluate_host_policy a lookup decider s request in
  let verdict := host_blocked s (req_host request) (req_port request) lookup in
  (decision = Allow ↔
     verdict = Allowed ∨
     verdict = Blocked NotAllowed ∧ ∃ d, decider = Some d ∧ d (for_decider a request) = Allow) ∧
  (audit_override audit = true ↔ decision = Allow ∧ verdict ≠ Allowed) ∧
  (audit_decision audit = lit "allow" ↔ decision = Allow).
Proof.
  pose proof (evaluate_allow a lookup decider s request) as Ha. revert Ha. unfold evaluate_host_policy.
  pose proof decision_str_not_allow as Hd.
  destruct (host_blocked s _ _ lookup) as [|[]] eqn:E; [| |destruct decider as [d|];
    [destruct (d (for_decider a request)) as [|r src dd] eqn:Ed|]|]; simpl; intros Ha;
    (split; [exact Ha|]); split; split; intros Hx; try done; try (by destruct Hx as [? []]);
    try (by destruct Hx); by apply Hd in Hx.
Qed.

(** ** What the handlers grant *)

Context (broker : list N → bool) (lookup : list N → N → option (list IpAddr))
  (decider : option (NetworkPolicyRequest → NetworkDecision)) (c : Caller) (reads : nat → option ConfigState).

Notation allowed_at s p host port m :=
  (fst (evaluate_host_policy (attribution c) lookup decider s (policy_request c p host port m)) = Allow).

Lemma connect_granted authority l t :
  http_connect_accept broker lookup decider c reads authority = (l, Granted t) →
  ∃ s0 s1 s2 s3 s4, reads 0 = Some s0 ∧ reads 1 = Some s1 ∧ reads 2 = Some s2 ∧ reads 3 = Some s3 ∧
    reads 4 = Some s4 ∧ enabled (config s0) = true ∧
    allowed_at s1 HttpsConnect (tunnel_host t) (tunnel_port t) (Some (lit "CONNECT")) ∧
    tunnel_mode t = mode (config s2) ∧
    tunnel_mitm t = mitm_mode_for (tunnel_mode t) (host_mitm_requirement broker s4 (tunnel_host t)) ∧
    (tunnel_mitm t = MitmEnabled → has_mitm s3 = true).
Proof.
  unfold http_connect_accept. intros Hc. repeat (case_match; simplify_eq/=; try done);
    repeat match goal with H : negb _ = false |- _ => apply negb_false_iff in H end;
    eexists _, _, _, _, _; split_and!; try done; congruence.
Qed.

Lemma plain_granted m authority ok l h port :
  http_plain_proxy lookup decider c reads m authority ok = (l, Granted (h, port)) →
  ∃ s0 s1 s2, reads 0 = Some s0 ∧ reads 1 = Some s1 ∧ reads 2 = Some s2 ∧ enabled (config s1) = true ∧
    allowed_at s2 Http h port (Some m) ∧ allows_method (mode (config s0)) m = true.
Proof.
  unfold http_plain_proxy. intros Hc. repeat (case_match; simplify_eq/=; try done);
    repeat match goal with H : negb _ = false |- _ => apply negb_false_iff in H end;
    eexists _, _, _; split_and!; try done.
Qed.

Lemma socks_granted host port l t :
  handle_socks5_tcp broker lookup decider c reads host port = (l, Granted t) →
  ∃ s0 s1 s2 s3 s4, reads 0 = Some s0 ∧ reads 1 = Some s1 ∧ reads 2 = Some s2 ∧ reads 3 = Some s3 ∧
    reads 4 = Some s4 ∧ enabled (config s0) = true ∧
    allowed_at s2 Socks5Tcp (tunnel_host t) (tunnel_port t) None ∧
    tunnel_mode t = mode (config s1) ∧
    tunnel_mitm t = mitm_mode_for (tunnel_mode t) (host_mitm_requirement broker s3 (tunnel_host t)) ∧
    (tunnel_mitm t = MitmEnabled → has_mitm s4 = true ∧ tunnel_port t = 443%N).
Proof.
  unfold handle_socks5_tcp.
  destruct (bool_decide (normalize_host host = [])); [done|].
  destruct (reads 0) as [s0|]; [|done]. destruct (enabled (config s0)) eqn:E0; [|done].
  destruct (reads 1) as [s1|]; [|done].
  destruct (bool_decide (mode (config s1) = Limited) && negb (port =? 443)%N) eqn:E1; [done|].
  destruct (reads 2) as [s2|]; [|done]. destruct (evaluate_host_policy _ _ _ s2 _).1 eqn:E2; [|done].
  destruct (reads 3) as [s3|]; [|done]. destruct (reads 4) as [s4|]; [|done]. simpl.
  destruct (_ || _) eqn:E3; [done|]. intros [= <- <-]. apply orb_false_iff in E3 as [E3 E4].
  eexists _, _, _, _, _. split_and!; try done. simpl. intros Hm. rewrite Hm in E4.
  split; [by destruct (has_mitm s4)|]. apply N.eqb_eq. destruct (port =? 443)%N; [done|].
  destruct (mode (config s1)), (host_mitm_requirement _ _ _); done.
Qed.

Lemma udp_granted ip port l h p :
  inspect_socks5_udp lookup decider c reads ip port = (l, Granted (h, p)) →
  ∃ s0 s1 s2, reads 0 = Some s0 ∧ reads 1 = Some s1 ∧ reads 2 = Some s2 ∧ enabled (config s0) = true ∧
    mode (config s1) = Full ∧ allowed_at s2 Socks5Udp h p None.
Proof.
  unfold inspect_socks5_udp. intros Hc. repeat (case_match; simplify_eq/=; try done);
    repeat match goal with H : negb _ = false |- _ => apply negb_false_iff in H end;
    eexists _, _, _; split_and!; try done.
Qed.

(** A request that the policy let through: the proxy was enabled, and at the moment it was asked the
    host was allowed by a rule, or no rule mentioned it and the decider allowed it. *)
Definition passed (p : NetworkProtocol) (host : list N) (port : N) (m : option (list N)) : Prop :=
  ∃ i j s s', reads i = Some s ∧ reads j = Some s' ∧ enabled (config s) = true ∧
    (host_blocked s' host port lookup = Allowed ∨
     host_blocked s' host port lookup = Blocked NotAllowed ∧
     ∃ d, decider = Some d ∧ d (for_decider (attribution c) (policy_request c p host port m)) = Allow).

Lemma granted_passed :
  (∀ authority l t, http_connect_accept broker lookup decider c reads authority = (l, Granted t) →
     passed HttpsConnect (tunnel_host t) (tunnel_port t) (Some (lit "CONNECT"))) ∧
  (∀ m authority ok l h port, http_plain_proxy lookup decider c reads m authority ok = (l, Granted (h, port)) →
     passed Http h port (Some m)) ∧
  (∀ host port l t, handle_socks5_tcp broker lookup decider c reads host port = (l, Granted t) →
     passed Socks5Tcp (tunnel_host t) (tunnel_port t) None) ∧
  (∀ ip port l h p, inspect_socks5_udp lookup decider c reads ip port = (l, Granted (h, p)) →
     passed Socks5Udp h p None).
Proof.
  split_and!.
  - intros * (s0 & s1 & s2 & s3 & s4 & R0 & R1 & _ & _ & _ & He & Ha & _)%connect_granted.
    exists 0, 1, s0, s1. by rewrite evaluate_allow in Ha.
  - intros * (s0 & s1 & s2 & _ & R1 & R2 & He & Ha & _)%plain_granted.
    exists 1, 2, s1, s2. by rewrite evaluate_allow in Ha.
  - intros * (s0 & s1 & s2 & s3 & s4 & R0 & _ & R2 & _ & _ & He & Ha & _)%socks_granted.
    exists 0, 2, s0, s2. by rewrite evaluate_allow in Ha.
  - intros * (s0 & s1 & s2 & R0 & _ & R2 & He & _ & Ha)%udp_granted.
    exists 0, 2, s0, s2. by rewrite evaluate_allow in Ha.
Qed.

(** ** Limited mode *)

Definition reads_only (m : list N) : Prop := m ∈ [lit "GET"; lit "HEAD"; lit "OPTIONS"].

Lemma limited_method m : allows_method Limited m = true → reads_only m.
Proof.
  unfold allows_method, reads_only. rewrite !orb_true_iff, !bool_decide_eq_true. set_solver.
Qed.

Lemma mitm_granted `{HookEnv} t req rh l a :
  evaluate_mitm_policy lookup c reads t req rh = (l, Granted a) →
  allows_method (tunnel_mode t) (method req) = true ∧
  ∃ s s', reads 0 = Some s ∧ reads 1 = Some s' ∧
    host_blocked s (tunnel_host t) (tunnel_port t) lookup ≠ Blocked NotAllowedLocal ∧
    evaluate_mitm_hooks (hooks_by_host s') (tunnel_host t) req =
      match a with Some actions => Matched actions | None => NoHooksForHost end.
Proof.
  unfold evaluate_mitm_policy.
  destruct (bool_decide _); [done|]. destruct (match rh with Some _ => _ | None => _ end); [done|].
  destruct (reads 0) as [s|]; [|done].
  destruct (host_blocked s _ _ lookup) as [|[]] eqn:Hb; try done;
    (destruct (reads 1) as [s'|]; [|done]; destruct (evaluate_mitm_hooks _ _ _) as [|acts|] eqn:Eh; try done;
     destruct (allows_method _ _) eqn:Em; try done; intros [= <- <-]; (split; [done|]); exists s, s'; by rewrite Hb, Eh).
Qed.

(** C8. In limited mode nothing but reading reaches the network: a plain request has a reading
    method; a tunnel, over HTTP or SOCKS, is never forwarded as it is, and the requests inside
    it have a reading method; there is no UDP. *)
Theorem limited_mode_only_reads `{HookEnv} :
  (∀ m authority ok l x s, http_plain_proxy lookup decider c reads m authority ok = (l, Granted x) →
     reads 0 = Some s → mode (config s) = Limited → reads_only m) ∧
  (∀ authority l t, http_connect_accept broker lookup decider c reads authority = (l, Granted t) →
     tunnel_mode t = Limited → ∀ st tls, tunnel_route t st tls ≠ Some RawRoute) ∧
  (∀ host port l t, handle_socks5_tcp broker lookup decider c reads host port = (l, Granted t) →
     tunnel_mode t = Limited → ∀ st tls, tunnel_route t st tls ≠ Some RawRoute) ∧
  (∀ t req rh l a, evaluate_mitm_policy lookup c reads t req rh = (l, Granted a) →
     tunnel_mode t = Limited → reads_only (method req)) ∧
  (∀ ip port l x s, inspect_socks5_udp lookup decider c reads ip port = (l, Granted x) →
     reads 1 = Some s → mode (config s) = Full).
Proof.
  split_and!.
  - intros m authority ok l [h port] s (s0 & s1 & s2 & R0 & _ & _ & _ & _ & Hm)%plain_granted R0' Hl.
    simplify_eq. rewrite Hl in Hm. by apply limited_method.
  - intros * (s0 & s1 & s2 & s3 & s4 & _ & _ & _ & _ & _ & _ & _ & _ & Hm & _)%connect_granted Hl st tls.
    rewrite Hl in Hm. unfold tunnel_route. rewrite Hm. by destruct st.
  - intros * (s0 & s1 & s2 & s3 & s4 & _ & _ & _ & _ & _ & _ & _ & _ & Hm & _)%socks_granted Hl st tls.
    rewrite Hl in Hm. unfold tunnel_route. rewrite Hm. by destruct st.
  - intros * [Hm _]%mitm_granted Hl. rewrite Hl in Hm. by apply limited_method.
  - intros ip port l [h p] s (s0 & s1 & s2 & _ & R1 & _ & _ & Hm & _)%udp_granted R1'. by simplify_eq.
Qed.

(** ** Hooks *)

Definition has_hooks (s : ConfigState) (host : list N) : Prop :=
  is_Some (hooks_by_host s !! normalize_host host).

(** A host with hooks is reached through them alone, in full mode too: its tunnels are
    intercepted, over SOCKS on the port of HTTPS only, and a request inside is let through only
    if one of its hooks matches. *)
Theorem hooked_host_is_intercepted `{HookEnv} :
  (∀ authority l t s, http_connect_accept broker lookup decider c reads authority = (l, Granted t) →
     reads 4 = Some s → has_hooks s (tunnel_host t) →
     tunnel_mitm t = MitmEnabled) ∧
  (∀ host port l t s, handle_socks5_tcp broker lookup decider c reads host port = (l, Granted t) →
     reads 3 = Some s → has_hooks s (tunnel_host t) →
     tunnel_mitm t = MitmEnabled ∧ tunnel_port t = 443%N) ∧
  (∀ t req rh l a s, evaluate_mitm_policy lookup c reads t req rh = (l, Granted a) →
     reads 1 = Some s → has_hooks s (tunnel_host t) →
     ∃ hooks h, hooks_by_host s !! normalize_host (tunnel_host t) = Some hooks ∧ h ∈ hooks ∧
       hook_matches h req = true ∧ a = Some (actions h)).
Proof.
  assert (Hreq : ∀ s host m, has_hooks s host →
            mitm_mode_for m (host_mitm_requirement broker s host) = MitmEnabled).
  { intros s host m Hs. unfold host_mitm_requirement. rewrite bool_decide_true by done. by destruct m. }
  split_and!.
  - intros * (s0 & s1 & s2 & s3 & s4 & _ & _ & _ & _ & R4 & _ & _ & _ & Hm & _)%connect_granted R4' Hs.
    simplify_eq. rewrite Hm. by apply Hreq.
  - intros * (s0 & s1 & s2 & s3 & s4 & _ & _ & _ & R3 & _ & _ & _ & _ & Hm & Hp)%socks_granted R3' Hs.
    simplify_eq. rewrite (Hreq _ _ _ Hs) in Hm. split; [done|]. by apply Hp.
  - intros t req rh l a s (_ & s0 & s1 & _ & R1 & _ & He)%mitm_granted R1' [hooks Hh]. simplify_eq.
    unfold evaluate_mitm_hooks in He. rewrite Hh in He.
    destruct a as [a|]; [|by apply first_match_some in He].
    apply first_match_Matched in He as (l1 & h & l2 & -> & Hm & Ha & _). exists (l1 ++ h :: l2), h.
    split_and!; [done|set_solver|done|by rewrite Ha].
Qed.

(** ** Records of refusals *)

(** A refusal is recorded, once and with its reason; nothing else is. *)
Definition recorded {A} (r : list BlockedRequest * answer A) : Prop :=
  match r with
  | (l, Refused reason) => ∃ e, l = [e] ∧ br_reason e = reason
  | (l, _) => l = []
  end.

Theorem refusals_are_recorded `{HookEnv} authority m ok host port t req rh :
  recorded (http_connect_accept broker lookup decider c reads authority) ∧
  recorded (http_plain_proxy lookup decider c reads m authority ok) ∧
  recorded (handle_socks5_tcp broker lookup decider c reads host port) ∧
  recorded (inspect_socks5_udp lookup decider c reads host port) ∧
  recorded (evaluate_mitm_policy lookup c reads t req rh).
Proof.
  unfold http_connect_accept, http_plain_proxy, handle_socks5_tcp, inspect_socks5_udp, evaluate_mitm_policy.
  split_and!; repeat case_match; simpl; eauto.
Qed.

End laws.

(** ** Denied hosts *)

Section denied.
Context `{HostEnvLaws} `{HookEnv}.
Context (broker : list N → bool) (lookup : list N → N → option (list IpAddr))
  (decider : option (NetworkPolicyRequest → NetworkDecision)) (c : Caller) (reads : nat → option ConfigState).

(** The policy has the compiled lists of its configuration, and a pattern of the deny list covers
    the host. *)
Definition denies (h : list N) (s : ConfigState) : Prop :=
  state_ok s ∧ listed (entries DenyList (config s)) h.

(** C7. A host that the policy in force denies is reached over no protocol, whatever the decider says
    and however the rest of the policy changes meanwhile.  The policy denies a host if the glob
    library matches it with one of the globs of a pattern of its deny list, wildcards inside labels
    included.  Condition: in each of the states that the handler reads, a pattern denies the host,
    and the state is one that is in force, its glob sets being the compiled lists of its
    configuration (see [policy_always_within_constraints]). *)
Theorem denied_host_never_reached h :
  (∀ i s, reads i = Some s → denies h s) →
  (∀ authority l t, http_connect_accept broker lookup decider c reads authority = (l, Granted t) →
     host_parse (tunnel_host t) ≠ Some h) ∧
  (∀ m authority ok l x port, http_plain_proxy lookup decider c reads m authority ok = (l, Granted (x, port)) →
     host_parse x ≠ Some h) ∧
  (∀ host port l t, handle_socks5_tcp broker lookup decider c reads host port = (l, Granted t) →
     host_parse (tunnel_host t) ≠ Some h) ∧
  (∀ ip port l x p, inspect_socks5_udp lookup decider c reads ip port = (l, Granted (x, p)) →
     host_parse x ≠ Some h).
Proof.
  intros Hreads.
  assert (Hno : ∀ p x port m, host_parse x = Some h → ¬ passed lookup decider c reads p x port m).
  { intros p x port m Hx (i & j & s & s' & _ & Hj & _ & Hs).
    destruct (Hreads j s' Hj) as [Hok Hl].
    pose proof (host_blocked_denied s' x port lookup h Hok Hx Hl) as Hb. rewrite Hb in Hs.
    by destruct Hs as [|[? _]]. }
  destruct (granted_passed broker lookup decider c reads) as (H1' & H2' & H3' & H4').
  split_and!; intros; intros Hx; eapply Hno; eauto.
Qed.

End denied.

(** ** A concrete denial *)

Module DemoPolicy.
Import DemoHosts DemoHooks DemoProxy.

Definition caller : Caller := mkCaller None None (mkAttribution None None) 0.
Definition yes (_ : NetworkPolicyRequest) : NetworkDecision := Allow.

(** A decider that allows everything does not open a denied host. *)
Lemma denied_host_never_reached_witness :
  (http_connect_accept (λ _, false) (λ _ _, None) (Some yes) caller (λ _, Some after)
    (Some (lit "evil.example.com", 443%N))).2 = Refused (lit "denied") ∧
  ∀ m authority ok l x port,
    http_plain_proxy (λ _ _, None) (Some yes) caller (λ _, Some after) m authority ok = (l, Granted (x, port)) →
    host_parse x ≠ Some evil.
Proof.
  split; [by vm_compute|].
  apply (denied_host_never_reached (λ _, false) (λ _ _, None) (Some yes) caller (λ _, Some after) evil).
  intros i s E0. apply (inj Some) in E0. subst s. split; [exact after_ok|].
  exists evil. split; [|left; exists evil; split; [by left|by vm_compute]].
  assert (E : entries DenyList (config after) = [evil]) by by vm_compute. rewrite E. apply list_elem_of_here.
Defined.

(** A host with a hook is intercepted in full mode. *)
Definition hooked : ConfigState :=
  mkState (set_domains (Some [mkEntry (lit "api.github.com") PermAllow])
             (set_credential_broker_enabled true (set_mode Full (mkConfig true [] true [] true true false false Full
                None None false true true false [github_hook]))))
    [lit "api.github.com"] [] true compiled open_constraints [] 0.

Example full_mode_intercepts_hooked_host :
  mode (config hooked) = Full ∧
  http_connect_accept (λ _, false) (λ _ _, Some []) None caller (λ _, Some hooked) (Some (lit "api.github.com", 443%N))
  = ([], Granted (mkTunnel (lit "api.github.com") 443 MitmEnabled Full)).
Proof. split; vm_compute; reflexivity. Qed.

End DemoPolicy.
