(* ===== verification/ProxyApproval.v ===== *)
(** * The proxy with the approval service as its decider (core/src/tools/network_approval.rs)

    [build_network_policy_decider] hands the requests that no rule mentions to
    [handle_inline_policy_request], whose handlers NetworkApproval models.  Put together: what
    reaches the network is a host that a rule allows, or one that was consented to. *)

From stdpp Require Import prelude strings list gmap relations.
From S2P Require Import Prelude RustStr IpAddr HostPolicy MitmHooks NetworkConfig ProxyState ProxyStateLaws.
From S2P Require Import NetworkPolicy NetworkPolicyLaws Orchestrator NetworkApproval NetworkApprovalLaws.
Import NetworkApprovalLaws.

(** The protocol of a request, as the handler translates it. *)
Definition approval_protocol (p : NetworkProtocol) : Orchestrator.NetworkApprovalProtocol :=
  match p with
  | Http => Orchestrator.ProtoHttp
  | HttpsConnect => Orchestrator.ProtoHttps
  | Socks5Tcp => Orchestrator.ProtoSocks5Tcp
  | Socks5Udp => Orchestrator.ProtoSocks5Udp
  end.

Definition approval_request (r : NetworkPolicyRequest) : NetworkApproval.NetworkPolicyRequest :=
  NetworkApproval.mkNetRequest (approval_protocol (req_protocol r)) (req_host r) (req_port r)
    (req_environment_id r) (req_execution_id r).

Definition approval_decision (d : NetworkApproval.NetworkDecision) : NetworkDecision :=
  match d with
  | NetworkApproval.NetAllow => Allow
  | NetworkApproval.NetDeny reason => deny reason
  end.

(** The decider that [build_network_policy_decider] makes: it asks for approval if the session is
    gone, and else answers what the handler of the request answers. *)
Definition decided_by (sess : NetworkApproval.session) (d : NetworkPolicyRequest → NetworkDecision) : Prop :=
  ∀ r, d r = ask (lit "not_allowed") ∨
       ∃ i key a, NetworkApproval.requests sess !! i = Some (approval_request r) ∧
                  NetworkApproval.handlers sess !! i = Some (NetworkApproval.Answered key a) ∧
                  d r = approval_decision a.

Section reached.
Context `{HostEnv}.
Context (broker : list N → bool) (lookup : list N → N → option (list IpAddr)) (c : Caller)
  (reads : nat → option ConfigState).

(** At some moment a rule allowed the host. *)
Definition allowed_by_rule (host : list N) (port : N) : Prop :=
  ∃ i s, reads i = Some s ∧ host_blocked s host port lookup = Allowed.

(** A hook, a reviewer or the user consented to the host, with this protocol and port, and the
    policy did not mention it. *)
Definition consented_to (sess : NetworkApproval.session) (p : NetworkProtocol) (host : list N) (port : N) : Prop :=
  (∃ i s, reads i = Some s ∧ host_blocked s host port lookup = Blocked NotAllowed) ∧
  ∃ environment, consented (NetworkApproval.answers sess)
    (NetworkApproval.mkHostKey environment (to_ascii_lowercase host)
       (NetworkApproval.protocol_key_label (approval_protocol p)) port).

Lemma passed_by_rule_or_consent sess d p host port m :
  rtc NetworkApproval.step NetworkApproval.initial sess → decided_by sess d →
  passed lookup (Some d) c reads p host port m → allowed_by_rule host port ∨ consented_to sess p host port.
Proof.
  intros Hs Hd (i & j & s & s' & _ & Hj & _ & [Ha|(Hb & d' & [= <-] & Hall)]); [left; by exists j, s'|].
  right. split; [by exists j, s'|].
  destruct (Hd (for_decider (attribution c) (policy_request c p host port m))) as [E|(k & key & a & Hr & Hh & E)];
    rewrite E in Hall; [done|]. destruct a; [|done].
  destruct (answered_allow_consented sess k key Hs Hh) as (request & e & Hreq & _ & Hc).
  exists e. rewrite Hr in Hreq. injection Hreq as <-. done.
Qed.

(** C6. End to end: whatever a command sends through the proxy, over HTTP, CONNECT, SOCKS or UDP, goes
    to a host that a rule of the policy allows, or to one that no rule mentions and for which
    consent was given: for this host, this protocol and this port, in this session or in one whose
    approved hosts were copied into it. *)
Theorem reached_by_rule_or_consent sess d :
  rtc NetworkApproval.step NetworkApproval.initial sess → decided_by sess d →
  let ok p host port := allowed_by_rule host port ∨ consented_to sess p host port in
  (∀ authority l t, http_connect_accept broker lookup (Some d) c reads authority = (l, Granted t) →
     ok HttpsConnect (tunnel_host t) (tunnel_port t)) ∧
  (∀ m authority b l h port, http_plain_proxy lookup (Some d) c reads m authority b = (l, Granted (h, port)) →
     ok Http h port) ∧
  (∀ host port l t, handle_socks5_tcp broker lookup (Some d) c reads host port = (l, Granted t) →
     ok Socks5Tcp (tunnel_host t) (tunnel_port t)) ∧
  (∀ ip port l h p, inspect_socks5_udp lookup (Some d) c reads ip port = (l, Granted (h, p)) →
     ok Socks5Udp h p).
Proof.
  intros Hs Hd ok. destruct (granted_passed broker lookup (Some d) c reads) as (H1 & H2 & H3 & H4).
  split_and!; intros; eapply passed_by_rule_or_consent; eauto.
Qed.

End reached.

(** ** A session in which the user approves a host *)

Module DemoReached.
Import DemoHosts DemoHooks DemoProxy DemoPolicy.

Definition lower_request : NetworkApproval.NetworkPolicyRequest :=
  NetworkApproval.mkNetRequest Orchestrator.ProtoHttps (lit "x.org") 443 None (Some (lit "c1")).
Definition asked : NetworkApproval.session :=
  NetworkApproval.with_request lower_request
    (NetworkApproval.with_svc
       (NetworkApproval.register_call (lit "c1") (lit "local") NetworkApproval.new_service) NetworkApproval.initial).
Definition consent_schedule : list (nat * NetworkApproval.input) :=
  [(0, NetworkApproval.TurnIs (Some ex_net_turn)); (0, NetworkApproval.Quiet); (0, NetworkApproval.Quiet);
   (0, NetworkApproval.Quiet); (0, NetworkApproval.HookSays None);
   (0, NetworkApproval.ReviewSays Orchestrator.ApprovedForSession [])]
  ++ replicate 6 (0, NetworkApproval.Quiet).
Definition approved : NetworkApproval.session :=
  default NetworkApproval.initial (NetworkApprovalLaws.run_schedule consent_schedule asked).

Lemma approved_reachable : rtc NetworkApproval.step NetworkApproval.initial approved.
Proof.
  apply (schedule_reachable consent_schedule asked); [|vm_compute; reflexivity].
  eapply rtc_l; [apply (NetworkApproval.step_register (lit "c1") (lit "local"))|].
  eapply rtc_l; [apply (NetworkApproval.step_request lower_request)|]. apply rtc_refl.
Qed.
Definition cmd_caller : Caller := mkCaller None None (mkAttribution None (Some (lit "c1"))) 0.

(** The decider of that session: the handler of the request answered. *)
Definition session_decider (r : NetworkPolicyRequest) : NetworkDecision :=
  if bool_decide (req_protocol r = HttpsConnect ∧ req_host r = lit "x.org" ∧ req_port r = 443%N ∧
                  req_environment_id r = None ∧ req_execution_id r = Some (lit "c1")) then Allow else ask (lit "not_allowed").

Lemma session_decides : decided_by approved session_decider.
Proof.
  intros r. unfold session_decider. case_bool_decide as E; [|by left]. destruct E as (Ep & Eh & Eport & Ee & Ex).
  right. exists 0, (Some ex_host), NetworkApproval.NetAllow. unfold approval_request. rewrite Ep, Eh, Eport, Ee, Ex.
  split_and!; vm_compute; reflexivity.
Qed.

Definition x_lookup (_ : list N) (_ : N) : option (list IpAddr) := Some [V4 (octets 93 184 215 14)].

Lemma reached_by_rule_or_consent_witness :
  http_connect_accept (λ _, false) x_lookup (Some session_decider) cmd_caller (λ _, Some start)
    (Some (lit "X.org", 443%N)) = ([], Granted (mkTunnel (lit "x.org") 443 MitmDisabled Full)) ∧
  (allowed_by_rule x_lookup (λ _, Some start) (lit "x.org") 443 ∨
   consented_to x_lookup (λ _, Some start) approved HttpsConnect (lit "x.org") 443).
Proof.
  assert (Hc : http_connect_accept (λ _, false) x_lookup (Some session_decider) cmd_caller (λ _, Some start)
                 (Some (lit "X.org", 443%N)) = ([], Granted (mkTunnel (lit "x.org") 443 MitmDisabled Full)))
    by (vm_compute; reflexivity).
  split; [exact Hc|].
  assert (Hr : rtc NetworkApproval.step NetworkApproval.initial approved)
    by exact approved_reachable.
  exact (proj1 (reached_by_rule_or_consent (λ _, false) x_lookup cmd_caller (λ _, Some start) approved
                  session_decider Hr session_decides) _ _ _ Hc).
Defined.

End DemoReached.
