(* ===== verification/ProxySpec.v ===== *)
(** * The proxy a session starts (core/src/config/network_proxy_spec.rs, config/src/config_requirements.rs)

    [NetworkProxySpec] puts the user's network configuration under an administrator's requirements
    ([apply_requirements]), adds the network rules of the exec policy, and starts the proxy.  The
    states it builds are the ones the proxy's reloader delivers. *)

From stdpp Require Import prelude strings list gmap pretty.
From S2P Require Import Prelude RustStr IpAddr HostPolicy MitmHooks NetworkConfig ProxyState ProxyStateLaws NetworkPolicy NetworkPolicyLaws ExecPolicy Permissions.

(** ** Requirements *)

Inductive NetworkDomainPermissionToml := TomlAllow | TomlDeny.
#[global] Instance toml_permission_eq_dec : EqDecision NetworkDomainPermissionToml.
Proof. solve_decision. Defined.

(** The maps are listed in the order of their keys. *)
Record NetworkConstraints := mkRequirements {
  r_enabled : option bool;
  r_http_port : option N;
  r_socks_port : option N;
  r_allow_upstream_proxy : option bool;
  r_dangerously_allow_non_loopback_proxy : option bool;
  r_dangerously_allow_all_unix_sockets : option bool;
  r_domains : option (list (list N * NetworkDomainPermissionToml));
  r_managed_allowed_domains_only : option bool;
  r_unix_sockets : option (list (list N * NetworkDomainPermissionToml));
  r_allow_local_binding : option bool }.

Definition toml_with (p : NetworkDomainPermissionToml) (entries : list (list N * NetworkDomainPermissionToml)) :
    list (list N) := fst <$> filter (λ e, snd e = p) entries.
Definition toml_allowed_domains (entries : list (list N * NetworkDomainPermissionToml)) : option (list (list N)) :=
  non_empty (toml_with TomlAllow entries).
Definition toml_denied_domains (entries : list (list N * NetworkDomainPermissionToml)) : option (list (list N)) :=
  non_empty (toml_with TomlDeny entries).
Definition toml_allow_unix_sockets (entries : list (list N * NetworkDomainPermissionToml)) : list (list N) :=
  toml_with TomlAllow entries.

(** ** The specification *)

Record NetworkProxySpec := mkSpec {
  base_config : NetworkProxyConfig;
  requirements : option NetworkConstraints;
  spec_config : NetworkProxyConfig;
  spec_constraints : NetworkProxyConstraints;
  hard_deny_allowlist_misses : bool }.

Definition managed_sandbox_active (profile : Permissions.PermissionProfile) : bool :=
  match profile with Permissions.Managed _ _ => true | _ => false end.
Definition allowlist_expansion_enabled (profile : Permissions.PermissionProfile) (hard_deny : bool) : bool :=
  managed_sandbox_active profile && negb hard_deny.
Definition denylist_expansion_enabled (profile : Permissions.PermissionProfile) : bool :=
  managed_sandbox_active profile.
Definition managed_allowed_domains_only (r : NetworkConstraints) : bool :=
  default false (r_managed_allowed_domains_only r).

Fixpoint merge_domain_lists (managed user_entries : list (list N)) : list (list N) :=
  match user_entries with
  | [] => managed
  | entry :: user_entries =>
      merge_domain_lists
        (if existsb (λ m, eq_ignore_ascii_case m entry) managed then managed else managed ++ [entry])
        user_entries
  end.

Definition local_url (port : N) : list N := lit "http://127.0.0.1:" ++ lit (pretty port).

Definition apply_requirements (c : NetworkProxyConfig) (r : NetworkConstraints)
    (profile : Permissions.PermissionProfile) (hard_deny : bool) :
    NetworkProxyConfig * NetworkProxyConstraints :=
  let allow_expansion := allowlist_expansion_enabled profile hard_deny in
  let deny_expansion := denylist_expansion_enabled profile in
  let c := mkConfig
    (default (enabled c) (r_enabled r))
    (from_option local_url (proxy_url c) (r_http_port r))
    (enable_socks5 c)
    (from_option local_url (socks_url c) (r_socks_port r))
    (enable_socks5_udp c)
    (default (allow_upstream_proxy c) (r_allow_upstream_proxy r))
    (default (dangerously_allow_non_loopback_proxy c) (r_dangerously_allow_non_loopback_proxy r))
    (default (dangerously_allow_all_unix_sockets c) (r_dangerously_allow_all_unix_sockets r))
    (mode c) (domains c) (unix_sockets c)
    (default (allow_local_binding c) (r_allow_local_binding r))
    (mitm c) (credential_broker c) (dangerously_allow_plaintext_credential_injection c) (mitm_hooks c) in
  let from_toml := r_domains r ≫= toml_allowed_domains in
  let managed_allowed := if hard_deny then Some (default [] from_toml) else from_toml in
  let c := match managed_allowed with
           | None => c
           | Some managed =>
               set_allowed_domains
                 (if allow_expansion then merge_domain_lists managed (default [] (allowed_domains c)) else managed) c
           end in
  let managed_denied := r_domains r ≫= toml_denied_domains in
  let c := match managed_denied with
           | None => c
           | Some managed =>
               set_denied_domains
                 (if deny_expansion then merge_domain_lists managed (default [] (denied_domains c)) else managed) c
           end in
  let sockets := toml_allow_unix_sockets <$> r_unix_sockets r in
  let c := match sockets with None => c | Some paths => set_allow_unix_sockets paths c end in
  (c, mkConstraints (r_enabled r) None (r_allow_upstream_proxy r) (r_dangerously_allow_non_loopback_proxy r)
        (r_dangerously_allow_all_unix_sockets r)
        managed_allowed (match managed_allowed with Some _ => Some allow_expansion | None => None end)
        managed_denied (match managed_denied with Some _ => Some deny_expansion | None => None end)
        sockets (r_allow_local_binding r)).

Definition no_constraints : NetworkProxyConstraints :=
  mkConstraints None None None None None None None None None None None.

(** [upsert_network_domains]: each host once. *)
Fixpoint upsert_hosts (incoming hosts : list (list N)) (permission : NetworkDomainPermission)
    (c : NetworkProxyConfig) : NetworkProxyConfig :=
  match hosts with
  | [] => c
  | host :: hosts =>
      if bool_decide (host ∈ incoming) then upsert_hosts incoming hosts permission c
      else upsert_hosts (host :: incoming) hosts permission
             (upsert_domain_permission host permission normalize_host c)
  end.
Definition upsert_network_domains (c : NetworkProxyConfig) (hosts : list (list N)) (allow : bool) :
    NetworkProxyConfig := upsert_hosts [] hosts (if allow then PermAllow else PermDeny) c.

Definition apply_exec_policy_network_rules (c : NetworkProxyConfig) (exec_policy : ExecPolicy.Policy) :
    NetworkProxyConfig :=
  let '(allowed, denied) := ExecPolicy.compiled_network_domains exec_policy in
  upsert_network_domains (upsert_network_domains c allowed true) denied false.

Section env.
Context `{HostEnv} `{HookEnv}.

Definition from_config_and_constraints (c : NetworkProxyConfig) (r : option NetworkConstraints)
    (profile : Permissions.PermissionProfile) : result ConstraintError NetworkProxySpec :=
  let hard_deny := from_option managed_allowed_domains_only false r in
  let '(config, constraints) := match r with
                                | Some r => apply_requirements c r profile hard_deny
                                | None => (c, no_constraints)
                                end in
  let? _ := validate_policy_against_constraints config constraints in
  Ok (mkSpec c r config constraints hard_deny).

Definition recompute_for_permission_profile (spec : NetworkProxySpec)
    (profile : Permissions.PermissionProfile) : result ConstraintError NetworkProxySpec :=
  from_config_and_constraints (base_config spec) (requirements spec) profile.

Definition with_exec_policy_network_rules (spec : NetworkProxySpec) (exec_policy : ExecPolicy.Policy) :
    result ConstraintError NetworkProxySpec :=
  let config := apply_exec_policy_network_rules (spec_config spec) exec_policy in
  let? _ := validate_policy_against_constraints config (spec_constraints spec) in
  Ok (mkSpec (base_config spec) (requirements spec) config (spec_constraints spec)
        (hard_deny_allowlist_misses spec)).

Definition build_config_state_for_spec (os : Os) (spec : NetworkProxySpec) : result BuildError ConfigState :=
  build_config_state os (spec_config spec) (spec_constraints spec).

(** The decider that [start_proxy] gives the proxy. *)
Definition start_decider (spec : NetworkProxySpec) (profile : Permissions.PermissionProfile)
    (policy_decider : option (NetworkPolicyRequest → NetworkDecision)) (enable_network_approval_flow : bool) :
    option (NetworkPolicyRequest → NetworkDecision) :=
  if enable_network_approval_flow && negb (hard_deny_allowlist_misses spec) then
    match policy_decider with
    | Some d => Some d
    | None => if managed_sandbox_active profile then Some (λ _, ask (lit "not_allowed")) else None
    end
  else None.

(** The specifications a session makes. *)
Inductive made (r : option NetworkConstraints) : NetworkProxySpec → Prop :=
| made_config c profile spec : from_config_and_constraints c r profile = Ok spec → made r spec
| made_profile spec profile spec' :
    made r spec → recompute_for_permission_profile spec profile = Ok spec' → made r spec'
| made_rules spec exec_policy spec' :
    made r spec → with_exec_policy_network_rules spec exec_policy = Ok spec' → made r spec'.

Lemma from_config_spec c r profile spec :
  from_config_and_constraints c r profile = Ok spec →
  validate_policy_against_constraints (spec_config spec) (spec_constraints spec) = Ok tt ∧
  requirements spec = r ∧ hard_deny_allowlist_misses spec = from_option managed_allowed_domains_only false r ∧
  (∀ q, r = Some q → managed_allowed_domains_only q = true →
     c_allowed_domains (spec_constraints spec) = Some (default [] (r_domains q ≫= toml_allowed_domains)) ∧
     c_allowlist_expansion_enabled (spec_constraints spec) = Some false).
Proof.
  unfold from_config_and_constraints. destruct r as [r|].
  - destruct (apply_requirements c r profile _) as [config constraints] eqn:E.
    intros ([] & Hv & [= <-])%result_bind_ok. split_and!; [done..|]. intros q [= <-] Hq. simpl in *.
    unfold apply_requirements in E. rewrite Hq in E. injection E as _ <-. simpl.
    unfold allowlist_expansion_enabled. by rewrite andb_false_r.
  - intros ([] & Hv & [= <-])%result_bind_ok. done.
Qed.

Lemma made_spec r spec :
  made r spec →
  validate_policy_against_constraints (spec_config spec) (spec_constraints spec) = Ok tt ∧
  requirements spec = r ∧ hard_deny_allowlist_misses spec = from_option managed_allowed_domains_only false r ∧
  (∀ q, r = Some q → managed_allowed_domains_only q = true →
     c_allowed_domains (spec_constraints spec) = Some (default [] (r_domains q ≫= toml_allowed_domains)) ∧
     c_allowlist_expansion_enabled (spec_constraints spec) = Some false).
Proof.
  induction 1 as [c profile spec Hs|spec profile spec' Hm IH Hs|spec policy spec' Hm IH Hs].
  - by eapply from_config_spec.
  - destruct IH as (_ & Hr & _). unfold recompute_for_permission_profile in Hs. rewrite Hr in Hs.
    by eapply from_config_spec.
  - destruct IH as (_ & Hr & Hd & Hq). apply result_bind_ok in Hs as ([] & Hv & [= <-]). done.
Qed.

(** The states built from the specifications of a session are ones that the proxy may be handed:
    each is built from a configuration that keeps its constraints. *)
Theorem session_states_are_delivered os r spec s :
  made r spec → build_config_state_for_spec os spec = Ok s → delivered s.
Proof. intros (Hv & _)%made_spec Hb. by exists os, (spec_config spec), (spec_constraints spec). Qed.

(** C14. When only managed domains are allowed, only they are reached: in every state a session
    builds, whatever its own configuration and exec policy say, each allowed pattern is a managed
    one, and there is no decider to ask about other hosts. *)
Theorem managed_only_allows_managed os q spec s profile decider flow :
  managed_allowed_domains_only q = true → made (Some q) spec → build_config_state_for_spec os spec = Ok s →
  (∀ e, e ∈ entries AllowList (config s) →
     to_ascii_lowercase e ∈ lower_set (default [] (r_domains q ≫= toml_allowed_domains))) ∧
  start_decider spec profile decider flow = None.
Proof.
  intros Hq (Hv & _ & Hd & Hk)%made_spec Hb. destruct (Hk q eq_refl Hq) as [Ha Hx].
  apply build_config_state_ok in Hb as (Hc & _). split.
  - intros e He. rewrite Hc in He. eapply validate_fixed_allowed; eauto.
  - unfold start_decider. rewrite Hd. simpl. by rewrite Hq, andb_false_r.
Qed.

End env.

(** ** A managed session *)

Module DemoSpec.
Import DemoHosts DemoHooks DemoProxy.

Definition managed : NetworkConstraints :=
  mkRequirements None (Some 8123%N) None None None None
    (Some [(lit "api.example.com", TomlAllow); (lit "bad.example.com", TomlDeny)]) (Some true) None None.
Definition profile : Permissions.PermissionProfile :=
  Permissions.Managed Permissions.ManagedUnrestricted Permissions.NetRestricted.
Definition no_spec : NetworkProxySpec := mkSpec default_config None default_config no_constraints false.
Definition spec : NetworkProxySpec :=
  default no_spec (result_ok (from_config_and_constraints start_config (Some managed) profile)).
Definition built : ConfigState := default empty_state (result_ok (build_config_state_for_spec os spec)).

Lemma spec_made : made (Some managed) spec.
Proof. apply (made_config _ start_config profile). vm_compute. reflexivity. Qed.
Lemma built_eq : build_config_state_for_spec os spec = Ok built.
Proof. vm_compute. reflexivity. Qed.

Lemma session_states_are_delivered_witness : delivered built ∧ deny_set built = [lit "bad.example.com"].
Proof.
  split; [|by vm_compute]. exact (session_states_are_delivered os (Some managed) spec built spec_made built_eq).
Defined.

Lemma managed_only_allows_managed_witness :
  entries AllowList (config built) = [lit "api.example.com"] ∧
  to_ascii_lowercase (lit "api.example.com") ∈ lower_set [lit "api.example.com"].
Proof.
  assert (E : entries AllowList (config built) = [lit "api.example.com"]) by by vm_compute.
  split; [exact E|].
  refine (proj1 (managed_only_allows_managed os managed spec built profile None true eq_refl spec_made built_eq)
            (lit "api.example.com") _).
  rewrite E. apply list_elem_of_here.
Defined.

End DemoSpec.
