(* ===== verification/ShellEnv.v ===== *)
(** * The environment of commands (protocol/src/shell_environment.rs, core/src/exec_env.rs)

    Which environment variables a command gets: inherited ones, less the excluded ones, with the
    configured ones, restricted to the included ones.  [wild_matches] is the matching of the crate
    [wildmatch], with [true] for a case-insensitive pattern; the platform is Unix. *)

From stdpp Require Import prelude strings list gmap.
From S2P Require Import Prelude RustStr.

Class WildMatch := wild_matches : bool → list N → list N → bool.

Definition CODEX_THREAD_ID_ENV_VAR : list N := lit "CODEX_THREAD_ID".
Definition CODEX_PERMISSION_PROFILE_ENV_VAR : list N := lit "CODEX_PERMISSION_PROFILE".

Inductive ShellEnvironmentPolicyInherit := InheritCore | InheritAll | InheritNone.

(** A pattern, and whether it ignores case. *)
Record EnvironmentVariablePattern := mkPattern { pattern_text : list N; pattern_ignores_case : bool }.

Record ShellEnvironmentPolicy := mkEnvPolicy {
  inherit : ShellEnvironmentPolicyInherit;
  ignore_default_excludes : bool;
  exclude : list EnvironmentVariablePattern;
  set : gmap (list N) (list N);
  include_only : list EnvironmentVariablePattern;
  use_profile : bool }.

Definition default_env_policy : ShellEnvironmentPolicy := mkEnvPolicy InheritAll true [] ∅ [] false.

Definition UNIX_CORE_ENV_VARS : list (list N) :=
  lit <$> ["PATH"; "SHELL"; "TMPDIR"; "TEMP"; "TMP"; "HOME"; "LANG"; "LC_ALL"; "LC_CTYPE"; "LOGNAME"; "USER"]%string.

Definition default_excludes : list EnvironmentVariablePattern :=
  (λ p, mkPattern (lit p) true) <$> ["*KEY*"; "*SECRET*"; "*TOKEN*"]%string.

Definition is_core (name : list N) : bool := existsb (λ c, eq_ignore_ascii_case c name) UNIX_CORE_ENV_VARS.

(** [vars.into_iter().collect::<HashMap<_, _>>()]: the last value of a name counts. *)
Definition collect_vars (vars : list (list N * list N)) : gmap (list N) (list N) :=
  foldl (λ m kv, <[kv.1 := kv.2]> m) ∅ vars.

(** [env_map.retain(|k, _| keep(k))]. *)
Definition retain_names (keep : list N → bool) (m : gmap (list N) (list N)) : gmap (list N) (list N) :=
  filter (λ kv, keep kv.1 = true) m.

Section env.
Context `{WildMatch}.

Definition pattern_matches_name (name : list N) (p : EnvironmentVariablePattern) : bool :=
  wild_matches (pattern_ignores_case p) (pattern_text p) name.
Definition matches_any (name : list N) (patterns : list EnvironmentVariablePattern) : bool :=
  existsb (pattern_matches_name name) patterns.

Definition populate_env (vars : list (list N * list N)) (policy : ShellEnvironmentPolicy)
    (thread_id : option (list N)) : gmap (list N) (list N) :=
  let env := match inherit policy with
             | InheritAll => collect_vars vars
             | InheritNone => ∅
             | InheritCore => collect_vars (filter (λ kv, is_core kv.1 = true) vars)
             end in
  let env := if negb (ignore_default_excludes policy)
             then retain_names (λ k, negb (matches_any k default_excludes)) env else env in
  let env := match exclude policy with
             | [] => env
             | patterns => retain_names (λ k, negb (matches_any k patterns)) env
             end in
  let env := set policy ∪ env in
  let env := match include_only policy with
             | [] => env
             | patterns => retain_names (λ k, matches_any k patterns) env
             end in
  match thread_id with
  | Some id => <[CODEX_THREAD_ID_ENV_VAR := id]> env
  | None => env
  end.

(** [create_env] for the variables of the process, on Unix. *)
Definition create_env (process_vars : list (list N * list N)) (policy : ShellEnvironmentPolicy)
    (thread_id : option (list N)) : gmap (list N) (list N) := populate_env process_vars policy thread_id.

Definition inject_permission_profile_env (env : gmap (list N) (list N)) (active_profile_id : option (list N)) :
    gmap (list N) (list N) :=
  let env := delete CODEX_PERMISSION_PROFILE_ENV_VAR env in
  match active_profile_id with
  | Some id => <[CODEX_PERMISSION_PROFILE_ENV_VAR := id]> env
  | None => env
  end.

(** ** What a command sees *)

(** The value a name has in the parent: the last one. *)
Definition last_value (vars : list (list N * list N)) (k : list N) : option (list N) :=
  snd <$> last (filter (λ kv, kv.1 = k) vars).

Lemma collect_vars_lookup vars k : collect_vars vars !! k = last_value vars k.
Proof.
  unfold collect_vars, last_value. induction vars as [|[k' v] vars IH] using rev_ind; [done|].
  rewrite foldl_app, filter_app. simpl. destruct (decide (k' = k)) as [->|Hk].
  - rewrite lookup_insert_eq, filter_cons_True, filter_nil by done. by rewrite last_snoc.
  - rewrite lookup_insert_ne, filter_cons_False, filter_nil by done. by rewrite app_nil_r.
Qed.

Lemma retain_names_lookup keep m k : retain_names keep m !! k = if keep k then m !! k else None.
Proof.
  unfold retain_names. rewrite map_lookup_filter. destruct (m !! k) as [v|]; simpl; [|by destruct (keep k)].
  case_guard as E; [by rewrite E|]. by destruct (keep k).
Qed.

Lemma core_filter_lookup vars k :
  collect_vars (filter (λ kv, is_core kv.1 = true) vars) !! k = if is_core k then last_value vars k else None.
Proof.
  rewrite collect_vars_lookup. unfold last_value. rewrite list_filter_filter.
  destruct (is_core k) eqn:Ek.
  - do 2 f_equal. apply list_filter_iff. intros [k' v']; simpl. split; [by intros []|intros ->; done].
  - rewrite (list_filter_iff _ (λ _, False)); [by induction vars|].
    intros [k' v']; simpl. split; [|done]. intros []; subst; congruence.
Qed.

(** A name may pass from the parent. *)
Definition inherits (policy : ShellEnvironmentPolicy) (k : list N) : bool :=
  match inherit policy with InheritAll => true | InheritNone => false | InheritCore => is_core k end
  && (ignore_default_excludes policy || negb (matches_any k default_excludes))
  && negb (matches_any k (exclude policy)).

Definition included (policy : ShellEnvironmentPolicy) (k : list N) : bool :=
  match include_only policy with [] => true | patterns => matches_any k patterns end.

Lemma command_environment_lookup vars policy thread_id k :
  populate_env vars policy thread_id !! k =
  match (if bool_decide (k = CODEX_THREAD_ID_ENV_VAR) then thread_id else None) with
  | Some id => Some id
  | None =>
      if included policy k then
        match set policy !! k with
        | Some v => Some v
        | None => if inherits policy k then last_value vars k else None
        end
      else None
  end.
Proof.
  unfold populate_env. set (env0 := match inherit policy with InheritCore => _ | _ => _ end).
  assert (H0 : env0 !! k = if match inherit policy with InheritAll => true | InheritNone => false | InheritCore => is_core k end
                           then last_value vars k else None).
  { unfold env0. destruct (inherit policy); [apply core_filter_lookup|apply collect_vars_lookup|done]. }
  set (env1 := if negb (ignore_default_excludes policy) then _ else _).
  assert (H1 : env1 !! k = if ignore_default_excludes policy || negb (matches_any k default_excludes)
                           then env0 !! k else None).
  { unfold env1. destruct (ignore_default_excludes policy); [done|]. apply retain_names_lookup. }
  set (env2 := match exclude policy with [] => _ | _ => _ end).
  assert (H2 : env2 !! k = if negb (matches_any k (exclude policy)) then env1 !! k else None).
  { unfold env2. destruct (exclude policy); [done|]. apply retain_names_lookup. }
  set (env3 := set policy ∪ env2).
  assert (H3 : env3 !! k = match set policy !! k with
                           | Some v => Some v
                           | None => if inherits policy k then last_value vars k else None
                           end).
  { unfold env3. rewrite lookup_union, H2, H1, H0. unfold inherits.
    generalize (match inherit policy with InheritAll => true | InheritNone => false | InheritCore => is_core k end)
      (ignore_default_excludes policy || negb (matches_any k default_excludes))
      (negb (matches_any k (exclude policy))).
    intros [] [] []; destruct (set policy !! k), (last_value vars k); done. }
  set (env4 := match include_only policy with [] => _ | _ => _ end).
  assert (H4 : env4 !! k = if included policy k then env3 !! k else None).
  { unfold env4, included. destruct (include_only policy); [done|]. apply retain_names_lookup. }
  rewrite H3 in H4. destruct thread_id as [id|]; [|by case_bool_decide].
  case_bool_decide as Ek; [subst; by rewrite lookup_insert_eq|]. by rewrite lookup_insert_ne.
Qed.

(** The environment of a command, variable by variable: the thread's identifier wins; else a
    variable must be included, and has its configured value, or its last inherited one if its
    name may be inherited. *)
Theorem command_environment vars policy thread_id k :
  populate_env vars policy thread_id !! k =
  match (if bool_decide (k = CODEX_THREAD_ID_ENV_VAR) then thread_id else None) with
  | Some id => Some id
  | None =>
      if included policy k then
        match set policy !! k with
        | Some v => Some v
        | None => if inherits policy k then last_value vars k else None
        end
      else None
  end.
Proof. apply command_environment_lookup. Qed.

End env.

(** ** Secrets *)

(** Without regard to case, [*w*] matches any name that has the letters of [w] in it, in upper or
    lower case, as [wildmatch] documents it. *)
Class WildMatchLaws `(WildMatch) : Prop :=
  wild_infix w name : Forall (λ c, (65 <= c <= 90)%N) w →
    contains_str (to_ascii_lowercase w) (to_ascii_lowercase name) = true →
    wild_matches true (lit "*" ++ w ++ lit "*") name = true.

(** C33. With the default excludes, no variable whose name has KEY, SECRET or TOKEN in it, in upper
    or lower case, passes from the parent: a command sees it only if the policy sets it, with the
    value set there.  Assumed of the crate wildmatch: a pattern [*w*] that ignores case matches
    every name that has [w] in it. *)
Theorem secrets_not_inherited `{WildMatchLaws} vars policy thread_id k v w :
  ignore_default_excludes policy = false →
  w ∈ [lit "KEY"; lit "SECRET"; lit "TOKEN"] →
  contains_str (to_ascii_lowercase w) (to_ascii_lowercase k) = true →
  populate_env vars policy thread_id !! k = Some v → set policy !! k = Some v.
Proof.
  intros Hd Hw Hc. rewrite command_environment_lookup.
  assert (Hi : inherits policy k = false).
  { unfold inherits. rewrite Hd. cbn [orb].
    assert (Hm : matches_any k default_excludes = true).
    { unfold matches_any. apply existsb_exists.
      exists (mkPattern (lit "*" ++ w ++ lit "*") true). split.
      - apply list_elem_of_In. unfold default_excludes. rewrite !elem_of_cons in Hw.
        destruct Hw as [->|[->|[->|Hn]]]; [left|right; left|right; right; left|by apply not_elem_of_nil in Hn].
      - unfold pattern_matches_name. cbn [pattern_ignores_case pattern_text]. apply wild_infix; [|done].
        rewrite !elem_of_cons in Hw.
        destruct Hw as [->|[->|[->|Hn]]]; [..|by apply not_elem_of_nil in Hn]; vm_compute; by repeat constructor. }
    rewrite Hm. cbn [negb]. by rewrite andb_false_r. }
  assert (Ek : k ≠ CODEX_THREAD_ID_ENV_VAR).
  { intros ->. rewrite !elem_of_cons in Hw.
    destruct Hw as [->|[->|[->|Hn]]]; [by vm_compute in Hc..|by apply not_elem_of_nil in Hn]. }
  rewrite bool_decide_false by done. destruct (included policy k); [|done].
  destruct (set policy !! k); [done|]. by rewrite Hi.
Qed.

#[local] Instance demo_wild : WildMatch := λ ci p name,
  contains_str (to_ascii_lowercase (drop 1 (take (length p - 1) p))) (to_ascii_lowercase name).

Lemma demo_wild_laws : WildMatchLaws demo_wild.
Proof.
  intros w name _ Hc. unfold wild_matches, demo_wild. etrans; [|exact Hc]. do 2 f_equal.
  change (lit "*" ++ w ++ lit "*") with (42%N :: (w ++ [42%N])). cbn [length].
  rewrite length_app. cbn [length]. replace (S (length w + 1) - 1) with (S (length w)) by lia.
  cbn [take drop]. rewrite take_app_length. done.
Qed.

Definition demo_policy : ShellEnvironmentPolicy :=
  mkEnvPolicy InheritAll false [] {[lit "API_KEY" := lit "dummy"]} [] false.
Definition demo_vars : list (list N * list N) :=
  [(lit "PATH", lit "/bin"); (lit "API_KEY", lit "real"); (lit "Github_Token", lit "real")].

Lemma secrets_not_inherited_witness :
  populate_env demo_vars demo_policy None !! lit "Github_Token" = None ∧
  populate_env demo_vars demo_policy None !! lit "PATH" = Some (lit "/bin") ∧
  set demo_policy !! lit "API_KEY" = Some (lit "dummy").
Proof.
  split_and!; [by vm_compute..|].
  apply (secrets_not_inherited (H := demo_wild) (H0 := demo_wild_laws) demo_vars demo_policy None (lit "API_KEY")
           (lit "dummy") (lit "KEY")); [done|left|by vm_compute|by vm_compute].
Defined.
