(* ===== verification/RolloutTruncation.v ===== *)
(** * Cutting stored rollouts at turns (core/src/thread_rollout_truncation.rs)

    A rollout is the log of a thread; a roll-back is a marker in it.  Forks of a thread start from
    a part of the log that is cut at a turn of the history as it is after the roll-backs.  Of the
    items the kinds that the cuts look at are kept apart; [parse_visible_hook_prompt] and
    [from_message_content] read the texts of messages and are arguments, and so are the turns that
    the app server's projection finds. *)

From stdpp Require Import prelude strings list sorting.
From S2P Require Import Prelude RustStr ResponseItems ContextManager.
Import ResponseItems ContextManager.

Inductive RolloutItem :=
| RolloutResponse (item : ResponseItem)
| InterAgentCommunication (trigger_turn : bool)
| InterAgentCommunicationMetadata (trigger_turn : bool)
| ThreadRolledBack (num_turns : nat)
| TurnStarted (turn_id : list N)
| OtherItem.

Inductive TurnStatus := Completed | Interrupted | TurnFailed | InProgress.
Inductive TruncationError := TurnNotFound | TurnNotPersisted | TurnInProgress.

Definition usize_max : N := 18446744073709551615.

Section truncation.
Variable is_contextual_user_fragment : ContentItem → bool.
Variable is_inter_agent_instruction_content : list ContentItem → bool.
Variable is_visible_hook_prompt : list ContentItem → bool.
Variable inter_agent_trigger : list ContentItem → option bool.

Notation is_turn := (is_user_turn_boundary is_contextual_user_fragment is_inter_agent_instruction_content).

(** [parse_turn_item(item)] is a [UserMessage]. *)
Definition is_real_user_message_boundary (i : ResponseItem) : bool :=
  match i with
  | Message _ role content _ _ =>
      bool_decide (role = lit "user") && negb (is_visible_hook_prompt content)
      && negb (is_contextual_user_message_content is_contextual_user_fragment content)
  | _ => false
  end.

Definition is_trigger_turn_boundary (i : ResponseItem) : bool :=
  match i with
  | Message _ role content _ _ =>
      bool_decide (role = lit "assistant") && default false (inter_agent_trigger content)
  | _ => false
  end.

Definition rollout_item_is_user_turn_boundary (item : RolloutItem) : bool :=
  match item with
  | RolloutResponse i => is_turn i
  | InterAgentCommunication _ => true
  | _ => false
  end.

Fixpoint user_positions_loop (idx : nat) (items : list RolloutItem) (positions : list nat) : list nat :=
  match items with
  | [] => positions
  | item :: items =>
      user_positions_loop (S idx) items
        match item with
        | RolloutResponse i => if is_real_user_message_boundary i then positions ++ [idx] else positions
        | ThreadRolledBack n => take (length positions - n) positions
        | _ => positions
        end
  end.
Definition user_message_positions_in_rollout (items : list RolloutItem) : list nat :=
  user_positions_loop 0 items [].

(** The item before, in [has_delivery_metadata]. *)
Definition is_metadata (previous : option RolloutItem) : bool :=
  match previous with Some (InterAgentCommunicationMetadata _) => true | _ => false end.

(** Whether an item starts a turn that roll-backs count, and whether forks may start at it. *)
Definition counts_as_turn (previous : option RolloutItem) (item : RolloutItem) : bool :=
  match item with
  | RolloutResponse i =>
      let has_delivery_metadata :=
        match i with AgentMessage _ _ _ _ _ => is_metadata previous | _ => false end in
      is_turn i && negb has_delivery_metadata
  | InterAgentCommunication _ | InterAgentCommunicationMetadata _ => true
  | _ => false
  end.
Definition starts_fork (item : RolloutItem) : bool :=
  match item with
  | RolloutResponse i => is_real_user_message_boundary i || is_trigger_turn_boundary i
  | InterAgentCommunication trigger_turn | InterAgentCommunicationMetadata trigger_turn => trigger_turn
  | _ => false
  end.

(** Where a roll-back of [n > 0] turns begins: at the [n]-th last turn, or at the first. *)
Definition rollback_start (turns : list nat) (n : nat) : option nat :=
  if n <=? length turns then turns !! (length turns - n) else head turns.

Definition push_if (b : bool) (idx : nat) (l : list nat) : list nat := if b then l ++ [idx] else l.

Fixpoint fork_positions_loop (idx : nat) (previous : option RolloutItem) (items : list RolloutItem)
    (turns forks : list nat) : list nat :=
  match items with
  | [] => forks
  | item :: items =>
      match item with
      | ThreadRolledBack n =>
          match (if n =? 0 then None else rollback_start turns n) with
          | Some start =>
              fork_positions_loop (S idx) (Some item) items (take (length turns - n) turns)
                (filter (λ p, p < start) forks)
          | None => fork_positions_loop (S idx) (Some item) items turns forks
          end
      | _ =>
          fork_positions_loop (S idx) (Some item) items
            (push_if (counts_as_turn previous item) idx turns) (push_if (starts_fork item) idx forks)
      end
  end.
Definition fork_turn_positions_in_rollout (items : list RolloutItem) : list nat :=
  fork_positions_loop 0 None items [] [].

Definition truncate_rollout_before_nth_user_message_from_start (items : list RolloutItem) (n_from_start : nat) :
    list RolloutItem :=
  if (N.of_nat n_from_start =? usize_max)%N then items
  else match user_message_positions_in_rollout items !! n_from_start with
       | Some cut_idx => take cut_idx items
       | None => items
       end.

Definition truncate_rollout_to_last_n_fork_turns (items : list RolloutItem) (n_from_end : nat) :
    list RolloutItem :=
  if n_from_end =? 0 then []
  else match rollback_start (fork_turn_positions_in_rollout items) n_from_end with
       | Some keep_idx => drop keep_idx items
       | None => []
       end.

(** [position], [find_map] over the [TurnStarted] items. *)
Fixpoint position (f : RolloutItem → bool) (items : list RolloutItem) : option nat :=
  match items with
  | [] => None
  | item :: items => if f item then Some 0 else S <$> position f items
  end.
Definition is_turn_started (item : RolloutItem) : bool := match item with TurnStarted _ => true | _ => false end.

Definition truncate_rollout_after_turn_id (turns : list (list N * TurnStatus)) (items : list RolloutItem)
    (last_turn_id : list N) : result TruncationError (list RolloutItem) :=
  match list_find (λ t, fst t = last_turn_id) turns with
  | None => Err TurnNotFound
  | Some (_, (_, status)) =>
      match position (λ item, match item with TurnStarted id => bool_decide (id = last_turn_id) | _ => false end) items with
      | None => Err TurnNotPersisted
      | Some target_start_index =>
          match status with
          | InProgress => Err TurnInProgress
          | _ =>
              let from := S target_start_index in
              let cut_index := from_option (λ n, from + n) (length items) (position is_turn_started (drop from items)) in
              Ok (take cut_index items)
          end
      end
  end.

(** ** The history after the roll-backs *)

(** The reference: the items that are left when each roll-back removes all that follows its first
    turn.  An item carries its place, and whether it starts a turn and a fork. *)
Record mark := mkMark { at_ : nat; is_turn_mark : bool; is_fork_mark : bool }.

Definition turns_of (live : list mark) : list nat := at_ <$> filter (λ m, is_turn_mark m = true) live.
Definition forks_of (live : list mark) : list nat := at_ <$> filter (λ m, is_fork_mark m = true) live.

Fixpoint live_loop (idx : nat) (previous : option RolloutItem) (items : list RolloutItem) (live : list mark) :
    list mark :=
  match items with
  | [] => live
  | item :: items =>
      live_loop (S idx) (Some item) items
        match item with
        | ThreadRolledBack n =>
            match (if n =? 0 then None else rollback_start (turns_of live) n) with
            | Some start => filter (λ m, at_ m < start) live
            | None => live
            end
        | _ => live ++ [mkMark idx (counts_as_turn previous item) (starts_fork item)]
        end
  end.
Definition effective_history (items : list RolloutItem) : list mark := live_loop 0 None items [].

Definition ordered (live : list mark) (idx : nat) : Prop :=
  StronglySorted (λ a b, at_ a < at_ b) live ∧ Forall (λ m, at_ m < idx) live.

Lemma filter_at_filter (P : mark → Prop) `{∀ m, Decision (P m)} start (live : list mark) :
  at_ <$> filter P (filter (λ m, at_ m < start) live) = filter (λ p, p < start) (at_ <$> filter P live).
Proof.
  induction live as [|m live IH]; [done|]. rewrite !filter_cons.
  destruct (decide (at_ m < start)) as [Hs|Hs], (decide (P m)) as [Hm|Hm]; rewrite ?filter_cons, ?fmap_cons, ?filter_cons.
  - by rewrite !decide_True, fmap_cons, IH by done.
  - by rewrite decide_False, IH by done.
  - by rewrite decide_False, IH by done.
  - done.
Qed.

Lemma filter_none {A} (P : A → Prop) `{∀ x, Decision (P x)} (l : list A) : Forall (λ x, ¬ P x) l → filter P l = [].
Proof. induction 1; [done|]. by rewrite filter_cons_False. Qed.

Lemma Forall_kept {A} (P Q : A → Prop) `{∀ x, Decision (P x)} (l : list A) : Forall Q l → Forall Q (filter P l).
Proof. rewrite !Forall_forall. intros Hl x [_ Hx]%list_elem_of_filter. auto. Qed.

Lemma sorted_filter_lt (l : list nat) k start :
  StronglySorted lt l → l !! k = Some start → filter (λ p, p < start) l = take k l.
Proof.
  revert k. induction l as [|x l IH]; intros k Hs Hk; [done|]. apply StronglySorted_inv in Hs as [Hs Hx].
  destruct k as [|k]; simpl in Hk.
  - injection Hk as ->. rewrite filter_cons_False by lia. apply filter_none.
    eapply Forall_impl; [exact Hx|]. simpl. lia.
  - assert (x < start) by (rewrite Forall_lookup in Hx; by eapply Hx).
    rewrite filter_cons_True by done. simpl. f_equal. by apply IH.
Qed.

Lemma rollback_start_take (l : list nat) n start :
  StronglySorted lt l → rollback_start l n = Some start → filter (λ p, p < start) l = take (length l - n) l.
Proof.
  intros Hs. unfold rollback_start. destruct (Nat.leb_spec n (length l)).
  - by apply sorted_filter_lt.
  - intros Hh. replace (length l - n) with 0 by lia. apply (sorted_filter_lt l 0); [done|].
    by destruct l.
Qed.

Lemma sorted_marks (P : mark → Prop) `{∀ m, Decision (P m)} (live : list mark) :
  StronglySorted (λ a b, at_ a < at_ b) live → StronglySorted lt (at_ <$> filter P live).
Proof.
  induction 1 as [|m live Hs IH Hm]; [constructor|]. rewrite filter_cons. case_decide; [|done].
  rewrite fmap_cons. constructor; [done|]. apply Forall_fmap. by apply Forall_kept.
Qed.
Lemma sorted_kept (P : mark → Prop) `{∀ m, Decision (P m)} (live : list mark) :
  StronglySorted (λ a b, at_ a < at_ b) live → StronglySorted (λ a b, at_ a < at_ b) (filter P live).
Proof.
  induction 1 as [|m live Hs IH Hm]; [constructor|]. rewrite filter_cons. case_decide; [|done].
  constructor; [done|]. by apply Forall_kept.
Qed.

Lemma ordered_push live idx m : ordered live idx → at_ m = idx → ordered (live ++ [m]) (S idx).
Proof.
  intros [Hs Hf] Hm. split.
  - apply StronglySorted_app. split_and!; [|done|repeat constructor].
    intros a b Ha Hb%list_elem_of_singleton. subst. rewrite Forall_forall in Hf. auto.
  - apply Forall_app. split; [eapply Forall_impl; [exact Hf|]; simpl; lia|]. constructor; [lia|done].
Qed.

Lemma ordered_cut live idx start : ordered live idx → ordered (filter (λ m, at_ m < start) live) (S idx).
Proof.
  intros [Hs Hf]. split; [by apply sorted_kept|]. apply Forall_kept. eapply Forall_impl; [exact Hf|]. simpl. lia.
Qed.

Lemma ordered_next live idx : ordered live idx → ordered live (S idx).
Proof. intros [Hs Hf]. split; [done|]. eapply Forall_impl; [exact Hf|]. simpl. lia. Qed.

Lemma push_turns live idx b c : turns_of (live ++ [mkMark idx b c]) = push_if b idx (turns_of live).
Proof.
  unfold turns_of, push_if. rewrite filter_app, fmap_app, filter_cons, filter_nil. simpl. destruct b; simpl.
  - done.
  - by rewrite app_nil_r.
Qed.

Lemma push_forks live idx b c : forks_of (live ++ [mkMark idx b c]) = push_if c idx (forks_of live).
Proof.
  unfold forks_of, push_if. rewrite filter_app, fmap_app, filter_cons, filter_nil. simpl. destruct c; simpl.
  - done.
  - by rewrite app_nil_r.
Qed.

Lemma fork_positions_loop_live items idx previous live :
  ordered live idx →
  fork_positions_loop idx previous items (turns_of live) (forks_of live) = forks_of (live_loop idx previous items live) ∧
  ∃ idx', ordered (live_loop idx previous items live) idx'.
Proof.
  revert idx previous live. induction items as [|item items IH]; intros idx previous live Ho; [by eauto|].
  assert (Hpush : ∀ b c, fork_positions_loop (S idx) (Some item) items (push_if b idx (turns_of live))
                           (push_if c idx (forks_of live))
                         = forks_of (live_loop (S idx) (Some item) items (live ++ [mkMark idx b c])) ∧
                         ∃ idx', ordered (live_loop (S idx) (Some item) items (live ++ [mkMark idx b c])) idx').
  { intros b c. rewrite <- (push_turns live idx b c), <- (push_forks live idx b c). apply IH. by apply ordered_push. }
  destruct item; try apply Hpush. cbn [fork_positions_loop live_loop].
  destruct (if num_turns =? 0 then None else rollback_start (turns_of live) num_turns) as [start|] eqn:E;
    [|by apply IH, ordered_next].
  assert (Hr : rollback_start (turns_of live) num_turns = Some start) by by destruct (num_turns =? 0).
  assert (Ht : take (length (turns_of live) - num_turns) (turns_of live) = turns_of (filter (λ m, at_ m < start) live)).
  { unfold turns_of at 3. rewrite filter_at_filter. symmetry. apply rollback_start_take; [|done].
    apply sorted_marks, Ho. }
  assert (Hf : filter (λ p, p < start) (forks_of live) = forks_of (filter (λ m, at_ m < start) live)).
  { unfold forks_of at 2. by rewrite filter_at_filter. }
  rewrite Ht, Hf. by apply IH, ordered_cut.
Qed.

(** The places where a fork may start are those of the history that the roll-backs leave: reading
    the log once, with two lists of places, gives what removing the rolled-back items would. *)
Theorem fork_positions_are_effective items :
  fork_turn_positions_in_rollout items = forks_of (effective_history items).
Proof. apply (fork_positions_loop_live items 0 None []). split; constructor. Qed.

(** A fork from the last [n] turns keeps the log from the [n]-th last of them on: the cut is where
    an effective fork turn starts, and exactly the last [n], or all if there are fewer, lie behind
    it. *)
Theorem last_fork_turns_kept items n :
  0 < n → forks_of (effective_history items) ≠ [] →
  ∃ keep, truncate_rollout_to_last_n_fork_turns items n = drop keep items ∧
    keep ∈ forks_of (effective_history items) ∧
    length (filter (λ p, keep ≤ p) (forks_of (effective_history items)))
    = min n (length (forks_of (effective_history items))).
Proof.
  intros Hn Hne. unfold truncate_rollout_to_last_n_fork_turns.
  destruct (fork_positions_loop_live items 0 None []) as [Hl (idx' & Ho & _)]; [split; constructor|].
  rewrite (Hl : fork_turn_positions_in_rollout items = _).
  change (live_loop 0 None items []) with (effective_history items) in *.
  set (l := forks_of (effective_history items)) in *.
  assert (Hs : StronglySorted lt l) by by apply sorted_marks.
  rewrite (proj2 (Nat.eqb_neq n 0)) by lia.
  assert (Hk : ∃ k keep, rollback_start l n = Some keep ∧ l !! k = Some keep ∧ k = length l - n).
  { unfold rollback_start. destruct (Nat.leb_spec n (length l)).
    - destruct (lookup_lt_is_Some_2 l (length l - n)) as [keep Hkeep]; [lia|]. eauto.
    - replace (length l - n) with 0 by lia. destruct l as [|x l']; [done|]. exists 0, x. done. }
  destruct Hk as (k & keep & -> & Hk & Ek). exists keep. split_and!; [done|by eapply list_elem_of_lookup_2|].
  assert (Hcut : length (filter (λ p, p < keep) l) + length (filter (λ p, keep ≤ p) l) = length l).
  { clear. induction l as [|x l IH]; [done|]. rewrite !filter_cons.
    destruct (decide (x < keep)), (decide (keep ≤ x)); simpl; lia. }
  rewrite (sorted_filter_lt l k keep Hs Hk), length_take in Hcut. apply lookup_lt_Some in Hk. lia.
Qed.

End truncation.

(** ** Concrete rollouts *)

Module DemoRollout.

Definition user_item (t : string) : RolloutItem :=
  RolloutResponse (Message None (lit "user") [InputText (lit t)] None None).

(** The turns of a user and of another agent; the last two turns are rolled back. *)
Definition rolled_back : list RolloutItem :=
  [OtherItem; user_item "a"; InterAgentCommunication true; user_item "b"; ThreadRolledBack 2; user_item "c"].

Notation forks := (fork_turn_positions_in_rollout (λ _, false) (λ _, false) (λ _, false) (λ _, None)).
Notation users := (user_message_positions_in_rollout (λ _, false) (λ _, false)).
Notation history := (effective_history (λ _, false) (λ _, false) (λ _, false) (λ _, None)).

Lemma last_fork_turns_kept_witness :
  forks rolled_back = [1; 5] ∧
  ∃ keep, truncate_rollout_to_last_n_fork_turns (λ _, false) (λ _, false) (λ _, false) (λ _, None) rolled_back 1
          = drop keep rolled_back ∧ keep ∈ forks_of (history rolled_back).
Proof.
  split; [by vm_compute|].
  destruct (last_fork_turns_kept (λ _, false) (λ _, false) (λ _, false) (λ _, None) rolled_back 1) as (keep & H1 & H2 & _).
  - lia.
  - by vm_compute.
  - by exists keep.
Defined.

(** The positions of user messages, where roll-backs count user messages only: the message of the
    user that is still in the history is missed when a roll-back removed another agent's turn. *)
Example user_positions_miss_a_turn :
  let items := [user_item "a"; InterAgentCommunication true; ThreadRolledBack 1] in
  forks_of (history items) = [0] ∧ users items = [] ∧
  truncate_rollout_before_nth_user_message_from_start (λ _, false) (λ _, false) items 0 = items.
Proof. split_and!; vm_compute; reflexivity. Qed.

End DemoRollout.
