(* ===== verification/FuzzyMatch.v ===== *)
(** * Fuzzy matching (utils/fuzzy-match/src/lib.rs)

    The filter of pickers and completions: the letters of the needle are looked for in the haystack
    in order, without regard to case.  [lower] is [char::to_lowercase], which may give several
    characters, and [lower_str] is [str::to_lowercase].  Positions are cast to [i32]. *)

From stdpp Require Import prelude strings list sorting.
From S2P Require Import Prelude RustStr.

Definition as_i32 (n : nat) : Z := ((Z.of_nat n + 2 ^ 31) `mod` 2 ^ 32 - 2 ^ 31)%Z.
Definition i32_max_score : Z := 2147483647.

Section fuzzy.
Variable lower : N → list N.
Variable lower_str : list N → list N.

(** [lowered_chars] and [lowered_to_orig_char_idx], together. *)
Fixpoint lowered (orig_idx : nat) (haystack : str) : list (N * nat) :=
  match haystack with
  | [] => []
  | ch :: haystack => ((λ lc, (lc, orig_idx)) <$> lower ch) ++ lowered (S orig_idx) haystack
  end.

(** The loop over the needle: [cur] is the place reached, [rest] what is left from there. *)
Fixpoint scan (nc : N) (cur : nat) (rest : list (N * nat)) : option (nat * nat * list (N * nat)) :=
  match rest with
  | [] => None
  | (c, orig) :: rest => if decide (c = nc) then Some (cur, orig, rest) else scan nc (S cur) rest
  end.
Fixpoint find_all (needle : list N) (cur : nat) (rest : list (N * nat)) : option (list (nat * nat)) :=
  match needle with
  | [] => Some []
  | nc :: needle =>
      match scan nc cur rest with
      | None => None
      | Some (pos, orig, rest') => cons (pos, orig) <$> find_all needle (S pos) rest'
      end
  end.

(** [sort_unstable] and [dedup] on positions. *)
Fixpoint dedup (l : list nat) : list nat :=
  match l with
  | x :: l' => match l' with
               | y :: _ => if decide (x = y) then dedup l' else x :: dedup l'
               | [] => [x]
               end
  | [] => []
  end.

Fixpoint position_of (target : nat) (l : list nat) : option nat :=
  match l with
  | [] => None
  | x :: l => if decide (x = target) then Some 0 else S <$> position_of target l
  end.

Definition fuzzy_match (haystack needle : str) : option (list nat * Z) :=
  if bool_decide (needle = []) then Some ([], i32_max_score)
  else
    let chars := lowered 0 haystack in
    let lowered_needle := lower_str needle in
    hits ← find_all lowered_needle 0 chars;
    let orig_indices := snd <$> hits in
    let first_lower_pos :=
      match orig_indices with
      | [] => 0
      | target_orig :: _ => default 0 (position_of target_orig (snd <$> chars))
      end in
    let last_lower_pos := default first_lower_pos (fst <$> last hits) in
    let window := (as_i32 last_lower_pos - as_i32 first_lower_pos + 1 - as_i32 (length lowered_needle))%Z in
    let score := Z.max window 0 in
    let score := if first_lower_pos =? 0 then (score - 100)%Z else score in
    Some (dedup (merge_sort le orig_indices), score).

(** ** What matches *)

Lemma lowered_scan_None nc cur rest : scan nc cur rest = None ↔ nc ∉ rest.*1.
Proof.
  revert cur. induction rest as [|[c o] rest IH]; intros cur; simpl; [set_solver|].
  case_decide; [set_solver|]. rewrite IH. set_solver.
Qed.

Lemma lowered_scan_Some nc cur rest pos orig rest' :
  scan nc cur rest = Some (pos, orig, rest') →
  ∃ skipped, rest = skipped ++ (nc, orig) :: rest' ∧ nc ∉ skipped.*1 ∧ pos = cur + length skipped.
Proof.
  revert cur. induction rest as [|[c o] rest IH]; intros cur; simpl; [done|]. case_decide as E.
  - intros [= <- <- <-]. exists []. subst. split_and!; [done|set_solver|simpl; lia].
  - intros (sk & -> & Hn & ->)%IH. exists ((c, o) :: sk). split_and!; [done|set_solver|simpl; lia].
Qed.

Lemma sublist_skip_notin (x : N) l sk rest :
  x ∉ sk → x :: l `sublist_of` sk ++ x :: rest ↔ l `sublist_of` rest.
Proof.
  intros Hx. split; [|intros Hl; by apply sublist_inserts_l, sublist_skip].
  induction sk as [|y sk IH]; simpl; intros Hs.
  - apply sublist_cons_l in Hs as (k1 & k2 & E & Hs). destruct k1 as [|z k1]; simplify_eq/=; [done|].
    by apply sublist_inserts_l, sublist_cons.
  - apply IH; [set_solver|]. apply sublist_cons_r in Hs as [Hs|(l' & [= <- <-] & _)]; [done|set_solver].
Qed.

Lemma find_all_sublist needle cur rest :
  is_Some (find_all needle cur rest) ↔ needle `sublist_of` rest.*1.
Proof.
  revert cur rest. induction needle as [|nc needle IH]; intros cur rest; simpl.
  { split; [intros _; apply sublist_nil_l|eauto]. }
  destruct (scan nc cur rest) as [[[pos orig] rest']|] eqn:E.
  - apply lowered_scan_Some in E as (sk & -> & Hn & _). rewrite fmap_app. simpl. rewrite sublist_skip_notin by done.
    rewrite fmap_is_Some. apply IH.
  - apply lowered_scan_None in E. split; [by intros []|]. intros Hs. exfalso. apply E.
    apply (sublist_submseteq _ _) in Hs. eapply elem_of_submseteq; [|exact Hs]. left.
Qed.

(** A needle matches a haystack exactly when its letters, in lower case, occur in the haystack in
    this order; the empty needle matches all. *)
Theorem fuzzy_match_is_subsequence haystack needle :
  is_Some (fuzzy_match haystack needle) ↔ needle = [] ∨ lower_str needle `sublist_of` (lowered 0 haystack).*1.
Proof.
  unfold fuzzy_match. case_bool_decide as E; [naive_solver|]. rewrite <- (find_all_sublist _ 0).
  destruct (find_all _ _ _); simpl; [naive_solver|]. split; [by intros []|]. intros [?|[? ?]]; done.
Qed.

(** ** The highlighted letters *)

Lemma dedup_indices_elem l x : x ∈ dedup l ↔ x ∈ l.
Proof.
  induction l as [|y l IH]; [done|]. simpl. destruct l as [|z l']; [done|].
  case_decide as E; [|by rewrite elem_of_cons, IH, (elem_of_cons (z :: l'))]. subst. rewrite IH, !elem_of_cons. naive_solver.
Qed.

Lemma dedup_sorted l : StronglySorted le l → StronglySorted lt (dedup l).
Proof.
  induction 1 as [|x l Hs IH Hx]; [constructor|]. simpl. destruct l as [|y l']; [by repeat constructor|].
  case_decide as E; [done|]. constructor; [done|]. apply Forall_forall. intros z Hz. apply (proj1 (dedup_indices_elem _ _)) in Hz.
  apply StronglySorted_inv in Hs as [_ Hy]. rewrite Forall_forall in Hx, Hy.
  assert (x ≤ y) by (apply Hx; left). apply elem_of_cons in Hz as [->|Hz]; [lia|]. specialize (Hy _ Hz). lia.
Qed.

Lemma lowered_orig i haystack c o : (c, o) ∈ lowered i haystack → ∃ n ch, o = i + n ∧ haystack !! n = Some ch ∧ c ∈ lower ch.
Proof.
  revert i. induction haystack as [|ch haystack IH]; intros i; simpl; [set_solver|].
  rewrite elem_of_app, list_elem_of_fmap. intros [(lc & [= -> ->] & Hl)|(n & ch' & -> & Hn & Hc)%IH].
  - exists 0, ch. split_and!; [lia|done|done].
  - exists (S n), ch'. split_and!; [lia|done|done].
Qed.

Lemma find_all_elem needle cur rest hits o :
  find_all needle cur rest = Some hits → o ∈ hits.*2 → ∃ c, c ∈ needle ∧ (c, o) ∈ rest.
Proof.
  revert cur rest hits. induction needle as [|nc needle IH]; intros cur rest hits; simpl; [intros [= <-]; set_solver|].
  destruct (scan nc cur rest) as [[[pos orig] rest']|] eqn:E; [|done].
  apply lowered_scan_Some in E as (sk & -> & _ & _). intros (hits' & Hh & ->)%fmap_Some. simpl. rewrite elem_of_cons.
  intros [->|Ho].
  - exists nc. set_solver.
  - destruct (IH _ _ _ Hh Ho) as (c & Hc & Hin). exists c. set_solver.
Qed.

(** The positions to highlight are in order and without duplicates, lie in the haystack, and each
    is that of a letter which, in lower case, has a letter of the needle. *)
Theorem fuzzy_match_highlights haystack needle indices score :
  fuzzy_match haystack needle = Some (indices, score) →
  StronglySorted lt indices ∧
  ∀ i, i ∈ indices → ∃ ch c, haystack !! i = Some ch ∧ c ∈ lower ch ∧ c ∈ lower_str needle.
Proof.
  unfold fuzzy_match. case_bool_decide; [intros [= <- <-]; split; [constructor|set_solver]|].
  destruct (find_all _ _ _) as [hits|] eqn:E; [|done]. simpl. intros [= <- _]. split.
  - apply dedup_sorted, Sorted_StronglySorted; [intros ???; lia|]. apply Sorted_merge_sort. intros ??; lia.
  - intros i Hi. apply (proj1 (dedup_indices_elem _ _)) in Hi. rewrite merge_sort_Permutation in Hi.
    destruct (find_all_elem _ _ _ _ _ E Hi) as (c & Hc & Hin).
    apply lowered_orig in Hin as (n & ch & -> & Hn & Hl). by exists ch, c.
Qed.

End fuzzy.

Definition ascii_lower (c : N) : list N := [char_to_ascii_lowercase c].

Example fuzzy_hello : fuzzy_match ascii_lower to_ascii_lowercase (lit "Hello") (lit "hL") = Some ([0; 2], (-99)%Z).
Proof. by vm_compute. Qed.

Lemma fuzzy_match_highlights_witness :
  fuzzy_match ascii_lower to_ascii_lowercase (lit "Hello") (lit "hL") = Some ([0; 2], (-99)%Z) ∧ StronglySorted lt [0; 2].
Proof.
  assert (E : fuzzy_match ascii_lower to_ascii_lowercase (lit "Hello") (lit "hL") = Some ([0; 2], (-99)%Z)) by by vm_compute.
  split; [exact E|]. apply (fuzzy_match_highlights _ _ _ _ _ _ E).
Defined.
