(* ===== verification/PasteBurst.v ===== *)
(** * Paste bursts (tui/src/bottom_pane/paste_burst.rs)

    Some terminals deliver a paste as a run of fast key presses.  The detector holds back the
    first character of what may be such a run, buffers the run once it is recognised, and hands it
    out when it ends.  Times are in nanoseconds; [duration_since] is zero for an earlier time. *)

From stdpp Require Import prelude strings list.
From S2P Require Import Prelude RustStr.

Definition PASTE_BURST_MIN_CHARS : N := 3.
Definition PASTE_ENTER_SUPPRESS_WINDOW : N := 120000000.
Definition PASTE_BURST_CHAR_INTERVAL : N := 8000000.
Definition PASTE_BURST_ACTIVE_IDLE_TIMEOUT : N := 8000000.
Definition u16_max : N := 65535.

Record PasteBurst := mkBurst {
  last_plain_char_time : option N;
  consecutive_plain_char_burst : N;
  burst_window_until : option N;
  buffer : list N;
  active : bool;
  pending_first_char : option (N * N) }.

Definition default_burst : PasteBurst := mkBurst None 0 None [] false None.

Inductive CharDecision :=
| BeginBuffer (retro_chars : N)
| BufferAppend
| RetainFirstChar
| BeginBufferFromPending.

Record RetroGrab := mkGrab { start_byte : nat; grabbed : list N }.

Inductive FlushResult := FlushPaste (pasted : list N) | FlushTyped (ch : N) | FlushNone.

Definition duration_since (now earlier : N) : N := now - earlier.

Definition recommended_flush_delay : N := PASTE_BURST_CHAR_INTERVAL + 1000000.

Definition recommended_active_flush_delay : N := PASTE_BURST_ACTIVE_IDLE_TIMEOUT + 1000000.

Definition is_active_internal (b : PasteBurst) : bool := active b || negb (bool_decide (buffer b = [])).
Definition is_active (b : PasteBurst) : bool :=
  is_active_internal b || bool_decide (is_Some (pending_first_char b)).

Definition note_plain_char (now : N) (b : PasteBurst) : PasteBurst :=
  let count :=
    match last_plain_char_time b with
    | Some prev =>
        if (duration_since now prev <=? PASTE_BURST_CHAR_INTERVAL)%N
        then N.min (consecutive_plain_char_burst b + 1) u16_max else 1%N
    | None => 1%N
    end in
  mkBurst (Some now) count (burst_window_until b) (buffer b) (active b) (pending_first_char b).

(** [burst_window_until = Some(now + PASTE_ENTER_SUPPRESS_WINDOW)]. *)
Definition extend_window (now : N) (b : PasteBurst) : PasteBurst :=
  mkBurst (last_plain_char_time b) (consecutive_plain_char_burst b)
    (Some (now + PASTE_ENTER_SUPPRESS_WINDOW)%N) (buffer b) (active b) (pending_first_char b).

Definition push_buffer (s : str) (b : PasteBurst) : PasteBurst :=
  mkBurst (last_plain_char_time b) (consecutive_plain_char_burst b) (burst_window_until b)
    (buffer b ++ s) (active b) (pending_first_char b).
Definition set_active (a : bool) (b : PasteBurst) : PasteBurst :=
  mkBurst (last_plain_char_time b) (consecutive_plain_char_burst b) (burst_window_until b)
    (buffer b) a (pending_first_char b).
Definition set_pending (p : option (N * N)) (b : PasteBurst) : PasteBurst :=
  mkBurst (last_plain_char_time b) (consecutive_plain_char_burst b) (burst_window_until b)
    (buffer b) (active b) p.
(** [std::mem::take(&mut self.buffer)]. *)
Definition take_buffer (b : PasteBurst) : PasteBurst :=
  mkBurst (last_plain_char_time b) (consecutive_plain_char_burst b) (burst_window_until b)
    [] (active b) (pending_first_char b).

Definition on_plain_char (ch : N) (now : N) (b : PasteBurst) : PasteBurst * CharDecision :=
  let b := note_plain_char now b in
  if active b then (extend_window now b, BufferAppend)
  else
    let held :=
      match pending_first_char b with
      | Some (held, held_at) =>
          if (duration_since now held_at <=? PASTE_BURST_CHAR_INTERVAL)%N then Some held else None
      | None => None
      end in
    match held with
    | Some held =>
        (extend_window now (push_buffer [held] (set_pending None (set_active true b))),
         BeginBufferFromPending)
    | None =>
        if (PASTE_BURST_MIN_CHARS <=? consecutive_plain_char_burst b)%N
        then (b, BeginBuffer (consecutive_plain_char_burst b - 1))
        else (set_pending (Some (ch, now)) b, RetainFirstChar)
    end.

Definition on_plain_char_no_hold (now : N) (b : PasteBurst) : PasteBurst * option CharDecision :=
  let b := note_plain_char now b in
  if active b then (extend_window now b, Some BufferAppend)
  else if (PASTE_BURST_MIN_CHARS <=? consecutive_plain_char_burst b)%N
  then (b, Some (BeginBuffer (consecutive_plain_char_burst b - 1)))
  else (b, None).

Definition flush_if_due (now : N) (b : PasteBurst) : PasteBurst * FlushResult :=
  let timeout := if is_active_internal b then PASTE_BURST_ACTIVE_IDLE_TIMEOUT else PASTE_BURST_CHAR_INTERVAL in
  let timed_out :=
    from_option (λ t, (timeout <? duration_since now t)%N) false (last_plain_char_time b) in
  if timed_out && is_active_internal b then (take_buffer (set_active false b), FlushPaste (buffer b))
  else if timed_out then
    match pending_first_char b with
    | Some (ch, _) => (set_pending None b, FlushTyped ch)
    | None => (b, FlushNone)
    end
  else (b, FlushNone).

Definition append_newline_if_active (now : N) (b : PasteBurst) : PasteBurst * bool :=
  if is_active b then (extend_window now (push_buffer [nl] b), true) else (b, false).

Definition newline_should_insert_instead_of_submit (now : N) (b : PasteBurst) : bool :=
  let in_burst_window := from_option (λ until, (now <=? until)%N) false (burst_window_until b) in
  is_active b || in_burst_window.

Definition direct_insert_newline_should_insert (now : N) (b : PasteBurst) : bool :=
  newline_should_insert_instead_of_submit now b
  || from_option (λ t, (duration_since now t <=? PASTE_BURST_CHAR_INTERVAL)%N) false (last_plain_char_time b).

Definition begin_with_retro_grabbed (grabbed : str) (now : N) (b : PasteBurst) : PasteBurst :=
  extend_window now (set_active true (push_buffer grabbed b)).

Definition append_char_to_buffer (ch : N) (now : N) (b : PasteBurst) : PasteBurst :=
  extend_window now (push_buffer [ch] b).

Definition try_append_char_if_active (ch : N) (now : N) (b : PasteBurst) : PasteBurst * bool :=
  if active b || negb (bool_decide (buffer b = [])) then (append_char_to_buffer ch now b, true)
  else (b, false).

(** The place [retro_chars] characters before the end, or the start: its number of characters, and
    its byte offset. *)
Definition retro_start (before : str) (retro_chars : nat) : nat := length before - retro_chars.
Definition retro_start_index (before : str) (retro_chars : nat) : nat :=
  byte_len (take (retro_start before retro_chars) before).

Definition decide_begin_buffer (now : N) (before : str) (retro_chars : nat) (b : PasteBurst) :
    PasteBurst * option RetroGrab :=
  let grabbed := drop (retro_start before retro_chars) before in
  let looks_pastey := existsb is_whitespace grabbed || (16 <=? length grabbed)%nat in
  if looks_pastey
  then (begin_with_retro_grabbed grabbed now b, Some (mkGrab (retro_start_index before retro_chars) grabbed))
  else (b, None).

Definition flush_before_modified_input (b : PasteBurst) : PasteBurst * option (list N) :=
  if negb (is_active b) then (b, None)
  else (set_pending None (take_buffer (set_active false b)),
        Some (buffer b ++ match pending_first_char b with Some (ch, _) => [ch] | None => [] end)).

Definition clear_window_after_non_char (b : PasteBurst) : PasteBurst := mkBurst None 0 None (buffer b) false None.

Definition clear_after_explicit_paste (b : PasteBurst) : PasteBurst := mkBurst None 0 None [] false None.

(** ** What the detector holds *)

(** The characters that were typed and are not in the text yet, in order. *)
Definition held (b : PasteBurst) : list N :=
  buffer b ++ match pending_first_char b with Some (ch, _) => [ch] | None => [] end.

(** A held first character is alone, and is the last character typed; a buffer has a time from
    which it times out, and belongs to an active burst. *)
Record burst_ok (b : PasteBurst) : Prop := {
  ok_pending : ∀ ch t, pending_first_char b = Some (ch, t) →
    buffer b = [] ∧ active b = false ∧ last_plain_char_time b = Some t;
  ok_timed : buffer b ≠ [] → is_Some (last_plain_char_time b);
  ok_active : active b = true ↔ buffer b ≠ [] }.

Lemma is_active_held b : burst_ok b → is_active b = true ↔ held b ≠ [].
Proof.
  intros [_ _ Ha]. unfold is_active, is_active_internal, held. rewrite !orb_true_iff, Ha, negb_true_iff,
    bool_decide_eq_false, bool_decide_eq_true.
  split.
  - intros [[?|?]|[[ch t] ->]] Hn; apply app_eq_nil in Hn as [? ?]; done.
  - destruct (decide (buffer b = [])) as [->|Hb]; [|auto]. destruct (pending_first_char b) as [[]|]; eauto.
Qed.

(** Handing out what is held leaves nothing behind. *)
Lemma flush_before_held b b' o :
  burst_ok b → flush_before_modified_input b = (b', o) →
  default [] o = held b ∧ held b' = [] ∧ burst_ok b'.
Proof.
  intros Hok. unfold flush_before_modified_input.
  destruct (is_active b) eqn:E; simpl; intros [= <- <-].
  - split_and!; [done|done|]. by split.
  - assert (held b = []) as Hh. { destruct (held b) eqn:Eh; [done|]. apply is_active_held in Hok.
      rewrite E, Eh in Hok. assert (false = true) by by apply Hok. done. }
    by split_and!.
Qed.
