(* ===== verification/ComposerPaste.v ===== *)
(** * Typing and pasting in the composer (tui/src/bottom_pane/chat_composer.rs)

    The keys of the composer that change its text: plain characters go through the detector of
    paste bursts, and what it hands out is pasted; a long paste is shown as a placeholder and
    expanded on submission.  The text is kept as what is before and after the cursor; an element
    (a placeholder) is one piece of it.  [textarea_input] is what the text area does with a key
    under the user's key map, [pasted_image] the label under which a pasted path is attached as an
    image; both are arguments.  Popups and the footer are left out. *)

From stdpp Require Import prelude strings list pretty.
From S2P Require Import Prelude RustStr StrSearch Decimal PasteBurst.

Definition LARGE_PASTE_CHAR_THRESHOLD : nat := Eval vm_compute in 1000.
Definition usize_limit : N := 18446744073709551615.

Inductive piece := Plain (c : N) | Element (text : list N).
#[global] Instance piece_eq_dec : EqDecision piece.
Proof. solve_decision. Defined.

Definition piece_text (p : piece) : list N := match p with Plain c => [c] | Element t => t end.
Definition text_of (ps : list piece) : list N := ps ≫= piece_text.
(** [element_payloads]. *)
Definition elements_of (ps : list piece) : list (list N) :=
  ps ≫= λ p, match p with Plain _ => [] | Element t => [t] end.

(** [insert_mode] is [allows_paste_burst]. *)
Record TextArea := mkArea { before : list piece; after : list piece; insert_mode : bool }.

Inductive KeyCode := KChar (c : N) | KEnter | KEsc | KBackspace | KOther (n : nat).
#[global] Instance key_code_eq_dec : EqDecision KeyCode.
Proof. solve_decision. Defined.
Record KeyEvent := mkKey { code : KeyCode; ctrl_or_alt : bool }.

Record Draft := mkDraft {
  textarea : TextArea;
  pending_pastes : list (list N * list N);
  is_bash_mode : bool;
  disable_paste_burst : bool;
  paste_burst : PasteBurst }.

Definition set_textarea (t : TextArea) (d : Draft) : Draft :=
  mkDraft t (pending_pastes d) (is_bash_mode d) (disable_paste_burst d) (paste_burst d).
Definition set_pastes (l : list (list N * list N)) (d : Draft) : Draft :=
  mkDraft (textarea d) l (is_bash_mode d) (disable_paste_burst d) (paste_burst d).
Definition set_bash_mode (b : bool) (d : Draft) : Draft :=
  mkDraft (textarea d) (pending_pastes d) b (disable_paste_burst d) (paste_burst d).
Definition set_burst (b : PasteBurst) (d : Draft) : Draft :=
  mkDraft (textarea d) (pending_pastes d) (is_bash_mode d) (disable_paste_burst d) b.

(** ** The text area *)

Definition area_text (t : TextArea) : list N := text_of (before t ++ after t).

Definition area_insert_str (s : str) (t : TextArea) : TextArea :=
  mkArea (before t ++ (Plain <$> s)) (after t) (insert_mode t).
Definition area_insert_element (s : str) (t : TextArea) : TextArea :=
  mkArea (before t ++ [Element s]) (after t) (insert_mode t).

(** [replace_range(start..cursor, "")]: an element that reaches into the range goes as a whole. *)
Fixpoint keep_before (start : nat) (ps : list piece) : list piece :=
  match ps with
  | [] => []
  | p :: ps =>
      if byte_len (piece_text p) <=? start then p :: keep_before (start - byte_len (piece_text p)) ps else []
  end.
Definition remove_before_cursor (start : nat) (t : TextArea) : TextArea :=
  mkArea (keep_before start (before t)) (after t) (insert_mode t).

(** [replace_range(0..1, "")] when the text starts with an ASCII character. *)
Fixpoint remove_first (ps : list piece) : list piece :=
  match ps with
  | [] => []
  | p :: ps => if bool_decide (piece_text p = []) then p :: remove_first ps else ps
  end.
Definition remove_first_byte (t : TextArea) : TextArea :=
  if bool_decide (text_of (before t) = [])
  then mkArea (before t) (remove_first (after t)) (insert_mode t)
  else mkArea (remove_first (before t)) (after t) (insert_mode t).

(** ** Pasting *)

(** [sanitize_user_text] (tui/src/history_cell/messages.rs); [in_escape] inside [chars.find]. *)
Definition is_control (c : N) : bool := ((c <? 32) || ((127 <=? c) && (c <? 160)))%N.
Fixpoint sanitize (in_escape : bool) (s : str) : list N :=
  match s with
  | [] => []
  | c :: s' =>
      if in_escape then sanitize (negb ((64 <=? c) && (c <=? 126))%N) s'
      else
        let keep := if (bool_decide (c = nl) || bool_decide (c = 9%N)) || negb (is_control c) then [c] else [] in
        match s' with
        | d :: s'' =>
            if bool_decide (c = 27%N) && bool_decide (d = 91%N) then sanitize true s''
            else keep ++ sanitize false s'
        | [] => keep
        end
  end.
Definition sanitize_user_text (s : str) : list N := sanitize false s.

(** [pasted.replace("\r\n", "\n").replace('\r', "\n")]. *)
Fixpoint replace_crlf (s : str) : list N :=
  match s with
  | [] => []
  | c :: s' =>
      match s' with
      | d :: s'' => if bool_decide (c = cr) && bool_decide (d = nl) then nl :: replace_crlf s'' else c :: replace_crlf s'
      | [] => [c]
      end
  end.
Definition replace_cr (s : str) : list N := (λ c, if bool_decide (c = cr) then nl else c) <$> s.

Definition placeholder_base (char_count : nat) : list N :=
  lit "[Pasted Content " ++ lit (pretty (N.of_nat char_count)) ++ lit " chars]".
Definition suffix_number (base placeholder : str) : N :=
  if bool_decide (placeholder = base) then 1%N
  else match strip_prefix (base ++ lit " #") placeholder with
       | Some suffix => default 0%N (parse_uint usize_limit suffix)
       | None => 0%N
       end.
Definition max_suffix (base : str) (pastes : list (list N * list N)) : N :=
  foldl (λ m p, N.max m (suffix_number base p.1)) 0%N pastes.
Definition next_large_paste_placeholder (char_count : nat) (pastes : list (list N * list N)) : list N :=
  let base := placeholder_base char_count in
  let m := max_suffix base pastes in
  if (m =? 0)%N then base else base ++ lit " #" ++ lit (pretty (m + 1)%N).

Definition sync_bash_mode_from_text (d : Draft) : Draft :=
  if negb (is_bash_mode d) && starts_with (lit "!") (area_text (textarea d))
  then set_bash_mode true (set_textarea (remove_first_byte (textarea d)) d)
  else d.

Definition insert_str (s : str) (d : Draft) : Draft :=
  sync_bash_mode_from_text (set_textarea (area_insert_str s (textarea d)) d).

(** [expand_pending_pastes], the text: the first payload of a placeholder is used up. *)
Fixpoint pop_payload (placeholder : str) (pastes : list (list N * list N)) :
    option (list N * list (list N * list N)) :=
  match pastes with
  | [] => None
  | (ph, actual) :: pastes =>
      if bool_decide (ph = placeholder) then Some (actual, pastes)
      else match pop_payload placeholder pastes with
           | Some (found, rest) => Some (found, (ph, actual) :: rest)
           | None => None
           end
  end.
Fixpoint expand_pending_pastes (pastes : list (list N * list N)) (ps : list piece) : list N :=
  match ps with
  | [] => []
  | Plain c :: ps => c :: expand_pending_pastes pastes ps
  | Element t :: ps =>
      match pop_payload t pastes with
      | Some (actual, rest) => actual ++ expand_pending_pastes rest ps
      | None => t ++ expand_pending_pastes pastes ps
      end
  end.

Section composer.
Variable textarea_input : KeyEvent → TextArea → TextArea.
Variable pasted_image : list N → option (list N).

Definition handle_paste (pasted : str) (d : Draft) : Draft :=
  let pasted := sanitize_user_text (replace_cr (replace_crlf pasted)) in
  let char_count := length pasted in
  let d :=
    if LARGE_PASTE_CHAR_THRESHOLD <? char_count then
      let placeholder := next_large_paste_placeholder char_count (pending_pastes d) in
      set_pastes (pending_pastes d ++ [(placeholder, pasted)])
        (set_textarea (area_insert_element placeholder (textarea d)) d)
    else match (if 1 <? char_count then pasted_image pasted else None) with
         | Some label =>
             set_textarea (area_insert_str (lit " ") (area_insert_element label (textarea d))) d
         | None => insert_str pasted d
         end in
  set_burst (clear_after_explicit_paste (paste_burst d)) d.

(** [if let Some(pasted) = flush_before_modified_input() { handle_paste(pasted) }]. *)
Definition flush_held (d : Draft) : Draft :=
  match flush_before_modified_input (paste_burst d) with
  | (b, Some pasted) => handle_paste pasted (set_burst b d)
  | (b, None) => set_burst b d
  end.

Definition set_disable_paste_burst (disabled : bool) (d : Draft) : Draft :=
  let was_disabled := disable_paste_burst d in
  let d := mkDraft (textarea d) (pending_pastes d) (is_bash_mode d) disabled (paste_burst d) in
  if disabled && negb was_disabled then
    let d := flush_held d in set_burst (clear_after_explicit_paste (paste_burst d)) d
  else d.

Definition handle_paste_burst_flush (now : N) (d : Draft) : Draft * bool :=
  match flush_if_due now (paste_burst d) with
  | (b, FlushPaste pasted) => (handle_paste pasted (set_burst b d), true)
  | (b, FlushTyped ch) => (insert_str [ch] (set_burst b d), true)
  | (b, FlushNone) => (set_burst b d, false)
  end.

(** [pending_pastes.retain(|(placeholder, _)| text_after.contains(placeholder))]. *)
Definition retain_contained (d : Draft) : Draft :=
  set_pastes (filter (λ p, contains_str p.1 (area_text (textarea d)) = true) (pending_pastes d)) d.

(** The arm for [BeginBuffer]: [None] if nothing is buffered. *)
Definition begin_buffer (ch : N) (retro_chars : N) (now : N) (d : Draft) : option Draft :=
  match decide_begin_buffer now (text_of (before (textarea d))) (N.to_nat retro_chars) (paste_burst d) with
  | (b, Some grab) =>
      let t := if bool_decide (grabbed grab = []) then textarea d
               else remove_before_cursor (start_byte grab) (textarea d) in
      Some (set_burst (append_char_to_buffer ch now b) (set_textarea t d))
  | (_, None) => None
  end.

Definition handle_non_ascii_char (ch : N) (now : N) (d : Draft) : Draft :=
  let key := mkKey (KChar ch) false in
  let input (d : Draft) := retain_contained (set_textarea (textarea_input key (textarea d)) d) in
  if disable_paste_burst d then input d
  else
    let '(b, appended) := try_append_char_if_active ch now (paste_burst d) in
    if (appended : bool) then set_burst b d
    else
      let d := flush_held (set_burst b d) in
      let '(b, decision) := on_plain_char_no_hold now (paste_burst d) in
      let d := set_burst b d in
      match decision with
      | Some BufferAppend => set_burst (append_char_to_buffer ch now b) d
      | Some (BeginBuffer retro_chars) =>
          match begin_buffer ch retro_chars now d with
          | Some d' => d'
          | None => input (flush_held d)
          end
      | _ => input (flush_held d)
      end.

Definition reconcile_deleted_elements (elements_before : list (list N)) (d : Draft) : Draft :=
  let elements_after := elements_of (before (textarea d) ++ after (textarea d)) in
  let removed := filter (λ e, e ∉ elements_after) elements_before in
  set_pastes (filter (λ p, p.1 ∉ removed) (pending_pastes d)) d.

(** The end of [handle_input_basic_with_time], for a key that was not intercepted. *)
Definition apply_key (key : KeyEvent) (d : Draft) : Draft :=
  let d := match code key with KChar _ | KEnter => d | _ => flush_held d end in
  let elements_before := elements_of (before (textarea d) ++ after (textarea d)) in
  if is_bash_mode d && bool_decide (code key = KBackspace) && bool_decide (text_of (before (textarea d)) = [])
  then set_bash_mode false d
  else
    let d := sync_bash_mode_from_text (set_textarea (textarea_input key (textarea d)) d) in
    let d := reconcile_deleted_elements elements_before d in
    match code key with
    | KChar _ => if ctrl_or_alt key then set_burst (clear_window_after_non_char (paste_burst d)) d else d
    | KEnter => d
    | _ => set_burst (clear_window_after_non_char (paste_burst d)) d
    end.

(** Its arm for a plain ASCII character. *)
Definition handle_ascii_char (ch : N) (now : N) (d : Draft) : Draft :=
  let '(b, decision) := on_plain_char ch now (paste_burst d) in
  let d := set_burst b d in
  match decision with
  | BufferAppend | BeginBufferFromPending => set_burst (append_char_to_buffer ch now b) d
  | RetainFirstChar => d
  | BeginBuffer retro_chars =>
      match begin_buffer ch retro_chars now d with
      | Some d' => d'
      | None => apply_key (mkKey (KChar ch) false) (flush_held d)
      end
  end.

Definition handle_input_basic_with_time (key : KeyEvent) (now : N) (d : Draft) : Draft :=
  let d := fst (handle_paste_burst_flush now d) in
  match code key with
  | KEnter =>
      if negb (disable_paste_burst d) && is_active (paste_burst d)
      then set_burst (fst (append_newline_if_active now (paste_burst d))) d
      else apply_key key d
  | KChar ch =>
      if negb (ctrl_or_alt key) && negb (disable_paste_burst d) && insert_mode (textarea d) then
        if (127 <? ch)%N then handle_non_ascii_char ch now d else handle_ascii_char ch now d
      else apply_key key (flush_held d)
  | _ => apply_key key d
  end.

(** The part of [handle_submission_with_time] up to the submission; [true] if it is reached.
    [bare_slash] and [in_slash_context] say whether the text is a slash command. *)
Definition handle_submission_with_time (should_queue bare_slash in_slash_context : bool) (now : N) (d : Draft) :
    Draft * bool :=
  if should_queue then (flush_held d, true)
  else if bare_slash then (d, true)
  else if negb (disable_paste_burst d) && is_active (paste_burst d) && negb in_slash_context
  then (set_burst (fst (append_newline_if_active now (paste_burst d))) d, false)
  else if negb in_slash_context && negb (disable_paste_burst d)
          && newline_should_insert_instead_of_submit now (paste_burst d)
  then (set_burst (extend_window now (paste_burst d)) (set_textarea (area_insert_str [nl] (textarea d)) d), false)
  else (d, true).

End composer.
