(* ===== verification/ComposerLaws.v ===== *)
(** * Nothing that is typed is lost

    Plain characters typed into the composer, however fast, end up in its text in the order in
    which they were typed, whether they are inserted at once, held back, buffered, taken back out
    of the text or pasted behind a placeholder; and what is held back is handed out after a pause.
    The one exception is an Enter that comes while a first character is held back. *)

From stdpp Require Import prelude strings list pretty.
From S2P Require Import Prelude RustStr StrSearch Decimal PasteBurst ComposerPaste.

(** ** Labels of placeholders *)

Definition label (n : nat) (k : N) : list N :=
  if (k <=? 1)%N then placeholder_base n else placeholder_base n ++ lit " #" ++ lit (pretty k).

Lemma digits_prefix_unique (a b x y : list N) :
  Forall (λ c, is_ascii_digit c = true) a → Forall (λ c, is_ascii_digit c = true) b →
  a ++ space :: x = b ++ space :: y → a = b ∧ x = y.
Proof.
  intros Ha. revert b. induction Ha as [|c a Hc Ha IH]; intros b Hb; destruct Hb as [|c' b Hc' Hb]; simpl.
  - by intros [= ->].
  - intros [= <- _]. done.
  - intros [= -> _]. done.
  - intros [= -> E]. by destruct (IH b Hb E) as [-> ->].
Qed.

Lemma label_base_unique n m x y :
  placeholder_base n ++ x = placeholder_base m ++ y → n = m ∧ x = y.
Proof.
  unfold placeholder_base. rewrite <- !app_assoc. intros E%app_inv_head.
  change (lit " chars]") with (space :: lit "chars]") in E. rewrite <- !app_comm_cons in E.
  apply digits_prefix_unique in E as [E Ex]; [|apply pretty_is_digits..].
  assert (N.of_nat n = N.of_nat m) as En.
  { apply (inj pretty). revert E. generalize (pretty (N.of_nat n)), (pretty (N.of_nat m)).
    intros s1. unfold lit. induction s1 as [|a s1 IH]; intros [|b s2] E'; simplify_eq/=; [done|].
    apply (f_equal Ascii.ascii_of_N) in H as H'. rewrite !Ascii.ascii_N_embedding in H'. subst. f_equal. by apply IH. }
  split; [lia|]. by apply app_inv_head in Ex.
Qed.

Lemma suffix_number_label n m k :
  (k <= usize_limit)%N →
  suffix_number (placeholder_base n) (label m k) = if bool_decide (n = m) then N.max 1 k else 0%N.
Proof.
  intros Hk. unfold suffix_number, label.
  assert (Hb : ∀ x, placeholder_base m ++ x = placeholder_base n → n = m ∧ x = []).
  { intros x E. rewrite <- (app_nil_r (placeholder_base n)) in E. apply label_base_unique in E as [-> ->]. done. }
  assert (Hp : ∀ x r, strip_prefix (placeholder_base n ++ lit " #") (placeholder_base m ++ x) = Some r →
            n = m ∧ x = lit " #" ++ r).
  { intros x r E%strip_prefix_Some. rewrite <- app_assoc in E. apply label_base_unique in E as [-> ->]. done. }
  destruct (N.leb_spec k 1) as [Hle|Hgt].
  - rewrite <- (app_nil_r (placeholder_base m)). case_bool_decide as E1.
    + apply Hb in E1 as [-> _]. rewrite bool_decide_true by done. lia.
    + destruct (strip_prefix _ _) as [r|] eqn:E; [by apply Hp in E as [_ ?]|].
      rewrite bool_decide_false; [done|]. intros ->. by rewrite app_nil_r in E1.
  - rewrite bool_decide_false; [|intros E; by apply Hb in E as [_ ?]].
    destruct (decide (n = m)) as [->|Hn].
    + rewrite bool_decide_true, app_assoc, strip_prefix_app by done. rewrite parse_uint_pretty by done. simpl. lia.
    + rewrite bool_decide_false by done. destruct (strip_prefix _ _) as [r|] eqn:E; [|done].
      by apply Hp in E as [? _].
Qed.

Lemma max_suffix_app base l l' :
  max_suffix base (l ++ l') = foldl (λ m p, N.max m (suffix_number base p.1)) (max_suffix base l) l'.
Proof. apply foldl_app. Qed.

Lemma max_suffix_ge base l p : p ∈ l → (suffix_number base p.1 <= max_suffix base l)%N.
Proof.
  induction l as [|q l IH] using rev_ind; [by intros ?%elem_of_nil|].
  rewrite max_suffix_app, elem_of_app, list_elem_of_singleton. simpl. intros [Hp| ->]; [apply IH in Hp|]; lia.
Qed.

Lemma max_suffix_le base l K :
  (∀ p, p ∈ l → suffix_number base p.1 <= K)%N → (max_suffix base l <= K)%N.
Proof.
  induction l as [|q l IH] using rev_ind; intros Hl; [unfold max_suffix; simpl; lia|].
  rewrite max_suffix_app. simpl. assert (max_suffix base l <= K)%N by (apply IH; set_solver).
  assert (suffix_number base q.1 <= K)%N by (apply Hl; set_solver). lia.
Qed.

(** All placeholders are labels with numbers up to [K]. *)
Definition labelled (K : N) (pastes : list (list N * list N)) : Prop :=
  ∀ p, p ∈ pastes → ∃ n k, (k <= K)%N ∧ p.1 = label n k.

(** The next label is new, and its number is at most one higher. *)
Lemma next_placeholder n K pastes :
  labelled K pastes → (1 <= K)%N → (K + 1 <= usize_limit)%N →
  next_large_paste_placeholder n pastes ∉ pastes.*1 ∧
  ∃ k, (k <= K + 1)%N ∧ next_large_paste_placeholder n pastes = label n k.
Proof.
  intros Hl HK Hlim. set (m := max_suffix (placeholder_base n) pastes).
  assert (Hm : (m <= K)%N).
  { apply max_suffix_le. intros p (n' & k & Hk & ->)%Hl. rewrite suffix_number_label by lia.
    case_bool_decide; lia. }
  assert (E : next_large_paste_placeholder n pastes = label n (if (m =? 0)%N then 0 else m + 1)).
  { unfold next_large_paste_placeholder, label. fold m. destruct (N.eqb_spec m 0); [done|].
    by destruct (N.leb_spec (m + 1) 1); [lia|]. }
  split; [|rewrite E; eexists; split; [|done]; destruct (N.eqb_spec m 0); lia].
  rewrite E. intros (p & Ep & Hp)%list_elem_of_fmap. apply (max_suffix_ge (placeholder_base n)) in Hp.
  rewrite <- Ep, suffix_number_label, bool_decide_true in Hp by (done || destruct (N.eqb_spec m 0); lia).
  fold m in Hp. destruct (N.eqb_spec m 0); lia.
Qed.

(** ** What a draft stands for *)

Fixpoint payload (placeholder : list N) (pastes : list (list N * list N)) : option (list N) :=
  match pastes with
  | [] => None
  | (ph, actual) :: pastes => if bool_decide (ph = placeholder) then Some actual else payload placeholder pastes
  end.
Definition value (pastes : list (list N * list N)) (p : piece) : list N :=
  match p with Plain c => [c] | Element t => default t (payload t pastes) end.
Definition values (pastes : list (list N * list N)) (ps : list piece) : list N := ps ≫= value pastes.

Lemma values_app pastes a b : values pastes (a ++ b) = values pastes a ++ values pastes b.
Proof. apply bind_app. Qed.
Lemma values_plain pastes s : values pastes (Plain <$> s) = s.
Proof. unfold values. induction s as [|c s IH]; [done|]. simpl. f_equal. apply IH. Qed.
Lemma elements_app a b : elements_of (a ++ b) = elements_of a ++ elements_of b.
Proof. apply bind_app. Qed.
Lemma elements_plain s : elements_of (Plain <$> s) = [].
Proof. unfold elements_of. induction s as [|c s IH]; [done|]. simpl. apply IH. Qed.
Lemma text_app a b : text_of (a ++ b) = text_of a ++ text_of b.
Proof. apply bind_app. Qed.
Lemma text_plain s : text_of (Plain <$> s) = s.
Proof. unfold text_of. induction s as [|c s IH]; [done|]. simpl. f_equal. apply IH. Qed.

Lemma payload_app e l l' :
  payload e (l ++ l') = match payload e l with Some v => Some v | None => payload e l' end.
Proof. induction l as [|[ph v] l IH]; [done|]. simpl. by case_bool_decide. Qed.
Lemma payload_None e l : e ∉ l.*1 → payload e l = None.
Proof.
  induction l as [|[ph v] l IH]; [done|]. simpl. rewrite not_elem_of_cons. intros [? ?].
  rewrite bool_decide_false by done. auto.
Qed.
Lemma payload_filter e (P : list N * list N → Prop) `{!∀ p, Decision (P p)} l :
  (∀ v, P (e, v)) → payload e (filter P l) = payload e l.
Proof.
  intros HP. induction l as [|[ph v] l IH]; [done|]. rewrite filter_cons. simpl.
  case_bool_decide as E; [subst; rewrite decide_True by done; simpl; by rewrite bool_decide_true|].
  case_decide; simpl; [by rewrite bool_decide_false|done].
Qed.

Lemma values_ext l l' ps :
  (∀ e, e ∈ elements_of ps → payload e l' = payload e l) → values l' ps = values l ps.
Proof.
  unfold values, elements_of. induction ps as [|[c|t] ps IH]; intros He; [done|..]; simpl in *.
  - f_equal. auto.
  - rewrite He by set_solver. f_equal. apply IH. set_solver.
Qed.

(** With distinct placeholders, using up payloads is looking them up. *)
Lemma pop_payload_spec e l :
  match pop_payload e l with
  | Some (v, rest) => payload e l = Some v ∧ ∀ e', e' ≠ e → payload e' rest = payload e' l
  | None => payload e l = None
  end.
Proof.
  induction l as [|[ph v] l IH]; [done|]. simpl. case_bool_decide as E.
  - split; [done|]. intros e' He'. by rewrite bool_decide_false by congruence.
  - destruct (pop_payload e l) as [[v' rest]|]; [|done]. destruct IH as [H1 H2]. split; [done|].
    intros e' He'. simpl. case_bool_decide; [done|]. auto.
Qed.

Lemma expand_values l ps :
  NoDup (elements_of ps) → expand_pending_pastes l ps = values l ps.
Proof.
  revert l. unfold values, elements_of. induction ps as [|[c|t] ps IH]; intros l Hn; [done|..]; simpl in *.
  - f_equal. auto.
  - apply NoDup_cons in Hn as [Ht Hn]. pose proof (pop_payload_spec t l) as Hp.
    destruct (pop_payload t l) as [[v rest]|].
    + destruct Hp as [-> Hr]. simpl. f_equal. rewrite IH by done. apply values_ext. intros e He. apply Hr.
      intros ->. done.
    + rewrite Hp. simpl. f_equal. auto.
Qed.

(** ** The text of a draft *)

Definition bang (s : list N) : bool := starts_with (lit "!") s.
Lemma bang_cons c s : bang (c :: s) = bool_decide (c = 33%N).
Proof.
  apply bool_decide_ext. change (lit "!") with [33%N]. cbn [strip_prefix]. case_decide as E; split; try done.
Qed.

(** The text as it will be submitted, up to the cursor. *)
Definition visible (d : Draft) : list N :=
  (if is_bash_mode d then lit "!" else []) ++ values (pending_pastes d) (before (textarea d)).

(** The text after the cursor, and the whole text, as it will be submitted. *)
Definition text_after (d : Draft) : list N := values (pending_pastes d) (after (textarea d)).
Definition submission (d : Draft) : list N :=
  (if is_bash_mode d then lit "!" else [])
  ++ expand_pending_pastes (pending_pastes d) (before (textarea d) ++ after (textarea d)).

(** Elements are placeholders of pastes, each shown once; a leading exclamation mark has become the
    shell mode. *)
Record elements_ok (K : N) (d : Draft) : Prop := {
  el_mode : insert_mode (textarea d) = true;
  el_labels : labelled K (pending_pastes d);
  el_known : ∀ e, e ∈ elements_of (before (textarea d) ++ after (textarea d)) → e ∈ (pending_pastes d).*1;
  el_nodup : NoDup (elements_of (before (textarea d) ++ after (textarea d)));
  el_after : is_bash_mode d = true ∨ bang (text_of (after (textarea d))) = false }.
Definition synced (d : Draft) : Prop := is_bash_mode d = true ∨ bang (area_text (textarea d)) = false.
Definition text_ok (K : N) (d : Draft) : Prop := elements_ok K d ∧ synced d.

(** [d'] is [d] with [s] at the cursor. *)
Record kept (s : list N) (d d' : Draft) : Prop := {
  kept_visible : visible d' = visible d ++ s;
  kept_after : after (textarea d') = after (textarea d);
  kept_values : values (pending_pastes d') (after (textarea d)) = values (pending_pastes d) (after (textarea d));
  kept_enabled : disable_paste_burst d' = disable_paste_burst d }.

Lemma kept_refl d : kept [] d d.
Proof. by split; rewrite ?app_nil_r. Qed.
Lemma kept_trans s s' d d' d'' : kept s d d' → kept s' d' d'' → kept (s ++ s') d d''.
Proof.
  intros [H1 H2 H3 H4] [H1' H2' H3' H4']. split; [by rewrite H1', H1, app_assoc|congruence| |congruence].
  rewrite H2 in H3'. congruence.
Qed.
Lemma kept_set_burst s d d' b : kept s d d' → kept s d (set_burst b d').
Proof. intros []. by split. Qed.
Lemma kept_of_set_burst s d d' b : kept s (set_burst b d) d' → kept s d d'.
Proof. intros []. by split. Qed.
Lemma text_ok_set_burst K d b : text_ok K d → text_ok K (set_burst b d).
Proof. intros [[] ?]. by split; [split|]. Qed.
Lemma labelled_mono K K' l : (K <= K')%N → labelled K l → labelled K' l.
Proof. intros HK Hl p Hp. destruct (Hl p Hp) as (n & k & ? & ?). exists n, k. split; [lia|done]. Qed.
Lemma text_ok_mono K K' d : (K <= K')%N → text_ok K d → text_ok K' d.
Proof. intros HK [[] ?]. split; [split; eauto using labelled_mono|done]. Qed.

Lemma label_head n k : ∃ s, label n k = 91%N :: s.
Proof. unfold label, placeholder_base. destruct (k <=? 1)%N; eexists; reflexivity. Qed.

Lemma element_head K d t :
  elements_ok K d → t ∈ elements_of (before (textarea d) ++ after (textarea d)) → ∃ s, t = 91%N :: s.
Proof.
  intros [_ Hl Hk _ _] Ht. apply Hk in Ht as (p & -> & Hp)%list_elem_of_fmap. apply Hl in Hp as (n & k & _ & ->).
  apply label_head.
Qed.

(** Making the shell mode of a leading exclamation mark changes nothing that is submitted. *)
Lemma sync_kept K d :
  elements_ok K d →
  text_ok K (sync_bash_mode_from_text d) ∧ kept [] d (sync_bash_mode_from_text d) ∧
  paste_burst (sync_bash_mode_from_text d) = paste_burst d.
Proof.
  intros Hok. unfold sync_bash_mode_from_text. destruct (is_bash_mode d) eqn:Eb; simpl.
  { split_and!; [split; [done|by left]|apply kept_refl|done]. }
  fold (bang (area_text (textarea d))). destruct (bang _) eqn:Eg; simpl.
  2:{ split_and!; [split; [done|by right]|apply kept_refl|done]. }
  pose proof Hok as [Hm Hl Hk Hn [Ha|Ha]]; [congruence|].
  destruct (textarea d) as [[|p b] a m] eqn:Et; simpl in *; [unfold area_text in Eg; simpl in Eg; congruence|].
  assert (p = Plain 33%N) as ->.
  { destruct p as [c|t].
    - unfold area_text in Eg. simpl in Eg. rewrite bang_cons in Eg. apply bool_decide_eq_true in Eg. by subst.
    - destruct (element_head K d t Hok) as [s ->]; [rewrite Et; simpl; set_solver|]. done. }
  split_and!; [|split|done]; unfold remove_first_byte; simpl.
  - split; [split; simpl; auto|by left].
  - unfold visible. rewrite Eb, Et. simpl. by rewrite app_nil_r.
  - by rewrite Et.
  - by rewrite Et.
  - done.
Qed.

Lemma area_insert_elements K d s :
  elements_ok K d → elements_ok K (set_textarea (area_insert_str s (textarea d)) d).
Proof.
  intros [Hm Hl Hk Hn Ha]. split; simpl; rewrite ?elements_app, ?elements_plain, ?app_nil_r, <- ?elements_app; auto.
Qed.
Lemma area_insert_kept d s : kept s d (set_textarea (area_insert_str s (textarea d)) d).
Proof. split; [|done..]. unfold visible. simpl. by rewrite values_app, values_plain, app_assoc. Qed.

Lemma insert_str_kept K d s :
  elements_ok K d →
  text_ok K (insert_str s d) ∧ kept s d (insert_str s d) ∧ paste_burst (insert_str s d) = paste_burst d.
Proof.
  intros Hok. unfold insert_str.
  destruct (sync_kept K _ (area_insert_elements K d s Hok)) as (H1 & H2 & H3). split_and!; [done| |by rewrite H3].
  pose proof (kept_trans s [] _ _ _ (area_insert_kept d s) H2) as Hk. by rewrite app_nil_r in Hk.
Qed.

(** ** Pasting *)

Definition printable (s : list N) : Prop := Forall (λ c, c = nl ∨ c = 9%N ∨ is_control c = false) s.

Lemma printable_not c s (x : N) : printable (c :: s) → x = cr ∨ x = 27%N → bool_decide (c = x) = false.
Proof.
  intros Hs Hx. apply bool_decide_eq_false. intros ->. apply Forall_cons in Hs as [Hc _].
  destruct Hx as [-> | ->]; destruct Hc as [?|[?|?]]; done.
Qed.
Lemma replace_crlf_printable s : printable s → replace_crlf s = s.
Proof.
  induction s as [|c s IH]; intros Hs; [done|]. simpl. destruct s as [|c' s]; [done|].
  rewrite (printable_not c (c' :: s) cr) by auto. simpl andb. cbv iota. f_equal. apply IH. by apply Forall_cons in Hs as [_ ?].
Qed.
Lemma replace_cr_printable s : printable s → replace_cr s = s.
Proof.
  unfold replace_cr. induction s as [|c s IH]; intros Hs; [done|]. simpl.
  rewrite (printable_not c s cr) by auto. f_equal. apply IH. by apply Forall_cons in Hs as [_ ?].
Qed.
Lemma sanitize_printable s : printable s → sanitize_user_text s = s.
Proof.
  unfold sanitize_user_text. induction s as [|c s IH]; intros Hs; [done|].
  assert (Hk : (bool_decide (c = nl) || bool_decide (c = 9%N)) || negb (is_control c) = true).
  { apply Forall_cons in Hs as [[->|[->|Hc]] _]; [done..|]. by rewrite Hc, orb_true_r. }
  pose proof (printable_not c s 27%N Hs (or_intror eq_refl)) as H27.
  apply Forall_cons in Hs as [_ Hs]. cbn [sanitize]. rewrite Hk, H27. destruct s as [|c' s]; [done|].
  simpl andb. cbv iota. by rewrite IH.
Qed.

Lemma bang_app a b : bang (a ++ b) = match a with [] => bang b | _ => bang a end.
Proof. destruct a; [done|]. simpl. by rewrite !bang_cons. Qed.
Lemma bang_insert tb t ta : bang (tb ++ ta) = false → bang t = false → bang (tb ++ t ++ ta) = false.
Proof. rewrite !(bang_app tb). destruct tb; [|done]. rewrite bang_app. by destruct t. Qed.

Lemma payload_known e l : e ∈ l.*1 → is_Some (payload e l).
Proof.
  induction l as [|[ph v] l IH]; [by intros ?%elem_of_nil|]. simpl. rewrite elem_of_cons.
  case_bool_decide; [by eexists|]. intros [->|?]; [done|auto].
Qed.
Lemma values_known l l' ps :
  (∀ e, e ∈ elements_of ps → e ∈ l.*1) → values (l ++ l') ps = values l ps.
Proof.
  intros Hk. apply values_ext. intros e He. rewrite payload_app.
  by destruct (payload_known e l (Hk e He)) as [v ->].
Qed.

(** A long paste is shown as a placeholder of its own. *)
Lemma insert_paste_ok K d s :
  let p := next_large_paste_placeholder (length s) (pending_pastes d) in
  let d' := set_pastes (pending_pastes d ++ [(p, s)]) (set_textarea (area_insert_element p (textarea d)) d) in
  text_ok K d → (1 <= K)%N → (K + 1 <= usize_limit)%N →
  text_ok (K + 1) d' ∧ kept s d d'.
Proof.
  intros p d' [[Hm Hl Hk Hn Ha] Hs] HK Hlim.
  destruct (next_placeholder (length s) K (pending_pastes d) Hl HK Hlim) as [Hnew (k & Hk' & Hp)].
  fold p in Hnew, Hp. rewrite elements_app in Hk, Hn.
  split; [split; [split|]|split]; simpl.
  - done.
  - intros q [Hq| ->%list_elem_of_singleton]%elem_of_app.
    + destruct (Hl q Hq) as (n & k' & ? & ?). exists n, k'. split; [lia|done].
    + by exists (length s), k.
  - intros e. rewrite !elements_app, fmap_app. specialize (Hk e). simpl. set_solver.
  - rewrite !elements_app, <- app_assoc. simpl. rewrite <- Permutation_middle. apply NoDup_cons. split; [|done]. intros ?. by apply Hnew, Hk.
  - done.
  - destruct Hs as [Hs|Hs]; [by left|right]. unfold area_text in *. simpl. revert Hs.
    rewrite !text_app, <- app_assoc. intros Hs. apply bang_insert; [done|]. simpl. rewrite app_nil_r.
    destruct (label_head (length s) k) as [r Hr]. by rewrite Hp, Hr, bang_cons.
  - unfold visible. simpl. rewrite values_app, values_known by set_solver. rewrite app_assoc. f_equal.
    simpl. rewrite payload_app, payload_None by done. simpl. by rewrite bool_decide_true, app_nil_r.
  - done.
  - apply values_known. set_solver.
  - done.
Qed.

(** What is put aside for the text: characters typed by hand, and no image by that name. *)
Section pasting.
Context (pasted_image : list N → option (list N)) (Himg : ∀ s, pasted_image s = None).

Lemma handle_paste_ok K d s :
  text_ok K d → printable s → (1 <= K)%N → (K + 1 <= usize_limit)%N →
  text_ok (K + 1) (handle_paste pasted_image s d) ∧ kept s d (handle_paste pasted_image s d) ∧
  paste_burst (handle_paste pasted_image s d) = default_burst.
Proof.
  intros Hok Hs HK Hlim. unfold handle_paste.
  rewrite replace_crlf_printable, replace_cr_printable, sanitize_printable by done.
  destruct (LARGE_PASTE_CHAR_THRESHOLD <? length s).
  - destruct (insert_paste_ok K d s Hok HK Hlim) as [H1 H2].
    split_and!; [by apply text_ok_set_burst|by apply kept_set_burst|done].
  - rewrite Himg. destruct (1 <? length s);
      (destruct (insert_str_kept K d s (proj1 Hok)) as (H1 & H2 & H3);
       split_and!; [eapply text_ok_set_burst, text_ok_mono; [|exact H1]; lia|by apply kept_set_burst|done]).
Qed.

Lemma flush_held_ok K d :
  text_ok K d → burst_ok (paste_burst d) → printable (held (paste_burst d)) → (1 <= K)%N → (K + 1 <= usize_limit)%N →
  text_ok (K + 1) (flush_held pasted_image d) ∧ kept (held (paste_burst d)) d (flush_held pasted_image d) ∧
  paste_burst (flush_held pasted_image d) = if is_active (paste_burst d) then default_burst else paste_burst d.
Proof.
  intros Hok Hb Hp HK Hlim. unfold flush_held. destruct (flush_before_modified_input _) as [b o] eqn:E.
  destruct (flush_before_held _ _ _ Hb E) as (Hh & _ & _). unfold flush_before_modified_input in E.
  destruct (is_active (paste_burst d)); simpl in E; injection E as <- <-; simpl in Hh.
  - rewrite Hh. destruct (handle_paste_ok K (set_burst (set_pending None (take_buffer (set_active false (paste_burst d)))) d)
      (held (paste_burst d))) as (H1' & H2' & H3'); [|done..|].
    { by apply text_ok_set_burst. }
    split_and!; [done|by eapply kept_of_set_burst|done].
  - rewrite <- Hh. split_and!; [apply text_ok_set_burst, (text_ok_mono K); [lia|done]|apply kept_set_burst, kept_refl|done].
Qed.
End pasting.

(** ** Characters in and out of the text *)

Lemma area_insert_text_ok K d c :
  text_ok K d → c ≠ 33%N ∨ text_of (before (textarea d)) ≠ [] →
  text_ok K (set_textarea (area_insert_str [c] (textarea d)) d).
Proof.
  intros [Hok Hs] Hc. split; [by apply area_insert_elements|]. destruct Hs as [|Hs]; [by left|right].
  revert Hs. unfold area_text. simpl. rewrite !text_app, <- app_assoc. simpl. destruct Hc as [Hc|Hc].
  - intros Hs. apply (bang_insert _ [c]); [done|]. by rewrite bang_cons, bool_decide_false by congruence.
  - rewrite !bang_app. by destruct (text_of (before (textarea d))).
Qed.

(** Dropping pastes whose placeholder is not shown. *)
Lemma filter_pastes_ok K d (P : list N * list N → Prop) `{!∀ p, Decision (P p)} :
  (∀ e v, e ∈ elements_of (before (textarea d) ++ after (textarea d)) → P (e, v)) →
  text_ok K d →
  text_ok K (set_pastes (filter P (pending_pastes d)) d) ∧ kept [] d (set_pastes (filter P (pending_pastes d)) d).
Proof.
  intros HP [[Hm Hl Hk Hn Ha] Hs].
  assert (Hv : ∀ ps, (∀ e, e ∈ elements_of ps → e ∈ elements_of (before (textarea d) ++ after (textarea d))) →
    values (filter P (pending_pastes d)) ps = values (pending_pastes d) ps).
  { intros ps Hps. apply values_ext. intros e He. apply payload_filter. eauto. }
  split; [split; [split|]|split]; simpl; auto.
  - intros p [_ Hp]%list_elem_of_filter. auto.
  - intros e He. apply Hk in He as He'. apply list_elem_of_fmap in He' as ([e' v] & -> & Hp).
    apply list_elem_of_fmap. exists (e', v). split; [done|]. apply list_elem_of_filter. auto.
  - unfold visible. simpl. rewrite app_nil_r, Hv; [done|]. intros e. rewrite elements_app. set_solver.
  - apply Hv. intros e. rewrite elements_app. set_solver.
Qed.

Lemma element_contained e ps : e ∈ elements_of ps → contains_str e (text_of ps) = true.
Proof.
  induction ps as [|p ps IH]; [by intros ?%elem_of_nil|]. rewrite (elements_app [p] ps : elements_of (p :: ps) = _).
  change (text_of (p :: ps)) with (piece_text p ++ text_of ps). rewrite elem_of_app. intros [He|He].
  - destruct p as [c|t]; simpl in He; [by apply elem_of_nil in He|]. apply list_elem_of_singleton in He as ->.
    apply (contains_str_app t []).
  - apply IH in He. clear IH. induction (piece_text p) as [|c t IHt]; [done|]. simpl. by rewrite IHt, orb_true_r.
Qed.

Lemma retain_contained_ok K d :
  text_ok K d → text_ok K (retain_contained d) ∧ kept [] d (retain_contained d).
Proof. apply filter_pastes_ok. intros e v He. by apply element_contained. Qed.

Lemma reconcile_ok K els d :
  (∀ e, e ∈ els → e ∈ elements_of (before (textarea d) ++ after (textarea d))) →
  text_ok K d → text_ok K (reconcile_deleted_elements els d) ∧ kept [] d (reconcile_deleted_elements els d).
Proof. intros He. apply filter_pastes_ok. intros e v He'. rewrite list_elem_of_filter. simpl. tauto. Qed.

(** Taking typed characters back out of the text. *)
Lemma keep_before_app b s : keep_before (byte_len (text_of b)) (b ++ (Plain <$> s)) = b.
Proof.
  induction b as [|p b IH]; simpl.
  - destruct s as [|c s]; [done|]. simpl. rewrite Nat.add_0_r. unfold len_utf8. by repeat case_match.
  - change (text_of (p :: b)) with (piece_text p ++ text_of b). rewrite byte_len_app.
    rewrite leb_correct by lia. by rewrite Nat.add_comm, Nat.add_sub, IH.
Qed.

Lemma grab_ok K d b s g :
  text_ok K d → before (textarea d) = b ++ (Plain <$> (s ++ g)) →
  let d' := set_textarea (mkArea (b ++ (Plain <$> s)) (after (textarea d)) (insert_mode (textarea d))) d in
  text_ok K d' ∧ visible d = visible d' ++ g.
Proof.
  intros [[Hm Hl Hk Hn Ha] Hs] Hb d'. rewrite fmap_app, app_assoc in Hb.
  assert (Hel : elements_of (before (textarea d) ++ after (textarea d)) =
    elements_of ((b ++ (Plain <$> s)) ++ after (textarea d))).
  { by rewrite Hb, !elements_app, !elements_plain, !app_nil_r. }
  split; [split; [split|]|]; simpl; rewrite <- ?Hel; auto.
  - destruct Hs as [|Hs]; [by left|]. destruct Ha as [|Ha]; [by left|]. right. revert Hs. unfold area_text. simpl.
    rewrite Hb, !(text_app _ (after _)), (text_app _ (Plain <$> g)), <- app_assoc, !bang_app. by destruct (text_of (b ++ _)).
  - unfold visible. simpl. by rewrite Hb, (values_app _ _ (Plain <$> g)), values_plain, app_assoc.
Qed.

(** ** The draft while it is typed *)

(** The characters a burst may still take back are at the end of the text, typed by hand. *)
Definition tail_ok (now : N) (d : Draft) : Prop :=
  ∀ t, pending_first_char (paste_burst d) = None → active (paste_burst d) = false →
    last_plain_char_time (paste_burst d) = Some t → (now - t <= PASTE_BURST_CHAR_INTERVAL)%N →
    ∃ b s, before (textarea d) = b ++ (Plain <$> s) ∧ printable s ∧
      (consecutive_plain_char_burst (paste_burst d) <= N.of_nat (length s))%N.

Record draft_ok (K now : N) (d : Draft) : Prop := {
  dr_text : text_ok K d;
  dr_burst : burst_ok (paste_burst d);
  dr_held : printable (held (paste_burst d));
  dr_enabled : disable_paste_burst d = false;
  dr_tail : tail_ok now d;
  dr_last : ∀ t, last_plain_char_time (paste_burst d) = Some t → (t <= now)%N }.

(** [d'] is [d] with [s] typed at its end, in the text or held back. *)
Record typed (s : list N) (d d' : Draft) : Prop := {
  ty_text : visible d' ++ held (paste_burst d') = (visible d ++ held (paste_burst d)) ++ s;
  ty_after : after (textarea d') = after (textarea d);
  ty_values : values (pending_pastes d') (after (textarea d)) = values (pending_pastes d) (after (textarea d)) }.

Lemma typed_trans s s' d d' d'' : typed s d d' → typed s' d' d'' → typed (s ++ s') d d''.
Proof.
  intros [H1 H2 H3] [H1' H2' H3']. split; [by rewrite H1', H1, !app_assoc|congruence|].
  rewrite H2 in H3'. congruence.
Qed.
Lemma typed_of_kept x s d d' :
  kept x d d' → x ++ held (paste_burst d') = held (paste_burst d) ++ s → typed s d d'.
Proof. intros [H1 H2 H3 _] Hx. split; [|done..]. by rewrite H1, <- !app_assoc, Hx. Qed.

Lemma draft_ok_mono K K' now now' d :
  (K <= K')%N → (now <= now')%N → draft_ok K now d → draft_ok K' now' d.
Proof.
  intros HK Hn [H1 H2 H3 H4 H5 H6]. split; [by eapply text_ok_mono|done..| |].
  - intros t Hp Ha Hl Ht. apply (H5 t); [done..|lia].
  - intros t Ht. apply H6 in Ht. lia.
Qed.

(** The text has changed and nothing is held. *)
Lemma draft_ok_cleared K now d : text_ok K d → disable_paste_burst d = false → paste_burst d = default_burst → draft_ok K now d.
Proof.
  intros Ht He Hb. split; [done|..|done| |]; rewrite ?Hb; [by split|apply Forall_nil_2| |done].
  intros t. by rewrite Hb.
Qed.

Lemma idle_buffer b : burst_ok b → active b = false → buffer b = [].
Proof. intros [_ _ Ha] Hb. destruct (decide (buffer b = [])) as [|Hn]; [done|]. apply Ha in Hn. congruence. Qed.
Lemma idle_held b : burst_ok b → active b = false → pending_first_char b = None → held b = [] ∧ is_active b = false.
Proof.
  intros Hok Hb Hp. unfold held, is_active, is_active_internal. by rewrite (idle_buffer b Hok Hb), Hb, Hp.
Qed.

Lemma flush_held_idle img d : is_active (paste_burst d) = false → flush_held img d = d.
Proof.
  intros E. unfold flush_held, flush_before_modified_input. rewrite E. by destruct d.
Qed.

(** A first character is held only while the next one may still belong to the same burst. *)
Definition recent (now : N) (b : PasteBurst) : Prop :=
  ∀ ch t, pending_first_char b = Some (ch, t) → (now - t <= PASTE_BURST_CHAR_INTERVAL)%N.

Definition idle (b : PasteBurst) : Prop := active b = false ∧ pending_first_char b = None.

Lemma note_tail now d :
  tail_ok now d → idle (paste_burst d) →
  ∃ b s, before (textarea d) = b ++ (Plain <$> s) ∧ printable s ∧
    (consecutive_plain_char_burst (note_plain_char now (paste_burst d)) <= N.of_nat (length s) + 1)%N.
Proof.
  intros Ht [Ha Hp]. unfold note_plain_char. simpl.
  destruct (last_plain_char_time (paste_burst d)) as [t|] eqn:El.
  - destruct (N.leb_spec (duration_since now t) PASTE_BURST_CHAR_INTERVAL) as [Hle|].
    + destruct (Ht t Hp Ha El Hle) as (b & s & Hb & Hs & Hc). exists b, s. split_and!; [done..|lia].
    + exists (before (textarea d)), []. rewrite app_nil_r. split_and!; [done|apply Forall_nil_2|simpl; lia].
  - exists (before (textarea d)), []. rewrite app_nil_r. split_and!; [done|apply Forall_nil_2|simpl; lia].
Qed.

(** A character that goes straight into the text. *)
Lemma inserted_ok K now d d' c :
  draft_ok K now d → idle (paste_burst d) → printable [c] →
  text_ok K d' → kept [c] d d' → before (textarea d') = before (textarea d) ++ [Plain c] →
  paste_burst d' = note_plain_char now (paste_burst d) →
  draft_ok K now d' ∧ typed [c] d d'.
Proof.
  intros [Ht Hb Hh He Htl Hla] Hi Hc Ht' Hk Hbef Hbur. pose proof (note_tail now d Htl Hi) as (b & s & Hs & Hps & Hcnt).
  destruct Hi as [Ha Hp]. pose proof (idle_buffer _ Hb Ha) as Hbuf. split.
  - split; [done|..]; rewrite ?Hbur.
    + split; simpl; [by rewrite Hp|by rewrite Hbuf|apply Hb].
    + unfold held. simpl. rewrite Hbuf, Hp. apply Forall_nil_2.
    + by rewrite (kept_enabled _ _ _ Hk).
    + intros t _ _ _ _. rewrite Hbur, Hbef, Hs. exists b, (s ++ [c]). rewrite fmap_app, app_assoc, length_app.
      split_and!; [done|by apply Forall_app|simpl length; lia].
    + by intros t [= <-].
  - eapply typed_of_kept; [done|]. rewrite Hbur. unfold held. simpl. by rewrite Hbuf, Hp, app_nil_r.
Qed.

(** A character that starts a burst with the characters before it. *)
Lemma grabbed_ok K now d d' c :
  draft_ok K now d → idle (paste_burst d) → printable [c] →
  begin_buffer c (consecutive_plain_char_burst (note_plain_char now (paste_burst d)) - 1) now
    (set_burst (note_plain_char now (paste_burst d)) d) = Some d' →
  draft_ok K now d' ∧ typed [c] d d'.
Proof.
  intros [Ht Hb Hh He Htl Hla] Hi Hc. pose proof (note_tail now d Htl Hi) as (b & s & Hs & Hps & Hcnt).
  destruct Hi as [Ha Hp]. pose proof (idle_buffer _ Hb Ha) as Hbuf.
  set (n := consecutive_plain_char_burst _) in *. unfold begin_buffer, decide_begin_buffer, retro_start_index. cbn [textarea set_burst].
  set (k := length s - N.to_nat (n - 1)). assert (Hk : k ≤ length s) by lia.
  rewrite Hs, text_app, text_plain.
  assert (Hr : retro_start (text_of b ++ s) (N.to_nat (n - 1)) = length (text_of b) + k)
    by (unfold retro_start; rewrite length_app; lia).
  rewrite Hr, drop_app_add, take_app_add.
  destruct (existsb _ _ || _); [|done]. simpl. intros [= <-].
  assert (Hsp : before (textarea d) = b ++ (Plain <$> (take k s ++ drop k s))) by by rewrite take_drop.
  assert (Et : (if bool_decide (drop k s = []) then textarea d
     else remove_before_cursor (byte_len (text_of b ++ take k s)) (textarea d)) =
     mkArea (b ++ (Plain <$> take k s)) (after (textarea d)) (insert_mode (textarea d))).
  { case_bool_decide as Ed.
    - rewrite Ed, app_nil_r in Hsp. rewrite <- Hsp. by destruct (textarea d).
    - unfold remove_before_cursor. rewrite Hsp, fmap_app, app_assoc.
      rewrite <- (text_plain (take k s)) at 1. rewrite <- text_app. f_equal. apply keep_before_app. }
  rewrite Et. destruct (grab_ok K d b (take k s) (drop k s) Ht Hsp) as [Hok Hv].
  split.
  - split; [exact (text_ok_set_burst _ _ _ Hok)|..]; simpl; [| |done|by intros t|by intros t [= <-]].
    + split; simpl; [by rewrite Hp|by eexists|]. split; [|done]. intros _. destruct (buffer _ ++ _); done.
    + unfold held. simpl. rewrite Hbuf, Hp, app_nil_r. apply Forall_app. split; [by apply Forall_drop|done].
  - split; [|done..]. unfold held. simpl. rewrite Hbuf, Hp, !app_nil_r. simpl.
    rewrite app_assoc. f_equal. by rewrite Hv.
Qed.

(** A character that joins what is held back. *)
Lemma buffered_ok K now d b c :
  draft_ok K now d → printable [c] →
  active b = true → pending_first_char b = None →
  (∃ t, last_plain_char_time b = Some t ∧ (t <= now)%N) →
  buffer b = held (paste_burst d) ++ [c] →
  draft_ok K now (set_burst b d) ∧ typed [c] d (set_burst b d).
Proof.
  intros [Ht Hb Hh He Htl Hla] Hc Ha Hp (u & Hl & Hu) Hbuf. split.
  - split; [by apply text_ok_set_burst|..|done| |]; simpl.
    + split; [by rewrite Hp|by rewrite Hl|]. rewrite Ha, Hbuf. split; [|done]. intros _. by destruct (held _).
    + unfold held at 1. rewrite Hp, app_nil_r, Hbuf. by apply Forall_app.
    + intros t _. simpl. by rewrite Ha.
    + intros t. rewrite Hl. by intros [= <-].
  - apply (typed_of_kept []); [apply kept_set_burst, kept_refl|]. simpl. unfold held at 1. by rewrite Hp, app_nil_r.
Qed.

Section typing.
Context (textarea_input : KeyEvent → TextArea → TextArea) (pasted_image : list N → option (list N)).
Context (Hin : ∀ c t, insert_mode t = true → textarea_input (mkKey (KChar c) false) t = area_insert_str [c] t).
Context (Himg : ∀ s, pasted_image s = None).

Lemma flush_due_ok K T now d :
  draft_ok K T d → (T <= now)%N → (1 <= K)%N → (K + 1 <= usize_limit)%N →
  let d' := fst (handle_paste_burst_flush pasted_image now d) in
  draft_ok (K + 1) now d' ∧ typed [] d d' ∧ recent now (paste_burst d').
Proof.
  intros Hd HT HK Hlim. pose proof Hd as [Ht Hb Hh He Htl Hla]. unfold handle_paste_burst_flush, flush_if_due.
  destruct (from_option _ _ _ && is_active_internal _) eqn:E1; [|destruct (from_option _ _ _) eqn:E2].
  - apply andb_true_iff in E1 as [_ Ei]. assert (Hp : pending_first_char (paste_burst d) = None).
    { destruct (pending_first_char _) as [[c t]|] eqn:Ep; [|done]. apply (ok_pending _ Hb) in Ep as (Eb & Ea & _).
      unfold is_active_internal in Ei. rewrite Eb, Ea in Ei. done. }
    unfold held in Hh. rewrite Hp, app_nil_r in Hh.
    destruct (handle_paste_ok pasted_image Himg K (set_burst (take_buffer (set_active false (paste_burst d))) d)
      (buffer (paste_burst d))) as (H1 & H2 & H3); [by apply text_ok_set_burst|done..|]. cbn [fst].
    split_and!.
    + apply draft_ok_cleared; [done| |done]. by rewrite (kept_enabled _ _ _ H2).
    + eapply typed_of_kept; [by eapply kept_of_set_burst|]. rewrite H3. unfold held. by rewrite Hp, !app_nil_r.
    + intros ch t. by rewrite H3.
  - assert (Ei : is_active_internal (paste_burst d) = false) by done. rewrite Ei in E2.
    destruct (pending_first_char (paste_burst d)) as [[c t]|] eqn:Ep; cbn [fst].
    + destruct (insert_str_kept K (set_burst (set_pending None (paste_burst d)) d) [c]) as (H1 & H2 & H3).
      { by apply text_ok_set_burst. }
      apply (ok_pending _ Hb) in Ep as Ep'. destruct Ep' as (Eb & Ea & El).
      split_and!.
      * split; [eapply text_ok_mono; [|done]; lia| | | | |]; rewrite ?H3; simpl.
        -- split; simpl; [done|done|by rewrite Eb, Ea].
        -- unfold held. simpl. rewrite Eb. apply Forall_nil_2.
        -- by rewrite (kept_enabled _ _ _ H2).
        -- intros t'. rewrite H3. simpl. rewrite El. intros _ _ [= <-] Hle. rewrite El in E2. simpl in E2.
           apply N.ltb_lt in E2. unfold duration_since in E2. lia.
        -- intros t' Ht'. apply Hla in Ht'. lia.
      * eapply typed_of_kept; [by eapply kept_of_set_burst|]. rewrite H3. unfold held. simpl. by rewrite Eb, Ep.
      * intros ch t'. by rewrite H3.
    + split_and!; [eapply draft_ok_mono; [..|by destruct d]; [lia|done]| |].
      * destruct d. by split; rewrite ?app_nil_r.
      * intros ch t. simpl. by rewrite Ep.
  - simpl. split_and!; [eapply draft_ok_mono; [..|by destruct d]; [lia|done]| |].
    + destruct d. by split; rewrite ?app_nil_r.
    + intros ch t Hp. simpl in Hp. apply (ok_pending _ Hb) in Hp as (Eb & Ea & El). revert E2.
      unfold is_active_internal. rewrite El, Eb, Ea. simpl. rewrite N.ltb_ge. done.
Qed.

Lemma apply_char_ok K now d c :
  draft_ok K now d → idle (paste_burst d) → printable [c] →
  (PASTE_BURST_MIN_CHARS <= consecutive_plain_char_burst (note_plain_char now (paste_burst d)))%N →
  let d' := apply_key textarea_input pasted_image (mkKey (KChar c) false)
              (set_burst (note_plain_char now (paste_burst d)) d) in
  draft_ok K now d' ∧ typed [c] d d'.
Proof.
  intros Hd Hi Hc Hn. pose proof (note_tail now d (dr_tail _ _ _ Hd) Hi) as (b & s & Hs & _ & Hcnt).
  pose proof (dr_text _ _ _ Hd) as Ht. set (n := consecutive_plain_char_burst _) in *.
  assert (Hne : text_of (before (textarea d)) ≠ []).
  { rewrite Hs, text_app, text_plain. destruct s; [change PASTE_BURST_MIN_CHARS with 3%N in Hn; simpl in Hcnt; lia|].
    by destruct (text_of b). }
  destruct (area_insert_text_ok K d c Ht (or_intror Hne)) as [Hel Hsy].
  unfold apply_key. cbn [code ctrl_or_alt textarea set_burst]. rewrite bool_decide_false by done.
  rewrite andb_false_r. cbn [andb]. rewrite Hin by apply Ht.
  set (d1 := set_textarea _ _). assert (Hsync : sync_bash_mode_from_text d1 = d1).
  { unfold sync_bash_mode_from_text. fold (bang (area_text (textarea d1))).
    destruct Hsy as [Hsy|Hsy]; simpl in Hsy; simpl; by rewrite Hsy, ?andb_false_r. }
  rewrite Hsync. assert (H1 : text_ok K d1) by exact (text_ok_set_burst _ _ _ (conj Hel Hsy)).
  destruct (reconcile_ok K (elements_of (before (textarea d) ++ after (textarea d))) d1) as [H2 H3]; [|done|].
  { intros e. simpl. rewrite !elements_app. set_solver. }
  eapply inserted_ok; [done..| |done|done]. rewrite <- (app_nil_r [c]). eapply kept_trans; [|exact H3].
  exact (kept_of_set_burst _ _ _ _ (area_insert_kept _ _)).
Qed.

Lemma ascii_char_ok K now d c :
  draft_ok K now d → recent now (paste_burst d) → printable [c] →
  let d' := handle_ascii_char textarea_input pasted_image c now d in
  draft_ok K now d' ∧ typed [c] d d'.
Proof.
  intros Hd Hr Hc. unfold handle_ascii_char, on_plain_char. cbn [active note_plain_char pending_first_char].
  pose proof (dr_burst _ _ _ Hd) as Hb. destruct (active (paste_burst d)) eqn:Ea.
  - assert (Ep : pending_first_char (paste_burst d) = None).
    { destruct (pending_first_char _) as [[]|] eqn:Ep; [|done]. apply Hb in Ep as (_ & ? & _). congruence. }
    apply (buffered_ok K now d _ c); simpl; [done..|by exists now|]. unfold held. by rewrite Ep, app_nil_r.
  - pose proof (idle_buffer _ Hb Ea) as Ebuf.
    destruct (pending_first_char (paste_burst d)) as [[h t]|] eqn:Ep.
    + unfold duration_since. rewrite (proj2 (N.leb_le _ _) (Hr h t Ep)).
      apply (buffered_ok K now d _ c); simpl; [done..|by exists now|]. unfold held. by rewrite Ep, Ebuf.
    + assert (Hi : idle (paste_burst d)) by done. fold (note_plain_char now (paste_burst d)).
      destruct (N.leb_spec PASTE_BURST_MIN_CHARS (consecutive_plain_char_burst (note_plain_char now (paste_burst d)))) as [Hn|Hn].
      * destruct (begin_buffer _ _ _ _) as [d'|] eqn:E; [by eapply grabbed_ok|].
        rewrite flush_held_idle; [by apply apply_char_ok|]. simpl. unfold is_active, is_active_internal. simpl.
        by rewrite Ea, Ebuf, Ep.
      * pose proof Hd as [Ht _ Hh He Htl Hla]. split.
        -- split; [by apply text_ok_set_burst|..|done| |]; simpl.
           ++ split; simpl; [by intros ? ? [= -> ->]|by rewrite Ebuf|by rewrite Ea, Ebuf].
           ++ unfold held. simpl. by rewrite Ebuf.
           ++ by intros t'.
           ++ by intros t' [= <-].
        -- apply (typed_of_kept []); [apply kept_set_burst, kept_refl|]. unfold held. simpl. by rewrite Ebuf, Ep.
Qed.

Lemma direct_char_ok K now d c :
  draft_ok K now d → idle (paste_burst d) → printable [c] → (127 < c)%N →
  let d0 := set_burst (note_plain_char now (paste_burst d)) d in
  let d' := retain_contained (set_textarea (textarea_input (mkKey (KChar c) false) (textarea d0)) d0) in
  draft_ok K now d' ∧ typed [c] d d'.
Proof.
  intros Hd Hi Hc Hna d0. pose proof (dr_text _ _ _ Hd) as Ht. cbn [textarea set_burst d0]. rewrite Hin by apply Ht.
  assert (H1 : text_ok K (set_textarea (area_insert_str [c] (textarea d)) d0)).
  { refine (text_ok_set_burst _ _ _ (area_insert_text_ok K d c Ht _)). left. lia. }
  destruct (retain_contained_ok K _ H1) as [H2 H3].
  eapply inserted_ok; [done..| |done|done]. rewrite <- (app_nil_r [c]). eapply kept_trans; [|exact H3].
  exact (kept_of_set_burst _ _ _ _ (area_insert_kept _ _)).
Qed.

Lemma non_ascii_char_ok K now d c :
  draft_ok K now d → printable [c] → (127 < c)%N → (1 <= K)%N → (K + 1 <= usize_limit)%N →
  let d' := handle_non_ascii_char textarea_input pasted_image c now d in
  draft_ok (K + 1) now d' ∧ typed [c] d d'.
Proof.
  intros Hd Hc Hna HK Hlim. unfold handle_non_ascii_char. rewrite (dr_enabled _ _ _ Hd).
  pose proof Hd as [Ht Hb Hh He Htl Hla]. unfold try_append_char_if_active. destruct (active (paste_burst d)) eqn:Ea; simpl orb.
  - assert (Ep : pending_first_char (paste_burst d) = None).
    { destruct (pending_first_char _) as [[]|] eqn:Ep; [|done]. apply Hb in Ep as (_ & ? & _). congruence. }
    assert (Hbuf : buffer (paste_burst d) ≠ []) by by apply Hb.
    destruct (buffered_ok K now d (append_char_to_buffer c now (paste_burst d)) c) as [H1 H2]; simpl; [done..| | |].
    { destruct (ok_timed _ Hb Hbuf) as [u Hu]. exists u. auto. }
    { unfold held. by rewrite Ep, app_nil_r. }
    split; [|done]. eapply draft_ok_mono; [..|done]; lia.
  - pose proof (idle_buffer _ Hb Ea) as Ebuf. rewrite Ebuf. simpl negb. cbv iota.
    replace (set_burst (paste_burst d) d) with d by by destruct d.
    destruct (flush_held_ok pasted_image Himg K d) as (H1 & H2 & H3); [done..|].
    set (d1 := flush_held pasted_image d) in *.
    assert (Hd1 : draft_ok (K + 1) now d1 ∧ idle (paste_burst d1) ∧ typed [] d d1).
    { destruct (is_active (paste_burst d)) eqn:Eact.
      - split_and!; [apply draft_ok_cleared; [done| |done]; by rewrite (kept_enabled _ _ _ H2)|by rewrite H3|].
        eapply typed_of_kept; [done|]. by rewrite H3, !app_nil_r.
      - unfold d1. rewrite flush_held_idle by done. split_and!; [eapply draft_ok_mono; [..|done]; lia| |].
        + split; [done|]. unfold is_active in Eact. apply orb_false_iff in Eact as [_ Eact%bool_decide_eq_false].
          destruct (pending_first_char _); [|done]. by destruct Eact.
        + split; by rewrite ?app_nil_r. }
    destruct Hd1 as (Hd1 & Hi & Hty). set (b1 := note_plain_char now (paste_burst d1)).
    assert (Hidle : is_active b1 = false).
    { change (is_active (paste_burst d1) = false). apply idle_held; [apply Hd1|apply Hi..]. }
    assert (Hgoal : ∀ d', draft_ok (K + 1) now d' ∧ typed [c] d1 d' → draft_ok (K + 1) now d' ∧ typed [c] d d').
    { intros d' [? ?]. split; [done|]. by apply (typed_trans [] [c] d d1). }
    pose proof (direct_char_ok (K + 1) now d1 c Hd1 Hi Hc Hna) as Hins.
    unfold on_plain_char_no_hold. fold b1. change (active b1) with (active (paste_burst d1)). rewrite (proj1 Hi).
    apply Hgoal. destruct (_ <=? _)%N.
    + destruct (begin_buffer _ _ _ _) as [d'|] eqn:E; [by eapply grabbed_ok|]. by rewrite flush_held_idle.
    + by rewrite flush_held_idle.
Qed.

Lemma type_char_ok K T now d c :
  draft_ok K T d → (T <= now)%N → printable [c] → (1 <= K)%N → (K + 2 <= usize_limit)%N →
  let d' := handle_input_basic_with_time textarea_input pasted_image (mkKey (KChar c) false) now d in
  draft_ok (K + 2) now d' ∧ typed [c] d d'.
Proof.
  intros Hd HT Hc HK Hlim. destruct (flush_due_ok K T now d Hd HT HK) as (H1 & H2 & H3); [lia|].
  unfold handle_input_basic_with_time. set (d1 := fst _) in *. cbn [code ctrl_or_alt].
  rewrite (dr_enabled _ _ _ H1), (el_mode _ _ (proj1 (dr_text _ _ _ H1))). cbn [negb andb].
  assert (Hgoal : ∀ d', draft_ok (K + 2) now d' ∧ typed [c] d1 d' → draft_ok (K + 2) now d' ∧ typed [c] d d').
  { intros d' [? ?]. split; [done|]. by apply (typed_trans [] [c] d d1). }
  apply Hgoal. destruct (N.ltb_spec 127 c) as [Hna|Ha].
  - replace (K + 2)%N with (K + 1 + 1)%N by lia. apply non_ascii_char_ok; [done..|lia|lia].
  - destruct (ascii_char_ok (K + 1) now d1 c H1 H3 Hc) as [H4 H5].
    split; [|done]. eapply draft_ok_mono; [..|done]; lia.
Qed.

(** Enter inside what may be a paste, with no first character held back. *)
Lemma enter_ok K T now d d' :
  draft_ok K T d → (T <= now)%N → pending_first_char (paste_burst d) = None →
  handle_submission_with_time pasted_image false false false now d = (d', false) →
  draft_ok K now d' ∧ typed [nl] d d'.
Proof.
  intros Hd0 HT Hp. assert (Hd : draft_ok K now d) by (eapply draft_ok_mono; [..|done]; lia). clear Hd0.
  assert (Hnl : printable [nl]) by (repeat constructor).
  pose proof Hd as [Ht Hb Hh He Htl Hla]. unfold handle_submission_with_time. rewrite He. cbn [negb andb].
  destruct (is_active (paste_burst d)) eqn:Ea; cbn [andb negb].
  - unfold append_newline_if_active. rewrite Ea. cbn [fst]. intros [= <-].
    assert (Hbuf : buffer (paste_burst d) ≠ []).
    { apply is_active_held in Ea; [|done]. unfold held in Ea. by rewrite Hp, app_nil_r in Ea. }
    apply buffered_ok; simpl; [done..|by apply Hb|done| |].
    + destruct (ok_timed _ Hb Hbuf) as [u Hu]. exists u. auto.
    + unfold held. by rewrite Hp, app_nil_r.
  - destruct (newline_should_insert_instead_of_submit _ _); [|done]. intros [= <-].
    assert (Hact : active (paste_burst d) = false).
    { unfold is_active, is_active_internal in Ea. by destruct (active _). }
    pose proof (idle_buffer _ Hb Hact) as Ebuf.
    assert (Ht' : text_ok K (set_textarea (area_insert_str [nl] (textarea d)) d))
      by (apply area_insert_text_ok; [done|by left]).
    split.
    + split; [by apply text_ok_set_burst|..|done| |done]; simpl.
      * split; simpl; [by rewrite Hp|by rewrite Ebuf|by rewrite Ebuf, Hact].
      * unfold held. simpl. rewrite Ebuf, Hp. apply Forall_nil_2.
      * intros t _ _ Hl Hle. destruct (Htl t Hp Hact Hl Hle) as (b & s & Hs & Hps & Hcnt).
        exists b, (s ++ [nl]). simpl. rewrite Hs, fmap_app, app_assoc, length_app.
        split_and!; [done|by apply Forall_app|simpl length; lia].
    + apply (typed_of_kept [nl]); [apply kept_set_burst, area_insert_kept|]. unfold held. simpl. by rewrite Ebuf, Hp.
Qed.

(** ** Typing *)

(** Keys pressed and ticks of the timer, in the order of their times, and the characters typed.  An
    Enter counts as a newline when the composer takes it for one (it does not submit) and no first
    character is held back: with one, [enter_loses_held_character] and
    [enter_overtakes_held_character] show that the text is not kept. *)
Inductive typing : N → Draft → list N → N → Draft → nat → Prop :=
| typing_done now d : typing now d [] now d 0
| typing_char now now' t d s d' n c :
    (now <= t)%N → printable [c] →
    typing t (handle_input_basic_with_time textarea_input pasted_image (mkKey (KChar c) false) t d) s now' d' n →
    typing now d (c :: s) now' d' (S n)
| typing_tick now now' t d s d' n :
    (now <= t)%N →
    typing t (fst (handle_paste_burst_flush pasted_image t d)) s now' d' n →
    typing now d s now' d' (S n)
| typing_enter now now' t d d1 s d' n :
    (now <= t)%N → pending_first_char (paste_burst d) = None →
    handle_submission_with_time pasted_image false false false t d = (d1, false) →
    typing t d1 s now' d' n →
    typing now d (nl :: s) now' d' (S n).

Lemma typing_ok now d s now' d' n K :
  typing now d s now' d' n → draft_ok K now d → (1 <= K)%N → (K + 2 * N.of_nat n <= usize_limit)%N →
  draft_ok (K + 2 * N.of_nat n) now' d' ∧ typed s d d'.
Proof.
  intros Ht. revert K. induction Ht as [now d|now now' t d s d' n c Hle Hc _ IH|now now' t d s d' n Hle _ IH|
    now now' t d d1 s d' n Hle Hp Hs _ IH]; intros K Hd HK Hlim.
  - rewrite N.add_0_r. split; [done|]. split; by rewrite ?app_nil_r.
  - destruct (type_char_ok K now t d c) as [H1 H2]; [done..|lia|]. apply IH in H1 as [H3 H4]; [|lia..].
    split; [eapply draft_ok_mono; [..|done]; lia|]. by apply (typed_trans [c] s d _ d' H2).
  - destruct (flush_due_ok K now t d) as (H1 & H2 & _); [done..|lia|]. apply IH in H1 as [H3 H4]; [|lia..].
    split; [eapply draft_ok_mono; [..|done]; lia|]. by apply (typed_trans [] s d _ d' H2).
  - destruct (enter_ok K now t d d1) as (H1 & H2); [done..|]. apply IH in H1 as [H3 H4]; [|lia..].
    split; [eapply draft_ok_mono; [..|done]; lia|]. by apply (typed_trans [nl] s d _ d' H2).
Qed.

(** After a pause nothing is held back. *)
Lemma pause_hands_out K now t d :
  draft_ok K now d → (now + PASTE_BURST_CHAR_INTERVAL < t)%N → (1 <= K)%N → (K + 1 <= usize_limit)%N →
  held (paste_burst (fst (handle_paste_burst_flush pasted_image t d))) = [].
Proof.
  intros Hd Ht HK Hlim. destruct (flush_due_ok K now t d Hd) as (H1 & _ & H3); [lia..|].
  pose proof Hd as [Htx Hb Hh _ _ Hla]. destruct (active (paste_burst d)) eqn:Ea.
  - assert (Hbuf : buffer (paste_burst d) ≠ []) by by apply Hb.
    destruct (ok_timed _ Hb Hbuf) as [u Hu]. unfold handle_paste_burst_flush, flush_if_due, is_active_internal.
    apply Hla in Hu as Hle. rewrite Ea, Hu. cbn [orb from_option]. unfold duration_since.
    change PASTE_BURST_ACTIVE_IDLE_TIMEOUT with PASTE_BURST_CHAR_INTERVAL.
    rewrite (proj2 (N.ltb_lt _ _)) by lia. cbn [andb fst]. unfold handle_paste. by destruct (_ <? _).
  - unfold handle_paste_burst_flush, flush_if_due, is_active_internal. rewrite Ea, (idle_buffer _ Hb Ea), bool_decide_true by done.
    destruct (pending_first_char (paste_burst d)) as [[c u]|] eqn:Ep.
    + apply Hb in Ep as Ep'. destruct Ep' as (Ebuf & _ & Hu). apply Hla in Hu as Hle. rewrite Hu. unfold duration_since.
      cbn [orb negb from_option]. rewrite (proj2 (N.ltb_lt _ _)) by lia. cbn [andb fst].
      rewrite (proj2 (proj2 (insert_str_kept K _ [c] (proj1 (text_ok_set_burst _ _ _ Htx))))).
      unfold held. simpl. by rewrite Ebuf.
    + simpl. destruct (from_option _ _ _); simpl; unfold held; by rewrite (idle_buffer _ Hb Ea), Ep.
Qed.

Lemma submission_split K d :
  text_ok K d → submission d = visible d ++ text_after d.
Proof.
  intros [[_ _ _ Hn _] _]. unfold submission, visible, text_after. by rewrite expand_values, values_app, app_assoc.
Qed.

(** C28. Whatever plain characters and newlines are typed, with any times and ticks of the timer in
    between: after a pause nothing is held back and the draft stands for its old text with exactly
    those characters at the cursor, where large pastes count as the text they stand for.
    Conditions: each Enter comes when no first character is held back and is taken for a newline
    ([typing]; without the first the claim is false, see [enter_loses_held_character]); the
    characters are no control characters but tab and newline; at the start nothing is held back,
    the detection of bursts is on, the text area is in insert mode, and every element is the
    placeholder of a pending large paste, no two the same ([draft_ok]); the counters of placeholders
    stay below the limit of usize; the text area inserts a plain character at its cursor; and no
    pasted text is taken for the path of an image. *)
Theorem typed_text_is_kept now d s now' d' n K t :
  typing now d s now' d' n →
  draft_ok K now d → held (paste_burst d) = [] →
  (1 <= K)%N → (K + 2 * N.of_nat n + 1 <= usize_limit)%N →
  (now' + PASTE_BURST_CHAR_INTERVAL < t)%N →
  let d'' := fst (handle_paste_burst_flush pasted_image t d') in
  held (paste_burst d'') = [] ∧
  submission d = visible d ++ text_after d ∧
  submission d'' = visible d ++ s ++ text_after d.
Proof.
  intros Hty Hd Hh HK Hlim Ht d''. destruct (typing_ok _ _ _ _ _ _ K Hty Hd) as [H1 H2]; [lia..|].
  assert (Hno : held (paste_burst d'') = []) by (eapply pause_hands_out; [done..|lia|lia]).
  destruct (flush_due_ok _ _ t d' H1) as (H3 & H4 & _); [lia..|].
  pose proof (typed_trans _ _ _ _ _ H2 H4) as [H5 H6 H7]. fold d'' in H3, H5, H6, H7.
  rewrite Hno, Hh, !app_nil_r in H5. split; [done|].
  rewrite (submission_split _ _ (dr_text _ _ _ Hd)), (submission_split _ _ (dr_text _ _ _ H3)).
  split; [done|]. unfold text_after. by rewrite H5, H6, H7, app_assoc.
Qed.
End typing.

(** ** Concrete keys *)

Definition plain_input (key : KeyEvent) (t : TextArea) : TextArea :=
  match code key with KChar c => area_insert_str [c] t | _ => t end.
Definition no_image (s : list N) : option (list N) := None.
Definition empty_draft : Draft := mkDraft (mkArea [] [] true) [] false false default_burst.
Definition type_at (c : N) (ms : N) : Draft → Draft :=
  handle_input_basic_with_time plain_input no_image (mkKey (KChar c) false) (ms * 1000000).
Definition enter_at (ms : N) (d : Draft) : Draft :=
  fst (handle_submission_with_time no_image false false false (ms * 1000000) d).
Definition tick_at (ms : N) (d : Draft) : Draft := fst (handle_paste_burst_flush no_image (ms * 1000000) d).

Lemma printable_char c : is_control c = false → printable [c].
Proof. intros Hc. constructor; [auto|apply Forall_nil_2]. Qed.
Lemma empty_draft_ok : draft_ok 1 0 empty_draft.
Proof.
  apply draft_ok_cleared; [|done..]. split; [split|by right]; simpl.
  - done.
  - intros p ?%elem_of_nil. done.
  - intros e ?%elem_of_nil. done.
  - apply NoDup_nil_2.
  - by right.
Qed.

Lemma typed_text_is_kept_witness :
  submission (tick_at 30 (type_at 33 3 (enter_at 2 (type_at 105 1 (type_at 104 0 empty_draft))))) =
    [104; 105; nl; 33]%N.
Proof.
  refine (proj2 (proj2 (typed_text_is_kept plain_input no_image (λ _ _ _, eq_refl) (λ _, eq_refl)
    0 empty_draft [104; 105; nl; 33]%N 3000000
    (type_at 33 3 (enter_at 2 (type_at 105 1 (type_at 104 0 empty_draft)))) 4 1 30000000
    _ empty_draft_ok eq_refl _ _ _))); [|done..].
  apply (typing_char _ _ 0 _ 0); [done|by apply printable_char|].
  apply (typing_char _ _ 0 _ 1000000); [done|by apply printable_char|].
  eapply (typing_enter _ _ 1000000 _ 2000000); [done|done|reflexivity|].
  apply (typing_char _ _ 2000000 _ 3000000); [done|by apply printable_char|].
  apply typing_done.
Defined.

(** An Enter while a first character is held back: the newline is put before it, and when the burst
    is handed out the character is gone... *)
Example enter_loses_held_character :
  submission (tick_at 30 (enter_at 1 (type_at 121 0 empty_draft))) = [nl].
Proof. vm_compute. reflexivity. Qed.
(** ... or, with more characters in time, behind it. *)
Example enter_overtakes_held_character :
  submission (tick_at 30 (type_at 99 3 (type_at 98 2 (enter_at 1 (type_at 97 0 empty_draft))))) =
    [nl; 97; 98; 99]%N.
Proof. vm_compute. reflexivity. Qed.
