(* ===== verification/TextEdit.v ===== *)
(** * The text area of the composer (tui/src/bottom_pane/textarea.rs)

    An editable text with a cursor, atomic elements (placeholders) and a kill buffer.  Positions
    are byte offsets; a slice off a character boundary is a panic ([None]).  Words, graphemes,
    display widths and wrapped lines come from other crates and are arguments of the definitions.
    Times of the wrap cache and rendering are left out; the build is not for Windows. *)

From stdpp Require Import prelude strings list.
From S2P Require Import Prelude RustStr.

(** ** Strings and byte offsets *)

(** [str::split_at_checked]. *)
Fixpoint split_at (p : nat) (s : str) : option (list N * list N) :=
  match p, s with
  | 0, _ => Some ([], s)
  | _, [] => None
  | _, c :: s' =>
      if len_utf8 c <=? p then (λ ab, (c :: ab.1, ab.2)) <$> split_at (p - len_utf8 c) s' else None
  end.
Definition is_char_boundary (p : nat) (s : str) : bool := bool_decide (is_Some (split_at p s)).
(** [&s[start..end]]. *)
Definition slice (start end_ : nat) (s : str) : option (list N) :=
  '(h, _) ← split_at end_ s; '(_, m) ← split_at start h; Some m.

(** [str::find] and [char_indices().rev().find]. *)
Fixpoint find_from (P : N → bool) (off : nat) (s : str) : option nat :=
  match s with [] => None | c :: s' => if P c then Some off else find_from P (off + len_utf8 c) s' end.
Fixpoint rfind_from (P : N → bool) (off : nat) (s : str) : option (nat * N) :=
  match s with
  | [] => None
  | c :: s' =>
      match rfind_from P (off + len_utf8 c) s' with
      | Some r => Some r
      | None => if P c then Some (off, c) else None
      end
  end.
Definition is_nl (c : N) : bool := bool_decide (c = nl).
Definition not_whitespace (c : N) : bool := negb (is_whitespace c).

(** ** State *)

Record TextElement := mkElement { el_id : N; el_start : nat; el_end : nat }.
Record TextElementSnapshot := mkSnapshot { snap_id : N; snap_range : nat * nat; snap_text : list N }.
Record WrapCache := mkWrap { wrap_width : N; wrap_lines : list (nat * nat) }.
Inductive KillBufferKind := Characterwise | Linewise.
#[global] Instance kill_kind_eq_dec : EqDecision KillBufferKind.
Proof. solve_decision. Defined.

Inductive VimMode := Normal | Insert.
Inductive VimOperator := Delete | Yank | Change.
Inductive VimTextObjectScope := Inner | Around.
Inductive VimPending :=
| NoPending
| PendingOperator (op : VimOperator)
| PendingTextObject (operator : VimOperator) (scope : VimTextObjectScope).
#[global] Instance vim_mode_eq_dec : EqDecision VimMode.
Proof. solve_decision. Defined.
#[global] Instance vim_operator_eq_dec : EqDecision VimOperator.
Proof. solve_decision. Defined.

Record TextArea := mkTextArea {
  text : list N;
  cursor_pos : nat;
  wrap_cache : option WrapCache;
  preferred_col : option nat;
  elements : list TextElement;
  next_id : N;
  kill_buffer : list N;
  kill_buffer_kind : KillBufferKind;
  vim_enabled : bool;
  vim_mode : VimMode;
  vim_pending : VimPending }.

Definition new : TextArea := mkTextArea [] 0 None None [] 1 [] Characterwise false Insert NoPending.

Definition with_cursor (p : nat) (t : TextArea) : TextArea :=
  mkTextArea (text t) p (wrap_cache t) (preferred_col t) (elements t) (next_id t) (kill_buffer t)
    (kill_buffer_kind t) (vim_enabled t) (vim_mode t) (vim_pending t).
Definition with_col (c : option nat) (t : TextArea) : TextArea :=
  mkTextArea (text t) (cursor_pos t) (wrap_cache t) c (elements t) (next_id t) (kill_buffer t)
    (kill_buffer_kind t) (vim_enabled t) (vim_mode t) (vim_pending t).
Definition with_elements (l : list TextElement) (t : TextArea) : TextArea :=
  mkTextArea (text t) (cursor_pos t) (wrap_cache t) (preferred_col t) l (next_id t) (kill_buffer t)
    (kill_buffer_kind t) (vim_enabled t) (vim_mode t) (vim_pending t).
Definition with_next_id (n : N) (t : TextArea) : TextArea :=
  mkTextArea (text t) (cursor_pos t) (wrap_cache t) (preferred_col t) (elements t) n (kill_buffer t)
    (kill_buffer_kind t) (vim_enabled t) (vim_mode t) (vim_pending t).
(** A change of the text drops the wrapped lines and the preferred column. *)
Definition with_text (s : list N) (t : TextArea) : TextArea :=
  mkTextArea s (cursor_pos t) None None (elements t) (next_id t) (kill_buffer t)
    (kill_buffer_kind t) (vim_enabled t) (vim_mode t) (vim_pending t).
Definition with_wrap (w : option WrapCache) (t : TextArea) : TextArea :=
  mkTextArea (text t) (cursor_pos t) w (preferred_col t) (elements t) (next_id t) (kill_buffer t)
    (kill_buffer_kind t) (vim_enabled t) (vim_mode t) (vim_pending t).
Definition store_kill_buffer (s : list N) (kind : KillBufferKind) (t : TextArea) : TextArea :=
  mkTextArea (text t) (cursor_pos t) (wrap_cache t) (preferred_col t) (elements t) (next_id t) s
    kind (vim_enabled t) (vim_mode t) (vim_pending t).
Definition with_vim (enabled : bool) (mode : VimMode) (pending : VimPending) (t : TextArea) : TextArea :=
  mkTextArea (text t) (cursor_pos t) (wrap_cache t) (preferred_col t) (elements t) (next_id t) (kill_buffer t)
    (kill_buffer_kind t) enabled mode pending.

Definition text_len (t : TextArea) : nat := byte_len (text t).

Definition set_vim_enabled (enabled : bool) (t : TextArea) : TextArea :=
  with_vim enabled (if enabled then Normal else Insert) NoPending t.
Definition is_vim_normal_mode (t : TextArea) : bool := vim_enabled t && bool_decide (vim_mode t = Normal).
Definition is_vim_operator_pending (t : TextArea) : bool :=
  match vim_pending t with NoPending => false | _ => true end.
Definition enter_vim_insert_mode (t : TextArea) : TextArea :=
  if vim_enabled t then with_vim (vim_enabled t) Insert NoPending t else t.
Definition enter_vim_normal_mode (t : TextArea) : TextArea :=
  if vim_enabled t then with_col None (with_vim (vim_enabled t) Normal NoPending t) else t.
Definition allows_paste_burst (t : TextArea) : bool := negb (vim_enabled t) || bool_decide (vim_mode t = Insert).

(** ** Boundaries *)

Definition find_element_containing (pos : nat) (t : TextArea) : option TextElement :=
  find (λ e, (el_start e <? pos) && (pos <? el_end e)) (elements t).

Fixpoint prev_char_boundary (p : nat) (s : str) : nat :=
  match p with
  | 0 => 0
  | S q => if is_char_boundary p s then p else prev_char_boundary q s
  end.
Fixpoint next_char_boundary (fuel p : nat) (s : str) : nat :=
  match fuel with
  | 0 => p
  | S fuel => if is_char_boundary p s then p else next_char_boundary fuel (S p) s
  end.
Definition clamp_pos_to_char_boundary (pos : nat) (t : TextArea) : nat :=
  let pos := Nat.min pos (text_len t) in
  if is_char_boundary pos (text t) then pos
  else
    let prev := prev_char_boundary pos (text t) in
    let next := next_char_boundary (text_len t - pos) pos (text t) in
    if pos - prev <=? next - pos then prev else next.

Definition clamp_pos_to_nearest_boundary (pos : nat) (t : TextArea) : nat :=
  let pos := clamp_pos_to_char_boundary pos t in
  match find_element_containing pos t with
  | Some e =>
      if pos - el_start e <=? el_end e - pos
      then clamp_pos_to_char_boundary (el_start e) t else clamp_pos_to_char_boundary (el_end e) t
  | None => pos
  end.
(** The two have the same body. *)
Definition clamp_pos_for_insertion (pos : nat) (t : TextArea) : nat := clamp_pos_to_nearest_boundary pos t.

Definition set_cursor (pos : nat) (t : TextArea) : TextArea :=
  let t := with_cursor (Nat.min pos (text_len t)) t in
  with_col None (with_cursor (clamp_pos_to_nearest_boundary (cursor_pos t) t) t).

(** One round of the loop of [expand_range_to_element_boundaries], and the loop. *)
Definition expand_one (rc : (nat * nat) * bool) (e : TextElement) : (nat * nat) * bool :=
  let '(r, changed) := rc in
  if (el_start e <? r.2) && (r.1 <? el_end e) then
    let r' := (Nat.min r.1 (el_start e), Nat.max r.2 (el_end e)) in
    if bool_decide (r' = r) then (r, changed) else (r', true)
  else (r, changed).
Definition expand_round (els : list TextElement) (r : nat * nat) : (nat * nat) * bool :=
  foldl expand_one (r, false) els.
Fixpoint expand_loop (fuel : nat) (els : list TextElement) (r : nat * nat) : nat * nat :=
  let '(r', changed) := expand_round els r in
  if (changed : bool) then match fuel with 0 => r' | S fuel => expand_loop fuel els r' end else r'.
Definition expand_range_to_element_boundaries (r : nat * nat) (t : TextArea) : nat * nat :=
  expand_loop (r.1 + text_len t) (elements t) r.

Definition shift_elements (at_ removed inserted : nat) (t : TextArea) : TextArea :=
  let end_ := at_ + removed in
  let kept := filter (λ e, ¬ (at_ ≤ el_start e ∧ el_end e ≤ end_)) (elements t) in
  with_elements ((λ e,
    if el_end e <=? at_ then e
    else if end_ <=? el_start e
    then mkElement (el_id e) (el_start e + inserted - removed) (el_end e + inserted - removed)
    else mkElement (el_id e) (Nat.min at_ (el_start e)) (at_ + Nat.max inserted (el_end e - end_)))
    <$> kept) t.
Definition update_elements_after_replace (start end_ inserted_len : nat) (t : TextArea) : TextArea :=
  shift_elements start (end_ - start) inserted_len t.

(** ** Edits *)

Definition insert_str_at (pos : nat) (s : str) (t : TextArea) : option TextArea :=
  let pos := clamp_pos_for_insertion pos t in
  '(pre, post) ← split_at pos (text t);
  let cursor := if pos <=? cursor_pos t then cursor_pos t + byte_len s else cursor_pos t in
  Some (shift_elements pos 0 (byte_len s) (with_cursor cursor (with_text (pre ++ s ++ post) t))).
Definition insert_str (s : str) (t : TextArea) : option TextArea := insert_str_at (cursor_pos t) s t.

Definition replace_range_raw (r : nat * nat) (s : str) (t : TextArea) : option TextArea :=
  if r.2 <? r.1 then None
  else
    let start := Nat.min r.1 (text_len t) in
    let end_ := Nat.min r.2 (text_len t) in
    let removed_len := end_ - start in
    let inserted_len := byte_len s in
    if (removed_len =? 0) && (inserted_len =? 0) then Some t
    else
      '(h, post) ← split_at r.2 (text t);
      '(pre, _) ← split_at r.1 h;
      let cursor := cursor_pos t in
      let t := update_elements_after_replace start end_ inserted_len (with_text (pre ++ s ++ post) t) in
      let cursor :=
        Nat.min (if cursor <? start then cursor
                 else if cursor <=? end_ then start + inserted_len
                 else cursor + inserted_len - removed_len) (text_len t) in
      Some (with_cursor (clamp_pos_to_nearest_boundary cursor t) t).
Definition replace_range (r : nat * nat) (s : str) (t : TextArea) : option TextArea :=
  replace_range_raw (expand_range_to_element_boundaries r t) s t.

Definition kill_range_with_kind (r : nat * nat) (kind : KillBufferKind) (t : TextArea) : option TextArea :=
  let r := expand_range_to_element_boundaries r t in
  if r.2 <=? r.1 then Some t
  else
    removed ← slice r.1 r.2 (text t);
    if bool_decide (removed = []) then Some t
    else replace_range_raw r [] (store_kill_buffer removed kind t).
Definition kill_range (r : nat * nat) := kill_range_with_kind r Characterwise.
Definition kill_line_range (r : nat * nat) := kill_range_with_kind r Linewise.

Definition yank_range_with_kind (r : nat * nat) (kind : KillBufferKind) (t : TextArea) : option TextArea :=
  let r := expand_range_to_element_boundaries r t in
  if r.2 <=? r.1 then Some t
  else
    removed ← slice r.1 r.2 (text t);
    Some (if bool_decide (removed = []) then t else store_kill_buffer removed kind t).
Definition yank_range (r : nat * nat) := yank_range_with_kind r Characterwise.
Definition yank_line_range (r : nat * nat) := yank_range_with_kind r Linewise.

(** The elements given to [set_text_with_elements], as byte ranges. *)
Definition u64_limit : N := 18446744073709551615.
Definition take_element_id (t : TextArea) : N * TextArea :=
  (next_id t, with_next_id (N.min (next_id t + 1) u64_limit) t).
Fixpoint insert_by_start (e : TextElement) (l : list TextElement) : list TextElement :=
  match l with
  | [] => [e]
  | e' :: l' => if el_start e' <=? el_start e then e' :: insert_by_start e l' else e :: l
  end.
(** [sort_by_key(|e| e.range.start)], stable. *)
Definition sort_elements (l : list TextElement) : list TextElement := foldl (λ acc e, insert_by_start e acc) [] l.

Definition push_element (t : TextArea) (r : nat * nat) : TextArea :=
  let start := clamp_pos_to_char_boundary (Nat.min r.1 (text_len t)) t in
  let end_ := clamp_pos_to_char_boundary (Nat.min r.2 (text_len t)) t in
  if end_ <=? start then t
  else let '(id, t) := take_element_id t in with_elements (elements t ++ [mkElement id start end_]) t.
Definition set_text_inner (s : str) (els : option (list (nat * nat))) (t : TextArea) : TextArea :=
  let t := with_elements [] (with_text s t) in
  let t := with_cursor (Nat.min (cursor_pos t) (text_len t)) t in
  let t := match els with
           | Some els => let t := foldl push_element t els in with_elements (sort_elements (elements t)) t
           | None => t
           end in
  with_cursor (clamp_pos_to_nearest_boundary (cursor_pos t) t) t.
Definition set_text_clearing_elements (s : str) := set_text_inner s None.
Definition set_text_with_elements (s : str) (els : list (nat * nat)) := set_text_inner s (Some els).

(** ** Elements *)

Definition element_payloads (t : TextArea) : list (list N) :=
  omap (λ e, slice (el_start e) (el_end e) (text t)) (elements t).
Definition text_element_snapshots (t : TextArea) : list TextElementSnapshot :=
  omap (λ e, mkSnapshot (el_id e) (el_start e, el_end e) <$> slice (el_start e) (el_end e) (text t)) (elements t).

Definition add_element (r : nat * nat) (t : TextArea) : N * TextArea :=
  let '(id, t) := take_element_id t in
  (id, with_elements (sort_elements (elements t ++ [mkElement id r.1 r.2])) t).
Definition insert_element (s : str) (t : TextArea) : option (N * TextArea) :=
  let start := clamp_pos_for_insertion (cursor_pos t) t in
  t ← insert_str_at start s t;
  let end_ := start + byte_len s in
  let '(id, t) := add_element (start, end_) t in
  Some (id, set_cursor end_ t).

Definition add_element_range (r : nat * nat) (t : TextArea) : option N * TextArea :=
  let start := clamp_pos_to_char_boundary (Nat.min r.1 (text_len t)) t in
  let end_ := clamp_pos_to_char_boundary (Nat.min r.2 (text_len t)) t in
  if end_ <=? start then (None, t)
  else if existsb (λ e, bool_decide (el_start e = start) && bool_decide (el_end e = end_)) (elements t) then (None, t)
  else if existsb (λ e, (start <? el_end e) && (el_start e <? end_)) (elements t) then (None, t)
  else let '(id, t) := add_element (start, end_) t in (Some id, t).

Definition remove_element_range (r : nat * nat) (t : TextArea) : bool * TextArea :=
  let start := clamp_pos_to_char_boundary (Nat.min r.1 (text_len t)) t in
  let end_ := clamp_pos_to_char_boundary (Nat.min r.2 (text_len t)) t in
  if end_ <=? start then (false, t)
  else
    let kept := filter (λ e, el_start e ≠ start ∨ el_end e ≠ end_) (elements t) in
    (negb (length (elements t) =? length kept), with_elements kept t).

(** [replace_element_payload]: the shift of the elements after the replaced one, and the operation. *)
Definition shift_after_payload (idx start end_ inserted_len : nat) (j : nat) (e : TextElement) : TextElement :=
  let removed_len := end_ - start in
  if bool_decide (j = idx) then mkElement (el_id e) start (start + inserted_len)
  else if inserted_len =? removed_len then e
  else if el_end e <=? start then e
  else if end_ <=? el_start e
  then mkElement (el_id e) (el_start e + inserted_len - removed_len) (el_end e + inserted_len - removed_len)
  else mkElement (el_id e) (Nat.min start (el_start e))
         (Nat.max (start + inserted_len) (el_end e + inserted_len - removed_len)).
Definition replace_element_payload (old new : str) (t : TextArea) : option (bool * TextArea) :=
  match list_find (λ e, slice (el_start e) (el_end e) (text t) = Some old) (elements t) with
  | None => Some (false, t)
  | Some (idx, e) =>
      let start := el_start e in
      let end_ := el_end e in
      if (end_ <? start) || (text_len t <? end_) then Some (false, t)
      else
        let inserted_len := byte_len new in
        '(h, post) ← split_at end_ (text t);
        '(pre, _) ← split_at start h;
        let cursor := cursor_pos t in
        let t := with_elements (imap (shift_after_payload idx start end_ inserted_len) (elements t))
                   (with_text (pre ++ new ++ post) t) in
        let cursor := if cursor <? start then cursor
                      else if cursor <=? end_ then start + inserted_len
                      else cursor + inserted_len - (end_ - start) in
        let t := with_cursor (clamp_pos_to_nearest_boundary cursor t) t in
        Some (true, with_elements (sort_elements (elements t)) t)
  end.

(** ** Lines *)

Definition beginning_of_line (pos : nat) (t : TextArea) : option nat :=
  '(pre, _) ← split_at pos (text t);
  Some (match rfind_from is_nl 0 pre with Some (i, _) => i + 1 | None => 0 end).
Definition beginning_of_current_line (t : TextArea) : option nat := beginning_of_line (cursor_pos t) t.
Definition end_of_line (pos : nat) (t : TextArea) : option nat :=
  '(_, post) ← split_at pos (text t);
  Some (match find_from is_nl 0 post with Some i => i + pos | None => text_len t end).
Definition end_of_current_line (t : TextArea) : option nat := end_of_line (cursor_pos t) t.
Definition first_non_blank_of_current_line (t : TextArea) : option nat :=
  bol ← beginning_of_current_line t; eol ← end_of_current_line t;
  line ← slice bol eol (text t);
  Some (match find_from not_whitespace 0 line with Some i => bol + i | None => eol end).
Definition current_line_range_with_newline (t : TextArea) : option (nat * nat) :=
  bol ← beginning_of_current_line t; eol ← end_of_current_line t;
  Some (bol, if eol <? text_len t then eol + 1 else eol).

Definition kill_to_end_of_line (t : TextArea) : option TextArea :=
  eol ← end_of_current_line t;
  if cursor_pos t =? eol then
    if eol <? text_len t then kill_range (cursor_pos t, eol + 1) t else Some t
  else kill_range (cursor_pos t, eol) t.
Definition vim_kill_to_end_of_line (t : TextArea) : option TextArea :=
  eol ← end_of_current_line t;
  if cursor_pos t <? eol then kill_range (cursor_pos t, eol) t else Some t.
Definition kill_to_beginning_of_line (t : TextArea) : option TextArea :=
  bol ← beginning_of_current_line t;
  if cursor_pos t =? bol then if 0 <? bol then kill_range (bol - 1, bol) t else Some t
  else kill_range (bol, cursor_pos t) t.
Definition yank_current_line (t : TextArea) : option TextArea :=
  r ← current_line_range_with_newline t; yank_line_range r t.
Definition kill_current_line (t : TextArea) : option TextArea :=
  r ← current_line_range_with_newline t; kill_line_range r t.

Definition yank (t : TextArea) : option TextArea :=
  if bool_decide (kill_buffer t = []) then Some t else insert_str (kill_buffer t) t.
Definition paste_line_after_current_line (t : TextArea) : option TextArea :=
  eol ← end_of_current_line t;
  let inside := eol <? text_len t in
  let insert_at := if inside then eol + 1 else eol in
  let cursor := if inside then insert_at else insert_at + 1 in
  let s := if inside then if ends_with [nl] (kill_buffer t) then kill_buffer t else kill_buffer t ++ [nl]
           else nl :: trim_end_matches nl (kill_buffer t) in
  t ← insert_str_at insert_at s t;
  Some (set_cursor (Nat.min cursor (text_len t)) t).

Definition move_cursor_to_beginning_of_line (move_up_at_bol : bool) (t : TextArea) : option TextArea :=
  bol ← beginning_of_current_line t;
  pos ← if move_up_at_bol && (cursor_pos t =? bol) then beginning_of_line (cursor_pos t - 1) t else Some bol;
  Some (with_col None (set_cursor pos t)).
Definition move_cursor_to_end_of_line (move_down_at_eol : bool) (t : TextArea) : option TextArea :=
  eol ← end_of_current_line t;
  pos ← if move_down_at_eol && (cursor_pos t =? eol)
        then end_of_line (Nat.min (cursor_pos t + 1) (text_len t)) t else Some eol;
  Some (set_cursor pos t).

(** ** Words *)

Definition WORD_SEPARATORS : list N :=
  Eval vm_compute in lit "`~!@#$%^&*()-=+[{]}\|;:'" ++ [34%N] ++ lit ",.<>/?".
Definition is_word_separator (c : N) : bool := bool_decide (c ∈ WORD_SEPARATORS).

Fixpoint split_runs (off piece_start : nat) (piece : list N) (in_separator : bool) (cs : str) : list (nat * list N) :=
  match cs with
  | [] => [(piece_start, piece)]
  | c :: cs' =>
      if eqb (is_word_separator c) in_separator
      then split_runs (off + len_utf8 c) piece_start (piece ++ [c]) in_separator cs'
      else (piece_start, piece) :: split_runs (off + len_utf8 c) off [c] (is_word_separator c) cs'
  end.
Definition split_segment (start : nat) (segment : str) : list (nat * list N) :=
  match segment with
  | [] => []
  | c :: cs => split_runs (start + len_utf8 c) start [c] (is_word_separator c) cs
  end.
(** [split_word_bound_indices]: the segments with their offsets. *)
Fixpoint split_segments (off : nat) (segments : list (list N)) : list (nat * list N) :=
  match segments with
  | [] => []
  | s :: ss => split_segment off s ++ split_segments (off + byte_len s) ss
  end.

Inductive Grapheme := Boundary (b : option nat) | Incomplete.

Record Segmentation := mkSeg {
  word_bounds : list N → list (list N);
  graphemes : list N → list (list N);
  prev_boundary : nat → list N → Grapheme;
  next_boundary : nat → list N → Grapheme;
  str_width : list N → nat;
  wrap_ranges : N → list N → list (nat * nat) }.

Section words.
Variable seg : Segmentation.

Definition split_word_pieces (run : str) : list (nat * list N) := split_segments 0 (word_bounds seg run).

Definition adjust_pos_out_of_elements (pos : nat) (prefer_start : bool) (t : TextArea) : nat :=
  match find_element_containing pos t with
  | Some e => if prefer_start then el_start e else el_end e
  | None => pos
  end.

(** The loops over further pieces of separators. *)
Fixpoint separators_back (run_start start : nat) (pieces : list (nat * list N)) : nat :=
  match pieces with
  | (idx, piece) :: pieces =>
      if forallb is_word_separator piece then separators_back run_start (run_start + idx) pieces else start
  | [] => start
  end.
Fixpoint separators_on (base end_ : nat) (pieces : list (nat * list N)) : nat :=
  match pieces with
  | (idx, piece) :: pieces =>
      if forallb is_word_separator piece then separators_on base (base + idx + byte_len piece) pieces else end_
  | [] => end_
  end.

Definition beginning_of_previous_word (t : TextArea) : option nat :=
  '(pre, _) ← split_at (cursor_pos t) (text t);
  match rfind_from not_whitespace 0 pre with
  | None => Some 0
  | Some (first_non_ws_idx, ch) =>
      '(pre', _) ← split_at first_non_ws_idx pre;
      let run_start := match rfind_from is_whitespace 0 pre' with Some (idx, c) => idx + len_utf8 c | None => 0 end in
      let run_end := first_non_ws_idx + len_utf8 ch in
      run ← slice run_start run_end pre;
      match reverse (split_word_pieces run) with
      | [] => Some run_start
      | (piece_start, piece) :: pieces =>
          let start := run_start + piece_start in
          let start := if forallb is_word_separator piece then separators_back run_start start pieces else start in
          Some (adjust_pos_out_of_elements start true t)
      end
  end.

Definition end_of_next_word_from (pos : nat) (t : TextArea) : option nat :=
  '(_, suffix) ← split_at pos (text t);
  match find_from not_whitespace 0 suffix with
  | None => Some (text_len t)
  | Some first_non_ws =>
      '(_, run) ← split_at first_non_ws suffix;
      '(run, _) ← split_at (default (byte_len run) (find_from is_whitespace 0 run)) run;
      match split_word_pieces run with
      | [] => Some (pos + first_non_ws)
      | (start, piece) :: pieces =>
          let end_ := pos + first_non_ws + start + byte_len piece in
          let end_ := if forallb is_word_separator piece then separators_on (pos + first_non_ws) end_ pieces else end_ in
          Some (adjust_pos_out_of_elements end_ false t)
      end
  end.
Definition end_of_next_word (t : TextArea) : option nat := end_of_next_word_from (cursor_pos t) t.

Definition beginning_of_next_word (t : TextArea) : option nat :=
  '(_, suffix) ← split_at (cursor_pos t) (text t);
  match find_from not_whitespace 0 suffix with
  | None => Some (text_len t)
  | Some first_non_ws =>
      let word_start := cursor_pos t + first_non_ws in
      if negb (word_start =? cursor_pos t) then Some (adjust_pos_out_of_elements word_start true t)
      else
        end_ ← end_of_next_word t;
        if text_len t <=? end_ then Some (text_len t)
        else
          '(_, rest) ← split_at end_ (text t);
          Some (match find_from not_whitespace 0 rest with
                | None => text_len t
                | Some next_non_ws => adjust_pos_out_of_elements (end_ + next_non_ws) true t
                end)
  end.

Definition delete_backward_word (t : TextArea) : option TextArea :=
  start ← beginning_of_previous_word t; kill_range (start, cursor_pos t) t.
Definition delete_forward_word (t : TextArea) : option TextArea :=
  end_ ← end_of_next_word t;
  if cursor_pos t <? end_ then kill_range (cursor_pos t, end_) t else Some t.

(** ** Graphemes *)

Definition prev_atomic_boundary (pos : nat) (t : TextArea) : nat :=
  if pos =? 0 then 0
  else match find (λ e, (el_start e <? pos) && (pos <=? el_end e)) (elements t) with
       | Some e => el_start e
       | None =>
           match prev_boundary seg pos (text t) with
           | Boundary (Some b) => match find_element_containing b t with Some e => el_start e | None => b end
           | Boundary None => 0
           | Incomplete => pos - 1
           end
       end.
Definition next_atomic_boundary (pos : nat) (t : TextArea) : nat :=
  if text_len t <=? pos then text_len t
  else match find (λ e, (el_start e <=? pos) && (pos <? el_end e)) (elements t) with
       | Some e => el_end e
       | None =>
           match next_boundary seg pos (text t) with
           | Boundary (Some b) => match find_element_containing b t with Some e => el_end e | None => b end
           | Boundary None => text_len t
           | Incomplete => pos + 1
           end
       end.

Definition move_cursor_left (t : TextArea) : TextArea :=
  with_col None (with_cursor (prev_atomic_boundary (cursor_pos t) t) t).
Definition move_cursor_right (t : TextArea) : TextArea :=
  with_col None (with_cursor (next_atomic_boundary (cursor_pos t) t) t).

(** The loops of the deletions: [n] steps, or up to the end of the text. *)
Fixpoint steps_back (n target : nat) (t : TextArea) : nat :=
  match n with
  | 0 => target
  | S n => let target := prev_atomic_boundary target t in if target =? 0 then target else steps_back n target t
  end.
Fixpoint steps_on (n target : nat) (t : TextArea) : nat :=
  match n with
  | 0 => target
  | S n => let target := next_atomic_boundary target t in if text_len t <=? target then target else steps_on n target t
  end.
Definition delete_backward (n : nat) (t : TextArea) : option TextArea :=
  if (n =? 0) || (cursor_pos t =? 0) then Some t
  else replace_range (steps_back n (cursor_pos t) t, cursor_pos t) [] t.
Definition delete_forward (n : nat) (t : TextArea) : option TextArea :=
  if (n =? 0) || (text_len t <=? cursor_pos t) then Some t
  else replace_range (cursor_pos t, steps_on n (cursor_pos t) t) [] t.
Definition delete_forward_kill (n : nat) (t : TextArea) : option TextArea :=
  if (n =? 0) || (text_len t <=? cursor_pos t) then Some t
  else kill_range (cursor_pos t, steps_on n (cursor_pos t) t) t.

Definition paste_after_cursor (t : TextArea) : option TextArea :=
  if bool_decide (kill_buffer t = []) then Some t
  else if bool_decide (kill_buffer_kind t = Linewise) then paste_line_after_current_line t
  else
    let t := set_cursor (next_atomic_boundary (cursor_pos t) t) t in
    insert_str (kill_buffer t) t.
Definition vim_normal_end_cursor (t : TextArea) : nat :=
  if bool_decide (text t = []) then 0 else prev_atomic_boundary (text_len t) t.

(** ** Up and down *)

Definition current_display_col (t : TextArea) : option nat :=
  bol ← beginning_of_current_line t; line ← slice bol (cursor_pos t) (text t); Some (str_width seg line).

(** [partition_point(|r| r.start <= pos)], less one. *)
Fixpoint starts_up_to (pos : nat) (lines : list (nat * nat)) : nat :=
  match lines with r :: lines => if r.1 <=? pos then S (starts_up_to pos lines) else 0 | [] => 0 end.
Definition wrapped_line_index_by_start (lines : list (nat * nat)) (pos : nat) : option nat :=
  match starts_up_to pos lines with 0 => None | S idx => Some idx end.

Fixpoint column_offset (target_col width_so_far off : nat) (gs : list (list N)) : option nat :=
  match gs with
  | [] => None
  | g :: gs =>
      let width := width_so_far + str_width seg g in
      if target_col <? width then Some off else column_offset target_col width (off + byte_len g) gs
  end.
Definition move_to_display_col_on_line (line_start line_end target_col : nat) (t : TextArea) : option TextArea :=
  line ← slice line_start line_end (text t);
  let pos := match column_offset target_col 0 0 (graphemes seg line) with
             | Some i => line_start + i
             | None => line_end
             end in
  Some (with_cursor (clamp_pos_to_nearest_boundary pos t) t).

(** The part of both with a wrap cache: the column, and the line to go to, [next idx] if there is
    one. *)
Definition wrapped_target (next : nat → option nat) (t : TextArea) : option (option (nat * option (nat * nat))) :=
  match wrap_cache t with
  | None => Some None
  | Some cache =>
      match wrapped_line_index_by_start (wrap_lines cache) (cursor_pos t) with
      | None => Some None
      | Some idx =>
          cur ← wrap_lines cache !! idx;
          target_col ← match preferred_col t with
                       | Some c => Some c
                       | None => str_width seg <$> slice cur.1 (cursor_pos t) (text t)
                       end;
          Some (Some (target_col,
            match next idx ≫= λ i, wrap_lines cache !! i with
            | Some line => Some (line.1, line.2 - 1)
            | None => None
            end))
      end
  end.
Definition keep_col (target_col : nat) (t : TextArea) : TextArea :=
  match preferred_col t with None => with_col (Some target_col) t | Some _ => t end.

Definition move_cursor_up (t : TextArea) : option TextArea :=
  wrapped ← wrapped_target (λ idx, match idx with 0 => None | S i => Some i end) t;
  match wrapped with
  | Some (target_col, Some line) => move_to_display_col_on_line line.1 line.2 target_col (keep_col target_col t)
  | Some (_, None) => Some (with_col None (with_cursor 0 t))
  | None =>
      '(pre, _) ← split_at (cursor_pos t) (text t);
      match rfind_from is_nl 0 pre with
      | Some (prev_nl, _) =>
          target_col ← match preferred_col t with Some c => Some c | None => current_display_col t end;
          '(pre', _) ← split_at prev_nl (text t);
          let prev_line_start := match rfind_from is_nl 0 pre' with Some (i, _) => i + 1 | None => 0 end in
          move_to_display_col_on_line prev_line_start prev_nl target_col (keep_col target_col t)
      | None => Some (with_col None (with_cursor 0 t))
      end
  end.

Definition move_cursor_down (t : TextArea) : option TextArea :=
  wrapped ← wrapped_target (λ idx, Some (S idx)) t;
  match wrapped with
  | Some (target_col, Some line) => move_to_display_col_on_line line.1 line.2 target_col (keep_col target_col t)
  | Some (_, None) => Some (with_col None (with_cursor (text_len t) t))
  | None =>
      target_col ← match preferred_col t with Some c => Some c | None => current_display_col t end;
      '(_, post) ← split_at (cursor_pos t) (text t);
      match find_from is_nl 0 post with
      | Some i =>
          let next_line_start := i + cursor_pos t + 1 in
          '(_, rest) ← split_at next_line_start (text t);
          let next_line_end := match find_from is_nl 0 rest with Some j => j + next_line_start | None => text_len t end in
          move_to_display_col_on_line next_line_start next_line_end target_col (keep_col target_col t)
      | None => Some (with_col None (with_cursor (text_len t) t))
      end
  end.

(** [wrapped_lines], called by rendering. *)
Definition wrapped_lines (width : N) (t : TextArea) : TextArea :=
  let stale := match wrap_cache t with Some c => negb (bool_decide (wrap_width c = width)) | None => true end in
  if stale then with_wrap (Some (mkWrap width (wrap_ranges seg width (text t)))) t else t.

(** ** Keys *)

Inductive KeyCode := KChar (c : N) | KEsc | KOther (n : N).
(** [modifiers] has the bits of crossterm: 1 shift, 2 control, 4 alt; [down] is a press or a repeat. *)
Record KeyEvent := mkKey { code : KeyCode; modifiers : N; down : bool }.

Inductive EditorAction :=
| InsertNewline | MoveLeft | MoveRight | MoveUp | MoveDown | MoveWordLeft | MoveWordRight | MoveLineStart
| MoveLineEnd | DeleteBackward | DeleteForward | DeleteBackwardWord | DeleteForwardWord | KillLineStart
| KillWholeLine | KillLineEnd | YankKilled.
(** [keymap.<action>.is_pressed(event)]. *)
Definition EditorKeymap := EditorAction → KeyEvent → bool.

Definition is_char_with (c mods : N) (event : KeyEvent) : bool :=
  match code event with KChar c' => bool_decide (c' = c) && bool_decide (modifiers event = mods) | _ => false end.

Definition input_with_keymap (event : KeyEvent) (keymap : EditorKeymap) (t : TextArea) : option TextArea :=
  if keymap InsertNewline event then insert_str [nl] t
  else if keymap DeleteBackwardWord event then delete_backward_word t
  else if keymap DeleteBackward event then delete_backward 1 t
  else if keymap DeleteForwardWord event then delete_forward_word t
  else if keymap DeleteForward event then delete_forward 1 t
  else if keymap KillLineStart event then kill_to_beginning_of_line t
  else if keymap KillWholeLine event then kill_current_line t
  else if keymap KillLineEnd event then kill_to_end_of_line t
  else if keymap YankKilled event then yank t
  else if keymap MoveWordLeft event then pos ← beginning_of_previous_word t; Some (set_cursor pos t)
  else if keymap MoveWordRight event then pos ← end_of_next_word t; Some (set_cursor pos t)
  else if keymap MoveLeft event then Some (move_cursor_left t)
  else if keymap MoveRight event then Some (move_cursor_right t)
  else if keymap MoveUp event then move_cursor_up t
  else if keymap MoveDown event then move_cursor_down t
  else if keymap MoveLineStart event then move_cursor_to_beginning_of_line (is_char_with 97 2 event) t
  else if keymap MoveLineEnd event then move_cursor_to_end_of_line (is_char_with 101 2 event) t
  else match code event with
       | KChar c =>
           if (modifiers event <=? 1)%N && negb ((c <? 32) || (c =? 127))%N then insert_str [c] t else Some t
       | _ => Some t
       end.
End words.
