(* ===== verification/VimEdit.v ===== *)
(** * Modal editing (tui/src/bottom_pane/textarea.rs and textarea/vim.rs)

    The normal mode of the text area: motions, operators that wait for a motion or a text object,
    and the text objects themselves. *)

From stdpp Require Import prelude strings list.
From S2P Require Import Prelude RustStr TextEdit.

Inductive VimMotion := Left | Right | Up | Down | WordForward | WordBackward | WordEnd | LineStart | LineEnd.
Inductive VimTextObject :=
| Word | BigWord | Parentheses | Brackets | Braces | DoubleQuote | SingleQuote | Backtick.

Inductive NormalAction :=
| EnterInsert | AppendAfterCursor | AppendLineEnd | InsertLineStart | OpenLineBelow | OpenLineAbove
| NMoveLeft | NMoveRight | NMoveUp | NMoveDown | MoveWordForward | MoveWordBackward | MoveWordEnd
| NMoveLineStart | NMoveLineEnd | DeleteChar | SubstituteChar | DeleteToLineEnd | ChangeToLineEnd
| YankLine | PasteAfter | StartDeleteOperator | StartYankOperator | StartChangeOperator | CancelOperator.
Inductive OperatorAction :=
| OpDeleteLine | OpYankLine | OpCancel | SelectInnerTextObject | SelectAroundTextObject
| MotionLeft | MotionRight | MotionUp | MotionDown | MotionWordForward | MotionWordBackward | MotionWordEnd
| MotionLineStart | MotionLineEnd.
Inductive ObjectAction := ObCancel | ObWord | ObBigWord | ObParentheses | ObBrackets | ObBraces
| ObDoubleQuote | ObSingleQuote | ObBacktick.
Record Keymaps := mkKeymaps {
  editor_keymap : EditorKeymap;
  vim_normal_keymap : NormalAction → KeyEvent → bool;
  vim_operator_keymap : OperatorAction → KeyEvent → bool;
  vim_text_object_keymap : ObjectAction → KeyEvent → bool }.

(** [std::mem::replace(&mut self.vim_pending, ..)] and the assignments of the mode. *)
Definition set_pending (p : VimPending) (t : TextArea) : TextArea := with_vim (vim_enabled t) (vim_mode t) p t.
Definition set_mode (m : VimMode) (t : TextArea) : TextArea := with_vim (vim_enabled t) m (vim_pending t) t.

(** ** Text objects *)

(** [non_ws_runs]. *)
Fixpoint non_ws_runs (off : nat) (start : option nat) (s : str) : list (nat * nat) :=
  match s with
  | [] => match start with Some run_start => [(run_start, off)] | None => [] end
  | c :: s' =>
      let next := off + len_utf8 c in
      if is_whitespace c then
        match start with
        | Some run_start => (run_start, off) :: non_ws_runs next None s'
        | None => non_ws_runs next None s'
        end
      else non_ws_runs next (match start with None => Some off | Some _ => start end) s'
  end.
Definition cursor_overlaps_range (t : TextArea) (r : nat * nat) : bool := (r.1 <=? cursor_pos t) && (cursor_pos t <? r.2).
Definition cursor_is_at_range_end (t : TextArea) (r : nat * nat) : bool := (r.1 <? r.2) && (cursor_pos t =? r.2).
Definition at_cursor (t : TextArea) (r : nat * nat) : bool := cursor_overlaps_range t r || cursor_is_at_range_end t r.

Definition big_word_range_at_cursor (t : TextArea) : option (nat * nat) :=
  find (at_cursor t) (non_ws_runs 0 None (text t)).

Fixpoint following_whitespace (end_ off : nat) (s : str) : nat :=
  match s with
  | c :: s' => if is_whitespace c then following_whitespace (off + len_utf8 c) (off + len_utf8 c) s' else end_
  | [] => end_
  end.
Definition following_whitespace_end (start : nat) (t : TextArea) : option nat :=
  '(_, post) ← split_at start (text t); Some (following_whitespace start start post).
(** The characters before [end], last first, with their offsets. *)
Fixpoint preceding_whitespace (start : nat) (rev_s : str) : nat :=
  match rev_s with
  | c :: s' => if is_whitespace c then preceding_whitespace (start - len_utf8 c) s' else start
  | [] => start
  end.
Definition preceding_whitespace_start (end_ : nat) (t : TextArea) : option nat :=
  '(pre, _) ← split_at end_ (text t); Some (preceding_whitespace end_ (reverse pre)).
Definition expand_word_around (inner : nat * nat) (t : TextArea) : option (nat * nat) :=
  following ← following_whitespace_end inner.2 t;
  if inner.2 <? following then Some (inner.1, following)
  else start ← preceding_whitespace_start inner.1 t; Some (start, inner.2).

Definition is_inside_element (pos : nat) (t : TextArea) : bool :=
  existsb (λ e, (el_start e <=? pos) && (pos <? el_end e)) (elements t).
Fixpoint count_backslashes (rev_s : str) : nat :=
  match rev_s with c :: s' => if bool_decide (c = 92%N) then S (count_backslashes s') else 0 | [] => 0 end.
Definition is_escaped (pos : nat) (t : TextArea) : option bool :=
  '(pre, _) ← split_at pos (text t); Some (count_backslashes (reverse pre) mod 2 =? 1).

(** [if candidate.start <= candidate.end && best.is_none_or(|current| candidate.len() < current.len())]. *)
Definition range_len (r : nat * nat) : nat := r.2 - r.1.
Definition better (candidate : nat * nat) (best : option (nat * nat)) : option (nat * nat) :=
  if (candidate.1 <=? candidate.2)
     && match best with None => true | Some current => range_len candidate <? range_len current end
  then Some candidate else best.
Definition pair_range (scope : VimTextObjectScope) (open_idx open_len idx close_len : nat) : nat * nat :=
  match scope with Inner => (open_idx + open_len, idx) | Around => (open_idx, idx + close_len) end.

Fixpoint paired_loop (t : TextArea) (scope : VimTextObjectScope) (open close : N) (off : nat)
    (stack : list nat) (best : option (nat * nat)) (s : str) : option (nat * nat) :=
  match s with
  | [] => best
  | c :: s' =>
      let loop := λ stack best, paired_loop t scope open close (off + len_utf8 c) stack best s' in
      if is_inside_element off t then loop stack best
      else if bool_decide (c = open) then loop (off :: stack) best
      else if bool_decide (c = close) then
        match stack with
        | [] => loop [] best
        | open_idx :: stack =>
            if (open_idx <=? cursor_pos t) && (cursor_pos t <=? off)
            then loop stack (better (pair_range scope open_idx (len_utf8 open) off (len_utf8 c)) best)
            else loop stack best
        end
      else loop stack best
  end.
Definition paired_text_object_range (scope : VimTextObjectScope) (open close : N) (t : TextArea) : option (nat * nat) :=
  paired_loop t scope open close 0 [] None (text t).

Fixpoint quoted_loop (t : TextArea) (scope : VimTextObjectScope) (quote : N) (idx : nat)
    (open : option nat) (best : option (nat * nat)) (s : str) : option (option (nat * nat)) :=
  match s with
  | [] => Some best
  | c :: s' =>
      let loop := λ open best, quoted_loop t scope quote (idx + len_utf8 c) open best s' in
      if is_inside_element idx t || negb (bool_decide (c = quote)) then loop open best
      else
        escaped ← is_escaped idx t;
        if (escaped : bool) then loop open best
        else
          match open with
          | Some open_idx =>
              if (open_idx <=? cursor_pos t) && (cursor_pos t <=? idx)
              then loop None (better (pair_range scope open_idx (len_utf8 quote) idx (len_utf8 quote)) best)
              else loop None best
          | None => loop (Some idx) best
          end
  end.
Definition quoted_text_object_range (scope : VimTextObjectScope) (quote : N) (t : TextArea) :
    option (option (nat * nat)) :=
  bol ← beginning_of_current_line t; eol ← end_of_current_line t;
  line ← slice bol eol (text t);
  quoted_loop t scope quote bol None None line.

Section vim.
Variable seg : Segmentation.
Variable keymaps : Keymaps.

(** The loop over the pieces of the run at the cursor. *)
Fixpoint piece_at_cursor (t : TextArea) (run_start : nat) (last_piece : option (nat * nat))
    (pieces : list (nat * list N)) : (nat * nat) + option (nat * nat) :=
  match pieces with
  | [] => inr last_piece
  | (piece_start, piece) :: pieces =>
      let r := (run_start + piece_start, run_start + piece_start + byte_len piece) in
      if cursor_overlaps_range t r then inl r else piece_at_cursor t run_start (Some r) pieces
  end.
Definition small_word_range_at_cursor (t : TextArea) : option (option (nat * nat)) :=
  match find (at_cursor t) (non_ws_runs 0 None (text t)) with
  | None => Some None
  | Some run =>
      s ← slice run.1 run.2 (text t);
      Some (match piece_at_cursor t run.1 None (split_word_pieces seg s) with
            | inl piece => Some piece
            | inr last_piece =>
                if cursor_is_at_range_end t run then Some (default run last_piece) else Some run
            end)
  end.
Definition word_text_object_range (scope : VimTextObjectScope) (big_word : bool) (t : TextArea) :
    option (option (nat * nat)) :=
  inner ← if big_word then Some (big_word_range_at_cursor t) else small_word_range_at_cursor t;
  match inner, scope with
  | Some inner, Inner => Some (Some inner)
  | Some inner, Around => r ← expand_word_around inner t; Some (Some r)
  | None, _ => Some None
  end.
Definition text_object_range (object : VimTextObject) (scope : VimTextObjectScope) (t : TextArea) :
    option (option (nat * nat)) :=
  match object with
  | Word => word_text_object_range scope false t
  | BigWord => word_text_object_range scope true t
  | Parentheses => Some (paired_text_object_range scope 40 41 t)
  | Brackets => Some (paired_text_object_range scope 91 93 t)
  | Braces => Some (paired_text_object_range scope 123 125 t)
  | DoubleQuote => quoted_text_object_range scope 34 t
  | SingleQuote => quoted_text_object_range scope 39 t
  | Backtick => quoted_text_object_range scope 96 t
  end.

(** ** Motions *)

Definition vim_word_end_exclusive (t : TextArea) : option nat :=
  end_ ← end_of_next_word seg t;
  let target := if cursor_pos t <? end_ then prev_atomic_boundary seg end_ t else end_ in
  if (target =? cursor_pos t) && (end_ <? text_len t) then end_of_next_word_from seg end_ t else Some end_.
Definition vim_word_end_cursor (t : TextArea) : option nat :=
  end_ ← vim_word_end_exclusive t;
  Some (if cursor_pos t <? end_ then prev_atomic_boundary seg end_ t else end_).
Definition vim_line_end_cursor (t : TextArea) : option nat :=
  bol ← beginning_of_current_line t; eol ← end_of_current_line t;
  Some (if bol <? eol then Nat.max (prev_atomic_boundary seg eol t) bol else eol).

(** [target_for_motion]: the cursor and the column are put back afterwards. *)
Definition target_for_motion (motion : VimMotion) (t : TextArea) : option nat :=
  t ← match motion with
      | Left => Some (move_cursor_left seg t)
      | Right => Some (move_cursor_right seg t)
      | Up => move_cursor_up seg t
      | Down => move_cursor_down seg t
      | WordForward => pos ← beginning_of_next_word seg t; Some (set_cursor pos t)
      | WordBackward => pos ← beginning_of_previous_word seg t; Some (set_cursor pos t)
      | WordEnd => pos ← vim_word_end_exclusive t; Some (set_cursor pos t)
      | LineStart => pos ← beginning_of_current_line t; Some (set_cursor pos t)
      | LineEnd => pos ← end_of_current_line t; Some (set_cursor pos t)
      end;
  Some (cursor_pos t).

Definition linewise_range_for_vertical_motion (up : bool) (t : TextArea) : option (option (nat * nat)) :=
  current ← current_line_range_with_newline t;
  range ←
    if up then
      start ← if current.1 =? 0 then Some 0 else beginning_of_line (current.1 - 1) t;
      Some (start, current.2)
    else
      end_ ← if text_len t <=? current.2 then Some current.2
             else next_eol ← end_of_line current.2 t;
                  Some (if next_eol <? text_len t then next_eol + 1 else next_eol);
      Some (current.1, end_);
  Some (if range.1 <? range.2 then Some range else None).

Definition range_for_motion (motion : VimMotion) (t : TextArea) : option (option (nat * nat)) :=
  match motion with
  | Up => linewise_range_for_vertical_motion true t
  | Down => linewise_range_for_vertical_motion false t
  | _ =>
      let start := cursor_pos t in
      target ← target_for_motion motion t;
      Some (if start =? target then None
            else if target <? start then Some (target, start) else Some (start, target))
  end.

Definition apply_vim_operator (op : VimOperator) (motion : VimMotion) (t : TextArea) : option TextArea :=
  range ← range_for_motion motion t;
  match range with
  | None => Some t
  | Some range =>
      match op with Delete => kill_range range t | Yank => yank_range range t | Change => Some t end
  end.
Definition apply_vim_operator_to_range (op : VimOperator) (range : nat * nat) (t : TextArea) : option TextArea :=
  match op with
  | Delete => kill_range range t
  | Yank => yank_range range t
  | Change => t ← kill_range range t; Some (set_mode Insert t)
  end.

(** ** Keys *)

Definition vim_motion_for_event (event : KeyEvent) : option VimMotion :=
  let k := λ a, vim_operator_keymap keymaps a event in
  if k MotionLeft then Some Left else if k MotionRight then Some Right else if k MotionDown then Some Down
  else if k MotionUp then Some Up else if k MotionWordForward then Some WordForward
  else if k MotionWordBackward then Some WordBackward else if k MotionWordEnd then Some WordEnd
  else if k MotionLineStart then Some LineStart else if k MotionLineEnd then Some LineEnd else None.
Definition vim_text_object_scope_for_event (event : KeyEvent) : option VimTextObjectScope :=
  if vim_operator_keymap keymaps SelectInnerTextObject event then Some Inner
  else if vim_operator_keymap keymaps SelectAroundTextObject event then Some Around else None.
Definition vim_text_object_for_event (event : KeyEvent) : option VimTextObject :=
  let k := λ a, vim_text_object_keymap keymaps a event in
  if k ObWord then Some Word else if k ObBigWord then Some BigWord else if k ObParentheses then Some Parentheses
  else if k ObBrackets then Some Brackets else if k ObBraces then Some Braces else if k ObDoubleQuote then Some DoubleQuote
  else if k ObSingleQuote then Some SingleQuote else if k ObBacktick then Some Backtick else None.

Definition handle_vim_operator (op : VimOperator) (event : KeyEvent) (t : TextArea) : option TextArea :=
  let k := λ a, vim_operator_keymap keymaps a event in
  if bool_decide (op = Delete) && k OpDeleteLine then kill_current_line t
  else if bool_decide (op = Yank) && k OpYankLine then yank_current_line t
  else if k OpCancel then Some t
  else match vim_text_object_scope_for_event event with
       | Some scope => Some (set_pending (PendingTextObject op scope) t)
       | None =>
           match (if bool_decide (op = Change) then None else vim_motion_for_event event) with
           | Some motion => apply_vim_operator op motion t
           | None => Some t
           end
       end.
Definition handle_vim_text_object (op : VimOperator) (scope : VimTextObjectScope) (event : KeyEvent) (t : TextArea) :
    option TextArea :=
  if vim_text_object_keymap keymaps ObCancel event then Some t
  else match vim_text_object_for_event event with
       | None => Some t
       | Some object =>
           range ← text_object_range object scope t;
           match range with Some range => apply_vim_operator_to_range op range t | None => Some t end
       end.

Definition open_line_below (t : TextArea) : option TextArea :=
  eol ← end_of_current_line t;
  let inside := eol <? text_len t in
  let insert_at := if inside then eol + 1 else eol in
  t ← insert_str_at insert_at [nl] t;
  Some (set_mode Insert (set_cursor (if inside then insert_at else insert_at + 1) t)).
Definition open_line_above (t : TextArea) : option TextArea :=
  bol ← beginning_of_current_line t;
  t ← insert_str_at bol [nl] t;
  Some (set_mode Insert (set_cursor bol t)).
Definition substitute_char (t : TextArea) : option TextArea :=
  eol ← end_of_current_line t;
  t ← if cursor_pos t <? eol then delete_forward_kill seg 1 t else Some t;
  Some (set_mode Insert t).

Definition go_to (pos : option nat) (t : TextArea) : option TextArea := p ← pos; Some (set_cursor p t).

Definition handle_vim_normal (event : KeyEvent) (t : TextArea) : option TextArea :=
  let pending := vim_pending t in
  let t := set_pending NoPending t in
  let k := λ a, vim_normal_keymap keymaps a event in
  match pending with
  | PendingOperator op => handle_vim_operator op event t
  | PendingTextObject operator scope => handle_vim_text_object operator scope event t
  | NoPending =>
      if k EnterInsert then Some (set_mode Insert t)
      else if k AppendAfterCursor
      then Some (set_mode Insert (set_cursor (next_atomic_boundary seg (cursor_pos t) t) t))
      else if k AppendLineEnd then set_mode Insert <$> go_to (end_of_current_line t) t
      else if k InsertLineStart then set_mode Insert <$> go_to (first_non_blank_of_current_line t) t
      else if k OpenLineBelow then open_line_below t
      else if k OpenLineAbove then open_line_above t
      else if k NMoveLeft then Some (move_cursor_left seg t)
      else if k NMoveRight then Some (move_cursor_right seg t)
      else if k NMoveDown then move_cursor_down seg t
      else if k NMoveUp then move_cursor_up seg t
      else if k MoveWordForward then go_to (beginning_of_next_word seg t) t
      else if k MoveWordBackward then go_to (beginning_of_previous_word seg t) t
      else if k MoveWordEnd then go_to (vim_word_end_cursor t) t
      else if k NMoveLineStart then go_to (beginning_of_current_line t) t
      else if k NMoveLineEnd then go_to (vim_line_end_cursor t) t
      else if k DeleteChar then delete_forward_kill seg 1 t
      else if k SubstituteChar then substitute_char t
      else if k DeleteToLineEnd then vim_kill_to_end_of_line t
      else if k ChangeToLineEnd then set_mode Insert <$> vim_kill_to_end_of_line t
      else if k YankLine then yank_current_line t
      else if k PasteAfter then paste_after_cursor seg t
      else if k StartDeleteOperator then Some (set_pending (PendingOperator Delete) t)
      else if k StartYankOperator then Some (set_pending (PendingOperator Yank) t)
      else if k StartChangeOperator then Some (set_pending (PendingOperator Change) t)
      else Some t
  end.

Definition handle_vim_insert (event : KeyEvent) (t : TextArea) : option TextArea :=
  match code event with
  | KEsc =>
      bol ← beginning_of_current_line t;
      let t := if bol <? cursor_pos t
               then with_cursor (Nat.max (prev_atomic_boundary seg (cursor_pos t) t) bol) t else t in
      Some (enter_vim_normal_mode t)
  | _ => input_with_keymap seg event (editor_keymap keymaps) t
  end.
Definition handle_vim_input (event : KeyEvent) (t : TextArea) : option TextArea :=
  match vim_mode t with Insert => handle_vim_insert event t | Normal => handle_vim_normal event t end.

Definition input (event : KeyEvent) (t : TextArea) : option TextArea :=
  if negb (down event) then Some t
  else if vim_enabled t then handle_vim_input event t
  else input_with_keymap seg event (editor_keymap keymaps) t.
End vim.
