(* ===== verification/TextEditLaws.v ===== *)
(** * The text area stays well formed

    A text area stands for a sequence of pieces, plain characters and elements, with the cursor
    between two of them.  Every edit keeps it so, without a panic. *)

From stdpp Require Import prelude strings list.
From S2P Require Import Prelude RustStr StrSearch ComposerPaste ComposerLaws TextEdit.

#[local] Arguments text_of : simpl never.

(** ** Byte offsets *)

Lemma split_at_Some p s a b : split_at p s = Some (a, b) ↔ s = a ++ b ∧ byte_len a = p.
Proof.
  revert p a. induction s as [|c s IH]; intros p a.
  - destruct p; simpl; split.
    + by intros [= <- <-].
    + intros [E Hl]. symmetry in E. by apply app_nil in E as [-> ->].
    + done.
    + intros [E Hl]. symmetry in E. apply app_nil in E as [-> ->]. done.
  - pose proof (len_utf8_pos c) as Hc. destruct p as [|p]; simpl.
    + split; [by intros [= <- <-]|]. intros [E Hl]. destruct a as [|c' a]; [by simplify_eq/=|].
      simpl in Hl. pose proof (len_utf8_pos c'). lia.
    + case_match eqn:E0.
      * apply Nat.leb_le in E0. rewrite fmap_Some. split.
        -- intros ([a' b'] & E & [= -> ->]). apply IH in E as [-> E]. split; [done|]. simpl. lia.
        -- intros [E Hl]. destruct a as [|c' a]; [done|]. simplify_eq/=. exists (a, b). split; [|done].
           apply IH. split; [done|]. lia.
      * apply Nat.leb_gt in E0. split; [done|]. intros [E Hl]. destruct a as [|c' a]; [done|]. simplify_eq/=. lia.
Qed.

Definition boundary (p : nat) (s : list N) : Prop := ∃ a b, s = a ++ b ∧ byte_len a = p.
Lemma boundary_true p s : is_char_boundary p s = true ↔ boundary p s.
Proof.
  unfold is_char_boundary. rewrite bool_decide_eq_true. split.
  - intros [[a b] E]. exists a, b. by apply split_at_Some.
  - intros (a & b & E). exists (a, b). by apply split_at_Some.
Qed.
Lemma split_at_boundary p s : boundary p s → ∃ a b, split_at p s = Some (a, b) ∧ s = a ++ b ∧ byte_len a = p.
Proof. intros (a & b & E). exists a, b. split; [by apply split_at_Some|done]. Qed.
Lemma boundary_0 s : boundary 0 s.
Proof. by exists [], s. Qed.
Lemma boundary_len s : boundary (byte_len s) s.
Proof. exists s, []. by rewrite app_nil_r. Qed.
Lemma boundary_le p s : boundary p s → p ≤ byte_len s.
Proof. intros (a & b & -> & <-). rewrite byte_len_app. lia. Qed.
Lemma byte_len_nil s : byte_len s = 0 → s = [].
Proof. destruct s as [|c s]; [done|]. simpl. pose proof (len_utf8_pos c). lia. Qed.

(** Of two boundaries the one is a prefix of the other. *)
Lemma prefix_cmp (a b a' b' : list N) :
  a ++ b = a' ++ b' → byte_len a ≤ byte_len a' → ∃ m, a' = a ++ m ∧ b = m ++ b'.
Proof.
  revert a'. induction a as [|c a IH]; intros a' E Hle; [by exists a'|].
  destruct a' as [|c' a']; simpl in *; [pose proof (len_utf8_pos c); lia|]. injection E as -> E.
  destruct (IH a' E ltac:(lia)) as (m & -> & ->). by exists m.
Qed.

Lemma slice_boundary p q s :
  boundary p s → boundary q s → p ≤ q →
  ∃ x m y, slice p q s = Some m ∧ s = x ++ m ++ y ∧ byte_len x = p ∧ byte_len (x ++ m) = q.
Proof.
  intros (a & b & E & <-) (a' & b' & E' & <-) Hle. rewrite E in E'. destruct (prefix_cmp _ _ _ _ E' Hle) as (m & -> & ->).
  exists a, m, b'. split_and!; [|done|done|done]. unfold slice.
  rewrite (proj2 (split_at_Some (byte_len (a ++ m)) s (a ++ m) b')) by (by rewrite E, app_assoc). simpl.
  by rewrite (proj2 (split_at_Some (byte_len a) (a ++ m) a m)).
Qed.

Lemma boundary_shift x s p : boundary p s → boundary (byte_len x + p) (x ++ s).
Proof. intros (a & b & -> & <-). exists (x ++ a), b. by rewrite app_assoc, byte_len_app. Qed.
Lemma boundary_app p s s' : boundary p s → boundary p (s ++ s').
Proof. intros (a & b & -> & <-). exists a, (b ++ s'). by rewrite app_assoc. Qed.
Lemma boundary_drop p x s : boundary p (x ++ s) → byte_len x ≤ p → boundary (p - byte_len x) s.
Proof.
  intros (a & b & E & <-) Hle. destruct (prefix_cmp _ _ _ _ E Hle) as (m & -> & ->).
  exists m, b. split; [done|]. rewrite byte_len_app. lia.
Qed.

Lemma find_from_Some P off s i :
  find_from P off s = Some i → ∃ x c y, s = x ++ c :: y ∧ P c = true ∧ Forall (λ c, P c = false) x ∧ i = off + byte_len x.
Proof.
  revert off. induction s as [|c s IH]; intros off; [done|]. simpl. destruct (P c) eqn:E.
  - intros [= <-]. exists [], c, s. simpl. split_and!; [done|done|apply Forall_nil_2|lia].
  - intros (x & c' & y & -> & H1 & H2 & ->)%IH. exists (c :: x), c', y. simpl. split_and!; [done|done|by constructor|lia].
Qed.
Lemma find_from_None P off s : find_from P off s = None → Forall (λ c, P c = false) s.
Proof. revert off. induction s as [|c s IH]; intros off; [constructor|]. simpl. destruct (P c) eqn:E; [done|]. intros. constructor; eauto. Qed.
Lemma rfind_from_Some P off s i c :
  rfind_from P off s = Some (i, c) → ∃ x y, s = x ++ c :: y ∧ P c = true ∧ Forall (λ c, P c = false) y ∧ i = off + byte_len x.
Proof.
  revert off. induction s as [|c' s IH]; intros off; [done|]. simpl. destruct (rfind_from P _ s) as [[i' d]|] eqn:E.
  - intros [= -> ->]. apply IH in E as (x & y & -> & H1 & H2 & ->). exists (c' :: x), y. simpl. split_and!; [done..|lia].
  - destruct (P c') eqn:Ec; [|done]. intros [= <- <-]. exists [], s. simpl. split_and!; [done|done| |lia].
    clear -E. revert E. generalize (off + len_utf8 c'). induction s as [|c s IH]; intros o; [constructor|]. simpl.
    destruct (rfind_from P _ s) as [[]|] eqn:E'; [done|]. destruct (P c) eqn:Ec; [done|]. intros _. constructor; eauto.
Qed.

(** ** Pieces *)

Notation tlen ps := (byte_len (text_of ps)).

Definition good (p : piece) : Prop := match p with Plain _ => True | Element s => s ≠ [] ∧ nl ∉ s end.

(** The ranges of the elements among pieces that start at [off]. *)
Fixpoint spans (off : nat) (ps : list piece) : list (nat * nat) :=
  match ps with
  | [] => []
  | p :: ps =>
      match p with Plain _ => [] | Element s => [(off, off + byte_len s)] end
      ++ spans (off + byte_len (piece_text p)) ps
  end.
Definition ranges (els : list TextElement) : list (nat * nat) := (λ e, (el_start e, el_end e)) <$> els.

(** Between two pieces. *)
Definition cut (ps : list piece) (p : nat) : Prop := ∃ x y, ps = x ++ y ∧ tlen x = p.

Lemma text_cons p ps : text_of (p :: ps) = piece_text p ++ text_of ps.
Proof. done. Qed.
Lemma text_single p : text_of [p] = piece_text p.
Proof. apply app_nil_r. Qed.
Lemma tlen_app x y : tlen (x ++ y) = tlen x + tlen y.
Proof. by rewrite text_app, byte_len_app. Qed.
Lemma spans_app off x y : spans off (x ++ y) = spans off x ++ spans (off + tlen x) y.
Proof.
  revert off. induction x as [|p x IH]; intros off; simpl; [by rewrite Nat.add_0_r|].
  rewrite IH, app_assoc. f_equal. f_equal. rewrite text_cons, byte_len_app. lia.
Qed.
Lemma spans_plain off s : spans off (Plain <$> s) = [].
Proof. revert off. induction s as [|c s IH]; intros off; [done|]. simpl. apply IH. Qed.
Lemma spans_shift off d ps : spans (off + d) ps = (λ r, (r.1 + d, r.2 + d)) <$> spans off ps.
Proof.
  revert off. induction ps as [|p ps IH]; intros off; [done|]. simpl. rewrite fmap_app, <- IH.
  replace (off + d + byte_len (piece_text p)) with (off + byte_len (piece_text p) + d) by lia. f_equal.
  destruct p as [c|s]; [done|]. simpl. by replace (off + d + byte_len s) with (off + byte_len s + d) by lia.
Qed.
Lemma spans_elem off ps s e :
  (s, e) ∈ spans off ps ↔ ∃ x t y, ps = x ++ Element t :: y ∧ s = off + tlen x ∧ e = s + byte_len t.
Proof.
  revert off. induction ps as [|p ps IH]; intros off; simpl.
  - split; [by intros ?%elem_of_nil|]. intros (x & t & y & E & _). by destruct x.
  - rewrite elem_of_app, IH. split.
    + intros [H|(x & t & y & -> & -> & ->)].
      * destruct p as [c|t]; [by apply elem_of_nil in H|]. apply list_elem_of_singleton in H. simplify_eq.
        exists [], t, ps. simpl. split_and!; [done|lia|done].
      * exists (p :: x), t, y. rewrite text_cons, byte_len_app. split_and!; [done|lia|lia].
    + intros (x & t & y & E & -> & ->). destruct x as [|p' x]; simplify_eq/=.
      * left. rewrite Nat.add_0_r. set_solver.
      * right. exists x, t, y. rewrite text_cons, byte_len_app. split_and!; [done|lia|lia].
Qed.
Lemma spans_bounds off ps s e :
  Forall good ps → (s, e) ∈ spans off ps → off ≤ s ∧ s < e ∧ e ≤ off + tlen ps.
Proof.
  intros Hg (x & t & y & -> & -> & ->)%spans_elem. rewrite tlen_app, text_cons, byte_len_app. simpl piece_text.
  apply Forall_app in Hg as [_ Hg]. apply Forall_cons in Hg as [[Ht _] _].
  destruct (byte_len t) eqn:E; [by apply byte_len_nil in E|]. lia.
Qed.

Lemma cut_boundary ps p : cut ps p → boundary p (text_of ps).
Proof. intros (x & y & -> & <-). exists (text_of x), (text_of y). by rewrite text_app. Qed.
Lemma cut_0 ps : cut ps 0.
Proof. by exists [], ps. Qed.
Lemma cut_end ps : cut ps (tlen ps).
Proof. exists ps, []. by rewrite app_nil_r. Qed.
Lemma cut_le ps p : cut ps p → p ≤ tlen ps.
Proof. intros ?%cut_boundary%boundary_le. done. Qed.
Lemma cut_left x y p : cut x p → cut (x ++ y) p.
Proof. intros (a & b & -> & <-). exists a, (b ++ y). by rewrite app_assoc. Qed.
Lemma cut_right x y p : cut y p → cut (x ++ y) (tlen x + p).
Proof. intros (a & b & -> & <-). exists (x ++ a), b. by rewrite app_assoc, tlen_app. Qed.
Lemma cut_at x y : cut (x ++ y) (tlen x).
Proof. by exists x, y. Qed.
Lemma cut_app_inv x y p : cut (x ++ y) p → cut x p ∨ ∃ q, p = tlen x + q ∧ cut y q.
Proof.
  intros (a & b & E & <-). apply app_eq_app in E as (m & [[-> ->]|[-> ->]]).
  - left. apply cut_at.
  - right. exists (tlen m). split; [by rewrite tlen_app|]. apply cut_at.
Qed.
Lemma cut_start_elem ps s e : (s, e) ∈ spans 0 ps → cut ps s ∧ cut ps e.
Proof.
  intros (x & t & y & -> & -> & ->)%spans_elem. simpl. split; [apply cut_at|].
  exists (x ++ [Element t]), y. rewrite <- app_assoc, tlen_app, text_single. done.
Qed.

(** A boundary that is inside no element is between two pieces. *)
Lemma cut_of_boundary off ps p :
  boundary p (text_of ps) → (∀ s e, (s, e) ∈ spans off ps → ¬ (s < off + p < e)) → cut ps p.
Proof.
  revert off p. induction ps as [|q ps IH]; intros off p Hb Hn.
  - apply boundary_le in Hb. simpl in Hb. assert (p = 0) as -> by lia. apply cut_0.
  - rewrite text_cons in Hb. destruct (le_lt_dec (byte_len (piece_text q)) p) as [Hle|Hlt].
    + apply boundary_drop in Hb; [|done]. apply (IH (off + byte_len (piece_text q))) in Hb.
      * apply (cut_right [q]) in Hb. revert Hb. rewrite text_single.
        replace (byte_len (piece_text q) + (p - byte_len (piece_text q))) with p by lia. done.
      * intros s e Hs. specialize (Hn s e). simpl in Hn. rewrite elem_of_app in Hn. intros ?. apply Hn; [auto|lia].
    + destruct p as [|p]; [apply cut_0|]. exfalso. destruct q as [c|t]; simpl in *.
      * destruct Hb as (a & b & E & Hl). destruct a as [|c' a]; simpl in *; [lia|]. simplify_eq. lia.
      * apply (Hn off (off + byte_len t)); [set_solver|lia].
Qed.

(** ** Text areas *)

Record view (t : TextArea) (ps : list piece) : Prop := {
  v_text : text t = text_of ps;
  v_elements : ranges (elements t) = spans 0 ps;
  v_good : Forall good ps }.

(** The wrapped lines are lines of the text, each with one byte for its end. *)
Definition lines_ok (s : list N) (lines : list (nat * nat)) : Prop :=
  Forall (λ r, boundary r.1 s ∧ boundary (r.2 - 1) s ∧ r.1 ≤ r.2 - 1) lines.
Definition cache_ok (t : TextArea) : Prop := ∀ c, wrap_cache t = Some c → lines_ok (text t) (wrap_lines c).

(** A well-formed text area. *)
Definition area_ok (t : TextArea) : Prop := cache_ok t ∧ ∃ ps, view t ps ∧ cut ps (cursor_pos t).

Lemma view_len t ps : view t ps → text_len t = tlen ps.
Proof. intros [H _ _]. unfold text_len. by rewrite H. Qed.
Lemma view_range t ps e : view t ps → e ∈ elements t → (el_start e, el_end e) ∈ spans 0 ps.
Proof. intros [_ H _] He. rewrite <- H. apply list_elem_of_fmap. by exists e. Qed.
Lemma view_range_inv t ps s e : view t ps → (s, e) ∈ spans 0 ps → ∃ el, el ∈ elements t ∧ el_start el = s ∧ el_end el = e.
Proof. intros [_ <- _] He. apply list_elem_of_fmap in He as (el & [= -> ->] & He). by exists el. Qed.

Lemma find_Some_elem (P : TextElement → bool) l e : find P l = Some e → e ∈ l ∧ P e = true.
Proof. intros [H1 H2]%find_some. split; [by apply list_elem_of_In|done]. Qed.
Lemma find_None_elem (P : TextElement → bool) l e : find P l = None → e ∈ l → P e = false.
Proof. intros H He%list_elem_of_In. by eapply find_none. Qed.

Lemma containing_None t ps p :
  view t ps → boundary p (text t) → find_element_containing p t = None → cut ps p.
Proof.
  intros Hv Hb Hf. rewrite (v_text _ _ Hv) in Hb. apply (cut_of_boundary 0); [done|].
  intros s e Hs. destruct (view_range_inv t ps s e Hv Hs) as (el & Hel & <- & <-).
  apply (find_None_elem _ _ _ Hf) in Hel. simpl. rewrite andb_false_iff, !Nat.ltb_ge in Hel. lia.
Qed.
Lemma containing_cut t ps p : view t ps → cut ps p → find_element_containing p t = None.
Proof.
  intros Hv (x & y & -> & <-). destruct (find_element_containing _ t) as [e|] eqn:E; [|done].
  apply find_Some_elem in E as [He Hp]. apply (view_range _ _ _ Hv) in He. rewrite spans_app, elem_of_app in He.
  pose proof (v_good _ _ Hv) as [Hx Hy]%Forall_app. rewrite andb_true_iff, !Nat.ltb_lt in Hp.
  destruct He as [He|He]; apply spans_bounds in He; [lia|done|lia|done].
Qed.
Lemma containing_Some t ps p e :
  view t ps → find_element_containing p t = Some e → cut ps (el_start e) ∧ cut ps (el_end e) ∧ el_start e < p < el_end e.
Proof.
  intros Hv [He Hp]%find_Some_elem. apply (view_range _ _ _ Hv), cut_start_elem in He as [H1 H2].
  rewrite andb_true_iff, !Nat.ltb_lt in Hp. done.
Qed.

Lemma prev_char_boundary_ok p s : boundary (prev_char_boundary p s) s.
Proof.
  induction p as [|p IH]; cbn [prev_char_boundary]; [apply boundary_0|].
  destruct (is_char_boundary (S p) s) eqn:E; [by apply boundary_true|done].
Qed.
Lemma next_char_boundary_ok n p s : p + n = byte_len s → boundary (next_char_boundary n p s) s.
Proof.
  revert p. induction n as [|n IH]; intros p Hp; simpl.
  - replace p with (byte_len s) by lia. apply boundary_len.
  - destruct (is_char_boundary p s) eqn:E; [by apply boundary_true|]. apply IH. lia.
Qed.
Lemma clamp_char_ok p t : boundary (clamp_pos_to_char_boundary p t) (text t).
Proof.
  unfold clamp_pos_to_char_boundary. destruct (is_char_boundary _ _) eqn:E; [by apply boundary_true|].
  case_match; [apply prev_char_boundary_ok|apply next_char_boundary_ok]. unfold text_len. lia.
Qed.
Lemma clamp_char_id p t : boundary p (text t) → clamp_pos_to_char_boundary p t = p.
Proof.
  intros Hb. unfold clamp_pos_to_char_boundary. assert (p ≤ text_len t) by by apply boundary_le.
  rewrite Nat.min_l by done. by rewrite (proj2 (boundary_true _ _) Hb).
Qed.

Lemma clamp_nearest_cut p t ps : view t ps → cut ps (clamp_pos_to_nearest_boundary p t).
Proof.
  intros Hv. unfold clamp_pos_to_nearest_boundary. pose proof (clamp_char_ok p t) as Hb.
  destruct (find_element_containing _ t) as [e|] eqn:E; [|by eapply containing_None].
  apply (containing_Some _ ps) in E as (H1 & H2 & _); [|done].
  case_match; rewrite clamp_char_id; try done; rewrite (v_text _ _ Hv); by apply cut_boundary.
Qed.
Lemma clamp_nearest_id p t ps : view t ps → cut ps p → clamp_pos_to_nearest_boundary p t = p.
Proof.
  intros Hv Hc. unfold clamp_pos_to_nearest_boundary.
  rewrite clamp_char_id by (rewrite (v_text _ _ Hv); by apply cut_boundary). by rewrite (containing_cut t ps).
Qed.

(** Changes that keep text and elements. *)
Definition same_text (t t' : TextArea) : Prop := text t' = text t ∧ elements t' = elements t ∧ wrap_cache t' = wrap_cache t.
Lemma same_view t t' ps : same_text t t' → view t ps → view t' ps.
Proof. intros (H1 & H2 & _) [H3 H4 H5]. split; congruence. Qed.
Lemma same_ok t t' :
  area_ok t → same_text t t' → (∀ ps, view t ps → cut ps (cursor_pos t) → cut ps (cursor_pos t')) → area_ok t'.
Proof.
  intros [Hc (ps & Hv & Hcut)] Hs Hcur. split.
  - destruct Hs as (H1 & _ & H3). unfold cache_ok. rewrite H1, H3. done.
  - exists ps. split; [by eapply same_view|]. auto.
Qed.
Lemma set_cursor_cut p t ps : view t ps → cut ps (cursor_pos (set_cursor p t)).
Proof. intros Hv. apply (clamp_nearest_cut _ (with_cursor _ t)). by apply (same_view t). Qed.
Lemma set_cursor_ok p t : area_ok t → area_ok (set_cursor p t).
Proof. intros Hok. apply (same_ok t); [done|done|]. intros ps Hv _. by apply set_cursor_cut. Qed.

(** ** Edits *)

Lemma list_filter_all {A} (P : A → Prop) `{!∀ x, Decision (P x)} (l : list A) : (∀ x, x ∈ l → P x) → filter P l = l.
Proof. induction l as [|x l IH]; intros Hl; [done|]. rewrite filter_cons_True by (apply Hl; set_solver). f_equal. apply IH. set_solver. Qed.
Lemma list_filter_none {A} (P : A → Prop) `{!∀ x, Decision (P x)} (l : list A) : (∀ x, x ∈ l → ¬ P x) → filter P l = [].
Proof. induction l as [|x l IH]; intros Hl; [done|]. rewrite filter_cons_False by (apply Hl; set_solver). apply IH. set_solver. Qed.

Lemma elements_shift t at_ removed inserted x y z s :
  ranges (elements t) = spans 0 (x ++ y ++ z) → Forall good (x ++ y ++ z) →
  at_ = tlen x → removed = tlen y → inserted = byte_len s →
  ranges (elements (shift_elements at_ removed inserted t)) = spans 0 (x ++ (Plain <$> s) ++ z).
Proof.
  intros Hr Hg -> -> ->. unfold shift_elements. cbn [elements with_elements].
  rewrite !spans_app, spans_plain in *. cbn [app]. rewrite Nat.add_0_l in *.
  apply fmap_app_inv in Hr as (ex & er & Ex & Er & ->). symmetry in Er. apply fmap_app_inv in Er as (ey & ez & Ey & Ez & ->).
  rewrite !Forall_app in Hg. destruct Hg as (Gx & Gy & Gz).
  assert (Hin : ∀ els off ps, Forall good ps → spans off ps = (λ e, (el_start e, el_end e)) <$> els →
    ∀ e, e ∈ els → off ≤ el_start e ∧ el_start e < el_end e ∧ el_end e ≤ off + tlen ps).
  { intros els off ps Hg E e He. apply spans_bounds; [done|]. rewrite E. apply list_elem_of_fmap. by exists e. }
  pose proof (Hin _ _ _ Gx Ex) as Bx. pose proof (Hin _ _ _ Gy Ey) as By. pose proof (Hin _ _ _ Gz Ez) as Bz. clear Hin.
  rewrite !filter_app, !fmap_app. unfold ranges. rewrite !fmap_app.
  rewrite (list_filter_all _ ex), (list_filter_none _ ey), (list_filter_all _ ez).
  2:{ intros e He%Bz. lia. } 2:{ intros e He%By. lia. } 2:{ intros e He%Bx. lia. }
  cbn [fmap list_fmap app]. f_equal.
  - rewrite Ex, <- list_fmap_compose. apply list_fmap_ext. intros i e He%list_elem_of_lookup_2%Bx. simpl.
    by rewrite (proj2 (Nat.leb_le _ _)) by lia.
  - rewrite text_plain, <- (Nat.add_0_l (tlen x + byte_len s)), spans_shift. revert Ez.
    rewrite <- (Nat.add_0_l (tlen x + tlen y)), spans_shift. intros Ez.
    assert (Eq : (λ r : nat * nat, (r.1 + (tlen x + byte_len s), r.2 + (tlen x + byte_len s))) <$> spans 0 z =
      (λ r : nat * nat, (r.1 + byte_len s - tlen y, r.2 + byte_len s - tlen y)) <$>
        ((λ r : nat * nat, (r.1 + (tlen x + tlen y), r.2 + (tlen x + tlen y))) <$> spans 0 z)).
    { rewrite <- list_fmap_compose. apply list_fmap_ext. intros i [a b] _. simpl. f_equal; lia. }
    rewrite Eq, Ez, <- !list_fmap_compose. apply list_fmap_ext. intros i e He%list_elem_of_lookup_2%Bz. simpl.
    rewrite (proj2 (Nat.leb_gt _ _)) by lia. by rewrite (proj2 (Nat.leb_le _ _)) by lia.
Qed.

Lemma good_insert x y z s : Forall good (x ++ y ++ z) → Forall good (x ++ (Plain <$> s) ++ z).
Proof.
  rewrite !Forall_app. intros (? & _ & ?). split_and!; [done| |done]. apply Forall_fmap, Forall_true. done.
Qed.

(** Inserting between two pieces. *)
Lemma insert_at_cut t x y s :
  view t (x ++ y) →
  ∃ t', insert_str_at (tlen x) s t = Some t' ∧ view t' (x ++ (Plain <$> s) ++ y) ∧ wrap_cache t' = None ∧
    cursor_pos t' = (if tlen x <=? cursor_pos t then cursor_pos t + byte_len s else cursor_pos t) ∧
    (kill_buffer t', kill_buffer_kind t') = (kill_buffer t, kill_buffer_kind t) ∧
    (vim_enabled t', vim_mode t', vim_pending t') = (vim_enabled t, vim_mode t, vim_pending t) ∧ next_id t' = next_id t.
Proof.
  intros Hv. unfold insert_str_at, clamp_pos_for_insertion. rewrite (clamp_nearest_id _ t (x ++ y)) by (done || apply cut_at).
  rewrite (proj2 (split_at_Some (tlen x) (text t) (text_of x) (text_of y))) by (by rewrite (v_text _ _ Hv), text_app).
  simpl. eexists. split; [done|]. split_and!; [|done..]. split.
  - simpl. by rewrite !text_app, text_plain.
  - apply (elements_shift _ _ _ _ x [] y); [apply Hv|apply Hv|done|done|done].
  - apply (good_insert x [] y), Hv.
Qed.
Lemma cut_insert x y s c :
  cut (x ++ y) c → cut (x ++ (Plain <$> s) ++ y) (if tlen x <=? c then c + byte_len s else c).
Proof.
  intros [Hc|(q & -> & Hq)]%cut_app_inv.
  - destruct (Nat.leb_spec (tlen x) c) as [Hle|]; [|by apply cut_left]. apply cut_le in Hc.
    assert (c = tlen x) as -> by lia. exists (x ++ (Plain <$> s)), y. by rewrite <- app_assoc, tlen_app, text_plain.
  - rewrite (proj2 (Nat.leb_le _ _)) by lia. apply (cut_right (x ++ (Plain <$> s))) in Hq. revert Hq.
    rewrite <- app_assoc, tlen_app, text_plain. by replace (tlen x + byte_len s + q) with (tlen x + q + byte_len s) by lia.
Qed.
Lemma cache_none t : wrap_cache t = None → cache_ok t.
Proof. intros E c. by rewrite E. Qed.

Lemma clamped_view pos t ps :
  view t ps → ∃ x y, ps = x ++ y ∧ clamp_pos_to_nearest_boundary pos t = tlen x.
Proof. intros Hv. destruct (clamp_nearest_cut pos t ps Hv) as (x & y & -> & E). by exists x, y. Qed.

Lemma insert_str_at_ok pos s t : area_ok t → ∃ t', insert_str_at pos s t = Some t' ∧ area_ok t'.
Proof.
  intros [_ (ps & Hv & Hc)]. destruct (clamped_view pos t ps Hv) as (x & y & -> & E).
  destruct (insert_at_cut t x y s Hv) as (t' & Hi & Hv' & Hw & Hcur & _). exists t'. split.
  - rewrite <- Hi. unfold insert_str_at, clamp_pos_for_insertion. rewrite E.
    by rewrite (clamp_nearest_id (tlen x) t (x ++ y)) by (done || apply cut_at).
  - split; [by apply cache_none|]. eexists. split; [done|]. rewrite Hcur. by apply cut_insert.
Qed.

(** Where a replacement of [removed] bytes at [start] moves the cursor. *)
Definition moved_cursor (start removed inserted cursor : nat) : nat :=
  if cursor <? start then cursor
  else if cursor <=? start + removed then start + inserted else cursor + inserted - removed.
Lemma cut_moved x y z s c :
  cut (x ++ y ++ z) c → cut (x ++ (Plain <$> s) ++ z) (moved_cursor (tlen x) (tlen y) (byte_len s) c).
Proof.
  intros Hc. unfold moved_cursor. destruct (Nat.ltb_spec c (tlen x)).
  - apply cut_app_inv in Hc as [Hc|(q & -> & _)]; [by apply cut_left|lia].
  - destruct (Nat.leb_spec c (tlen x + tlen y)).
    + exists (x ++ (Plain <$> s)), z. by rewrite <- app_assoc, tlen_app, text_plain.
    + rewrite app_assoc in Hc. apply cut_app_inv in Hc as [Hc%cut_le|(q & -> & Hq)]; [rewrite tlen_app in Hc; lia|].
      apply (cut_right (x ++ (Plain <$> s))) in Hq. revert Hq. rewrite <- app_assoc, !tlen_app, text_plain.
      by replace (tlen x + tlen y + q + byte_len s - tlen y) with (tlen x + byte_len s + q) by lia.
Qed.

(** Replacing whole pieces. *)
Lemma replace_cut t x y z s :
  view t (x ++ y ++ z) → cut (x ++ y ++ z) (cursor_pos t) → cache_ok t →
  ∃ t', replace_range_raw (tlen x, tlen x + tlen y) s t = Some t' ∧ view t' (x ++ (Plain <$> s) ++ z) ∧
    cache_ok t' ∧ cut (x ++ (Plain <$> s) ++ z) (cursor_pos t') ∧
    cursor_pos t' = moved_cursor (tlen x) (tlen y) (byte_len s) (cursor_pos t) ∧
    (kill_buffer t', kill_buffer_kind t') = (kill_buffer t, kill_buffer_kind t) ∧
    (vim_enabled t', vim_mode t', vim_pending t') = (vim_enabled t, vim_mode t, vim_pending t).
Proof.
  intros Hv Hc Hca. pose proof (view_len _ _ Hv) as Hl. rewrite !tlen_app in Hl.
  unfold replace_range_raw. cbn [fst snd]. rewrite (proj2 (Nat.ltb_ge _ _)) by lia.
  rewrite !Nat.min_l by lia. rewrite (Nat.add_comm (tlen x) (tlen y)), Nat.add_sub.
  destruct ((tlen y =? 0) && (byte_len s =? 0)) eqn:E0.
  - apply andb_true_iff in E0 as [Ey%Nat.eqb_eq Es%Nat.eqb_eq]. apply byte_len_nil in Es as ->.
    assert (y = []) as ->.
    { destruct y as [|p y]; [done|]. exfalso. pose proof (v_good _ _ Hv) as Hg. rewrite !Forall_app, Forall_cons in Hg.
      destruct Hg as (_ & [Hp _] & _). rewrite text_cons, byte_len_app in Ey. destruct p as [c|e]; simpl in *.
      - pose proof (len_utf8_pos c). lia.
      - destruct Hp as [Hp _]. apply Hp, byte_len_nil. lia. }
    exists t. split_and!; [done|exact Hv|done|exact Hc| |done|done]. unfold moved_cursor. change (tlen []) with 0.
    simpl. destruct (Nat.ltb_spec (cursor_pos t) (tlen x)); [done|]. destruct (Nat.leb_spec (cursor_pos t) (tlen x + 0)); lia.
  - rewrite (proj2 (split_at_Some (tlen y + tlen x) (text t) (text_of (x ++ y)) (text_of z)))
      by (rewrite (v_text _ _ Hv), <- text_app, <- app_assoc, tlen_app; split; [done|lia]).
    simpl. rewrite (proj2 (split_at_Some (tlen x) (text_of (x ++ y)) (text_of x) (text_of y))) by (by rewrite text_app).
    simpl. set (t1 := update_elements_after_replace _ _ _ _).
    assert (Hv1 : view t1 (x ++ (Plain <$> s) ++ z)).
    { split.
      - simpl. by rewrite !text_app, text_plain.
      - apply (elements_shift _ _ _ _ x y z); [apply Hv|apply Hv|done|lia|done].
      - by apply (good_insert x y z), Hv. }
    eexists. split; [done|]. split_and!.
    + by apply (same_view t1).
    + by apply cache_none.
    + by apply clamp_nearest_cut.
    + pose proof (cut_moved x y z s _ Hc) as Hm. pose proof (cut_le _ _ Hm) as Hle. unfold moved_cursor in *.
      rewrite (Nat.add_comm (tlen x) (tlen y)) in Hm, Hle |- *. simpl. rewrite (view_len _ _ Hv1), Nat.min_l by done.
      by apply (clamp_nearest_id _ _ _ Hv1).
    + done.
    + done.
Qed.

(** ** Ranges that cover whole elements *)

Definition stable (els : list TextElement) (r : nat * nat) : Prop :=
  ∀ e, e ∈ els → el_start e < r.2 → r.1 < el_end e → r.1 ≤ el_start e ∧ el_end e ≤ r.2.
(** [r'] is [r] widened to ends of elements. *)
Record widened (els : list TextElement) (r r' : nat * nat) : Prop := {
  w_start : r'.1 ≤ r.1;
  w_end : r.2 ≤ r'.2;
  w_from : r'.1 = r.1 ∨ ∃ e, e ∈ els ∧ r'.1 = el_start e;
  w_to : r'.2 = r.2 ∨ ∃ e, e ∈ els ∧ r'.2 = el_end e }.
Lemma widened_trans els r r' r'' : widened els r r' → widened els r' r'' → widened els r r''.
Proof.
  intros [H1 H2 H3 H4] [H1' H2' H3' H4']. split; [lia|lia| |].
  - destruct H3' as [->|?]; auto.
  - destruct H4' as [->|?]; auto.
Qed.

Lemma expand_one_spec r ch e r' ch' :
  expand_one (r, ch) e = (r', ch') →
  widened [e] r r' ∧ (ch' = false → ch = false ∧ r' = r ∧ stable [e] r) ∧
  (ch' = true → ch = true ∨ r'.1 < r.1 ∨ r.2 < r'.2).
Proof.
  destruct r as [a b]. simpl. destruct ((_ <? _) && _) eqn:E.
  - apply andb_true_iff in E as [E1%Nat.ltb_lt E2%Nat.ltb_lt]. case_bool_decide as Er; intros [= <- <-].
    + simplify_eq. split_and!; [split; simpl; auto|intros ->; split_and!; [done..|]|auto].
      intros e' ->%list_elem_of_singleton _ _. simpl. lia.
    + split_and!; [|done|].
      * split; simpl; [lia|lia| |].
        -- destruct (Nat.min_spec a (el_start e)) as [[_ ->]|[_ ->]]; [auto|]. right. exists e. set_solver.
        -- destruct (Nat.max_spec b (el_end e)) as [[_ ->]|[_ ->]]; [|auto]. right. exists e. set_solver.
      * intros _. right. simpl. destruct (decide (Nat.min a (el_start e) = a)); [|lia].
        destruct (decide (Nat.max b (el_end e) = b)); [congruence|lia].
  - intros [= <- <-]. split_and!; [split; simpl; auto|intros ->; split_and!; [done..|]|auto].
    intros e' ->%list_elem_of_singleton ? ?. simpl in *. apply andb_false_iff in E as [E%Nat.ltb_ge|E%Nat.ltb_ge]; lia.
Qed.

Lemma expand_fold_spec els r ch r' ch' :
  foldl expand_one (r, ch) els = (r', ch') →
  widened els r r' ∧ (ch' = false → ch = false ∧ r' = r ∧ stable els r) ∧
  (ch' = true → ch = true ∨ r'.1 < r.1 ∨ r.2 < r'.2).
Proof.
  revert r ch. induction els as [|e els IH]; intros r ch.
  - intros [= <- <-]. split_and!; [split; auto|intros ->; split_and!; [done..|]|auto]. by intros e ?%elem_of_nil.
  - cbn [foldl]. destruct (expand_one (r, ch) e) as [r1 ch1] eqn:E1. intros E2.
    apply expand_one_spec in E1 as (W1 & F1 & T1). apply IH in E2 as (W2 & F2 & T2).
    assert (Hw : ∀ l r r', l ⊆ e :: els → widened l r r' → widened (e :: els) r r').
    { intros l q q' Hl [? ? H3 H4]. split; [done|done| |].
      - destruct H3 as [?|(e' & ? & ?)]; [auto|]. right. exists e'. set_solver.
      - destruct H4 as [?|(e' & ? & ?)]; [auto|]. right. exists e'. set_solver. }
    split_and!.
    + eapply widened_trans; [apply (Hw [e])|apply (Hw els)]; [set_solver|done|set_solver|done].
    + intros Hf. apply F2 in Hf as (Hf & -> & S2). apply F1 in Hf as (Hf & -> & S1). split_and!; [done..|].
      intros e' [->|He']%elem_of_cons; [apply S1; set_solver|by apply S2].
    + intros [Ht|Ht]%T2; [apply T1 in Ht|]; destruct W1, W2; [|lia]. destruct Ht as [?|?]; [auto|lia].
Qed.

Lemma expand_loop_spec n els r len :
  (∀ e, e ∈ els → el_end e ≤ len) → r.2 ≤ len → r.1 + (len - r.2) ≤ n →
  widened els r (expand_loop n els r) ∧ stable els (expand_loop n els r).
Proof.
  intros He. revert r. induction n as [|n IH]; intros r Hr Hn;
    (cbn [expand_loop]; unfold expand_round; destruct (foldl expand_one _ _) as [r' ch] eqn:E;
     apply expand_fold_spec in E as (W & F & T); destruct ch; [|by destruct (F eq_refl) as (_ & -> & ?)]);
    pose proof W as [W1 W2 W3 W4]; specialize (T eq_refl) as [?|T]; try done;
    (assert (r'.2 ≤ len) by (destruct W4 as [->|(e & ? & ->)]; auto)); [lia|].
  destruct (IH r') as [W' S']; [done|lia|]. split; [|done]. by eapply widened_trans.
Qed.
Lemma expand_loop_stable n els r : stable els r → expand_loop n els r = r.
Proof.
  intros Hs. assert (E : expand_round els r = (r, false)).
  { unfold expand_round. revert Hs. generalize false. induction els as [|e els IH]; intros ch Hs; [done|].
    cbn [foldl]. assert (expand_one (r, ch) e = (r, ch)) as ->.
    { destruct r as [a b]. simpl. destruct ((_ <? _) && _) eqn:E; [|done]. apply andb_true_iff in E as [E1%Nat.ltb_lt E2%Nat.ltb_lt].
      destruct (Hs e) as [H1 H2]; [set_solver|done|done|]. simpl in *. rewrite bool_decide_true; [done|]. f_equal; lia. }
    apply IH. intros e' He'. apply Hs. set_solver. }
  destruct n; simpl; by rewrite E.
Qed.

Lemma expand_cut t ps r :
  view t ps → boundary r.1 (text t) → boundary r.2 (text t) → r.1 ≤ r.2 →
  let r' := expand_range_to_element_boundaries r t in
  cut ps r'.1 ∧ cut ps r'.2 ∧ r'.1 ≤ r.1 ∧ r.2 ≤ r'.2.
Proof.
  intros Hv H1 H2 Hle. unfold expand_range_to_element_boundaries.
  assert (Hb : ∀ e, e ∈ elements t → cut ps (el_start e) ∧ cut ps (el_end e)).
  { intros e He. eapply cut_start_elem. by apply (view_range t). }
  pose proof (view_len _ _ Hv) as Hl. pose proof (boundary_le _ _ H2) as Hlen. fold (text_len t) in Hlen.
  destruct (expand_loop_spec (r.1 + text_len t) (elements t) r (text_len t)) as [[W1 W2 W3 W4] S]; [|done|lia|].
  { intros e He. rewrite Hl. by apply cut_le, Hb. }
  set (r' := expand_loop _ _ _) in *.
  assert (Hno : ∀ p, boundary p (text t) → (∀ e, e ∈ elements t → ¬ (el_start e < p < el_end e)) → cut ps p).
  { intros p Hp Hn. eapply containing_None; [done..|]. destruct (find_element_containing p t) as [e|] eqn:E; [|done].
    apply find_Some_elem in E as [He Hpe]. rewrite andb_true_iff, !Nat.ltb_lt in Hpe. by apply Hn in He. }
  split_and!; [| |done|done].
  - destruct W3 as [W3|(e & He & ->)]; [|by apply Hb]. apply Hno; [by rewrite W3|]. intros e He [Hs Ht].
    destruct (S e He); lia.
  - destruct W4 as [W4|(e & He & ->)]; [|by apply Hb]. apply Hno; [by rewrite W4|]. intros e He [Hs Ht].
    destruct (S e He); lia.
Qed.
Lemma expand_id t ps r :
  view t ps → cut ps r.1 → cut ps r.2 → expand_range_to_element_boundaries r t = r.
Proof.
  intros Hv H1 H2. apply expand_loop_stable. intros e He Hs Ht.
  assert (Hn : ∀ p, cut ps p → ¬ (el_start e < p < el_end e)).
  { intros p Hp Hin. apply (containing_cut t ps p Hv), (find_None_elem _ _ e) in Hp; [|done].
    rewrite andb_false_iff, !Nat.ltb_ge in Hp. lia. }
  pose proof (Hn _ H1). pose proof (Hn _ H2). lia.
Qed.

Lemma cuts_between ps a b : cut ps a → cut ps b → a ≤ b → ∃ x y z, ps = x ++ y ++ z ∧ tlen x = a ∧ tlen x + tlen y = b.
Proof.
  intros (x & y & -> & <-) [Hb|(q & -> & (y1 & y2 & -> & <-))]%cut_app_inv Hle.
  - apply cut_le in Hb. exists x, [], y. split_and!; [done..|]. change (tlen []) with 0. lia.
  - by exists x, y1, y2.
Qed.

(** Replacing and killing any range of characters. *)
Lemma replace_range_ok r s t :
  area_ok t → boundary r.1 (text t) → boundary r.2 (text t) → r.1 ≤ r.2 →
  ∃ t', replace_range r s t = Some t' ∧ area_ok t'.
Proof.
  intros [Hca (ps & Hv & Hc)] H1 H2 Hle. destruct (expand_cut t ps r Hv H1 H2 Hle) as (C1 & C2 & L1 & L2).
  unfold replace_range. destruct (expand_range_to_element_boundaries r t) as [a b]. simpl in *.
  destruct (cuts_between ps a b C1 C2 ltac:(lia)) as (x & y & z & -> & <- & <-).
  destruct (replace_cut t x y z s Hv Hc Hca) as (t' & -> & Hv' & Hca' & Hc' & _). exists t'. split; [done|].
  split; [done|]. by eexists.
Qed.

Lemma kill_range_ok r k t :
  area_ok t → boundary r.1 (text t) → boundary r.2 (text t) → r.1 ≤ r.2 →
  ∃ t', kill_range_with_kind r k t = Some t' ∧ area_ok t'.
Proof.
  intros Hok H1 H2 Hle. pose proof Hok as [Hca (ps & Hv & Hc)]. destruct (expand_cut t ps r Hv H1 H2 Hle) as (C1 & C2 & L1 & L2).
  unfold kill_range_with_kind. destruct (expand_range_to_element_boundaries r t) as [a b]. simpl in *.
  destruct (Nat.leb_spec b a); [by exists t|].
  destruct (slice_boundary a b (text t)) as (_ & m & _ & -> & _); [rewrite (v_text _ _ Hv); by apply cut_boundary..|lia|].
  simpl. case_bool_decide; [by exists t|].
  destruct (cuts_between ps a b C1 C2 ltac:(lia)) as (x & y & z & -> & <- & <-).
  destruct (replace_cut (store_kill_buffer m k t) x y z []) as (t' & -> & Hv' & Hca' & Hc' & _);
    [by apply (same_view t)|done|done|]. exists t'. split; [done|]. split; [done|]. by eexists.
Qed.
Lemma yank_range_ok r k t :
  area_ok t → boundary r.1 (text t) → boundary r.2 (text t) → r.1 ≤ r.2 →
  ∃ t', yank_range_with_kind r k t = Some t' ∧ area_ok t'.
Proof.
  intros Hok H1 H2 Hle. pose proof Hok as [Hca (ps & Hv & Hc)]. destruct (expand_cut t ps r Hv H1 H2 Hle) as (C1 & C2 & L1 & L2).
  unfold yank_range_with_kind. destruct (expand_range_to_element_boundaries r t) as [a b]. simpl in *.
  destruct (Nat.leb_spec b a); [by exists t|].
  destruct (slice_boundary a b (text t)) as (_ & m & _ & -> & _); [rewrite (v_text _ _ Hv); by apply cut_boundary..|lia|].
  simpl. eexists. split; [done|]. case_bool_decide; [done|]. by apply (same_ok t).
Qed.

(** ** Lines *)

Lemma is_nl_true c : is_nl c = true → c = nl.
Proof. apply bool_decide_eq_true. Qed.

Lemma split_text p t : boundary p (text t) → ∃ a b, split_at p (text t) = Some (a, b) ∧ text t = a ++ b ∧ byte_len a = p.
Proof. apply split_at_boundary. Qed.

Lemma beginning_of_line_ok p t :
  boundary p (text t) →
  ∃ b, beginning_of_line p t = Some b ∧ b ≤ p ∧
    (b = 0 ∨ ∃ x y, text t = x ++ nl :: y ∧ b = byte_len x + 1).
Proof.
  intros (a & c & E & Ht & Hp)%split_text. unfold beginning_of_line. rewrite E. simpl. eexists. split; [done|].
  destruct (rfind_from is_nl 0 a) as [[i d]|] eqn:Er; [|split; [lia|auto]].
  apply rfind_from_Some in Er as (x & y & -> & ->%is_nl_true & _ & ->). rewrite byte_len_app in Hp. simpl in Hp.
  split; [lia|]. right. exists x, (y ++ c). rewrite Ht, <- app_assoc. split; [done|lia].
Qed.
Lemma end_of_line_ok p t :
  boundary p (text t) →
  ∃ e, end_of_line p t = Some e ∧ boundary e (text t) ∧ p ≤ e ∧ (e < text_len t → boundary (e + 1) (text t)).
Proof.
  intros (a & c & E & Ht & Hp)%split_text. unfold end_of_line. rewrite E. simpl. eexists. split; [done|].
  destruct (find_from is_nl 0 c) as [i|] eqn:Ef.
  - apply find_from_Some in Ef as (x & d & y & -> & ->%is_nl_true & _ & ->). split_and!.
    + exists (a ++ x), (nl :: y). rewrite byte_len_app, Ht, app_assoc. split; [done|lia].
    + lia.
    + intros _. exists (a ++ x ++ [nl]), y. rewrite !byte_len_app, Ht, <- !app_assoc. split; [done|]. simpl. lia.
  - split_and!; [apply boundary_len|apply boundary_le; by exists a, c|lia].
Qed.
Lemma after_nl x y s : s = x ++ nl :: y → boundary (byte_len x) s ∧ boundary (byte_len x + 1) s.
Proof.
  intros ->. split; [by eexists _, _|]. exists (x ++ [nl]), y. rewrite byte_len_app, <- app_assoc. split; [done|].
  simpl. lia.
Qed.
Lemma bol_boundary p t b : beginning_of_line p t = Some b → boundary p (text t) → boundary b (text t).
Proof.
  intros E Hp. destruct (beginning_of_line_ok p t Hp) as (b' & E' & _ & Hb). rewrite E in E'. injection E' as <-.
  destruct Hb as [->|(x & y & Ht & ->)]; [apply boundary_0|]. by apply (after_nl x y).
Qed.

(** A line starts and ends between pieces, as no element holds a newline. *)
Lemma after_nl_cut ps x y : Forall good ps → text_of ps = x ++ nl :: y → cut ps (byte_len x + 1).
Proof.
  revert x. induction ps as [|p ps IH]; intros x Hg E; [by destruct x|]. rewrite text_cons in E.
  apply Forall_cons in Hg as [Hp Hg]. destruct (le_lt_dec (byte_len (piece_text p)) (byte_len x)) as [Hle|Hlt].
  - destruct (prefix_cmp _ _ _ _ E Hle) as (m & -> & Em). apply IH in Em; [|done].
    apply (cut_right [p]) in Em. revert Em. rewrite text_single, byte_len_app. by rewrite Nat.add_assoc.
  - symmetry in E. destruct (prefix_cmp _ _ _ _ E ltac:(lia)) as (m & Em & E'). destruct m as [|c m].
    { rewrite Em, app_nil_r in Hlt. lia. }
    injection E' as <- _. destruct p as [d|t]; simpl in *.
    + destruct x as [|c' x]; [|by destruct x]. injection Em as -> <-. apply (cut_at [Plain nl] ps).
    + destruct Hp as [_ Hn]. destruct Hn. rewrite Em. set_solver.
Qed.
Lemma bol_cut p t ps b : view t ps → boundary p (text t) → beginning_of_line p t = Some b → cut ps b.
Proof.
  intros Hv Hp E. destruct (beginning_of_line_ok p t Hp) as (b' & E' & _ & Hb). rewrite E in E'. injection E' as <-.
  destruct Hb as [->|(x & y & Ht & ->)]; [apply cut_0|]. apply (after_nl_cut ps x y); [apply Hv|]. by rewrite <- (v_text _ _ Hv).
Qed.

Lemma cursor_boundary t : area_ok t → boundary (cursor_pos t) (text t).
Proof. intros [_ (ps & Hv & Hc)]. rewrite (v_text _ _ Hv). by apply cut_boundary. Qed.

Lemma bol_ok t :
  area_ok t → ∃ b, beginning_of_current_line t = Some b ∧ boundary b (text t) ∧ b ≤ cursor_pos t ∧
    (b = 0 ∨ ∃ x y, text t = x ++ nl :: y ∧ b = byte_len x + 1).
Proof.
  intros Hok%cursor_boundary. destruct (beginning_of_line_ok _ t Hok) as (b & E & Hle & H). exists b. split_and!; [done| |done|done].
  by eapply bol_boundary.
Qed.
Lemma eol_ok t :
  area_ok t → ∃ e, end_of_current_line t = Some e ∧ boundary e (text t) ∧ cursor_pos t ≤ e ∧
    (e < text_len t → boundary (e + 1) (text t)).
Proof. intros Hok%cursor_boundary. by apply end_of_line_ok. Qed.

(** [holds m]: the operation returns a well-formed text area. *)
Definition holds (m : option TextArea) : Prop := ∃ t, m = Some t ∧ area_ok t.
Lemma holds_some t : area_ok t → holds (Some t).
Proof. by exists t. Qed.
Lemma holds_set_cursor p t : area_ok t → holds (Some (set_cursor p t)).
Proof. intros. by apply holds_some, set_cursor_ok. Qed.

Lemma kill_to_end_of_line_ok t : area_ok t → holds (kill_to_end_of_line t).
Proof.
  intros Hok. unfold kill_to_end_of_line. destruct (eol_ok t Hok) as (e & -> & He & Hle & He'). simpl.
  destruct (Nat.eqb_spec (cursor_pos t) e); [destruct (Nat.ltb_spec e (text_len t)); [|by apply holds_some]|];
    (apply kill_range_ok; simpl; [done|by apply cursor_boundary|auto|lia]).
Qed.
Lemma vim_kill_to_end_of_line_ok t : area_ok t → holds (vim_kill_to_end_of_line t).
Proof.
  intros Hok. unfold vim_kill_to_end_of_line. destruct (eol_ok t Hok) as (e & -> & He & Hle & He'). simpl.
  destruct (_ <? _); [|by apply holds_some]. apply kill_range_ok; simpl; [done|by apply cursor_boundary|done|done].
Qed.
Lemma kill_to_beginning_of_line_ok t : area_ok t → holds (kill_to_beginning_of_line t).
Proof.
  intros Hok. unfold kill_to_beginning_of_line. destruct (bol_ok t Hok) as (b & -> & Hb & Hle & Hn). simpl.
  destruct (Nat.eqb_spec (cursor_pos t) b); [destruct (Nat.ltb_spec 0 b); [|by apply holds_some]|];
    (apply kill_range_ok; simpl; [done|auto|auto|lia]).
  - destruct Hn as [->|(x & y & Ht & ->)]; [lia|]. rewrite Nat.add_sub. by apply (after_nl x y).
  - by apply cursor_boundary.
Qed.
Lemma line_range_ok t :
  area_ok t → ∃ r, current_line_range_with_newline t = Some r ∧ boundary r.1 (text t) ∧ boundary r.2 (text t) ∧ r.1 ≤ r.2 ∧
    (r.1 = 0 ∨ ∃ x y, text t = x ++ nl :: y ∧ r.1 = byte_len x + 1).
Proof.
  intros Hok. unfold current_line_range_with_newline. destruct (bol_ok t Hok) as (b & -> & Hb & Hle & Hn).
  destruct (eol_ok t Hok) as (e & -> & He & Hle' & He'). simpl. eexists. split; [done|]. simpl.
  destruct (Nat.ltb_spec e (text_len t)); split_and!; auto; lia.
Qed.
Lemma yank_current_line_ok t : area_ok t → holds (yank_current_line t).
Proof. intros Hok. unfold yank_current_line. destruct (line_range_ok t Hok) as (r & -> & H1 & H2 & H3 & _). by apply yank_range_ok. Qed.
Lemma kill_current_line_ok t : area_ok t → holds (kill_current_line t).
Proof. intros Hok. unfold kill_current_line. destruct (line_range_ok t Hok) as (r & -> & H1 & H2 & H3 & _). by apply kill_range_ok. Qed.

Lemma yank_ok t : area_ok t → holds (yank t).
Proof. intros Hok. unfold yank. case_bool_decide; [by apply holds_some|by apply insert_str_at_ok]. Qed.
Lemma insert_then_go pos s p t : area_ok t → holds (t ← insert_str_at pos s t; Some (set_cursor (p t) t)).
Proof. intros Hok. destruct (insert_str_at_ok pos s t Hok) as (t' & -> & Hok'). by apply holds_set_cursor. Qed.
Lemma paste_line_ok t : area_ok t → holds (paste_line_after_current_line t).
Proof.
  intros Hok. unfold paste_line_after_current_line. destruct (eol_ok t Hok) as (e & -> & _). cbn [mbind option_bind].
  by apply (insert_then_go _ _ (λ t, Nat.min _ (text_len t))).
Qed.

Lemma with_col_ok c t : area_ok t → area_ok (with_col c t).
Proof. intros Hok. by apply (same_ok t). Qed.
Lemma to_beginning_of_line_ok up t : area_ok t → holds (move_cursor_to_beginning_of_line up t).
Proof.
  intros Hok. unfold move_cursor_to_beginning_of_line. destruct (bol_ok t Hok) as (b & -> & Hb & Hle & Hn). cbn [mbind option_bind].
  destruct (up && _) eqn:E.
  - apply andb_true_iff in E as [_ E%Nat.eqb_eq]. assert (Hp : boundary (cursor_pos t - 1) (text t)).
    { rewrite E. destruct Hn as [->|(x & y & Ht & ->)]; [apply boundary_0|]. rewrite Nat.add_sub. by apply (after_nl x y). }
    destruct (beginning_of_line_ok _ t Hp) as (b' & -> & _). simpl. by apply holds_some, with_col_ok, set_cursor_ok.
  - simpl. by apply holds_some, with_col_ok, set_cursor_ok.
Qed.
Lemma to_end_of_line_ok dn t : area_ok t → holds (move_cursor_to_end_of_line dn t).
Proof.
  intros Hok. unfold move_cursor_to_end_of_line. destruct (eol_ok t Hok) as (e & -> & He & Hle & He'). cbn [mbind option_bind].
  destruct (dn && _) eqn:E; [|by apply holds_set_cursor].
  apply andb_true_iff in E as [_ E%Nat.eqb_eq]. destruct (end_of_line_ok (Nat.min (cursor_pos t + 1) (text_len t)) t) as (e' & -> & _).
  - rewrite E. destruct (le_lt_dec (text_len t) e); [rewrite Nat.min_r by lia; apply boundary_len|rewrite Nat.min_l by lia; auto].
  - by apply holds_set_cursor.
Qed.
