(* ===== verification/TextElements.v ===== *)
(** * The elements of the text area (tui/src/bottom_pane/textarea.rs)

    Adding, removing and renaming elements, and setting a text together with its elements: each
    keeps the text area well formed, on the conditions given. *)

From stdpp Require Import prelude strings list sorting.
From S2P Require Import Prelude RustStr StrSearch PasteBurst ComposerPaste ComposerLaws TextEdit TextEditLaws.

#[local] Arguments text_of : simpl never.

(** ** Elements *)

Lemma spans_sorted off ps : Forall good ps → StronglySorted (λ a b : nat * nat, a.1 < b.1) (spans off ps).
Proof.
  revert off. induction ps as [|p ps IH]; intros off Hg; simpl; [constructor|]. apply Forall_cons in Hg as [Hp Hg].
  destruct p as [c|s]; simpl; [by apply IH|]. constructor; [by apply IH|]. apply Forall_forall. intros [a b] Hr.
  apply spans_bounds in Hr; [|done]. simpl. destruct Hp as [Hs _].
  destruct (byte_len s) eqn:E; [by apply byte_len_nil in E|]. lia.
Qed.
Lemma spans_apart off ps i j r r' :
  Forall good ps → spans off ps !! i = Some r → spans off ps !! j = Some r' → i < j → r.2 ≤ r'.1.
Proof.
  intros Hg. revert off i j Hg. induction ps as [|p ps IH]; intros off i j Hg; [done|]. apply Forall_cons in Hg as [Hp Hg].
  destruct p as [c|s]; cbn [spans app]; [by apply IH|]. destruct j as [|j]; [lia|]. destruct i as [|i]; simpl.
  - intros [= <-] Hj%list_elem_of_lookup_2 _. destruct r' as [a b]. apply spans_bounds in Hj; [|done]. simpl. lia.
  - intros Hi Hj Hlt. eapply IH; [done..|lia].
Qed.
Lemma insert_by_start_mid e lx ly :
  Forall (λ e', el_start e' ≤ el_start e) lx → Forall (λ e', el_start e < el_start e') ly →
  insert_by_start e (lx ++ ly) = lx ++ e :: ly.
Proof.
  intros Hx Hy. induction Hx as [|e' lx He _ IH]; simpl.
  - destruct Hy as [|e' ly He Hy]; [done|]. simpl. by rewrite (proj2 (Nat.leb_gt _ _)).
  - rewrite (proj2 (Nat.leb_le _ _)) by done. by rewrite IH.
Qed.
Lemma sort_sorted l : StronglySorted (λ a b : nat * nat, a.1 < b.1) (ranges l) → sort_elements l = l.
Proof.
  unfold sort_elements. induction l as [|e l IH] using rev_ind; [done|]. unfold ranges. rewrite fmap_app. intros Hs.
  rewrite foldl_app, IH by (by apply StronglySorted_app_1_l in Hs). simpl. rewrite <- (app_nil_r l) at 1.
  apply insert_by_start_mid; [|constructor]. apply Forall_forall. intros e' He'.
  eapply StronglySorted_app_1_elem_of in Hs; [|apply list_elem_of_fmap; by exists e'|by left]. simpl in Hs. lia.
Qed.

Lemma add_element_view t x s y :
  view t (x ++ (Plain <$> s) ++ y) → good (Element s) →
  view (snd (add_element (tlen x, tlen x + byte_len s) t)) (x ++ [Element s] ++ y).
Proof.
  intros [Ht He Hg] Hs. split; simpl.
  - by rewrite Ht, !text_app, text_plain, text_cons.
  - pose proof (spans_sorted 0 _ Hg) as Hsort. rewrite <- He in Hsort.
    unfold sort_elements. rewrite foldl_app. fold (sort_elements (elements t)). rewrite sort_sorted by done. simpl.
    rewrite !spans_app, spans_plain, text_plain in *. cbn [app] in *. rewrite Nat.add_0_l in *.
    apply fmap_app_inv in He as (ex & ey & Ex & Ey & ->). rewrite !Forall_app in Hg. destruct Hg as (Gx & _ & Gy).
    rewrite insert_by_start_mid.
    + unfold ranges. rewrite fmap_app. cbn [fmap list_fmap]. by rewrite <- Ex, <- Ey.
    + apply Forall_forall. intros e Hin. apply (list_elem_of_fmap_2 (λ e, (el_start e, el_end e))) in Hin. rewrite <- Ex in Hin.
      apply spans_bounds in Hin; [simpl; lia|done].
    + apply Forall_forall. intros e Hin. apply (list_elem_of_fmap_2 (λ e, (el_start e, el_end e))) in Hin. rewrite <- Ey in Hin.
      apply spans_bounds in Hin; [|done]. simpl. destruct Hs as [Hs _]. destruct (byte_len s) eqn:E; [by apply byte_len_nil in E|]. lia.
  - rewrite !Forall_app in Hg. apply Forall_app. split; [tauto|]. apply Forall_cons. tauto.
Qed.

Lemma insert_element_cut t x y s :
  view t (x ++ y) → cursor_pos t = tlen x → good (Element s) →
  ∃ id t', insert_element s t = Some (id, t') ∧ view t' (x ++ [Element s] ++ y) ∧ cursor_pos t' = tlen x + byte_len s ∧
    wrap_cache t' = None ∧ (vim_enabled t', vim_mode t') = (vim_enabled t, vim_mode t).
Proof.
  intros Hv Hc Hs. unfold insert_element, clamp_pos_for_insertion. rewrite Hc, (clamp_nearest_id _ t (x ++ y)) by (done || apply cut_at).
  destruct (insert_at_cut t x y s Hv) as (t1 & -> & Hv1 & Hw & _ & _ & Hvim & _). cbn [mbind option_bind].
  pose proof (add_element_view t1 x s y Hv1 Hs) as Hv2. destruct (add_element _ t1) as [id t2] eqn:E. simpl in Hv2.
  assert (Hsame : wrap_cache t2 = wrap_cache t1 ∧ (vim_enabled t2, vim_mode t2) = (vim_enabled t1, vim_mode t1)).
  { unfold add_element in E. simpl in E. injection E as _ <-. done. }
  eexists _, _. split; [done|]. split_and!.
  - by apply (same_view t2).
  - unfold set_cursor. simpl. rewrite (view_len _ _ Hv2), tlen_app. cbn [app].
    rewrite text_cons, byte_len_app. cbn [piece_text]. rewrite Nat.min_l by lia.
    apply (clamp_nearest_id _ _ (x ++ [Element s] ++ y)); [by apply (same_view t2)|].
    exists (x ++ [Element s]), y. by rewrite <- app_assoc, tlen_app, text_single.
  - simpl. by destruct Hsame as [-> _].
  - simpl. destruct Hsame as [_ ->]. by injection Hvim as -> -> _.
Qed.

(** ** Pieces between two places *)

Lemma no_spans_plain off ps : spans off ps = [] → ps = Plain <$> text_of ps.
Proof.
  revert off. induction ps as [|p ps IH]; intros off; [done|]. cbn [spans]. destruct p as [c|s]; [|done].
  cbn [app]. intros E%IH. rewrite text_cons. cbn. f_equal. exact E.
Qed.

(** A place that is not inside the pieces [y] stays a place when others of the same length stand
    there. *)
Lemma cut_other x y y' z c :
  cut (x ++ y ++ z) c → tlen y' = tlen y → ¬ (tlen x < c < tlen x + tlen y) → cut (x ++ y' ++ z) c.
Proof.
  intros Hc Hl Hn. apply cut_app_inv in Hc as [Hc|(q & -> & Hq)]; [by apply cut_left|].
  apply cut_right. apply cut_app_inv in Hq as [Hq|(r & -> & Hr)]; [|by rewrite <- Hl; apply cut_right].
  pose proof (cut_le _ _ Hq). destruct (decide (q = 0)) as [->|]; [apply cut_0|].
  assert (q = tlen y') as -> by lia. apply cut_left, cut_end.
Qed.

(** What stands in a range that no element meets. *)
Lemma free_range t ps a b :
  view t ps → boundary a (text t) → boundary b (text t) → a < b →
  (∀ e, e ∈ elements t → el_end e ≤ a ∨ b ≤ el_start e) →
  (∀ u, slice a b (text t) = Some u → nl ∉ u) →
  ∃ x s z, ps = x ++ (Plain <$> s) ++ z ∧ tlen x = a ∧ tlen x + byte_len s = b ∧ good (Element s).
Proof.
  intros Hv Ha Hb Hlt Hfree Hnl. rewrite (v_text _ _ Hv) in Ha, Hb.
  assert (∀ p, a ≤ p ≤ b → boundary p (text_of ps) → cut ps p) as Hcut.
  { intros p Hp Hbp. apply (cut_of_boundary 0); [done|]. intros s e Hs.
    destruct (view_range_inv t ps s e Hv Hs) as (el & Hel & <- & <-). destruct (Hfree el Hel); lia. }
  destruct (cuts_between ps a b) as (x & y & z & -> & <- & <-); [apply Hcut; (done || lia)..|lia|].
  assert (Hy : spans (tlen x) y = []).
  { destruct (spans (tlen x) y) as [|[s e] l] eqn:E; [done|]. exfalso.
    assert ((s, e) ∈ spans (tlen x) y) as Hs by (rewrite E; by left).
    destruct (view_range_inv t _ s e Hv) as (el & Hel & <- & <-).
    { rewrite !spans_app, !elem_of_app. simpl. auto. }
    pose proof (v_good _ _ Hv) as Hg. rewrite !Forall_app in Hg. destruct Hg as (_ & Hg & _).
    apply spans_bounds in Hs; [|done]. destruct (Hfree el Hel); lia. }
  apply no_spans_plain in Hy. exists x, (text_of y), z. split_and!; [by rewrite <- Hy|done|done|].
  split; [intros E; rewrite E in Hlt; simpl in Hlt; lia|]. apply Hnl.
  unfold slice. rewrite (v_text _ _ Hv).
  rewrite (proj2 (split_at_Some (tlen x + tlen y) _ (text_of (x ++ y)) (text_of z)))
    by (by rewrite !text_app, app_assoc, byte_len_app). simpl.
  by rewrite (proj2 (split_at_Some (tlen x) _ (text_of x) (text_of y))) by (by rewrite text_app).
Qed.

(** ** Operations *)

(** The range of characters that [add_element_range] and [set_text_with_elements] make of a range of
    bytes. *)
Definition clamp_range (t : TextArea) (r : nat * nat) : nat * nat :=
  (clamp_pos_to_char_boundary (Nat.min r.1 (text_len t)) t, clamp_pos_to_char_boundary (Nat.min r.2 (text_len t)) t).
Definition no_newline (s : list N) (r : nat * nat) : Prop := ∀ u, slice r.1 r.2 s = Some u → nl ∉ u.

Lemma add_element_range_ok r t :
  area_ok t → let c := clamp_range t r in
  no_newline (text t) c → ¬ (c.1 < cursor_pos t < c.2) → area_ok (add_element_range r t).2.
Proof.
  intros Hok c Hnl Hcur. unfold add_element_range. fold (clamp_range t r).
  pose proof (clamp_char_ok (Nat.min r.1 (text_len t)) t) as Ha.
  pose proof (clamp_char_ok (Nat.min r.2 (text_len t)) t) as Hb.
  subst c. unfold clamp_range in *. simpl in *.
  set (a := clamp_pos_to_char_boundary (Nat.min r.1 _) t) in *.
  set (b := clamp_pos_to_char_boundary (Nat.min r.2 _) t) in *.
  destruct (Nat.leb_spec b a); [done|]. destruct (existsb _ _); [done|].
  destruct (existsb _ (elements t)) eqn:E; [done|].
  destruct Hok as [Hca (ps & Hv & Hc)].
  destruct (free_range t ps a b Hv Ha Hb) as (x & s & z & -> & Hx & Hs & Hg); [done| |done|].
  { intros e He. assert (¬ (a < el_end e ∧ el_start e < b)) as Hn; [|lia]. intros [H1 H2].
    rewrite (proj2 (existsb_exists _ _)) in E; [done|]. exists e. split; [by apply list_elem_of_In|].
    by rewrite andb_true_iff, !Nat.ltb_lt. }
  pose proof (add_element_view t x s z Hv Hg) as Hv'. rewrite Hs, Hx in Hv'.
  split; [exact Hca|]. exists (x ++ [Element s] ++ z). split; [exact Hv'|].
  apply (cut_other x (Plain <$> s)); [exact Hc|by rewrite text_plain, text_single|].
  rewrite text_plain, Hs, Hx. exact Hcur.
Qed.

(** Elements may be forgotten. *)
Lemma spans_filter (P : TextElement → Prop) `{!∀ e, Decision (P e)} off ps els :
  ranges els = spans off ps → Forall good ps →
  ∃ ps', text_of ps' = text_of ps ∧ ranges (filter P els) = spans off ps' ∧ Forall good ps' ∧
    ∀ c, cut ps c → cut ps' c.
Proof.
  revert off els. induction ps as [|p ps IH]; intros off els He Hg.
  - destruct els; [|done]. by exists [].
  - apply Forall_cons in Hg as [Hp Hg]. cbn [spans] in He.
    assert (∃ qs els', text_of qs = piece_text p ∧ Forall good qs ∧
              ranges els' = spans (off + byte_len (piece_text p)) ps ∧
              ranges (filter P els) = spans off qs ++ ranges (filter P els')) as (qs & els' & Hqs & Hqg & He' & Hf).
    { destruct p as [c|s]; cbn [app] in He.
      - exists [Plain c], els. rewrite text_single. split_and!; [done|by constructor|done|done].
      - destruct els as [|e els]; [done|]. injection He as Hs Hen He. rewrite filter_cons.
        destruct (decide (P e)).
        + exists [Element s], els. rewrite text_single. split_and!; [done|by constructor|done|].
          cbn. by rewrite Hs, Hen.
        + exists (Plain <$> s), els. rewrite text_plain, spans_plain.
          split_and!; [done|apply Forall_fmap, Forall_true; done|done|done]. }
    destruct (IH _ _ He' Hg) as (ps' & Ht & Hr & Hg' & Hcut). exists (qs ++ ps').
    rewrite text_app, text_cons, Ht, Hqs, spans_app, Hqs. split_and!; [done|by rewrite Hf, Hr|by apply Forall_app|].
    intros c Hc. apply (cut_app_inv [p]) in Hc as [Hc|(q & -> & Hq)].
    + apply cut_left. destruct Hc as (x & y & E & <-). destruct x as [|p' [|]]; simplify_eq/=.
      * apply cut_0.
      * rewrite text_single, <- Hqs. apply cut_end.
    + rewrite text_single, <- Hqs. apply cut_right. auto.
Qed.
Lemma remove_element_range_ok r t : area_ok t → area_ok (remove_element_range r t).2.
Proof.
  intros Hok. unfold remove_element_range. fold (clamp_range t r).1 (clamp_range t r).2.
  destruct (_ <=? _); [done|]. destruct Hok as [Hca (ps & Hv & Hc)]. simpl. split; [exact Hca|].
  destruct (spans_filter (λ e, el_start e ≠ (clamp_range t r).1 ∨ el_end e ≠ (clamp_range t r).2)
              0 ps (elements t) (v_elements _ _ Hv) (v_good _ _ Hv)) as (ps' & Ht & Hr & Hg & Hcut).
  exists ps'. split; [|by apply Hcut]. split; simpl; [by rewrite (v_text _ _ Hv)|exact Hr|done].
Qed.

(** The element at an index. *)
Lemma spans_lookup off ps i r :
  spans off ps !! i = Some r →
  ∃ x s y, ps = x ++ Element s :: y ∧ length (spans off x) = i ∧ r = (off + tlen x, off + tlen x + byte_len s).
Proof.
  revert off i. induction ps as [|p ps IH]; intros off i; [done|]. cbn [spans].
  destruct p as [c|s]; cbn [app].
  - intros (x & s & y & -> & <- & ->)%IH. exists (Plain c :: x), s, y.
    rewrite text_cons, byte_len_app. split_and!; [done|done|]. f_equal; lia.
  - destruct i as [|i]; simpl.
    + intros [= <-]. exists [], s, ps. split_and!; [done|done|]. change (tlen []) with 0. f_equal; lia.
    + intros (x & s' & y & -> & <- & ->)%IH. exists (Element s :: x), s', y.
      rewrite text_cons, byte_len_app. simpl. split_and!; [done|done|]. f_equal; lia.
Qed.
Lemma ranges_imap (f : nat → TextElement → TextElement) (g : nat * nat → nat * nat) els :
  (∀ j e, els !! j = Some e → (el_start (f j e), el_end (f j e)) = g (el_start e, el_end e)) →
  ranges (imap f els) = g <$> ranges els.
Proof.
  unfold ranges. revert f. induction els as [|e els IH]; intros f Hf; [done|]. rewrite imap_cons. cbn.
  rewrite (Hf 0 e eq_refl). f_equal. apply IH. intros j e' He'. exact (Hf (S j) e' He').
Qed.

Lemma spans_move off d d' ps :
  spans (off + d') ps = (λ r, (r.1 + d' - d, r.2 + d' - d)) <$> spans (off + d) ps.
Proof.
  rewrite !spans_shift, <- list_fmap_compose. apply list_fmap_ext. intros _ [a b] _. simpl. f_equal; lia.
Qed.

(** The elements after an element has got another text. *)
Lemma payload_spans x old new y els :
  ranges els = spans 0 (x ++ Element old :: y) → Forall good (x ++ Element old :: y) →
  ranges (imap (shift_after_payload (length (spans 0 x)) (tlen x) (tlen x + byte_len old) (byte_len new)) els)
  = spans 0 (x ++ Element new :: y).
Proof.
  intros He Hg. rewrite spans_app in He. apply fmap_app_inv in He as (ex & [|e ey] & Ex & Ey & ->); [done|].
  cbn in Ey. injection Ey as Es Een Ey. rewrite Forall_app, Forall_cons in Hg. destruct Hg as (Gx & _ & Gy).
  assert (Hlx : length (spans 0 x) = length ex) by (rewrite Ex; apply length_fmap). rewrite Hlx.
  rewrite imap_app, imap_cons, spans_app. unfold ranges at 1. rewrite fmap_app. fold (ranges (imap
    (shift_after_payload (length ex) (tlen x) (tlen x + byte_len old) (byte_len new)) ex)). f_equal.
  - rewrite (ranges_imap _ id), list_fmap_id; [done|]. intros j e' Hj.
    assert ((el_start e', el_end e') ∈ spans 0 x) as Hin%spans_bounds;
      [|unfold shift_after_payload|done].
    { rewrite Ex. apply list_elem_of_fmap. exists e'. split; [done|by eapply list_elem_of_lookup_2]. }
    apply lookup_lt_Some in Hj. rewrite bool_decide_false by lia. destruct (_ =? _); [done|].
    by rewrite (proj2 (Nat.leb_le _ _)) by lia.
  - cbn [spans]. cbn [fmap list_fmap app]. f_equal.
    + unfold shift_after_payload. rewrite bool_decide_true by lia. done.
    + simpl piece_text. rewrite Nat.add_0_l.
      trans ((λ r, (r.1 + byte_len new - byte_len old, r.2 + byte_len new - byte_len old)) <$> ranges ey).
      * apply ranges_imap.
        intros j e' Hj. simpl.
        assert ((el_start e', el_end e') ∈ spans (tlen x + byte_len old) y) as Hin%spans_bounds;
          [|unfold shift_after_payload|done].
        { rewrite Ey. apply list_elem_of_fmap. exists e'. split; [done|by eapply list_elem_of_lookup_2]. }
        rewrite bool_decide_false by lia. replace (tlen x + byte_len old - tlen x) with (byte_len old) by lia.
        destruct (Nat.eqb_spec (byte_len new) (byte_len old)); [f_equal; lia|].
        rewrite (proj2 (Nat.leb_gt _ _)) by lia. by rewrite (proj2 (Nat.leb_le _ _)) by lia.
      * unfold ranges. rewrite <- Ey. symmetry. apply spans_move.
Qed.

Lemma replace_element_payload_ok old new t :
  area_ok t → good (Element new) → ∃ b t', replace_element_payload old new t = Some (b, t') ∧ area_ok t'.
Proof.
  intros Hok Hnew. unfold replace_element_payload.
  destruct (list_find _ _) as [[idx e]|] eqn:E; [|by exists false, t].
  apply list_find_Some in E as (Hidx & _ & _). destruct Hok as [Hca (ps & Hv & Hc)].
  destruct (spans_lookup 0 ps idx (el_start e, el_end e)) as (x & s & y & -> & <- & [= -> ->]).
  { rewrite <- (v_elements _ _ Hv). unfold ranges. by rewrite list_lookup_fmap, Hidx. }
  simpl. rewrite (proj2 (Nat.ltb_ge _ _)) by lia.
  pose proof (view_len _ _ Hv) as Hl. rewrite tlen_app, text_cons, byte_len_app in Hl. simpl in Hl.
  rewrite (proj2 (Nat.ltb_ge (text_len t) _)) by lia. simpl.
  rewrite (proj2 (split_at_Some (tlen x + byte_len s) (text t) (text_of x ++ s) (text_of y)))
    by (rewrite (v_text _ _ Hv), text_app, text_cons, byte_len_app; by rewrite <- app_assoc).
  simpl. rewrite (proj2 (split_at_Some (tlen x) (text_of x ++ s) (text_of x) s)) by done. simpl.
  set (els := imap _ _).
  assert (Hels : ranges els = spans 0 (x ++ Element new :: y)) by (apply payload_spans; apply Hv).
  pose proof (v_good _ _ Hv) as Hg. rewrite Forall_app, Forall_cons in Hg. destruct Hg as (Gx & _ & Gy).
  assert (Hg' : Forall good (x ++ Element new :: y)) by (apply Forall_app; split; [done|by constructor]).
  rewrite sort_sorted by (rewrite Hels; by apply spans_sorted).
  set (t1 := with_elements els _).
  assert (Hv1 : view t1 (x ++ Element new :: y)).
  { split; simpl; [by rewrite text_app, text_cons|done|done]. }
  eexists true, _. split; [done|]. split; [by apply cache_none|]. exists (x ++ Element new :: y).
  split; [exact Hv1|]. apply clamp_nearest_cut. eapply same_view; [|exact Hv1]. done.
Qed.

(** The ranges of the elements that [set_text_with_elements] makes for a text. *)
Definition clamped_ranges (s : list N) (els : list (nat * nat)) : list (nat * nat) :=
  filter (λ r, r.1 < r.2) (clamp_range (with_text s new) <$> els).
(** They lie apart and have no newline in them. *)
Definition elements_fit (s : list N) (els : list (nat * nat)) : Prop :=
  (∀ i j r r', clamped_ranges s els !! i = Some r → clamped_ranges s els !! j = Some r' → i < j →
     r.2 ≤ r'.1 ∨ r'.2 ≤ r.1) ∧
  Forall (no_newline s) (clamped_ranges s els).

Lemma sort_elements_snoc l e : sort_elements (l ++ [e]) = insert_by_start e (sort_elements l).
Proof. unfold sort_elements. by rewrite foldl_app. Qed.
Lemma insert_by_start_elem e x l : x ∈ insert_by_start e l → x = e ∨ x ∈ l.
Proof.
  induction l as [|e' l IH]; simpl; [set_solver|]. destruct (_ <=? _); rewrite !elem_of_cons; naive_solver.
Qed.
Lemma sort_elements_elem x l : x ∈ sort_elements l → x ∈ l.
Proof.
  induction l as [|e l IH] using rev_ind; [done|]. rewrite sort_elements_snoc, elem_of_app, list_elem_of_singleton.
  intros [?|?]%insert_by_start_elem; auto.
Qed.
Lemma clamp_range_text t t' r : text t = text t' → clamp_range t r = clamp_range t' r.
Proof. unfold clamp_range, clamp_pos_to_char_boundary, text_len. by intros ->. Qed.
Lemma clamped_ranges_snoc s els r :
  clamped_ranges s (els ++ [r]) =
  clamped_ranges s els ++ (let c := clamp_range (with_text s new) r in if decide (c.1 < c.2) then [c] else []).
Proof. unfold clamped_ranges. rewrite fmap_app, filter_app. done. Qed.

Lemma pushed_view s els t :
  text t = s → elements t = [] → elements_fit s els →
  let t1 := foldl push_element t els in
  text t1 = s ∧ wrap_cache t1 = wrap_cache t ∧ ranges (elements t1) = clamped_ranges s els ∧
  ∃ ps, view (with_elements (sort_elements (elements t1)) t1) ps.
Proof.
  intros Ht He. induction els as [|r els IH] using rev_ind; intros [Hap Hnl] t1.
  - subst t1. cbn [foldl]. rewrite He. split_and!; [done|done|done|]. exists (Plain <$> s).
    split; simpl; [by rewrite text_plain|by rewrite spans_plain|apply Forall_fmap, Forall_true; done].
  - rewrite clamped_ranges_snoc in Hnl. apply Forall_app in Hnl as [Hnl Hnr].
    destruct IH as (It & Iw & Ie & ps & Hv).
    { split; [|done]. intros i j q q' Hi Hj. apply Hap; rewrite clamped_ranges_snoc; by apply lookup_app_l_Some. }
    subst t1. rewrite foldl_app. cbn [foldl]. set (t1 := foldl push_element t els) in *.
    assert (Ec : clamp_range t1 r = clamp_range (with_text s new) r) by by apply clamp_range_text.
    rewrite clamped_ranges_snoc in Hap |- *. cbv zeta in Hap, Hnr |- *. rewrite <- Ec in *.
    pose proof (clamp_char_ok (Nat.min r.1 (text_len t1)) t1) as Ha.
    pose proof (clamp_char_ok (Nat.min r.2 (text_len t1)) t1) as Hb.
    unfold push_element, clamp_range in *. simpl in *.
    set (a := clamp_pos_to_char_boundary (Nat.min r.1 _) t1) in *.
    set (b := clamp_pos_to_char_boundary (Nat.min r.2 _) t1) in *.
    destruct (Nat.leb_spec b a) as [Hle|Hlt].
    { rewrite decide_False by lia. rewrite app_nil_r. by eauto. }
    rewrite decide_True in * by lia. apply Forall_cons in Hnr as [Hnr _]. simpl.
    split_and!; [done|done|by unfold ranges; rewrite fmap_app; f_equal|].
    destruct (free_range _ ps a b Hv) as (x & u & z & -> & Hx & Hu & Hg); [done..| | |].
    { intros e He'. apply sort_elements_elem in He'.
      apply (list_elem_of_fmap_2 (λ e, (el_start e, el_end e))) in He'. fold (ranges (elements t1)) in He'.
      rewrite Ie in He'. apply list_elem_of_lookup in He' as [i Hi].
      apply (Hap i (length (clamped_ranges s els)) (el_start e, el_end e) (a, b)); [by apply lookup_app_l_Some| |by eapply lookup_lt_Some].
      by rewrite lookup_app_r, Nat.sub_diag by lia. }
    { simpl. rewrite It. exact Hnr. }
    pose proof (add_element_view _ x u z Hv Hg) as Hv'. rewrite Hu, Hx in Hv'. exists (x ++ [Element u] ++ z).
    apply (same_view (snd (add_element (a, b) (with_elements (sort_elements (elements t1)) t1)))); [|done].
    split_and!; [done| |done]. simpl. rewrite !sort_elements_snoc. f_equal. symmetry. apply sort_sorted.
    pose proof (v_elements _ _ Hv) as E. simpl in E. rewrite E. apply spans_sorted, Hv.
Qed.

Lemma set_text_with_elements_ok s els t : elements_fit s els → area_ok (set_text_with_elements s els t).
Proof.
  intros Hfit. unfold set_text_with_elements, set_text_inner.
  set (t0 := with_cursor (Nat.min _ _) (with_elements [] (with_text s t))).
  destruct (pushed_view s els t0 eq_refl eq_refl Hfit) as (_ & Hw & _ & ps & Hv).
  split; [by apply cache_none|]. exists ps. split; [|by apply clamp_nearest_cut].
  eapply same_view; [|exact Hv]. done.
Qed.
