(* ===== verification/TextKeysLaws.v ===== *)
(** * Every key keeps the text area well formed

    Words, graphemes, movement up and down, the keys of the editor and the modal keys: none of
    them panics, and each leaves the cursor between two pieces and the elements whole. *)

From stdpp Require Import prelude strings list.
From S2P Require Import Prelude RustStr StrSearch ComposerPaste ComposerLaws TextEdit VimEdit TextEditLaws.

#[local] Arguments text_of : simpl never.

(** What the text area relies on in the crates for words, graphemes and wrapping. *)
Class SegmentationOk (seg : Segmentation) : Prop := {
  sg_words : ∀ s, concat (word_bounds seg s) = s;
  sg_graphemes : ∀ s, concat (graphemes seg s) = s;
  sg_prev : ∀ p s, boundary p s → 0 < p → ∃ q, prev_boundary seg p s = Boundary (Some q) ∧ boundary q s ∧ q < p;
  sg_next : ∀ p s, boundary p s → p < byte_len s →
    ∃ q, next_boundary seg p s = Boundary (Some q) ∧ boundary q s ∧ p < q;
  sg_wrap : ∀ w s, lines_ok s (wrap_ranges seg w s) }.

Section keys.
Context (seg : Segmentation) `{!SegmentationOk seg}.

(** ** Words *)

Lemma split_runs_spec off start piece b cs idx pc :
  off = start + byte_len piece → (idx, pc) ∈ split_runs off start piece b cs →
  ∃ x y, piece ++ cs = x ++ pc ++ y ∧ idx = start + byte_len x.
Proof.
  revert off start piece b. induction cs as [|c cs IH]; intros off start piece b Ho; simpl.
  - intros [= -> ->]%list_elem_of_singleton. exists [], []. rewrite !app_nil_r. simpl. split; [done|lia].
  - destruct (eqb _ b).
    + intros H. apply IH in H as (x & y & E & ->); [|rewrite byte_len_app; simpl; lia].
      exists x, y. by rewrite <- E, <- app_assoc.
    + intros [[= -> ->]|H]%elem_of_cons.
      * exists [], (c :: cs). simpl. split; [done|lia].
      * apply IH in H as (x & y & E & ->); [|simpl; lia]. exists (piece ++ x), y.
        rewrite <- app_assoc, <- E, byte_len_app. split; [done|lia].
Qed.
Lemma split_segments_spec off ss idx pc :
  (idx, pc) ∈ split_segments off ss → ∃ x y, concat ss = x ++ pc ++ y ∧ idx = off + byte_len x.
Proof.
  revert off. induction ss as [|s ss IH]; intros off; simpl; [by intros ?%elem_of_nil|].
  rewrite elem_of_app. intros [H|H].
  - destruct s as [|c cs]; [by apply elem_of_nil in H|]. simpl in H. apply split_runs_spec in H as (x & y & E & ->); [|simpl; lia].
    exists x, (y ++ concat ss). simpl in E. by rewrite E, <- !app_assoc.
  - apply IH in H as (x & y & E & ->). exists (s ++ x), y. rewrite E, <- app_assoc, byte_len_app. split; [done|lia].
Qed.
Lemma pieces_spec run idx pc :
  (idx, pc) ∈ split_word_pieces seg run → ∃ x y, run = x ++ pc ++ y ∧ idx = byte_len x.
Proof. intros (x & y & E & ->)%split_segments_spec. rewrite sg_words in E. by exists x, y. Qed.
Lemma piece_bounds run idx pc :
  (idx, pc) ∈ split_word_pieces seg run → boundary idx run ∧ boundary (idx + byte_len pc) run.
Proof.
  intros (x & y & -> & ->)%pieces_spec. split; [by eexists _, _|]. exists (x ++ pc), y. by rewrite <- app_assoc, byte_len_app.
Qed.

Lemma separators_back_spec run_start start pieces :
  separators_back run_start start pieces = start ∨
  ∃ idx pc, (idx, pc) ∈ pieces ∧ separators_back run_start start pieces = run_start + idx.
Proof.
  revert start. induction pieces as [|[idx pc] pieces IH]; intros start; simpl; [auto|]. destruct (forallb _ pc); [|auto].
  right. destruct (IH (run_start + idx)) as [->|(i & p & Hi & ->)]; [exists idx, pc|exists i, p]; set_solver.
Qed.
Lemma separators_on_spec base end_ pieces :
  separators_on base end_ pieces = end_ ∨
  ∃ idx pc, (idx, pc) ∈ pieces ∧ separators_on base end_ pieces = base + idx + byte_len pc.
Proof.
  revert end_. induction pieces as [|[idx pc] pieces IH]; intros end_; simpl; [auto|]. destruct (forallb _ pc); [|auto].
  right. destruct (IH (base + idx + byte_len pc)) as [->|(i & p & Hi & ->)]; [exists idx, pc|exists i, p]; set_solver.
Qed.

Lemma adjust_boundary p b t ps :
  view t ps → boundary p (text t) → boundary (adjust_pos_out_of_elements p b t) (text t).
Proof.
  intros Hv Hp. unfold adjust_pos_out_of_elements. destruct (find_element_containing p t) as [e|] eqn:E; [|done].
  destruct (containing_Some t ps p e Hv E) as (H1 & H2 & _). rewrite (v_text _ _ Hv). destruct b; by apply cut_boundary.
Qed.
Lemma adjust_start_le p t : adjust_pos_out_of_elements p true t ≤ p.
Proof.
  unfold adjust_pos_out_of_elements. destruct (find_element_containing p t) as [e|] eqn:E; [|done].
  apply find_Some_elem in E as [_ E]. rewrite andb_true_iff, !Nat.ltb_lt in E. lia.
Qed.

Lemma previous_word_ok t :
  area_ok t → ∃ p, beginning_of_previous_word seg t = Some p ∧ boundary p (text t) ∧ p ≤ cursor_pos t.
Proof.
  intros Hok. pose proof (cursor_boundary t Hok) as (pre & post & E & Ht & Hcur)%split_text. destruct Hok as [_ (ps & Hv & _)].
  unfold beginning_of_previous_word. rewrite E. cbn [mbind option_bind].
  destruct (rfind_from not_whitespace 0 pre) as [[i c]|] eqn:Ef; [|exists 0; split_and!; [done|apply boundary_0|lia]].
  apply rfind_from_Some in Ef as (x & y & -> & _ & _ & ->). rewrite Nat.add_0_l.
  rewrite (proj2 (split_at_Some (byte_len x) (x ++ c :: y) x (c :: y))) by done. cbn [mbind option_bind].
  set (run_start := match rfind_from is_whitespace 0 x with Some (idx, c) => idx + len_utf8 c | None => 0 end).
  assert (Hrs : boundary run_start x).
  { unfold run_start. destruct (rfind_from is_whitespace 0 x) as [[j d]|] eqn:Ej; [|apply boundary_0].
    apply rfind_from_Some in Ej as (x1 & y1 & -> & _ & _ & ->). exists (x1 ++ [d]), y1. rewrite <- app_assoc, byte_len_app.
    split; [done|simpl; lia]. }
  pose proof (boundary_le _ _ Hrs) as Hrl.
  destruct (slice_boundary run_start (byte_len x + len_utf8 c) (x ++ c :: y)) as (u & run & v & -> & Eu & Hu & Hv').
  { by apply boundary_app. } { exists (x ++ [c]), y. rewrite <- app_assoc, byte_len_app. split; [done|simpl; lia]. } { lia. }
  cbn [mbind option_bind]. rewrite byte_len_app in Hcur, Hv'. simpl in Hcur.
  assert (Hrun : ∀ q, boundary q run → boundary (run_start + q) (text t) ∧ run_start + q ≤ cursor_pos t).
  { intros q Hq. split; [|apply boundary_le in Hq; lia]. rewrite Ht, Eu, <- Hu, <- app_assoc. apply boundary_shift.
    rewrite <- app_assoc. by apply boundary_app. }
  destruct (reverse (split_word_pieces seg run)) as [|[idx pc] pieces] eqn:Er.
  { eexists. split; [done|]. rewrite <- (Nat.add_0_r run_start). apply Hrun, boundary_0. }
  assert (Hp : ∀ j p, (j, p) ∈ (idx, pc) :: pieces → boundary j run).
  { intros j p Hj. rewrite <- Er, elem_of_reverse in Hj. by apply piece_bounds in Hj as [? _]. }
  eexists. split; [done|]. set (start := if forallb is_word_separator pc then separators_back run_start (run_start + idx) pieces else run_start + idx).
  assert (Hs : boundary start (text t) ∧ start ≤ cursor_pos t).
  { unfold start. pose proof (Hrun _ (Hp idx pc (list_elem_of_here _ _))) as H0.
    destruct (forallb _ _); [|done]. destruct (separators_back_spec run_start (run_start + idx) pieces) as [->|(j & p & Hj & ->)]; [done|].
    apply Hrun, (Hp j p). set_solver. }
  split; [eapply adjust_boundary; [done|apply Hs]|]. pose proof (adjust_start_le start t). lia.
Qed.

Lemma end_of_word_ok p t :
  area_ok t → boundary p (text t) → ∃ e, end_of_next_word_from seg p t = Some e ∧ boundary e (text t).
Proof.
  intros [_ (ps & Hv & _)] (pre & suf & E & Ht & Hp)%split_text. unfold end_of_next_word_from. rewrite E. cbn [mbind option_bind].
  destruct (find_from not_whitespace 0 suf) as [i|] eqn:Ef; [|eexists; split; [done|apply boundary_len]].
  apply find_from_Some in Ef as (x & c & y & -> & _ & _ & ->). rewrite Nat.add_0_l.
  rewrite (proj2 (split_at_Some (byte_len x) (x ++ c :: y) x (c :: y))) by done. cbn [mbind option_bind].
  assert (Hw : boundary (default (byte_len (c :: y)) (find_from is_whitespace 0 (c :: y))) (c :: y)).
  { destruct (find_from is_whitespace 0 (c :: y)) as [j|] eqn:Ej; [|apply boundary_len].
    apply find_from_Some in Ej as (x1 & d & y1 & -> & _ & _ & ->). by eexists _, _. }
  destruct (split_at_boundary _ _ Hw) as (run & rest & -> & Er & _). cbn [mbind option_bind].
  assert (Hrun : ∀ q, boundary q run → boundary (p + byte_len x + q) (text t)).
  { intros q Hq. rewrite Ht, <- Hp, Er, <- byte_len_app, app_assoc. by apply boundary_shift, boundary_app. }
  destruct (split_word_pieces seg run) as [|[idx pc] pieces] eqn:Ep.
  { eexists. split; [done|]. rewrite <- (Nat.add_0_r (_ + _)). apply Hrun, boundary_0. }
  assert (Hpc : ∀ j q, (j, q) ∈ (idx, pc) :: pieces → boundary (p + byte_len x + j + byte_len q) (text t)).
  { intros j q Hj. rewrite <- Ep in Hj. apply piece_bounds in Hj as [_ Hj]. apply Hrun in Hj. by rewrite <- Nat.add_assoc. }
  eexists. split; [done|]. eapply adjust_boundary; [done|]. destruct (forallb _ _); [|apply (Hpc idx pc); set_solver].
  destruct (separators_on_spec (p + byte_len x) (p + byte_len x + idx + byte_len pc) pieces) as [->|(j & q & Hj & ->)];
    apply Hpc; set_solver.
Qed.

Lemma next_word_ok t : area_ok t → ∃ p, beginning_of_next_word seg t = Some p.
Proof.
  intros Hok. pose proof (cursor_boundary t Hok) as Hb. pose proof Hb as (pre & suf & E & _)%split_text.
  unfold beginning_of_next_word. rewrite E. cbn [mbind option_bind].
  destruct (find_from _ 0 suf) as [i|]; [|eauto]. destruct (negb _); [eauto|].
  destruct (end_of_word_ok _ t Hok Hb) as (e & He & Hbe). unfold end_of_next_word. rewrite He. cbn [mbind option_bind].
  destruct (_ <=? _); [eauto|]. destruct (split_text e t Hbe) as (a & b & -> & _). simpl. eauto.
Qed.

Lemma delete_backward_word_ok t : area_ok t → holds (delete_backward_word seg t).
Proof.
  intros Hok. unfold delete_backward_word. destruct (previous_word_ok t Hok) as (p & -> & Hp & Hle). cbn [mbind option_bind].
  apply kill_range_ok; [done|done|by apply cursor_boundary|done].
Qed.
Lemma delete_forward_word_ok t : area_ok t → holds (delete_forward_word seg t).
Proof.
  intros Hok. unfold delete_forward_word, end_of_next_word.
  destruct (end_of_word_ok _ t Hok (cursor_boundary t Hok)) as (p & -> & Hp). cbn [mbind option_bind].
  destruct (Nat.ltb_spec (cursor_pos t) p); [|by apply holds_some].
  apply kill_range_ok; [done|by apply cursor_boundary|done|simpl; lia].
Qed.

(** ** Graphemes *)

Lemma prev_atomic_ok p t ps :
  view t ps → boundary p (text t) → cut ps (prev_atomic_boundary seg p t) ∧ prev_atomic_boundary seg p t ≤ p.
Proof.
  intros Hv Hp. unfold prev_atomic_boundary. destruct (Nat.eqb_spec p 0); [split; [apply cut_0|lia]|].
  destruct (find _ _) as [e|] eqn:E.
  - apply find_Some_elem in E as [He Hpe]. rewrite andb_true_iff, Nat.ltb_lt, Nat.leb_le in Hpe.
    split; [|lia]. by apply (view_range _ _ _ Hv), cut_start_elem in He as [? _].
  - destruct (sg_prev p (text t)) as (q & -> & Hq & Hlt); [done|lia|].
    destruct (find_element_containing q t) as [e|] eqn:Eq.
    + destruct (containing_Some t ps q e Hv Eq) as (H1 & _ & H3). split; [done|lia].
    + split; [by eapply containing_None|lia].
Qed.
Lemma next_atomic_ok p t ps :
  view t ps → boundary p (text t) → cut ps (next_atomic_boundary seg p t) ∧ p ≤ next_atomic_boundary seg p t.
Proof.
  intros Hv Hp. pose proof (boundary_le _ _ Hp) as Hle. fold (text_len t) in Hle. unfold next_atomic_boundary.
  destruct (Nat.leb_spec (text_len t) p); [split; [rewrite (view_len _ _ Hv); apply cut_end|lia]|].
  destruct (find _ _) as [e|] eqn:E.
  - apply find_Some_elem in E as [He Hpe]. rewrite andb_true_iff, Nat.ltb_lt, Nat.leb_le in Hpe.
    split; [|lia]. by apply (view_range _ _ _ Hv), cut_start_elem in He as [_ ?].
  - destruct (sg_next p (text t)) as (q & -> & Hq & Hlt); [done|done|].
    destruct (find_element_containing q t) as [e|] eqn:Eq.
    + destruct (containing_Some t ps q e Hv Eq) as (_ & H1 & H3). split; [done|lia].
    + split; [by eapply containing_None|lia].
Qed.
Lemma cut_text t ps p : view t ps → cut ps p → boundary p (text t).
Proof. intros Hv Hc. rewrite (v_text _ _ Hv). by apply cut_boundary. Qed.
Lemma steps_back_ok n p t ps : view t ps → cut ps p → cut ps (steps_back seg n p t) ∧ steps_back seg n p t ≤ p.
Proof.
  intros Hv. revert p. induction n as [|n IH]; intros p Hp; simpl; [done|].
  destruct (prev_atomic_ok p t ps Hv (cut_text _ _ _ Hv Hp)) as [H1 H2]. destruct (_ =? 0); [done|].
  destruct (IH _ H1) as [H3 H4]. split; [done|lia].
Qed.
Lemma steps_on_ok n p t ps : view t ps → cut ps p → cut ps (steps_on seg n p t) ∧ p ≤ steps_on seg n p t.
Proof.
  intros Hv. revert p. induction n as [|n IH]; intros p Hp; simpl; [done|].
  destruct (next_atomic_ok p t ps Hv (cut_text _ _ _ Hv Hp)) as [H1 H2]. destruct (_ <=? _); [done|].
  destruct (IH _ H1) as [H3 H4]. split; [done|lia].
Qed.

Lemma move_left_ok t : area_ok t → area_ok (move_cursor_left seg t).
Proof. intros Hok. apply (same_ok t); [done|done|]. intros ps Hv Hc. apply prev_atomic_ok; [done|by eapply cut_text]. Qed.
Lemma move_right_ok t : area_ok t → area_ok (move_cursor_right seg t).
Proof. intros Hok. apply (same_ok t); [done|done|]. intros ps Hv Hc. apply next_atomic_ok; [done|by eapply cut_text]. Qed.

Lemma delete_backward_ok n t : area_ok t → holds (delete_backward seg n t).
Proof.
  intros Hok. unfold delete_backward. destruct (_ || _); [by apply holds_some|].
  pose proof Hok as [_ (ps & Hv & Hc)]. destruct (steps_back_ok n _ t ps Hv Hc) as [H1 H2].
  apply replace_range_ok; [done|by eapply cut_text|by eapply cut_text|done].
Qed.
Lemma delete_forward_ok n t : area_ok t → holds (delete_forward seg n t).
Proof.
  intros Hok. unfold delete_forward. destruct (_ || _); [by apply holds_some|].
  pose proof Hok as [_ (ps & Hv & Hc)]. destruct (steps_on_ok n _ t ps Hv Hc) as [H1 H2].
  apply replace_range_ok; [done|by eapply cut_text|by eapply cut_text|done].
Qed.
Lemma delete_forward_kill_ok n t : area_ok t → holds (delete_forward_kill seg n t).
Proof.
  intros Hok. unfold delete_forward_kill. destruct (_ || _); [by apply holds_some|].
  pose proof Hok as [_ (ps & Hv & Hc)]. destruct (steps_on_ok n _ t ps Hv Hc) as [H1 H2].
  apply kill_range_ok; [done|by eapply cut_text|by eapply cut_text|done].
Qed.
Lemma paste_after_cursor_ok t : area_ok t → holds (paste_after_cursor seg t).
Proof.
  intros Hok. unfold paste_after_cursor. case_bool_decide; [by apply holds_some|].
  case_bool_decide; [by apply paste_line_ok|]. by apply insert_str_at_ok, set_cursor_ok.
Qed.

(** ** Up and down *)

Lemma move_to_col_ok a b col t :
  area_ok t → boundary a (text t) → boundary b (text t) → a ≤ b → holds (move_to_display_col_on_line seg a b col t).
Proof.
  intros Hok Ha Hb Hle. unfold move_to_display_col_on_line.
  destruct (slice_boundary a b (text t) Ha Hb Hle) as (_ & m & _ & -> & _). cbn [mbind option_bind].
  apply holds_some, (same_ok t); [done|done|]. intros ps Hv _. by apply clamp_nearest_cut.
Qed.
Lemma starts_up_to_spec pos lines i :
  i < starts_up_to pos lines → ∃ r, lines !! i = Some r ∧ r.1 ≤ pos.
Proof.
  revert i. induction lines as [|r lines IH]; intros i; simpl; [lia|].
  destruct (Nat.leb_spec r.1 pos); [|lia]. destruct i as [|i]; simpl; [by exists r|]. intros Hi. apply IH. lia.
Qed.
Lemma wrapped_target_ok next t :
  area_ok t →
  ∃ o, wrapped_target seg next t = Some o ∧
    ∀ col line, o = Some (col, Some line) → boundary line.1 (text t) ∧ boundary line.2 (text t) ∧ line.1 ≤ line.2.
Proof.
  intros Hok. pose proof (cursor_boundary t Hok) as Hcur. destruct Hok as [Hca _]. unfold wrapped_target.
  destruct (wrap_cache t) as [c|] eqn:Ec; [|by eexists]. specialize (Hca c Ec). unfold lines_ok in Hca. rewrite Forall_forall in Hca.
  unfold wrapped_line_index_by_start. destruct (starts_up_to _ _) as [|idx] eqn:Es; [by eexists|].
  destruct (starts_up_to_spec (cursor_pos t) (wrap_lines c) idx) as (r & Hr & Hle); [lia|]. rewrite Hr. cbn [mbind option_bind].
  destruct (Hca r) as (Hr1 & _ & _); [by eapply list_elem_of_lookup_2|].
  destruct (slice_boundary r.1 (cursor_pos t) (text t) Hr1 Hcur Hle) as (_ & m & _ & Em & _).
  assert (∃ col, (match preferred_col t with Some c => Some c | None => str_width seg <$> slice r.1 (cursor_pos t) (text t) end) = Some col)
    as [col ->] by (destruct (preferred_col t); [eauto|rewrite Em; by eexists]).
  cbn [mbind option_bind]. eexists. split; [done|]. intros col' line. destruct (next idx) as [i|]; simpl; [|done].
  destruct (wrap_lines c !! i) as [l|] eqn:El; [|done]. intros [= _ <-]. apply (Hca l). by eapply list_elem_of_lookup_2.
Qed.
Lemma keep_col_ok col t : area_ok t → area_ok (keep_col col t).
Proof. unfold keep_col. destruct (preferred_col t); [done|apply with_col_ok]. Qed.
Lemma keep_col_text col t : text (keep_col col t) = text t.
Proof. unfold keep_col. by destruct (preferred_col t). Qed.
Lemma display_col_ok t :
  area_ok t → ∃ c, (match preferred_col t with Some c => Some c | None => current_display_col seg t end) = Some c.
Proof.
  intros Hok. destruct (preferred_col t); [eauto|]. unfold current_display_col. destruct (bol_ok t Hok) as (b & -> & Hb & Hle & _).
  cbn [mbind option_bind]. destruct (slice_boundary b (cursor_pos t) (text t) Hb (cursor_boundary t Hok) Hle) as (_ & m & _ & -> & _).
  simpl. eauto.
Qed.
Lemma go_start_ok t : area_ok t → area_ok (with_col None (with_cursor 0 t)).
Proof. intros Hok. apply (same_ok t); [done|done|]. intros ps _ _. apply cut_0. Qed.
Lemma go_end_ok t : area_ok t → area_ok (with_col None (with_cursor (text_len t) t)).
Proof. intros Hok. apply (same_ok t); [done|done|]. intros ps Hv _. simpl. rewrite (view_len _ _ Hv). apply cut_end. Qed.

Lemma move_up_ok t : area_ok t → holds (move_cursor_up seg t).
Proof.
  intros Hok. unfold move_cursor_up.
  destruct (wrapped_target_ok (λ idx, match idx with 0 => None | S i => Some i end) t Hok) as (o & -> & Ho). cbn [mbind option_bind].
  destruct o as [[col [line|]]|].
  - destruct (Ho col line eq_refl) as (H1 & H2 & H3). apply move_to_col_ok; rewrite ?keep_col_text; [by apply keep_col_ok|done..].
  - by apply holds_some, go_start_ok.
  - pose proof (cursor_boundary t Hok) as (pre & post & -> & Ht & _)%split_text. cbn [mbind option_bind].
    destruct (rfind_from is_nl 0 pre) as [[i c]|] eqn:Ef; [|by apply holds_some, go_start_ok].
    apply rfind_from_Some in Ef as (x & y & -> & ->%is_nl_true & _ & ->). rewrite Nat.add_0_l.
    destruct (display_col_ok t Hok) as [col ->]. cbn [mbind option_bind]. rewrite <- app_assoc in Ht. simpl in Ht.
    rewrite (proj2 (split_at_Some (byte_len x) (text t) x (nl :: y ++ post))) by done. cbn [mbind option_bind].
    apply move_to_col_ok; rewrite ?keep_col_text; [by apply keep_col_ok| |by eexists _, _|];
      (destruct (rfind_from is_nl 0 x) as [[j d]|] eqn:Ej; [|try apply boundary_0; lia]);
      apply rfind_from_Some in Ej as (x1 & y1 & -> & ->%is_nl_true & _ & ->).
    + rewrite Ht, <- app_assoc. by apply (after_nl x1 (y1 ++ nl :: y ++ post)).
    + rewrite byte_len_app. simpl. lia.
Qed.
Lemma move_down_ok t : area_ok t → holds (move_cursor_down seg t).
Proof.
  intros Hok. unfold move_cursor_down. destruct (wrapped_target_ok (λ idx, Some (S idx)) t Hok) as (o & -> & Ho). cbn [mbind option_bind].
  destruct o as [[col [line|]]|].
  - destruct (Ho col line eq_refl) as (H1 & H2 & H3). apply move_to_col_ok; rewrite ?keep_col_text; [by apply keep_col_ok|done..].
  - by apply holds_some, go_end_ok.
  - destruct (display_col_ok t Hok) as [col ->]. cbn [mbind option_bind].
    pose proof (cursor_boundary t Hok) as (pre & post & -> & Ht & Hcur)%split_text. cbn [mbind option_bind].
    destruct (find_from is_nl 0 post) as [i|] eqn:Ef; [|by apply holds_some, go_end_ok].
    apply find_from_Some in Ef as (x & c & y & -> & ->%is_nl_true & _ & ->).
    replace (0 + byte_len x + cursor_pos t + 1) with (byte_len (pre ++ x) + 1) by (rewrite byte_len_app; lia).
    rewrite app_assoc in Ht. destruct (after_nl _ _ _ Ht) as [_ Hn].
    destruct (split_text _ t Hn) as (a & b & -> & Ht' & Ha). cbn [mbind option_bind].
    apply move_to_col_ok; rewrite ?keep_col_text; [by apply keep_col_ok|done| |];
      (destruct (find_from is_nl 0 b) as [j|] eqn:Ej; [apply find_from_Some in Ej as (x1 & d & y1 & -> & _ & _ & ->)|]).
    + exists (a ++ x1), (d :: y1). rewrite Ht', <- app_assoc, byte_len_app. split; [done|lia].
    + apply boundary_len.
    + lia.
    + by apply boundary_le.
Qed.

Lemma wrapped_lines_ok w t : area_ok t → area_ok (wrapped_lines seg w t).
Proof.
  intros [Hca (ps & Hv & Hc)]. unfold wrapped_lines. destruct (match wrap_cache t with Some _ => _ | None => _ end); [|split; eauto].
  split; [|exists ps; split; [by split; apply Hv|done]]. intros c [= <-]. apply sg_wrap.
Qed.

(** ** The editor's keys *)

Lemma input_with_keymap_ok event keymap t : area_ok t → holds (input_with_keymap seg event keymap t).
Proof.
  intros Hok. unfold input_with_keymap, insert_str.
  repeat lazymatch goal with
  | |- holds (if keymap ?a event then _ else _) => destruct (keymap a event); [|]
  end; try by (apply insert_str_at_ok || apply delete_backward_word_ok || apply delete_backward_ok || apply delete_forward_word_ok
    || apply delete_forward_ok || apply kill_to_beginning_of_line_ok || apply kill_current_line_ok || apply kill_to_end_of_line_ok
    || apply yank_ok || apply holds_some, move_left_ok || apply holds_some, move_right_ok || apply move_up_ok || apply move_down_ok
    || apply to_beginning_of_line_ok || apply to_end_of_line_ok).
  - destruct (previous_word_ok t Hok) as (p & -> & _). by apply holds_set_cursor.
  - unfold end_of_next_word. destruct (end_of_word_ok _ t Hok (cursor_boundary t Hok)) as (p & -> & _). by apply holds_set_cursor.
  - destruct (code event); [|by apply holds_some..]. destruct (_ && _); [by apply insert_str_at_ok|by apply holds_some].
Qed.
End keys.
