(* ===== verification/VimLaws.v ===== *)
(** * Every modal key keeps the text area well formed

    The ranges of motions and text objects are ranges of characters, so that operators on them
    succeed; a text area that is well formed stays so under every key. *)

From stdpp Require Import prelude strings list.
From S2P Require Import Prelude RustStr StrSearch ComposerPaste ComposerLaws TextEdit VimEdit TextEditLaws TextKeysLaws.

#[local] Arguments text_of : simpl never.

Definition range_ok (s : list N) (r : nat * nat) : Prop := boundary r.1 s ∧ boundary r.2 s ∧ r.1 ≤ r.2.
Definition ranged (s : list N) (o : option (nat * nat)) : Prop := ∀ r, o = Some r → range_ok s r.

Lemma set_mode_ok m t : area_ok t → area_ok (set_mode m t).
Proof. intros Hok. by apply (same_ok t). Qed.
Lemma set_pending_ok p t : area_ok t → area_ok (set_pending p t).
Proof. intros Hok. by apply (same_ok t). Qed.
Lemma holds_mode m o : holds o → holds (set_mode m <$> o).
Proof. intros (t & -> & Hok). by apply holds_some, set_mode_ok. Qed.

(** ** Text objects *)

Lemma boundary_next pre c s : boundary (byte_len pre + len_utf8 c) (pre ++ c :: s).
Proof. exists (pre ++ [c]), s. rewrite <- app_assoc, byte_len_app. split; [done|simpl; lia]. Qed.

Lemma non_ws_runs_ok pre s start :
  (∀ a, start = Some a → boundary a (pre ++ s) ∧ a ≤ byte_len pre) →
  Forall (range_ok (pre ++ s)) (non_ws_runs (byte_len pre) start s).
Proof.
  revert pre start. induction s as [|c s IH]; intros pre start Hs; simpl.
  - destruct start as [a|]; [|constructor]. destruct (Hs a eq_refl) as [H1 H2]. constructor; [|constructor].
    split_and!; [done| |done]. simpl. by eexists _, _.
  - assert (E : byte_len pre + len_utf8 c = byte_len (pre ++ [c])) by (rewrite byte_len_app; simpl; lia).
    assert (IH' := IH (pre ++ [c])). rewrite <- app_assoc in IH'. simpl in IH'. rewrite <- E in IH'.
    destruct (is_whitespace c).
    + destruct start as [a|]; [|by apply IH']. destruct (Hs a eq_refl) as [H1 H2]. constructor; [|by apply IH'].
      split_and!; [done| |done]. simpl. by eexists _, _.
    + apply IH'. intros a Ha. destruct start as [a'|]; simplify_eq.
      * destruct (Hs a eq_refl). split; [done|lia].
      * split; [by eexists _, _|lia].
Qed.
Lemma runs_ok t : Forall (range_ok (text t)) (non_ws_runs 0 None (text t)).
Proof. by apply (non_ws_runs_ok []). Qed.
Lemma run_at_cursor_ok t r :
  find (at_cursor t) (non_ws_runs 0 None (text t)) = Some r → range_ok (text t) r.
Proof. intros [H _]%find_some. pose proof (runs_ok t) as Hr. rewrite Forall_forall in Hr. by apply Hr, list_elem_of_In. Qed.

Lemma following_ok pre s :
  boundary (following_whitespace (byte_len pre) (byte_len pre) s) (pre ++ s) ∧
  byte_len pre ≤ following_whitespace (byte_len pre) (byte_len pre) s.
Proof.
  revert pre. induction s as [|c s IH]; intros pre; simpl; [split; [by eexists _, _|done]|].
  destruct (is_whitespace c); [|split; [by eexists _, _|done]].
  replace (byte_len pre + len_utf8 c) with (byte_len (pre ++ [c])) by (rewrite byte_len_app; simpl; lia).
  destruct (IH (pre ++ [c])) as [H1 H2]. rewrite <- app_assoc in H1. split; [done|]. rewrite byte_len_app in *. lia.
Qed.
Lemma preceding_ok x :
  boundary (preceding_whitespace (byte_len x) (reverse x)) x ∧ preceding_whitespace (byte_len x) (reverse x) ≤ byte_len x.
Proof.
  induction x as [|c x IH] using rev_ind; [split; [apply boundary_0|simpl; lia]|].
  rewrite reverse_snoc, byte_len_app. simpl. rewrite Nat.add_0_r. destruct (is_whitespace c).
  - rewrite Nat.add_sub. destruct IH as [H1 H2]. split; [by apply boundary_app|lia].
  - split; [|lia]. exists (x ++ [c]), []. rewrite app_nil_r, byte_len_app. simpl. split; [done|lia].
Qed.
Lemma expand_word_ok r t :
  range_ok (text t) r → ∃ r', expand_word_around r t = Some r' ∧ range_ok (text t) r'.
Proof.
  intros (H1 & H2 & H3). unfold expand_word_around, following_whitespace_end, preceding_whitespace_start.
  destruct (split_text _ _ H2) as (a & b & -> & Ht & Ha). cbn [mbind option_bind]. rewrite <- Ha.
  destruct (following_ok a b) as [F1 F2]. destruct (Nat.ltb_spec (byte_len a) (following_whitespace (byte_len a) (byte_len a) b)).
  - eexists. split; [done|]. split_and!; simpl; [done|by rewrite Ht|lia].
  - destruct (split_text _ _ H1) as (a' & b' & -> & Ht' & Ha'). cbn [mbind option_bind]. rewrite <- Ha'.
    destruct (preceding_ok a') as [P1 P2]. eexists. split; [done|]. split_and!; simpl; [|by rewrite Ha|lia].
    rewrite Ht'. by apply boundary_app.
Qed.

Lemma better_ok s c best : ranged s best → (boundary c.1 s ∧ boundary c.2 s) → ranged s (better c best).
Proof.
  intros Hb [H1 H2]. unfold better. destruct (_ && _) eqn:E; [|done]. apply andb_true_iff in E as [E%Nat.leb_le _].
  by intros r [= <-].
Qed.
(** An opening delimiter before [off]. *)
Definition opening (s : list N) (len : nat) (o : nat) : Prop := boundary o s ∧ boundary (o + len) s.
Lemma pair_range_ok s scope o len1 pre c rest best :
  s = pre ++ c :: rest → opening s len1 o → ranged s best →
  ranged s (better (pair_range scope o len1 (byte_len pre) (len_utf8 c)) best).
Proof.
  intros -> [H1 H2] Hb. apply better_ok; [done|]. destruct scope; simpl; (split; [done|]); [by eexists _, _|apply boundary_next].
Qed.

Lemma paired_loop_ok t scope open close pre stack best s :
  text t = pre ++ s → Forall (opening (text t) (len_utf8 open)) stack → ranged (text t) best →
  ranged (text t) (paired_loop t scope open close (byte_len pre) stack best s).
Proof.
  revert pre stack best. induction s as [|c s IH]; intros pre stack best Ht Hst Hb; simpl; [done|].
  assert (E : byte_len pre + len_utf8 c = byte_len (pre ++ [c])) by (rewrite byte_len_app; simpl; lia).
  assert (IH' := IH (pre ++ [c])). rewrite <- app_assoc, <- E in IH'. simpl in IH'.
  destruct (is_inside_element _ _); [by apply IH'|]. case_bool_decide as Eo.
  { apply IH'; [done| |done]. constructor; [|done]. split; rewrite Ht; [by eexists _, _|]. subst. apply boundary_next. }
  case_bool_decide; [|by apply IH']. destruct stack as [|o stack]; [by apply IH'|]. apply Forall_cons in Hst as [Ho Hst].
  destruct (_ && _); [|by apply IH']. apply IH'; [done|done|]. by apply (pair_range_ok _ scope o _ pre c s).
Qed.

Lemma quoted_loop_ok t scope quote pre open best s s' :
  text t = pre ++ s ++ s' → (∀ o, open = Some o → opening (text t) (len_utf8 quote) o) → ranged (text t) best →
  ∃ o, quoted_loop t scope quote (byte_len pre) open best s = Some o ∧ ranged (text t) o.
Proof.
  revert pre open best. induction s as [|c s IH]; intros pre open best Ht Ho Hb; simpl; [by exists best|].
  assert (E : byte_len pre + len_utf8 c = byte_len (pre ++ [c])) by (rewrite byte_len_app; simpl; lia).
  assert (IH' := IH (pre ++ [c])). rewrite <- app_assoc, <- E in IH'. simpl in IH'.
  destruct (_ || _) eqn:Eq; [by apply IH'|]. apply orb_false_iff in Eq as [_ Eq].
  apply negb_false_iff, bool_decide_eq_true in Eq as ->.
  unfold is_escaped. destruct (split_text (byte_len pre) t) as (a & b & -> & _); [rewrite Ht; by eexists _, _|].
  cbn [mbind option_bind]. destruct (_ =? 1); [by apply IH'|]. destruct open as [o|].
  - destruct (_ && _); [|by apply IH']. apply IH'; [done|done|]. apply (pair_range_ok _ scope o _ pre quote (s ++ s')); [done|by apply Ho|done].
  - apply IH'; [done| |done]. intros o [= <-]. split; rewrite Ht; [by eexists _, _|apply boundary_next].
Qed.

Section vim.
Context (seg : Segmentation) `{!SegmentationOk seg} (keymaps : Keymaps).

Lemma piece_at_cursor_ok t rs last pieces (P : nat * nat → Prop) :
  (∀ r, last = Some r → P r) → (∀ i pc, (i, pc) ∈ pieces → P (rs + i, rs + i + byte_len pc)) →
  match piece_at_cursor t rs last pieces with inl r => P r | inr o => ∀ r, o = Some r → P r end.
Proof.
  revert last. induction pieces as [|[i pc] pieces IH]; intros last Hl Hp; simpl; [done|].
  destruct (cursor_overlaps_range _ _); [apply Hp; set_solver|]. apply IH; [|intros; apply Hp; set_solver].
  intros r [= <-]. apply Hp. set_solver.
Qed.
Lemma small_word_ok t : ∃ o, small_word_range_at_cursor seg t = Some o ∧ ranged (text t) o.
Proof.
  unfold small_word_range_at_cursor. destruct (find _ _) as [run|] eqn:E; [|by eexists].
  apply run_at_cursor_ok in E as Hr. destruct Hr as (H1 & H2 & H3).
  destruct (slice_boundary run.1 run.2 (text t) H1 H2 H3) as (x & m & y & -> & Ht & Hx & _). cbn [mbind option_bind].
  eexists. split; [done|].
  assert (Hp : ∀ i pc, (i, pc) ∈ split_word_pieces seg m → range_ok (text t) (run.1 + i, run.1 + i + byte_len pc)).
  { intros i pc Hi. apply piece_bounds in Hi as [B1 B2]; [|done]. rewrite <- Hx, Ht.
    split_and!; simpl; [|rewrite <- Nat.add_assoc|lia]; by apply boundary_shift, boundary_app. }
  pose proof (piece_at_cursor_ok t run.1 None (split_word_pieces seg m) (range_ok (text t)) ltac:(done) Hp) as Hq.
  destruct (piece_at_cursor _ _ _ _) as [r|o]; [by intros ? [= <-]|].
  destruct (cursor_is_at_range_end t run); intros r [= <-]; [|done]. destruct o as [r|]; [by apply Hq|done].
Qed.
Lemma word_object_ok scope big t : ∃ o, word_text_object_range seg scope big t = Some o ∧ ranged (text t) o.
Proof.
  unfold word_text_object_range. assert (∃ o, (if big then Some (big_word_range_at_cursor t) else small_word_range_at_cursor seg t) = Some o ∧
    ranged (text t) o) as (o & -> & Ho).
  { destruct big; [|apply small_word_ok]. eexists. split; [done|]. intros r Hr. by apply run_at_cursor_ok. }
  cbn [mbind option_bind]. destruct o as [inner|]; [|by eexists]. destruct scope; [by eexists|].
  destruct (expand_word_ok inner t (Ho inner eq_refl)) as (r & -> & Hr). eexists. split; [done|]. by intros ? [= <-].
Qed.
Lemma quoted_object_ok scope quote t :
  area_ok t → ∃ o, quoted_text_object_range scope quote t = Some o ∧ ranged (text t) o.
Proof.
  intros Hok. unfold quoted_text_object_range. destruct (bol_ok t Hok) as (b & -> & Hb & Hle & _).
  destruct (eol_ok t Hok) as (e & -> & He & Hle' & _). cbn [mbind option_bind].
  destruct (slice_boundary b e (text t) Hb He ltac:(lia)) as (x & m & y & -> & Ht & <- & _). cbn [mbind option_bind].
  by apply (quoted_loop_ok t scope quote x None None m y).
Qed.
Lemma text_object_ok object scope t :
  area_ok t → ∃ o, text_object_range seg object scope t = Some o ∧ ranged (text t) o.
Proof.
  intros Hok.
  assert (Hp : ∀ a b, ∃ o, Some (paired_text_object_range scope a b t) = Some o ∧ ranged (text t) o).
  { intros a b. eexists. split; [done|]. apply (paired_loop_ok t scope a b []); [done|constructor|done]. }
  destruct object; simpl; [apply word_object_ok|apply word_object_ok|apply Hp|apply Hp|apply Hp|by apply quoted_object_ok..].
Qed.

(** ** Motions *)

Lemma word_end_ok t : area_ok t → ∃ e, vim_word_end_exclusive seg t = Some e ∧ boundary e (text t).
Proof.
  intros Hok. unfold vim_word_end_exclusive, end_of_next_word.
  destruct (end_of_word_ok seg _ t Hok (cursor_boundary t Hok)) as (e & -> & He). cbn [mbind option_bind].
  destruct (_ && _); [by apply end_of_word_ok|by exists e].
Qed.
Lemma word_end_cursor_ok t : area_ok t → ∃ p, vim_word_end_cursor seg t = Some p.
Proof. intros Hok. unfold vim_word_end_cursor. destruct (word_end_ok t Hok) as (e & -> & _). simpl. eauto. Qed.
Lemma line_end_cursor_ok t : area_ok t → ∃ p, vim_line_end_cursor seg t = Some p.
Proof.
  intros Hok. unfold vim_line_end_cursor. destruct (bol_ok t Hok) as (b & -> & _). destruct (eol_ok t Hok) as (e & -> & _). simpl. eauto.
Qed.

Lemma holds_cursor (m : option TextArea) : holds m → ∃ p, (t ← m; Some (cursor_pos t)) = Some p.
Proof. intros (t & -> & _). simpl. eauto. Qed.
(** Moving changes no text. *)
Definition moved (t : TextArea) (m : option TextArea) : Prop := ∃ t', m = Some t' ∧ area_ok t' ∧ text t' = text t.
Lemma moved_set_cursor p t : area_ok t → moved t (Some (set_cursor p t)).
Proof. intros Hok. eexists. split_and!; [done|by apply set_cursor_ok|done]. Qed.

Lemma target_ok motion t :
  area_ok t → motion ≠ Up → motion ≠ Down → ∃ p, target_for_motion seg motion t = Some p ∧ boundary p (text t).
Proof.
  intros Hok Hu Hd. unfold target_for_motion.
  assert (Hgo : ∀ m, moved t m → ∃ p, (t ← m; Some (cursor_pos t)) = Some p ∧ boundary p (text t)).
  { intros m (t' & -> & Hok' & <-). eexists. split; [done|]. by apply cursor_boundary. }
  apply Hgo. clear Hgo. destruct motion; [| |done|done|..].
  - eexists. split_and!; [done|by apply move_left_ok|done].
  - eexists. split_and!; [done|by apply move_right_ok|done].
  - destruct (next_word_ok seg t Hok) as [p ->]. by apply moved_set_cursor.
  - destruct (previous_word_ok seg t Hok) as (p & -> & _). by apply moved_set_cursor.
  - destruct (word_end_ok t Hok) as (p & -> & _). by apply moved_set_cursor.
  - destruct (bol_ok t Hok) as (p & -> & _). by apply moved_set_cursor.
  - destruct (eol_ok t Hok) as (p & -> & _). by apply moved_set_cursor.
Qed.

Lemma linewise_ok up t : area_ok t → ∃ o, linewise_range_for_vertical_motion up t = Some o ∧ ranged (text t) o.
Proof.
  intros Hok. unfold linewise_range_for_vertical_motion. destruct (line_range_ok t Hok) as (r & -> & H1 & H2 & H3 & Hn).
  cbn [mbind option_bind].
  assert (Hfin : ∀ a b, boundary a (text t) → boundary b (text t) →
    ∃ o, Some (if a <? b then Some (a, b) else None) = Some o ∧ ranged (text t) o).
  { intros a b Ha Hb. eexists. split; [done|]. destruct (Nat.ltb_spec a b); intros r' [= <-]. split_and!; [done|done|simpl; lia]. }
  destruct up.
  - destruct (Nat.eqb_spec r.1 0) as [E|E]; cbn [mbind option_bind]; [apply Hfin; [apply boundary_0|done]|].
    assert (Hb : boundary (r.1 - 1) (text t)).
    { destruct Hn as [Hn|(x & y & Ht & Hn)]; [done|]. rewrite Hn, Nat.add_sub. by apply (after_nl x y). }
    destruct (beginning_of_line_ok _ t Hb) as (b & Eb & _). rewrite Eb. cbn [mbind option_bind].
    apply Hfin; [by eapply bol_boundary|done].
  - destruct (_ <=? _); cbn [mbind option_bind]; [by apply Hfin|].
    destruct (end_of_line_ok _ t H2) as (e & -> & He & _ & He'). cbn [mbind option_bind].
    apply Hfin; [done|]. destruct (Nat.ltb_spec e (text_len t)); auto.
Qed.
Lemma motion_range_ok motion t : area_ok t → ∃ o, range_for_motion seg motion t = Some o ∧ ranged (text t) o.
Proof.
  intros Hok.
  assert (Hm : motion ≠ Up → motion ≠ Down → ∃ o, (target ← target_for_motion seg motion t;
      Some (if cursor_pos t =? target then None
            else if target <? cursor_pos t then Some (target, cursor_pos t) else Some (cursor_pos t, target))) = Some o ∧ ranged (text t) o).
  { intros Hu Hd. destruct (target_ok motion t Hok Hu Hd) as (p & -> & Hp). cbn [mbind option_bind]. eexists. split; [done|].
    pose proof (cursor_boundary t Hok). destruct (Nat.eqb_spec (cursor_pos t) p); [done|].
    destruct (Nat.ltb_spec p (cursor_pos t)); intros r [= <-]; split_and!; simpl; (done || lia). }
  destruct motion; try (by apply Hm); by apply linewise_ok.
Qed.

(** ** Keys *)

Lemma apply_operator_ok op motion t : area_ok t → holds (apply_vim_operator seg op motion t).
Proof.
  intros Hok. unfold apply_vim_operator. destruct (motion_range_ok motion t Hok) as (o & -> & Ho). cbn [mbind option_bind].
  destruct o as [r|]; [|by apply holds_some]. destruct (Ho r eq_refl) as (H1 & H2 & H3).
  destruct op; [by apply kill_range_ok|by apply yank_range_ok|by apply holds_some].
Qed.
Lemma apply_operator_to_range_ok op r t : area_ok t → range_ok (text t) r → holds (apply_vim_operator_to_range op r t).
Proof.
  intros Hok (H1 & H2 & H3). destruct op; simpl; [by apply kill_range_ok|by apply yank_range_ok|].
  destruct (kill_range_ok r Characterwise t) as (t' & E & Hok'); [done..|]. unfold kill_range. rewrite E.
  by apply holds_some, set_mode_ok.
Qed.
Lemma vim_operator_ok op event t : area_ok t → holds (handle_vim_operator seg keymaps op event t).
Proof.
  intros Hok. unfold handle_vim_operator. destruct (_ && _); [by apply kill_current_line_ok|].
  destruct (_ && _); [by apply yank_current_line_ok|]. destruct (vim_operator_keymap _ _ _); [by apply holds_some|].
  destruct (vim_text_object_scope_for_event _ _); [by apply holds_some, set_pending_ok|].
  destruct (if bool_decide _ then _ else _); [by apply apply_operator_ok|by apply holds_some].
Qed.
Lemma vim_text_object_ok op scope event t : area_ok t → holds (handle_vim_text_object seg keymaps op scope event t).
Proof.
  intros Hok. unfold handle_vim_text_object. destruct (vim_text_object_keymap _ _ _); [by apply holds_some|].
  destruct (vim_text_object_for_event _ _) as [object|]; [|by apply holds_some].
  destruct (text_object_ok object scope t Hok) as (o & -> & Ho). cbn [mbind option_bind].
  destruct o as [r|]; [by apply apply_operator_to_range_ok, Ho|by apply holds_some].
Qed.

Lemma open_line_below_ok t : area_ok t → holds (open_line_below t).
Proof.
  intros Hok. unfold open_line_below. destruct (eol_ok t Hok) as (e & -> & _). cbn [mbind option_bind].
  destruct (insert_str_at_ok (if e <? text_len t then e + 1 else e) [nl] t Hok) as (t' & -> & Hok').
  by apply holds_some, set_mode_ok, set_cursor_ok.
Qed.
Lemma open_line_above_ok t : area_ok t → holds (open_line_above t).
Proof.
  intros Hok. unfold open_line_above. destruct (bol_ok t Hok) as (e & -> & _). cbn [mbind option_bind].
  destruct (insert_str_at_ok e [nl] t Hok) as (t' & -> & Hok'). by apply holds_some, set_mode_ok, set_cursor_ok.
Qed.
Lemma substitute_char_ok t : area_ok t → holds (substitute_char seg t).
Proof.
  intros Hok. unfold substitute_char. destruct (eol_ok t Hok) as (e & -> & _). cbn [mbind option_bind].
  destruct (_ <? _); [|by apply holds_some, set_mode_ok].
  destruct (delete_forward_kill_ok seg 1 t Hok) as (t' & -> & Hok'). by apply holds_some, set_mode_ok.
Qed.
Lemma go_to_ok o t : (∃ p, o = Some p) → area_ok t → holds (go_to o t).
Proof. intros [p ->] Hok. by apply holds_set_cursor. Qed.

Lemma vim_normal_ok event t : area_ok t → holds (handle_vim_normal seg keymaps event t).
Proof.
  intros Hok0. unfold handle_vim_normal. set (t1 := set_pending NoPending t).
  assert (Hok : area_ok t1) by by apply set_pending_ok. clearbody t1. clear Hok0.
  assert (Hbol : ∃ p, beginning_of_current_line t1 = Some p) by (destruct (bol_ok t1 Hok) as (p & ? & _); eauto).
  assert (Heol : ∃ p, end_of_current_line t1 = Some p) by (destruct (eol_ok t1 Hok) as (p & ? & _); eauto).
  destruct (vim_pending t); [|by apply vim_operator_ok|by apply vim_text_object_ok].
  repeat lazymatch goal with
  | |- holds (if vim_normal_keymap keymaps ?a event then _ else _) => destruct (vim_normal_keymap keymaps a event); [|]
  end; eauto using holds_some, set_mode_ok, set_pending_ok, set_cursor_ok, holds_mode, go_to_ok, open_line_below_ok,
    open_line_above_ok, move_left_ok, move_right_ok, move_up_ok, move_down_ok, next_word_ok, word_end_cursor_ok,
    line_end_cursor_ok, delete_forward_kill_ok, substitute_char_ok, vim_kill_to_end_of_line_ok, yank_current_line_ok,
    paste_after_cursor_ok.
  - apply holds_mode, go_to_ok; [|done]. unfold first_non_blank_of_current_line.
    destruct (bol_ok t1 Hok) as (b & -> & Hb & Hle & _). destruct (eol_ok t1 Hok) as (e & -> & He & Hle' & _). cbn [mbind option_bind].
    destruct (slice_boundary b e (text t1) Hb He ltac:(lia)) as (_ & m & _ & -> & _). simpl. eauto.
  - apply go_to_ok; [|done]. destruct (previous_word_ok seg t1 Hok) as (p & ? & _). eauto.
Qed.

Lemma vim_insert_ok event t : area_ok t → holds (handle_vim_insert seg keymaps event t).
Proof.
  intros Hok. unfold handle_vim_insert. destruct (code event) eqn:Ec; [by apply input_with_keymap_ok| |by apply input_with_keymap_ok].
  destruct (bol_ok t Hok) as (b & Eb & Hb & Hle & _). rewrite Eb. cbn [mbind option_bind]. apply holds_some.
  assert (Hn : ∀ t, area_ok t → area_ok (enter_vim_normal_mode t)).
  { intros t' Hok'. unfold enter_vim_normal_mode. destruct (vim_enabled t'); [|done]. by apply (same_ok t'). }
  apply Hn. destruct (_ <? _); [|done]. apply (same_ok t); [done|done|]. intros ps Hv Hc. simpl.
  destruct (Nat.max_spec (prev_atomic_boundary seg (cursor_pos t) t) b) as [[_ ->]|[_ ->]].
  - eapply bol_cut; [done| |done]. by eapply cut_text.
  - apply prev_atomic_ok; [done|done|by eapply cut_text].
Qed.

Lemma input_ok event t : area_ok t → holds (input seg keymaps event t).
Proof.
  intros Hok. unfold input, handle_vim_input. destruct (negb _); [by apply holds_some|].
  destruct (vim_enabled t); [|by apply input_with_keymap_ok].
  destruct (vim_mode t); [by apply vim_normal_ok|by apply vim_insert_ok].
Qed.
End vim.
