(* ===== verification/TextRefine.v ===== *)
(** * The text area implements the composer's view of it

    The composer sees the text as the pieces before and after the cursor.  The operations it calls
    do to the byte offsets of the text area what they say about the pieces; what is killed can be
    put back; and no sequence of operations leads to a panic. *)

From stdpp Require Import prelude strings list sorting.
From S2P Require Import Prelude RustStr StrSearch PasteBurst ComposerPaste ComposerLaws TextEdit VimEdit TextEditLaws TextElements TextKeysLaws VimLaws.

#[local] Arguments text_of : simpl never.

(** ** The composer's operations *)

Record represents (t : TextArea) (A : ComposerPaste.TextArea) : Prop := {
  rp_view : view t (before A ++ after A);
  rp_cursor : cursor_pos t = tlen (before A);
  rp_cache : cache_ok t;
  rp_mode : allows_paste_burst t = insert_mode A }.

Lemma represents_ok t A : represents t A → area_ok t.
Proof. intros [Hv Hc Hca _]. split; [done|]. eexists. split; [done|]. rewrite Hc. apply cut_at. Qed.

Lemma insert_str_refines t A s :
  represents t A → ∃ t', insert_str s t = Some t' ∧ represents t' (area_insert_str s A).
Proof.
  intros [Hv Hc Hca Hm]. unfold insert_str. rewrite Hc.
  destruct (insert_at_cut t (before A) (after A) s Hv) as (t' & -> & Hv' & Hw & Hc' & _ & Hvim & _). exists t'. split; [done|].
  split; simpl.
  - by rewrite <- app_assoc.
  - by rewrite Hc', Hc, Nat.leb_refl, tlen_app, text_plain.
  - by apply cache_none.
  - rewrite <- Hm. unfold allows_paste_burst. by injection Hvim as -> -> _.
Qed.
Lemma insert_element_refines t A s :
  represents t A → good (Element s) →
  ∃ id t', insert_element s t = Some (id, t') ∧ represents t' (area_insert_element s A).
Proof.
  intros [Hv Hc Hca Hm] Hs. destruct (insert_element_cut t (before A) (after A) s Hv Hc Hs) as (id & t' & E & Hv' & Hc' & Hw & Hvim).
  exists id, t'. split; [done|]. split; simpl.
  - by rewrite <- app_assoc.
  - by rewrite Hc', tlen_app, text_single.
  - by apply cache_none.
  - rewrite <- Hm. unfold allows_paste_burst. by injection Hvim as -> ->.
Qed.

(** What is kept before a place: the pieces that end there or earlier. *)
Lemma keep_before_spec start ps :
  ∃ x y, ps = x ++ y ∧ keep_before start ps = x ∧ tlen x ≤ start ∧
    (∀ p y', y = p :: y' → start < tlen x + byte_len (piece_text p)).
Proof.
  revert start. induction ps as [|p ps IH]; intros start; [exists [], []; split_and!; [done|done|simpl; lia|done]|].
  cbn [keep_before]. destruct (Nat.leb_spec (byte_len (piece_text p)) start).
  - destruct (IH (start - byte_len (piece_text p))) as (x & y & -> & -> & Hle & Hy). exists (p :: x), y.
    rewrite text_cons, byte_len_app. split_and!; [done|done|lia|]. intros q y' Hq. specialize (Hy q y' Hq). lia.
  - exists [], (p :: ps). split_and!; [done|done|simpl; lia|]. intros q y' [= <- <-]. simpl. lia.
Qed.

(** Widening stays inside any range that cuts no element. *)
Definition within (r R : nat * nat) : Prop := R.1 ≤ r.1 ∧ r.2 ≤ R.2.
Lemma expand_fold_within els r ch R :
  stable els R → within r R → within (fst (foldl expand_one (r, ch) els)) R.
Proof.
  revert r ch. induction els as [|e els IH]; intros r ch Hs Hw; [done|]. cbn [foldl].
  assert (He : within (fst (expand_one (r, ch) e)) R).
  { simpl. destruct ((_ <? _) && _) eqn:E; [|done]. apply andb_true_iff in E as [E1%Nat.ltb_lt E2%Nat.ltb_lt].
    case_bool_decide; [done|]. destruct Hw as [W1 W2], (Hs e) as [S1 S2]; [set_solver|lia|lia|]. split; simpl; lia. }
  destruct (expand_one (r, ch) e) as [r1 ch1]. apply IH; [|done]. intros e' He'. apply Hs. set_solver.
Qed.
Lemma expand_loop_within n els r R : stable els R → within r R → within (expand_loop n els r) R.
Proof.
  intros Hs. revert r. induction n as [|n IH]; intros r Hw; cbn [expand_loop]; unfold expand_round;
    pose proof (expand_fold_within els r false R Hs Hw) as Hr; destruct (foldl _ _ _) as [r' []]; simpl in Hr; auto.
Qed.
Lemma cuts_stable t ps a b : view t ps → cut ps a → cut ps b → stable (elements t) (a, b).
Proof.
  intros Hv Ha Hb e He Hs Ht. assert (Hn : ∀ p, cut ps p → ¬ (el_start e < p < el_end e)).
  { intros p Hp Hin. apply (containing_cut t ps p Hv), (find_None_elem _ _ e) in Hp; [|done].
    rewrite andb_false_iff, !Nat.ltb_ge in Hp. lia. }
  pose proof (Hn _ Ha). pose proof (Hn _ Hb). simpl in *. lia.
Qed.
Lemma cut_gap x p y c : cut (x ++ p :: y) c → c ≤ tlen x ∨ tlen x + byte_len (piece_text p) ≤ c.
Proof.
  intros [Hc|(q & -> & Hq)]%cut_app_inv; [left; by apply cut_le|].
  destruct Hq as ([|p' z] & w & E & <-); [left; simpl; lia|]. injection E as -> _. right. rewrite text_cons, byte_len_app. lia.
Qed.

(** Removing from [start], inside [y] at most, up to the end of [y]. *)
Lemma expand_back t x y z start :
  view t (x ++ y ++ z) → boundary start (text t) → tlen x ≤ start ≤ tlen x + tlen y →
  (∀ p y', y = p :: y' → start < tlen x + byte_len (piece_text p)) →
  expand_range_to_element_boundaries (start, tlen x + tlen y) t = (tlen x, tlen x + tlen y).
Proof.
  intros Hv Hb [Hx Hle] Hy. assert (Cx : cut (x ++ y ++ z) (tlen x)) by apply cut_at.
  assert (Cy : cut (x ++ y ++ z) (tlen x + tlen y)) by (rewrite app_assoc, <- tlen_app; apply cut_at).
  destruct (expand_cut t _ (start, tlen x + tlen y) Hv) as (C1 & C2 & L1 & L2); simpl; [done|by eapply cut_text|done|].
  destruct (expand_loop_within (start + text_len t) (elements t) (start, tlen x + tlen y) (tlen x, tlen x + tlen y)) as [W1 W2];
    [by eapply cuts_stable|by split; simpl|].
  unfold expand_range_to_element_boundaries in *. destruct (expand_loop _ _ _) as [a b]. simpl in *.
  assert (b = tlen x + tlen y) as -> by lia. f_equal. destruct y as [|p y]; [change (tlen []) with 0 in *; lia|].
  specialize (Hy p y eq_refl). apply cut_gap in C1. lia.
Qed.

Lemma remove_before_cursor_refines t A start :
  represents t A → boundary start (text t) → start ≤ cursor_pos t →
  ∃ t', replace_range (start, cursor_pos t) [] t = Some t' ∧ represents t' (remove_before_cursor start A).
Proof.
  intros [Hv Hc Hca Hm] Hb Hle. destruct (keep_before_spec start (before A)) as (x & y & Ebef & Ek & Hx & Hy).
  assert (Hcur : cursor_pos t = tlen x + tlen y) by by rewrite Hc, Ebef, tlen_app.
  rewrite Ebef, <- app_assoc in Hv. unfold replace_range. rewrite Hcur, (expand_back t x y (after A) start) by (done || lia).
  assert (Cy : cut (x ++ y ++ after A) (cursor_pos t)) by (rewrite Hcur, app_assoc, <- tlen_app; apply cut_at).
  destruct (replace_cut t x y (after A) [] Hv Cy Hca) as (t' & -> & Hv' & Hca' & _ & Hcur' & _ & Hvim).
  exists t'. split; [done|]. split; simpl; rewrite ?Ek.
  - exact Hv'.
  - rewrite Hcur'. unfold moved_cursor. simpl. repeat case_match; rewrite ?Nat.ltb_lt, ?Nat.leb_gt in *; lia.
  - done.
  - rewrite <- Hm. unfold allows_paste_burst. by injection Hvim as -> -> _.
Qed.

(** The leading exclamation mark is taken out ([sync_bash_mode_from_text]). *)
Lemma remove_first_byte_refines t A ps :
  represents t A → before A ++ after A = Plain 33%N :: ps →
  ∃ t', replace_range (0, 1) [] t = Some t' ∧ represents t' (remove_first_byte A).
Proof.
  intros [Hv Hc Hca Hm] E. rewrite E in Hv. unfold replace_range.
  assert (C0 : cut ([] ++ [Plain 33%N] ++ ps) 1) by (by exists [Plain 33%N], ps).
  rewrite (expand_id t (Plain 33%N :: ps)) by (done || apply cut_0).
  assert (Hcur : cut ([] ++ [Plain 33%N] ++ ps) (cursor_pos t)) by (simpl; rewrite <- E, Hc; apply cut_at).
  destruct (replace_cut t [] [Plain 33%N] ps [] Hv Hcur Hca) as (t' & Er & Hv' & Hca' & _ & Hcur' & _ & Hvim).
  exists t'. split; [exact Er|]. unfold remove_first_byte.
  assert (Hmode : allows_paste_burst t' = insert_mode A) by (rewrite <- Hm; unfold allows_paste_burst; by injection Hvim as -> -> _).
  destruct (before A) as [|p b] eqn:Eb; simpl in E.
  - rewrite bool_decide_true by done. rewrite E. simpl. split; simpl; [exact Hv'| |done|done]. rewrite Hcur', Hc. done.
  - injection E as -> <-. rewrite bool_decide_false by done. simpl. split; simpl; [exact Hv'| |done|done].
    rewrite Hcur', Hc, text_cons, byte_len_app. unfold moved_cursor. simpl.
    change (tlen [Plain 33%N]) with 1. change (len_utf8 33%N) with 1. destruct (tlen b); simpl; lia.
Qed.

Lemma payloads_refine t A :
  represents t A → element_payloads t = elements_of (before A ++ after A).
Proof.
  intros [Hv _ _ _]. generalize (before A ++ after A) Hv. clear. intros ps [Ht He _]. unfold element_payloads.
  assert (Ho : omap (λ e, slice (el_start e) (el_end e) (text t)) (elements t) =
    omap (λ r : nat * nat, slice r.1 r.2 (text t)) (ranges (elements t))).
  { clear. unfold ranges. generalize (text t). intros s. induction (elements t) as [|e l IH]; [done|].
    cbn. destruct (slice _ _ _); [f_equal|]; apply IH. }
  rewrite Ho, He, Ht. clear.
  assert (Hg : ∀ pre, omap (λ r : nat * nat, slice r.1 r.2 (text_of (pre ++ ps))) (spans (tlen pre) ps) = elements_of ps); [|apply (Hg [])].
  induction ps as [|p ps IH]; intros pre; [done|]. rewrite (elements_app [p] ps : elements_of (p :: ps) = _).
  cbn [spans]. rewrite omap_app. specialize (IH (pre ++ [p])).
  rewrite <- app_assoc, tlen_app, text_single in IH. simpl in IH. rewrite IH. f_equal. destruct p as [c|s]; [done|]. simpl.
  unfold slice. rewrite (proj2 (split_at_Some (tlen pre + byte_len s) _ (text_of pre ++ s) (text_of ps)))
    by (by rewrite text_app, text_cons, byte_len_app, app_assoc). simpl.
  by rewrite (proj2 (split_at_Some (tlen pre) (text_of pre ++ s) (text_of pre) s)).
Qed.

(** A plain character that the key map does not bind. *)
Definition plain_key (c : N) : KeyEvent := TextEdit.mkKey (TextEdit.KChar c) 0 true.

Lemma input_plain_char seg keymaps t A c :
  represents t A → insert_mode A = true → (∀ a, editor_keymap keymaps a (plain_key c) = false) →
  is_control c = false → input seg keymaps (plain_key c) t = insert_str [c] t.
Proof.
  intros [_ _ _ Hm] Hi Hk Hc. rewrite Hi in Hm.
  assert (Hkey : input_with_keymap seg (plain_key c) (editor_keymap keymaps) t = insert_str [c] t).
  { unfold input_with_keymap. rewrite !Hk. simpl.
    unfold is_control in Hc. apply orb_false_iff in Hc as [H1 H2]. rewrite H1. simpl.
    destruct (N.eqb_spec c 127); [subst; by vm_compute in H2|done]. }
  unfold input, handle_vim_input. simpl. unfold allows_paste_burst in Hm. destruct (vim_enabled t); [|done].
  simpl in Hm. apply bool_decide_eq_true in Hm as ->. done.
Qed.

Lemma represents_cut t ps m :
  view t ps → cut ps (cursor_pos t) → cache_ok t → allows_paste_burst t = m →
  ∃ x y, ps = x ++ y ∧ represents t (mkArea x y m).
Proof. intros Hv (x & y & -> & Hc) Hca Hm. exists x, y. by split. Qed.
Lemma set_cursor_refines t A pos :
  represents t A →
  ∃ x y, before A ++ after A = x ++ y ∧ represents (set_cursor pos t) (mkArea x y (insert_mode A)).
Proof.
  intros [Hv Hc Hca Hm]. apply represents_cut; [by apply (same_view t)|by apply set_cursor_cut|exact Hca|exact Hm].
Qed.
Lemma replace_range_refines t A x y z s :
  represents t A → before A ++ after A = x ++ y ++ z →
  ∃ t' b a, replace_range (tlen x, tlen x + tlen y) s t = Some t' ∧ b ++ a = x ++ (Plain <$> s) ++ z ∧
    represents t' (mkArea b a (insert_mode A)).
Proof.
  intros [Hv Hc Hca Hm] E.
  assert (cut (before A ++ after A) (cursor_pos t)) as Hcut by (rewrite Hc; apply cut_at). rewrite E in Hv, Hcut.
  unfold replace_range. rewrite (expand_id t (x ++ y ++ z)); [|done|apply cut_at|].
  2: { simpl. rewrite <- tlen_app, app_assoc. apply cut_at. }
  destruct (replace_cut t x y z s Hv Hcut Hca) as (t' & -> & Hv' & Hca' & Hcut' & _ & _ & Hvim).
  destruct (represents_cut t' _ (insert_mode A) Hv' Hcut' Hca') as (b & a & E' & Hr).
  { rewrite <- Hm. unfold allows_paste_burst. by injection Hvim as -> -> _. }
  exists t', b, a. by rewrite E'.
Qed.

(** C30. The text area, with its byte offsets, implements the pieces in which ComposerPaste sees it.
    In a text area that represents pieces before and after the cursor ([represents]) the text and
    the payloads are those of the pieces, and these operations do not panic and do to the pieces
    what ComposerPaste says: inserting text, inserting a placeholder (not empty, no newline),
    removing what stands between a character boundary and the cursor, removing a leading
    exclamation mark, and pressing a key with a character that is no control character and that no
    key map binds, in insert mode.  Besides, setting the cursor to any place changes no piece, and
    replacing whole pieces by text puts the text in their place.  Other keys, ranges that cut into
    an element, and the operations on whole texts and on element ranges are not covered here. *)
Theorem textarea_implements_pieces seg keymaps t A :
  represents t A →
  text t = area_text A ∧
  element_payloads t = elements_of (before A ++ after A) ∧
  (∀ s, ∃ t', insert_str s t = Some t' ∧ represents t' (area_insert_str s A)) ∧
  (∀ s, good (Element s) → ∃ id t', insert_element s t = Some (id, t') ∧ represents t' (area_insert_element s A)) ∧
  (∀ start, boundary start (text t) → start ≤ cursor_pos t →
    ∃ t', replace_range (start, cursor_pos t) [] t = Some t' ∧ represents t' (remove_before_cursor start A)) ∧
  (∀ ps, before A ++ after A = Plain 33%N :: ps →
    ∃ t', replace_range (0, 1) [] t = Some t' ∧ represents t' (remove_first_byte A)) ∧
  (∀ c, insert_mode A = true → (∀ a, editor_keymap keymaps a (plain_key c) = false) → is_control c = false →
    ∃ t', input seg keymaps (plain_key c) t = Some t' ∧ represents t' (area_insert_str [c] A)) ∧
  (∀ pos, ∃ x y, before A ++ after A = x ++ y ∧ represents (set_cursor pos t) (mkArea x y (insert_mode A))) ∧
  (∀ x y z s, before A ++ after A = x ++ y ++ z →
    ∃ t' b a, replace_range (tlen x, tlen x + tlen y) s t = Some t' ∧ b ++ a = x ++ (Plain <$> s) ++ z ∧
      represents t' (mkArea b a (insert_mode A))).
Proof.
  intros Hr. split_and!.
  - by apply Hr.
  - by apply payloads_refine.
  - intros s. by apply insert_str_refines.
  - intros s. by apply insert_element_refines.
  - intros start. by apply remove_before_cursor_refines.
  - intros ps. by apply remove_first_byte_refines.
  - intros c Hi Hk Hc. rewrite (input_plain_char seg keymaps t A) by done. by apply insert_str_refines.
  - intros pos. by apply set_cursor_refines.
  - intros x y z s. by apply replace_range_refines.
Qed.

(** ** Killing and yanking *)

Lemma kill_yank r k t t1 :
  area_ok t → range_ok (text t) r → r.1 ≤ cursor_pos t ≤ r.2 →
  kill_range_with_kind r k t = Some t1 → text t1 ≠ text t →
  ∃ t2, yank t1 = Some t2 ∧ text t2 = text t.
Proof.
  intros [Hca (ps & Hv & Hc)] (H1 & H2 & H3) Hcur. destruct (expand_cut t ps r Hv H1 H2 H3) as (C1 & C2 & L1 & L2).
  unfold kill_range_with_kind. destruct (expand_range_to_element_boundaries r t) as [a b]. simpl in *.
  destruct (Nat.leb_spec b a); [by intros [= <-]|].
  destruct (cuts_between ps a b C1 C2 ltac:(lia)) as (x & y & z & -> & <- & <-).
  assert (Es : slice (tlen x) (tlen x + tlen y) (text t) = Some (text_of y)).
  { unfold slice. rewrite (v_text _ _ Hv).
    rewrite (proj2 (split_at_Some (tlen x + tlen y) _ (text_of (x ++ y)) (text_of z)))
      by (by rewrite !text_app, app_assoc, byte_len_app). simpl.
    by rewrite (proj2 (split_at_Some (tlen x) _ (text_of x) (text_of y))) by (by rewrite text_app). }
  rewrite Es. simpl. case_bool_decide as Ey; [by intros [= <-]|].
  destruct (replace_cut (store_kill_buffer (text_of y) k t) x y z []) as (t' & -> & Hv' & _ & _ & Hc' & Hk & _);
    [by apply (same_view t)|done|done|]. intros [= <-] _. simpl in *. injection Hk as Hkb _.
  assert (Hpos : cursor_pos t' = tlen x).
  { rewrite Hc'. unfold moved_cursor. repeat case_match; rewrite ?Nat.ltb_lt, ?Nat.leb_gt in *; lia. }
  unfold yank. rewrite Hkb, bool_decide_false by done. unfold insert_str. rewrite Hpos.
  destruct (insert_at_cut t' x z (text_of y) Hv') as (t2 & -> & Hv2 & _). exists t2. split; [done|].
  by rewrite (v_text _ _ Hv2), (v_text _ _ Hv), !text_app, text_plain.
Qed.

Inductive KillCommand :=
| KillWordBack | KillWordOn | KillLineTail | KillLineHead | KillLine | KillLineTailVim | KillForward (n : nat).
Definition kill_command (seg : Segmentation) (k : KillCommand) : TextArea → option TextArea :=
  match k with
  | KillWordBack => delete_backward_word seg
  | KillWordOn => delete_forward_word seg
  | KillLineTail => kill_to_end_of_line
  | KillLineHead => kill_to_beginning_of_line
  | KillLine => kill_current_line
  | KillLineTailVim => vim_kill_to_end_of_line
  | KillForward n => delete_forward_kill seg n
  end.

(** C37. In a well-formed text area ([area_ok], which every reachable one is) a yank after a kill
    command that has removed something gives back the text as it was before.  Only the text comes
    back: an element that was killed comes back as plain characters.  The kill commands are the
    kill of a word back or on, of the line up to or from the cursor, of the whole line, of the rest
    of the line in modal editing, and the killing deletion of characters; the modal operators with
    a motion or a text object are not among them.  On the segmentation see [SegmentationOk]. *)
Theorem yank_restores_kill seg `{!SegmentationOk seg} k t t1 :
  area_ok t → kill_command seg k t = Some t1 → text t1 ≠ text t →
  ∃ t2, yank t1 = Some t2 ∧ text t2 = text t.
Proof.
  intros Hok. pose proof (cursor_boundary t Hok) as Hcur. destruct k; simpl.
  - unfold delete_backward_word. destruct (previous_word_ok seg t Hok) as (p & -> & Hp & Hle). cbn [mbind option_bind].
    apply kill_yank; [done|by split_and!|simpl; lia].
  - unfold delete_forward_word, end_of_next_word. destruct (end_of_word_ok seg _ t Hok Hcur) as (p & -> & Hp). cbn [mbind option_bind].
    destruct (Nat.ltb_spec (cursor_pos t) p); [|by intros [= <-]].
    apply kill_yank; [done|split_and!; simpl; (done || lia)|simpl; lia].
  - unfold kill_to_end_of_line. destruct (eol_ok t Hok) as (e & -> & He & Hle & He'). cbn [mbind option_bind].
    destruct (Nat.eqb_spec (cursor_pos t) e); [destruct (Nat.ltb_spec e (text_len t)); [|by intros [= <-]]|];
      (apply kill_yank; [done|split_and!; simpl; auto; lia|simpl; lia]).
  - unfold kill_to_beginning_of_line. destruct (bol_ok t Hok) as (b & -> & Hb & Hle & Hn). cbn [mbind option_bind].
    destruct (Nat.eqb_spec (cursor_pos t) b); [destruct (Nat.ltb_spec 0 b); [|by intros [= <-]]|];
      (apply kill_yank; [done|split_and!; simpl; auto; try lia|simpl; lia]).
    destruct Hn as [->|(x & y & Ht & ->)]; [lia|]. rewrite Nat.add_sub. by apply (after_nl x y).
  - unfold kill_current_line, current_line_range_with_newline. destruct (bol_ok t Hok) as (b & -> & Hb & Hle & _).
    destruct (eol_ok t Hok) as (e & -> & He & Hle' & He'). cbn [mbind option_bind].
    apply kill_yank; [done|..]; simpl; destruct (Nat.ltb_spec e (text_len t)); (lia || split_and!; simpl; auto; lia).
  - unfold vim_kill_to_end_of_line. destruct (eol_ok t Hok) as (e & -> & He & Hle & He'). cbn [mbind option_bind].
    destruct (Nat.ltb_spec (cursor_pos t) e); [|by intros [= <-]].
    apply kill_yank; [done|split_and!; simpl; auto; lia|simpl; lia].
  - unfold delete_forward_kill. destruct (_ || _); [by intros [= <-]|].
    pose proof Hok as [_ (ps & Hv & Hc)]. destruct (steps_on_ok seg n _ t ps Hv Hc) as [Hs Hle].
    apply kill_yank; [done|split_and!; simpl; [done|by eapply cut_text|done]|simpl; lia].
Qed.

(** ** All operations *)

(** The public operations of a text area that change it. *)
Inductive area_op :=
| PressKey (keymaps : Keymaps) (event : KeyEvent)
| PressKeyWith (keymap : EditorKeymap) (event : KeyEvent)
| TypeText (s : list N)
| TypeTextAt (pos : nat) (s : list N)
| AddPlaceholder (s : list N)
| RenamePlaceholder (old new : list N)
| AddElementRange (r : nat * nat)
| RemoveElementRange (r : nat * nat)
| Replace (r : nat * nat) (s : list N)
| DeleteBackward (n : nat)
| DeleteForward (n : nat)
| Kill (k : KillCommand)
| Yank
| MoveTo (pos : nat)
| MoveLeft
| MoveRight
| MoveUp
| MoveDown
| MoveToLineStart (move_up_at_bol : bool)
| MoveToLineEnd (move_down_at_eol : bool)
| ReplaceAll (s : list N)
| ReplaceAllWith (s : list N) (els : list (nat * nat))
| SwitchVim (enabled : bool)
| EnterInsert
| EnterNormal
| Wrap (width : N).

(** What a caller has to see to. *)
Definition op_ok (t : TextArea) (op : area_op) : Prop :=
  match op with
  | AddPlaceholder s | RenamePlaceholder _ s => s ≠ [] ∧ nl ∉ s
  | AddElementRange r =>
      let c := clamp_range t r in no_newline (text t) c ∧ ¬ (c.1 < cursor_pos t < c.2)
  | Replace r s => range_ok (text t) r
  | ReplaceAllWith s els => elements_fit s els
  | _ => True
  end.
Definition perform (seg : Segmentation) (op : area_op) (t : TextArea) : option TextArea :=
  match op with
  | PressKey keymaps event => input seg keymaps event t
  | PressKeyWith keymap event => input_with_keymap seg event keymap t
  | TypeText s => insert_str s t
  | TypeTextAt pos s => insert_str_at pos s t
  | AddPlaceholder s => snd <$> insert_element s t
  | RenamePlaceholder old new => snd <$> replace_element_payload old new t
  | AddElementRange r => Some (snd (add_element_range r t))
  | RemoveElementRange r => Some (snd (remove_element_range r t))
  | Replace r s => replace_range r s t
  | DeleteBackward n => delete_backward seg n t
  | DeleteForward n => delete_forward seg n t
  | Kill k => kill_command seg k t
  | Yank => yank t
  | MoveTo pos => Some (set_cursor pos t)
  | MoveLeft => Some (move_cursor_left seg t)
  | MoveRight => Some (move_cursor_right seg t)
  | MoveUp => move_cursor_up seg t
  | MoveDown => move_cursor_down seg t
  | MoveToLineStart up => move_cursor_to_beginning_of_line up t
  | MoveToLineEnd dn => move_cursor_to_end_of_line dn t
  | ReplaceAll s => Some (set_text_clearing_elements s t)
  | ReplaceAllWith s els => Some (set_text_with_elements s els t)
  | SwitchVim enabled => Some (set_vim_enabled enabled t)
  | EnterInsert => Some (enter_vim_insert_mode t)
  | EnterNormal => Some (enter_vim_normal_mode t)
  | Wrap width => Some (wrapped_lines seg width t)
  end.
Inductive reachable (seg : Segmentation) : TextArea → Prop :=
| reachable_new : reachable seg new
| reachable_step t op t' :
    reachable seg t → op_ok t op → perform seg op t = Some t' → reachable seg t'.

Lemma set_text_ok s t : area_ok (set_text_clearing_elements s t).
Proof.
  split; [by apply cache_none|]. exists (Plain <$> s).
  assert (Hv : view (set_text_clearing_elements s t) (Plain <$> s)).
  { split; simpl; [by rewrite text_plain|by rewrite spans_plain|apply Forall_fmap, Forall_true; done]. }
  split; [done|]. apply clamp_nearest_cut. by apply (same_view (set_text_clearing_elements s t)).
Qed.
Lemma insert_element_ok s t : area_ok t → good (Element s) → holds (snd <$> insert_element s t).
Proof.
  intros [_ (ps & Hv & (x & y & -> & Hc))] Hs. symmetry in Hc.
  destruct (insert_element_cut t x y s Hv Hc Hs) as (id & t' & -> & Hv' & Hc' & Hw & _). apply holds_some.
  split; [by apply cache_none|]. eexists. split; [done|]. cbn [snd]. rewrite Hc'. exists (x ++ [Element s]), y.
  by rewrite <- app_assoc, tlen_app, text_single.
Qed.
Lemma kill_command_ok seg `{!SegmentationOk seg} k t : area_ok t → holds (kill_command seg k t).
Proof.
  intros Hok. destruct k as [| | | | | |n]; simpl.
  - by apply delete_backward_word_ok.
  - by apply delete_forward_word_ok.
  - by apply kill_to_end_of_line_ok.
  - by apply kill_to_beginning_of_line_ok.
  - by apply kill_current_line_ok.
  - by apply vim_kill_to_end_of_line_ok.
  - by apply delete_forward_kill_ok.
Qed.
Lemma enter_modes_ok t : area_ok t → area_ok (enter_vim_insert_mode t) ∧ area_ok (enter_vim_normal_mode t).
Proof.
  intros Hok. unfold enter_vim_insert_mode, enter_vim_normal_mode. destruct (vim_enabled t); [|done].
  split; by apply (same_ok t).
Qed.
Lemma perform_ok seg `{!SegmentationOk seg} op t : area_ok t → op_ok t op → holds (perform seg op t).
Proof.
  intros Hok Hop.
  destruct op as [km event|km event|s|pos s|s|old s|r|r|r s|n|n|k| |pos| | | | |up|dn|s|s els|b| | |w]; simpl in *.
  - by apply input_ok.
  - by apply input_with_keymap_ok.
  - by apply insert_str_at_ok.
  - by apply insert_str_at_ok.
  - by apply insert_element_ok.
  - destruct (replace_element_payload_ok old s t Hok Hop) as (b & t' & -> & Hok'). by apply holds_some.
  - destruct Hop. by apply holds_some, add_element_range_ok.
  - by apply holds_some, remove_element_range_ok.
  - destruct Hop as (H1 & H2 & H3). by apply replace_range_ok.
  - by apply delete_backward_ok.
  - by apply delete_forward_ok.
  - by apply kill_command_ok.
  - by apply yank_ok.
  - by apply holds_set_cursor.
  - by apply holds_some, move_left_ok.
  - by apply holds_some, move_right_ok.
  - by apply move_up_ok.
  - by apply move_down_ok.
  - by apply to_beginning_of_line_ok.
  - by apply to_end_of_line_ok.
  - apply holds_some, set_text_ok.
  - by apply holds_some, set_text_with_elements_ok.
  - apply holds_some. by apply (same_ok t).
  - by apply holds_some, enter_modes_ok.
  - by apply holds_some, enter_modes_ok.
  - by apply holds_some, wrapped_lines_ok.
Qed.
Lemma area_reachable_ok seg `{!SegmentationOk seg} t : reachable seg t → area_ok t.
Proof.
  induction 1 as [|t op t' _ IH Hop E].
  - split; [by apply cache_none|]. exists []. split; [by split|apply cut_0].
  - destruct (perform_ok seg op t IH Hop) as (t1 & E1 & Hok). congruence.
Qed.

(** C29. Whatever public operations change a text area, in any order, none panics: keys with any
    key maps, modal editing included, typed text, edits, kills, moves, placeholders, whole texts,
    wrapping.  Afterwards the cursor is at a character boundary and inside no element, and the
    elements are in order, apart from each other, not empty and whole.  Callers have to see to
    this ([op_ok]): a placeholder that is inserted or renamed is not empty and has no newline; a
    range that is replaced goes from one character boundary to a later one; a range made an element
    has no newline and not the cursor inside; the elements given with a text do not overlap (the
    code does not check it) and have no newline.  Of the segmentation into words, graphemes and
    wrapped lines ([SegmentationOk]) it is assumed that word bounds split the text, that the next
    and previous grapheme boundaries are character boundaries further on or back, and that wrapped
    lines are parts of the text. *)
Theorem textarea_never_panics seg `{!SegmentationOk seg} t :
  reachable seg t →
  (∀ op, op_ok t op → is_Some (perform seg op t)) ∧
  boundary (cursor_pos t) (text t) ∧
  (∀ e, e ∈ elements t →
    boundary (el_start e) (text t) ∧ boundary (el_end e) (text t) ∧ el_start e < el_end e ∧
    ¬ (el_start e < cursor_pos t < el_end e)) ∧
  (∀ i j e e', elements t !! i = Some e → elements t !! j = Some e' → i < j → el_end e ≤ el_start e').
Proof.
  intros Hr. apply area_reachable_ok in Hr as Hok; [|done]. split_and!.
  - intros op Hop. destruct (perform_ok seg op t Hok Hop) as (t' & -> & _). by eexists.
  - by apply cursor_boundary.
  - intros e He. destruct Hok as [_ (ps & Hv & Hc)]. apply (view_range _ _ _ Hv) in He as Hs.
    destruct (cut_start_elem _ _ _ Hs) as [C1 C2]. split_and!; [by eapply cut_text..| |].
    + apply spans_bounds in Hs; [lia|apply Hv].
    + intros Hin. apply (containing_cut t ps _ Hv), (find_None_elem _ _ e) in Hc; [|done].
      rewrite andb_false_iff, !Nat.ltb_ge in Hc. lia.
  - intros i j e e' Hi Hj Hlt. destruct Hok as [_ (ps & Hv & _)].
    assert (Hi' : spans 0 ps !! i = Some (el_start e, el_end e)) by (rewrite <- (v_elements _ _ Hv); unfold ranges; by rewrite list_lookup_fmap, Hi).
    assert (Hj' : spans 0 ps !! j = Some (el_start e', el_end e')) by (rewrite <- (v_elements _ _ Hv); unfold ranges; by rewrite list_lookup_fmap, Hj).
    exact (spans_apart 0 ps i j _ _ (v_good _ _ Hv) Hi' Hj' Hlt).
Qed.

(** ** A concrete text area *)

(** Every character is a grapheme, every text one word and one line. *)
Definition char_segmentation : Segmentation :=
  mkSeg (λ s, [s]) (λ s, (λ c, [c]) <$> s)
    (λ p s, Boundary (Some (prev_char_boundary (p - 1) s)))
    (λ p s, Boundary (Some (next_char_boundary (byte_len s - S p) (S p) s)))
    length (λ _ s, [(0, S (byte_len s))]).
Lemma prev_char_boundary_le p s : prev_char_boundary p s ≤ p.
Proof. induction p as [|p IH]; cbn [prev_char_boundary]; [done|]. destruct (is_char_boundary _ _); lia. Qed.
Lemma next_char_boundary_ge n p s : p ≤ next_char_boundary n p s.
Proof. revert p. induction n as [|n IH]; intros p; simpl; [done|]. destruct (is_char_boundary _ _); [done|]. specialize (IH (S p)). lia. Qed.
#[global] Instance char_segmentation_ok : SegmentationOk char_segmentation.
Proof.
  split; simpl.
  - intros s. apply app_nil_r.
  - intros s. induction s as [|c s IH]; [done|]. cbn. f_equal. exact IH.
  - intros p s _ Hp. eexists. split_and!; [done|apply prev_char_boundary_ok|]. pose proof (prev_char_boundary_le (p - 1) s). lia.
  - intros p s _ Hp. eexists. split_and!; [done|apply next_char_boundary_ok; lia|]. pose proof (next_char_boundary_ge (byte_len s - S p) (S p) s). lia.
  - intros _ s. constructor; [|constructor]. simpl. rewrite Nat.sub_0_r. split_and!; [apply boundary_0|apply boundary_len|lia].
Qed.
Definition no_keys : Keymaps := mkKeymaps (λ _ _, false) (λ _ _, false) (λ _ _, false) (λ _ _, false).

Definition sample : TextArea := set_cursor 2 (set_text_clearing_elements (lit "ab cd") new).
Lemma sample_ok : area_ok sample.
Proof. apply set_cursor_ok, set_text_ok. Qed.

Lemma yank_restores_kill_witness :
  ∃ t1 t2, kill_to_end_of_line sample = Some t1 ∧ text t1 = lit "ab" ∧ yank t1 = Some t2 ∧ text t2 = lit "ab cd".
Proof.
  destruct (kill_to_end_of_line sample) as [t1|] eqn:E; [|vm_compute in E; discriminate].
  assert (Ht : text t1 = lit "ab") by (vm_compute in E; injection E as <-; reflexivity).
  destruct (yank_restores_kill char_segmentation KillLineTail sample t1 sample_ok E) as (t2 & H1 & H2).
  { rewrite Ht. vm_compute. discriminate. }
  exists t1, t2. split_and!; [reflexivity|done|done|by rewrite H2].
Defined.

Definition sample_area : ComposerPaste.TextArea := mkArea (Plain <$> lit "ab") (Plain <$> lit " cd") true.
Lemma sample_represents : represents sample sample_area.
Proof.
  split; [|done|by apply cache_none|done]. split; [done|done|]. repeat constructor.
Qed.
Lemma textarea_implements_pieces_witness :
  text sample = lit "ab cd" ∧
  ∃ t', input char_segmentation no_keys (plain_key 120) sample = Some t' ∧
    represents t' (mkArea (Plain <$> lit "abx") (Plain <$> lit " cd") true).
Proof.
  destruct (textarea_implements_pieces char_segmentation no_keys sample sample_area sample_represents)
    as (H1 & _ & _ & _ & _ & _ & H7 & _).
  split; [by rewrite H1|]. destruct (H7 120%N) as (t' & E & Hr); [done|done|done|]. by exists t'.
Defined.

Lemma textarea_never_panics_witness :
  is_Some (perform char_segmentation (AddPlaceholder (lit "[Image]")) sample) ∧ boundary 2 (text sample).
Proof.
  assert (Hr : reachable char_segmentation sample).
  { apply (reachable_step _ (set_text_clearing_elements (lit "ab cd") new) (MoveTo 2)); [|done|done].
    apply (reachable_step _ new (ReplaceAll (lit "ab cd"))); [constructor|done|done]. }
  destruct (textarea_never_panics char_segmentation sample Hr) as (H1 & H2 & _).
  split; [|exact H2]. apply H1. split; [done|]. apply (bool_decide_unpack (nl ∉ lit "[Image]")). by vm_compute.
Defined.
