(* ===== verification/CoreItems.v ===== *)
(** * Turn items of the core (protocol/src/items.rs, protocol/src/protocol.rs, ext/items)

    The items that the core reports of a turn, and the data they carry, with the constructors of the
    source.  Scores are left out; JSON values and URIs are types that the users of this file choose. *)

From stdpp Require Import prelude strings gmap.
From S2P Require Import Prelude RustStr ResponseItems AgentPath AgentResidency.
Import ResponseItems.

(** A thread id by its text. *)
Notation ThreadId := (list N) (only parsing).

(** A [Duration] in nanoseconds. *)
Notation Duration := N (only parsing).
Definition as_millis (d : Duration) : N := d / 1000000.
Definition i64_max : Z := 9223372036854775807.
Definition i64_try_from (n : N) : option Z := if (Z.of_N n <=? i64_max)%Z then Some (Z.of_N n) else None.

(** ** Data that both sides share *)

Inductive MessagePhase := Commentary | FinalAnswer.
Inductive ReasoningEffort :=
| EffortNone | Minimal | Low | Medium | High | XHigh | Max | Ultra | Custom (value : list N).
Record ByteRange := mkByteRange { range_start : nat; range_end : nat }.

Inductive WebSearchAction :=
| Search (query : option (list N)) (queries : option (list (list N)))
| OpenPage (url : option (list N))
| FindInPage (url pattern : option (list N))
| OtherAction.
Record WebSearchItem := mkWebSearch {
  search_id : list N; search_query : list N; search_action : option WebSearchAction }.
Record ImageGenerationItem := mkImageGeneration {
  image_id : list N; image_status : list N; revised_prompt : option (list N);
  image_data : list N; saved_path : option (list N) }.
Inductive ExtensionItem :=
| ExtImageGeneration (item : ImageGenerationItem)
| ExtWebSearch (item : WebSearchItem).

Record HookPromptFragment := mkFragment { fragment_text : list N; hook_run_id : list N }.

(** ** Items and payloads of the core *)

Module Core.

Inductive ExecCommandSource := Agent | UserShell | UnifiedExecStartup | UnifiedExecInteraction.
Inductive ExecCommandStatus := ExecCompleted | ExecFailed | ExecDeclined.
Inductive CommandExecutionStatus := CmdInProgress | CmdCompleted | CmdFailed | CmdDeclined.
Inductive PatchApplyStatus := PatchCompleted | PatchFailed | PatchDeclined.
Inductive McpToolCallStatus := McpInProgress | McpCompleted | McpFailed.
Inductive DynamicToolCallStatus := DynInProgress | DynCompleted | DynFailed.
Inductive CollabAgentTool := SpawnAgent | SendInput | ResumeAgent | Wait | CloseAgent.
Inductive CollabAgentToolCallStatus := CollabInProgress | CollabCompleted | CollabFailed.
Inductive SubAgentActivityKind := Started | Interacted | Interrupted.

Inductive FileChange :=
| Add (content : list N)
| Delete (content : list N)
| Update (unified_diff : list N) (move_path : option (list N)).

Inductive ParsedCommand :=
| Read (cmd name path : list N)
| ListFiles (cmd : list N) (path : option (list N))
| SearchCommand (cmd : list N) (query path : option (list N))
| Unknown (cmd : list N).

Record TextElement := mkTextElement { byte_range : ByteRange; placeholder : option (list N) }.
Inductive UserInput :=
| Text (text : list N) (text_elements : list TextElement)
| Image (image_url : list N) (detail : option ImageDetail)
| LocalImage (path : list N) (detail : option ImageDetail)
| Skill (name path : list N)
| Mention (name path : list N).

Record MemoryCitationEntry := mkEntry {
  entry_path : list N; line_start : N; line_end : N; note : list N }.
Record MemoryCitation := mkCitation {
  entries : list MemoryCitationEntry; rollout_ids : list (list N) }.

Inductive DynamicToolCallOutputContentItem :=
| DynInputText (text : list N)
| DynInputImage (image_url : list N).

Record ReviewFinding := mkFinding {
  finding_title : list N; finding_body : list N;
  absolute_file_path : list N; line_range_start : N; line_range_end : N }.
Record ReviewOutputEvent := mkReviewOutput {
  findings : list ReviewFinding; overall_correctness : list N; overall_explanation : list N }.

Inductive AgentMessageContent := AgentText (text : list N).

Record CallToolResult {json : Type} := mkToolResult {
  result_content : list json; structured_content : option json;
  is_error : option bool; meta : option json }.
Arguments CallToolResult : clear implicits.
Arguments mkToolResult {_}.

Record CommandExecutionItem {uri : Type} := mkCommandItem {
  command_id : list N; process_id : option (list N); command : list (list N); cwd : uri;
  parsed_cmd : list ParsedCommand; source : ExecCommandSource;
  command_status : CommandExecutionStatus; aggregated_output : option (list N);
  exit_code : option Z; command_duration : option Duration }.
Arguments CommandExecutionItem : clear implicits.
Arguments mkCommandItem {_}.

Record McpToolCallItem {json : Type} := mkMcpItem {
  mcp_id : list N; mcp_server : list N; mcp_tool : list N; mcp_arguments : json;
  connector_id : option (list N); mcp_app_resource_uri : option (list N);
  link_id : option (list N); app_name : option (list N); template_id : option (list N);
  action_name : option (list N); plugin_id : option (list N); mcp_status : McpToolCallStatus;
  mcp_result : option (CallToolResult json); mcp_error : option (list N);
  mcp_duration : option Duration }.
Arguments McpToolCallItem : clear implicits.
Arguments mkMcpItem {_}.

Inductive TurnItem {json uri : Type} :=
| UserMessage (id : list N) (client_id : option (list N)) (content : list UserInput)
| HookPrompt (id : list N) (fragments : list HookPromptFragment)
| AgentMessage (id : list N) (content : list AgentMessageContent) (phase : option MessagePhase)
    (memory_citation : option MemoryCitation)
| Plan (id text : list N)
| Reasoning (id : list N) (summary_text raw_content : list (list N))
| CommandExecution (item : CommandExecutionItem uri)
| DynamicToolCall (id : list N) (namespace : option (list N)) (tool : list N) (arguments : json)
    (status : DynamicToolCallStatus)
    (content_items : option (list DynamicToolCallOutputContentItem))
    (success : option bool) (duration : option Duration)
| CollabAgentToolCall (id : list N) (tool : CollabAgentTool) (status : CollabAgentToolCallStatus)
    (sender_thread_id : ThreadId) (receiver_thread_ids : list ThreadId)
    (prompt model : option (list N)) (reasoning_effort : option ReasoningEffort)
    (agents_states : gmap ThreadId AgentResidency.AgentStatus)
| SubAgentActivity (id : list N) (kind : SubAgentActivityKind) (agent_thread_id : ThreadId)
    (agent_path : AgentPath.AgentPath)
| WebSearch (id query : list N) (action : WebSearchAction)
| ImageView (id : list N) (path : uri)
| Sleep (id : list N) (duration_ms : N)
| Extension (item : ExtensionItem)
| ImageGeneration (item : ImageGenerationItem)
| EnteredReviewMode (id user_facing_hint : list N)
| ExitedReviewMode (id : list N) (review_output : option ReviewOutputEvent)
| FileChangeItem (id : list N) (changes : gmap (list N) FileChange) (status : option PatchApplyStatus)
| McpToolCall (item : McpToolCallItem json)
| ContextCompaction (id : list N).
Arguments TurnItem : clear implicits.

End Core.
