(* ===== verification/ThreadItems.v ===== *)
(** * Items of a thread, as the app server shows them
      (app-server-protocol/src/protocol: v2/item.rs, item_builders.rs)

    The core reports turn items ([Core]) and events; clients see [ThreadItem]s.  This file has the items
    of the clients and the conversions.  Values that are only passed on (JSON, scores)
    are opaque.  The class [Wire] stands for what is outside: the quoting of [shlex], the XML reader,
    the guesses of [parse_command] at what a command does, and paths given as URIs. *)

From stdpp Require Import prelude strings pretty gmap sorting.
From S2P Require Import Prelude RustStr AbsolutePath ResponseItems AgentPath AgentResidency CoreItems.
Import ResponseItems.

Class Wire := {
  JsonValue : Type;
  JsonNull : JsonValue;
  PathUri : Type;
  (** [infer_path_convention() == Some(PathConvention::native())] *)
  is_native : PathUri → bool;
  to_abs_path : PathUri → option (list N);
  (** [LegacyAppPathString::from] *)
  uri_legacy : PathUri → list N;
  abs_legacy : list N → list N;
  home_dir : option (list N);
  shlex_try_join : list (list N) → option (list N);
  parse_command : list (list N) → list Core.ParsedCommand;
  (** [quick_xml::de::from_str] of a [HookPromptXml]: the run id and the text. *)
  hook_prompt_from_xml : list N → option (list N * list N);
  (** The [n]th value of [Uuid::now_v7().to_string()]. *)
  now_v7 : nat → list N }.

(** ** Items that clients see *)

Inductive CommandExecutionSource := Agent | UserShell | UnifiedExecStartup | UnifiedExecInteraction.
Inductive CommandExecutionStatus := CmdInProgress | CmdCompleted | CmdFailed | CmdDeclined.
Inductive PatchApplyStatus := PatchInProgress | PatchCompleted | PatchFailed | PatchDeclined.
Inductive McpToolCallStatus := McpInProgress | McpCompleted | McpFailed.
Inductive DynamicToolCallStatus := DynInProgress | DynCompleted | DynFailed.
Inductive CollabAgentTool := SpawnAgent | SendInput | ResumeAgent | Wait | CloseAgent.
Inductive CollabAgentToolCallStatus := CollabInProgress | CollabCompleted | CollabFailed.
Inductive SubAgentActivityKind := ActivityStarted | ActivityInteracted | ActivityInterrupted.
Inductive CollabAgentStatus :=
| AgentPendingInit | AgentRunning | AgentInterrupted | AgentCompleted | AgentErrored | AgentShutdown
| AgentNotFound.
Record CollabAgentState := mkAgentState { state_status : CollabAgentStatus; state_message : option (list N) }.

Inductive PatchChangeKind := KindAdd | KindDelete | KindUpdate (move_path : option (list N)).
Record FileUpdateChange := mkFileUpdate { change_path : list N; change_kind : PatchChangeKind; change_diff : list N }.

Inductive CommandAction :=
| ReadAction (command name path : list N)
| ListFilesAction (command : list N) (path : option (list N))
| SearchAction (command : list N) (query path : option (list N))
| UnknownAction (command : list N).

Record TextElement := mkTextElement { byte_range : ByteRange; placeholder : option (list N) }.
Inductive UserInput :=
| UserText (text : list N) (text_elements : list TextElement)
| UserImage (detail : option ImageDetail) (url : list N)
| UserLocalImage (detail : option ImageDetail) (path : list N)
| UserSkill (name path : list N)
| UserMention (name path : list N).

Record MemoryCitationEntry := mkEntry {
  entry_path : list N; line_start : N; line_end : N; note : list N }.
Record MemoryCitation := mkCitation {
  entries : list MemoryCitationEntry; thread_ids : list (list N) }.

Inductive DynamicToolCallOutputContentItem :=
| DynInputText (text : list N)
| DynInputImage (image_url : list N).

Record McpToolCallAppContext := mkAppContext {
  context_connector_id : list N; context_link_id : option (list N); resource_uri : option (list N);
  context_app_name : option (list N); context_template_id : option (list N);
  context_action_name : option (list N) }.

Section items.
Context {W : Wire}.

Record McpToolCallResult := mkMcpResult {
  mcp_content : list JsonValue; mcp_structured_content : option JsonValue; mcp_meta : option JsonValue }.

Inductive ThreadItem :=
| UserMessage (id : list N) (client_id : option (list N)) (content : list UserInput)
| HookPrompt (id : list N) (fragments : list HookPromptFragment)
| AgentMessage (id text : list N) (phase : option MessagePhase) (memory_citation : option MemoryCitation)
| Plan (id text : list N)
| Reasoning (id : list N) (summary content : list (list N))
| CommandExecution (id command cwd : list N) (process_id : option (list N))
    (source : CommandExecutionSource) (status : CommandExecutionStatus)
    (command_actions : list CommandAction) (aggregated_output : option (list N))
    (exit_code : option Z) (duration_ms : option Z)
| FileChange (id : list N) (changes : list FileUpdateChange) (status : PatchApplyStatus)
| McpToolCall (id server tool : list N) (status : McpToolCallStatus) (arguments : JsonValue)
    (app_context : option McpToolCallAppContext) (mcp_app_resource_uri plugin_id : option (list N))
    (result : option McpToolCallResult) (error : option (list N)) (duration_ms : option Z)
| DynamicToolCall (id : list N) (namespace : option (list N)) (tool : list N) (arguments : JsonValue)
    (status : DynamicToolCallStatus) (content_items : option (list DynamicToolCallOutputContentItem))
    (success : option bool) (duration_ms : option Z)
| CollabAgentToolCall (id : list N) (tool : CollabAgentTool) (status : CollabAgentToolCallStatus)
    (sender_thread_id : list N) (receiver_thread_ids : list (list N)) (prompt model : option (list N))
    (reasoning_effort : option ReasoningEffort) (agents_states : gmap (list N) CollabAgentState)
| SubAgentActivity (id : list N) (kind : SubAgentActivityKind) (agent_thread_id agent_path : list N)
| WebSearch (item : WebSearchItem)
| ImageView (id path : list N)
| Sleep (id : list N) (duration_ms : N)
| ImageGeneration (item : ImageGenerationItem)
| EnteredReviewMode (id review : list N)
| ExitedReviewMode (id review : list N)
| ContextCompaction (id : list N).

(** [ThreadItem::id]. *)
Definition item_id (item : ThreadItem) : str :=
  match item with
  | UserMessage id _ _ | HookPrompt id _ | AgentMessage id _ _ _ | Plan id _ | Reasoning id _ _
  | CommandExecution id _ _ _ _ _ _ _ _ _ | FileChange id _ _ | McpToolCall id _ _ _ _ _ _ _ _ _ _
  | DynamicToolCall id _ _ _ _ _ _ _ | CollabAgentToolCall id _ _ _ _ _ _ _ _ | SubAgentActivity id _ _ _
  | ImageView id _ | Sleep id _ | EnteredReviewMode id _ | ExitedReviewMode id _
  | ContextCompaction id => id
  | WebSearch item => search_id item
  | ImageGeneration item => image_id item
  end.

(** ** Conversions *)

Definition web_search_action_from_core (value : WebSearchAction) : WebSearchAction :=
  match value with
  | Search query queries => Search query queries
  | OpenPage url => OpenPage url
  | FindInPage url pattern => FindInPage url pattern
  | OtherAction => OtherAction
  end.

Definition memory_citation_entry_from_core (e : Core.MemoryCitationEntry) : MemoryCitationEntry :=
  mkEntry (Core.entry_path e) (Core.line_start e) (Core.line_end e) (Core.note e).
Definition memory_citation_from_core (c : Core.MemoryCitation) : MemoryCitation :=
  mkCitation (memory_citation_entry_from_core <$> Core.entries c) (Core.rollout_ids c).

Definition text_element_from_core (e : Core.TextElement) : TextElement :=
  mkTextElement (Core.byte_range e) (Core.placeholder e).
Definition user_input_from_core (value : Core.UserInput) : UserInput :=
  match value with
  | Core.Text text text_elements => UserText text (text_element_from_core <$> text_elements)
  | Core.Image image_url detail => UserImage detail image_url
  | Core.LocalImage path detail => UserLocalImage detail path
  | Core.Skill name path => UserSkill name path
  | Core.Mention name path => UserMention name path
  end.

Definition source_from_core (s : Core.ExecCommandSource) : CommandExecutionSource :=
  match s with
  | Core.Agent => Agent
  | Core.UserShell => UserShell
  | Core.UnifiedExecStartup => UnifiedExecStartup
  | Core.UnifiedExecInteraction => UnifiedExecInteraction
  end.
Definition command_status_from_core (s : Core.CommandExecutionStatus) : CommandExecutionStatus :=
  match s with
  | Core.CmdInProgress => CmdInProgress
  | Core.CmdCompleted => CmdCompleted
  | Core.CmdFailed => CmdFailed
  | Core.CmdDeclined => CmdDeclined
  end.
Definition exec_status_from_core (s : Core.ExecCommandStatus) : CommandExecutionStatus :=
  match s with
  | Core.ExecCompleted => CmdCompleted
  | Core.ExecFailed => CmdFailed
  | Core.ExecDeclined => CmdDeclined
  end.
Definition patch_status_from_core (s : Core.PatchApplyStatus) : PatchApplyStatus :=
  match s with
  | Core.PatchCompleted => PatchCompleted
  | Core.PatchFailed => PatchFailed
  | Core.PatchDeclined => PatchDeclined
  end.
Definition mcp_status_from_core (s : Core.McpToolCallStatus) : McpToolCallStatus :=
  match s with
  | Core.McpInProgress => McpInProgress
  | Core.McpCompleted => McpCompleted
  | Core.McpFailed => McpFailed
  end.
Definition dynamic_status_from_core (s : Core.DynamicToolCallStatus) : DynamicToolCallStatus :=
  match s with
  | Core.DynInProgress => DynInProgress
  | Core.DynCompleted => DynCompleted
  | Core.DynFailed => DynFailed
  end.
Definition collab_tool_from_core (t : Core.CollabAgentTool) : CollabAgentTool :=
  match t with
  | Core.SpawnAgent => SpawnAgent
  | Core.SendInput => SendInput
  | Core.ResumeAgent => ResumeAgent
  | Core.Wait => Wait
  | Core.CloseAgent => CloseAgent
  end.
Definition collab_status_from_core (s : Core.CollabAgentToolCallStatus) : CollabAgentToolCallStatus :=
  match s with
  | Core.CollabInProgress => CollabInProgress
  | Core.CollabCompleted => CollabCompleted
  | Core.CollabFailed => CollabFailed
  end.
Definition activity_kind_from_core (k : Core.SubAgentActivityKind) : SubAgentActivityKind :=
  match k with
  | Core.Started => ActivityStarted
  | Core.Interacted => ActivityInteracted
  | Core.Interrupted => ActivityInterrupted
  end.

(** [CollabAgentState::from]. *)
Definition agent_state_from_core (s : AgentResidency.AgentStatus) : CollabAgentState :=
  match s with
  | AgentResidency.PendingInit => mkAgentState AgentPendingInit None
  | AgentResidency.Running => mkAgentState AgentRunning None
  | AgentResidency.StatusInterrupted => mkAgentState AgentInterrupted None
  | AgentResidency.Completed message => mkAgentState AgentCompleted message
  | AgentResidency.Errored message => mkAgentState AgentErrored (Some message)
  | AgentResidency.Shutdown => mkAgentState AgentShutdown None
  | AgentResidency.NotFound => mkAgentState AgentNotFound None
  end.

Definition dynamic_content_from_core (i : Core.DynamicToolCallOutputContentItem) :
    DynamicToolCallOutputContentItem :=
  match i with
  | Core.DynInputText text => DynInputText text
  | Core.DynInputImage image_url => DynInputImage image_url
  end.
Definition convert_dynamic_tool_content_items (items : list Core.DynamicToolCallOutputContentItem) :
    list DynamicToolCallOutputContentItem := dynamic_content_from_core <$> items.

Definition mcp_result_from_core (r : Core.CallToolResult JsonValue) : McpToolCallResult :=
  mkMcpResult (Core.result_content r) (Core.structured_content r) (Core.meta r).

(** ** Builders (item_builders.rs) *)

Definition shlex_join (tokens : list (list N)) : str :=
  default (lit "<command included NUL byte>") (shlex_try_join tokens).

(** [AbsolutePathBuf::join]. *)
Definition abs_join (base path : str) : str :=
  AbsolutePath.path_string (AbsolutePath.resolve_path_against_base home_dir path base).

(** [CommandAction::from_core_with_cwd]. *)
Definition from_core_with_cwd (value : Core.ParsedCommand) (cwd : str) : CommandAction :=
  match value with
  | Core.Read cmd name path => ReadAction cmd name (abs_join cwd path)
  | Core.ListFiles cmd path => ListFilesAction cmd path
  | Core.SearchCommand cmd query path => SearchAction cmd query path
  | Core.Unknown cmd => UnknownAction cmd
  end.

Definition command_actions_for_path_uri (parsed_cmd : list Core.ParsedCommand) (cwd : PathUri) :
    list CommandAction :=
  let native_cwd := if is_native cwd then to_abs_path cwd else None in
  omap (λ parsed, match parsed with
                  | Core.Read cmd name path =>
                      (λ native_cwd, ReadAction cmd name (abs_join native_cwd path)) <$> native_cwd
                  | Core.ListFiles cmd path => Some (ListFilesAction cmd path)
                  | Core.SearchCommand cmd query path => Some (SearchAction cmd query path)
                  | Core.Unknown cmd => Some (UnknownAction cmd)
                  end) parsed_cmd.

Definition map_patch_change_kind (change : Core.FileChange) : PatchChangeKind :=
  match change with
  | Core.Add _ => KindAdd
  | Core.Delete _ => KindDelete
  | Core.Update _ move_path => KindUpdate move_path
  end.
Definition format_file_change_diff (change : Core.FileChange) : str :=
  match change with
  | Core.Add content => content
  | Core.Delete content => content
  | Core.Update unified_diff move_path =>
      match move_path with
      | Some path => unified_diff ++ [nl; nl] ++ lit "Moved to: " ++ path
      | None => unified_diff
      end
  end.

Definition path_le (a b : FileUpdateChange) : Prop := str_compare (change_path a) (change_path b) ≠ Gt.
#[local] Instance path_le_dec a b : Decision (path_le a b).
Proof. unfold path_le. apply not_dec. destruct (str_compare _ _); [right|right|left]; done. Defined.

Definition convert_patch_changes (changes : gmap (list N) Core.FileChange) : list FileUpdateChange :=
  merge_sort path_le
    ((λ '(path, change), mkFileUpdate path (map_patch_change_kind change) (format_file_change_diff change))
       <$> map_to_list changes).

(** [review_format.rs]. *)
Definition format_location (item : Core.ReviewFinding) : str :=
  Core.absolute_file_path item ++ lit ":" ++ lit (pretty (Core.line_range_start item)) ++ lit "-" ++
  lit (pretty (Core.line_range_end item)).
Definition REVIEW_FALLBACK_MESSAGE : str := lit "Reviewer failed to output a response.".

(** An em dash between the title and the place. *)
Definition em_dash : char := 8212%N.

Definition finding_lines (selection : option (list bool)) (idx : nat) (item : Core.ReviewFinding) :
    list (list N) :=
  let title := Core.finding_title item in
  let location := format_location item in
  let head := match selection with
              | Some flags =>
                  let checked := default true (flags !! idx) in
                  let marker := if checked : bool then lit "[x]" else lit "[ ]" in
                  lit "- " ++ marker ++ [space] ++ title ++ [space; em_dash; space] ++ location
              | None => lit "- " ++ title ++ [space; em_dash; space] ++ location
              end in
  [] :: head :: (app (lit "  ") <$> lines (Core.finding_body item)).

Definition format_review_findings_block (findings : list Core.ReviewFinding) (selection : option (list bool)) : str :=
  join [nl]
    ([] :: (if 1 <? length findings then lit "Full review comments:" else lit "Review comment:")
        :: concat (imap (finding_lines selection) findings)).

Definition render_review_output_text (output : Core.ReviewOutputEvent) : str :=
  let explanation := trim (Core.overall_explanation output) in
  let sections := if bool_decide (explanation = []) then [] else [explanation] in
  let sections :=
    if bool_decide (length (Core.findings output) = 0) then sections
    else let trimmed := trim (format_review_findings_block (Core.findings output) None) in
         if bool_decide (trimmed = []) then sections else sections ++ [trimmed] in
  if bool_decide (sections = []) then REVIEW_FALLBACK_MESSAGE else join [nl; nl] sections.

Definition review_output_text (output : option Core.ReviewOutputEvent) : str :=
  default REVIEW_FALLBACK_MESSAGE (render_review_output_text <$> output).

(** ** From events to items

    The payloads of the events, with the fields that are read somewhere below. *)

Record ExecCommandBeginEvent := mkExecBegin {
  eb_call_id : list N; eb_process_id : option (list N); eb_turn_id : list N;
  eb_command : list (list N); eb_cwd : PathUri; eb_parsed_cmd : list Core.ParsedCommand;
  eb_source : Core.ExecCommandSource }.
Record ExecCommandEndEvent := mkExecEnd {
  ee_call_id : list N; ee_process_id : option (list N); ee_turn_id : list N;
  ee_command : list (list N); ee_cwd : PathUri; ee_parsed_cmd : list Core.ParsedCommand;
  ee_source : Core.ExecCommandSource; ee_aggregated_output : list N; ee_exit_code : Z;
  ee_duration : Duration; ee_status : Core.ExecCommandStatus }.
Record ExecApprovalRequestEvent := mkExecApproval {
  ea_call_id : list N; ea_command : list (list N); ea_cwd : list N;
  ea_parsed_cmd : list Core.ParsedCommand }.
Record PatchEvent := mkPatchEvent {
  pe_call_id : list N; pe_turn_id : list N; pe_changes : gmap (list N) Core.FileChange }.

Inductive GuardianAssessmentStatus :=
  GuardianInProgress | GuardianApproved | GuardianDenied | GuardianTimedOut | GuardianAborted.
Inductive GuardianAssessmentAction :=
| GuardianCommand (command cwd : list N)
| GuardianExecve (program : list N) (argv : list (list N)) (cwd : list N)
| GuardianApplyPatch
| GuardianNetworkAccess
| GuardianMcpToolCall
| GuardianRequestPermissions.
Record GuardianAssessmentEvent := mkGuardian {
  target_item_id : option (list N); ga_turn_id : list N; ga_status : GuardianAssessmentStatus;
  ga_action : GuardianAssessmentAction }.

(** [ApplyPatchApprovalRequestEvent] and [PatchApplyBeginEvent] give the same item. *)
Definition build_file_change_approval_request_item (payload : PatchEvent) : ThreadItem :=
  FileChange (pe_call_id payload) (convert_patch_changes (pe_changes payload)) PatchInProgress.
Definition build_file_change_begin_item (payload : PatchEvent) : ThreadItem :=
  FileChange (pe_call_id payload) (convert_patch_changes (pe_changes payload)) PatchInProgress.
Definition build_file_change_end_item (payload : PatchEvent) (status : Core.PatchApplyStatus) : ThreadItem :=
  FileChange (pe_call_id payload) (convert_patch_changes (pe_changes payload)) (patch_status_from_core status).

Definition build_command_execution_approval_request_item (payload : ExecApprovalRequestEvent) : ThreadItem :=
  CommandExecution (ea_call_id payload) (shlex_join (ea_command payload)) (abs_legacy (ea_cwd payload)) None
    Agent CmdInProgress ((λ parsed, from_core_with_cwd parsed (ea_cwd payload)) <$> ea_parsed_cmd payload)
    None None None.

Definition build_command_execution_begin_item (payload : ExecCommandBeginEvent) : ThreadItem :=
  CommandExecution (eb_call_id payload) (shlex_join (eb_command payload)) (uri_legacy (eb_cwd payload))
    (eb_process_id payload) (source_from_core (eb_source payload)) CmdInProgress
    (command_actions_for_path_uri (eb_parsed_cmd payload) (eb_cwd payload)) None None None.

Definition build_command_execution_end_item (payload : ExecCommandEndEvent) : ThreadItem :=
  let aggregated_output :=
    if bool_decide (ee_aggregated_output payload = []) then None else Some (ee_aggregated_output payload) in
  let duration_ms := default i64_max (i64_try_from (as_millis (ee_duration payload))) in
  CommandExecution (ee_call_id payload) (shlex_join (ee_command payload)) (uri_legacy (ee_cwd payload))
    (ee_process_id payload) (source_from_core (ee_source payload)) (exec_status_from_core (ee_status payload))
    (command_actions_for_path_uri (ee_parsed_cmd payload) (ee_cwd payload))
    aggregated_output (Some (ee_exit_code payload)) (Some duration_ms).

Definition build_item_from_guardian_event (assessment : GuardianAssessmentEvent)
    (status : CommandExecutionStatus) : option ThreadItem :=
  match ga_action assessment with
  | GuardianCommand command cwd =>
      id ← target_item_id assessment;
      Some (CommandExecution id command (abs_legacy cwd) None Agent status [UnknownAction command] None None None)
  | GuardianExecve program argv cwd =>
      id ← target_item_id assessment;
      let argv := match argv with [] => [program] | _ :: rest => program :: rest end in
      let command := shlex_join argv in
      let parsed_cmd := parse_command argv in
      let command_actions :=
        match parsed_cmd with
        | [] => [UnknownAction command]
        | _ => (λ parsed, from_core_with_cwd parsed cwd) <$> parsed_cmd
        end in
      Some (CommandExecution id command (abs_legacy cwd) None Agent status command_actions None None None)
  | GuardianApplyPatch | GuardianNetworkAccess | GuardianMcpToolCall | GuardianRequestPermissions => None
  end.

(** [impl From<CoreTurnItem> for ThreadItem]. *)
Definition command_item_from_core (command : Core.CommandExecutionItem PathUri) : ThreadItem :=
  CommandExecution (Core.command_id command) (shlex_join (Core.command command))
    (uri_legacy (Core.cwd command)) (Core.process_id command) (source_from_core (Core.source command))
    (command_status_from_core (Core.command_status command))
    (command_actions_for_path_uri (Core.parsed_cmd command) (Core.cwd command))
    (o ← Core.aggregated_output command; if bool_decide (o = []) then None else Some o)
    (Core.exit_code command)
    (d ← Core.command_duration command; i64_try_from (as_millis d)).

Definition mcp_item_from_core (mcp : Core.McpToolCallItem JsonValue) : ThreadItem :=
  McpToolCall (Core.mcp_id mcp) (Core.mcp_server mcp) (Core.mcp_tool mcp)
    (mcp_status_from_core (Core.mcp_status mcp)) (Core.mcp_arguments mcp)
    ((λ connector_id, mkAppContext connector_id (Core.link_id mcp) (Core.mcp_app_resource_uri mcp)
                        (Core.app_name mcp) (Core.template_id mcp) (Core.action_name mcp))
       <$> Core.connector_id mcp)
    (Core.mcp_app_resource_uri mcp) (Core.plugin_id mcp) (mcp_result_from_core <$> Core.mcp_result mcp)
    (Core.mcp_error mcp) (d ← Core.mcp_duration mcp; i64_try_from (as_millis d)).

Definition item_from_core (value : Core.TurnItem JsonValue PathUri) : ThreadItem :=
  match value with
  | Core.UserMessage id client_id content => UserMessage id client_id (user_input_from_core <$> content)
  | Core.HookPrompt id fragments => HookPrompt id fragments
  | Core.AgentMessage id content phase memory_citation =>
      AgentMessage id (concat ((λ '(Core.AgentText text), text) <$> content)) phase
        (memory_citation_from_core <$> memory_citation)
  | Core.Plan id text => Plan id text
  | Core.Reasoning id summary_text raw_content => Reasoning id summary_text raw_content
  | Core.CommandExecution command => command_item_from_core command
  | Core.DynamicToolCall id namespace tool arguments status content_items success duration =>
      DynamicToolCall id namespace tool arguments (dynamic_status_from_core status)
        (convert_dynamic_tool_content_items <$> content_items) success
        (d ← duration; i64_try_from (as_millis d))
  | Core.CollabAgentToolCall id tool status sender receivers prompt model reasoning_effort agents_states =>
      CollabAgentToolCall id (collab_tool_from_core tool) (collab_status_from_core status) sender receivers
        prompt model reasoning_effort (agent_state_from_core <$> agents_states)
  | Core.SubAgentActivity id kind agent_thread_id agent_path =>
      SubAgentActivity id (activity_kind_from_core kind) agent_thread_id (as_str agent_path)
  | Core.WebSearch id query action =>
      WebSearch (mkWebSearch id query (Some (web_search_action_from_core action)))
  | Core.ImageView id path => ImageView id (uri_legacy path)
  | Core.Sleep id duration_ms => Sleep id duration_ms
  | Core.Extension (ExtImageGeneration item) => ImageGeneration item
  | Core.Extension (ExtWebSearch item) => WebSearch item
  | Core.ImageGeneration item => ImageGeneration item
  | Core.EnteredReviewMode id user_facing_hint => EnteredReviewMode id user_facing_hint
  | Core.ExitedReviewMode id review_output => ExitedReviewMode id (review_output_text review_output)
  | Core.FileChangeItem id changes status =>
      FileChange id (convert_patch_changes changes) (default PatchInProgress (patch_status_from_core <$> status))
  | Core.McpToolCall mcp => mcp_item_from_core mcp
  | Core.ContextCompaction id => ContextCompaction id
  end.

(** [TurnItem::id]. *)
Definition turn_item_id (item : Core.TurnItem JsonValue PathUri) : str :=
  match item with
  | Core.UserMessage id _ _ | Core.HookPrompt id _ | Core.AgentMessage id _ _ _ | Core.Plan id _
  | Core.Reasoning id _ _ | Core.DynamicToolCall id _ _ _ _ _ _ _ | Core.CollabAgentToolCall id _ _ _ _ _ _ _ _
  | Core.SubAgentActivity id _ _ _ | Core.WebSearch id _ _ | Core.ImageView id _ | Core.Sleep id _
  | Core.EnteredReviewMode id _ | Core.ExitedReviewMode id _ | Core.FileChangeItem id _ _
  | Core.ContextCompaction id => id
  | Core.CommandExecution item => Core.command_id item
  | Core.Extension (ExtImageGeneration item) => image_id item
  | Core.Extension (ExtWebSearch item) => search_id item
  | Core.ImageGeneration item => image_id item
  | Core.McpToolCall item => Core.mcp_id item
  end.

(** The item that clients see has the id of the core's item. *)
Lemma item_from_core_id item : item_id (item_from_core item) = turn_item_id item.
Proof. by destruct item as [| | | | | | | | | | | |[]| | | | | |]. Qed.

(** ** Hook prompts in messages (protocol/src/items.rs) *)

Definition parse_hook_prompt_fragment (text : str) : option HookPromptFragment :=
  '(hook_run_id, text) ← hook_prompt_from_xml (trim text);
  if bool_decide (trim hook_run_id = []) then None else Some (mkFragment text hook_run_id).

(** The fragments; the id of the item is that of the message, or a new one
    ([HookPromptItem::from_fragments]). *)
Definition parse_hook_prompt_message (content : list ContentItem) : option (list HookPromptFragment) :=
  fragments ← mapM (λ c, match c with
                         | InputText text => parse_hook_prompt_fragment text
                         | _ => None
                         end) content;
  match fragments with [] => None | _ => Some fragments end.

End items.
