(* ===== verification/ThreadHistory.v ===== *)
(** * The turns of a thread, rebuilt from its log (app-server-protocol/src/protocol/thread_history.rs)

    [ThreadHistoryBuilder] reads a rollout item by item and keeps the turns so far and the turn that
    is open.  On demand it also reports what each item changed, so that a client need not read the
    turns again; the reports of several items can be merged into one.  Then come the stateless
    projection of thread_history_projection.rs, which reports changes from one line alone, the choice of
    what is written to a rollout (rollout/src/policy.rs), and two readers of rollouts in the application
    server (request_processors.rs and token_usage_replay.rs). *)

From stdpp Require Import prelude strings pretty gmap sorting.
From S2P Require Import Prelude RustStr ResponseItems AgentPath AgentResidency RolloutTruncation CoreItems ThreadItems.

Notation TurnStatus := RolloutTruncation.TurnStatus (only parsing).
Notation Completed := RolloutTruncation.Completed (only parsing).
Notation Interrupted := RolloutTruncation.Interrupted (only parsing).
Notation Failed := RolloutTruncation.TurnFailed (only parsing).
Notation InProgress := RolloutTruncation.InProgress (only parsing).

Definition wrap_i64 (z : Z) : Z := ((z + 2 ^ 63) mod 2 ^ 64 - 2 ^ 63)%Z.

(** ** Errors *)

Inductive NonSteerableTurnKind := Review | Compact.
Inductive CodexErrorInfo :=
| ContextWindowExceeded | SessionBudgetExceeded | UsageLimitExceeded | ServerOverloaded | CyberPolicy
| HttpConnectionFailed (http_status_code : option N)
| ResponseStreamConnectionFailed (http_status_code : option N)
| InternalServerError | Unauthorized | BadRequest | SandboxError
| ResponseStreamDisconnected (http_status_code : option N)
| ResponseTooManyFailedAttempts (http_status_code : option N)
| ActiveTurnNotSteerable (turn_kind : NonSteerableTurnKind)
| ThreadRollbackFailed | OtherError.

Definition info_affects_turn_status (i : CodexErrorInfo) : bool :=
  match i with ThreadRollbackFailed | ActiveTurnNotSteerable _ => false | _ => true end.

Record ErrorEvent := mkErrorEvent { err_message : list N; codex_error_info : option CodexErrorInfo }.
(** [is_none_or]. *)
Definition affects_turn_status (e : ErrorEvent) : bool :=
  match codex_error_info e with None => true | Some i => info_affects_turn_status i end.

(** The codes of the core and those of the clients are the same. *)
Record TurnError := mkTurnError {
  te_message : list N; te_info : option CodexErrorInfo; additional_details : option (list N) }.
Definition turn_error_from (e : ErrorEvent) : TurnError := mkTurnError (err_message e) (codex_error_info e) None.

Section history.
Context {W : Wire}.

(** ** Events and the items of a rollout *)

Record UserMessageEvent := mkUserMessage {
  um_client_id : option (list N); um_message : list N; um_images : option (list (list N));
  um_image_details : list (option ResponseItems.ImageDetail); um_local_images : list (list N);
  um_local_image_details : list (option ResponseItems.ImageDetail); um_text_elements : list Core.TextElement }.

Record McpInvocation := mkInvocation {
  inv_server : list N; inv_tool : list N; inv_arguments : option JsonValue }.
Record McpToolCallEvent := mkMcpEvent {
  me_call_id : list N; me_invocation : McpInvocation; me_connector_id : option (list N);
  me_mcp_app_resource_uri : option (list N); me_link_id : option (list N); me_app_name : option (list N);
  me_template_id : option (list N); me_action_name : option (list N); me_plugin_id : option (list N) }.

Record DynamicToolCallRequest := mkDynamicRequest {
  dr_call_id : list N; dr_turn_id : list N; dr_namespace : option (list N); dr_tool : list N;
  dr_arguments : JsonValue }.
Record DynamicToolCallResponseEvent := mkDynamicResponse {
  dp_request : DynamicToolCallRequest; dp_content_items : list Core.DynamicToolCallOutputContentItem;
  dp_success : bool; dp_duration : Duration }.

Record TurnStartedEvent := mkTurnStarted { ts_turn_id : list N; ts_started_at : option Z }.
Record TurnCompleteEvent := mkTurnComplete {
  tc_turn_id : list N; tc_error : option ErrorEvent; tc_started_at : option Z;
  tc_completed_at : option Z; tc_duration_ms : option Z }.
Record TurnAbortedEvent := mkTurnAborted {
  ta_turn_id : option (list N); ta_started_at : option Z; ta_completed_at : option Z;
  ta_duration_ms : option Z }.

Inductive EventMsg :=
| EvUserMessage (payload : UserMessageEvent)
| EvAgentMessage (message : list N) (phase : option MessagePhase) (memory_citation : option Core.MemoryCitation)
| EvAgentReasoning (text : list N)
| EvAgentReasoningRawContent (text : list N)
| EvWebSearchBegin (call_id : list N)
| EvWebSearchEnd (call_id query : list N) (action : WebSearchAction)
| EvExecCommandBegin (payload : ExecCommandBeginEvent)
| EvExecCommandEnd (payload : ExecCommandEndEvent)
| EvGuardianAssessment (payload : GuardianAssessmentEvent)
| EvApplyPatchApprovalRequest (payload : PatchEvent)
| EvPatchApplyBegin (payload : PatchEvent)
| EvPatchApplyEnd (payload : PatchEvent) (status : Core.PatchApplyStatus)
| EvDynamicToolCallRequest (payload : DynamicToolCallRequest)
| EvDynamicToolCallResponse (payload : DynamicToolCallResponseEvent)
| EvMcpToolCallBegin (payload : McpToolCallEvent)
| EvMcpToolCallEnd (payload : McpToolCallEvent) (duration : Duration)
    (result : result (list N) (Core.CallToolResult JsonValue))
| EvViewImageToolCall (call_id : list N) (path : PathUri)
| EvImageGenerationBegin (call_id : list N)
| EvImageGenerationEnd (call_id status : list N) (revised_prompt : option (list N)) (result : list N)
    (saved_path : option (list N))
| EvCollabAgentSpawnBegin (call_id : list N) (sender_thread_id : ThreadId) (prompt model : list N)
    (reasoning_effort : ReasoningEffort)
| EvCollabAgentSpawnEnd (call_id : list N) (sender_thread_id : ThreadId) (new_thread_id : option ThreadId)
    (prompt model : list N) (reasoning_effort : ReasoningEffort) (status : AgentResidency.AgentStatus)
| EvCollabAgentInteractionBegin (call_id : list N) (sender_thread_id receiver_thread_id : ThreadId)
    (prompt : list N)
| EvCollabAgentInteractionEnd (call_id : list N) (sender_thread_id receiver_thread_id : ThreadId)
    (prompt : list N) (status : AgentResidency.AgentStatus)
| EvSubAgentActivity (event_id : list N) (kind : Core.SubAgentActivityKind) (agent_thread_id : ThreadId)
    (agent_path : AgentPath.AgentPath)
| EvCollabWaitingBegin (call_id : list N) (sender_thread_id : ThreadId) (receiver_thread_ids : list ThreadId)
| EvCollabWaitingEnd (call_id : list N) (sender_thread_id : ThreadId)
    (statuses : gmap ThreadId AgentResidency.AgentStatus)
| EvCollabCloseBegin (call_id : list N) (sender_thread_id receiver_thread_id : ThreadId)
| EvCollabCloseEnd (call_id : list N) (sender_thread_id receiver_thread_id : ThreadId)
    (status : AgentResidency.AgentStatus)
| EvCollabResumeBegin (call_id : list N) (sender_thread_id receiver_thread_id : ThreadId)
| EvCollabResumeEnd (call_id : list N) (sender_thread_id receiver_thread_id : ThreadId)
    (status : AgentResidency.AgentStatus)
| EvContextCompacted
| EvEnteredReviewMode (user_facing_hint turn_id item_id : option (list N))
| EvExitedReviewMode (turn_id item_id : option (list N)) (review_output : option Core.ReviewOutputEvent)
| EvItemStarted (turn_id : list N) (item : Core.TurnItem JsonValue PathUri)
| EvItemCompleted (turn_id : list N) (item : Core.TurnItem JsonValue PathUri)
| EvError (payload : ErrorEvent)
| EvTokenCount
| EvThreadRolledBack (num_turns : N)
| EvTurnAborted (payload : TurnAbortedEvent)
| EvTurnStarted (payload : TurnStartedEvent)
| EvTurnComplete (payload : TurnCompleteEvent)
(** Events without a handler: those that are written to the rollout ([ThreadGoalUpdated],
    [ThreadSettingsApplied]), and all others. *)
| EvDurable
| EvTransient.

Inductive RolloutItem :=
| RolloutEvent (event : EventMsg)
| RolloutCompacted
| RolloutResponseItem (item : ResponseItems.ResponseItem)
| RolloutOther.

(** ** Turns and changes *)

Inductive TurnItemsView := NotLoaded | Summary | Full.

Record Turn := mkTurn {
  turn_id : list N; turn_items : list ThreadItem; items_view : TurnItemsView; turn_status : TurnStatus;
  turn_error : option TurnError; started_at : option Z; completed_at : option Z; duration_ms : option Z }.

Record PendingTurn := mkPending {
  p_id : list N; p_items : list ThreadItem; p_error : option TurnError; p_status : TurnStatus;
  p_started_at : option Z; p_completed_at : option Z; p_duration_ms : option Z;
  p_opened_explicitly : bool; p_saw_compaction : bool; p_rollout_start_index : nat }.

Definition turn_from_pending (t : PendingTurn) : Turn :=
  mkTurn (p_id t) (p_items t) Full (p_status t) (p_error t) (p_started_at t) (p_completed_at t) (p_duration_ms t).

Record ThreadHistoryItemChange := mkItemChange { ic_turn_id : list N; ic_item : ThreadItem }.
Record ThreadHistoryTurnChange := mkTurnChange {
  ch_turn_id : list N; ch_status : TurnStatus; ch_error : option TurnError; ch_started_at : option Z;
  ch_completed_at : option Z; ch_duration_ms : option Z }.
Record ThreadHistoryChangeSet := mkChangeSet {
  changed_items : list ThreadHistoryItemChange; changed_turns : list ThreadHistoryTurnChange;
  removed_turn_ids : list (list N) }.
Definition empty_change_set : ThreadHistoryChangeSet := mkChangeSet [] [] [].
Definition change_set_is_empty (c : ThreadHistoryChangeSet) : bool :=
  bool_decide (length (changed_items c) = 0) && bool_decide (length (changed_turns c) = 0)
  && bool_decide (length (removed_turn_ids c) = 0).

Definition from_pending_turn (t : PendingTurn) : ThreadHistoryTurnChange :=
  mkTurnChange (p_id t) (p_status t) (p_error t) (p_started_at t) (p_completed_at t) (p_duration_ms t).
Definition from_turn (t : Turn) : ThreadHistoryTurnChange :=
  mkTurnChange (turn_id t) (turn_status t) (turn_error t) (started_at t) (completed_at t) (duration_ms t).

(** [uuids_drawn] counts the values taken from the clock of [now_v7]; the rest is the struct. *)
Record ThreadHistoryBuilder := mkBuilder {
  turns : list Turn; current_turn : option PendingTurn; next_item_index : Z;
  current_rollout_index : nat; next_rollout_index : nat;
  active_change_set : option ThreadHistoryChangeSet; uuids_drawn : nat }.

Definition new_builder : ThreadHistoryBuilder := mkBuilder [] None 1 0 0 None 0.

Definition with_turns (f : list Turn → list Turn) (b : ThreadHistoryBuilder) :=
  mkBuilder (f (turns b)) (current_turn b) (next_item_index b) (current_rollout_index b) (next_rollout_index b)
    (active_change_set b) (uuids_drawn b).
Definition with_current (c : option PendingTurn) (b : ThreadHistoryBuilder) :=
  mkBuilder (turns b) c (next_item_index b) (current_rollout_index b) (next_rollout_index b)
    (active_change_set b) (uuids_drawn b).
Definition with_next_item_index (n : Z) (b : ThreadHistoryBuilder) :=
  mkBuilder (turns b) (current_turn b) n (current_rollout_index b) (next_rollout_index b)
    (active_change_set b) (uuids_drawn b).
Definition with_changes (c : option ThreadHistoryChangeSet) (b : ThreadHistoryBuilder) :=
  mkBuilder (turns b) (current_turn b) (next_item_index b) (current_rollout_index b) (next_rollout_index b)
    c (uuids_drawn b).
Definition with_uuid_drawn (b : ThreadHistoryBuilder) :=
  mkBuilder (turns b) (current_turn b) (next_item_index b) (current_rollout_index b) (next_rollout_index b)
    (active_change_set b) (S (uuids_drawn b)).
Definition advance_rollout (b : ThreadHistoryBuilder) :=
  mkBuilder (turns b) (current_turn b) (next_item_index b) (next_rollout_index b) (S (next_rollout_index b))
    (active_change_set b) (uuids_drawn b).

(** ** Recording *)

Definition is_tracking_changes (b : ThreadHistoryBuilder) : bool := bool_decide (is_Some (active_change_set b)).
Definition record_changed_item (turn_id : str) (item : ThreadItem) (b : ThreadHistoryBuilder) : ThreadHistoryBuilder :=
  with_changes ((λ c, mkChangeSet (changed_items c ++ [mkItemChange turn_id item]) (changed_turns c)
                        (removed_turn_ids c)) <$> active_change_set b) b.
Definition record_changed_turn (turn : ThreadHistoryTurnChange) (b : ThreadHistoryBuilder) : ThreadHistoryBuilder :=
  with_changes ((λ c, mkChangeSet (changed_items c) (changed_turns c ++ [turn]) (removed_turn_ids c))
                  <$> active_change_set b) b.
Definition record_changed_pending_turn (turn : PendingTurn) (b : ThreadHistoryBuilder) : ThreadHistoryBuilder :=
  if is_tracking_changes b then record_changed_turn (from_pending_turn turn) b else b.
Definition record_removed_turn_ids (ids : list (list N)) (b : ThreadHistoryBuilder) : ThreadHistoryBuilder :=
  with_changes ((λ c, mkChangeSet (changed_items c) (changed_turns c) (removed_turn_ids c ++ ids))
                  <$> active_change_set b) b.

(** ** Primitive operations *)

Definition next_item_id (b : ThreadHistoryBuilder) : list N * ThreadHistoryBuilder :=
  (lit "item-" ++ lit (pretty (next_item_index b)),
   with_next_item_index (wrap_i64 (next_item_index b + 1)) b).

Definition new_turn (id : option (list N)) (b : ThreadHistoryBuilder) : PendingTurn * ThreadHistoryBuilder :=
  let '(id, b) :=
    match id with
    | Some id => (id, b)
    | None => if bool_decide (next_rollout_index b = 0) then (now_v7 (uuids_drawn b), with_uuid_drawn b)
              else (lit "rollout-" ++ lit (pretty (current_rollout_index b)), b)
    end in
  (mkPending id [] None Completed None None None false false (current_rollout_index b), b).

Definition droppable (t : PendingTurn) : bool :=
  bool_decide (length (p_items t) = 0) && negb (p_opened_explicitly t) && negb (p_saw_compaction t).
Definition finish_current_turn (b : ThreadHistoryBuilder) : ThreadHistoryBuilder :=
  match current_turn b with
  | Some turn =>
      let b := with_current None b in
      if droppable turn then b else with_turns (λ ts, ts ++ [turn_from_pending turn]) b
  | None => b
  end.

Definition open_turn (turn : PendingTurn) (b : ThreadHistoryBuilder) : ThreadHistoryBuilder :=
  with_current (Some turn) (record_changed_pending_turn turn b).
(** The turn that is open after it, and the builder. *)
Definition ensure_turn (b : ThreadHistoryBuilder) : PendingTurn * ThreadHistoryBuilder :=
  match current_turn b with
  | Some turn => (turn, b)
  | None => let '(turn, b) := new_turn None b in (turn, open_turn turn b)
  end.

Definition with_items (items : list ThreadItem) (t : PendingTurn) : PendingTurn :=
  mkPending (p_id t) items (p_error t) (p_status t) (p_started_at t) (p_completed_at t) (p_duration_ms t)
    (p_opened_explicitly t) (p_saw_compaction t) (p_rollout_start_index t).
Definition turn_with_items (items : list ThreadItem) (t : Turn) : Turn :=
  mkTurn (turn_id t) items (items_view t) (turn_status t) (turn_error t) (started_at t) (completed_at t)
    (duration_ms t).

(** Items are replaced by id, or appended. *)
Fixpoint upsert_turn_item (items : list ThreadItem) (item : ThreadItem) : list ThreadItem :=
  match items with
  | [] => [item]
  | i :: items => if bool_decide (item_id i = item_id item) then item :: items
                  else i :: upsert_turn_item items item
  end.

Definition push_item_in_current_turn (item : ThreadItem) (b : ThreadHistoryBuilder) : ThreadHistoryBuilder :=
  let '(turn, b) := ensure_turn b in
  record_changed_item (p_id turn) item (with_current (Some (with_items (p_items turn ++ [item]) turn)) b).

Definition upsert_item_in_current_turn (item : ThreadItem) (b : ThreadHistoryBuilder) : ThreadHistoryBuilder :=
  let '(turn, b) := ensure_turn b in
  record_changed_item (p_id turn) item
    (with_current (Some (with_items (upsert_turn_item (p_items turn) item) turn)) b).

(** [iter_mut().find(|turn| turn.id == id)]: the first turn of that id is changed. *)
Fixpoint update_turn (id : str) (f : Turn → Turn) (ts : list Turn) : list Turn :=
  match ts with
  | [] => []
  | t :: ts => if bool_decide (turn_id t = id) then f t :: ts else t :: update_turn id f ts
  end.
Definition find_turn (id : str) (ts : list Turn) : option Turn :=
  snd <$> list_find (λ t, turn_id t = id) ts.

Definition current_is (id : str) (b : ThreadHistoryBuilder) : option PendingTurn :=
  turn ← current_turn b; if bool_decide (p_id turn = id) then Some turn else None.

(** An item for a turn that is not known is dropped, with a warning. *)
Definition upsert_item_in_turn_id (id : str) (item : ThreadItem) (b : ThreadHistoryBuilder) : ThreadHistoryBuilder :=
  match current_is id b with
  | Some turn =>
      record_changed_item (p_id turn) item
        (with_current (Some (with_items (upsert_turn_item (p_items turn) item) turn)) b)
  | None =>
      match find_turn id (turns b) with
      | Some turn =>
          record_changed_item (turn_id turn) item
            (with_turns (update_turn id (λ t, turn_with_items (upsert_turn_item (turn_items t) item) t)) b)
      | None => b
      end
  end.

Definition upsert_review_mode_item (id : option (list N)) (item : ThreadItem) (b : ThreadHistoryBuilder) :
    ThreadHistoryBuilder :=
  match id with
  | None => upsert_item_in_current_turn item b
  | Some id =>
      let known := bool_decide (is_Some (current_is id b)) || bool_decide (is_Some (find_turn id (turns b))) in
      let b := if known then b
               else let '(turn, b) := new_turn (Some id) (finish_current_turn b) in open_turn turn b in
      upsert_item_in_turn_id id item b
  end.

Definition upsert_item_routed (id : str) (item : ThreadItem) (b : ThreadHistoryBuilder) : ThreadHistoryBuilder :=
  if bool_decide (id = []) then upsert_item_in_current_turn item b else upsert_item_in_turn_id id item b.

(** ** Handlers *)

(** One input for each image, with its detail if there is one at that index. *)
Definition image_inputs (mk : option ResponseItems.ImageDetail → list N → UserInput)
    (details : list (option ResponseItems.ImageDetail)) (images : list (list N)) : list UserInput :=
  imap (λ idx image, mk (mjoin (details !! idx)) image) images.

Definition build_user_inputs (payload : UserMessageEvent) : list UserInput :=
  (if bool_decide (trim (um_message payload) = []) then []
   else [UserText (um_message payload) (text_element_from_core <$> um_text_elements payload)]) ++
  image_inputs UserImage (um_image_details payload) (default [] (um_images payload)) ++
  image_inputs UserLocalImage (um_local_image_details payload) (um_local_images payload).

Definition handle_response_item (item : ResponseItems.ResponseItem) (b : ThreadHistoryBuilder) :
    ThreadHistoryBuilder :=
  match item with
  | ResponseItems.Message id role content _ _ =>
      if bool_decide (role = lit "user") then
        match parse_hook_prompt_message content with
        | Some fragments =>
            let '(id, b) := match id with
                            | Some id => (id, b)
                            | None => (now_v7 (uuids_drawn b), with_uuid_drawn b)
                            end in
            push_item_in_current_turn (HookPrompt id fragments) b
        | None => b
        end
      else b
  | _ => b
  end.

Definition handle_user_message (payload : UserMessageEvent) (b : ThreadHistoryBuilder) : ThreadHistoryBuilder :=
  let b := match current_turn b with
           | Some turn =>
               if negb (p_opened_explicitly turn)
                  && negb (p_saw_compaction turn && bool_decide (length (p_items turn) = 0))
               then finish_current_turn b else b
           | None => b
           end in
  let '(id, b) := next_item_id b in
  push_item_in_current_turn (UserMessage id (um_client_id payload) (build_user_inputs payload)) b.

Definition handle_agent_message (text : str) (phase : option MessagePhase)
    (memory_citation : option MemoryCitation) (b : ThreadHistoryBuilder) : ThreadHistoryBuilder :=
  if bool_decide (text = []) then b
  else let '(id, b) := next_item_id b in
       push_item_in_current_turn (AgentMessage id text phase memory_citation) b.

(** The two reasoning handlers differ in the list the text is added to. *)
Definition add_reasoning (add : ThreadItem → option ThreadItem) (mk : list N → ThreadItem)
    (b : ThreadHistoryBuilder) : ThreadHistoryBuilder :=
  let '(turn, b) := ensure_turn b in
  match last (p_items turn) ≫= add with
  | Some item =>
      record_changed_item (p_id turn) item
        (with_current (Some (with_items (removelast (p_items turn) ++ [item]) turn)) b)
  | None => let '(id, b) := next_item_id b in push_item_in_current_turn (mk id) b
  end.
Definition handle_agent_reasoning (text : str) (b : ThreadHistoryBuilder) : ThreadHistoryBuilder :=
  if bool_decide (text = []) then b
  else add_reasoning (λ i, match i with
                           | Reasoning id summary content => Some (Reasoning id (summary ++ [text]) content)
                           | _ => None
                           end)
         (λ id, Reasoning id [text] []) b.
Definition handle_agent_reasoning_raw_content (text : str) (b : ThreadHistoryBuilder) : ThreadHistoryBuilder :=
  if bool_decide (text = []) then b
  else add_reasoning (λ i, match i with
                           | Reasoning id summary content => Some (Reasoning id summary (content ++ [text]))
                           | _ => None
                           end)
         (λ id, Reasoning id [] [text]) b.

Definition is_review_mode_item (item : Core.TurnItem JsonValue PathUri) : bool :=
  match item with Core.EnteredReviewMode _ _ | Core.ExitedReviewMode _ _ => true | _ => false end.
Definition should_upsert (item : Core.TurnItem JsonValue PathUri) : bool :=
  match item with
  | Core.Plan _ text => negb (bool_decide (text = []))
  | Core.Sleep _ _ | Core.HookPrompt _ _ | Core.CommandExecution _ | Core.DynamicToolCall _ _ _ _ _ _ _ _
  | Core.CollabAgentToolCall _ _ _ _ _ _ _ _ _ | Core.SubAgentActivity _ _ _ _ | Core.Extension _
  | Core.EnteredReviewMode _ _ | Core.ExitedReviewMode _ _ => true
  | _ => false
  end.
Definition handle_materialized_item_lifecycle (id : str) (item : Core.TurnItem JsonValue PathUri)
    (b : ThreadHistoryBuilder) : ThreadHistoryBuilder :=
  if should_upsert item then
    if is_review_mode_item item then upsert_review_mode_item (Some id) (item_from_core item) b
    else upsert_item_in_turn_id id (item_from_core item) b
  else b.

Definition handle_guardian_assessment (payload : GuardianAssessmentEvent) (b : ThreadHistoryBuilder) :
    ThreadHistoryBuilder :=
  let status := match ga_status payload with
                | GuardianInProgress => Some CmdInProgress
                | GuardianDenied | GuardianAborted => Some CmdDeclined
                | GuardianTimedOut => Some CmdFailed
                | GuardianApproved => None
                end in
  match status ≫= build_item_from_guardian_event payload with
  | Some item => upsert_item_routed (ga_turn_id payload) item b
  | None => b
  end.

Definition dynamic_request_item (payload : DynamicToolCallRequest) : ThreadItem :=
  DynamicToolCall (dr_call_id payload) (dr_namespace payload) (dr_tool payload) (dr_arguments payload)
    DynInProgress None None None.
Definition dynamic_response_item (payload : DynamicToolCallResponseEvent) : ThreadItem :=
  let request := dp_request payload in
  DynamicToolCall (dr_call_id request) (dr_namespace request) (dr_tool request) (dr_arguments request)
    (if dp_success payload then DynCompleted else DynFailed)
    (Some (convert_dynamic_tool_content_items (dp_content_items payload))) (Some (dp_success payload))
    (i64_try_from (as_millis (dp_duration payload))).

Definition mcp_app_context (payload : McpToolCallEvent) : option McpToolCallAppContext :=
  (λ connector_id, mkAppContext connector_id (me_link_id payload) (me_mcp_app_resource_uri payload)
                     (me_app_name payload) (me_template_id payload) (me_action_name payload))
    <$> me_connector_id payload.
Definition mcp_begin_item (payload : McpToolCallEvent) : ThreadItem :=
  McpToolCall (me_call_id payload) (inv_server (me_invocation payload)) (inv_tool (me_invocation payload))
    McpInProgress (default JsonNull (inv_arguments (me_invocation payload))) (mcp_app_context payload)
    (me_mcp_app_resource_uri payload) (me_plugin_id payload) None None None.
(** [McpToolCallEndEvent::is_success]. *)
Definition mcp_is_success (r : result (list N) (Core.CallToolResult JsonValue)) : bool :=
  match r with Ok value => negb (default false (Core.is_error value)) | Err _ => false end.
Definition mcp_end_item (payload : McpToolCallEvent) (duration : Duration)
    (r : result (list N) (Core.CallToolResult JsonValue)) : ThreadItem :=
  let '(res, error) := match r with
                       | Ok value => (Some (mcp_result_from_core value), None)
                       | Err message => (None, Some message)
                       end in
  McpToolCall (me_call_id payload) (inv_server (me_invocation payload)) (inv_tool (me_invocation payload))
    (if mcp_is_success r then McpCompleted else McpFailed)
    (default JsonNull (inv_arguments (me_invocation payload))) (mcp_app_context payload)
    (me_mcp_app_resource_uri payload) (me_plugin_id payload) res error
    (i64_try_from (as_millis duration)).

(** [AgentStatus::Errored(_) | AgentStatus::NotFound]. *)
Definition agent_failed (s : AgentResidency.AgentStatus) : bool :=
  match s with AgentResidency.Errored _ | AgentResidency.NotFound => true | _ => false end.
Definition collab_end_status (failed : bool) : CollabAgentToolCallStatus :=
  if failed then CollabFailed else CollabCompleted.

Definition spawn_begin_item (call_id sender prompt model : list N) (effort : ReasoningEffort) : ThreadItem :=
  CollabAgentToolCall call_id SpawnAgent CollabInProgress sender [] (Some prompt) (Some model) (Some effort) ∅.
Definition spawn_end_item (call_id sender : list N) (new_thread_id : option (list N)) (prompt model : list N)
    (effort : ReasoningEffort) (status : AgentResidency.AgentStatus) : ThreadItem :=
  CollabAgentToolCall call_id SpawnAgent
    (collab_end_status (agent_failed status || bool_decide (new_thread_id = None))) sender
    (option_list new_thread_id) (Some prompt) (Some model) (Some effort)
    match new_thread_id with Some id => {[ id := agent_state_from_core status ]} | None => ∅ end.
(** The begin and end items of [SendInput], [CloseAgent] and [ResumeAgent]. *)
Definition one_agent_begin_item (tool : CollabAgentTool) (call_id sender receiver : list N)
    (prompt : option (list N)) : ThreadItem :=
  CollabAgentToolCall call_id tool CollabInProgress sender [receiver] prompt None None ∅.
Definition one_agent_end_item (tool : CollabAgentTool) (call_id sender receiver : list N)
    (prompt : option (list N)) (status : AgentResidency.AgentStatus) : ThreadItem :=
  CollabAgentToolCall call_id tool (collab_end_status (agent_failed status)) sender [receiver] prompt None None
    {[ receiver := agent_state_from_core status ]}.
Definition waiting_begin_item (call_id sender : list N) (receivers : list (list N)) : ThreadItem :=
  CollabAgentToolCall call_id Wait CollabInProgress sender receivers None None None ∅.

Definition str_le (a b : list N) : Prop := str_compare a b ≠ Gt.
#[local] Instance str_le_dec a b : Decision (str_le a b).
Proof. unfold str_le. apply not_dec. destruct (str_compare _ _); [right|right|left]; done. Defined.
Definition waiting_end_item (call_id sender : list N) (statuses : gmap (list N) AgentResidency.AgentStatus) :
    ThreadItem :=
  CollabAgentToolCall call_id Wait (collab_end_status (existsb (λ s, agent_failed s.2) (map_to_list statuses))) sender
    (merge_sort str_le (fst <$> map_to_list statuses)) None None None
    (agent_state_from_core <$> statuses).

Definition handle_entered_review_mode (hint id item_id : option (list N)) (b : ThreadHistoryBuilder) :
    ThreadHistoryBuilder :=
  let review := default (lit "Review requested.") hint in
  let '(i, b) := match item_id with Some i => (i, b) | None => next_item_id b end in
  upsert_review_mode_item id (EnteredReviewMode i review) b.
Definition handle_exited_review_mode (id item_id : option (list N)) (output : option Core.ReviewOutputEvent)
    (b : ThreadHistoryBuilder) : ThreadHistoryBuilder :=
  let review := review_output_text output in
  let '(i, b) := match item_id with Some i => (i, b) | None => next_item_id b end in
  upsert_review_mode_item id (ExitedReviewMode i review) b.

Definition set_error (e : ErrorEvent) (t : PendingTurn) : PendingTurn :=
  mkPending (p_id t) (p_items t) (Some (turn_error_from e)) Failed (p_started_at t) (p_completed_at t)
    (p_duration_ms t) (p_opened_explicitly t) (p_saw_compaction t) (p_rollout_start_index t).
Definition handle_error (payload : ErrorEvent) (b : ThreadHistoryBuilder) : ThreadHistoryBuilder :=
  if affects_turn_status payload then
    match current_turn b with
    | Some turn =>
        let turn := set_error payload turn in
        record_changed_turn (from_pending_turn turn) (with_current (Some turn) b)
    | None => b
    end
  else b.

(** Status and times of a turn that ends. *)
Definition end_pending (status : TurnStatus → TurnStatus) (completed_at duration_ms : option Z) (t : PendingTurn) :
    PendingTurn :=
  mkPending (p_id t) (p_items t) (p_error t) (status (p_status t)) (p_started_at t) completed_at duration_ms
    (p_opened_explicitly t) (p_saw_compaction t) (p_rollout_start_index t).
Definition end_turn (status : TurnStatus → TurnStatus) (completed duration : option Z) (t : Turn) : Turn :=
  mkTurn (turn_id t) (turn_items t) (items_view t) (status (turn_status t)) (turn_error t) (started_at t)
    completed duration.
Definition mark_aborted (s : TurnStatus) : TurnStatus := Interrupted.
Definition mark_completed (s : TurnStatus) : TurnStatus :=
  match s with Completed | InProgress => Completed | _ => s end.

Definition end_current (f : PendingTurn → PendingTurn) (turn : PendingTurn) (b : ThreadHistoryBuilder) :
    ThreadHistoryBuilder :=
  record_changed_turn (from_pending_turn (f turn)) (with_current (Some (f turn)) b).
Definition end_finished (id : str) (f : Turn → Turn) (turn : Turn) (b : ThreadHistoryBuilder) : ThreadHistoryBuilder :=
  record_changed_turn (from_turn (f turn)) (with_turns (update_turn id f) b).

Definition handle_turn_aborted (payload : TurnAbortedEvent) (b : ThreadHistoryBuilder) : ThreadHistoryBuilder :=
  let abort := end_pending mark_aborted (ta_completed_at payload) (ta_duration_ms payload) in
  let abort_finished := end_turn mark_aborted (ta_completed_at payload) (ta_duration_ms payload) in
  let fallback := match current_turn b with Some turn => end_current abort turn b | None => b end in
  match ta_turn_id payload with
  | Some id =>
      match current_is id b with
      | Some turn => end_current abort turn b
      | None => match find_turn id (turns b) with
                | Some turn => end_finished id abort_finished turn b
                | None => fallback
                end
      end
  | None => fallback
  end.

Definition started_turn (payload : TurnStartedEvent) (t : PendingTurn) : PendingTurn :=
  mkPending (p_id t) (p_items t) (p_error t) InProgress (ts_started_at payload) (p_completed_at t)
    (p_duration_ms t) true (p_saw_compaction t) (p_rollout_start_index t).
Definition handle_turn_started (payload : TurnStartedEvent) (b : ThreadHistoryBuilder) : ThreadHistoryBuilder :=
  let '(turn, b) := new_turn (Some (ts_turn_id payload)) (finish_current_turn b) in
  open_turn (started_turn payload turn) b.

Definition handle_turn_complete (payload : TurnCompleteEvent) (b : ThreadHistoryBuilder) : ThreadHistoryBuilder :=
  let complete := end_pending mark_completed (tc_completed_at payload) (tc_duration_ms payload) in
  let complete_finished := end_turn mark_completed (tc_completed_at payload) (tc_duration_ms payload) in
  match current_is (tc_turn_id payload) b with
  | Some turn => finish_current_turn (end_current complete turn b)
  | None =>
      match find_turn (tc_turn_id payload) (turns b) with
      | Some turn => end_finished (tc_turn_id payload) complete_finished turn b
      | None => match current_turn b with
                | Some turn => finish_current_turn (end_current complete turn b)
                | None => b
                end
      end
  end.

Definition saw_compaction (t : PendingTurn) : PendingTurn :=
  mkPending (p_id t) (p_items t) (p_error t) (p_status t) (p_started_at t) (p_completed_at t) (p_duration_ms t)
    (p_opened_explicitly t) true (p_rollout_start_index t).
Definition handle_compacted (b : ThreadHistoryBuilder) : ThreadHistoryBuilder :=
  let '(turn, b) := ensure_turn b in with_current (Some (saw_compaction turn)) b.

Definition item_count (ts : list Turn) : nat := sum_list (length ∘ turn_items <$> ts).
Definition recount (count : nat) : Z :=
  default i64_max (i64_try_from (N.min (N.of_nat count + 1) usize_max)).
Definition handle_thread_rollback (num_turns : N) (b : ThreadHistoryBuilder) : ThreadHistoryBuilder :=
  let b := finish_current_turn b in
  let len := N.of_nat (length (turns b)) in
  let removed := if (len <=? num_turns)%N then turn_id <$> turns b
                 else if (num_turns =? 0)%N then []
                 else turn_id <$> drop (N.to_nat (len - num_turns)) (turns b) in
  let b := record_removed_turn_ids removed b in
  let b := if (len <=? num_turns)%N then with_turns (λ _, []) b
           else with_turns (take (N.to_nat (len - num_turns))) b in
  with_next_item_index (recount (item_count (turns b))) b.

(** ** Dispatch *)

Definition handle_event (event : EventMsg) (b : ThreadHistoryBuilder) : ThreadHistoryBuilder :=
  match event with
  | EvUserMessage payload => handle_user_message payload b
  | EvAgentMessage message phase memory_citation =>
      handle_agent_message message phase (memory_citation_from_core <$> memory_citation) b
  | EvAgentReasoning text => handle_agent_reasoning text b
  | EvAgentReasoningRawContent text => handle_agent_reasoning_raw_content text b
  | EvWebSearchBegin call_id => upsert_item_in_current_turn (WebSearch (mkWebSearch call_id [] None)) b
  | EvWebSearchEnd call_id query action =>
      upsert_item_in_current_turn
        (WebSearch (mkWebSearch call_id query (Some (web_search_action_from_core action)))) b
  | EvExecCommandBegin payload =>
      upsert_item_in_turn_id (eb_turn_id payload) (build_command_execution_begin_item payload) b
  | EvExecCommandEnd payload =>
      upsert_item_in_turn_id (ee_turn_id payload) (build_command_execution_end_item payload) b
  | EvGuardianAssessment payload => handle_guardian_assessment payload b
  | EvApplyPatchApprovalRequest payload =>
      upsert_item_routed (pe_turn_id payload) (build_file_change_approval_request_item payload) b
  | EvPatchApplyBegin payload => upsert_item_routed (pe_turn_id payload) (build_file_change_begin_item payload) b
  | EvPatchApplyEnd payload status =>
      upsert_item_routed (pe_turn_id payload) (build_file_change_end_item payload status) b
  | EvDynamicToolCallRequest payload => upsert_item_routed (dr_turn_id payload) (dynamic_request_item payload) b
  | EvDynamicToolCallResponse payload =>
      upsert_item_routed (dr_turn_id (dp_request payload)) (dynamic_response_item payload) b
  | EvMcpToolCallBegin payload => upsert_item_in_current_turn (mcp_begin_item payload) b
  | EvMcpToolCallEnd payload duration result =>
      upsert_item_in_current_turn (mcp_end_item payload duration result) b
  | EvViewImageToolCall call_id path => upsert_item_in_current_turn (ImageView call_id (uri_legacy path)) b
  | EvImageGenerationBegin call_id =>
      upsert_item_in_current_turn (ImageGeneration (mkImageGeneration call_id [] None [] None)) b
  | EvImageGenerationEnd call_id status revised_prompt result saved_path =>
      upsert_item_in_current_turn
        (ImageGeneration (mkImageGeneration call_id status revised_prompt result saved_path)) b
  | EvCollabAgentSpawnBegin call_id sender prompt model effort =>
      upsert_item_in_current_turn (spawn_begin_item call_id sender prompt model effort) b
  | EvCollabAgentSpawnEnd call_id sender new_thread_id prompt model effort status =>
      upsert_item_in_current_turn (spawn_end_item call_id sender new_thread_id prompt model effort status) b
  | EvCollabAgentInteractionBegin call_id sender receiver prompt =>
      upsert_item_in_current_turn (one_agent_begin_item SendInput call_id sender receiver (Some prompt)) b
  | EvCollabAgentInteractionEnd call_id sender receiver prompt status =>
      upsert_item_in_current_turn (one_agent_end_item SendInput call_id sender receiver (Some prompt) status) b
  | EvSubAgentActivity event_id kind agent_thread_id agent_path =>
      upsert_item_in_current_turn
        (SubAgentActivity event_id (activity_kind_from_core kind) agent_thread_id (as_str agent_path)) b
  | EvCollabWaitingBegin call_id sender receivers =>
      upsert_item_in_current_turn (waiting_begin_item call_id sender receivers) b
  | EvCollabWaitingEnd call_id sender statuses =>
      upsert_item_in_current_turn (waiting_end_item call_id sender statuses) b
  | EvCollabCloseBegin call_id sender receiver =>
      upsert_item_in_current_turn (one_agent_begin_item CloseAgent call_id sender receiver None) b
  | EvCollabCloseEnd call_id sender receiver status =>
      upsert_item_in_current_turn (one_agent_end_item CloseAgent call_id sender receiver None status) b
  | EvCollabResumeBegin call_id sender receiver =>
      upsert_item_in_current_turn (one_agent_begin_item ResumeAgent call_id sender receiver None) b
  | EvCollabResumeEnd call_id sender receiver status =>
      upsert_item_in_current_turn (one_agent_end_item ResumeAgent call_id sender receiver None status) b
  | EvContextCompacted =>
      let '(id, b) := next_item_id b in push_item_in_current_turn (ContextCompaction id) b
  | EvEnteredReviewMode hint id item_id => handle_entered_review_mode hint id item_id b
  | EvExitedReviewMode id item_id output => handle_exited_review_mode id item_id output b
  | EvItemStarted id item | EvItemCompleted id item => handle_materialized_item_lifecycle id item b
  | EvError payload => handle_error payload b
  | EvTokenCount => b
  | EvThreadRolledBack num_turns => handle_thread_rollback num_turns b
  | EvTurnAborted payload => handle_turn_aborted payload b
  | EvTurnStarted payload => handle_turn_started payload b
  | EvTurnComplete payload => handle_turn_complete payload b
  | EvDurable | EvTransient => b
  end.

Definition handle_rollout_item (item : RolloutItem) (b : ThreadHistoryBuilder) : ThreadHistoryBuilder :=
  let b := advance_rollout b in
  match item with
  | RolloutEvent event => handle_event event b
  | RolloutCompacted => handle_compacted b
  | RolloutResponseItem item => handle_response_item item b
  | RolloutOther => b
  end.
Definition handle_rollout_items (items : list RolloutItem) (b : ThreadHistoryBuilder) : ThreadHistoryBuilder :=
  fold_left (λ b item, handle_rollout_item item b) items b.

Definition finish (b : ThreadHistoryBuilder) : list Turn := turns (finish_current_turn b).
Definition build_turns_from_rollout_items (items : list RolloutItem) : list Turn :=
  finish (handle_rollout_items items new_builder).

(** ** Queries *)

Definition active_turn_snapshot (b : ThreadHistoryBuilder) : option Turn :=
  match current_turn b with Some turn => Some (turn_from_pending turn) | None => last (turns b) end.
Definition turn_snapshot (id : str) (b : ThreadHistoryBuilder) : option Turn :=
  match current_is id b with Some turn => Some (turn_from_pending turn) | None => find_turn id (turns b) end.
Definition active_turn_position (b : ThreadHistoryBuilder) : option nat :=
  match current_turn b with
  | Some _ => Some (length (turns b))
  | None => if bool_decide (length (turns b) = 0) then None else Some (length (turns b) - 1)
  end.
Definition has_active_turn (b : ThreadHistoryBuilder) : bool := bool_decide (is_Some (current_turn b)).
Definition active_turn_id_if_explicit (b : ThreadHistoryBuilder) : option (list N) :=
  turn ← current_turn b; if p_opened_explicitly turn then Some (p_id turn) else None.
Definition active_turn_start_index (b : ThreadHistoryBuilder) : option nat :=
  p_rollout_start_index <$> current_turn b.

(** ** Changes of one item and of a batch *)

Definition collect_changes (handle : ThreadHistoryBuilder → ThreadHistoryBuilder) (b : ThreadHistoryBuilder) :
    ThreadHistoryBuilder * ThreadHistoryChangeSet :=
  let b := handle (with_changes (Some empty_change_set) b) in
  (with_changes None b, default empty_change_set (active_change_set b)).
Definition handle_event_with_changes (event : EventMsg) : ThreadHistoryBuilder → ThreadHistoryBuilder * ThreadHistoryChangeSet :=
  collect_changes (handle_event event).
Definition handle_rollout_item_with_changes (item : RolloutItem) :
    ThreadHistoryBuilder → ThreadHistoryBuilder * ThreadHistoryChangeSet :=
  collect_changes (handle_rollout_item item).

(** Slots of changes in the order of the first change, with the index of each key; a change that a
    roll-back takes away leaves an empty slot. *)
Record ThreadHistoryChangeAccumulator := mkAccumulator {
  acc_items : list (option ThreadHistoryItemChange); acc_item_indexes : gmap (list N * list N) nat;
  acc_turns : list (option ThreadHistoryTurnChange); acc_turn_indexes : gmap (list N) nat;
  acc_removed : list (list N); acc_removed_indexes : gmap (list N) nat }.
Definition empty_accumulator : ThreadHistoryChangeAccumulator := mkAccumulator [] ∅ [] ∅ [] ∅.

Definition push_item_change (change : ThreadHistoryItemChange) (a : ThreadHistoryChangeAccumulator) :
    ThreadHistoryChangeAccumulator :=
  let key := (ic_turn_id change, item_id (ic_item change)) in
  match acc_item_indexes a !! key with
  | Some index => mkAccumulator (<[index := Some change]> (acc_items a)) (acc_item_indexes a) (acc_turns a)
                    (acc_turn_indexes a) (acc_removed a) (acc_removed_indexes a)
  | None => mkAccumulator (acc_items a ++ [Some change]) (<[key := length (acc_items a)]> (acc_item_indexes a))
              (acc_turns a) (acc_turn_indexes a) (acc_removed a) (acc_removed_indexes a)
  end.
Definition push_turn_change (change : ThreadHistoryTurnChange) (a : ThreadHistoryChangeAccumulator) :
    ThreadHistoryChangeAccumulator :=
  match acc_turn_indexes a !! ch_turn_id change with
  | Some index => mkAccumulator (acc_items a) (acc_item_indexes a) (<[index := Some change]> (acc_turns a))
                    (acc_turn_indexes a) (acc_removed a) (acc_removed_indexes a)
  | None => mkAccumulator (acc_items a) (acc_item_indexes a) (acc_turns a ++ [Some change])
              (<[ch_turn_id change := length (acc_turns a)]> (acc_turn_indexes a))
              (acc_removed a) (acc_removed_indexes a)
  end.

Definition clear_slots {A} (indexes : list nat) (slots : list (option A)) : list (option A) :=
  foldr (λ index slots, <[index := None]> slots) slots indexes.
Definition push_removed_turn_id (id : str) (a : ThreadHistoryChangeAccumulator) : ThreadHistoryChangeAccumulator :=
  let '(removed, removed_indexes) :=
    match acc_removed_indexes a !! id with
    | Some _ => (acc_removed a, acc_removed_indexes a)
    | None => (acc_removed a ++ [id], <[id := length (acc_removed a)]> (acc_removed_indexes a))
    end in
  let of_turn := filter (λ e : (list N * list N) * nat, e.1.1 = id) (map_to_list (acc_item_indexes a)) in
  mkAccumulator (clear_slots (snd <$> of_turn) (acc_items a))
    (filter (λ e : (list N * list N) * nat, e.1.1 ≠ id) (acc_item_indexes a))
    (match acc_turn_indexes a !! id with Some index => <[index := None]> (acc_turns a) | None => acc_turns a end)
    (delete id (acc_turn_indexes a)) removed removed_indexes.

Definition push_changes (changes : ThreadHistoryChangeSet) (a : ThreadHistoryChangeAccumulator) :
    ThreadHistoryChangeAccumulator :=
  let a := fold_left (λ a id, push_removed_turn_id id a) (removed_turn_ids changes) a in
  let a := fold_left (λ a change, push_item_change change a) (changed_items changes) a in
  fold_left (λ a change, push_turn_change change a) (changed_turns changes) a.
Definition accumulator_finish (a : ThreadHistoryChangeAccumulator) : ThreadHistoryChangeSet :=
  mkChangeSet (omap id (acc_items a)) (omap id (acc_turns a)) (acc_removed a).

Fixpoint batch_loop (items : list RolloutItem) (b : ThreadHistoryBuilder) (a : ThreadHistoryChangeAccumulator) :
    ThreadHistoryBuilder * ThreadHistoryChangeAccumulator :=
  match items with
  | [] => (b, a)
  | item :: items =>
      let '(b, changes) := handle_rollout_item_with_changes item b in
      batch_loop items b (push_changes changes a)
  end.
Definition handle_rollout_items_with_changes (items : list RolloutItem) (b : ThreadHistoryBuilder) :
    ThreadHistoryBuilder * ThreadHistoryChangeSet :=
  let '(b, a) := batch_loop items b empty_accumulator in (b, accumulator_finish a).

(** ** The stateless projection (thread_history_projection.rs) *)

Definition project_rollout_line (item : RolloutItem) : ThreadHistoryChangeSet :=
  match item with
  | RolloutEvent (EvTurnStarted event) =>
      mkChangeSet [] [mkTurnChange (ts_turn_id event) InProgress None (ts_started_at event) None None] []
  | RolloutEvent (EvTurnComplete event) =>
      mkChangeSet []
        [mkTurnChange (tc_turn_id event) (if tc_error event then Failed else Completed)
           (turn_error_from <$> tc_error event) (tc_started_at event) (tc_completed_at event) (tc_duration_ms event)] []
  | RolloutEvent (EvTurnAborted event) =>
      match ta_turn_id event with
      | Some id => mkChangeSet [] [mkTurnChange id Interrupted None (ta_started_at event) (ta_completed_at event)
                                     (ta_duration_ms event)] []
      | None => empty_change_set
      end
  | RolloutEvent (EvItemCompleted id item) => mkChangeSet [mkItemChange id (item_from_core item)] [] []
  | _ => empty_change_set
  end.

(** ** What is written to a rollout (rollout/src/policy.rs) *)

Inductive ThreadHistoryMode := Legacy | Paginated.
Definition is_legacy (m : ThreadHistoryMode) : bool := match m with Legacy => true | Paginated => false end.

Definition should_persist_response_item (item : ResponseItems.ResponseItem) : bool :=
  match item with
  | ResponseItems.AdditionalTools _ _ _ | ResponseItems.CompactionTrigger | ResponseItems.Other => false
  | _ => true
  end.
Definition should_persist_event_msg (ev : EventMsg) (mode : ThreadHistoryMode) : bool :=
  match ev with
  | EvItemCompleted _ item =>
      negb (is_legacy mode) || match item with Core.Plan _ _ | Core.Sleep _ _ => true | _ => false end
  | EvTokenCount | EvThreadRolledBack _ | EvTurnAborted _ | EvTurnStarted _ | EvTurnComplete _ | EvDurable => true
  | EvUserMessage _ | EvAgentMessage _ _ _ | EvAgentReasoning _ | EvAgentReasoningRawContent _
  | EvEnteredReviewMode _ _ _ | EvExitedReviewMode _ _ _ | EvPatchApplyEnd _ _ | EvContextCompacted
  | EvMcpToolCallEnd _ _ _ | EvWebSearchEnd _ _ _ | EvImageGenerationEnd _ _ _ _ _
  | EvSubAgentActivity _ _ _ _ => is_legacy mode
  | _ => false
  end.
Definition is_persisted_rollout_item (item : RolloutItem) (mode : ThreadHistoryMode) : bool :=
  match item with
  | RolloutResponseItem item => should_persist_response_item item
  | RolloutEvent ev => should_persist_event_msg ev mode
  | RolloutCompacted | RolloutOther => true
  end.
Definition persisted_rollout_items (items : list RolloutItem) (mode : ThreadHistoryMode) : list RolloutItem :=
  List.filter (λ item, is_persisted_rollout_item item mode) items.

(** ** Clients of the builder *)

(** app-server/src/request_processors.rs. *)
Definition build_legacy_api_turns_from_rollout_items (items : list RolloutItem) : list Turn :=
  finish (fold_left (λ b item, if is_persisted_rollout_item item Legacy then handle_rollout_item item b else b)
            items new_builder).

(** [latest_token_usage_turn_id_from_rollout_items] (app-server/src/request_processors/
    token_usage_replay.rs): the turn that was active at the last token count. *)
Fixpoint token_usage_loop (items : list RolloutItem) (b : ThreadHistoryBuilder)
    (owner : option (list N * option nat)) : option (list N * option nat) :=
  match items with
  | [] => owner
  | item :: items =>
      let owner := match item with
                   | RolloutEvent EvTokenCount =>
                       (λ turn, (turn_id turn, active_turn_position b)) <$> active_turn_snapshot b
                   | _ => owner
                   end in
      token_usage_loop items (handle_rollout_item item b) owner
  end.
Definition latest_token_usage_turn_id_from_rollout_items (items : list RolloutItem) (ts : list Turn) :
    option (list N) :=
  '(id, position) ← token_usage_loop items new_builder None;
  if bool_decide (is_Some (find_turn id ts)) then Some id
  else position ← position; turn_id <$> ts !! position.

End history.
