(* ===== verification/ThreadHistoryLaws.v ===== *)
(** * What the reported changes say of the turns

    A client that keeps a copy of the turns brings it up to date with a change set:
    [apply_changes].  [tracks b b' cs] says that a step from [b] to [b'] reports [cs] and that [cs]
    does to the turns what the step does.  It holds for every item of a rollout in which ids are
    used once ([admissible]); the state keeps [hist_inv], from which it follows that the ids the
    builder makes up are new. *)

From stdpp Require Import prelude strings pretty gmap.
From S2P Require Import Prelude RustStr ResponseItems RolloutTruncation CoreItems ThreadItems ThreadHistory.

Section laws.
Context {W : Wire}.

(** ** The client *)

(** The turns as they would be if the open turn ended now. *)
Definition snapshot (b : ThreadHistoryBuilder) : list Turn :=
  turns b ++ option_list (turn_from_pending <$> current_turn b).

Definition turn_ids (ts : list Turn) : list (list N) := turn_id <$> ts.

Definition change_meta (ch : ThreadHistoryTurnChange) (t : Turn) : Turn :=
  mkTurn (turn_id t) (turn_items t) (items_view t) (ch_status ch) (ch_error ch) (ch_started_at ch)
    (ch_completed_at ch) (ch_duration_ms ch).
Definition new_from_change (ch : ThreadHistoryTurnChange) : Turn :=
  mkTurn (ch_turn_id ch) [] Full (ch_status ch) (ch_error ch) (ch_started_at ch) (ch_completed_at ch)
    (ch_duration_ms ch).
Definition apply_turn_change (ts : list Turn) (ch : ThreadHistoryTurnChange) : list Turn :=
  if bool_decide (ch_turn_id ch ∈ turn_ids ts) then update_turn (ch_turn_id ch) (change_meta ch) ts
  else ts ++ [new_from_change ch].
Definition upsert_in (item : ThreadItem) (t : Turn) : Turn :=
  turn_with_items (upsert_turn_item (turn_items t) item) t.
Definition apply_item_change (ts : list Turn) (ch : ThreadHistoryItemChange) : list Turn :=
  update_turn (ic_turn_id ch) (upsert_in (ic_item ch)) ts.
Definition remove_turns (ids : list (list N)) (ts : list Turn) : list Turn := filter (λ t, turn_id t ∉ ids) ts.

Definition apply_changes (cs : ThreadHistoryChangeSet) (ts : list Turn) : list Turn :=
  fold_left apply_item_change (changed_items cs)
    (fold_left apply_turn_change (changed_turns cs) (remove_turns (removed_turn_ids cs) ts)).

Definition append_changes (c cs : ThreadHistoryChangeSet) : ThreadHistoryChangeSet :=
  mkChangeSet (changed_items c ++ changed_items cs) (changed_turns c ++ changed_turns cs)
    (removed_turn_ids c ++ removed_turn_ids cs).

(** A turn is always kept once its first event is over. *)
Definition live (b : ThreadHistoryBuilder) : Prop :=
  ∀ turn, current_turn b = Some turn → droppable turn = false.

Definition tracks (b b' : ThreadHistoryBuilder) (cs : ThreadHistoryChangeSet) : Prop :=
  snapshot b' = apply_changes cs (snapshot b) ∧
  active_change_set b' = (λ c, append_changes c cs) <$> active_change_set b ∧
  (* an item is reported for a turn that is there *)
  Forall (λ ch, ic_turn_id ch ∈ turn_ids (fold_left apply_turn_change (changed_turns cs)
                                            (remove_turns (removed_turn_ids cs) (snapshot b)))) (changed_items cs).

(** ** Lists of turns *)

Lemma update_turn_ids id f ts : (∀ t, turn_id (f t) = turn_id t) → turn_ids (update_turn id f ts) = turn_ids ts.
Proof. intros Hf. induction ts as [|t ts IH]; simpl; [done|]. case_bool_decide; csimpl; rewrite ?Hf; by f_equal. Qed.

Lemma update_turn_notin id f ts : id ∉ turn_ids ts → update_turn id f ts = ts.
Proof.
  induction ts as [|t ts IH]; csimpl; [done|]. intros [Hn Hi]%not_elem_of_cons.
  rewrite bool_decide_false by done. f_equal. by apply IH.
Qed.

Lemma update_turn_app_l id f ts us : id ∈ turn_ids ts → update_turn id f (ts ++ us) = update_turn id f ts ++ us.
Proof.
  induction ts as [|t ts IH]; csimpl; [set_solver|]. intros Hin. case_bool_decide; [done|].
  rewrite IH by set_solver. done.
Qed.
Lemma update_turn_app_r id f ts us : id ∉ turn_ids ts → update_turn id f (ts ++ us) = ts ++ update_turn id f us.
Proof.
  induction ts as [|t ts IH]; csimpl; [done|]. intros [Hn Hi]%not_elem_of_cons.
  rewrite bool_decide_false by done. f_equal. by apply IH.
Qed.
Lemma update_turn_last id f ts t : id ∉ turn_ids ts → turn_id t = id → update_turn id f (ts ++ [t]) = ts ++ [f t].
Proof. intros Hn Ht. rewrite update_turn_app_r by done. simpl. by rewrite bool_decide_true. Qed.

Lemma find_turn_in id ts t : find_turn id ts = Some t → id ∈ turn_ids ts ∧ turn_id t = id ∧ t ∈ ts.
Proof.
  unfold find_turn. destruct (list_find _ _) as [[i u]|] eqn:E; simpl; [|done]. intros [= ->].
  apply list_find_Some in E as (Hl & Ht & _). apply list_elem_of_lookup_2 in Hl. split; [|done].
  rewrite <- Ht. by apply list_elem_of_fmap_2.
Qed.
Lemma find_turn_none id ts : find_turn id ts = None → id ∉ turn_ids ts.
Proof.
  unfold find_turn. destruct (list_find _ _) as [[i u]|] eqn:E; simpl; [done|]. intros _.
  apply list_find_None in E. intros (t & -> & Ht)%list_elem_of_fmap. rewrite Forall_forall in E. by eapply E.
Qed.

Lemma upsert_turn_item_fresh items item :
  item_id item ∉ item_id <$> items → upsert_turn_item items item = items ++ [item].
Proof.
  induction items as [|i items IH]; csimpl; [done|]. intros [Hn Hi]%not_elem_of_cons.
  rewrite bool_decide_false by done. f_equal. by apply IH.
Qed.

(** ** Ids and numbers of the turns *)

Definition rollout_id (n : nat) : list N := lit "rollout-" ++ lit (pretty n).
Definition generated_id (k : Z) : list N := lit "item-" ++ lit (pretty k).
Definition external_turn_id (id : list N) : bool := negb (starts_with (lit "rollout-") id).
Definition external_item_id (id : list N) : bool := negb (starts_with (lit "item-") id).

#[local] Instance rollout_id_inj : Inj (=) (=) rollout_id.
Proof. intros m n H. apply app_inv_head in H. by apply lit_inj, (inj pretty) in H. Qed.
#[local] Instance generated_id_inj : Inj (=) (=) generated_id.
Proof. intros m n H. apply app_inv_head in H. by apply lit_inj, (inj pretty) in H. Qed.

Lemma external_not_rollout id n : external_turn_id id = true → id ≠ rollout_id n.
Proof.
  intros H ->. apply negb_true_iff, not_true_iff_false in H. apply H, starts_with_true. by eexists.
Qed.
Lemma external_not_generated id k : external_item_id id = true → id ≠ generated_id k.
Proof.
  intros H ->. apply negb_true_iff, not_true_iff_false in H. apply H, starts_with_true. by eexists.
Qed.

Definition item_ids (t : Turn) : list (list N) := item_id <$> turn_items t.

(** A generated number is below the counter, and no greater than the number of items up to the end
    of its turn: it is still below the counter when a roll-back counts again. *)
Fixpoint numbered (next : Z) (base : nat) (ts : list Turn) : Prop :=
  match ts with
  | [] => True
  | t :: ts =>
      (∀ k, generated_id k ∈ item_ids t → (k < next)%Z ∧ (k ≤ Z.of_nat (base + length (turn_items t)))%Z) ∧
      numbered next (base + length (turn_items t)) ts
  end.

Record hist_ok (ts : list Turn) (next : Z) (m : nat) : Prop := {
  ok_turn_ids : NoDup (turn_ids ts);
  ok_item_ids : Forall (λ t, NoDup (item_ids t)) ts;
  ok_rollout : ∀ n, rollout_id n ∈ turn_ids ts → n < m;
  ok_numbered : numbered next 0 ts;
  ok_next : (1 ≤ next ≤ Z.of_nat (item_count ts) + 1)%Z }.

Lemma item_count_app ts us : item_count (ts ++ us) = item_count ts + item_count us.
Proof. unfold item_count. by rewrite fmap_app, sum_list_with_app. Qed.
Lemma item_count_cons t ts : item_count (t :: ts) = length (turn_items t) + item_count ts.
Proof. done. Qed.

Lemma numbered_mono next next' base base' ts :
  (next ≤ next')%Z → base ≤ base' → numbered next base ts → numbered next' base' ts.
Proof.
  intros Hn. revert base base'. induction ts as [|t ts IH]; simpl; [done|]. intros base base' Hb [Ht Hts].
  split; [|eapply IH, Hts; lia]. intros k Hk. specialize (Ht k Hk). lia.
Qed.
Lemma numbered_app next base ts us :
  numbered next base (ts ++ us) ↔ numbered next base ts ∧ numbered next (base + item_count ts) us.
Proof.
  revert base. induction ts as [|t ts IH]; intros base; simpl.
  - replace (base + item_count []) with base by (unfold item_count; simpl; lia). tauto.
  - rewrite IH, item_count_cons, Nat.add_assoc. tauto.
Qed.

(** Changing one turn: its id stays, its items may grow. *)
Lemma item_count_update id f ts :
  (∀ t, length (turn_items t) ≤ length (turn_items (f t))) → item_count ts ≤ item_count (update_turn id f ts).
Proof.
  intros Hf. induction ts as [|t ts IH]; simpl; [done|]. case_bool_decide; rewrite !item_count_cons; [|lia].
  specialize (Hf t). lia.
Qed.
Lemma numbered_update next base id f ts :
  (∀ t, length (turn_items t) ≤ length (turn_items (f t))) →
  (∀ t k, generated_id k ∈ item_ids (f t) → generated_id k ∈ item_ids t) →
  numbered next base ts → numbered next base (update_turn id f ts).
Proof.
  intros Hl Hg. revert base. induction ts as [|t ts IH]; simpl; [done|]. intros base [Ht Hts].
  case_bool_decide; split; auto.
  - intros k Hk. specialize (Ht k (Hg _ _ Hk)). specialize (Hl t). lia.
  - eapply numbered_mono, Hts; [done|]. specialize (Hl t). lia.
Qed.
Lemma Forall_update P id f ts : (∀ t, P t → P (f t)) → Forall P ts → Forall P (update_turn id f ts).
Proof. intros Hf. induction 1; simpl; [constructor|]. case_bool_decide; constructor; auto. Qed.

Lemma upsert_item_ids items item :
  item_id <$> upsert_turn_item items item =
  (item_id <$> items) ++ (if bool_decide (item_id item ∈ item_id <$> items) then [] else [item_id item]).
Proof.
  induction items as [|i items IH]; csimpl; [done|]. destruct (decide (item_id i = item_id item)) as [E|E].
  - rewrite bool_decide_true by done. csimpl. rewrite E, bool_decide_true by set_solver. by rewrite app_nil_r.
  - rewrite bool_decide_false by done. csimpl. rewrite IH. f_equal. f_equal.
    rewrite (bool_decide_ext (item_id item ∈ item_id <$> items) (item_id item ∈ item_id i :: (item_id <$> items))); [done|].
    set_solver.
Qed.
Lemma upsert_length items item :
  length items ≤ length (upsert_turn_item items item) ≤ S (length items).
Proof.
  rewrite <- (length_fmap item_id (upsert_turn_item _ _)), upsert_item_ids, length_app, length_fmap.
  case_bool_decide; simpl; lia.
Qed.
Lemma upsert_nodup items item : NoDup (item_id <$> items) → NoDup (item_id <$> upsert_turn_item items item).
Proof.
  intros H. rewrite upsert_item_ids. case_bool_decide; [by rewrite app_nil_r|]. apply NoDup_app.
  split; [done|]. split; [set_solver|]. apply NoDup_singleton.
Qed.

Lemma ok_mono ts next m m' : hist_ok ts next m → m ≤ m' → hist_ok ts next m'.
Proof. intros [] ?. split; try done. intros n Hn. specialize (ok_rollout0 n Hn). lia. Qed.

Lemma ok_open ts next m m' t :
  hist_ok ts next m → m ≤ m' → turn_id t ∉ turn_ids ts → turn_items t = [] →
  (external_turn_id (turn_id t) = true ∨ ∃ n, turn_id t = rollout_id n ∧ n < m') → hist_ok (ts ++ [t]) next m'.
Proof.
  intros [] Hm Hid Hit Hg. split.
  - unfold turn_ids. rewrite fmap_app. apply NoDup_app. split; [done|]. split; [set_solver|]. apply NoDup_singleton.
  - apply Forall_app. split; [done|]. constructor; [|constructor]. unfold item_ids. rewrite Hit. constructor.
  - intros n. unfold turn_ids. rewrite fmap_app, elem_of_app. csimpl. rewrite list_elem_of_singleton.
    intros [Hn|Hn]; [specialize (ok_rollout0 n Hn); lia|]. destruct Hg as [He|(n' & He & Hlt)].
    + by apply (external_not_rollout _ n) in He.
    + rewrite He in Hn. apply (inj rollout_id) in Hn. lia.
  - apply numbered_app. split; [done|]. simpl. unfold item_ids. rewrite Hit. split; [|done]. set_solver.
  - rewrite item_count_app, item_count_cons, Hit. simpl. unfold item_count at 2. simpl. lia.
Qed.

(** The status and the times of a turn do not matter. *)
Lemma ok_meta ts next m id f :
  hist_ok ts next m → (∀ t, turn_id (f t) = turn_id t) → (∀ t, turn_items (f t) = turn_items t) →
  hist_ok (update_turn id f ts) next m.
Proof.
  intros [] Hi Hit. split.
  - by rewrite update_turn_ids.
  - apply Forall_update; [|done]. intros t. unfold item_ids. by rewrite Hit.
  - by rewrite update_turn_ids.
  - apply numbered_update; [|..|done]; intros t; unfold item_ids; rewrite Hit; [done|auto].
  - assert (item_count ts ≤ item_count (update_turn id f ts)) by (apply item_count_update; intros t; by rewrite Hit). lia.
Qed.

Lemma ok_external_item ts next m id item :
  hist_ok ts next m → external_item_id (item_id item) = true → hist_ok (update_turn id (upsert_in item) ts) next m.
Proof.
  intros [] He. assert (Hl : ∀ t, length (turn_items t) ≤ length (turn_items (upsert_in item t))).
  { intros t. simpl. apply upsert_length. }
  split.
  - by rewrite update_turn_ids.
  - apply Forall_update; [|done]. intros t. apply upsert_nodup.
  - by rewrite update_turn_ids.
  - apply numbered_update; [done| |done]. intros t k. unfold item_ids. simpl. rewrite upsert_item_ids, elem_of_app.
    intros [?|Hk]; [done|]. case_bool_decide; [set_solver|]. apply list_elem_of_singleton in Hk.
    symmetry in Hk. by apply (external_not_generated _ k) in He.
  - pose proof (item_count_update id (upsert_in item) ts Hl). lia.
Qed.

(** A generated item goes to the last turn. *)
Lemma ok_generated_fresh ts next m t : hist_ok ts next m → t ∈ ts → generated_id next ∉ item_ids t.
Proof.
  intros [] Ht Hin. clear ok_next0. revert ok_numbered0. generalize 0. induction Ht as [t ts|t u ts Ht IH]; intros base [H1 H2].
  - specialize (H1 _ Hin). lia.
  - eapply IH; [..|done]; try done; [by apply NoDup_cons in ok_turn_ids0 as []|by inv ok_item_ids0|].
    intros n Hn. apply ok_rollout0. by right.
Qed.
Lemma ok_generated ts next m t item :
  hist_ok (ts ++ [t]) next m → item_id item = generated_id next →
  hist_ok (ts ++ [upsert_in item t]) (next + 1) m.
Proof.
  intros Hok Hid. pose proof (ok_generated_fresh _ _ _ t Hok ltac:(set_solver)) as Hf. rewrite <- Hid in Hf.
  assert (Hit : turn_items (upsert_in item t) = turn_items t ++ [item]) by by apply upsert_turn_item_fresh.
  destruct Hok. apply numbered_app in ok_numbered0 as [Hn1 [Hn2 _]].
  rewrite item_count_app, item_count_cons in ok_next0. change (item_count []) with 0 in ok_next0. apply Forall_app in ok_item_ids0 as [Hi1 Hi2]. split.
  - unfold turn_ids in *. rewrite fmap_app in *. done.
  - apply Forall_app. split; [done|]. constructor; [|constructor]. apply upsert_nodup. by inv Hi2.
  - unfold turn_ids in *. rewrite fmap_app in *. done.
  - apply numbered_app. split; [eapply numbered_mono, Hn1; lia|]. cbn [numbered]. split; [|done].
    intros k. unfold item_ids. rewrite Hit, fmap_app, length_app, elem_of_app. csimpl. rewrite list_elem_of_singleton.
    intros [Hk|Hk]; [specialize (Hn2 k Hk); lia|]. rewrite Hid in Hk. apply (inj generated_id) in Hk. lia.
  - rewrite item_count_app, item_count_cons, Hit, length_app. change (item_count []) with 0. simpl. lia.
Qed.

(** A roll-back counts the items that are left. *)
Lemma recount_bounds c : (1 ≤ recount c ≤ Z.of_nat c + 1)%Z.
Proof.
  unfold recount, i64_try_from, usize_max, i64_max. case_match eqn:E; simpl.
  - lia.
  - apply Z.leb_gt in E. lia.
Qed.
Lemma recount_above c k : (k < i64_max)%Z → (k ≤ Z.of_nat c)%Z → (k < recount c)%Z.
Proof.
  intros H1 H2. unfold recount, i64_try_from, usize_max. case_match eqn:E; simpl; [|done].
  apply Z.leb_le in E. unfold i64_max in *. lia.
Qed.
Lemma numbered_recount next next' base ts :
  numbered next base ts → (∀ k, (k < next)%Z → (k ≤ Z.of_nat (base + item_count ts))%Z → (k < next')%Z) →
  numbered next' base ts.
Proof.
  revert base. induction ts as [|t ts IH]; intros base; simpl; [done|].
  rewrite item_count_cons. intros [H1 H2] Hk. split.
  - intros k Hin. specialize (H1 k Hin). split; [apply Hk; lia|lia].
  - apply IH; [done|]. intros k ? ?. apply Hk; lia.
Qed.
Lemma ok_take ts next m n :
  hist_ok ts next m → (next ≤ i64_max)%Z → hist_ok (take n ts) (recount (item_count (take n ts))) m.
Proof.
  intros [Ht Hi Hr Hn _] Hmax. rewrite <- (take_drop n ts) in Ht, Hi, Hr, Hn. unfold turn_ids in *.
  rewrite fmap_app in Ht, Hr. apply NoDup_app in Ht as [? _]. apply Forall_app in Hi as [? _].
  apply numbered_app in Hn as [Hn _]. split; try done.
  - intros n' Hn'. apply Hr. set_solver.
  - eapply numbered_recount; [done|]. intros k ??. apply recount_above; [lia|done].
  - apply recount_bounds.
Qed.
End laws.
