(* ===== verification/ThreadHistorySteps.v ===== *)
(** * Every item of a rollout reports what it changes

    For each handler of the builder: the change set it reports turns the turns before into the turns
    after, and the invariant on ids and numbers is kept. *)

From stdpp Require Import prelude strings pretty gmap.
From S2P Require Import Prelude RustStr ResponseItems RolloutTruncation CoreItems ThreadItems ThreadHistory ThreadHistoryLaws.

Section steps.
Context {W : Wire}.

Definition item_report (id : list N) (item : ThreadItem) : ThreadHistoryChangeSet :=
  mkChangeSet [mkItemChange id item] [] [].
Definition turn_report (ch : ThreadHistoryTurnChange) : ThreadHistoryChangeSet := mkChangeSet [] [ch] [].

(** The state while an item is handled. *)
Record ready (b : ThreadHistoryBuilder) : Prop := {
  ready_live : live b;
  ready_ok : hist_ok (snapshot b) (next_item_index b) (current_rollout_index b);
  ready_index : next_rollout_index b = S (current_rollout_index b);
  ready_room : (next_item_index b < i64_max)%Z }.

Record after (b : ThreadHistoryBuilder) : Prop := {
  after_live : live b;
  after_ok : hist_ok (snapshot b) (next_item_index b) (next_rollout_index b) }.

Definition good (b b' : ThreadHistoryBuilder) : Prop :=
  (∃ cs, tracks b b' cs) ∧ after b' ∧ next_rollout_index b' = next_rollout_index b.

(** ** Reports *)

Lemma remove_turns_nil ts : remove_turns [] ts = ts.
Proof.
  unfold remove_turns. induction ts as [|t ts IH]; [done|]. rewrite filter_cons_True by set_solver. by f_equal.
Qed.
Lemma append_empty c : append_changes c empty_change_set = c.
Proof. destruct c. unfold append_changes. simpl. by rewrite !app_nil_r. Qed.

Lemma tracks_same b b' :
  snapshot b' = snapshot b → active_change_set b' = active_change_set b → tracks b b' empty_change_set.
Proof.
  intros H1 H2. split; [|split; [|done]].
  - unfold apply_changes. simpl. by rewrite remove_turns_nil.
  - rewrite H2. destruct (active_change_set b); simpl; [|done]. by rewrite append_empty.
Qed.

(** What happens before and leaves turns and report alone can be skipped. *)
Lemma tracks_from b0 b b' cs :
  snapshot b = snapshot b0 → active_change_set b = active_change_set b0 → tracks b b' cs → tracks b0 b' cs.
Proof. unfold tracks. by intros -> ->. Qed.

Lemma tracks_item b b' id item :
  id ∈ turn_ids (snapshot b) → snapshot b' = update_turn id (upsert_in item) (snapshot b) →
  active_change_set b' = active_change_set (record_changed_item id item b) → tracks b b' (item_report id item).
Proof.
  intros Hid Hs Ha. split; [|split].
  - rewrite Hs. unfold apply_changes. simpl. by rewrite remove_turns_nil.
  - rewrite Ha. simpl. destruct (active_change_set b); simpl; [|done]. unfold append_changes. simpl. by rewrite !app_nil_r.
  - constructor; [|constructor]. simpl. by rewrite remove_turns_nil.
Qed.
Lemma tracks_turn b b' ch :
  snapshot b' = apply_turn_change (snapshot b) ch →
  active_change_set b' = active_change_set (record_changed_turn ch b) → tracks b b' (turn_report ch).
Proof.
  intros Hs Ha. split; [|split; [|constructor]].
  - rewrite Hs. unfold apply_changes. simpl. by rewrite remove_turns_nil.
  - rewrite Ha. simpl. destruct (active_change_set b); simpl; [|done]. unfold append_changes. simpl. by rewrite !app_nil_r.
Qed.
Lemma tracks_trans b b1 b2 c1 c2 :
  tracks b b1 c1 → tracks b1 b2 c2 → changed_items c1 = [] → removed_turn_ids c2 = [] →
  tracks b b2 (append_changes c1 c2).
Proof.
  intros (Hs1 & Ha1 & Hf1) (Hs2 & Ha2 & Hf2) Hi Hr.
  assert (Hs : fold_left apply_turn_change (changed_turns (append_changes c1 c2))
                 (remove_turns (removed_turn_ids (append_changes c1 c2)) (snapshot b)) =
               fold_left apply_turn_change (changed_turns c2) (remove_turns (removed_turn_ids c2) (snapshot b1))).
  { rewrite Hs1. unfold apply_changes. simpl. rewrite Hi, Hr, remove_turns_nil, app_nil_r, fold_left_app. done. }
  split; [|split].
  - rewrite Hs2. unfold apply_changes at 1. rewrite <- Hs. unfold apply_changes. simpl. by rewrite Hi.
  - rewrite Ha2, Ha1, <- option_fmap_compose. apply option_fmap_ext. intros c. simpl. unfold append_changes. simpl.
    by rewrite !(assoc_L (++)).
  - rewrite Hs. simpl. by rewrite Hi.
Qed.

(** ** The open turn *)

Lemma snapshot_some b turn : current_turn b = Some turn → snapshot b = turns b ++ [turn_from_pending turn].
Proof. unfold snapshot. by intros ->. Qed.
Lemma snapshot_none b : current_turn b = None → snapshot b = turns b.
Proof. unfold snapshot. intros ->. apply app_nil_r. Qed.

Lemma current_id_new b turn :
  NoDup (turn_ids (snapshot b)) → current_turn b = Some turn → p_id turn ∉ turn_ids (turns b).
Proof.
  intros Hnd Hc. rewrite (snapshot_some _ _ Hc) in Hnd. unfold turn_ids in Hnd. rewrite fmap_app in Hnd.
  apply NoDup_app in Hnd as (_ & Hd & _). intros Hin. apply (Hd _ Hin). set_solver.
Qed.
Lemma current_id_in b turn : current_turn b = Some turn → p_id turn ∈ turn_ids (snapshot b).
Proof. intros Hc. rewrite (snapshot_some _ _ Hc). unfold turn_ids. rewrite fmap_app. set_solver. Qed.

Lemma finish_snapshot b : live b → snapshot (finish_current_turn b) = snapshot b.
Proof.
  intros Hl. unfold finish_current_turn. destruct (current_turn b) as [turn|] eqn:E; [|done].
  rewrite (Hl _ E), (snapshot_some _ _ E). unfold snapshot. simpl. apply app_nil_r.
Qed.
Lemma finish_current b : current_turn (finish_current_turn b) = None.
Proof. unfold finish_current_turn. destruct (current_turn b) eqn:E; [|done]. by destruct (droppable _). Qed.
Lemma finish_frame b :
  active_change_set (finish_current_turn b) = active_change_set b ∧
  next_item_index (finish_current_turn b) = next_item_index b ∧
  current_rollout_index (finish_current_turn b) = current_rollout_index b ∧
  next_rollout_index (finish_current_turn b) = next_rollout_index b.
Proof. unfold finish_current_turn. destruct (current_turn b); [|done]. by destruct (droppable _). Qed.

Lemma ready_finish b : ready b → ready (finish_current_turn b).
Proof.
  intros []. destruct (finish_frame b) as (_ & Hn & Hc & Hr). split.
  - intros turn. by rewrite finish_current.
  - by rewrite finish_snapshot, Hn, Hc.
  - by rewrite Hr, Hc.
  - by rewrite Hn.
Qed.
Lemma good_finish b b' : live b → good (finish_current_turn b) b' → good b b'.
Proof.
  intros Hl ([cs Hcs] & Ha & Hr). destruct (finish_frame b) as (Hac & _ & _ & Hnr). split; [|split; [done|by rewrite Hr]].
  exists cs. eapply tracks_from; [|done..]. by apply finish_snapshot.
Qed.

Lemma ready_after b : ready b → after b.
Proof. intros []. split; [done|]. eapply ok_mono; [done|]. lia. Qed.
Lemma good_refl b : ready b → good b b.
Proof. intros H. split; [exists empty_change_set; by apply tracks_same|]. split; [by apply ready_after|done]. Qed.

(** Opening a turn. *)
Lemma record_pending_active t b :
  active_change_set (record_changed_pending_turn t b) = active_change_set (record_changed_turn (from_pending_turn t) b).
Proof.
  unfold record_changed_pending_turn, is_tracking_changes. case_bool_decide as H; [done|]. simpl.
  destruct (active_change_set b); [|done]. by destruct H.
Qed.
Lemma record_pending_rest t b :
  turns (record_changed_pending_turn t b) = turns b ∧ next_item_index (record_changed_pending_turn t b) = next_item_index b ∧
  current_rollout_index (record_changed_pending_turn t b) = current_rollout_index b ∧
  next_rollout_index (record_changed_pending_turn t b) = next_rollout_index b.
Proof. unfold record_changed_pending_turn. by destruct (is_tracking_changes b). Qed.
Lemma open_snapshot t b : current_turn b = None → snapshot (open_turn t b) = snapshot b ++ [turn_from_pending t].
Proof.
  intros Hc. rewrite (snapshot_none _ Hc). unfold snapshot, open_turn. simpl. by rewrite (proj1 (record_pending_rest t b)).
Qed.

Lemma tracks_open t b :
  current_turn b = None → p_items t = [] → p_id t ∉ turn_ids (snapshot b) →
  tracks b (open_turn t b) (turn_report (from_pending_turn t)).
Proof.
  intros Hc Hi Hid. apply tracks_turn.
  - rewrite open_snapshot by done. unfold apply_turn_change. simpl. rewrite bool_decide_false by done.
    unfold new_from_change, turn_from_pending. simpl. by rewrite Hi.
  - simpl. apply record_pending_active.
Qed.

(** The builder with a turn open, and what was reported if it had to be opened. *)
Lemma ensure_turn_spec b : ready b →
  ∃ turn b1 c1, ensure_turn b = (turn, b1) ∧ tracks b b1 c1 ∧ changed_items c1 = [] ∧ current_turn b1 = Some turn ∧
    hist_ok (snapshot b1) (next_item_index b) (next_rollout_index b) ∧ next_item_index b1 = next_item_index b ∧
    next_rollout_index b1 = next_rollout_index b.
Proof.
  intros [Hl Hok Hi Hroom]. unfold ensure_turn. destruct (current_turn b) as [turn|] eqn:Hc.
  { exists turn, b, empty_change_set. do 4 (split; [by try apply tracks_same|]). split; [|done].
    eapply ok_mono; [done|]. lia. }
  unfold new_turn. rewrite bool_decide_false by lia. set (t := mkPending _ _ _ _ _ _ _ _ _ _).
  assert (Hid : p_id t ∉ turn_ids (snapshot b)). { intros Hin. apply (ok_rollout _ _ _ Hok) in Hin. lia. }
  exists t, (open_turn t b), (turn_report (from_pending_turn t)).
  destruct (record_pending_rest t b) as (_ & Hn & _ & Hr).
  split; [done|]. split; [by apply tracks_open|]. do 2 (split; [done|]). split; [|done].
  rewrite open_snapshot by done. eapply ok_open; [done|lia|done|done|]. right. exists (current_rollout_index b). simpl. split; [done|lia].
Qed.

(** ** Items *)

Lemma items_live items b turn : items ≠ [] → current_turn b = Some (with_items items turn) → live b.
Proof. intros Hi Hc t. rewrite Hc. intros [= <-]. unfold droppable. simpl. by destruct items. Qed.
Lemma upsert_not_nil items item : upsert_turn_item items item ≠ [].
Proof. destruct items; simpl; [done|]. by case_bool_decide. Qed.

(** An item upserted in the open turn [turn]. *)
Definition put_in_current (turn : PendingTurn) (item : ThreadItem) (b : ThreadHistoryBuilder) : ThreadHistoryBuilder :=
  record_changed_item (p_id turn) item
    (with_current (Some (with_items (upsert_turn_item (p_items turn) item) turn)) b).

Lemma put_snapshot b turn item :
  NoDup (turn_ids (snapshot b)) → current_turn b = Some turn →
  snapshot (put_in_current turn item b) = update_turn (p_id turn) (upsert_in item) (snapshot b) ∧
  snapshot (put_in_current turn item b) = turns b ++ [upsert_in item (turn_from_pending turn)].
Proof.
  intros Hnd Hc. assert (H2 : snapshot (put_in_current turn item b) = turns b ++ [upsert_in item (turn_from_pending turn)]) by done.
  split; [|done]. rewrite H2, (snapshot_some _ _ Hc), update_turn_last; [done| |done]. by apply current_id_new.
Qed.
Lemma put_tracks b turn item :
  NoDup (turn_ids (snapshot b)) → current_turn b = Some turn →
  tracks b (put_in_current turn item b) (item_report (p_id turn) item).
Proof. intros Hnd Hc. apply tracks_item; [by apply current_id_in|by apply put_snapshot|done]. Qed.
Lemma put_live turn item b : live (put_in_current turn item b).
Proof. eapply items_live; [apply upsert_not_nil|done]. Qed.

(** An external item, put in the open turn. *)
Lemma put_after b turn item :
  hist_ok (snapshot b) (next_item_index b) (next_rollout_index b) → current_turn b = Some turn →
  external_item_id (item_id item) = true → after (put_in_current turn item b).
Proof.
  intros Hok Hc He. split; [apply put_live|]. rewrite (proj1 (put_snapshot b turn item (ok_turn_ids _ _ _ Hok) Hc)).
  by apply ok_external_item.
Qed.

Lemma good_upsert_current b item :
  ready b → external_item_id (item_id item) = true → good b (upsert_item_in_current_turn item b).
Proof.
  intros Hr He. unfold upsert_item_in_current_turn.
  destruct (ensure_turn_spec b Hr) as (turn & b1 & c1 & -> & Ht & Hi & Hc & Hok & Hn & Hx).
  rewrite <- Hn, <- Hx in Hok. fold (put_in_current turn item b1). split; [|split; [by apply put_after|done]].
  exists (append_changes c1 (item_report (p_id turn) item)). eapply tracks_trans; [done|apply put_tracks; [apply Hok|done]|done..].
Qed.

(** A new item: pushing it is putting it. *)
Lemma push_is_put b item :
  (∀ turn, current_turn b = Some turn → item_id item ∉ item_id <$> p_items turn) →
  push_item_in_current_turn item b = upsert_item_in_current_turn item b.
Proof.
  intros Hf. unfold push_item_in_current_turn, upsert_item_in_current_turn, ensure_turn.
  destruct (current_turn b) as [turn|] eqn:Hc.
  - by rewrite upsert_turn_item_fresh by auto.
  - unfold new_turn. by case_bool_decide.
Qed.

(** A generated item: its number is new, and the counter goes on. *)
Lemma wrap_next n : (1 ≤ n < i64_max)%Z → wrap_i64 (n + 1) = (n + 1)%Z.
Proof. unfold wrap_i64, i64_max. intros H. rewrite Z.mod_small by lia. lia. Qed.

Lemma put_generated b turn item :
  hist_ok (snapshot b) (next_item_index b) (next_rollout_index b) → (next_item_index b < i64_max)%Z →
  current_turn b = Some turn → item_id item = generated_id (next_item_index b) →
  after (put_in_current turn item (with_next_item_index (wrap_i64 (next_item_index b + 1)) b)) ∧
  tracks b (put_in_current turn item (with_next_item_index (wrap_i64 (next_item_index b + 1)) b))
    (item_report (p_id turn) item).
Proof.
  intros Hok Hroom Hc Hid. set (b1 := with_next_item_index _ b).
  destruct (put_snapshot b1 turn item (ok_turn_ids _ _ _ Hok) Hc) as [Hs1 Hs2]. split.
  - split; [apply put_live|]. rewrite Hs2. simpl. rewrite wrap_next by (pose proof (ok_next _ _ _ Hok); lia).
    apply ok_generated; [|done]. by rewrite <- (snapshot_some _ _ Hc).
  - apply tracks_item; [by apply current_id_in|done|done].
Qed.

Lemma ensure_with_index n b :
  ensure_turn (with_next_item_index n b) = (let '(turn, b1) := ensure_turn b in (turn, with_next_item_index n b1)).
Proof.
  unfold ensure_turn. simpl. destruct (current_turn b); [done|]. unfold new_turn. simpl.
  case_bool_decide; simpl; f_equal; unfold open_turn, record_changed_pending_turn, is_tracking_changes; simpl;
    by case_bool_decide.
Qed.

Definition upsert_generated (mk : list N → ThreadItem) (b : ThreadHistoryBuilder) : ThreadHistoryBuilder :=
  let '(id, b) := next_item_id b in upsert_item_in_current_turn (mk id) b.
Definition push_generated (mk : list N → ThreadItem) (b : ThreadHistoryBuilder) : ThreadHistoryBuilder :=
  let '(id, b) := next_item_id b in push_item_in_current_turn (mk id) b.

Lemma good_upsert_generated b mk : ready b → (∀ id, item_id (mk id) = id) → good b (upsert_generated mk b).
Proof.
  intros Hr Hmk. unfold upsert_generated, upsert_item_in_current_turn. simpl. rewrite ensure_with_index.
  destruct (ensure_turn_spec b Hr) as (turn & b1 & c1 & -> & Ht & Hi & Hc & Hok & Hn & Hx).
  rewrite <- Hn, <- Hx in Hok. pose proof (ready_room _ Hr) as Hroom. rewrite <- Hn in *.
  destruct (put_generated b1 turn (mk (generated_id (next_item_index b1))) Hok Hroom Hc (Hmk _)) as [H1 H2].
  split; [|split; [done|done]]. eexists. eapply tracks_trans; [done|apply H2|done..].
Qed.
Lemma good_push_generated b mk : ready b → (∀ id, item_id (mk id) = id) → good b (push_generated mk b).
Proof.
  intros Hr Hmk. replace (push_generated mk b) with (upsert_generated mk b); [by apply good_upsert_generated|].
  symmetry. apply push_is_put. intros turn Hc. rewrite Hmk.
  apply (ok_generated_fresh _ _ _ (turn_from_pending turn) (ready_ok _ Hr)).
  rewrite (snapshot_some b turn Hc). set_solver.
Qed.

(** ** Items for a given turn *)

Lemma current_is_Some id b turn : current_is id b = Some turn ↔ current_turn b = Some turn ∧ p_id turn = id.
Proof.
  unfold current_is. destruct (current_turn b) as [t|]; simpl; [|naive_solver].
  case_bool_decide; naive_solver.
Qed.
Lemma find_not_current b id t :
  NoDup (turn_ids (snapshot b)) → find_turn id (turns b) = Some t → ∀ f, turns b ≠ [] ∧
  snapshot (with_turns (update_turn id f) b) = update_turn id f (snapshot b).
Proof.
  intros Hnd (Hin & _ & Ht)%find_turn_in f. split; [by destruct (turns b); [set_solver|]|].
  unfold snapshot. simpl. by rewrite update_turn_app_l.
Qed.

(** The flags and items of the open turn decide whether it is kept. *)
Lemma live_with_turns f b : live b → live (with_turns f b).
Proof. done. Qed.

Lemma after_upsert_turn b id item :
  after b → external_item_id (item_id item) = true → after (upsert_item_in_turn_id id item b).
Proof.
  intros [Hl Hok] He. unfold upsert_item_in_turn_id. destruct (current_is id b) as [turn|] eqn:Hc.
  - apply current_is_Some in Hc as [Hc _]. by apply put_after.
  - destruct (find_turn id (turns b)) as [t|] eqn:Hf; [|done]. split; [done|].
    pose proof (proj2 (find_not_current _ _ _ (ok_turn_ids _ _ _ Hok) Hf (upsert_in item))) as Hs.
    change (hist_ok (snapshot (with_turns (update_turn id (upsert_in item)) b)) (next_item_index b) (next_rollout_index b)).
    rewrite Hs. by apply ok_external_item.
Qed.
Lemma tracks_upsert_turn b id item : NoDup (turn_ids (snapshot b)) →
  ∃ cs, tracks b (upsert_item_in_turn_id id item b) cs ∧ removed_turn_ids cs = [].
Proof.
  intros Hnd. unfold upsert_item_in_turn_id. destruct (current_is id b) as [turn|] eqn:Hc.
  - apply current_is_Some in Hc as [Hc _]. eexists. split; [by apply put_tracks|done].
  - destruct (find_turn id (turns b)) as [t|] eqn:Hf; [|exists empty_change_set; split; [by apply tracks_same|done]].
    destruct (find_turn_in _ _ _ Hf) as (Hin & Hid & _). exists (item_report (turn_id t) item). split; [|done].
    apply tracks_item; [|by rewrite Hid; apply (find_not_current _ _ _ Hnd Hf)|done].
    rewrite Hid. unfold snapshot, turn_ids in *. rewrite fmap_app. set_solver.
Qed.
Lemma upsert_turn_index b id item : next_rollout_index (upsert_item_in_turn_id id item b) = next_rollout_index b.
Proof. unfold upsert_item_in_turn_id. destruct (current_is id b); [done|]. by destruct (find_turn id (turns b)). Qed.

Lemma good_upsert_turn b id item :
  ready b → external_item_id (item_id item) = true → good b (upsert_item_in_turn_id id item b).
Proof.
  intros Hr He. destruct (tracks_upsert_turn b id item (ok_turn_ids _ _ _ (ready_ok _ Hr))) as (cs & Hcs & _).
  split; [by exists cs|]. split; [by apply after_upsert_turn; [apply ready_after|]|apply upsert_turn_index].
Qed.
Lemma good_upsert_routed b id item :
  ready b → external_item_id (item_id item) = true → good b (upsert_item_routed id item b).
Proof.
  intros. unfold upsert_item_routed. case_bool_decide; [by apply good_upsert_current|by apply good_upsert_turn].
Qed.

(** Opening a turn and putting an item in it. *)
Lemma good_upsert_review b id item :
  ready b → external_item_id (item_id item) = true → (∀ i, id = Some i → external_turn_id i = true) →
  good b (upsert_review_mode_item id item b).
Proof.
  intros Hr He Hid. destruct id as [id|]; [|by apply good_upsert_current]. simpl.
  destruct (bool_decide (is_Some (current_is id b)) || bool_decide (is_Some (find_turn id (turns b)))) eqn:Hk;
    [by apply good_upsert_turn|].
  apply orb_false_iff in Hk as [Hk1%bool_decide_eq_false Hk2%bool_decide_eq_false].
  apply good_finish; [apply Hr|]. pose proof (ready_finish _ Hr) as Hr'.
  assert (Hnew : id ∉ turn_ids (snapshot (finish_current_turn b))).
  { rewrite finish_snapshot by apply Hr. unfold snapshot, turn_ids. rewrite fmap_app, elem_of_app.
    intros [Hin|Hin].
    - destruct (find_turn id (turns b)) eqn:Hf; [by destruct Hk2|]. by apply find_turn_none in Hf.
    - destruct (current_turn b) as [t|] eqn:Hc; simpl in Hin; [|set_solver]. apply list_elem_of_singleton in Hin.
      destruct Hk1. exists t. by apply current_is_Some. }
  revert Hr' Hnew. generalize (finish_current b). generalize (finish_current_turn b). clear -He Hid. intros b Hc Hr Hnew.
  destruct (new_turn (Some id) b) as [t b'] eqn:Et. injection Et as Et <-.
  assert (Hti : p_items t = []) by by rewrite <- Et. assert (Htid : p_id t = id) by by rewrite <- Et.
  rewrite Et. clear Et. destruct (record_pending_rest t b) as (_ & Hn & _ & Hx).
  assert (Hok : hist_ok (snapshot (open_turn t b)) (next_item_index (open_turn t b)) (next_rollout_index (open_turn t b))).
  { rewrite open_snapshot by done. simpl. rewrite Hn, Hx.
    eapply ok_open; [apply Hr| |by simpl; rewrite Htid|done|left; simpl; rewrite Htid; by apply Hid].
    rewrite (ready_index _ Hr). lia. }
  assert (Hput : upsert_item_in_turn_id id item (open_turn t b) = put_in_current t item (open_turn t b)).
  { unfold upsert_item_in_turn_id. by rewrite (proj2 (current_is_Some id (open_turn t b) t)). }
  rewrite Hput. split; [|split; [by apply put_after|done]].
  eexists. eapply tracks_trans; [apply tracks_open; [done|done|by rewrite Htid]|apply put_tracks; [apply Hok|done]|done..].
Qed.

(** ** Status and times of a turn *)

Record keeps (f : PendingTurn → PendingTurn) : Prop := {
  keeps_id t : p_id (f t) = p_id t;
  keeps_items t : p_items (f t) = p_items t;
  keeps_flags t : droppable t = false → droppable (f t) = false }.

Lemma good_end_current b f turn : ready b → current_turn b = Some turn → keeps f → good b (end_current f turn b).
Proof.
  intros Hr Hc [Hi Hit Hfl]. pose proof (ready_after _ Hr) as [Hl Hok].
  assert (Hs : snapshot (end_current f turn b) =
    update_turn (p_id turn) (change_meta (from_pending_turn (f turn))) (snapshot b)).
  { rewrite (snapshot_some _ _ Hc), update_turn_last; [|apply current_id_new; [apply Hok|done]|done].
    unfold snapshot. simpl. do 2 f_equal. unfold turn_from_pending, change_meta. simpl. by rewrite Hi, Hit. }
  split; [|split; [|done]].
  - eexists. apply (tracks_turn _ _ (from_pending_turn (f turn))); [|done].
    rewrite Hs. unfold apply_turn_change. simpl. rewrite Hi, bool_decide_true; [done|by apply current_id_in].
  - split; [|rewrite Hs; by apply ok_meta]. intros t. simpl. intros [= <-]. auto.
Qed.

Lemma update_turn_ext id f g ts t :
  find_turn id ts = Some t → f t = g t → update_turn id f ts = update_turn id g ts.
Proof.
  unfold find_turn. revert t. induction ts as [|u ts IH]; intros t; simpl; [done|]. case_decide as Hu.
  - simpl. intros [= ->] Hfg. by rewrite bool_decide_true, Hfg.
  - rewrite bool_decide_false by done. destruct (list_find _ ts) as [[i v]|] eqn:E; simpl; [|done].
    intros [= ->] Hfg. f_equal. by apply (IH t).
Qed.
Lemma good_end_finished b id f turn :
  ready b → find_turn id (turns b) = Some turn → (∀ t, turn_id (f t) = turn_id t) →
  (∀ t, turn_items (f t) = turn_items t) → (∀ t, items_view (f t) = items_view t) →
  good b (end_finished id f turn b).
Proof.
  intros Hr Hf Hi Hit Hv. pose proof (ready_after _ Hr) as [Hl Hok]. destruct (find_turn_in _ _ _ Hf) as (Hin & Hid & _).
  assert (Hs : snapshot (end_finished id f turn b) = update_turn id f (snapshot b)).
  { by apply (find_not_current _ _ _ (ok_turn_ids _ _ _ Hok) Hf). }
  split; [|split; [split; [done|rewrite Hs; by apply ok_meta]|done]].
  eexists. apply (tracks_turn _ _ (from_turn (f turn))); [|done].
  rewrite Hs. unfold apply_turn_change. simpl. rewrite Hi, Hid, bool_decide_true.
  - unfold snapshot. rewrite !update_turn_app_l by done. f_equal. eapply update_turn_ext; [done|].
    unfold change_meta. simpl. rewrite <- (Hi turn), <- (Hit turn), <- (Hv turn). by destruct (f turn).
  - unfold snapshot, turn_ids in *. rewrite fmap_app. set_solver.
Qed.

Lemma good_then_finish b b' : good b b' → good b (finish_current_turn b').
Proof.
  intros ([cs (Hs & Ha & Hf)] & [Hl Hok] & Hx). destruct (finish_frame b') as (Hfa & Hfn & _ & Hfx).
  split; [exists cs; split; [by rewrite finish_snapshot|by rewrite Hfa]|]. split; [|by rewrite Hfx].
  split; [intros t; by rewrite finish_current|]. by rewrite finish_snapshot, Hfn, Hfx.
Qed.

Lemma keeps_end s c d : keeps (end_pending s c d).
Proof. by split. Qed.
Lemma keeps_error e : keeps (set_error e).
Proof. by split. Qed.
#[local] Hint Resolve keeps_end keeps_error good_refl good_end_current good_end_finished good_then_finish : core.

Lemma good_error b e : ready b → good b (handle_error e b).
Proof.
  intros Hr. unfold handle_error. destruct (affects_turn_status e); [|auto].
  destruct (current_turn b) as [turn|] eqn:Hc; [|auto]. by apply (good_end_current b (set_error e)).
Qed.
Lemma good_aborted b p : ready b → good b (handle_turn_aborted p b).
Proof.
  intros Hr. unfold handle_turn_aborted. destruct (ta_turn_id p) as [id|]; [|destruct (current_turn b) eqn:Hc; auto].
  destruct (current_is id b) as [turn|] eqn:Hi; [apply current_is_Some in Hi as [Hc _]; auto|].
  destruct (find_turn id (turns b)) eqn:Hf; [auto|]. destruct (current_turn b) eqn:Hc; auto.
Qed.
Lemma good_complete b p : ready b → good b (handle_turn_complete p b).
Proof.
  intros Hr. unfold handle_turn_complete.
  destruct (current_is (tc_turn_id p) b) as [turn|] eqn:Hi; [apply current_is_Some in Hi as [Hc _]; auto|].
  destruct (find_turn (tc_turn_id p) (turns b)) eqn:Hf; [auto|]. destruct (current_turn b) eqn:Hc; auto.
Qed.

(** ** The other handlers *)

Lemma good_user_message b p : ready b → good b (handle_user_message p b).
Proof.
  intros Hr. assert (Hp : ∀ b, ready b → good b (push_generated (λ id, UserMessage id (um_client_id p) (build_user_inputs p)) b)).
  { intros b' Hr'. by apply good_push_generated. }
  unfold handle_user_message. destruct (current_turn b) as [turn|]; [|by apply Hp].
  destruct (_ && _); [|by apply Hp]. apply good_finish; [apply Hr|]. by apply Hp, ready_finish.
Qed.

Lemma good_started b p : ready b → ts_turn_id p ∉ turn_ids (snapshot b) → external_turn_id (ts_turn_id p) = true →
  good b (handle_turn_started p b).
Proof.
  intros Hr Hn He. unfold handle_turn_started. apply good_finish; [apply Hr|]. rewrite <- (finish_snapshot b) in Hn by apply Hr.
  pose proof (ready_finish _ Hr) as Hr'. pose proof (finish_current b) as Hc. revert Hr' Hc Hn.
  generalize (finish_current_turn b). clear Hr. intros b' Hr Hc Hn.
  destruct (new_turn (Some (ts_turn_id p)) b') as [t0 b0] eqn:E. injection E as <- <-. set (t := started_turn p _). destruct (record_pending_rest t b') as (_ & Hni & _ & Hx).
  split; [eexists; by apply (tracks_open t)|]. split; [|done]. split.
  - intros turn. simpl. intros [= <-]. done.
  - rewrite open_snapshot by done. simpl. rewrite Hni, Hx. eapply ok_open; [apply Hr| |done|done|by left].
    rewrite (ready_index _ Hr). lia.
Qed.

Lemma good_compacted b : ready b → good b (handle_compacted b).
Proof.
  intros Hr. unfold handle_compacted.
  destruct (ensure_turn_spec b Hr) as (turn & b1 & c1 & -> & Ht & Hi & Hc & Hok & Hn & Hx).
  assert (Hs : snapshot (with_current (Some (saw_compaction turn)) b1) = snapshot b1).
  { by rewrite (snapshot_some _ _ Hc). }
  split; [|split; [|done]].
  - exists c1. destruct Ht as (Hs1 & Ha & Hf). split; [by rewrite Hs|done].
  - split; [|rewrite Hs; simpl; by rewrite Hn, Hx]. intros t. simpl. intros [= <-]. unfold droppable. simpl.
    by rewrite !andb_false_r.
Qed.

(** The last item of the open turn, changed in place. *)
Lemma ok_last_replace ts t t' next m :
  hist_ok (ts ++ [t]) next m → turn_id t' = turn_id t → item_ids t' = item_ids t → hist_ok (ts ++ [t']) next m.
Proof.
  intros [] Hid Hit. assert (Hl : length (turn_items t') = length (turn_items t)).
  { rewrite <- (length_fmap item_id (turn_items t')). unfold item_ids in Hit. by rewrite Hit, length_fmap. }
  assert (Hids : turn_ids (ts ++ [t']) = turn_ids (ts ++ [t])).
  { unfold turn_ids. rewrite !fmap_app. simpl. by rewrite Hid. }
  apply Forall_app in ok_item_ids as [? Hi]. apply numbered_app in ok_numbered as [? Hn].
  split; try by rewrite Hids.
  - apply Forall_app. split; [done|]. constructor; [|constructor]. rewrite Hit. by inv Hi.
  - apply numbered_app. split; [done|]. simpl in *. by rewrite Hit, Hl.
  - rewrite item_count_app, item_count_cons in *. by rewrite Hl.
Qed.
Lemma upsert_last items i item :
  NoDup (item_id <$> items ++ [i]) → item_id item = item_id i → upsert_turn_item (items ++ [i]) item = items ++ [item].
Proof.
  intros Hnd Hid. induction items as [|j items IH]; simpl; [by rewrite bool_decide_true|]. csimpl in Hnd.
  apply NoDup_cons in Hnd as [Hj Hnd]. rewrite bool_decide_false.
  - f_equal. by apply IH.
  - rewrite Hid. intros E. apply Hj. rewrite E, fmap_app. set_solver.
Qed.

Lemma good_reasoning b add mk :
  ready b → (∀ i i', add i = Some i' → item_id i' = item_id i) → (∀ id, item_id (mk id) = id) →
  good b (add_reasoning add mk b).
Proof.
  intros Hr Hadd Hmk. unfold add_reasoning.
  destruct (ensure_turn_spec b Hr) as (turn & b1 & c1 & -> & Ht & Hi & Hc & Hok & Hn & Hx).
  rewrite <- Hn, <- Hx in Hok. pose proof (ready_room _ Hr) as Hroom. rewrite <- Hn in Hroom.
  assert (Hcase : ∃ item b2, tracks b1 (put_in_current turn item b2) (item_report (p_id turn) item) ∧
    after (put_in_current turn item b2) ∧ next_rollout_index b2 = next_rollout_index b1 ∧
    match last (p_items turn) ≫= add with
    | Some item => record_changed_item (p_id turn) item (with_current (Some (with_items (removelast (p_items turn) ++ [item]) turn)) b1)
    | None => push_generated mk b1
    end = put_in_current turn item b2).
  { destruct (last (p_items turn) ≫= add) as [item|] eqn:E.
    - apply bind_Some in E as (i & Hl & Ha). apply last_Some_snoc in Hl as [items Hl]. exists item, b1.
      assert (Hnd : NoDup (item_id <$> items ++ [i])).
      { pose proof (ok_item_ids _ _ _ Hok) as Hf. rewrite (snapshot_some _ _ Hc) in Hf. apply Forall_app in Hf as [_ Hf].
        inv Hf. by rewrite <- Hl. }
      split; [apply put_tracks; [apply Hok|done]|]. split; [|split; [done|]].
      + split; [apply put_live|]. rewrite (proj2 (put_snapshot b1 turn item (ok_turn_ids _ _ _ Hok) Hc)).
        eapply ok_last_replace; [by rewrite <- (snapshot_some _ _ Hc)|done|].
        unfold item_ids. simpl. rewrite Hl, (upsert_last _ i) by auto. rewrite !fmap_app. simpl. by rewrite (Hadd _ _ Ha).
      + unfold put_in_current. by rewrite Hl, (upsert_last _ i), removelast_snoc by auto.
    - exists (mk (generated_id (next_item_index b1))), (with_next_item_index (wrap_i64 (next_item_index b1 + 1)) b1).
      destruct (put_generated b1 turn (mk (generated_id (next_item_index b1))) Hok Hroom Hc (Hmk _)) as [H1 H2].
      split; [done|]. split; [done|]. split; [done|]. unfold push_generated. simpl. rewrite push_is_put.
      + unfold upsert_item_in_current_turn, ensure_turn. simpl. by rewrite Hc.
      + intros t. simpl. rewrite Hc. intros [= <-]. rewrite Hmk.
        apply (ok_generated_fresh _ _ _ (turn_from_pending turn) Hok). rewrite (snapshot_some _ _ Hc). set_solver. }
  destruct Hcase as (item & b2 & H1 & H2 & H3 & Heq). unfold push_generated in Heq. rewrite Heq.
  split; [|split; [done|simpl; congruence]]. eexists. eapply tracks_trans; [done|done|done|done].
Qed.

Lemma good_agent_message b text phase mc : ready b → good b (handle_agent_message text phase mc b).
Proof.
  intros Hr. unfold handle_agent_message. case_bool_decide; [auto|].
  by apply (good_push_generated b (λ id, AgentMessage id text phase mc)).
Qed.
Lemma good_agent_reasoning b text : ready b → good b (handle_agent_reasoning text b).
Proof.
  intros Hr. unfold handle_agent_reasoning. case_bool_decide; [auto|]. apply good_reasoning; [done| |done].
  intros [] i'; naive_solver.
Qed.
Lemma good_agent_reasoning_raw b text : ready b → good b (handle_agent_reasoning_raw_content text b).
Proof.
  intros Hr. unfold handle_agent_reasoning_raw_content. case_bool_decide; [auto|]. apply good_reasoning; [done| |done].
  intros [] i'; naive_solver.
Qed.

(** A roll-back. *)
Lemma remove_last_turns ts k : NoDup (turn_ids ts) → remove_turns (turn_ids (drop k ts)) ts = take k ts.
Proof.
  intros Hnd. assert (Hd : ∀ t, t ∈ take k ts → turn_id t ∉ turn_ids (drop k ts)).
  { rewrite <- (take_drop k ts) in Hnd. unfold turn_ids in Hnd. rewrite fmap_app in Hnd.
    apply NoDup_app in Hnd as (_ & Hd & _). intros t Ht. apply Hd. by apply list_elem_of_fmap_2. }
  assert (Hall : ∀ us vs, (∀ t, t ∈ us → turn_id t ∉ vs) → remove_turns vs us = us).
  { unfold remove_turns. intros us vs H. induction us as [|t us IH]; [done|]. rewrite filter_cons_True by (apply H; by left).
    f_equal. apply IH. intros u Hu. apply H. by right. }
  assert (Hnone : ∀ us vs, (∀ t, t ∈ us → turn_id t ∈ vs) → remove_turns vs us = []).
  { unfold remove_turns. intros us vs H. induction us as [|t us IH]; [done|].
    rewrite filter_cons_False by (intros Hn; apply Hn, H; by left). apply IH. intros u Hu. apply H. by right. }
  transitivity (remove_turns (turn_ids (drop k ts)) (take k ts ++ drop k ts)); [by rewrite take_drop|].
  unfold remove_turns at 1. rewrite filter_app. fold (remove_turns (turn_ids (drop k ts)) (take k ts)).
  fold (remove_turns (turn_ids (drop k ts)) (drop k ts)).
  rewrite Hall, Hnone, app_nil_r; [done| |done]. intros t Ht. by apply list_elem_of_fmap_2.
Qed.

(** The two cases of the code are one: what is left is a prefix. *)
Lemma rollback_eq n b (b1 := finish_current_turn b) (k := length (turns b1) - N.to_nat n) :
  handle_thread_rollback n b =
  with_next_item_index (recount (item_count (take k (turns b1))))
    (with_turns (take k) (record_removed_turn_ids (turn_ids (drop k (turns b1))) b1)).
Proof.
  unfold handle_thread_rollback. fold b1. destruct (N.leb_spec (N.of_nat (length (turns b1))) n) as [H|H].
  - assert (k = 0) as -> by lia. unfold turn_ids. by rewrite drop_0.
  - replace (N.to_nat (N.of_nat (length (turns b1)) - n)) with k by lia.
    destruct (N.eqb_spec n 0) as [->|Hn]; [|done].
    unfold turn_ids. assert (k = length (turns b1)) as -> by lia. by rewrite drop_all.
Qed.
Lemma good_rollback b n : ready b → good b (handle_thread_rollback n b).
Proof.
  intros Hr. rewrite rollback_eq. set (k := length _ - _). apply good_finish; [apply Hr|].
  pose proof (ready_finish _ Hr) as Hr'. pose proof (finish_current b) as Hc. revert Hr' Hc. revert k.
  generalize (finish_current_turn b). clear Hr. intros b' k Hr Hc.
  assert (Hs : snapshot (with_next_item_index (recount (item_count (take k (turns b'))))
      (with_turns (take k) (record_removed_turn_ids (turn_ids (drop k (turns b'))) b'))) = take k (snapshot b')).
  { rewrite (snapshot_none _ Hc). by rewrite snapshot_none. }
  pose proof (ready_after _ Hr) as [_ Hok]. pose proof (ready_room _ Hr) as Hroom. split; [|split; [|done]].
  - exists (mkChangeSet [] [] (turn_ids (drop k (turns b')))). split; [|split; [|constructor]].
    + rewrite Hs. unfold apply_changes. simpl. rewrite <- (snapshot_none _ Hc), remove_last_turns; [done|apply Hok].
    + simpl. destruct (active_change_set b') as [c|]; simpl; [|done]. unfold append_changes. simpl. by rewrite !app_nil_r.
  - split; [intros t; simpl; by rewrite Hc|]. rewrite Hs. simpl. rewrite <- (snapshot_none _ Hc).
    eapply ok_take; [done|lia].
Qed.

(** ** Rollouts in which ids are used once *)

(** The ids of items that come with an event. *)
Definition event_item_ids (event : EventMsg) : list (list N) :=
  match event with
  | EvWebSearchBegin id | EvWebSearchEnd id _ _ | EvViewImageToolCall id _ | EvImageGenerationBegin id
  | EvImageGenerationEnd id _ _ _ _ | EvCollabAgentSpawnBegin id _ _ _ _ | EvCollabAgentSpawnEnd id _ _ _ _ _ _
  | EvCollabAgentInteractionBegin id _ _ _ | EvCollabAgentInteractionEnd id _ _ _ _ | EvSubAgentActivity id _ _ _
  | EvCollabWaitingBegin id _ _ | EvCollabWaitingEnd id _ _ | EvCollabCloseBegin id _ _
  | EvCollabCloseEnd id _ _ _ | EvCollabResumeBegin id _ _ | EvCollabResumeEnd id _ _ _ => [id]
  | EvExecCommandBegin p => [eb_call_id p]
  | EvExecCommandEnd p => [ee_call_id p]
  | EvGuardianAssessment p => option_list (target_item_id p)
  | EvApplyPatchApprovalRequest p | EvPatchApplyBegin p | EvPatchApplyEnd p _ => [pe_call_id p]
  | EvDynamicToolCallRequest p => [dr_call_id p]
  | EvDynamicToolCallResponse p => [dr_call_id (dp_request p)]
  | EvMcpToolCallBegin p | EvMcpToolCallEnd p _ _ => [me_call_id p]
  | EvEnteredReviewMode _ _ id | EvExitedReviewMode _ id _ => option_list id
  | EvItemStarted _ item | EvItemCompleted _ item => if should_upsert item then [turn_item_id item] else []
  | _ => []
  end.
(** The ids of turns that an event may open. *)
Definition event_turn_ids (event : EventMsg) : list (list N) :=
  match event with
  | EvTurnStarted p => [ts_turn_id p]
  | EvEnteredReviewMode _ id _ | EvExitedReviewMode id _ _ => option_list id
  | EvItemStarted id item | EvItemCompleted id item => if is_review_mode_item item then [id] else []
  | _ => []
  end.

(** The id of the hook prompt that a message is, if it is one. *)
Definition hook_prompt_id (item : ResponseItems.ResponseItem) (b : ThreadHistoryBuilder) : option (list N) :=
  match item with
  | ResponseItems.Message id role content _ _ =>
      if bool_decide (role = lit "user") then
        _ ← parse_hook_prompt_message content; Some (default (now_v7 (uuids_drawn b)) id)
      else None
  | _ => None
  end.

(** Ids that are given from outside are not of the form the builder uses, a turn is not started twice,
    a hook prompt is new in its turn, an event of the review mode that names a turn names its item as
    well, and the counter of items has room. *)
Definition admissible (item : RolloutItem) (b : ThreadHistoryBuilder) : bool :=
  (next_item_index b <? i64_max)%Z &&
  match item with
  | RolloutEvent event =>
      forallb external_item_id (event_item_ids event) && forallb external_turn_id (event_turn_ids event) &&
      match event with
      | EvTurnStarted p => bool_decide (ts_turn_id p ∉ turn_ids (snapshot b))
      | EvEnteredReviewMode _ id None | EvExitedReviewMode id None _ => bool_decide (id = None)
      | _ => true
      end
  | RolloutResponseItem item =>
      match hook_prompt_id item b with
      | Some id =>
          external_item_id id &&
          match current_turn b with Some turn => bool_decide (id ∉ item_id <$> p_items turn) | None => true end
      | None => true
      end
  | _ => true
  end.

Lemma good_review b mk id item :
  ready b → (∀ i, item_id (mk i) = i) → forallb external_item_id (option_list item) = true →
  forallb external_turn_id (option_list id) = true → (item = None → id = None) →
  good b (let '(i, b) := match item with Some i => (i, b) | None => next_item_id b end in
          upsert_review_mode_item id (mk i) b).
Proof.
  intros Hr Hmk He Ht Hn. destruct item as [i|].
  - simpl in He. rewrite andb_true_r in He. apply good_upsert_review; [done|by rewrite Hmk|].
    intros j ->. simpl in Ht. by rewrite andb_true_r in Ht.
  - rewrite (Hn eq_refl). by apply (good_upsert_generated b mk).
Qed.

Lemma good_lifecycle b id item :
  ready b → forallb external_item_id (if should_upsert item then [turn_item_id item] else []) = true →
  forallb external_turn_id (if is_review_mode_item item then [id] else []) = true →
  good b (handle_materialized_item_lifecycle id item b).
Proof.
  intros Hr He Ht. unfold handle_materialized_item_lifecycle. destruct (should_upsert item); [|auto].
  simpl in He. rewrite andb_true_r, <- item_from_core_id in He. destruct (is_review_mode_item item); [|by apply good_upsert_turn].
  apply good_upsert_review; [done..|]. intros i [= <-]. simpl in Ht. by rewrite andb_true_r in Ht.
Qed.

Lemma good_guardian b p :
  ready b → forallb external_item_id (option_list (target_item_id p)) = true → good b (handle_guardian_assessment p b).
Proof.
  intros Hr He. unfold handle_guardian_assessment.
  destruct (_ ≫= build_item_from_guardian_event p) as [item|] eqn:E; [|auto]. apply good_upsert_routed; [done|].
  apply bind_Some in E as (s & _ & E). unfold build_item_from_guardian_event in E.
  destruct (ga_action p); try done; destruct (target_item_id p) as [i|]; try done; simpl in *; simplify_eq;
    by rewrite andb_true_r in He.
Qed.

Lemma good_response b item : ready b →
  (∀ id, hook_prompt_id item b = Some id → external_item_id id = true ∧
     ∀ turn, current_turn b = Some turn → id ∉ item_id <$> p_items turn) →
  good b (handle_response_item item b).
Proof.
  intros Hr H. destruct item; try by apply good_refl. simpl in *. case_bool_decide; [|auto].
  destruct (parse_hook_prompt_message content) as [fragments|]; simpl in H; [|auto].
  destruct (H _ eq_refl) as [He Hf]. destruct id as [id|]; simpl in *.
  - rewrite push_is_put by done. by apply good_upsert_current.
  - rewrite push_is_put by done.
    assert (Hr' : ready (with_uuid_drawn b)) by (destruct Hr; by split).
    by apply (good_upsert_current (with_uuid_drawn b) (HookPrompt (now_v7 (uuids_drawn b)) fragments) Hr').
Qed.

#[local] Hint Resolve good_upsert_current good_upsert_turn good_upsert_routed good_user_message good_agent_message
  good_agent_reasoning good_agent_reasoning_raw good_error good_aborted good_complete good_rollback good_guardian
  good_lifecycle good_compacted : core.

Lemma external_one id : forallb external_item_id [id] = true → external_item_id id = true.
Proof. simpl. by rewrite andb_true_r. Qed.

Lemma good_event b event : ready b →
  forallb external_item_id (event_item_ids event) = true → forallb external_turn_id (event_turn_ids event) = true →
  (∀ p, event = EvTurnStarted p → ts_turn_id p ∉ turn_ids (snapshot b)) →
  (∀ h id, event = EvEnteredReviewMode h id None → id = None) →
  (∀ id o, event = EvExitedReviewMode id None o → id = None) → good b (handle_event event b).
Proof.
  intros Hr Hi Ht Hs He Hx. destruct event; cbn [event_item_ids event_turn_ids] in Hi, Ht;
    try apply external_one in Hi; cbn [handle_event]; auto.
  - unfold mcp_end_item. destruct result; auto.
  - by apply (good_push_generated b ContextCompaction).
  - apply (good_review b (λ i, EnteredReviewMode i _)); [done..|]. intros ->. by eapply He.
  - apply (good_review b (λ i, ExitedReviewMode i _)); [done..|]. intros ->. by eapply Hx.
  - apply good_started; [done|by apply Hs|]. simpl in Ht. by rewrite andb_true_r in Ht.
Qed.

Lemma ready_advance b : after b → (next_item_index b < i64_max)%Z → ready (advance_rollout b).
Proof. intros [Hl Hok] Hroom. by split. Qed.

(** One item of a rollout. *)
Lemma item_tracked b item : after b → admissible item b = true →
  after (handle_rollout_item item b) ∧ ∃ cs, tracks b (handle_rollout_item item b) cs.
Proof.
  intros Ha Hadm. apply andb_true_iff in Hadm as [Hroom%Z.ltb_lt Hadm].
  pose proof (ready_advance b Ha Hroom) as Hr.
  assert (Hg : good (advance_rollout b) (handle_rollout_item item b)).
  { destruct item as [event| |item|]; simpl; [|auto| |auto].
    - apply andb_true_iff in Hadm as [[Hi Ht]%andb_true_iff Hx]. apply good_event; [done..| | |].
      + intros p ->. by apply bool_decide_eq_true in Hx.
      + intros h id ->. by apply bool_decide_eq_true in Hx.
      + intros id o ->. by apply bool_decide_eq_true in Hx.
    - apply good_response; [done|]. intros id Hid. change (hook_prompt_id item b = Some id) in Hid. rewrite Hid in Hadm.
      apply andb_true_iff in Hadm as [He Hf]. split; [done|]. intros turn Hc. simpl in Hc. rewrite Hc in Hf.
      by apply bool_decide_eq_true in Hf. }
  destruct Hg as ([cs Hcs] & Haf & _). split; [done|]. exists cs. by eapply tracks_from.
Qed.
End steps.
