(* ===== verification/ThreadHistoryBatch.v ===== *)
(** * Merged reports

    Reporting does not disturb the builder: builders that differ only in the report stay so ([same],
    under which all operations are [Proper]).  The accumulator merges the reports of a batch; applying
    the merged report is applying the reports one after the other. *)

From stdpp Require Import prelude strings pretty gmap.
From S2P Require Import Prelude RustStr ResponseItems RolloutTruncation CoreItems ThreadItems ThreadHistory ThreadHistoryLaws ThreadHistorySteps.

Section batch.
Context {W : Wire}.

(** ** Reporting is transparent *)

Definition same (b b' : ThreadHistoryBuilder) : Prop := with_changes None b = with_changes None b'.

#[global] Instance same_equiv : Equivalence same.
Proof. split; [intros ?|intros ???|intros ?????]; unfold same in *; congruence. Qed.

Lemma same_split b b' : same b b' → b' = with_changes (active_change_set b') b.
Proof. destruct b, b'. unfold same, with_changes. simpl. intros [= -> -> -> -> -> ->]. done. Qed.
Lemma same_with c b : same (with_changes c b) b.
Proof. done. Qed.

(** It is enough to look at the builder with another report. *)
Lemma proper_same (f : ThreadHistoryBuilder → ThreadHistoryBuilder) :
  (∀ c b, same (f (with_changes c b)) (f b)) → Proper (same ==> same) f.
Proof. intros H b b' Hb. rewrite (same_split _ _ Hb). symmetry. apply H. Qed.

Lemma same_item id item b : same (record_changed_item id item b) b.
Proof. done. Qed.
Lemma same_turn ch b : same (record_changed_turn ch b) b.
Proof. done. Qed.
Lemma same_pending t b : same (record_changed_pending_turn t b) b.
Proof. unfold record_changed_pending_turn. by destruct (is_tracking_changes b). Qed.

#[local] Instance finish_same : Proper (same ==> same) finish_current_turn.
Proof.
  apply proper_same. intros c b. unfold finish_current_turn. simpl. destruct (current_turn b); [|done]. by destruct (droppable _).
Qed.
#[local] Instance with_current_same t : Proper (same ==> same) (with_current t).
Proof. by apply proper_same. Qed.
#[local] Instance with_turns_same f : Proper (same ==> same) (with_turns f).
Proof. by apply proper_same. Qed.
#[local] Instance with_index_same n : Proper (same ==> same) (with_next_item_index n).
Proof. by apply proper_same. Qed.
#[local] Instance open_same t : Proper (same ==> same) (open_turn t).
Proof. intros b b' Hb. unfold open_turn. by rewrite !same_pending, Hb. Qed.

(** The same result, and builders that are the same. *)
Definition same2 {A} (r r' : A * ThreadHistoryBuilder) : Prop := r.1 = r'.1 ∧ same r.2 r'.2.
Lemma same2_let {A} (r r' : A * ThreadHistoryBuilder) (k : A → ThreadHistoryBuilder → ThreadHistoryBuilder) :
  (∀ a, Proper (same ==> same) (k a)) → same2 r r' → same (let '(a, b) := r in k a b) (let '(a, b) := r' in k a b).
Proof. destruct r, r'. intros Hk [H1 H2]. simpl in *. subst. by apply Hk. Qed.

Lemma new_turn_same id : ∀ b b', same b b' → same2 (new_turn id b) (new_turn id b').
Proof.
  intros b b' Hb. rewrite (same_split _ _ Hb). unfold new_turn. destruct id; [done|]. simpl. by case_bool_decide.
Qed.
Lemma next_item_same b b' : same b b' → same2 (next_item_id b) (next_item_id b').
Proof. intros Hb. by rewrite (same_split _ _ Hb). Qed.
Lemma ensure_same b b' : same b b' → same2 (ensure_turn b) (ensure_turn b').
Proof.
  intros Hb. rewrite (same_split _ _ Hb). unfold ensure_turn. simpl. destruct (current_turn b) eqn:Hc; [done|].
  unfold new_turn. simpl. by case_bool_decide; split; simpl; try apply open_same.
Qed.

#[local] Instance push_same item : Proper (same ==> same) (push_item_in_current_turn item).
Proof.
  intros b b' Hb. apply (same2_let _ _ (λ turn b, record_changed_item (p_id turn) item _)); [|by apply ensure_same].
  intros t c c' Hc. by rewrite !same_item, Hc.
Qed.
#[local] Instance upsert_current_same item : Proper (same ==> same) (upsert_item_in_current_turn item).
Proof.
  intros b b' Hb. apply (same2_let _ _ (λ turn b, record_changed_item (p_id turn) item _)); [|by apply ensure_same].
  intros t c c' Hc. by rewrite !same_item, Hc.
Qed.
#[local] Instance upsert_turn_same id item : Proper (same ==> same) (upsert_item_in_turn_id id item).
Proof.
  apply proper_same. intros c b. unfold upsert_item_in_turn_id. change (current_is id (with_changes c b)) with (current_is id b).
  destruct (current_is id b); [done|]. simpl. by destruct (find_turn id (turns b)).
Qed.
#[local] Instance upsert_routed_same id item : Proper (same ==> same) (upsert_item_routed id item).
Proof. intros b b' Hb. unfold upsert_item_routed. case_bool_decide; by rewrite Hb. Qed.
#[local] Instance upsert_review_same id item : Proper (same ==> same) (upsert_review_mode_item id item).
Proof.
  apply proper_same. intros c b. destruct id as [id|]; [|by apply upsert_current_same].
  unfold upsert_review_mode_item. change (current_is id (with_changes c b)) with (current_is id b).
  change (turns (with_changes c b)) with (turns b). cbv zeta.
  destruct (_ || _); apply upsert_turn_same; [done|].
  apply (same2_let _ _ open_turn); [intros t; apply open_same|]. by apply new_turn_same, finish_same.
Qed.

Lemma reasoning_same add mk : Proper (same ==> same) (add_reasoning add mk).
Proof.
  intros b b' Hb. apply (same2_let _ _ (λ turn b, match last (p_items turn) ≫= add with Some item => _ | None => _ end));
    [|by apply ensure_same].
  intros t c c' Hc. destruct (_ ≫= add); [by rewrite !same_item, Hc|].
  apply (same2_let _ _ (λ id b, push_item_in_current_turn (mk id) b)); [|by apply next_item_same]. intros id d d' Hd. by rewrite Hd.
Qed.

Lemma same_fields b b' : same b b' →
  turns b = turns b' ∧ current_turn b = current_turn b' ∧ (∀ id, current_is id b = current_is id b') ∧ uuids_drawn b = uuids_drawn b'.
Proof. intros Hb. by rewrite (same_split _ _ Hb). Qed.

Lemma user_message_same p : Proper (same ==> same) (handle_user_message p).
Proof.
  intros b b' Hb. apply (same2_let _ _ (λ id b, push_item_in_current_turn (UserMessage id _ _) b)).
  { intros id c c' Hc. by rewrite Hc. }
  apply next_item_same. destruct (same_fields _ _ Hb) as (_ & <- & _). destruct (current_turn b); [|done].
  destruct (_ && _); [by rewrite Hb|done].
Qed.
Lemma generated_same mk : Proper (same ==> same) (push_generated mk).
Proof.
  intros b b' Hb. apply (same2_let _ _ (λ id b, push_item_in_current_turn (mk id) b)); [|by apply next_item_same].
  intros id c c' Hc. by rewrite Hc.
Qed.
Lemma review_same mk id item : Proper (same ==> same)
  (λ b, let '(i, b) := match item with Some i => (i, b) | None => next_item_id b end in upsert_review_mode_item id (mk i) b).
Proof.
  intros b b' Hb. apply (same2_let _ _ (λ i b, upsert_review_mode_item id (mk i) b)).
  { intros i c c' Hc. by rewrite Hc. }
  destruct item; [done|by apply next_item_same].
Qed.
Lemma error_same e : Proper (same ==> same) (handle_error e).
Proof.
  intros b b' Hb. unfold handle_error. destruct (affects_turn_status e); [|done].
  destruct (same_fields _ _ Hb) as (_ & <- & _). destruct (current_turn b); [|done]. by rewrite !same_turn, Hb.
Qed.
#[local] Instance end_current_same f turn : Proper (same ==> same) (end_current f turn).
Proof. intros b b' Hb. unfold end_current. by rewrite !same_turn, Hb. Qed.
#[local] Instance end_finished_same id f turn : Proper (same ==> same) (end_finished id f turn).
Proof. intros b b' Hb. unfold end_finished. by rewrite !same_turn, Hb. Qed.
Lemma aborted_same p : Proper (same ==> same) (handle_turn_aborted p).
Proof.
  intros b b' Hb. unfold handle_turn_aborted. destruct (same_fields _ _ Hb) as (<- & <- & Hc & _).
  assert (Hfb : ∀ f, same (match current_turn b with Some t => end_current f t b | None => b end)
                          (match current_turn b with Some t => end_current f t b' | None => b' end)).
  { intros f. destruct (current_turn b); by rewrite Hb. }
  destruct (ta_turn_id p) as [id|]; [|apply Hfb]. rewrite <- Hc. destruct (current_is id b); [by rewrite Hb|].
  destruct (find_turn id (turns b)); [by rewrite Hb|apply Hfb].
Qed.
Lemma complete_same p : Proper (same ==> same) (handle_turn_complete p).
Proof.
  intros b b' Hb. unfold handle_turn_complete. destruct (same_fields _ _ Hb) as (<- & <- & Hc & _). rewrite <- Hc.
  destruct (current_is (tc_turn_id p) b); [by rewrite Hb|]. destruct (find_turn (tc_turn_id p) (turns b)); [by rewrite Hb|].
  destruct (current_turn b); by rewrite Hb.
Qed.
Lemma started_same p : Proper (same ==> same) (handle_turn_started p).
Proof.
  intros b b' Hb. apply (same2_let _ _ (λ turn b, open_turn (started_turn p turn) b)).
  { intros t c c' Hc. by rewrite Hc. }
  apply new_turn_same. by rewrite Hb.
Qed.
Lemma rollback_same n : Proper (same ==> same) (handle_thread_rollback n).
Proof.
  intros b b' Hb. rewrite !rollback_eq. pose proof (finish_same _ _ Hb) as Hf.
  destruct (same_fields _ _ Hf) as (<- & _). apply with_index_same, with_turns_same.
  transitivity (finish_current_turn b); [done|]. by transitivity (finish_current_turn b').
Qed.
Lemma compacted_same : Proper (same ==> same) handle_compacted.
Proof.
  intros b b' Hb. apply (same2_let _ _ (λ turn b, with_current (Some (saw_compaction turn)) b)); [|by apply ensure_same].
  intros t c c' Hc. by rewrite Hc.
Qed.
Lemma response_same item : Proper (same ==> same) (handle_response_item item).
Proof.
  intros b b' Hb. destruct item; try done. simpl. case_bool_decide; [|done]. destruct (parse_hook_prompt_message _); [|done].
  apply (same2_let _ _ (λ id b, push_item_in_current_turn (HookPrompt id _) b)).
  { intros i c c' Hc. by rewrite Hc. }
  destruct id; [done|]. by rewrite (same_split _ _ Hb).
Qed.

Lemma event_same event : Proper (same ==> same) (handle_event event).
Proof.
  intros b b' Hb. destruct event; cbn [handle_event]; try (by rewrite Hb).
  - by apply user_message_same.
  - unfold handle_agent_message. case_bool_decide; [done|]. by apply (generated_same (λ id, AgentMessage id _ _ _)).
  - unfold handle_agent_reasoning. case_bool_decide; [done|]. by apply reasoning_same.
  - unfold handle_agent_reasoning_raw_content. case_bool_decide; [done|]. by apply reasoning_same.
  - unfold handle_guardian_assessment. destruct (_ ≫= _); [by rewrite Hb|done].
  - by apply (generated_same ContextCompaction).
  - by apply (review_same (λ i, EnteredReviewMode i _)).
  - by apply (review_same (λ i, ExitedReviewMode i _)).
  - unfold handle_materialized_item_lifecycle. destruct (should_upsert item); [|done].
    destruct (is_review_mode_item item); by rewrite Hb.
  - unfold handle_materialized_item_lifecycle. destruct (should_upsert item); [|done].
    destruct (is_review_mode_item item); by rewrite Hb.
  - by apply error_same.
  - by apply rollback_same.
  - by apply aborted_same.
  - by apply started_same.
  - by apply complete_same.
Qed.

#[global] Instance rollout_item_same item : Proper (same ==> same) (handle_rollout_item item).
Proof.
  intros b b' Hb. assert (Ha : same (advance_rollout b) (advance_rollout b')) by by rewrite (same_split _ _ Hb).
  destruct item; simpl; [by apply event_same|by apply compacted_same|by apply response_same|done].
Qed.

(** ** Changes that commute *)

Definition item_key (c : ThreadHistoryItemChange) : list N * list N := (ic_turn_id c, item_id (ic_item c)).

Definition keeps_id_of (f : Turn → Turn) : Prop := ∀ t, turn_id (f t) = turn_id t.

Lemma update_hit id f t ts : turn_id t = id → update_turn id f (t :: ts) = f t :: ts.
Proof. intros. simpl. by rewrite bool_decide_true. Qed.
Lemma update_miss id f t ts : turn_id t ≠ id → update_turn id f (t :: ts) = t :: update_turn id f ts.
Proof. intros. simpl. by rewrite bool_decide_false. Qed.
Lemma update_update_ne id id' f g ts : id ≠ id' → keeps_id_of f → keeps_id_of g →
  update_turn id f (update_turn id' g ts) = update_turn id' g (update_turn id f ts).
Proof.
  intros Hne Hf Hg. induction ts as [|t ts IH]; [done|].
  pose proof (Hf t). pose proof (Hg t). destruct (decide (turn_id t = id')), (decide (turn_id t = id)); try congruence;
    repeat first [rewrite update_hit by congruence|rewrite update_miss by (intros ?; congruence)]; congruence.
Qed.
Lemma update_update_eq id f g ts : keeps_id_of g →
  update_turn id f (update_turn id g ts) = update_turn id (f ∘ g) ts.
Proof.
  intros Hg. induction ts as [|t ts IH]; [done|]. pose proof (Hg t).
  destruct (decide (turn_id t = id)); repeat first [rewrite update_hit by congruence|rewrite update_miss by (intros ?; congruence)];
    [done|congruence].
Qed.
Lemma update_turn_none id f ts : find_turn id ts = None → update_turn id f ts = ts.
Proof. intros H%find_turn_none. by apply update_turn_notin. Qed.
Lemma update_turn_ext' id f g ts :
  (∀ t, find_turn id ts = Some t → f t = g t) → update_turn id f ts = update_turn id g ts.
Proof.
  intros H. destruct (find_turn id ts) as [t|] eqn:E; [by eapply update_turn_ext, H|]. by rewrite !update_turn_none.
Qed.
Lemma find_hit id t ts : turn_id t = id → find_turn id (t :: ts) = Some t.
Proof. intros. unfold find_turn. simpl. by rewrite decide_True. Qed.
Lemma find_miss id t ts : turn_id t ≠ id → find_turn id (t :: ts) = find_turn id ts.
Proof. intros. unfold find_turn. simpl. rewrite decide_False by done. by destruct (list_find _ ts) as [[]|]. Qed.
Lemma find_update id f ts : keeps_id_of f → find_turn id (update_turn id f ts) = f <$> find_turn id ts.
Proof.
  intros Hf. induction ts as [|t ts IH]; [done|]. pose proof (Hf t). destruct (decide (turn_id t = id)).
  - by rewrite update_hit, !find_hit by congruence.
  - by rewrite update_miss, !find_miss by done.
Qed.
Lemma find_update_ne id id' f ts : id ≠ id' → keeps_id_of f → find_turn id (update_turn id' f ts) = find_turn id ts.
Proof.
  intros Hne Hf. induction ts as [|t ts IH]; [done|]. pose proof (Hf t). destruct (decide (turn_id t = id')).
  - rewrite update_hit by done. by rewrite !find_miss by (intros ?; congruence).
  - rewrite update_miss by done. destruct (decide (turn_id t = id)); [by rewrite !find_hit|by rewrite !find_miss].
Qed.

Lemma keeps_upsert item : keeps_id_of (upsert_in item).
Proof. done. Qed.
Lemma keeps_meta ch : keeps_id_of (change_meta ch).
Proof. done. Qed.
#[local] Hint Resolve keeps_upsert keeps_meta : core.

Lemma upsert_upsert_ne items i j : item_id i ∈ item_id <$> items → item_id i ≠ item_id j →
  upsert_turn_item (upsert_turn_item items j) i = upsert_turn_item (upsert_turn_item items i) j.
Proof.
  intros Hin Hne. induction items as [|x items IH]; csimpl in Hin; [set_solver|]. simpl.
  destruct (decide (item_id x = item_id i)) as [Ei|Ei], (decide (item_id x = item_id j)) as [Ej|Ej]; try congruence;
    repeat first [rewrite bool_decide_true by congruence|rewrite bool_decide_false by (intros ?; congruence)|progress simpl]; try done.
  rewrite IH by set_solver. done.
Qed.
Lemma upsert_upsert_eq items i j : item_id i = item_id j →
  upsert_turn_item (upsert_turn_item items i) j = upsert_turn_item items j.
Proof.
  intros E. induction items as [|x items IH]; simpl; [by rewrite bool_decide_true|].
  destruct (decide (item_id x = item_id i)) as [Ei|Ei];
    repeat first [rewrite bool_decide_true by congruence|rewrite bool_decide_false by (intros ?; congruence)|progress simpl]; try done.
  by rewrite IH.
Qed.

(** The item of the change is there already, if its turn is. *)
Definition settled (c : ThreadHistoryItemChange) (ts : list Turn) : Prop :=
  ∀ t, find_turn (ic_turn_id c) ts = Some t → item_id (ic_item c) ∈ item_ids t.

Lemma settled_self c c' ts : item_key c = item_key c' → settled c' (apply_item_change ts c).
Proof.
  intros [= Ht Hi] t. unfold apply_item_change. rewrite <- Ht, find_update by auto.
  intros (u & _ & ->)%fmap_Some. unfold item_ids. simpl. rewrite upsert_item_ids, <- Hi. case_bool_decide; set_solver.
Qed.
Lemma settled_other c d ts : settled c ts → settled c (apply_item_change ts d).
Proof.
  intros Hs t. unfold apply_item_change. destruct (decide (ic_turn_id c = ic_turn_id d)) as [E|E].
  - rewrite <- E, find_update by auto. intros (u & Hu & ->)%fmap_Some. specialize (Hs u Hu). unfold item_ids in *. simpl.
    rewrite upsert_item_ids. set_solver.
  - rewrite find_update_ne by auto. apply Hs.
Qed.
Lemma item_commute c d ts : settled c ts → item_key c ≠ item_key d →
  apply_item_change (apply_item_change ts d) c = apply_item_change (apply_item_change ts c) d.
Proof.
  intros Hs Hk. unfold apply_item_change. destruct (decide (ic_turn_id c = ic_turn_id d)) as [E|E]; [|by apply update_update_ne].
  rewrite <- E, !update_update_eq by auto. apply update_turn_ext'. intros t Ht. unfold upsert_in, turn_with_items. simpl.
  f_equal. apply upsert_upsert_ne; [by apply Hs|]. intros Ei. apply Hk. unfold item_key. by rewrite E, Ei.
Qed.
Lemma item_absorb c c' ts : item_key c = item_key c' → apply_item_change (apply_item_change ts c) c' = apply_item_change ts c'.
Proof.
  intros [= Ht Hi]. unfold apply_item_change. rewrite Ht, update_update_eq by auto. apply update_turn_ext'. intros t _.
  unfold upsert_in, turn_with_items. simpl. f_equal. by apply upsert_upsert_eq.
Qed.
Lemma item_commute_fold c l ts : settled c ts → item_key c ∉ item_key <$> l →
  apply_item_change (fold_left apply_item_change l ts) c = fold_left apply_item_change l (apply_item_change ts c).
Proof.
  revert ts. induction l as [|d l IH]; intros ts Hs Hk; [done|]. csimpl in Hk. apply not_elem_of_cons in Hk as [Hne Hk].
  simpl. rewrite IH; [|by apply settled_other|done]. by rewrite item_commute.
Qed.

(** Replacing a change in place is making it again. *)
Lemma items_replace l1 l2 c c' ts : item_key c = item_key c' → item_key c' ∉ item_key <$> l2 →
  fold_left apply_item_change (l1 ++ c' :: l2) ts = apply_item_change (fold_left apply_item_change (l1 ++ c :: l2) ts) c'.
Proof.
  intros Hk Hn. rewrite !fold_left_app. simpl. rewrite (item_commute_fold c' l2); [|by apply settled_self|done].
  by rewrite item_absorb.
Qed.

Lemma turn_change_ids ts c : turn_ids (apply_turn_change ts c) =
  turn_ids ts ++ (if bool_decide (ch_turn_id c ∈ turn_ids ts) then [] else [ch_turn_id c]).
Proof.
  unfold apply_turn_change. case_bool_decide; [by rewrite update_turn_ids, app_nil_r|]. unfold turn_ids. by rewrite fmap_app.
Qed.
Lemma turn_absorb c c' ts : ch_turn_id c = ch_turn_id c' →
  apply_turn_change (apply_turn_change ts c) c' = apply_turn_change ts c'.
Proof.
  intros E. unfold apply_turn_change at 1. rewrite turn_change_ids, <- E. rewrite bool_decide_true by (case_bool_decide; set_solver).
  unfold apply_turn_change. rewrite <- E. case_bool_decide.
  - by rewrite update_update_eq by auto.
  - rewrite update_turn_last by done. unfold change_meta, new_from_change. simpl. by rewrite E.
Qed.
Lemma turn_commute c d ts : ch_turn_id c ∈ turn_ids ts → ch_turn_id c ≠ ch_turn_id d →
  apply_turn_change (apply_turn_change ts d) c = apply_turn_change (apply_turn_change ts c) d.
Proof.
  intros Hin Hne. unfold apply_turn_change at 1 3. rewrite !turn_change_ids.
  rewrite (bool_decide_true (ch_turn_id c ∈ turn_ids ts)), app_nil_r by done.
  rewrite bool_decide_true by (case_bool_decide; set_solver). unfold apply_turn_change.
  rewrite (bool_decide_true (ch_turn_id c ∈ turn_ids ts)) by done. case_bool_decide.
  - by apply update_update_ne.
  - by apply update_turn_app_l.
Qed.
Lemma turn_commute_fold c l ts : ch_turn_id c ∈ turn_ids ts → ch_turn_id c ∉ ch_turn_id <$> l →
  apply_turn_change (fold_left apply_turn_change l ts) c = fold_left apply_turn_change l (apply_turn_change ts c).
Proof.
  revert ts. induction l as [|d l IH]; intros ts Hin Hk; [done|]. csimpl in Hk. apply not_elem_of_cons in Hk as [Hne Hk].
  simpl. rewrite IH; [|rewrite turn_change_ids; set_solver|done]. by rewrite turn_commute.
Qed.
Lemma turns_replace l1 l2 c c' ts : ch_turn_id c = ch_turn_id c' → ch_turn_id c' ∉ ch_turn_id <$> l2 →
  fold_left apply_turn_change (l1 ++ c' :: l2) ts = apply_turn_change (fold_left apply_turn_change (l1 ++ c :: l2) ts) c'.
Proof.
  intros Hk Hn. rewrite !fold_left_app. simpl. rewrite (turn_commute_fold c' l2); [| |done].
  - by rewrite turn_absorb.
  - rewrite turn_change_ids, <- Hk. case_bool_decide; set_solver.
Qed.

(** A turn's status past the items of turns that are there. *)
Lemma turn_item_commute c d ts : ic_turn_id d ∈ turn_ids ts →
  apply_turn_change (apply_item_change ts d) c = apply_item_change (apply_turn_change ts c) d.
Proof.
  intros Hin. unfold apply_turn_change, apply_item_change. rewrite update_turn_ids by auto. case_bool_decide as Hc.
  - destruct (decide (ch_turn_id c = ic_turn_id d)) as [E|E]; [|by apply update_update_ne].
    rewrite E, !update_update_eq by auto. by apply update_turn_ext'.
  - by rewrite update_turn_app_l.
Qed.
Lemma item_changes_ids l ts : turn_ids (fold_left apply_item_change l ts) = turn_ids ts.
Proof. revert ts. induction l as [|d l IH]; intros ts; [done|]. simpl. rewrite IH. by apply update_turn_ids. Qed.
Lemma turn_items_commute c l ts : Forall (λ d, ic_turn_id d ∈ turn_ids ts) l →
  apply_turn_change (fold_left apply_item_change l ts) c = fold_left apply_item_change l (apply_turn_change ts c).
Proof.
  revert ts. induction l as [|d l IH]; intros ts Hl; [done|]. inv Hl. simpl. rewrite IH.
  - by rewrite turn_item_commute.
  - eapply Forall_impl; [done|]. intros e. unfold apply_item_change. by rewrite update_turn_ids.
Qed.
End batch.
