(* ===== verification/ThreadHistoryReplay.v ===== *)
(** * A client that applies the reports has the turns

    The accumulator of a batch keeps an index of its slots; the invariant ties the two together.  Then
    the merged report of a batch brings a copy of the turns up to date, and the theorems on rollouts. *)

From stdpp Require Import prelude strings pretty gmap.
From S2P Require Import Prelude RustStr ResponseItems RolloutTruncation CoreItems ThreadItems ThreadHistory ThreadHistoryLaws ThreadHistorySteps ThreadHistoryBatch.

(** ** Slots with an index *)

Section slots.
Context {A K : Type} `{Countable K} (key : A → K).

Definition indexes_ok (slots : list (option A)) (idx : gmap K nat) : Prop :=
  ∀ k i, idx !! k = Some i ↔ ∃ c, slots !! i = Some (Some c) ∧ key c = k.

Lemma indexes_push slots idx c :
  indexes_ok slots idx → idx !! key c = None → indexes_ok (slots ++ [Some c]) (<[key c := length slots]> idx).
Proof.
  unfold indexes_ok. intros Hok Hn k i. destruct (decide (k = key c)) as [->|Hk].
  - rewrite lookup_insert_eq. split.
    + intros [= <-]. exists c. split; [|done]. by rewrite lookup_app_r, Nat.sub_diag.
    + intros (d & Hd & Hkd). apply lookup_app_Some in Hd as [Hd|[Hl Hd]].
      * assert (Hs : idx !! key c = Some i) by (apply Hok; by exists d). congruence.
      * destruct (i - length slots) as [|n] eqn:E; [|done]. f_equal. lia.
  - rewrite lookup_insert_ne, Hok by done. split; intros (d & Hd & Hkd); exists d; split; auto.
    + apply lookup_app_Some. by left.
    + apply lookup_app_Some in Hd as [Hd|[Hl Hd]]; [done|]. destruct (i - length slots); simpl in Hd; [|done]. congruence.
Qed.

Lemma indexes_replace slots idx i c' : indexes_ok slots idx → idx !! key c' = Some i →
  indexes_ok (<[i := Some c']> slots) idx ∧
  ∃ l1 c l2, omap id slots = l1 ++ c :: l2 ∧ omap id (<[i := Some c']> slots) = l1 ++ c' :: l2 ∧
    key c = key c' ∧ key c' ∉ key <$> l2.
Proof.
  unfold indexes_ok. intros Hok Hi. destruct (proj1 (Hok _ _) Hi) as (c & Hc & Hkc). pose proof (lookup_lt_Some _ _ _ Hc) as Hlt. split.
  - intros k j. rewrite Hok. destruct (decide (i = j)) as [<-|Hne].
    + rewrite list_lookup_insert_eq by done. rewrite Hc. naive_solver.
    + by rewrite list_lookup_insert_ne.
  - exists (omap id (take i slots)), c, (omap id (drop (S i) slots)).
    split; [rewrite <- (take_drop_middle slots i (Some c) Hc) at 1; by rewrite omap_app|].
    split; [rewrite insert_take_drop by done; by rewrite omap_app|]. split; [done|].
    intros (d & Hkd & Hd)%list_elem_of_fmap. apply list_elem_of_omap in Hd as ([d'|] & Hin & [= ->]).
    apply list_elem_of_lookup in Hin as [j Hj]. rewrite lookup_drop in Hj.
    assert (Hs : idx !! key c' = Some (S i + j)) by (apply Hok; by exists d). rewrite Hi in Hs. simplify_eq. lia.
Qed.

(** Dropping the keys that are not [P]. *)
Context (P : K → Prop) `{∀ k, Decision (P k)}.
Definition drop_slot (o : option A) : option A := c ← o; if decide (P (key c)) then Some c else None.

Lemma indexes_drop slots idx : indexes_ok slots idx →
  indexes_ok (drop_slot <$> slots) (filter (λ e, P e.1) idx).
Proof.
  unfold indexes_ok. intros Hok k i. rewrite map_lookup_filter_Some, Hok, list_lookup_fmap. simpl. split.
  - intros [(c & Hc & Hk) Hp]. exists c. rewrite Hc. simpl. subst k. by rewrite decide_True.
  - intros (c & Hc & Hk). destruct (slots !! i) as [[d|]|] eqn:E; simpl in Hc; try done.
    destruct (decide (P (key d))); simplify_eq. split; [by exists c|done].
Qed.
Lemma omap_drop (slots : list (option A)) : omap id (drop_slot <$> slots) = filter (λ c, P (key c)) (omap id slots).
Proof.
  induction slots as [|[c|] slots IH]; csimpl; [done| |done]. rewrite filter_cons.
  destruct (decide (P (key c))); csimpl; by rewrite IH.
Qed.
Lemma clear_slots_lookup idxs (slots : list (option A)) j :
  clear_slots idxs slots !! j = o ← slots !! j; Some (if bool_decide (j ∈ idxs) then None else o).
Proof.
  induction idxs as [|i idxs IH].
  { unfold clear_slots. cbn [foldr]. destruct (slots !! j); [|done]. cbn [mbind option_bind].
    rewrite bool_decide_false; [done|set_solver]. }
  change (clear_slots (i :: idxs) slots) with (<[i := None]> (clear_slots idxs slots)).
  destruct (decide (i = j)) as [->|Hne].
  - destruct (slots !! j) as [o|] eqn:E; cbn [mbind option_bind] in *.
    + rewrite list_lookup_insert_eq by (apply lookup_lt_is_Some; rewrite IH; by eexists).
      by rewrite bool_decide_true by set_solver.
    + rewrite list_insert_ge; [done|]. by apply lookup_ge_None.
  - rewrite list_lookup_insert_ne, IH by done. destruct (slots !! j); [|done]. cbn [mbind option_bind].
    rewrite (bool_decide_ext (j ∈ i :: idxs) (j ∈ idxs)) by set_solver. done.
Qed.
Lemma clear_drop slots idx : indexes_ok slots idx →
  clear_slots (snd <$> filter (λ e, ¬ P e.1) (map_to_list idx)) slots = drop_slot <$> slots.
Proof.
  unfold indexes_ok. intros Hok. apply list_eq. intros j. rewrite clear_slots_lookup, list_lookup_fmap.
  destruct (slots !! j) as [[c|]|] eqn:E; cbn [mbind option_bind fmap option_fmap option_map drop_slot];
    [|by case_bool_decide|done]. f_equal.
  assert (Hiff : j ∈ snd <$> filter (λ e, ¬ P e.1) (map_to_list idx) ↔ ¬ P (key c)).
  { rewrite list_elem_of_fmap. split.
    - intros ([k i] & Hj & (Hp & Hin%elem_of_map_to_list)%list_elem_of_filter). simpl in *. subst.
      apply Hok in Hin as (d & Hd & <-). congruence.
    - intros Hp. exists (key c, j). split; [done|]. apply list_elem_of_filter. split; [done|].
      apply elem_of_map_to_list, Hok. by exists c. }
  rewrite (bool_decide_ext _ _ Hiff). destruct (decide (P (key c))); [by rewrite bool_decide_false by tauto|by rewrite bool_decide_true].
Qed.

Lemma clear_one slots idx k0 : indexes_ok slots idx →
  match idx !! k0 with Some i => <[i := None]> slots | None => slots end =
  (λ o, c ← o; if decide (key c ≠ k0) then Some c else None) <$> slots.
Proof.
  unfold indexes_ok. intros Hok. apply list_eq. intros j. rewrite list_lookup_fmap.
  destruct (idx !! k0) as [i|] eqn:Hi.
  - destruct (proj1 (Hok _ _) Hi) as (c & Hc & Hk). destruct (decide (i = j)) as [<-|Hne].
    + rewrite list_lookup_insert_eq by by eapply lookup_lt_Some. rewrite Hc. simpl. destruct (decide _); [done|done].
    + rewrite list_lookup_insert_ne by done. destruct (slots !! j) as [[d|]|] eqn:Hd; simpl; [|done|done].
      destruct (decide (key d ≠ k0)) as [|E]; [done|]. apply dec_stable in E.
      assert (Hj : idx !! k0 = Some j) by (apply Hok; by exists d). congruence.
  - destruct (slots !! j) as [[d|]|] eqn:Hd; simpl; [|done|done]. destruct (decide (key d ≠ k0)) as [|E]; [done|].
    apply dec_stable in E. assert (Hj : idx !! k0 = Some j) by (apply Hok; by exists d). congruence.
Qed.
End slots.

Lemma delete_filter {K} `{Countable K} (idx : gmap K nat) k0 : delete k0 idx = filter (λ e, e.1 ≠ k0) idx.
Proof.
  apply map_eq. intros k. destruct (decide (k = k0)) as [->|Hne].
  - rewrite lookup_delete_eq. symmetry. apply map_lookup_filter_None. right. intros x _. simpl. tauto.
  - rewrite lookup_delete_ne by done. destruct (idx !! k) as [i|] eqn:E; symmetry.
    + by apply map_lookup_filter_Some.
    + apply map_lookup_filter_None. by left.
Qed.

Section replay.
Context {W : Wire}.

(** ** Removing turns last or first *)

Lemma remove_update r id f ts : keeps_id_of f →
  remove_turns r (update_turn id f ts) =
  if bool_decide (id ∈ r) then remove_turns r ts else update_turn id f (remove_turns r ts).
Proof.
  intros Hf. unfold remove_turns. induction ts as [|t ts IH]; [by case_bool_decide|]. pose proof (Hf t) as Hft.
  destruct (decide (turn_id t = id)) as [E|E].
  - rewrite update_hit by done. rewrite !filter_cons. case_bool_decide.
    + rewrite !decide_False; [done|set_solver|rewrite Hft; set_solver].
    + rewrite !decide_True; [by rewrite update_hit|set_solver|rewrite Hft; set_solver].
  - rewrite update_miss by done. rewrite !filter_cons, IH.
    destruct (decide (turn_id t ∉ r)); case_bool_decide; try done. by rewrite update_miss.
Qed.
Lemma elem_of_remove r ts id : id ∈ turn_ids (remove_turns r ts) ↔ id ∈ turn_ids ts ∧ id ∉ r.
Proof.
  unfold turn_ids, remove_turns. rewrite !list_elem_of_fmap. split.
  - intros (t & -> & [Ht Hin]%list_elem_of_filter). eauto.
  - intros [(t & -> & Hin) Hn]. exists t. split; [done|]. by apply list_elem_of_filter.
Qed.
Lemma remove_item_changes r l ts : remove_turns r (fold_left apply_item_change l ts) =
  fold_left apply_item_change (filter (λ c, ic_turn_id c ∉ r) l) (remove_turns r ts).
Proof.
  revert ts. induction l as [|c l IH]; intros ts; [done|]. simpl. rewrite IH, filter_cons.
  unfold apply_item_change at 2. rewrite remove_update by done. case_bool_decide; case_decide; try done; set_solver.
Qed.
Lemma remove_turn_change r ts c : remove_turns r (apply_turn_change ts c) =
  if bool_decide (ch_turn_id c ∈ r) then remove_turns r ts else apply_turn_change (remove_turns r ts) c.
Proof.
  unfold apply_turn_change. destruct (decide (ch_turn_id c ∈ turn_ids ts)) as [Hin|Hin].
  - rewrite (bool_decide_true (_ ∈ turn_ids ts)) by done. rewrite remove_update by done.
    destruct (bool_decide (ch_turn_id c ∈ r)) eqn:E; [done|]. apply bool_decide_eq_false in E.
    by rewrite bool_decide_true by by apply elem_of_remove.
  - rewrite (bool_decide_false (_ ∈ turn_ids ts)) by done. unfold remove_turns at 1. rewrite filter_app, filter_cons, filter_nil.
    fold (remove_turns r ts). simpl. rewrite (bool_decide_false (_ ∈ turn_ids (remove_turns r ts))) by (rewrite elem_of_remove; tauto).
    case_bool_decide; case_decide; try tauto. by rewrite app_nil_r.
Qed.
Lemma remove_turn_changes r l ts : remove_turns r (fold_left apply_turn_change l ts) =
  fold_left apply_turn_change (filter (λ c, ch_turn_id c ∉ r) l) (remove_turns r ts).
Proof.
  revert ts. induction l as [|c l IH]; intros ts; [done|]. simpl. rewrite IH, filter_cons, remove_turn_change.
  case_bool_decide; case_decide; try done; set_solver.
Qed.
Lemma remove_ext r s ts : (∀ id, id ∈ r ↔ id ∈ s) → remove_turns r ts = remove_turns s ts.
Proof. intros H. apply list_filter_iff. intros t. by rewrite H. Qed.
Lemma remove_remove r s ts : remove_turns r (remove_turns s ts) = remove_turns (s ++ r) ts.
Proof. unfold remove_turns. rewrite list_filter_filter. apply list_filter_iff. intros t. set_solver. Qed.

(** ** The accumulator *)

Record acc_wf (a : ThreadHistoryChangeAccumulator) : Prop := {
  wf_items : indexes_ok item_key (acc_items a) (acc_item_indexes a);
  wf_turns : indexes_ok ch_turn_id (acc_turns a) (acc_turn_indexes a);
  wf_removed : ∀ id, is_Some (acc_removed_indexes a !! id) ↔ id ∈ acc_removed a }.

(** The turns of the client when the merged turns are applied. *)
Definition acc_base (a : ThreadHistoryChangeAccumulator) (ts : list Turn) : list Turn :=
  fold_left apply_turn_change (omap id (acc_turns a)) (remove_turns (acc_removed a) ts).
Definition anchored (a : ThreadHistoryChangeAccumulator) (ts : list Turn) : Prop :=
  Forall (λ c, ic_turn_id c ∈ turn_ids (acc_base a ts)) (omap id (acc_items a)).
Notation applied a ts := (apply_changes (accumulator_finish a) ts).

Lemma applied_eq a ts : applied a ts = fold_left apply_item_change (omap id (acc_items a)) (acc_base a ts).
Proof. done. Qed.
Lemma applied_ids a ts : turn_ids (applied a ts) = turn_ids (acc_base a ts).
Proof. apply item_changes_ids. Qed.

Lemma push_removed_removed x a y :
  y ∈ acc_removed (push_removed_turn_id x a) ↔ y ∈ acc_removed a ∨ (y = x ∧ acc_removed_indexes a !! x = None).
Proof. unfold push_removed_turn_id. destruct (acc_removed_indexes a !! x); simpl; set_solver. Qed.

Lemma push_removed_slots x a : acc_wf a →
  acc_items (push_removed_turn_id x a) = drop_slot item_key (λ k, k.1 ≠ x) <$> acc_items a ∧
  acc_turns (push_removed_turn_id x a) = drop_slot ch_turn_id (λ k, k ≠ x) <$> acc_turns a.
Proof.
  intros [Hi Ht _]. split.
  - transitivity (clear_slots (snd <$> filter (λ e : (list N * list N) * nat, e.1.1 = x) (map_to_list (acc_item_indexes a))) (acc_items a)).
    { unfold push_removed_turn_id. by destruct (acc_removed_indexes a !! x). }
    rewrite <- (clear_drop item_key (λ k, k.1 ≠ x) _ _ Hi). do 2 f_equal. apply list_filter_iff. intros [[l ?] ?]. simpl.
    split; [tauto|]. by destruct (decide (l = x)).
  - transitivity (match acc_turn_indexes a !! x with Some i => <[i := None]> (acc_turns a) | None => acc_turns a end).
    { unfold push_removed_turn_id. by destruct (acc_removed_indexes a !! x). }
    by apply clear_one.
Qed.
Lemma push_removed_wf x a : acc_wf a → acc_wf (push_removed_turn_id x a).
Proof.
  intros Hwf. destruct (push_removed_slots x a Hwf) as [H1 H2]. destruct Hwf as [Hi Ht Hr]. split.
  - rewrite H1. replace (acc_item_indexes (push_removed_turn_id x a)) with
      (filter (λ e : (list N * list N) * nat, e.1.1 ≠ x) (acc_item_indexes a)).
    + exact (indexes_drop item_key (λ k, k.1 ≠ x) _ _ Hi).
    + unfold push_removed_turn_id. by destruct (acc_removed_indexes a !! x).
  - rewrite H2. replace (acc_turn_indexes (push_removed_turn_id x a)) with (delete x (acc_turn_indexes a)).
    + rewrite delete_filter. exact (indexes_drop ch_turn_id (λ k, k ≠ x) _ _ Ht).
    + unfold push_removed_turn_id. by destruct (acc_removed_indexes a !! x).
  - intros y. rewrite push_removed_removed, <- Hr. unfold push_removed_turn_id.
    destruct (acc_removed_indexes a !! x) eqn:E; simpl; [naive_solver|].
    destruct (decide (y = x)) as [->|]; [rewrite lookup_insert_eq; naive_solver|rewrite lookup_insert_ne by done; naive_solver].
Qed.
Lemma push_removed_ok a ts x : acc_wf a → anchored a ts →
  anchored (push_removed_turn_id x a) ts ∧ applied (push_removed_turn_id x a) ts = remove_turns [x] (applied a ts).
Proof.
  intros Hwf Hanc. destruct (push_removed_slots x a Hwf) as [H1 H2].
  assert (Hbase : acc_base (push_removed_turn_id x a) ts = remove_turns [x] (acc_base a ts)).
  { unfold acc_base. rewrite remove_turn_changes, H2, omap_drop, remove_remove. f_equal.
    - apply list_filter_iff. set_solver.
    - apply remove_ext. intros y. rewrite push_removed_removed, elem_of_app, list_elem_of_singleton.
      split; [tauto|]. intros [?| ->]; [by left|]. destruct (acc_removed_indexes a !! x) eqn:E; [|by right].
      left. apply (wf_removed _ Hwf). by eexists. }
  split.
  - unfold anchored. rewrite Hbase, H1, omap_drop. apply Forall_forall. intros c [Hc Hin]%list_elem_of_filter.
    apply elem_of_remove. split; [|simpl in Hc; set_solver]. unfold anchored in Hanc. rewrite Forall_forall in Hanc. by apply Hanc.
  - rewrite !applied_eq, Hbase, H1, omap_drop, remove_item_changes. f_equal. apply list_filter_iff. simpl. set_solver.
Qed.

Lemma push_turn_ok a ts c : acc_wf a → anchored a ts →
  acc_wf (push_turn_change c a) ∧ anchored (push_turn_change c a) ts ∧
  applied (push_turn_change c a) ts = apply_turn_change (applied a ts) c.
Proof.
  intros [Hi Ht Hr] Hanc.
  assert (Hsplit : acc_wf (push_turn_change c a) ∧ acc_base (push_turn_change c a) ts = apply_turn_change (acc_base a ts) c).
  { unfold push_turn_change. destruct (acc_turn_indexes a !! ch_turn_id c) as [i|] eqn:E.
    - destruct (indexes_replace ch_turn_id _ _ _ _ Ht E) as (Hok & l1 & d & l2 & E1 & E2 & Hk & Hn).
      split; [by split|]. unfold acc_base. simpl. rewrite E1, E2. by apply turns_replace.
    - split; [split; [done| |done]; by apply indexes_push|]. unfold acc_base. simpl. by rewrite omap_app, fold_left_app. }
  destruct Hsplit as [Hwf Hbase].
  assert (Hsame : acc_items (push_turn_change c a) = acc_items a).
  { unfold push_turn_change. by destruct (acc_turn_indexes a !! _). }
  split; [done|]. split.
  - unfold anchored. rewrite Hbase, Hsame. eapply Forall_impl; [done|]. intros d. rewrite turn_change_ids. set_solver.
  - rewrite !applied_eq, Hbase, Hsame. symmetry. by apply turn_items_commute.
Qed.
Lemma push_item_ok a ts c : acc_wf a → anchored a ts → ic_turn_id c ∈ turn_ids (applied a ts) →
  acc_wf (push_item_change c a) ∧ anchored (push_item_change c a) ts ∧
  applied (push_item_change c a) ts = apply_item_change (applied a ts) c.
Proof.
  intros [Hi Ht Hr] Hanc Hin. rewrite applied_ids in Hin. unfold anchored in *.
  unfold push_item_change. fold (item_key c). destruct (acc_item_indexes a !! item_key c) as [i|] eqn:E.
  - destruct (indexes_replace item_key _ _ _ _ Hi E) as (Hok & l1 & d & l2 & E1 & E2 & Hk & Hn).
    split; [by split|]. unfold anchored, acc_base in *. rewrite !applied_eq. unfold acc_base. simpl. rewrite E1, E2 in *. split.
    + apply Forall_app in Hanc as [? Hanc]. inv Hanc. apply Forall_app. split; [done|]. by constructor.
    + by apply items_replace.
  - split; [split; [|done|done]; by apply indexes_push|]. unfold anchored. rewrite !applied_eq. unfold acc_base in *. simpl.
    rewrite omap_app, fold_left_app. split; [|done]. apply Forall_app. split; [done|]. by constructor.
Qed.

(** Items and turns are kept apart, so the order in which they are pushed does not matter. *)
Lemma push_item_turn c d a : push_turn_change d (push_item_change c a) = push_item_change c (push_turn_change d a).
Proof.
  unfold push_turn_change, push_item_change. destruct (acc_item_indexes a !! _) eqn:E1; simpl;
    destruct (acc_turn_indexes a !! _) eqn:E2; simpl; rewrite ?E1; done.
Qed.
Lemma push_items_turns l l' a :
  fold_left (λ a d, push_turn_change d a) l' (fold_left (λ a c, push_item_change c a) l a) =
  fold_left (λ a c, push_item_change c a) l (fold_left (λ a d, push_turn_change d a) l' a).
Proof.
  revert a. induction l as [|c l IH]; intros a; [done|]. simpl. rewrite IH. f_equal. clear IH.
  revert a. induction l' as [|d l' IH]; intros a; [done|]. simpl. rewrite push_item_turn. apply IH.
Qed.

Lemma push_removed_all l a ts : acc_wf a → anchored a ts →
  let a' := fold_left (λ a x, push_removed_turn_id x a) l a in
  acc_wf a' ∧ anchored a' ts ∧ applied a' ts = remove_turns l (applied a ts).
Proof.
  revert a. induction l as [|x l IH]; intros a Hwf Hanc; simpl; [by rewrite remove_turns_nil|].
  destruct (push_removed_ok a ts x Hwf Hanc) as [H1 H2].
  destruct (IH _ (push_removed_wf x a Hwf) H1) as (? & ? & ->). split; [done|]. split; [done|]. by rewrite H2, remove_remove.
Qed.
Lemma push_turns_all l a ts : acc_wf a → anchored a ts →
  let a' := fold_left (λ a c, push_turn_change c a) l a in
  acc_wf a' ∧ anchored a' ts ∧ applied a' ts = fold_left apply_turn_change l (applied a ts).
Proof.
  revert a. induction l as [|c l IH]; intros a Hwf Hanc; simpl; [done|].
  destruct (push_turn_ok a ts c Hwf Hanc) as (H1 & H2 & H3). rewrite <- H3. by apply IH.
Qed.
Lemma push_items_all l a ts : acc_wf a → anchored a ts → Forall (λ c, ic_turn_id c ∈ turn_ids (applied a ts)) l →
  let a' := fold_left (λ a c, push_item_change c a) l a in
  acc_wf a' ∧ anchored a' ts ∧ applied a' ts = fold_left apply_item_change l (applied a ts).
Proof.
  revert a. induction l as [|c l IH]; intros a Hwf Hanc Hl; simpl; [done|]. apply Forall_cons in Hl as [Hc Hl].
  destruct (push_item_ok a ts c Hwf Hanc) as (H1 & H2 & H3); [done|]. rewrite <- H3. apply IH; [done..|].
  rewrite H3. eapply Forall_impl; [done|]. intros d. unfold apply_item_change. by rewrite update_turn_ids.
Qed.

(** One more report merged is one more report applied. *)
Lemma push_changes_ok cs a ts : acc_wf a → anchored a ts →
  Forall (λ c, ic_turn_id c ∈ turn_ids (fold_left apply_turn_change (changed_turns cs)
                                          (remove_turns (removed_turn_ids cs) (applied a ts)))) (changed_items cs) →
  acc_wf (push_changes cs a) ∧ anchored (push_changes cs a) ts ∧
  applied (push_changes cs a) ts = apply_changes cs (applied a ts).
Proof.
  intros Hwf Hanc Hf. unfold push_changes. rewrite push_items_turns.
  destruct (push_removed_all (removed_turn_ids cs) a ts Hwf Hanc) as (Hwf1 & Hanc1 & E1).
  destruct (push_turns_all (changed_turns cs) _ ts Hwf1 Hanc1) as (Hwf2 & Hanc2 & E2). rewrite E1 in E2.
  destruct (push_items_all (changed_items cs) _ ts Hwf2 Hanc2) as (Hwf3 & Hanc3 & E3); [by rewrite E2|].
  rewrite E2 in E3. done.
Qed.

(** ** Batches *)

(** Every item is admissible when its turn comes. *)
Fixpoint run_admissible (items : list RolloutItem) (b : ThreadHistoryBuilder) : bool :=
  match items with
  | [] => true
  | item :: items => admissible item b && run_admissible items (handle_rollout_item item b)
  end.

Lemma untracked b : active_change_set b = None → with_changes None b = b.
Proof. destruct b. simpl. by intros ->. Qed.

Lemma item_with_changes b item : after b → active_change_set b = None → admissible item b = true →
  ∃ cs, handle_rollout_item_with_changes item b = (handle_rollout_item item b, cs) ∧
    tracks b (handle_rollout_item item b) cs ∧ after (handle_rollout_item item b) ∧
    active_change_set (handle_rollout_item item b) = None.
Proof.
  intros Ha Hn Hadm. destruct (item_tracked b item Ha Hadm) as [Ha' [cs' Hcs']].
  assert (Hn' : active_change_set (handle_rollout_item item b) = None).
  { destruct Hcs' as (_ & -> & _). by rewrite Hn. }
  set (bt := with_changes (Some empty_change_set) b).
  destruct (item_tracked bt item) as [_ [cs (Hs & Hact & Hf)]]; [by destruct Ha|done|].
  assert (Hsame : with_changes None (handle_rollout_item item bt) = handle_rollout_item item b).
  { rewrite <- (untracked _ Hn'). by apply rollout_item_same. }
  assert (Hsnap : snapshot (handle_rollout_item item bt) = snapshot (handle_rollout_item item b)) by by rewrite <- Hsame.
  exists cs. unfold handle_rollout_item_with_changes, collect_changes. fold bt. rewrite Hact, Hsame. simpl.
  split; [by destruct cs|]. split; [|done]. split; [by rewrite <- Hsnap|]. split; [by rewrite Hn, Hn'|done].
Qed.

Lemma batch_ok items b a ts :
  after b → active_change_set b = None → run_admissible items b = true → acc_wf a → anchored a ts → applied a ts = snapshot b →
  ∃ a', batch_loop items b a = (handle_rollout_items items b, a') ∧ after (handle_rollout_items items b) ∧
    active_change_set (handle_rollout_items items b) = None ∧ applied a' ts = snapshot (handle_rollout_items items b).
Proof.
  revert b a. induction items as [|item items IH]; intros b a Ha Hn Hrun Hwf Hanc Hap; [by exists a|].
  cbn [batch_loop run_admissible] in *. apply andb_true_iff in Hrun as [Hadm Hrun].
  destruct (item_with_changes b item Ha Hn Hadm) as (cs & -> & (Hs & _ & Hf) & Ha' & Hn').
  rewrite <- Hap in Hs, Hf. destruct (push_changes_ok cs a ts Hwf Hanc Hf) as (H1 & H2 & H3).
  apply IH; [done..|]. congruence.
Qed.

Lemma after_new : after new_builder.
Proof. split; [done|]. split; [apply NoDup_nil_2|apply List.Forall_nil|intros n Hn; by apply not_elem_of_nil in Hn|done|done]. Qed.
Lemma finish_eq b : live b → finish b = snapshot b.
Proof. intros Hl. unfold finish. by rewrite <- (snapshot_none _ (finish_current b)), finish_snapshot. Qed.

Lemma acc_empty_ok ts : acc_wf empty_accumulator ∧ anchored empty_accumulator ts ∧ applied empty_accumulator ts = ts.
Proof.
  split; [|split; [constructor|apply remove_turns_nil]].
  split; [intros k i; simpl; rewrite lookup_empty; naive_solver|intros k i; simpl; rewrite lookup_empty; naive_solver|].
  intros x. simpl. rewrite lookup_empty. split; [by intros []|set_solver].
Qed.

Lemma run_admissible_app items1 items2 b :
  run_admissible (items1 ++ items2) b = run_admissible items1 b && run_admissible items2 (handle_rollout_items items1 b).
Proof. revert b. induction items1 as [|item items1 IH]; intros b; simpl; [done|]. by rewrite IH, andb_assoc. Qed.

Lemma run_after items : run_admissible items new_builder = true →
  after (handle_rollout_items items new_builder) ∧ active_change_set (handle_rollout_items items new_builder) = None.
Proof.
  intros Hrun. destruct (acc_empty_ok []) as (H1 & H2 & H3).
  destruct (batch_ok items new_builder empty_accumulator [] after_new eq_refl Hrun H1 H2 H3) as (a & _ & Ha & Hn & _). done.
Qed.

(** C26. A client that has the turns of a thread and applies the merged report of a batch of appended items has
    exactly the turns of the longer rollout; and reporting changes nothing in the builder.  The items may be
    of every kind, roll-backs, late items of finished turns and implicit turns included, as long as each is
    admissible where it stands: ids given from outside are not of the form the builder generates, no turn is
    started twice, a hook prompt is new in its turn, an event of the review mode that names a turn names its
    item as well, and the counter of items has room. *)
Theorem change_sets_replay_history (items1 items2 : list RolloutItem) :
  run_admissible (items1 ++ items2) new_builder = true →
  let b := handle_rollout_items items1 new_builder in
  let '(b', changes) := handle_rollout_items_with_changes items2 b in
  apply_changes changes (build_turns_from_rollout_items items1) = build_turns_from_rollout_items (items1 ++ items2) ∧
  b' = handle_rollout_items items2 b.
Proof.
  rewrite run_admissible_app. intros [Hr1 Hr2]%andb_true_iff b. destruct (run_after items1 Hr1) as [Ha Hn].
  destruct (acc_empty_ok (snapshot b)) as (H1 & H2 & H3).
  destruct (batch_ok items2 b empty_accumulator (snapshot b) Ha Hn Hr2 H1 H2 H3) as (a & Heq & Ha' & Hn' & Hap).
  unfold handle_rollout_items_with_changes. rewrite Heq. split; [|done].
  assert (Happ : handle_rollout_items (items1 ++ items2) new_builder = handle_rollout_items items2 b).
  { unfold handle_rollout_items. by rewrite fold_left_app. }
  unfold build_turns_from_rollout_items. rewrite Happ, !finish_eq; [done|apply Ha'|apply Ha].
Qed.

(** The ids of the turns of a rebuilt thread are different, and so are the ids of the items in a turn. *)
Theorem rebuilt_ids_unique items : run_admissible items new_builder = true →
  NoDup (turn_ids (build_turns_from_rollout_items items)) ∧
  Forall (λ t, NoDup (item_ids t)) (build_turns_from_rollout_items items).
Proof.
  intros Hrun. destruct (run_after items Hrun) as [[Hl Hok] _]. unfold build_turns_from_rollout_items.
  rewrite finish_eq by done. split; apply Hok.
Qed.

(** ** The stateless projection *)

Definition none {A} (o : option A) : bool := match o with None => true | Some _ => false end.

(** Records of the canonical format: a turn that ends was started at the time the record says and has
    no error of its own; an item that is complete belongs to a turn that is known. *)
Definition canonical (item : RolloutItem) (b : ThreadHistoryBuilder) : bool :=
  match item with
  | RolloutEvent (EvTurnStarted _) => true
  | RolloutEvent (EvTurnComplete p) =>
      match turn_snapshot (tc_turn_id p) b with
      | Some t => none (tc_error p) && none (turn_error t) && bool_decide (started_at t = tc_started_at p)
                  && match turn_status t with Completed | InProgress => true | _ => false end
      | None => false
      end
  | RolloutEvent (EvTurnAborted p) =>
      match ta_turn_id p with
      | Some id => match turn_snapshot id b with
                   | Some t => none (turn_error t) && bool_decide (started_at t = ta_started_at p)
                   | None => false
                   end
      | None => none (current_turn b)
      end
  | RolloutEvent (EvItemCompleted id item) =>
      should_upsert item && negb (is_review_mode_item item) && negb (none (turn_snapshot id b))
  | RolloutEvent (EvTokenCount | EvDurable | EvTransient) | RolloutOther => true
  | _ => false
  end.

Lemma turn_snapshot_cases id b t : turn_snapshot id b = Some t →
  (∃ turn, current_is id b = Some turn ∧ t = turn_from_pending turn) ∨
  (current_is id b = None ∧ find_turn id (turns b) = Some t).
Proof. unfold turn_snapshot. destruct (current_is id b) as [turn|]; [|by right]. intros [= <-]. left. eauto. Qed.

Lemma finish_report b : active_change_set (finish_current_turn b) = active_change_set b.
Proof. by destruct (finish_frame b) as [-> _]. Qed.

Lemma projected_complete p b : canonical (RolloutEvent (EvTurnComplete p)) b = true →
  active_change_set b = Some empty_change_set →
  active_change_set (handle_turn_complete p b) = Some (project_rollout_line (RolloutEvent (EvTurnComplete p))).
Proof.
  simpl. destruct (turn_snapshot _ b) as [t|] eqn:Hs; [|done]. intros Hc Ha.
  destruct (tc_error p); [done|]. destruct (turn_error t) eqn:He; [done|].
  apply andb_true_iff in Hc as [Hst%bool_decide_eq_true Hstatus].
  assert (Hm : mark_completed (turn_status t) = Completed) by by destruct (turn_status t).
  unfold handle_turn_complete. apply turn_snapshot_cases in Hs as [(turn & Hcur & ->)|[Hcur Hf]]; rewrite Hcur.
  - rewrite finish_report. apply current_is_Some in Hcur as [_ Hid]. simpl in *. rewrite Ha. simpl. unfold from_pending_turn. simpl.
    by rewrite Hm, He, Hst, Hid.
  - rewrite Hf. simpl. rewrite Ha. simpl. unfold from_turn. simpl. destruct (find_turn_in _ _ _ Hf) as (_ & Hid & _).
    by rewrite Hm, He, Hst, Hid.
Qed.
Lemma projected_aborted p b : canonical (RolloutEvent (EvTurnAborted p)) b = true →
  active_change_set b = Some empty_change_set →
  active_change_set (handle_turn_aborted p b) = Some (project_rollout_line (RolloutEvent (EvTurnAborted p))).
Proof.
  simpl. unfold handle_turn_aborted. destruct (ta_turn_id p) as [id|]; [|by destruct (current_turn b)].
  destruct (turn_snapshot id b) as [t|] eqn:Hs; [|done]. intros Hc Ha. destruct (turn_error t) eqn:He; [done|].
  apply bool_decide_eq_true in Hc. apply turn_snapshot_cases in Hs as [(turn & Hcur & ->)|[Hcur Hf]]; rewrite Hcur.
  - apply current_is_Some in Hcur as [_ Hid]. simpl in *. rewrite Ha. simpl. unfold from_pending_turn. simpl. by rewrite He, Hc, Hid.
  - rewrite Hf. simpl. rewrite Ha. simpl. unfold from_turn. simpl. destruct (find_turn_in _ _ _ Hf) as (_ & Hid & _).
    by rewrite He, Hc, Hid.
Qed.
Lemma projected_item id item b : canonical (RolloutEvent (EvItemCompleted id item)) b = true →
  active_change_set b = Some empty_change_set →
  active_change_set (handle_materialized_item_lifecycle id item b) =
    Some (project_rollout_line (RolloutEvent (EvItemCompleted id item))).
Proof.
  simpl. intros [[Hu Hr%negb_true_iff]%andb_true_iff Hs]%andb_true_iff Ha. destruct (turn_snapshot id b) as [t|] eqn:E; [|done].
  unfold handle_materialized_item_lifecycle, upsert_item_in_turn_id. rewrite Hu, Hr.
  apply turn_snapshot_cases in E as [(turn & Hcur & ->)|[Hcur Hf]]; rewrite Hcur.
  - apply current_is_Some in Hcur as [_ Hid]. simpl. rewrite Ha. simpl. by rewrite Hid.
  - rewrite Hf. simpl. rewrite Ha. simpl. destruct (find_turn_in _ _ _ Hf) as (_ & Hid & _). by rewrite Hid.
Qed.

(** On such records the projection reports what the builder reports, without the builder's state. *)
Theorem projection_agrees item b : canonical item b = true →
  (handle_rollout_item_with_changes item b).2 = project_rollout_line item.
Proof.
  intros Hc. unfold handle_rollout_item_with_changes, collect_changes, handle_rollout_item. cbn [snd].
  set (bt := advance_rollout (with_changes (Some empty_change_set) b)).
  destruct item as [event| | |]; try done.
  assert (H : active_change_set (handle_event event bt) = Some (project_rollout_line (RolloutEvent event))).
  { destruct event; try done.
    - by apply (projected_item _ _ bt).
    - by apply (projected_aborted _ bt).
    - cbn [handle_event]. unfold handle_turn_started, open_turn. simpl. rewrite record_pending_active. simpl. by rewrite finish_report.
    - by apply (projected_complete _ bt). }
  by rewrite H.
Qed.
End replay.

(** ** Examples *)

(** Paths are their texts, and there are no JSON values but null. *)
Definition plain_wire : Wire := {|
  JsonValue := unit; JsonNull := tt; PathUri := list N; is_native := λ _, true; to_abs_path := Some;
  uri_legacy := id; abs_legacy := id; home_dir := None; shlex_try_join := λ ws, Some (join (lit " ") ws);
  parse_command := λ _, []; hook_prompt_from_xml := λ _, None; now_v7 := λ n, lit "uuid-" ++ lit (pretty n) |}.

Section examples.
#[local] Existing Instance plain_wire.

Definition started (id : list N) (at_ : Z) : RolloutItem := RolloutEvent (EvTurnStarted (mkTurnStarted id (Some at_))).
Definition user (text : list N) : RolloutItem := RolloutEvent (EvUserMessage (mkUserMessage None text None [] [] [] [])).
Definition completed (id : list N) (error : option ErrorEvent) : RolloutItem :=
  RolloutEvent (EvTurnComplete (mkTurnComplete id error (Some 1%Z) (Some 2%Z) None)).

(** A turn, then a batch in which a turn is rolled back and another one is begun. *)
Definition first_items : list RolloutItem :=
  [started (lit "t1") 1; user (lit "hello"); RolloutEvent (EvWebSearchBegin (lit "ws_1")); completed (lit "t1") None].
Definition more_items : list RolloutItem :=
  [started (lit "t2") 3; user (lit "why"); RolloutEvent (EvAgentReasoning (lit "a")); RolloutEvent (EvAgentReasoning (lit "b"));
   RolloutEvent (EvThreadRolledBack 1); user (lit "again"); RolloutEvent (EvAgentMessage (lit "ok") None None);
   RolloutEvent (EvItemCompleted (lit "t1") (Core.Sleep (lit "s_1") 5))].

Example rebuilt_ids : (λ t, (turn_id t, item_ids t)) <$> build_turns_from_rollout_items (first_items ++ more_items) =
  [(lit "t1", [lit "item-1"; lit "ws_1"; lit "s_1"]); (lit "rollout-9", [lit "item-3"; lit "item-4"])].
Proof. vm_compute. reflexivity. Qed.

Lemma change_sets_replay_history_witness :
  run_admissible (first_items ++ more_items) new_builder = true ∧
  let '(b', changes) := handle_rollout_items_with_changes more_items (handle_rollout_items first_items new_builder) in
  apply_changes changes (build_turns_from_rollout_items first_items) = build_turns_from_rollout_items (first_items ++ more_items) ∧
  b' = handle_rollout_items more_items (handle_rollout_items first_items new_builder).
Proof.
  split; [vm_compute; reflexivity|]. apply (change_sets_replay_history first_items more_items). vm_compute. reflexivity.
Defined.

(** Errors are not written to a rollout, only the end of the turn is, with the error in it; and the end of
    a turn is read without its error.  A turn that failed is complete when the thread is read again. *)
Definition failed_turn : list RolloutItem :=
  let e := mkErrorEvent (lit "out of context") (Some ContextWindowExceeded) in
  [started (lit "t1") 1; user (lit "hello"); RolloutEvent (EvError e); completed (lit "t1") (Some e)].

Theorem failed_turn_rebuilt_as_completed :
  (λ t, (turn_status t, turn_error t)) <$> build_turns_from_rollout_items failed_turn =
    [(Failed, Some (mkTurnError (lit "out of context") (Some ContextWindowExceeded) None))] ∧
  (λ t, (turn_status t, turn_error t)) <$> build_turns_from_rollout_items (persisted_rollout_items failed_turn Legacy) =
    [(Completed, None)] ∧
  changed_turns (project_rollout_line (completed (lit "t1") (Some (mkErrorEvent (lit "out of context") (Some ContextWindowExceeded))))) =
    [mkTurnChange (lit "t1") Failed (Some (mkTurnError (lit "out of context") (Some ContextWindowExceeded) None))
       (Some 1%Z) (Some 2%Z) None].
Proof. vm_compute. done. Qed.
End examples.
